(* ===== verification/_CoqProject ===== *)
-Q . S2P
Prelude.v
Bytes.v
External.v
Protocol.v
ClientWire.v
Encoding.v
FsTree.v
FsTreeSpec.v
FsTreeReads.v
BlobStore.v
TurnStore.v
TurnHistory.v
TurnRecovery.v
FsStore.v
Metadata.v
Json.v
JsonCodec.v
Registry.v
RegistrySpec.v
Projection.v
ProjectionSpec.v
CqlAst.v
ServerConfig.v
S3Sync.v
S3SyncSpec.v
CqlLexer.v
CqlParser.v
CqlRender.v
CqlIndexes.v
CqlExecutor.v
CqlSemantics.v
Store.v
StoreInvariant.v
StoreSpec.v
S3Restore.v
ServerMain.v
StoreLineage.v
Events.v
Sessions.v
MetricsView.v
Server.v
Client.v
HttpPayload.v
HttpPayloadSpec.v
HttpViews.v
Sse.v
Threads.v
Subscribe.v
ClientEvents.v
SseSpec.v
Follow.v
Http.v
ServerEffects.v
HttpSpec.v
ServerSpec.v
Wire.v
FsTreeUpload.v
FollowSpec.v
Reconnect.v
Telemetry.v
ReconnectSpec.v
Conversation.v
ConversationCodec.v
SubscribeTool.v
CxtxProvider.v
CxtxTurns.v
CxtxSession.v
CxtxSse.v
CxtxOpenAi.v
CxtxAnthropic.v
CxtxLedger.v
CxtxHttp.v
CxtxDelivery.v
CxtxDeliverySpec.v
CxtxSessionSpec.v
CxtxProxy.v
CxtxProxySpec.v
CxtxWebsocket.v
CxtxRun.v
CxtxRunSpec.v
