(* ===== verification/Prelude.v ===== *)
(** * CXDB: a verification development of the context store

    CXDB keeps conversation turns for agents. A turn names its parent, so turns form trees that
    only grow; a context is a mutable pointer to a turn; payloads are blobs
    addressed by their BLAKE3 hash. A server ([src/server]) keeps all of this in append-only files
    and in maps in memory, and answers a binary protocol and HTTP; clients ([src/clients/rust])
    write, read and follow turns; a proxy ([src/cxtx]) stands between an agent and the service of a
    language model and writes what passes as turns. This library translates that code
    into executable definitions and proves what it promises.

    ** Parts

    Basics. [Prelude]: results, integers of a width, lists, tactics. [Bytes]:
    little-endian encodings, cursors, UTF-8, texts. [External]: the libraries that the code calls, each a
    class with its operation and a class with the documented laws, and sample instances.
    [Json] and [JsonCodec]: the values of serde_json, their printing and parsing.

    The wire. [Protocol] is server/src/protocol/mod.rs with the errors of server/src/error.rs;
    [ClientWire] is the codec of the client (clients/rust/src/{protocol,context,turn,fs,error}.rs).

    Storage. [BlobStore] (server/src/blob_store/mod.rs), [TurnStore] (server/src/turn_store/mod.rs) with
    [TurnHistory] and [TurnRecovery] for its theorems, [FsStore]
    (server/src/fs_store/mod.rs), [Metadata] (the extraction of context metadata in
    server/src/store.rs) and [Store] (the rest of server/src/store.rs), which
    composes them. [StoreInvariant], [StoreSpec] and [StoreLineage] hold the theorems of [Store].
    [S3Sync] (server/src/s3_sync.rs) copies the files of the stores to a bucket, where every call may find
    them changed, and restores them; [S3SyncSpec] has the invariant of the copy and [S3Restore] the
    store that opens on restored files.

    Search. [CqlAst], [CqlLexer], [CqlParser], [CqlIndexes] and [CqlExecutor] are
    server/src/cql/; [CqlRender] and [CqlSemantics] hold theorems.

    Types. [Registry] (server/src/registry/mod.rs: bundles of type descriptors, their checks and files)
    and [Projection] (server/src/projection/mod.rs: a msgpack payload shown as JSON by its type), with
    [RegistrySpec] and [ProjectionSpec].

    The process. [ServerConfig] (server/src/config.rs and what the other files read from the
    environment), [Events] (server/src/events.rs), [Sessions] (the session tracker and the counters
    of server/src/metrics.rs) and [MetricsView] (its rates, latencies and snapshot), [Server]
    (handle_client of server/src/main.rs) and [ServerMain] (main: the restoring before the stores are
    opened, and the accept loop) with [ServerSpec]. The gateway server/src/http/mod.rs is in four files: [HttpPayload] (JSON to payload),
    [HttpViews] (the JSON of each answer), [Http] (routes and handlers) and [Sse] (the event stream), with [HttpPayloadSpec],
    [HttpSpec] and [ServerEffects] (what a request of either protocol does to the shared state).

    The client. [Client] (dialling and the calls) and [Wire], the two ends connected; [Threads] (what its threads do
    to their channels), [Subscribe] (subscribe.rs), [ClientEvents] (sse_decode.rs, events.rs) with
    [SseSpec]; [Follow] (follow.rs) with [FollowSpec]; [Reconnect] (reconnect.rs) with [ReconnectSpec];
    [Telemetry] (telemetry.rs); [Encoding] (encoding.rs: msgpack with ordered maps); [FsTree] (fstree/: the
    capture of a directory as trees addressed by their hashes, comparing and uploading) with
    [FsTreeSpec], [FsTreeReads] and [FsTreeUpload], which composes it with the server; [Conversation]
    (types/: the items of a conversation, their builders, the provenance of a process) and
    [ConversationCodec] (what derive makes of these types, as msgpack); [SubscribeTool]
    (bin/cxdb-subscribe.rs).

    The proxy. [CxtxTurns] (turns.rs), [CxtxSession] (session.rs), [CxtxLedger] (ledger.rs),
    [CxtxDelivery] (delivery.rs), [CxtxHttp] (cxdb_http.rs); [CxtxProvider], [CxtxSse], [CxtxOpenAi] and
    [CxtxAnthropic] (provider/); [CxtxProxy] and [CxtxWebsocket] (proxy.rs); [CxtxRun] (cli.rs, lib.rs).
    A file whose name ends in Spec holds the theorems of the file it is named after; smaller files
    hold their theorems themselves.

    ** Correspondence

    A file is its list of bytes, and an operation that appends returns the longer list; a
    read past the end is the error [UnexpectedEof]; writes are taken to succeed, except where
    a caller tells failure apart (the ledger and the deliveries of the proxy, the copy in S3). A method on
    [&mut self] takes the state and returns it next to its result, also when the
    result is an error, so that partial effects are visible. Unsigned integers are [N] with the
    wrap-around of a release build written out where the code can overflow, [i64] is [Z], [f64] is the
    standard library's [SpecFloat], and a [String] is the list of its UTF-8 bytes. A
    [HashMap] is a [gmap]; its iteration order is an arbitrary permutation, a
    parameter of the definitions ([HashOrder]). An object of JSON is a list sorted by key. The clock
    is an argument. BLAKE3, CRC-32, zstd,
    msgpack decoding, Unicode tables, date parsing, glob patterns and the texts of operating-system
    errors are parameters with their laws.

    Concurrency. Requests are handled while the lock of the store is held, hence interleave as wholes.
    The event bus, the reconnecting client's queue, the telemetry's queue and thread, the delivery worker
    and the main task of the proxy are state machines whose steps interleave with those of the other
    tasks. A copy to S3 runs while files grow during any of its calls. The
    client's subscribing and following threads run in a world of which only the calls they make are
    known. The relay of a WebSocket is a fold over an arbitrary interleaving of the two sockets'
    events. A handler of the proxy is written twice: as a function that threads the session, the ledger
    and the turns handed over, and as a program of single steps (a call under the lock of the session,
    a call of the world, handing turns over); [CxtxProxySpec] proves the two equal
    when nothing comes in between, and what is recorded for every interleaving of any number of
    programs ([pool_step]). The two maps of the session tracker have locks of their own; an operation
    on both is one step here ([Sessions] says what that hides).

    ** Theorems

    The codecs of both sides are inverse to each other, exact on errors and safe to
    pipeline ([Protocol], [ClientWire], [Wire]). The blob store is a map from hashes to bytes, under
    puts and reopening, and detects corrupted packs ([BlobStore]). Turn histories, paging, forks and
    their isolation, and recovery of every file of the turn store after a torn write
    ([TurnHistory], [TurnRecovery]); snapshot roots and paths ([FsStore]); metadata ([Metadata]).
    The parser of CQL is sound and complete for the grammar, and execution denotes the set semantics
    of queries. The store as a whole keeps its invariant and reads back what was appended.
    What the client writes about a context in the first turn is what the server extracts. A copy in S3
    is sound at any moment, and a server that restores it serves what was covered: the sizes that
    the round recorded, whatever uploads failed.
    The registry accepts only compatible changes and survives a restart; a projection renders every
    field in the form of its type, stated by a relation of its own ([has_type] in [ProjectionSpec]), and keeps integers
    exact within the range of their kind and shows null outside it. The gateway: what is posted is
    what is read, paging is complete, errors change nothing. Events reach every subscriber, also over the event stream;
    following delivers a history without gaps; every call queued in the reconnecting client is
    answered once, by its result or by the error of the queue, before the worker ends, and a reconnect
    dials at most as often as it may and gives up only then or when interrupted.
    File trees: a capture ends, a snapshot reads like the directory, differences are exact, and after
    an upload the server finds every file under its path. An item of a conversation is read back
    exactly when no field of it was skipped. Telemetry loses no request without counting it.
    The proxy: what the agent sends and receives is passed unchanged but for the headers named there,
    what passes is recorded, and turns arrive in the order they were handed over, whatever deliveries
    fail, with the notice of an outage when it is over; a streamed answer is recorded like the
    one sent whole.

    Restarts. The states of the stores that the theorems are about ([TurnRecovery.reached],
    [StoreInvariant.reachable]) are those that operations and restarts lead to. A restart may follow a
    crash at any byte of any write, also between two writes of one append ([interrupted], [stopped]; for
    the whole store not between the record of a turn and its metadata, which leaves a turn that only
    a client which names it as a parent can meet).
    Where opening leaves a fragment of a record at the end of turns.meta, heads.tbl or the
    file of the roots, the store serves what it served, and records written behind the fragment are read wrongly
    by the restart after that: a further restart is covered only when no fragment was left ([clean],
    [no_fragment]); [short_meta_tail_loses_metadata] shows what happens otherwise.

    ** Fuel and bounds

    Loops that are not structural have fuel, always computed from the input (the length of a file or
    text, the number of turns) and proved enough: [walk_back_history], [load_turns_replay],
    [load_meta_replay], [load_heads_replay], the lexer's and the parser's completeness theorems,
    the descendants' search, the parser of the event stream. Theorems about states reached by operations assume fewer than 2^32 turns
    and 2^64 contexts, sessions and pack bytes, and say so in their hypotheses.

    ** Not modelled

    Sockets and the handshake of TLS (dialling is, over an interface), and deadlines that expire
    inside a read; the threads that serve HTTP and an event stream, and the handler of signals;
    the command line of the proxy (clap) and the binding of its port; the JSON that serde derives
    of the snapshot of the metrics; setters of client options and the crate roots, which rename
    and re-export. What belongs to libraries
    (hashing, compression, TLS, URLs, HTTP, JSON text, msgpack, S3, sysinfo) is a parameter. The
    Go and TypeScript parts are not considered. *)

From Stdlib Require Export NArith ZArith Lia Permutation Sorted.
From stdpp Require Export base option list numbers strings countable gmap sets fin_maps fin_sets.
From stdpp Require Import sorting.

#[export] Set Default Goal Selector "!".

(** ** Strings

    A Rust [String] or [&str] is the sequence of its UTF-8 bytes; [str] turns a
    literal of the source into that sequence. *)

Abbreviation bytes := (list Byte.byte).
Abbreviation rstr := (list Byte.byte).

Definition str (s : string) : rstr := String.list_byte_of_string s.

Declare Scope rstr_scope.
Delimit Scope rstr_scope with rstr.
Notation "'$' s" := (str s%string) (at level 9, s at level 0, format "'$' s") : rstr_scope.
Open Scope rstr_scope.

#[export] Instance byte_eq_dec : EqDecision Byte.byte := Byte.byte_eq_dec.

#[export] Program Instance byte_countable : Countable Byte.byte :=
  inj_countable Byte.to_N Byte.of_N _.
Next Obligation. intros b. apply Byte.of_to_N. Qed.

(** ** Results

    [Result<T, E>] of the source. The instances make stdpp's monad notation
    [x ← e; k] the [?] operator. *)

Inductive result (E A : Type) : Type :=
| Ok (a : A)
| Err (e : E).
Arguments Ok {E A} a.
Arguments Err {E A} e.

#[export] Instance result_ret {E} : MRet (result E) := λ A a, Ok a.
#[export] Instance result_bind {E} : MBind (result E) := λ A B k r,
  match r with Ok a => k a | Err e => Err e end.
#[export] Instance result_fmap {E} : FMap (result E) := λ A B f r,
  match r with Ok a => Ok (f a) | Err e => Err e end.

Definition is_ok {E A} (r : result E A) : bool :=
  match r with Ok _ => true | Err _ => false end.

(** [Option::ok_or_else]. *)
Definition ok_or {E A} (e : E) (o : option A) : result E A :=
  match o with Some a => Ok a | None => Err e end.

(** [Result::ok]. *)
Definition result_ok {E A} (r : result E A) : option A :=
  match r with Ok a => Some a | Err _ => None end.

(** [Result::map_err]. *)
Definition map_err {E E' A} (f : E → E') (r : result E A) : result E' A :=
  match r with Ok a => Ok a | Err e => Err (f e) end.

(** [iter().map(f).collect::<Result<Vec<_>, _>>()] and the push loops that have
    the same meaning: stop at the first error. *)
Fixpoint try_map {E A B} (f : A → result E B) (l : list A) : result E (list B) :=
  match l with
  | [] => Ok []
  | a :: l' => b ← f a; bs ← try_map f l'; Ok (b :: bs)
  end.

(** A loop whose body may return early with an error; its effects up to there remain. *)
Fixpoint try_each {E A S} (f : A → S → result E unit * S) (l : list A) (s : S)
    : result E unit * S :=
  match l with
  | [] => (Ok tt, s)
  | a :: l =>
      match f a s with
      | (Ok _, s) => try_each f l s
      | (Err e, s) => (Err e, s)
      end
  end.

(** What every iteration preserves, the loop preserves, also when it returns early. *)
Lemma try_each_preserves {E A S} (P : S → Prop) (f : A → S → result E unit * S) l s :
  (∀ a s, a ∈ l → P s → P (f a s).2) → P s → P (try_each f l s).2.
Proof.
  revert s. induction l as [|a l IH]; intros s Hf Hs; [done|]. cbn.
  pose proof (Hf a s ltac:(by left) Hs) as Hs'. destruct (f a s) as [[]]; [|done].
  apply IH; [|done]. intros b s2 Hb. apply Hf. by right.
Qed.

(** After a loop that ends, every iteration has been performed: what it establishes
    and the others keep is true at the end. *)
Lemma try_each_ok {E A S} (I : S → Prop) (Q : A → S → Prop) (f : A → S → result E unit * S) l s s' :
  (∀ a s s', a ∈ l → I s → f a s = (Ok tt, s') → I s' ∧ Q a s' ∧ ∀ b, Q b s → Q b s') →
  I s → try_each f l s = (Ok tt, s') → I s' ∧ (∀ a, a ∈ l → Q a s') ∧ ∀ b, Q b s → Q b s'.
Proof.
  revert s. induction l as [|a l IH]; intros s Hf Hi Heq.
  { injection Heq as <-. split; [done|]. split; [|done]. intros a Ha. by apply elem_of_nil in Ha. }
  cbn in Heq. destruct (f a s) as [[[]|] s1] eqn:Ha; [|done].
  destruct (Hf a s s1 ltac:(by left) Hi Ha) as (Hi1 & Hq & Hkeep).
  destruct (IH s1) as (Hi' & Hall & Hkeep'); [|done..|].
  { intros b s2 s3 Hb. apply Hf. by right. }
  split; [done|]. split; [|eauto]. intros b [->|Hb]%elem_of_cons; eauto.
Qed.

(** A loop whose iterations succeed under an invariant succeeds. *)
Lemma try_each_succeeds {E A S} (I : S → Prop) (f : A → S → result E unit * S) l s :
  (∀ a s, a ∈ l → I s → ∃ s', f a s = (Ok tt, s') ∧ I s') →
  I s → ∃ s', try_each f l s = (Ok tt, s') ∧ I s'.
Proof.
  revert s. induction l as [|a l IH]; intros s Hf Hi; [by exists s|]. cbn.
  destruct (Hf a s ltac:(by left) Hi) as (s1 & -> & Hi1). apply IH; [|done].
  intros b s2 Hb. apply Hf. by right.
Qed.

Lemma ok_or_ok {E A} (e : E) (o : option A) a : ok_or e o = Ok a ↔ o = Some a.
Proof. destruct o; cbn; split; congruence. Qed.

Lemma bind_ok {E A B} (r : result E A) (k : A → result E B) b :
  (r ≫= k) = Ok b ↔ ∃ a, r = Ok a ∧ k a = Ok b.
Proof.
  destruct r; cbn; split.
  - eauto.
  - intros (? & [= <-] & ?); done.
  - done.
  - by intros (? & ? & ?).
Qed.

Lemma try_map_length {E A B} (f : A → result E B) l bs :
  try_map f l = Ok bs → length bs = length l.
Proof.
  revert bs; induction l as [|a l IH]; cbn; intros bs H; [by simplify_eq|].
  destruct (f a); cbn in H; [|done].
  destruct (try_map f l); cbn in H; [|done].
  simplify_eq/=. f_equal. by apply IH.
Qed.

Lemma try_map_Forall2 {E A B} (f : A → result E B) l bs :
  try_map f l = Ok bs ↔ Forall2 (λ a b, f a = Ok b) l bs.
Proof.
  revert bs; induction l as [|a l IH]; cbn; intros bs.
  - split; [intros [= <-]; constructor | by inversion 1].
  - split.
    + intros H. destruct (f a) eqn:Ha; cbn in H; [|done].
      destruct (try_map f l); cbn in H; [|done].
      simplify_eq/=. constructor; [done|]. by apply IH.
    + inversion 1 as [|? b ? bs' Hb Hbs]; subst. rewrite Hb; cbn.
      apply IH in Hbs as ->. done.
Qed.

Lemma try_map_elem {E A B} (f : A → result E B) l bs a :
  try_map f l = Ok bs → a ∈ l → ∃ b, f a = Ok b.
Proof.
  intros Hf%try_map_Forall2. induction Hf as [|x b l bs Hb Hl IH].
  - by intros ?%elem_of_nil.
  - intros [->|Ha]%elem_of_cons; [by exists b|by apply IH].
Qed.

Lemma try_map_is_ok {E A B} (f : A → result E B) l :
  (∀ a, a ∈ l → is_ok (f a) = true) → is_ok (try_map f l) = true.
Proof.
  induction l as [|a l IH]; intros Hf; [done|]. cbn.
  pose proof (Hf a ltac:(by left)) as Ha. destruct (f a); [|done]. cbn.
  specialize (IH ltac:(intros b Hb; apply Hf; by right)). by destruct (try_map f l).
Qed.

Lemma try_map_ext {E A B} (f g : A → result E B) l :
  (∀ a, a ∈ l → f a = g a) → try_map f l = try_map g l.
Proof.
  induction l as [|a l IH]; intros Hfg; [done|]. cbn.
  rewrite Hfg by (by left). rewrite IH; [done|]. intros b Hb. apply Hfg. by right.
Qed.

(** A loop over elements on which the body succeeds with a result of a kind. *)
Lemma try_map_build {E A B} (R : A → B → Prop) (f : A → result E B) l :
  (∀ a, a ∈ l → ∃ b, f a = Ok b ∧ R a b) → ∃ bs, try_map f l = Ok bs ∧ Forall2 R l bs.
Proof.
  induction l as [|a l IH]; intros Hf; [by exists []; split; [|constructor]|].
  destruct (Hf a) as (b & Hb & HR); [by left|].
  destruct IH as (bs & Hbs & HF); [intros x Hx; apply Hf; by right|].
  exists (b :: bs). cbn. rewrite Hb. cbn. rewrite Hbs. split; [done|by constructor].
Qed.

Lemma try_map_app {E A B} (f : A → result E B) l k bs cs :
  try_map f l = Ok bs → try_map f k = Ok cs → try_map f (l ++ k) = Ok (bs ++ cs).
Proof. rewrite !try_map_Forall2. apply Forall2_app. Qed.

(** Success on a concatenation is success on both parts. *)
Lemma try_map_app_inv {E A B} (f : A → result E B) l k bs :
  try_map f (l ++ k) = Ok bs →
  ∃ b1 b2, try_map f l = Ok b1 ∧ try_map f k = Ok b2 ∧ bs = b1 ++ b2.
Proof.
  rewrite try_map_Forall2. intros (b1 & b2 & H1 & H2 & ->)%Forall2_app_inv_l.
  exists b1, b2. by rewrite !try_map_Forall2.
Qed.

(** The error of a loop is the error of an element. *)
Lemma try_map_err {E A B} (f : A → result E B) l e :
  try_map f l = Err e → ∃ a, a ∈ l ∧ f a = Err e.
Proof.
  induction l as [|a l IH]; [done|]. cbn. destruct (f a) as [b|e'] eqn:Ha; cbn.
  - destruct (try_map f l) as [bs|e']; [done|]. intros [= <-].
    destruct IH as (x & ? & ?); [done|]. exists x. split; [by right|done].
  - intros [= <-]. exists a. split; [by left|done].
Qed.

Lemma bind_err {E A B} (r : result E A) (k : A → result E B) e :
  r ≫= k = Err e → r = Err e ∨ ∃ a, r = Ok a ∧ k a = Err e.
Proof. destruct r as [a|e']; cbn; [right; eauto|]. intros [= <-]. by left. Qed.

Lemma fmap_err {E A B} (r : result E A) (f : A → B) e : f <$> r = Err e → r = Err e.
Proof. destruct r; cbn; congruence. Qed.

Lemma try_map_map {E A B C} (f : B → result E C) (g : A → B) l :
  try_map f (map g l) = try_map (λ a, f (g a)) l.
Proof. induction l as [|a l IH]; [done|]. cbn. by rewrite IH. Qed.

(** ** Errors of the server ([server/src/error.rs]) *)

(** The kinds of [std::io::ErrorKind] the source tells apart. *)
Inductive io_kind : Type :=
| UnexpectedEof
| WouldBlock
| TimedOut
| ConnectionReset
| ConnectionAborted
| ConnectionRefused
| BrokenPipe
| NotConnected
| OtherIo.

#[export] Instance io_kind_eq_dec : EqDecision io_kind.
Proof. solve_decision. Defined.

(** [enum StoreError]. *)
Inductive StoreError : Type :=
| Io (k : io_kind)
| Corrupt (msg : rstr)
| NotFound (msg : rstr)
| InvalidInput (msg : rstr).

#[export] Instance StoreError_eq_dec : EqDecision StoreError.
Proof. solve_decision. Defined.

(** [impl From<std::io::Error>], which the [?] operator applies. *)
Class FromIo (E : Type) : Type := from_io : io_kind → E.
#[export] Instance FromIo_StoreError : FromIo StoreError := Io.
#[export] Instance FromIo_io : FromIo io_kind := λ k, k.

(** ** Machine integers

    Unsigned integers of width [w] are values of [N] below [2^w]; arithmetic that
    can leave the range wraps, as in a release build. *)

Abbreviation U16 := 65536%N (only parsing).
Abbreviation U32 := 4294967296%N (only parsing).
Abbreviation U64 := 18446744073709551616%N (only parsing).

Definition wrap16 (n : N) : N := (n mod U16)%N.
Definition wrap32 (n : N) : N := (n mod U32)%N.
Definition wrap64 (n : N) : N := (n mod U64)%N.

(** [i64] addition. *)
Definition wrap_i64 (z : Z) : Z :=
  ((z + 9223372036854775808) mod 18446744073709551616 - 9223372036854775808)%Z.

Lemma wrap16_small n : (n < U16)%N → wrap16 n = n.
Proof. apply N.mod_small. Qed.
Lemma wrap32_small n : (n < U32)%N → wrap32 n = n.
Proof. apply N.mod_small. Qed.
Lemma wrap64_small n : (n < U64)%N → wrap64 n = n.
Proof. apply N.mod_small. Qed.
Lemma wrap16_lt n : (wrap16 n < U16)%N.
Proof. by apply N.mod_lt. Qed.
Lemma wrap32_lt n : (wrap32 n < U32)%N.
Proof. by apply N.mod_lt. Qed.
Lemma wrap64_lt n : (wrap64 n < U64)%N.
Proof. by apply N.mod_lt. Qed.

(** [Vec::len] and [str::len]. *)
Definition len {A} (l : list A) : N := N.of_nat (length l).

Lemma len_app {A} (l k : list A) : len (l ++ k) = (len l + len k)%N.
Proof. unfold len. rewrite length_app. lia. Qed.
Lemma len_nil {A} : len ([] : list A) = 0%N.
Proof. done. Qed.
Lemma len_cons {A} (a : A) l : len (a :: l) = (1 + len l)%N.
Proof. unfold len. cbn [length]. lia. Qed.

Lemma len_take {A} (n : nat) (l : list A) : len (take n l) = N.min (N.of_nat n) (len l).
Proof. unfold len. rewrite length_take. lia. Qed.
Lemma len_drop {A} (n : nat) (l : list A) : len (drop n l) = (len l - N.of_nat n)%N.
Proof. unfold len. rewrite length_drop. lia. Qed.

Lemma len_0_nil {A} (l : list A) : len l = 0%N → l = [].
Proof. destruct l; [done|]. unfold len; cbn [length]; lia. Qed.

(** Consecutive slices join. *)
Lemma take_take_drop {A} (n m : nat) (l : list A) :
  take n l ++ take m (drop n l) = take (n + m) l.
Proof. revert l; induction n; intros [|a l]; cbn; [done..|by rewrite take_nil|]. by f_equal. Qed.

(** ** Sorting

    [slice::sort_by] is stable; for a comparison that is a total preorder the result
    of a stable sort is unique, and insertion computes it. [le a b] is
    [cmp(a, b) != Greater]. *)
Fixpoint insert_by {A} (le : A → A → bool) (a : A) (l : list A) : list A :=
  match l with
  | [] => [a]
  | b :: l' => if le a b then a :: l else b :: insert_by le a l'
  end.

Definition sort_by {A} (le : A → A → bool) (l : list A) : list A := foldr (insert_by le) [] l.

Section sort_by.
Context {A : Type} (le : A → A → bool).

Lemma insert_by_perm a l : insert_by le a l ≡ₚ a :: l.
Proof.
  induction l as [|b l IH]; [done|]. cbn. destruct (le a b); [done|].
  by rewrite IH, Permutation_swap.
Qed.

Lemma sort_by_perm l : sort_by le l ≡ₚ l.
Proof. induction l as [|a l IH]; [done|]. cbn. by rewrite insert_by_perm, IH. Qed.

Lemma length_sort_by l : length (sort_by le l) = length l.
Proof. apply Permutation_length, sort_by_perm. Qed.

Lemma elem_of_sort_by a l : a ∈ sort_by le l ↔ a ∈ l.
Proof. by rewrite sort_by_perm. Qed.

Lemma sort_by_id l : StronglySorted (λ a b, le a b = true) l → sort_by le l = l.
Proof.
  induction 1 as [|a l Hl IH Ha]; [done|]. cbn. unfold sort_by in IH. rewrite IH.
  destruct Ha as [|b l Hab]; [done|]. cbn. by rewrite Hab.
Qed.

Hypothesis le_total : ∀ a b, le a b = false → le b a = true.
Hypothesis le_trans : ∀ a b c, le a b = true → le b c = true → le a c = true.

Lemma insert_by_sorted a l :
  StronglySorted (λ a b, le a b = true) l →
  StronglySorted (λ a b, le a b = true) (insert_by le a l).
Proof.
  induction 1 as [|b l Hl IH Hb]; cbn; [repeat constructor|].
  destruct (le a b) eqn:Hab.
  - constructor; [by constructor|]. constructor; [done|].
    eapply Forall_impl; [done|]. cbn. eauto.
  - constructor; [done|]. rewrite insert_by_perm. constructor; [by apply le_total|done].
Qed.

Lemma sort_by_sorted l : StronglySorted (λ a b, le a b = true) (sort_by le l).
Proof. induction l as [|a l IH]; cbn; [constructor|]. by apply insert_by_sorted. Qed.

(** Stability: the elements of a class of equals keep their order. *)
Lemma insert_by_filter (P : A → Prop) `{∀ x, Decision (P x)} a l :
  (∀ x y, P x → P y → le x y = true) →
  filter P (insert_by le a l) = filter P (a :: l).
Proof.
  intros HP. induction l as [|b l IH]; [done|]. cbn [insert_by].
  destruct (le a b) eqn:Hab; [done|].
  rewrite !filter_cons in *. rewrite IH.
  destruct (decide (P b)), (decide (P a)); try done.
  by rewrite HP in Hab.
Qed.

Lemma sort_by_stable (P : A → Prop) `{∀ x, Decision (P x)} l :
  (∀ x y, P x → P y → le x y = true) → filter P (sort_by le l) = filter P l.
Proof.
  intros HP. induction l as [|a l IH]; [done|]. cbn [sort_by foldr].
  rewrite insert_by_filter by done. rewrite !filter_cons. fold (sort_by le l). by rewrite IH.
Qed.
(** Sorting forgets the order of the input, where equals are equal. *)
Lemma sort_by_unique l k :
  (∀ a b, a ∈ l → b ∈ l → le a b = true → le b a = true → a = b) →
  l ≡ₚ k → sort_by le l = sort_by le k.
Proof.
  intros Hanti Hlk. apply (StronglySorted_unique_strong (λ a b, le a b = true)).
  - intros a b Ha Hb. apply Hanti; [|rewrite Hlk]; by apply elem_of_sort_by.
  - apply sort_by_sorted.
  - apply sort_by_sorted.
  - by rewrite !sort_by_perm.
Qed.
End sort_by.

Lemma sort_by_map {A B} (f : A → B) (le : A → A → bool) (le' : B → B → bool) l :
  (∀ a b, le' (f a) (f b) = le a b) → sort_by le' (map f l) = map f (sort_by le l).
Proof.
  intros Hle. induction l as [|a l IH]; [done|]. unfold sort_by in *. cbn. rewrite IH.
  generalize (foldr (insert_by le) [] l). clear IH. intros k.
  induction k as [|b k IH]; [done|]. cbn. rewrite Hle. destruct (le a b); [done|]. cbn. by rewrite IH.
Qed.

(** [Vec::truncate] and the last [n] elements. *)
Definition truncate {A} (n : N) (l : list A) : list A := take (N.to_nat (N.min n (len l))) l.
Definition last_n {A} (n : nat) (l : list A) : list A := drop (length l - n) l.

Lemma truncate_take {A} n (l : list A) : truncate n l = take (N.to_nat n) l.
Proof.
  unfold truncate, len. destruct (N.min_spec n (N.of_nat (length l))) as [[? ->]|[? ->]]; [done|].
  rewrite Nat2N.id, !take_ge; [done|lia|done].
Qed.

Lemma truncate_le {A} n (l : list A) : (len (truncate n l) ≤ n)%N.
Proof. rewrite truncate_take, len_take. lia. Qed.

Lemma last_n_snoc {A} n (l : list A) a : last_n (S n) (l ++ [a]) = last_n n l ++ [a].
Proof.
  unfold last_n. rewrite length_app. cbn [length].
  replace (length l + 1 - S n)%nat with (length l - n)%nat by lia.
  rewrite drop_app_le by lia. done.
Qed.

Lemma last_n_add {A} n m (l : list A) :
  last_n (n + m) l = last_n m (take (length l - n) l) ++ last_n n l.
Proof.
  unfold last_n. rewrite length_take.
  replace (length l - n `min` length l)%nat with (length l - n)%nat by lia.
  replace (length l - (n + m))%nat with (length l - n - m)%nat by lia.
  rewrite <- (take_drop (length l - n) l) at 2.
  rewrite drop_app_le by (rewrite length_take; lia).
  by rewrite (Nat.min_l (length l - n) (length l)) by lia.
Qed.

(** The whole list, and a loop over the end of a list. *)
Lemma last_n_all {A} n (l : list A) : (length l ≤ n)%nat → last_n n l = l.
Proof. intros Hn. unfold last_n. by replace (length l - n)%nat with 0%nat by lia. Qed.

Lemma last_n_map {A B} (f : A → B) n (l : list A) : last_n n (map f l) = map f (last_n n l).
Proof. unfold last_n. by rewrite length_map, skipn_map. Qed.

Lemma try_map_last_n {E A B} (f : A → result E B) n l bs :
  try_map f l = Ok bs → try_map f (last_n n l) = Ok (last_n n bs).
Proof.
  rewrite !try_map_Forall2. intros Hl. unfold last_n. rewrite (Forall2_length _ _ _ Hl).
  by apply Forall2_drop.
Qed.

(** The greatest key of a map ([keys().max()]). *)
Definition max_key {V} (m : gmap N V) : option N :=
  map_fold (λ k _ acc, Some (match acc with Some a => N.max k a | None => k end)) None m.

Lemma max_key_spec {V} (m : gmap N V) :
  match max_key m with
  | Some k => is_Some (m !! k) ∧ ∀ k', is_Some (m !! k') → (k' ≤ k)%N
  | None => m = ∅
  end.
Proof.
  unfold max_key. revert m. apply (map_fold_weak_ind (λ acc m, match acc with
    | Some k => is_Some (m !! k) ∧ ∀ k', is_Some (m !! k') → (k' ≤ k)%N
    | None => m = ∅ end)); [done|].
  intros k v m acc Hk IH. destruct acc as [a|].
  - destruct IH as [Ha Hmax]. split.
    + destruct (N.max_spec k a) as [[_ ->]|[_ ->]]; [|by rewrite lookup_insert_eq].
      apply lookup_insert_is_Some'. eauto.
    + intros k' [->|Hk']%lookup_insert_is_Some'; [lia|]. specialize (Hmax _ Hk'). lia.
  - subst m. split; [by rewrite lookup_insert_eq|].
    intros k' [->|[? ?%lookup_empty_Some]]%lookup_insert_is_Some'; done.
Qed.

(** The order of a [BTreeMap]. *)
Definition btree_iter {V} (m : gmap N V) : list (N * V) :=
  sort_by (λ a b, (a.1 <=? b.1)%N) (map_to_list m).

(** Decimal rendering of an unsigned integer ([u64::to_string]). *)
Definition digit_byte (d : N) : Byte.byte :=
  default Byte.x30 (Byte.of_N (48 + d)).

Fixpoint show_N_aux (fuel : nat) (n : N) (acc : rstr) : rstr :=
  match fuel with
  | O => acc
  | S fuel =>
      let acc := digit_byte (n mod 10) :: acc in
      if (n <? 10)%N then acc else show_N_aux fuel (n / 10) acc
  end.

Definition show_N (n : N) : rstr := show_N_aux (S (N.to_nat (N.log2 n))) n [].

(** ** Automation *)

Create HintDb cxdb.
#[export] Hint Resolve wrap16_lt wrap32_lt wrap64_lt : cxdb.
Create Rewrite HintDb cxdb.
#[export] Hint Rewrite @len_app @len_nil @len_cons : cxdb.

(** Case analysis of the result a hypothesis binds, keeping the equation. *)
Ltac inv_result H :=
  repeat first
    [ progress simplify_eq/=
    | match type of H with
      | (?r ≫= _) = Ok _ => apply bind_ok in H as (? & ? & H)
      | ok_or _ _ = Ok _ => apply ok_or_ok in H
      | (if ?b then Err _ else _) = Ok _ => destruct b eqn:?; [discriminate H|]
    | (if ?b then _ else Err _) = Ok _ => destruct b eqn:?; [|discriminate H]
      end ].

Ltac len_lia := unfold len in *; rewrite ?length_app in *; cbn [length] in *; lia.
