(* ===== verification/Bytes.v ===== *)
(** * Bytes: little-endian codecs, UTF-8 and the byte cursor

    The [byteorder] reads and writes the source does, as functions on byte lists:
    [write_u64] and the like produce the bytes, [read_u64] and the like consume
    them from the front of a cursor. [utf8_valid] is the check of
    [String::from_utf8]. *)

From S2P Require Import Prelude.

Open Scope N_scope.

(** ** Little-endian integers *)

Definition byte_of_N (n : N) : Byte.byte := default Byte.x00 (Byte.of_N (n mod 256)).

Fixpoint le_encode (w : nat) (n : N) : bytes :=
  match w with
  | O => []
  | S w => byte_of_N n :: le_encode w (n / 256)
  end.

Fixpoint le_decode (bs : bytes) : N :=
  match bs with
  | [] => 0
  | b :: bs => Byte.to_N b + 256 * le_decode bs
  end.

Lemma to_N_byte_of_N n : Byte.to_N (byte_of_N n) = n mod 256.
Proof.
  unfold byte_of_N. assert (Hlt : n mod 256 < 256) by (apply N.mod_lt; lia).
  destruct (Byte.of_N (n mod 256)) as [b|] eqn:Hb; cbn.
  - by apply Byte.to_of_N.
  - apply Byte.of_N_None_iff in Hb. lia.
Qed.

Lemma byte_of_N_to_N b : byte_of_N (Byte.to_N b) = b.
Proof.
  unfold byte_of_N. pose proof (Byte.to_N_bounded b).
  rewrite N.mod_small by lia. by rewrite Byte.of_to_N.
Qed.

Lemma to_N_inj a b : Byte.to_N a = Byte.to_N b → a = b.
Proof. intros Hab. rewrite <- (byte_of_N_to_N a), Hab. apply byte_of_N_to_N. Qed.

Lemma length_le_encode w n : length (le_encode w n) = w.
Proof. revert n; induction w; intros; cbn; auto. Qed.

Lemma le_decode_encode w n : le_decode (le_encode w n) = n mod (256 ^ N.of_nat w).
Proof.
  revert n; induction w as [|w IH]; intros n; cbn [le_encode le_decode].
  - by rewrite N.mod_1_r.
  - rewrite IH, to_N_byte_of_N, Nat2N.inj_succ, N.pow_succ_r'.
    rewrite N.Div0.mod_mul_r. lia.
Qed.

Lemma le_encode_decode bs : le_encode (length bs) (le_decode bs) = bs.
Proof.
  induction bs as [|b bs IH]; [done|]. cbn [length le_encode le_decode].
  pose proof (Byte.to_N_bounded b) as Hb. f_equal.
  - rewrite <- (byte_of_N_to_N b) at 2. unfold byte_of_N. do 2 f_equal.
    rewrite N.mul_comm, N.Div0.mod_add. done.
  - rewrite N.mul_comm, N.div_add by lia. rewrite N.div_small by lia. apply IH.
Qed.

Lemma le_decode_lt bs : le_decode bs < 256 ^ len bs.
Proof.
  rewrite <- (le_encode_decode bs), le_decode_encode at 1.
  apply N.mod_lt. apply N.pow_nonzero. lia.
Qed.

(** ** Writers *)

Definition write_u8 (n : N) : bytes := [byte_of_N n].
Definition write_u16 (n : N) : bytes := le_encode 2 n.
Definition write_u32 (n : N) : bytes := le_encode 4 n.
Definition write_u64 (n : N) : bytes := le_encode 8 n.

#[global] Arguments write_u8 : simpl never.
#[global] Arguments write_u16 : simpl never.
#[global] Arguments write_u32 : simpl never.
#[global] Arguments write_u64 : simpl never.

Lemma length_write_u16 n : length (write_u16 n) = 2%nat.
Proof. apply length_le_encode. Qed.
Lemma length_write_u32 n : length (write_u32 n) = 4%nat.
Proof. apply length_le_encode. Qed.
Lemma length_write_u64 n : length (write_u64 n) = 8%nat.
Proof. apply length_le_encode. Qed.

Lemma len_write_u8 n : len (write_u8 n) = 1.
Proof. done. Qed.
Lemma len_write_u16 n : len (write_u16 n) = 2.
Proof. unfold len. by rewrite length_write_u16. Qed.
Lemma len_write_u32 n : len (write_u32 n) = 4.
Proof. unfold len. by rewrite length_write_u32. Qed.
Lemma len_write_u64 n : len (write_u64 n) = 8.
Proof. unfold len. by rewrite length_write_u64. Qed.

#[export] Hint Rewrite len_write_u8 len_write_u16 len_write_u32 len_write_u64 : cxdb.

Lemma le_decode_write_u16 n : n < U16 → le_decode (write_u16 n) = n.
Proof. intros. unfold write_u16. rewrite le_decode_encode. by apply N.mod_small. Qed.
Lemma le_decode_write_u32 n : n < U32 → le_decode (write_u32 n) = n.
Proof. intros. unfold write_u32. rewrite le_decode_encode. by apply N.mod_small. Qed.
Lemma le_decode_write_u64 n : n < U64 → le_decode (write_u64 n) = n.
Proof. intros. unfold write_u64. rewrite le_decode_encode. by apply N.mod_small. Qed.

(** ** The cursor

    A reader consumes a prefix of the bytes or fails; the only failure of a read
    is the end of the input. *)

Definition reader (E A : Type) : Type := bytes → result E (A * bytes).

(** A computation that reads nothing and returns [a]. *)
Definition rret {E A} (a : A) : reader E A := λ bs, Ok (a, bs).

#[export] Instance reader_bind {E} : MBind (reader E) := λ A B k r bs,
  match r bs with Ok (a, bs') => k a bs' | Err e => Err e end.

(** An error value returned from the middle of a reader. *)
Definition rfail {E A} (e : E) : reader E A := λ _, Err e.

(** A computation that reads nothing. *)
Definition rlift {E A} (r : result E A) : reader E A := λ bs,
  match r with Ok a => Ok (a, bs) | Err e => Err e end.

(** Run a reader on a whole buffer and forget what is left ([Cursor::new]). *)
Definition run_cursor {E A} (r : reader E A) (bs : bytes) : result E A := fst <$> r bs.

Definition read_exact {E} `{!FromIo E} (n : N) : reader E bytes := λ bs,
  if n <=? len bs
  then Ok (take (N.to_nat n) bs, drop (N.to_nat n) bs)
  else Err (from_io UnexpectedEof).

Definition read_le {E} `{!FromIo E} (w : N) : reader E N :=
  bs ← read_exact w; rret (le_decode bs).

Definition read_u16 {E} `{!FromIo E} : reader E N := read_le 2.
Definition read_u32 {E} `{!FromIo E} : reader E N := read_le 4.
Definition read_u64 {E} `{!FromIo E} : reader E N := read_le 8.

(** [reads r bs a]: on the bytes [bs], whatever follows them, the reader [r]
    consumes exactly [bs] and returns [a]. *)
Definition reads {E A} (r : reader E A) (bs : bytes) (a : A) : Prop :=
  ∀ rest, r (bs ++ rest) = Ok (a, rest).

Section reads.
Context {E : Type} `{!FromIo E}.

Lemma reads_ret {A} (a : A) : reads (E:=E) (rret a) [] a.
Proof. by intros rest. Qed.

Lemma reads_bind {A B} (r : reader E A) (k : A → reader E B) bs1 bs2 a b :
  reads r bs1 a → reads (k a) bs2 b → reads (r ≫= k) (bs1 ++ bs2) b.
Proof.
  intros Hr Hk rest. rewrite <- app_assoc. unfold mbind, reader_bind.
  rewrite Hr. apply Hk.
Qed.

Lemma reads_last {A B} (r : reader E A) (k : A → reader E B) bs a b :
  reads r bs a → reads (k a) [] b → reads (r ≫= k) bs b.
Proof. intros Hr Hk. rewrite <- (app_nil_r bs). by eapply reads_bind. Qed.

Lemma reads_bind_nil {A B} (r : reader E A) (k : A → reader E B) bs a b :
  reads r [] a → reads (k a) bs b → reads (r ≫= k) bs b.
Proof. intros Hr Hk. by eapply (reads_bind _ _ [] bs). Qed.

Lemma reads_rlift {A} (r : result E A) a : r = Ok a → reads (rlift r) [] a.
Proof. by intros -> rest. Qed.

Lemma reads_exact n bs : len bs = n → reads (E:=E) (read_exact n) bs bs.
Proof.
  intros <- rest. unfold read_exact, len. rewrite length_app.
  rewrite (proj2 (N.leb_le _ _)) by lia. rewrite Nat2N.id.
  by rewrite take_app_length, drop_app_length.
Qed.

(** The guarded reads of the source: nothing is read for a zero length. *)
Lemma reads_exact_pos n bs : len bs = n →
  reads (E:=E) (if 0 <? n then read_exact n else rret []) bs bs.
Proof.
  intros Hn. destruct (N.ltb_spec 0 n); [by apply reads_exact|].
  destruct bs; [apply reads_ret | unfold len in Hn; cbn in Hn; lia].
Qed.

Lemma reads_le w n : n < 256 ^ N.of_nat w →
  reads (E:=E) (read_le (N.of_nat w)) (le_encode w n) n.
Proof.
  intros Hn. unfold read_le. eapply reads_last.
  - apply reads_exact. unfold len. by rewrite length_le_encode.
  - rewrite le_decode_encode, N.mod_small by done. apply reads_ret.
Qed.

Lemma reads_u16 n : n < U16 → reads (E:=E) read_u16 (write_u16 n) n.
Proof. intros. by apply (reads_le 2). Qed.
Lemma reads_u32 n : n < U32 → reads (E:=E) read_u32 (write_u32 n) n.
Proof. intros. by apply (reads_le 4). Qed.
Lemma reads_u64 n : n < U64 → reads (E:=E) read_u64 (write_u64 n) n.
Proof. intros. by apply (reads_le 8). Qed.

Lemma reads_run {A} (r : reader E A) bs a : reads r bs a → run_cursor r bs = Ok a.
Proof.
  intros Hr. unfold run_cursor. specialize (Hr []). rewrite app_nil_r in Hr.
  by rewrite Hr.
Qed.

Lemma reads_run_app {A} (r : reader E A) bs rest a :
  reads r bs a → run_cursor r (bs ++ rest) = Ok a.
Proof. intros Hr. unfold run_cursor. by rewrite Hr. Qed.

(** A reader that succeeds consumed a prefix; it never invents bytes. *)
Lemma read_exact_ok n bs a rest :
  read_exact (E:=E) n bs = Ok (a, rest) → bs = a ++ rest ∧ len a = n.
Proof.
  unfold read_exact. destruct (N.leb_spec n (len bs)); [|done].
  intros [= <- <-]. rewrite take_drop. split; [done|].
  unfold len in *. rewrite length_take. lia.
Qed.

Lemma read_exact_short n bs :
  len bs < n → read_exact (E:=E) n bs = Err (from_io UnexpectedEof).
Proof. intros. unfold read_exact. by rewrite (proj2 (N.leb_gt _ _)). Qed.

Lemma read_le_ok w bs n rest :
  read_le (E:=E) w bs = Ok (n, rest) →
  ∃ a, bs = a ++ rest ∧ len a = w ∧ n = le_decode a ∧ n < 256 ^ w.
Proof.
  unfold read_le, mbind, reader_bind. destruct (read_exact w bs) as [[a r]|] eqn:Hr; [|done].
  intros [= <- <-]. apply read_exact_ok in Hr as [-> <-].
  eauto using le_decode_lt.
Qed.

Lemma read_le_short w bs :
  len bs < w → read_le (E:=E) w bs = Err (from_io UnexpectedEof).
Proof. intros. unfold read_le, mbind, reader_bind. by rewrite read_exact_short. Qed.
End reads.

(** Concatenated encodings read back field by field: [reads_step] peels one
    read off the reader and one chunk off the bytes. *)
Create HintDb reads.
#[export] Hint Resolve reads_ret reads_u16 reads_u32 reads_u64 reads_exact reads_rlift : reads.

Ltac reads_one := first [apply reads_exact_pos; done | eauto with reads].
Ltac reads_step :=
  match goal with
  | |- reads (rret _) [] _ => apply reads_ret
  | |- reads (_ ≫= _) (_ ++ _) _ => eapply reads_bind; [solve [reads_one]|]; cbn beta
  | |- reads (_ ≫= _) _ _ => eapply reads_last; [solve [reads_one]|]; cbn beta
  end.
Ltac solve_reads := repeat reads_step; eauto with reads.

(** ** UTF-8

    [char] is a Unicode scalar value; [utf8_next] decodes the first character of a
    byte sequence with the acceptance table of [core::str::from_utf8]. *)

Definition char : Type := N.

Definition in_range (lo hi n : N) : bool := (lo <=? n) && (n <=? hi).
Definition is_cont (n : N) : bool := in_range 0x80 0xBF n.

Definition utf8_next (bs : bytes) : option (char * N * bytes) :=
  match bs with
  | [] => None
  | b0 :: r0 =>
      let x0 := Byte.to_N b0 in
      if x0 <? 0x80 then Some (x0, 1, r0)
      else if in_range 0xC2 0xDF x0 then
        match r0 with
        | b1 :: r1 =>
            let x1 := Byte.to_N b1 in
            if is_cont x1 then Some ((x0 - 0xC0) * 64 + (x1 - 0x80), 2, r1) else None
        | [] => None
        end
      else if in_range 0xE0 0xEF x0 then
        match r0 with
        | b1 :: b2 :: r2 =>
            let x1 := Byte.to_N b1 in
            let x2 := Byte.to_N b2 in
            if (if x0 =? 0xE0 then in_range 0xA0 0xBF x1
                else if x0 =? 0xED then in_range 0x80 0x9F x1 else is_cont x1)
               && is_cont x2
            then Some ((x0 - 0xE0) * 4096 + (x1 - 0x80) * 64 + (x2 - 0x80), 3, r2)
            else None
        | _ => None
        end
      else if in_range 0xF0 0xF4 x0 then
        match r0 with
        | b1 :: b2 :: b3 :: r3 =>
            let x1 := Byte.to_N b1 in
            let x2 := Byte.to_N b2 in
            let x3 := Byte.to_N b3 in
            if (if x0 =? 0xF0 then in_range 0x90 0xBF x1
                else if x0 =? 0xF4 then in_range 0x80 0x8F x1 else is_cont x1)
               && is_cont x2 && is_cont x3
            then Some ((x0 - 0xF0) * 262144 + (x1 - 0x80) * 4096 + (x2 - 0x80) * 64
                        + (x3 - 0x80), 4, r3)
            else None
        | _ => None
        end
      else None
  end.

Fixpoint utf8_valid_aux (fuel : nat) (bs : bytes) : bool :=
  match fuel with
  | O => true
  | S fuel =>
      match bs with
      | [] => true
      | _ => match utf8_next bs with
             | Some (_, _, rest) => utf8_valid_aux fuel rest
             | None => false
             end
      end
  end.

Definition utf8_valid (bs : bytes) : bool := utf8_valid_aux (length bs) bs.

(** [String::from_utf8]. *)
Definition from_utf8 (bs : bytes) : option rstr := if utf8_valid bs then Some bs else None.

Lemma from_utf8_valid bs : utf8_valid bs = true → from_utf8 bs = Some bs.
Proof. unfold from_utf8. by intros ->. Qed.
Lemma from_utf8_Some bs s : from_utf8 bs = Some s → s = bs ∧ utf8_valid bs = true.
Proof. unfold from_utf8. destruct (utf8_valid bs); naive_solver. Qed.

(** The decoder consumes a non-empty prefix of the input. *)
Lemma utf8_next_len bs c n rest :
  utf8_next bs = Some (c, n, rest) → len bs = n + len rest ∧ 1 ≤ n ≤ 4.
Proof.
  unfold utf8_next, len. intros H.
  repeat case_match; simplify_eq; cbn [length] in *; lia.
Qed.

Lemma utf8_next_suffix bs c n rest :
  utf8_next bs = Some (c, n, rest) → rest = drop (N.to_nat n) bs.
Proof. unfold utf8_next. intros H. by repeat case_match; simplify_eq. Qed.

Lemma utf8_next_length bs c n rest :
  utf8_next bs = Some (c, n, rest) → (length rest < length bs)%nat.
Proof. intros H%utf8_next_len. unfold len in H. lia. Qed.

Lemma utf8_valid_aux_fuel f1 f2 bs :
  (length bs ≤ f1)%nat → (length bs ≤ f2)%nat → utf8_valid_aux f1 bs = utf8_valid_aux f2 bs.
Proof.
  revert f2 bs; induction f1 as [|f1 IH]; intros f2 bs H1 H2.
  - destruct bs; [by destruct f2 | cbn in H1; lia].
  - destruct f2 as [|f2]; [destruct bs; [done | cbn in H2; lia]|]. cbn.
    destruct bs as [|b bs]; [done|].
    destruct (utf8_next (b :: bs)) as [[[c n] rest]|] eqn:Hn; [|done].
    apply utf8_next_length in Hn. apply IH; lia.
Qed.

Lemma utf8_valid_next bs c n rest :
  utf8_next bs = Some (c, n, rest) → utf8_valid bs = utf8_valid rest.
Proof.
  intros Hn. pose proof (utf8_next_length _ _ _ _ Hn) as Hlt.
  unfold utf8_valid. destruct bs as [|b bs]; [done|]. cbn [length] in *.
  cbn [utf8_valid_aux]. rewrite Hn. apply utf8_valid_aux_fuel; lia.
Qed.

Lemma utf8_valid_inv bs : utf8_valid bs = true → bs ≠ [] →
  ∃ c n rest, utf8_next bs = Some (c, n, rest) ∧ utf8_valid rest = true.
Proof.
  intros Hv Hne. destruct (utf8_next bs) as [[[c n] rest]|] eqn:Hn.
  - exists c, n, rest. split; [done|]. by rewrite <- (utf8_valid_next _ _ _ _ Hn).
  - unfold utf8_valid in Hv. destruct bs as [|b bs]; [done|].
    cbn [length utf8_valid_aux] in Hv. by rewrite Hn in Hv.
Qed.

Lemma utf8_next_app a b c n rest :
  utf8_next a = Some (c, n, rest) → utf8_next (a ++ b) = Some (c, n, rest ++ b).
Proof.
  intros H. destruct a as [|b0 a]; [done|]. cbn [app]. revert H. unfold utf8_next.
  destruct (_ <? _); [by intros [= <- <- <-]|]. destruct (in_range 0xC2 _ _).
  { destruct a as [|b1 a]; [done|]. cbn [app]. destruct (is_cont _); [|done]. by intros [= <- <- <-]. }
  destruct (in_range 0xE0 _ _).
  { destruct a as [|b1 [|b2 a]]; [done..|]. cbn [app]. destruct (_ && _); [|done].
    by intros [= <- <- <-]. }
  destruct (in_range 0xF0 _ _); [|done].
  destruct a as [|b1 [|b2 [|b3 a]]]; [done..|]. cbn [app]. destruct (_ && _); [|done].
  by intros [= <- <- <-].
Qed.

Lemma utf8_valid_app a b : utf8_valid a = true → utf8_valid b = true → utf8_valid (a ++ b) = true.
Proof.
  intros Ha Hb. remember (length a) as n eqn:Hn. revert a Hn Ha.
  induction (lt_wf n) as [n _ IH]; intros a -> Ha. destruct a as [|x a]; [done|].
  destruct (utf8_valid_inv _ Ha) as (c & k & rest & Hnext & Hrest); [done|].
  rewrite (utf8_valid_next _ _ _ _ (utf8_next_app _ b _ _ _ Hnext)).
  by apply (IH _ (utf8_next_length _ _ _ _ Hnext)).
Qed.

(** [u64::from_str] and [u32::from_str]: an optional [+], then at least one ASCII
    digit, in range of the type. *)
Definition digit_val (b : Byte.byte) : option N :=
  let n := Byte.to_N b in if in_range 48 57 n then Some (n - 48) else None.

Fixpoint parse_digits (lim : N) (acc : N) (s : rstr) : option N :=
  match s with
  | [] => Some acc
  | b :: s =>
      d ← digit_val b;
      let acc := acc * 10 + d in
      if acc <? lim then parse_digits lim acc s else None
  end.

Definition parse_uint (lim : N) (s : rstr) : option N :=
  match s with
  | [] => None
  | b :: s' =>
      if bool_decide (b = Byte.x2b)
      then (match s' with [] => None | _ => parse_digits lim 0 s' end)
      else parse_digits lim 0 s
  end.

Definition parse_u64 : rstr → option N := parse_uint U64.
Definition parse_u32 : rstr → option N := parse_uint U32.

(** The decimal text of a number is read back. *)
Lemma digit_val_byte d : d < 10 → digit_val (digit_byte d) = Some d.
Proof.
  intros Hd. assert (Hn : Byte.to_N (digit_byte d) = 48 + d).
  { unfold digit_byte. assert (d = 0 ∨ d = 1 ∨ d = 2 ∨ d = 3 ∨ d = 4 ∨ d = 5 ∨ d = 6 ∨ d = 7
      ∨ d = 8 ∨ d = 9) as Hc by lia. by destruct_or! Hc; subst d. }
  unfold digit_val. rewrite Hn. unfold in_range.
  rewrite (proj2 (N.leb_le _ _)), (proj2 (N.leb_le _ _)) by lia. cbn. f_equal. lia.
Qed.

Lemma parse_digits_show lim fuel n acc :
  n < 2 ^ N.of_nat fuel → n < lim →
  (0 < n ∨ (0 < fuel)%nat) →
  parse_digits lim 0 (show_N_aux fuel n acc) = parse_digits lim n acc.
Proof.
  revert n acc. induction fuel as [|fuel IH]; intros n acc Hn Hlim Hpos.
  { rewrite N.pow_0_r in Hn. lia. }
  rewrite Nat2N.inj_succ, N.pow_succ_r' in Hn. cbn [show_N_aux].
  pose proof (N.div_mod n 10 ltac:(done)) as Hdiv. pose proof (N.mod_lt n 10 ltac:(done)) as Hmod.
  destruct (N.ltb_spec n 10).
  - rewrite N.mod_small by done. cbn [parse_digits]. rewrite digit_val_byte by done. cbn.
    by rewrite (proj2 (N.ltb_lt _ _)).
  - assert (0 < n / 10) by (apply N.div_str_pos; lia).
    assert (n / 10 < 2 ^ N.of_nat fuel).
    { apply N.Div0.div_lt_upper_bound. lia. }
    rewrite IH; [|done| |by left]; [|eapply N.le_lt_trans; [|exact Hlim]; by apply N.Div0.div_le_upper_bound; lia]. cbn [parse_digits]. rewrite digit_val_byte by done.
    cbn [mbind option_bind]. cbv zeta. rewrite (N.mul_comm (n / 10)), <- Hdiv.
    by rewrite (proj2 (N.ltb_lt _ _)).
Qed.

Lemma show_N_aux_digit fuel n acc :
  ∃ d rest, d < 10 ∧ show_N_aux (S fuel) n acc = digit_byte d :: rest.
Proof.
  revert n acc. induction fuel as [|fuel IH]; intros n acc; cbn [show_N_aux].
  - exists (n mod 10), acc. split; [by apply N.mod_lt|]. by destruct (n <? 10).
  - destruct (n <? 10).
    + exists (n mod 10), acc. split; [by apply N.mod_lt|done].
    + apply IH.
Qed.

Lemma parse_uint_show lim n : n < lim → parse_uint lim (show_N n) = Some n.
Proof.
  intros Hn. unfold parse_uint. destruct (show_N_aux_digit (N.to_nat (N.log2 n)) n [])
    as (d & rest & Hd & Heq).
  unfold show_N. rewrite Heq. rewrite bool_decide_false.
  - rewrite <- Heq, parse_digits_show; [done| |done|right; lia].
    rewrite Nat2N.inj_succ, N2Nat.id. destruct (N.eq_dec n 0) as [->|]; [done|].
    apply N.log2_spec. lia.
  - intros Hb. pose proof (digit_val_byte d Hd) as Hv. rewrite Hb in Hv. done.
Qed.

Lemma show_N_inj n m : n < U64 → m < U64 → show_N n = show_N m → n = m.
Proof.
  intros Hn Hm Heq. pose proof (parse_uint_show U64 n Hn) as Hp. rewrite Heq in Hp.
  rewrite parse_uint_show in Hp by done. by injection Hp.
Qed.

Lemma show_N_digits n : Forall (λ b, in_range 48 57 (Byte.to_N b) = true) (show_N n).
Proof.
  assert (Haux : ∀ fuel n acc, Forall (λ b, in_range 48 57 (Byte.to_N b) = true) acc →
    Forall (λ b, in_range 48 57 (Byte.to_N b) = true) (show_N_aux fuel n acc)).
  { induction fuel as [|fuel IH]; intros m acc Hacc; [done|]. cbn [show_N_aux].
    assert (Hd : Forall (λ b, in_range 48 57 (Byte.to_N b) = true) (digit_byte (m mod 10) :: acc)).
    { constructor; [|done]. pose proof (digit_val_byte (m mod 10) ltac:(by apply N.mod_lt)) as H.
      unfold digit_val in H. by destruct (in_range 48 57 _). }
    destruct (m <? 10); [done|]. by apply IH. }
  by apply Haux.
Qed.

(** The first part before a separator that it does not have. *)
Lemma before_separator {A} (x : A) l1 l2 r1 r2 :
  x ∉ l1 → x ∉ l2 → l1 ++ x :: r1 = l2 ++ x :: r2 → l1 = l2.
Proof.
  revert l2. induction l1 as [|y l1 IH]; intros [|z l2] H1 H2 Heq; [done| | |].
  - injection Heq as <- _. exfalso. apply H2. left.
  - injection Heq as -> _. exfalso. apply H1. left.
  - injection Heq as -> Heq. f_equal. apply IH; [|..|done]; intros Hin; [apply H1|apply H2]; by right.
Qed.

(** ** Strings: the byte order of [str] and prefixes *)

(** [a.cmp(b) != Greater]. *)
Fixpoint str_le (a b : rstr) : bool :=
  match a, b with
  | [], _ => true
  | _ :: _, [] => false
  | x :: a, y :: b =>
      (Byte.to_N x <? Byte.to_N y) || ((Byte.to_N x =? Byte.to_N y) && str_le a b)
  end.

Definition str_lt (a b : rstr) : bool := negb (str_le b a).

Lemma str_le_refl a : str_le a a = true.
Proof. induction a as [|x a IH]; [done|]. cbn. by rewrite N.eqb_refl, IH, orb_true_r. Qed.

Lemma str_le_cons x a y b :
  str_le (x :: a) (y :: b) = true ↔
  Byte.to_N x < Byte.to_N y ∨ (Byte.to_N x = Byte.to_N y ∧ str_le a b = true).
Proof. cbn. by rewrite orb_true_iff, andb_true_iff, N.ltb_lt, N.eqb_eq. Qed.

Lemma str_le_total a b : str_le a b = false → str_le b a = true.
Proof.
  revert b; induction a as [|x a IH]; intros [|y b]; try done. intros Hn.
  apply str_le_cons. destruct (N.lt_trichotomy (Byte.to_N x) (Byte.to_N y)) as [Hl|[He|Hg]].
  - exfalso. apply not_true_iff_false in Hn. apply Hn, str_le_cons. by left.
  - right. split; [done|]. apply IH. destruct (str_le a b) eqn:Hab; [|done].
    exfalso. apply not_true_iff_false in Hn. apply Hn, str_le_cons. by right.
  - by left.
Qed.

Lemma str_le_trans a b c : str_le a b = true → str_le b c = true → str_le a c = true.
Proof.
  revert b c; induction a as [|x a IH]; intros [|y b] [|z c]; try done.
  rewrite !str_le_cons. intros [Hl|[He Hab]] [Hl'|[He' Hbc]]; [left; lia..|].
  right. split; [congruence|eauto].
Qed.

Lemma str_le_antisym a b : str_le a b = true → str_le b a = true → a = b.
Proof.
  revert b. induction a as [|x a IH]; intros [|y b]; try done.
  rewrite !str_le_cons. intros [?|[Hx Hab]] [?|[Hy Hba]]; try lia.
  apply to_N_inj in Hx as ->. f_equal. by apply IH.
Qed.

Lemma str_lt_ne a b : str_lt a b = true → a ≠ b.
Proof. intros Hlt ->. unfold str_lt in Hlt. by rewrite str_le_refl in Hlt. Qed.

Lemma str_lt_le a b : str_lt a b = true → str_le a b = true.
Proof. intros Hlt. apply str_le_total. by apply negb_true_iff. Qed.

Lemma str_lt_trans a b c : str_lt a b = true → str_lt b c = true → str_lt a c = true.
Proof.
  intros Hab Hbc. unfold str_lt. apply negb_true_iff, not_true_iff_false. intros Hca.
  apply negb_true_iff, not_true_iff_false in Hbc. apply Hbc.
  eapply str_le_trans; [exact Hca|]. by apply str_lt_le.
Qed.

Lemma str_lt_total a b : a ≠ b → str_lt a b = false → str_lt b a = true.
Proof.
  unfold str_lt. intros Hne Hba. apply negb_false_iff in Hba. apply negb_true_iff.
  apply not_true_iff_false. intros Hab. by apply Hne, str_le_antisym.
Qed.

(** [s.starts_with(prefix)]. *)
Fixpoint starts_with (s p : rstr) : bool :=
  match p, s with
  | [], _ => true
  | x :: p, y :: s => bool_decide (x = y) && starts_with s p
  | _ :: _, [] => false
  end.

(** [str::contains]. *)
Fixpoint str_contains (s p : rstr) : bool :=
  starts_with s p || match s with _ :: s => str_contains s p | [] => false end.

(** [str::strip_prefix], and [str::trim_start_matches] and [str::trim_end_matches] with an ASCII
    character. *)
Definition strip_prefix (s p : rstr) : option rstr :=
  if starts_with s p then Some (drop (length p) s) else None.
Fixpoint trim_start_byte (b : Byte.byte) (s : rstr) : rstr :=
  match s with
  | x :: s' => if bool_decide (x = b) then trim_start_byte b s' else s
  | [] => []
  end.
Definition trim_end_byte (b : Byte.byte) (s : rstr) : rstr := rev (trim_start_byte b (rev s)).

Lemma starts_with_app p s : starts_with (p ++ s) p = true.
Proof. induction p as [|b p IH]; [by destruct s|]. cbn. by rewrite bool_decide_eq_true_2, IH. Qed.
Lemma strip_prefix_app p s : strip_prefix (p ++ s) p = Some s.
Proof. unfold strip_prefix. by rewrite starts_with_app, drop_app_length. Qed.

(** [ss.join(sep)]. *)
Fixpoint str_join (sep : rstr) (ss : list rstr) : rstr :=
  match ss with
  | [] => []
  | [s] => s
  | s :: ss => s ++ sep ++ str_join sep ss
  end.

(** Inversion of reader runs: what a successful run says of its input. *)
Section reader_inversion.
Context {E : Type} `{!FromIo E}.

Lemma rbind_ok {A B} (r : reader E A) (k : A → reader E B) bs b rest :
  (r ≫= k) bs = Ok (b, rest) ↔ ∃ a mid, r bs = Ok (a, mid) ∧ k a mid = Ok (b, rest).
Proof.
  unfold mbind, reader_bind. split.
  - destruct (r bs) as [[a mid]|]; [eauto|done].
  - by intros (a & mid & -> & ?).
Qed.

Lemma rbind_err {A B} (r : reader E A) (k : A → reader E B) bs e :
  (r ≫= k) bs = Err e ↔
    r bs = Err e ∨ ∃ a mid, r bs = Ok (a, mid) ∧ k a mid = Err e.
Proof.
  unfold mbind, reader_bind. destruct (r bs) as [[a mid]|e']; split.
  - eauto.
  - intros [?|(a' & mid' & [= <- <-] & ?)]; done.
  - intros [= ->]. by left.
  - intros [[= ->]|(a' & mid' & ? & ?)]; done.
Qed.

Lemma read_le_inv w bs n rest :
  read_le (E:=E) (N.of_nat w) bs = Ok (n, rest) →
  bs = le_encode w n ++ rest ∧ n < 256 ^ N.of_nat w.
Proof.
  intros (a & -> & Ha & -> & Hlt)%read_le_ok. split; [|done].
  assert (length a = w) as <- by (unfold len in Ha; lia).
  by rewrite le_encode_decode.
Qed.

Lemma read_u16_inv bs n rest :
  read_u16 (E:=E) bs = Ok (n, rest) → bs = write_u16 n ++ rest ∧ n < U16.
Proof. apply (read_le_inv 2). Qed.
Lemma read_u32_inv bs n rest :
  read_u32 (E:=E) bs = Ok (n, rest) → bs = write_u32 n ++ rest ∧ n < U32.
Proof. apply (read_le_inv 4). Qed.
Lemma read_u64_inv bs n rest :
  read_u64 (E:=E) bs = Ok (n, rest) → bs = write_u64 n ++ rest ∧ n < U64.
Proof. apply (read_le_inv 8). Qed.

(** Fixed-width reads fail only at the end of the input. *)
Lemma read_le_err w bs e :
  read_le (E:=E) w bs = Err e → e = from_io UnexpectedEof ∧ len bs < w.
Proof.
  unfold read_le. intros [He|(a & mid & _ & He)]%rbind_err; [|done].
  unfold read_exact in He. destruct (N.leb_spec w (len bs)); naive_solver.
Qed.
Lemma read_exact_err w bs e :
  read_exact (E:=E) w bs = Err e → e = from_io UnexpectedEof ∧ len bs < w.
Proof. unfold read_exact. destruct (N.leb_spec w (len bs)); naive_solver. Qed.
End reader_inversion.

(** Reads as equations on the length of the input. *)
Lemma read_le_spec {E} `{!FromIo E} w bs :
  read_le (E:=E) w bs =
  if w <=? len bs
  then Ok (le_decode (take (N.to_nat w) bs), drop (N.to_nat w) bs)
  else Err (from_io UnexpectedEof).
Proof. unfold read_le, mbind, reader_bind, read_exact. by destruct (w <=? len bs). Qed.

(** Split a successful run of a reader into its reads. *)
Ltac reads_inv :=
  repeat match goal with
  | H : (_ ≫= _) _ = Ok _ |- _ => apply rbind_ok in H as (? & ? & ? & H); cbn beta in H
  | H : rret _ _ = Ok _ |- _ => unfold rret in H; simplify_eq
  | H : rfail _ _ = Ok _ |- _ => discriminate H
  | H : read_u16 _ = Ok _ |- _ => apply read_u16_inv in H as [? ?]
  | H : read_u32 _ = Ok _ |- _ => apply read_u32_inv in H as [? ?]
  | H : read_u64 _ = Ok _ |- _ => apply read_u64_inv in H as [? ?]
  | H : read_exact _ _ = Ok _ |- _ => apply read_exact_ok in H as [? ?]
  end.

(** [String::from_utf8_lossy]: every maximal invalid subsequence becomes U+FFFD. *)
Definition utf8_bad_len (bs : bytes) : nat :=
  match bs with
  | b0 :: b1 :: r =>
      let x0 := Byte.to_N b0 in
      let x1 := Byte.to_N b1 in
      if in_range 0xE0 0xEF x0 then
        if (if x0 =? 0xE0 then in_range 0xA0 0xBF x1
            else if x0 =? 0xED then in_range 0x80 0x9F x1 else is_cont x1) then 2%nat else 1%nat
      else if in_range 0xF0 0xF4 x0 then
        if (if x0 =? 0xF0 then in_range 0x90 0xBF x1
            else if x0 =? 0xF4 then in_range 0x80 0x8F x1 else is_cont x1)
        then match r with
             | b2 :: _ => if is_cont (Byte.to_N b2) then 3%nat else 2%nat
             | [] => 2%nat
             end
        else 1%nat
      else 1%nat
  | _ => 1%nat
  end.

Fixpoint from_utf8_lossy_aux (fuel : nat) (bs : bytes) : rstr :=
  match fuel with
  | O => []
  | S fuel =>
      match bs with
      | [] => []
      | _ => match utf8_next bs with
             | Some (_, n, rest) => take (N.to_nat n) bs ++ from_utf8_lossy_aux fuel rest
             | None => [Byte.xef; Byte.xbf; Byte.xbd]
                         ++ from_utf8_lossy_aux fuel (drop (utf8_bad_len bs) bs)
             end
      end
  end.
Definition from_utf8_lossy (bs : bytes) : rstr := from_utf8_lossy_aux (length bs) bs.

Lemma from_utf8_lossy_valid bs : utf8_valid bs = true → from_utf8_lossy bs = bs.
Proof.
  unfold from_utf8_lossy. assert (Hle : (length bs ≤ length bs)%nat) by lia. revert Hle.
  generalize (length bs) at 2 3. intros fuel. revert bs.
  induction fuel as [|fuel IH]; intros bs Hle Hv.
  - destruct bs; [done | cbn in Hle; lia].
  - cbn [from_utf8_lossy_aux]. destruct bs as [|b bs]; [done|].
    destruct (utf8_valid_inv _ Hv) as (c & n & rest & Hn & Hr); [done|].
    rewrite Hn. apply utf8_next_length in Hn as Hlt.
    rewrite IH by (done || cbn in *; lia).
    apply utf8_next_suffix in Hn as ->. by rewrite take_drop.
Qed.

(** ** Torn input

    Reading is monotone: what a reader accepts, it accepts in front of more bytes.
    Hence a proper prefix of an encoding never reads. *)
Definition reader_mono {E A} (r : reader E A) : Prop :=
  ∀ bs a rest more, r bs = Ok (a, rest) → r (bs ++ more) = Ok (a, rest ++ more).

Section mono.
Context {E : Type} `{!FromIo E}.

Lemma mono_ret {A} (a : A) : reader_mono (E:=E) (rret a).
Proof. by intros bs b rest more [= -> ->]. Qed.

Lemma mono_fail {A} (e : E) : reader_mono (E:=E) (A:=A) (rfail e).
Proof. done. Qed.

Lemma mono_bind {A B} (r : reader E A) (k : A → reader E B) :
  reader_mono r → (∀ a, reader_mono (k a)) → reader_mono (r ≫= k).
Proof.
  intros Hr Hk bs b rest more (a & mid & Ha & Hb)%rbind_ok.
  apply rbind_ok. exists a, (mid ++ more). split; [by apply Hr | by apply Hk].
Qed.

Lemma mono_exact n : reader_mono (E:=E) (read_exact n).
Proof.
  intros bs a rest more [-> Hn]%read_exact_ok. rewrite <- app_assoc. by apply reads_exact.
Qed.

Lemma mono_le n : reader_mono (E:=E) (read_le n).
Proof. apply mono_bind; [apply mono_exact | intros; apply mono_ret]. Qed.

Lemma mono_if {A} (b : bool) (r1 r2 : reader E A) :
  reader_mono r1 → reader_mono r2 → reader_mono (if b then r1 else r2).
Proof. by destruct b. Qed.

Lemma reads_torn {A} (r : reader E A) bs a k :
  reads r bs a → reader_mono r → (k < length bs)%nat → ∃ e, r (take k bs) = Err e.
Proof.
  intros Hr Hm Hk. destruct (r (take k bs)) as [[x rest]|e] eqn:Hx; [|eauto].
  apply (Hm _ _ _ (drop k bs)) in Hx. rewrite take_drop in Hx.
  specialize (Hr []). rewrite app_nil_r in Hr. rewrite Hr in Hx. injection Hx as _ Hx.
  symmetry in Hx. apply app_eq_nil in Hx as [_ Hx%(f_equal length)].
  rewrite length_drop in Hx. cbn in Hx. lia.
Qed.
End mono.

#[export] Hint Resolve mono_ret mono_fail mono_exact : reads.
Ltac solve_mono :=
  repeat first [apply mono_bind; [|intros] | apply mono_ret | apply mono_fail | apply mono_exact
    | apply mono_le | apply mono_if].
