(* ===== verification/External.v ===== *)
(** * External: the libraries the server calls

    Functions whose code is not part of the repository are parameters of the
    model: each is a class with the operation, and a second class states the
    documented behaviour a theorem relies on. Module [Sample] gives one concrete
    instance of every class, which the witnesses use. *)

From S2P Require Import Prelude Bytes.

Open Scope N_scope.

(** [crc32fast::Hasher]: [update] over chunks, then [finalize]. *)
Class Crc32 : Type := crc32 : bytes → N.
Class Crc32Laws `{Crc32} : Prop := crc32_lt : ∀ bs, crc32 bs < U32.

(** [blake3::hash]. *)
Class Blake3 : Type := blake3 : bytes → bytes.
Class Blake3Laws `{Blake3} : Prop := blake3_length : ∀ bs, len (blake3 bs) = 32.

(** [zstd::encode_all(_, 1)] and [zstd::decode_all]; a decoding error carries the
    text of the error. *)
Class Zstd : Type := {
  zstd_encode_all : bytes → option bytes;
  zstd_decode_all : bytes → result rstr bytes
}.
Class ZstdLaws `{Zstd} : Prop :=
  zstd_roundtrip : ∀ bs c, zstd_encode_all bs = Some c → zstd_decode_all c = Ok bs.

(** The iteration order of a [HashMap], which the standard library leaves open. *)
Class HashOrder : Type := hash_iter : ∀ {K V : Type} `{Countable K}, gmap K V → list (K * V).
Class HashOrderLaws `{HashOrder} : Prop :=
  hash_iter_perm : ∀ {K V : Type} `{Countable K} (m : gmap K V), hash_iter m ≡ₚ map_to_list m.

(** How many bytes one [pread] returns when [avail] bytes could be returned at an
    offset: the operating system may return fewer than asked for, but not none. *)
Class PreadSchedule : Type := pread_short : N → N → N.

(** [rmpv::Value]. An integer is in [-2^63, 2^64); a string is raw bytes that may or may not
    be UTF-8; floats are kept as their bits. *)
Inductive Value : Type :=
| VNil
| VBoolean (b : bool)
| VInteger (i : Z)
| VF32 (bits : N)
| VF64 (bits : N)
| VString (s : bytes)
| VBinary (b : bytes)
| VArray (l : list Value)
| VMap (l : list (Value * Value))
| VExt (ty : Z) (data : bytes).

(** [Integer::as_u64], [Integer::as_i64] and [Utf8String::as_str]: the value, if it is one
    of the type. *)
Definition int_as_u64 (i : Z) : option N :=
  if (0 <=? i)%Z && (i <? 18446744073709551616)%Z then Some (Z.to_N i) else None.
Definition int_as_i64 (i : Z) : option Z :=
  if (-9223372036854775808 <=? i)%Z && (i <? 9223372036854775808)%Z then Some i else None.
Definition utf8_as_str (s : bytes) : option rstr := from_utf8 s.

(** [rmpv::decode::read_value] on the front of a buffer; an error carries its text. *)
Class Msgpack : Type := msgpack_read : bytes → result rstr Value.

(** ASCII, where the Unicode tables of the standard library are fixed by laws. *)
Definition is_ascii_digit (c : char) : bool := in_range 48 57 c.
Definition is_ascii_letter (c : char) : bool := in_range 65 90 c || in_range 97 122 c.
Definition ascii_lower (b : Byte.byte) : Byte.byte :=
  let n := Byte.to_N b in if in_range 65 90 n then byte_of_N (n + 32) else b.
Definition ascii_upper (b : Byte.byte) : Byte.byte :=
  let n := Byte.to_N b in if in_range 97 122 n then byte_of_N (n - 32) else b.
Definition is_ascii (s : rstr) : bool := forallb (λ b, Byte.to_N b <? 128) s.

(** [char::is_alphabetic], [char::is_alphanumeric], [char::is_whitespace],
    [str::to_lowercase], [str::to_uppercase]. *)
Class Unicode : Type := {
  is_alphabetic : char → bool;
  is_alphanumeric : char → bool;
  is_whitespace : char → bool;
  to_lowercase : rstr → rstr;
  to_uppercase : rstr → rstr
}.
Class UnicodeLaws `{Unicode} : Prop := {
  alphabetic_ascii : ∀ c, c < 128 → is_alphabetic c = is_ascii_letter c;
  alphanumeric_ascii : ∀ c, c < 128 → is_alphanumeric c = is_ascii_letter c || is_ascii_digit c;
  alphabetic_alphanumeric : ∀ c, is_alphabetic c = true → is_alphanumeric c = true;
  whitespace_ascii : ∀ c, c < 128 → is_whitespace c = in_range 9 13 c || (c =? 32);
  lowercase_ascii : ∀ s, is_ascii s = true → to_lowercase s = map ascii_lower s;
  uppercase_ascii : ∀ s, is_ascii s = true → to_uppercase s = map ascii_upper s
}.

(** [str::trim]. *)
Fixpoint trim_start_chars `{Unicode} (fuel : nat) (s : rstr) : rstr :=
  match fuel, utf8_next s with
  | S fuel, Some (c, _, rest) => if is_whitespace c then trim_start_chars fuel rest else s
  | _, _ => s
  end.
Fixpoint trim_end_chars `{Unicode} (fuel : nat) (s : rstr) : rstr :=
  match fuel, utf8_next s with
  | S fuel, Some (c, n, rest) =>
      let t := trim_end_chars fuel rest in
      if is_whitespace c && bool_decide (t = []) then [] else take (N.to_nat n) s ++ t
  | _, _ => s
  end.
Definition str_trim `{Unicode} (s : rstr) : rstr :=
  let s := trim_start_chars (length s) s in trim_end_chars (length s) s.

Lemma str_trim_ascii `{UnicodeLaws} s :
  Forall (λ b, Byte.to_N b < 128 ∧ is_whitespace (Byte.to_N b) = false) s → str_trim s = s.
Proof.
  intros Hs. unfold str_trim.
  assert (Hnext : ∀ b s, Byte.to_N b < 128 → utf8_next (b :: s) = Some (Byte.to_N b, 1, s)).
  { intros b s' Hb. cbn. by rewrite (proj2 (N.ltb_lt _ _)). }
  assert (Hstart : trim_start_chars (length s) s = s).
  { destruct Hs as [|b s [Hb Hw] Hs]; [done|]. cbn [length trim_start_chars]. by rewrite Hnext, Hw. }
  rewrite Hstart. clear Hstart. induction Hs as [|b s [Hb Hw] Hs IH]; [done|].
  cbn [length trim_end_chars]. rewrite Hnext, Hw, IH by done. done.
Qed.

(** The regular expression [^-(\d+)([hdm])$] of the crate [regex]: its two groups. *)
Class RelativeDates : Type := relative_captures : rstr → option (rstr * rstr).
Class RelativeDatesLaws `{RelativeDates} : Prop := {
  relative_captures_shape : ∀ s d u, relative_captures s = Some (d, u) →
    s = $"-" ++ d ++ u ∧ d ≠ [] ∧ (u = $"h" ∨ u = $"d" ∨ u = $"m");
  relative_captures_digits : ∀ d u, d ≠ [] →
    forallb (λ b, is_ascii_digit (Byte.to_N b)) d = true →
    u = $"h" ∨ u = $"d" ∨ u = $"m" → relative_captures ($"-" ++ d ++ u) = Some (d, u)
}.

(** The crate [chrono]: the milliseconds since 1970 of an RFC 3339 date and time, and of
    midnight UTC of a date [YYYY-MM-DD]. *)
Class Chrono : Type := {
  parse_rfc3339_millis : rstr → option Z;
  parse_date_millis : rstr → option Z
}.

Module Sample.

(** A position-weighted sum: not the real polynomial, but sensitive to every byte. *)
Definition sample_crc (bs : bytes) : N :=
  foldl (λ acc b, (acc * 257 + Byte.to_N b + 1) mod U32) 7 bs.

#[local] Instance crc : Crc32 := sample_crc.

Lemma sample_crc_lt bs : sample_crc bs < U32.
Proof.
  unfold sample_crc. assert (Hi : 7 < U32) by lia. revert Hi.
  generalize 7. induction bs as [|b bs IH]; intros acc Hacc; cbn; [done|].
  apply IH. by apply N.mod_lt.
Qed.

#[local] Instance crc_laws : Crc32Laws := sample_crc_lt.

#[local] Instance blake : Blake3 := λ bs,
  le_encode 32 (foldl (λ acc b, (acc * 1000003 + Byte.to_N b + 1) mod 256 ^ 31) 11 bs).

#[local] Instance blake_laws : Blake3Laws.
Proof. intros bs. unfold len, blake3, blake. by rewrite length_le_encode. Qed.

(** Runs of zero bytes shrink to two bytes; everything else grows by one. *)
Definition sample_encode (bs : bytes) : bytes :=
  if forallb (λ b, bool_decide (b = Byte.x00)) bs && (len bs <? 256)
  then [Byte.x00; byte_of_N (len bs)]
  else Byte.x01 :: bs.

Definition sample_decode (bs : bytes) : result rstr bytes :=
  match bs with
  | [b; n] => if bool_decide (b = Byte.x00)
              then Ok (replicate (N.to_nat (Byte.to_N n)) Byte.x00)
              else if bool_decide (b = Byte.x01) then Ok [n] else Err ($"Unknown frame descriptor")
  | b :: bs' => if bool_decide (b = Byte.x01) then Ok bs' else Err ($"Unknown frame descriptor")
  | [] => Err ($"incomplete frame")
  end.

#[local] Instance zstd : Zstd := {|
  zstd_encode_all bs := Some (sample_encode bs);
  zstd_decode_all := sample_decode
|}.

Lemma forallb_zero_replicate bs :
  forallb (λ b, bool_decide (b = Byte.x00)) bs = true → bs = replicate (length bs) Byte.x00.
Proof.
  induction bs as [|b bs IH]; [done|]. cbn. intros [Hb Hbs]%andb_true_iff.
  apply bool_decide_eq_true in Hb as ->. f_equal. by apply IH.
Qed.

#[local] Instance zstd_laws : ZstdLaws.
Proof.
  intros bs c [= <-]. unfold sample_encode.
  destruct (forallb _ bs && (len bs <? 256)) eqn:Hz.
  - apply andb_true_iff in Hz as [Hz Hl]. apply N.ltb_lt in Hl.
    cbn. rewrite to_N_byte_of_N, N.mod_small by done. unfold len.
    rewrite Nat2N.id. f_equal. symmetry. by apply forallb_zero_replicate.
  - cbn. destruct bs as [|b [|b' bs]]; done.
Qed.

#[local] Instance order : HashOrder := λ K V _ _ m, map_to_list m.
#[local] Instance order_laws : HashOrderLaws.
Proof. intros K V ? ? m. done. Qed.

(** A small part of the format: nil, booleans, small integers, [u64], short strings, binaries
    of up to 255 bytes, arrays and maps of up to 15 elements. *)
Fixpoint sample_values (read : bytes → option (Value * bytes)) (n : nat) (bs : bytes)
    : option (list Value * bytes) :=
  match n with
  | O => Some ([], bs)
  | S n =>
      '(v, bs) ← read bs;
      '(vs, bs) ← sample_values read n bs;
      Some (v :: vs, bs)
  end.

Fixpoint sample_pairs (l : list Value) : list (Value * Value) :=
  match l with
  | k :: v :: l => (k, v) :: sample_pairs l
  | _ => []
  end.

Fixpoint sample_value (fuel : nat) (bs : bytes) : option (Value * bytes) :=
  match fuel, bs with
  | S fuel, b :: bs =>
      let n := Byte.to_N b in
      if n <? 0x80 then Some (VInteger (Z.of_N n), bs)
      else if n <? 0x90 then
        '(l, bs) ← sample_values (sample_value fuel) (2 * N.to_nat (n - 0x80)) bs;
        Some (VMap (sample_pairs l), bs)
      else if n <? 0xA0 then
        '(l, bs) ← sample_values (sample_value fuel) (N.to_nat (n - 0x90)) bs;
        Some (VArray l, bs)
      else if n <? 0xC0 then
        let k := N.to_nat (n - 0xA0) in Some (VString (take k bs), drop k bs)
      else if n =? 0xC0 then Some (VNil, bs)
      else if n =? 0xC2 then Some (VBoolean false, bs)
      else if n =? 0xC3 then Some (VBoolean true, bs)
      else if n =? 0xC4 then
        match bs with
        | k :: bs => let k := N.to_nat (Byte.to_N k) in Some (VBinary (take k bs), drop k bs)
        | [] => None
        end
      else if n =? 0xCF then
        Some (VInteger (Z.of_N (le_decode (rev (take 8 bs)))), drop 8 bs)
      else None
  | _, _ => None
  end.

#[local] Instance msgpack : Msgpack := λ bs,
  match sample_value (S (length bs)) bs with
  | Some (v, _) => Ok v
  | None => Err ($"unsupported")
  end.

(** Every character beyond ASCII is a symbol. *)
#[local] Instance unicode : Unicode := {|
  is_alphabetic := is_ascii_letter;
  is_alphanumeric c := is_ascii_letter c || is_ascii_digit c;
  is_whitespace c := in_range 9 13 c || (c =? 32);
  to_lowercase := map ascii_lower;
  to_uppercase := map ascii_upper
|}.
#[local] Instance unicode_laws : UnicodeLaws.
Proof. split; try done. cbn. by intros c ->. Qed.

Definition sample_captures (s : rstr) : option (rstr * rstr) :=
  match s with
  | b :: r =>
      match rev r with
      | u :: d =>
          if bool_decide (b = Byte.x2d) && bool_decide (u ∈ [Byte.x68; Byte.x64; Byte.x6d])
             && negb (bool_decide (d = [])) && forallb (λ b, is_ascii_digit (Byte.to_N b)) (rev d)
          then Some (rev d, [u]) else None
      | [] => None
      end
  | [] => None
  end.
#[local] Instance relative_dates : RelativeDates := sample_captures.
#[local] Instance relative_dates_laws : RelativeDatesLaws.
Proof.
  split; unfold relative_captures, relative_dates, sample_captures.
  - intros [|b r] d u Hs; [done|]. destruct (rev r) as [|x l] eqn:Hr; [done|].
    destruct (bool_decide (b = Byte.x2d)) eqn:Hb; [|done]. apply bool_decide_eq_true in Hb as ->.
    destruct (bool_decide (x ∈ _)) eqn:Hx; [|done]. apply bool_decide_eq_true in Hx.
    destruct (bool_decide (l = [])) eqn:Hl; [done|]. apply bool_decide_eq_false in Hl. cbn in Hs.
    destruct (forallb _ (rev l)); [|done]. simplify_eq.
    rewrite <- (rev_involutive r), Hr. cbn. split; [done|]. split.
    + intros Hn. apply Hl. by rewrite <- (rev_involutive l), Hn.
    + rewrite !elem_of_cons, elem_of_nil in Hx. naive_solver.
  - intros d u Hd Hds Hu. cbn [app str]. assert (∃ x, u = [x] ∧ x ∈ [Byte.x68; Byte.x64; Byte.x6d])
      as (x & -> & Hx) by (destruct Hu as [-> | [-> | ->]]; eexists; split; try done; set_solver).
    cbn. rewrite rev_app_distr. cbn. rewrite rev_involutive, Hds.
    rewrite (bool_decide_eq_true_2 (x ∈ _)) by done.
    rewrite (bool_decide_eq_false_2 (rev d = [])); [done|].
    intros Hn. apply Hd. by rewrite <- (rev_involutive d), Hn.
Qed.

(** No date is accepted, except one. *)
#[local] Instance chrono : Chrono := {|
  parse_rfc3339_millis s := None;
  parse_date_millis s := if bool_decide (s = $"2025-01-01") then Some 1735689600000%Z else None
|}.

(** Preads that return at most three bytes at a time. *)
#[local] Instance pread : PreadSchedule := λ _ avail, N.min 3 avail.

End Sample.
