(* ===== verification/Protocol.v ===== *)
(** * Protocol: frames and messages of the binary protocol

    [server/src/protocol/mod.rs]. A frame is a 16-byte header and a payload; the
    payload of a request is decoded by the parser of its message type, and each
    response has an encoder. *)

From S2P Require Import Prelude Bytes.

Open Scope N_scope.

Definition MAX_FRAME_SIZE : N := 64 * 1024 * 1024.

Inductive MsgType : Type :=
| Hello | CtxCreate | CtxFork | GetHead | AppendTurn | GetLast | GetBefore
| GetRangeByDepth | GetBlob | AttachFs | PutBlob | Error.

(** [MsgType::X as u16]. *)
Definition msg_type_u16 (t : MsgType) : N :=
  match t with
  | Hello => 1 | CtxCreate => 2 | CtxFork => 3 | GetHead => 4 | AppendTurn => 5
  | GetLast => 6 | GetBefore => 7 | GetRangeByDepth => 8 | GetBlob => 9
  | AttachFs => 10 | PutBlob => 11 | Error => 255
  end.

Record FrameHeader : Type := mkFrameHeader {
  fh_len : N;
  fh_msg_type : N;
  fh_flags : N;
  fh_req_id : N
}.

Record AppendTurnRequest : Type := mkAppendTurnRequest {
  atr_context_id : N;
  atr_parent_turn_id : N;
  atr_declared_type_id : rstr;
  atr_declared_type_version : N;
  atr_encoding : N;
  atr_compression : N;
  atr_uncompressed_len : N;
  atr_content_hash : bytes;
  atr_payload_bytes : bytes;
  atr_idempotency_key : bytes;
  atr_fs_root_hash : option bytes
}.

Record AttachFsRequest : Type := mkAttachFsRequest {
  afr_turn_id : N;
  afr_fs_root_hash : bytes
}.

Record PutBlobRequest : Type := mkPutBlobRequest {
  pbr_hash : bytes;
  pbr_data : bytes
}.

Record GetLastRequest : Type := mkGetLastRequest {
  glr_context_id : N;
  glr_limit : N;
  glr_include_payload : N
}.

Record HelloRequest : Type := mkHelloRequest {
  hr_protocol_version : N;
  hr_client_tag : rstr;
  hr_client_meta_json : option rstr
}.

(** [HelloRequest::default()], derived. *)
Definition hello_default : HelloRequest := mkHelloRequest 0 [] None.

(** ** Frames *)

Definition read_frame : reader StoreError (FrameHeader * bytes) :=
  flen ← read_u32;
  if MAX_FRAME_SIZE <? flen
  then rfail (InvalidInput ($"frame size " ++ show_N flen ++ $" exceeds maximum "
                              ++ show_N MAX_FRAME_SIZE))
  else
    msg_type ← read_u16;
    flags ← read_u16;
    req_id ← read_u64;
    payload ← read_exact flen;
    rret (mkFrameHeader flen msg_type flags req_id, payload).

Definition write_frame (msg_type flags req_id : N) (payload : bytes) : bytes :=
  write_u32 (wrap32 (len payload)) ++ write_u16 msg_type ++ write_u16 flags
    ++ write_u64 req_id ++ payload.

#[global] Arguments write_frame : simpl never.
#[global] Arguments MAX_FRAME_SIZE : simpl never.

(** ** Request parsers *)

Definition parse_ctx_create (payload : bytes) : result StoreError N :=
  run_cursor read_u64 payload.

Definition parse_ctx_fork (payload : bytes) : result StoreError N := parse_ctx_create payload.

Definition parse_get_head (payload : bytes) : result StoreError N := parse_ctx_create payload.

Definition parse_get_last (payload : bytes) : result StoreError GetLastRequest :=
  run_cursor (
    context_id ← read_u64;
    limit ← read_u32;
    include_payload ← read_u32;
    rret (mkGetLastRequest context_id limit include_payload)) payload.

Definition parse_get_blob (payload : bytes) : result StoreError bytes :=
  if negb (len payload =? 32) then Err (InvalidInput ($"invalid blob hash length"))
  else Ok payload.

Definition parse_append_turn (payload : bytes) (flags : N) : result StoreError AppendTurnRequest :=
  run_cursor (
    context_id ← read_u64;
    parent_turn_id ← read_u64;
    type_id_len ← read_u32;
    type_id_bytes ← read_exact type_id_len;
    declared_type_id ← rlift (ok_or (InvalidInput ($"declared_type_id not utf8"))
                                (from_utf8 type_id_bytes));
    declared_type_version ← read_u32;
    encoding ← read_u32;
    compression ← read_u32;
    uncompressed_len ← read_u32;
    content_hash ← read_exact 32;
    payload_len ← read_u32;
    payload_bytes ← read_exact payload_len;
    idempotency_len ← read_u32;
    idempotency_key ← (if 0 <? idempotency_len then read_exact idempotency_len else rret []);
    fs_root_hash ← (if negb (N.land flags 1 =? 0)
                    then hash ← read_exact 32; rret (Some hash)
                    else rret None);
    rret (mkAppendTurnRequest context_id parent_turn_id declared_type_id declared_type_version
            encoding compression uncompressed_len content_hash payload_bytes idempotency_key
            fs_root_hash)) payload.

Definition parse_attach_fs (payload : bytes) : result StoreError AttachFsRequest :=
  if len payload <? 40 then Err (InvalidInput ($"attach_fs payload too short"))
  else run_cursor (
    turn_id ← read_u64;
    fs_root_hash ← read_exact 32;
    rret (mkAttachFsRequest turn_id fs_root_hash)) payload.

Definition parse_put_blob (payload : bytes) : result StoreError PutBlobRequest :=
  if len payload <? 36 then Err (InvalidInput ($"put_blob payload too short"))
  else run_cursor (
    hash ← read_exact 32;
    data_len ← read_u32;
    data ← read_exact data_len;
    rret (mkPutBlobRequest hash data)) payload.

(** [HelloRequest] has two formats: the empty payload of old clients, and version,
    tag and metadata. *)
Definition parse_hello (payload : bytes) : result StoreError HelloRequest :=
  if len payload =? 0 then Ok hello_default
  else if len payload <? 4 then Err (InvalidInput ($"hello payload too short"))
  else run_cursor (
    protocol_version ← read_u16;
    client_tag_len ← read_u16;
    if len payload <? 4 + client_tag_len + 4
    then rfail (InvalidInput ($"hello payload truncated"))
    else
      client_tag_bytes ← (if 0 <? client_tag_len then read_exact client_tag_len else rret []);
      client_tag ← rlift (ok_or (InvalidInput ($"client_tag not utf8"))
                            (from_utf8 client_tag_bytes));
      client_meta_json_len ← read_u32;
      client_meta_json ←
        (if 0 <? client_meta_json_len
         then meta_bytes ← read_exact client_meta_json_len;
              meta ← rlift (ok_or (InvalidInput ($"client_meta_json not utf8"))
                              (from_utf8 meta_bytes));
              rret (Some meta)
         else rret None);
      rret (mkHelloRequest protocol_version client_tag client_meta_json)) payload.

(** ** Response encoders *)

Definition encode_attach_fs_resp (turn_id : N) (fs_root_hash : bytes) : bytes :=
  write_u64 turn_id ++ fs_root_hash.

Definition encode_put_blob_resp (hash : bytes) (was_new : bool) : bytes :=
  hash ++ write_u8 (if was_new then 1 else 0).

Definition encode_ctx_create_resp (context_id head_turn_id head_depth : N) : bytes :=
  write_u64 context_id ++ write_u64 head_turn_id ++ write_u32 head_depth.

Definition encode_append_ack (context_id new_turn_id new_depth : N) (hash : bytes) : bytes :=
  write_u64 context_id ++ write_u64 new_turn_id ++ write_u32 new_depth ++ hash.

Definition encode_error (code : N) (detail : rstr) : bytes :=
  write_u32 code ++ write_u32 (wrap32 (len detail)) ++ detail.

Definition encode_hello_resp (session_id protocol_version : N) : bytes :=
  write_u64 session_id ++ write_u16 protocol_version.

(** ** Theorems *)

Lemma reads_frame t f id p :
  t < U16 → f < U16 → id < U64 → len p ≤ MAX_FRAME_SIZE →
  reads read_frame (write_frame t f id p) (mkFrameHeader (len p) t f id, p).
Proof.
  intros Ht Hf Hid Hp. assert (len p < U32) by (unfold MAX_FRAME_SIZE in Hp; lia).
  unfold read_frame, write_frame. rewrite wrap32_small by done.
  reads_step. rewrite (proj2 (N.ltb_ge _ _)) by done. solve_reads.
Qed.

Lemma read_frame_inv bs h p rest :
  read_frame bs = Ok ((h, p), rest) →
  bs = write_frame (fh_msg_type h) (fh_flags h) (fh_req_id h) p ++ rest
  ∧ len p = fh_len h ∧ fh_len h ≤ MAX_FRAME_SIZE
  ∧ fh_msg_type h < U16 ∧ fh_flags h < U16 ∧ fh_req_id h < U64.
Proof.
  unfold read_frame. intros (n & bs' & Hn%read_u32_inv & H)%rbind_ok. destruct Hn as [-> Hn].
  destruct (N.ltb_spec MAX_FRAME_SIZE n); [done|]. reads_inv. cbn. subst.
  repeat split; [|done..]. unfold write_frame. rewrite wrap32_small by done.
  by rewrite <- !app_assoc.
Qed.

(** Reading [n] frames one after another, as the connection loop does. *)
Fixpoint read_frames (n : nat) : reader StoreError (list (FrameHeader * bytes)) :=
  match n with
  | O => rret []
  | S n => f ← read_frame; fs ← read_frames n; rret (f :: fs)
  end.

Record message : Type := mkMessage { m_type : N; m_flags : N; m_req_id : N; m_payload : bytes }.

Definition write_message (m : message) : bytes :=
  write_frame (m_type m) (m_flags m) (m_req_id m) (m_payload m).
Definition message_frame (m : message) : FrameHeader * bytes :=
  (mkFrameHeader (len (m_payload m)) (m_type m) (m_flags m) (m_req_id m), m_payload m).
Definition message_ok (m : message) : Prop :=
  m_type m < U16 ∧ m_flags m < U16 ∧ m_req_id m < U64 ∧ len (m_payload m) ≤ MAX_FRAME_SIZE.

Lemma reads_frames ms :
  Forall message_ok ms →
  reads (read_frames (length ms)) (concat (map write_message ms)) (map message_frame ms).
Proof.
  induction 1 as [|m ms (? & ? & ? & ?) Hms IH]; cbn [length map concat read_frames].
  - apply reads_ret.
  - eapply reads_bind; [by apply reads_frame|]. eapply reads_last; [done|]. apply reads_ret.
Qed.

(** C1. The frame codec is exact: [read_frame] succeeds on a byte stream if and only
    if the stream starts with the image under [write_frame] of the header and payload
    it returns, with a payload of the length in the header and at most 64 MiB; the
    bytes after the frame are left untouched. *)
Theorem read_frame_iff bs h p rest :
  read_frame bs = Ok ((h, p), rest) ↔
  bs = write_frame (fh_msg_type h) (fh_flags h) (fh_req_id h) p ++ rest
  ∧ len p = fh_len h ∧ fh_len h ≤ MAX_FRAME_SIZE
  ∧ fh_msg_type h < U16 ∧ fh_flags h < U16 ∧ fh_req_id h < U64.
Proof.
  split; [apply read_frame_inv|].
  intros (-> & Hl & Hmax & Ht & Hf & Hid). destruct h as [n t f id]; cbn in *. subst n.
  by rewrite reads_frame.
Qed.

(** Pipelined messages keep their boundaries: reading as many frames as were
    written back to back returns exactly the messages, in order, and stops at the
    first byte after them. *)
Theorem read_frames_pipeline ms rest :
  Forall message_ok ms →
  read_frames (length ms) (concat (map write_message ms) ++ rest)
  = Ok (map message_frame ms, rest).
Proof. intros Hms. by apply reads_frames. Qed.

Lemma read_frames_pipeline_witness :
  let ms := [mkMessage 1 0 7 []; mkMessage 5 1 8 [Byte.x01; Byte.x02]] in
  read_frames (length ms) (concat (map write_message ms) ++ [Byte.xff])
  = Ok (map message_frame ms, [Byte.xff]).
Proof.
  apply read_frames_pipeline. repeat constructor; vm_compute; done.
Defined.

(** What a frame read does on every input, as a function of the first four bytes
    and the length of the input. *)
Lemma read_frame_spec bs :
  let n := le_decode (take 4 bs) in
  read_frame bs =
  if len bs <? 4 then Err (Io UnexpectedEof)
  else if MAX_FRAME_SIZE <? n
  then Err (InvalidInput ($"frame size " ++ show_N n ++ $" exceeds maximum "
                            ++ show_N MAX_FRAME_SIZE))
  else if len bs <? 16 + n then Err (Io UnexpectedEof)
  else Ok (mkFrameHeader n (le_decode (take 2 (drop 4 bs))) (le_decode (take 2 (drop 6 bs)))
             (le_decode (take 8 (drop 8 bs))), take (N.to_nat n) (drop 16 bs),
           drop (N.to_nat n) (drop 16 bs)).
Proof.
  intros n. unfold read_frame, read_u32, read_u16, read_u64, mbind, reader_bind.
  rewrite read_le_spec, (N.leb_antisym (len bs) 4).
  destruct (N.ltb_spec (len bs) 4); cbn [negb]; [done|].
  change (N.to_nat 4) with 4%nat. fold n. destruct (N.ltb_spec MAX_FRAME_SIZE n); [done|].
  change (N.to_nat 2) with 2%nat. change (N.to_nat 8) with 8%nat.
  unfold read_exact, rret. repeat (rewrite ?read_le_spec; case_match; simplify_eq);
    rewrite ?drop_drop, ?len_drop, ?N.leb_le, ?N.leb_gt, ?N.ltb_lt, ?N.ltb_ge in *;
    try done; lia.
Qed.

(** The ways a frame read fails: a length field above the limit is refused with
    [InvalidInput] from the first four bytes alone, before any payload is read;
    otherwise the read fails exactly when the input ends before the announced frame
    does, with [UnexpectedEof]. *)
Theorem read_frame_err_iff bs e :
  let n := le_decode (take 4 bs) in
  read_frame bs = Err e ↔
  (len bs < 4 ∧ e = Io UnexpectedEof)
  ∨ (4 ≤ len bs ∧ MAX_FRAME_SIZE < n
     ∧ e = InvalidInput ($"frame size " ++ show_N n ++ $" exceeds maximum "
                           ++ show_N MAX_FRAME_SIZE))
  ∨ (4 ≤ len bs < 16 + n ∧ n ≤ MAX_FRAME_SIZE ∧ e = Io UnexpectedEof).
Proof.
  intros n. rewrite read_frame_spec. fold n.
  destruct (N.ltb_spec (len bs) 4); [naive_solver lia|].
  destruct (N.ltb_spec MAX_FRAME_SIZE n); [naive_solver lia|].
  destruct (N.ltb_spec (len bs) (16 + n)); naive_solver lia.
Qed.

(** *** Requests *)

(** HELLO parsing covers both formats: the empty payload gives the defaults of an
    old client, and the payload of a new client gives back its version, tag and
    metadata (absent when its length is zero), whatever bytes follow. *)
Theorem parse_hello_formats v tag meta rest :
  v < U16 → len tag < U16 → utf8_valid tag = true →
  len (default [] meta) < U32 → utf8_valid (default [] meta) = true → meta ≠ Some [] →
  parse_hello [] = Ok hello_default
  ∧ parse_hello (write_u16 v ++ write_u16 (len tag) ++ tag
                   ++ write_u32 (len (default [] meta)) ++ default [] meta ++ rest)
    = Ok (mkHelloRequest v tag meta).
Proof.
  intros Hv Htag Hu Hm Hmu Hne. split; [done|]. unfold parse_hello.
  autorewrite with cxdb. rewrite (proj2 (N.eqb_neq _ _)) by lia.
  rewrite !(proj2 (N.ltb_ge _ _)) by lia. rewrite !app_assoc.
  apply reads_run_app. rewrite <- !app_assoc. do 2 reads_step.
  rewrite (proj2 (N.ltb_ge _ _)) by lia.
  reads_step. eapply reads_bind_nil; [apply reads_rlift; by rewrite from_utf8_valid|].
  reads_step. eapply reads_last; [|apply reads_ret].
  destruct meta as [m|]; cbn [default from_option] in *; unfold id in *; [|apply reads_ret].
  destruct (N.ltb_spec 0 (len m)); [|destruct m; [done|unfold len in *; cbn in *; lia]].
  eapply reads_last; [by apply reads_exact|].
  eapply reads_bind_nil; [apply reads_rlift; by rewrite from_utf8_valid | apply reads_ret].
Qed.

Lemma parse_hello_formats_witness :
  parse_hello [] = Ok hello_default
  ∧ parse_hello (write_u16 1 ++ write_u16 (len ($"cli")) ++ $"cli"
                   ++ write_u32 (len (default [] (Some ($"{}")))) ++ default [] (Some ($"{}")) ++ [])
    = Ok (mkHelloRequest 1 ($"cli") (Some ($"{}"))).
Proof. apply parse_hello_formats; vm_compute; done. Defined.
