(* ===== verification/ClientWire.v ===== *)
(** * ClientWire: the Rust client's side of the binary protocol

    [clients/rust/src/{protocol,context,turn,fs,client,error}.rs]: the payload each
    client call writes and the parser of its response. The theorems relate the
    client's encoders to the server's parsers of [Protocol], and the server's
    encoders to the client's parsers. *)

From S2P Require Import Prelude Bytes External Protocol.

Open Scope N_scope.

(** ** Errors ([error.rs]) *)

Inductive ClientError : Type :=
| ClientClosed
| ContextNotFound
| TurnNotFound
| InvalidResponse (msg : rstr)
| Server (code : N) (detail : rstr)
| ClientIo (k : io_kind)
| Tls (msg : rstr)
| Timeout
| Cancelled
| QueueFull.

#[export] Instance ClientError_eq_dec : EqDecision ClientError.
Proof. solve_decision. Defined.

#[export] Instance FromIo_ClientError : FromIo ClientError := ClientIo.

(** ** Frames ([protocol.rs]) *)

Definition MSG_HELLO : N := 1.
Definition MSG_CTX_CREATE : N := 2.
Definition MSG_CTX_FORK : N := 3.
Definition MSG_GET_HEAD : N := 4.
Definition MSG_APPEND_TURN : N := 5.
Definition MSG_GET_LAST : N := 6.
Definition MSG_GET_BLOB : N := 9.
Definition MSG_ATTACH_FS : N := 10.
Definition MSG_PUT_BLOB : N := 11.
Definition MSG_ERROR : N := 255.
Definition ENCODING_MSGPACK : N := 1.

Definition client_write_frame (msg_type flags req_id : N) (payload : bytes) : bytes :=
  write_u32 (wrap32 (len payload)) ++ write_u16 msg_type ++ write_u16 flags
    ++ write_u64 req_id ++ payload.

Definition map_header_error (k : io_kind) : ClientError :=
  match k with
  | UnexpectedEof => InvalidResponse ($"frame header truncated")
  | _ => ClientIo k
  end.

(** [.map_err(f)?] on a read. *)
Definition rmap_err {E E' A} (f : E → E') (r : reader E A) : reader E' A := λ bs,
  map_err f (r bs).

Definition client_read_frame : reader ClientError (FrameHeader * bytes) :=
  flen ← rmap_err map_header_error (read_u32 (E:=io_kind));
  if MAX_FRAME_SIZE <? flen
  then rfail (InvalidResponse ($"frame size " ++ show_N flen ++ $" exceeds maximum "
                                 ++ show_N MAX_FRAME_SIZE))
  else
    msg_type ← rmap_err map_header_error (read_u16 (E:=io_kind));
    flags ← rmap_err map_header_error (read_u16 (E:=io_kind));
    req_id ← rmap_err map_header_error (read_u64 (E:=io_kind));
    payload ← rmap_err
      (λ k, match k with
            | UnexpectedEof => InvalidResponse ($"frame payload truncated")
            | _ => ClientIo k
            end) (read_exact (E:=io_kind) flen);
    rret (mkFrameHeader flen msg_type flags req_id, payload).

(** ** Requests *)

(** [Client::send_hello]. *)
Definition hello_payload (client_tag : rstr) : bytes :=
  write_u16 1 ++ write_u16 (wrap16 (len client_tag)) ++ client_tag ++ write_u32 0.

(** [Client::create_context] and [Client::fork_context]; [get_head] writes the same
    payload for a context id. *)
Definition context_payload (id : N) : bytes := write_u64 id.

Record AppendRequest : Type := mkAppendRequest {
  ar_context_id : N;
  ar_parent_turn_id : N;
  ar_type_id : rstr;
  ar_type_version : N;
  ar_payload : bytes;
  ar_idempotency_key : bytes;
  ar_encoding : N;
  ar_compression : N
}.

(** [AppendRequest::new]. *)
Definition append_request_new (context_id : N) (type_id : rstr) (type_version : N)
    (payload : bytes) : AppendRequest :=
  mkAppendRequest context_id 0 type_id type_version payload [] ENCODING_MSGPACK 0.

Section encoders.
Context `{Blake3}.

Definition effective_encoding (encoding : N) : N :=
  if encoding =? 0 then ENCODING_MSGPACK else encoding.

(** [Client::append_turn]: the payload written before [send_request]. *)
Definition append_turn_payload (req : AppendRequest) : bytes :=
  let encoding := effective_encoding (ar_encoding req) in
  let hash := blake3 (ar_payload req) in
  write_u64 (ar_context_id req)
  ++ write_u64 (ar_parent_turn_id req)
  ++ write_u32 (wrap32 (len (ar_type_id req)))
  ++ ar_type_id req
  ++ write_u32 (ar_type_version req)
  ++ write_u32 encoding
  ++ write_u32 (ar_compression req)
  ++ write_u32 (wrap32 (len (ar_payload req)))
  ++ hash
  ++ write_u32 (wrap32 (len (ar_payload req)))
  ++ ar_payload req
  ++ write_u32 (wrap32 (len (ar_idempotency_key req)))
  ++ (if negb (bool_decide (ar_idempotency_key req = [])) then ar_idempotency_key req else []).

(** [Client::append_turn_with_fs]: the frame flags and the payload. *)
Definition append_turn_with_fs_payload (req : AppendRequest) (fs_root_hash : option bytes)
    : N * bytes :=
  let payload := append_turn_payload req in
  match fs_root_hash with
  | Some hash => (N.lor 0 1, payload ++ hash)
  | None => (0, payload)
  end.

(** [Client::put_blob]. *)
Definition put_blob_payload (data : bytes) : bytes :=
  blake3 data ++ write_u32 (wrap32 (len data)) ++ data.
End encoders.

(** [GetLastOptions] and its [Default]. *)
Record GetLastOptions : Type := mkGetLastOptions {
  glo_limit : N;
  glo_include_payload : bool
}.
Definition get_last_options_default : GetLastOptions := mkGetLastOptions 10 false.

(** [Client::get_last]. *)
Definition get_last_payload (context_id : N) (opts : GetLastOptions) : bytes :=
  let limit := if glo_limit opts =? 0 then 10 else glo_limit opts in
  write_u64 context_id ++ write_u32 limit
    ++ write_u32 (if glo_include_payload opts then 1 else 0).

(** [Client::attach_fs]. *)
Definition attach_fs_payload (turn_id : N) (fs_root_hash : bytes) : bytes :=
  write_u64 turn_id ++ fs_root_hash.

(** ** Responses *)

Record ClientContextHead : Type := mkClientContextHead {
  cch_context_id : N;
  cch_head_turn_id : N;
  cch_head_depth : N
}.

Record AppendResult : Type := mkAppendResult {
  apr_context_id : N;
  apr_turn_id : N;
  apr_depth : N;
  apr_payload_hash : bytes
}.

Record ClientTurnRecord : Type := mkClientTurnRecord {
  ctr_turn_id : N;
  ctr_parent_id : N;
  ctr_depth : N;
  ctr_type_id : rstr;
  ctr_type_version : N;
  ctr_encoding : N;
  ctr_compression : N;
  ctr_payload_hash : bytes;
  ctr_payload : bytes
}.

Record AttachFsResult : Type := mkAttachFsResult {
  afres_turn_id : N;
  afres_fs_root_hash : bytes
}.

Record PutBlobResult : Type := mkPutBlobResult {
  pbres_hash : bytes;
  pbres_was_new : bool
}.

Definition parse_context_head (payload : bytes) : result ClientError ClientContextHead :=
  if len payload <? 20
  then Err (InvalidResponse ($"context head too short (" ++ show_N (len payload) ++ $" bytes)"))
  else run_cursor (
    context_id ← read_u64;
    head_turn_id ← read_u64;
    head_depth ← read_u32;
    rret (mkClientContextHead context_id head_turn_id head_depth)) payload.

Definition parse_append_result (payload : bytes) : result ClientError AppendResult :=
  if len payload <? 52
  then Err (InvalidResponse ($"append response too short (" ++ show_N (len payload)
                               ++ $" bytes)"))
  else run_cursor (
    context_id ← read_u64;
    turn_id ← read_u64;
    depth ← read_u32;
    hash ← read_exact 32;
    rret (mkAppendResult context_id turn_id depth hash)) payload.

(** One iteration of the loop of [parse_turn_records]. *)
Definition parse_turn_record : reader ClientError ClientTurnRecord :=
  turn_id ← read_u64;
  parent_id ← read_u64;
  depth ← read_u32;
  type_len ← read_u32;
  type_bytes ← read_exact type_len;
  type_id ← rlift (ok_or (InvalidResponse ($"type_id not utf8")) (from_utf8 type_bytes));
  type_version ← read_u32;
  encoding ← read_u32;
  compression ← read_u32;
  _uncompressed_len ← read_u32;
  payload_hash ← read_exact 32;
  payload_len ← read_u32;
  payload_bytes ← read_exact payload_len;
  rret (mkClientTurnRecord turn_id parent_id depth type_id type_version encoding compression
          payload_hash payload_bytes).

(** [for _ in 0..count]. *)
Fixpoint read_n {E A} (n : nat) (r : reader E A) : reader E (list A) :=
  match n with
  | O => rret []
  | S n => a ← r; l ← read_n n r; rret (a :: l)
  end.

Definition parse_turn_records (payload : bytes) : result ClientError (list ClientTurnRecord) :=
  if len payload <? 4 then Err (InvalidResponse ($"turn records too short"))
  else run_cursor (
    count ← read_u32;
    read_n (N.to_nat count) parse_turn_record) payload.

Definition parse_attach_fs_result (payload : bytes) : result ClientError AttachFsResult :=
  if len payload <? 40
  then Err (InvalidResponse ($"attach fs response too short (" ++ show_N (len payload)
                               ++ $" bytes)"))
  else run_cursor (
    turn_id ← read_u64;
    hash ← read_exact 32;
    rret (mkAttachFsResult turn_id hash)) payload.

Definition parse_put_blob_result (payload : bytes) : result ClientError PutBlobResult :=
  if len payload <? 33
  then Err (InvalidResponse ($"put blob response too short (" ++ show_N (len payload)
                               ++ $" bytes)"))
  else Ok (mkPutBlobResult (take 32 payload) (bool_decide (payload !! 32%nat = Some Byte.x01))).

Definition parse_server_error (payload : bytes) : ClientError :=
  if len payload <? 8 then Server 0 ($"unknown error")
  else
    let code := le_decode (take 4 payload) in
    let detail_len := le_decode (take 4 (drop 4 payload)) in
    let detail := if 8 + detail_len <=? len payload
                  then from_utf8_lossy (take (N.to_nat detail_len) (drop 8 payload))
                  else [] in
    Server code detail.

(** ** Theorems: what one side writes, the other reads *)

Definition append_request_ok (req : AppendRequest) : Prop :=
  ar_context_id req < U64 ∧ ar_parent_turn_id req < U64
  ∧ utf8_valid (ar_type_id req) = true ∧ len (ar_type_id req) < U32
  ∧ ar_type_version req < U32 ∧ ar_encoding req < U32 ∧ ar_compression req < U32
  ∧ len (ar_payload req) < U32 ∧ len (ar_idempotency_key req) < U32.

(** The request the server decodes from a client's append. *)
Definition decoded_append `{Blake3} (req : AppendRequest) (fs : option bytes) : AppendTurnRequest :=
  mkAppendTurnRequest (ar_context_id req) (ar_parent_turn_id req) (ar_type_id req)
    (ar_type_version req) (effective_encoding (ar_encoding req)) (ar_compression req)
    (len (ar_payload req)) (blake3 (ar_payload req)) (ar_payload req) (ar_idempotency_key req) fs.

Section interop.
Context `{Blake3Laws}.

Lemma idempotency_key_written (k : bytes) :
  (if negb (bool_decide (k = [])) then k else []) = k.
Proof. case_bool_decide; by subst. Qed.

Lemma effective_encoding_lt e : e < U32 → effective_encoding e < U32.
Proof. unfold effective_encoding. case_match; [done|lia]. Qed.

Lemma parse_append_written req fs flags :
  append_request_ok req → (∀ h, fs = Some h → len h = 32) →
  flags = (if decide (is_Some fs) then 1 else 0) →
  parse_append_turn (append_turn_payload req ++ default [] fs) flags = Ok (decoded_append req fs).
Proof.
  intros (Hc & Hp & Hu & Htl & Htv & He & Hcm & Hpl & Hil) Hfs ->.
  apply effective_encoding_lt in He.
  assert (Hh := blake3_length (ar_payload req)).
  unfold append_turn_payload, parse_append_turn.
  rewrite idempotency_key_written, !wrap32_small by done.
  destruct fs as [h|]; apply reads_run; rewrite <- ?app_assoc; do 4 reads_step;
    (eapply reads_bind_nil; [apply reads_rlift; by rewrite from_utf8_valid|]);
    do 7 reads_step; repeat reads_step.
  - cbn [default decide N.land N.eqb negb]. eapply reads_last; [|apply reads_ret].
    eapply reads_last; [apply reads_exact; eauto | apply reads_ret].
  - eapply reads_bind_nil; apply reads_ret.
Qed.

(** The server reads the append request that the client wrote: every field of a
    well-formed request survives the client's [append_turn_with_fs] and the server's
    [parse_append_turn], the content hash being the BLAKE3 of the payload and the
    snapshot hash being present exactly when the client passed one. *)
Theorem append_request_roundtrip req fs :
  append_request_ok req → (∀ h, fs = Some h → len h = 32) →
  let (flags, payload) := append_turn_with_fs_payload req fs in
  parse_append_turn payload flags = Ok (decoded_append req fs).
Proof.
  intros Hreq Hfs. pose proof (parse_append_written req fs _ Hreq Hfs eq_refl) as Hp.
  unfold append_turn_with_fs_payload. destruct fs; [done|]. cbn in Hp. by rewrite app_nil_r in Hp.
Qed.

(** The small requests reach the server unchanged: a context id or base turn, a
    GET_LAST with the client's default limit filled in, a snapshot attachment and a
    blob upload are each decoded to the values the client call was given. *)
Theorem small_requests_roundtrip id opts turn_id root data :
  id < U64 → glo_limit opts < U32 → turn_id < U64 → len root = 32 → len data < U32 →
  parse_ctx_create (context_payload id) = Ok id
  ∧ parse_get_last (get_last_payload id opts)
    = Ok (mkGetLastRequest id (if glo_limit opts =? 0 then 10 else glo_limit opts)
            (if glo_include_payload opts then 1 else 0))
  ∧ parse_attach_fs (attach_fs_payload turn_id root) = Ok (mkAttachFsRequest turn_id root)
  ∧ parse_put_blob (put_blob_payload data) = Ok (mkPutBlobRequest (blake3 data) data).
Proof.
  intros Hid Hlim Hturn Hroot Hdata. repeat split.
  - by apply reads_run, reads_u64.
  - unfold parse_get_last, get_last_payload. apply reads_run. reads_step.
    eapply reads_bind; [apply reads_u32; by case_match|].
    eapply reads_last; [apply reads_u32; by case_match | apply reads_ret].
  - unfold parse_attach_fs, attach_fs_payload. autorewrite with cxdb. rewrite Hroot.
    apply reads_run. solve_reads.
  - assert (Hh := blake3_length data). unfold parse_put_blob, put_blob_payload.
    autorewrite with cxdb. rewrite Hh, (proj2 (N.ltb_ge _ _)) by lia.
    rewrite wrap32_small by done. apply reads_run. solve_reads.
Qed.

(** The client reads the server's responses: the context head, the append
    acknowledgement, the snapshot and blob acknowledgements carry their fields over,
    and an error frame gives back the code and the message. *)
Theorem responses_roundtrip ctx turn depth hash was_new code detail :
  ctx < U64 → turn < U64 → depth < U32 → len hash = 32 → code < U32 →
  len detail < U32 → utf8_valid detail = true →
  parse_context_head (encode_ctx_create_resp ctx turn depth)
    = Ok (mkClientContextHead ctx turn depth)
  ∧ parse_append_result (encode_append_ack ctx turn depth hash)
    = Ok (mkAppendResult ctx turn depth hash)
  ∧ parse_attach_fs_result (encode_attach_fs_resp turn hash) = Ok (mkAttachFsResult turn hash)
  ∧ parse_put_blob_result (encode_put_blob_resp hash was_new)
    = Ok (mkPutBlobResult hash was_new)
  ∧ parse_server_error (encode_error code detail) = Server code detail.
Proof.
  intros Hc Ht Hd Hh Hcode Hlen Hu. repeat split.
  - unfold parse_context_head, encode_ctx_create_resp. autorewrite with cxdb.
    apply reads_run. solve_reads.
  - unfold parse_append_result, encode_append_ack. autorewrite with cxdb. rewrite Hh.
    apply reads_run. solve_reads.
  - unfold parse_attach_fs_result, encode_attach_fs_resp. autorewrite with cxdb.
    rewrite Hh. apply reads_run. solve_reads.
  - unfold parse_put_blob_result, encode_put_blob_resp. autorewrite with cxdb. rewrite Hh.
    assert (length hash = 32%nat) as Hl by (unfold len in Hh; lia).
    rewrite <- Hl, take_app_length, lookup_app_r, Nat.sub_diag by lia.
    cbn. by destruct was_new.
  - unfold parse_server_error, encode_error. rewrite wrap32_small by done.
    autorewrite with cxdb. rewrite (proj2 (N.ltb_ge _ _)) by lia.
    rewrite take_app_le, take_ge by (rewrite length_write_u32; lia).
    rewrite drop_app_length', take_app_length' by (by rewrite length_write_u32).
    rewrite (le_decode_write_u32 code), (le_decode_write_u32 (len detail)) by done.
    rewrite (proj2 (N.leb_le _ _)) by lia.
    rewrite app_assoc, drop_app_length' by (by rewrite length_app, !length_write_u32).
    rewrite take_ge by (unfold len; lia). by rewrite from_utf8_lossy_valid.
Qed.
End interop.

Module ClientWireWitness.
#[local] Existing Instances Sample.blake Sample.blake_laws.

Definition sample_request : AppendRequest :=
  append_request_new 1 ($"cxdb.ConversationItem") 3 [Byte.x91; Byte.x01].

Lemma append_request_roundtrip_witness :
  let (flags, payload) := append_turn_with_fs_payload sample_request (Some (replicate 32 Byte.xbb)) in
  parse_append_turn payload flags
  = Ok (decoded_append sample_request (Some (replicate 32 Byte.xbb))).
Proof.
  apply append_request_roundtrip.
  - repeat split; vm_compute; done.
  - by intros h [= <-].
Defined.

Lemma small_requests_roundtrip_witness :
  parse_ctx_create (context_payload 7) = Ok 7
  ∧ parse_get_last (get_last_payload 7 get_last_options_default) = Ok (mkGetLastRequest 7 10 0)
  ∧ parse_attach_fs (attach_fs_payload 99 (replicate 32 Byte.xaa))
    = Ok (mkAttachFsRequest 99 (replicate 32 Byte.xaa))
  ∧ parse_put_blob (put_blob_payload ($"hello blob"))
    = Ok (mkPutBlobRequest (blake3 ($"hello blob")) ($"hello blob")).
Proof.
  apply (small_requests_roundtrip 7 get_last_options_default); vm_compute; done.
Defined.

Lemma responses_roundtrip_witness :
  let h := replicate 32 Byte.x11 in
  parse_context_head (encode_ctx_create_resp 1 2 3) = Ok (mkClientContextHead 1 2 3)
  ∧ parse_append_result (encode_append_ack 1 2 3 h) = Ok (mkAppendResult 1 2 3 h)
  ∧ parse_attach_fs_result (encode_attach_fs_resp 2 h) = Ok (mkAttachFsResult 2 h)
  ∧ parse_put_blob_result (encode_put_blob_resp h true) = Ok (mkPutBlobResult h true)
  ∧ parse_server_error (encode_error 404 ($"not found")) = Server 404 ($"not found").
Proof. apply responses_roundtrip; vm_compute; done. Defined.

End ClientWireWitness.
