(* ===== verification/Encoding.v ===== *)
(** * Encoding: msgpack of the Rust client

    [clients/rust/src/encoding.rs]: the writer of serde values, whose maps are
    ordered by the bytes of their keys so that equal values give equal bytes (and
    equal hashes), and the readers. The crates [rmp] and [rmpv] are parameters; [RmpLaws] states the
    format: what is written is read back and the rest of the input is left. *)

From S2P Require Import Prelude Bytes External ClientWire.

Open Scope N_scope.

(** [serde_value::Value]; floats are kept as their bits. A [BTreeMap] is the list of its
    entries in its order. *)
Inductive SerdeValue : Type :=
| SBool (b : bool)
| SU8 (n : N) | SU16 (n : N) | SU32 (n : N) | SU64 (n : N)
| SI8 (i : Z) | SI16 (i : Z) | SI32 (i : Z) | SI64 (i : Z)
| SF32 (bits : N) | SF64 (bits : N)
| SChar (c : char)
| SString (s : rstr)
| SUnit
| SOption (o : option SerdeValue)
| SNewtype (v : SerdeValue)
| SSeq (l : list SerdeValue)
| SMap (m : list (SerdeValue * SerdeValue))
| SBytes (bs : bytes).

(** Induction through the sequences and maps. *)
Section SerdeValue_nested.
Variable P : SerdeValue → Prop.
Hypothesis Hleaf : ∀ v,
  match v with SOption (Some _) | SNewtype _ | SSeq _ | SMap _ => True | _ => P v end.
Hypothesis Hsome : ∀ v, P v → P (SOption (Some v)).
Hypothesis Hnewtype : ∀ v, P v → P (SNewtype v).
Hypothesis Hseq : ∀ l, Forall P l → P (SSeq l).
Hypothesis Hmap : ∀ m, Forall (λ kv, P kv.1 ∧ P kv.2) m → P (SMap m).

Fixpoint SerdeValue_nested (v : SerdeValue) : P v :=
  match v with
  | SOption (Some v) => Hsome v (SerdeValue_nested v)
  | SNewtype v => Hnewtype v (SerdeValue_nested v)
  | SSeq l =>
      Hseq l ((fix all l : Forall P l :=
        match l with
        | [] => Forall_nil_2 P
        | v :: l => Forall_cons_2 P v l (SerdeValue_nested v) (all l)
        end) l)
  | SMap m =>
      Hmap m ((fix all m : Forall (λ kv, P kv.1 ∧ P kv.2) m :=
        match m with
        | [] => Forall_nil_2 _
        | kv :: m =>
            Forall_cons_2 _ kv m
              (conj (SerdeValue_nested kv.1) (SerdeValue_nested kv.2)) (all m)
        end) m)
  | v => Hleaf v
  end.
End SerdeValue_nested.

(** [rmp::encode]: the bytes that each function writes. *)
Class RmpEncode : Type := {
  write_bool : bool → bytes;
  rmp_u8 : N → bytes;
  rmp_u16 : N → bytes;
  rmp_u32 : N → bytes;
  rmp_u64 : N → bytes;
  rmp_i8 : Z → bytes;
  rmp_i16 : Z → bytes;
  rmp_i32 : Z → bytes;
  rmp_i64 : Z → bytes;
  rmp_f32 : N → bytes;
  rmp_f64 : N → bytes;
  rmp_str : rstr → bytes;
  rmp_bin : bytes → bytes;
  rmp_nil : bytes;
  rmp_array_len : N → bytes;
  rmp_map_len : N → bytes
}.

(** [rmpv::decode::read_value] on a cursor: the value and what is left to read. *)
Class RmpCursor : Type := read_value_at : bytes → option (Value * bytes).

Fixpoint read_values (next : bytes → option (Value * bytes)) (n : nat) (bs : bytes)
    : option (list Value * bytes) :=
  match n with
  | O => Some ([], bs)
  | S n =>
      '(v, bs) ← next bs;
      '(vs, bs) ← read_values next n bs;
      Some (v :: vs, bs)
  end.

Fixpoint read_pairs (next : bytes → option (Value * bytes)) (n : nat) (bs : bytes)
    : option (list (Value * Value) * bytes) :=
  match n with
  | O => Some ([], bs)
  | S n =>
      '(k, bs) ← next bs;
      '(v, bs) ← next bs;
      '(kvs, bs) ← read_pairs next n bs;
      Some ((k, v) :: kvs, bs)
  end.

Definition in_i (w : Z) (i : Z) : Prop := (- 2 ^ (w - 1) ≤ i < 2 ^ (w - 1))%Z.

(** The format of msgpack, as far as [rmp] writes it. *)
Class RmpLaws `{Msgpack} `{RmpEncode} `{RmpCursor} : Prop := {
  read_front bs v rest : read_value_at bs = Some (v, rest) → msgpack_read bs = Ok v;
  read_bool b rest : read_value_at (write_bool b ++ rest) = Some (VBoolean b, rest);
  read_rmp_u8 n rest : n < 256 → read_value_at (rmp_u8 n ++ rest) = Some (VInteger (Z.of_N n), rest);
  read_rmp_u16 n rest : n < U16 → read_value_at (rmp_u16 n ++ rest) = Some (VInteger (Z.of_N n), rest);
  read_rmp_u32 n rest : n < U32 → read_value_at (rmp_u32 n ++ rest) = Some (VInteger (Z.of_N n), rest);
  read_rmp_u64 n rest : n < U64 → read_value_at (rmp_u64 n ++ rest) = Some (VInteger (Z.of_N n), rest);
  read_rmp_i8 i rest : in_i 8 i → read_value_at (rmp_i8 i ++ rest) = Some (VInteger i, rest);
  read_rmp_i16 i rest : in_i 16 i → read_value_at (rmp_i16 i ++ rest) = Some (VInteger i, rest);
  read_rmp_i32 i rest : in_i 32 i → read_value_at (rmp_i32 i ++ rest) = Some (VInteger i, rest);
  read_rmp_i64 i rest : in_i 64 i → read_value_at (rmp_i64 i ++ rest) = Some (VInteger i, rest);
  read_rmp_f32 n rest : n < U32 → read_value_at (rmp_f32 n ++ rest) = Some (VF32 n, rest);
  read_rmp_f64 n rest : n < U64 → read_value_at (rmp_f64 n ++ rest) = Some (VF64 n, rest);
  read_rmp_str s rest : len s < U32 → read_value_at (rmp_str s ++ rest) = Some (VString s, rest);
  read_rmp_bin bs rest : len bs < U32 → read_value_at (rmp_bin bs ++ rest) = Some (VBinary bs, rest);
  read_rmp_nil rest : read_value_at (rmp_nil ++ rest) = Some (VNil, rest);
  read_rmp_array n bs vs rest : n < U32 →
    read_values read_value_at (N.to_nat n) bs = Some (vs, rest) →
    read_value_at (rmp_array_len n ++ bs) = Some (VArray vs, rest);
  read_rmp_map n bs kvs rest : n < U32 →
    read_pairs read_value_at (N.to_nat n) bs = Some (kvs, rest) →
    read_value_at (rmp_map_len n ++ bs) = Some (VMap kvs, rest)
}.

(** [char::encode_utf8]. *)
Definition encode_utf8 (c : char) : rstr :=
  map byte_of_N
    (if c <? 0x80 then [c]
     else if c <? 0x800 then [0xC0 + c / 64; 0x80 + c mod 64]
     else if c <? 0x10000 then [0xE0 + c / 4096; 0x80 + (c / 64) mod 64; 0x80 + c mod 64]
     else [0xF0 + c / 262144; 0x80 + (c / 4096) mod 64; 0x80 + (c / 64) mod 64; 0x80 + c mod 64]).

(** ** Writing *)

Section write.
Context `{RmpEncode}.

(** [write_serde_value] into a vector, which does not fail. The entries of a map are written in
    the order of the bytes of their keys ([encoded_key_cmp]); each key is written once here, and
    [write_map_sorted] gives the form of the code, which sorts the entries. *)
Fixpoint write_serde_value (v : SerdeValue) : bytes :=
  match v with
  | SBool b => write_bool b
  | SU8 n => rmp_u8 n
  | SU16 n => rmp_u16 n
  | SU32 n => rmp_u32 n
  | SU64 n => rmp_u64 n
  | SI8 i => rmp_i8 i
  | SI16 i => rmp_i16 i
  | SI32 i => rmp_i32 i
  | SI64 i => rmp_i64 i
  | SF32 n => rmp_f32 n
  | SF64 n => rmp_f64 n
  | SChar c => rmp_str (encode_utf8 c)
  | SString s => rmp_str s
  | SUnit => rmp_nil
  | SOption (Some v) => write_serde_value v
  | SOption None => rmp_nil
  | SNewtype v => write_serde_value v
  | SSeq items => rmp_array_len (wrap32 (len items)) ++ concat (map write_serde_value items)
  | SMap m =>
      rmp_map_len (wrap32 (len m))
        ++ concat (map (λ kv, kv.1 ++ kv.2)
             (sort_by (λ a b, str_le a.1 b.1)
                (map (λ kv, (write_serde_value kv.1, write_serde_value kv.2)) m)))
  | SBytes bs => rmp_bin bs
  end.

Definition encoded_key_le (a b : SerdeValue) : bool :=
  str_le (write_serde_value a) (write_serde_value b).

(** The entries of a map in the order in which they are written. *)
Definition sorted_entries (m : list (SerdeValue * SerdeValue)) : list (SerdeValue * SerdeValue) :=
  sort_by (λ a b, encoded_key_le a.1 b.1) m.

Lemma write_map_sorted m :
  write_serde_value (SMap m)
  = rmp_map_len (wrap32 (len m))
      ++ concat (map (λ kv, write_serde_value kv.1 ++ write_serde_value kv.2) (sorted_entries m)).
Proof.
  cbn [write_serde_value]. f_equal. f_equal. unfold sorted_entries.
  rewrite (sort_by_map (λ kv, (write_serde_value kv.1, write_serde_value kv.2))
    (λ a b : SerdeValue * SerdeValue, encoded_key_le a.1 b.1)) by done.
  by rewrite map_map.
Qed.

(** What the value means to a reader. *)
Fixpoint to_rmpv (v : SerdeValue) : Value :=
  match v with
  | SBool b => VBoolean b
  | SU8 n | SU16 n | SU32 n | SU64 n => VInteger (Z.of_N n)
  | SI8 i | SI16 i | SI32 i | SI64 i => VInteger i
  | SF32 n => VF32 n
  | SF64 n => VF64 n
  | SChar c => VString (encode_utf8 c)
  | SString s => VString s
  | SUnit => VNil
  | SOption (Some v) => to_rmpv v
  | SOption None => VNil
  | SNewtype v => to_rmpv v
  | SSeq l => VArray (map to_rmpv l)
  | SMap m =>
      VMap (map snd (sort_by (λ a b, str_le a.1 b.1)
        (map (λ kv, (write_serde_value kv.1, (to_rmpv kv.1, to_rmpv kv.2))) m)))
  | SBytes bs => VBinary bs
  end.

Lemma to_rmpv_map m :
  to_rmpv (SMap m) = VMap (map (λ kv, (to_rmpv kv.1, to_rmpv kv.2)) (sorted_entries m)).
Proof.
  cbn [to_rmpv]. f_equal. unfold sorted_entries.
  rewrite (sort_by_map (λ kv, (write_serde_value kv.1, (to_rmpv kv.1, to_rmpv kv.2)))
    (λ a b : SerdeValue * SerdeValue, encoded_key_le a.1 b.1)) by done.
  by rewrite map_map.
Qed.
End write.

(** The ranges of the types of the values, and lengths that the format can hold. *)
Fixpoint serde_wf (v : SerdeValue) : Prop :=
  match v with
  | SBool _ | SUnit | SOption None => True
  | SU8 n => n < 256
  | SU16 n => n < U16
  | SU32 n | SF32 n => n < U32
  | SU64 n | SF64 n => n < U64
  | SI8 i => in_i 8 i
  | SI16 i => in_i 16 i
  | SI32 i => in_i 32 i
  | SI64 i => in_i 64 i
  | SChar c => c < 0x110000
  | SString s => len s < U32
  | SOption (Some v) => serde_wf v
  | SNewtype v => serde_wf v
  | SSeq l => len l < U32 ∧ foldr (λ v P, serde_wf v ∧ P) True l
  | SMap m => len m < U32 ∧ foldr (λ kv P, serde_wf kv.1 ∧ serde_wf kv.2 ∧ P) True m
  | SBytes bs => len bs < U32
  end.

(** ** Reading *)

(** [normalize_map_keys_to_string]: integer keys become their decimal text. *)
Definition key_to_string (k : Value) : Value :=
  match k with
  | VInteger i => match int_as_u64 i with Some num => VString (show_N num) | None => k end
  | _ => k
  end.

Fixpoint normalize_map_keys_to_string (v : Value) : Value :=
  match v with
  | VMap entries =>
      VMap (map (λ kv, (key_to_string kv.1, normalize_map_keys_to_string kv.2)) entries)
  | VArray items => VArray (map normalize_map_keys_to_string items)
  | _ => v
  end.

Section read.
Context `{Msgpack}.

Definition decode_error (e : rstr) : ClientError := InvalidResponse ($"msgpack decode error: " ++ e).

(** The key of an entry in [decode_msgpack]. *)
Definition numeric_key (k : Value) : result ClientError N :=
  let invalid := InvalidResponse ($"invalid map key") in
  match k with
  | VInteger i => ok_or invalid (int_as_u64 i)
  | VString s => ok_or invalid (s ← utf8_as_str s; parse_u64 s)
  | _ => Err invalid
  end.

(** The loop over the entries; a later entry with the same key replaces an earlier one. *)
Fixpoint insert_entries (entries : list (Value * Value)) (out : gmap N Value)
    : result ClientError (gmap N Value) :=
  match entries with
  | [] => Ok out
  | (k, v) :: entries => key ← numeric_key k; insert_entries entries (<[key := v]> out)
  end.

Definition decode_msgpack (data : bytes) : result ClientError (gmap N Value) :=
  value ← map_err decode_error (msgpack_read data);
  match value with
  | VMap entries => insert_entries entries ∅
  | _ => Err (InvalidResponse ($"msgpack payload is not a map"))
  end.

(** [decode_msgpack_into], where [from_slice] is [rmp_serde::from_slice] and [from_value]
    is [rmpv::ext::from_value] at the type that is read. *)
Definition decode_msgpack_into {T : Type} (from_slice : bytes → option T)
    (from_value : Value → result rstr T) (data : bytes) : result ClientError T :=
  match from_slice data with
  | Some value => Ok value
  | None =>
      value ← map_err decode_error (msgpack_read data);
      map_err decode_error (from_value (normalize_map_keys_to_string value))
  end.
End read.

(** ** What is written is read back *)

Lemma read_values_written next l rest (write : SerdeValue → bytes) (meaning : SerdeValue → Value) :
  Forall (λ v, ∀ rest, next (write v ++ rest) = Some (meaning v, rest)) l →
  read_values next (length l) (concat (map write l) ++ rest) = Some (map meaning l, rest).
Proof.
  induction 1 as [|v l Hv Hl IH]; [done|].
  cbn [length map concat read_values]. rewrite <- app_assoc, Hv. cbn. by rewrite IH.
Qed.

Lemma read_pairs_written next l rest (write : SerdeValue → bytes) (meaning : SerdeValue → Value) :
  Forall (λ kv, (∀ rest, next (write kv.1 ++ rest) = Some (meaning kv.1, rest))
     ∧ ∀ rest, next (write kv.2 ++ rest) = Some (meaning kv.2, rest)) l →
  read_pairs next (length l) (concat (map (λ kv, write kv.1 ++ write kv.2) l) ++ rest)
  = Some (map (λ kv, (meaning kv.1, meaning kv.2)) l, rest).
Proof.
  induction 1 as [|kv l [Hk Hv] Hl IH]; [done|].
  cbn [length map concat read_pairs]. rewrite <- !app_assoc, Hk. cbn [mbind option_bind].
  rewrite Hv. cbn [mbind option_bind]. by rewrite IH.
Qed.

Lemma encode_utf8_len c : len (encode_utf8 c) < U32.
Proof.
  unfold encode_utf8, len. rewrite length_map.
  repeat (destruct (_ <? _)); cbn; lia.
Qed.

Section roundtrip.
Context `{RmpLaws}.

Lemma next_written v :
  serde_wf v → ∀ rest, read_value_at (write_serde_value v ++ rest) = Some (to_rmpv v, rest).
Proof.
  revert v. refine (SerdeValue_nested _ _ _ _ _ _); [intros v|done|done|intros l IH|intros m IH].
  - destruct v as [| | | | | | | | | | | | | |[v|]| | | |]; try done; intros Hwf rest.
    + apply read_bool.
    + by apply read_rmp_u8.
    + by apply read_rmp_u16.
    + by apply read_rmp_u32.
    + by apply read_rmp_u64.
    + by apply read_rmp_i8.
    + by apply read_rmp_i16.
    + by apply read_rmp_i32.
    + by apply read_rmp_i64.
    + by apply read_rmp_f32.
    + by apply read_rmp_f64.
    + apply read_rmp_str, encode_utf8_len.
    + by apply read_rmp_str.
    + apply read_rmp_nil.
    + apply read_rmp_nil.
    + by apply read_rmp_bin.
  - intros [Hl Hwf] rest. cbn [write_serde_value to_rmpv]. rewrite wrap32_small, <- app_assoc by done.
    apply read_rmp_array; [done|]. unfold len. rewrite Nat2N.id. apply read_values_written.
    clear Hl. induction IH as [|v l Hv IH IHl]; constructor; destruct Hwf as [Hw Hwf].
    + exact (Hv Hw).
    + exact (IHl Hwf).
  - intros [Hl Hwf] rest. rewrite write_map_sorted, to_rmpv_map, wrap32_small, <- app_assoc by done.
    apply read_rmp_map; [done|]. unfold len.
    rewrite Nat2N.id, <- (length_sort_by (λ a b, encoded_key_le a.1 b.1) m).
    apply read_pairs_written. unfold sorted_entries. rewrite sort_by_perm.
    clear Hl. induction IH as [|kv m [Hk Hv] IH IHm]; constructor;
      destruct Hwf as (Hwk & Hwv & Hwf).
    + split; [exact (Hk Hwk)|exact (Hv Hwv)].
    + exact (IHm Hwf).
Qed.

Lemma encode_reads v : serde_wf v → msgpack_read (write_serde_value v) = Ok (to_rmpv v).
Proof.
  intros Hv. apply (read_front _ _ []). rewrite <- (app_nil_r (write_serde_value v)).
  by apply next_written.
Qed.

(** Whatever value of serde is written, a reader of msgpack gets the same value back, with the
    entries of its maps in the order of their encoded keys. *)
Theorem encode_reads_back v :
  serde_wf v → msgpack_read (write_serde_value v) = Ok (to_rmpv v).
Proof. apply encode_reads. Qed.
End roundtrip.

(** The encoding of a map is canonical: it does not depend on the order of the entries, as
    long as no two keys are written alike. *)
Lemma encode_canonical `{RmpEncode} m m' :
  NoDup (map (λ kv, write_serde_value kv.1) m) → m ≡ₚ m' →
  write_serde_value (SMap m) = write_serde_value (SMap m').
Proof.
  intros Hd Hm. rewrite !write_map_sorted.
  assert (len m = len m') as -> by (unfold len; by rewrite Hm).
  f_equal. f_equal. f_equal. unfold sorted_entries. apply sort_by_unique; [| | |done].
  - intros a b. apply str_le_total.
  - intros a b c. apply str_le_trans.
  - intros a b Ha Hb Hab Hba. apply str_le_antisym in Hab; [|done].
    apply list_elem_of_lookup in Ha as [i Hi]. apply list_elem_of_lookup in Hb as [j Hj].
    assert (i = j) as ->; [|by simplify_eq].
    eapply NoDup_lookup; [exact Hd| |].
    + by rewrite list_lookup_fmap, Hi.
    + rewrite list_lookup_fmap, Hj. cbn. by rewrite Hab.
Qed.

(** A concrete instance: msgpack with the longest form of every length. *)
Module RmpSample.

Definition be (w : nat) (n : N) : bytes := rev (le_encode w n).
Definition of_signed (w : Z) (i : Z) : N := Z.to_N (i mod 2 ^ w).
Definition to_signed (w : Z) (n : N) : Z :=
  if (Z.of_N n <? 2 ^ (w - 1))%Z then Z.of_N n else (Z.of_N n - 2 ^ w)%Z.

#[export] Instance encode : RmpEncode := {|
  write_bool b := [if b then Byte.xc3 else Byte.xc2];
  rmp_u8 n := Byte.xcc :: be 1 n; rmp_u16 n := Byte.xcd :: be 2 n;
  rmp_u32 n := Byte.xce :: be 4 n; rmp_u64 n := Byte.xcf :: be 8 n;
  rmp_i8 i := Byte.xd0 :: be 1 (of_signed 8 i); rmp_i16 i := Byte.xd1 :: be 2 (of_signed 16 i);
  rmp_i32 i := Byte.xd2 :: be 4 (of_signed 32 i); rmp_i64 i := Byte.xd3 :: be 8 (of_signed 64 i);
  rmp_f32 n := Byte.xca :: be 4 n; rmp_f64 n := Byte.xcb :: be 8 n;
  rmp_str s := Byte.xdb :: be 4 (len s) ++ s; rmp_bin s := Byte.xc6 :: be 4 (len s) ++ s;
  rmp_nil := [Byte.xc0];
  rmp_array_len n := Byte.xdd :: be 4 n; rmp_map_len n := Byte.xdf :: be 4 n
|}.

(** A big-endian number, and a string with its length before it. *)
Definition take_be (w : nat) (bs : bytes) : option (N * bytes) :=
  if (length bs <? w)%nat then None else Some (le_decode (rev (take w bs)), drop w bs).
Definition take_raw (bs : bytes) : option (bytes * bytes) :=
  '(n, bs) ← take_be 4 bs;
  if len bs <? n then None else Some (take (N.to_nat n) bs, drop (N.to_nat n) bs).

Definition number (w : nat) (f : N → Value) (bs : bytes) : option (Value * bytes) :=
  '(n, bs) ← take_be w bs; Some (f n, bs).

Fixpoint next (fuel : nat) (bs : bytes) : option (Value * bytes) :=
  match fuel, bs with
  | S fuel, b :: bs =>
      match b with
      | Byte.xc0 => Some (VNil, bs)
      | Byte.xc2 => Some (VBoolean false, bs)
      | Byte.xc3 => Some (VBoolean true, bs)
      | Byte.xc6 => '(s, bs) ← take_raw bs; Some (VBinary s, bs)
      | Byte.xca => number 4 VF32 bs
      | Byte.xcb => number 8 VF64 bs
      | Byte.xcc => number 1 (λ n, VInteger (Z.of_N n)) bs
      | Byte.xcd => number 2 (λ n, VInteger (Z.of_N n)) bs
      | Byte.xce => number 4 (λ n, VInteger (Z.of_N n)) bs
      | Byte.xcf => number 8 (λ n, VInteger (Z.of_N n)) bs
      | Byte.xd0 => number 1 (λ n, VInteger (to_signed 8 n)) bs
      | Byte.xd1 => number 2 (λ n, VInteger (to_signed 16 n)) bs
      | Byte.xd2 => number 4 (λ n, VInteger (to_signed 32 n)) bs
      | Byte.xd3 => number 8 (λ n, VInteger (to_signed 64 n)) bs
      | Byte.xdb => '(s, bs) ← take_raw bs; Some (VString s, bs)
      | Byte.xdd =>
          '(n, bs) ← take_be 4 bs;
          '(vs, bs) ← read_values (next fuel) (N.to_nat n) bs; Some (VArray vs, bs)
      | Byte.xdf =>
          '(n, bs) ← take_be 4 bs;
          '(vs, bs) ← read_pairs (next fuel) (N.to_nat n) bs; Some (VMap vs, bs)
      | _ => None
      end
  | _, _ => None
  end.

#[export] Instance cursor : RmpCursor := λ bs, next (length bs) bs.
#[export] Instance msgpack : Msgpack := λ bs,
  match read_value_at bs with Some (v, _) => Ok v | None => Err ($"unsupported") end.

(** [f] reads what [g] reads and leaves no more than it was given. *)
Definition extends_upto (m : nat) (g f : bytes → option (Value * bytes)) : Prop :=
  ∀ bs v rest, (length bs ≤ m)%nat → g bs = Some (v, rest) →
    f bs = Some (v, rest) ∧ (length rest ≤ length bs)%nat.

Lemma read_values_extends m g f n bs vs rest :
  extends_upto m g f → (length bs ≤ m)%nat → read_values g n bs = Some (vs, rest) →
  read_values f n bs = Some (vs, rest) ∧ (length rest ≤ length bs)%nat.
Proof.
  intros Hgf. revert bs vs. induction n as [|n IH]; intros bs vs Hm; cbn; [by intros [= <- <-]|].
  destruct (g bs) as [[v bs1]|] eqn:Hg; [|done]. cbn.
  destruct (Hgf _ _ _ Hm Hg) as [-> Hl]. cbn.
  destruct (read_values g n bs1) as [[ws bs2]|] eqn:Hr; [|done]. cbn. intros [= <- <-].
  destruct (IH bs1 ws ltac:(lia) Hr) as [-> ?]. cbn. split; [done|lia].
Qed.

Lemma read_pairs_extends m g f n bs vs rest :
  extends_upto m g f → (length bs ≤ m)%nat → read_pairs g n bs = Some (vs, rest) →
  read_pairs f n bs = Some (vs, rest) ∧ (length rest ≤ length bs)%nat.
Proof.
  intros Hgf. revert bs vs. induction n as [|n IH]; intros bs vs Hm; cbn; [by intros [= <- <-]|].
  destruct (g bs) as [[k bs1]|] eqn:Hk; [|done]. cbn.
  destruct (Hgf _ _ _ Hm Hk) as [-> Hl]. cbn.
  destruct (g bs1) as [[v bs2]|] eqn:Hv; [|done]. cbn.
  destruct (Hgf bs1 _ _ ltac:(lia) Hv) as [-> Hl2]. cbn.
  destruct (read_pairs g n bs2) as [[ws bs3]|] eqn:Hr; [|done]. cbn. intros [= <- <-].
  destruct (IH bs2 ws ltac:(lia) Hr) as [-> ?]. cbn. split; [done|lia].
Qed.

Lemma take_be_le w bs n rest : take_be w bs = Some (n, rest) → (length rest ≤ length bs)%nat.
Proof. unfold take_be. case_match; [done|]. intros [= _ <-]. rewrite length_drop. lia. Qed.
Lemma take_raw_le bs s rest : take_raw bs = Some (s, rest) → (length rest ≤ length bs)%nat.
Proof.
  unfold take_raw. destruct (take_be 4 bs) as [[n bs1]|] eqn:Hb; [|done]. cbn.
  apply take_be_le in Hb. case_match; [done|]. intros [= _ <-]. rewrite length_drop. lia.
Qed.
Lemma number_le w f bs v rest : number w f bs = Some (v, rest) → (length rest ≤ length bs)%nat.
Proof.
  unfold number. destruct (take_be w bs) as [[n bs1]|] eqn:Hb; [|done]. intros [= _ <-].
  by apply take_be_le in Hb.
Qed.

(** More fuel than the length changes nothing. *)
Lemma next_extends f f' m : (m ≤ f)%nat → (f ≤ f')%nat → extends_upto m (next f) (next f').
Proof.
  revert f' m. induction f as [|f IH]; intros f' m Hm Hf bs v rest Hl; [done|].
  destruct f' as [|f']; [lia|]. destruct bs as [|b bs]; [done|]. cbn [length] in *.
  assert (Hgf : extends_upto (m - 1) (next f) (next f')) by (apply IH; lia).
  destruct b; cbn [next]; try done; intros Hr;
    try (split; [exact Hr|]; simplify_eq; try (apply number_le in Hr); lia).
  - split; [done|]. destruct (take_raw bs) as [[s bs1]|] eqn:Hb; [|done]. apply take_raw_le in Hb.
    simplify_eq/=. lia.
  - split; [done|]. destruct (take_raw bs) as [[s bs1]|] eqn:Hb; [|done]. apply take_raw_le in Hb.
    simplify_eq/=. lia.
  - destruct (take_be 4 bs) as [[n bs1]|] eqn:Hb; [|done]. apply take_be_le in Hb. cbn in Hr |- *.
    destruct (read_values _ _ bs1) as [[vs bs2]|] eqn:Hv; [|done].
    destruct (read_values_extends (m - 1) (next f) (next f') (N.to_nat n) bs1 vs bs2) as [-> ?];
      [done|lia|done|].
    simplify_eq/=. split; [done|lia].
  - destruct (take_be 4 bs) as [[n bs1]|] eqn:Hb; [|done]. apply take_be_le in Hb. cbn in Hr |- *.
    destruct (read_pairs _ _ bs1) as [[vs bs2]|] eqn:Hv; [|done].
    destruct (read_pairs_extends (m - 1) (next f) (next f') (N.to_nat n) bs1 vs bs2) as [-> ?];
      [done|lia|done|].
    simplify_eq/=. split; [done|lia].
Qed.

Lemma take_be_be w n rest : n < 256 ^ N.of_nat w → take_be w (be w n ++ rest) = Some (n, rest).
Proof.
  intros Hn. unfold take_be, be. rewrite length_app, length_rev, length_le_encode.
  rewrite (proj2 (Nat.ltb_ge _ _)) by lia.
  assert (Hl : length (rev (le_encode w n)) = w) by by rewrite length_rev, length_le_encode.
  rewrite take_app_le, take_ge, drop_app_ge, Hl, Nat.sub_diag by lia.
  by rewrite rev_involutive, le_decode_encode, N.mod_small.
Qed.

Lemma number_be w f n rest : n < 256 ^ N.of_nat w → number w f (be w n ++ rest) = Some (f n, rest).
Proof. intros. unfold number. by rewrite take_be_be. Qed.

Lemma take_raw_be s rest : len s < U32 → take_raw ((be 4 (len s) ++ s) ++ rest) = Some (s, rest).
Proof.
  intros Hs. unfold take_raw. rewrite <- app_assoc, take_be_be by done. cbn.
  rewrite (proj2 (N.ltb_ge _ _)) by (rewrite len_app; lia).
  unfold len. rewrite Nat2N.id, take_app_length, drop_app_length. done.
Qed.

Lemma signed_round w i : (0 < w)%Z → in_i w i → to_signed w (of_signed w i) = i
  ∧ (Z.of_N (of_signed w i) < 2 ^ w)%Z.
Proof.
  unfold in_i, to_signed, of_signed. intros Hw Hi.
  assert (H2 : (2 ^ w = 2 * 2 ^ (w - 1))%Z) by (rewrite <- Z.pow_succ_r by lia; f_equal; lia).
  assert (0 ≤ i mod 2 ^ w < 2 ^ w)%Z by (apply Z.mod_pos_bound; lia).
  rewrite Z2N.id by lia. split; [|lia]. destruct (decide (0 ≤ i)%Z).
  - rewrite Z.mod_small in * by lia. by rewrite (proj2 (Z.ltb_lt _ _)) by lia.
  - assert (Hm : (i mod 2 ^ w = i + 2 ^ w)%Z)
      by (symmetry; apply (Z.mod_unique_pos _ _ (-1)); lia).
    rewrite Hm, (proj2 (Z.ltb_ge _ _)) by lia. lia.
Qed.

#[export] Instance laws : RmpLaws.
Proof.
  split; unfold read_value_at, cursor.
  - intros bs v rest Hr. unfold msgpack_read, msgpack, read_value_at, cursor. by rewrite Hr.
  - by intros [] rest.
  - intros. by apply number_be.
  - intros. by apply number_be.
  - intros. by apply number_be.
  - intros. by apply number_be.
  - intros i rest [Hi Hn]%signed_round; [|done]. rewrite <- Hi at 3. apply (number_be 1 (λ n, VInteger (to_signed _ n))). lia.
  - intros i rest [Hi Hn]%signed_round; [|done]. rewrite <- Hi at 3. apply (number_be 2 (λ n, VInteger (to_signed _ n))). lia.
  - intros i rest [Hi Hn]%signed_round; [|done]. rewrite <- Hi at 3. apply (number_be 4 (λ n, VInteger (to_signed _ n))). lia.
  - intros i rest [Hi Hn]%signed_round; [|done]. rewrite <- Hi at 3. apply (number_be 8 (λ n, VInteger (to_signed _ n))). lia.
  - intros. by apply number_be.
  - intros. by apply number_be.
  - intros s rest Hs. cbn [rmp_str encode app length next]. by rewrite take_raw_be.
  - intros s rest Hs. cbn [rmp_bin encode app length next]. by rewrite take_raw_be.
  - done.
  - intros n bs vs rest Hn Hr. cbn [rmp_array_len encode app length next].
    rewrite take_be_be by done. cbn [mbind option_bind].
    destruct (read_values_extends (length bs) (λ bs, next (length bs) bs)
      (next (length (be 4 n ++ bs))) (N.to_nat n) bs vs rest) as [-> _]; [|done..|done].
    intros bs' v r Hl Hv. rewrite length_app. apply (next_extends (length bs') _ (length bs')); [lia|lia|lia|exact Hv].
  - intros n bs vs rest Hn Hr. cbn [rmp_map_len encode app length next].
    rewrite take_be_be by done. cbn [mbind option_bind].
    destruct (read_pairs_extends (length bs) (λ bs, next (length bs) bs)
      (next (length (be 4 n ++ bs))) (N.to_nat n) bs vs rest) as [-> _]; [|done..|done].
    intros bs' v r Hl Hv. rewrite length_app. apply (next_extends (length bs') _ (length bs')); [lia|lia|lia|exact Hv].
Qed.

(** A map whose keys are out of order. *)
Definition value : SerdeValue :=
  SMap [(SString ($"b"), SSeq [SU8 1; SI16 (-2); SOption None; SChar 0x20AC]); (SString ($"a"), SBool true)].

Lemma encode_reads_back_witness :
  serde_wf value ∧ msgpack_read (write_serde_value value)
  = Ok (VMap [(VString ($"a"), VBoolean true);
              (VString ($"b"), VArray [VInteger 1; VInteger (-2); VNil; VString (encode_utf8 0x20AC)])]).
Proof.
  assert (Hwf : serde_wf value).
  { cbn. unfold in_i. split_and!; try done; lia. }
  split; [exact Hwf|]. exact (encode_reads_back value Hwf).
Defined.

End RmpSample.
