(* ===== verification/FsTree.v ===== *)
(** * FsTree: file trees of the client

    [clients/rust/src/fstree/]: the capture of a directory as trees addressed by their hashes
    (options.rs, types.rs, capture.rs), reading a snapshot and comparing two (snapshot.rs),
    remembering the last one (tracker.rs) and sending one to a server (upload.rs). The file system is
    a parameter, which does not change during a capture; so are the patterns of the
    crate [glob] and the reader of [rmp_serde]. *)

From S2P Require Import Prelude Bytes External ClientWire Encoding.

Open Scope N_scope.

(** ** Types ([types.rs]) *)

Definition EntryKindFile : N := 0.
Definition EntryKindDirectory : N := 1.
Definition EntryKindSymlink : N := 2.

Record TreeEntry : Type := mkTreeEntry {
  te_name : rstr;
  te_kind : N;
  te_mode : N;
  te_size : N;
  te_hash : bytes
}.

#[export] Instance TreeEntry_eq_dec : EqDecision TreeEntry.
Proof. solve_decision. Defined.

(** The derived [Serialize]: a map from the names of the fields, which are digits. *)
Definition tree_entry_value (e : TreeEntry) : SerdeValue :=
  SMap [(SString ($"1"), SString (te_name e)); (SString ($"2"), SU8 (te_kind e));
        (SString ($"3"), SU32 (te_mode e)); (SString ($"4"), SU64 (te_size e));
        (SString ($"5"), SBytes (te_hash e))].
Definition entries_value (entries : list TreeEntry) : SerdeValue :=
  SSeq (map tree_entry_value entries).

Record FileRef : Type := mkFileRef {
  fr_path : rstr;
  fr_size : N;
  fr_hash : bytes
}.

Record SnapshotStats : Type := mkSnapshotStats {
  ss_file_count : N;
  ss_dir_count : N;
  ss_symlink_count : N;
  ss_total_bytes : N;
  ss_duration : N
}.

Record Snapshot : Type := mkSnapshot {
  sn_root_hash : bytes;
  sn_trees : gmap bytes bytes;
  sn_files : gmap bytes FileRef;
  sn_symlinks : gmap bytes rstr;
  sn_stats : SnapshotStats;
  sn_captured_at : N
}.

Record SnapshotDiff : Type := mkSnapshotDiff {
  sd_added : list rstr;
  sd_removed : list rstr;
  sd_modified : list rstr;
  sd_old_root : bytes;
  sd_new_root : bytes
}.

Definition zero_hash : bytes := replicate 32 Byte.x00.
Definition diff_default : SnapshotDiff := mkSnapshotDiff [] [] [] zero_hash zero_hash.

(** ** Errors ([capture.rs]) *)

Inductive FstreeErrorKind : Type :=
| TooManyFiles | FileTooLarge | CyclicLink | FsIo | FsMsgpack | FsClient | FsOther.

#[export] Instance FstreeErrorKind_eq_dec : EqDecision FstreeErrorKind.
Proof. solve_decision. Defined.

Record FstreeError : Type := mkFstreeError {
  fe_kind : FstreeErrorKind;
  fe_detail : rstr
}.

(** ** Paths

    [std::path] on Unix: [join], [components] and [file_name] of a text. *)

Definition slash : Byte.byte := Byte.x2f.

Definition path_join (p name : rstr) : rstr :=
  if starts_with name [slash] then name
  else if bool_decide (p = []) || bool_decide (last p = Some slash) then p ++ name
  else p ++ slash :: name.

Fixpoint split_slash (s : rstr) : list rstr :=
  match s with
  | [] => [[]]
  | b :: s =>
      match split_slash s with
      | p :: ps => if decide (b = slash) then [] :: p :: ps else (b :: p) :: ps
      | [] => [[b]]
      end
  end.

Inductive Component : Type := RootDir | CurDir | ParentDir | Normal (s : rstr).

Definition component (s : rstr) : option Component :=
  if decide (s = [] ∨ s = $".") then None
  else if decide (s = $"..") then Some ParentDir else Some (Normal s).

Definition components (p : rstr) : list Component :=
  match split_slash p with
  | [] :: ((_ :: _) as rest) => RootDir :: omap component rest
  | first :: rest =>
      (if decide (first = $".") then [CurDir] else option_list (component first))
      ++ omap component rest
  | [] => []
  end.

Definition file_name (p : rstr) : option rstr :=
  match last (components p) with Some (Normal s) => Some s | _ => None end.

(** [str::replace] of a backslash by a slash. *)
Definition replace_backslash (s : rstr) : rstr :=
  map (λ b, if decide (b = Byte.x5c) then slash else b) s.

(** ** Options ([options.rs]) *)

(** The crate [glob]: [Pattern::new], then [matches]; [None] for a pattern with an error. *)
Class Glob : Type := glob_matches : rstr → rstr → option bool.

Record Options : Type := mkOptions {
  o_exclude_patterns : list rstr;
  o_exclude_fn : option (rstr → bool → bool);
  o_follow_symlinks : bool;
  o_max_file_size : Z;
  o_max_files : N
}.

Definition options_default : Options := mkOptions [] None false (100 * 1024 * 1024) 100000.

(** [SnapshotOption]: a function that changes the options. *)
Definition with_exclude (patterns : list rstr) (o : Options) : Options :=
  mkOptions (o_exclude_patterns o ++ patterns) (o_exclude_fn o) (o_follow_symlinks o)
    (o_max_file_size o) (o_max_files o).
Definition with_exclude_func (func : rstr → bool → bool) (o : Options) : Options :=
  mkOptions (o_exclude_patterns o) (Some func) (o_follow_symlinks o) (o_max_file_size o)
    (o_max_files o).
Definition with_follow_symlinks (o : Options) : Options :=
  mkOptions (o_exclude_patterns o) (o_exclude_fn o) true (o_max_file_size o) (o_max_files o).
Definition with_max_file_size (bytes : Z) (o : Options) : Options :=
  mkOptions (o_exclude_patterns o) (o_exclude_fn o) (o_follow_symlinks o) bytes (o_max_files o).
Definition with_max_files (count : N) (o : Options) : Options :=
  mkOptions (o_exclude_patterns o) (o_exclude_fn o) (o_follow_symlinks o) (o_max_file_size o) count.

Definition normalize_path (path : rstr) : rstr := replace_backslash path.

(** [strip_suffix]. *)
Definition strip_suffix (s suffix : rstr) : option rstr :=
  (λ r, rev r) <$> strip_prefix (rev s) (rev suffix).

Section options.
Context `{Glob}.

Definition matches_glob (pattern path : rstr) : bool := default false (glob_matches pattern path).

Definition is_double_star_dir (pattern rel_path : rstr) (is_dir : bool) : bool :=
  if negb is_dir then false
  else match strip_suffix pattern ($"/**") with
       | Some prefix =>
           if bool_decide (rel_path = prefix) then true
           else starts_with rel_path (prefix ++ $"/") || matches_glob prefix rel_path
       | None => false
       end.

Definition should_exclude (o : Options) (rel_path : rstr) (is_dir : bool) : bool :=
  if match o_exclude_fn o with Some func => func rel_path is_dir | None => false end then true
  else
    let rel_path := normalize_path rel_path in
    let basename := default [] (file_name rel_path) in
    existsb (λ pattern,
      is_double_star_dir pattern rel_path is_dir || matches_glob pattern rel_path
      || matches_glob pattern basename) (o_exclude_patterns o).
End options.

(** ** The file system

    What [std::fs] answers about each path. A failure carries its text. *)

Inductive FileType : Type := FtDir | FtSymlink | FtFile.

#[export] Instance FileType_eq_dec : EqDecision FileType.
Proof. solve_decision. Defined.

Record FsMetadata : Type := mkFsMetadata {
  md_type : FileType;
  md_mode : N;
  md_len : N
}.

Definition is_dir (t : FileType) : bool := match t with FtDir => true | _ => false end.
Definition is_symlink (t : FileType) : bool := match t with FtSymlink => true | _ => false end.

Record DirEntry : Type := mkDirEntry {
  de_file_name : bytes;
  de_file_type : option FileType
}.

Class ClientFs : Type := {
  fs_canonicalize : rstr → result rstr rstr;
  fs_metadata : rstr → result rstr FsMetadata;
  fs_symlink_metadata : rstr → result rstr FsMetadata;
  fs_read_dir : rstr → result rstr (list (option DirEntry));
  fs_read_link : rstr → result rstr bytes;
  fs_read : rstr → result rstr bytes
}.

(** ** Capture ([capture.rs]) *)

Record Builder : Type := mkBuilder {
  b_trees : gmap bytes bytes;
  b_files : gmap bytes FileRef;
  b_symlinks : gmap bytes rstr;
  b_visited : gset rstr;
  b_file_count : N;
  b_dir_count : N;
  b_symlink_count : N;
  b_total_bytes : N
}.

(** [Builder::new]; the options are an argument of the methods. *)
Definition builder_new : Builder := mkBuilder ∅ ∅ ∅ ∅ 0 0 0 0.

Definition with_visited (f : gset rstr → gset rstr) (b : Builder) : Builder :=
  mkBuilder (b_trees b) (b_files b) (b_symlinks b) (f (b_visited b)) (b_file_count b)
    (b_dir_count b) (b_symlink_count b) (b_total_bytes b).
Definition with_tree (hash tree_bytes : bytes) (b : Builder) : Builder :=
  mkBuilder (<[hash := tree_bytes]> (b_trees b)) (b_files b) (b_symlinks b) (b_visited b)
    (b_file_count b) (b_dir_count b + 1) (b_symlink_count b) (b_total_bytes b).
Definition with_symlink (hash target : bytes) (b : Builder) : Builder :=
  mkBuilder (b_trees b) (b_files b) (<[hash := target]> (b_symlinks b)) (b_visited b)
    (b_file_count b) (b_dir_count b) (b_symlink_count b + 1) (b_total_bytes b).
Definition with_file (f : FileRef) (b : Builder) : Builder :=
  mkBuilder (b_trees b) (<[fr_hash f := f]> (b_files b)) (b_symlinks b) (b_visited b)
    (b_file_count b + 1) (b_dir_count b) (b_symlink_count b)
    (wrap64 (b_total_bytes b + fr_size f)).

(** [size as i64]. *)
Definition as_i64 (n : N) : Z :=
  let z := Z.of_N n in
  if (z <? 9223372036854775808)%Z then z else (z - 18446744073709551616)%Z.

Definition io_error (e : rstr) : FstreeError := mkFstreeError FsIo e.

Section capture.
Context `{RmpEncode} `{Blake3} `{Glob} `{ClientFs}.

(** [encode_msgpack] of a list of entries, which does not fail. *)
Definition encode_entries (entries : list TreeEntry) : bytes :=
  write_serde_value (entries_value entries).

Definition hash_file (path : rstr) : result rstr bytes := blake3 <$> fs_read path.

(** What a method on [&mut self] returns, [None] when the fuel is spent. *)
Abbreviation built A := (option (result FstreeError A * Builder)).

Section entry.
(** [build_tree], which [build_entry] calls for a directory. *)
Variable rec : rstr → rstr → Builder → built bytes.

Definition build_entry (opts : Options) (abs_path rel_path name : rstr) (metadata : FsMetadata)
    (b : Builder) : built TreeEntry :=
  let mode := N.land (md_mode metadata) 4095 in
  if is_symlink (md_type metadata) && negb (o_follow_symlinks opts) then
    Some match fs_read_link abs_path with
    | Err e => (Err (io_error e), b)
    | Ok target =>
        let target_str := from_utf8_lossy target in
        let hash := blake3 target_str in
        (Ok (mkTreeEntry name EntryKindSymlink mode (len target_str) hash),
         with_symlink hash target_str b)
    end
  else if is_dir (md_type metadata) then
    '(r, b) ← rec abs_path rel_path b;
    Some (dir_hash ← r; Ok (mkTreeEntry name EntryKindDirectory mode 0 dir_hash), b)
  else if o_max_files opts <=? b_file_count b then
    Some (Err (mkFstreeError TooManyFiles ($"too many files")), b)
  else
    let size := md_len metadata in
    Some (if (o_max_file_size opts <? as_i64 size)%Z then
      (Err (mkFstreeError FileTooLarge ($"file too large: " ++ rel_path ++ $" (" ++ show_N size
         ++ $" bytes)")), b)
    else match hash_file abs_path with
    | Err e => (Err (io_error e), b)
    | Ok hash =>
        (Ok (mkTreeEntry name EntryKindFile mode size hash),
         with_file (mkFileRef abs_path size hash) b)
    end).

(** The errors that end the capture; the others skip an entry. *)
Definition is_fatal (e : FstreeError) : bool :=
  bool_decide (fe_kind e = TooManyFiles) || bool_decide (fe_kind e = CyclicLink).

(** The loop of [build_tree] over the entries of a directory. *)
Fixpoint build_entries (opts : Options) (abs_path rel_path : rstr)
    (dir : list (option DirEntry)) (entries : list TreeEntry) (b : Builder)
    : built (list TreeEntry) :=
  match dir with
  | [] => Some (Ok entries, b)
  | None :: dir => build_entries opts abs_path rel_path dir entries b
  | Some entry :: dir =>
      let name := from_utf8_lossy (de_file_name entry) in
      let child_rel := path_join rel_path name in
      let child_abs := path_join abs_path name in
      if should_exclude opts child_rel (default false (is_dir <$> de_file_type entry))
      then build_entries opts abs_path rel_path dir entries b
      else
        match (if o_follow_symlinks opts then fs_metadata else fs_symlink_metadata) child_abs with
        | Err _ => build_entries opts abs_path rel_path dir entries b
        | Ok metadata =>
            '(r, b) ← build_entry opts child_abs child_rel name metadata b;
            match r with
            | Ok e => build_entries opts abs_path rel_path dir (entries ++ [e]) b
            | Err e =>
                if is_fatal e then Some (Err e, b)
                else build_entries opts abs_path rel_path dir entries b
            end
        end
  end.
End entry.

Definition sort_entries (entries : list TreeEntry) : list TreeEntry :=
  sort_by (λ a b, str_le (te_name a) (te_name b)) entries.

(** [build_tree]. The first test of the code: a directory that is being visited is a cycle. *)
Definition enter (abs_path : rstr) (b : Builder) : result FstreeError Builder :=
  match fs_canonicalize abs_path with
  | Ok real_path =>
      if decide (real_path ∈ b_visited b)
      then Err (mkFstreeError CyclicLink ($"cyclic symbolic link detected"))
      else Ok (with_visited (λ v, {[real_path]} ∪ v) b)
  | Err _ => Ok b
  end.

Definition leave (abs_path : rstr) (b : Builder) : Builder :=
  match fs_canonicalize abs_path with
  | Ok real_path => with_visited (λ v, v ∖ {[real_path]}) b
  | Err _ => b
  end.

Definition finish_tree (abs_path : rstr) (entries : list TreeEntry) (b : Builder)
    : bytes * Builder :=
  let tree_bytes := encode_entries (sort_entries entries) in
  let hash := blake3 tree_bytes in
  (hash, leave abs_path (with_tree hash tree_bytes b)).

Fixpoint build_tree (fuel : nat) (opts : Options) (abs_path rel_path : rstr) (b : Builder)
    : built bytes :=
  match fuel with
  | O => None
  | S fuel =>
      match enter abs_path b with
      | Err e => Some (Err e, b)
      | Ok b =>
          match fs_read_dir abs_path with
          | Err e => Some (Err (io_error e), b)
          | Ok dir_entries =>
              '(r, b) ← build_entries (build_tree fuel opts) opts abs_path rel_path dir_entries [] b;
              Some match r with
              | Err e => (Err e, b)
              | Ok entries =>
                  let (hash, b) := finish_tree abs_path entries b in (Ok hash, b)
              end
          end
      end
  end.

(** [capture]; [now] is the time at the start and [duration] the time it takes. *)
Definition capture (fuel : nat) (root : rstr) (opts : list (Options → Options)) (now duration : N)
    : option (result FstreeError Snapshot) :=
  match fs_canonicalize root with
  | Err e => Some (Err (io_error e))
  | Ok abs_root =>
      match fs_metadata abs_root with
      | Err e => Some (Err (io_error e))
      | Ok metadata =>
          if negb (is_dir (md_type metadata)) then
            Some (Err (mkFstreeError FsOther ($"root is not a directory: " ++ abs_root)))
          else
            let options := foldl (λ o opt, opt o) options_default opts in
            '(r, b) ← build_tree fuel options abs_root [] builder_new;
            Some (root_hash ← r;
              Ok (mkSnapshot root_hash (b_trees b) (b_files b) (b_symlinks b)
                    (mkSnapshotStats (b_file_count b) (b_dir_count b) (b_symlink_count b)
                       (b_total_bytes b) duration) now))
      end
  end.
End capture.

(** ** Snapshots ([snapshot.rs]) *)

(** [rmp_serde::from_slice] and [rmpv::ext::from_value] at [Vec<TreeEntry>]. *)
Class TreeReader : Type := {
  tree_from_slice : bytes → option (list TreeEntry);
  tree_from_value : Value → result rstr (list TreeEntry)
}.

(** [Display] of the client's errors ([error.rs]), given the texts of the operating system's. *)
Definition show_client_error (io_text : io_kind → rstr) (e : ClientError) : rstr :=
  match e with
  | ClientClosed => $"cxdb: client closed"
  | ContextNotFound => $"cxdb: context not found"
  | TurnNotFound => $"cxdb: turn not found"
  | InvalidResponse msg => $"cxdb: invalid response: " ++ msg
  | Server code detail => $"cxdb server error " ++ show_N code ++ $": " ++ detail
  | ClientIo k => $"cxdb io: " ++ io_text k
  | Tls msg => $"cxdb tls: " ++ msg
  | Timeout => $"cxdb: deadline exceeded"
  | Cancelled => $"cxdb: request cancelled"
  | QueueFull => $"cxdb: request queue full"
  end.

Definition hex_digit (d : N) : Byte.byte := if d <? 10 then digit_byte d else byte_of_N (87 + d).

Definition hash_prefix (hash : bytes) : rstr :=
  concat (map (λ b, let n := Byte.to_N b in [hex_digit (n / 16); hex_digit (n mod 16)]) (take 4 hash)).

(** [split_path]. *)
Definition normal_part (c : Component) : option rstr :=
  match c with Normal part => Some part | _ => None end.
Definition split_path (path : rstr) : list rstr :=
  omap normal_part (components (replace_backslash path)).

Section snapshot.
Context `{Msgpack} `{TreeReader} `{ClientFs} (io_text : io_kind → rstr).

Definition deserialize_tree (data : bytes) : result FstreeError (list TreeEntry) :=
  map_err (λ err, mkFstreeError FsMsgpack (show_client_error io_text err))
    (decode_msgpack_into tree_from_slice tree_from_value data).

(** [get_file]; an open file is its contents. *)
Definition get_file (sn : Snapshot) (hash : bytes) : result FstreeError bytes :=
  file_ref ← ok_or (mkFstreeError FsOther ($"file not found: " ++ hash_prefix hash))
    (sn_files sn !! hash);
  map_err io_error (fs_read (fr_path file_ref)).

Definition get_tree (sn : Snapshot) (hash : bytes) : result FstreeError (list TreeEntry) :=
  data ← ok_or (mkFstreeError FsOther ($"tree not found: " ++ hash_prefix hash))
    (sn_trees sn !! hash);
  deserialize_tree data.

Definition get_root_entries (sn : Snapshot) : result FstreeError (list TreeEntry) :=
  get_tree sn (sn_root_hash sn).

Section walk.
(** What the callback does to the variables that it captures. *)
Context {W : Type} (f : rstr → TreeEntry → W → result FstreeError unit * W).

Definition entry_path (prefix : rstr) (e : TreeEntry) : rstr :=
  if bool_decide (prefix = []) then te_name e else path_join prefix (te_name e).

(** The loop of [walk_tree]; [rec] walks a subtree. *)
Fixpoint walk_entries (rec : bytes → rstr → W → option (result FstreeError unit * W))
    (prefix : rstr) (entries : list TreeEntry) (s : W) : option (result FstreeError unit * W) :=
  match entries with
  | [] => Some (Ok tt, s)
  | entry :: entries =>
      let path := entry_path prefix entry in
      match f path entry s with
      | (Err e, s) => Some (Err e, s)
      | (Ok _, s) =>
          if te_kind entry =? EntryKindDirectory then
            '(r, s) ← rec (te_hash entry) path s;
            match r with
            | Err e => Some (Err e, s)
            | Ok _ => walk_entries rec prefix entries s
            end
          else walk_entries rec prefix entries s
      end
  end.

Fixpoint walk_tree (fuel : nat) (sn : Snapshot) (hash : bytes) (prefix : rstr) (s : W)
    : option (result FstreeError unit * W) :=
  match fuel with
  | O => None
  | S fuel =>
      match get_tree sn hash with
      | Err e => Some (Err e, s)
      | Ok entries => walk_entries (walk_tree fuel sn) prefix entries s
      end
  end.

Definition walk (fuel : nat) (sn : Snapshot) (s : W) : option (result FstreeError unit * W) :=
  walk_tree fuel sn (sn_root_hash sn) [] s.
End walk.

(** The result of a walk that fills [s]. *)
Definition walked {S} (r : option (result FstreeError unit * S)) : option (result FstreeError S) :=
  '(r, s) ← r; Some (_ ← r; Ok s).

Definition push_file (path : rstr) (entry : TreeEntry) (paths : list rstr)
    : result FstreeError unit * list rstr :=
  (Ok tt, if te_kind entry =? EntryKindFile then paths ++ [path] else paths).

Definition list_files (fuel : nat) (sn : Snapshot) : option (result FstreeError (list rstr)) :=
  walked (walk push_file fuel sn []).

Definition find_named (name : rstr) (entries : list TreeEntry) : option TreeEntry :=
  List.find (λ e, bool_decide (te_name e = name)) entries.

(** The loop of [get_file_at_path] over the parts, of which [part] is the current one. *)
Fixpoint path_loop (sn : Snapshot) (path : rstr) (current_hash : bytes) (part : rstr)
    (rest : list rstr) : result FstreeError (option (TreeEntry * option bytes)) :=
  entries ← get_tree sn current_hash;
  found ← ok_or (mkFstreeError FsOther ($"path not found: " ++ path)) (find_named part entries);
  match rest with
  | [] =>
      if te_kind found =? EntryKindFile then
        file ← get_file sn (te_hash found);
        Ok (Some (found, Some file))
      else Ok (Some (found, None))
  | next :: rest =>
      if negb (te_kind found =? EntryKindDirectory)
      then Err (mkFstreeError FsOther ($"not a directory: " ++ part))
      else path_loop sn path (te_hash found) next rest
  end.

Definition get_file_at_path (sn : Snapshot) (path : rstr)
    : result FstreeError (option (TreeEntry * option bytes)) :=
  match split_path path with
  | [] => Err (mkFstreeError FsOther ($"empty path"))
  | part :: rest => path_loop sn path (sn_root_hash sn) part rest
  end.

(** ** Differences *)

Definition insert_leaf (path : rstr) (entry : TreeEntry) (paths : gmap rstr bytes)
    : result FstreeError unit * gmap rstr bytes :=
  (Ok tt,
   if (te_kind entry =? EntryKindFile) || (te_kind entry =? EntryKindSymlink)
   then <[path := te_hash entry]> paths else paths).

Definition leaf_paths (fuel : nat) (sn : Snapshot) : option (result FstreeError (gmap rstr bytes)) :=
  walked (walk insert_leaf fuel sn ∅).

(** An iteration of each loop of [diff]: over the new paths, and over the old ones. *)
Definition note_new (old_paths : gmap rstr bytes) (diff : SnapshotDiff) (kv : rstr * bytes)
    : SnapshotDiff :=
  let '(path, new_hash) := kv in
  match old_paths !! path with
  | None => mkSnapshotDiff (sd_added diff ++ [path]) (sd_removed diff) (sd_modified diff)
              (sd_old_root diff) (sd_new_root diff)
  | Some old_hash =>
      if decide (old_hash = new_hash) then diff
      else mkSnapshotDiff (sd_added diff) (sd_removed diff) (sd_modified diff ++ [path])
             (sd_old_root diff) (sd_new_root diff)
  end.
Definition note_old (new_paths : gmap rstr bytes) (diff : SnapshotDiff) (path : rstr)
    : SnapshotDiff :=
  if decide (is_Some (new_paths !! path)) then diff
  else mkSnapshotDiff (sd_added diff) (sd_removed diff ++ [path]) (sd_modified diff)
         (sd_old_root diff) (sd_new_root diff).

Definition diff_paths `{HashOrder} (new_paths old_paths : gmap rstr bytes) (diff : SnapshotDiff)
    : SnapshotDiff :=
  foldl (note_old new_paths) (foldl (note_new old_paths) diff (hash_iter new_paths))
    (map fst (hash_iter old_paths)).

Definition diff `{HashOrder} (fuel : nat) (sn : Snapshot) (old : option Snapshot)
    : option (result FstreeError SnapshotDiff) :=
  let diff := mkSnapshotDiff [] [] [] zero_hash (sn_root_hash sn) in
  match old with
  | None =>
      new_paths ← leaf_paths fuel sn;
      Some (new_paths ← new_paths;
        Ok (mkSnapshotDiff (map fst (hash_iter new_paths)) [] [] (sd_old_root diff)
              (sd_new_root diff)))
  | Some old =>
      let diff := mkSnapshotDiff [] [] [] (sn_root_hash old) (sd_new_root diff) in
      if decide (sn_root_hash sn = sn_root_hash old) then Some (Ok diff)
      else
        new_paths ← leaf_paths fuel sn;
        match new_paths with
        | Err e => Some (Err e)
        | Ok new_paths =>
            old_paths ← leaf_paths fuel old;
            Some (old_paths ← old_paths; Ok (diff_paths new_paths old_paths diff))
        end
  end.
End snapshot.

Definition diff_is_empty (d : SnapshotDiff) : bool :=
  bool_decide (sd_added d = []) && bool_decide (sd_removed d = [])
  && bool_decide (sd_modified d = []).
Definition total_changes (d : SnapshotDiff) : N :=
  len (sd_added d) + len (sd_removed d) + len (sd_modified d).

(** ** The tracker ([tracker.rs]) *)

Record Tracker : Type := mkTracker {
  tk_root : rstr;
  tk_opts : list (Options → Options);
  tk_last_snapshot : option Snapshot
}.

Definition tracker_new (root : rstr) (opts : list (Options → Options)) : Tracker :=
  mkTracker root opts None.

Section tracker.
Context `{RmpEncode} `{Blake3} `{Glob} `{ClientFs} `{Msgpack} `{TreeReader} `{HashOrder}
  (io_text : io_kind → rstr) (fuel : nat).

Definition snapshot (now duration : N) (tk : Tracker)
    : option (result FstreeError (Snapshot * bool) * Tracker) :=
  r ← capture fuel (tk_root tk) (tk_opts tk) now duration;
  Some match r with
  | Err e => (Err e, tk)
  | Ok snap =>
      let changed :=
        match tk_last_snapshot tk with
        | Some prev => negb (bool_decide (sn_root_hash prev = sn_root_hash snap))
        | None => true
        end in
      (Ok (snap, changed), mkTracker (tk_root tk) (tk_opts tk) (Some snap))
  end.

Definition last_snapshot (tk : Tracker) : option Snapshot := tk_last_snapshot tk.

Definition snapshot_if_changed (now duration : N) (tk : Tracker)
    : option (result FstreeError (option Snapshot * bool) * Tracker) :=
  '(r, tk) ← snapshot now duration tk;
  Some ('(snap, changed) ← r;
    Ok (if changed : bool then (Some snap, true) else (None, false)), tk).

Definition diff_from_last (current : Snapshot) (tk : Tracker)
    : option (result FstreeError SnapshotDiff) :=
  diff io_text fuel current (tk_last_snapshot tk).
End tracker.

(** ** Upload ([upload.rs]) *)

Record UploadResult : Type := mkUploadResult {
  ur_root_hash : bytes;
  ur_trees_uploaded : N;
  ur_trees_skipped : N;
  ur_files_uploaded : N;
  ur_files_skipped : N;
  ur_bytes_uploaded : Z
}.

Definition count_tree (data : bytes) (was_new : bool) (r : UploadResult) : UploadResult :=
  if was_new
  then mkUploadResult (ur_root_hash r) (ur_trees_uploaded r + 1) (ur_trees_skipped r)
         (ur_files_uploaded r) (ur_files_skipped r)
         (wrap_i64 (ur_bytes_uploaded r + Z.of_N (len data)))
  else mkUploadResult (ur_root_hash r) (ur_trees_uploaded r) (ur_trees_skipped r + 1)
         (ur_files_uploaded r) (ur_files_skipped r) (ur_bytes_uploaded r).

Definition count_file (data : bytes) (was_new : bool) (r : UploadResult) : UploadResult :=
  if was_new
  then mkUploadResult (ur_root_hash r) (ur_trees_uploaded r) (ur_trees_skipped r)
         (ur_files_uploaded r + 1) (ur_files_skipped r)
         (wrap_i64 (ur_bytes_uploaded r + Z.of_N (len data)))
  else mkUploadResult (ur_root_hash r) (ur_trees_uploaded r) (ur_trees_skipped r)
         (ur_files_uploaded r) (ur_files_skipped r + 1) (ur_bytes_uploaded r).

(** What an upload needs of a client: [Client::put_blob] and [Client::attach_fs]. *)
Class BlobClient (C : Type) : Type := {
  client_put_blob : bytes → C → result ClientError PutBlobResult * C;
  client_attach_fs : N → bytes → C → result ClientError AttachFsResult * C
}.

Section upload.
Context `{RmpEncode} `{Blake3} `{Glob} `{ClientFs} `{HashOrder} {C : Type} `{!BlobClient C}
  (io_text : io_kind → rstr).

Definition client_error (e : ClientError) : FstreeError :=
  mkFstreeError FsClient (show_client_error io_text e).

Definition upload_blob (data : bytes) (c : C) : result ClientError bool * C :=
  let (r, c) := client_put_blob data c in (pbres_was_new <$> r, c).

(** One blob of a loop of [upload], counted by [count]. *)
Definition upload_counted (count : bytes → bool → UploadResult → UploadResult) (data : bytes)
    (s : UploadResult * C) : result FstreeError unit * (UploadResult * C) :=
  match upload_blob data s.2 with
  | (Err e, c) => (Err (client_error e), (s.1, c))
  | (Ok was_new, c) => (Ok tt, (count data was_new s.1, c))
  end.

Definition upload_file (f : FileRef) (s : UploadResult * C)
    : result FstreeError unit * (UploadResult * C) :=
  match fs_read (fr_path f) with
  | Err e => (Err (io_error e), s)
  | Ok content => upload_counted count_file content s
  end.

Definition upload (sn : Snapshot) (c : C) : result FstreeError UploadResult * C :=
  let s := (mkUploadResult (sn_root_hash sn) 0 0 0 0 0, c) in
  match try_each (upload_counted count_tree) (map snd (hash_iter (sn_trees sn))) s with
  | (Err e, (_, c)) => (Err e, c)
  | (Ok _, s) =>
      match try_each upload_file (map snd (hash_iter (sn_files sn))) s with
      | (Err e, (_, c)) => (Err e, c)
      | (Ok _, s) =>
          match try_each (upload_counted count_file) (map snd (hash_iter (sn_symlinks sn))) s with
          | (Err e, (_, c)) => (Err e, c)
          | (Ok _, (r, c)) => (Ok r, c)
          end
      end
  end.

Definition capture_and_upload (fuel : nat) (root : rstr) (opts : list (Options → Options))
    (now duration : N) (c : C) : option (result FstreeError (Snapshot * UploadResult) * C) :=
  snapshot ← capture fuel root opts now duration;
  Some match snapshot with
  | Err e => (Err e, c)
  | Ok snapshot =>
      let (result, c) := upload snapshot c in (result ← result; Ok (snapshot, result), c)
  end.

Definition upload_and_attach (fuel : nat) (root : rstr) (turn_id : N)
    (opts : list (Options → Options)) (now duration : N) (c : C)
    : option (result FstreeError UploadResult * C) :=
  snapshot ← capture fuel root opts now duration;
  Some match snapshot with
  | Err e => (Err e, c)
  | Ok snapshot =>
      match upload snapshot c with
      | (Err e, c) => (Err e, c)
      | (Ok result, c) =>
          let (attached, c) := client_attach_fs turn_id (sn_root_hash snapshot) c in
          (_ ← map_err client_error attached; Ok result, c)
      end
  end.
End upload.
