(* ===== verification/FsTreeSpec.v ===== *)
(** * FsTreeSpec: what a capture captures

    A directory is a tree ([Node]); [holds] says that the file system shows a tree at a path.
    [kept] is the part of it that the options keep, and the theorems say that [capture] records
    exactly this part, that the limit on files is a limit, and that a capture ends whatever
    links the file system has. *)

From S2P Require Import Prelude Bytes External ClientWire Encoding FsTree.

Open Scope N_scope.

(** ** Paths below a directory *)

Definition name_ok (name : rstr) : Prop := name ≠ [] ∧ slash ∉ name.

(** The prefix of the paths of the entries of [p]. *)
Definition base (p : rstr) : rstr :=
  if decide (p = [] ∨ last p = Some slash) then p else p ++ [slash].

Definition below (p v : rstr) : Prop := v = p ∨ ∃ s, v = base p ++ s.

Lemma starts_with_slash name : name_ok name → starts_with name [slash] = false.
Proof.
  intros [Hne Hs]. destruct name as [|b name]; [done|]. cbn. apply andb_false_iff. left.
  apply bool_decide_eq_false. intros <-. apply Hs. by left.
Qed.

Lemma path_join_base p name : name_ok name → path_join p name = base p ++ name.
Proof.
  intros Hn. unfold path_join, base. rewrite starts_with_slash by done.
  destruct (decide (p = [])) as [->|Hp]; [by rewrite decide_True by (by left)|].
  rewrite bool_decide_eq_false_2 by done. cbn [orb]. destruct (decide _) as [[?|Hl]|Hl]; [done| |].
  - by rewrite bool_decide_eq_true_2.
  - rewrite bool_decide_eq_false_2 by (intros ?; apply Hl; by right). by rewrite <- app_assoc.
Qed.

Lemma path_join_nil name : path_join [] name = name.
Proof. unfold path_join. by destruct (starts_with name [slash]). Qed.

Lemma path_join_ne p name : name_ok name → path_join p name ≠ [].
Proof.
  intros [Hn Hs]. unfold path_join. destruct (starts_with _ _); [done|].
  destruct (_ || _); intros H; by apply app_eq_nil in H as [_ ?].
Qed.

Lemma base_join p name : name_ok name → base (path_join p name) = base p ++ name ++ [slash].
Proof.
  intros [Hn Hs]. rewrite path_join_base by done. unfold base at 1.
  rewrite decide_False; [by rewrite <- app_assoc|]. intros [H|H].
  { by apply app_eq_nil in H as [_ ?]. }
  destruct name as [|b name] using rev_ind; [done|]. rewrite app_assoc, last_snoc in H.
  injection H as ->. apply Hs, elem_of_app. right. by left.
Qed.

Lemma below_child p name v : name_ok name → below (path_join p name) v → below p v.
Proof.
  intros Hn [->|[s ->]]; right.
  - exists name. by apply path_join_base.
  - exists (name ++ [slash] ++ s). rewrite base_join by done. by rewrite <- !app_assoc.
Qed.

Lemma below_child_parent p name : name_ok name → ¬ below (path_join p name) p.
Proof.
  intros Hn Hb. assert (Hl : (length p < length (path_join p name))%nat).
  { rewrite path_join_base, length_app by done. destruct Hn as [Hn _].
    assert (length p ≤ length (base p))%nat.
    { unfold base. destruct (decide _); rewrite ?length_app; lia. }
    destruct name; [done|]. cbn. lia. }
  destruct Hb as [Hb|[s Hb]]; [by rewrite <- Hb in Hl; lia|].
  apply (f_equal length) in Hb. rewrite length_app in Hb. unfold base in Hb.
  destruct (decide _); rewrite ?length_app in Hb; cbn in Hb; lia.
Qed.

Lemma below_disjoint p n1 n2 v :
  name_ok n1 → name_ok n2 → below (path_join p n1) v → below (path_join p n2) v → n1 = n2.
Proof.
  intros H1 H2. unfold below. rewrite !base_join, !path_join_base by done.
  destruct H1 as [_ H1], H2 as [_ H2]. intros [->|[s1 ->]] [Heq|[s2 Heq]].
  - by apply app_inv_head in Heq.
  - rewrite <- !app_assoc in Heq. apply app_inv_head in Heq. subst n1.
    exfalso. apply H1, elem_of_app. right. by left.
  - rewrite <- !app_assoc in Heq. apply app_inv_head in Heq. subst n2.
    exfalso. apply H2, elem_of_app. right. by left.
  - rewrite <- !app_assoc in Heq. apply app_inv_head in Heq. by eapply (before_separator slash).
Qed.

(** ** Trees of files *)

Inductive Node : Type :=
| NFile (mode : N) (content : bytes)
| NLink (mode : N) (target : bytes)
| NDir (mode : N) (children : list (rstr * Node))
(** what cannot be opened or read *)
| NClosed (type : FileType) (mode size : N).

Section Node_nested.
Variable P : Node → Prop.
Hypothesis Hleaf : ∀ n, match n with NDir _ _ => True | _ => P n end.
Hypothesis Hdir : ∀ mode children, Forall (λ c, P c.2) children → P (NDir mode children).

Fixpoint Node_nested (n : Node) : P n :=
  match n with
  | NDir mode children =>
      Hdir mode children ((fix all cs : Forall (λ c, P c.2) cs :=
        match cs with
        | [] => Forall_nil_2 _
        | c :: cs => Forall_cons_2 _ c cs (Node_nested c.2) (all cs)
        end) children)
  | n => Hleaf n
  end.
End Node_nested.

Definition node_type (n : Node) : FileType :=
  match n with
  | NFile _ _ => FtFile
  | NLink _ _ => FtSymlink
  | NDir _ _ => FtDir
  | NClosed type _ _ => type
  end.

Definition node_mode (n : Node) : N :=
  match n with NFile mode _ | NLink mode _ | NDir mode _ | NClosed _ mode _ => mode end.

Fixpoint height (n : Node) : nat :=
  match n with
  | NDir _ children => S (foldr Nat.max 0%nat (map (λ c, height c.2) children))
  | _ => 1
  end.

Lemma height_child mode children c : c ∈ children → (height c.2 < height (NDir mode children))%nat.
Proof.
  cbn [height]. induction children as [|d children IH]; [by intros ?%elem_of_nil|].
  intros [->|Hc]%elem_of_cons; cbn; [lia|]. apply IH in Hc. lia.
Qed.

(** What the file system shows without following links. *)
Section holds.
Context `{ClientFs}.

Definition dir_entry (c : rstr * Node) : option DirEntry :=
  Some (mkDirEntry c.1 (Some (node_type c.2))).

Definition children_ok (children : list (rstr * Node)) : Prop :=
  NoDup (map fst children) ∧ len children < U32
  ∧ Forall (λ c, name_ok c.1 ∧ utf8_valid c.1 = true ∧ len c.1 < U32) children.

Inductive holds : rstr → Node → Prop :=
| holds_file p mode content :
    fs_symlink_metadata p = Ok (mkFsMetadata FtFile mode (len content)) →
    fs_read p = Ok content → len content < 9223372036854775808 → holds p (NFile mode content)
| holds_link p mode size target :
    fs_symlink_metadata p = Ok (mkFsMetadata FtSymlink mode size) →
    fs_read_link p = Ok target → len (from_utf8_lossy target) < U64 → holds p (NLink mode target)
| holds_dir p mode size children :
    fs_symlink_metadata p = Ok (mkFsMetadata FtDir mode size) →
    fs_canonicalize p = Ok p →
    fs_read_dir p = Ok (map dir_entry children) →
    children_ok children →
    (∀ c, c ∈ children → holds (path_join p c.1) c.2) →
    holds p (NDir mode children)
| holds_closed p type mode size e :
    fs_symlink_metadata p = Ok (mkFsMetadata type mode size) → size < 9223372036854775808 →
    match type with
    | FtFile => fs_read p = Err e
    | FtSymlink => fs_read_link p = Err e
    | FtDir => fs_read_dir p = Err e ∧ fs_canonicalize p = Ok p
    end →
    holds p (NClosed type mode size).
End holds.

Lemma elem_of_concat_map {A B} (f : A → list B) l b :
  b ∈ concat (map f l) ↔ ∃ a, a ∈ l ∧ b ∈ f a.
Proof.
  induction l as [|a l IH]; cbn.
  - split; [by intros ?%elem_of_nil|]. by intros (? & ?%elem_of_nil & _).
  - rewrite elem_of_app, IH. setoid_rewrite elem_of_cons. naive_solver.
Qed.

(** ** What the options keep *)

Section kept.
Context `{Glob} (opts : Options).

(** An entry that the options exclude, at the path [rel] below the root. *)
Definition excluded (rel : rstr) (n : Node) : bool :=
  should_exclude opts rel (is_dir (node_type n)).

Definition too_large (size : N) : bool := (o_max_file_size opts <? Z.of_N size)%Z.

Fixpoint kept (rel : rstr) (n : Node) : option Node :=
  match n with
  | NFile mode content =>
      if too_large (len content) then None else Some (NFile (N.land mode 4095) content)
  | NLink mode target => Some (NLink (N.land mode 4095) (from_utf8_lossy target))
  | NDir mode children =>
      Some (NDir (N.land mode 4095) (concat (map (λ c,
        if excluded (path_join rel c.1) c.2 then []
        else match kept (path_join rel c.1) c.2 with
             | Some n => [(c.1, n)]
             | None => []
             end) children)))
  | NClosed _ _ _ => None
  end.

Definition kept_child (rel : rstr) (c : rstr * Node) : list (rstr * Node) :=
  if excluded (path_join rel c.1) c.2 then []
  else match kept (path_join rel c.1) c.2 with
       | Some n => [(c.1, n)]
       | None => []
       end.
Definition kept_children (rel : rstr) (children : list (rstr * Node)) : list (rstr * Node) :=
  concat (map (kept_child rel) children).

Lemma kept_dir rel mode children :
  kept rel (NDir mode children) = Some (NDir (N.land mode 4095) (kept_children rel children)).
Proof. done. Qed.

(** The files that are looked at, kept or not. *)
Fixpoint files_tried (rel : rstr) (n : Node) : N :=
  match n with
  | NFile _ _ | NClosed FtFile _ _ => 1
  | NDir _ children =>
      foldr N.add 0 (map (λ c,
        if excluded (path_join rel c.1) c.2 then 0 else files_tried (path_join rel c.1) c.2) children)
  | _ => 0
  end.

Definition tried_child (rel : rstr) (c : rstr * Node) : N :=
  if excluded (path_join rel c.1) c.2 then 0 else files_tried (path_join rel c.1) c.2.
End kept.

(** ** What a capture records of a tree *)

Definition node_kind (n : Node) : N :=
  match node_type n with
  | FtFile => EntryKindFile
  | FtDir => EntryKindDirectory
  | FtSymlink => EntryKindSymlink
  end.

Definition node_size (n : Node) : N :=
  match n with
  | NFile _ bs | NLink _ bs => len bs
  | NDir _ _ => 0
  | NClosed _ _ size => size
  end.

Section record.
Context `{RmpEncode} `{Blake3}.

(** The bytes that the hash of a node is of: the contents, the target, or the encoding of the
    entries by name. *)
Fixpoint node_blob (n : Node) : bytes :=
  match n with
  | NFile _ content => content
  | NLink _ target => target
  | NDir _ children =>
      encode_entries (sort_entries (map (λ c,
        mkTreeEntry c.1 (node_kind c.2) (node_mode c.2) (node_size c.2) (blake3 (node_blob c.2)))
        children))
  | NClosed _ _ _ => []
  end.

Definition node_hash (n : Node) : bytes := blake3 (node_blob n).

Definition node_entry (name : rstr) (n : Node) : TreeEntry :=
  mkTreeEntry name (node_kind n) (node_mode n) (node_size n) (node_hash n).

Definition child_entry (c : rstr * Node) : TreeEntry := node_entry c.1 c.2.

Lemma node_blob_dir mode children :
  node_blob (NDir mode children) = encode_entries (sort_entries (map child_entry children)).
Proof. done. Qed.

(** The trees, files and links below a node, in the order in which they are recorded. *)
Fixpoint tree_list (n : Node) : list bytes :=
  match n with
  | NDir _ children => concat (map (λ c, tree_list c.2) children) ++ [node_blob n]
  | _ => []
  end.

Fixpoint file_list (p : rstr) (n : Node) : list FileRef :=
  match n with
  | NFile _ content => [mkFileRef p (len content) (blake3 content)]
  | NDir _ children => concat (map (λ c, file_list (path_join p c.1) c.2) children)
  | _ => []
  end.

Fixpoint link_list (n : Node) : list rstr :=
  match n with
  | NLink _ target => [target]
  | NDir _ children => concat (map (λ c, link_list c.2) children)
  | _ => []
  end.

(** [b'] is [b] with these trees, files and links recorded; what is being visited is left open. *)
Definition recorded (trees : list bytes) (files : list FileRef) (links : list rstr)
    (b b' : Builder) : Prop :=
  b_trees b' = foldl (λ m t, <[blake3 t := t]> m) (b_trees b) trees
  ∧ b_files b' = foldl (λ m f, <[fr_hash f := f]> m) (b_files b) files
  ∧ b_symlinks b' = foldl (λ m t, <[blake3 t := t]> m) (b_symlinks b) links
  ∧ b_file_count b' = b_file_count b + len files
  ∧ b_dir_count b' = b_dir_count b + len trees
  ∧ b_symlink_count b' = b_symlink_count b + len links
  ∧ b_total_bytes b' = foldl (λ n f, wrap64 (n + fr_size f)) (b_total_bytes b) files.

Lemma note_all_app t1 t2 f1 f2 l1 l2 b b1 b2 :
  recorded t1 f1 l1 b b1 → recorded t2 f2 l2 b1 b2 →
  recorded (t1 ++ t2) (f1 ++ f2) (l1 ++ l2) b b2.
Proof.
  intros (H1 & H2 & H3 & H4 & H5 & H6 & H7) (G1 & G2 & G3 & G4 & G5 & G6 & G7).
  unfold recorded. rewrite !foldl_app, !len_app.
  rewrite G1, G2, G3, G4, G5, G6, G7, H1, H2, H3, H4, H5, H6, H7. split_and!; done || lia.
Qed.

Lemma recorded_visited f b : recorded [] [] [] b (with_visited f b).
Proof. unfold recorded. cbn. rewrite len_nil, !N.add_0_r. by split_and!. Qed.

Lemma note_all_nil b : recorded [] [] [] b b.
Proof. unfold recorded. cbn. rewrite len_nil, !N.add_0_r. by split_and!. Qed.
End record.

(** ** Building *)

Section build.
Context `{RmpEncode} `{Blake3} `{Glob} `{ClientFs} (opts : Options).
Hypothesis no_follow : o_follow_symlinks opts = false.

(** Nothing at or below [p] is being visited. *)
Definition fresh (p : rstr) (b : Builder) : Prop := ∀ v, v ∈ b_visited b → ¬ below p v.

Lemma fresh_child p name b b' :
  name_ok name → fresh p b → (∀ v, v ∈ b_visited b' → v = p ∨ v ∈ b_visited b) →
  fresh (path_join p name) b'.
Proof.
  intros Hn Hf Hv v [->|Hin]%Hv; [by apply below_child_parent|].
  intros Hb. apply (Hf v Hin). by eapply below_child.
Qed.

(** The record of a node in a builder. *)
Definition recorded_node (p : rstr) (n : Node) : Builder → Builder → Prop :=
  recorded (tree_list n) (file_list p n) (link_list n).
Definition recorded_children (p : rstr) (cs : list (rstr * Node)) : Builder → Builder → Prop :=
  recorded (concat (map (λ c, tree_list c.2) cs))
    (concat (map (λ c, file_list (path_join p c.1) c.2) cs))
    (concat (map (λ c, link_list c.2) cs)).

Lemma recorded_children_app p cs1 cs2 b b1 b2 :
  recorded_children p cs1 b b1 → recorded_children p cs2 b1 b2 →
  recorded_children p (cs1 ++ cs2) b b2.
Proof. unfold recorded_children. rewrite !map_app, !concat_app. apply note_all_app. Qed.

Lemma recorded_child p c b b' :
  recorded_node (path_join p c.1) c.2 b b' → recorded_children p [c] b b'.
Proof. unfold recorded_children. cbn. by rewrite !app_nil_r. Qed.

Ltac solve_recorded :=
  unfold recorded_node, recorded; cbn; rewrite ?len_cons, ?len_nil, ?N.add_0_r; by split_and!.

(** No more files are kept than are looked at. *)
Lemma kept_files_tried n : ∀ rel p n',
  kept opts rel n = Some n' → len (file_list p n') ≤ files_tried opts rel n.
Proof.
  apply (Node_nested (λ n, ∀ rel p n', kept opts rel n = Some n' →
    len (file_list p n') ≤ files_tried opts rel n)); clear n.
  - intros [mode content|mode target|mode children|type mode size]; try done.
    + intros rel p n'. cbn. destruct (too_large _ _); [done|]. intros [= <-]. done.
    + intros rel p n' [= <-]. done.
  - intros mode cs IH rel p n'. rewrite kept_dir. intros [= <-]. cbn [files_tried file_list].
    induction IH as [|c cs Hc IH IHcs]; [done|]. unfold kept_children in *. cbn [map concat foldr].
    rewrite map_app, concat_app, len_app. apply N.add_le_mono; [|exact IHcs].
    unfold kept_child. destruct (excluded _ _ _); [cbn; rewrite len_nil; lia|].
    destruct (kept opts (path_join rel c.1) c.2) as [k|] eqn:Hk; [|cbn; rewrite len_nil; lia].
    cbn. rewrite app_nil_r. by apply Hc.
Qed.

(** The outcome for one entry: it is recorded, or skipped, or the limit on files is passed. *)
Definition entry_outcome (p rel name : rstr) (n : Node) (b : Builder)
    (r : result FstreeError TreeEntry) (b' : Builder) : Prop :=
  (∀ v, v ∈ b_visited b' → v ∈ b_visited b ∨ below p v)
  ∧ match r with
    | Ok e => ∃ n', kept opts rel n = Some n' ∧ e = node_entry name n'
        ∧ recorded_node p n' b b' ∧ b_file_count b' ≤ o_max_files opts
    | Err e =>
        (is_fatal e = false ∧ kept opts rel n = None ∧ recorded [] [] [] b b')
        ∨ (fe_kind e = TooManyFiles ∧ o_max_files opts < b_file_count b + files_tried opts rel n)
    end.

Definition entry_builds (n : Node) : Prop := ∀ fuel p rel name md b,
  (height n ≤ fuel)%nat → holds p n → fs_symlink_metadata p = Ok md → fresh p b →
  b_file_count b ≤ o_max_files opts →
  ∃ r b', build_entry (build_tree fuel opts) opts p rel name md b = Some (r, b')
    ∧ entry_outcome p rel name n b r b'.

(** The outcome of the loop over the entries of a directory. *)
Definition loop_outcome (p rel : rstr) (cs : list (rstr * Node)) (es : list TreeEntry)
    (b : Builder) (r : result FstreeError (list TreeEntry)) (b' : Builder) : Prop :=
  (∀ v, v ∈ b_visited b' → v ∈ b_visited b ∨ ∃ c, c ∈ cs ∧ below (path_join p c.1) v)
  ∧ match r with
    | Ok es' => es' = es ++ map child_entry (kept_children opts rel cs)
        ∧ recorded_children p (kept_children opts rel cs) b b'
        ∧ b_file_count b' ≤ o_max_files opts
    | Err e => fe_kind e = TooManyFiles
        ∧ o_max_files opts < b_file_count b + foldr N.add 0 (map (tried_child opts rel) cs)
    end.

Lemma holds_metadata p n : holds p n →
  ∃ size, fs_symlink_metadata p = Ok (mkFsMetadata (node_type n) (node_mode n) size).
Proof. inversion 1; subst; eauto. Qed.

(** What the rest of the loop does after one child. *)
Lemma loop_outcome_cons p rel c cs es b k b1 r b' :
  (∀ v, v ∈ b_visited b1 → v ∈ b_visited b ∨ below (path_join p c.1) v) →
  kept_child opts rel c = k → recorded_children p k b b1 →
  b_file_count b1 ≤ b_file_count b + tried_child opts rel c →
  loop_outcome p rel cs (es ++ map child_entry k) b1 r b' →
  loop_outcome p rel (c :: cs) es b r b'.
Proof.
  intros Hv Hk Hrec Hcount [Hv' Hr]. split.
  - intros v [[?|?]%Hv|(d & Hd & ?)]%Hv'; [by left|right; exists c; split; [by left|done]|].
    right. exists d. split; [by right|done].
  - unfold kept_children in *. cbn [map concat foldr]. rewrite Hk.
    destruct r as [es'|e].
    + destruct Hr as (-> & Hrec' & Hm). rewrite map_app, app_assoc. split_and!; [done| |done].
      by eapply recorded_children_app.
    + destruct Hr as [? ?]. split; [done|]. lia.
Qed.

Lemma fresh_siblings p (c : rstr * Node) (cs : list (rstr * Node)) b b1 :
  name_ok c.1 → c.1 ∉ map fst cs →
  Forall (λ c : rstr * Node, name_ok c.1 ∧ utf8_valid c.1 = true ∧ len c.1 < U32) cs →
  (∀ d, d ∈ cs → fresh (path_join p d.1) b) →
  (∀ v, v ∈ b_visited b1 → v ∈ b_visited b ∨ below (path_join p c.1) v) →
  ∀ d, d ∈ cs → fresh (path_join p d.1) b1.
Proof.
  intros Hok Hnew Hn Hrest Hv d Hin v [Hb|Hb]%Hv; [by apply Hrest|].
  intros Hb'. apply Hnew, list_elem_of_fmap.
  exists d. split; [|done]. rewrite Forall_forall in Hn. destruct (Hn _ Hin) as [Hokd _].
  exact (below_disjoint p _ _ v Hok Hokd Hb Hb').
Qed.

Lemma build_entries_holds fuel p rel cs :
  Forall (λ c, entry_builds c.2) cs → (∀ c, c ∈ cs → (height c.2 ≤ fuel)%nat) →
  NoDup (map fst cs) → Forall (λ c, name_ok c.1 ∧ utf8_valid c.1 = true ∧ len c.1 < U32) cs →
  (∀ c, c ∈ cs → holds (path_join p c.1) c.2) →
  ∀ es b, (∀ c, c ∈ cs → fresh (path_join p c.1) b) → b_file_count b ≤ o_max_files opts →
  ∃ r b', build_entries (build_tree fuel opts) opts p rel (map dir_entry cs) es b = Some (r, b')
    ∧ loop_outcome p rel cs es b r b'.
Proof.
  intros HP. induction HP as [|c cs Hc HP IH]; intros Hh Hd Hn Hholds es b Hf Hm.
  { exists (Ok es), b. split; [done|]. split; [by left|]. cbn. rewrite app_nil_r.
    split_and!; [done|apply note_all_nil|done]. }
  apply NoDup_cons in Hd as [Hnew Hd]. apply Forall_cons in Hn as [(Hok & Hutf & _) Hn].
  assert (Hrest : ∀ d, d ∈ cs → fresh (path_join p d.1) b) by (intros d ?; apply Hf; by right).
  specialize (IH ltac:(intros d ?; apply Hh; by right) Hd Hn
    ltac:(intros d ?; apply Hholds; by right)).
  cbn [map build_entries dir_entry de_file_name de_file_type].
  rewrite from_utf8_lossy_valid by done. cbn [fmap option_fmap option_map default].
  change (should_exclude opts _ _) with (excluded opts (path_join rel c.1) c.2).
  destruct (excluded opts (path_join rel c.1) c.2) eqn:Hex.
  { destruct (IH es b Hrest Hm) as (r & b' & Heq & Hout). exists r, b'. split; [done|].
    apply (loop_outcome_cons p rel c cs es b [] b); [by left| |apply note_all_nil|lia|].
    - unfold kept_child. by rewrite Hex.
    - cbn. by rewrite app_nil_r. }
  rewrite no_follow. pose proof (Hholds c ltac:(by left)) as Hhold.
  destruct (holds_metadata _ _ Hhold) as [size Hmd]. rewrite Hmd.
  destruct (Hc fuel (path_join p c.1) (path_join rel c.1) c.1 _ b (Hh c ltac:(by left))
    Hhold Hmd (Hf c ltac:(by left)) Hm) as (r1 & b1 & Heq & Hv & Hout).
  rewrite Heq. cbn [mbind option_bind].
  pose proof (fresh_siblings p c cs b b1 Hok Hnew Hn Hrest Hv) as Hfresh.
  destruct r1 as [e|e].
  - destruct Hout as (n' & Hk & -> & Hrec & Hm1).
    destruct (IH (es ++ [node_entry c.1 n']) b1 Hfresh Hm1) as (r & b' & Heq' & Hout').
    exists r, b'. split; [done|].
    apply (loop_outcome_cons p rel c cs es b [(c.1, n')] b1); [done| | | |done].
    + unfold kept_child. by rewrite Hex, Hk.
    + by apply recorded_child.
    + destruct Hrec as (_ & _ & _ & -> & _). unfold tried_child. rewrite Hex.
      pose proof (kept_files_tried _ _ (path_join p c.1) _ Hk). lia.
  - destruct Hout as [(Hfatal & Hk & Hrec)|[Hkind Hover]].
    + rewrite Hfatal. assert (Hcount : b_file_count b1 = b_file_count b).
      { destruct Hrec as (_ & _ & _ & -> & _). rewrite len_nil. lia. }
      destruct (IH es b1 Hfresh ltac:(lia)) as (r & b' & Heq' & Hout').
      exists r, b'. split; [done|].
      apply (loop_outcome_cons p rel c cs es b [] b1); [done| |exact Hrec|lia|].
      * unfold kept_child. by rewrite Hex, Hk.
      * cbn. by rewrite app_nil_r.
    + exists (Err e), b1. unfold is_fatal. rewrite Hkind. split; [done|]. split.
      * intros v [?|?]%Hv; [by left|right]. exists c. split; [by left|done].
      * split; [done|]. cbn [map foldr]. unfold tried_child at 1. rewrite Hex. lia.
Qed.

(** [build_tree] on a directory. *)
Definition tree_outcome (p rel : rstr) (n : Node) (b : Builder) (r : result FstreeError bytes)
    (b' : Builder) : Prop :=
  (∀ v, v ∈ b_visited b' → v ∈ b_visited b ∨ below p v)
  ∧ match r with
    | Ok h => ∃ n', kept opts rel n = Some n' ∧ h = node_hash n'
        ∧ recorded_node p n' b b' ∧ b_file_count b' ≤ o_max_files opts
    | Err e => fe_kind e = TooManyFiles ∧ o_max_files opts < b_file_count b + files_tried opts rel n
    end.

Lemma recorded_finish p es h b b' trees files links b0 :
  recorded trees files links b0 b → finish_tree p es b = (h, b') →
  h = blake3 (encode_entries (sort_entries es))
  ∧ recorded (trees ++ [encode_entries (sort_entries es)]) files links b0 b'
  ∧ (∀ v, v ∈ b_visited b' → v ∈ b_visited b).
Proof.
  intros Hrec [= <- <-]. split; [done|].
  assert (Hl : ∀ b, recorded [] [] [] b (leave p b) ∧ ∀ v, v ∈ b_visited (leave p b) → v ∈ b_visited b).
  { intros b1. unfold leave. destruct (fs_canonicalize p); [|split; [apply note_all_nil|done]].
    split; [apply recorded_visited|]. cbn. set_solver. }
  split; [|intros v Hv%Hl; done]. rewrite <- (app_nil_r files), <- (app_nil_r links).
  eapply note_all_app; [done|].
  rewrite <- (app_nil_r [_]), <- (app_nil_r []) at 1.
  eapply note_all_app with (f1 := []) (l1 := []); [|apply Hl].
  unfold recorded. cbn. rewrite ?len_cons, ?len_nil, !N.add_0_r. by split_and!.
Qed.

Lemma build_tree_holds fuel p rel mode cs b :
  Forall (λ c, entry_builds c.2) cs → holds p (NDir mode cs) →
  (height (NDir mode cs) ≤ fuel)%nat → fresh p b → b_file_count b ≤ o_max_files opts →
  ∃ r b', build_tree fuel opts p rel b = Some (r, b')
    ∧ tree_outcome p rel (NDir mode cs) b r b'.
Proof.
  intros HP Hhold Hfuel Hf Hm. inversion Hhold as [| |? ? ? ? _ Hcan Hdir (Hnd & _ & Hn) Hch|];
    subst. destruct fuel as [|fuel]; [cbn in Hfuel; lia|]. cbn [build_tree].
  unfold enter. rewrite Hcan, decide_False, Hdir by (intros Hv; by apply (Hf _ Hv); left).
  set (b0 := with_visited (λ v, {[p]} ∪ v) b).
  assert (Hv0 : ∀ v, v ∈ b_visited b0 → v = p ∨ v ∈ b_visited b) by (cbn; set_solver).
  destruct (build_entries_holds fuel p rel cs HP) with (es := @nil TreeEntry) (b := b0)
    as (r & b1 & Heq & Hv & Hr); try done.
  { intros c Hc%(height_child mode). lia. }
  { intros c Hc. rewrite Forall_forall in Hn. destruct (Hn _ Hc) as [Hok _].
    by eapply fresh_child. }
  rewrite Heq. cbn [mbind option_bind].
  assert (Hv1 : ∀ v, v ∈ b_visited b1 → v ∈ b_visited b ∨ below p v).
  { intros v [[->|?]%Hv0|(c & Hc & Hb)]%Hv; [right; by left|by left|right].
    rewrite Forall_forall in Hn. destruct (Hn _ Hc) as [Hok _]. by eapply below_child. }
  destruct r as [es|e].
  - destruct Hr as (-> & Hrec & Hm1). destruct (finish_tree p _ b1) as [h b'] eqn:Hfin.
    exists (Ok h), b'. split; [done|].
    destruct (recorded_finish _ _ _ _ _ _ _ _ b Hrec Hfin) as (-> & Hrec' & Hv').
    split; [intros v ?%Hv'; by apply Hv1|]. eexists. split; [done|]. split; [done|].
    split; [exact Hrec'|]. destruct Hrec' as (_ & _ & _ & -> & _).
    destruct Hrec as (_ & _ & _ & Hc & _). rewrite Hc in Hm1. exact Hm1.
  - exists (Err e), b1. split; [done|]. split; [done|]. destruct Hr as [? Hr]. split; [done|exact Hr].
Qed.

Lemma as_i64_small n : n < 9223372036854775808 → as_i64 n = Z.of_N n.
Proof. intros Hn. unfold as_i64. by rewrite (proj2 (Z.ltb_lt _ _)) by lia. Qed.

(** An entry that is neither recorded nor fatal is skipped. *)
Lemma skipped p rel name n b e :
  is_fatal e = false → kept opts rel n = None → entry_outcome p rel name n b (Err e) b.
Proof. intros. split; [by left|]. left. split_and!; [done..|apply note_all_nil]. Qed.

Lemma recorded_outcome p rel name n n' b b' :
  kept opts rel n = Some n' → recorded_node p n' b b' → b_visited b' = b_visited b →
  b_file_count b' ≤ o_max_files opts →
  entry_outcome p rel name n b (Ok (node_entry name n')) b'.
Proof. intros Hk Hrec Hv Hm. split; [rewrite Hv; by left|]. by exists n'. Qed.

Lemma limit_outcome p rel name n b e :
  fe_kind e = TooManyFiles → o_max_files opts ≤ b_file_count b → files_tried opts rel n = 1 →
  entry_outcome p rel name n b (Err e) b.
Proof. intros He Hm Hn. split; [by left|]. right. split; [done|]. lia. Qed.

Lemma leaf_builds n :
  match n with NDir _ _ => True | _ => entry_builds n end.
Proof.
  destruct n as [mode content|mode target|mode cs|type mode size]; [| |done|];
    intros fuel p rel name md b Hfuel Hhold Hmd Hf Hm;
    inversion Hhold as [? ? ? Hmd' Hread Hlen|? ? ? ? Hmd' Hread Hlen| |? ? ? ? e Hmd' Hsize He];
    subst; rewrite Hmd' in Hmd; injection Hmd as <-;
    unfold build_entry; cbn [md_type md_mode md_len is_symlink is_dir andb].
  - destruct (N.leb_spec (o_max_files opts) (b_file_count b)) as [Hge|Hlt].
    { eexists _, _. split; [done|]. by apply limit_outcome. }
    rewrite as_i64_small by done. unfold hash_file. rewrite Hread.
    destruct (o_max_file_size opts <? Z.of_N (len content))%Z eqn:Hl; eexists _, _;
      (split; [done|]).
    + apply skipped; [done|]. cbn. unfold too_large. by rewrite Hl.
    + apply (recorded_outcome p rel name _ (NFile (N.land mode 4095) content)); [| |done|].
      * cbn. unfold too_large. by rewrite Hl.
      * solve_recorded.
      * cbn. lia.
  - rewrite no_follow, Hread. eexists _, _. split; [done|].
    apply (recorded_outcome p rel name _ (NLink (N.land mode 4095) (from_utf8_lossy target)));
      [done|solve_recorded|done|done].
  - destruct type; cbn [is_symlink is_dir andb].
    + destruct He as [He Hcan]. destruct fuel as [|fuel]; [cbn in Hfuel; lia|]. cbn [build_tree].
      unfold enter. rewrite Hcan, decide_False, He by (intros Hv; by apply (Hf _ Hv); left).
      eexists _, _. split; [done|]. split.
      * cbn. intros v [->%elem_of_singleton|?]%elem_of_union; [right; by left|by left].
      * left. split_and!; [done..|apply recorded_visited].
    + rewrite no_follow, He. eexists _, _. split; [done|]. by apply skipped.
    + destruct (N.leb_spec (o_max_files opts) (b_file_count b)) as [Hge|Hlt].
      { eexists _, _. split; [done|]. by apply limit_outcome. }
      unfold hash_file. rewrite He.
      destruct (_ <? _)%Z; eexists _, _; (split; [done|]); by apply skipped.
Qed.

Lemma entry_builds_all n : entry_builds n.
Proof.
  apply Node_nested; clear n; [apply leaf_builds|].
  intros mode cs IH fuel p rel name md b Hfuel Hhold Hmd Hf Hm.
  destruct (build_tree_holds fuel p rel mode cs b IH Hhold Hfuel Hf Hm)
    as (r & b' & Heq & Hv & Hr).
  inversion Hhold as [| |? ? ? ? Hmd'|]; subst. rewrite Hmd' in Hmd. injection Hmd as <-.
  unfold build_entry. cbn [md_type is_symlink is_dir andb].
  rewrite Heq. cbn [mbind option_bind]. eexists _, _. split; [done|]. split; [done|].
  destruct r as [h|e]; [|by right]. destruct Hr as (n' & Hk & -> & Hrec & Hc).
  exists n'. split; [done|]. split; [|done]. rewrite kept_dir in Hk. by simplify_eq.
Qed.
End build.

(** ** Capturing *)

(** The snapshot [sn] holds the tree [n] of the directory [p]. *)
Definition captured `{RmpEncode} `{Blake3} (p : rstr) (n : Node) (sn : Snapshot) : Prop :=
  sn_root_hash sn = node_hash n
  ∧ sn_trees sn = foldl (λ m t, <[blake3 t := t]> m) ∅ (tree_list n)
  ∧ sn_files sn = foldl (λ m f, <[fr_hash f := f]> m) ∅ (file_list p n)
  ∧ sn_symlinks sn = foldl (λ m t, <[blake3 t := t]> m) ∅ (link_list n)
  ∧ ss_file_count (sn_stats sn) = len (file_list p n)
  ∧ ss_dir_count (sn_stats sn) = len (tree_list n)
  ∧ ss_symlink_count (sn_stats sn) = len (link_list n)
  ∧ ss_total_bytes (sn_stats sn)
    = foldl (λ total f, wrap64 (total + fr_size f)) 0 (file_list p n).

Definition all_options (opts : list (Options → Options)) : Options :=
  foldl (λ o opt, opt o) options_default opts.

Section capture_exact.
Context `{RmpEncode} `{Blake3} `{Glob} `{ClientFs}.

(** What is at a root that can be captured. *)
Definition root_holds (root p : rstr) (n : Node) : Prop :=
  ∃ mode cs size, n = NDir mode cs ∧ fs_canonicalize root = Ok p
    ∧ fs_metadata p = Ok (mkFsMetadata FtDir mode size) ∧ holds p n.

Lemma capture_exact fuel root p n opts now duration :
  root_holds root p n → o_follow_symlinks (all_options opts) = false → (height n ≤ fuel)%nat →
  ∃ r, capture fuel root opts now duration = Some r
    ∧ match r with
      | Ok sn => ∃ n', kept (all_options opts) [] n = Some n' ∧ captured p n' sn
          ∧ len (file_list p n') ≤ o_max_files (all_options opts)
      | Err e => fe_kind e = TooManyFiles
          ∧ o_max_files (all_options opts) < files_tried (all_options opts) [] n
      end.
Proof.
  intros (mode & cs & size & -> & Hcan & Hmd & Hhold) Hfollow Hfuel.
  destruct (build_tree_holds (all_options opts) Hfollow fuel p [] mode cs builder_new)
    as (r & b & Heq & _ & Hr); [|done|done|by intros v ?%elem_of_empty|apply N.le_0_l|].
  { apply Forall_forall. intros c _. by apply entry_builds_all. }
  unfold capture. rewrite Hcan, Hmd. cbn [md_type is_dir negb]. fold (all_options opts).
  rewrite Heq. cbn [mbind option_bind]. eexists. split; [done|]. destruct r as [h|e].
  - destruct Hr as (n' & Hk & -> & (R1 & R2 & R3 & R4 & R5 & R6 & R7) & Hm).
    cbn. exists n'. split; [done|]. rewrite R4 in Hm. cbn in *. split; [by split_and!|].
    lia.
  - destruct Hr as [? Hr]. split; [done|]. exact Hr.
Qed.
End capture_exact.

(** ** Termination

    Whatever the file system looks like, with links that are followed into cycles, a capture
    ends: the directories that are being visited are distinct, and there are finitely many. *)
Section termination.
Context `{RmpEncode} `{Blake3} `{Glob} `{ClientFs}.

(** Every directory that can be read is, by its real path, one of [dirs]. *)
Definition real_dirs (dirs : gset rstr) : Prop :=
  ∀ p dir, fs_read_dir p = Ok dir → ∃ r, fs_canonicalize p = Ok r ∧ r ∈ dirs.

Variables (dirs : gset rstr) (opts : Options).
Hypothesis Hdirs : real_dirs dirs.

(** A result that leaves what was being visited. *)
Definition ends {A} (b : Builder) (r : option (result FstreeError A * Builder)) : Prop :=
  ∃ x b', r = Some (x, b') ∧ b_visited b ⊆ b_visited b'.

Lemma ends_now {A} (x : result FstreeError A) b b' :
  b_visited b ⊆ b_visited b' → ends b (Some (x, b')).
Proof. intros. by exists x, b'. Qed.

Lemma ends_bind {A B} b (r : option (result FstreeError A * Builder))
    (k : result FstreeError A * Builder → option (result FstreeError B * Builder)) :
  ends b r → (∀ x b', b_visited b ⊆ b_visited b' → ends b (k (x, b'))) → ends b (r ≫= k).
Proof. intros (x & b' & -> & Hv) Hk. by apply Hk. Qed.

Lemma ends_weaken {A} b b' (r : option (result FstreeError A * Builder)) :
  b_visited b ⊆ b_visited b' → ends b' r → ends b r.
Proof. intros Hb (x & b2 & -> & Hv). apply ends_now. set_solver. Qed.

Lemma build_entry_ends rec abs rel name md b :
  (∀ abs rel, ends b (rec abs rel b)) → ends b (build_entry rec opts abs rel name md b).
Proof.
  intros Hrec. unfold build_entry.
  destruct (is_symlink _ && _); [destruct (fs_read_link abs); by apply ends_now|].
  destruct (is_dir _).
  { apply ends_bind; [done|]. intros x b' Hb. by apply ends_now. }
  destruct (_ <=? _); [by apply ends_now|].
  destruct (_ <? _)%Z; [by apply ends_now|]. destruct (hash_file abs); by apply ends_now.
Qed.

Lemma build_entries_ends rec abs rel dir b0 :
  (∀ abs rel b, b_visited b0 ⊆ b_visited b → ends b (rec abs rel b)) →
  ∀ es b, b_visited b0 ⊆ b_visited b → ends b (build_entries rec opts abs rel dir es b).
Proof.
  intros Hrec. induction dir as [|[de|] dir IH]; intros es b Hb; cbn [build_entries];
    [by apply ends_now| |by apply IH].
  destruct (should_exclude _ _ _); [by apply IH|].
  destruct ((if o_follow_symlinks opts then _ else _) _) as [md|e]; [|by apply IH].
  apply ends_bind; [apply build_entry_ends; intros; by apply Hrec|].
  intros x b' Hb'. apply (ends_weaken b b'); [done|].
  destruct x as [x|e]; [|destruct (is_fatal e); [by apply ends_now|]]; apply IH; set_solver.
Qed.

Lemma build_tree_ends fuel : ∀ abs rel b,
  (size (dirs ∖ b_visited b) < fuel)%nat → ends b (build_tree fuel opts abs rel b).
Proof.
  induction fuel as [|fuel IH]; intros abs rel b Hf; [lia|]. cbn [build_tree].
  unfold enter. destruct (fs_canonicalize abs) as [r|e] eqn:Hcan.
  - destruct (decide (r ∈ b_visited b)) as [Hr|Hr]; [by apply ends_now|].
    destruct (fs_read_dir abs) as [dir|e] eqn:Hdir; [|apply ends_now; cbn; set_solver].
    destruct (Hdirs _ _ Hdir) as (r' & Hcan' & Hin). simplify_eq.
    rewrite Hcan in Hcan'. injection Hcan' as <-.
    set (b1 := with_visited (λ v, {[r]} ∪ v) b).
    assert (Hsize : (size (dirs ∖ b_visited b1) < fuel)%nat).
    { assert (dirs ∖ b_visited b1 ⊂ dirs ∖ b_visited b) as Hs%subset_size by (cbn; set_solver). lia. }
    destruct (build_entries_ends (build_tree fuel opts) abs rel dir b1) with (es := @nil TreeEntry)
      (b := b1) as (x & b2 & -> & Hv); [|done|].
    { intros abs' rel' b2 Hb2. apply IH.
      assert (dirs ∖ b_visited b2 ⊆ dirs ∖ b_visited b1) as Hs%subseteq_size by set_solver. lia. }
    cbn [mbind option_bind]. destruct x as [es|e]; [|apply ends_now; cbn in Hv; set_solver].
    unfold finish_tree, leave. rewrite Hcan. apply ends_now. cbn in *. set_solver.
  - destruct (fs_read_dir abs) as [dir|e'] eqn:Hdir; [|by apply ends_now].
    destruct (Hdirs _ _ Hdir) as (r & Hcan' & _). congruence.
Qed.
End termination.

(** C25. A capture ends, also when it follows links and links form cycles: as much fuel as there
    are directories and one more is enough, if every directory that can be read has a
    real path and these are finitely many. *)
Theorem capture_terminates `{RmpEncode} `{Blake3} `{Glob} `{ClientFs} dirs fuel root opts now duration :
  real_dirs dirs → (size dirs < fuel)%nat →
  ∃ r, capture fuel root opts now duration = Some r.
Proof.
  intros Hdirs Hf. unfold capture. destruct (fs_canonicalize root) as [p|e]; [|eauto].
  destruct (fs_metadata p) as [md|e]; [|eauto]. destruct (negb _); [eauto|].
  destruct (build_tree_ends dirs (all_options opts) Hdirs fuel p [] builder_new)
    as (x & b & Heq & _).
  { cbn. by rewrite difference_empty_L. }
  fold (all_options opts). rewrite Heq. cbn. eauto.
Qed.

(** A file system that is a table from absolute paths, with absolute links. *)
Module FsSample.

Inductive item : Type :=
| IFile (mode : N) (content : bytes)
| ILink (mode : N) (target : rstr)
| IDir (mode : N) (names : list rstr)
| IClosed (type : FileType) (mode : N).

Definition table : Type := list (rstr * item).

Definition find (t : table) (p : rstr) : option item :=
  snd <$> List.find (λ e, bool_decide (e.1 = p)) t.

Lemma find_elem t p i : find t p = Some i → (p, i) ∈ t.
Proof.
  unfold find. intros ([q j] & Hf & ->)%fmap_Some. apply find_some in Hf as [Hin Hq].
  apply bool_decide_eq_true in Hq. cbn in Hq. subst q. by apply list_elem_of_In.
Qed.

(** The real path of what is at [parts] below [cur]. *)
Fixpoint real (fuel : nat) (t : table) (cur : rstr) (parts : list rstr) : option rstr :=
  match fuel, parts with
  | O, _ => None
  | S _, [] => Some cur
  | S fuel, part :: rest =>
      let next := cur ++ slash :: part in
      match find t next with
      | Some (ILink _ target) => real fuel t [] (split_path target ++ rest)
      | Some _ => real fuel t next rest
      | None => None
      end
  end.

Definition no_entry : rstr := $"No such file or directory (os error 2)".
Definition denied : rstr := $"Permission denied (os error 13)".

Definition item_metadata (i : item) : FsMetadata :=
  match i with
  | IFile mode content => mkFsMetadata FtFile mode (len content)
  | ILink mode target => mkFsMetadata FtSymlink mode (len target)
  | IDir mode _ => mkFsMetadata FtDir mode 0
  | IClosed type mode => mkFsMetadata type mode 0
  end.

(** What is at a path, following all links or all but the last. *)
Definition at_real (t : table) (p : rstr) : option item := r ← real 50 t [] (split_path p); find t r.
Definition at_path (t : table) (p : rstr) : option item :=
  r ← real 50 t [] (removelast (split_path p));
  name ← last (split_path p);
  find t (r ++ slash :: name).

Definition fs (t : table) : ClientFs := {|
  fs_canonicalize p := ok_or no_entry (real 50 t [] (split_path p));
  fs_metadata p := ok_or no_entry (item_metadata <$> at_real t p);
  fs_symlink_metadata p := ok_or no_entry (item_metadata <$> at_path t p);
  fs_read_dir p :=
    match at_real t p with
    | Some (IDir _ names) =>
        Ok (map (λ name, Some (mkDirEntry name
          (md_type <$> (item_metadata <$> at_path t (path_join p name))))) names)
    | Some _ => Err denied
    | None => Err no_entry
    end;
  fs_read_link p :=
    match at_path t p with Some (ILink _ target) => Ok target | _ => Err no_entry end;
  fs_read p :=
    match at_real t p with
    | Some (IFile _ content) => Ok content
    | Some _ => Err denied
    | None => Err no_entry
    end
|}.

Definition dirs_of (t : table) : gset rstr := list_to_set (map fst t).

Lemma table_real_dirs t : @real_dirs (fs t) (dirs_of t).
Proof.
  intros p dir. unfold fs_read_dir, fs_canonicalize, fs, at_real.
  generalize (real 50 t [] (split_path p)). intros [r|] Hd; [|discriminate Hd].
  exists r. split; [reflexivity|]. cbn [mbind option_bind] in Hd.
  apply elem_of_list_to_set, list_elem_of_fmap.
  destruct (find t r) as [i|] eqn:Hf; [|discriminate Hd]. apply find_elem in Hf. by exists (r, i).
Qed.

#[export] Instance glob : Glob := λ pattern path, Some (bool_decide (pattern = path)).
#[export] Existing Instance RmpSample.encode.
#[export] Existing Instance Sample.blake.

(** A directory with a link to itself. *)
Definition cyclic : table :=
  [($"/r", IDir 493 [$"a"; $"up"]); ($"/r/a", IFile 420 ($"hello"));
   ($"/r/up", ILink 511 ($"/r"))].

Definition follow : list (Options → Options) := [with_follow_symlinks].

Lemma capture_terminates_witness :
  (size (dirs_of cyclic) < 4)%nat ∧ ∃ r, @capture _ _ _ (fs cyclic) 4 ($"/r") follow 0 0 = Some r.
Proof.
  assert (Hs : (size (dirs_of cyclic) < 4)%nat) by (vm_compute; lia).
  split; [exact Hs|].
  exact (@capture_terminates _ _ _ (fs cyclic) (dirs_of cyclic) 4 ($"/r") follow 0 0
    (table_real_dirs cyclic) Hs).
Defined.

Example cycle_found :
  @capture _ _ _ (fs cyclic) 4 ($"/r") follow 0 0
  = Some (Err (mkFstreeError CyclicLink ($"cyclic symbolic link detected")))
  ∧ (is_ok <$> @capture _ _ _ (fs cyclic) 4 ($"/r") [] 0 0) = Some true.
Proof. by vm_compute. Qed.

(** A directory that may not be read stays marked as being visited: a link to it, without any
    cycle, ends the capture with the error for cycles. Without the link, it is skipped. *)
Definition closed : table :=
  [($"/r", IDir 493 [$"a"; $"private"; $"link"]); ($"/r/a", IFile 420 ($"hello"));
   ($"/r/private", IClosed FtDir 448); ($"/r/link", ILink 511 ($"/r/private"))].

Example unreadable_directory_is_a_cycle :
  @capture _ _ _ (fs closed) 5 ($"/r") follow 0 0
  = Some (Err (mkFstreeError CyclicLink ($"cyclic symbolic link detected")))
  ∧ (is_ok <$> @capture _ _ _ (fs (take 3 closed)) 5 ($"/r") follow 0 0) = Some true.
Proof. by vm_compute. Qed.

(** A file that is too large and would be skipped still meets the limit on files. *)
Definition two : table :=
  [($"/r", IDir 493 [$"a"; $"big"]); ($"/r/a", IFile 420 ($"hi"));
   ($"/r/big", IFile 420 ($"too large"))].

Example skipped_file_meets_the_limit :
  @capture _ _ _ (fs two) 5 ($"/r") [with_max_files 1; with_max_file_size 5] 0 0
  = Some (Err (mkFstreeError TooManyFiles ($"too many files")))
  ∧ (is_ok <$> @capture _ _ _ (fs two) 5 ($"/r") [with_max_files 2; with_max_file_size 5] 0 0)
    = Some true.
Proof. by vm_compute. Qed.

End FsSample.
