(* ===== verification/FsTreeReads.v ===== *)
(** * FsTreeReads: reading snapshots and comparing them

    A snapshot that holds a tree ([captured]) is read like the tree: [walk] visits its
    entries in the order of their names, paths lead to the files that were there, and [diff] finds the
    paths that were added, removed and changed. *)

From S2P Require Import Prelude Bytes External ClientWire Encoding FsTree FsTreeSpec.

Open Scope N_scope.

(** ** Trees that fit their encoding *)

Definition entry_fits (e : TreeEntry) : Prop :=
  len (te_name e) < U32 ∧ utf8_valid (te_name e) = true ∧ te_kind e < 256 ∧ te_mode e < U32
  ∧ te_size e < U64 ∧ len (te_hash e) = 32.

Inductive node_fits : Node → Prop :=
| fits_file mode content :
    mode < 4096 → len content < 9223372036854775808 → node_fits (NFile mode content)
| fits_link mode target : mode < 4096 → len target < U64 → node_fits (NLink mode target)
| fits_dir mode children :
    mode < 4096 → children_ok children → (∀ c, c ∈ children → node_fits c.2) →
    node_fits (NDir mode children).

Lemma masked_mode mode : N.land mode 4095 < 4096.
Proof. change 4095 with (N.ones 12). rewrite N.land_ones. by apply N.mod_lt. Qed.

Section kept_fits.
Context `{Glob} (opts : Options).

Lemma kept_names rel cs : map fst (kept_children opts rel cs) `sublist_of` map fst cs.
Proof.
  unfold kept_children. induction cs as [|c cs IH]; [done|]. cbn [map concat].
  rewrite map_app. unfold kept_child at 1. destruct (excluded _ _ _); [by constructor|].
  destruct (kept _ _ _) as [n|]; cbn; by constructor.
Qed.

Lemma elem_of_kept rel cs d : d ∈ kept_children opts rel cs →
  ∃ c, c ∈ cs ∧ d.1 = c.1 ∧ kept opts (path_join rel c.1) c.2 = Some d.2.
Proof.
  unfold kept_children. rewrite elem_of_concat_map. intros (c & Hc & Hd). exists c. split; [done|].
  unfold kept_child in Hd. destruct (excluded _ _ _); [by apply elem_of_nil in Hd|].
  destruct (kept _ _ _) as [n|]; [|by apply elem_of_nil in Hd].
  by apply list_elem_of_singleton in Hd as ->.
Qed.

Lemma kept_children_ok rel cs : children_ok cs → children_ok (kept_children opts rel cs).
Proof.
  intros (Hnd & Hl & Hn). pose proof (kept_names rel cs) as Hsub. split; [|split].
  - by eapply sublist_NoDup.
  - apply sublist_length in Hsub. rewrite !length_map in Hsub. unfold len in *. lia.
  - apply Forall_forall. intros d (c & Hc & -> & _)%elem_of_kept.
    rewrite Forall_forall in Hn. by apply Hn.
Qed.
End kept_fits.

Section holds_fits.
Context `{Glob} `{ClientFs} (opts : Options).

Lemma kept_fits n : ∀ rel p n', holds p n → kept opts rel n = Some n' → node_fits n'.
Proof.
  apply (Node_nested (λ n, ∀ rel p n', holds p n → kept opts rel n = Some n' → node_fits n')); clear n.
  - intros [mode content|mode target|mode cs|type mode size]; try done;
      intros rel p n' Hhold; inversion Hhold; subst; cbn.
    + destruct (too_large _ _); [done|]. intros [= <-]. constructor; [apply masked_mode|done].
    + intros [= <-]. constructor; [apply masked_mode|done].
  - intros mode cs IH rel p n' Hhold. inversion Hhold as [| |? ? ? ? _ _ _ Hok Hch|]; subst.
    rewrite kept_dir. intros [= <-]. constructor; [apply masked_mode|by apply kept_children_ok|].
    intros d (c & Hc & _ & Hk)%elem_of_kept. rewrite Forall_forall in IH.
    eapply (IH c Hc); [by apply Hch|done].
Qed.
End holds_fits.

(** ** Listing *)

Definition sort_children (cs : list (rstr * Node)) : list (rstr * Node) :=
  sort_by (λ a b, str_le a.1 b.1) cs.

Section listing.
Context `{RmpEncode} `{Blake3}.

(** The entries below a node with their paths, by name, a directory before what is in it. *)
Fixpoint listing (prefix : rstr) (n : Node) : list (rstr * TreeEntry) :=
  match n with
  | NDir _ cs =>
      concat (map snd (sort_by (λ a b, str_le a.1 b.1) (map (λ c,
        (c.1, (path_join prefix c.1, child_entry c) :: listing (path_join prefix c.1) c.2)) cs)))
  | _ => []
  end.

Definition list_child (prefix : rstr) (c : rstr * Node) : list (rstr * TreeEntry) :=
  (path_join prefix c.1, child_entry c) :: listing (path_join prefix c.1) c.2.

Lemma listing_dir prefix mode cs :
  listing prefix (NDir mode cs) = concat (map (list_child prefix) (sort_children cs)).
Proof.
  cbn [listing]. unfold sort_children.
  rewrite (sort_by_map (λ c, (c.1, list_child prefix c)) (λ a b, str_le a.1 b.1)) by done.
  by rewrite map_map.
Qed.

Lemma sort_entries_children cs :
  sort_entries (map child_entry cs) = map child_entry (sort_children cs).
Proof. by apply (sort_by_map child_entry (λ a b, str_le a.1 b.1)). Qed.

Lemma elem_of_sort_children c cs : c ∈ sort_children cs ↔ c ∈ cs.
Proof. apply elem_of_sort_by. Qed.
End listing.

(** ** Reading back the entries of a tree *)

(** The fields that a reader finds in an entry. *)
Definition entry_fields (e : TreeEntry) : list (Value * Value) :=
  [(VString ($"1"), VString (te_name e)); (VString ($"2"), VInteger (Z.of_N (te_kind e)));
   (VString ($"3"), VInteger (Z.of_N (te_mode e))); (VString ($"4"), VInteger (Z.of_N (te_size e)));
   (VString ($"5"), VBinary (te_hash e))].

Definition entry_reads (e : TreeEntry) (v : Value) : Prop :=
  ∃ m, v = VMap m ∧ m ≡ₚ entry_fields e.

(** The derived [Deserialize]: an array of maps from the names of the fields, in any order. *)
Class TreeReaderLaws `{Msgpack} `{TreeReader} : Prop :=
  from_slice_reads : ∀ bs vs es, msgpack_read bs = Ok (VArray vs) →
    Forall entry_fits es → Forall2 entry_reads es vs → tree_from_slice bs = Some es.

Lemma int_as_u64_of n : n < U64 → int_as_u64 (Z.of_N n) = Some n.
Proof.
  intros Hn. unfold int_as_u64.
  rewrite (proj2 (Z.leb_le _ _)), (proj2 (Z.ltb_lt _ _)) by lia. cbn. by rewrite N2Z.id.
Qed.

Section read_back.
Context `{RmpLaws}.

Lemma tree_entry_wf e : entry_fits e → serde_wf (tree_entry_value e).
Proof. intros (? & ? & ? & ? & ? & Hl). cbn. rewrite Hl. by split_and!. Qed.

Lemma entry_value_reads e : entry_reads e (to_rmpv (tree_entry_value e)).
Proof.
  unfold tree_entry_value. rewrite to_rmpv_map. eexists. split; [done|].
  unfold sorted_entries. by rewrite sort_by_perm.
Qed.

Lemma entries_read es :
  len es < U32 → Forall entry_fits es →
  ∃ vs, msgpack_read (encode_entries es) = Ok (VArray vs) ∧ Forall2 entry_reads es vs.
Proof.
  intros Hl Hes. unfold encode_entries. rewrite encode_reads.
  - eexists. split; [done|]. clear. induction es; constructor; [apply entry_value_reads|done].
  - cbn. split; [unfold len in *; by rewrite length_map|].
    clear Hl. induction Hes; cbn; [done|]. split; [by apply tree_entry_wf|done].
Qed.

Lemma deserialize_encoded `{!TreeReader} `{!TreeReaderLaws} io_text es :
  len es < U32 → Forall entry_fits es → deserialize_tree io_text (encode_entries es) = Ok es.
Proof.
  intros Hl Hes. destruct (entries_read es Hl Hes) as (vs & Hread & Hvs).
  unfold deserialize_tree, decode_msgpack_into. by rewrite (from_slice_reads _ vs es).
Qed.
End read_back.

Lemma node_kind_lt n : node_kind n < 256.
Proof. unfold node_kind. by destruct (node_type n). Qed.

Lemma child_entry_fits `{RmpEncode} `{Blake3Laws} c :
  name_ok c.1 ∧ utf8_valid c.1 = true ∧ len c.1 < U32 → node_fits c.2 → entry_fits (child_entry c).
Proof.
  intros (_ & Hu & Hl) Hn. unfold entry_fits, child_entry, node_entry, node_hash. cbn.
  rewrite blake3_length. assert (Hm : node_mode c.2 < 4096 ∧ node_size c.2 < U64)
    by (inversion Hn; cbn; split; lia || done).
  split_and!; [done|done|apply node_kind_lt|lia|apply Hm|done].
Qed.

Lemma children_entries_fit `{RmpEncode} `{Blake3Laws} mode cs :
  node_fits (NDir mode cs) →
  len (sort_entries (map child_entry cs)) < U32
  ∧ Forall entry_fits (sort_entries (map child_entry cs)).
Proof.
  inversion 1 as [| |? ? _ (_ & Hl & Hn) Hch]; subst. rewrite sort_entries_children. split.
  - unfold len, sort_children. rewrite length_map, length_sort_by. exact Hl.
  - apply Forall_forall. intros e (c & -> & Hc)%list_elem_of_fmap.
    rewrite elem_of_sort_children in Hc. rewrite Forall_forall in Hn.
    apply child_entry_fits; [by apply Hn|by apply Hch].
Qed.

(** ** Walking a snapshot *)

(** The callback on a list of entries, ending at its first error. *)
Definition visit {W} (f : rstr → TreeEntry → W → result FstreeError unit * W)
    (l : list (rstr * TreeEntry)) (s : W) : result FstreeError unit * W :=
  try_each (λ pe, f pe.1 pe.2) l s.

Lemma visit_app {W} (f : rstr → TreeEntry → W → result FstreeError unit * W) l k s :
  visit f (l ++ k) s
  = match visit f l s with (Ok _, s) => visit f k s | (Err e, s) => (Err e, s) end.
Proof.
  unfold visit. revert s. induction l as [|a l IH]; intros s; [done|]. cbn.
  destruct (f _ _ s) as [[]]; [apply IH|done].
Qed.

(** No two different byte strings of the list have the same hash. *)
Definition no_collision `{Blake3} (l : list bytes) : Prop :=
  ∀ a b, a ∈ l → b ∈ l → blake3 a = blake3 b → a = b.

Definition has_trees `{Blake3} (sn : Snapshot) (l : list bytes) : Prop :=
  ∀ t, t ∈ l → sn_trees sn !! blake3 t = Some t.

(** Insertions under a key of the value. *)
Section insert_all.
Context {A K : Type} `{Countable K} (key : A → K).

Definition insert_all (l : list A) (m : gmap K A) : gmap K A :=
  foldl (λ m a, <[key a := a]> m) m l.

Lemma insert_all_lookup l : ∀ m k a, insert_all l m !! k = Some a → (a ∈ l ∧ key a = k) ∨ m !! k = Some a.
Proof.
  induction l as [|b l IH]; intros m k a; [by right|]. cbn.
  intros [[? ?]|Hm]%IH; [left; split; [by right|done]|].
  apply lookup_insert_Some in Hm as [[? ->]|[_ ?]]; [left; split; [by left|done]|by right].
Qed.

Lemma insert_all_kept l : ∀ m k, is_Some (m !! k) → is_Some (insert_all l m !! k).
Proof.
  induction l as [|b l IH]; intros m k Hm; [done|]. apply IH, lookup_insert_is_Some'. by right.
Qed.

Lemma insert_all_in l : ∀ m a, a ∈ l → is_Some (insert_all l m !! key a).
Proof.
  induction l as [|b l IH]; intros m a; [by intros ?%elem_of_nil|].
  intros [->|Ha]%elem_of_cons; [|by apply IH].
  apply (insert_all_kept l). rewrite lookup_insert_eq. eauto.
Qed.
End insert_all.

Section captured.
Context `{RmpEncode} `{Blake3}.

Lemma captured_trees p n sn : captured p n sn → no_collision (tree_list n) →
  has_trees sn (tree_list n).
Proof.
  intros (_ & Ht & _) Hnc t Hin. rewrite Ht. fold (insert_all blake3 (tree_list n) ∅).
  destruct (insert_all_in blake3 (tree_list n) ∅ t Hin) as [t' Ht'].
  pose proof Ht' as [[Hin' Hh]|?%lookup_empty_Some]%insert_all_lookup; [|done].
  rewrite Ht'. f_equal. by apply Hnc.
Qed.

Lemma tree_list_child mode cs c : c ∈ cs → tree_list c.2 ⊆ tree_list (NDir mode cs).
Proof.
  intros Hc t Ht. cbn [tree_list]. apply elem_of_app. left. apply elem_of_concat_map. by exists c.
Qed.

Lemma tree_list_self mode cs : node_blob (NDir mode cs) ∈ tree_list (NDir mode cs).
Proof. cbn [tree_list]. apply elem_of_app. right. by left. Qed.
End captured.

Lemma entry_path_join prefix e : entry_path prefix e = path_join prefix (te_name e).
Proof.
  unfold entry_path. case_bool_decide; [|done]. subst. by rewrite path_join_nil.
Qed.

Section walk.
Context `{RmpLaws} `{Blake3Laws} `{TreeReader} `{!TreeReaderLaws} (io_text : io_kind → rstr).

(** The trees of a snapshot that has them are read as they were written. *)
Lemma get_tree_dir sn mode cs :
  node_fits (NDir mode cs) → has_trees sn (tree_list (NDir mode cs)) →
  get_tree io_text sn (node_hash (NDir mode cs)) = Ok (map child_entry (sort_children cs)).
Proof.
  intros Hfits Ht. unfold get_tree, node_hash. rewrite (Ht _ (tree_list_self mode cs)).
  cbn [ok_or mbind result_bind]. destruct (children_entries_fit mode cs Hfits) as [Hl He].
  rewrite node_blob_dir, deserialize_encoded by done. by rewrite sort_entries_children.
Qed.

Section visitor.
Context {W : Type} (f : rstr → TreeEntry → W → result FstreeError unit * W) (sn : Snapshot).

Definition walks (fuel : nat) (n : Node) : Prop := ∀ prefix s,
  walk_tree io_text f fuel sn (node_hash n) prefix s = Some (visit f (listing prefix n) s).

Lemma walk_children fuel prefix ds :
  (∀ c, c ∈ ds → node_type c.2 = FtDir → walks fuel c.2) → ∀ s,
  walk_entries f (walk_tree io_text f fuel sn) prefix (map child_entry ds) s
  = Some (visit f (concat (map (list_child prefix) ds)) s).
Proof.
  induction ds as [|c ds IH]; intros Hds s; [done|].
  specialize (IH ltac:(intros d ?; apply Hds; by right)).
  cbn [map concat walk_entries]. rewrite visit_app, entry_path_join.
  change (te_name (child_entry c)) with c.1. unfold list_child at 1, visit at 1.
  cbn [try_each fst snd].
  destruct (f _ _ s) as [[[]|e] s1]; [|done]. fold (visit f (listing (path_join prefix c.1) c.2) s1).
  change (te_kind (child_entry c)) with (node_kind c.2).
  change (te_hash (child_entry c)) with (node_hash c.2).
  destruct (decide (node_type c.2 = FtDir)) as [Hdir|Hdir].
  - unfold node_kind. rewrite Hdir. cbn [N.eqb Pos.eqb EntryKindDirectory].
    rewrite (Hds c ltac:(by left) Hdir). cbn [mbind option_bind].
    destruct (visit f _ s1) as [[[]|e] s2]; [apply IH|done].
  - assert (Hkind : node_kind c.2 =? EntryKindDirectory = false).
    { unfold node_kind. by destruct (node_type c.2). }
    rewrite Hkind. assert (Hl : listing (path_join prefix c.1) c.2 = []) by by destruct c.2.
    rewrite Hl. apply IH.
Qed.

Lemma walk_listing n : ∀ fuel,
  node_fits n → has_trees sn (tree_list n) → (height n ≤ fuel)%nat → node_type n = FtDir →
  walks fuel n.
Proof.
  apply (Node_nested (λ n, ∀ fuel, node_fits n → has_trees sn (tree_list n) →
    (height n ≤ fuel)%nat → node_type n = FtDir → walks fuel n)); clear n.
  { intros [| | |]; try done. intros ? Hn. inversion Hn. }
  intros mode cs IH fuel Hfits Ht Hfuel _ prefix s.
  destruct fuel as [|fuel]; [cbn in Hfuel; lia|]. cbn [walk_tree].
  rewrite get_tree_dir, listing_dir by done. apply walk_children.
  intros c Hc Hdir. rewrite elem_of_sort_children in Hc. rewrite Forall_forall in IH.
  inversion Hfits as [| |? ? _ _ Hch]; subst.
  apply (IH c Hc); [by apply Hch| | |done].
  - intros t Htc. by eapply Ht, tree_list_child.
  - apply (height_child mode) in Hc. lia.
Qed.
End visitor.

(** ** Lists of files *)

Lemma visit_pure {W} (g : rstr → TreeEntry → W → W) l : ∀ s,
  visit (λ p e s, (Ok tt, g p e s)) l s = (Ok tt, foldl (λ s pe, g pe.1 pe.2 s) s l).
Proof. unfold visit. induction l as [|a l IH]; intros s; [done|apply IH]. Qed.

Definition is_file_entry (pe : rstr * TreeEntry) : Prop := te_kind pe.2 = EntryKindFile.
#[export] Instance is_file_entry_dec pe : Decision (is_file_entry pe).
Proof. unfold is_file_entry. apply _. Defined.

(** The paths of the files, in the order of a walk. *)
Definition file_paths (n : Node) : list rstr := map fst (filter is_file_entry (listing [] n)).

(** The paths that are not directories with their hashes. *)
Definition is_leaf (e : TreeEntry) : bool :=
  (te_kind e =? EntryKindFile) || (te_kind e =? EntryKindSymlink).
Definition leaves (n : Node) : gmap rstr bytes :=
  foldl (λ m pe, if is_leaf pe.2 then <[pe.1 := te_hash pe.2]> m else m) ∅ (listing [] n).

Section snapshots.
Variables (p : rstr) (n : Node) (sn : Snapshot) (fuel : nat).
Hypothesis (Hfits : node_fits n) (Hdir : node_type n = FtDir) (Hcap : captured p n sn)
  (Hnc : no_collision (tree_list n)) (Hfuel : (height n ≤ fuel)%nat).

Lemma walk_captured {W} (f : rstr → TreeEntry → W → result FstreeError unit * W) s :
  walk io_text f fuel sn s = Some (visit f (listing [] n) s).
Proof.
  unfold walk. destruct Hcap as [-> _]. apply walk_listing; [done| |done|done].
  by eapply captured_trees.
Qed.

Lemma list_files_captured : list_files io_text fuel sn = Some (Ok (file_paths n)).
Proof.
  unfold list_files. rewrite walk_captured.
  unfold push_file. rewrite (visit_pure (λ path entry paths,
    if te_kind entry =? EntryKindFile then paths ++ [path] else paths)).
  cbn. f_equal. f_equal. unfold file_paths.
  enough (∀ l acc, foldl (λ s pe, if te_kind pe.2 =? EntryKindFile then s ++ [pe.1] else s) acc l
    = acc ++ map fst (filter is_file_entry l)) as -> by done.
  induction l as [|pe l IH]; intros acc; [by rewrite app_nil_r|]. cbn [foldl].
  rewrite IH, filter_cons. unfold is_file_entry at 2.
  destruct (N.eqb_spec (te_kind pe.2) EntryKindFile).
  - rewrite decide_True by done. cbn. by rewrite <- app_assoc.
  - by rewrite decide_False.
Qed.

Lemma leaf_paths_captured : leaf_paths io_text fuel sn = Some (Ok (leaves n)).
Proof.
  unfold leaf_paths. rewrite walk_captured. unfold insert_leaf.
  by rewrite (visit_pure (λ path entry (m : gmap rstr bytes),
    if is_leaf entry then <[path := te_hash entry]> m else m)).
Qed.
End snapshots.
End walk.

(** ** Paths of a listing *)

Section paths.
Context `{RmpEncode} `{Blake3}.

Lemma listing_below n : ∀ q v e, node_fits n → (v, e) ∈ listing q n → ∃ s, s ≠ [] ∧ v = base q ++ s.
Proof.
  apply (Node_nested (λ n, ∀ q v e, node_fits n → (v, e) ∈ listing q n →
    ∃ s, s ≠ [] ∧ v = base q ++ s)); clear n.
  { intros [| | |]; try done; intros q v e _ Hin; by apply elem_of_nil in Hin. }
  intros mode cs IH q v e Hfits. inversion Hfits as [| |? ? _ (_ & _ & Hn) Hch]; subst.
  rewrite listing_dir, elem_of_concat_map. intros (c & Hc & Hin).
  rewrite elem_of_sort_children in Hc.
  rewrite Forall_forall in IH, Hn. destruct (Hn _ Hc) as [Hok _].
  apply elem_of_cons in Hin as [[= -> ->]|Hin].
  - exists c.1. split; [apply Hok|by apply path_join_base].
  - destruct (IH _ Hc _ _ _ (Hch _ Hc) Hin) as (s & _ & ->). rewrite base_join by done.
    exists (c.1 ++ [slash] ++ s). split; [|by rewrite <- !app_assoc].
    intros Heq. by apply app_eq_nil in Heq as [_ ?].
Qed.

Lemma child_below prefix c v e :
  node_fits c.2 → (v, e) ∈ list_child prefix c → below (path_join prefix c.1) v.
Proof.
  intros Hf [[= -> ->]|Hin]%elem_of_cons; [by left|right].
  destruct (listing_below _ _ _ _ Hf Hin) as (s & _ & ->). by exists s.
Qed.

Lemma listing_paths_distinct n : ∀ prefix, node_fits n → NoDup (map fst (listing prefix n)).
Proof.
  apply (Node_nested (λ n, ∀ prefix, node_fits n → NoDup (map fst (listing prefix n)))); clear n.
  { intros [| | |]; try done; intros; by apply NoDup_nil_2. }
  intros mode cs IH prefix Hfits. inversion Hfits as [| |? ? _ (Hnd & _ & Hn) Hch]; subst.
  rewrite listing_dir.
  assert (Hds : NoDup (map fst (sort_children cs)) ∧ ∀ c, c ∈ sort_children cs → c ∈ cs).
  { split; [|intros c; by rewrite elem_of_sort_children].
    unfold sort_children. by rewrite sort_by_perm. }
  revert Hds. generalize (sort_children cs). intros ds [Hds Hsub]. rewrite Forall_forall in IH, Hn.
  induction ds as [|c ds IHds]; [by apply NoDup_nil_2|].
  apply NoDup_cons in Hds as [Hnew Hds]. cbn [map concat]. rewrite map_app.
  assert (Hc : c ∈ cs) by (apply Hsub; by left). destruct (Hn _ Hc) as [Hok _].
  apply NoDup_app. split; [|split].
  - cbn. apply NoDup_cons. split; [|by apply IH, Hch].
    intros ([v e] & Heq & Hin)%list_elem_of_fmap. cbn in Heq. subst v.
    destruct (listing_below _ _ _ _ (Hch _ Hc) Hin) as (s & Hs & Heq).
    apply (f_equal length) in Heq. rewrite base_join, path_join_base, !length_app in Heq by done.
    cbn in Heq. lia.
  - intros v ([v1 e] & -> & Hin)%list_elem_of_fmap ([v2 e'] & Heq & Hin')%list_elem_of_fmap.
    cbn in Heq. subst v2. apply elem_of_concat_map in Hin' as (d & Hd & Hin').
    assert (Hdc : d ∈ cs) by (apply Hsub; by right). destruct (Hn _ Hdc) as [Hokd _].
    apply Hnew, list_elem_of_fmap. exists d. split; [|done].
    eapply (below_disjoint prefix _ _ v1); [done|done| |].
    + eapply child_below; [by apply Hch|exact Hin].
    + eapply child_below; [by apply Hch|exact Hin'].
  - apply IHds; [done|]. intros d ?. apply Hsub. by right.
Qed.

(** A path is a leaf of the map exactly when the walk meets it. *)
Lemma leaves_spec n path h : node_fits n →
  leaves n !! path = Some h ↔ ∃ e, (path, e) ∈ listing [] n ∧ is_leaf e = true ∧ te_hash e = h.
Proof.
  intros Hfits. pose proof (listing_paths_distinct n [] Hfits) as Hnd. unfold leaves.
  revert Hnd. induction (listing [] n) as [|[v e] l IH] using rev_ind; intros Hnd.
  { cbn. rewrite lookup_empty. split; [done|]. by intros (? & ?%elem_of_nil & _). }
  rewrite map_app, NoDup_app in Hnd. destruct Hnd as (Hnd & Hnew & _). specialize (IH Hnd).
  rewrite foldl_app. cbn [foldl fst snd]. setoid_rewrite elem_of_app.
  setoid_rewrite list_elem_of_singleton.
  assert (Hv : ∀ e', (v, e') ∉ l).
  { intros e' Hin. apply (Hnew v); [by apply list_elem_of_fmap; eexists (_, _)|]. by left. }
  destruct (is_leaf e) eqn:Hleaf.
  - destruct (decide (path = v)) as [->|Hne].
    + rewrite lookup_insert_eq. split; [intros [= <-]; exists e; auto|].
      intros (e' & [Hin|[= <-]] & _ & <-); [by apply Hv in Hin|done].
    + rewrite lookup_insert_ne by done. rewrite IH. naive_solver.
  - rewrite IH. split; [naive_solver|]. intros (e' & [Hin|[= -> <-]] & Hl & Hh); [eauto|congruence].
Qed.
End paths.

(** ** Equal hashes *)

Section same_hash.
Context `{RmpLaws} `{Blake3Laws} `{TreeReader} `{!TreeReaderLaws}.

(** Entries are encoded injectively. *)
Lemma encode_entries_inj es1 es2 :
  len es1 < U32 → Forall entry_fits es1 → len es2 < U32 → Forall entry_fits es2 →
  encode_entries es1 = encode_entries es2 → es1 = es2.
Proof.
  intros Hl1 Hf1 Hl2 Hf2 Heq.
  pose proof (deserialize_encoded (λ _, []) es1 Hl1 Hf1) as H1'.
  pose proof (deserialize_encoded (λ _, []) es2 Hl2 Hf2) as H2'. rewrite Heq in H1'. congruence.
Qed.

Lemma child_entry_inv c1 c2 : child_entry c1 = child_entry c2 →
  c1.1 = c2.1 ∧ node_type c1.2 = node_type c2.2 ∧ node_hash c1.2 = node_hash c2.2.
Proof.
  intros [= Hn Hk _ _ Hh]. split; [done|]. split; [|done].
  unfold node_kind in Hk. by destruct (node_type c1.2), (node_type c2.2).
Qed.

Lemma same_entries_listing prefix ds1 ds2 :
  map child_entry ds1 = map child_entry ds2 →
  (∀ c1 c2 q, c1 ∈ ds1 → c2 ∈ ds2 → child_entry c1 = child_entry c2 →
     listing q c1.2 = listing q c2.2) →
  concat (map (list_child prefix) ds1) = concat (map (list_child prefix) ds2).
Proof.
  revert ds2. induction ds1 as [|c1 ds1 IH]; intros [|c2 ds2] Heq Hl; try done.
  cbn [map] in Heq. apply (inj2 cons) in Heq as [He Heq]. cbn [map concat]. f_equal.
  - unfold list_child. rewrite He, (Hl c1 c2) by (done || by left).
    by destruct (child_entry_inv _ _ He) as [-> _].
  - apply IH; [done|]. intros; apply Hl; [by right|by right|done].
Qed.

Lemma listing_leaf prefix n : node_type n ≠ FtDir → listing prefix n = [].
Proof. by destruct n. Qed.

(** Where hashes do not collide, directories with the same hash have the same listing. *)
Lemma same_hash_listing n1 : ∀ n2 prefix,
  node_type n1 = FtDir → node_type n2 = FtDir → node_fits n1 → node_fits n2 →
  no_collision (tree_list n1 ++ tree_list n2) → node_hash n1 = node_hash n2 →
  listing prefix n1 = listing prefix n2.
Proof.
  apply (Node_nested (λ n1, ∀ n2 prefix,
    node_type n1 = FtDir → node_type n2 = FtDir → node_fits n1 → node_fits n2 →
    no_collision (tree_list n1 ++ tree_list n2) → node_hash n1 = node_hash n2 →
    listing prefix n1 = listing prefix n2)); clear n1.
  { intros [| | |]; try done. intros ? ? _ _ Hf. inversion Hf. }
  intros m1 cs1 IH [| |m2 cs2|] prefix _ Hdir Hf1 Hf2 Hnc Hhash; try done; [|inversion Hf2].
  apply Hnc in Hhash; [|apply elem_of_app; left; apply tree_list_self|
    apply elem_of_app; right; apply tree_list_self].
  destruct (children_entries_fit _ _ Hf1) as [Hl1 He1].
  destruct (children_entries_fit _ _ Hf2) as [Hl2 He2].
  rewrite !node_blob_dir in Hhash. apply encode_entries_inj in Hhash; [|done..].
  rewrite !sort_entries_children in Hhash. rewrite !listing_dir.
  apply same_entries_listing; [done|]. intros c1 c2 q Hc1 Hc2 He.
  rewrite elem_of_sort_children in Hc1, Hc2.
  apply child_entry_inv in He as (_ & Ht & Hh).
  destruct (decide (node_type c1.2 = FtDir)) as [Hd|Hd];
    [|by rewrite !listing_leaf by (by rewrite <- ?Ht)].
  inversion Hf1 as [| |? ? _ _ Hch1]; inversion Hf2 as [| |? ? _ _ Hch2]; subst.
  rewrite Forall_forall in IH.
  apply (IH _ Hc1); [done|by rewrite <- Ht|by apply Hch1|by apply Hch2| |done].
  intros a b Ha Hb. apply Hnc; rewrite elem_of_app in *.
  - destruct Ha as [?|?]; [left|right]; by eapply tree_list_child.
  - destruct Hb as [?|?]; [left|right]; by eapply tree_list_child.
Qed.
End same_hash.

(** ** Differences *)

Section diff.
Context `{HashOrderLaws}.

Definition is_added (old_paths : gmap rstr bytes) (kv : rstr * bytes) : Prop :=
  old_paths !! kv.1 = None.
Definition is_modified (old_paths : gmap rstr bytes) (kv : rstr * bytes) : Prop :=
  old_paths !! kv.1 ≠ None ∧ old_paths !! kv.1 ≠ Some kv.2.
#[local] Instance is_added_dec old_paths kv : Decision (is_added old_paths kv).
Proof. unfold is_added. apply _. Defined.
#[local] Instance is_modified_dec old_paths kv : Decision (is_modified old_paths kv).
Proof. unfold is_modified. apply _. Defined.

Lemma note_new_filter old_paths r r0 r1 l : ∀ a m,
  foldl (note_new old_paths) (mkSnapshotDiff a r m r0 r1) l
  = mkSnapshotDiff (a ++ map fst (filter (is_added old_paths) l)) r
      (m ++ map fst (filter (is_modified old_paths) l)) r0 r1.
Proof.
  induction l as [|[path h] l IH]; intros a m; [by rewrite !app_nil_r|]. cbn [foldl].
  rewrite !filter_cons.
  destruct (decide (is_added old_paths (path, h))) as [Ha|Ha],
    (decide (is_modified old_paths (path, h))) as [Hm|Hm];
    unfold is_added, is_modified, note_new in *; cbn [fst snd map] in *.
  - by destruct Hm.
  - rewrite Ha. cbn. by rewrite IH, <- app_assoc.
  - destruct (old_paths !! path) as [h'|] eqn:Hp; [|by destruct Hm].
    destruct (decide (h' = h)) as [->|Hne]; [by destruct Hm|]. cbn. by rewrite IH, <- app_assoc.
  - destruct (old_paths !! path) as [h'|] eqn:Hp; [|done].
    destruct (decide (h' = h)) as [->|Hne]; [apply IH|]. exfalso. apply Hm. split; congruence.
Qed.

Lemma note_old_filter new_paths a m r0 r1 l : ∀ r,
  foldl (note_old new_paths) (mkSnapshotDiff a r m r0 r1) l
  = mkSnapshotDiff a (r ++ filter (λ path, new_paths !! path = None) l) m r0 r1.
Proof.
  induction l as [|path l IH]; intros r; [by rewrite app_nil_r|]. cbn [foldl].
  rewrite filter_cons. unfold note_old at 2.
  destruct (decide (is_Some (new_paths !! path))) as [[h Hh]|Hn],
    (decide (new_paths !! path = None)) as [Hn'|Hn'].
  - congruence.
  - apply IH.
  - cbn. by rewrite IH, <- app_assoc.
  - exfalso. apply Hn'. by apply eq_None_not_Some.
Qed.

Lemma hash_iter_lookup {V} (m : gmap rstr V) k v : (k, v) ∈ hash_iter m ↔ m !! k = Some v.
Proof. rewrite hash_iter_perm. apply elem_of_map_to_list. Qed.

Lemma hash_iter_keys {V} (m : gmap rstr V) : NoDup (map fst (hash_iter m)).
Proof. rewrite hash_iter_perm. apply NoDup_fst_map_to_list. Qed.

Lemma elem_of_fst_filter {V} (P : rstr * V → Prop) `{∀ x, Decision (P x)} (m : gmap rstr V) k :
  k ∈ map fst (filter P (hash_iter m)) ↔ ∃ v, m !! k = Some v ∧ P (k, v).
Proof.
  rewrite list_elem_of_fmap. setoid_rewrite list_elem_of_filter. split.
  - intros ([k' v] & -> & HP & Hin). rewrite hash_iter_lookup in Hin. by exists v.
  - intros (v & Hk & HP). exists (k, v). by rewrite hash_iter_lookup.
Qed.

(** [d] tells the map [new_paths] from [old_paths]. *)
Definition tells (new_paths old_paths : gmap rstr bytes) (d : SnapshotDiff) : Prop :=
  NoDup (sd_added d) ∧ NoDup (sd_removed d) ∧ NoDup (sd_modified d)
  ∧ (∀ path, path ∈ sd_added d ↔ is_Some (new_paths !! path) ∧ old_paths !! path = None)
  ∧ (∀ path, path ∈ sd_removed d ↔ is_Some (old_paths !! path) ∧ new_paths !! path = None)
  ∧ (∀ path, path ∈ sd_modified d ↔
       is_Some (new_paths !! path) ∧ is_Some (old_paths !! path)
       ∧ new_paths !! path ≠ old_paths !! path).

Lemma filter_keys_distinct {V} (P : rstr * V → Prop) `{∀ x, Decision (P x)} (m : gmap rstr V) :
  NoDup (map fst (filter P (hash_iter m))).
Proof.
  eapply sublist_NoDup; [apply (hash_iter_keys m)|]. apply fmap_sublist, sublist_filter.
Qed.

Lemma diff_paths_tells new_paths old_paths r0 r1 :
  let d := diff_paths new_paths old_paths (mkSnapshotDiff [] [] [] r0 r1) in
  sd_old_root d = r0 ∧ sd_new_root d = r1 ∧ tells new_paths old_paths d.
Proof.
  unfold diff_paths. rewrite note_new_filter, note_old_filter. cbn [app].
  split; [done|]. split; [done|]. split_and!; cbn [sd_added sd_removed sd_modified].
  - apply filter_keys_distinct.
  - apply NoDup_filter, hash_iter_keys.
  - apply filter_keys_distinct.
  - intros path. rewrite elem_of_fst_filter. unfold is_added, is_Some. cbn. naive_solver.
  - intros path. rewrite list_elem_of_filter, list_elem_of_fmap.
    split; [intros (Hn & [k v] & -> & Hin)|intros ([v Hv] & Hn)].
    + rewrite hash_iter_lookup in Hin. eauto.
    + split; [done|]. exists (path, v). by rewrite hash_iter_lookup.
  - intros path. rewrite elem_of_fst_filter. unfold is_modified, is_Some. cbn.
    split; [intros (v & -> & Ho & Hne)|intros ([v Hv] & [v' Hv'] & Hne)].
    + split_and!; [eauto| |congruence]. destruct (old_paths !! path); [eauto|done].
    + exists v. rewrite Hv, Hv' in *. split_and!; congruence.
Qed.

Lemma tells_same paths r0 r1 : tells paths paths (mkSnapshotDiff [] [] [] r0 r1).
Proof.
  split_and!; cbn; try apply NoDup_nil_2; intros path; rewrite elem_of_nil; unfold is_Some;
    (split; [done|]); naive_solver congruence.
Qed.
End diff.

(** ** The contents of files *)

(** The contents of the files below a node. *)
Fixpoint content_list (n : Node) : list bytes :=
  match n with
  | NFile _ content => [content]
  | NDir _ children => concat (map (λ c, content_list c.2) children)
  | _ => []
  end.

(** Everything that an upload of the tree sends. *)
Definition blobs `{RmpEncode} `{Blake3} (n : Node) : list bytes :=
  tree_list n ++ content_list n ++ link_list n.

(** The file system still has the contents that were recorded. *)
Definition backed `{Blake3} `{ClientFs} (p : rstr) (n : Node) : Prop :=
  ∀ f, f ∈ file_list p n → ∃ content, content ∈ content_list n ∧ fs_read (fr_path f) = Ok content
    ∧ fr_size f = len content ∧ fr_hash f = blake3 content.

Lemma content_list_child mode cs c : c ∈ cs → content_list c.2 ⊆ content_list (NDir mode cs).
Proof. intros Hc t Ht. apply elem_of_concat_map. by exists c. Qed.

Section contents.
Context `{Blake3} `{Glob} `{ClientFs} (opts : Options).

Lemma kept_backed n : ∀ rel p n', holds p n → kept opts rel n = Some n' → backed p n'.
Proof.
  apply (Node_nested (λ n, ∀ rel p n', holds p n → kept opts rel n = Some n' → backed p n')); clear n.
  - intros [mode content|mode target|mode cs|type mode size]; try done;
      intros rel p n' Hhold; inversion Hhold; subst; cbn.
    + destruct (too_large _ _); [done|]. intros [= <-] f Hf%list_elem_of_singleton. subst f.
      exists content. cbn. by split_and!; [left|..].
    + intros [= <-] f Hf. by apply elem_of_nil in Hf.
  - intros mode cs IH rel p n' Hhold. inversion Hhold as [| |? ? ? ? _ _ _ _ Hch|]; subst.
    rewrite kept_dir. intros [= <-] f. cbn [file_list]. rewrite elem_of_concat_map.
    intros (d & Hd & Hf). pose proof Hd as (c & Hc & Hn & Hk)%elem_of_kept. rewrite Hn in Hf.
    rewrite Forall_forall in IH. destruct (IH c Hc _ _ _ (Hch c Hc) Hk f Hf) as (bs & Hin & Hbs).
    exists bs. split; [|done]. by eapply (content_list_child (N.land mode 4095)).
Qed.

(** Every content of a tree is that of a file on its list. *)
Lemma content_file n : ∀ p content, content ∈ content_list n →
  ∃ f, f ∈ file_list p n ∧ fr_hash f = blake3 content.
Proof.
  apply (Node_nested (λ n, ∀ p content, content ∈ content_list n →
    ∃ f, f ∈ file_list p n ∧ fr_hash f = blake3 content)); clear n.
  - intros [mode content|mode target|mode cs|type mode size]; try done;
      intros p bs Hin; [|by apply elem_of_nil in Hin..].
    apply list_elem_of_singleton in Hin as ->. eexists. split; [by left|done].
  - intros mode cs IH p bs. cbn [content_list]. rewrite elem_of_concat_map.
    intros (c & Hc & Hin). rewrite Forall_forall in IH.
    destruct (IH c Hc (path_join p c.1) bs Hin) as (f & Hf & Hh). exists f. split; [|done].
    cbn [file_list]. apply elem_of_concat_map. by exists c.
Qed.

(** The file under the hash of a content is read with this content. *)
Lemma get_file_captured `{RmpEncode} p n sn content :
  captured p n sn → backed p n → no_collision (blobs n) → content ∈ content_list n →
  get_file sn (blake3 content) = Ok content.
Proof.
  intros (_ & _ & Hfiles & _) Hback Hnc Hin. unfold get_file. rewrite Hfiles.
  fold (insert_all fr_hash (file_list p n) ∅).
  destruct (content_file n p content Hin) as (f & Hf & Hh).
  destruct (insert_all_in fr_hash (file_list p n) ∅ f Hf) as [f' Hf']. rewrite Hh in Hf'.
  rewrite Hf'. cbn [ok_or mbind result_bind].
  apply insert_all_lookup in Hf' as [[Hin' Hh']|?%lookup_empty_Some]; [|done].
  destruct (Hback f' Hin') as (bs & Hbs & Hread & _ & Hhash). rewrite Hread. cbn. f_equal.
  apply Hnc; [apply elem_of_app; right; apply elem_of_app; by left..|congruence].
Qed.
End contents.

(** ** Paths *)

(** What a path of names leads to. *)
Definition child_named (name : rstr) (cs : list (rstr * Node)) : option (rstr * Node) :=
  List.find (λ c, bool_decide (c.1 = name)) cs.

Fixpoint node_at (n : Node) (parts : list rstr) : option Node :=
  match parts with
  | [] => Some n
  | part :: rest =>
      match n with
      | NDir _ cs => c ← child_named part cs; node_at c.2 rest
      | _ => None
      end
  end.

Lemma find_unique {A} (P : A → bool) l k :
  (∀ a b, a ∈ l → b ∈ l → P a = true → P b = true → a = b) → l ≡ₚ k → List.find P l = List.find P k.
Proof.
  intros Hu Hlk. destruct (List.find P l) as [a|] eqn:Hl.
  - apply find_some in Hl as [Ha%list_elem_of_In HPa].
    destruct (List.find P k) as [b|] eqn:Hk.
    + apply find_some in Hk as [Hb%list_elem_of_In HPb]. f_equal. apply Hu; [done|by rewrite Hlk|done..].
    + rewrite Hlk in Ha. eapply find_none in Hk; [|by apply list_elem_of_In]. congruence.
  - destruct (List.find P k) as [b|] eqn:Hk; [|done].
    apply find_some in Hk as [Hb%list_elem_of_In HPb]. rewrite <- Hlk in Hb.
    eapply find_none in Hl; [|by apply list_elem_of_In]. congruence.
Qed.

Lemma find_map {A B} (f : A → B) (P : B → bool) l :
  List.find P (map f l) = f <$> List.find (λ a, P (f a)) l.
Proof. induction l as [|a l IH]; [done|]. cbn. by destruct (P (f a)). Qed.

Lemma child_named_sorted name cs : children_ok cs → child_named name (sort_children cs) = child_named name cs.
Proof.
  intros (Hnd & _ & _). apply find_unique; [|apply sort_by_perm].
  intros a b Ha Hb Hna%bool_decide_eq_true Hnb%bool_decide_eq_true.
  rewrite elem_of_sort_children in Ha, Hb.
  apply list_elem_of_lookup in Ha as [i Hi]. apply list_elem_of_lookup in Hb as [j Hj].
  assert (i = j) as ->; [|by simplify_eq]. eapply NoDup_lookup; [exact Hnd| |].
  - by rewrite list_lookup_fmap, Hi.
  - rewrite list_lookup_fmap, Hj. cbn. congruence.
Qed.

Lemma find_named_child `{RmpEncode} `{Blake3} name cs : children_ok cs →
  find_named name (map child_entry (sort_children cs)) = child_entry <$> child_named name cs.
Proof.
  intros Hok. unfold find_named. rewrite find_map. f_equal. by apply (child_named_sorted name cs).
Qed.

Lemma child_named_in name cs c : child_named name cs = Some c → c ∈ cs ∧ c.1 = name.
Proof.
  intros Hf. apply find_some in Hf as [Hin Hn]. split; [by apply list_elem_of_In|].
  by apply bool_decide_eq_true in Hn.
Qed.

Definition file_of (n : Node) : option bytes :=
  match n with NFile _ content => Some content | _ => None end.

(** The answer for a path: the entry and the contents of a file, or an error. *)
Definition path_answer `{RmpEncode} `{Blake3} (n : Node) (parts : list rstr)
    (r : result FstreeError (option (TreeEntry * option bytes))) : Prop :=
  match node_at n parts with
  | Some m => r = Ok (Some (node_entry (default [] (last parts)) m, file_of m))
  | None => ∃ msg, r = Err (mkFstreeError FsOther msg)
  end.

Section read_captured.
Context `{RmpLaws} `{Blake3Laws} `{TreeReader} `{!TreeReaderLaws} `{ClientFs} (io_text : io_kind → rstr).

Lemma path_loop_captured sn path rest : ∀ part mode cs,
  node_fits (NDir mode cs) → has_trees sn (tree_list (NDir mode cs)) →
  (∀ content, content ∈ content_list (NDir mode cs) → get_file sn (blake3 content) = Ok content) →
  path_answer (NDir mode cs) (part :: rest)
    (path_loop io_text sn path (node_hash (NDir mode cs)) part rest).
Proof.
  induction rest as [|next rest IH]; intros part mode cs Hfits Ht Hc; unfold path_answer;
    cbn [path_loop node_at]; rewrite get_tree_dir by done; cbn [mbind result_bind];
    pose proof Hfits as Hfits'; inversion Hfits' as [| |? ? _ Hok Hch]; subst;
    rewrite find_named_child by done;
    destruct (child_named part cs) as [[name m]|] eqn:Hn; cbn [fmap option_fmap option_map ok_or mbind
      option_bind result_bind]; try (by eexists); apply child_named_in in Hn as [Hin <-]; cbn [snd fst].
  - cbn [last default]. destruct m as [mode' content| | |]; try done.
    + change (te_hash (child_entry (name, NFile mode' content))) with (blake3 content).
      rewrite (Hc content); [done|]. eapply content_list_child; [exact Hin|]. by left.
    + by specialize (Hch _ Hin); inversion Hch.
  - destruct m as [| |mode' cs'|];
      [by eexists|by eexists| |by specialize (Hch _ Hin); inversion Hch].
    change (te_hash (child_entry (name, NDir mode' cs'))) with (node_hash (NDir mode' cs')).
    apply (IH next mode' cs').
    + by apply (Hch (name, NDir mode' cs')).
    + intros t Htc. by eapply Ht, (tree_list_child mode cs (name, NDir mode' cs')).
    + intros content Hcc. by eapply Hc, (content_list_child mode cs (name, NDir mode' cs')).
Qed.

Lemma no_collision_sub l k : no_collision l → k ⊆ l → no_collision k.
Proof. intros Hl Hk a b Ha Hb. apply Hl; by apply Hk. Qed.

Lemma trees_blobs n : tree_list n ⊆ blobs n.
Proof. intros t Ht. apply elem_of_app. by left. Qed.

Lemma get_file_at_path_captured p n sn path part rest :
  node_fits n → node_type n = FtDir → captured p n sn → backed p n → no_collision (blobs n) →
  split_path path = part :: rest →
  path_answer n (part :: rest) (get_file_at_path io_text sn path).
Proof.
  intros Hfits Hdir Hcap Hback Hnc Hpath. unfold get_file_at_path. rewrite Hpath.
  pose proof Hcap as [-> _].
  destruct n as [| |mode cs|]; try done; [|inversion Hfits].
  apply path_loop_captured; [done| |].
  - eapply captured_trees; [done|]. eapply no_collision_sub; [done|apply trees_blobs].
  - intros content Hin. by eapply get_file_captured.
Qed.

(** C14. What was captured is what is read: on a directory that does not change, with no more files than
    the limit, a capture that does not follow links succeeds, and where the hashes of its blobs do
    not collide, walking the snapshot visits exactly the entries that the options keep, in the order
    of their names and a directory before what is in it; the list of files is that of the tree;
    and a path is looked up by the parts that [split_path] cuts it into: when there is one, the answer is
    the entry and the contents that the tree has under these parts, or an error when it has
    none. A name with a backslash is never one of the parts, so that its file is listed and not
    found ([backslash_name_is_not_found]). *)
Theorem capture_reads `{Glob} fuel root p n n' opts now duration :
  root_holds root p n → o_follow_symlinks (all_options opts) = false → (height n ≤ fuel)%nat →
  files_tried (all_options opts) [] n ≤ o_max_files (all_options opts) →
  kept (all_options opts) [] n = Some n' → no_collision (blobs n') →
  ∃ sn, capture fuel root opts now duration = Some (Ok sn)
    ∧ (∀ W (f : rstr → TreeEntry → W → result FstreeError unit * W) s,
         walk io_text f (height n') sn s = Some (visit f (listing [] n') s))
    ∧ list_files io_text (height n') sn = Some (Ok (file_paths n'))
    ∧ ∀ path part rest, split_path path = part :: rest →
        path_answer n' (part :: rest) (get_file_at_path io_text sn path).
Proof.
  intros Hroot Hfollow Hfuel Hmax Hk Hnc.
  destruct (capture_exact fuel root p n opts now duration Hroot Hfollow Hfuel) as (r & Hr & Hout).
  destruct r as [sn|e]; [|lia]. destruct Hout as (n1 & Hk1 & Hcap & _). simplify_eq.
  exists sn. split; [done|]. destruct Hroot as (mode & cs & size & -> & _ & _ & Hhold).
  pose proof (kept_fits _ _ _ _ _ Hhold Hk) as Hfits.
  assert (Hdir : node_type n' = FtDir) by (rewrite kept_dir in Hk; by simplify_eq).
  assert (Hnt : no_collision (tree_list n')) by (eapply no_collision_sub; [done|apply trees_blobs]).
  split; [intros; by eapply walk_captured|]. split; [by eapply list_files_captured|].
  intros path part rest Hpath. eapply get_file_at_path_captured; try done. by eapply kept_backed.
Qed.

(** The difference of two snapshots is that of their trees: the paths of files and links that
    are new, gone, or have another hash, each once; equal roots mean equal
    trees, so that nothing is missed by comparing them first. *)
Theorem diff_exact `{HashOrderLaws} p1 p2 n1 n2 sn1 sn2 fuel :
  node_fits n1 → node_type n1 = FtDir → captured p1 n1 sn1 →
  node_fits n2 → node_type n2 = FtDir → captured p2 n2 sn2 →
  no_collision (tree_list n1 ++ tree_list n2) → (height n1 ≤ fuel)%nat → (height n2 ≤ fuel)%nat →
  ∃ d, diff io_text fuel sn1 (Some sn2) = Some (Ok d)
    ∧ sd_old_root d = node_hash n2 ∧ sd_new_root d = node_hash n1
    ∧ tells (leaves n1) (leaves n2) d.
Proof.
  intros Hf1 Hd1 Hc1 Hf2 Hd2 Hc2 Hnc Hh1 Hh2. unfold diff.
  pose proof Hc1 as [Hr1 _]. pose proof Hc2 as [Hr2 _]. rewrite Hr1, Hr2.
  assert (Hl : ∀ k, k ⊆ tree_list n1 ++ tree_list n2 → no_collision k)
    by (intros k; by apply no_collision_sub).
  destruct (decide (node_hash n1 = node_hash n2)) as [Heq|Hne].
  - eexists. split; [done|]. split; [done|]. split; [done|].
    unfold leaves. rewrite (same_hash_listing n1 n2 [] Hd1 Hd2 Hf1 Hf2 Hnc Heq). apply tells_same.
  - rewrite (leaf_paths_captured io_text p1 n1 sn1), (leaf_paths_captured io_text p2 n2 sn2);
      try done; try (apply Hl; intros t Ht; apply elem_of_app; auto).
    cbn [mbind option_bind result_bind]. eexists. split; [done|]. apply diff_paths_tells.
Qed.
End read_captured.

(** ** Paths of names *)

(** A name that a path can spell: one component, without a backslash. *)
Definition plain_name (name : rstr) : Prop :=
  name_ok name ∧ Byte.x5c ∉ name ∧ name ≠ $"." ∧ name ≠ $"..".

Lemma replace_backslash_none s : Byte.x5c ∉ s → replace_backslash s = s.
Proof.
  induction s as [|b s IH]; [done|]. rewrite not_elem_of_cons. intros [Hb Hs]. cbn.
  rewrite decide_False by done. f_equal. by apply IH.
Qed.

Lemma split_slash_name name rest : slash ∉ name →
  split_slash (name ++ slash :: rest) = name :: split_slash rest.
Proof.
  induction name as [|b name IH]; intros Hs; cbn.
  - destruct (split_slash rest) as [|q ps] eqn:Hr; [|by rewrite decide_True].
    exfalso. destruct rest as [|c rest]; [done|]. cbn in Hr.
    destruct (split_slash rest); [done|]. by destruct (decide _).
  - apply not_elem_of_cons in Hs as [Hb Hs]. rewrite IH by done. by rewrite decide_False.
Qed.

Lemma split_slash_last name : slash ∉ name → split_slash name = [name].
Proof.
  induction name as [|b name IH]; [done|]. intros [Hb Hs]%not_elem_of_cons. cbn.
  rewrite IH by done. by rewrite decide_False.
Qed.

Lemma component_plain name : plain_name name → component name = Some (Normal name).
Proof.
  intros ([Hn _] & _ & H1 & H2). unfold component.
  rewrite decide_False by naive_solver. by rewrite decide_False.
Qed.

Lemma split_slash_join parts : parts ≠ [] → Forall plain_name parts →
  split_slash (str_join [slash] parts) = parts.
Proof.
  intros Hne Hp. induction Hp as [|name parts [[_ Hs] _] Hp IH]; [done|].
  destruct parts as [|next parts]; [by apply split_slash_last|].
  change (str_join [slash] (name :: next :: parts))
    with (name ++ slash :: str_join [slash] (next :: parts)).
  rewrite split_slash_name by done. f_equal. by apply IH.
Qed.

(** A path made of plain names has these names as its parts. *)
Lemma split_path_join parts : Forall plain_name parts → split_path (str_join [slash] parts) = parts.
Proof.
  intros Hp. destruct (decide (parts = [])) as [->|Hne]; [done|]. unfold split_path.
  assert (Hb : Byte.x5c ∉ str_join [slash] parts).
  { clear Hne. induction Hp as [|name parts (_ & Hn & _) Hp IH]; [by apply not_elem_of_nil|].
    destruct parts as [|next parts]; [done|].
    change (str_join [slash] (name :: next :: parts))
      with (name ++ [slash] ++ str_join [slash] (next :: parts)).
    rewrite !not_elem_of_app. split; [done|]. split; [|done].
    by intros ?%list_elem_of_singleton. }
  rewrite replace_backslash_none by done. unfold components.
  rewrite split_slash_join by done. destruct Hp as [|name parts Hn Hp]; [done|].
  assert (Hrest : omap normal_part (omap component parts) = parts).
  { clear -Hp. induction Hp as [|name parts Hn Hp IH]; [done|]. cbn.
    rewrite component_plain by done. cbn. by rewrite IH. }
  pose proof Hn as ([Hne' _] & _ & Hdot & _). destruct name as [|b name]; [done|].
  rewrite decide_False, component_plain by done. cbn [option_list app].
  exact (f_equal (cons (b :: name)) Hrest).
Qed.

Lemma no_collision_distinct `{Blake3} l : NoDup (map blake3 (remove_dups l)) → no_collision l.
Proof.
  intros Hnd a b Ha Hb Hh. rewrite <- elem_of_remove_dups in Ha, Hb.
  apply list_elem_of_lookup in Ha as [i Hi]. apply list_elem_of_lookup in Hb as [j Hj].
  assert (i = j) as ->; [|by simplify_eq]. eapply NoDup_lookup; [exact Hnd| |].
  - by rewrite list_lookup_fmap, Hi.
  - rewrite list_lookup_fmap, Hj. exact (f_equal Some (eq_sym Hh)).
Qed.

(** Concrete instances, and a directory. *)
Module ReadsSample.
Import FsSample.
#[export] Existing Instances RmpSample.encode RmpSample.cursor RmpSample.msgpack RmpSample.laws
  Sample.blake Sample.blake_laws Sample.order Sample.order_laws.

Definition has_key (k : rstr) (kv : Value * Value) : bool :=
  match kv.1 with VString s => bool_decide (s = k) | _ => false end.
Definition field (k : rstr) (m : list (Value * Value)) : option Value :=
  snd <$> List.find (has_key k) m.
Definition number_field (k : rstr) (m : list (Value * Value)) : option N :=
  v ← field k m; match v with VInteger i => int_as_u64 i | _ => None end.

Definition read_entry (v : Value) : option TreeEntry :=
  match v with
  | VMap m =>
      name ← field ($"1") m;
      kind ← number_field ($"2") m;
      mode ← number_field ($"3") m;
      size ← number_field ($"4") m;
      hash ← field ($"5") m;
      match name, hash with
      | VString name, VBinary hash => Some (mkTreeEntry name kind mode size hash)
      | _, _ => None
      end
  | _ => None
  end.

#[export] Instance tree_reader : TreeReader := {|
  tree_from_slice bs :=
    match msgpack_read bs with Ok (VArray vs) => mapM read_entry vs | _ => None end;
  tree_from_value v := Err ($"unsupported")
|}.

Lemma find_fields k m e : m ≡ₚ entry_fields e →
  k ∈ [$"1"; $"2"; $"3"; $"4"; $"5"] →
  List.find (has_key k) m = List.find (has_key k) (entry_fields e).
Proof.
  intros Hm Hk. apply find_unique; [|done]. intros a b. rewrite !Hm. unfold entry_fields.
  rewrite !elem_of_cons, !elem_of_nil. unfold has_key.
  intros Ha Hb. destruct Ha as [->|[->|[->|[->|[->|[]]]]]];
    destruct Hb as [->|[->|[->|[->|[->|[]]]]]]; try done; cbn;
    intros <-%bool_decide_eq_true Heq%bool_decide_eq_true; discriminate Heq.
Qed.

Lemma read_entry_reads e v : entry_fits e → entry_reads e v → read_entry v = Some e.
Proof.
  intros (_ & _ & Hk & Hm & Hs & _) (m & -> & Hp). cbn [read_entry]. unfold number_field, field.
  rewrite !(find_fields _ m e Hp) by set_solver.
  change (List.find (has_key ($"1")) (entry_fields e))
    with (Some (VString ($"1"), VString (te_name e))).
  change (List.find (has_key ($"2")) (entry_fields e))
    with (Some (VString ($"2"), VInteger (Z.of_N (te_kind e)))).
  change (List.find (has_key ($"3")) (entry_fields e))
    with (Some (VString ($"3"), VInteger (Z.of_N (te_mode e)))).
  change (List.find (has_key ($"4")) (entry_fields e))
    with (Some (VString ($"4"), VInteger (Z.of_N (te_size e)))).
  change (List.find (has_key ($"5")) (entry_fields e))
    with (Some (VString ($"5"), VBinary (te_hash e))).
  cbn [fmap option_fmap option_map mbind option_bind snd].
  rewrite !int_as_u64_of by lia. cbn. by destruct e.
Qed.

#[export] Instance tree_reader_laws : TreeReaderLaws.
Proof.
  intros bs vs es Hread Hfits Hvs. unfold tree_from_slice, tree_reader. rewrite Hread.
  revert Hfits. clear Hread. induction Hvs as [|e v es vs Hv Hvs IH]; intros Hfits; [done|].
  apply Forall_cons in Hfits as [He Hfits]. cbn [mapM].
  rewrite (read_entry_reads e v) by done. cbn [mbind option_bind]. by rewrite (IH Hfits).
Qed.

(** Names in no order, a directory, a link, and a file that is excluded. *)
Definition files : table :=
  [($"/r", IDir 493 [$"sub"; $"b.txt"; $"link"; $"a.txt"]); ($"/r/a.txt", IFile 33188 ($"hello"));
   ($"/r/b.txt", IFile 33188 ($"hello")); ($"/r/link", ILink 41471 ($"a.txt"));
   ($"/r/sub", IDir 16877 [$"skip"; $"c"]); ($"/r/sub/c", IFile 33261 ($"other"));
   ($"/r/sub/skip", IFile 33188 ($"no"))].
Definition opts : list (Options → Options) := [with_exclude [$"skip"]; with_max_files 3].
#[export] Instance files_fs : ClientFs := FsSample.fs files.

Definition root_node : Node :=
  NDir 493 [($"sub", NDir 16877 [($"skip", NFile 33188 ($"no")); ($"c", NFile 33261 ($"other"))]);
     ($"b.txt", NFile 33188 ($"hello")); ($"link", NLink 41471 ($"a.txt"));
     ($"a.txt", NFile 33188 ($"hello"))].
Definition kept_node : Node :=
  NDir 493 [($"sub", NDir 493 [($"c", NFile 493 ($"other"))]);
     ($"b.txt", NFile 420 ($"hello")); ($"link", NLink 511 ($"a.txt"));
     ($"a.txt", NFile 420 ($"hello"))].

Definition name_fits (name : rstr) : bool :=
  negb (bool_decide (name = [])) && negb (bool_decide (slash ∈ name)) && utf8_valid name
  && (len name <? U32).
Lemma children_fit cs :
  bool_decide (NoDup (map fst cs)) && (len cs <? U32) && forallb (λ c : rstr * Node, name_fits c.1) cs
    = true → children_ok cs.
Proof.
  rewrite !andb_true_iff. intros [[Hnd Hl] Hn]. split; [by apply bool_decide_eq_true in Hnd|].
  split; [by apply N.ltb_lt|]. apply Forall_forall. intros c Hc%list_elem_of_In.
  rewrite forallb_forall in Hn. apply Hn in Hc. unfold name_fits in Hc.
  rewrite !andb_true_iff, !negb_true_iff, !bool_decide_eq_false, N.ltb_lt in Hc.
  destruct Hc as [[[? ?] ?] ?]. by split_and!.
Qed.

Lemma root_holds_files : root_holds ($"/r") ($"/r") root_node.
Proof.
  eexists _, _, 0. split; [reflexivity|]. split; [vm_compute; reflexivity|].
  split; [vm_compute; reflexivity|].
  eapply holds_dir; [vm_compute; reflexivity..|apply children_fit; vm_compute; reflexivity|].
  assert (Hfile : ∀ p mode content, fs_symlink_metadata p = Ok (mkFsMetadata FtFile mode (len content))
    → fs_read p = Ok content → len content < 9223372036854775808 → holds p (NFile mode content))
    by (intros; by apply holds_file).
  intros c Hc. repeat (apply elem_of_cons in Hc as [->|Hc]); [| | | |by apply elem_of_nil in Hc].
  - eapply holds_dir; [vm_compute; reflexivity..|apply children_fit; vm_compute; reflexivity|].
    intros d Hd. repeat (apply elem_of_cons in Hd as [->|Hd]); [| |by apply elem_of_nil in Hd];
      apply Hfile; vm_compute; reflexivity.
  - apply Hfile; vm_compute; reflexivity.
  - eapply holds_link; vm_compute; reflexivity.
  - apply Hfile; vm_compute; reflexivity.
Qed.

Lemma no_collision_kept : no_collision (blobs kept_node).
Proof. apply no_collision_distinct, (bool_decide_eq_true_1 _). vm_compute. reflexivity. Qed.

Lemma capture_reads_witness :
  ∃ sn, capture 4 ($"/r") opts 0 0 = Some (Ok sn)
    ∧ list_files (λ _, []) 3 sn = Some (Ok [$"a.txt"; $"b.txt"; $"sub/c"])
    ∧ get_file_at_path (λ _, []) sn ($"/sub\c")
      = Ok (Some (node_entry ($"c") (NFile 493 ($"other")), Some ($"other"))).
Proof.
  destruct (capture_reads (λ _, []) 4 ($"/r") ($"/r") root_node kept_node opts 0 0)
    as (sn & Hsn & _ & Hfiles & Hpath); [exact root_holds_files|vm_compute; reflexivity|
      apply Nat.leb_le; vm_compute; reflexivity|vm_compute; discriminate|
      vm_compute; reflexivity|exact no_collision_kept|].
  exists sn. split; [exact Hsn|]. split; [exact Hfiles|].
  exact (Hpath ($"/sub\c") ($"sub") [$"c"] eq_refl).
Defined.

(** The same directory later: a file changed, one gone, one new; a link changed its target, and a mode
    changed, which no difference tells. *)
Definition later_node : Node :=
  NDir 493 [($"sub", NDir 448 [($"d", NFile 420 ($"new"))]); ($"b.txt", NFile 384 ($"hello"));
     ($"link", NLink 511 ($"b.txt")); ($"a.txt", NFile 420 ($"changed"))].

Definition snapshot_of (n : Node) : Snapshot :=
  mkSnapshot (node_hash n) (insert_all blake3 (tree_list n) ∅)
    (insert_all fr_hash (file_list ($"/r") n) ∅) (insert_all blake3 (link_list n) ∅)
    (mkSnapshotStats (len (file_list ($"/r") n)) (len (tree_list n)) (len (link_list n))
       (foldl (λ total f, wrap64 (total + fr_size f)) 0 (file_list ($"/r") n)) 0) 0.

Lemma snapshot_of_captured n : captured ($"/r") n (snapshot_of n).
Proof. by split_and!. Qed.

Fixpoint node_fit (n : Node) : bool :=
  (node_mode n <? 4096)
  && match n with
     | NFile _ content => len content <? 9223372036854775808
     | NLink _ target => len target <? U64
     | NDir _ cs =>
         bool_decide (NoDup (map fst cs)) && (len cs <? U32)
         && forallb (λ c : rstr * Node, name_fits c.1) cs && forallb (λ c, node_fit c.2) cs
     | NClosed _ _ _ => false
     end.
Lemma node_fit_fits n : node_fit n = true → node_fits n.
Proof.
  apply (Node_nested (λ n, node_fit n = true → node_fits n)); clear n.
  - intros [mode content|mode target|mode cs|type mode size]; try done; cbn [node_fit node_mode];
      rewrite andb_true_iff, ?N.ltb_lt; intros []; try done; by constructor.
  - intros mode cs IH. cbn [node_fit node_mode]. rewrite !andb_true_iff.
    intros [Hm [Hok Hall]]. constructor; [by apply N.ltb_lt| |].
    + apply children_fit. by rewrite !andb_true_iff.
    + intros c Hc. rewrite Forall_forall in IH. apply IH; [done|].
      rewrite forallb_forall in Hall. by apply Hall, list_elem_of_In.
Qed.

Lemma diff_exact_witness :
  ∃ d, diff (λ _, []) 3 (snapshot_of later_node) (Some (snapshot_of kept_node)) = Some (Ok d)
    ∧ tells (leaves later_node) (leaves kept_node) d
    ∧ ($"b.txt" ∉ sd_modified d) ∧ ($"link" ∈ sd_modified d) ∧ ($"sub/d" ∈ sd_added d).
Proof.
  destruct (diff_exact (λ _, []) ($"/r") ($"/r") later_node kept_node (snapshot_of later_node)
    (snapshot_of kept_node) 3) as (d & Hd & _ & _ & Ht);
    [apply node_fit_fits; vm_compute; reflexivity|reflexivity|apply snapshot_of_captured|
     apply node_fit_fits; vm_compute; reflexivity|reflexivity|apply snapshot_of_captured|
     apply no_collision_distinct, (bool_decide_eq_true_1 _); vm_compute; reflexivity|
     apply Nat.leb_le; vm_compute; reflexivity|apply Nat.leb_le; vm_compute; reflexivity|].
  exists d. split; [exact Hd|]. split; [exact Ht|].
  destruct Ht as (_ & _ & _ & Ha & _ & Hm). rewrite !Hm, Ha.
  split; [|split].
  - intros (_ & _ & Hne). by apply Hne; vm_compute.
  - split_and!; [by eexists; vm_compute|by eexists; vm_compute|by vm_compute].
  - split; [by eexists; vm_compute|by vm_compute].
Defined.

(** A file whose name has a backslash is captured and listed, and no path leads to it: paths
    are split at backslashes too. *)
Example backslash_name_is_not_found :
  let sn := snapshot_of (NDir 493 [($"a\b", NFile 420 ($"x"))]) in
  list_files (λ _, []) 2 sn = Some (Ok [$"a\b"])
  ∧ get_file_at_path (λ _, []) sn ($"a\b")
    = Err (mkFstreeError FsOther ($"path not found: a\b")).
Proof. by vm_compute. Qed.

End ReadsSample.
