(* ===== verification/BlobStore.v ===== *)
(** * BlobStore: the content-addressed blob pack

    [server/src/blob_store/mod.rs]. Two append-only files, [blobs.pack] with the
    records and [blobs.idx] with fixed-size index entries, and the in-memory index
    built from the latter. A file is the list of its bytes; the operating system is
    assumed to perform the writes it is given, and preads may be short. *)

From S2P Require Import Prelude Bytes External.

Open Scope N_scope.

Definition BLOB_MAGIC : N := 0x42534C42.
Definition BLOB_VERSION : N := 1.

Inductive BlobCodec : Type := CodecNone | CodecZstd.

#[export] Instance BlobCodec_eq_dec : EqDecision BlobCodec.
Proof. solve_decision. Defined.

(** [codec as u16]. *)
Definition codec_u16 (c : BlobCodec) : N :=
  match c with CodecNone => 0 | CodecZstd => 1 end.

(** [match codec_raw]. *)
Definition codec_of_u16 (n : N) : result StoreError BlobCodec :=
  if n =? 0 then Ok CodecNone
  else if n =? 1 then Ok CodecZstd
  else Err (Corrupt ($"unknown blob codec")).

Record BlobIndexEntry : Type := mkBlobIndexEntry {
  bie_offset : N;
  bie_raw_len : N;
  bie_stored_len : N;
  bie_codec : BlobCodec
}.

(** [struct BlobStore]: the contents of the two files and the index. *)
Record BlobStore : Type := mkBlobStore {
  bs_pack : bytes;
  bs_idx : bytes;
  bs_index : gmap bytes BlobIndexEntry
}.

Record BlobStoreStats : Type := mkBlobStoreStats {
  bss_blobs_total : N;
  bss_pack_bytes : N;
  bss_idx_bytes : N
}.

Definition ENTRY_SIZE : N := 32 + 8 + 4 + 4 + 2 + 2.
Definition HEADER_SIZE : N := 4 + 2 + 2 + 4 + 4 + 32.

(** ** Opening: [load_index] *)

(** The fields of one index entry, read in the order of the loop body. *)
Definition read_index_entry : reader io_kind (bytes * N * N * N * N) :=
  hash ← read_exact 32;
  offset ← read_u64;
  raw_len ← read_u32;
  stored_len ← read_u32;
  codec_raw ← read_u16;
  _reserved ← read_u16;
  rret (hash, offset, raw_len, stored_len, codec_raw).

(** The loop; [rest] is what the cursor has not read, [valid_len] the length of the
    complete entries before it. Each iteration consumes an entry, so the length of
    the buffer is enough fuel. *)
Fixpoint load_index_loop (fuel : nat) (rest : bytes) (valid_len : N)
    (index : gmap bytes BlobIndexEntry) : result StoreError (gmap bytes BlobIndexEntry * N) :=
  match fuel with
  | O => Ok (index, valid_len)
  | S fuel =>
      if len rest =? 0 then Ok (index, valid_len)
      else if len rest <? ENTRY_SIZE then Ok (index, valid_len)
      else match read_index_entry rest with
           | Err _ => Ok (index, valid_len)
           | Ok (hash, offset, raw_len, stored_len, codec_raw, rest') =>
               codec ← codec_of_u16 codec_raw;
               load_index_loop fuel rest' (valid_len + ENTRY_SIZE)
                 (<[hash := mkBlobIndexEntry offset raw_len stored_len codec]> index)
           end
  end.

Definition load_index (pack idx : bytes) : result StoreError BlobStore :=
  '(index, valid_len) ← load_index_loop (S (length idx)) idx 0 ∅;
  Ok (mkBlobStore pack (if valid_len <? len idx then take (N.to_nat valid_len) idx else idx)
        index).

(** [BlobStore::open] on a directory whose files hold [pack] and [idx] (empty when
    the files are created). *)
Definition open (pack idx : bytes) : result StoreError BlobStore := load_index pack idx.

Definition contains (st : BlobStore) (hash : bytes) : bool :=
  bool_decide (is_Some (bs_index st !! hash)).

Definition raw_len (st : BlobStore) (hash : bytes) : option N :=
  bie_raw_len <$> bs_index st !! hash.

Definition stored_len (st : BlobStore) (hash : bytes) : option N :=
  bie_stored_len <$> bs_index st !! hash.

Definition stats (st : BlobStore) : BlobStoreStats :=
  mkBlobStoreStats (N.of_nat (size (bs_index st))) (len (bs_pack st)) (len (bs_idx st)).

Section BlobStore.
Context `{Crc32} `{Zstd} `{PreadSchedule}.

(** ** Writing: [put_if_absent] *)

(** The bytes to store and their codec: compressed when that is shorter. *)
Definition choose_codec (raw_bytes : bytes) : bytes * BlobCodec :=
  match zstd_encode_all raw_bytes with
  | Some compressed =>
      if len compressed <? len raw_bytes then (compressed, CodecZstd) else (raw_bytes, CodecNone)
  | None => (raw_bytes, CodecNone)
  end.

Definition blob_header (codec : BlobCodec) (raw_len stored_len : N) (hash : bytes) : bytes :=
  write_u32 BLOB_MAGIC ++ write_u16 BLOB_VERSION ++ write_u16 (codec_u16 codec)
    ++ write_u32 raw_len ++ write_u32 stored_len ++ hash.

Definition index_entry_bytes (hash : bytes) (e : BlobIndexEntry) : bytes :=
  hash ++ write_u64 (bie_offset e) ++ write_u32 (bie_raw_len e) ++ write_u32 (bie_stored_len e)
    ++ write_u16 (codec_u16 (bie_codec e)) ++ write_u16 0.

Definition put_if_absent (hash raw_bytes : bytes) (st : BlobStore)
    : result StoreError BlobIndexEntry * BlobStore :=
  match bs_index st !! hash with
  | Some entry => (Ok entry, st)
  | None =>
      let (stored_bytes, codec) := choose_codec raw_bytes in
      let raw_len := wrap32 (len raw_bytes) in
      let stored_len := wrap32 (len stored_bytes) in
      let offset := len (bs_pack st) in
      let header := blob_header codec raw_len stored_len hash in
      let crc := crc32 (header ++ stored_bytes) in
      let entry := mkBlobIndexEntry offset raw_len stored_len codec in
      (Ok entry,
       mkBlobStore (bs_pack st ++ header ++ stored_bytes ++ write_u32 crc)
         (bs_idx st ++ index_entry_bytes hash entry)
         (<[hash := entry]> (bs_index st)))
  end.

(** ** Reading: [get] *)

(** One [pread]: at most [want] bytes at [offset], possibly fewer, none only at the
    end of the file. *)
Definition read_at (file : bytes) (offset want : N) : bytes :=
  let avail := N.min want (len file - offset) in
  if avail =? 0 then []
  else take (N.to_nat (N.max 1 (N.min (pread_short offset avail) avail)))
         (drop (N.to_nat offset) file).

(** [read_at_exact]: [want] bytes are still missing and [acc] holds those read. Every
    iteration reads at least one byte of the file, so its length is enough fuel. *)
Fixpoint read_at_exact_loop (fuel : nat) (file : bytes) (offset want : N) (acc : bytes)
    : result StoreError bytes :=
  if want =? 0 then Ok acc
  else match fuel with
       | O => Err (Corrupt ($"unexpected EOF reading blob"))
       | S fuel =>
           let chunk := read_at file offset want in
           if len chunk =? 0 then Err (Corrupt ($"unexpected EOF reading blob"))
           else read_at_exact_loop fuel file (offset + len chunk) (want - len chunk) (acc ++ chunk)
       end.

Definition read_at_exact (file : bytes) (offset want : N) : result StoreError bytes :=
  read_at_exact_loop (S (length file)) file offset want [].

(** [u64::checked_add] and [usize::checked_add]. *)
Definition checked_add64 (a b : N) : option N := if a + b <? U64 then Some (a + b) else None.

(** The fields of a record header. *)
Definition read_blob_header : reader StoreError (N * N * N * N * N * bytes) :=
  magic ← read_u32;
  version ← read_u16;
  codec_raw ← read_u16;
  raw_len ← read_u32;
  stored_len ← read_u32;
  stored_hash ← read_exact 32;
  rret (magic, version, codec_raw, raw_len, stored_len, stored_hash).

Definition get (st : BlobStore) (hash : bytes) : result StoreError bytes :=
  entry ← ok_or (NotFound ($"blob")) (bs_index st !! hash);
  header ← read_at_exact (bs_pack st) (bie_offset entry) HEADER_SIZE;
  '(magic, version, codec_raw, raw_len, stored_len, stored_hash) ←
    run_cursor read_blob_header header;
  if negb (magic =? BLOB_MAGIC) then Err (Corrupt ($"invalid blob magic"))
  else if negb (version =? BLOB_VERSION) then Err (Corrupt ($"unsupported blob version"))
  else if negb (bool_decide (stored_hash = hash)) then Err (Corrupt ($"blob hash mismatch"))
  else if negb (stored_len =? bie_stored_len entry) || negb (raw_len =? bie_raw_len entry)
  then Err (Corrupt ($"blob index/header length mismatch"))
  else
    body_offset ← ok_or (Corrupt ($"blob offset overflow"))
                    (checked_add64 (bie_offset entry) HEADER_SIZE);
    body_len ← ok_or (Corrupt ($"blob length overflow")) (checked_add64 stored_len 4);
    body ← read_at_exact (bs_pack st) body_offset body_len;
    let stored_bytes := take (N.to_nat stored_len) body in
    crc ← run_cursor read_u32 (drop (N.to_nat stored_len) body);
    let actual_crc := crc32 (header ++ stored_bytes) in
    if negb (crc =? actual_crc) then Err (Corrupt ($"blob crc mismatch"))
    else
      codec ← codec_of_u16 codec_raw;
      raw_bytes ← (match codec with
                   | CodecNone => Ok stored_bytes
                   | CodecZstd =>
                       map_err (λ e, Corrupt ($"zstd decode failed: " ++ e))
                         (zstd_decode_all stored_bytes)
                   end);
      if negb (wrap32 (len raw_bytes) =? raw_len) then Err (Corrupt ($"blob length mismatch"))
      else Ok raw_bytes.

End BlobStore.

(** ** Reads from the pack *)

Section reads.
Context `{PreadSchedule}.

(** What a read of exactly [want] bytes means: that slice of the file, or an error
    when the file is too short. *)
Definition slice (file : bytes) (offset want : N) : result StoreError bytes :=
  if (want =? 0) || (offset + want <=? len file)
  then Ok (take (N.to_nat want) (drop (N.to_nat offset) file))
  else Err (Corrupt ($"unexpected EOF reading blob")).

Lemma read_at_progress file offset want :
  ∃ k, read_at file offset want = take k (drop (N.to_nat offset) file)
       ∧ len (read_at file offset want) = N.of_nat k
       ∧ N.of_nat k ≤ want ∧ (N.of_nat k = 0 ↔ want = 0 ∨ len file ≤ offset).
Proof.
  unfold read_at. set (avail := N.min want (len file - offset)).
  destruct (N.eqb_spec avail 0) as [Ha|Ha].
  - exists 0%nat. rewrite take_0. repeat split; cbn; unfold avail in Ha; lia.
  - set (k := N.max 1 (N.min (pread_short offset avail) avail)).
    assert (1 ≤ k ≤ avail) by (unfold k; lia). unfold avail in *.
    exists (N.to_nat k). rewrite len_take, len_drop. repeat split; lia.
Qed.

Lemma read_at_exact_loop_spec fuel file offset want acc :
  len file - offset < N.of_nat fuel →
  read_at_exact_loop fuel file offset want acc = (acc ++.) <$> slice file offset want.
Proof.
  revert offset want acc; induction fuel as [|fuel IH]; intros offset want acc Hf; [lia|].
  unfold slice. cbn [read_at_exact_loop]. destruct (N.eqb_spec want 0) as [->|Hw]; cbn [orb].
  - cbn. by rewrite app_nil_r.
  - destruct (read_at_progress file offset want) as (k & Hr & Hl & Hk & Hz).
    rewrite Hr in Hl |- *. rewrite Hl.
    destruct (N.eqb_spec (N.of_nat k) 0) as [Hk0|Hk0].
    + assert (len file ≤ offset) by (destruct Hz; lia).
      by rewrite (proj2 (N.leb_gt _ _)) by lia.
    + rewrite IH by (destruct Hz; lia). unfold slice.
      replace (offset + N.of_nat k + (want - N.of_nat k) <=? len file)
        with (offset + want <=? len file) by (f_equal; lia).
      destruct (N.leb_spec (offset + want) (len file)) as [Hle|Hle].
      * rewrite orb_true_r. cbn. f_equal. rewrite <- app_assoc. f_equal.
        rewrite N2Nat.inj_add, Nat2N.id, <- drop_drop, take_take_drop. f_equal. lia.
      * destruct (N.eqb_spec (want - N.of_nat k) 0); [|done].
        rewrite len_take, len_drop in Hl. lia.
Qed.

Lemma read_at_exact_slice file offset want :
  read_at_exact file offset want = slice file offset want.
Proof.
  unfold read_at_exact. rewrite read_at_exact_loop_spec by (unfold len; lia).
  unfold slice. by case_match.
Qed.
End reads.

Lemma slice_app pre mid post want :
  len mid = want → slice (pre ++ mid ++ post) (len pre) want = Ok mid.
Proof.
  intros <-. unfold slice. rewrite !len_app.
  rewrite (proj2 (N.leb_le (len pre + len mid) _)) by lia. rewrite orb_true_r.
  unfold len. rewrite !Nat2N.id. by rewrite drop_app_length, take_app_length.
Qed.

Lemma slice_ok file offset want bs :
  slice file offset want = Ok bs →
  bs = take (N.to_nat want) (drop (N.to_nat offset) file) ∧ len bs = want.
Proof.
  unfold slice. destruct ((want =? 0) || (offset + want <=? len file)) eqn:Hc; [|done].
  intros [= <-]. split; [done|]. rewrite len_take, len_drop.
  apply orb_true_iff in Hc as [Hc|Hc]; [apply N.eqb_eq in Hc|apply N.leb_le in Hc]; lia.
Qed.

(** ** The representation

    [blob_rep st m]: the store holds exactly the blobs of the abstract map [m] from
    hashes to contents. Every entry of the index locates in the pack a record that
    was encoded from its blob, and the index file replays to the index. *)

Section rep.
Context `{Crc32Laws} `{ZstdLaws} `{PreadSchedule}.

Definition entry_of (raw : bytes) (offset : N) : BlobIndexEntry :=
  let (stored, codec) := choose_codec raw in
  mkBlobIndexEntry offset (wrap32 (len raw)) (wrap32 (len stored)) codec.

Definition record_of (hash raw : bytes) : bytes :=
  let (stored, codec) := choose_codec raw in
  let header := blob_header codec (wrap32 (len raw)) (wrap32 (len stored)) hash in
  header ++ stored ++ write_u32 (crc32 (header ++ stored)).

Definition located (pack hash raw : bytes) (e : BlobIndexEntry) : Prop :=
  ∃ pre post, pack = pre ++ record_of hash raw ++ post ∧ e = entry_of raw (len pre).

Definition blob_ok (hash raw : bytes) : Prop := len hash = 32 ∧ len raw < U32.

Record blob_rep (st : BlobStore) (m : gmap bytes bytes) : Prop := {
  rep_dom : dom (bs_index st) = dom m;
  rep_located : ∀ h e raw,
    bs_index st !! h = Some e → m !! h = Some raw → located (bs_pack st) h raw e;
  rep_ok : ∀ h raw, m !! h = Some raw → blob_ok h raw;
  rep_idx : ∃ l, bs_idx st = concat (map (λ '(h, e), index_entry_bytes h e) l)
                 ∧ bs_index st = foldl (λ i '(h, e), <[h := e]> i) ∅ l
                 ∧ Forall (λ '(h, e), len h = 32 ∧ bie_offset e < U64
                                      ∧ bie_raw_len e < U32 ∧ bie_stored_len e < U32) l;
  rep_size : len (bs_pack st) < U64
}.

Lemma choose_codec_spec raw stored codec :
  choose_codec raw = (stored, codec) →
  len stored ≤ len raw
  ∧ (match codec with
     | CodecNone => Ok stored
     | CodecZstd => map_err (λ e, Corrupt ($"zstd decode failed: " ++ e)) (zstd_decode_all stored)
     end) = Ok raw.
Proof.
  unfold choose_codec. intros Hc.
  destruct (zstd_encode_all raw) as [c|] eqn:Hz; [|by simplify_eq].
  destruct (N.ltb_spec (len c) (len raw)); simplify_eq; [|done].
  apply zstd_roundtrip in Hz. rewrite Hz. split; [lia|done].
Qed.

Lemma len_blob_header c r s h : len h = 32 → len (blob_header c r s h) = HEADER_SIZE.
Proof. intros Hh. unfold blob_header. autorewrite with cxdb. by rewrite Hh. Qed.

Lemma codec_of_u16_u16 c : codec_of_u16 (codec_u16 c) = Ok c.
Proof. by destruct c. Qed.

Lemma codec_u16_lt c : codec_u16 c < U16.
Proof. destruct c; cbn; lia. Qed.

Lemma reads_blob_header c r s h : len h = 32 → r < U32 → s < U32 →
  reads read_blob_header (blob_header c r s h)
    (BLOB_MAGIC, BLOB_VERSION, codec_u16 c, r, s, h).
Proof.
  intros. pose proof (codec_u16_lt c).
  assert (BLOB_MAGIC < U32) by done. assert (BLOB_VERSION < U16) by done.
  unfold read_blob_header, blob_header. solve_reads.
Qed.

(** A located record reads back as its blob. *)
Lemma get_located st h e raw :
  bs_index st !! h = Some e → blob_ok h raw → located (bs_pack st) h raw e →
  len (bs_pack st) < U64 → get st h = Ok raw.
Proof.
  intros Hi [Hh Hraw] (pre & post & Hpack & ->) Hsize. unfold get. rewrite Hi.
  unfold entry_of, record_of in *.
  destruct (choose_codec raw) as [stored codec] eqn:Hc.
  destruct (choose_codec_spec _ _ _ Hc) as [Hls Hdec].
  rewrite !wrap32_small in * by lia.
  set (header := blob_header codec (len raw) (len stored) h) in *.
  assert (Hhl : len header = HEADER_SIZE) by by apply len_blob_header.
  cbn [ok_or mbind result_bind bie_offset bie_raw_len bie_stored_len].
  rewrite !read_at_exact_slice, Hpack. rewrite <- (app_assoc header).
  rewrite slice_app by done. cbn [mbind result_bind].
  assert (Hrd := reads_run _ _ _ (reads_blob_header codec (len raw) (len stored) h Hh Hraw ltac:(lia))).
  fold header in Hrd. rewrite Hrd.
  cbn [mbind result_bind]. rewrite !N.eqb_refl, bool_decide_eq_true_2 by done.
  cbn [negb orb].
  assert (Htot : len pre + HEADER_SIZE + (len stored + 4) ≤ len (bs_pack st)).
  { rewrite Hpack. autorewrite with cxdb. rewrite Hhl. lia. }
  unfold checked_add64. rewrite !(proj2 (N.ltb_lt _ _)) by lia.
  cbn [ok_or mbind result_bind]. rewrite read_at_exact_slice.
  replace (pre ++ header ++ (stored ++ write_u32 (crc32 (header ++ stored))) ++ post)
    with ((pre ++ header) ++ (stored ++ write_u32 (crc32 (header ++ stored))) ++ post)
    by by rewrite <- !app_assoc.
  replace (len pre + HEADER_SIZE) with (len (pre ++ header)) by (rewrite len_app; lia).
  rewrite slice_app by (autorewrite with cxdb; lia). cbn [mbind result_bind].
  replace (N.to_nat (len stored)) with (length stored) by (unfold len; lia).
  rewrite drop_app_length, take_app_length.
  rewrite (reads_run _ _ _ (reads_u32 _ (crc32_lt _))). cbn [mbind result_bind].
  rewrite N.eqb_refl. cbn [negb]. rewrite codec_of_u16_u16. cbn [mbind result_bind].
  rewrite Hdec. cbn [mbind result_bind]. rewrite wrap32_small by done.
  by rewrite N.eqb_refl.
Qed.

Lemma get_rep st m h : blob_rep st m → get st h = ok_or (NotFound ($"blob")) (m !! h).
Proof.
  intros Hrep. destruct (m !! h) as [raw|] eqn:Hm.
  - assert (is_Some (bs_index st !! h)) as [e He].
    { apply elem_of_dom. rewrite (rep_dom _ _ Hrep). apply elem_of_dom. eauto. }
    eapply get_located; eauto using rep_ok, rep_located, rep_size.
  - assert (bs_index st !! h = None) as Hh.
    { apply not_elem_of_dom. rewrite (rep_dom _ _ Hrep). by apply not_elem_of_dom. }
    unfold get. by rewrite Hh.
Qed.

(** *** The empty store, [put_if_absent] and reopening *)

Lemma blob_rep_empty : blob_rep (mkBlobStore [] [] ∅) ∅.
Proof.
  split; cbn.
  - by rewrite !dom_empty_L.
  - intros h e raw Hh. by rewrite lookup_empty in Hh.
  - intros h raw Hh. by rewrite lookup_empty in Hh.
  - by exists [].
  - done.
Qed.

Lemma located_app pack more h raw e : located pack h raw e → located (pack ++ more) h raw e.
Proof.
  intros (pre & post & -> & ->). exists pre, (post ++ more). by rewrite <- !app_assoc.
Qed.

(** The abstract [put]: the first content stored under a hash stays. *)
Definition abs_put (h raw : bytes) (m : gmap bytes bytes) : gmap bytes bytes :=
  match m !! h with Some _ => m | None => <[h := raw]> m end.

Lemma put_fresh st h raw :
  bs_index st !! h = None →
  put_if_absent h raw st =
  (Ok (entry_of raw (len (bs_pack st))),
   mkBlobStore (bs_pack st ++ record_of h raw)
     (bs_idx st ++ index_entry_bytes h (entry_of raw (len (bs_pack st))))
     (<[h := entry_of raw (len (bs_pack st))]> (bs_index st))).
Proof.
  intros Hh. unfold put_if_absent, entry_of, record_of. rewrite Hh.
  by destruct (choose_codec raw) as [stored codec].
Qed.

Lemma len_record_of h raw : blob_ok h raw → len (record_of h raw) ≤ HEADER_SIZE + len raw + 4.
Proof.
  intros [Hh _]. unfold record_of. destruct (choose_codec raw) as [stored codec] eqn:Hc.
  apply choose_codec_spec in Hc as [Hc _]. autorewrite with cxdb.
  rewrite len_blob_header by done. lia.
Qed.

Lemma entry_of_ok h raw o : blob_ok h raw → o < U64 →
  len h = 32 ∧ bie_offset (entry_of raw o) < U64
  ∧ bie_raw_len (entry_of raw o) < U32 ∧ bie_stored_len (entry_of raw o) < U32.
Proof.
  intros [Hh _] Ho. unfold entry_of. destruct (choose_codec raw) as [stored codec]. cbn.
  auto using wrap32_lt.
Qed.

Lemma blob_rep_put st m h raw :
  blob_rep st m → blob_ok h raw →
  len (bs_pack st) + HEADER_SIZE + len raw + 4 < U64 →
  (∃ e, (put_if_absent h raw st).1 = Ok e) ∧ blob_rep (put_if_absent h raw st).2 (abs_put h raw m).
Proof.
  intros Hrep Hok Hsize. pose proof (len_record_of h raw Hok) as Hlr.
  destruct Hrep as [Hdom Hloc Hoks (l & Hidx & Hindex & Hl) Hlen].
  destruct (bs_index st !! h) as [e|] eqn:Hh.
  - unfold put_if_absent, abs_put. rewrite Hh. split; [by eexists|].
    assert (is_Some (m !! h)) as [raw' ->].
    { apply elem_of_dom. rewrite <- Hdom. apply elem_of_dom. eauto. }
    split; eauto.
  - rewrite put_fresh by done. split; [by eexists|]. cbn [fst snd].
    assert (Hmh : m !! h = None).
    { apply not_elem_of_dom. rewrite <- Hdom. by apply not_elem_of_dom. }
    unfold abs_put. rewrite Hmh. split; cbn [bs_index bs_pack bs_idx].
    + by rewrite !dom_insert_L, Hdom.
    + intros h' e raw' He Hr. destruct (decide (h = h')) as [<-|Hne].
      * rewrite lookup_insert_eq in He. rewrite lookup_insert_eq in Hr. simplify_eq.
        exists (bs_pack st), []. by rewrite app_nil_r.
      * rewrite lookup_insert_ne in He by done. rewrite lookup_insert_ne in Hr by done. apply located_app. eauto.
    + intros h' raw' [[<- <-]|[_ Hr]]%lookup_insert_Some; eauto.
    + exists (l ++ [(h, entry_of raw (len (bs_pack st)))]).
      rewrite map_app, concat_app, foldl_app, <- Hidx, <- Hindex. cbn. rewrite app_nil_r.
      split_and!; [done..|]. apply Forall_app. split; [done|]. constructor; [|done].
      by apply entry_of_ok.
    + rewrite len_app. lia.
Qed.

Lemma reads_index_entry h e : len h = 32 → bie_offset e < U64 → bie_raw_len e < U32 →
  bie_stored_len e < U32 →
  reads read_index_entry (index_entry_bytes h e)
    (h, bie_offset e, bie_raw_len e, bie_stored_len e, codec_u16 (bie_codec e)).
Proof.
  intros. pose proof (codec_u16_lt (bie_codec e)). assert (0 < U16) by done.
  unfold read_index_entry, index_entry_bytes. solve_reads.
Qed.

Lemma len_index_entry h e : len h = 32 → len (index_entry_bytes h e) = ENTRY_SIZE.
Proof. intros Hh. unfold index_entry_bytes. autorewrite with cxdb. by rewrite Hh. Qed.

Lemma load_index_loop_entries l torn fuel v index :
  Forall (λ '(h, e), len h = 32 ∧ bie_offset e < U64
                     ∧ bie_raw_len e < U32 ∧ bie_stored_len e < U32) l →
  len torn < ENTRY_SIZE → (length l < fuel)%nat →
  load_index_loop fuel (concat (map (λ '(h, e), index_entry_bytes h e) l) ++ torn) v index
  = Ok (foldl (λ i '(h, e), <[h := e]> i) index l, v + ENTRY_SIZE * len l).
Proof.
  intros Hl Ht. revert fuel v index.
  induction Hl as [|[h e] l (Hh & Ho & Hr & Hs) Hl IH]; intros [|fuel] v index Hf;
    cbn [length] in Hf; [lia| |lia|]; cbn [map concat foldl load_index_loop].
  - cbn [app]. rewrite N.mul_0_r, N.add_0_r, (proj2 (N.ltb_lt (len torn) _)) by done.
    by destruct (len torn =? 0).
  - rewrite <- app_assoc, len_app, len_index_entry by done.
    assert (ENTRY_SIZE = 52) by done.
    destruct (N.eqb_spec (ENTRY_SIZE + len (concat
      (map (λ '(h, e), index_entry_bytes h e) l) ++ torn)) 0); [lia|].
    rewrite (proj2 (N.ltb_ge (_ + _) _)) by lia.
    rewrite reads_index_entry by done. rewrite codec_of_u16_u16. cbn [mbind result_bind].
    rewrite IH by lia. rewrite len_cons. destruct e. cbn. do 2 f_equal. lia.
Qed.

Lemma length_le_entries l :
  Forall (λ '(h, e), len h = 32 ∧ bie_offset e < U64
                     ∧ bie_raw_len e < U32 ∧ bie_stored_len e < U32) l →
  len (concat (map (λ '(h, e), index_entry_bytes h e) l)) = ENTRY_SIZE * len l.
Proof.
  induction 1 as [|[h e] l (Hh & _) Hl IH]; [done|]. cbn [map concat].
  rewrite len_app, len_index_entry, IH, len_cons by done. lia.
Qed.

Lemma open_torn st m torn :
  blob_rep st m → len torn < ENTRY_SIZE → open (bs_pack st) (bs_idx st ++ torn) = Ok st.
Proof.
  intros [_ _ _ (l & Hidx & Hindex & Hl) _] Ht. unfold open, load_index.
  pose proof (length_le_entries l Hl) as Hlen. rewrite Hidx.
  rewrite load_index_loop_entries; [|done|done|unfold len, ENTRY_SIZE in *;
    rewrite length_app; lia].
  cbn [mbind result_bind]. rewrite <- Hindex, len_app, Hlen, N.add_0_l.
  destruct st as [pack idx index]; cbn in *. do 2 f_equal.
  destruct (N.ltb_spec (ENTRY_SIZE * len l) (ENTRY_SIZE * len l + len torn)) as [Hlt|Hge].
  - rewrite <- Hlen, Hidx. unfold len. rewrite Nat2N.id. apply take_app_length.
  - rewrite Hidx. rewrite (len_0_nil torn) by lia. apply app_nil_r.
Qed.

End rep.

(** ** Theorems *)

(** The index loop stops by itself: the fuel given by [load_index] is enough, and more
    makes no difference. *)
Lemma load_index_loop_fuel f1 f2 rest v index :
  (length rest < f1)%nat → (length rest < f2)%nat →
  load_index_loop f1 rest v index = load_index_loop f2 rest v index.
Proof.
  revert f2 rest v index; induction f1 as [|f1 IH]; intros [|f2] rest v index H1 H2; try lia.
  cbn [load_index_loop]. destruct (len rest =? 0); [done|].
  destruct (len rest <? ENTRY_SIZE); [done|].
  destruct (read_index_entry rest) as [[[[[[h o] r] s] c] rest']|e] eqn:Hr; [|done].
  destruct (codec_of_u16 c); cbn; [|done]. apply IH; unfold read_index_entry in Hr; reads_inv;
    subst; rewrite !length_app in *; unfold len in *; lia.
Qed.

(** The fields behind a header that [get] accepts. *)
Lemma read_blob_header_inv header magic version codec_raw r s h :
  run_cursor read_blob_header header = Ok (magic, version, codec_raw, r, s, h) →
  len header = HEADER_SIZE →
  header = write_u32 magic ++ write_u16 version ++ write_u16 codec_raw ++ write_u32 r
             ++ write_u32 s ++ h ∧ len h = 32.
Proof.
  unfold run_cursor. destruct (read_blob_header header) as [[x rest]|] eqn:Hr; [|done].
  intros [= ->] Hl. unfold read_blob_header in Hr. reads_inv. subst.
  rewrite !len_app, !len_write_u32, !len_write_u16 in Hl. unfold HEADER_SIZE in Hl.
  rewrite (len_0_nil rest), app_nil_r by lia. done.
Qed.

Lemma codec_of_u16_inv n c : codec_of_u16 n = Ok c → n = codec_u16 c.
Proof.
  unfold codec_of_u16. destruct (N.eqb_spec n 0); [by intros [= <-]|].
  destruct (N.eqb_spec n 1); [by intros [= <-]|done].
Qed.

Lemma take_take_split (n m : N) {A} (l a b : list A) :
  take (N.to_nat n) l = a → take (N.to_nat m) (drop (N.to_nat n) l) = b →
  l = a ++ b ++ drop (N.to_nat (n + m)) l.
Proof.
  intros <- <-. rewrite app_assoc, take_take_drop, N2Nat.inj_add. by rewrite take_drop.
Qed.

Section theorems.
Context `{Crc32Laws} `{ZstdLaws} `{PreadSchedule}.

(** C4. [put_if_absent] implements the abstract insertion: on a store that represents
    the map [m], it succeeds and the new store represents [m] with the content added,
    unless the hash was present, in which case nothing changes. *)
Theorem put_if_absent_refines st m h raw :
  blob_rep st m → blob_ok h raw → len (bs_pack st) + HEADER_SIZE + len raw + 4 < U64 →
  (∃ e, (put_if_absent h raw st).1 = Ok e)
  ∧ blob_rep (put_if_absent h raw st).2 (abs_put h raw m)
  ∧ (m !! h ≠ None → (put_if_absent h raw st).2 = st).
Proof.
  intros Hrep Hok Hsize. destruct (blob_rep_put st m h raw Hrep Hok Hsize) as [He Hr].
  split_and!; [done..|]. intros Hm. unfold put_if_absent.
  destruct (bs_index st !! h) eqn:Hh; [done|]. destruct Hm. apply not_elem_of_dom.
  rewrite <- (rep_dom _ _ Hrep). by apply not_elem_of_dom.
Qed.

(** [get] implements the abstract lookup: on a store that represents [m], it returns
    the content of a known hash, whatever lengths the preads return, and [NotFound] for
    every other hash. *)
Theorem get_refines st m h :
  blob_rep st m → get st h = ok_or (NotFound ($"blob")) (m !! h).
Proof. apply get_rep. Qed.

(** The file contents a crash during [put_if_absent] can leave: part of the record in
    the pack and nothing in the index, or, the pack having been synced, the whole
    record and part of the index entry. *)
Inductive put_crash (st : BlobStore) (h raw : bytes) : bytes → bytes → Prop :=
| crash_in_pack k : put_crash st h raw (bs_pack st ++ take k (record_of h raw)) (bs_idx st)
| crash_in_idx k :
    put_crash st h raw (bs_pack st ++ record_of h raw)
      (bs_idx st ++ take k (index_entry_bytes h (entry_of raw (len (bs_pack st))))).

Lemma blob_rep_pack_garbage st m g :
  blob_rep st m → len (bs_pack st ++ g) < U64 →
  blob_rep (mkBlobStore (bs_pack st ++ g) (bs_idx st) (bs_index st)) m.
Proof.
  intros [Hdom Hloc Hok Hidx Hlen] Hs. split; cbn; eauto using located_app.
Qed.

(** C6. Crash safety: whatever a crash during [put_if_absent] left on disk, reopening
    succeeds and gives a store with either the blobs from before the call or those from
    after it; no blob that was stored earlier is lost or altered. *)
Theorem put_crash_recovers st m h raw pack idx :
  blob_rep st m → blob_ok h raw → m !! h = None →
  len (bs_pack st) + HEADER_SIZE + len raw + 4 < U64 →
  put_crash st h raw pack idx →
  ∃ st', open pack idx = Ok st' ∧ (blob_rep st' m ∨ blob_rep st' (abs_put h raw m)).
Proof.
  intros Hrep Hok Hm Hsize Hcrash. pose proof (len_record_of h raw Hok) as Hlr.
  set (e := entry_of raw (len (bs_pack st))).
  assert (Hgarb : ∀ g, len g ≤ len (record_of h raw) →
    blob_rep (mkBlobStore (bs_pack st ++ g) (bs_idx st) (bs_index st)) m).
  { intros g Hg. apply blob_rep_pack_garbage; [done|]. rewrite len_app. lia. }
  destruct Hcrash as [k|k].
  - set (st1 := mkBlobStore (bs_pack st ++ take k (record_of h raw)) (bs_idx st) (bs_index st)).
    assert (blob_rep st1 m) by (apply Hgarb; rewrite len_take; lia).
    exists st1. split; [|by left]. rewrite <- (app_nil_r (bs_idx st)).
    by apply (open_torn st1 m).
  - destruct (N.ltb_spec (N.of_nat k) ENTRY_SIZE) as [Hk|Hk].
    + set (st1 := mkBlobStore (bs_pack st ++ record_of h raw) (bs_idx st) (bs_index st)).
      assert (blob_rep st1 m) by by apply Hgarb.
      exists st1. split; [|by left]. apply (open_torn st1 m); [done|]. rewrite len_take. lia.
    + destruct (blob_rep_put st m h raw Hrep Hok Hsize) as [_ Hrep'].
      assert (Hh : bs_index st !! h = None).
      { apply not_elem_of_dom. rewrite (rep_dom _ _ Hrep). by apply not_elem_of_dom. }
      rewrite put_fresh in Hrep' by done. eexists. split; [|by right].
      rewrite take_ge.
      * pose proof (open_torn _ _ [] Hrep' ltac:(done)) as Ho. cbn in Ho.
        by rewrite app_nil_r in Ho.
      * destruct Hok as [Hh32 _]. pose proof (len_index_entry h e Hh32) as Hl.
        unfold len in Hl. fold e. lia.
Qed.

Lemma run_read_u32_inv bs n :
  run_cursor (read_u32 (E:=StoreError)) bs = Ok n → ∃ rest, bs = write_u32 n ++ rest.
Proof.
  unfold run_cursor. destruct (read_u32 bs) as [[n' rest]|] eqn:Hr; [|done].
  intros [= <-]. apply read_u32_inv in Hr as [-> _]. eauto.
Qed.

(** Integrity: [get] never returns bytes that the pack does not vouch for. Whatever
    the files and the index contain, a successful [get] of a hash read a complete record
    from the pack at the indexed offset: the current magic and version, this hash, the
    stored bytes and a CRC32 that matches, and the returned bytes are the decoding of the
    stored ones, of the recorded length. *)
Theorem get_integrity st h raw :
  get st h = Ok raw →
  ∃ e codec stored post,
    bs_index st !! h = Some e ∧ len h = 32
    ∧ let header := blob_header codec (wrap32 (len raw)) (len stored) h in
      drop (N.to_nat (bie_offset e)) (bs_pack st)
      = header ++ stored ++ write_u32 (crc32 (header ++ stored)) ++ post
    ∧ (match codec with
       | CodecNone => Ok stored
       | CodecZstd => zstd_decode_all stored
       end) = Ok raw.
Proof.
  unfold get. intros Hg.
  destruct (bs_index st !! h) as [e|] eqn:He; [|done]. cbn [ok_or mbind result_bind] in Hg.
  apply bind_ok in Hg as (header & Hhd & Hg). rewrite read_at_exact_slice in Hhd.
  apply slice_ok in Hhd as [Hhd Hhl].
  apply bind_ok in Hg as ([[[[[magic version] codec_raw] r] s] h'] & Hf & Hg).
  apply read_blob_header_inv in Hf as [Hheader Hh32]; [|exact Hhl]. cbn beta iota in Hg.
  destruct (N.eqb_spec magic BLOB_MAGIC) as [->|]; [|done].
  destruct (N.eqb_spec version BLOB_VERSION) as [->|]; [|done]. cbn [negb] in Hg.
  case_bool_decide as Hhash; [subst h'|done]. cbn [negb] in Hg.
  destruct (negb (s =? bie_stored_len e) || negb (r =? bie_raw_len e)); [done|].
  apply bind_ok in Hg as (bo & Hbo & Hg). apply bind_ok in Hg as (bl & Hbl & Hg).
  apply bind_ok in Hg as (body & Hbody & Hg). rewrite read_at_exact_slice in Hbody.
  unfold checked_add64 in Hbo, Hbl. apply ok_or_ok in Hbo, Hbl.
  destruct (bie_offset e + HEADER_SIZE <? U64); [|done].
  destruct (s + 4 <? U64); [|done]. simplify_eq.
  apply slice_ok in Hbody as [Hbody Hbodyl].
  apply bind_ok in Hg as (crc & Hcrc & Hg).
  set (stored := take (N.to_nat s) body) in *.
  assert (Hsl : len stored = s) by (unfold stored; rewrite len_take; lia).
  assert (Hs : body = stored ++ drop (N.to_nat s) body) by (unfold stored; by rewrite take_drop).
  destruct (N.eqb_spec crc (crc32 (take (N.to_nat HEADER_SIZE)
    (drop (N.to_nat (bie_offset e)) (bs_pack st)) ++ stored))) as [->|]; [|done].
  cbn [negb] in Hg. apply bind_ok in Hg as (codec & ->%codec_of_u16_inv & Hg).
  apply bind_ok in Hg as (raw' & Hraw & Hg).
  destruct (N.eqb_spec (wrap32 (len raw')) r) as [Hr|]; [|done]. cbn [negb] in Hg.
  injection Hg as ->. subst r. apply run_read_u32_inv in Hcrc as [post Hpost]. rewrite Hpost in Hs.
  assert (post = []) as ->.
  { apply len_0_nil. rewrite Hs in Hbodyl. autorewrite with cxdb in Hbodyl. lia. }
  rewrite app_nil_r, Hheader in Hs. rewrite (N2Nat.inj_add (bie_offset e)), <- drop_drop in Hbody.
  clearbody stored.
  exists e, codec, stored, (drop (N.to_nat (HEADER_SIZE + (s + 4)))
    (drop (N.to_nat (bie_offset e)) (bs_pack st))). split_and!; [done..| |].
  - etrans; [apply (take_take_split _ _ _ _ _ Hheader (eq_sym Hbody))|].
    rewrite Hs, Hsl. unfold blob_header. by rewrite <- !app_assoc.
  - destruct codec; [by simplify_eq|]. destruct (zstd_decode_all stored); [by simplify_eq/=|done].
Qed.

End theorems.

(** Concrete stores, for the instances of module [External.Sample]. *)
Module BlobStoreWitness.

#[local] Existing Instances Sample.crc Sample.crc_laws Sample.zstd Sample.zstd_laws Sample.pread.

Definition hash1 : bytes := replicate 32 Byte.x07.
Definition zeros : bytes := replicate 40 Byte.x00.
Definition empty : BlobStore := mkBlobStore [] [] ∅.
Definition store1 : BlobStore := (put_if_absent hash1 zeros empty).2.

Lemma store1_rep : blob_rep store1 (abs_put hash1 zeros ∅).
Proof. by apply (blob_rep_put empty ∅ hash1 zeros blob_rep_empty). Qed.

(** Forty zero bytes are stored compressed, in two bytes, and read back. *)
Example get_stored : get store1 hash1 = Ok zeros ∧ stored_len store1 hash1 = Some 2.
Proof. by vm_compute. Qed.

Lemma put_if_absent_refines_witness : (put_if_absent hash1 [] store1).2 = store1.
Proof.
  assert (Hm : abs_put hash1 zeros ∅ !! hash1 ≠ None) by by vm_compute.
  by apply (put_if_absent_refines store1 (abs_put hash1 zeros ∅) hash1 [] store1_rep).
Defined.

Lemma get_refines_witness : get store1 [] = Err (NotFound ($"blob")).
Proof. exact (get_refines store1 _ [] store1_rep). Defined.

Lemma put_crash_recovers_witness : ∃ st', open (bs_pack store1) (take 51 (bs_idx store1)) = Ok st'
  ∧ (blob_rep st' ∅ ∨ blob_rep st' (abs_put hash1 zeros ∅)).
Proof.
  apply (put_crash_recovers empty ∅ hash1 zeros); [apply blob_rep_empty|done..|].
  exact (crash_in_idx empty hash1 zeros 51).
Defined.

Lemma get_integrity_witness : ∃ e, bs_index store1 !! hash1 = Some e.
Proof.
  destruct (get_integrity store1 hash1 zeros) as (e & _ & _ & _ & He & _); [by vm_compute|].
  by exists e.
Defined.

End BlobStoreWitness.
