(* ===== verification/TurnStore.v ===== *)
(** * TurnStore: the turn DAG and the context heads

    [server/src/turn_store/mod.rs]. Four append-only files, [turns.log] (the turns,
    each with a CRC), [turns.idx] (rebuilt at every start), [turns.meta] (the declared
    types) and [heads.tbl] (one record per change of a head), and the maps replayed
    from them. A file is the list of its bytes; the clock is the argument [now]. *)

From S2P Require Import Prelude Bytes External.

Open Scope N_scope.

Record TurnRecord : Type := mkTurnRecord {
  tr_turn_id : N;
  tr_parent_turn_id : N;
  tr_depth : N;
  tr_codec : N;
  tr_type_tag : N;
  tr_payload_hash : bytes;
  tr_flags : N;
  tr_created_at_unix_ms : N
}.

Record TurnMeta : Type := mkTurnMeta {
  tm_declared_type_id : rstr;
  tm_declared_type_version : N;
  tm_encoding : N;
  tm_compression : N;
  tm_uncompressed_len : N
}.

Record ContextHead : Type := mkContextHead {
  ch_context_id : N;
  ch_head_turn_id : N;
  ch_head_depth : N;
  ch_created_at_unix_ms : N;
  ch_flags : N
}.

#[export] Instance TurnRecord_eq_dec : EqDecision TurnRecord.
Proof. solve_decision. Defined.
#[export] Instance TurnMeta_eq_dec : EqDecision TurnMeta.
Proof. solve_decision. Defined.
#[export] Instance ContextHead_eq_dec : EqDecision ContextHead.
Proof. solve_decision. Defined.

(** [struct TurnStore]: the contents of the files and the maps. *)
Record TurnStore : Type := mkTurnStore {
  ts_turns_log : bytes;
  ts_turns_idx : bytes;
  ts_turns_meta : bytes;
  ts_heads_tbl : bytes;
  ts_turns : gmap N TurnRecord;
  ts_turn_index : gmap N N;
  ts_turn_meta : gmap N TurnMeta;
  ts_heads : gmap N ContextHead;
  ts_next_turn_id : N;
  ts_next_context_id : N
}.

Record TurnStoreStats : Type := mkTurnStoreStats {
  tss_turns_total : N;
  tss_contexts_total : N;
  tss_heads_total : N;
  tss_turns_log_bytes : N;
  tss_turns_index_bytes : N;
  tss_turns_meta_bytes : N;
  tss_heads_table_bytes : N
}.

Definition stats (st : TurnStore) : TurnStoreStats :=
  mkTurnStoreStats (N.of_nat (size (ts_turns st))) (N.of_nat (size (ts_heads st)))
    (N.of_nat (size (ts_heads st))) (len (ts_turns_log st)) (len (ts_turns_idx st))
    (len (ts_turns_meta st)) (len (ts_heads_tbl st)).

(** ** Reading the log: [get_turn], [get_last] and the other queries *)

Definition get_head (st : TurnStore) (context_id : N) : result StoreError ContextHead :=
  ok_or (NotFound ($"context")) (ts_heads st !! context_id).

Definition get_turn (st : TurnStore) (turn_id : N) : result StoreError TurnRecord :=
  ok_or (NotFound ($"turn")) (ts_turns st !! turn_id).

Definition get_turn_meta (st : TurnStore) (turn_id : N) : result StoreError TurnMeta :=
  ok_or (NotFound ($"turn meta")) (ts_turn_meta st !! turn_id).

(** The loop [while current != 0 && results.len() < limit] of [get_last] and
    [get_before]; [n] is what is left of the limit. *)
Fixpoint walk_back (n : nat) (turns : gmap N TurnRecord) (current : N)
    : result StoreError (list TurnRecord) :=
  match n with
  | O => Ok []
  | S n =>
      if current =? 0 then Ok []
      else
        rec ← ok_or (NotFound ($"turn")) (turns !! current);
        rest ← walk_back n turns (tr_parent_turn_id rec);
        Ok (rec :: rest)
  end.

Definition get_last (st : TurnStore) (context_id limit : N)
    : result StoreError (list TurnRecord) :=
  head ← ok_or (NotFound ($"context")) (ts_heads st !! context_id);
  results ← walk_back (N.to_nat limit) (ts_turns st) (ch_head_turn_id head);
  Ok (rev results).

Definition get_before (st : TurnStore) (context_id before_turn_id limit : N)
    : result StoreError (list TurnRecord) :=
  head ← ok_or (NotFound ($"context")) (ts_heads st !! context_id);
  if (before_turn_id =? 0) || (ch_head_turn_id head =? 0) then get_last st context_id limit
  else
    before ← ok_or (NotFound ($"before turn")) (ts_turns st !! before_turn_id);
    results ← walk_back (N.to_nat limit) (ts_turns st) (tr_parent_turn_id before);
    Ok (rev results).

(** The loop of [get_first_turn]. In a well-formed store the walk visits a turn at
    most once, so the number of turns is enough fuel ([first_walk_fuel]). *)
Fixpoint first_walk (fuel : nat) (turns : gmap N TurnRecord) (current : N)
    : result StoreError TurnRecord :=
  match fuel with
  | O => Err (NotFound ($"first turn"))
  | S fuel =>
      if current =? 0 then Err (NotFound ($"first turn"))
      else
        rec ← ok_or (NotFound ($"turn")) (turns !! current);
        if tr_depth rec =? 0 then Ok rec else first_walk fuel turns (tr_parent_turn_id rec)
  end.

Definition get_first_turn (st : TurnStore) (context_id : N) : result StoreError TurnRecord :=
  head ← ok_or (NotFound ($"context")) (ts_heads st !! context_id);
  first_walk (S (size (ts_turns st))) (ts_turns st) (ch_head_turn_id head).

(** [b.created_at.cmp(&a.created_at)] is not [Greater]. *)
Definition more_recent (a b : ContextHead) : bool :=
  ch_created_at_unix_ms b <=? ch_created_at_unix_ms a.

Definition list_recent_contexts `{HashOrder} (st : TurnStore) (limit : N) : list ContextHead :=
  truncate limit (sort_by more_recent (map snd (hash_iter (ts_heads st)))).

(** ** The record formats *)

Section TurnStore.
Context `{Crc32} `{HashOrder}.

(** The bytes of a turn record before its CRC. *)
Definition turn_record_body (r : TurnRecord) : bytes :=
  write_u64 (tr_turn_id r) ++ write_u64 (tr_parent_turn_id r) ++ write_u32 (tr_depth r)
    ++ write_u32 (tr_codec r) ++ write_u64 (tr_type_tag r) ++ tr_payload_hash r
    ++ write_u32 (tr_flags r) ++ write_u64 (tr_created_at_unix_ms r).

Definition encode_turn_record (r : TurnRecord) : bytes :=
  turn_record_body r ++ write_u32 (crc32 (turn_record_body r)).

Definition read_turn_record : reader StoreError TurnRecord :=
  turn_id ← read_u64;
  parent_turn_id ← read_u64;
  depth ← read_u32;
  codec ← read_u32;
  type_tag ← read_u64;
  payload_hash ← read_exact 32;
  flags ← read_u32;
  created_at_unix_ms ← read_u64;
  crc ← read_u32;
  let r := mkTurnRecord turn_id parent_turn_id depth codec type_tag payload_hash flags
             created_at_unix_ms in
  let actual_crc := crc32 (turn_record_body r) in
  if negb (crc =? actual_crc) then rfail (Corrupt ($"turn crc mismatch")) else rret r.

Definition encode_turn_meta (turn_id : N) (m : TurnMeta) : bytes :=
  write_u64 turn_id ++ write_u32 (wrap32 (len (tm_declared_type_id m)))
    ++ tm_declared_type_id m ++ write_u32 (tm_declared_type_version m)
    ++ write_u32 (tm_encoding m) ++ write_u32 (tm_compression m)
    ++ write_u32 (tm_uncompressed_len m).

Definition head_body (h : ContextHead) : bytes :=
  write_u64 (ch_context_id h) ++ write_u64 (ch_head_turn_id h) ++ write_u32 (ch_head_depth h)
    ++ write_u32 (ch_flags h) ++ write_u64 (ch_created_at_unix_ms h).

Definition encode_head (h : ContextHead) : bytes :=
  head_body h ++ write_u32 (crc32 (head_body h)).

(** ** Opening: replay of the files

    Every loop consumes bytes in each iteration, so the length of the file is enough
    fuel. [start] is the position in the file; the last component of the result is
    the length to which the loop truncates the file, if it does. *)

Fixpoint load_turns_loop (fuel : nat) (rest : bytes) (start : N)
    (turns : gmap N TurnRecord) (index : gmap N N)
    : result StoreError (gmap N TurnRecord * gmap N N * option N) :=
  match fuel with
  | O => Ok (turns, index, None)
  | S fuel =>
      match read_turn_record rest with
      | Ok (rec, rest') =>
          load_turns_loop fuel rest' (start + (len rest - len rest'))
            (<[tr_turn_id rec := rec]> turns) (<[tr_turn_id rec := start]> index)
      | Err (Corrupt _) => Ok (turns, index, Some start)
      | Err (Io UnexpectedEof) => Ok (turns, index, Some start)
      | Err e => Err e
      end
  end.

(** [set_len], when the loop asked for it. *)
Definition set_len (file : bytes) (truncated : option N) : bytes :=
  match truncated with Some n => take (N.to_nat n) file | None => file end.

Definition load_turns (st : TurnStore) : result StoreError TurnStore :=
  '(turns, index, truncated) ←
    load_turns_loop (S (length (ts_turns_log st))) (ts_turns_log st) 0 ∅ ∅;
  Ok (mkTurnStore (set_len (ts_turns_log st) truncated) (ts_turns_idx st) (ts_turns_meta st)
        (ts_heads_tbl st) turns index (ts_turn_meta st) (ts_heads st)
        (ts_next_turn_id st) (ts_next_context_id st)).

(** The length and the bytes of the type id; any failure truncates the file. *)
Definition read_meta_name : reader io_kind bytes := n ← read_u32; read_exact n.

(** The four fields after the type id; any failure truncates the file. *)
Definition read_meta_tail : reader io_kind (N * N * N * N) :=
  declared_type_version ← read_u32;
  encoding ← read_u32;
  compression ← read_u32;
  uncompressed_len ← read_u32;
  rret (declared_type_version, encoding, compression, uncompressed_len).

Fixpoint load_meta_loop (fuel : nat) (rest : bytes) (start : N) (metas : gmap N TurnMeta)
    : result StoreError (gmap N TurnMeta * option N) :=
  match fuel with
  | O => Ok (metas, None)
  | S fuel =>
      match read_u64 (E:=io_kind) rest with
      | Err UnexpectedEof => Ok (metas, None)
      | Err e => Err (Io e)
      | Ok (turn_id, rest1) =>
          match read_meta_name rest1 with
          | Err _ => Ok (metas, Some start)
          | Ok (buf, rest2) =>
              declared_type_id ← ok_or (Corrupt ($"invalid type id utf8")) (from_utf8 buf);
              match read_meta_tail rest2 with
              | Err _ => Ok (metas, Some start)
              | Ok (version, encoding, compression, uncompressed_len, rest') =>
                  load_meta_loop fuel rest' (start + (len rest - len rest'))
                    (<[turn_id := mkTurnMeta declared_type_id version encoding compression
                                    uncompressed_len]> metas)
              end
          end
      end
  end.

Definition load_meta (st : TurnStore) : result StoreError TurnStore :=
  '(metas, truncated) ← load_meta_loop (S (length (ts_turns_meta st))) (ts_turns_meta st) 0 ∅;
  Ok (mkTurnStore (ts_turns_log st) (ts_turns_idx st) (set_len (ts_turns_meta st) truncated)
        (ts_heads_tbl st) (ts_turns st) (ts_turn_index st) metas (ts_heads st)
        (ts_next_turn_id st) (ts_next_context_id st)).

(** The fields of a head record after the context id, with the CRC. *)
Definition read_head_tail : reader io_kind (N * N * N * N * N) :=
  head_turn_id ← read_u64;
  head_depth ← read_u32;
  flags ← read_u32;
  created_at_unix_ms ← read_u64;
  crc ← read_u32;
  rret (head_turn_id, head_depth, flags, created_at_unix_ms, crc).

Fixpoint load_heads_loop (fuel : nat) (rest : bytes) (start : N) (heads : gmap N ContextHead)
    : result StoreError (gmap N ContextHead * option N) :=
  match fuel with
  | O => Ok (heads, None)
  | S fuel =>
      match read_u64 (E:=io_kind) rest with
      | Err UnexpectedEof => Ok (heads, None)
      | Err e => Err (Io e)
      | Ok (context_id, rest1) =>
          match read_head_tail rest1 with
          | Err _ => Ok (heads, Some start)
          | Ok (head_turn_id, head_depth, flags, created_at_unix_ms, crc, rest') =>
              let head := mkContextHead context_id head_turn_id head_depth
                            created_at_unix_ms flags in
              if negb (crc =? crc32 (head_body head)) then Ok (heads, Some start)
              else load_heads_loop fuel rest' (start + (len rest - len rest'))
                     (<[context_id := head]> heads)
          end
      end
  end.

Definition load_heads (st : TurnStore) : result StoreError TurnStore :=
  '(heads, truncated) ← load_heads_loop (S (length (ts_heads_tbl st))) (ts_heads_tbl st) 0 ∅;
  Ok (mkTurnStore (ts_turns_log st) (ts_turns_idx st) (ts_turns_meta st)
        (set_len (ts_heads_tbl st) truncated) (ts_turns st) (ts_turn_index st)
        (ts_turn_meta st) heads (ts_next_turn_id st) (ts_next_context_id st)).

Definition rebuild_index (st : TurnStore) : TurnStore :=
  mkTurnStore (ts_turns_log st)
    (concat (map (λ '(turn_id, offset), write_u64 turn_id ++ write_u64 offset)
       (hash_iter (ts_turn_index st))))
    (ts_turns_meta st) (ts_heads_tbl st) (ts_turns st) (ts_turn_index st) (ts_turn_meta st)
    (ts_heads st) (ts_next_turn_id st) (ts_next_context_id st).

Definition update_counters (st : TurnStore) : TurnStore :=
  mkTurnStore (ts_turns_log st) (ts_turns_idx st) (ts_turns_meta st) (ts_heads_tbl st)
    (ts_turns st) (ts_turn_index st) (ts_turn_meta st) (ts_heads st)
    (match max_key (ts_turns st) with Some k => wrap64 (k + 1) | None => ts_next_turn_id st end)
    (match max_key (ts_heads st) with Some k => wrap64 (k + 1) | None => ts_next_context_id st end).

(** [TurnStore::open] on a directory whose files have these contents. *)
Definition open (log idx meta heads : bytes) : result StoreError TurnStore :=
  st ← load_turns (mkTurnStore log idx meta heads ∅ ∅ ∅ ∅ 1 1);
  st ← load_meta st;
  st ← load_heads st;
  Ok (update_counters (rebuild_index st)).

(** ** Writing *)

(** [write_head], followed in every caller by the insertion into [heads]. *)
Definition write_head (head : ContextHead) (st : TurnStore) : TurnStore :=
  mkTurnStore (ts_turns_log st) (ts_turns_idx st) (ts_turns_meta st)
    (ts_heads_tbl st ++ encode_head head) (ts_turns st) (ts_turn_index st) (ts_turn_meta st)
    (ts_heads st) (ts_next_turn_id st) (ts_next_context_id st).

Definition insert_head (head : ContextHead) (st : TurnStore) : TurnStore :=
  mkTurnStore (ts_turns_log st) (ts_turns_idx st) (ts_turns_meta st) (ts_heads_tbl st)
    (ts_turns st) (ts_turn_index st) (ts_turn_meta st)
    (<[ch_context_id head := head]> (ts_heads st)) (ts_next_turn_id st) (ts_next_context_id st).

Definition bump_context_id (st : TurnStore) : TurnStore :=
  mkTurnStore (ts_turns_log st) (ts_turns_idx st) (ts_turns_meta st) (ts_heads_tbl st)
    (ts_turns st) (ts_turn_index st) (ts_turn_meta st) (ts_heads st) (ts_next_turn_id st)
    (wrap64 (ts_next_context_id st + 1)).

Definition create_context (base_turn_id now : N) (st : TurnStore)
    : result StoreError ContextHead * TurnStore :=
  let base := if base_turn_id =? 0 then Ok (0, 0)
              else turn ← ok_or (NotFound ($"base turn")) (ts_turns st !! base_turn_id);
                   Ok (tr_turn_id turn, tr_depth turn) in
  match base with
  | Err e => (Err e, st)
  | Ok (head_turn_id, head_depth) =>
      let head := mkContextHead (ts_next_context_id st) head_turn_id head_depth now 0 in
      (Ok head, insert_head head (write_head head (bump_context_id st)))
  end.

Definition fork_context (base_turn_id now : N) (st : TurnStore)
    : result StoreError ContextHead * TurnStore := create_context base_turn_id now st.

(** The parent and the depth of the new turn. *)
Definition resolve_parent (context_id parent_turn_id : N) (st : TurnStore)
    : result StoreError (N * N) :=
  if negb (parent_turn_id =? 0) then
    parent ← ok_or (NotFound ($"parent turn")) (ts_turns st !! parent_turn_id);
    Ok (tr_turn_id parent, wrap32 (tr_depth parent + 1))
  else
    head ← ok_or (NotFound ($"context")) (ts_heads st !! context_id);
    if ch_head_turn_id head =? 0 then Ok (0, 0)
    else
      parent ← ok_or (NotFound ($"head turn")) (ts_turns st !! ch_head_turn_id head);
      Ok (tr_turn_id parent, wrap32 (tr_depth parent + 1)).

(** The writes of a new turn to the log, the index and the metadata, and the
    insertions into the three maps. *)
Definition write_turn (record : TurnRecord) (meta : TurnMeta) (st : TurnStore) : TurnStore :=
  let offset := len (ts_turns_log st) in
  mkTurnStore (ts_turns_log st ++ encode_turn_record record)
    (ts_turns_idx st ++ write_u64 (tr_turn_id record) ++ write_u64 offset)
    (ts_turns_meta st ++ encode_turn_meta (tr_turn_id record) meta) (ts_heads_tbl st)
    (<[tr_turn_id record := record]> (ts_turns st))
    (<[tr_turn_id record := offset]> (ts_turn_index st))
    (<[tr_turn_id record := meta]> (ts_turn_meta st)) (ts_heads st)
    (ts_next_turn_id st) (ts_next_context_id st).

Definition bump_turn_id (st : TurnStore) : TurnStore :=
  mkTurnStore (ts_turns_log st) (ts_turns_idx st) (ts_turns_meta st) (ts_heads_tbl st)
    (ts_turns st) (ts_turn_index st) (ts_turn_meta st) (ts_heads st)
    (wrap64 (ts_next_turn_id st + 1)) (ts_next_context_id st).

Definition append_turn (context_id parent_turn_id : N) (payload_hash : bytes) (encoding : N)
    (declared_type_id : rstr) (declared_type_version compression uncompressed_len now : N)
    (st : TurnStore) : result StoreError TurnRecord * TurnStore :=
  match resolve_parent context_id parent_turn_id st with
  | Err e => (Err e, st)
  | Ok (parent_id, depth) =>
      let turn_id := ts_next_turn_id st in
      let record := mkTurnRecord turn_id parent_id depth encoding 0 payload_hash 0 now in
      let meta := mkTurnMeta declared_type_id declared_type_version encoding compression
                    uncompressed_len in
      let head := mkContextHead context_id turn_id depth now 0 in
      (Ok record, insert_head head (write_head head (write_turn record meta (bump_turn_id st))))
  end.

End TurnStore.
