(* ===== verification/TurnHistory.v ===== *)
(** * TurnHistory: contexts as paths of the turn DAG

    The abstract view of [TurnStore]: a context is a head turn, and its history is the
    path from a root to that turn. The file defines the well-formedness invariant of
    the maps, shows that every operation keeps it, and characterises the queries and
    the operations by what they do to histories. *)

From S2P Require Import Prelude Bytes External TurnStore.

Open Scope N_scope.

(** ** Histories *)

(** [history turns id l]: [l] is the path from a root to the turn [id], oldest first;
    the id 0 has the empty history. *)
Inductive history (turns : gmap N TurnRecord) : N → list TurnRecord → Prop :=
| history_nil : history turns 0 []
| history_snoc id r l :
    id ≠ 0 → turns !! id = Some r → history turns (tr_parent_turn_id r) l →
    history turns id (l ++ [r]).

(** The history of a context. *)
Definition context_history (st : TurnStore) (c : N) (l : list TurnRecord) : Prop :=
  ∃ h, ts_heads st !! c = Some h ∧ history (ts_turns st) (ch_head_turn_id h) l.

Lemma history_fun turns id l1 l2 : history turns id l1 → history turns id l2 → l1 = l2.
Proof.
  intros H1; revert l2; induction H1 as [|id r l Hid Hr Hl IH]; intros l2 H2;
    inversion H2; simplify_eq; [done|]. f_equal. auto.
Qed.

Lemma history_weaken turns turns' id l :
  turns ⊆ turns' → history turns id l → history turns' id l.
Proof.
  intros Hs. induction 1 as [|id r l Hid Hr Hl IH]; [constructor|].
  apply history_snoc; [done| |done]. by eapply lookup_weaken.
Qed.

Lemma walk_back_history turns id l :
  history turns id l → ∀ n, walk_back n turns id = Ok (rev (last_n n l)).
Proof.
  induction 1 as [|id r l Hid Hr Hl IH]; intros [|n].
  - done.
  - done.
  - unfold last_n. rewrite Nat.sub_0_r, drop_all. done.
  - cbn [walk_back]. destruct (N.eqb_spec id 0); [done|].
    rewrite Hr. cbn [ok_or mbind result_bind]. rewrite IH. cbn [mbind result_bind].
    by rewrite last_n_snoc, rev_app_distr.
Qed.

(** The history of a turn in a longer history is the part before it. *)
Lemma history_prefix turns id pre r post :
  history turns id (pre ++ r :: post) → ∃ i, turns !! i = Some r ∧ i ≠ 0
    ∧ history turns (tr_parent_turn_id r) pre ∧ history turns i (pre ++ [r]).
Proof.
  revert id. induction post as [|r' post IH] using rev_ind; intros id Hh.
  - inversion Hh as [|? r' ? ? ? ? Ha Heq]; [by destruct pre|].
    apply app_inj_tail in Heq as [-> ->]. exists id. repeat split; done.
  - rewrite app_comm_cons, app_assoc in Hh.
    inversion Hh as [|? r'' ? ? ? ? Ha Heq]; [by destruct pre|].
    apply app_inj_tail in Heq as [-> ->]. eauto.
Qed.

(** ** Well-formedness *)

Definition turn_fits (r : TurnRecord) : Prop :=
  tr_parent_turn_id r < U64 ∧ tr_codec r < U32 ∧ tr_type_tag r < U64
  ∧ len (tr_payload_hash r) = 32 ∧ tr_flags r < U32 ∧ tr_created_at_unix_ms r < U64.

(** A turn is a root or its parent is an earlier turn, one level up. *)
Definition turn_linked (turns : gmap N TurnRecord) (r : TurnRecord) : Prop :=
  (tr_parent_turn_id r = 0 ∧ tr_depth r = 0)
  ∨ ∃ p, turns !! tr_parent_turn_id r = Some p
         ∧ tr_parent_turn_id r < tr_turn_id r ∧ tr_depth r = tr_depth p + 1.

(** A head is empty or points at a turn of its depth. *)
Definition head_linked (turns : gmap N TurnRecord) (h : ContextHead) : Prop :=
  (ch_head_turn_id h = 0 ∧ ch_head_depth h = 0)
  ∨ ∃ r, turns !! ch_head_turn_id h = Some r ∧ ch_head_depth h = tr_depth r.

Record wf_turns (turns : gmap N TurnRecord) (next : N) : Prop := {
  wf_id : ∀ id r, turns !! id = Some r → tr_turn_id r = id ∧ 0 < id < next;
  wf_fits : ∀ id r, turns !! id = Some r → turn_fits r;
  wf_linked : ∀ id r, turns !! id = Some r → turn_linked turns r
}.

Record wf (st : TurnStore) : Prop := {
  wf_turns_ok : wf_turns (ts_turns st) (ts_next_turn_id st);
  wf_head_id : ∀ c h, ts_heads st !! c = Some h → ch_context_id h = c;
  wf_head_linked : ∀ c h, ts_heads st !! c = Some h → head_linked (ts_turns st) h;
  wf_next : 0 < ts_next_turn_id st
}.

Section wf_turns.
Context {turns : gmap N TurnRecord} {next : N} (Hwf : wf_turns turns next).

Lemma history_exists id : id = 0 ∨ is_Some (turns !! id) → ∃ l, history turns id l.
Proof using Hwf.
  induction id as [id IH] using (well_founded_induction N.lt_wf_0).
  intros [->|[r Hr]]; [exists []; constructor|].
  destruct (wf_id _ _ Hwf _ _ Hr) as [Hid Hpos].
  destruct (wf_linked _ _ Hwf _ _ Hr) as [[Hp _]|(p & Hp & Hlt & _)].
  - exists ([] ++ [r]). apply history_snoc; [lia|done|]. rewrite Hp. constructor.
  - destruct (IH (tr_parent_turn_id r)) as [l Hl]; [lia|by right; eexists|].
    exists (l ++ [r]). apply history_snoc; [lia|done..].
Qed.

(** Depth is the position in the history, ids increase along it. *)
Lemma history_depth id l :
  history turns id l → ∀ i r, l !! i = Some r → tr_depth r = N.of_nat i.
Proof using Hwf.
  induction 1 as [|id r l Hid Hr Hl IH]; [done|]. intros i r' [Hi|[Hge Hi]]%lookup_app_Some.
  - eauto.
  - assert (i = length l ∧ r' = r) as [-> ->].
    { destruct (i - length l)%nat eqn:Hd; cbn in Hi; simplify_eq. split; [lia|done]. }
    destruct (wf_linked _ _ Hwf _ _ Hr) as [[Hp ->]|(p & Hp & Hlt & ->)].
    + rewrite Hp in Hl. inversion Hl; [done|by simplify_eq].
    + inversion Hl as [Heq|? p' l' Hpid Hp' Hl' Heq1 Heq2]; subst.
      * rewrite <- Heq in Hp. destruct (wf_id _ _ Hwf _ _ Hp). lia.
      * simplify_eq. rewrite (IH (length l') p); [rewrite length_app; cbn [length]; lia|].
        by rewrite lookup_app_r, Nat.sub_diag by lia.
Qed.

Lemma history_length id r l : turns !! id = Some r → history turns id l →
  len l = tr_depth r + 1.
Proof using Hwf.
  intros Hr Hl. pose proof (history_depth _ _ Hl) as Hd.
  destruct (wf_id _ _ Hwf _ _ Hr) as [_ Hpos].
  inversion Hl as [|? r' l' ? Hr' ? ]; [lia|]. simplify_eq.
  rewrite (Hd (length l') r); [unfold len; rewrite length_app; cbn [length]; lia|].
  by rewrite lookup_app_r, Nat.sub_diag by lia.
Qed.

Lemma history_elem id l r : history turns id l → r ∈ l → turns !! tr_turn_id r = Some r.
Proof using Hwf.
  induction 1 as [|i r' l Hid Hr Hl IH]; [by intros ?%elem_of_nil|].
  intros [?| ->%list_elem_of_singleton]%elem_of_app; [auto|].
  by destruct (wf_id _ _ Hwf _ _ Hr) as [-> _].
Qed.

(** Ids increase along a history, so no turn occurs twice. *)
Lemma history_ids id l : history turns id l →
  (∀ r, r ∈ l → tr_turn_id r ≤ id) ∧ StronglySorted (λ a b, tr_turn_id a < tr_turn_id b) l.
Proof using Hwf.
  induction 1 as [|i r l Hid Hr Hl [IHle IHs]].
  - split; [by intros ? ?%elem_of_nil|constructor].
  - destruct (wf_id _ _ Hwf _ _ Hr) as [Hi Hpos].
    assert (Hlt : ∀ x, x ∈ l → tr_turn_id x < i).
    { intros x Hx. specialize (IHle _ Hx).
      destruct (wf_linked _ _ Hwf _ _ Hr) as [[Hp _]|(p & _ & ? & _)]; [|lia].
      rewrite Hp in Hl. inversion Hl; subst; [by apply elem_of_nil in Hx|done]. }
    split.
    + intros x [Hx| ->%list_elem_of_singleton]%elem_of_app; [specialize (Hlt _ Hx)|]; lia.
    + clear -IHs Hlt Hi. induction IHs as [|x l Hl IH Hall]; cbn; [repeat constructor|].
      constructor; [apply IH; intros; apply Hlt; by right|].
      apply Forall_app. split; [done|]. constructor; [|done]. rewrite Hi. apply Hlt. left.
Qed.

Lemma depth_lt_id id r : turns !! id = Some r → tr_depth r < id.
Proof using Hwf.
  revert r. induction id as [id IH] using (well_founded_induction N.lt_wf_0).
  intros r Hr. destruct (wf_id _ _ Hwf _ _ Hr) as [Hid Hpos].
  destruct (wf_linked _ _ Hwf _ _ Hr) as [[_ ->]|(p & Hp & Hlt & ->)]; [lia|].
  assert (tr_depth p < tr_parent_turn_id r) by (apply IH; [lia|done]). lia.
Qed.

(** [get_first_turn] walks to the root: the fuel is enough. *)
Lemma first_walk_history id l fuel : history turns id l → (length l < fuel)%nat →
  first_walk fuel turns id = ok_or (NotFound ($"first turn")) (head l).
Proof using Hwf.
  intros Hh. revert fuel. induction Hh as [|id r l Hid Hr Hl IH]; intros [|fuel] Hf; try done.
  - cbn in Hf. lia.
  - rewrite length_app in Hf. cbn [length] in Hf.
    cbn [first_walk]. destruct (N.eqb_spec id 0); [done|]. rewrite Hr. cbn [ok_or mbind result_bind].
    assert (Hdr : tr_depth r = len l).
    { pose proof (history_length _ _ _ Hr (history_snoc _ _ _ _ Hid Hr Hl)) as Hlen.
      rewrite len_app, len_cons, len_nil in Hlen. lia. }
    destruct (N.eqb_spec (tr_depth r) 0) as [Hz|Hz].
    + rewrite (len_0_nil l) by lia. done.
    + rewrite IH by lia. destruct l; [by rewrite len_nil in Hdr|done].
Qed.

Lemma history_size id l : history turns id l → (length l ≤ size turns)%nat.
Proof using Hwf.
  intros Hh. destruct (history_ids _ _ Hh) as [_ Hs].
  rewrite <- (length_map tr_turn_id l), <- size_dom.
  assert (Hnd : NoDup (map tr_turn_id l)).
  { clear -Hs. induction Hs as [|x l Hl IH Hall]; cbn; constructor; [|done].
    intros (y & Hxy & Hy)%list_elem_of_fmap. rewrite Forall_forall in Hall.
    specialize (Hall _ Hy). cbn in Hall. lia. }
  rewrite <- (size_list_to_set (C:=gset N)) by done.
  apply subseteq_size. intros i (r & -> & Hr)%elem_of_list_to_set%list_elem_of_fmap.
  apply elem_of_dom. exists r. by eapply history_elem.
Qed.
End wf_turns.

(** ** What the operations do to the maps *)

Section operations.
Context `{Crc32} `{HashOrder}.

(** The arguments of [append_turn] fit the fields they are written to. *)
Definition append_fits (context_id : N) (payload_hash : bytes) (encoding : N)
    (declared_type_id : rstr) (version compression uncompressed_len now : N) : Prop :=
  context_id < U64 ∧ len payload_hash = 32 ∧ encoding < U32
  ∧ utf8_valid declared_type_id = true ∧ len declared_type_id < U32
  ∧ version < U32 ∧ compression < U32 ∧ uncompressed_len < U32 ∧ now < U64.

(** The turn after which [append_turn] appends: the explicit parent, else the head. *)
Definition parent_of (context_id parent_turn_id : N) (st : TurnStore) : option N :=
  if parent_turn_id =? 0 then ch_head_turn_id <$> ts_heads st !! context_id
  else if decide (is_Some (ts_turns st !! parent_turn_id)) then Some parent_turn_id else None.

Lemma resolve_parent_spec st c p :
  wf st → ts_next_turn_id st < U32 →
  match parent_of c p st with
  | Some pid =>
      ∃ depth, resolve_parent c p st = Ok (pid, depth)
        ∧ ((pid = 0 ∧ depth = 0)
           ∨ ∃ pr, ts_turns st !! pid = Some pr ∧ pid < ts_next_turn_id st
                   ∧ depth = tr_depth pr + 1)
  | None => resolve_parent c p st
            = Err (NotFound (if p =? 0 then $"context" else $"parent turn"))
  end.
Proof.
  intros Hwf Hn. destruct (wf_turns_ok _ Hwf) as [Hid Hfits Hlink].
  assert (Hturn : ∀ i r, ts_turns st !! i = Some r →
    tr_turn_id r = i ∧ wrap32 (tr_depth r + 1) = tr_depth r + 1 ∧ i < ts_next_turn_id st).
  { intros i r Hr. destruct (Hid _ _ Hr).
    pose proof (depth_lt_id (wf_turns_ok _ Hwf) _ _ Hr). rewrite wrap32_small by lia. lia. }
  unfold parent_of, resolve_parent. destruct (N.eqb_spec p 0) as [->|Hp]; cbn [negb].
  - destruct (ts_heads st !! c) as [h|] eqn:Hh; [|done]. cbn [fmap option_fmap option_map].
    cbn [ok_or mbind result_bind]. destruct (N.eqb_spec (ch_head_turn_id h) 0) as [->|Hne].
    + exists 0. split; [done|by left].
    + destruct (wf_head_linked _ Hwf _ _ Hh) as [[? _]|(r & Hr & _)]; [done|].
      rewrite Hr. cbn. destruct (Hturn _ _ Hr) as (-> & -> & ?). eexists. split; [done|]. eauto.
  - destruct (ts_turns st !! p) as [r|] eqn:Hr.
    + rewrite decide_True by eauto. cbn. destruct (Hturn _ _ Hr) as (-> & -> & ?).
      eexists. split; [done|]. eauto.
    + rewrite decide_False by (intros [? ?]; done). done.
Qed.

Lemma turn_linked_weaken turns turns' r :
  turns ⊆ turns' → turn_linked turns r → turn_linked turns' r.
Proof.
  intros Hs [?|(p & ? & ?)]; [by left|]. right. exists p. split; [by eapply lookup_weaken|done].
Qed.

Lemma head_linked_weaken turns turns' h :
  turns ⊆ turns' → head_linked turns h → head_linked turns' h.
Proof.
  intros Hs [?|(p & ? & ?)]; [by left|]. right. exists p. split; [by eapply lookup_weaken|done].
Qed.

Lemma wf_turns_fresh turns next : wf_turns turns next → turns !! next = None.
Proof.
  intros Hwf. destruct (turns !! next) as [r|] eqn:Hr; [|done].
  destruct (wf_id _ _ Hwf _ _ Hr). lia.
Qed.

Lemma wf_turns_insert turns next r :
  wf_turns turns next → tr_turn_id r = next → 0 < next → turn_fits r → turn_linked turns r →
  wf_turns (<[next := r]> turns) (next + 1).
Proof.
  intros Hwf Hid Hpos Hfit Hlink. pose proof (wf_turns_fresh _ _ Hwf) as Hfresh.
  assert (Hsub : turns ⊆ <[next := r]> turns) by by apply insert_subseteq.
  split.
  - intros i r' [[<- <-]|[_ Hr]]%lookup_insert_Some; [lia|].
    destruct (wf_id _ _ Hwf _ _ Hr). lia.
  - intros i r' [[<- <-]|[_ Hr]]%lookup_insert_Some; [done|]. by eapply wf_fits.
  - intros i r' [[<- <-]|[_ Hr]]%lookup_insert_Some; eapply turn_linked_weaken; eauto.
    by eapply wf_linked.
Qed.

Lemma create_context_spec st base now :
  match (if base =? 0 then Some (0, 0)
         else (λ r, (base, tr_depth r)) <$> ts_turns st !! base) with
  | Some (id, depth) => wf st →
      let head := mkContextHead (ts_next_context_id st) id depth now 0 in
      create_context base now st
      = (Ok head, insert_head head (write_head head (bump_context_id st)))
      ∧ head_linked (ts_turns st) head
  | None => create_context base now st = (Err (NotFound ($"base turn")), st)
  end.
Proof.
  unfold create_context. destruct (N.eqb_spec base 0) as [->|Hb].
  - intros Hwf. split; [done|by left].
  - destruct (ts_turns st !! base) as [r|] eqn:Hr; [|done]. cbn. intros Hwf.
    destruct (wf_id _ _ (wf_turns_ok _ Hwf) _ _ Hr) as [-> _]. split; [done|].
    right. exists r. done.
Qed.

Lemma wf_insert_head st head :
  wf st → head_linked (ts_turns st) head → wf (insert_head head (write_head head st)).
Proof.
  intros [Ht Hid Hl Hn] Hh. split; cbn; [done| |  |done].
  - intros c h [[<- <-]|[_ Hc]]%lookup_insert_Some; eauto.
  - intros c h [[<- <-]|[_ Hc]]%lookup_insert_Some; eauto.
Qed.

Lemma wf_create st base now : wf st → wf (create_context base now st).2.
Proof.
  intros Hwf. pose proof (create_context_spec st base now) as Hspec.
  destruct (if base =? 0 then _ else _) as [[id depth]|].
  - destruct (Hspec Hwf) as [-> Hl]. apply wf_insert_head; [|done]. by destruct Hwf.
  - by rewrite Hspec.
Qed.

(** The state after a successful append. *)
Definition appended (st : TurnStore) (record : TurnRecord) (meta : TurnMeta) (c : N)
    : TurnStore :=
  let head := mkContextHead c (tr_turn_id record) (tr_depth record)
                (tr_created_at_unix_ms record) 0 in
  insert_head head (write_head head (write_turn record meta (bump_turn_id st))).

Lemma append_turn_spec st c p hash enc tid ver comp ulen now :
  wf st → ts_next_turn_id st < U32 →
  match parent_of c p st with
  | Some pid =>
      ∃ depth,
        let record := mkTurnRecord (ts_next_turn_id st) pid depth enc 0 hash 0 now in
        append_turn c p hash enc tid ver comp ulen now st
        = (Ok record, appended st record (mkTurnMeta tid ver enc comp ulen) c)
        ∧ turn_linked (ts_turns st) record ∧ pid < ts_next_turn_id st
  | None => append_turn c p hash enc tid ver comp ulen now st
            = (Err (NotFound (if p =? 0 then $"context" else $"parent turn")), st)
  end.
Proof.
  intros Hwf Hn. pose proof (resolve_parent_spec st c p Hwf Hn) as Hspec.
  unfold append_turn. destruct (parent_of c p st) as [pid|].
  - destruct Hspec as (depth & -> & Hd). exists depth. split; [done|].
    pose proof (wf_next _ Hwf). destruct Hd as [[-> ->]|(pr & Hpr & Hlt & ->)].
    + split; [by left|done].
    + split; [|done]. right. exists pr. done.
  - by rewrite Hspec.
Qed.

Lemma appended_turns st record meta c :
  ts_turns (appended st record meta c) = <[tr_turn_id record := record]> (ts_turns st).
Proof. done. Qed.

Lemma wf_appended st record meta c :
  wf st → ts_next_turn_id st < U32 → tr_turn_id record = ts_next_turn_id st →
  turn_fits record → turn_linked (ts_turns st) record → wf (appended st record meta c).
Proof.
  intros Hwf Hn Hid Hfit Hlink. apply wf_insert_head.
  - destruct Hwf as [Ht Hhid Hhl Hpos]. split; cbn.
    + rewrite wrap64_small by lia. rewrite Hid. by apply wf_turns_insert.
    + done.
    + intros c' h Hh. eapply head_linked_weaken; [|by eapply Hhl].
      apply insert_subseteq. rewrite Hid. by apply wf_turns_fresh.
    + rewrite wrap64_small by lia. lia.
  - right. exists record. cbn. by rewrite lookup_insert_eq.
Qed.

Lemma wf_append st c p hash enc tid ver comp ulen now :
  wf st → ts_next_turn_id st < U32 → append_fits c hash enc tid ver comp ulen now →
  wf (append_turn c p hash enc tid ver comp ulen now st).2.
Proof.
  intros Hwf Hn (Hc & Hh & He & _ & _ & _ & _ & _ & Hnow).
  pose proof (append_turn_spec st c p hash enc tid ver comp ulen now Hwf Hn) as Hspec.
  destruct (parent_of c p st) as [pid|]; [|by rewrite Hspec].
  destruct Hspec as (depth & -> & Hlink & Hpid). cbn [snd].
  apply wf_appended; try done. repeat split; cbn; try done; lia.
Qed.

Lemma context_history_exists st c :
  wf st → is_Some (ts_heads st !! c) → ∃ l, context_history st c l.
Proof.
  intros Hwf [h Hh]. destruct (history_exists (wf_turns_ok _ Hwf) (ch_head_turn_id h)) as [l Hl].
  - destruct (wf_head_linked _ Hwf _ _ Hh) as [[-> _]|(r & -> & _)]; eauto.
  - by exists l, h.
Qed.

Lemma append_history st c p hash enc tid ver comp ulen now :
  wf st → ts_next_turn_id st < U32 →
  match parent_of c p st with
  | Some pid => ∃ l,
      let record := mkTurnRecord (ts_next_turn_id st) pid (len l) enc 0 hash 0 now in
      let st' := appended st record (mkTurnMeta tid ver enc comp ulen) c in
      history (ts_turns st) pid l
      ∧ append_turn c p hash enc tid ver comp ulen now st = (Ok record, st')
      ∧ context_history st' c (l ++ [record])
      ∧ ts_turns st !! ts_next_turn_id st = None
  | None => append_turn c p hash enc tid ver comp ulen now st
            = (Err (NotFound (if p =? 0 then $"context" else $"parent turn")), st)
  end.
Proof.
  intros Hwf Hn. pose proof (append_turn_spec st c p hash enc tid ver comp ulen now Hwf Hn) as Hspec.
  destruct (parent_of c p st) as [pid|]; [|done].
  destruct Hspec as (depth & Heq & Hlink & Hpid). pose proof (wf_turns_ok _ Hwf) as Ht.
  pose proof (wf_turns_fresh _ _ Ht) as Hfresh. pose proof (wf_next _ Hwf) as Hpos.
  destruct (history_exists Ht pid) as [l Hl].
  { destruct Hlink as [[? _]|(pr & Hpr & _)]; cbn in *; eauto. }
  assert (depth = len l) as ->.
  { destruct Hlink as [[Hp Hd]|(pr & Hpr & _ & Hd)]; cbn in *.
    - subst. by inversion Hl.
    - by rewrite (history_length Ht _ _ _ Hpr Hl). }
  exists l. split_and!; try done.
  eexists. split; [cbn; by rewrite lookup_insert_eq|]. cbn [ch_head_turn_id].
  apply history_snoc; [cbn; lia|by rewrite appended_turns, lookup_insert_eq|].
  eapply history_weaken; [|done]. by apply insert_subseteq.
Qed.

Lemma get_last_history st c l limit :
  context_history st c l → get_last st c limit = Ok (last_n (N.to_nat limit) l).
Proof.
  intros (h & Hh & Hl). unfold get_last. rewrite Hh. cbn.
  rewrite (walk_back_history _ _ _ Hl). cbn. by rewrite rev_involutive.
Qed.

Lemma context_history_weaken st st' c l :
  ts_turns st ⊆ ts_turns st' → ts_heads st' !! c = ts_heads st !! c →
  context_history st c l → context_history st' c l.
Proof.
  intros Hs Hc (h & Hh & Hl). exists h. rewrite Hc. eauto using history_weaken.
Qed.

End operations.

(** ** Theorems *)

Section theorems.
Context `{Crc32} `{HashOrder}.

(** C7. In a well-formed store every context has one history: a path from a turn of
    depth 0 to the head on which depths count from 0 and ids increase, so that it is
    finite and visits no turn twice; [get_last] returns its last [limit] turns in order
    and [get_first_turn] its first, or [NotFound] for an empty context. *)
Theorem get_last_spec st c h :
  wf st → ts_heads st !! c = Some h →
  ∃ l, context_history st c l
    ∧ (∀ limit, get_last st c limit = Ok (last_n (N.to_nat limit) l))
    ∧ get_first_turn st c = ok_or (NotFound ($"first turn")) (head l)
    ∧ (∀ i r, l !! i = Some r → tr_depth r = N.of_nat i)
    ∧ StronglySorted (λ a b, tr_turn_id a < tr_turn_id b) l
    ∧ (l ≠ [] → len l = ch_head_depth h + 1).
Proof.
  intros Hwf Hh. destruct (context_history_exists st c Hwf) as [l Hl]; [by rewrite Hh|].
  exists l. split; [done|]. split; [intros; by apply get_last_history|].
  destruct Hl as (h' & Hh' & Hl). simplify_eq. pose proof (wf_turns_ok _ Hwf) as Ht.
  split.
  { unfold get_first_turn. rewrite Hh. cbn [ok_or mbind result_bind].
    apply (first_walk_history Ht); [done|]. pose proof (history_size Ht _ _ Hl). lia. }
  split; [by apply (history_depth Ht _ _ Hl)|].
  split; [by destruct (history_ids Ht _ _ Hl)|].
  intros Hne. destruct (wf_head_linked _ Hwf _ _ Hh) as [[H0' _]|(r & Hr & ->)].
  - rewrite H0' in Hl. by inversion Hl.
  - by apply (history_length Ht _ _ _ Hr).
Qed.

Lemma get_before_history st c pre r page n :
  wf st → context_history st c (pre ++ r :: page) →
  get_before st c (tr_turn_id r) n = Ok (last_n (N.to_nat n) pre).
Proof.
  intros Hwf (h & Hh & Hl). pose proof Hl as Hp.
  apply history_prefix in Hp as (i & Hi & Hi0 & Hpre & _).
  destruct (wf_id _ _ (wf_turns_ok _ Hwf) _ _ Hi) as [<- _].
  unfold get_before. rewrite Hh. cbn [ok_or mbind result_bind].
  rewrite (proj2 (N.eqb_neq _ _) Hi0). cbn [orb].
  destruct (N.eqb_spec (ch_head_turn_id h) 0) as [H0'|].
  - rewrite H0' in Hl. inversion Hl as [Hnil|]; [by destruct pre|done].
  - rewrite Hi. cbn. rewrite (walk_back_history _ _ _ Hpre). cbn. by rewrite rev_involutive.
Qed.

(** Paging backwards is exact: a page of [n] turns followed by a page of at most [m]
    turns before its first turn is the page of [n + m] turns; no turn is lost or
    repeated between pages. *)
Theorem get_before_paging st c n m r page :
  wf st → get_last st c n = Ok (r :: page) →
  get_last st c (n + m)
  = (older ← get_before st c (tr_turn_id r) m; Ok (older ++ r :: page)).
Proof.
  intros Hwf Hpage. destruct (ts_heads st !! c) as [h|] eqn:Hh.
  - destruct (context_history_exists st c Hwf) as [l Hl]; [by rewrite Hh|].
    pose proof (λ k, get_last_history _ _ _ k Hl) as Hlast. rewrite Hlast in Hpage.
    injection Hpage as Hpage. rewrite Hlast, N2Nat.inj_add, last_n_add, Hpage.
    rewrite (get_before_history st c (take (length l - N.to_nat n) l) r page m Hwf); [done|].
    rewrite <- Hpage. unfold last_n. by rewrite take_drop.
  - unfold get_last in Hpage. by rewrite Hh in Hpage.
Qed.

(** [append_turn] extends the history of the parent by the new turn and makes it the
    history of the context; the record has the arguments of the call, a fresh id and the
    depth of its position; without a parent nothing changes and the call says
    which one is missing. *)
Theorem append_turn_extends st c p hash enc tid ver comp ulen now :
  wf st → ts_next_turn_id st < U32 →
  let '(r, st') := append_turn c p hash enc tid ver comp ulen now st in
  match parent_of c p st with
  | Some pid => ∃ l record,
      r = Ok record ∧ history (ts_turns st) pid l
      ∧ context_history st' c (l ++ [record])
      ∧ record = mkTurnRecord (ts_next_turn_id st) pid (len l) enc 0 hash 0 now
      ∧ ts_turns st !! tr_turn_id record = None
      ∧ get_turn st' (tr_turn_id record) = Ok record
      ∧ get_turn_meta st' (tr_turn_id record) = Ok (mkTurnMeta tid ver enc comp ulen)
      ∧ get_head st' c = Ok (mkContextHead c (tr_turn_id record) (len l) now 0)
  | None => r = Err (NotFound (if p =? 0 then $"context" else $"parent turn")) ∧ st' = st
  end.
Proof.
  intros Hwf Hn. pose proof (append_history st c p hash enc tid ver comp ulen now Hwf Hn) as Hspec.
  destruct (parent_of c p st) as [pid|]; [|by rewrite Hspec].
  destruct Hspec as (l & Hl & -> & Hc & Hfresh). eexists l, _. split_and!; try done; cbn.
  - unfold get_turn. by rewrite appended_turns, lookup_insert_eq.
  - unfold get_turn_meta, appended. cbn. by rewrite lookup_insert_eq.
  - unfold get_head, appended. cbn. by rewrite lookup_insert_eq.
Qed.

(** Contexts are isolated: an append in one context, and the creation of another
    (by [create_context] or [fork_context]), leave the history of every other context
    as it was, and so all the pages its clients read. *)
Theorem contexts_isolated st c l :
  wf st → context_history st c l →
  (∀ c' p hash enc tid ver comp ulen now, ts_next_turn_id st < U32 → c' ≠ c →
     context_history (append_turn c' p hash enc tid ver comp ulen now st).2 c l)
  ∧ (∀ base now, ts_next_context_id st ≠ c →
     context_history (create_context base now st).2 c l
     ∧ context_history (fork_context base now st).2 c l).
Proof.
  intros Hwf Hc. split.
  - intros c' p hash enc tid ver comp ulen now Hn Hne.
    pose proof (append_turn_spec st c' p hash enc tid ver comp ulen now Hwf Hn) as Hspec.
    destruct (parent_of c' p st) as [pid|]; [|by rewrite Hspec].
    destruct Hspec as (depth & -> & _). cbn [snd]. eapply context_history_weaken; [| |done].
    + rewrite appended_turns. apply insert_subseteq, (wf_turns_fresh _ _ (wf_turns_ok _ Hwf)).
    + unfold appended. cbn. by rewrite lookup_insert_ne.
  - intros base now Hne. unfold fork_context.
    assert (Hcc : context_history (create_context base now st).2 c l); [|done].
    pose proof (create_context_spec st base now) as Hspec.
    destruct (if base =? 0 then _ else _) as [[id depth]|]; [|by rewrite Hspec].
    destruct (Hspec Hwf) as [-> _]. cbn [snd]. eapply context_history_weaken; [cbn; reflexivity| |done].
    cbn. by rewrite lookup_insert_ne.
Qed.

(** Forking shares history: a context created at a turn has exactly the history of
    that turn, at base 0 the empty one, and the ids of contexts are handed out in order;
    an unknown base turn is an error that changes nothing. *)
Theorem fork_shares_history st base now :
  wf st → ts_next_context_id st + 1 < U64 →
  let '(r, st') := fork_context base now st in
  if decide (base = 0 ∨ is_Some (ts_turns st !! base)) then
    ∃ l head, r = Ok head ∧ ch_context_id head = ts_next_context_id st
      ∧ get_head st' (ch_context_id head) = Ok head
      ∧ history (ts_turns st) base l ∧ context_history st' (ch_context_id head) l
      ∧ (base ≠ 0 → len l = ch_head_depth head + 1)
      ∧ ts_next_context_id st' = ts_next_context_id st + 1
  else r = Err (NotFound ($"base turn")) ∧ st' = st.
Proof.
  intros Hwf Hn. unfold fork_context. pose proof (create_context_spec st base now) as Hspec.
  case_decide as Hb.
  - destruct (history_exists (wf_turns_ok _ Hwf) base Hb) as [l Hl].
    assert (Hd : ∃ depth, create_context base now st
        = (Ok (mkContextHead (ts_next_context_id st) base depth now 0),
           insert_head (mkContextHead (ts_next_context_id st) base depth now 0)
             (write_head (mkContextHead (ts_next_context_id st) base depth now 0)
                (bump_context_id st)))
        ∧ (base ≠ 0 → len l = depth + 1)).
    { destruct (N.eqb_spec base 0) as [->|Hne].
      - exists 0. destruct (Hspec Hwf) as [-> _]. done.
      - destruct Hb as [?|[r Hr]]; [done|]. rewrite Hr in Hspec. cbn in Hspec.
        destruct (Hspec Hwf) as [-> _]. eexists. split; [done|].
        intros _. by apply (history_length (wf_turns_ok _ Hwf) _ _ _ Hr). }
    destruct Hd as (depth & -> & Hlen). exists l. eexists. split_and!; try done.
    + unfold get_head. cbn. by rewrite lookup_insert_eq.
    + eexists. split; [cbn; by rewrite lookup_insert_eq|]. done.
    + cbn. by rewrite wrap64_small by lia.
  - destruct (N.eqb_spec base 0); [by destruct Hb; left|].
    destruct (ts_turns st !! base); [by destruct Hb; right|]. cbn in Hspec. by rewrite Hspec.
Qed.

(** [list_recent_contexts] returns the [limit] most recent contexts: it sorts all the
    heads by descending time of their last change, whatever order the map yields them
    in, and no head left out is more recent than one returned. *)
Theorem list_recent_contexts_spec `{HashOrderLaws} st limit :
  ∃ sorted, list_recent_contexts st limit = take (N.to_nat limit) sorted
    ∧ sorted ≡ₚ map snd (map_to_list (ts_heads st))
    ∧ StronglySorted (λ a b, ch_created_at_unix_ms b ≤ ch_created_at_unix_ms a) sorted
    ∧ ∀ a b, a ∈ take (N.to_nat limit) sorted → b ∈ drop (N.to_nat limit) sorted →
        ch_created_at_unix_ms b ≤ ch_created_at_unix_ms a.
Proof.
  exists (sort_by more_recent (map snd (hash_iter (ts_heads st)))).
  split; [apply truncate_take|].
  assert (Hs : StronglySorted (λ a b, ch_created_at_unix_ms b ≤ ch_created_at_unix_ms a)
    (sort_by more_recent (map snd (hash_iter (ts_heads st))))).
  { pose proof (sort_by_sorted more_recent) as Hsort.
    specialize (Hsort ltac:(unfold more_recent; intros a b ?%N.leb_gt; apply N.leb_le; lia)).
    specialize (Hsort ltac:(unfold more_recent; intros a b c ?%N.leb_le ?%N.leb_le;
      apply N.leb_le; lia) (map snd (hash_iter (ts_heads st)))).
    induction Hsort as [|a l Hl IH Ha]; constructor; [done|].
    eapply Forall_impl; [done|]. by intros b ?%N.leb_le. }
  split; [by rewrite sort_by_perm, hash_iter_perm|]. split; [done|].
  intros a b Ha Hb. rewrite <- (take_drop (N.to_nat limit) (sort_by _ _)) in Hs.
  revert Hs Ha. generalize (take (N.to_nat limit)
    (sort_by more_recent (map snd (hash_iter (ts_heads st))))) as xs.
  induction xs as [|x xs IH]; intros Hs; [by intros ?%elem_of_nil|]. cbn in Hs. inversion Hs as [|? ? Hs' Hall]; subst.
  intros [->|Hin]%elem_of_cons; [|by apply IH].
  rewrite Forall_forall in Hall. apply Hall. apply elem_of_app. by right.
Qed.

End theorems.

(** A store with two contexts: three turns in context 1 and a fork of its second turn
    with one more turn. *)
Module TurnHistoryWitness.

#[local] Existing Instances Sample.crc Sample.crc_laws Sample.order Sample.order_laws.

Definition st0 : TurnStore := mkTurnStore [] [] [] [] ∅ ∅ ∅ ∅ 1 1.
Definition h32 (b : Byte.byte) : bytes := replicate 32 b.
Definition app (c p : N) (b : Byte.byte) (now : N) (st : TurnStore) : TurnStore :=
  (append_turn c p (h32 b) 1 ($"cxdb.ConversationItem") 3 0 5 now st).2.
Definition st1 : TurnStore := (create_context 0 100 st0).2.
Definition st2 : TurnStore := app 1 0 Byte.x02 103 (app 1 0 Byte.x01 102 (app 1 0 Byte.x00 101 st1)).
Definition st3 : TurnStore := app 2 0 Byte.x03 105 (fork_context 2 104 st2).2.

Lemma wf_empty : wf st0.
Proof. split; cbn; [|intros ? ?; by rewrite lookup_empty..|done].
  split; intros ? ?; by rewrite lookup_empty. Qed.

Lemma wf_app c p b now st : wf st → ts_next_turn_id st < U32 → c < U64 → now < U64 →
  wf (app c p b now st).
Proof. intros. apply wf_append; [done..|]. repeat split; done || (cbn; lia). Qed.

Lemma wf_st2 : wf st2.
Proof. repeat (apply wf_app; [|vm_compute; reflexivity..]). apply wf_create, wf_empty. Qed.

Lemma wf_st3 : wf st3.
Proof. apply wf_app; [apply wf_create, wf_st2|vm_compute; reflexivity..]. Qed.

(** Context 2 has turns 1, 2 and 4: it shares the first two with context 1. *)
Example forked : map tr_turn_id <$> get_last st3 2 10 = Ok [1; 2; 4]
  ∧ map tr_turn_id <$> get_last st3 1 10 = Ok [1; 2; 3].
Proof. by vm_compute. Qed.

Lemma get_last_spec_witness :
  ∃ l, context_history st3 2 l ∧ get_last st3 2 2 = Ok (last_n 2 l).
Proof.
  destruct (get_last_spec st3 2 (mkContextHead 2 4 2 105 0) wf_st3) as (l & Hl & Hg & _);
    [by vm_compute|].
  exists l. split; [done|]. apply (Hg 2).
Defined.

Lemma get_before_paging_witness :
  get_last st3 2 (1 + 1)
  = (older ← get_before st3 2 4 1;
     Ok (older ++ [mkTurnRecord 4 2 2 1 0 (h32 Byte.x03) 0 105])).
Proof.
  apply (get_before_paging st3 2 1 1 (mkTurnRecord 4 2 2 1 0 (h32 Byte.x03) 0 105) [] wf_st3).
  by vm_compute.
Defined.

Lemma append_turn_extends_witness :
  ∃ l record, history (ts_turns st3) 4 l
    ∧ context_history (app 2 0 Byte.x05 106 st3) 2 (l ++ [record]).
Proof.
  pose proof (append_turn_extends st3 2 0 (h32 Byte.x05) 1 ($"cxdb.ConversationItem") 3 0 5 106
    wf_st3 eq_refl) as Hext.
  unfold app. destruct (append_turn 2 0 _ _ _ _ _ _ _ _) as [r st'].
  change (parent_of 2 0 st3) with (Some 4) in Hext.
  destruct Hext as (l & record & _ & Hl & Hc & _). by exists l, record.
Defined.

Lemma contexts_isolated_witness :
  ∃ l, context_history st3 1 l ∧ context_history (app 2 0 Byte.x05 106 st3) 1 l.
Proof.
  destruct (context_history_exists st3 1 wf_st3) as [l Hl]; [by eexists; vm_compute|].
  exists l. split; [done|]. by apply (contexts_isolated st3 1 l wf_st3 Hl).
Defined.

Lemma fork_shares_history_witness :
  ∃ l, history (ts_turns st3) 3 l ∧ context_history (fork_context 3 107 st3).2 3 l.
Proof.
  pose proof (fork_shares_history st3 3 107 wf_st3 eq_refl) as Hf.
  destruct (fork_context 3 107 st3) as [r st'].
  rewrite decide_True in Hf by (right; by eexists; vm_compute).
  destruct Hf as (l & head & _ & Hid & _ & Hl & Hc & _). exists l. split; [done|].
  by rewrite Hid in Hc.
Defined.

Lemma list_recent_contexts_witness :
  ∃ sorted, list_recent_contexts st3 1 = take 1 sorted.
Proof.
  destruct (list_recent_contexts_spec st3 1) as (sorted & Hs & _). by exists sorted.
Defined.

End TurnHistoryWitness.
