(* ===== verification/TurnRecovery.v ===== *)
(** * TurnRecovery: the files of the turn store and its restart

    What the files hold: [persisted] says that they replay to the maps, [persisted_upto] that they do so
    but for a few bytes that a restart left of a torn record. The theorems show that every operation
    keeps this, that [TurnStore.open] inverts [persisted], also after torn writes, and that a
    crash in the middle of [append_turn] is atomic for readers. *)

From S2P Require Import Prelude Bytes External TurnStore TurnHistory.

Open Scope N_scope.

Section recovery.
Context `{Crc32Laws} `{HashOrder}.

(** ** Records read back *)

Definition record_fits (r : TurnRecord) : Prop :=
  tr_turn_id r < U64 ∧ tr_depth r < U32 ∧ turn_fits r.

Definition meta_fits (im : N * TurnMeta) : Prop :=
  let '(id, m) := im in
  id < U64 ∧ utf8_valid (tm_declared_type_id m) = true ∧ len (tm_declared_type_id m) < U32
  ∧ tm_declared_type_version m < U32 ∧ tm_encoding m < U32 ∧ tm_compression m < U32
  ∧ tm_uncompressed_len m < U32.

Definition head_fits (h : ContextHead) : Prop :=
  ch_context_id h < U64 ∧ ch_head_turn_id h < U64 ∧ ch_head_depth h < U32
  ∧ ch_created_at_unix_ms h < U64 ∧ ch_flags h < U32.

Lemma crc_lt bs : crc32 bs < U32.
Proof. apply crc32_lt. Qed.

#[local] Hint Resolve crc_lt : reads.

Lemma reads_turn_record r : record_fits r → reads read_turn_record (encode_turn_record r) r.
Proof.
  intros (Hid & Hd & Hp & Hc & Ht & Hh & Hf & Hn).
  unfold read_turn_record, encode_turn_record, turn_record_body. rewrite <- !app_assoc.
  repeat (eapply reads_bind; [solve [eauto with reads]|]; cbn beta).
  eapply reads_last; [apply reads_u32, crc_lt|]. cbn beta zeta.
  destruct r. unfold turn_record_body. cbn. rewrite <- ?app_assoc, N.eqb_refl. apply reads_ret.
Qed.

Lemma len_encode_turn_record r : len (tr_payload_hash r) = 32 → len (encode_turn_record r) = 80.
Proof.
  intros Hh. unfold encode_turn_record, turn_record_body. autorewrite with cxdb. by rewrite Hh.
Qed.


(** [load_turns] stops at every unreadable tail: a record fails to read only at the end
    of the file or by its CRC. *)
Lemma read_turn_record_err bs e :
  read_turn_record bs = Err e → e = Io UnexpectedEof ∨ e = Corrupt ($"turn crc mismatch").
Proof.
  unfold read_turn_record. intros He.
  repeat match type of He with
  | (_ ≫= _) _ = Err _ => apply rbind_err in He as [He|(? & ? & _ & He)]; cbn beta in He
  end; try (first [apply read_le_err in He as [-> _] | apply read_exact_err in He as [-> _]];
            by left).
  cbn zeta in He. destruct (negb _); [|done]. injection He as <-. by right.
Qed.

Lemma reads_meta_name s : len s < U32 → reads read_meta_name (write_u32 (len s) ++ s) s.
Proof. intros. unfold read_meta_name. solve_reads. Qed.

Definition meta_tail_bytes (m : TurnMeta) : bytes :=
  write_u32 (tm_declared_type_version m) ++ write_u32 (tm_encoding m)
    ++ write_u32 (tm_compression m) ++ write_u32 (tm_uncompressed_len m).

Lemma reads_meta_tail id m : meta_fits (id, m) →
  reads read_meta_tail (meta_tail_bytes m)
    (tm_declared_type_version m, tm_encoding m, tm_compression m, tm_uncompressed_len m).
Proof. intros (? & ? & ? & ? & ? & ? & ?). unfold read_meta_tail, meta_tail_bytes. solve_reads. Qed.

Lemma encode_turn_meta_split id m : meta_fits (id, m) →
  encode_turn_meta id m
  = write_u64 id ++ (write_u32 (len (tm_declared_type_id m)) ++ tm_declared_type_id m)
      ++ meta_tail_bytes m.
Proof.
  intros (? & ? & ? & ?). unfold encode_turn_meta, meta_tail_bytes.
  rewrite wrap32_small by done. by rewrite <- !app_assoc.
Qed.

Definition head_tail_bytes (h : ContextHead) : bytes :=
  write_u64 (ch_head_turn_id h) ++ write_u32 (ch_head_depth h) ++ write_u32 (ch_flags h)
    ++ write_u64 (ch_created_at_unix_ms h) ++ write_u32 (crc32 (head_body h)).

Lemma reads_head_tail h : head_fits h →
  reads read_head_tail (head_tail_bytes h)
    (ch_head_turn_id h, ch_head_depth h, ch_flags h, ch_created_at_unix_ms h,
     crc32 (head_body h)).
Proof. intros (? & ? & ? & ? & ?). unfold read_head_tail, head_tail_bytes. solve_reads. Qed.

Lemma encode_head_split h : encode_head h = write_u64 (ch_context_id h) ++ head_tail_bytes h.
Proof. unfold encode_head, head_body, head_tail_bytes. by rewrite <- !app_assoc. Qed.

(** ** The loops replay what was written *)

(** The position after each record is the start of the next one. *)
Fixpoint replay_turns (recs : list TurnRecord) (start : N) (turns : gmap N TurnRecord)
    (index : gmap N N) : gmap N TurnRecord * gmap N N :=
  match recs with
  | [] => (turns, index)
  | r :: recs =>
      replay_turns recs (start + 80) (<[tr_turn_id r := r]> turns)
        (<[tr_turn_id r := start]> index)
  end.

Definition replay_metas (l : list (N * TurnMeta)) (m : gmap N TurnMeta) : gmap N TurnMeta :=
  foldl (λ m '(id, x), <[id := x]> m) m l.

Definition replay_heads (l : list ContextHead) (m : gmap N ContextHead) : gmap N ContextHead :=
  foldl (λ m h, <[ch_context_id h := h]> m) m l.

Definition log_bytes (recs : list TurnRecord) : bytes := concat (map encode_turn_record recs).
Definition meta_bytes (l : list (N * TurnMeta)) : bytes :=
  concat (map (λ '(id, m), encode_turn_meta id m) l).
Definition heads_bytes (l : list ContextHead) : bytes := concat (map encode_head l).

Lemma len_log_bytes recs : Forall record_fits recs → len (log_bytes recs) = 80 * len recs.
Proof.
  induction 1 as [|r recs Hr Hrs IH]; [done|]. unfold log_bytes in *. cbn [map concat].
  rewrite len_app, IH, len_cons, len_encode_turn_record by apply Hr. lia.
Qed.

(** A tail of the log that does not start with a whole record. *)
Definition log_torn (tail : bytes) : Prop := ∃ e, read_turn_record tail = Err e.

Lemma load_turns_replay recs tail fuel start turns index :
  Forall record_fits recs → log_torn tail → (length recs < fuel)%nat →
  load_turns_loop fuel (log_bytes recs ++ tail) start turns index
  = let '(t, i) := replay_turns recs start turns index in Ok (t, i, Some (start + 80 * len recs)).
Proof.
  intros Hrecs [e Ht]. revert fuel start turns index.
  induction Hrecs as [|r recs Hr Hrs IH]; intros [|fuel] start turns index Hf;
    cbn [length] in Hf; [lia| |lia|]; cbn [load_turns_loop replay_turns log_bytes map concat].
  - cbn [app]. rewrite Ht, N.mul_0_r, N.add_0_r.
    by destruct (read_turn_record_err _ _ Ht) as [-> | ->].
  - rewrite <- app_assoc, (reads_turn_record r Hr _). fold (log_bytes recs).
    rewrite len_app, len_encode_turn_record, N.add_sub by apply Hr.
    rewrite IH by lia. destruct (replay_turns recs _ _ _) as [t i]. rewrite len_cons.
    do 3 f_equal. lia.
Qed.

(** What is left of a torn tail of [turns.meta] or [heads.tbl]: nothing, unless it is
    shorter than the id at the front of the record, in which case it stays. *)
Definition cut (tail : bytes) (pos : N) : option N := if len tail <? 8 then None else Some pos.
Definition kept (tail : bytes) : bytes := if len tail <? 8 then tail else [].

Definition meta_torn (tail : bytes) : Prop :=
  ∃ im k, meta_fits im ∧ tail = take k (encode_turn_meta im.1 im.2)
          ∧ (k < length (encode_turn_meta im.1 im.2))%nat.

Definition head_torn (tail : bytes) : Prop :=
  ∃ h k, head_fits h ∧ tail = take k (encode_head h) ∧ (k < length (encode_head h))%nat.

Lemma read_u64_short bs : len bs < 8 → read_u64 (E:=io_kind) bs = Err UnexpectedEof.
Proof. intros Hs. exact (read_le_short (E:=io_kind) 8 bs Hs). Qed.

(** A prefix of [write_u64 n ++ rest] is shorter than the id or ends inside [rest]. *)
Lemma take_u64_app k n rest : (k < length (write_u64 n ++ rest))%nat →
  len (take k (write_u64 n ++ rest)) < 8
  ∨ ∃ j, take k (write_u64 n ++ rest) = write_u64 n ++ take j rest ∧ (j < length rest)%nat
         ∧ 8 ≤ len (take k (write_u64 n ++ rest)).
Proof.
  rewrite length_app, length_write_u64. intros Hk. destruct (decide (k < 8)%nat) as [Hlt|Hge].
  - left. rewrite len_take. lia.
  - right. exists (k - 8)%nat. split; [|split; [lia|]].
    + rewrite take_app_ge by (rewrite length_write_u64; lia). by rewrite length_write_u64.
    + rewrite len_take, len_app, len_write_u64. unfold len. lia.
Qed.

Lemma load_meta_torn tail fuel start metas : meta_torn tail →
  load_meta_loop (S fuel) tail start metas = Ok (metas, cut tail start).
Proof.
  intros ([id m] & k & Hfit & -> & Hk). cbn [fst snd] in *.
  rewrite (encode_turn_meta_split _ _ Hfit) in *. pose proof Hfit as (Hid & Hu & Hl & _).
  cbn [load_meta_loop]. unfold cut.
  destruct (take_u64_app _ _ _ Hk) as [Hs|(j & Htk & Hj & H8)].
  - rewrite read_u64_short by done. by rewrite (proj2 (N.ltb_lt _ _) Hs).
  - rewrite (proj2 (N.ltb_ge _ _) H8), Htk, (reads_u64 _ Hid _).
    destruct (decide (j < length (write_u32 (len (tm_declared_type_id m))
      ++ tm_declared_type_id m))%nat) as [Hlt|Hge].
    + rewrite take_app_le by lia.
      destruct (reads_torn _ _ _ _ (reads_meta_name _ Hl) ltac:(unfold read_meta_name; solve_mono) Hlt)
        as [e ->]. done.
    + rewrite take_app_ge by lia. rewrite (reads_meta_name _ Hl _).
      rewrite (from_utf8_valid _ Hu). cbn [ok_or mbind result_bind].
      rewrite length_app in Hj.
      edestruct (reads_torn _ _ _ (j - length (write_u32 (len (tm_declared_type_id m))
        ++ tm_declared_type_id m)) (reads_meta_tail _ _ Hfit)) as [e ->];
        [unfold read_meta_tail; solve_mono|lia|done].
Qed.

Lemma load_meta_replay l tail fuel start metas :
  Forall meta_fits l → meta_torn tail → (length l < fuel)%nat →
  load_meta_loop fuel (meta_bytes l ++ tail) start metas
  = Ok (replay_metas l metas, cut tail (start + len (meta_bytes l))).
Proof.
  intros Hl Ht. revert fuel start metas.
  induction Hl as [|[id m] l Hfit Hl IH]; intros [|fuel] start metas Hf;
    cbn [length] in Hf; [lia| |lia|].
  - cbn [app meta_bytes map concat]. rewrite load_meta_torn, len_nil, N.add_0_r by done. done.
  - cbn [load_meta_loop meta_bytes map concat]. fold (meta_bytes l).
    rewrite (encode_turn_meta_split _ _ Hfit), <- !app_assoc.
    pose proof Hfit as (Hid & Hu & Hlen & _).
    rewrite (reads_u64 _ Hid _), (app_assoc (write_u32 _)), (reads_meta_name _ Hlen _).
    rewrite (from_utf8_valid _ Hu). cbn [ok_or mbind result_bind].
    rewrite (reads_meta_tail _ _ Hfit _), IH by lia. unfold replay_metas. destruct m. cbn.
    do 3 f_equal. rewrite !len_app. lia.
Qed.

Lemma load_heads_torn tail fuel start heads : head_torn tail →
  load_heads_loop (S fuel) tail start heads = Ok (heads, cut tail start).
Proof.
  intros (h & k & Hfit & -> & Hk). rewrite encode_head_split in *.
  pose proof Hfit as (Hid & _). cbn [load_heads_loop]. unfold cut.
  destruct (take_u64_app _ _ _ Hk) as [Hs|(j & Htk & Hj & H8)].
  - rewrite read_u64_short by done. by rewrite (proj2 (N.ltb_lt _ _) Hs).
  - rewrite (proj2 (N.ltb_ge _ _) H8), Htk, (reads_u64 _ Hid _).
    destruct (reads_torn _ _ _ _ (reads_head_tail _ Hfit)
      ltac:(unfold read_head_tail; solve_mono) Hj) as [e ->]. done.
Qed.

Lemma load_heads_replay l tail fuel start heads :
  Forall head_fits l → head_torn tail → (length l < fuel)%nat →
  load_heads_loop fuel (heads_bytes l ++ tail) start heads
  = Ok (replay_heads l heads, cut tail (start + len (heads_bytes l))).
Proof.
  intros Hl Ht. revert fuel start heads.
  induction Hl as [|h l Hfit Hl IH]; intros [|fuel] start heads Hf;
    cbn [length] in Hf; [lia| |lia|].
  - cbn [app heads_bytes map concat]. rewrite load_heads_torn, len_nil, N.add_0_r by done. done.
  - cbn [load_heads_loop heads_bytes map concat]. fold (heads_bytes l).
    rewrite encode_head_split, <- !app_assoc. pose proof Hfit as (Hid & _).
    rewrite (reads_u64 _ Hid _), (reads_head_tail _ Hfit _).
    destruct h as [c i d n f]. cbn [ch_context_id ch_head_turn_id ch_head_depth
      ch_created_at_unix_ms ch_flags]. rewrite N.eqb_refl. cbn [negb].
    rewrite IH by lia. unfold replay_heads. cbn [foldl ch_context_id]. do 3 f_equal.
    rewrite !len_app. lia.
Qed.

(** ** The files represent the maps *)

Definition log_rep (log : bytes) (turns : gmap N TurnRecord) (index : gmap N N) : Prop :=
  ∃ recs, Forall record_fits recs ∧ log = log_bytes recs
          ∧ replay_turns recs 0 ∅ ∅ = (turns, index).
Definition meta_rep (meta : bytes) (metas : gmap N TurnMeta) : Prop :=
  ∃ l, Forall meta_fits l ∧ meta = meta_bytes l ∧ metas = replay_metas l ∅.
Definition heads_rep (tbl : bytes) (heads : gmap N ContextHead) : Prop :=
  ∃ l, Forall head_fits l ∧ tbl = heads_bytes l ∧ heads = replay_heads l ∅.

Definition persisted (st : TurnStore) : Prop :=
  log_rep (ts_turns_log st) (ts_turns st) (ts_turn_index st)
  ∧ meta_rep (ts_turns_meta st) (ts_turn_meta st)
  ∧ heads_rep (ts_heads_tbl st) (ts_heads st).

(** [load_meta] and [load_heads] leave a torn tail shorter than 8 bytes where it is, and later records
    are written behind it: the records before and behind it replay to the map. *)
Definition meta_upto (meta : bytes) (metas : gmap N TurnMeta) : Prop :=
  ∃ l1 junk l2, Forall meta_fits (l1 ++ l2) ∧ len junk < 8
    ∧ meta = meta_bytes l1 ++ junk ++ meta_bytes l2 ∧ metas = replay_metas (l1 ++ l2) ∅.
Definition heads_upto (tbl : bytes) (heads : gmap N ContextHead) : Prop :=
  ∃ l1 junk l2, Forall head_fits (l1 ++ l2) ∧ len junk < 8
    ∧ tbl = heads_bytes l1 ++ junk ++ heads_bytes l2 ∧ heads = replay_heads (l1 ++ l2) ∅.

Definition persisted_upto (st : TurnStore) : Prop :=
  log_rep (ts_turns_log st) (ts_turns st) (ts_turn_index st)
  ∧ meta_upto (ts_turns_meta st) (ts_turn_meta st)
  ∧ heads_upto (ts_heads_tbl st) (ts_heads st).

Lemma len_kept tail : len (kept tail) < 8.
Proof. unfold kept. destruct (N.ltb_spec (len tail) 8); [done|by rewrite len_nil]. Qed.

Lemma meta_rep_kept meta metas tail : meta_rep meta metas → meta_upto (meta ++ kept tail) metas.
Proof.
  intros (l & Hf & -> & ->). exists l, (kept tail), [].
  split_and!; [by rewrite app_nil_r|apply len_kept|by rewrite app_nil_r|by rewrite app_nil_r].
Qed.
Lemma heads_rep_kept tbl heads tail : heads_rep tbl heads → heads_upto (tbl ++ kept tail) heads.
Proof.
  intros (l & Hf & -> & ->). exists l, (kept tail), [].
  split_and!; [by rewrite app_nil_r|apply len_kept|by rewrite app_nil_r|by rewrite app_nil_r].
Qed.
Lemma persisted_upto_of st : persisted st → persisted_upto st.
Proof.
  intros (Hl & Hm & Hh). split_and!; [done|..].
  - rewrite <- (app_nil_r (ts_turns_meta st)). by apply (meta_rep_kept _ _ []).
  - rewrite <- (app_nil_r (ts_heads_tbl st)). by apply (heads_rep_kept _ _ []).
Qed.

Lemma replay_turns_snoc recs r start turns index :
  replay_turns (recs ++ [r]) start turns index
  = let '(t, i) := replay_turns recs start turns index in
    (<[tr_turn_id r := r]> t, <[tr_turn_id r := start + 80 * len recs]> i).
Proof.
  revert start turns index; induction recs as [|x recs IH]; intros; cbn [app replay_turns].
  - by rewrite N.mul_0_r, N.add_0_r.
  - rewrite IH. destruct (replay_turns _ _ _ _). rewrite len_cons. do 2 f_equal. lia.
Qed.

Lemma log_rep_snoc log turns index r :
  log_rep log turns index → record_fits r →
  log_rep (log ++ encode_turn_record r) (<[tr_turn_id r := r]> turns)
    (<[tr_turn_id r := len log]> index).
Proof.
  intros (recs & Hf & -> & Hr) Hfit. exists (recs ++ [r]). split_and!.
  - apply Forall_app. split; [done|]. by apply Forall_singleton.
  - unfold log_bytes. rewrite map_app, concat_app. cbn. by rewrite app_nil_r.
  - by rewrite replay_turns_snoc, Hr, len_log_bytes.
Qed.

Lemma meta_rep_snoc meta metas id m :
  meta_rep meta metas → meta_fits (id, m) →
  meta_rep (meta ++ encode_turn_meta id m) (<[id := m]> metas).
Proof.
  intros (l & Hf & -> & ->) Hfit. exists (l ++ [(id, m)]). split_and!.
  - apply Forall_app. split; [done|]. by apply Forall_singleton.
  - unfold meta_bytes. rewrite map_app, concat_app. cbn. by rewrite app_nil_r.
  - unfold replay_metas. by rewrite foldl_app.
Qed.

Lemma heads_rep_snoc tbl heads h :
  heads_rep tbl heads → head_fits h →
  heads_rep (tbl ++ encode_head h) (<[ch_context_id h := h]> heads).
Proof.
  intros (l & Hf & -> & ->) Hfit. exists (l ++ [h]). split_and!.
  - apply Forall_app. split; [done|]. by apply Forall_singleton.
  - unfold heads_bytes. rewrite map_app, concat_app. cbn. by rewrite app_nil_r.
  - unfold replay_heads. by rewrite foldl_app.
Qed.

Lemma meta_upto_snoc meta metas id m :
  meta_upto meta metas → meta_fits (id, m) →
  meta_upto (meta ++ encode_turn_meta id m) (<[id := m]> metas).
Proof.
  intros (l1 & j & l2 & Hf & Hj & -> & ->) Hfit. exists l1, j, (l2 ++ [(id, m)]). split_and!; [|done|..].
  - rewrite app_assoc. apply Forall_app. split; [done|]. by apply Forall_singleton.
  - unfold meta_bytes. rewrite map_app, concat_app. cbn. by rewrite app_nil_r, <- !app_assoc.
  - unfold replay_metas. by rewrite (app_assoc l1), (foldl_app _ _ [_]).
Qed.
Lemma heads_upto_snoc tbl heads h :
  heads_upto tbl heads → head_fits h →
  heads_upto (tbl ++ encode_head h) (<[ch_context_id h := h]> heads).
Proof.
  intros (l1 & j & l2 & Hf & Hj & -> & ->) Hfit. exists l1, j, (l2 ++ [h]). split_and!; [|done|..].
  - rewrite app_assoc. apply Forall_app. split; [done|]. by apply Forall_singleton.
  - unfold heads_bytes. rewrite map_app, concat_app. cbn. by rewrite app_nil_r, <- !app_assoc.
  - unfold replay_heads. by rewrite (app_assoc l1), (foldl_app _ _ [_]).
Qed.

(** Every record has at least a byte, so the length of a file is enough fuel. *)
Lemma length_concat_ge {A} (f : A → bytes) l :
  (∀ x, (1 ≤ length (f x))%nat) → (length l ≤ length (concat (map f l)))%nat.
Proof.
  intros Hf. induction l as [|x l IH]; [done|]. cbn [map concat length].
  rewrite length_app. specialize (Hf x). lia.
Qed.

Lemma encode_nonempty :
  (∀ r, (1 ≤ length (encode_turn_record r))%nat) ∧ (∀ h, (1 ≤ length (encode_head h))%nat)
  ∧ (∀ im : N * TurnMeta, (1 ≤ length (encode_turn_meta im.1 im.2))%nat).
Proof.
  split_and!; intros; unfold encode_turn_record, turn_record_body, encode_head, head_body,
    encode_turn_meta; rewrite !length_app, length_write_u64; lia.
Qed.

Lemma set_len_all (file tail : bytes) : set_len (file ++ tail) (Some (len file)) = file.
Proof. unfold set_len, len. by rewrite Nat2N.id, take_app_length. Qed.

Lemma set_len_cut (file tail : bytes) :
  set_len (file ++ tail) (cut tail (len file)) = file ++ kept tail.
Proof.
  unfold cut, kept. destruct (len tail <? 8); [done|]. by rewrite set_len_all, app_nil_r.
Qed.

(** The state after a restart: the maps of the files, and counters computed from them. *)
Definition reopened (log meta tbl : bytes) turns index metas heads : TurnStore :=
  update_counters (rebuild_index (mkTurnStore log [] meta tbl turns index metas heads 1 1)).

Lemma open_rep log meta tbl turns index metas heads tl tm th idx :
  log_rep log turns index → meta_rep meta metas → heads_rep tbl heads →
  log_torn tl → meta_torn tm → head_torn th →
  open (log ++ tl) idx (meta ++ tm) (tbl ++ th)
  = Ok (reopened log (meta ++ kept tm) (tbl ++ kept th) turns index metas heads).
Proof.
  intros (recs & Hrf & -> & Hr) (lm & Hmf & -> & ->) (lh & Hhf & -> & ->) Htl Htm Hth.
  destruct encode_nonempty as (Hne1 & Hne2 & Hne3).
  unfold open, load_turns. cbn [ts_turns_log].
  rewrite load_turns_replay; [|done|done|].
  2:{ pose proof (length_concat_ge encode_turn_record recs Hne1).
      rewrite length_app. unfold log_bytes. lia. }
  rewrite Hr, N.add_0_l, <- len_log_bytes by done. cbn [mbind result_bind].
  unfold load_meta. cbn [ts_turns_meta]. rewrite load_meta_replay; [|done|done|].
  2:{ pose proof (length_concat_ge (λ '(id, m), encode_turn_meta id m) lm
        ltac:(intros [id m]; apply (Hne3 (id, m)))).
      rewrite length_app. unfold meta_bytes. lia. }
  cbn [mbind result_bind]. unfold load_heads. cbn [ts_heads_tbl].
  rewrite load_heads_replay; [|done|done|].
  2:{ pose proof (length_concat_ge encode_head lh Hne2).
      rewrite length_app. unfold heads_bytes. lia. }
  cbn [mbind result_bind ts_turns_log ts_turns_idx ts_turns_meta ts_heads_tbl ts_turns
    ts_turn_index ts_turn_meta ts_heads ts_next_turn_id ts_next_context_id].
  by rewrite !N.add_0_l, set_len_all, !set_len_cut.
Qed.

Lemma log_torn_nil : log_torn [].
Proof. by eexists. Qed.
Lemma meta_torn_nil : meta_torn [].
Proof.
  exists (0, mkTurnMeta [] 0 0 0 0), 0%nat. split; [by vm_compute|]. split; [done|].
  destruct encode_nonempty as (_ & _ & Hn). apply (Hn (0, mkTurnMeta [] 0 0 0 0)).
Qed.
Lemma head_torn_nil : head_torn [].
Proof.
  exists (mkContextHead 0 0 0 0 0), 0%nat. split; [by vm_compute|]. split; [done|].
  apply encode_nonempty.
Qed.


Lemma max_key_insert {V} (m : gmap N V) k v :
  (∀ k', is_Some (m !! k') → k' ≤ k) → max_key (<[k := v]> m) = Some k.
Proof.
  intros Hk. pose proof (max_key_spec (<[k := v]> m)) as Hm.
  destruct (max_key (<[k := v]> m)) as [k'|].
  - destruct Hm as [[->|Hin]%lookup_insert_is_Some' Hmax]; [done|].
    specialize (Hmax k). rewrite lookup_insert_eq in Hmax. f_equal. specialize (Hk _ Hin).
    specialize (Hmax ltac:(eauto)). lia.
  - by apply insert_non_empty in Hm.
Qed.

(** ** Reachable states *)

Definition turn_counter (turns : gmap N TurnRecord) : N :=
  match max_key turns with Some k => k + 1 | None => 1 end.

(** [next_context_id] is one more than the greatest id in use. *)
Definition contexts_exact (st : TurnStore) : Prop :=
  ts_next_context_id st
  = match max_key (ts_heads st) with Some k => wrap64 (k + 1) | None => 1 end.

(** The invariant; the bound says that fewer than 2^32 turns were appended, so that no
    depth wraps around. *)
Record inv (st : TurnStore) : Prop := {
  inv_wf : wf st;
  inv_persisted : persisted_upto st;
  inv_counter : ts_next_turn_id st = turn_counter (ts_turns st);
  inv_bound : ts_next_turn_id st ≤ U32;
  inv_context : ts_next_context_id st < U64
}.

(** A crash in [append_turn] between two of its writes: the record is in the log, and perhaps its
    metadata in its file, and nothing else is there. *)
Definition logged (record : TurnRecord) (st : TurnStore) : TurnStore :=
  mkTurnStore (ts_turns_log st ++ encode_turn_record record) (ts_turns_idx st) (ts_turns_meta st)
    (ts_heads_tbl st) (<[tr_turn_id record := record]> (ts_turns st))
    (<[tr_turn_id record := len (ts_turns_log st)]> (ts_turn_index st)) (ts_turn_meta st)
    (ts_heads st) (wrap64 (ts_next_turn_id st + 1)) (ts_next_context_id st).
Definition described (record : TurnRecord) (m : TurnMeta) (st : TurnStore) : TurnStore :=
  write_turn record m (bump_turn_id st).

(** What the complete records of the files may say when the store is not in an operation, and when it
    stops in the middle of an append. *)
Inductive interrupted (st : TurnStore) : TurnStore → Prop :=
| between_operations : interrupted st st
| behind_the_log c p hash enc tid ver comp ulen now record st' :
    append_fits c hash enc tid ver comp ulen now → ts_next_turn_id st < U32 →
    append_turn c p hash enc tid ver comp ulen now st = (Ok record, st') →
    interrupted st (logged record st)
| behind_the_metadata c p hash enc tid ver comp ulen now record st' :
    append_fits c hash enc tid ver comp ulen now → ts_next_turn_id st < U32 →
    append_turn c p hash enc tid ver comp ulen now st = (Ok record, st') →
    interrupted st (described record (mkTurnMeta tid ver enc comp ulen) st).

(** No fragment stays in the files. *)
Definition nothing_kept (tm th : bytes) : bool := bool_decide (kept tm = [] ∧ kept th = []).

(** The states of the program: operations, and restarts after crashes that stop anywhere, also in an
    append, and tear the record being written, at any byte of it, in any file. The flag says
    that no restart left a fragment in [turns.meta] or [heads.tbl]. A restart of files with such a
    fragment in them can misread what was written behind it and is not among the steps:
    [short_meta_tail_loses_metadata]. *)
Inductive reached : bool → TurnStore → Prop :=
| reached_empty idx st : open [] idx [] [] = Ok st → reached true st
| reached_create clean base now st :
    reached clean st → now < U64 → reached clean (create_context base now st).2
| reached_append clean c p hash enc tid ver comp ulen now st :
    reached clean st → append_fits c hash enc tid ver comp ulen now → ts_next_turn_id st < U32 →
    reached clean (append_turn c p hash enc tid ver comp ulen now st).2
| reached_restart idx tl tm th st stopped st' :
    reached true st → interrupted st stopped → log_torn tl → meta_torn tm → head_torn th →
    open (ts_turns_log stopped ++ tl) idx (ts_turns_meta stopped ++ tm) (ts_heads_tbl stopped ++ th)
      = Ok st' →
    reached (nothing_kept tm th) st'.

Definition reachable : TurnStore → Prop := reached true.

Lemma wf_turns_counter turns next : wf_turns turns next → wf_turns turns (turn_counter turns).
Proof.
  intros Hwf. split; [|apply Hwf..]. intros id r Hr. destruct (wf_id _ _ Hwf _ _ Hr).
  split; [done|]. split; [lia|]. unfold turn_counter. pose proof (max_key_spec turns) as Hm.
  destruct (max_key turns) as [k|]; [|by subst].
  destruct Hm as [_ Hm]. specialize (Hm id ltac:(eauto)). lia.
Qed.

Lemma turn_counter_le turns next : wf_turns turns next → 0 < next → turn_counter turns ≤ next.
Proof.
  intros Hwf Hn. unfold turn_counter. pose proof (max_key_spec turns) as Hm.
  destruct (max_key turns) as [k|]; [|lia]. destruct Hm as [[r Hr] _].
  destruct (wf_id _ _ Hwf _ _ Hr). lia.
Qed.

Lemma turn_counter_insert turns r :
  wf_turns turns (tr_turn_id r) →
  turn_counter (<[tr_turn_id r := r]> turns) = tr_turn_id r + 1.
Proof.
  intros Hwf. unfold turn_counter. rewrite max_key_insert; [done|].
  intros k [x Hx]. destruct (wf_id _ _ Hwf _ _ Hx). lia.
Qed.

(** A restart keeps the invariant, whatever was left of torn records. *)
Lemma wf_reopened turns heads next :
  wf_turns turns next → 0 < next ≤ U32 →
  (∀ c h, heads !! c = Some h → ch_context_id h = c ∧ head_linked turns h) →
  ∀ log meta tbl index metas, let st := reopened log meta tbl turns index metas heads in
    wf st ∧ ts_next_turn_id st = turn_counter turns ∧ ts_next_turn_id st ≤ U32
    ∧ ts_next_context_id st < U64 ∧ contexts_exact st.
Proof.
  intros Hwf Hn Hh log meta tbl index metas st.
  pose proof (turn_counter_le _ _ Hwf ltac:(lia)) as Hle.
  assert (Hc : ts_next_turn_id st = turn_counter turns).
  { unfold st, reopened, update_counters, turn_counter in *. cbn.
    destruct (max_key turns); [|done]. apply wrap64_small. lia. }
  assert (0 < turn_counter turns) by (unfold turn_counter; destruct (max_key turns); lia).
  split_and!; [|done|lia|..].
  - split; [|by apply Hh..|]; rewrite Hc; [|lia].
    by eapply wf_turns_counter.
  - unfold st, reopened, update_counters. cbn. destruct (max_key heads); [apply wrap64_lt|done].
  - done.
Qed.

Lemma record_fits_wf turns next id r :
  wf_turns turns next → next ≤ U32 → turns !! id = Some r → record_fits r.
Proof.
  intros Hwf Hn Hr. pose proof (depth_lt_id Hwf _ _ Hr). destruct (wf_id _ _ Hwf _ _ Hr).
  split_and!; [lia..|]. by eapply wf_fits.
Qed.

(** The record of a new context. *)
Lemma created_head_fits st base now h :
  inv st → now < U64 → (create_context base now st).1 = Ok h →
  head_fits h ∧ (create_context base now st).2 = insert_head h (write_head h (bump_context_id st)).
Proof.
  intros [Hwf _ _ Hb Hc] Hnow Heq. pose proof (create_context_spec st base now) as Hspec.
  destruct (if base =? 0 then _ else _) as [[id depth]|]; [|by rewrite Hspec in Heq].
  destruct (Hspec Hwf) as [Heq' Hlink]. rewrite Heq' in *. cbn [fst snd] in *.
  injection Heq as <-. split; [|done].
  unfold head_linked in Hlink. cbn in Hlink. split_and!; cbn; try done.
  - destruct Hlink as [[-> _]|(r & Hr & _)]; [done|].
    destruct (wf_id _ _ (wf_turns_ok _ Hwf) _ _ Hr). lia.
  - destruct Hlink as [[_ ->]|(r & Hr & ->)]; [done|].
    by destruct (record_fits_wf _ _ _ _ (wf_turns_ok _ Hwf) Hb Hr) as (_ & ? & _).
Qed.
Lemma created_err st base now e :
  (create_context base now st).1 = Err e → (create_context base now st).2 = st.
Proof. unfold create_context. by destruct (if base =? 0 then _ else _) as [[? ?]|]; [|intros _]. Qed.

Lemma inv_create st base now : inv st → now < U64 → inv (create_context base now st).2.
Proof.
  intros Hinv Hnow. pose proof (wf_create st base now (inv_wf _ Hinv)) as Hwf'.
  destruct (create_context base now st).1 as [h|e] eqn:Hr; [|by rewrite (created_err _ _ _ _ Hr)].
  destruct (created_head_fits _ _ _ _ Hinv Hnow Hr) as [Hfit Heq]. rewrite Heq in *.
  destruct Hinv as [Hwf (Hl & Hm & Hh) Hcnt Hb Hc].
  split; [done| |done..|apply wrap64_lt]. split_and!; [done..|]. by apply heads_upto_snoc.
Qed.
Lemma persisted_create st base now :
  inv st → persisted st → now < U64 → persisted (create_context base now st).2.
Proof.
  intros Hinv (Hl & Hm & Hh) Hnow.
  destruct (create_context base now st).1 as [h|e] eqn:Hr; [|by rewrite (created_err _ _ _ _ Hr)].
  destruct (created_head_fits _ _ _ _ Hinv Hnow Hr) as [Hfit ->].
  split_and!; [done..|]. by apply heads_rep_snoc.
Qed.

(** The facts about a successful append that its persistence needs. *)
Lemma append_records st c p hash enc tid ver comp ulen now record st' :
  inv st → ts_next_turn_id st < U32 → append_fits c hash enc tid ver comp ulen now →
  append_turn c p hash enc tid ver comp ulen now st = (Ok record, st') →
  let m := mkTurnMeta tid ver enc comp ulen in
  let h := mkContextHead c (tr_turn_id record) (tr_depth record) now 0 in
  st' = appended st record m c ∧ wf st'
  ∧ tr_turn_id record = ts_next_turn_id st ∧ tr_created_at_unix_ms record = now
  ∧ record_fits record ∧ meta_fits (tr_turn_id record, m) ∧ head_fits h
  ∧ turn_linked (ts_turns st) record.
Proof.
  intros [Hwf _ _ _ _] Hn Hfit Happ.
  pose proof (wf_append st c p hash enc tid ver comp ulen now Hwf Hn Hfit) as Hwf'.
  pose proof (append_turn_spec st c p hash enc tid ver comp ulen now Hwf Hn) as Hspec.
  rewrite Happ in Hwf'. cbn [snd] in Hwf'.
  destruct (parent_of c p st) as [pid|]; [|by rewrite Hspec in Happ].
  destruct Hspec as (depth & Heq & Hlink & Hpid). rewrite Heq in Happ.
  injection Happ as <- <-. cbn zeta. set (record := mkTurnRecord _ _ _ _ _ _ _ _) in *.
  assert (Hrf : record_fits record).
  { eapply (record_fits_wf _ _ (tr_turn_id record) _ (wf_turns_ok _ Hwf')).
    - cbn. rewrite wrap64_small by lia. lia.
    - by rewrite appended_turns, lookup_insert_eq. }
  destruct Hfit as (? & ? & ? & ? & ? & ? & ? & ? & ?).
  split_and!; try done.
  - split_and!; cbn; try done. lia.
  - split_and!; cbn; try done; [lia|]. apply Hrf.
Qed.

Lemma inv_append st c p hash enc tid ver comp ulen now :
  inv st → ts_next_turn_id st < U32 → append_fits c hash enc tid ver comp ulen now →
  inv (append_turn c p hash enc tid ver comp ulen now st).2.
Proof.
  intros Hinv Hn Hfit. destruct (append_turn c p hash enc tid ver comp ulen now st)
    as [r st'] eqn:Happ. cbn [snd]. destruct r as [record|e].
  - destruct (append_records _ _ _ _ _ _ _ _ _ _ _ _ Hinv Hn Hfit Happ)
      as (-> & Hwf & Hid & Hnow & Hrf & Hmf & Hhf & _).
    destruct Hinv as [Hwf0 (Hl & Hm & Hh) Hcnt Hb Hc]. split; [done| | | |done].
    + split_and!; [by apply log_rep_snoc|by apply meta_upto_snoc|].
      apply heads_upto_snoc; [done|]. by rewrite Hnow.
    + rewrite appended_turns, turn_counter_insert.
      * cbn. by rewrite wrap64_small, Hid by lia.
      * rewrite Hid. apply Hwf0.
    + cbn. rewrite wrap64_small by lia. lia.
  - pose proof (append_turn_spec st c p hash enc tid ver comp ulen now (inv_wf _ Hinv) Hn) as Hs.
    destruct (parent_of c p st) as [pid|].
    + destruct Hs as (d & Hs & _). by rewrite Happ in Hs.
    + rewrite Happ in Hs. by injection Hs as _ ->.
Qed.

Lemma persisted_append st c p hash enc tid ver comp ulen now :
  inv st → persisted st → ts_next_turn_id st < U32 → append_fits c hash enc tid ver comp ulen now →
  persisted (append_turn c p hash enc tid ver comp ulen now st).2.
Proof.
  intros Hinv (Hl & Hm & Hh) Hn Hfit. destruct (append_turn c p hash enc tid ver comp ulen now st)
    as [r st'] eqn:Happ. cbn [snd]. destruct r as [record|e].
  - destruct (append_records _ _ _ _ _ _ _ _ _ _ _ _ Hinv Hn Hfit Happ)
      as (-> & _ & _ & Hnow & Hrf & Hmf & Hhf & _).
    split_and!; [by apply log_rep_snoc|by apply meta_rep_snoc|].
    apply heads_rep_snoc; [done|]. by rewrite Hnow.
  - pose proof (append_turn_spec st c p hash enc tid ver comp ulen now (inv_wf _ Hinv) Hn) as Hs.
    destruct (parent_of c p st) as [pid|].
    + destruct Hs as (d & Hs & _). by rewrite Happ in Hs.
    + rewrite Happ in Hs. injection Hs as _ ->. by split_and!.
Qed.

(** A restart of a persisted state: the same maps, whatever was torn. *)
Lemma open_inv st idx tl tm th :
  persisted st → log_torn tl → meta_torn tm → head_torn th →
  open (ts_turns_log st ++ tl) idx (ts_turns_meta st ++ tm) (ts_heads_tbl st ++ th)
  = Ok (reopened (ts_turns_log st) (ts_turns_meta st ++ kept tm) (ts_heads_tbl st ++ kept th)
          (ts_turns st) (ts_turn_index st) (ts_turn_meta st) (ts_heads st)).
Proof. intros (Hl & Hm & Hh). by apply open_rep. Qed.

Lemma wf_turns_heads st : wf st →
  ∀ c h, ts_heads st !! c = Some h → ch_context_id h = c ∧ head_linked (ts_turns st) h.
Proof. intros Hwf c h Hh. split; [by eapply wf_head_id|by eapply wf_head_linked]. Qed.

Lemma inv_restart st idx tl tm th st' :
  inv st → persisted st → log_torn tl → meta_torn tm → head_torn th →
  open (ts_turns_log st ++ tl) idx (ts_turns_meta st ++ tm) (ts_heads_tbl st ++ th) = Ok st' →
  inv st' ∧ (kept tm = [] → kept th = [] → persisted st').
Proof.
  intros Hinv Hp Hl Hm Hh Ho. rewrite open_inv in Ho by done. injection Ho as <-.
  destruct Hinv as [Hwf _ _ Hb _]. destruct Hp as (Hrl & Hrm & Hrh).
  destruct (wf_reopened _ _ _ (wf_turns_ok _ Hwf) ltac:(pose proof (wf_next _ Hwf); lia)
    (wf_turns_heads _ Hwf) (ts_turns_log st) (ts_turns_meta st ++ kept tm)
    (ts_heads_tbl st ++ kept th) (ts_turn_index st) (ts_turn_meta st)) as (? & ? & ? & ? & _).
  split.
  - split; [done| |done..]. split_and!; cbn; [done|by apply meta_rep_kept|by apply heads_rep_kept].
  - intros Hkm Hkh. rewrite Hkm, Hkh, !app_nil_r. by split_and!.
Qed.

(** A store that stops in the middle of an append: the turn is there, and no head names it. *)
Lemma inv_interrupted st stopped :
  inv st → persisted st → interrupted st stopped → inv stopped ∧ persisted stopped.
Proof.
  intros Hinv Hp Hstop.
  assert (Hlog : ∀ c p hash enc tid ver comp ulen now record st',
    append_fits c hash enc tid ver comp ulen now → ts_next_turn_id st < U32 →
    append_turn c p hash enc tid ver comp ulen now st = (Ok record, st') →
    let turns := <[tr_turn_id record := record]> (ts_turns st) in
    wf_turns turns (ts_next_turn_id st + 1) ∧ turn_counter turns = wrap64 (ts_next_turn_id st + 1)
    ∧ ts_turns st ⊆ turns ∧ record_fits record ∧ meta_fits (tr_turn_id record, mkTurnMeta tid ver enc comp ulen)).
  { intros c p hash enc tid ver comp ulen now record st' Hfit Hn Happ turns.
    destruct (append_records _ _ _ _ _ _ _ _ _ _ _ _ Hinv Hn Hfit Happ)
      as (_ & _ & Hid & _ & Hrf & Hmf & _ & Hlink).
    pose proof (wf_turns_ok _ (inv_wf _ Hinv)) as Ht. unfold turns. split_and!; [|..|done|done].
    - rewrite Hid. apply wf_turns_insert; first [done|apply Hrf|apply (wf_next _ (inv_wf _ Hinv))].
    - rewrite turn_counter_insert by (by rewrite Hid). rewrite Hid, wrap64_small by lia. done.
    - apply insert_subseteq. rewrite Hid. by apply wf_turns_fresh. }
  assert (Hstopped : ∀ record meta idxs tbl metas ix,
    wf_turns (<[tr_turn_id record := record]> (ts_turns st)) (ts_next_turn_id st + 1) →
    turn_counter (<[tr_turn_id record := record]> (ts_turns st)) = wrap64 (ts_next_turn_id st + 1) →
    ts_turns st ⊆ <[tr_turn_id record := record]> (ts_turns st) → ts_next_turn_id st < U32 →
    let st' := mkTurnStore (ts_turns_log st ++ encode_turn_record record) idxs meta tbl
      (<[tr_turn_id record := record]> (ts_turns st)) ix metas (ts_heads st)
      (wrap64 (ts_next_turn_id st + 1)) (ts_next_context_id st) in
    persisted st' → inv st' ∧ persisted st').
  { intros record meta idxs tbl metas ix Ht' Hcnt' Hsub Hn st' Hp'. split; [|done].
    destruct Hinv as [Hwf _ _ Hb Hc].
    split; cbn; [|by apply persisted_upto_of|done|rewrite wrap64_small by lia; lia|done].
    destruct Hwf as [Ht Hid Hlink Hnext]. split; cbn; [|done| |].
    - by rewrite wrap64_small by lia.
    - intros c h Hh. by eapply head_linked_weaken, Hlink.
    - rewrite wrap64_small by lia. lia. }
  pose proof Hp as (Hl & Hm & Hh).
  destruct Hstop as [|c p hash enc tid ver comp ulen now record st' Hfit Hn Happ
    |c p hash enc tid ver comp ulen now record st' Hfit Hn Happ]; [done|..];
    destruct (Hlog _ _ _ _ _ _ _ _ _ _ _ Hfit Hn Happ) as (Ht' & Hcnt' & Hsub & Hrf & Hmf);
    apply Hstopped; try done; split_and!; cbn; try done.
  - by apply log_rep_snoc.
  - by apply log_rep_snoc.
  - by apply meta_rep_snoc.
Qed.

Lemma open_empty idx : open [] idx [] [] = Ok (reopened [] [] [] ∅ ∅ ∅ ∅).
Proof.
  apply (open_rep [] [] [] ∅ ∅ ∅ ∅ [] [] [] idx);
    [by exists []..|apply log_torn_nil|apply meta_torn_nil|apply head_torn_nil].
Qed.

Lemma inv_empty : inv (reopened [] [] [] ∅ ∅ ∅ ∅).
Proof.
  destruct (wf_reopened ∅ ∅ 1 ltac:(by split; intros ? ?; rewrite lookup_empty) ltac:(done)
    ltac:(by intros ? ?; rewrite lookup_empty) [] [] [] ∅ ∅) as (? & ? & ? & ? & _).
  split; [done| |done..]. apply persisted_upto_of. by split_and!; exists [].
Qed.

Lemma reached_inv clean st : reached clean st → inv st ∧ (clean = true → persisted st).
Proof.
  induction 1 as [idx st Ho|clean base now st Hr [IH IHp] Hnow
    |clean c p hash enc tid ver comp ulen now st Hr [IH IHp] Hfit Hn
    |idx tl tm th st stopped st' Hr [IH IHp] Hstop Hl Hm Hh Ho].
  - rewrite open_empty in Ho. injection Ho as <-. split; [apply inv_empty|]. intros _. by split_and!; exists [].
  - split; [by apply inv_create|]. intros Hc. by apply persisted_create; auto.
  - split; [by apply inv_append|]. intros Hc. by apply persisted_append; auto.
  - destruct (inv_interrupted st stopped IH (IHp eq_refl) Hstop) as [Hinv Hp].
    destruct (inv_restart stopped idx tl tm th st' Hinv Hp Hl Hm Hh Ho) as [Hinv' Hp'].
    split; [done|]. unfold nothing_kept. rewrite bool_decide_eq_true. intros [? ?]. auto.
Qed.
Lemma reachable_inv st : reachable st → inv st ∧ persisted st.
Proof. intros Hr. destruct (reached_inv _ _ Hr). auto. Qed.

(** [next_context_id] stays exact unless an append with an explicit parent names a context that was
    never created. *)
Lemma contexts_exact_create st base now :
  contexts_exact st → (∀ c, is_Some (ts_heads st !! c) → c + 1 < U64) →
  contexts_exact (create_context base now st).2.
Proof.
  intros Hx Hn. unfold create_context.
  destruct (if base =? 0 then _ else _) as [[id depth]|]; [|done]. cbn [snd].
  unfold contexts_exact in *. cbn. rewrite max_key_insert; [done|].
  intros k' Hk. pose proof (max_key_spec (ts_heads st)) as Hm. destruct (max_key (ts_heads st)) as [k|].
  - destruct Hm as [Hk' Hm]. specialize (Hm k' Hk). rewrite Hx, wrap64_small by auto. lia.
  - rewrite Hm in Hk. rewrite lookup_empty in Hk. by destruct Hk.
Qed.
Lemma max_key_dom {V} (m1 m2 : gmap N V) :
  (∀ k, is_Some (m1 !! k) ↔ is_Some (m2 !! k)) → max_key m1 = max_key m2.
Proof.
  intros Hd. pose proof (max_key_spec m1) as Hm1. pose proof (max_key_spec m2) as Hm2.
  destruct (max_key m1) as [k1|], (max_key m2) as [k2|]; [|exfalso|exfalso|done].
  - destruct Hm1 as [Hk1 Hm1], Hm2 as [Hk2 Hm2]. f_equal. apply Hd, Hm2 in Hk1. apply Hd, Hm1 in Hk2. lia.
  - subst m2. destruct Hm1 as [Hk%Hd _]. rewrite lookup_empty in Hk. by destruct Hk.
  - subst m1. destruct Hm2 as [Hk%Hd _]. rewrite lookup_empty in Hk. by destruct Hk.
Qed.
Lemma contexts_exact_append st c p hash enc tid ver comp ulen now :
  contexts_exact st → is_Some (ts_heads st !! c) →
  contexts_exact (append_turn c p hash enc tid ver comp ulen now st).2.
Proof.
  intros Hx Hc. unfold append_turn. destruct (resolve_parent c p st) as [[id depth]|]; [|done].
  unfold contexts_exact in *. cbn. rewrite Hx. erewrite max_key_dom; [done|].
  intros k. cbn. rewrite lookup_insert_is_Some. destruct (decide (c = k)); naive_solver.
Qed.

(** ** Theorems *)

(** C15. In every state reached by creating and forking contexts, appending turns with any
    arguments, and restarting after crashes between two operations or in the middle of an append,
    which tear the record being written in each file at any byte: the maps are well formed
    (ids below the counter, every turn a root or one below its parent, every head a turn of its
    recorded depth), the counter is exact, and the files replay to exactly these maps, but for the
    at most seven bytes that one restart left of a torn record in [turns.meta] and in [heads.tbl]. No restart
    of files with such a fragment in them is among the steps. *)
Theorem reachable_wf_persisted clean st :
  reached clean st →
  wf st ∧ ts_next_turn_id st = turn_counter (ts_turns st)
  ∧ persisted_upto st ∧ (clean = true → persisted st).
Proof. intros Hr. destruct (reached_inv _ _ Hr) as [[? ? ? ? ?] ?]. done. Qed.

(** C16. Restart: opening the files of a state without fragments, with any torn record at the end of
    each, succeeds and restores every turn, its metadata, its offset, every head and the
    counter of turns; the counter of contexts becomes one more than the greatest context with a head,
    which is what it was unless an append with an explicit parent named a context that
    was never created; the log is cut back to whole records, and all histories read as before. *)
Theorem restart_recovers st idx tl tm th :
  reachable st → log_torn tl → meta_torn tm → head_torn th →
  ∃ st',
    open (ts_turns_log st ++ tl) idx (ts_turns_meta st ++ tm) (ts_heads_tbl st ++ th) = Ok st'
    ∧ ts_turns st' = ts_turns st ∧ ts_turn_meta st' = ts_turn_meta st
    ∧ ts_turn_index st' = ts_turn_index st ∧ ts_heads st' = ts_heads st
    ∧ ts_next_turn_id st' = ts_next_turn_id st
    ∧ contexts_exact st' ∧ (contexts_exact st → ts_next_context_id st' = ts_next_context_id st)
    ∧ ts_turns_log st' = ts_turns_log st
    ∧ ∀ c l, context_history st' c l ↔ context_history st c l.
Proof.
  intros Hr Hl Hm Hh. destruct (reachable_inv st Hr) as [Hinv Hp]. eexists.
  split; [by apply open_inv|]. destruct Hinv as [Hwf _ Hcnt Hb _].
  destruct (wf_reopened _ _ _ (wf_turns_ok _ Hwf) ltac:(pose proof (wf_next _ Hwf); lia)
    (wf_turns_heads _ Hwf) (ts_turns_log st) (ts_turns_meta st ++ kept tm)
    (ts_heads_tbl st ++ kept th) (ts_turn_index st) (ts_turn_meta st)) as (_ & Hc & _ & _ & Hx).
  split_and!; [done..|by rewrite Hc, Hcnt|done| |done|done].
  unfold contexts_exact in *. intros ->. by rewrite Hx.
Qed.




End recovery.

(** Concrete runs, on the store with two contexts of [TurnHistoryWitness]. *)
Module TurnRecoveryWitness.

Import TurnHistoryWitness.
#[local] Existing Instances Sample.crc Sample.crc_laws Sample.order Sample.order_laws.

Lemma fits_app c b now : c < U64 → now < U64 →
  append_fits c (h32 b) 1 ($"cxdb.ConversationItem") 3 0 5 now.
Proof. intros. repeat split; done || (cbn; lia). Qed.

Lemma reached_app c p b now st :
  reachable st → c < U64 → now < U64 → ts_next_turn_id st < U32 → reachable (app c p b now st).
Proof. intros. apply reached_append; [done|by apply fits_app|done]. Qed.

Lemma reachable_st2 : reachable st2.
Proof.
  assert (H0 : reachable st0) by (apply (reached_empty []); by vm_compute).
  assert (H1 : reachable st1) by by apply (reached_create true).
  unfold st2. by do 3 (apply reached_app; [|done..]).
Qed.
Lemma reachable_st3 : reachable st3.
Proof. apply reached_app; [|done..]. apply (reached_create true); [apply reachable_st2|done]. Qed.

(** A crash that leaves 3 bytes of the metadata of turn 1 behind those of turn 4, and the turn that is
    appended after the restart. *)
Definition short_tail : bytes := take 3 (ts_turns_meta st3).
Definition st3_restarted : TurnStore :=
  match open (ts_turns_log st3 ++ []) [] (ts_turns_meta st3 ++ short_tail) (ts_heads_tbl st3 ++ []) with
  | Ok st => st
  | Err _ => st0
  end.
Lemma short_tail_torn : meta_torn short_tail.
Proof.
  exists (1, mkTurnMeta ($"cxdb.ConversationItem") 3 1 0 5), 3%nat. split; [|split].
  - repeat split; done || (cbn; lia).
  - by vm_compute.
  - apply Nat.ltb_lt. by vm_compute.
Qed.
Lemma reached_short_tail : reached false (app 2 0 Byte.x05 106 st3_restarted).
Proof.
  apply reached_append; [|by apply fits_app|done].
  apply (reached_restart [] [] short_tail [] st3 st3 st3_restarted);
    [apply reachable_st3|apply between_operations|apply log_torn_nil|apply short_tail_torn
    |apply head_torn_nil|by vm_compute].
Qed.
Lemma reachable_wf_persisted_witness :
  (wf st3 ∧ ts_next_turn_id st3 = 5 ∧ persisted st3)
  ∧ wf (app 2 0 Byte.x05 106 st3_restarted) ∧ persisted_upto (app 2 0 Byte.x05 106 st3_restarted).
Proof.
  split.
  - destruct (reachable_wf_persisted true st3 reachable_st3) as (Hwf & _ & _ & Hp).
    exact (conj Hwf (conj eq_refl (Hp eq_refl))).
  - destruct (reachable_wf_persisted false _ reached_short_tail) as (Hwf & _ & Hp & _).
    exact (conj Hwf Hp).
Defined.

(** A torn record: the first 40 bytes of the log record of turn 1, 20 of its metadata. *)
Lemma restart_recovers_witness :
  ∃ st', open (ts_turns_log st3 ++ take 40 (ts_turns_log st3)) []
              (ts_turns_meta st3 ++ take 20 (ts_turns_meta st3)) (ts_heads_tbl st3 ++ []) = Ok st'
         ∧ ts_turns st' = ts_turns st3 ∧ ts_next_context_id st' = 3.
Proof.
  destruct (restart_recovers st3 [] (take 40 (ts_turns_log st3)) (take 20 (ts_turns_meta st3)) []
    reachable_st3) as (st' & Ho & Ht & _ & _ & _ & _ & _ & Hc & _).
  - eexists. by vm_compute.
  - exists (1, mkTurnMeta ($"cxdb.ConversationItem") 3 1 0 5), 20%nat. split; [|split].
    + repeat split; done || (cbn; lia).
    + by vm_compute.
    + apply Nat.ltb_lt. by vm_compute.
  - apply head_torn_nil.
  - exists st'. split; [done|]. split; [done|]. apply Hc. by vm_compute.
Defined.


(** A torn tail of [turns.meta] shorter than 8 bytes is not cut off: the store opens, but
    the metadata written after it is misread at the next restart, here as another
    record, and the metadata of turn 5 is lost. *)
Example short_meta_tail_loses_metadata :
  ∃ st' st'', open (ts_turns_log st3) [] (ts_turns_meta st3 ++ take 3 (ts_turns_meta st3))
                (ts_heads_tbl st3) = Ok st'
    ∧ is_ok (get_turn_meta (app 2 0 Byte.x05 106 st') 5) = true
    ∧ (let st5 := app 2 0 Byte.x05 106 st' in
       open (ts_turns_log st5) [] (ts_turns_meta st5) (ts_heads_tbl st5)) = Ok st''
    ∧ is_ok (get_turn st'' 5) = true ∧ get_turn_meta st'' 5 = Err (NotFound ($"turn meta")).
Proof. do 2 eexists. split; [by vm_compute|]. split; [by vm_compute|]. split; by vm_compute. Qed.

(** An append that names its parent is not checked against the contexts: it creates the
    head of context 3, which [create_context] then gives out again, losing the turn. *)
Example unknown_context_overwritten :
  get_head st3 3 = Err (NotFound ($"context"))
  ∧ (let st4 := app 3 2 Byte.x05 106 st3 in
     map tr_turn_id <$> get_last st4 3 10 = Ok [1; 2; 5]
     ∧ (let st5 := (create_context 0 107 st4).2 in
        map tr_turn_id <$> get_last st5 3 10 = Ok [])).
Proof. by vm_compute. Qed.

End TurnRecoveryWitness.
