(* ===== verification/FsStore.v ===== *)
(** * FsStore: filesystem snapshots

    [server/src/fs_store/mod.rs]. The sparse index from turns to root hashes
    ([fs/roots.idx]), its inheritance along the parents of a turn, and the tree objects
    of the blob store through which a path is resolved. The blob store is used
    through the interface [BlobReader]. *)

From S2P Require Import Prelude Bytes External BlobStore TurnStore TurnHistory TurnRecovery.

Open Scope N_scope.

(** ** Tree entries *)

Inductive EntryKind : Type := KFile | KDirectory | KSymlink.

#[export] Instance EntryKind_eq_dec : EqDecision EntryKind.
Proof. solve_decision. Defined.

(** [EntryKind::from]. *)
Definition entry_kind_from (v : N) : EntryKind :=
  if v =? 0 then KFile else if v =? 1 then KDirectory else if v =? 2 then KSymlink else KFile.

Record TreeEntry : Type := mkTreeEntry {
  te_name : rstr;
  te_kind : N;
  te_mode : N;
  te_size : N;
  te_hash : bytes
}.

Definition hash_array (e : TreeEntry) : result StoreError bytes :=
  if negb (len (te_hash e) =? 32)
  then Err (Corrupt ($"invalid hash length: " ++ show_N (len (te_hash e))))
  else Ok (te_hash e).

Definition kind_enum (e : TreeEntry) : EntryKind := entry_kind_from (te_kind e).

(** The key of a map entry: an integer, or a string that parses as one; [None] is
    [continue]. *)
Definition tree_key (k : Value) : option N :=
  match k with
  | VInteger i => Some (default 0 (int_as_u64 i))
  | VString s => Some (default 0 (s ← utf8_as_str s; parse_u64 s))
  | _ => None
  end.

(** One iteration of the loop of [parse_tree_entry]. *)
Definition tree_field (e : TreeEntry) (kv : Value * Value) : TreeEntry :=
  let '(k, v) := kv in
  match tree_key k with
  | None => e
  | Some key =>
      if key =? 1 then
        match v with
        | VString s => mkTreeEntry (default [] (utf8_as_str s)) (te_kind e) (te_mode e)
                         (te_size e) (te_hash e)
        | _ => e
        end
      else if key =? 2 then
        match v with
        | VInteger i => mkTreeEntry (te_name e) (default 0 (int_as_u64 i) mod 256) (te_mode e)
                          (te_size e) (te_hash e)
        | _ => e
        end
      else if key =? 3 then
        match v with
        | VInteger i => mkTreeEntry (te_name e) (te_kind e) (wrap32 (default 0 (int_as_u64 i)))
                          (te_size e) (te_hash e)
        | _ => e
        end
      else if key =? 4 then
        match v with
        | VInteger i => mkTreeEntry (te_name e) (te_kind e) (te_mode e)
                          (default 0 (int_as_u64 i)) (te_hash e)
        | _ => e
        end
      else if key =? 5 then
        match v with
        | VBinary b => mkTreeEntry (te_name e) (te_kind e) (te_mode e) (te_size e) b
        | _ => e
        end
      else e
  end.

Definition parse_tree_entry (value : Value) : result StoreError TreeEntry :=
  match value with
  | VMap m => Ok (foldl tree_field (mkTreeEntry [] 0 0 0 []) m)
  | _ => Err (Corrupt ($"tree entry is not a map"))
  end.

Definition parse_tree_entries `{Msgpack} (bs : bytes) : result StoreError (list TreeEntry) :=
  value ← map_err (λ e, Corrupt ($"invalid tree msgpack: " ++ e)) (msgpack_read bs);
  match value with
  | VArray l => try_map parse_tree_entry l
  | _ => Err (Corrupt ($"tree is not an array"))
  end.

(** ** The roots index *)

(** [struct FsRootsIndex]: the contents of the file and the map. *)
Record FsRootsIndex : Type := mkFsRootsIndex {
  fs_file : bytes;
  fs_roots : gmap N bytes
}.

Record FsRootsStats : Type := mkFsRootsStats {
  frs_entries_total : N;
  frs_file_bytes : N;
  frs_content_bytes : N
}.

Section roots.
Context `{Crc32}.

Definition compute_crc (turn_id : N) (fs_root_hash : bytes) : N :=
  crc32 (write_u64 turn_id ++ fs_root_hash).

Definition root_record (turn_id : N) (fs_root_hash : bytes) : bytes :=
  write_u64 turn_id ++ fs_root_hash ++ write_u32 (compute_crc turn_id fs_root_hash).

(** The hash and the CRC of a record; any failure truncates the file. *)
Definition read_root_tail : reader io_kind (bytes * N) :=
  fs_root_hash ← read_exact 32;
  crc ← read_u32;
  rret (fs_root_hash, crc).

(** The loop of [load], as in [TurnStore.load_heads_loop]. *)
Fixpoint load_roots_loop (fuel : nat) (rest : bytes) (start : N) (roots : gmap N bytes)
    : result StoreError (gmap N bytes * option N) :=
  match fuel with
  | O => Ok (roots, None)
  | S fuel =>
      match read_u64 (E:=io_kind) rest with
      | Err UnexpectedEof => Ok (roots, None)
      | Err e => Err (Io e)
      | Ok (turn_id, rest1) =>
          match read_root_tail rest1 with
          | Err _ => Ok (roots, Some start)
          | Ok (fs_root_hash, crc, rest') =>
              if negb (crc =? compute_crc turn_id fs_root_hash) then Ok (roots, Some start)
              else load_roots_loop fuel rest' (start + (len rest - len rest'))
                     (<[turn_id := fs_root_hash]> roots)
          end
      end
  end.

(** [FsRootsIndex::open] on a file with this content. *)
Definition open (file : bytes) : result StoreError FsRootsIndex :=
  '(roots, truncated) ← load_roots_loop (S (length file)) file 0 ∅;
  Ok (mkFsRootsIndex (set_len file truncated) roots).

Definition attach (turn_id : N) (fs_root_hash : bytes) (idx : FsRootsIndex) : FsRootsIndex :=
  mkFsRootsIndex (fs_file idx ++ root_record turn_id fs_root_hash)
    (<[turn_id := fs_root_hash]> (fs_roots idx)).
End roots.

Definition get (idx : FsRootsIndex) (turn_id : N) : option bytes := fs_roots idx !! turn_id.

(** The loop of [get_inherited]; the parents of a well-formed store end after at most as many
    steps as it has turns, which is the fuel. *)
Fixpoint inherited_loop (fuel : nat) (idx : FsRootsIndex) (turn_store : TurnStore) (current : N)
    : option bytes :=
  match fuel with
  | O => None
  | S fuel =>
      if current =? 0 then None
      else match get_turn turn_store current with
           | Ok turn =>
               match fs_roots idx !! tr_turn_id turn with
               | Some hash => Some hash
               | None => inherited_loop fuel idx turn_store (tr_parent_turn_id turn)
               end
           | Err _ => None
           end
  end.

Definition get_inherited (idx : FsRootsIndex) (turn_id : N) (turn_store : TurnStore)
    : option bytes :=
  match fs_roots idx !! turn_id with
  | Some hash => Some hash
  | None => inherited_loop (S (size (ts_turns turn_store))) idx turn_store turn_id
  end.

Definition has_snapshot (idx : FsRootsIndex) (turn_id : N) (turn_store : TurnStore) : bool :=
  bool_decide (is_Some (get_inherited idx turn_id turn_store)).

Definition stats (idx : FsRootsIndex) : FsRootsStats :=
  mkFsRootsStats (N.of_nat (size (fs_roots idx))) (len (fs_file idx)) 0.

(** [unique_roots]: the values of the map, each once, in the order of first occurrence. *)
Definition unique_roots `{HashOrder} (idx : FsRootsIndex) : list bytes :=
  (foldl (λ '(seen, roots) hash,
     if decide (hash ∈ seen) then (seen, roots) else ({[hash]} ∪ seen, roots ++ [hash]))
     (∅ : gset bytes, []) (map snd (hash_iter (fs_roots idx)))).2.

(** ** Paths *)

(** What the path functions need of the blob store. *)
Class BlobReader (B : Type) : Type := blob_get : B → bytes → result StoreError bytes.

Definition slash : Byte.byte := Byte.x2f.
Definition is_slash (b : Byte.byte) : bool := bool_decide (b = slash).

Fixpoint trim_start (s : rstr) : rstr :=
  match s with
  | b :: s' => if is_slash b then trim_start s' else s
  | [] => []
  end.

(** [trim_matches('/')]. *)
Definition trim_slashes (s : rstr) : rstr := rev (trim_start (rev (trim_start s))).

(** [split('/')]. *)
Fixpoint split_slash (s : rstr) : list rstr :=
  match s with
  | [] => [[]]
  | b :: s' =>
      if is_slash b then [] :: split_slash s'
      else match split_slash s' with
           | p :: ps => (b :: p) :: ps
           | [] => [[b]]
           end
  end.

Definition path_parts (path : rstr) : list rstr :=
  filter (λ p, p ≠ [] ∧ p ≠ $".") (split_slash (trim_slashes path)).

Section paths.
Context `{Msgpack} {B : Type} `{BlobReader B}.

Definition load_tree_entries (blobs : B) (tree_hash : bytes) : result StoreError (list TreeEntry) :=
  bs ← blob_get blobs tree_hash;
  parse_tree_entries bs.

Definition find_entry (entries : list TreeEntry) (part : rstr) : result StoreError TreeEntry :=
  ok_or (NotFound ($"path component not found: " ++ part))
    (List.find (λ e, bool_decide (te_name e = part)) entries).

(** The loop over the components; [part] is the current one, [rest] those after it. *)
Fixpoint resolve_loop (blobs : B) (current_hash : bytes) (part : rstr) (rest : list rstr)
    : result StoreError (bytes * bool) :=
  entries ← load_tree_entries blobs current_hash;
  entry ← find_entry entries part;
  entry_hash ← hash_array entry;
  match rest with
  | [] => Ok (entry_hash, bool_decide (kind_enum entry = KDirectory))
  | next :: rest =>
      if negb (bool_decide (kind_enum entry = KDirectory))
      then Err (InvalidInput ($"not a directory: " ++ part))
      else resolve_loop blobs entry_hash next rest
  end.

Definition resolve_path (blobs : B) (root_hash : bytes) (path : rstr)
    : result StoreError (bytes * bool) :=
  if bool_decide (path = []) || bool_decide (path = [slash]) then Ok (root_hash, true)
  else match path_parts path with
       | [] => Ok (root_hash, true)
       | part :: rest => resolve_loop blobs root_hash part rest
       end.

Fixpoint file_loop (blobs : B) (path : rstr) (current_hash : bytes) (part : rstr)
    (rest : list rstr) : result StoreError (bytes * TreeEntry) :=
  entries ← load_tree_entries blobs current_hash;
  entry ← find_entry entries part;
  entry_hash ← hash_array entry;
  match rest with
  | [] =>
      match kind_enum entry with
      | KFile => content ← blob_get blobs entry_hash; Ok (content, entry)
      | KSymlink => content ← blob_get blobs entry_hash; Ok (content, entry)
      | KDirectory => Err (InvalidInput ($"path is a directory: " ++ path))
      end
  | next :: rest =>
      if negb (bool_decide (kind_enum entry = KDirectory))
      then Err (InvalidInput ($"not a directory: " ++ part))
      else file_loop blobs path entry_hash next rest
  end.

Definition get_file_at_path (blobs : B) (root_hash : bytes) (path : rstr)
    : result StoreError (bytes * TreeEntry) :=
  match path_parts path with
  | [] => Err (InvalidInput ($"empty path"))
  | part :: rest => file_loop blobs path root_hash part rest
  end.
End paths.

(** ** Replay of the roots index *)

Section index.
Context `{Crc32Laws}.

Definition root_fits (r : N * bytes) : Prop := r.1 < U64 ∧ len r.2 = 32.
Definition root_bytes (r : N * bytes) : bytes := root_record r.1 r.2.

(** The records of the file, in the order they were written, give the map. *)
Definition roots_rep (file : bytes) (roots : gmap N bytes) : Prop :=
  ∃ l, Forall root_fits l ∧ file = concat (map root_bytes l)
       ∧ roots = foldl (λ m r, <[r.1 := r.2]> m) ∅ l.

Definition root_torn (tail : bytes) : Prop :=
  ∃ r k, root_fits r ∧ tail = take k (root_bytes r) ∧ (k < length (root_bytes r))%nat.

Lemma reads_root_tail r : root_fits r →
  reads read_root_tail (r.2 ++ write_u32 (compute_crc r.1 r.2)) (r.2, compute_crc r.1 r.2).
Proof.
  intros [Hid Hh]. unfold read_root_tail. eapply reads_bind; [by apply reads_exact|].
  eapply reads_last; [apply reads_u32, crc32_lt|]. apply reads_ret.
Qed.

Lemma load_roots_torn tail fuel start roots : root_torn tail →
  load_roots_loop (S fuel) tail start roots = Ok (roots, cut tail start).
Proof.
  intros (r & k & Hfit & -> & Hk). unfold root_bytes, root_record in *.
  pose proof Hfit as [Hid _]. cbn [load_roots_loop]. unfold cut.
  destruct (take_u64_app _ _ _ Hk) as [Hs|(j & Htk & Hj & H8)].
  - rewrite read_u64_short by done. by rewrite (proj2 (N.ltb_lt _ _) Hs).
  - rewrite (proj2 (N.ltb_ge _ _) H8), Htk, (reads_u64 _ Hid _).
    destruct (reads_torn _ _ _ _ (reads_root_tail _ Hfit)
      ltac:(unfold read_root_tail; solve_mono) Hj) as [e ->]. done.
Qed.

Lemma load_roots_replay l tail fuel start roots :
  Forall root_fits l → root_torn tail → (length l < fuel)%nat →
  load_roots_loop fuel (concat (map root_bytes l) ++ tail) start roots
  = Ok (foldl (λ m r, <[r.1 := r.2]> m) roots l,
        cut tail (start + len (concat (map root_bytes l)))).
Proof.
  intros Hl Ht. revert fuel start roots.
  induction Hl as [|r l Hfit Hl IH]; intros [|fuel] start roots Hf;
    cbn [length] in Hf; [lia| |lia|].
  - cbn [app map concat]. rewrite load_roots_torn, len_nil, N.add_0_r by done. done.
  - cbn [load_roots_loop map concat].
    assert (Hrb : root_bytes r = write_u64 r.1 ++ r.2 ++ write_u32 (compute_crc r.1 r.2)) by done.
    rewrite Hrb, <- !app_assoc.
    pose proof Hfit as [Hid _]. rewrite (reads_u64 _ Hid _).
    rewrite (app_assoc r.2), (reads_root_tail _ Hfit _), N.eqb_refl. cbn [negb].
    rewrite IH by lia. cbn [foldl]. do 3 f_equal. rewrite !len_app. lia.
Qed.

Lemma roots_rep_attach file roots id h :
  roots_rep file roots → root_fits (id, h) →
  roots_rep (file ++ root_record id h) (<[id := h]> roots).
Proof.
  intros (l & Hf & -> & ->) Hfit. exists (l ++ [(id, h)]). split_and!.
  - apply Forall_app. split; [done|]. by apply Forall_singleton.
  - rewrite map_app, concat_app. cbn. by rewrite app_nil_r.
  - by rewrite foldl_app.
Qed.

Lemma open_roots_rep file roots tail : roots_rep file roots → root_torn tail →
  open (file ++ tail) = Ok (mkFsRootsIndex (file ++ kept tail) roots).
Proof.
  intros (l & Hf & -> & ->) Ht. unfold open. rewrite load_roots_replay; [|done|done|].
  - cbn [mbind result_bind]. by rewrite N.add_0_l, set_len_cut.
  - pose proof (length_concat_ge root_bytes l) as Hc. rewrite length_app.
    specialize (Hc ltac:(intros; unfold root_bytes, root_record; rewrite length_app,
      length_write_u64; lia)). lia.
Qed.

(** The index after a sequence of attachments, oldest first. *)
Definition attach_all (l : list (N * bytes)) (idx : FsRootsIndex) : FsRootsIndex :=
  foldl (λ idx r, attach r.1 r.2 idx) idx l.

(** The last hash attached to a turn. *)
Definition last_attached (id : N) (l : list (N * bytes)) : option bytes :=
  snd <$> List.find (λ r, r.1 =? id) (rev l).

Lemma attach_all_rep l idx :
  roots_rep (fs_file idx) (fs_roots idx) → Forall root_fits l →
  roots_rep (fs_file (attach_all l idx)) (fs_roots (attach_all l idx)).
Proof.
  intros Hrep Hl. revert idx Hrep. induction Hl as [|[id h] l Hr Hl IH]; intros; [done|].
  cbn. apply IH. cbn. by apply roots_rep_attach.
Qed.

Lemma attach_all_get l idx id :
  get (attach_all l idx) id
  = match last_attached id l with Some h => Some h | None => get idx id end.
Proof.
  unfold last_attached. revert idx.
  induction l as [|[i h] l IH] using rev_ind; intros idx; [done|].
  unfold attach_all. rewrite foldl_app, rev_app_distr. cbn. unfold get. cbn.
  destruct (N.eqb_spec i id) as [->|Hne]; cbn; [by rewrite lookup_insert_eq|].
  rewrite lookup_insert_ne by done. apply IH.
Qed.

(** The roots index is a durable last-write-wins map: after any sequence of attachments
    to an empty index, looking up a turn gives the hash attached to it last, and opening
    the file again, with a torn record at its end, gives the same map. *)
Theorem roots_index_durable l tail :
  Forall root_fits l → root_torn tail →
  let idx := attach_all l (mkFsRootsIndex [] ∅) in
  (∀ id, get idx id = last_attached id l)
  ∧ ∃ idx', open (fs_file idx ++ tail) = Ok idx' ∧ fs_roots idx' = fs_roots idx
            ∧ (kept tail = [] → idx' = idx).
Proof.
  intros Hl Ht idx. split.
  - intros id. unfold idx. rewrite attach_all_get. by destruct (last_attached id l).
  - eexists. split; [apply open_roots_rep; [|done]|].
    + apply attach_all_rep; [by exists []|done].
    + split; [done|]. intros ->. rewrite app_nil_r. unfold idx. by destruct (attach_all _ _).
Qed.
End index.

(** ** Inheritance *)

(** The hash of the nearest turn of a history that has one. *)
Definition nearest (roots : gmap N bytes) (l : list TurnRecord) : option bytes :=
  head (omap (λ r, roots !! tr_turn_id r) (rev l)).

Lemma inherited_loop_history st idx id l fuel :
  wf st → history (ts_turns st) id l → (length l < fuel)%nat →
  inherited_loop fuel idx st id = nearest (fs_roots idx) l.
Proof.
  intros Hwf Hl. revert fuel. unfold nearest.
  induction Hl as [|id r l Hid Hr Hl IH]; intros [|fuel] Hf; try (cbn in Hf; lia); [done|].
  rewrite length_app in Hf. cbn [length] in Hf. cbn [inherited_loop].
  destruct (N.eqb_spec id 0); [done|]. unfold get_turn. rewrite Hr. cbn [ok_or].
  rewrite rev_app_distr. cbn [rev app omap list_omap].
  destruct (fs_roots idx !! tr_turn_id r); [done|]. apply IH. lia.
Qed.

(** Inheritance of snapshots: a turn has the snapshot attached to the nearest turn of
    its history, itself first, and none when its history has none; the walk ends, since
    histories are finite. *)
Theorem get_inherited_nearest st idx id l :
  wf st → id ≠ 0 → history (ts_turns st) id l →
  get_inherited idx id st = nearest (fs_roots idx) l
  ∧ has_snapshot idx id st = existsb (λ r, bool_decide (is_Some (get idx (tr_turn_id r)))) l.
Proof.
  intros Hwf Hid Hl.
  assert (Heq : get_inherited idx id st = nearest (fs_roots idx) l).
  { unfold get_inherited. pose proof (history_size (wf_turns_ok _ Hwf) _ _ Hl).
    rewrite (inherited_loop_history st idx id l) by (done || lia).
    destruct (fs_roots idx !! id) as [h|] eqn:Hh; [|done].
    inversion Hl as [|? r l' ? Hr Hp]; [done|]. subst.
    destruct (wf_id _ _ (wf_turns_ok _ Hwf) _ _ Hr) as [Hri _].
    unfold nearest. rewrite rev_app_distr. cbn. by rewrite Hri, Hh. }
  split; [done|]. unfold has_snapshot. rewrite Heq. unfold nearest, get.
  assert (Hk : ∀ k, bool_decide (is_Some (head (omap (λ r, fs_roots idx !! tr_turn_id r) k)))
    = existsb (λ r, bool_decide (is_Some (fs_roots idx !! tr_turn_id r))) (rev k));
    [|by rewrite Hk, rev_involutive].
  clear. intros k. induction k as [|r k IH]; [done|].
  cbn [omap list_omap rev]. rewrite existsb_app, orb_comm. cbn [existsb]. rewrite orb_false_r.
  destruct (fs_roots idx !! tr_turn_id r) as [h|]; cbn [head orb]; [done|]. rewrite IH.
  by rewrite bool_decide_eq_false_2 by (intros [? ?]; done).
Qed.

(** ** Paths *)

(** [BlobReaderLaws rep]: a store that represents a map, in the sense of [rep], reads like
    the map. *)
Class BlobReaderLaws (B : Type) `{BlobReader B} (rep : B → gmap bytes bytes → Prop) : Prop :=
  blob_get_spec : ∀ b m h, rep b m → blob_get b h = ok_or (NotFound ($"blob")) (m !! h).

Section walk.
Context `{Msgpack} {B : Type} `{BlobReader B}.

(** The meaning of a path: from tree to tree through directories, to an entry of the
    last one. *)
Inductive tree_walk (blobs : B) : bytes → list rstr → TreeEntry → Prop :=
| walk_last current part entries entry :
    load_tree_entries blobs current = Ok entries → find_entry entries part = Ok entry →
    len (te_hash entry) = 32 → tree_walk blobs current [part] entry
| walk_dir current part rest entries entry target :
    load_tree_entries blobs current = Ok entries → find_entry entries part = Ok entry →
    len (te_hash entry) = 32 → kind_enum entry = KDirectory →
    tree_walk blobs (te_hash entry) rest target →
    tree_walk blobs current (part :: rest) target.

Lemma hash_array_ok e h : hash_array e = Ok h ↔ h = te_hash e ∧ len (te_hash e) = 32.
Proof.
  unfold hash_array. destruct (N.eqb_spec (len (te_hash e)) 32); cbn [negb].
  - split; [by intros [= <-]|by intros [-> _]].
  - split; [done|by intros [_ ?]].
Qed.

Lemma hash_array_len e : len (te_hash e) = 32 → hash_array e = Ok (te_hash e).
Proof. intros. by apply hash_array_ok. Qed.

Lemma tree_walk_cons blobs current part rest target :
  tree_walk blobs current (part :: rest) target ↔
  ∃ entries entry, load_tree_entries blobs current = Ok entries
    ∧ find_entry entries part = Ok entry ∧ len (te_hash entry) = 32
    ∧ (match rest with
       | [] => target = entry
       | _ :: _ => kind_enum entry = KDirectory ∧ tree_walk blobs (te_hash entry) rest target
       end).
Proof.
  split.
  - inversion 1 as [|? ? ? ? ? ? ? ? ? ? Hw]; subst; [by eauto 10|].
    do 2 eexists. do 3 (split; [done|]). destruct rest; [by inversion Hw|done].
  - intros (entries & entry & ? & ? & ? & Hrest). destruct rest as [|next rest].
    + subst. by eapply walk_last.
    + destruct Hrest. by eapply walk_dir.
Qed.

Lemma resolve_loop_walk blobs current part rest h d :
  resolve_loop blobs current part rest = Ok (h, d) ↔
  ∃ e, tree_walk blobs current (part :: rest) e ∧ h = te_hash e
       ∧ d = bool_decide (kind_enum e = KDirectory).
Proof.
  revert current part. induction rest as [|next rest IH]; intros current part.
  - cbn [resolve_loop]. setoid_rewrite tree_walk_cons. split.
    + intros (entries & He & (entry & Hf & (eh & [-> Hh]%hash_array_ok & Hr)%bind_ok)%bind_ok)%bind_ok.
      simplify_eq. eauto 10.
    + intros (e & (entries & entry & He & Hf & Hh & ->) & -> & ->).
      rewrite He. cbn. rewrite Hf. cbn. by rewrite (hash_array_len entry Hh).
  - cbn [resolve_loop]. setoid_rewrite tree_walk_cons. split.
    + intros (entries & He & (entry & Hf & (eh & [-> Hh]%hash_array_ok & Hr)%bind_ok)%bind_ok)%bind_ok.
      case_bool_decide as Hk; [|done]. cbn [negb] in Hr. apply IH in Hr as (e & Hw & -> & ->).
      eauto 12.
    + intros (e & (entries & entry & He & Hf & Hh & Hk & Hw) & -> & ->).
      rewrite He. cbn [mbind result_bind]. rewrite Hf. cbn [mbind result_bind].
      rewrite (hash_array_len entry Hh). cbn [mbind result_bind].
      rewrite bool_decide_eq_true_2 by done. cbn [negb]. apply IH. eauto.
Qed.

Lemma file_loop_walk blobs path current part rest content e :
  file_loop blobs path current part rest = Ok (content, e) ↔
  tree_walk blobs current (part :: rest) e ∧ kind_enum e ≠ KDirectory
  ∧ blob_get blobs (te_hash e) = Ok content.
Proof.
  revert current part. induction rest as [|next rest IH]; intros current part.
  - cbn [file_loop]. rewrite tree_walk_cons. split.
    + intros (entries & He & (entry & Hf & (eh & [-> Hh]%hash_array_ok & Hr)%bind_ok)%bind_ok)%bind_ok.
      destruct (kind_enum entry) eqn:Hk; [| done|];
        apply bind_ok in Hr as (c & Hc & [= <- <-]); split; eauto 10; by rewrite Hk.
    + intros ((entries & entry & He & Hf & Hh & ->) & Hk & Hc).
      rewrite He. cbn [mbind result_bind]. rewrite Hf. cbn [mbind result_bind].
      rewrite (hash_array_len entry Hh). cbn [mbind result_bind].
      destruct (kind_enum entry); [|done|]; by rewrite Hc.
  - cbn [file_loop]. rewrite tree_walk_cons. split.
    + intros (entries & He & (entry & Hf & (eh & [-> Hh]%hash_array_ok & Hr)%bind_ok)%bind_ok)%bind_ok.
      case_bool_decide as Hk; [|done]. cbn [negb] in Hr. apply IH in Hr as (Hw & Hd & Hc).
      eauto 12.
    + intros ((entries & entry & He & Hf & Hh & Hk & Hw) & Hd & Hc).
      rewrite He. cbn [mbind result_bind]. rewrite Hf. cbn [mbind result_bind].
      rewrite (hash_array_len entry Hh). cbn [mbind result_bind].
      rewrite bool_decide_eq_true_2 by done. cbn [negb]. by apply IH.
Qed.
End walk.

(** More blobs never change what a path means. *)
Lemma tree_walk_mono `{Msgpack} {B : Type} `{BlobReaderLaws B rep} b b' m m' current parts e :
  rep b m → rep b' m' → m ⊆ m' → tree_walk b current parts e → tree_walk b' current parts e.
Proof.
  intros Hb Hb' Hm.
  assert (Hget : ∀ h c, blob_get b h = Ok c → blob_get b' h = Ok c).
  { intros h c. rewrite (blob_get_spec _ _ _ Hb), (blob_get_spec _ _ _ Hb').
    intros Hc%ok_or_ok. apply ok_or_ok. by eapply lookup_weaken. }
  assert (Hload : ∀ h es, load_tree_entries b h = Ok es → load_tree_entries b' h = Ok es).
  { intros h es (c & Hc & Hp)%bind_ok. apply bind_ok. eauto. }
  induction 1; [eapply walk_last|eapply walk_dir]; eauto.
Qed.

(** Paths: [resolve_path] and [get_file_at_path] follow the same walk through the
    trees; the first gives the hash and whether it is a directory, the second the bytes
    under that hash, for a file or a symlink only; and a result stays valid when blobs are
    added to the store, as a store that represents a map is read through [BlobReader]. *)
Theorem paths_walk `{Msgpack} {B : Type} `{BlobReaderLaws B rep} (b : B) m root path part rest :
  rep b m → path_parts path = part :: rest →
  (∀ h d, resolve_path b root path = Ok (h, d) ↔
     ∃ e, tree_walk b root (part :: rest) e ∧ h = te_hash e
          ∧ d = bool_decide (kind_enum e = KDirectory))
  ∧ (∀ c e, get_file_at_path b root path = Ok (c, e) ↔
       tree_walk b root (part :: rest) e ∧ kind_enum e ≠ KDirectory ∧ m !! te_hash e = Some c)
  ∧ (∀ b' m' c e, rep b' m' → m ⊆ m' →
       get_file_at_path b root path = Ok (c, e) → get_file_at_path b' root path = Ok (c, e)).
Proof.
  intros Hb Hp.
  assert (Hfile : ∀ b m c e, rep b m → get_file_at_path b root path = Ok (c, e) ↔
    tree_walk b root (part :: rest) e ∧ kind_enum e ≠ KDirectory ∧ m !! te_hash e = Some c).
  { intros b1 m1 c e Hb1. unfold get_file_at_path. rewrite Hp, file_loop_walk.
    rewrite (blob_get_spec _ _ _ Hb1), ok_or_ok. done. }
  split; [|split].
  - intros h d. unfold resolve_path. rewrite Hp.
    rewrite bool_decide_eq_false_2 by (intros ->; done).
    rewrite bool_decide_eq_false_2 by (intros ->; done). apply resolve_loop_walk.
  - intros c e. by apply Hfile.
  - intros b' m' c e Hb' Hm (Hw & Hk & Hc)%(Hfile b m); [|done]. apply (Hfile b' m'); [done|].
    split; [|split; [done|by eapply lookup_weaken]]. eapply (tree_walk_mono b b'); eauto.
Qed.

(** ** The blob store implements the interface *)

#[export] Instance BlobStore_reader `{Crc32} `{Zstd} `{PreadSchedule} : BlobReader BlobStore :=
  BlobStore.get.

#[export] Instance BlobStore_reader_laws `{Crc32Laws} `{ZstdLaws} `{PreadSchedule} :
  BlobReaderLaws BlobStore blob_rep.
Proof. intros st m h. apply get_rep. Qed.

(** A snapshot: the root holds the directory [src], which holds the file [a.txt]. *)
Module FsStoreWitness.

Import BlobStoreWitness TurnHistoryWitness.
#[local] Existing Instances Sample.crc Sample.crc_laws Sample.zstd Sample.zstd_laws Sample.pread
  Sample.order Sample.msgpack.

Definition entry_bytes (name : rstr) (kind : Byte.byte) (hash : bytes) : bytes :=
  [Byte.x91; Byte.x83; Byte.x01; byte_of_N (160 + len name)] ++ name
    ++ [Byte.x02; kind; Byte.x05; Byte.xc4; Byte.x20] ++ hash.

Definition hash_root : bytes := replicate 32 Byte.x0a.
Definition hash_src : bytes := replicate 32 Byte.x0b.
Definition hash_file : bytes := replicate 32 Byte.x0c.
Definition blobs : list (bytes * bytes) :=
  [(hash_root, entry_bytes ($"src") Byte.x01 hash_src);
   (hash_src, entry_bytes ($"a.txt") Byte.x00 hash_file); (hash_file, $"hello")].
Definition store : BlobStore := foldl (λ st '(h, c), (put_if_absent h c st).2) empty blobs.
Definition content : gmap bytes bytes := foldl (λ m '(h, c), abs_put h c m) ∅ blobs.

Lemma store_rep : blob_rep store content.
Proof.
  do 3 (apply blob_rep_put; [|split; by vm_compute|by vm_compute]). apply blob_rep_empty.
Qed.

Definition txt : TreeEntry := mkTreeEntry ($"a.txt") 0 0 0 hash_file.

Example file_found : get_file_at_path store hash_root ($"/./src//a.txt") = Ok ($"hello", txt)
  ∧ resolve_path store hash_root ($"src/") = Ok (hash_src, true)
  ∧ resolve_path store hash_root ($"src/b") = Err (NotFound ($"path component not found: b")).
Proof. by vm_compute. Qed.

Lemma paths_walk_witness :
  tree_walk store hash_root [$"src"; $"a.txt"] txt ∧ content !! hash_file = Some ($"hello").
Proof.
  destruct (paths_walk store content hash_root ($"/./src//a.txt") ($"src") [$"a.txt"] store_rep)
    as (_ & Hfile & _); [by vm_compute|].
  destruct (proj1 (Hfile ($"hello") txt)) as (Hw & _ & Hc); [by vm_compute|]. done.
Defined.

Definition roots : list (N * bytes) := [(1, hash_src); (3, hash_root); (1, hash_root)].
Definition roots_idx : FsRootsIndex := attach_all roots (mkFsRootsIndex [] ∅).

Lemma roots_index_durable_witness :
  get roots_idx 1 = Some hash_root
  ∧ ∃ idx', open (fs_file roots_idx ++ take 20 (root_record 9 hash_src)) = Ok idx'.
Proof.
  destruct (roots_index_durable roots (take 20 (root_record 9 hash_src))) as [Hg (idx' & Ho & _)].
  - repeat constructor.
  - exists (9, hash_src), 20%nat. split; [by split|]. split; [done|]. apply Nat.ltb_lt. by vm_compute.
  - split; [apply Hg|]. by exists idx'.
Defined.

(** Turn 4 is a child of turn 2, which is a child of turn 1: it inherits from turn 1. *)
Lemma get_inherited_nearest_witness :
  ∃ l, history (ts_turns st3) 4 l ∧ get_inherited roots_idx 4 st3 = nearest (fs_roots roots_idx) l
       ∧ get_inherited roots_idx 4 st3 = Some hash_root.
Proof.
  destruct (history_exists (wf_turns_ok _ wf_st3) 4) as [l Hl]; [right; by eexists; vm_compute|].
  exists l. split; [done|]. split; [|by vm_compute].
  by apply (get_inherited_nearest st3 roots_idx 4 l wf_st3).
Defined.

End FsStoreWitness.
