(* ===== verification/Metadata.v ===== *)
(** * Metadata: what a context says about itself

    [server/src/store.rs], the extraction of [ContextMetadata] and [Provenance] from the
    msgpack payload of the first turn of a context. Key 30 of the payload holds a map with
    the client tag, the title, the labels and the provenance. *)

From S2P Require Import Prelude Bytes External.

Open Scope N_scope.

Record Provenance : Type := mkProvenance {
  pv_parent_context_id : option N;
  pv_spawn_reason : option rstr;
  pv_root_context_id : option N;
  pv_trace_id : option rstr;
  pv_span_id : option rstr;
  pv_correlation_id : option rstr;
  pv_on_behalf_of : option rstr;
  pv_on_behalf_of_source : option rstr;
  pv_on_behalf_of_email : option rstr;
  pv_writer_method : option rstr;
  pv_writer_subject : option rstr;
  pv_writer_issuer : option rstr;
  pv_service_name : option rstr;
  pv_service_version : option rstr;
  pv_service_instance_id : option rstr;
  pv_process_pid : option Z;
  pv_process_owner : option rstr;
  pv_host_name : option rstr;
  pv_host_arch : option rstr;
  pv_client_address : option rstr;
  pv_client_port : option Z;
  pv_env : option (gmap rstr rstr);
  pv_sdk_name : option rstr;
  pv_sdk_version : option rstr;
  pv_captured_at : option Z
}.

Record ContextMetadata : Type := mkContextMetadata {
  cm_client_tag : option rstr;
  cm_title : option rstr;
  cm_labels : option (list rstr);
  cm_provenance : option Provenance
}.

#[export] Instance Provenance_eq_dec : EqDecision Provenance.
Proof. solve_decision. Defined.
#[export] Instance ContextMetadata_eq_dec : EqDecision ContextMetadata.
Proof. solve_decision. Defined.

(** ** Values *)

Definition key_to_tag (key : Value) : option N :=
  match key with
  | VInteger i =>
      match int_as_u64 i with
      | Some n => Some n
      | None => v ← int_as_i64 i; if (0 <=? v)%Z then Some (Z.to_N v) else None
      end
  | VString s => s ← utf8_as_str s; parse_u64 s
  | _ => None
  end.

Definition extract_string (v : Value) : option rstr :=
  match v with VString s => utf8_as_str s | _ => None end.

Definition extract_u64 (v : Value) : option N :=
  match v with VInteger i => int_as_u64 i | _ => None end.

Definition extract_i64 (v : Value) : option Z :=
  match v with VInteger i => int_as_i64 i | _ => None end.

(** The later of two entries with the same key wins, as when a [HashMap] is collected. *)
Definition extract_string_map (v : Value) : option (gmap rstr rstr) :=
  match v with
  | VMap m =>
      let pairs := omap (λ '(k, v), key ← extract_string k; val ← extract_string v;
                           Some (key, val)) m in
      let map : gmap rstr rstr := foldl (λ acc '(k, v), <[k := v]> acc) ∅ pairs in
      if bool_decide (map = ∅) then None else Some map
  | _ => None
  end.

(** ** Extraction

    The loops assign the field of each key in turn; a field is what the last entry with
    its key assigned, so each field is a fold of its own over the entries. *)
Definition last_field {A} (tag : N) (extract : Value → option A) (m : list (Value * Value))
    : option A :=
  foldl (λ acc '(k, v), if bool_decide (key_to_tag k = Some tag) then extract v else acc) None m.

Definition extract_provenance (m : list (Value * Value)) : Provenance :=
  mkProvenance
    (last_field 1 extract_u64 m) (last_field 2 extract_string m) (last_field 3 extract_u64 m)
    (last_field 10 extract_string m) (last_field 11 extract_string m)
    (last_field 12 extract_string m)
    (last_field 20 extract_string m) (last_field 21 extract_string m)
    (last_field 22 extract_string m)
    (last_field 30 extract_string m) (last_field 31 extract_string m)
    (last_field 32 extract_string m)
    (last_field 40 extract_string m) (last_field 41 extract_string m)
    (last_field 42 extract_string m) (last_field 43 extract_i64 m)
    (last_field 44 extract_string m) (last_field 45 extract_string m)
    (last_field 46 extract_string m)
    (last_field 50 extract_string m) (last_field 51 extract_i64 m)
    (last_field 60 extract_string_map m)
    (last_field 70 extract_string m) (last_field 71 extract_string m)
    (last_field 80 extract_i64 m).

(** The strings of the labels array that are UTF-8. *)
Definition label_strings (l : list Value) : list rstr := omap extract_string l.

(** One iteration of the loop of [extract_context_metadata]. *)
Definition metadata_field (md : ContextMetadata) (kv : Value * Value) : ContextMetadata :=
  let '(k, v) := kv in
  match key_to_tag k with
  | None => md
  | Some key =>
      if key =? 1 then
        match v with
        | VString s => mkContextMetadata (utf8_as_str s) (cm_title md) (cm_labels md)
                         (cm_provenance md)
        | _ => md
        end
      else if key =? 2 then
        match v with
        | VString s => mkContextMetadata (cm_client_tag md) (utf8_as_str s) (cm_labels md)
                         (cm_provenance md)
        | _ => md
        end
      else if key =? 3 then
        match v with
        | VArray arr =>
            let labels := label_strings arr in
            if negb (len labels =? 0)
            then mkContextMetadata (cm_client_tag md) (cm_title md) (Some labels)
                   (cm_provenance md)
            else md
        | _ => md
        end
      else if key =? 10 then
        match v with
        | VMap prov_map => mkContextMetadata (cm_client_tag md) (cm_title md) (cm_labels md)
                             (Some (extract_provenance prov_map))
        | _ => md
        end
      else md
  end.

(** The value of the first entry whose key is 30. *)
Definition find_context_metadata (m : list (Value * Value)) : option Value :=
  snd <$> List.find (λ '(k, _), bool_decide (key_to_tag k = Some 30)) m.

Definition extract_context_metadata `{Msgpack} (payload : bytes) : option ContextMetadata :=
  value ← result_ok (msgpack_read payload);
  match value with
  | VMap m =>
      context_metadata_value ← find_context_metadata m;
      match context_metadata_value with
      | VMap metadata_map =>
          let metadata :=
            foldl metadata_field (mkContextMetadata None None None None) metadata_map in
          if bool_decide (is_Some (cm_client_tag metadata))
             || bool_decide (is_Some (cm_title metadata))
             || bool_decide (is_Some (cm_labels metadata))
             || bool_decide (is_Some (cm_provenance metadata))
          then Some metadata else None
      | _ => None
      end
  | _ => None
  end.

(** ** Encoding

    What a client that follows the protocol sends: a map from tags to values. The keys may
    be integers or decimal strings. *)

(** [tag_key tag k]: the key [k] is read as [tag]. *)
Definition tag_key (tag : N) (k : Value) : Prop := key_to_tag k = Some tag.

Lemma tag_key_int n : n < U64 → tag_key n (VInteger (Z.of_N n)).
Proof.
  intros Hn. unfold tag_key, key_to_tag, int_as_u64.
  rewrite (proj2 (Z.leb_le 0 _)), (proj2 (Z.ltb_lt _ _)) by lia. cbn. by rewrite N2Z.id.
Qed.

(** An optional field: one entry, or none. *)
Definition opt_field {A} (key : Value) (enc : A → Value) (o : option A)
    : list (Value * Value) :=
  match o with Some x => [(key, enc x)] | None => [] end.

Definition enc_string (s : rstr) : Value := VString s.
Definition enc_u64 (n : N) : Value := VInteger (Z.of_N n).
Definition enc_i64 (z : Z) : Value := VInteger z.
Definition enc_string_map (m : gmap rstr rstr) : Value :=
  VMap (map (λ '(k, v), (VString k, VString v)) (map_to_list m)).

Definition encode_provenance (key : N → Value) (p : Provenance) : list (Value * Value) :=
  opt_field (key 1) enc_u64 (pv_parent_context_id p)
  ++ opt_field (key 2) enc_string (pv_spawn_reason p)
  ++ opt_field (key 3) enc_u64 (pv_root_context_id p)
  ++ opt_field (key 10) enc_string (pv_trace_id p)
  ++ opt_field (key 11) enc_string (pv_span_id p)
  ++ opt_field (key 12) enc_string (pv_correlation_id p)
  ++ opt_field (key 20) enc_string (pv_on_behalf_of p)
  ++ opt_field (key 21) enc_string (pv_on_behalf_of_source p)
  ++ opt_field (key 22) enc_string (pv_on_behalf_of_email p)
  ++ opt_field (key 30) enc_string (pv_writer_method p)
  ++ opt_field (key 31) enc_string (pv_writer_subject p)
  ++ opt_field (key 32) enc_string (pv_writer_issuer p)
  ++ opt_field (key 40) enc_string (pv_service_name p)
  ++ opt_field (key 41) enc_string (pv_service_version p)
  ++ opt_field (key 42) enc_string (pv_service_instance_id p)
  ++ opt_field (key 43) enc_i64 (pv_process_pid p)
  ++ opt_field (key 44) enc_string (pv_process_owner p)
  ++ opt_field (key 45) enc_string (pv_host_name p)
  ++ opt_field (key 46) enc_string (pv_host_arch p)
  ++ opt_field (key 50) enc_string (pv_client_address p)
  ++ opt_field (key 51) enc_i64 (pv_client_port p)
  ++ opt_field (key 60) enc_string_map (pv_env p)
  ++ opt_field (key 70) enc_string (pv_sdk_name p)
  ++ opt_field (key 71) enc_string (pv_sdk_version p)
  ++ opt_field (key 80) enc_i64 (pv_captured_at p).

Definition encode_metadata (key : N → Value) (md : ContextMetadata) : list (Value * Value) :=
  opt_field (key 1) enc_string (cm_client_tag md)
  ++ opt_field (key 2) enc_string (cm_title md)
  ++ opt_field (key 3) (λ l, VArray (map VString l)) (cm_labels md)
  ++ opt_field (key 10) (λ p, VMap (encode_provenance key p)) (cm_provenance md).

(** The values a client can send: UTF-8 strings, integers of their types, no empty map or
    list. *)
Definition str_ok (o : option rstr) : Prop := ∀ s, o = Some s → utf8_valid s = true.
Definition u64_ok (o : option N) : Prop := ∀ n, o = Some n → n < U64.
Definition i64_ok (o : option Z) : Prop :=
  ∀ z, o = Some z → (-9223372036854775808 ≤ z < 9223372036854775808)%Z.
Definition env_ok (o : option (gmap rstr rstr)) : Prop :=
  ∀ m, o = Some m → m ≠ ∅ ∧ ∀ k v, m !! k = Some v → utf8_valid k = true ∧ utf8_valid v = true.

Definition prov_ok (p : Provenance) : Prop :=
  u64_ok (pv_parent_context_id p) ∧ str_ok (pv_spawn_reason p)
  ∧ u64_ok (pv_root_context_id p) ∧ str_ok (pv_trace_id p) ∧ str_ok (pv_span_id p)
  ∧ str_ok (pv_correlation_id p) ∧ str_ok (pv_on_behalf_of p)
  ∧ str_ok (pv_on_behalf_of_source p) ∧ str_ok (pv_on_behalf_of_email p)
  ∧ str_ok (pv_writer_method p) ∧ str_ok (pv_writer_subject p) ∧ str_ok (pv_writer_issuer p)
  ∧ str_ok (pv_service_name p) ∧ str_ok (pv_service_version p)
  ∧ str_ok (pv_service_instance_id p) ∧ i64_ok (pv_process_pid p)
  ∧ str_ok (pv_process_owner p) ∧ str_ok (pv_host_name p) ∧ str_ok (pv_host_arch p)
  ∧ str_ok (pv_client_address p) ∧ i64_ok (pv_client_port p) ∧ env_ok (pv_env p)
  ∧ str_ok (pv_sdk_name p) ∧ str_ok (pv_sdk_version p) ∧ i64_ok (pv_captured_at p).

Definition metadata_ok (md : ContextMetadata) : Prop :=
  str_ok (cm_client_tag md) ∧ str_ok (cm_title md)
  ∧ (∀ l, cm_labels md = Some l → l ≠ [] ∧ Forall (λ s, utf8_valid s = true) l)
  ∧ (∀ p, cm_provenance md = Some p → prov_ok p).

Lemma extract_enc_string o : str_ok o → (s ← o; extract_string (enc_string s)) = o.
Proof.
  intros Ho. destruct o as [s|]; [|done]. cbn. unfold utf8_as_str.
  by rewrite from_utf8_valid by by apply Ho.
Qed.

Lemma extract_enc_u64 o : u64_ok o → (n ← o; extract_u64 (enc_u64 n)) = o.
Proof.
  intros Ho. destruct o as [n|]; [|done]. cbn. unfold int_as_u64. specialize (Ho n eq_refl).
  rewrite (proj2 (Z.leb_le 0 _)), (proj2 (Z.ltb_lt _ _)) by lia. cbn. by rewrite N2Z.id.
Qed.

Lemma extract_enc_i64 o : i64_ok o → (z ← o; extract_i64 (enc_i64 z)) = o.
Proof.
  intros Ho. destruct o as [z|]; [|done]. cbn. unfold int_as_i64. specialize (Ho z eq_refl).
  by rewrite (proj2 (Z.leb_le _ _)), (proj2 (Z.ltb_lt _ _)) by lia.
Qed.

Lemma foldl_insert_rev (l : list (rstr * rstr)) :
  foldl (λ acc '(k, v), <[k := v]> acc) ∅ l = list_to_map (M:=gmap rstr rstr) (rev l).
Proof.
  induction l as [|[k v] l IH] using rev_ind; [done|]. rewrite foldl_snoc, rev_app_distr, IH. done.
Qed.

Lemma extract_enc_env o : env_ok o → (m ← o; extract_string_map (enc_string_map m)) = o.
Proof.
  intros Ho. destruct o as [m|]; [|done]. destruct (Ho m eq_refl) as [Hne Hm]. cbn.
  assert (Hl : omap (λ '(k, v), key ← extract_string k; val ← extract_string v; Some (key, val))
    (map (λ '(k, v), (VString k, VString v)) (map_to_list m)) = map_to_list m).
  { assert (Hall : ∀ k v, (k, v) ∈ map_to_list m → utf8_valid k = true ∧ utf8_valid v = true).
    { intros k v Hkv%elem_of_map_to_list. by apply Hm. }
    induction (map_to_list m) as [|[k v] l IH]; [done|]. cbn.
    destruct (Hall k v) as [Hk Hv]; [by left|]. unfold utf8_as_str.
    rewrite !from_utf8_valid by done. cbn. f_equal. apply IH. intros. apply Hall. by right. }
  rewrite Hl. assert (Hf : foldl (λ acc '(k, v), <[k := v]> acc) ∅ (map_to_list m) = m).
  { rewrite foldl_insert_rev, (list_to_map_proper (rev (map_to_list m)) (map_to_list m)).
    - apply list_to_map_to_list.
    - rewrite <- (Permutation_rev (map_to_list m)). apply NoDup_fst_map_to_list.
    - symmetry. apply Permutation_rev. }
  rewrite Hf. by rewrite bool_decide_eq_false_2.
Qed.

(** The fold of one field over encoded fields skips those with other keys. *)
Definition last_field_from {A} (tag : N) (extract : Value → option A) (acc : option A)
    (m : list (Value * Value)) : option A :=
  foldl (λ acc '(k, v), if bool_decide (key_to_tag k = Some tag) then extract v else acc) acc m.

Section fields.
Context (key : N → Value) (Hkey : ∀ tag, tag < 128 → tag_key tag (key tag)).

Lemma last_field_skip {A B} tag (extract : Value → option A) acc t (enc : B → Value) o rest :
  t < 128 → (t =? tag) = false →
  last_field_from tag extract acc (opt_field (key t) enc o ++ rest)
  = last_field_from tag extract acc rest.
Proof using Hkey.
  intros Ht Hne. destruct o as [x|]; [|done]. cbn. rewrite (Hkey t Ht).
  rewrite bool_decide_eq_false_2; [done|]. apply N.eqb_neq in Hne. congruence.
Qed.

Lemma last_field_here {A B} tag (extract : Value → option A) (enc : B → Value) o rest :
  tag < 128 →
  last_field_from tag extract None (opt_field (key tag) enc o ++ rest)
  = last_field_from tag extract (x ← o; extract (enc x)) rest.
Proof using Hkey.
  intros Ht. destruct o as [x|]; [|done]. cbn. rewrite (Hkey tag Ht).
  by rewrite bool_decide_eq_true_2.
Qed.

Lemma last_field_nil {A} tag (extract : Value → option A) acc :
  last_field_from tag extract acc [] = acc.
Proof. done. Qed.

Lemma extract_encode_provenance p : prov_ok p → extract_provenance (encode_provenance key p) = p.
Proof using Hkey.
  intros Hok. unfold prov_ok in Hok. destruct_and! Hok.
  unfold extract_provenance, last_field.
  rewrite <- (app_nil_r (encode_provenance key p)). unfold encode_provenance.
  rewrite <- !app_assoc.
  repeat match goal with
  | |- context [foldl (λ acc '(k, v), if bool_decide (key_to_tag k = Some ?t) then ?e v else acc)
                  ?a ?m] =>
      change (foldl (λ acc '(k, v), if bool_decide (key_to_tag k = Some t) then e v else acc) a m)
        with (last_field_from t e a m)
  end.
  repeat first [rewrite last_field_here by done | rewrite last_field_skip by done].
  rewrite !last_field_nil, !extract_enc_string, !extract_enc_u64, !extract_enc_i64,
    extract_enc_env by done. by destruct p.
Qed.

Lemma metadata_field_step md t v : t < 128 →
  metadata_field md (key t, v)
  = metadata_field md (VInteger (Z.of_N t), v).
Proof using Hkey.
  intros Ht. unfold metadata_field. rewrite (Hkey t Ht). by rewrite (tag_key_int t ltac:(lia)).
Qed.

Lemma label_strings_enc l : Forall (λ s, utf8_valid s = true) l →
  label_strings (map VString l) = l.
Proof.
  induction 1 as [|s l Hs Hl IH]; [done|]. cbn. unfold utf8_as_str at 1.
  rewrite from_utf8_valid by done. cbn. by f_equal.
Qed.

Lemma fold_encode_metadata md : metadata_ok md →
  foldl metadata_field (mkContextMetadata None None None None) (encode_metadata key md) = md.
Proof using Hkey.
  intros (Ht & Hti & Hl & Hp). destruct md as [tag title labels prov]. cbn in *.
  unfold encode_metadata. cbn [cm_client_tag cm_title cm_labels cm_provenance].
  rewrite !foldl_app.
  assert (H1 : foldl metadata_field (mkContextMetadata None None None None)
    (opt_field (key 1) enc_string tag) = mkContextMetadata tag None None None).
  { destruct tag as [s|]; [|done]. cbn [opt_field foldl]. rewrite metadata_field_step by done.
    cbn. unfold utf8_as_str. by rewrite from_utf8_valid by by apply Ht. }
  assert (H2 : foldl metadata_field (mkContextMetadata tag None None None)
    (opt_field (key 2) enc_string title) = mkContextMetadata tag title None None).
  { destruct title as [s|]; [|done]. cbn [opt_field foldl]. rewrite metadata_field_step by done.
    cbn. unfold utf8_as_str. by rewrite from_utf8_valid by by apply Hti. }
  assert (H3 : foldl metadata_field (mkContextMetadata tag title None None)
    (opt_field (key 3) (λ l, VArray (map VString l)) labels)
    = mkContextMetadata tag title labels None).
  { destruct labels as [l|]; [|done]. cbn [opt_field foldl]. rewrite metadata_field_step by done.
    destruct (Hl l eq_refl) as [Hne Hu]. unfold metadata_field.
    rewrite (tag_key_int 3) by done. cbn [N.eqb Pos.eqb]. cbv zeta.
    rewrite label_strings_enc by done. destruct l; [done|]. rewrite len_cons.
    by rewrite (proj2 (N.eqb_neq _ _)) by lia. }
  rewrite H1, H2, H3. destruct prov as [p|]; [|done]. cbn [opt_field foldl].
  rewrite metadata_field_step by done. unfold metadata_field.
  rewrite (tag_key_int 10) by done. cbn [N.eqb Pos.eqb].
  rewrite extract_encode_provenance by by apply Hp. done.
Qed.
End fields.

(** Metadata survives the wire: for a payload that decodes to a map whose first entry with
    tag 30 is the encoding of some metadata, with integer keys or decimal strings as keys,
    extraction returns exactly that metadata, including all fields of the provenance,
    and nothing when there is nothing in it. *)
Theorem extract_encoded_metadata `{Msgpack} (key : N → Value) payload before v after md :
  (∀ tag, tag < 128 → tag_key tag (key tag)) →
  msgpack_read payload = Ok (VMap (before ++ (key 30, v) :: after)) →
  Forall (λ kv, key_to_tag kv.1 ≠ Some 30) before →
  v = VMap (encode_metadata key md) → metadata_ok md →
  extract_context_metadata payload
  = if decide (md = mkContextMetadata None None None None) then None else Some md.
Proof.
  intros Hkey Hread Hbefore -> Hok. unfold extract_context_metadata. rewrite Hread.
  cbn [result_ok mbind option_bind].
  assert (Hfind : find_context_metadata (before ++ (key 30, VMap (encode_metadata key md)) :: after)
    = Some (VMap (encode_metadata key md))).
  { clear Hread. unfold find_context_metadata. induction Hbefore as [|[k w] l Hk Hl IH]; cbn.
    - rewrite bool_decide_eq_true_2 by (by apply Hkey). done.
    - rewrite bool_decide_eq_false_2 by exact Hk. apply IH. }
  rewrite Hfind. cbn [mbind option_bind]. rewrite (fold_encode_metadata key Hkey md Hok).
  destruct (decide _) as [->|Hne]; [done|]. by destruct md as [[?|] [?|] [?|] [?|]].
Qed.

(** A payload with decimal strings as keys, as the Go client writes them. *)
Module MetadataWitness.

#[local] Existing Instance Sample.msgpack.

Definition str_key (tag : N) : Value := VString (show_N tag).

Lemma str_key_tag tag : tag < 128 → tag_key tag (str_key tag).
Proof.
  intros Ht. assert (Hall : forallb (λ n,
    bool_decide (key_to_tag (str_key (N.of_nat n)) = Some (N.of_nat n)))
    (seq 0 128) = true) by by vm_compute.
  rewrite forallb_forall in Hall. specialize (Hall (N.to_nat tag)).
  rewrite in_seq, N2Nat.id in Hall. specialize (Hall ltac:(lia)).
  by apply bool_decide_eq_true in Hall.
Qed.

Definition payload : bytes :=
  [Byte.x82; Byte.x07; Byte.xc0; Byte.xa2] ++ $"30"
  ++ [Byte.x82; Byte.xa1] ++ $"1" ++ [Byte.xa3] ++ $"cli"
  ++ [Byte.xa1] ++ $"3" ++ [Byte.x91; Byte.xa1] ++ $"x".

Definition md : ContextMetadata := mkContextMetadata (Some ($"cli")) None (Some [$"x"]) None.

Lemma extract_encoded_metadata_witness : extract_context_metadata payload = Some md.
Proof.
  refine (extract_encoded_metadata str_key payload [(VInteger 7, VNil)] _ [] md str_key_tag
    _ _ eq_refl _); [by vm_compute|by repeat constructor|].
  split_and!; cbn; try done; intros ? [= <-]; [done|by split; [|repeat constructor]].
Defined.

End MetadataWitness.
