(* ===== verification/Json.v ===== *)
(** * Json: JSON values

    [serde_json::Value] of the server's build: the keys of an object are kept in a [BTreeMap],
    here a list sorted by key; a number is an unsigned integer, a negative integer or
    a finite binary64. *)

From Stdlib Require Import Floats.SpecFloat.
From S2P Require Import Prelude Bytes.

Open Scope N_scope.

Inductive number : Type :=
| PosInt (n : N)
| NegInt (z : Z)
| Float (f : spec_float).

(** [Number::from(u64)], [Number::from(i64)] and [Number::from_f64]. *)
Definition number_from_u64 (n : N) : number := PosInt n.
Definition number_from_i64 (z : Z) : number := if (z <? 0)%Z then NegInt z else PosInt (Z.to_N z).
Definition number_from_f64 (f : spec_float) : option number :=
  match f with
  | S754_zero _ | S754_finite _ _ _ => Some (Float f)
  | S754_infinity _ | S754_nan => None
  end.

Inductive json : Type :=
| JNull
| JBool (b : bool)
| JNumber (n : number)
| JString (s : rstr)
| JArray (l : list json)
| JObject (o : list (rstr * json)).

(** The size of a value. *)
Fixpoint json_size (j : json) : nat :=
  S match j with
    | JArray l => sum_list_with json_size l
    | JObject o => sum_list_with (λ '(_, v), json_size v) o
    | _ => O
    end.

(** ** Objects *)

Section obj.
Context {V : Type}.

(** [Map::insert]: an entry with the key is replaced. *)
Fixpoint obj_insert (k : rstr) (v : V) (o : list (rstr * V)) : list (rstr * V) :=
  match o with
  | [] => [(k, v)]
  | (k', v') :: o' =>
      if bool_decide (k = k') then (k, v) :: o'
      else if str_lt k k' then (k, v) :: o
      else (k', v') :: obj_insert k v o'
  end.

(** [Map::get]. *)
Fixpoint obj_get (k : rstr) (o : list (rstr * V)) : option V :=
  match o with
  | [] => None
  | (k', v) :: o => if bool_decide (k = k') then Some v else obj_get k o
  end.

(** Insertion of entries one after the other. *)
Definition obj_inserts (l : list (rstr * V)) (o : list (rstr * V)) : list (rstr * V) :=
  foldl (λ o '(k, v), obj_insert k v o) o l.

Definition obj_of (l : list (rstr * V)) : list (rstr * V) := obj_inserts l [].

Lemma obj_get_insert k k' v o :
  obj_get k' (obj_insert k v o) = if bool_decide (k' = k) then Some v else obj_get k' o.
Proof.
  induction o as [|[k0 v0] o IH]; cbn; [done|].
  destruct (bool_decide_reflect (k = k0)) as [->|Hk]; cbn.
  - by destruct (bool_decide (k' = k0)).
  - destruct (str_lt k k0); cbn; [by destruct (bool_decide (k' = k))|].
    rewrite IH. case_bool_decide as Hk0; case_bool_decide as Hk1; congruence.
Qed.

Lemma obj_get_inserts_Some k v l o :
  obj_get k (obj_inserts l o) = Some v → (k, v) ∈ l ∨ obj_get k o = Some v.
Proof.
  revert o. induction l as [|[k0 v0] l IH]; intros o; [by right|]. cbn. intros Hg.
  destruct (IH _ Hg) as [Hin|Ho]; [by left; right|]. rewrite obj_get_insert in Ho.
  case_bool_decide; [|by right]. simplify_eq. left. by left.
Qed.

Lemma obj_get_inserts_is_Some k l o :
  is_Some (obj_get k (obj_inserts l o)) ↔ k ∈ l.*1 ∨ is_Some (obj_get k o).
Proof.
  revert o. induction l as [|[k0 v0] l IH]; intros o.
  { split; [by right|]. intros [Hk|]; [by apply elem_of_nil in Hk|done]. }
  change (obj_inserts ((k0, v0) :: l) o) with (obj_inserts l (obj_insert k0 v0 o)).
  rewrite IH, obj_get_insert, fmap_cons, elem_of_cons. cbn.
  case_bool_decide; naive_solver.
Qed.

Lemma obj_get_inserts k l o :
  k ∉ l.*1 → obj_get k (obj_inserts l o) = obj_get k o.
Proof.
  revert o. induction l as [|[k0 v0] l IH]; intros o; [done|].
  rewrite fmap_cons, not_elem_of_cons. cbn. intros [Hne Hk].
  change (foldl (λ o '(k, v), obj_insert k v o) (obj_insert k0 v0 o) l)
    with (obj_inserts l (obj_insert k0 v0 o)).
  by rewrite IH, obj_get_insert, bool_decide_false.
Qed.

Lemma obj_get_inserts_NoDup k v l o :
  NoDup l.*1 → (k, v) ∈ l → obj_get k (obj_inserts l o) = Some v.
Proof.
  intros Hd Hin. revert o. induction l as [|[k0 v0] l IH]; intros o; [by apply elem_of_nil in Hin|].
  rewrite fmap_cons in Hd. apply NoDup_cons in Hd as [Hk0 Hd].
  change (obj_inserts ((k0, v0) :: l) o) with (obj_inserts l (obj_insert k0 v0 o)).
  apply elem_of_cons in Hin as [[= -> ->]|Hin]; [|by apply IH].
  rewrite obj_get_inserts by done. by rewrite obj_get_insert, bool_decide_true.
Qed.

Lemma obj_of_Some k v l : obj_get k (obj_of l) = Some v → (k, v) ∈ l.
Proof. intros [?|?]%obj_get_inserts_Some; [done|]. done. Qed.

Lemma obj_of_is_Some k l : is_Some (obj_get k (obj_of l)) ↔ k ∈ l.*1.
Proof. unfold obj_of. rewrite obj_get_inserts_is_Some. split; [intros [?|[? ?]]; done|by left]. Qed.

Lemma obj_of_NoDup k v l : NoDup l.*1 → (k, v) ∈ l → obj_get k (obj_of l) = Some v.
Proof. apply obj_get_inserts_NoDup. Qed.
(** *** Sorted objects: every object that the code builds has its keys in ascending order. *)

Definition keys_lt (a b : rstr * V) : Prop := str_lt a.1 b.1 = true.
Definition obj_sorted (o : list (rstr * V)) : Prop := StronglySorted keys_lt o.

Lemma obj_sorted_cons k v o :
  obj_sorted ((k, v) :: o) ↔ obj_sorted o ∧ ∀ k' v', (k', v') ∈ o → str_lt k k' = true.
Proof.
  split.
  - intros Hs. apply StronglySorted_inv in Hs as [Hs Hf]. split; [done|].
    intros k' v' Hin. rewrite Forall_forall in Hf. by apply Hf in Hin.
  - intros [Hs Hlt]. constructor; [done|]. apply Forall_forall. intros [k' v'] Hin.
    by apply (Hlt k' v').
Qed.

Fixpoint obj_sorted_b (o : list (rstr * V)) : bool :=
  match o with
  | (k, _) :: o' => match o' with (k', _) :: _ => str_lt k k' | [] => true end && obj_sorted_b o'
  | [] => true
  end.

Lemma obj_sorted_b_sound o : obj_sorted_b o = true → obj_sorted o.
Proof.
  induction o as [|[k v] o IH]; [constructor|]. cbn [obj_sorted_b].
  intros [Hlt Hs]%andb_true_iff. specialize (IH Hs). apply obj_sorted_cons. split; [done|].
  destruct o as [|[k' v'] o]; intros q w Hin; [by apply elem_of_nil in Hin|].
  apply elem_of_cons in Hin as [[= -> ->]|Hin]; [done|].
  apply obj_sorted_cons in IH as [_ Hq]. eapply str_lt_trans; [done|by eapply Hq].
Qed.

Lemma elem_of_obj_insert k v o k' v' :
  (k', v') ∈ obj_insert k v o → (k', v') = (k, v) ∨ (k', v') ∈ o.
Proof.
  induction o as [|[k0 v0] o IH]; cbn.
  - intros Hin. apply elem_of_cons in Hin as [|Hin]; [by left|by apply elem_of_nil in Hin].
  - case_bool_decide.
    + intros Hin. apply elem_of_cons in Hin as [|]; [by left|right; by right].
    + destruct (str_lt k k0).
      * intros Hin. apply elem_of_cons in Hin as [|]; [by left|by right].
      * intros Hin. apply elem_of_cons in Hin as [->|Hin]; [right; by left|].
        destruct (IH Hin); [by left|right; by right].
Qed.

Lemma obj_insert_sorted k v o : obj_sorted o → obj_sorted (obj_insert k v o).
Proof.
  induction o as [|[k0 v0] o IH]; intros Hs; cbn.
  - apply obj_sorted_cons. split; [done|]. intros k' v' Hin. by apply elem_of_nil in Hin.
  - pose proof (proj1 (obj_sorted_cons _ _ _) Hs) as [Hs' Hlt]. case_bool_decide as Hk.
    + subst. by apply obj_sorted_cons.
    + destruct (str_lt k k0) eqn:Hk0.
      * apply obj_sorted_cons. split; [done|]. intros k' v' Hin.
        apply elem_of_cons in Hin as [[= -> ->]|Hin]; [done|].
        eapply str_lt_trans; [done|]. by eapply Hlt.
      * apply obj_sorted_cons. split; [by apply IH|]. intros k' v' Hin.
        apply elem_of_obj_insert in Hin as [[= -> ->]|Hin]; [by apply str_lt_total|by eapply Hlt].
Qed.

Lemma obj_inserts_sorted l o : obj_sorted o → obj_sorted (obj_inserts l o).
Proof.
  revert o. induction l as [|[k v] l IH]; intros o Ho; [done|]. by apply IH, obj_insert_sorted.
Qed.

Lemma obj_of_sorted l : obj_sorted (obj_of l).
Proof. apply obj_inserts_sorted. constructor. Qed.

Lemma obj_sorted_get k v o : obj_sorted o → (k, v) ∈ o → obj_get k o = Some v.
Proof.
  induction o as [|[k0 v0] o IH]; intros Hs Hin; [by apply elem_of_nil in Hin|].
  apply obj_sorted_cons in Hs as [Hs Hlt]. cbn.
  apply elem_of_cons in Hin as [[= -> ->]|Hin]; [by rewrite bool_decide_true|].
  rewrite bool_decide_false; [by apply IH|]. apply Hlt in Hin. by apply not_eq_sym, str_lt_ne.
Qed.

Lemma obj_get_elem k v o : obj_get k o = Some v → (k, v) ∈ o.
Proof.
  induction o as [|[k0 v0] o IH]; cbn; [done|].
  case_bool_decide; [|by right; apply IH]. intros [= ->]. subst. by left.
Qed.

Lemma obj_sorted_ext o o' :
  obj_sorted o → obj_sorted o' → (∀ k, obj_get k o = obj_get k o') → o = o'.
Proof.
  revert o'. induction o as [|[k v] o IH]; intros [|[k' v'] o'] Hs Hs' Hget.
  - done.
  - specialize (Hget k'). cbn in Hget. by rewrite bool_decide_true in Hget.
  - specialize (Hget k). cbn in Hget. by rewrite bool_decide_true in Hget.
  - pose proof Hs as [Ho Hlt]%obj_sorted_cons. pose proof Hs' as [Ho' Hlt']%obj_sorted_cons.
    assert (k = k') as ->.
    { destruct (decide (k = k')) as [|Hne]; [done|]. exfalso.
      pose proof (Hget k) as H1. pose proof (Hget k') as H2. cbn in H1, H2.
      rewrite bool_decide_true, bool_decide_false in H1 by done.
      rewrite (bool_decide_false (k' = k)), bool_decide_true in H2 by congruence.
      symmetry in H1. apply obj_get_elem, Hlt' in H1. apply obj_get_elem, Hlt in H2.
      by eapply str_lt_ne; [eapply str_lt_trans; [exact H1|exact H2]|]. }
    pose proof (Hget k') as Hv. cbn in Hv. rewrite !bool_decide_true in Hv by done. simplify_eq.
    f_equal. apply IH; [done..|]. intros k. specialize (Hget k). cbn in Hget.
    case_bool_decide as Hk; [|done]. subst k.
    assert (∀ (q : list (rstr * V)), (∀ k0 v0, (k0, v0) ∈ q → str_lt k' k0 = true) →
            obj_get k' q = None) as Hn.
    { intros q Hq. destruct (obj_get k' q) as [w|] eqn:Hw; [|done]. exfalso.
      apply obj_get_elem, Hq in Hw. by apply str_lt_ne in Hw. }
    by rewrite !Hn.
Qed.

Lemma obj_sorted_NoDup o : obj_sorted o → NoDup o.*1.
Proof.
  induction o as [|[k v] o IH]; [constructor|]. intros [Ho Hlt]%obj_sorted_cons. cbn.
  constructor; [|by apply IH]. intros [[k' v'] [Hk Hin]]%list_elem_of_fmap. cbn in Hk. subst k'.
  apply Hlt in Hin. by apply str_lt_ne in Hin.
Qed.

(** An object with sorted keys is what its entries build. *)
Lemma obj_of_id o : obj_sorted o → obj_of o = o.
Proof.
  intros Hs. apply obj_sorted_ext; [apply obj_of_sorted|done|]. intros k.
  destruct (obj_get k o) as [v|] eqn:Hk.
  - apply obj_of_NoDup; [by apply obj_sorted_NoDup|by apply obj_get_elem].
  - apply eq_None_not_Some. rewrite obj_of_is_Some. intros [[k' v] [Hk' Hin]]%list_elem_of_fmap.
    cbn in Hk'. subst k'. rewrite (obj_sorted_get _ _ _ Hs Hin) in Hk. done.
Qed.
End obj.

(** ** Building values *)

(** [json!] on the values that the code uses. *)
Definition object (l : list (rstr * json)) : json := JObject (obj_of l).
Definition json_nat (n : N) : json := JNumber (number_from_u64 n).
Definition json_opt {A} (f : A → json) (o : option A) : json := from_option f JNull o.
Definition json_strings (l : list rstr) : json := JArray (map JString l).

(** [obj[key] = value] on an object, and the same when there is a value. *)
Definition set_key (key : rstr) (value : json) (obj : json) : json :=
  match obj with
  | JObject o => JObject (obj_insert key value o)
  | _ => obj
  end.
Definition set_opt {A} (key : rstr) (f : A → json) (o : option A) (obj : json) : json :=
  match o with
  | Some a => set_key key (f a) obj
  | None => obj
  end.

(** ** Reading values *)

(** [Value::get] with a key. *)
Definition json_get (value : json) (key : rstr) : option json :=
  match value with
  | JObject o => obj_get key o
  | _ => None
  end.

Definition as_str (value : json) : option rstr :=
  match value with
  | JString s => Some s
  | _ => None
  end.

(** [Value::as_bool], [Value::as_array] and [Value::as_u64]. *)
Definition as_bool (value : json) : option bool :=
  match value with
  | JBool b => Some b
  | _ => None
  end.

Definition as_array (value : json) : option (list json) :=
  match value with
  | JArray l => Some l
  | _ => None
  end.

Definition json_as_u64 (value : json) : option N :=
  match value with
  | JNumber (PosInt u) => Some u
  | _ => None
  end.

(** ** Binary32 and binary64 from their bits *)

Definition float_of_bits (mant_bits exp_bits : N) (bits : N) : spec_float :=
  let negative := N.testbit bits (mant_bits + exp_bits) in
  let m := bits mod 2 ^ mant_bits in
  let e := (bits / 2 ^ mant_bits) mod 2 ^ exp_bits in
  let bias := (2 ^ (Z.of_N exp_bits - 1) - 1)%Z in
  let min_exp := (1 - bias - Z.of_N mant_bits)%Z in
  if e =? 2 ^ exp_bits - 1 then (if m =? 0 then S754_infinity negative else S754_nan)
  else match (if e =? 0 then m else m + 2 ^ mant_bits) with
       | N0 => S754_zero negative
       | Npos p => S754_finite negative p (min_exp + (if (e =? 0)%N then 0 else Z.of_N e - 1))%Z
       end.

Definition f64_of_bits : N → spec_float := float_of_bits 52 11.

(** The bits of a binary64, [f64::to_bits]; a NaN has one of its representations. *)
Definition bits_of_f64 (f : spec_float) : N :=
  let sign (b : bool) : N := if b then 0x8000000000000000 else 0 in
  match f with
  | S754_zero b => sign b
  | S754_infinity b => sign b + 0x7ff0000000000000
  | S754_nan => 0x7ff8000000000000
  | S754_finite b m e =>
      if Npos m <? 0x10000000000000 then sign b + Npos m
      else sign b + (Z.to_N (e + 1074) + 1) * 0x10000000000000 + (Npos m - 0x10000000000000)
  end.

Example bits_of_floats :
  map (λ b, bits_of_f64 (f64_of_bits b))
    [0x3ff8000000000000; 0x8000000000000001; 0xfff0000000000000; 0x7fefffffffffffff; 0]
  = [0x3ff8000000000000; 0x8000000000000001; 0xfff0000000000000; 0x7fefffffffffffff; 0].
Proof. reflexivity. Qed.

(** [f32 as f64], which is exact. *)
Definition f64_of_f32_bits (bits : N) : spec_float :=
  match float_of_bits 23 8 bits with
  | S754_finite negative m e => binary_normalize 53 1024 (cond_Zopp negative (Zpos m)) e negative
  | f => f
  end.

Example f32_one_and_a_half :
  f64_of_f32_bits 0x3fc00000 = f64_of_bits 0x3ff8000000000000.
Proof. reflexivity. Qed.
