(* ===== verification/JsonCodec.v ===== *)
(** * JsonCodec: the text of JSON values, and reading structs from it

    [serde_json] is a library: its two directions are parameters, with the laws that the event
    stream relies on. The second part is what [#[derive(Deserialize)]] makes of the structs of
    [clients/rust/src/events.rs], whose fields all have [#[serde(default)]]. *)

From Stdlib Require Import Floats.SpecFloat.
From S2P Require Import Prelude Bytes Json.

Open Scope N_scope.

(** [serde_json::from_slice] and [serde_json::to_vec] on values. *)
Class JsonText : Type := {
  json_parse : bytes → result rstr json;
  json_text : json → bytes
}.

(** The values whose text is read back as the value: no floats, integers in the range of their
    constructor, strings of UTF-8, and keys in order. *)
Fixpoint json_plain (j : json) : Prop :=
  match j with
  | JNull | JBool _ => True
  | JNumber (PosInt n) => n < U64
  | JNumber (NegInt z) => (-9223372036854775808 ≤ z < 0)%Z
  | JNumber (Float _) => False
  | JString s => utf8_valid s = true
  | JArray l => foldr (λ j P, json_plain j ∧ P) True l
  | JObject o =>
      obj_sorted o ∧ foldr (λ '(k, v) P, (utf8_valid k = true ∧ json_plain v) ∧ P) True o
  end.

Definition entry_plain (kv : rstr * json) : Prop := utf8_valid kv.1 = true ∧ json_plain kv.2.

Lemma json_plain_object o : json_plain (JObject o) ↔ obj_sorted o ∧ Forall entry_plain o.
Proof.
  cbn. apply and_iff_compat_l. induction o as [|[k v] o IH]; [done|].
  rewrite Forall_cons, <- IH. done.
Qed.

Lemma json_plain_array l : json_plain (JArray l) ↔ Forall json_plain l.
Proof. cbn. induction l as [|j l IH]; [done|]. rewrite Forall_cons, <- IH. done. Qed.

Lemma obj_insert_plain k v o :
  json_plain (JObject o) → entry_plain (k, v) → json_plain (JObject (obj_insert k v o)).
Proof.
  rewrite !json_plain_object, !Forall_forall. intros [Hs Hall] Hkv.
  split; [by apply obj_insert_sorted|]. intros [k' v'] Hin.
  apply elem_of_obj_insert in Hin. naive_solver.
Qed.

Lemma object_plain l : Forall entry_plain l → json_plain (object l).
Proof.
  unfold object, obj_of, obj_inserts. assert (Hnil : json_plain (JObject [])) by (split; constructor).
  revert Hnil. generalize (@nil (rstr * json)). induction l as [|[k v] l IH]; intros o Ho Hl; [done|].
  cbn. apply Forall_cons in Hl as [Hkv Hl]. apply IH; [|done]. by apply obj_insert_plain.
Qed.

Definition is_newline (b : Byte.byte) : bool := bool_decide (b = Byte.x0a ∨ b = Byte.x0d).

(** The compact text is one line: control characters in strings are escaped. *)
Class JsonTextLaws `{JsonText} : Prop := {
  json_parse_text : ∀ j, json_plain j → json_parse (json_text j) = Ok j;
  json_text_line : ∀ j, forallb (λ b, negb (is_newline b)) (json_text j) = true;
  json_text_nonempty : ∀ j, json_text j ≠ [];
  json_text_utf8 : ∀ j, json_plain j → utf8_valid (json_text j) = true
}.

(** ** Structs *)

(** [serde_json::Error]: of the text, or of a field whose value has another type. *)
Inductive DecodeError : Type :=
| SyntaxOf (e : rstr)
| DataOf (field : rstr)
| NotStruct.

(** The values of the fields of a struct, in the order of declaration: by name from an object, where
    other keys are ignored, or by position from an array, which may be shorter. *)
Definition struct_fields (names : list rstr) (j : json)
    : result DecodeError (list (rstr * option json)) :=
  match j with
  | JObject o => Ok (map (λ name, (name, obj_get name o)) names)
  | JArray l =>
      if (length l <=? length names)%nat
      then Ok (zip names (map Some l ++ replicate (length names - length l) None))
      else Err NotStruct
  | _ => Err NotStruct
  end.

(** A field: its default when it is missing. *)
Definition de_field {A} (default : A) (de : json → option A) (f : rstr * option json)
    : result DecodeError A :=
  match f.2 with
  | None => Ok default
  | Some j => ok_or (DataOf f.1) (de j)
  end.

Definition de_string (j : json) : option rstr := match j with JString s => Some s | _ => None end.
Definition de_bool (j : json) : option bool := match j with JBool b => Some b | _ => None end.
Definition de_option {A} (de : json → option A) (j : json) : option (option A) :=
  match j with
  | JNull => Some None
  | _ => Some <$> de j
  end.
Definition de_vec {A} (de : json → option A) (j : json) : option (list A) :=
  match j with
  | JArray l => mapM de l
  | _ => None
  end.

(** ** A concrete text, for witnesses *)

Module JsonSample.

#[local] Instance spec_float_eq_dec : EqDecision spec_float.
Proof. solve_decision. Defined.
#[local] Instance number_eq_dec : EqDecision number.
Proof. solve_decision. Defined.

#[local] Program Instance spec_float_countable : Countable spec_float :=
  inj_countable'
    (λ f, match f with
          | S754_zero b => inl (inl b)
          | S754_infinity b => inl (inr b)
          | S754_nan => inr (inl tt)
          | S754_finite b m e => inr (inr (b, m, e))
          end)
    (λ x, match x with
          | inl (inl b) => S754_zero b
          | inl (inr b) => S754_infinity b
          | inr (inl _) => S754_nan
          | inr (inr (b, m, e)) => S754_finite b m e
          end) _.
Next Obligation. by intros []. Qed.

#[local] Program Instance number_countable : Countable number :=
  inj_countable'
    (λ n, match n with PosInt n => inl n | NegInt z => inr (inl z) | Float f => inr (inr f) end)
    (λ x, match x with inl n => PosInt n | inr (inl z) => NegInt z | inr (inr f) => Float f end) _.
Next Obligation. by intros []. Qed.

Definition leaf : Type := option bool + (number + rstr).

Fixpoint tree_of (j : json) : gen_tree leaf :=
  match j with
  | JNull => GenLeaf (inl None)
  | JBool b => GenLeaf (inl (Some b))
  | JNumber n => GenLeaf (inr (inl n))
  | JString s => GenLeaf (inr (inr s))
  | JArray l => GenNode 0 (map tree_of l)
  | JObject o => GenNode 1 (map (λ '(k, v), GenNode 2 [GenLeaf (inr (inr k)); tree_of v]) o)
  end.

Fixpoint of_tree (t : gen_tree leaf) : json :=
  match t with
  | GenLeaf (inl None) => JNull
  | GenLeaf (inl (Some b)) => JBool b
  | GenLeaf (inr (inl n)) => JNumber n
  | GenLeaf (inr (inr s)) => JString s
  | GenNode 0 l => JArray (map of_tree l)
  | GenNode _ l =>
      JObject (map (λ t, match t with
                         | GenNode _ [GenLeaf (inr (inr k)); v] => (k, of_tree v)
                         | _ => ([], JNull)
                         end) l)
  end.

Fixpoint of_tree_of (j : json) : of_tree (tree_of j) = j.
Proof.
  destruct j as [| | | |l|o]; cbn; try done; f_equal.
  - induction l as [|j l IH]; cbn; [done|]. by rewrite of_tree_of, IH.
  - induction o as [|[k v] o IH]; cbn; [done|]. by rewrite of_tree_of, IH.
Qed.

(** The digits of the number of a tree, in base two. *)
Fixpoint pos_text (p : positive) : bytes :=
  match p with
  | xH => [Byte.x2e]
  | xO p => Byte.x30 :: pos_text p
  | xI p => Byte.x31 :: pos_text p
  end.

Fixpoint text_pos (bs : bytes) : positive :=
  match bs with
  | Byte.x30 :: bs => xO (text_pos bs)
  | Byte.x31 :: bs => xI (text_pos bs)
  | _ => xH
  end.

Lemma text_pos_text p : text_pos (pos_text p) = p.
Proof. induction p; cbn; congruence. Qed.

#[local] Instance text : JsonText := {|
  json_parse bs :=
    match decode (text_pos bs) with
    | Some t => Ok (of_tree t)
    | None => Err ($"expected value")
    end;
  json_text j := pos_text (encode (tree_of j))
|}.

Lemma pos_text_utf8 p : utf8_valid (pos_text p) = true.
Proof.
  unfold utf8_valid. assert (∀ n, (length (pos_text p) ≤ n)%nat → utf8_valid_aux n (pos_text p) = true)
    as H; [|by apply H].
  induction p as [p IH|p IH|]; intros [|n] Hn; cbn in *; try lia; [apply IH; lia..|].
  by destruct n.
Qed.

#[local] Instance text_laws : JsonTextLaws.
Proof.
  split.
  - intros j _. cbn. by rewrite text_pos_text, decode_encode, of_tree_of.
  - intros j. cbn. by induction (encode (tree_of j)).
  - intros j. cbn. by destruct (encode (tree_of j)).
  - intros j _. apply pos_text_utf8.
Qed.

End JsonSample.
