(* ===== verification/Registry.v ===== *)
(** * Registry: versioned types of payloads

    [server/src/registry/mod.rs]. Bundles of type definitions are published under an id and kept
    as JSON files of a directory; their types and enums are merged into maps. The
    reading of the JSON text ([serde_json] with derived instances) is a parameter, as is
    the order in which a directory is read. *)

From S2P Require Import Prelude Bytes External Json.

Open Scope N_scope.

(** ** Bundles *)

Record RendererSpec : Type := mkRendererSpec {
  rs_esm_url : rstr;
  rs_component : option rstr;
  rs_integrity : option rstr
}.

Record FieldDef : Type := mkFieldDef {
  fd_name : rstr;
  fd_field_type : rstr;
  fd_enum_ref : option rstr;
  fd_type_ref : option rstr;
  fd_optional : option bool;
  fd_items : option json
}.

Record TypeVersion : Type := mkTypeVersion {
  tv_fields : gmap rstr FieldDef;
  tv_renderer : option RendererSpec
}.

Record TypeEntry : Type := mkTypeEntry { te_versions : gmap rstr TypeVersion }.

Record RegistryBundle : Type := mkRegistryBundle {
  rb_registry_version : N;
  rb_bundle_id : rstr;
  rb_types : gmap rstr TypeEntry;
  rb_enums : gmap rstr (gmap rstr rstr)
}.

(** [serde_json::from_slice::<RegistryBundle>]; an error carries its text. *)
Class ReadBundle : Type := read_bundle : bytes → result rstr RegistryBundle.

(** [fs::read_dir]: the files of a directory, in an order that the system chooses. *)
Class ReadDir : Type := read_dir : gmap rstr bytes → list (rstr * bytes).
Class ReadDirLaws `{ReadDir} : Prop := read_dir_perm : ∀ d, read_dir d ≡ₚ map_to_list d.

(** ** The registry *)

Inductive ItemsSpec : Type :=
| Simple (item_type : rstr)
| Ref (type_ref : rstr).

Record FieldSpec : Type := mkFieldSpec {
  fs_name : rstr;
  fs_field_type : rstr;
  fs_enum_ref : option rstr;
  fs_type_ref : option rstr;
  fs_optional : bool;
  fs_items : option ItemsSpec
}.

#[export] Instance ItemsSpec_eq_dec : EqDecision ItemsSpec.
Proof. solve_decision. Defined.
#[export] Instance FieldSpec_eq_dec : EqDecision FieldSpec.
Proof. solve_decision. Defined.

Record TypeVersionSpec : Type := mkTypeVersionSpec {
  tvs_version : N;
  tvs_fields : gmap N FieldSpec;
  tvs_renderer : option RendererSpec
}.

Record FieldSignature : Type := mkFieldSignature {
  sig_field_type : rstr;
  sig_enum_ref : option rstr
}.

#[export] Instance FieldSignature_eq_dec : EqDecision FieldSignature.
Proof. solve_decision. Defined.

Record TypeSpec : Type := mkTypeSpec {
  tsp_versions : gmap N TypeVersionSpec;
  tsp_tag_schema : gmap N FieldSignature
}.

Definition type_spec_new : TypeSpec := mkTypeSpec ∅ ∅.

Record Registry : Type := mkRegistry {
  rg_dir : gmap rstr bytes;
  rg_bundles : gmap rstr bytes;
  rg_types : gmap rstr TypeSpec;
  rg_enums : gmap rstr (gmap rstr rstr);
  rg_last_bundle_id : option rstr
}.

Inductive PutOutcome : Type := Created | AlreadyExists.

Record RegistryStats : Type := mkRegistryStats {
  rst_bundles_total : N;
  rst_types_total : N;
  rst_enums_total : N
}.

Definition with_enums (enums : gmap rstr (gmap rstr rstr)) (r : Registry) : Registry :=
  mkRegistry (rg_dir r) (rg_bundles r) (rg_types r) enums (rg_last_bundle_id r).
Definition with_types (types : gmap rstr TypeSpec) (r : Registry) : Registry :=
  mkRegistry (rg_dir r) (rg_bundles r) types (rg_enums r) (rg_last_bundle_id r).
Definition with_bundle (bundle_id raw : bytes) (r : Registry) : Registry :=
  mkRegistry (rg_dir r) (<[bundle_id := raw]> (rg_bundles r)) (rg_types r) (rg_enums r)
    (Some bundle_id).
Definition with_file (name raw : bytes) (r : Registry) : Registry :=
  mkRegistry (<[name := raw]> (rg_dir r)) (rg_bundles r) (rg_types r) (rg_enums r)
    (rg_last_bundle_id r).

Definition registry_new (dir : gmap rstr bytes) : Registry := mkRegistry dir ∅ ∅ ∅ None.

(** ** Reading a version *)

Definition parse_version (version : rstr) : result StoreError N :=
  ok_or (InvalidInput ($"invalid type version")) (parse_u32 version).

(** The item type of an array: a string or an object with [type] and [ref]. *)
Definition normalize_items (items : option json) : option ItemsSpec :=
  match items with
  | Some (JString s) => Some (Simple s)
  | Some (JObject obj) =>
      match obj_get ($"type") obj with
      | Some (JString t) =>
          if bool_decide (t = $"ref")
          then match obj_get ($"ref") obj with
               | Some (JString r) => Some (Ref r)
               | _ => None
               end
          else Some (Simple t)
      | _ => match obj_get ($"ref") obj with
             | Some (JString r) => Some (Ref r)
             | _ => None
             end
      end
  | _ => None
  end.

Definition normalize_field (def : FieldDef) : FieldSpec :=
  mkFieldSpec (fd_name def) (fd_field_type def) (fd_enum_ref def) (fd_type_ref def)
    (default false (fd_optional def)) (normalize_items (fd_items def)).

(** The loop of [normalize_version]. *)
Fixpoint normalize_fields (l : list (rstr * FieldDef)) (fields : gmap N FieldSpec)
    : result StoreError (gmap N FieldSpec) :=
  match l with
  | [] => Ok fields
  | (tag_str, def) :: l =>
      tag ← ok_or (InvalidInput ($"invalid field tag")) (parse_u64 tag_str);
      normalize_fields l (<[tag := normalize_field def]> fields)
  end.

(** The last entry of a [BTreeMap]. *)
Definition next_back {V} (m : gmap N V) : option V := snd <$> last (btree_iter m).

(** [bundle_filename]. *)
Definition safe_byte (b : Byte.byte) : Byte.byte :=
  if bool_decide (b = Byte.x2f) || bool_decide (b = Byte.x3a) || bool_decide (b = Byte.x23)
  then Byte.x5f else b.
Definition bundle_filename (bundle_id : rstr) : rstr :=
  $"bundle_" ++ map safe_byte bundle_id ++ $".json".

(** [Path::extension] of a file name: what follows the last dot, unless that is the first byte. *)
Fixpoint after_last_dot (s : bytes) : option (bytes * bytes) :=
  match s with
  | [] => None
  | b :: s =>
      match after_last_dot s with
      | Some (stem, ext) => Some (b :: stem, ext)
      | None => if bool_decide (b = Byte.x2e) then Some ([], s) else None
      end
  end.
Definition extension (name : bytes) : option bytes :=
  match after_last_dot name with
  | Some (stem, ext) => if bool_decide (stem = []) then None else Some ext
  | None => None
  end.

Section Registry.
Context `{HashOrder} `{ReadBundle}.

Definition normalize_version (version : N) (def : TypeVersion)
    : result StoreError TypeVersionSpec :=
  fields ← normalize_fields (hash_iter (tv_fields def)) ∅;
  Ok (mkTypeVersionSpec version fields (tv_renderer def)).

(** ** Merging *)

Definition merge_enum (e : rstr * gmap rstr rstr) (r : Registry)
    : result StoreError unit * Registry :=
  let '(enum_id, mapping) := e in
  match rg_enums r !! enum_id with
  | Some existing =>
      if bool_decide (existing = mapping) then (Ok tt, r)
      else (Err (InvalidInput ($"enum " ++ enum_id ++ $" already exists with different mapping")), r)
  | None => (Ok tt, with_enums (<[enum_id := mapping]> (rg_enums r)) r)
  end.

Definition merge_tag (type_id : rstr) (tf : N * FieldSpec) (spec : TypeSpec)
    : result StoreError unit * TypeSpec :=
  let '(tag, field) := tf in
  let signature := mkFieldSignature (fs_field_type field) (fs_enum_ref field) in
  match tsp_tag_schema spec !! tag with
  | Some existing =>
      if bool_decide (existing = signature) then (Ok tt, spec)
      else (Err (InvalidInput ($"tag reuse conflict for type " ++ type_id ++ $" tag "
                                 ++ show_N tag)), spec)
  | None => (Ok tt, mkTypeSpec (tsp_versions spec) (<[tag := signature]> (tsp_tag_schema spec)))
  end.

Definition add_version (version : N) (normalized : TypeVersionSpec) (spec : TypeSpec) : TypeSpec :=
  mkTypeSpec (<[version := normalized]> (tsp_versions spec)) (tsp_tag_schema spec).

Definition merge_version (type_id : rstr) (v : rstr * TypeVersion) (spec : TypeSpec)
    : result StoreError unit * TypeSpec :=
  let '(version_str, version_def) := v in
  match parse_version version_str with
  | Err e => (Err e, spec)
  | Ok version =>
      match normalize_version version version_def with
      | Err e => (Err e, spec)
      | Ok normalized =>
          match tsp_versions spec !! version with
          | Some existing =>
              if negb (bool_decide (tvs_fields existing = tvs_fields normalized))
              then (Err (InvalidInput ($"type " ++ type_id ++ $" version " ++ show_N version
                                         ++ $" differs from existing")), spec)
              else
                (Ok tt,
                 match tvs_renderer normalized, tvs_renderer existing with
                 | Some renderer, None =>
                     add_version version (mkTypeVersionSpec (tvs_version existing)
                                            (tvs_fields existing) (Some renderer)) spec
                 | _, _ => spec
                 end)
          | None =>
              match try_each (merge_tag type_id) (hash_iter (tvs_fields normalized)) spec with
              | (Err e, spec) => (Err e, spec)
              | (Ok _, spec) => (Ok tt, add_version version normalized spec)
              end
          end
      end
  end.

Definition merge_type (t : rstr * TypeEntry) (r : Registry) : result StoreError unit * Registry :=
  let '(type_id, entry) := t in
  let spec := default type_spec_new (rg_types r !! type_id) in
  let (res, spec) := try_each (merge_version type_id) (hash_iter (te_versions entry)) spec in
  (res, with_types (<[type_id := spec]> (rg_types r)) r).

(** The validation of the enum references of all types. *)
Definition check_field (r : Registry) (type_id : rstr) (version : N) (tf : N * FieldSpec)
    : result StoreError unit :=
  match fs_enum_ref tf.2 with
  | Some enum_ref =>
      match rg_enums r !! enum_ref with
      | Some _ => Ok tt
      | None => Err (InvalidInput ($"missing enum " ++ enum_ref ++ $" for type " ++ type_id
                                     ++ $" version " ++ show_N version ++ $" tag " ++ show_N tf.1))
      end
  | None => Ok tt
  end.

Definition check_enums (r : Registry) : result StoreError unit :=
  _ ← try_map (λ '(type_id, spec),
        try_map (λ '(version, version_spec),
          try_map (check_field r type_id version) (hash_iter (tvs_fields version_spec)))
          (btree_iter (tsp_versions spec)))
        (hash_iter (rg_types r));
  Ok tt.

Definition ingest_bundle (bundle : RegistryBundle) (r : Registry)
    : result StoreError unit * Registry :=
  if rb_registry_version bundle =? 0
  then (Err (InvalidInput ($"registry_version must be > 0")), r)
  else
    match try_each merge_enum (hash_iter (rb_enums bundle)) r with
    | (Err e, r) => (Err e, r)
    | (Ok _, r) =>
        match try_each merge_type (hash_iter (rb_types bundle)) r with
        | (Err e, r) => (Err e, r)
        | (Ok _, r) => (check_enums r, r)
        end
    end.

(** ** Operations *)

(** One entry of the directory in [Registry::open]. *)
Definition load_file (file : rstr * bytes) (r : Registry) : result StoreError unit * Registry :=
  let '(name, raw) := file in
  if negb (bool_decide (extension name = Some ($"json"))) then (Ok tt, r)
  else
    match read_bundle raw with
    | Err e => (Err (Corrupt ($"invalid bundle json: " ++ e)), r)
    | Ok bundle =>
        match ingest_bundle bundle r with
        | (Err e, r) => (Err e, r)
        | (Ok _, r) => (Ok tt, with_bundle (rb_bundle_id bundle) raw r)
        end
    end.

Definition open `{listing : ReadDir} (dir : gmap rstr bytes) : result StoreError Registry :=
  match try_each load_file (read_dir dir) (registry_new dir) with
  | (Ok _, r) => Ok r
  | (Err e, _) => Err e
  end.

Definition get_bundle (r : Registry) (bundle_id : rstr) : option bytes :=
  rg_bundles r !! bundle_id.

Definition put_bundle (bundle_id : rstr) (raw : bytes) (r : Registry)
    : result StoreError PutOutcome * Registry :=
  match rg_bundles r !! bundle_id with
  | Some existing =>
      if bool_decide (existing = raw) then (Ok AlreadyExists, r)
      else (Err (InvalidInput ($"bundle_id already exists with different content")), r)
  | None =>
      match read_bundle raw with
      | Err e => (Err (InvalidInput ($"invalid json: " ++ e)), r)
      | Ok bundle =>
          if negb (bool_decide (rb_bundle_id bundle = bundle_id))
          then (Err (InvalidInput ($"bundle_id does not match path")), r)
          else
            match ingest_bundle bundle r with
            | (Err e, r) => (Err e, r)
            | (Ok _, r) =>
                (Ok Created, with_bundle bundle_id raw (with_file (bundle_filename bundle_id) raw r))
            end
      end
  end.

Definition get_type_version (r : Registry) (type_id : rstr) (version : N)
    : option TypeVersionSpec :=
  spec ← rg_types r !! type_id;
  tsp_versions spec !! version.

Definition get_latest_type_version (r : Registry) (type_id : rstr) : option TypeVersionSpec :=
  spec ← rg_types r !! type_id;
  next_back (tsp_versions spec).

Definition get_enum (r : Registry) (enum_id : rstr) : option (gmap rstr rstr) :=
  rg_enums r !! enum_id.

Definition stats (r : Registry) : RegistryStats :=
  mkRegistryStats (N.of_nat (size (rg_bundles r))) (N.of_nat (size (rg_types r)))
    (N.of_nat (size (rg_enums r))).

Definition get_all_renderers (r : Registry) : gmap rstr RendererSpec :=
  foldl (λ result '(type_id, type_spec),
           match version_spec ← next_back (tsp_versions type_spec); tvs_renderer version_spec with
           | Some renderer => <[type_id := renderer]> result
           | None => result
           end) ∅ (hash_iter (rg_types r)).

End Registry.
