(* ===== verification/RegistrySpec.v ===== *)
(** * RegistrySpec: what the type registry guarantees

    Published definitions never change, tags keep their meaning over the versions of a type, and a
    restart brings back what was published. *)

From S2P Require Import Prelude Bytes External Json Registry.

Open Scope N_scope.

(** ** Growth *)

Definition signature_of (f : FieldSpec) : FieldSignature :=
  mkFieldSignature (fs_field_type f) (fs_enum_ref f).

(** The definition of a version is kept; a renderer may be added to it. *)
Definition version_le (s s' : TypeVersionSpec) : Prop :=
  tvs_fields s' = tvs_fields s ∧ ∀ x, tvs_renderer s = Some x → tvs_renderer s' = Some x.

Record spec_le (t t' : TypeSpec) : Prop := {
  sl_versions : ∀ v s, tsp_versions t !! v = Some s →
    ∃ s', tsp_versions t' !! v = Some s' ∧ version_le s s';
  sl_tags : tsp_tag_schema t ⊆ tsp_tag_schema t'
}.

Record extends (r r' : Registry) : Prop := {
  ex_types : ∀ t spec, rg_types r !! t = Some spec →
    ∃ spec', rg_types r' !! t = Some spec' ∧ spec_le spec spec';
  ex_enums : rg_enums r ⊆ rg_enums r'
}.

(** The signatures of a type's tags are those of the fields of all of its versions. *)
Definition spec_ok (t : TypeSpec) : Prop :=
  ∀ v s tag f, tsp_versions t !! v = Some s → tvs_fields s !! tag = Some f →
    tsp_tag_schema t !! tag = Some (signature_of f).

Definition registry_ok (r : Registry) : Prop := map_Forall (λ _, spec_ok) (rg_types r).

#[export] Instance version_le_preorder : PreOrder version_le.
Proof.
  split; [by split|]. intros a b c [Hf Hr] [Hf' Hr']. split; [congruence|auto].
Qed.

#[export] Instance spec_le_preorder : PreOrder spec_le.
Proof.
  split.
  - intros t. split; [|done]. intros v s Hs. by exists s.
  - intros a b c [Hv Ht] [Hv' Ht']. split; [|by etrans].
    intros v s Hs. destruct (Hv v s Hs) as (s1 & Hs1 & Hle).
    destruct (Hv' v s1 Hs1) as (s2 & Hs2 & Hle'). exists s2. split; [done|by etrans].
Qed.

#[export] Instance extends_preorder : PreOrder extends.
Proof.
  split.
  - intros r. split; [|done]. intros t s Hs. by exists s.
  - intros a b c [Hv Ht] [Hv' Ht']. split; [|by etrans].
    intros v s Hs. destruct (Hv v s Hs) as (s1 & Hs1 & Hle).
    destruct (Hv' v s1 Hs1) as (s2 & Hs2 & Hle'). exists s2. split; [done|by etrans].
Qed.

(** A step that keeps the invariant and only adds. *)
Definition grows {A} (ok : A → Prop) (le : A → A → Prop) (a b : A) : Prop := ok a → ok b ∧ le a b.

Lemma grows_each {E A S} (ok : S → Prop) (le : S → S → Prop) `{!PreOrder le}
    (f : A → S → result E unit * S) l s :
  (∀ a s, a ∈ l → grows ok le s (f a s).2) → grows ok le s (try_each f l s).2.
Proof.
  intros Hf Hs. apply (try_each_preserves (λ s', ok s' ∧ le s s')); [|by split].
  intros a s1 Ha [Hok Hle]. destruct (Hf a s1 Ha Hok). split; [done|by etrans].
Qed.

Lemma elem_of_hash_iter `{HashOrderLaws} {K V} `{Countable K} (m : gmap K V) k v :
  (k, v) ∈ hash_iter m ↔ m !! k = Some v.
Proof. by rewrite hash_iter_perm, elem_of_map_to_list. Qed.

Section spec.
Context `{HashOrderLaws} `{ReadBundle}.

(** ** Merging *)

Lemma merge_tag_grows type_id tf spec : grows spec_ok spec_le spec (merge_tag type_id tf spec).2.
Proof.
  intros Hok. destruct tf as [tag f]. unfold merge_tag.
  destruct (tsp_tag_schema spec !! tag) as [sig|] eqn:Htag; [by case_bool_decide|].
  cbn. split.
  - intros v s tag' f' Hv Hf. cbn in *. rewrite lookup_insert_ne; [by eapply Hok|].
    intros <-. by rewrite (Hok _ _ _ _ Hv Hf) in Htag.
  - split; [|by apply insert_subseteq]. intros v s Hv. by exists s.
Qed.

Lemma merge_tag_ok type_id tf spec spec' :
  merge_tag type_id tf spec = (Ok tt, spec') →
  (tsp_tag_schema spec' !! tf.1 = Some (signature_of tf.2)
   ∧ ∀ tf' : N * FieldSpec, tsp_tag_schema spec !! tf'.1 = Some (signature_of tf'.2) →
       tsp_tag_schema spec' !! tf'.1 = Some (signature_of tf'.2))
  ∧ tsp_versions spec' = tsp_versions spec.
Proof.
  destruct tf as [tag f]. unfold merge_tag.
  destruct (tsp_tag_schema spec !! tag) as [sig|] eqn:Htag.
  - case_bool_decide as Hsig; [|done]. intros [= <-]. subst sig. done.
  - intros [= <-]. cbn. rewrite lookup_insert_eq. split; [split; [done|]|done].
    intros [tag' f'] Hf'. cbn in *. by rewrite lookup_insert_ne by congruence.
Qed.

Lemma merge_tags_versions type_id l spec :
  tsp_versions (try_each (merge_tag type_id) l spec).2 = tsp_versions spec.
Proof.
  apply (try_each_preserves (λ s, tsp_versions s = tsp_versions spec)); [|done].
  intros [tag f] s _ Hs. unfold merge_tag. destruct (_ !! tag); [by case_bool_decide|done].
Qed.

Lemma spec_ok_add version n spec :
  spec_ok spec →
  (∀ tag f, tvs_fields n !! tag = Some f → tsp_tag_schema spec !! tag = Some (signature_of f)) →
  spec_ok (add_version version n spec).
Proof.
  intros Hok Hn v s tag f. cbn. intros [[_ <-]|[_ Hv]]%lookup_insert_Some; [apply Hn|by eapply Hok].
Qed.

Lemma spec_le_add version n spec :
  (∀ s, tsp_versions spec !! version = Some s → version_le s n) →
  spec_le spec (add_version version n spec).
Proof.
  intros Hle. split; [|done]. intros v s Hv. cbn. destruct (decide (version = v)) as [<-|Hne].
  - exists n. rewrite lookup_insert_eq. eauto.
  - exists s. by rewrite lookup_insert_ne.
Qed.

Lemma merge_version_grows type_id v spec :
  grows spec_ok spec_le spec (merge_version type_id v spec).2.
Proof.
  intros Hok. destruct v as [vs def]. unfold merge_version.
  destruct (parse_version vs) as [version|]; [|done].
  destruct (normalize_version version def) as [n|]; [|done].
  destruct (tsp_versions spec !! version) as [existing|] eqn:Hex.
  - case_bool_decide as Hf; [|done]. cbn.
    destruct (tvs_renderer n) as [x|]; [|done].
    destruct (tvs_renderer existing) as [y|] eqn:Hy; [done|]. split.
    + apply spec_ok_add; [done|]. intros tag f Hf'. by eapply Hok.
    + apply spec_le_add. intros s Hs. split; [by simplify_eq/=|]. intros z Hz. by simplify_eq/=.
  - assert (Htags : grows spec_ok spec_le spec
      (try_each (merge_tag type_id) (hash_iter (tvs_fields n)) spec).2).
    { apply grows_each; [apply _|]. intros. apply merge_tag_grows. }
    destruct (Htags Hok) as [Hok' Hle]. pose proof (merge_tags_versions type_id
      (hash_iter (tvs_fields n)) spec) as Hsame.
    destruct (try_each _ _ _) as [[[]|] spec'] eqn:Heach; cbn in *; [|done]. split.
    + apply spec_ok_add; [done|]. intros tag f Hf.
      apply (try_each_ok (λ _, True) (λ tf s, tsp_tag_schema s !! tf.1 = Some (signature_of tf.2)))
        in Heach as (_ & Hall & _); [by apply (Hall (tag, f)), elem_of_hash_iter| |done].
      intros a s1 s2 _ _ Ha. by apply merge_tag_ok in Ha as [? _].
    + etrans; [exact Hle|]. apply spec_le_add. intros s Hs. by rewrite Hsame, Hex in Hs.
Qed.

Lemma registry_ok_default r t : registry_ok r → spec_ok (default type_spec_new (rg_types r !! t)).
Proof. intros Hok. destruct (rg_types r !! t) as [s|] eqn:Ht; [by eapply Hok|done]. Qed.

Lemma merge_type_grows t r : grows registry_ok extends r (merge_type t r).2.
Proof.
  intros Hok. destruct t as [type_id entry]. unfold merge_type.
  pose proof (grows_each spec_ok spec_le (merge_version type_id) (hash_iter (te_versions entry))
    (default type_spec_new (rg_types r !! type_id))) as Hg.
  destruct Hg as [Hok' Hle]; [intros; apply merge_version_grows|by apply registry_ok_default|].
  destruct (try_each _ _ _) as [res spec]. cbn in *. split.
  - by apply map_Forall_insert_2.
  - split; [|done]. intros t s Ht. cbn. destruct (decide (type_id = t)) as [<-|Hne].
    + exists spec. rewrite lookup_insert_eq. by rewrite Ht in Hle.
    + exists s. by rewrite lookup_insert_ne.
Qed.

Lemma merge_enum_grows e r : grows registry_ok extends r (merge_enum e r).2.
Proof.
  intros Hok. destruct e as [id mapping]. unfold merge_enum.
  destruct (rg_enums r !! id) eqn:Hid; [by case_bool_decide|]. cbn. split; [done|].
  split; [|by apply insert_subseteq]. intros t s Ht. by exists s.
Qed.

Lemma ingest_grows b r : grows registry_ok extends r (ingest_bundle b r).2.
Proof.
  intros Hok. unfold ingest_bundle. destruct (_ =? 0); [done|].
  destruct (grows_each registry_ok extends merge_enum (hash_iter (rb_enums b)) r) as [Hok1 Hle1];
    [intros; apply merge_enum_grows|done|].
  destruct (try_each merge_enum _ r) as [[[]|] r1]; cbn in *; [|done].
  destruct (grows_each registry_ok extends merge_type (hash_iter (rb_types b)) r1) as [Hok2 Hle2];
    [intros; apply merge_type_grows|done|].
  destruct (try_each merge_type _ r1) as [[[]|] r2]; cbn in *; (split; [done|by etrans]).
Qed.

Lemma put_grows id raw r : grows registry_ok extends r (put_bundle id raw r).2.
Proof.
  intros Hok. unfold put_bundle. destruct (rg_bundles r !! id); [by case_bool_decide|].
  destruct (read_bundle raw) as [b|]; [|done]. case_bool_decide; [|done]. cbn.
  destruct (ingest_grows b r Hok) as [Hok' Hle]. destruct (ingest_bundle b r) as [[[]|] r']; [|done].
  destruct Hle. by split.
Qed.

(** ** What a bundle provides *)

Definition provides_version (t : rstr) (v : rstr * TypeVersion) (spec : TypeSpec) : Prop :=
  ∃ version n s, parse_version v.1 = Ok version ∧ normalize_version version v.2 = Ok n
    ∧ tsp_versions spec !! version = Some s ∧ tvs_fields s = tvs_fields n.

Definition provides_type (t : rstr * TypeEntry) (r : Registry) : Prop :=
  ∃ spec, rg_types r !! t.1 = Some spec
    ∧ ∀ vs def, te_versions t.2 !! vs = Some def → provides_version t.1 (vs, def) spec.

(** The enums and the types of a bundle are those of the registry. *)
Definition provides (b : RegistryBundle) (r : Registry) : Prop :=
  rb_enums b ⊆ rg_enums r ∧ ∀ t entry, rb_types b !! t = Some entry → provides_type (t, entry) r.

(** Every enum that a field refers to is there. *)
Definition closed (r : Registry) : Prop :=
  ∀ t spec v s tag f e, rg_types r !! t = Some spec → tsp_versions spec !! v = Some s →
    tvs_fields s !! tag = Some f → fs_enum_ref f = Some e → is_Some (rg_enums r !! e).

Lemma provides_version_le t v s s' : spec_le s s' → provides_version t v s → provides_version t v s'.
Proof.
  intros [Hv _] (version & n & x & Hp & Hn & Hs & Hf).
  destruct (Hv _ _ Hs) as (x' & Hs' & Hf' & _). exists version, n, x'. by rewrite Hf'.
Qed.

Lemma provides_type_extends t r r' : extends r r' → provides_type t r → provides_type t r'.
Proof.
  intros [Ht _] (spec & Hspec & Hv). destruct (Ht _ _ Hspec) as (spec' & Hspec' & Hle).
  exists spec'. split; [done|]. intros vs def Hd. by eapply provides_version_le, Hv.
Qed.

Lemma provides_extends b r r' : extends r r' → provides b r → provides b r'.
Proof.
  intros Hle [He Ht]. split; [etrans; [done|apply Hle]|].
  intros t entry Hentry. eapply provides_type_extends; eauto.
Qed.

Lemma merge_version_ok t v spec spec' :
  merge_version t v spec = (Ok tt, spec') → provides_version t v spec'.
Proof.
  destruct v as [vs def]. unfold merge_version, provides_version. cbn.
  destruct (parse_version vs) as [version|]; [|done].
  destruct (normalize_version version def) as [n|] eqn:Hn; [|done].
  destruct (tsp_versions spec !! version) as [existing|] eqn:Hex.
  - case_bool_decide as Hf; [|done]. cbn. intros [= <-]. exists version, n.
    destruct (tvs_renderer n) as [x|]; [|by exists existing].
    destruct (tvs_renderer existing); [by exists existing|].
    eexists. cbn. rewrite lookup_insert_eq. by split_and!.
  - destruct (try_each _ _ _) as [[[]|] spec1]; [|done]. intros [= <-]. exists version, n, n.
    cbn. by rewrite lookup_insert_eq.
Qed.

Lemma merge_type_ok t r r' :
  registry_ok r → merge_type t r = (Ok tt, r') → provides_type t r'.
Proof.
  intros Hok. destruct t as [t entry]. unfold merge_type.
  destruct (try_each _ _ _) as [[[]|] spec] eqn:Heach; [|done]. intros [= <-].
  exists spec. cbn. split; [by rewrite lookup_insert_eq|]. intros vs def Hd.
  apply (try_each_ok spec_ok (provides_version t)) in Heach as (_ & Hall & _).
  - by apply (Hall (vs, def)), elem_of_hash_iter.
  - intros v s s' _ Hs Hv. pose proof (merge_version_grows t v s Hs) as [Hs' Hle].
    rewrite Hv in Hs', Hle. split; [done|]. split; [by eapply merge_version_ok|].
    intros b. by apply provides_version_le.
  - by apply registry_ok_default.
Qed.

Lemma merge_enum_ok e r r' : merge_enum e r = (Ok tt, r') → rg_enums r' !! e.1 = Some e.2.
Proof.
  destruct e as [id mapping]. unfold merge_enum.
  destruct (rg_enums r !! id) eqn:Hid; [|intros [= <-]; cbn; by rewrite lookup_insert_eq].
  case_bool_decide; [|done]. intros [= <-]. cbn. by subst.
Qed.

Lemma check_enums_ok r : check_enums r = Ok tt → closed r.
Proof.
  unfold check_enums. intros (us & Hus & _)%bind_ok t spec v s tag f e Ht Hv Hf He.
  destruct (try_map_elem _ _ _ (t, spec) Hus) as [u Hu]; [by apply elem_of_hash_iter|].
  destruct (try_map_elem _ _ _ (v, s) Hu) as [u' Hu'].
  { apply elem_of_sort_by. by apply elem_of_map_to_list. }
  destruct (try_map_elem _ _ _ (tag, f) Hu') as [u'' Hu'']; [by apply elem_of_hash_iter|].
  unfold check_field in Hu''. cbn in Hu''. rewrite He in Hu''.
  by destruct (rg_enums r !! e).
Qed.

Lemma closed_check r : closed r → check_enums r = Ok tt.
Proof.
  intros Hc. unfold check_enums. match goal with |- (?x ≫= _) = _ =>
    assert (is_ok x = true) as Hok; [|by destruct x] end.
  apply try_map_is_ok. intros [t spec] Ht%elem_of_hash_iter.
  apply try_map_is_ok. intros [v s] Hv%elem_of_sort_by%elem_of_map_to_list.
  apply try_map_is_ok. intros [tag f] Hf%elem_of_hash_iter.
  unfold check_field. cbn. destruct (fs_enum_ref f) as [e|] eqn:He; [|done].
  by destruct (Hc _ _ _ _ _ _ _ Ht Hv Hf He) as [x ->].
Qed.

(** A bundle that is merged is provided, and what refers to enums finds them. *)
Lemma ingest_ok b r r' :
  registry_ok r → ingest_bundle b r = (Ok tt, r') → provides b r' ∧ closed r'.
Proof.
  intros Hok. unfold ingest_bundle. destruct (_ =? 0); [done|].
  destruct (try_each merge_enum _ r) as [[[]|] r1] eqn:He; [|done].
  apply (try_each_ok registry_ok (λ e r, rg_enums r !! e.1 = Some e.2)) in He as (Hok1 & He & _);
    [|intros e s s' _ Hs Hm; pose proof (merge_enum_grows e s Hs) as [Hs' Hle]; rewrite Hm in Hs', Hle;
      split; [done|]; split; [by eapply merge_enum_ok|]; intros e' He';
      eapply lookup_weaken; [exact He'|apply Hle]|done].
  pose proof (grows_each registry_ok extends merge_type (hash_iter (rb_types b)) r1
    ltac:(intros; apply merge_type_grows) Hok1) as [_ Hle].
  destruct (try_each merge_type _ r1) as [[[]|] r2] eqn:Ht; [|done].
  apply (try_each_ok registry_ok provides_type) in Ht as (_ & Ht & _);
    [|intros t s s' _ Hs Hm; pose proof (merge_type_grows t s Hs) as [Hs' Hle']; rewrite Hm in Hs', Hle';
      split; [done|]; split; [exact (merge_type_ok _ _ _ Hs Hm)|]; intros t'; by apply provides_type_extends|done].
  intros Heq. injection Heq as Hcheck <-. cbn in Hle. split; [|by apply check_enums_ok]. split.
  - apply map_subseteq_spec. intros e m Hm. eapply lookup_weaken; [|apply Hle].
    by apply (He (e, m)), elem_of_hash_iter.
  - intros t entry Hentry. by apply (Ht (t, entry)), elem_of_hash_iter.
Qed.

Lemma ingest_same b r :
  let r' := (ingest_bundle b r).2 in
  rg_dir r' = rg_dir r ∧ rg_bundles r' = rg_bundles r ∧ rg_last_bundle_id r' = rg_last_bundle_id r.
Proof.
  set (P := λ r', rg_dir r' = rg_dir r ∧ rg_bundles r' = rg_bundles r
    ∧ rg_last_bundle_id r' = rg_last_bundle_id r). change (P (ingest_bundle b r).2).
  unfold ingest_bundle. destruct (_ =? 0); [done|].
  assert (He : P (try_each merge_enum (hash_iter (rb_enums b)) r).2).
  { apply try_each_preserves; [|done]. intros [id m] s _ Hs. unfold merge_enum.
    destruct (rg_enums s !! id); [by case_bool_decide|done]. }
  destruct (try_each merge_enum _ r) as [[[]|] r1]; [|done].
  assert (Ht : P (try_each merge_type (hash_iter (rb_types b)) r1).2).
  { apply try_each_preserves; [|done]. intros [t entry] s _ Hs. unfold merge_type.
    by destruct (try_each _ _ _). }
  by destruct (try_each merge_type _ r1) as [[[]|] r2].
Qed.

(** ** Publishing *)

Lemma load_file_grows file r : grows registry_ok extends r (load_file file r).2.
Proof.
  intros Hok. destruct file as [name raw]. unfold load_file. case_bool_decide; [|done]. cbn.
  destruct (read_bundle raw) as [b|]; [|done].
  destruct (ingest_grows b r Hok) as [Hok' Hle]. destruct (ingest_bundle b r) as [[[]|] r']; [|done].
  destruct Hle. by split.
Qed.

Lemma open_registry_ok `{ReadDir} dir r : open dir = Ok r → registry_ok r.
Proof.
  unfold open. intros Ho. destruct (grows_each registry_ok extends load_file (read_dir dir)
    (registry_new dir) ltac:(intros; apply load_file_grows)) as [Hok _]; [done|].
  by destruct (try_each _ _ _) as [[[]|] r']; simplify_eq.
Qed.

(** A registry that was opened on some directory and then used. *)
Inductive registry_reachable `{ReadDir} : Registry → Prop :=
| reachable_open dir r : open dir = Ok r → registry_reachable r
| reachable_put id raw r : registry_reachable r → registry_reachable (put_bundle id raw r).2.

Lemma reachable_registry_ok `{ReadDir} r : registry_reachable r → registry_ok r.
Proof.
  induction 1 as [dir r Ho|id raw r _ IH]; [by eapply open_registry_ok|]. by apply put_grows.
Qed.

(** C38. Compatibility of published types: whatever bundle is put into a registry, and whether it is
    accepted or not, the fields of every version of every type and every enum stay as they
    were, a renderer at most appears where there was none; and a tag has the same field type
    and enum in all versions of a type in which it occurs. *)
Theorem registry_compatible `{ReadDir} id raw r :
  registry_reachable r →
  let r' := (put_bundle id raw r).2 in
  (∀ t v s, get_type_version r t v = Some s →
     ∃ s', get_type_version r' t v = Some s' ∧ tvs_fields s' = tvs_fields s
       ∧ ∀ x, tvs_renderer s = Some x → tvs_renderer s' = Some x)
  ∧ (∀ e mapping, get_enum r e = Some mapping → get_enum r' e = Some mapping)
  ∧ ∀ t v1 v2 s1 s2 tag f1 f2,
      get_type_version r' t v1 = Some s1 → get_type_version r' t v2 = Some s2 →
      tvs_fields s1 !! tag = Some f1 → tvs_fields s2 !! tag = Some f2 →
      fs_field_type f1 = fs_field_type f2 ∧ fs_enum_ref f1 = fs_enum_ref f2.
Proof.
  intros Hr%reachable_registry_ok. cbn zeta. destruct (put_grows id raw r Hr) as [Hok [Ht He]].
  split_and!.
  - intros t v s (spec & Hspec & Hs)%bind_Some. destruct (Ht _ _ Hspec) as (spec' & Hspec' & Hv & _).
    destruct (Hv _ _ Hs) as (s' & Hs' & Hf & Hren). exists s'. unfold get_type_version.
    by rewrite Hspec'.
  - intros e m Hm. by eapply lookup_weaken.
  - intros t v1 v2 s1 s2 tag f1 f2 (spec & Hspec & Hs1)%bind_Some (spec' & Hspec' & Hs2)%bind_Some Hf1 Hf2.
    simplify_eq. pose proof (Hok _ _ Hspec _ _ _ _ Hs1 Hf1) as Hsig1.
    pose proof (Hok _ _ Hspec _ _ _ _ Hs2 Hf2) as Hsig2. rewrite Hsig1 in Hsig2.
    by injection Hsig2.
Qed.

(** Putting a bundle, on every branch: an id that is taken accepts only the same bytes, as a
    repetition without effect; bytes that are no bundle or carry another id are refused without
    effect; otherwise either the bundle is refused, and the files and the bundles that can be
    fetched are as before, or it is stored in its file and can be fetched, its enums
    and versions are what the registry answers, and no field refers to a missing enum. *)
Theorem put_bundle_spec `{ReadDir} id raw r :
  registry_reachable r →
  let '(res, r') := put_bundle id raw r in
  match get_bundle r id with
  | Some existing =>
      r' = r ∧ res = if decide (existing = raw) then Ok AlreadyExists
                     else Err (InvalidInput ($"bundle_id already exists with different content"))
  | None =>
      match read_bundle raw with
      | Err e => r' = r ∧ res = Err (InvalidInput ($"invalid json: " ++ e))
      | Ok b =>
          if decide (rb_bundle_id b = id) then
            match res with
            | Err _ => rg_dir r' = rg_dir r ∧ rg_bundles r' = rg_bundles r
            | Ok o => o = Created ∧ get_bundle r' id = Some raw
                      ∧ rg_dir r' = <[bundle_filename id := raw]> (rg_dir r)
                      ∧ provides b r' ∧ closed r'
            end
          else r' = r ∧ res = Err (InvalidInput ($"bundle_id does not match path"))
      end
  end.
Proof.
  intros Hr%reachable_registry_ok. unfold put_bundle, get_bundle.
  destruct (rg_bundles r !! id) as [existing|] eqn:Hid.
  { by case_bool_decide; case_decide. }
  destruct (read_bundle raw) as [b|]; [|done]. case_bool_decide; case_decide; try done. cbn [negb].
  pose proof (ingest_same b r) as (Hd & Hb & _). pose proof (ingest_ok b r) as Hok.
  destruct (ingest_bundle b r) as [[[]|e] r']; cbn in *; [|done].
  destruct (Hok r' Hr eq_refl) as [Hp Hc]. rewrite lookup_insert_eq, Hd.
  split_and!; [done..| |done]. by destruct Hp as [? ?].
Qed.

(** ** Restarting *)

(** A registry with part of another one's content. *)
Record spec_below (p t : TypeSpec) : Prop := {
  sb_versions : ∀ v s, tsp_versions p !! v = Some s →
    ∃ s', tsp_versions t !! v = Some s' ∧ tvs_fields s = tvs_fields s';
  sb_tags : tsp_tag_schema p ⊆ tsp_tag_schema t
}.

Record below (p r : Registry) : Prop := {
  bl_types : ∀ t spec, rg_types p !! t = Some spec →
    ∃ spec', rg_types r !! t = Some spec' ∧ spec_below spec spec';
  bl_enums : rg_enums p ⊆ rg_enums r
}.

Definition spec_closed (enums : gmap rstr (gmap rstr rstr)) (p : TypeSpec) : Prop :=
  ∀ v s tag f e, tsp_versions p !! v = Some s → tvs_fields s !! tag = Some f →
    fs_enum_ref f = Some e → is_Some (enums !! e).

(** The fields of a bundle refer only to its own enums. *)
Definition self_contained (b : RegistryBundle) : Prop :=
  ∀ t entry vs def v n tag f e, rb_types b !! t = Some entry → te_versions entry !! vs = Some def →
    normalize_version v def = Ok n → tvs_fields n !! tag = Some f → fs_enum_ref f = Some e →
    is_Some (rb_enums b !! e).

Lemma merge_enum_below e p r :
  below p r → closed p → rg_enums r !! e.1 = Some e.2 →
  ∃ p', merge_enum e p = (Ok tt, p') ∧ (below p' r ∧ closed p').
Proof.
  destruct e as [id m]. cbn. intros [Ht He] Hc Hm. unfold merge_enum.
  destruct (rg_enums p !! id) as [m'|] eqn:Hid.
  - assert (m' = m) as -> by (pose proof (lookup_weaken _ _ _ _ Hid He); congruence).
    rewrite bool_decide_true by done. by exists p.
  - eexists. split; [done|]. split.
    + split; [done|]. cbn. by apply insert_subseteq_l.
    + intros t spec v s tag f e' Hspec Hv Hf He'. cbn. rewrite lookup_insert_is_Some'. right.
      by eapply Hc.
Qed.

Lemma merge_tag_below t tf p spec :
  spec_below p spec → tsp_tag_schema spec !! tf.1 = Some (signature_of tf.2) →
  ∃ p', merge_tag t tf p = (Ok tt, p') ∧ (spec_below p' spec ∧ tsp_versions p' = tsp_versions p).
Proof.
  destruct tf as [tag f]. cbn. intros [Hv Htags] Hsig. unfold merge_tag.
  destruct (tsp_tag_schema p !! tag) as [sig|] eqn:Htag.
  - pose proof (lookup_weaken _ _ _ _ Htag Htags) as Hw. rewrite Hsig in Hw. injection Hw as <-.
    unfold signature_of. rewrite bool_decide_true by done. by exists p.
  - eexists. split; [done|]. split; [|done]. split; [done|]. cbn. by apply insert_subseteq_l.
Qed.

Lemma spec_below_add version n p spec s :
  spec_below p spec → tsp_versions spec !! version = Some s → tvs_fields n = tvs_fields s →
  spec_below (add_version version n p) spec.
Proof.
  intros [Hv Ht] Hs Hf. split; [|done]. intros v x. cbn.
  intros [[<- <-]|[_ Hx]]%lookup_insert_Some; eauto.
Qed.

Lemma spec_closed_add enums version n p :
  spec_closed enums p →
  (∀ tag f e, tvs_fields n !! tag = Some f → fs_enum_ref f = Some e → is_Some (enums !! e)) →
  spec_closed enums (add_version version n p).
Proof.
  intros Hc Hn v s tag f e. cbn. intros [[_ <-]|[_ Hv]]%lookup_insert_Some; [apply Hn|by eapply Hc].
Qed.

Lemma merge_version_below enums t v p spec :
  spec_ok spec → provides_version t v spec → spec_below p spec → spec_closed enums p →
  (∀ version n tag f e, normalize_version version v.2 = Ok n → tvs_fields n !! tag = Some f →
     fs_enum_ref f = Some e → is_Some (enums !! e)) →
  ∃ p', merge_version t v p = (Ok tt, p') ∧ (spec_below p' spec ∧ spec_closed enums p').
Proof.
  destruct v as [vs def]. intros Hok (version & n & s & Hp & Hn & Hs & Hf) Hb Hc Hself.
  cbn in *. unfold merge_version. rewrite Hp, Hn.
  destruct (tsp_versions p !! version) as [existing|] eqn:Hex.
  - destruct (sb_versions _ _ Hb _ _ Hex) as (s' & Hs' & Hf'). simplify_eq.
    rewrite bool_decide_true by congruence. cbn. eexists. split; [done|].
    destruct (tvs_renderer n); [|done]. destruct (tvs_renderer existing); [done|]. split.
    + by eapply spec_below_add.
    + apply spec_closed_add; [done|]. cbn. rewrite Hf', Hf. eauto.
  - destruct (try_each_succeeds (λ p', spec_below p' spec ∧ tsp_versions p' = tsp_versions p)
      (merge_tag t) (hash_iter (tvs_fields n)) p) as (p1 & -> & Hb1 & Hv1); [|done|].
    + intros [tag f] p1 Htag%elem_of_hash_iter [Hb1 Hv1].
      destruct (merge_tag_below t (tag, f) p1 spec Hb1) as (p2 & Hp2 & Hb2 & Hv2).
      { cbn. eapply Hok; [done|]. by rewrite Hf. }
      exists p2. split; [done|]. split; [done|congruence].
    + eexists. split; [done|]. split; [by eapply spec_below_add|].
      apply spec_closed_add; [|eauto]. intros v s' tag f e Hv. rewrite Hv1 in Hv. by eapply Hc.
Qed.

Lemma merge_type_below b t p r :
  registry_ok r → provides_type t r → rb_types b !! t.1 = Some t.2 → self_contained b →
  below p r ∧ closed p ∧ rb_enums b ⊆ rg_enums p →
  ∃ p', merge_type t p = (Ok tt, p') ∧ (below p' r ∧ closed p' ∧ rb_enums b ⊆ rg_enums p').
Proof.
  destruct t as [t entry]. cbn. intros Hok (spec & Hspec & Hprov) Hentry Hself (Hb & Hc & He).
  cbn in *. unfold merge_type.
  assert (Hstart : spec_below (default type_spec_new (rg_types p !! t)) spec
    ∧ spec_closed (rg_enums p) (default type_spec_new (rg_types p !! t))).
  { destruct (rg_types p !! t) as [ps|] eqn:Hps; cbn.
    - destruct (bl_types _ _ Hb _ _ Hps) as (spec' & Hspec' & Hle). simplify_eq. split; [done|].
      intros v s tag f e Hv Hf Hen. by eapply Hc.
    - split; [|by intros v s tag f e Hv]. split; [by intros v s Hv|apply map_empty_subseteq]. }
  destruct (try_each_succeeds (λ p', spec_below p' spec ∧ spec_closed (rg_enums p) p')
    (merge_version t) (hash_iter (te_versions entry)) (default type_spec_new (rg_types p !! t)))
    as (ps & -> & Hb1 & Hc1); [|exact Hstart|].
  - intros [vs def] p1 Hvs%elem_of_hash_iter [Hb1 Hc1].
    apply merge_version_below; [by eapply Hok|by apply Hprov|done|done|].
    intros version n tag f e Hn Hf Hen. cbn in Hn.
    destruct (Hself _ _ _ _ _ _ _ _ _ Hentry Hvs Hn Hf Hen) as [m Hm]. eexists.
    by eapply lookup_weaken.
  - eexists. split; [done|]. split_and!; [|intros t' spec' v s tag f e|done]; cbn.
    + split; [|apply Hb]. cbn. intros t' spec' [[<- <-]|[_ Ht']]%lookup_insert_Some; [by exists spec|].
      by apply Hb.
    + intros [[<- <-]|[_ Ht']]%lookup_insert_Some; [apply Hc1|by eapply Hc].
Qed.

Lemma ingest_below b p r :
  registry_ok r → provides b r → self_contained b → rb_registry_version b ≠ 0 →
  below p r → closed p →
  ∃ p', ingest_bundle b p = (Ok tt, p') ∧ below p' r ∧ closed p'.
Proof.
  intros Hok [He Ht] Hself Hver Hb Hc. unfold ingest_bundle. rewrite (proj2 (N.eqb_neq _ _)) by done.
  destruct (try_each_succeeds (λ p, below p r ∧ closed p) merge_enum (hash_iter (rb_enums b)) p)
    as (p1 & Hp1 & Hb1 & Hc1); [|done|].
  { intros [id m] p1 Hm%elem_of_hash_iter [Hb1 Hc1]. apply merge_enum_below; [done..|].
    by eapply lookup_weaken. }
  rewrite Hp1. assert (Hsub : rb_enums b ⊆ rg_enums p1).
  { apply (try_each_ok (λ _, True) (λ e r, rg_enums r !! e.1 = Some e.2)) in Hp1 as (_ & Hall & _).
    - apply map_subseteq_spec. intros e m Hm. by apply (Hall (e, m)), elem_of_hash_iter.
    - intros e s s' _ _ Hm. split; [done|]. split; [by eapply merge_enum_ok|].
      intros e' He'. destruct e as [id m]. unfold merge_enum in Hm.
      destruct (rg_enums s !! id) eqn:Hid; [case_bool_decide; by simplify_eq|].
      injection Hm as <-. cbn. rewrite lookup_insert_ne; congruence.
    - done. }
  destruct (try_each_succeeds (λ p, below p r ∧ closed p ∧ rb_enums b ⊆ rg_enums p) merge_type
    (hash_iter (rb_types b)) p1) as (p2 & -> & Hb2 & Hc2 & _); [|done|].
  { intros [t entry] p2 Hentry%elem_of_hash_iter Hp2. apply merge_type_below; eauto. }
  exists p2. by rewrite closed_check.
Qed.

(** ** Files *)

Lemma after_last_dot_app s t :
  after_last_dot (s ++ Byte.x2e :: t) = match after_last_dot t with
                                        | Some (stem, ext) => Some (s ++ Byte.x2e :: stem, ext)
                                        | None => Some (s, t)
                                        end.
Proof.
  induction s as [|b s IH]; cbn.
  - by destruct (after_last_dot t) as [[? ?]|].
  - rewrite IH. by destruct (after_last_dot t) as [[? ?]|].
Qed.

Lemma extension_bundle id : extension (bundle_filename id) = Some ($"json").
Proof.
  unfold extension, bundle_filename. change ($".json") with (Byte.x2e :: $"json").
  by rewrite app_assoc, after_last_dot_app.
Qed.

(** The directory holds the bundles that can be fetched, each in its file. *)
Record file_inv (r : Registry) : Prop := {
  fi_ok : registry_ok r;
  fi_files : ∀ name raw, rg_dir r !! name = Some raw →
    ∃ id, name = bundle_filename id ∧ rg_bundles r !! id = Some raw;
  fi_bundles : ∀ id raw, rg_bundles r !! id = Some raw →
    rg_dir r !! bundle_filename id = Some raw
    ∧ ∃ b, read_bundle raw = Ok b ∧ rb_bundle_id b = id ∧ rb_registry_version b ≠ 0 ∧ provides b r
}.

Lemma ingest_version b r r' : ingest_bundle b r = (Ok tt, r') → rb_registry_version b ≠ 0.
Proof. unfold ingest_bundle. destruct (N.eqb_spec (rb_registry_version b) 0); done. Qed.

Lemma file_inv_put id raw r :
  file_inv r →
  (∀ id', is_Some (rg_bundles r !! id') → bundle_filename id' = bundle_filename id → id' = id) →
  file_inv (put_bundle id raw r).2.
Proof.
  intros [Hok Hfiles Hbundles] Hname. unfold put_bundle.
  destruct (rg_bundles r !! id) as [existing|] eqn:Hid; [by case_bool_decide|].
  destruct (read_bundle raw) as [b|] eqn:Hread; [|done].
  case_bool_decide as Hbid; [|done]. cbn.
  destruct (ingest_grows b r Hok) as [Hok' Hle]. pose proof (ingest_same b r) as (Hd & Hb & _).
  pose proof (ingest_ok b r) as Hprov. pose proof (ingest_version b r) as Hver.
  destruct (ingest_bundle b r) as [[[]|] r'] eqn:Hing; cbn in *.
  - destruct (Hprov r' Hok eq_refl) as [Hp _]. split; cbn; [done| |].
    + intros name raw'. rewrite Hd, Hb. intros [[<- <-]|[_ Hn]]%lookup_insert_Some.
      { exists id. by rewrite lookup_insert_eq. }
      destruct (Hfiles _ _ Hn) as (id' & -> & Hid'). exists id'.
      rewrite lookup_insert_ne by congruence. done.
    + intros id' raw'. rewrite Hd, Hb. intros [[<- <-]|[Hne Hid']]%lookup_insert_Some.
      { rewrite lookup_insert_eq. split; [done|]. exists b. split_and!; [done..|by eapply Hver|].
        by destruct Hp. }
      destruct (Hbundles _ _ Hid') as (Hf & b' & Hb' & Hb'id & Hv' & Hp').
      rewrite lookup_insert_ne by (intros Heq; apply Hne; symmetry; apply Hname; eauto).
      split; [done|]. exists b'. split_and!; [done..|].
      destruct (provides_extends _ _ _ Hle Hp'). by split.
  - split; [done|by rewrite Hd, Hb|]. rewrite Hd, Hb. intros id' raw' Hid'.
    destruct (Hbundles _ _ Hid') as (Hf & b' & Hb' & Hb'id & Hv' & Hp').
    split; [done|]. exists b'. split_and!; [done..|]. by eapply provides_extends.
Qed.

(** The bundles that can be fetched use only their own enums. *)
Definition bundles_self_contained (r : Registry) : Prop :=
  ∀ id raw b, rg_bundles r !! id = Some raw → read_bundle raw = Ok b → self_contained b.

(** A file that was loaded. *)
Definition loaded (file : rstr * bytes) (p : Registry) : Prop :=
  ∃ b, read_bundle file.2 = Ok b ∧ rb_registry_version b ≠ 0
    ∧ rg_bundles p !! rb_bundle_id b = Some file.2 ∧ provides b p.

(** What loading the files of [r] maintains. *)
Definition loading (r p : Registry) : Prop :=
  below p r ∧ closed p ∧ registry_ok p ∧ rg_bundles p ⊆ rg_bundles r ∧ rg_dir p = rg_dir r.

Lemma load_file_below r file p :
  file_inv r → bundles_self_contained r →
  rg_dir r !! file.1 = Some file.2 → loading r p →
  ∃ p', load_file file p = (Ok tt, p') ∧ loading r p' ∧ loaded file p'
    ∧ ∀ file', loaded file' p → loaded file' p'.
Proof.
  destruct file as [name raw]. cbn. intros [Hok Hfiles Hbundles] Hself Hname (Hb & Hc & Hpok & Hsub & Hd).
  destruct (Hfiles _ _ Hname) as (id & -> & Hid).
  destruct (Hbundles _ _ Hid) as (_ & b & Hread & Hbid & Hver & Hprov). unfold load_file.
  rewrite extension_bundle, bool_decide_true by done. cbn. rewrite Hread.
  destruct (ingest_below b p r Hok Hprov) as (p' & Hing & Hb' & Hc'); [|done..|].
  { by eapply Hself. }
  destruct (ingest_grows b p Hpok) as [Hpok' Hle]. pose proof (ingest_same b p) as (Hd' & Hsame & _).
  destruct (ingest_ok b p p' Hpok Hing) as [Hp' _].
  rewrite Hing in Hpok', Hle, Hd', Hsame |- *. cbn in *. eexists. split; [done|]. cbn.
  split; [|split].
  - unfold loading. cbn. rewrite Hsame, Hd', Hbid. split_and!; [by destruct Hb'|done|done| |done].
    by apply insert_subseteq_l.
  - exists b. cbn. rewrite Hbid, lookup_insert_eq. split_and!; [done..|]. by destruct Hp'.
  - intros [name' raw'] (b2 & Hr2 & Hv2 & Hl2 & Hp2). exists b2. cbn in *. split_and!; [done..| |].
    + rewrite Hsame. destruct (decide (rb_bundle_id b = rb_bundle_id b2)) as [Heq|Hne];
        [|by rewrite lookup_insert_ne].
      rewrite Heq, lookup_insert_eq. pose proof (lookup_weaken _ _ _ _ Hl2 Hsub) as Hw.
      rewrite <- Heq, Hbid, Hid in Hw. done.
    + destruct (provides_extends _ _ _ Hle Hp2). by split.
Qed.

Lemma restart_inv `{ReadDirLaws} r :
  file_inv r → bundles_self_contained r →
  ∃ r', open (rg_dir r) = Ok r' ∧ rg_bundles r' = rg_bundles r ∧ file_inv r' ∧ closed r'.
Proof.
  intros Hinv Hself. unfold open.
  set (I p := loading r p).
  assert (Hstep : ∀ file p, file ∈ read_dir (rg_dir r) → I p →
    ∃ p', load_file file p = (Ok tt, p') ∧ I p' ∧ loaded file p'
      ∧ ∀ file', loaded file' p → loaded file' p').
  { intros [name raw] p Hin Hp. rewrite read_dir_perm in Hin. apply elem_of_map_to_list in Hin.
    by apply load_file_below. }
  assert (Hstart : I (registry_new (rg_dir r))).
  { unfold I, loading, registry_new. cbn. split_and!; [|by intros t s v x tag f e|done| |done].
    - split; [by intros t s Ht|apply map_empty_subseteq].
    - apply map_empty_subseteq. }
  destruct (try_each_succeeds I load_file (read_dir (rg_dir r)) (registry_new (rg_dir r)))
    as (r' & Hr' & Hi); [|done|].
  { intros file p Hin Hp. destruct (Hstep file p Hin Hp) as (p' & ? & ? & _). eauto. }
  rewrite Hr'. exists r'. apply (try_each_ok I loaded) in Hr' as (_ & Hall & _); [|..|done].
  2: { intros file p p' Hin Hp Heq. destruct (Hstep file p Hin Hp) as (p2 & Heq2 & Hi2 & Hl & Hk).
       rewrite Heq in Heq2. by injection Heq2 as <-. }
  destruct Hi as (Hb & Hc & Hok & Hsub & Hd).
  assert (Hload : ∀ id raw, rg_bundles r !! id = Some raw → loaded (bundle_filename id, raw) r').
  { intros id raw Hid. apply Hall. rewrite read_dir_perm. apply elem_of_map_to_list.
    by apply (fi_bundles _ Hinv). }
  assert (Hsame : rg_bundles r' = rg_bundles r).
  { apply (anti_symm (⊆)); [done|]. apply map_subseteq_spec. intros id raw Hid.
    destruct (fi_bundles _ Hinv _ _ Hid) as (_ & b & Hread & Hbid & _).
    destruct (Hload _ _ Hid) as (b' & Hread' & _ & Hl & _). cbn in *. congruence. }
  split; [done|]. split; [done|]. split; [|done]. split; [done| |].
  - rewrite Hd, Hsame. apply Hinv.
  - rewrite Hd, Hsame. intros id raw Hid. destruct (fi_bundles _ Hinv _ _ Hid) as (Hf & b & Hread & Hbid & _).
    split; [done|]. destruct (Hload _ _ Hid) as (b' & Hread' & Hv & _ & Hp). cbn in *.
    exists b'. split_and!; congruence || done.
Qed.

(** A registry that was filled by putting bundles whose files have different names, and restarted. *)
Inductive published `{ReadDir} : Registry → Prop :=
| published_empty : published (registry_new ∅)
| published_put id raw r :
    published r →
    (∀ id', is_Some (rg_bundles r !! id') → bundle_filename id' = bundle_filename id → id' = id) →
    published (put_bundle id raw r).2
| published_restart r r' :
    published r → bundles_self_contained r → open (rg_dir r) = Ok r' → published r'.

Lemma published_inv `{ReadDirLaws} r : published r → file_inv r.
Proof.
  induction 1 as [|id raw r _ IH Hname|r r' _ IH Hself Ho].
  - split; [done|by intros name raw|by intros id raw].
  - by apply file_inv_put.
  - destruct (restart_inv r IH Hself) as (r2 & Ho2 & _ & Hi & _). congruence.
Qed.

(** Restarting: a registry that was filled by putting bundles, in any order and with refusals and
    restarts in between, whose files have different names and whose bundles use no enums of
    other bundles, is read back from its directory in every order in which the system lists
    it: with the same bundles, and with the enums and versions of each of them, as before. *)
Theorem registry_restart `{ReadDirLaws} r :
  published r → bundles_self_contained r →
  ∃ r', open (rg_dir r) = Ok r' ∧ rg_bundles r' = rg_bundles r ∧ closed r'
    ∧ ∀ id raw, get_bundle r id = Some raw →
        ∃ b, read_bundle raw = Ok b ∧ rb_bundle_id b = id ∧ provides b r ∧ provides b r'.
Proof.
  intros Hr%published_inv Hself. destruct (restart_inv r Hr Hself) as (r' & Ho & Hb & Hi & Hc).
  exists r'. split_and!; [done..|]. unfold get_bundle. intros id raw Hid.
  destruct (fi_bundles _ Hr _ _ Hid) as (_ & b & Hread & Hbid & _ & Hp). rewrite <- Hb in Hid.
  destruct (fi_bundles _ Hi _ _ Hid) as (_ & b' & Hread' & _ & _ & Hp').
  exists b. split_and!; [done..|]. congruence.
Qed.
End spec.

Module RegistryWitness.

#[local] Existing Instances Sample.order Sample.order_laws.

Definition field (name ty : rstr) (enum : option rstr) : FieldDef :=
  mkFieldDef name ty enum None None None.
Definition bundle (id : rstr) (types : list (rstr * FieldDef)) (enums : list rstr) : RegistryBundle :=
  mkRegistryBundle 1 id
    (list_to_map ((λ '(t, f), (t, mkTypeEntry {[$"1" := mkTypeVersion {[$"7" := f]} None]})) <$> types))
    (list_to_map ((λ e, (e, {[$"0" := $"zero"]})) <$> enums)).

(** The text of a bundle is its name, followed by a comma and its body in the real format. *)
Definition texts : list (rstr * RegistryBundle) :=
  [($"roles", bundle ($"roles") [] [$"role"]);
   ($"users", bundle ($"users") [($"User", field ($"role") ($"u32") (Some ($"role")))] []);
   ($"own", bundle ($"own") [($"Item", field ($"state") ($"u32") (Some ($"state")))] [$"state"]);
   ($"a/b", bundle ($"a/b") [] []); ($"a:b", bundle ($"a:b") [] [])].

#[local] Instance read : ReadBundle := λ raw,
  ok_or ($"expected value") (obj_get raw texts).
#[local] Instance listing : ReadDir := λ d, map_to_list d.
#[local] Instance listing_laws : ReadDirLaws.
Proof. intros d. reflexivity. Qed.
Definition backwards : ReadDir := λ d, reverse (map_to_list d).

Definition put (id : rstr) (r : Registry) : Registry := (put_bundle id id r).2.
Definition empty : Registry := registry_new ∅.

(** A refused bundle leaves its types behind: every later bundle is refused for the missing enum. *)
Example refused_put_blocks :
  fst (put_bundle ($"users") ($"users") empty)
    = Err (InvalidInput ($"missing enum role for type User version 1 tag 7"))
  ∧ fst (put_bundle ($"own") ($"own") (put ($"users") empty))
    = Err (InvalidInput ($"missing enum role for type User version 1 tag 7"))
  ∧ fst (put_bundle ($"own") ($"own") empty) = Ok Created.
Proof. by vm_compute. Qed.

(** The file of [a:b] replaces the file of [a/b]: after a restart only one of them is left. *)
Example colliding_files :
  let r := put ($"a:b") (put ($"a/b") empty) in
  size (rg_bundles r) = 2%nat
  ∧ (size ∘ rg_bundles <$> open (rg_dir r)) = Ok 1%nat.
Proof. by vm_compute. Qed.

(** A bundle that uses the enum of an earlier one: whether the server starts again depends on
    the order of the directory. *)
Example restart_depends_on_order :
  let r := put ($"users") (put ($"roles") empty) in
  size (rg_bundles r) = 2%nat
  ∧ is_ok (open (rg_dir r)) = negb (is_ok (open (listing := backwards) (rg_dir r))).
Proof. by vm_compute. Qed.

Definition item : TypeVersionSpec :=
  mkTypeVersionSpec 1 {[7 := mkFieldSpec ($"state") ($"u32") (Some ($"state")) None false None]} None.

Definition r1 : Registry := put ($"own") empty.

Lemma reachable_empty : registry_reachable empty.
Proof. apply (reachable_open ∅). reflexivity. Qed.

Lemma reachable_r1 : registry_reachable r1.
Proof. apply (reachable_put ($"own") ($"own") empty). apply reachable_empty. Qed.

Lemma published_r1 : published r1.
Proof. apply (published_put ($"own") ($"own") empty); [constructor|]. intros id [x Hx]. done. Qed.

Lemma self_contained_r1 : bundles_self_contained r1.
Proof.
  intros id raw b Hid Hread. assert (raw = $"own") as ->.
  { change (rg_bundles r1) with ({[$"own" := $"own"]} : gmap rstr bytes) in Hid.
    by apply lookup_singleton_Some in Hid as [_ <-]. }
  injection Hread as <-. intros t entry vs def v n tag f e Ht Hvs Hn Hf He.
  cbn [bundle rb_types fmap list_fmap list_to_map foldr uncurry] in Ht.
  apply lookup_insert_Some in Ht as [[<- <-]|[_ Ht]]; [|by rewrite lookup_empty in Ht].
  cbn [te_versions snd] in Hvs.
  apply lookup_singleton_Some in Hvs as [<- <-]. assert (tvs_fields n = tvs_fields item) as Hn'.
  { vm_compute in Hn. injection Hn as <-. by vm_compute. }
  rewrite Hn' in Hf. cbn [tvs_fields item] in Hf. apply lookup_singleton_Some in Hf as [<- <-]. injection He as <-.
  vm_compute. by eexists.
Qed.

Lemma registry_compatible_witness :
  ∃ s, get_type_version (put ($"users") r1) ($"Item") 1 = Some s ∧ tvs_fields s = tvs_fields item.
Proof.
  destruct (registry_compatible ($"users") ($"users") r1 reachable_r1) as (Ht & _ & _).
  destruct (Ht ($"Item") 1 item) as (s & Hs & Hf & _); [vm_compute; reflexivity|].
  exists s. split; [exact Hs|exact Hf].
Defined.

Lemma put_bundle_spec_witness :
  ∃ r, put_bundle ($"own") ($"own") empty = (Ok Created, r)
    ∧ get_bundle r ($"own") = Some ($"own") ∧ closed r.
Proof.
  pose proof (put_bundle_spec ($"own") ($"own") empty reachable_empty) as Hput.
  assert (Hres : fst (put_bundle ($"own") ($"own") empty) = Ok Created) by (vm_compute; reflexivity).
  destruct (put_bundle ($"own") ($"own") empty) as [res r]. cbn [fst] in Hres. subst res.
  change (get_bundle empty ($"own")) with (@None bytes) in Hput. cbn match in Hput.
  change (read_bundle ($"own")) with (Ok (E := rstr) (bundle ($"own")
    [($"Item", field ($"state") ($"u32") (Some ($"state")))] [$"state"])) in Hput.
  cbn match in Hput. rewrite decide_True in Hput by reflexivity.
  destruct Hput as (_ & Hget & _ & _ & Hc). exists r. split; [reflexivity|].
  split; [exact Hget|exact Hc].
Defined.

Lemma registry_restart_witness :
  ∃ r', open (rg_dir r1) = Ok r' ∧ rg_bundles r' = rg_bundles r1 ∧ closed r'.
Proof.
  destruct (registry_restart r1 published_r1 self_contained_r1) as (r' & Ho & Hb & Hc & _).
  exists r'. split; [exact Ho|]. split; [exact Hb|exact Hc].
Defined.

End RegistryWitness.
