(* ===== verification/Projection.v ===== *)
(** * Projection: payloads as typed JSON

    [server/src/projection/mod.rs]: a msgpack payload, a map by numeric tags, is rendered as a JSON
    object by the fields of its type version, following references to other types. Encoding in
    base 64 and hex and the text of a date are parameters.

    The recursion of [render_field_value] and [render_type_ref] has fuel, twice the size of the
    value; [ProjectionSpec] shows that this is enough. *)

From Stdlib Require Import Floats.SpecFloat.
From S2P Require Import Prelude Bytes External Json Registry.

Open Scope N_scope.

Inductive BytesRender : Type := Base64 | Hex | LenOnly.
Inductive U64Format : Type := U64String | U64Number.
Inductive EnumRender : Type := EnumLabel | EnumNumber | EnumBoth.
Inductive TimeRender : Type := Iso | UnixMs.

Record RenderOptions : Type := mkRenderOptions {
  ro_bytes_render : BytesRender;
  ro_u64_format : U64Format;
  ro_enum_render : EnumRender;
  ro_time_render : TimeRender;
  ro_include_unknown : bool
}.

Record ProjectionResult : Type := mkProjectionResult {
  pr_data : json;
  pr_unknown : option json
}.

(** [base64::STANDARD.encode], [hex::encode], and [DateTime::from_timestamp_millis] followed by
    [to_rfc3339], [None] outside of the range of dates. *)
Class Rendering : Type := {
  base64_encode : bytes → rstr;
  hex_encode : bytes → rstr;
  rfc3339_of_millis : Z → option rstr
}.

(** ** Keys and numbers *)

(** [as_u64().or_else(|| as_i64()...)] and the converse. *)
Definition u64_or_i64 (i : Z) : option N :=
  match int_as_u64 i with
  | Some u => Some u
  | None => v ← int_as_i64 i; if (0 <=? v)%Z then Some (Z.to_N v) else None
  end.

Definition key_to_tag (key : Value) : option N :=
  match key with
  | VInteger i => u64_or_i64 i
  | VString s => s ← utf8_as_str s; parse_u64 s
  | _ => None
  end.

Definition value_to_u64 (value : Value) : option N :=
  match value with
  | VInteger i => u64_or_i64 i
  | _ => None
  end.

Definition value_to_i64 (value : Value) : option Z :=
  match value with
  | VInteger i =>
      match int_as_i64 i with
      | Some v => Some v
      | None => v ← int_as_u64 i; if v <=? 9223372036854775807 then Some (Z.of_N v) else None
      end
  | _ => None
  end.

(** [normalize_tags]: later entries with the same tag win. *)
Definition insert_tag (out : gmap N Value) (kv : Value * Value) : gmap N Value :=
  match key_to_tag kv.1 with
  | Some tag => <[tag := kv.2]> out
  | None => out
  end.

Definition normalize_tags (value : Value) : result StoreError (gmap N Value) :=
  match value with
  | VMap map => Ok (foldl insert_tag ∅ map)
  | _ => Err (InvalidInput ($"payload is not a map"))
  end.

Definition str_or_empty (s : bytes) : rstr := default [] (utf8_as_str s).

Definition map_key (k : Value) : rstr :=
  match k with
  | VString s => str_or_empty s
  | VInteger i => from_option show_N [] (int_as_u64 i)
  | _ => []
  end.

(** The size of a value. *)
Fixpoint value_size (v : Value) : nat :=
  S match v with
    | VArray l => sum_list_with value_size l
    | VMap l => sum_list_with (λ '(_, v), value_size v) l
    | _ => O
    end.

Section Projection.
Context `{HashOrder} `{Rendering} (options : RenderOptions).

(** ** Values without a type *)

Definition render_u64_raw (u : N) : json :=
  match ro_u64_format options with
  | U64String => JString (show_N u)
  | U64Number => JNumber (number_from_u64 u)
  end.

Definition render_u64 (value : Value) : json :=
  from_option render_u64_raw JNull (value_to_u64 value).

Definition render_int (value : Value) : json :=
  from_option (λ i, JNumber (number_from_i64 i)) JNull (value_to_i64 value).

Definition render_string (value : Value) : json :=
  match value with
  | VString s => JString (str_or_empty s)
  | _ => JNull
  end.

Definition render_bool (value : Value) : json :=
  match value with
  | VBoolean b => JBool b
  | _ => JNull
  end.

Definition render_bytes (value : Value) : json :=
  match value with
  | VBinary bs =>
      match ro_bytes_render options with
      | Base64 => JString (base64_encode bs)
      | Hex => JString (hex_encode bs)
      | LenOnly => JNumber (number_from_u64 (len bs))
      end
  | _ => JNull
  end.

Definition render_time (value : Value) : json :=
  match value_to_i64 value with
  | None => JNull
  | Some ms =>
      match ro_time_render options with
      | UnixMs => JNumber (number_from_i64 ms)
      | Iso => from_option JString JNull (rfc3339_of_millis ms)
      end
  end.

Definition render_float (f : spec_float) : json :=
  JNumber (default (number_from_u64 0) (number_from_f64 f)).

Fixpoint render_value (value : Value) : json :=
  match value with
  | VNil => JNull
  | VBoolean b => JBool b
  | VInteger i =>
      match int_as_u64 i with
      | Some u => render_u64_raw u
      | None => from_option (λ i, JNumber (number_from_i64 i)) JNull (int_as_i64 i)
      end
  | VF32 bits => render_float (f64_of_f32_bits bits)
  | VF64 bits => render_float (f64_of_bits bits)
  | VString s => JString (str_or_empty s)
  | VBinary _ => render_bytes value
  | VArray arr => JArray (map render_value arr)
  | VMap m => JObject (obj_of (map (λ '(k, v), (map_key k, render_value v)) m))
  | VExt _ _ => JNull
  end.

(** ** Fields *)

Variable registry : Registry.

(** The label of an enum's value, when there is one. *)
Definition enum_label (value : Value) (field : FieldSpec) : option (N * rstr) :=
  enum_ref ← fs_enum_ref field;
  num ← value_to_u64 value;
  m ← get_enum registry enum_ref;
  label ← m !! show_N num;
  Some (num, label).

Definition render_enum (num : N) (label : rstr) : json :=
  match ro_enum_render options with
  | EnumLabel => JString label
  | EnumNumber => JNumber (number_from_u64 num)
  | EnumBoth => JObject (obj_of [($"label", JString label); ($"value", JNumber (number_from_u64 num))])
  end.

(** The entries whose tags the type does not have. *)
Definition unknown_tags (fields : gmap N FieldSpec) (m : gmap N Value) : list (rstr * json) :=
  omap (λ '(tag, val), if decide (is_Some (fields !! tag)) then None
                       else Some (show_N tag, render_value val)) (hash_iter m).

(** The fields that the value has, rendered. *)
Definition known_fields (render : Value → FieldSpec → json) (fields : gmap N FieldSpec)
    (m : gmap N Value) : list (rstr * json) :=
  omap (λ '(tag, field), val ← m !! tag; Some (fs_name field, render val field)) (hash_iter fields).

Definition dummy_field (item_type : rstr) : FieldSpec :=
  mkFieldSpec [] item_type None None false None.

Definition u64_types : list rstr := [$"u64"; $"uint64"; $"i64"; $"int64"].
Definition int_types : list rstr := [$"u32"; $"uint32"; $"u8"; $"uint8"; $"int32"].
Definition bytes_types : list rstr := [$"bytes"; $"typed_blob"].
Definition time_types : list rstr := [$"unix_ms"; $"time_ms"; $"timestamp_ms"].
Definition ref_types : list rstr := [$"ref"; $"map"].
Definition is_one_of (s : rstr) (l : list rstr) : bool := existsb (λ t, bool_decide (s = t)) l.

(** The bodies of [render_field_value] and [render_type_ref], on what they call. *)
Section bodies.
Variable render_field : Value → FieldSpec → json.
Variable render_ref : Value → rstr → json.

Definition render_item (items : option ItemsSpec) (item : Value) : json :=
  match items with
  | Some (Simple item_type) => render_field item (dummy_field item_type)
  | Some (Ref type_ref) => render_ref item type_ref
  | None => render_value item
  end.

Definition render_array (value : Value) (items : option ItemsSpec) : json :=
  match value with
  | VArray arr => JArray (map (render_item items) arr)
  | _ => JNull
  end.

Definition render_by_type (value : Value) (field : FieldSpec) : json :=
  let ty := fs_field_type field in
  if is_one_of ty u64_types then render_u64 value
  else if is_one_of ty int_types then render_int value
  else if is_one_of ty [$"string"] then render_string value
  else if is_one_of ty [$"bool"] then render_bool value
  else if is_one_of ty bytes_types then render_bytes value
  else if is_one_of ty [$"array"] then render_array value (fs_items field)
  else if is_one_of ty time_types then render_time value
  else render_value value.

Definition field_body (value : Value) (field : FieldSpec) : json :=
  match enum_label value field with
  | Some (num, label) => render_enum num label
  | None =>
      match fs_type_ref field with
      | Some type_ref =>
          if is_one_of (fs_field_type field) ref_types then render_ref value type_ref
          else render_by_type value field
      | None => render_by_type value field
      end
  end.

Definition ref_body (value : Value) (type_ref : rstr) : json :=
  match get_latest_type_version registry type_ref with
  | None => render_value value
  | Some type_spec =>
      match normalize_tags value with
      | Err _ => render_value value
      | Ok m =>
          let data := obj_of (known_fields render_field (tvs_fields type_spec) m) in
          JObject
            (if ro_include_unknown options then
               let unknown := obj_of (unknown_tags (tvs_fields type_spec) m) in
               if bool_decide (length unknown = O) then data
               else obj_insert ($"_unknown") (JObject unknown) data
             else data)
      end
  end.
End bodies.

Fixpoint render_field_value_fuel (fuel : nat) (value : Value) (field : FieldSpec) : json :=
  match fuel with
  | O => JNull
  | S fuel => field_body (render_field_value_fuel fuel) (render_type_ref_fuel fuel) value field
  end
with render_type_ref_fuel (fuel : nat) (value : Value) (type_ref : rstr) : json :=
  match fuel with
  | O => JNull
  | S fuel => ref_body (render_field_value_fuel fuel) value type_ref
  end.

Definition render_field_value (value : Value) (field : FieldSpec) : json :=
  render_field_value_fuel (2 * value_size value) value field.
Definition render_type_ref (value : Value) (type_ref : rstr) : json :=
  render_type_ref_fuel (2 * value_size value) value type_ref.

(** ** Payloads *)

Definition project_msgpack `{Msgpack} (payload : bytes) (descriptor : TypeVersionSpec)
    : result StoreError ProjectionResult :=
  match msgpack_read payload with
  | Err e => Err (InvalidInput ($"msgpack decode error: " ++ e))
  | Ok value =>
      m ← normalize_tags value;
      Ok (mkProjectionResult
            (JObject (obj_of (known_fields render_field_value (tvs_fields descriptor) m)))
            (if ro_include_unknown options
             then Some (JObject (obj_of (unknown_tags (tvs_fields descriptor) m)))
             else None))
  end.

End Projection.
