(* ===== verification/ProjectionSpec.v ===== *)
(** * ProjectionSpec: what the projection of a payload keeps

    The recursion ends; no tag of a payload is lost; every field has the JSON type that its
    definition asks for; integers keep their value. *)

From Stdlib Require Import Floats.SpecFloat.
From S2P Require Import Prelude Bytes External Json Registry RegistrySpec Projection.

Open Scope N_scope.

(** ** Tags *)

Lemma int_as_u64_lt i u : int_as_u64 i = Some u → u < U64 ∧ i = Z.of_N u.
Proof.
  unfold int_as_u64. destruct (Z.leb_spec 0 i); cbn; [|done].
  destruct (Z.ltb_spec i 18446744073709551616); [|done]. intros [= <-]. lia.
Qed.

Lemma int_as_i64_range i v :
  int_as_i64 i = Some v → v = i ∧ (-9223372036854775808 ≤ i < 9223372036854775808)%Z.
Proof.
  unfold int_as_i64. destruct (Z.leb_spec (-9223372036854775808) i); cbn; [|done].
  destruct (Z.ltb_spec i 9223372036854775808); [|done]. by intros [= <-].
Qed.

Lemma u64_or_i64_eq i : u64_or_i64 i = int_as_u64 i.
Proof.
  unfold u64_or_i64. destruct (int_as_u64 i) as [u|] eqn:Hu; [done|].
  destruct (int_as_i64 i) as [v|] eqn:Hv; [|done]. cbn. apply int_as_i64_range in Hv as [-> Hr].
  destruct (Z.leb_spec 0 i); [|done]. unfold int_as_u64 in Hu.
  rewrite (proj2 (Z.leb_le _ _)), (proj2 (Z.ltb_lt _ _)) in Hu by lia. done.
Qed.

Lemma parse_digits_lt lim a s n : a < lim → parse_digits lim a s = Some n → n < lim.
Proof.
  revert a. induction s as [|b s IH]; intros a Ha; cbn; [by intros [= <-]|].
  destruct (digit_val b) as [d|]; [|done]. cbn.
  destruct (N.ltb_spec (a * 10 + d) lim); [by apply IH|done].
Qed.

Lemma parse_u64_lt s n : parse_u64 s = Some n → n < U64.
Proof.
  unfold parse_u64, parse_uint. destruct s as [|b s]; [done|]. case_bool_decide.
  - destruct s; [done|]. by apply parse_digits_lt.
  - by apply parse_digits_lt.
Qed.

Lemma key_to_tag_lt k tag : key_to_tag k = Some tag → tag < U64.
Proof.
  destruct k; cbn; try done.
  - rewrite u64_or_i64_eq. intros Hu. by apply int_as_u64_lt in Hu as [? _].
  - intros (str & _ & Hp)%bind_Some. by eapply parse_u64_lt.
Qed.

(** A tag of the normalized map is the key of an entry, with its value. *)
Lemma normalize_entry v m tag val :
  normalize_tags v = Ok m → m !! tag = Some val →
  ∃ entries k, v = VMap entries ∧ (k, val) ∈ entries ∧ key_to_tag k = Some tag.
Proof.
  destruct v as [| | | | | | | |entries|]; try done. cbn. intros [= <-] Htag.
  assert (Hgen : ∀ acc, foldl insert_tag acc entries !! tag = Some val →
    acc !! tag = Some val ∨ ∃ k, (k, val) ∈ entries ∧ key_to_tag k = Some tag).
  { clear Htag. induction entries as [|[k x] entries IH]; intros acc Hg; [by left|].
    cbn in Hg. destruct (IH _ Hg) as [Hi|(k' & Hin & Hk)].
    - unfold insert_tag in Hi. cbn in Hi. destruct (key_to_tag k) as [t|] eqn:Hk; [|by left].
      apply lookup_insert_Some in Hi as [[-> ->]|[_ Hi]]; [|by left].
      right. exists k. split; [by left|done].
    - right. exists k'. split; [by right|done]. }
  destruct (Hgen ∅ Htag) as [?|(k & Hin & Hk)]; [done|]. by exists entries, k.
Qed.

Lemma sum_list_with_elem {A} (f : A → nat) l a : a ∈ l → (f a ≤ sum_list_with f l)%nat.
Proof.
  induction l as [|b l IH]; [by intros ?%elem_of_nil|].
  intros [->|Ha]%elem_of_cons; cbn; [lia|]. specialize (IH Ha). lia.
Qed.

Lemma normalize_size v m tag val :
  normalize_tags v = Ok m → m !! tag = Some val → (value_size val < value_size v)%nat.
Proof.
  intros Hm Htag. destruct (normalize_entry _ _ _ _ Hm Htag) as (entries & k & -> & Hin & _).
  cbn. pose proof (sum_list_with_elem (λ '(_, v), value_size v) entries (k, val) Hin). cbn in *. lia.
Qed.

Section spec.
Context `{HashOrderLaws} `{Rendering} (options : RenderOptions) (registry : Registry).

Abbreviation render_field_value := (render_field_value options registry).
Abbreviation render_type_ref := (render_type_ref options registry).

(** ** The recursion ends *)

Lemma known_fields_ext r1 r2 fields m :
  (∀ tag val f, m !! tag = Some val → r1 val f = r2 val f) →
  known_fields r1 fields m = known_fields r2 fields m.
Proof.
  intros Hr. unfold known_fields. generalize (hash_iter fields). intros l.
  induction l as [|[tag f] l IH]; [done|]. cbn.
  destruct (m !! tag) as [val|] eqn:Hm; cbn; [|done]. by rewrite (Hr tag), IH.
Qed.

Lemma ref_body_ext r1 r2 v t :
  (∀ val f, (value_size val < value_size v)%nat → r1 val f = r2 val f) →
  ref_body options registry r1 v t = ref_body options registry r2 v t.
Proof.
  intros Hr. unfold ref_body. destruct (get_latest_type_version registry t); [|done].
  destruct (normalize_tags v) as [m|] eqn:Hm; [|done].
  rewrite (known_fields_ext r1 r2); [done|]. intros tag val f Hval. by eapply Hr, normalize_size.
Qed.

Lemma field_body_ext r1 r2 q1 q2 v f :
  (∀ val f, (value_size val < value_size v)%nat → r1 val f = r2 val f) →
  (∀ val t, (value_size val ≤ value_size v)%nat → q1 val t = q2 val t) →
  field_body options registry r1 q1 v f = field_body options registry r2 q2 v f.
Proof.
  intros Hr Hq. unfold field_body. destruct (enum_label registry v f) as [[num label]|]; [done|].
  assert (Hty : render_by_type options r1 q1 v f = render_by_type options r2 q2 v f).
  { unfold render_by_type. repeat (case_match; [done|]). case_match; [|done].
    unfold render_array. destruct v; try done. f_equal. apply map_ext_in.
    intros x Hx. apply list_elem_of_In in Hx.
    pose proof (sum_list_with_elem value_size _ _ Hx). unfold render_item.
    destruct (fs_items f) as [[ty|t]|]; [apply Hr|apply Hq|done]; cbn; lia. }
  destruct (fs_type_ref f) as [t|]; [|done]. case_match; [by apply Hq|done].
Qed.

Lemma fuel_enough n v :
  (value_size v ≤ n)%nat →
  (∀ f1 f2 field, (2 * value_size v ≤ f1)%nat → (2 * value_size v ≤ f2)%nat →
     render_field_value_fuel options registry f1 v field
     = render_field_value_fuel options registry f2 v field)
  ∧ (∀ f1 f2 t, (2 * value_size v ≤ S f1)%nat → (2 * value_size v ≤ S f2)%nat →
     render_type_ref_fuel options registry f1 v t = render_type_ref_fuel options registry f2 v t).
Proof.
  revert v. induction n as [|n IH]; intros v Hn; [destruct v; cbn in Hn; lia|].
  assert (Href : ∀ v f1 f2 t, (value_size v ≤ S n)%nat → (2 * value_size v ≤ S f1)%nat →
    (2 * value_size v ≤ S f2)%nat →
    render_type_ref_fuel options registry f1 v t = render_type_ref_fuel options registry f2 v t).
  { intros w f1 f2 t Hw H1' H2'. assert (1 ≤ value_size w)%nat by (destruct w; cbn; lia).
    destruct f1 as [|f1], f2 as [|f2]; try lia. cbn. apply ref_body_ext.
    intros val f Hval. apply (IH val); lia. }
  split; [|by intros f1 f2 t; apply Href].
  intros f1 f2 field H1' H2'. assert (1 ≤ value_size v)%nat by (destruct v; cbn; lia).
  destruct f1 as [|f1], f2 as [|f2]; try lia. cbn. apply field_body_ext.
  - intros val f Hval. apply (IH val); lia.
  - intros val t Hval. apply Href; lia.
Qed.

(** The equations of the source. *)
Lemma render_field_value_eq v field :
  render_field_value v field = field_body options registry render_field_value render_type_ref v field.
Proof.
  unfold Projection.render_field_value at 1.
  assert (1 ≤ value_size v)%nat by (destruct v; cbn; lia).
  destruct (2 * value_size v)%nat as [|f] eqn:Hf; [lia|]. cbn [render_field_value_fuel].
  apply field_body_ext.
  - intros val g Hval. apply (fuel_enough (value_size val)); lia.
  - intros val t Hval. apply (fuel_enough (value_size val)); lia.
Qed.

Lemma render_type_ref_eq v t :
  render_type_ref v t = ref_body options registry render_field_value v t.
Proof.
  unfold Projection.render_type_ref. assert (1 ≤ value_size v)%nat by (destruct v; cbn; lia).
  destruct (2 * value_size v)%nat as [|f] eqn:Hf; [lia|]. cbn [render_type_ref_fuel].
  apply ref_body_ext. intros val g Hval. apply (fuel_enough (value_size val)); lia.
Qed.

(** ** Nothing is lost *)

Lemma elem_of_known_fields render fields m name j :
  (name, j) ∈ known_fields render fields m ↔
  ∃ tag f val, fields !! tag = Some f ∧ m !! tag = Some val ∧ name = fs_name f ∧ j = render val f.
Proof.
  unfold known_fields. rewrite list_elem_of_omap. split.
  - intros ([tag f] & Hin & (val & Hval & [= <- <-])%bind_Some).
    apply elem_of_hash_iter in Hin. by exists tag, f, val.
  - intros (tag & f & val & Hf & Hval & -> & ->). exists (tag, f).
    split; [by apply elem_of_hash_iter|]. by rewrite Hval.
Qed.

Lemma elem_of_unknown_tags fields m name j :
  (name, j) ∈ unknown_tags options fields m ↔
  ∃ tag val, m !! tag = Some val ∧ fields !! tag = None ∧ name = show_N tag
    ∧ j = render_value options val.
Proof.
  unfold unknown_tags. rewrite list_elem_of_omap. split.
  - intros ([tag val] & Hin & Heq). apply elem_of_hash_iter in Hin. case_decide as Hd; [done|].
    apply eq_None_not_Some in Hd. simplify_eq. by exists tag, val.
  - intros (tag & val & Hval & Hf & -> & ->). exists (tag, val).
    split; [by apply elem_of_hash_iter|]. rewrite decide_False; [done|]. by rewrite Hf; intros [].
Qed.

(** The object of a type with distinct field names: each field under its name. *)
Lemma known_fields_get render fields m tag f val :
  (∀ t1 t2 f1 f2, fields !! t1 = Some f1 → fields !! t2 = Some f2 → fs_name f1 = fs_name f2 → t1 = t2) →
  fields !! tag = Some f → m !! tag = Some val →
  obj_get (fs_name f) (obj_of (known_fields render fields m)) = Some (render val f).
Proof.
  intros Hinj Hf Hval.
  assert (Hin : (fs_name f, render val f) ∈ known_fields render fields m)
    by (apply elem_of_known_fields; eauto 8).
  destruct (proj2 (obj_of_is_Some (fs_name f) (known_fields render fields m))) as [j Hj].
  { apply list_elem_of_fmap. eexists. split; [|exact Hin]. done. }
  rewrite Hj. apply obj_of_Some, elem_of_known_fields in Hj
    as (tag' & f' & val' & Hf' & Hval' & Hname & ->).
  assert (tag' = tag) as -> by (eapply Hinj; eauto). by simplify_eq.
Qed.

Lemma unknown_tags_get fields m tag val :
  (∀ t v, m !! t = Some v → t < U64) → m !! tag = Some val → fields !! tag = None →
  obj_get (show_N tag) (obj_of (unknown_tags options fields m)) = Some (render_value options val).
Proof.
  intros Hlt Hval Hf.
  assert (Hin : (show_N tag, render_value options val) ∈ unknown_tags options fields m)
    by (apply elem_of_unknown_tags; eauto 8).
  destruct (proj2 (obj_of_is_Some (show_N tag) (unknown_tags options fields m))) as [j Hj].
  { apply list_elem_of_fmap. eexists. split; [|exact Hin]. done. }
  rewrite Hj. apply obj_of_Some, elem_of_unknown_tags in Hj as (tag' & val' & Hval' & Hf' & Hname & ->).
  apply show_N_inj in Hname; [|by eapply Hlt..]. by simplify_eq.
Qed.

(** The projection of a payload is complete and adds nothing: it fails exactly for bytes that are
    not msgpack or not a map; otherwise, for a type with distinct field names, the object has for
    every field that the payload has the rendered value under the field's name and no other
    entries, and with [include_unknown] every other tag of the payload is found, under its
    number, in the second object, which again has no other entries. *)
Theorem project_complete `{Msgpack} payload descriptor :
  (∀ t1 t2 f1 f2, tvs_fields descriptor !! t1 = Some f1 → tvs_fields descriptor !! t2 = Some f2 →
     fs_name f1 = fs_name f2 → t1 = t2) →
  match msgpack_read payload with
  | Ok (VMap entries) =>
      ∃ data unknown m,
        project_msgpack options registry payload descriptor
          = Ok (mkProjectionResult (JObject data) (if ro_include_unknown options
                                                   then Some (JObject unknown) else None))
        ∧ normalize_tags (VMap entries) = Ok m
        ∧ (∀ name j, obj_get name data = Some j ↔
             ∃ tag f val, tvs_fields descriptor !! tag = Some f ∧ m !! tag = Some val
               ∧ name = fs_name f ∧ j = render_field_value val f)
        ∧ (∀ name j, obj_get name unknown = Some j ↔
             ∃ tag val, m !! tag = Some val ∧ tvs_fields descriptor !! tag = None
               ∧ name = show_N tag ∧ j = render_value options val)
  | _ => is_ok (project_msgpack options registry payload descriptor) = false
  end.
Proof.
  intros Hinj. unfold project_msgpack. destruct (msgpack_read payload) as [v|e]; [|done].
  destruct v as [| | | | | | | |entries|]; try done. cbn [normalize_tags mbind result_bind].
  eexists _, _, _. split; [done|]. split; [done|].
  assert (Hlt : ∀ t v, foldl insert_tag ∅ entries !! t = Some v → t < U64).
  { intros t v Ht. destruct (normalize_entry (VMap entries) _ t v eq_refl Ht) as (? & k & _ & _ & Hk).
    by eapply key_to_tag_lt. }
  split; intros name j; split.
  - intros Hj%obj_of_Some. by apply elem_of_known_fields.
  - intros (tag & f & val & Hf & Hval & -> & ->). by eapply known_fields_get.
  - intros Hj%obj_of_Some. by apply elem_of_unknown_tags.
  - intros (tag & val & Hval & Hf & -> & ->). by apply unknown_tags_get.
Qed.

(** ** Types

    What a value of a field is in JSON, as the description of the field asks for it. *)

Inductive Kind : Type :=
| KUnsigned | KSigned | KText | KBool | KBytes | KArray | KTime | KRaw.

(** The kinds that the projection tells apart. The types of the documentation that it does not know,
    such as [i8], [i32], [u16], [f32] and [f64], and [ref] and [map] without a reference, are raw. *)
Definition kind_of (ty : rstr) : Kind :=
  if bool_decide (ty ∈ [$"u64"; $"uint64"; $"i64"; $"int64"]) then KUnsigned
  else if bool_decide (ty ∈ [$"u32"; $"uint32"; $"u8"; $"uint8"; $"int32"]) then KSigned
  else if bool_decide (ty = $"string") then KText
  else if bool_decide (ty = $"bool") then KBool
  else if bool_decide (ty ∈ [$"bytes"; $"typed_blob"]) then KBytes
  else if bool_decide (ty = $"array") then KArray
  else if bool_decide (ty ∈ [$"unix_ms"; $"time_ms"; $"timestamp_ms"]) then KTime
  else KRaw.

(** The JSON of numbers, labels and bytes under the options. *)
Definition u64_shape (n : N) (j : json) : Prop :=
  match ro_u64_format options with
  | U64Number => j = JNumber (PosInt n)
  | U64String => ∃ s, j = JString s ∧ parse_u64 s = Some n
  end.
Definition i64_json (z : Z) : json := JNumber (if (z <? 0)%Z then NegInt z else PosInt (Z.to_N z)).
Definition enum_shape (num : N) (label : rstr) (j : json) : Prop :=
  match ro_enum_render options with
  | EnumLabel => j = JString label
  | EnumNumber => j = JNumber (PosInt num)
  | EnumBoth => j = JObject [($"label", JString label); ($"value", JNumber (PosInt num))]
  end.
Definition bytes_json (bs : bytes) : json :=
  match ro_bytes_render options with
  | Base64 => JString (base64_encode bs)
  | Hex => JString (hex_encode bs)
  | LenOnly => JNumber (PosInt (len bs))
  end.

(** A value of a kind is shown as such, any other as [null]. *)
Definition scalar_shape (k : Kind) (v : Value) (j : json) : Prop :=
  match k, v with
  | KUnsigned, VInteger i =>
      if decide (0 ≤ i < 18446744073709551616)%Z then u64_shape (Z.to_N i) j else j = JNull
  | KSigned, VInteger i =>
      j = if decide (-9223372036854775808 ≤ i < 9223372036854775808)%Z then i64_json i else JNull
  | KText, VString bs => j = JString (if utf8_valid bs then bs else [])
  | KBool, VBoolean b => j = JBool b
  | KBytes, VBinary bs => j = bytes_json bs
  | KTime, VInteger i =>
      j = if decide (-9223372036854775808 ≤ i < 9223372036854775808)%Z
          then match ro_time_render options with
               | UnixMs => i64_json i
               | Iso => match rfc3339_of_millis i with Some s => JString s | None => JNull end
               end
          else JNull
  | KRaw, _ => j = render_value options v
  | _, _ => j = JNull
  end.

(** The value is a number that the field's enum has a label for; and the field is a reference. *)
Definition labelled (v : Value) (f : FieldSpec) (num : N) (label : rstr) : Prop :=
  v = VInteger (Z.of_N num) ∧ num < U64
  ∧ ∃ e m, fs_enum_ref f = Some e ∧ get_enum registry e = Some m ∧ m !! show_N num = Some label.
Definition refers (f : FieldSpec) (t : rstr) : Prop :=
  fs_type_ref f = Some t ∧ fs_field_type f ∈ [$"ref"; $"map"].

(** [has_type v f j]: [j] shows the value [v] of a field [f]. A label comes before a reference, and
    a reference before the type. An object has the fields of the latest version of its type that the
    value has, each of its type, and the unknown tags when they are asked for. *)
Inductive has_type : Value → FieldSpec → json → Prop :=
| T_enum v f num label j :
    labelled v f num label → enum_shape num label j → has_type v f j
| T_ref v f t j :
    (∀ num label, ¬ labelled v f num label) → refers f t → ref_has_type v t j → has_type v f j
| T_scalar v f j :
    (∀ num label, ¬ labelled v f num label) → (∀ t, ¬ refers f t) →
    kind_of (fs_field_type f) ≠ KArray → scalar_shape (kind_of (fs_field_type f)) v j →
    has_type v f j
| T_array vs f l :
    (∀ num label, ¬ labelled (VArray vs) f num label) → (∀ t, ¬ refers f t) →
    kind_of (fs_field_type f) = KArray → length l = length vs →
    (∀ i x j, vs !! i = Some x → l !! i = Some j → item_has_type (fs_items f) x j) →
    has_type (VArray vs) f (JArray l)
| T_no_array v f :
    (∀ num label, ¬ labelled v f num label) → (∀ t, ¬ refers f t) →
    kind_of (fs_field_type f) = KArray → (∀ vs, v ≠ VArray vs) → has_type v f JNull
with item_has_type : option ItemsSpec → Value → json → Prop :=
| I_simple ty x j : has_type x (dummy_field ty) j → item_has_type (Some (Simple ty)) x j
| I_ref t x j : ref_has_type x t j → item_has_type (Some (Ref t)) x j
| I_any x : item_has_type None x (render_value options x)
with ref_has_type : Value → rstr → json → Prop :=
| R_unregistered v t :
    get_latest_type_version registry t = None → ref_has_type v t (render_value options v)
| R_not_a_map v t spec :
    get_latest_type_version registry t = Some spec → (∀ entries, v ≠ VMap entries) →
    ref_has_type v t (render_value options v)
| R_object v t spec m o :
    get_latest_type_version registry t = Some spec → normalize_tags v = Ok m →
    (∀ tag f x, tvs_fields spec !! tag = Some f → m !! tag = Some x →
       is_Some (obj_get (fs_name f) o)) →
    (ro_include_unknown options = true →
       ∀ tag x, m !! tag = Some x → tvs_fields spec !! tag = None →
       ∃ u, obj_get ($"_unknown") o = Some (JObject u)
         ∧ obj_get (show_N tag) u = Some (render_value options x)) →
    (∀ name j, obj_get name o = Some j →
       (ro_include_unknown options = true ∧ name = $"_unknown" ∧ ∃ u, j = JObject u
          ∧ ∀ n y, obj_get n u = Some y → ∃ tag x, m !! tag = Some x ∧ tvs_fields spec !! tag = None
              ∧ n = show_N tag ∧ y = render_value options x)
       ∨ ∃ tag f x, tvs_fields spec !! tag = Some f ∧ m !! tag = Some x ∧ name = fs_name f
           ∧ has_type x f j) →
    ref_has_type v t (JObject o).

Lemma str_or_empty_eq s : str_or_empty s = if utf8_valid s then s else [].
Proof.
  unfold str_or_empty, utf8_as_str. destruct (from_utf8 s) as [t|] eqn:Hs.
  - by apply from_utf8_Some in Hs as [-> ->].
  - destruct (utf8_valid s) eqn:Hu; [|done]. by rewrite (from_utf8_valid _ Hu) in Hs.
Qed.

Lemma value_to_i64_eq i :
  value_to_i64 (VInteger i)
  = if decide (-9223372036854775808 ≤ i < 9223372036854775808)%Z then Some i else None.
Proof.
  cbn. destruct (int_as_i64 i) as [x|] eqn:Hi.
  - apply int_as_i64_range in Hi as [-> ?]. by rewrite decide_True.
  - assert (Hn : ¬ (-9223372036854775808 ≤ i < 9223372036854775808)%Z).
    { intros Hr. unfold int_as_i64 in Hi. by rewrite (proj2 (Z.leb_le _ _)), (proj2 (Z.ltb_lt _ _)) in Hi by lia. }
    rewrite decide_False by done. destruct (int_as_u64 i) as [u|] eqn:Hu; [|done]. cbn.
    apply int_as_u64_lt in Hu as [Hu ->]. by rewrite (proj2 (N.leb_gt _ _)) by lia.
Qed.

Lemma value_to_u64_eq i :
  value_to_u64 (VInteger i)
  = if decide (0 ≤ i < 18446744073709551616)%Z then Some (Z.to_N i) else None.
Proof.
  cbn [value_to_u64]. rewrite u64_or_i64_eq. unfold int_as_u64. case_decide as Hr.
  - by rewrite (proj2 (Z.leb_le _ _)), (proj2 (Z.ltb_lt _ _)) by lia.
  - destruct (Z.leb_spec 0 i), (Z.ltb_spec i 18446744073709551616); (done || lia).
Qed.

Lemma number_from_i64_eq z : JNumber (number_from_i64 z) = i64_json z.
Proof. unfold number_from_i64, i64_json. by destruct (z <? 0)%Z. Qed.

Lemma render_u64_raw_shape n : n < U64 → u64_shape n (render_u64_raw options n).
Proof.
  intros Hn. unfold u64_shape, render_u64_raw. destruct (ro_u64_format options); [|done].
  eexists. split; [done|]. unfold parse_u64. by rewrite parse_uint_show.
Qed.

Lemma is_one_of_decide s l : is_one_of s l = bool_decide (s ∈ l).
Proof.
  unfold is_one_of. apply eq_true_iff_eq. rewrite existsb_exists, bool_decide_eq_true. split.
  - intros (t & Ht%list_elem_of_In & Hst%bool_decide_eq_true). by subst.
  - intros Hs. exists s. split; [by apply list_elem_of_In|by apply bool_decide_eq_true].
Qed.

(** Values without labels and references have the shape of their kind. *)
Lemma by_type_typed (r : Value → FieldSpec → json) (q : Value → rstr → json) v f :
  (∀ num label, ¬ labelled v f num label) → (∀ t, ¬ refers f t) →
  (∀ x, (value_size x < value_size v)%nat →
     item_has_type (fs_items f) x (render_item options r q (fs_items f) x)) →
  has_type v f (render_by_type options r q v f).
Proof.
  intros Hnl Hnr Hitem. unfold render_by_type. cbv zeta. rewrite !is_one_of_decide.
  assert (Hscalar : ∀ k j, kind_of (fs_field_type f) = k → k ≠ KArray → scalar_shape k v j →
    has_type v f j) by (intros k j <- ??; by apply T_scalar).
  assert (Hone : ∀ s t : rstr, bool_decide (s ∈ [t]) = bool_decide (s = t)).
  { intros s t. apply bool_decide_ext. apply list_elem_of_singleton. }
  rewrite !Hone. assert (Hkind : kind_of (fs_field_type f) = kind_of (fs_field_type f)) by done.
  revert Hkind. unfold kind_of at 2, u64_types, int_types, bytes_types, time_types.
  repeat match goal with |- _ = (if ?b then _ else _) → _ => destruct b; intros Hkind; [|revert Hkind] end.
  - apply (Hscalar _ _ Hkind); [done|]. unfold render_u64. destruct v; try done.
    rewrite value_to_u64_eq. cbn [scalar_shape]. case_decide; [|done]. cbn.
    apply render_u64_raw_shape. lia.
  - apply (Hscalar _ _ Hkind); [done|]. unfold render_int. destruct v; try done.
    rewrite value_to_i64_eq. cbn [scalar_shape]. case_decide; [|done]. apply number_from_i64_eq.
  - apply (Hscalar _ _ Hkind); [done|]. destruct v; try done. cbn. by rewrite str_or_empty_eq.
  - apply (Hscalar _ _ Hkind); [done|]. by destruct v.
  - apply (Hscalar _ _ Hkind); [done|]. by destruct v.
  - unfold render_array. destruct v as [| | | | | | |vs| |]; try (by apply T_no_array; [done..|intros ? [=]]).
    apply T_array; [done..|by rewrite length_map|]. intros i x j Hx Hj.
    rewrite list_lookup_fmap, Hx in Hj. injection Hj as <-. apply Hitem.
    apply list_elem_of_lookup_2, (sum_list_with_elem value_size) in Hx. cbn. lia.
  - apply (Hscalar _ _ Hkind); [done|]. unfold render_time. destruct v; try done.
    rewrite value_to_i64_eq. cbn [scalar_shape]. case_decide; [|done].
    destruct (ro_time_render options); [by destruct (rfc3339_of_millis i)|apply number_from_i64_eq].
  - intros Hkind. by apply (Hscalar _ _ Hkind).
Qed.

Lemma enum_label_labelled v f :
  match enum_label registry v f with
  | Some (num, label) => labelled v f num label
  | None => ∀ num label, ¬ labelled v f num label
  end.
Proof.
  destruct (enum_label registry v f) as [[num label]|] eqn:He; unfold enum_label in He.
  - apply bind_Some in He as (e & He & (n & Hn & (m & Hm & (l & Hl & [= <- <-])%bind_Some)%bind_Some)%bind_Some).
    destruct v; try done. rewrite value_to_u64_eq in Hn. case_decide; [|done]. injection Hn as <-.
    split; [f_equal; lia|]. split; [lia|]. by exists e, m.
  - intros num label (-> & Hlt & e & m & Hf & Hm & Hl). rewrite Hf in He. cbn [mbind option_bind] in He.
    rewrite value_to_u64_eq, decide_True in He by lia. cbn [mbind option_bind] in He.
    rewrite N2Z.id, Hm in He. cbn [mbind option_bind] in He. by rewrite Hl in He.
Qed.

(** The object of a reference. *)
Lemma ref_object_typed v t spec m :
  get_latest_type_version registry t = Some spec → normalize_tags v = Ok m →
  (∀ x f, (value_size x < value_size v)%nat → has_type x f (render_field_value x f)) →
  ref_has_type v t (ref_body options registry render_field_value v t).
Proof.
  intros Hspec Hm Hfield. unfold ref_body. rewrite Hspec, Hm.
  set (data := obj_of (known_fields render_field_value (tvs_fields spec) m)).
  set (unknown := obj_of (unknown_tags options (tvs_fields spec) m)).
  assert (Htags : ∀ tag x, m !! tag = Some x → tag < U64).
  { intros tag x Hx. destruct (normalize_entry _ _ _ _ Hm Hx) as (_ & k & _ & _ & Hk).
    by eapply key_to_tag_lt. }
  assert (Hin : ∀ tag f x, tvs_fields spec !! tag = Some f → m !! tag = Some x →
    is_Some (obj_get (fs_name f) data)).
  { intros tag f x Hf Hx. apply obj_of_is_Some, list_elem_of_fmap.
    exists (fs_name f, render_field_value x f). split; [done|]. apply elem_of_known_fields. eauto 8. }
  assert (Hknown : ∀ name j, obj_get name data = Some j →
    ∃ tag f x, tvs_fields spec !! tag = Some f ∧ m !! tag = Some x ∧ name = fs_name f ∧ has_type x f j).
  { intros name j (tag & f & x & Hf & Hx & -> & ->)%obj_of_Some%elem_of_known_fields.
    exists tag, f, x. split_and!; [done..|]. apply Hfield. by eapply normalize_size. }
  assert (Hunknown : ∀ tag x, m !! tag = Some x → tvs_fields spec !! tag = None →
    obj_get (show_N tag) unknown = Some (render_value options x))
    by (intros tag x Hx Hf; by eapply unknown_tags_get).
  destruct (ro_include_unknown options) eqn:Hu.
  2:{ apply (R_object v t spec m); [done..| |]; [by rewrite Hu|]. intros name j Hj. right. by apply Hknown. }
  cbv zeta. fold unknown. case_bool_decide as Hempty.
  - apply (R_object v t spec m); [done..| |]; [|intros name j Hj; right; by apply Hknown].
    intros _ tag x Hx Hf. specialize (Hunknown tag x Hx Hf).
    destruct unknown; [done|]. by cbn in Hempty.
  - apply (R_object v t spec m); [done..| | |].
    + intros tag f x Hf Hx. rewrite obj_get_insert. case_bool_decide; [done|]. by eapply Hin.
    + intros _ tag x Hx Hf. exists unknown. rewrite obj_get_insert, bool_decide_eq_true_2 by done.
      split; [done|]. by apply Hunknown.
    + intros name j. rewrite obj_get_insert. case_bool_decide; [|right; by apply Hknown].
      intros [= <-]. left. split_and!; [done..|]. exists unknown. split; [done|].
      intros n y (tag & x & Hx & Hf & -> & ->)%obj_of_Some%elem_of_unknown_tags. by exists tag, x.
Qed.

Lemma typed_upto n :
  (∀ v, (value_size v ≤ n)%nat → (∀ f, has_type v f (render_field_value v f))
                                 ∧ ∀ t, ref_has_type v t (render_type_ref v t)).
Proof.
  induction n as [|n IH]; intros v Hn; [destruct v; cbn in Hn; lia|].
  assert (Href : ∀ t, ref_has_type v t (render_type_ref v t)).
  { intros t. rewrite render_type_ref_eq.
    destruct (get_latest_type_version registry t) as [spec|] eqn:Hspec.
    2:{ unfold ref_body. rewrite Hspec. by apply R_unregistered. }
    destruct (normalize_tags v) as [m|] eqn:Hm.
    - eapply ref_object_typed; [done..|]. intros x f Hx. apply IH. lia.
    - unfold ref_body. rewrite Hspec, Hm. eapply R_not_a_map; [done|]. by intros entries ->. }
  split; [|done]. intros f. rewrite render_field_value_eq. unfold field_body.
  pose proof (enum_label_labelled v f) as He.
  destruct (enum_label registry v f) as [[num label]|].
  { eapply T_enum; [done|]. unfold enum_shape, render_enum. by destruct (ro_enum_render options). }
  assert (Hty : (∀ t, ¬ refers f t) →
    has_type v f (render_by_type options render_field_value render_type_ref v f)).
  { intros Hnr. apply by_type_typed; [done..|]. intros x Hx. unfold render_item. destruct (IH x) as [Hf Hr]; [lia|].
    destruct (fs_items f) as [[ty|t]|]; [by apply I_simple|by apply I_ref|apply I_any]. }
  destruct (fs_type_ref f) as [t|] eqn:Ht.
  2:{ apply Hty. intros t [Ht' _]. congruence. }
  rewrite is_one_of_decide. unfold ref_types. case_bool_decide as Hk.
  - eapply T_ref; [done|by split|apply Href].
  - apply Hty. by intros t' [_ Hk'].
Qed.

(** C39. Projection follows the descriptions. Whatever value a field holds, its rendering is the label of
    its number, when the field's enum has one; otherwise, when the field is a reference, an object
    with exactly the fields of the latest version of that type that the value has, each
    rendered by its own description to any depth, and the unknown tags when they are asked for, or the raw
    value when the type is not registered or the value is no map; otherwise the
    JSON of the field's type for a value of that type, with the items of an array in their order, and
    [null] for any other value. Types that the projection does not know are raw. *)
Theorem render_typed v f : has_type v f (render_field_value v f).
Proof. by apply (typed_upto (value_size v)). Qed.

(** ** Integers *)

(** The integer that a client reads from a rendered number. *)
Definition json_int (j : json) : option Z :=
  match j with
  | JNumber (PosInt n) => Some (Z.of_N n)
  | JNumber (NegInt z) => Some z
  | JString s => Z.of_N <$> parse_u64 s
  | _ => None
  end.

Lemma json_int_i64 z : json_int (i64_json z) = Some z.
Proof. unfold i64_json. destruct (Z.ltb_spec z 0); cbn; [done|]. f_equal. lia. Qed.

Lemma json_int_u64 n j : u64_shape n j → json_int j = Some (Z.of_N n).
Proof.
  unfold u64_shape. destruct (ro_u64_format options); [|by intros ->].
  intros (s & -> & Hs). cbn. by rewrite Hs.
Qed.

(** C40. Integers of a field without an enum or a reference, under every option. The types [u64], [uint64], [i64]
    and [int64] alike show an integer of [0, 2^64) as a number or decimal text of the same value and
    any other integer, so every negative one, as [null]. The types [u32], [uint32], [u8], [uint8] and
    [int32] alike show an integer of [-2^63, 2^63) as the number itself, whatever the width of the type
    is, and any other as [null]. *)
Theorem integers_exact i f :
  fs_enum_ref f = None → fs_type_ref f = None →
  (fs_field_type f ∈ [$"u64"; $"uint64"; $"i64"; $"int64"] →
     let j := render_field_value (VInteger i) f in
     if decide (0 ≤ i < 18446744073709551616)%Z then json_int j = Some i else j = JNull)
  ∧ (fs_field_type f ∈ [$"u32"; $"uint32"; $"u8"; $"uint8"; $"int32"] →
     let j := render_field_value (VInteger i) f in
     if decide (-9223372036854775808 ≤ i < 9223372036854775808)%Z
     then json_int j = Some i ∧ (∃ n, j = JNumber n) else j = JNull).
Proof.
  intros He Ht. cbv zeta. rewrite render_field_value_eq. unfold field_body, enum_label. rewrite He, Ht.
  cbn [mbind option_bind]. unfold render_by_type. cbv zeta. rewrite !is_one_of_decide.
  split; intros Hty.
  - rewrite (bool_decide_eq_true_2 _ Hty). unfold render_u64. rewrite value_to_u64_eq.
    case_decide; [|done]. cbn [from_option]. rewrite (json_int_u64 (Z.to_N i)); [f_equal; lia|].
    apply render_u64_raw_shape. lia.
  - assert (Hno : bool_decide (fs_field_type f ∈ u64_types) = false).
    { revert Hty. generalize (fs_field_type f). intros s. rewrite !elem_of_cons, elem_of_nil.
      intros [->|[->|[->|[->|[->|[]]]]]]; reflexivity. }
    rewrite Hno.
    rewrite (bool_decide_eq_true_2 _ Hty). unfold render_int. rewrite value_to_i64_eq.
    destruct (decide (-9223372036854775808 ≤ i < 9223372036854775808)%Z); [|reflexivity].
    cbn [from_option]. rewrite number_from_i64_eq. split; [apply json_int_i64|by eexists].
Qed.
End spec.

Module ProjectionWitness.

#[local] Existing Instances Sample.order Sample.order_laws.
#[local] Instance rendering : Rendering := {|
  base64_encode bs := bs; hex_encode bs := bs; rfc3339_of_millis _ := None |}.

Definition options : RenderOptions := mkRenderOptions Hex U64String EnumLabel UnixMs true.

Definition field (name ty : rstr) (ref : option rstr) (items : option ItemsSpec) : FieldSpec :=
  mkFieldSpec name ty None ref false items.

(** A tree: a node has a balance and children of its own type. *)
Definition node : TypeVersionSpec :=
  mkTypeVersionSpec 1
    (list_to_map [(1, field ($"balance") ($"i64") None None);
                  (2, field ($"children") ($"array") None (Some (Ref ($"Node"))))]) None.
Definition registry : Registry :=
  mkRegistry ∅ ∅ {[$"Node" := mkTypeSpec {[1 := node]} ∅]} ∅ None.

Definition leaf (balance : Z) : Value := VMap [(VInteger 1, VInteger balance); (VInteger 9, VNil)].
Definition tree : Value :=
  VMap [(VInteger 1, VInteger 5); (VString ($"2"), VArray [leaf 7; leaf (-7); VNil])].

#[local] Instance msgpack : Msgpack := λ bs, if decide (bs = $"tree") then Ok tree else Err [].

(** A field of type [i64] is rendered by the code for unsigned integers: -7 is lost. *)
Example negative_i64_is_null :
  pr_data <$> project_msgpack options registry ($"tree") node
  = Ok (JObject
      [($"balance", JString ($"5"));
       ($"children", JArray
          [JObject [($"_unknown", JObject [($"9", JNull)]); ($"balance", JString ($"7"))];
           JObject [($"_unknown", JObject [($"9", JNull)]); ($"balance", JNull)];
           JNull])]).
Proof. by vm_compute. Qed.

Lemma project_complete_witness :
  ∃ data unknown m, project_msgpack options registry ($"tree") node
      = Ok (mkProjectionResult (JObject data) (Some (JObject unknown)))
    ∧ normalize_tags tree = Ok m.
Proof.
  assert (Hnode : ∀ t1 t2 f1 f2, tvs_fields node !! t1 = Some f1 → tvs_fields node !! t2 = Some f2 →
    fs_name f1 = fs_name f2 → t1 = t2).
  { intros t1 t2 f1 f2. cbn [tvs_fields node list_to_map foldr].
    intros [[<- <-]|[_ [[<- <-]|[_ Hx]]%lookup_insert_Some]]%lookup_insert_Some;
      [| |by rewrite lookup_empty in Hx];
      intros [[<- <-]|[_ [[<- <-]|[_ Hx]]%lookup_insert_Some]]%lookup_insert_Some;
      try reflexivity; try (by rewrite lookup_empty in Hx); intros Hn; discriminate Hn. }
  destruct (project_complete options registry ($"tree") node Hnode) as (data & unknown & m & Hp & Hm & _).
  exists data, unknown, m. split; [exact Hp|exact Hm].
Defined.

Lemma render_typed_witness :
  has_type options registry (leaf 7) (field ($"root") ($"ref") (Some ($"Node")) None)
    (JObject [($"_unknown", JObject [($"9", JNull)]); ($"balance", JString ($"7"))]).
Proof. exact (render_typed options registry (leaf 7) (field ($"root") ($"ref") (Some ($"Node")) None)). Defined.

(** The raw value is not a typed rendering of a reference to a registered type. *)
Example raw_reference_is_not_typed :
  ¬ has_type options registry (leaf 7) (field ($"root") ($"ref") (Some ($"Node")) None)
      (render_value options (leaf 7)).
Proof.
  intros Hty. inversion Hty as [? ? ? ? ? Hl|? ? t ? _ [Ht _] Hr|? ? ? _ Hn| |]; subst.
  - by destruct Hl.
  - cbn in Ht. simplify_eq. inversion Hr as [? ? Hg|? ? spec Hg Hm|? ? spec m o Hg Hm _ _ Ho]; subst.
    + done.
    + by eapply Hm.
    + destruct (Ho ($"9") JNull eq_refl) as [(_ & ? & _)|(tag & f & x & Hf & Hx & Hname & _)]; [done|].
      assert (Hnode : Some node = Some spec) by (rewrite <- Hg; reflexivity).
      injection Hnode as <-.
      cbn [tvs_fields node list_to_map foldr] in Hf.
      apply lookup_insert_Some in Hf as [[_ <-]|[_ [[_ <-]|[_ Hf]]%lookup_insert_Some]]; done.
  - eapply (Hn ($"Node")); split; [done|by apply list_elem_of_here].
Qed.

Lemma integers_exact_witness :
  json_int (render_field_value options registry (VInteger 18446744073709551615)
    (field ($"n") ($"u64") None None)) = Some 18446744073709551615%Z
  ∧ render_field_value options registry (VInteger (-1)) (field ($"n") ($"i64") None None) = JNull
  ∧ json_int (render_field_value options registry (VInteger 300)
      (field ($"n") ($"u8") None None)) = Some 300%Z.
Proof.
  split; [|split].
  - apply (proj1 (integers_exact options registry 18446744073709551615
      (field ($"n") ($"u64") None None) eq_refl eq_refl)). by apply list_elem_of_here.
  - apply (proj1 (integers_exact options registry (-1)
      (field ($"n") ($"i64") None None) eq_refl eq_refl)). do 2 apply list_elem_of_further. by apply list_elem_of_here.
  - apply (proj2 (integers_exact options registry 300
      (field ($"n") ($"u8") None None) eq_refl eq_refl)). do 2 apply list_elem_of_further. by apply list_elem_of_here.
Defined.

End ProjectionWitness.
