(* ===== verification/CqlAst.v ===== *)
(** * CqlAst: the syntax of CQL queries

    [server/src/cql/ast.rs], with the numbers of the language: an [f64] is an IEEE 754
    binary64 value of the library [SpecFloat]. *)

From Stdlib Require Import Floats.SpecFloat.
From S2P Require Import Prelude Bytes External.

Open Scope N_scope.

(** ** Binary64 *)

Abbreviation f64 := spec_float.
Definition f64_prec : Z := 53.
Definition f64_emax : Z := 1024.

(** The binary64 nearest to [m * 10^-k], ties to even. *)
Definition f64_of_decimal (negative : bool) (m : N) (k : nat) : f64 :=
  match m with
  | N0 => S754_zero negative
  | Npos p =>
      let '(q, e, l) := SFdiv_core_binary f64_prec f64_emax (Zpos p) 0 (10 ^ Z.of_nat k) 0 in
      match q with
      | Zpos q' => binary_round_aux f64_prec f64_emax negative (Zpos q') e l
      | _ => binary_round_aux f64_prec f64_emax negative 0 e l
      end
  end.

(** [str::parse::<f64>] on what the lexer collects: an optional minus sign, digits, and
    optionally a point and digits. *)
Definition digits_val (s : rstr) : option N :=
  foldl (λ acc b, a ← acc; d ← digit_val b; Some (10 * a + d)) (Some 0) s.

Fixpoint split_point (s : rstr) : rstr * rstr :=
  match s with
  | [] => ([], [])
  | b :: s' => if bool_decide (b = Byte.x2e) then ([], s')
               else let (a, c) := split_point s' in (b :: a, c)
  end.

Definition parse_f64 (s : rstr) : option f64 :=
  let (negative, s) := match s with
                       | b :: s' => if bool_decide (b = Byte.x2d) then (true, s') else (false, s)
                       | [] => (false, s)
                       end in
  let (int, frac) := split_point s in
  if (len (int ++ frac) =? 0) then None
  else m ← digits_val (int ++ frac); Some (f64_of_decimal negative m (length frac)).

(** [n as u64]: towards zero, saturating, 0 for a NaN. *)
Definition f64_as_u64 (x : f64) : N :=
  match x with
  | S754_zero _ => 0
  | S754_nan => 0
  | S754_infinity negative => if negative then 0 else U64 - 1
  | S754_finite negative m e =>
      if negative then 0
      else N.min (U64 - 1) (Z.to_N (if (0 <=? e)%Z then Zpos m * 2 ^ e else Zpos m / 2 ^ (- e)))
  end.

(** ** Expressions *)

Inductive Operator : Type :=
| OpEq | OpNeq | OpStarts | OpEqCi | OpStartsCi | OpGt | OpGte | OpLt | OpLte | OpIn.

#[export] Instance Operator_eq_dec : EqDecision Operator.
Proof. solve_decision. Defined.

(** [{:?}] of an operator. *)
Definition operator_debug (op : Operator) : rstr :=
  match op with
  | OpEq => $"Eq" | OpNeq => $"Neq" | OpStarts => $"Starts" | OpEqCi => $"EqCi"
  | OpStartsCi => $"StartsCi" | OpGt => $"Gt" | OpGte => $"Gte" | OpLt => $"Lt"
  | OpLte => $"Lte" | OpIn => $"In"
  end.

(** [cql::ast::Value]. *)
Inductive CqlValue : Type :=
| CString (value : rstr)
| CNumber (value : f64)
| CDate (value : rstr) (relative : bool)
| CList (values : list CqlValue).

Definition as_string (v : CqlValue) : option rstr :=
  match v with CString s => Some s | CDate s _ => Some s | _ => None end.
Definition as_number (v : CqlValue) : option f64 :=
  match v with CNumber n => Some n | _ => None end.
Definition as_u64 (v : CqlValue) : option N := f64_as_u64 <$> as_number v.
Definition as_list (v : CqlValue) : option (list CqlValue) :=
  match v with CList l => Some l | _ => None end.

Inductive Expression : Type :=
| EAnd (left right : Expression)
| EOr (left right : Expression)
| ENot (inner : Expression)
| EComparison (field : rstr) (operator : Operator) (value : CqlValue).

(** [struct CqlQuery]. *)
Record CqlQuery : Type := mkCqlQuery { cq_raw : rstr; cq_ast : Expression }.

(** ** Field names *)

Inductive FieldName : Type :=
| FId | FTag | FTitle | FLabel | FUser | FService | FHost | FTraceId | FParent | FRoot
| FCreated | FDepth | FIsLive.

#[export] Instance FieldName_eq_dec : EqDecision FieldName.
Proof. solve_decision. Defined.

(** [FieldName::as_str]. *)
Definition field_as_str (f : FieldName) : rstr :=
  match f with
  | FId => $"id" | FTag => $"tag" | FTitle => $"title" | FLabel => $"label" | FUser => $"user"
  | FService => $"service" | FHost => $"host" | FTraceId => $"trace_id"
  | FParent => $"parent" | FRoot => $"root" | FCreated => $"created" | FDepth => $"depth"
  | FIsLive => $"is_live"
  end.

(** [FieldName::all]. *)
Definition field_all : list FieldName :=
  [FId; FTag; FTitle; FLabel; FUser; FService; FHost; FTraceId; FParent; FRoot; FCreated;
   FDepth; FIsLive].

(** [FieldName::from_str]. *)
Definition field_from_str (s : rstr) : option FieldName :=
  if bool_decide (s = $"id") then Some FId
  else if bool_decide (s = $"tag") then Some FTag
  else if bool_decide (s = $"title") then Some FTitle
  else if bool_decide (s = $"label") then Some FLabel
  else if bool_decide (s = $"user") then Some FUser
  else if bool_decide (s = $"service") then Some FService
  else if bool_decide (s = $"host") then Some FHost
  else if bool_decide (s = $"trace_id") then Some FTraceId
  else if bool_decide (s = $"parent") then Some FParent
  else if bool_decide (s = $"root") then Some FRoot
  else if bool_decide (s = $"created") then Some FCreated
  else if bool_decide (s = $"depth") then Some FDepth
  else if bool_decide (s = $"is_live") then Some FIsLive
  else None.

Lemma field_from_as_str f : field_from_str (field_as_str f) = Some f.
Proof. by destruct f. Qed.

Lemma field_from_str_Some s f : field_from_str s = Some f ↔ s = field_as_str f.
Proof.
  split; [|intros ->; apply field_from_as_str].
  unfold field_from_str. intros Hf.
  repeat (case_bool_decide; [by simplify_eq|]). done.
Qed.

(** ** Errors *)

Inductive CqlErrorType : Type := SyntaxError | UnknownField | InvalidOperator | InvalidValue.

Record Position : Type := mkPosition { pos_line : N; pos_column : N; pos_offset : N }.

Record CqlError : Type := mkCqlError {
  ce_type : CqlErrorType;
  ce_message : rstr;
  ce_position : option Position;
  ce_field : option rstr
}.

(** [impl Display for CqlError]. *)
Definition cql_error_fmt (e : CqlError) : rstr :=
  match ce_position e with
  | Some pos => ce_message e ++ $" (line " ++ show_N (pos_line pos) ++ $", column "
                  ++ show_N (pos_column pos) ++ $")"
  | None => ce_message e
  end.

(** ** Small integers are exact *)

Example f64_examples :
  parse_f64 ($"0.1") = Some (S754_finite false 7205759403792794 (-56))
  ∧ parse_f64 ($"-12.") = Some (S754_finite true 6755399441055744 (-49))
  ∧ f64_as_u64 (f64_of_decimal false 9007199254740991 0) = 9007199254740991
  ∧ f64_as_u64 (f64_of_decimal false 9007199254740993 0) = 9007199254740992
  ∧ f64_as_u64 (f64_of_decimal false 123456789 2) = 1234567
  ∧ f64_as_u64 (f64_of_decimal false (10 ^ 30) 0) = 18446744073709551615.
Proof. by vm_compute. Qed.
