(* ===== verification/ServerConfig.v ===== *)
(** * ServerConfig: what the server reads from its environment

    [server/src/config.rs], [S3SyncConfig::from_env] of [server/src/s3_sync.rs] and
    [MetricsConfig::from_env] of [server/src/metrics.rs]. A variable that is not set, or whose
    value is not Unicode, is absent from the environment. *)

From Stdlib Require Import Floats.SpecFloat.
From S2P Require Import Prelude Bytes External CqlAst.

Open Scope N_scope.

(** [std::env::var(..).ok()]. *)
Class Env : Type := env_var : rstr → option rstr.

(** [.ok().and_then(|v| v.parse().ok()).unwrap_or(default)] at [u64] and [usize]. *)
Definition env_u64 `{Env} (key : rstr) (default_value : N) : N :=
  default default_value (env_var key ≫= parse_u64).

(** [str::parse::<f64>]: a sign, then infinity, not a number, or digits with a point and an
    exponent. *)
Definition split_exponent (s : rstr) : rstr * option rstr :=
  (fix go s := match s with
               | [] => ([], None)
               | b :: s =>
                   if bool_decide (b = Byte.x65 ∨ b = Byte.x45) then ([], Some s)
                   else let (a, e) := go s in (b :: a, e)
               end) s.

(** The sign of a number, and what follows it. *)
Definition split_sign (s : rstr) : bool * rstr :=
  match s with
  | b :: s' =>
      if bool_decide (b = Byte.x2d) then (true, s')
      else if bool_decide (b = Byte.x2b) then (false, s') else (false, s)
  | [] => (false, s)
  end.

Definition parse_exponent (e : option rstr) : option Z :=
  match e with
  | None => Some 0%Z
  | Some s =>
      let (negative, digits) := split_sign s in
      if bool_decide (digits = []) then None
      else n ← digits_val digits; Some (if negative then - Z.of_N n else Z.of_N n)%Z
  end.

(** [m * 10^e]. *)
Definition f64_of_scientific (negative : bool) (m : N) (e : Z) : f64 :=
  if (e <? 0)%Z then f64_of_decimal negative m (Z.to_nat (- e))
  else f64_of_decimal negative (m * 10 ^ Z.to_N e) 0.

Definition f64_from_str (s : rstr) : option f64 :=
  let (negative, s) := split_sign s in
  let lower := map ascii_lower s in
  if bool_decide (lower = $"inf" ∨ lower = $"infinity") then Some (S754_infinity negative)
  else if bool_decide (lower = $"nan") then Some S754_nan
  else
    let (mantissa, e) := split_exponent s in
    let (int, frac) := split_point mantissa in
    if bool_decide (int ++ frac = []) then None
    else
      m ← digits_val (int ++ frac);
      e ← parse_exponent e;
      Some (f64_of_scientific negative m (e - Z.of_nat (length frac))).

Definition env_f64 `{Env} (key : rstr) (default_value : f64) : f64 :=
  default default_value (env_var key ≫= f64_from_str).

(** ** The server ([config.rs]) *)

Record Config : Type := mkConfig {
  cf_data_dir : rstr;
  cf_bind_addr : rstr;
  cf_http_bind_addr : rstr;
  cf_max_connections : N;
  cf_connection_read_timeout_secs : N;
  cf_connection_write_timeout_secs : N
}.

Definition config_from_env `{Env} : Config := {|
  cf_data_dir := default ($"./data") (env_var ($"CXDB_DATA_DIR"));
  cf_bind_addr := default ($"127.0.0.1:9009") (env_var ($"CXDB_BIND"));
  cf_http_bind_addr := default ($"127.0.0.1:9010") (env_var ($"CXDB_HTTP_BIND"));
  cf_max_connections := env_u64 ($"CXDB_MAX_CONNECTIONS") 512;
  cf_connection_read_timeout_secs := env_u64 ($"CXDB_CONNECTION_READ_TIMEOUT_SECS") 300;
  cf_connection_write_timeout_secs := env_u64 ($"CXDB_CONNECTION_WRITE_TIMEOUT_SECS") 30
|}.

(** ** The copy in S3 ([s3_sync.rs]) *)

Record S3SyncConfig : Type := mkS3SyncConfig {
  sc_bucket : rstr;
  sc_prefix : rstr;
  sc_region : rstr;
  sc_sync_interval_secs : N;
  sc_enabled : bool
}.

Definition s3_enabled `{Env} `{Unicode} : bool :=
  match env_var ($"CXDB_S3_SYNC_ENABLED") with
  | Some v => bool_decide (v = $"1") || bool_decide (to_lowercase v = $"true")
  | None => false
  end.

Definition s3_config_from_env `{Env} `{Unicode} : option S3SyncConfig :=
  if negb s3_enabled then None
  else
    bucket ← env_var ($"CXDB_S3_BUCKET");
    Some {|
      sc_bucket := bucket;
      sc_prefix := default [] (env_var ($"CXDB_S3_PREFIX"));
      sc_region := default ($"us-west-2") (env_var ($"CXDB_S3_REGION"));
      sc_sync_interval_secs := env_u64 ($"CXDB_S3_SYNC_INTERVAL_SECS") 60;
      sc_enabled := true
    |}.

(** ** The metrics ([metrics.rs]) *)

Record MetricsConfig : Type := mkMetricsConfig {
  mc_budget_pct : f64;
  mc_hard_cap_bytes : N;
  mc_warn_ratio : f64;
  mc_hot_ratio : f64;
  mc_critical_ratio : f64;
  mc_idle_seconds : N
}.

(** [f64::clamp]; what is not a number is left as it is. *)
Definition f64_clamp (x lo hi : f64) : f64 :=
  let x := if SFltb x lo then lo else x in
  if SFltb hi x then hi else x.

(** A literal of the source. *)
Definition f64_literal (s : rstr) : f64 := default S754_nan (f64_from_str s).

Definition metrics_config_from_env `{Env} : MetricsConfig := {|
  mc_budget_pct :=
    f64_clamp (env_f64 ($"CXDB_METRICS_BUDGET_PCT") (f64_literal ($"0.70")))
      (f64_literal ($"0.10")) (f64_literal ($"0.85"));
  mc_hard_cap_bytes := env_u64 ($"CXDB_METRICS_HARD_CAP_BYTES") (24 * 1024 * 1024 * 1024);
  mc_warn_ratio :=
    f64_clamp (env_f64 ($"CXDB_METRICS_WARN_RATIO") (f64_literal ($"0.60")))
      (f64_literal ($"0.10")) (f64_literal ($"0.95"));
  mc_hot_ratio :=
    f64_clamp (env_f64 ($"CXDB_METRICS_HOT_RATIO") (f64_literal ($"0.80")))
      (f64_literal ($"0.10")) (f64_literal ($"0.98"));
  mc_critical_ratio :=
    f64_clamp (env_f64 ($"CXDB_METRICS_CRITICAL_RATIO") (f64_literal ($"0.92")))
      (f64_literal ($"0.10")) (f64_literal ($"0.999"));
  mc_idle_seconds := env_u64 ($"CXDB_METRICS_IDLE_SECONDS") 60
|}.

(** ** Values *)

Example defaults_of_an_empty_environment :
  let env : Env := λ _, None in
  cf_max_connections config_from_env = 512
  ∧ cf_bind_addr config_from_env = $"127.0.0.1:9009"
  ∧ SFltb (mc_warn_ratio metrics_config_from_env) (mc_hot_ratio metrics_config_from_env) = true
  ∧ SFltb (mc_hot_ratio metrics_config_from_env) (mc_critical_ratio metrics_config_from_env) = true.
Proof. by vm_compute. Qed.

Example f64_from_str_values :
  f64_from_str ($"+1.25e1") = f64_from_str ($"12.5")
  ∧ f64_from_str ($"25E-2") = f64_from_str ($".25")
  ∧ f64_from_str ($"-Infinity") = Some (S754_infinity true)
  ∧ f64_from_str ($"1.2.3") = None ∧ f64_from_str ($"e5") = None.
Proof. by vm_compute. Qed.

(** A ratio that is not a number passes the bounds: no comparison with it holds. *)
Example nan_is_not_clamped :
  let env : Env := λ k, if bool_decide (k = $"CXDB_METRICS_WARN_RATIO") then Some ($"NaN") else None in
  mc_warn_ratio metrics_config_from_env = S754_nan.
Proof. by vm_compute. Qed.
