(* ===== verification/S3Sync.v ===== *)
(** * S3Sync: the copy of the data directory in S3

    [server/src/s3_sync.rs]: the files of the stores and of the registry are uploaded
    when they have grown since the last time, and downloaded again when the server starts without
    data. The local files and the bucket are an interface, [SyncWorld]: the
    server writes its files while a copy is made, so that any call may find them changed. *)

From S2P Require Import Prelude Bytes External Json JsonCodec FsTree Registry ServerConfig.

Open Scope N_scope.

(** ** The world *)

(** Why [get_object] fails: [is_no_such_key], or another error of the service. *)
Inductive GetError : Type :=
| NoSuchKey
| ServiceError (text : rstr).

(** [std::fs] on the data directory, the four calls of [aws_sdk_s3], and the clock. The content of an
    object is what [collect] gives, which can fail in its turn. *)
Class SyncWorld (W : Type) : Type := {
  path_exists : rstr → W → bool * W;
  file_len : rstr → W → result io_kind N * W;
  file_read : rstr → W → result io_kind bytes * W;
  file_write : rstr → bytes → W → result io_kind unit * W;
  create_dir_all : rstr → W → result io_kind unit * W;
  list_dir : rstr → W → result io_kind (list (result io_kind bytes)) * W;
  put_object : rstr → rstr → bytes → rstr → W → result rstr unit * W;
  get_object : rstr → rstr → W → result GetError (result rstr bytes) * W;
  list_objects_v2 : rstr → rstr → W → result rstr (option (list (option rstr))) * W;
  unix_secs : W → N * W
}.

(** The text that [serde_json] writes for a person, and that of its errors. *)
Class PrettyText : Type := {
  json_to_pretty : json → bytes;
  json_error_text : DecodeError → rstr
}.

(** ** Computations on a world that can fail *)

Definition IO (W A : Type) : Type := W → result StoreError A * W.

#[export] Instance IO_ret {W} : MRet (IO W) := λ A a w, (Ok a, w).
#[export] Instance IO_bind {W} : MBind (IO W) := λ A B f m w,
  match m w with
  | (Ok a, w) => f a w
  | (Err e, w) => (Err e, w)
  end.

Section io.
Context {W : Type}.

(** The [?] of an [io::Error], [StoreError::Io(std::io::Error::other(..))], a call that does not
    fail, and a call whose result is looked at. *)
Definition io {A} (m : W → result io_kind A * W) : IO W A :=
  λ w, let (r, w) := m w in (map_err Io r, w).
Definition other {E A} (m : W → result E A * W) : IO W A :=
  λ w, let (r, w) := m w in (map_err (λ _, Io OtherIo) r, w).
Definition total {A} (m : W → A * W) : IO W A := λ w, let (a, w) := m w in (Ok a, w).
Definition attempt {A} (m : IO W A) : IO W (result StoreError A) := total m.
Definition fail {A} (e : StoreError) : IO W A := λ w, (Err e, w).

(** A loop that stops at the first error. *)
Fixpoint fold_io {A S} (f : S → A → IO W S) (l : list A) (s : S) : IO W S :=
  match l with
  | [] => mret s
  | a :: l => s ← f s a; fold_io f l s
  end.
End io.

(** ** The state of the copy *)

(** [SyncState] and [S3Manifest] with their derived codecs. *)
Record SyncState : Type := mkSyncState {
  sy_file_sizes : gmap rstr N;
  sy_last_sync_time : N
}.
Definition sync_state_default : SyncState := mkSyncState ∅ 0.

Record S3Manifest : Type := mkS3Manifest {
  mf_files : gmap rstr N;
  mf_created_at : N;
  mf_version : N
}.

Definition sizes_json (m : gmap rstr N) : json :=
  object (map (λ '(path, size), (path, json_nat size)) (map_to_list m)).
Definition state_json (st : SyncState) : json :=
  object [($"file_sizes", sizes_json (sy_file_sizes st));
          ($"last_sync_time", json_nat (sy_last_sync_time st))].
Definition manifest_json (m : S3Manifest) : json :=
  object [($"files", sizes_json (mf_files m)); ($"created_at", json_nat (mf_created_at m));
          ($"version", json_nat (mf_version m))].

Definition de_uint (bound : N) (j : json) : option N :=
  match j with
  | JNumber (PosInt n) => if n <? bound then Some n else None
  | _ => None
  end.
Definition de_sizes (j : json) : option (gmap rstr N) :=
  match j with
  | JObject o => list_to_map <$> mapM (λ '(path, size), (path,.) <$> de_uint U64 size) o
  | _ => None
  end.

(** A field without a default. *)
Definition de_required {A} (de : json → option A) (f : rstr * option json)
    : result DecodeError A :=
  match f.2 with
  | Some j => ok_or (DataOf f.1) (de j)
  | None => Err (DataOf f.1)
  end.

Definition state_from_json (j : json) : result DecodeError SyncState :=
  fields ← struct_fields [$"file_sizes"; $"last_sync_time"] j;
  match fields with
  | [sizes; time] =>
      sizes ← de_required de_sizes sizes;
      time ← de_required (de_uint U64) time;
      Ok (mkSyncState sizes time)
  | _ => Err NotStruct
  end.
Definition manifest_from_json (j : json) : result DecodeError S3Manifest :=
  fields ← struct_fields [$"files"; $"created_at"; $"version"] j;
  match fields with
  | [files; created; version] =>
      files ← de_required de_sizes files;
      created ← de_required (de_uint U64) created;
      version ← de_required (de_uint U32) version;
      Ok (mkS3Manifest files created version)
  | _ => Err NotStruct
  end.

(** [serde_json::from_str] and [from_slice] into a struct. *)
Definition read_json `{JsonText} {A} (de : json → result DecodeError A) (bs : bytes)
    : result DecodeError A :=
  j ← map_err SyntaxOf (json_parse bs); de j.

Definition SYNC_FILES : list rstr :=
  [$"blobs/blobs.pack"; $"blobs/blobs.idx"; $"turns/turns.log"; $"turns/turns.idx";
   $"turns/turns.meta"; $"turns/heads.tbl"].

(** [Path::parent], for a path without empty or dot components at its end. *)
Definition parent (p : rstr) : option rstr :=
  let p := trim_end_byte slash p in
  if bool_decide (p = []) then None
  else
    let name := default [] (last (split_slash p)) in
    let dir := take (length p - length name) p in
    Some (if bool_decide (trim_end_byte slash dir = []) then dir else trim_end_byte slash dir).

Example parent_values :
  parent ($"./data/blobs/blobs.pack") = Some ($"./data/blobs") ∧ parent ($"/data") = Some ($"/")
  ∧ parent ($"a") = Some [] ∧ parent ($"/") = None.
Proof. by vm_compute. Qed.

(** ** The operations *)

Section S3Sync.
Context `{JsonText} `{PrettyText} `{HashOrder} {W : Type} `{!SyncWorld W}.
Variables (config : S3SyncConfig) (data_dir : rstr).

Definition state_path : rstr := path_join data_dir ($"sync_state.json").

(** [SyncState::load]: an unreadable or foreign file is an empty state. *)
Definition load_state : W → SyncState * W := λ w,
  let (data, w) := file_read state_path w in
  (match data with
   | Ok data =>
       if utf8_valid data
       then match read_json state_from_json data with Ok st => st | Err _ => sync_state_default end
       else sync_state_default
   | Err _ => sync_state_default
   end, w).
Definition save_state (st : SyncState) : IO W unit :=
  io (file_write state_path (json_to_pretty (state_json st))).

Definition s3_key (relative_path : rstr) : rstr :=
  if bool_decide (sc_prefix config = []) then relative_path
  else trim_end_byte slash (sc_prefix config) ++ $"/" ++ relative_path.

Definition fetch_manifest : IO W (option S3Manifest) := λ w,
  match get_object (sc_bucket config) (s3_key ($"sync_manifest.json")) w with
  | (Ok body, w) =>
      (match body with
       | Err _ => Err (Io OtherIo)
       | Ok bs => Some <$> map_err (λ e, Corrupt ($"Invalid manifest: " ++ json_error_text e))
                             (read_json manifest_from_json bs)
       end, w)
  | (Err NoSuchKey, w) => (Ok None, w)
  | (Err (ServiceError _), w) => (Err (Io OtherIo), w)
  end.

Definition upload_manifest (state : SyncState) : IO W unit :=
  created_at ← total unix_secs;
  other (put_object (sc_bucket config) (s3_key ($"sync_manifest.json"))
    (json_to_pretty (manifest_json (mkS3Manifest (sy_file_sizes state) created_at 1)))
    ($"application/json")).

Definition upload_file (local_path relative_path : rstr) : IO W unit :=
  data ← io (file_read local_path);
  other (put_object (sc_bucket config) (s3_key relative_path) data ($"application/octet-stream")).

Definition download_file (relative_path local_path : rstr) : IO W N :=
  body ← other (get_object (sc_bucket config) (s3_key relative_path));
  data ← other (λ w, (body, w));
  _ ← io (file_write local_path data);
  mret (len data).

(** ** A copy *)

Record Progress : Type := mkProgress {
  pg_state : SyncState;
  pg_files_synced : N;
  pg_bytes_synced : N
}.

Definition record_size (path : rstr) (size : N) (state : SyncState) : SyncState :=
  mkSyncState (<[path := size]> (sy_file_sizes state)) (sy_last_sync_time state).
Definition recorded_size (state : SyncState) (path : rstr) : N :=
  default 0 (sy_file_sizes state !! path).

(** The body of the loop of [do_sync] over the tracked files. *)
Definition sync_file (pg : Progress) (relative_path : rstr) : IO W Progress :=
  let local_path := path_join data_dir relative_path in
  present ← total (path_exists local_path);
  if negb present then mret pg
  else
    current_size ← io (file_len local_path);
    let last_size := recorded_size (pg_state pg) relative_path in
    if last_size <? current_size then
      r ← attempt (upload_file local_path relative_path);
      mret match r with
           | Ok _ =>
               mkProgress (record_size relative_path current_size (pg_state pg))
                 (pg_files_synced pg + 1)
                 (wrap64 (pg_bytes_synced pg + (current_size - last_size)))
           | Err _ => pg
           end
    else mret pg.

(** The body of the loop of [sync_registry] over the entries of the directory. *)
Definition sync_bundle (registry_dir : rstr) (s : SyncState * N) (entry : result io_kind bytes)
    : IO W (SyncState * N) :=
  name ← io (λ w, (entry, w));
  if bool_decide (extension name = Some ($"json")) then
    let path := path_join registry_dir name in
    let relative_path := $"registry/" ++ from_utf8_lossy name in
    current_size ← io (file_len path);
    if current_size =? recorded_size s.1 relative_path then mret s
    else
      _ ← upload_file path relative_path;
      mret (record_size relative_path current_size s.1, s.2 + 1)
  else mret s.

Definition sync_registry (state : SyncState) : IO W (SyncState * N) :=
  let registry_dir := path_join data_dir ($"registry") in
  present ← total (path_exists registry_dir);
  if negb present then mret (state, 0)
  else
    entries ← io (list_dir registry_dir);
    fold_io (sync_bundle registry_dir) entries (state, 0).

Definition do_sync : IO W unit :=
  state ← total load_state;
  pg ← fold_io sync_file SYNC_FILES (mkProgress state 0 0);
  '(state, registry_synced) ← sync_registry (pg_state pg);
  if (0 <? pg_files_synced pg) || (0 <? registry_synced) then
    _ ← upload_manifest state;
    now ← total unix_secs;
    save_state (mkSyncState (sy_file_sizes state) now)
  else mret tt.

(** ** Restoring *)

(** The body of the loop over the manifest. A failed download is only reported. *)
Definition restore_file (_ : unit) (file : rstr * N) : IO W unit :=
  let local_path := path_join data_dir file.1 in
  _ ← match parent local_path with
      | Some dir => io (create_dir_all dir)
      | None => mret tt
      end;
  _ ← attempt (download_file file.1 local_path);
  mret tt.

(** The path of an object below the data directory. *)
Definition relative_of_key (key : rstr) : rstr :=
  if bool_decide (sc_prefix config = []) then key
  else default key (strip_prefix key (trim_end_byte slash (sc_prefix config) ++ $"/")).

Definition restore_object (_ : unit) (key : option rstr) : IO W unit :=
  match key with
  | None => mret tt
  | Some key =>
      let relative_path := relative_of_key key in
      _ ← attempt (download_file relative_path (path_join data_dir relative_path));
      mret tt
  end.

Definition restore_registry : IO W unit :=
  _ ← io (create_dir_all (path_join data_dir ($"registry")));
  contents ← other (list_objects_v2 (sc_bucket config) (s3_key ($"registry/")));
  fold_io restore_object (default [] contents) tt.

(** [SYNC_FILES.iter().any(..)]. *)
Fixpoint any_exists (files : list rstr) : W → bool * W :=
  match files with
  | [] => λ w, (false, w)
  | f :: files => λ w,
      let (present, w) := path_exists (path_join data_dir f) w in
      if present : bool then (true, w) else any_exists files w
  end.

Definition maybe_restore : IO W bool :=
  has_local_data ← total (any_exists SYNC_FILES);
  if has_local_data : bool then mret false
  else
    manifest ← attempt fetch_manifest;
    match manifest with
    | Ok (Some manifest) =>
        _ ← fold_io restore_file (hash_iter (mf_files manifest)) tt;
        _ ← attempt restore_registry;
        mret true
    | Ok None | Err _ => mret false
    end.

(** ** The background task *)

(** What [select!] takes up: a tick of the interval, or a change of the flag to a value. *)
Inductive SyncEvent : Type :=
| Tick
| Changed (shutdown : bool).

(** [sync_loop] on the events so far: the task goes on, has ended, or panicked, because
    [interval] takes no period of zero. *)
Inductive LoopEnd : Type := Running | Ended | Panicked.

Fixpoint sync_events (events : list SyncEvent) (w : W) : LoopEnd * W :=
  match events with
  | [] => (Running, w)
  | Tick :: events => sync_events events (do_sync w).2
  | Changed false :: events => sync_events events w
  | Changed true :: _ => (Ended, (do_sync w).2)
  end.

Definition sync_loop (events : list SyncEvent) (w : W) : LoopEnd * W :=
  if sc_sync_interval_secs config =? 0 then (Panicked, w) else sync_events events w.

End S3Sync.
