(* ===== verification/S3SyncSpec.v ===== *)
(** * S3SyncSpec: what a copy in S3 holds

    The invariant of the copy, what a copy covers while the server goes on writing, and that
    restoring gives back what was covered. *)

From S2P Require Import Prelude Bytes External Json JsonCodec FsTree FsTreeSpec Registry ServerConfig S3Sync.

Open Scope N_scope.

(** ** The codecs read what they write *)

Class PrettyLaws `{JsonText} `{PrettyText} : Prop := {
  pretty_parse j : json_plain j → json_parse (json_to_pretty j) = Ok j;
  pretty_utf8 j : json_plain j → utf8_valid (json_to_pretty j) = true
}.

(** Sizes that a file can have, under paths of UTF-8. *)
Definition sizes_ok (m : gmap rstr N) : Prop := map_Forall (λ p n, utf8_valid p = true ∧ n < U64) m.

Definition sizes_entries (m : gmap rstr N) : list (rstr * json) :=
  map (λ '(path, size), (path, json_nat size)) (map_to_list m).

Lemma sizes_entries_lookup m p : obj_get p (obj_of (sizes_entries m)) = json_nat <$> m !! p.
Proof.
  assert (Hfst : (sizes_entries m).*1 = (map_to_list m).*1).
  { unfold sizes_entries. induction (map_to_list m) as [|[k v] l IH]; [done|]. cbn. by f_equal. }
  destruct (m !! p) as [n|] eqn:Hp; cbn.
  - apply obj_of_NoDup.
    + rewrite Hfst. apply NoDup_fst_map_to_list.
    + apply list_elem_of_In, in_map_iff. exists (p, n). split; [done|].
      by apply list_elem_of_In, elem_of_map_to_list.
  - apply eq_None_not_Some. rewrite obj_of_is_Some, Hfst. intros [[k v] [-> Hin]]%list_elem_of_fmap.
    apply elem_of_map_to_list in Hin. cbn in Hp. congruence.
Qed.

Lemma de_sizes_lookup (o : list (rstr * json)) (g : json → option N) :
  (∀ p v, (p, v) ∈ o → is_Some (g v)) →
  ∃ l, mapM (λ '(path, size), (path,.) <$> g size) o = Some l
    ∧ ∀ p, (list_to_map l : gmap rstr N) !! p = obj_get p o ≫= g.
Proof.
  induction o as [|[k v] o IH]; intros Hg; [by exists []|].
  destruct (Hg k v ltac:(left)) as [n Hn].
  destruct IH as (l & Hl & Hlook); [intros; eapply Hg; by right|].
  exists ((k, n) :: l). split.
  { cbn in Hl |- *. by rewrite Hn, Hl. }
  intros p. cbn [list_to_map foldr obj_get]. case_bool_decide as Hpk.
  - subst. cbn. by rewrite lookup_insert_eq.
  - cbn. rewrite lookup_insert_ne by congruence. apply Hlook.
Qed.

Lemma de_uint_nat bound n : n < bound → de_uint bound (json_nat n) = Some n.
Proof. intros Hn. cbn. by rewrite (proj2 (N.ltb_lt _ _) Hn). Qed.

Lemma elem_of_sizes m p v : sizes_ok m → (p, v) ∈ obj_of (sizes_entries m) →
  ∃ n, v = json_nat n ∧ m !! p = Some n ∧ utf8_valid p = true ∧ n < U64.
Proof.
  intros Hm Hin. apply obj_of_NoDup in Hin; [|apply obj_sorted_NoDup, obj_of_sorted].
  rewrite (obj_of_id (obj_of _)), sizes_entries_lookup in Hin by apply obj_of_sorted. destruct (m !! p) as [n|] eqn:Hp; [|done].
  injection Hin as <-. exists n. by destruct (Hm p n Hp).
Qed.

Lemma de_sizes_json m : sizes_ok m → de_sizes (sizes_json m) = Some m.
Proof.
  intros Hm. unfold sizes_json, object, de_sizes. fold (sizes_entries m).
  destruct (de_sizes_lookup (obj_of (sizes_entries m)) (de_uint U64)) as (l & -> & Hl).
  { intros p v (n & -> & _ & _ & Hn)%elem_of_sizes; [|done]. rewrite de_uint_nat by done. eauto. }
  cbn. f_equal. apply map_eq. intros p. rewrite Hl, sizes_entries_lookup.
  destruct (m !! p) as [n|] eqn:Hp; [|done]. cbn [fmap option_fmap option_map mbind option_bind].
  apply de_uint_nat. by destruct (Hm p n Hp).
Qed.

Lemma sizes_plain m : sizes_ok m → json_plain (sizes_json m).
Proof.
  intros Hm. apply object_plain. fold (sizes_entries m). apply Forall_forall.
  intros [p v] [[q n] [[= -> ->] Hin]]%list_elem_of_fmap. apply elem_of_map_to_list in Hin.
  by destruct (Hm _ _ Hin).
Qed.

Definition state_ok (st : SyncState) : Prop :=
  sizes_ok (sy_file_sizes st) ∧ sy_last_sync_time st < U64.
Definition manifest_ok (m : S3Manifest) : Prop :=
  sizes_ok (mf_files m) ∧ mf_created_at m < U64 ∧ mf_version m < U32.

Section codecs.
Context `{PrettyLaws}.

Lemma read_state_written st : state_ok st →
  utf8_valid (json_to_pretty (state_json st)) = true
  ∧ read_json state_from_json (json_to_pretty (state_json st)) = Ok st.
Proof.
  intros [Hs Ht]. pose proof (sizes_plain _ Hs) as Hp.
  assert (Hplain : json_plain (state_json st)).
  { apply object_plain. do 2 (apply Forall_cons; split; [by split|]). constructor. }
  split; [by apply pretty_utf8|]. unfold read_json. rewrite pretty_parse by done. cbn [map_err mbind result_bind].
  unfold state_from_json.
  change (struct_fields _ (state_json st)) with (Ok (E:=DecodeError)
    [($"file_sizes", Some (sizes_json (sy_file_sizes st)));
     ($"last_sync_time", Some (json_nat (sy_last_sync_time st)))]).
  cbn [mbind result_bind]. unfold de_required. cbn [fst snd].
  rewrite de_sizes_json, de_uint_nat by done. by destruct st.
Qed.

Lemma read_manifest_written m : manifest_ok m →
  read_json manifest_from_json (json_to_pretty (manifest_json m)) = Ok m.
Proof.
  intros (Hs & Ht & Hv). pose proof (sizes_plain _ Hs) as Hp.
  assert (Hplain : json_plain (manifest_json m)).
  { apply object_plain. do 2 (apply Forall_cons; split; [by split|]).
    apply Forall_singleton. split; [done|]. cbn. lia. }
  unfold read_json. rewrite pretty_parse by done. cbn [map_err mbind result_bind].
  unfold manifest_from_json.
  change (struct_fields _ (manifest_json m)) with (Ok (E:=DecodeError)
    [($"files", Some (sizes_json (mf_files m))); ($"created_at", Some (json_nat (mf_created_at m)));
     ($"version", Some (json_nat (mf_version m)))]).
  cbn [mbind result_bind]. unfold de_required. cbn [fst snd].
  rewrite de_sizes_json, !de_uint_nat by done. by destruct m.
Qed.
End codecs.

(** ** A small logic for computations that can fail *)

Section hoare.
Context {W : Type}.

(** From [P] a computation ends in [Q], or with an error in [E]. *)
Definition hoare {A} (P : W → Prop) (m : IO W A) (Q : A → W → Prop) (E : W → Prop) : Prop :=
  ∀ w, P w → match m w with (Ok a, w') => Q a w' | (Err _, w') => E w' end.

Lemma hoare_ret {A} (a : A) P (Q : A → W → Prop) E : (∀ w, P w → Q a w) → hoare P (mret a) Q E.
Proof. intros HQ w Hw. by apply HQ. Qed.

Lemma hoare_bind {A B} P (m : IO W A) R (f : A → IO W B) Q E :
  hoare P m R E → (∀ a, hoare (R a) (f a) Q E) → hoare P (m ≫= f) Q E.
Proof.
  intros Hm Hf w Hw. unfold mbind, IO_bind. specialize (Hm w Hw).
  destruct (m w) as [[a|e] w']; [|done]. by apply Hf.
Qed.

Lemma hoare_weaken {A} (P P' : W → Prop) (m : IO W A) (Q Q' : A → W → Prop) (E E' : W → Prop) :
  hoare P m Q E → (∀ w, P' w → P w) → (∀ a w, Q a w → Q' a w) → (∀ w, E w → E' w) →
  hoare P' m Q' E'.
Proof.
  intros Hm HP HQ HE w Hw. specialize (Hm w (HP w Hw)). destruct (m w) as [[a|e] w']; eauto.
Qed.

Lemma hoare_total {A} P (m : W → A * W) (Q : A → W → Prop) E :
  (∀ w a w', P w → m w = (a, w') → Q a w') → hoare P (total m) Q E.
Proof.
  intros Hm w Hw. unfold total. destruct (m w) as [a w'] eqn:Heq. by eapply Hm.
Qed.

Lemma hoare_attempt {A} P (m : IO W A) (Q : result StoreError A → W → Prop) (E E' : W → Prop) :
  hoare P m (λ a, Q (Ok a)) E → (∀ e w, E w → Q (Err e) w) → hoare P (attempt m) Q E'.
Proof.
  intros Hm HE w Hw. specialize (Hm w Hw). unfold attempt, total. destruct (m w) as [[a|e] w']; eauto.
Qed.

(** A call whose result is passed on, as an [io::Error] or as one of another kind. *)
Lemma hoare_call {E1 A} (f : E1 → StoreError) P (m : W → result E1 A * W) (Q : A → W → Prop)
    (E : W → Prop) :
  (∀ w r w', P w → m w = (r, w') → match r with Ok a => Q a w' | Err _ => E w' end) →
  hoare P (λ w, let (r, w) := m w in (map_err f r, w)) Q E.
Proof.
  intros Hm w Hw. destruct (m w) as [r w'] eqn:Heq. specialize (Hm w r w' Hw Heq). by destruct r.
Qed.

Lemma hoare_fold {A S} (f : S → A → IO W S) (J : list A → S → W → Prop) E l :
  (∀ done a s, done ++ [a] `prefix_of` l → hoare (J done s) (f s a) (J (done ++ [a])) E) →
  ∀ s, hoare (J [] s) (fold_io f l s) (J l) E.
Proof.
  intros Hstep.
  assert (Hgen : ∀ rest done s, l = done ++ rest → hoare (J done s) (fold_io f rest s) (J l) E).
  { induction rest as [|a rest IH]; intros done s Hl; cbn [fold_io].
    - rewrite app_nil_r in Hl. subst. by apply hoare_ret.
    - eapply hoare_bind.
      + apply Hstep. exists rest. by rewrite <- app_assoc.
      + intros s'. apply IH. by rewrite <- app_assoc. }
  intros s. by apply Hgen.
Qed.
End hoare.

(** ** The world of the running server

    The local files below the data directory and the objects of the bucket. *)
Class SyncView (W : Type) : Type := {
  disk : W → gmap rstr bytes;
  objects : W → gmap rstr bytes
}.

(** Files only grow, apart from [own], which nobody else touches. *)
Definition grows (own : rstr) (d d' : gmap rstr bytes) : Prop :=
  ∀ p c, p ≠ own → d !! p = Some c → ∃ c', d' !! p = Some c' ∧ c `prefix_of` c'.

Lemma disk_grows_refl own d : grows own d d.
Proof. intros p c _ Hp. exists c. by split. Qed.

Lemma disk_grows_trans own d1 d2 d3 : grows own d1 d2 → grows own d2 d3 → grows own d1 d3.
Proof.
  intros H1 H2 p c Hne Hp. destruct (H1 p c Hne Hp) as (c1 & Hp1 & Hc1).
  destruct (H2 p c1 Hne Hp1) as (c2 & Hp2 & Hc2). exists c2. split; [done|]. by etrans.
Qed.

Lemma prefix_of_longer {A} (a b c : list A) :
  a `prefix_of` c → b `prefix_of` c → len a ≤ len b → a `prefix_of` b.
Proof.
  intros Ha Hb Hl. destruct (prefix_weak_total a b c Ha Hb) as [?|[k ->]]; [done|].
  rewrite len_app in Hl. destruct k; [by rewrite app_nil_r|]. rewrite len_cons in Hl. lia.
Qed.

Lemma prefix_of_len {A} (a b : list A) : a `prefix_of` b → len a ≤ len b.
Proof. intros [k ->]. rewrite len_app. lia. Qed.

(** Between [w] and [w'] the files had the contents [d], and the copy was not touched. *)
Definition during `{SyncView W} (own : rstr) (w : W) (d : gmap rstr bytes) (w' : W) : Prop :=
  grows own (disk w) d ∧ grows own d (disk w') ∧ disk w' !! own = disk w !! own
  ∧ d !! own = disk w !! own ∧ objects w' = objects w.

(** What the calls do while the server runs: each answers for the files as they are at some moment
    of the call. Reading a file that is there does not fail; an upload can fail, with the object
    written or not, unless the bucket is [reliable]. *)
Class SharedWorld (W : Type) `{SyncWorld W} `{SyncView W} (own bucket : rstr) (reliable : Prop)
    : Prop := {
  shared_exists p w b w' : path_exists p w = (b, w') → ∃ d, during own w d w'
    ∧ (b = false → d !! p = None ∧ ∀ name, name_ok name → d !! path_join p name = None);
  shared_len p w r w' : file_len p w = (r, w') → ∃ d, during own w d w'
    ∧ match r with
      | Ok n => n < U64 ∧ ∃ c, d !! p = Some c ∧ n = len c
      | Err _ => True
      end;
  shared_read p w r w' : file_read p w = (r, w') → ∃ d, during own w d w'
    ∧ match r with Ok c => d !! p = Some c | Err _ => d !! p = None end;
  shared_write bs w r w' : file_write own bs w = (r, w') →
    r = Ok tt ∧ grows own (disk w) (disk w') ∧ disk w' !! own = Some bs ∧ objects w' = objects w;
  shared_list p w r w' : list_dir p w = (r, w') → ∃ d, during own w d w'
    ∧ match r with
      | Ok entries => ∃ names, entries = map Ok names
          ∧ Forall (λ name, name_ok name ∧ utf8_valid name = true) names
          ∧ ∀ name, name_ok name → is_Some (d !! path_join p name) → name ∈ names
      | Err _ => True
      end;
  shared_put key body ty w r w' : put_object bucket key body ty w = (r, w') →
    grows own (disk w) (disk w') ∧ disk w' !! own = disk w !! own
    ∧ (objects w' = <[key := body]> (objects w) ∨ (∃ e, r = Err e) ∧ objects w' = objects w)
    ∧ (reliable → r = Ok tt);
  shared_clock w n w' : unix_secs w = (n, w') → n < U64 ∧ ∃ d, during own w d w'
}.

(** ** Paths and keys *)

Definition relative (f : rstr) : Prop := f ≠ [] ∧ starts_with f [slash] = false.

Lemma path_join_relative p f : relative f → path_join p f = base p ++ f.
Proof.
  intros [_ Hf]. unfold path_join, base. rewrite Hf.
  destruct (decide _) as [[->|Hl]|Hn]; [done|by rewrite (bool_decide_eq_true_2 _ Hl), orb_true_r|].
  rewrite !bool_decide_eq_false_2 by tauto. by rewrite <- app_assoc.
Qed.

Lemma path_join_inj p f f' : relative f → relative f' → path_join p f = path_join p f' → f = f'.
Proof. intros Hf Hf'. rewrite !path_join_relative by done. by intros ?%app_inv_head. Qed.

Lemma s3_key_inj config f f' : s3_key config f = s3_key config f' → f = f'.
Proof. unfold s3_key. case_bool_decide; [done|]. by intros ?%app_inv_head%app_inv_head. Qed.

(** What a copy is about: the files of the stores, and the bundles of the registry. *)
Definition bundle (name : rstr) : Prop :=
  name_ok name ∧ utf8_valid name = true ∧ extension name = Some ($"json").
Definition tracked (f : rstr) : Prop :=
  f ∈ SYNC_FILES ∨ ∃ name, bundle name ∧ f = $"registry/" ++ name.

Lemma tracked_relative f : tracked f → relative f.
Proof.
  intros [Hf|(name & _ & ->)]; [|by split].
  revert f Hf. apply Forall_forall. repeat (apply Forall_cons; split; [by split|]). constructor.
Qed.

Lemma tracked_utf8 f : tracked f → utf8_valid f = true.
Proof.
  intros [Hf|(name & (_ & Hu & _) & ->)]; [|by apply utf8_valid_app].
  revert f Hf. apply Forall_forall. repeat (apply Forall_cons; split; [by vm_compute|]). constructor.
Qed.

Lemma tracked_not_json f : tracked f → f ≠ $"sync_manifest.json" ∧ f ≠ $"sync_state.json".
Proof.
  intros [Hf|(name & _ & ->)]; [|by split; vm_compute].
  revert f Hf. apply Forall_forall. repeat (apply Forall_cons; split; [by split|]). constructor.
Qed.

Lemma registry_path data_dir name : name_ok name →
  path_join (path_join data_dir ($"registry")) name = path_join data_dir ($"registry/" ++ name).
Proof.
  intros Hn. rewrite path_join_base by done.
  rewrite (base_join data_dir ($"registry")), (path_join_relative data_dir ($"registry/" ++ name)).
  - by rewrite <- !app_assoc.
  - by split.
  - split; [done|]. by apply (bool_decide_eq_true_1 (slash ∉ $"registry")).
Qed.

(** ** The invariant *)

Section copy.
Context `{PrettyLaws} `{HashOrder} (config : S3SyncConfig) (data_dir : rstr).

Abbreviation own := (state_path data_dir).
Abbreviation key := (s3_key config).
Abbreviation path := (path_join data_dir).
Abbreviation manifest_key := (s3_key config ($"sync_manifest.json")).

Context {W : Type} `{!SyncWorld W} `{!SyncView W} (reliable : Prop)
  `{!SharedWorld W own (sc_bucket config) reliable}.

(** [SyncState::load] of what is in the file. *)
Definition state_of (data : option bytes) : SyncState :=
  match data with
  | Some data =>
      if utf8_valid data
      then match read_json state_from_json data with Ok st => st | Err _ => sync_state_default end
      else sync_state_default
  | None => sync_state_default
  end.

(** An object of a tracked file is the beginning of the file. *)
Definition honest (w : W) : Prop :=
  ∀ f o, tracked f → objects w !! key f = Some o → ∃ c, disk w !! path f = Some c ∧ o `prefix_of` c.

(** Each recorded size is of a tracked file whose object has at least that many bytes. *)
Definition recorded_ok (w : W) (f : rstr) (n : N) : Prop :=
  tracked f ∧ n < U64 ∧ ∃ o, objects w !! key f = Some o ∧ n ≤ len o.
Definition backed (sizes : gmap rstr N) (w : W) : Prop :=
  honest w ∧ map_Forall (recorded_ok w) sizes.

(** The manifest in the bucket lists the recorded files, and only tracked ones. *)
Definition manifested (sizes : gmap rstr N) (object : option bytes) : Prop :=
  match object with
  | None => sizes = ∅
  | Some bs => ∃ m, bs = json_to_pretty (manifest_json m) ∧ manifest_ok m
      ∧ dom sizes ⊆ dom (mf_files m) ∧ ∀ f, f ∈ dom (mf_files m) → tracked f
  end.

Definition copy_ok (w : W) : Prop :=
  let sizes := sy_file_sizes (state_of (disk w !! own)) in
  backed sizes w ∧ manifested sizes (objects w !! manifest_key).

(** Sizes only increase. *)
Definition sizes_le (s s' : gmap rstr N) : Prop :=
  ∀ f n, s !! f = Some n → ∃ n', s' !! f = Some n' ∧ n ≤ n'.

Lemma sizes_le_refl s : sizes_le s s.
Proof. intros f n Hf. exists n. by split. Qed.

Lemma sizes_le_trans s1 s2 s3 : sizes_le s1 s2 → sizes_le s2 s3 → sizes_le s1 s3.
Proof.
  intros Ha Hb f n Hf. destruct (Ha f n Hf) as (n1 & Hf1 & ?).
  destruct (Hb f n1 Hf1) as (n2 & Hf2 & ?). exists n2. split; [done|lia].
Qed.

Lemma sizes_le_insert s f n : default 0 (s !! f) ≤ n → sizes_le s (<[f := n]> s).
Proof.
  intros Hn g m Hg. destruct (decide (f = g)) as [->|Hne].
  - exists n. rewrite lookup_insert_eq, Hg in *. by split.
  - exists m. by rewrite lookup_insert_ne.
Qed.

Lemma path_own f : tracked f → path f ≠ own.
Proof.
  intros Hf Heq. apply path_join_inj in Heq; [|by apply tracked_relative|by split].
  by destruct (tracked_not_json f Hf).
Qed.

Lemma key_manifest f : tracked f → key f ≠ manifest_key.
Proof. intros Hf Heq%s3_key_inj. by destruct (tracked_not_json f Hf). Qed.

Lemma backed_le s s' w : sizes_le s s' → backed s' w → backed s w.
Proof.
  intros Hle [Hh Hb]. split; [done|]. intros f n Hf. destruct (Hle f n Hf) as (n' & Hf' & Hn).
  destruct (Hb f n' Hf') as (Ht & Hlt & o & Ho & Hl). split; [done|]. split; [lia|].
  exists o. split; [done|lia].
Qed.

(** Growing files and an untouched bucket keep it. *)
Lemma backed_grows s w w' :
  grows own (disk w) (disk w') → (∀ f, tracked f → objects w' !! key f = objects w !! key f) →
  backed s w → backed s w'.
Proof.
  intros Hg Ho [Hh Hb]. split.
  - intros f o Ht Hof. rewrite Ho in Hof by done. destruct (Hh f o Ht Hof) as (c & Hc & Hp).
    destruct (Hg _ _ (path_own f Ht) Hc) as (c' & Hc' & Hp'). exists c'. split; [done|by etrans].
  - intros f n Hf. destruct (Hb f n Hf) as (Ht & Hlt & o & Hof & Hl).
    split; [done|]. split; [done|]. exists o. by rewrite Ho.
Qed.

Lemma backed_sizes s w : backed s w → sizes_ok s.
Proof.
  intros [_ Hb] f n Hf. destruct (Hb f n Hf) as (Ht & Hn & _). split; [by apply tracked_utf8|done].
Qed.

(** The content and the recorded bytes of a file. *)
Lemma backed_lookup s w f n : backed s w → s !! f = Some n →
  tracked f ∧ n < U64 ∧ ∃ o c, objects w !! key f = Some o ∧ disk w !! path f = Some c
    ∧ n ≤ len o ∧ o `prefix_of` c.
Proof.
  intros [Hh Hb] Hf. destruct (Hb f n Hf) as (Ht & Hn & o & Ho & Hl). split; [done|]. split; [done|].
  destruct (Hh f o Ht Ho) as (c & Hc & Hp). by exists o, c.
Qed.

(** Uploading what a file held earlier. *)
Lemma backed_put s w w' f c b :
  tracked f → grows own (disk w) (disk w') → objects w' = <[key f := b]> (objects w) →
  disk w !! path f = Some c → b `prefix_of` c → (∀ n, s !! f = Some n → n ≤ len b) →
  backed s w → backed s w'.
Proof.
  intros Ht Hg Ho Hc Hb Hn [Hh Hbacked]. split.
  - intros g o Htg Hog. assert (∃ c0, disk w !! path g = Some c0 ∧ o `prefix_of` c0) as (c0 & Hc0 & Hp).
    { destruct (decide (f = g)) as [<-|Hne].
      - rewrite Ho, lookup_insert_eq in Hog. injection Hog as <-. by exists c.
      - rewrite Ho, lookup_insert_ne in Hog by (by intros ?%s3_key_inj). by apply Hh. }
    destruct (Hg _ _ (path_own g Htg) Hc0) as (c' & Hc' & Hp'). exists c'. split; [done|by etrans].
  - intros g m Hgm. destruct (Hbacked g m Hgm) as (Htg & Hm & o & Hog & Hl).
    split; [done|]. split; [done|]. rewrite Ho. destruct (decide (f = g)) as [<-|Hne].
    + exists b. rewrite lookup_insert_eq. auto.
    + exists o. by rewrite lookup_insert_ne by (by intros ?%s3_key_inj).
Qed.

(** ** The operations keep it

    A copy starts with the files [d0], the saved state [own0] with the sizes [s0], and the manifest
    [man0]. *)
Section steps.
Variables (d0 : gmap rstr bytes) (own0 man0 : option bytes) (s0 : gmap rstr N).

Definition held (s : gmap rstr N) (w : W) : Prop :=
  backed s w ∧ sizes_le s0 s ∧ grows own d0 (disk w) ∧ disk w !! own = own0
  ∧ objects w !! manifest_key = man0.

(** The recorded size is at least that of the file at the start. *)
Definition covers (s : gmap rstr N) (f : rstr) : Prop :=
  ∀ c, d0 !! path f = Some c → c ≠ [] → ∃ n, s !! f = Some n ∧ len c ≤ n.

Lemma covers_le s s' f : sizes_le s s' → covers s f → covers s' f.
Proof.
  intros Hle Hc c Hf Hne. destruct (Hc c Hf Hne) as (n & Hs & Hn).
  destruct (Hle f n Hs) as (n' & Hs' & ?). exists n'. split; [done|lia].
Qed.

Lemma held_during s w d w' : during own w d w' → held s w → held s w'.
Proof.
  intros (Hg1 & Hg2 & Ho & _ & Hobj) (Hb & Hle & Hg & Hown & Hman).
  assert (Hgw : grows own (disk w) (disk w')) by (by eapply disk_grows_trans).
  split_and!; [|done|by eapply disk_grows_trans|congruence|congruence].
  eapply backed_grows; [done| |done]. by rewrite Hobj.
Qed.

(** A file of which at least [n] bytes are there. *)
Definition at_least (f : rstr) (n : N) (w : W) : Prop :=
  ∃ c, disk w !! path f = Some c ∧ n ≤ len c.

Lemma at_least_grows f n c w d :
  tracked f → grows own d (disk w) → d !! path f = Some c → n ≤ len c → at_least f n w.
Proof.
  intros Ht Hg Hc Hn. destruct (Hg _ _ (path_own f Ht) Hc) as (c' & Hc' & Hp).
  exists c'. split; [done|]. apply prefix_of_len in Hp. lia.
Qed.

Lemma upload_file_spec s f n :
  tracked f → n < U64 → default 0 (s !! f) ≤ n →
  hoare (λ w, held s w ∧ at_least f n w) (upload_file config (path f) f)
    (λ _ w, held (<[f := n]> s) w) (λ w, held s w ∧ ¬ reliable).
Proof.
  intros Ht Hlt Hs. unfold upload_file. eapply hoare_bind with
    (R := λ b w, held s w ∧ n ≤ len b ∧ ∃ c, disk w !! path f = Some c ∧ b `prefix_of` c).
  - apply hoare_call. intros w r w' [Hh (c & Hc & Hn)] Hread.
    destruct (shared_read _ _ _ _ Hread) as (d & Hd & Hr). pose proof Hd as (Hg1 & Hg2 & _).
    destruct (Hg1 _ _ (path_own f Ht) Hc) as (c1 & Hc1 & Hp1).
    rewrite Hc1 in Hr. destruct r as [b|]; [injection Hr as ->|done].
    split; [by eapply held_during|]. split; [apply prefix_of_len in Hp1; lia|].
    by apply (Hg2 _ _ (path_own f Ht)).
  - intros b. apply hoare_call. intros w r w' (Hh & Hn & c & Hc & Hp) Hput.
    destruct (shared_put _ _ _ _ _ _ Hput) as (Hg & Hown & Hobj & Hrel).
    destruct Hh as (Hb & Hle & Hg0 & Hown0 & Hman).
    assert (Hm : objects w' !! manifest_key = man0).
    { destruct Hobj as [->|[_ ->]]; [|done]. rewrite lookup_insert_ne; [done|]. by apply key_manifest. }
    assert (Hrec : ∀ m, s !! f = Some m → m ≤ len b).
    { intros m Hm'. rewrite Hm' in Hs. cbn in Hs. lia. }
    assert (Hbs : backed s w').
    { destruct Hobj as [Hobj|[_ Hobj]]; [by eapply backed_put|].
      eapply backed_grows; [done| |done]. by rewrite Hobj. }
    assert (Hheld : held s w') by (split_and!; [done|done|by eapply disk_grows_trans|congruence|done]).
    destruct r as [[]|e].
    + destruct Hheld as (_ & _ & Hheld). split_and!; [|by eapply sizes_le_trans, sizes_le_insert|apply Hheld..].
      split; [apply Hbs|]. apply map_Forall_insert_2; [|apply Hbs]. split; [done|]. split; [done|].
      destruct Hobj as [->|[[e He] _]]; [|done]. exists b. by rewrite lookup_insert_eq.
    + split; [done|]. intros Hr. by specialize (Hrel Hr).
Qed.

(** What was measured at a moment covers the start. *)
Lemma covers_measured s f d c :
  tracked f → grows own d0 d → d !! path f = Some c → len c ≤ recorded_size (mkSyncState s 0) f →
  covers s f.
Proof.
  intros Ht Hg Hc Hl c0 Hc0 Hne. destruct (Hg _ _ (path_own f Ht) Hc0) as (c1 & Hc1 & Hp).
  rewrite Hc in Hc1. injection Hc1 as <-. apply prefix_of_len in Hp.
  unfold recorded_size in Hl. cbn in Hl. destruct (s !! f) as [n|]; cbn in Hl.
  - exists n. split; [done|lia].
  - destruct Hne. apply len_0_nil. lia.
Qed.

Lemma covers_missing s f d : tracked f → grows own d0 d → d !! path f = None → covers s f.
Proof.
  intros Ht Hg Hd c Hc _. destruct (Hg _ _ (path_own f Ht) Hc) as (c' & Hc' & _). congruence.
Qed.

Lemma covers_record s f n : (∀ c, d0 !! path f = Some c → len c ≤ n) → covers (<[f := n]> s) f.
Proof. intros Hn c Hc _. exists n. rewrite lookup_insert_eq. auto. Qed.

(** Measuring a file: what is there is at least as long as what was measured, which is at least as
    long as at the start. *)
Lemma file_len_spec s f :
  tracked f →
  hoare (held s) (io (file_len (path f)))
    (λ n w, (held s w ∧ at_least f n w) ∧ n < U64 ∧ (∀ c, d0 !! path f = Some c → len c ≤ n)
       ∧ default 0 (s !! f) ≤ n)
    (held s).
Proof.
  intros Ht. apply hoare_call. intros w r w' Hh Hlen.
  destruct (shared_len _ _ _ _ Hlen) as (d & Hd & Hr).
  destruct r as [n|e]; [|by eapply held_during]. destruct Hr as (Hlt & c & Hc & ->).
  pose proof Hd as (Hg1 & Hg2 & _). destruct Hh as (Hb & Hle & Hg & Hrest) eqn:Heq.
  assert (Hfrom : ∀ c0, disk w !! path f = Some c0 → c0 `prefix_of` c).
  { intros c0 Hc0. destruct (Hg1 _ _ (path_own f Ht) Hc0) as (c1 & Hc1 & Hp).
    rewrite Hc in Hc1. by injection Hc1 as <-. }
  split_and!; [by eapply held_during|by eapply at_least_grows|done| |].
  - intros c0 Hc0. destruct (Hg _ _ (path_own f Ht) Hc0) as (c1 & Hc1 & Hp).
    apply Hfrom, prefix_of_len in Hc1. apply prefix_of_len in Hp. lia.
  - destruct (s !! f) as [m|] eqn:Hm; cbn; [|lia].
    destruct (backed_lookup _ _ _ _ Hb Hm) as (_ & _ & o & c0 & _ & Hc0 & Hl & Hp).
    apply Hfrom, prefix_of_len in Hc0. apply prefix_of_len in Hp. lia.
Qed.

Section state.
Variable st0 : SyncState.

Definition in_files (done : list rstr) (pg : Progress) (w : W) : Prop :=
  held (sy_file_sizes (pg_state pg)) w ∧ (pg_files_synced pg = 0 → pg_state pg = st0)
  ∧ (reliable → Forall (covers (sy_file_sizes (pg_state pg))) done).
Definition broken (w : W) : Prop := ∃ s, held s w.

Lemma in_files_more s files_done f :
  (reliable → Forall (covers s) files_done) → covers s f →
  reliable → Forall (covers s) (files_done ++ [f]).
Proof. intros Hd Hf Hr. apply Forall_app. split; [by apply Hd|by apply Forall_singleton]. Qed.

Lemma sync_file_spec files_done pg f :
  tracked f →
  hoare (in_files files_done pg) (sync_file config data_dir pg f) (in_files (files_done ++ [f])) broken.
Proof.
  intros Ht. unfold sync_file. set (s := sy_file_sizes (pg_state pg)).
  eapply hoare_bind with (R := λ b w, in_files files_done pg w ∧ (b = false → covers s f)).
  - apply hoare_total. intros w b w' (Hh & Hz & Hdone) Hex.
    destruct (shared_exists _ _ _ _ Hex) as (d & Hd & Hnone).
    split; [split; [by eapply held_during|done]|]. intros Hb. destruct (Hnone Hb) as [Hp _].
    eapply covers_missing; [done| |done]. eapply disk_grows_trans; [apply Hh|apply Hd].
  - intros [].
    2: { apply hoare_ret. intros w [(Hh & Hz & Hdone) Hc]. split_and!; [done..|].
         apply in_files_more; auto. }
    cbn [negb]. eapply hoare_bind with (R := λ n w, ((held s w ∧ at_least f n w) ∧ n < U64
      ∧ (∀ c, d0 !! path f = Some c → len c ≤ n) ∧ default 0 (s !! f) ≤ n)
      ∧ (pg_files_synced pg = 0 → pg_state pg = st0) ∧ (reliable → Forall (covers s) files_done)).
    { intros w [(Hh & Hz & Hdone) _]. pose proof (file_len_spec s f Ht w Hh) as Hl.
      destruct (io (file_len (path f)) w) as [[n|e] w']; [by split|by exists s]. }
    intros n. destruct (_ <? n) eqn:Hlast.
    + intros w (((Hh & Hat) & Hlt & Hcov & Hle) & Hz & Hdone).
      unfold mbind, IO_bind, attempt, total.
      pose proof (upload_file_spec s f n Ht Hlt Hle w (conj Hh Hat)) as Hup.
      destruct (upload_file _ _ _ w) as [[[]|e] w'].
      * split_and!; [done| |]; cbn; [lia|]. intros Hr. apply in_files_more; [|by apply covers_record|done].
        intros _. eapply Forall_impl; [by apply Hdone|]. intros g. apply covers_le.
        by apply sizes_le_insert.
      * destruct Hup as [Hup Hnr]. by split_and!.
    + apply hoare_ret. intros w (((Hh & _) & _ & Hcov & _) & Hz & Hdone). split_and!; [done..|].
      apply in_files_more; [done|]. intros c Hc Hne. apply N.ltb_ge in Hlast.
      unfold recorded_size in Hlast. fold s in Hlast. specialize (Hcov c Hc).
      destruct (s !! f) as [m|] eqn:Hm; cbn in Hlast; [exists m; split; [exact Hm|lia]|].
      destruct Hne. apply len_0_nil. lia.
Qed.

Definition in_bundles (names : list rstr) (s : SyncState * N) (w : W) : Prop :=
  held (sy_file_sizes s.1) w ∧ sizes_le (sy_file_sizes st0) (sy_file_sizes s.1)
  ∧ (s.2 = 0 → s.1 = st0)
  ∧ (reliable → Forall (λ name, bundle name → covers (sy_file_sizes s.1) ($"registry/" ++ name)) names).

Lemma in_bundles_more s names name :
  (reliable → Forall (λ name, bundle name → covers s ($"registry/" ++ name)) names) →
  (reliable → bundle name → covers s ($"registry/" ++ name)) →
  reliable → Forall (λ name, bundle name → covers s ($"registry/" ++ name)) (names ++ [name]).
Proof. intros Hd Hf Hr. apply Forall_app. split; [by apply Hd|]. apply Forall_singleton. auto. Qed.

Lemma sync_bundle_spec names s name :
  name_ok name → utf8_valid name = true →
  hoare (in_bundles names s) (sync_bundle config (path ($"registry")) s (Ok name))
    (in_bundles (names ++ [name])) broken.
Proof.
  intros Hn Hu. unfold sync_bundle. destruct s as [st k]. set (s := sy_file_sizes st).
  intros w (Hh & Hle & Hz & Hdone). unfold mbind at 1, IO_bind at 1, io at 1. cbn [map_err].
  rewrite from_utf8_lossy_valid, registry_path by done. case_bool_decide as Hext.
  2: { cbn. split_and!; [done..|]. apply in_bundles_more; [done|]. by intros _ (_ & _ & ?). }
  set (f := $"registry/" ++ name).
  assert (Ht : tracked f) by (right; by exists name).
  pose proof (file_len_spec s f Ht w Hh) as Hlen. unfold mbind at 1, IO_bind at 1.
  destruct (io (file_len (path f)) w) as [[n|e] w1]; [|by exists s].
  destruct Hlen as ((Hh1 & Hat) & Hlt & Hcov & Hge). cbn [fst snd]. case (N.eqb_spec n (recorded_size st f)) as [Heq|Hne].
  - cbn. split_and!; [done..|]. apply in_bundles_more; [done|]. intros _ _ c Hc Hne.
    specialize (Hcov c Hc). unfold recorded_size in Heq. fold s in Heq.
    destruct (s !! f) as [m|] eqn:Hm; cbn in Heq; [exists m; split; [exact Hm|lia]|].
    destruct Hne. apply len_0_nil. lia.
  - pose proof (upload_file_spec s f n Ht Hlt Hge w1 (conj Hh1 Hat)) as Hup.
    unfold mbind, IO_bind. destruct (upload_file _ _ _ w1) as [[[]|e] w2].
    + assert (Hs : sizes_le s (<[f := n]> s)) by by apply sizes_le_insert.
      split_and!; [done|by eapply sizes_le_trans|cbn; lia|].
      apply in_bundles_more; [|by intros _ _; apply covers_record]. intros Hr.
      eapply Forall_impl; [by apply Hdone|]. intros g Hg Hb. eapply covers_le; [done|by apply Hg].
    + destruct Hup as [Hup _]. by exists s.
Qed.

Lemma fold_io_map {A B S} (f : S → B → IO W S) (g : A → B) l s w :
  fold_io f (map g l) s w = fold_io (λ s a, f s (g a)) l s w.
Proof.
  revert s w. induction l as [|a l IH]; intros s w; [done|]. cbn. unfold mbind, IO_bind.
  destruct (f s (g a) w) as [[s'|e] w']; [apply IH|done].
Qed.

Lemma sync_registry_spec :
  hoare (λ w, held (sy_file_sizes st0) w) (sync_registry config data_dir st0)
    (λ s w, held (sy_file_sizes s.1) w ∧ sizes_le (sy_file_sizes st0) (sy_file_sizes s.1)
       ∧ (s.2 = 0 → s.1 = st0)
       ∧ (reliable → ∀ name, bundle name → covers (sy_file_sizes s.1) ($"registry/" ++ name)))
    broken.
Proof.
  intros w Hh. unfold sync_registry. unfold mbind at 1, IO_bind at 1, total.
  destruct (path_exists (path ($"registry")) w) as [b w1] eqn:Hex.
  destruct (shared_exists _ _ _ _ Hex) as (d & Hd & Hnone).
  assert (Hh1 : held (sy_file_sizes st0) w1) by (by eapply held_during).
  destruct b; cbn [negb].
  2: { unfold mret, IO_ret. cbn [fst snd]. split_and!; [done|apply sizes_le_refl|done|].
       intros _ name Hname.
       eapply covers_missing; [by right; exists name| |].
       - eapply disk_grows_trans; [apply Hh|apply Hd].
       - rewrite <- registry_path by apply Hname. apply Hnone; [done|apply Hname]. }
  unfold mbind, IO_bind, io. destruct (list_dir (path ($"registry")) w1) as [r w2] eqn:Hlist.
  destruct (shared_list _ _ _ _ Hlist) as (d' & Hd' & Hr).
  assert (Hh2 : held (sy_file_sizes st0) w2) by (by eapply held_during).
  destruct r as [entries|e]; cbn [map_err]; [|by exists (sy_file_sizes st0)].
  destruct Hr as (names & -> & Hnames & Hall). rewrite fold_io_map.
  pose proof (hoare_fold (λ s name, sync_bundle config (path ($"registry")) s (Ok name)) in_bundles
    broken names) as Hfold.
  specialize (Hfold ltac:(intros l name s [k Hk]; rewrite Hk, !Forall_app, Forall_singleton in Hnames;
    apply sync_bundle_spec; apply Hnames) (st0, 0) w2).
  cbv beta in Hfold. destruct (fold_io _ names (st0, 0) w2) as [[s|e] w3].
  - destruct Hfold as (Hh3 & Hle & Hz & Hdone).
    { split_and!; [done|apply sizes_le_refl|done|constructor]. }
    split_and!; [done..|]. intros Hrel name Hname.
    destruct (d0 !! path ($"registry/" ++ name)) as [c0|] eqn:Hc0; [|by intros c Hc; congruence].
    rewrite Forall_forall in Hdone. apply Hdone; [done| |done]. apply Hall; [apply Hname|].
    rewrite registry_path by apply Hname.
    assert (Hg : grows own d0 d') by (eapply disk_grows_trans; [apply Hh1|apply Hd']).
    destruct (Hg (path ($"registry/" ++ name)) c0) as (c1 & Hc1 & _); [|done|by exists c1].
    apply path_own. right. by exists name.
  - apply Hfold. split_and!; [done|apply sizes_le_refl|done|constructor].
Qed.
End state.

(** The state of the copy is still the saved one. *)
Lemma held_copy_ok s w : s0 = sy_file_sizes (state_of own0) → manifested s0 man0 → held s w → copy_ok w.
Proof.
  intros Hs Hm (Hb & Hle & _ & Hown & Hman). unfold copy_ok. rewrite Hown, Hman, <- Hs.
  split; [by eapply backed_le|done].
Qed.
End steps.

(** What was in a file at the start is in its object, which the file begins with at the end, and the
    manifest has the file. *)
Definition copied (d0 : gmap rstr bytes) (f : rstr) (w : W) : Prop :=
  ∀ c, d0 !! path f = Some c → c ≠ [] → ∃ o c' m,
    objects w !! key f = Some o ∧ c `prefix_of` o ∧ disk w !! path f = Some c' ∧ o `prefix_of` c'
    ∧ objects w !! manifest_key = Some (json_to_pretty (manifest_json m)) ∧ manifest_ok m
    ∧ f ∈ dom (mf_files m).

Lemma copied_covers d0 s f w :
  tracked f → grows own d0 (disk w) → backed s w → manifested s (objects w !! manifest_key) →
  covers d0 s f → copied d0 f w.
Proof.
  intros Ht Hg Hb Hm Hc c Hc0 Hne. destruct (Hc c Hc0 Hne) as (n & Hs & Hn).
  destruct (backed_lookup _ _ _ _ Hb Hs) as (_ & _ & o & c' & Ho & Hc' & Hl & Hp).
  unfold manifested in Hm. destruct (objects w !! manifest_key) as [bs|];
    [|by rewrite Hm, lookup_empty in Hs].
  destruct Hm as (m & -> & Hok & Hdom & _). exists o, c', m. destruct (Hg _ _ (path_own f Ht) Hc0) as (c1 & Hc1 & Hp1).
  rewrite Hc' in Hc1. injection Hc1 as <-.
  split_and!; try done; [eapply prefix_of_longer; [done..|lia]|].
  apply Hdom, elem_of_dom. by exists n.
Qed.

(** The end of [do_sync]: the manifest, then the saved state. *)
Definition finish (state : SyncState) : IO W unit :=
  _ ← upload_manifest config state;
  now ← total unix_secs;
  save_state data_dir (mkSyncState (sy_file_sizes state) now).

Lemma finish_spec d0 own0 man0 st :
  let s0 := sy_file_sizes (state_of own0) in
  manifested s0 man0 →
  hoare (held d0 own0 man0 s0 (sy_file_sizes st)) (finish st)
    (λ _ w, copy_ok w ∧ grows own d0 (disk w) ∧ backed (sy_file_sizes st) w
       ∧ manifested (sy_file_sizes st) (objects w !! manifest_key)) copy_ok.
Proof.
  intros s0 Hman0. set (s := sy_file_sizes st).
  assert (Hok : ∀ w, held d0 own0 man0 s0 s w → copy_ok w) by (intros w; by apply held_copy_ok).
  unfold finish, upload_manifest. eapply hoare_bind with (R := λ _ w, backed s w
    ∧ grows own d0 (disk w) ∧ manifested s (objects w !! manifest_key)).
  - eapply hoare_bind with (R := λ n w, held d0 own0 man0 s0 s w ∧ n < U64).
    { apply hoare_total. intros w n w' Hh Hc. destruct (shared_clock _ _ _ Hc) as (Hn & d & Hd).
      split; [by eapply held_during|done]. }
    intros created. apply hoare_call. intros w r w' [(Hb & Hle & Hg & Hown & Hm) Hn] Hput.
    destruct (shared_put _ _ _ _ _ _ Hput) as (Hg' & Hown' & Hobj & _).
    set (m := mkS3Manifest s created 1) in *.
    assert (Hkeys : ∀ f, tracked f → objects w' !! key f = objects w !! key f).
    { intros f Hf. destruct Hobj as [->|[_ ->]]; [|done]. rewrite lookup_insert_ne; [done|].
      by intros ?%eq_sym%key_manifest. }
    assert (Hbs : backed s w') by by eapply backed_grows.
    assert (Hmok : manifest_ok m) by (split_and!; [by eapply backed_sizes|done|cbn; lia]).
    assert (Hnew : ∀ s', sizes_le s' s → objects w' = <[manifest_key := json_to_pretty (manifest_json m)]> (objects w) →
      manifested s' (objects w' !! manifest_key)).
    { intros s' Hs' ->. rewrite lookup_insert_eq. exists m. split_and!; [done..| |].
      - intros f [n' Hf]%elem_of_dom. destruct (Hs' f n' Hf) as (n1 & Hf' & _).
        apply elem_of_dom. by exists n1.
      - intros f [n' Hf]%elem_of_dom. by apply (proj2 Hb f n'). }
    destruct r as [[]|e].
    + split_and!; [done|by eapply disk_grows_trans|].
      destruct Hobj as [Hobj|[[e He] _]]; [apply Hnew; [apply sizes_le_refl|done]|done].
    + unfold copy_ok. rewrite Hown', Hown. split; [by eapply backed_le|].
      destruct Hobj as [Hobj|[_ ->]]; [by apply Hnew|by rewrite Hm].
  - intros []. eapply hoare_bind with (R := λ n w, (backed s w ∧ grows own d0 (disk w)
      ∧ manifested s (objects w !! manifest_key)) ∧ n < U64).
    { apply hoare_total. intros w n w' (Hb & Hg & Hm) Hc. destruct (shared_clock _ _ _ Hc) as (Hn & d & Hd).
      destruct Hd as (Hg1 & Hg2 & _ & _ & Hobj).
      assert (Hgw : grows own (disk w) (disk w')) by (by eapply disk_grows_trans).
      split_and!; [eapply backed_grows; [done| |done]; by rewrite Hobj
                  |by eapply disk_grows_trans|by rewrite Hobj|done]. }
    intros now. apply hoare_call. intros w r w' [(Hb & Hg & Hm) Hn] Hw.
    destruct (shared_write _ _ _ _ Hw) as (-> & Hg' & Hown & Hobj).
    assert (Hst : state_ok (mkSyncState s now)) by (split; [by eapply backed_sizes|done]).
    destruct (read_state_written _ Hst) as [Hu Hr].
    assert (Hbs : backed s w') by (eapply backed_grows; [done| |done]; by rewrite Hobj).
    unfold copy_ok. rewrite Hown, Hobj. unfold state_of. fold s. rewrite Hu, Hr. cbn [sy_file_sizes].
    split_and!; [done..|by eapply disk_grows_trans|done|done].
Qed.

Lemma do_sync_spec w : copy_ok w →
  match do_sync config data_dir w with
  | (Ok _, w') => copy_ok w' ∧ grows own (disk w) (disk w')
      ∧ (reliable → ∀ f, tracked f → copied (disk w) f w')
  | (Err _, w') => copy_ok w'
  end.
Proof.
  intros [Hb Hm]. set (own0 := disk w !! own) in *. set (man0 := objects w !! manifest_key) in *.
  set (st0 := state_of own0) in *. set (s0 := sy_file_sizes st0) in *.
  assert (Hbroken : ∀ w', broken (disk w) own0 man0 s0 w' → copy_ok w')
    by (intros w' [s Hs]; by eapply held_copy_ok).
  unfold do_sync. unfold mbind at 1, IO_bind at 1, total, load_state.
  destruct (file_read own w) as [r w1] eqn:Hread. destruct (shared_read _ _ _ _ Hread) as (d & Hd & Hr).
  pose proof Hd as (_ & _ & _ & Hdown & _).
  assert (Hload : match r with
    | Ok data => if utf8_valid data
                 then match read_json state_from_json data with Ok st => st | Err _ => sync_state_default end
                 else sync_state_default
    | Err _ => sync_state_default end = st0).
  { unfold st0, state_of, own0. rewrite <- Hdown. destruct r; by rewrite Hr. }
  rewrite Hload. clear Hload.
  assert (Hh1 : held (disk w) own0 man0 s0 s0 w1).
  { eapply held_during; [done|]. split_and!; [done|apply sizes_le_refl|apply disk_grows_refl|done|done]. }
  pose proof (hoare_fold (sync_file config data_dir) (in_files (disk w) own0 man0 s0 st0)
    (broken (disk w) own0 man0 s0) SYNC_FILES) as Hfiles.
  specialize (Hfiles ltac:(intros l f pg [k Hk]; apply sync_file_spec; left; rewrite Hk;
    apply elem_of_app; left; apply elem_of_app; right; by left) (mkProgress st0 0 0) w1).
  unfold mbind at 1, IO_bind at 1.
  destruct (fold_io _ SYNC_FILES _ w1) as [[pg|e] w2];
    [|apply Hbroken, Hfiles; by split_and!].
  destruct Hfiles as (Hh2 & Hz & Hfiles); [by split_and!|].
  pose proof (sync_registry_spec (disk w) own0 man0 s0 (pg_state pg) w2 Hh2) as Hreg.
  unfold mbind at 1, IO_bind at 1.
  destruct (sync_registry config data_dir (pg_state pg) w2) as [[[st k]|e] w3]; [|by apply Hbroken].
  destruct Hreg as (Hh3 & Hle & Hz' & Hbundles). cbn [fst snd] in *.
  assert (Hcov : reliable → ∀ f, tracked f → covers (disk w) (sy_file_sizes st) f).
  { intros Hrel f [Hf|(name & Hname & ->)]; [|by apply Hbundles]. eapply covers_le; [done|].
    specialize (Hfiles Hrel). rewrite Forall_forall in Hfiles. by apply Hfiles. }
  destruct (_ || _) eqn:Hdid.
  - change (match finish st w3 with
      | (Ok _, w') => copy_ok w' ∧ grows own (disk w) (disk w')
          ∧ (reliable → ∀ f, tracked f → copied (disk w) f w')
      | (Err _, w') => copy_ok w'
      end).
    pose proof (finish_spec (disk w) own0 man0 st Hm w3 Hh3) as Hfin.
    destruct (finish st w3) as [[[]|e] w4]; [|done]. destruct Hfin as (Hok & Hg & Hbs & Hms).
    split_and!; [done..|]. intros Hrel f Hf. by eapply copied_covers; [..|apply Hcov].
  - apply orb_false_iff in Hdid as [Hd1%N.ltb_ge Hd2%N.ltb_ge].
    rewrite Hz' in Hh3, Hcov by lia. rewrite Hz in Hh3, Hcov by lia.
    split_and!; [by eapply held_copy_ok|apply Hh3|]. intros Hrel f Hf.
    eapply copied_covers; [done|apply Hh3|apply Hh3| |by apply Hcov].
    destruct Hh3 as (_ & _ & _ & _ & ->). done.
Qed.

Lemma do_sync_keeps w : copy_ok w → copy_ok (do_sync config data_dir w).2.
Proof.
  intros Hw. pose proof (do_sync_spec w Hw) as Hs.
  destruct (do_sync config data_dir w) as [[u|e] w']; [by destruct Hs|done].
Qed.

Lemma sync_events_ok events w : copy_ok w → copy_ok (sync_events config data_dir events w).2.
Proof.
  revert w. induction events as [|[|[]] events IH]; intros w Hw; cbn [sync_events snd];
    [done|by apply IH, do_sync_keeps|by apply do_sync_keeps|by apply IH].
Qed.
End copy.
