(* ===== verification/CqlLexer.v ===== *)
(** * CqlLexer: the tokens of a CQL query

    [server/src/cql/parser.rs], [Lexer]. The input is the UTF-8 text of the query; the
    lexer state is what is left of it and the position. *)

From Stdlib Require Import Floats.SpecFloat.
From S2P Require Import Prelude Bytes External CqlAst.

Open Scope N_scope.

Inductive TokenType : Type :=
| TAnd | TOr | TNot | TIn | TLParen | TRParen | TComma
| TEq | TNeq | TStarts | TEqCi | TStartsCi | TGt | TGte | TLt | TLte
| TString (s : rstr)
| TNumber (n : f64)
| TIdent (s : rstr)
| TEof.

Record Token : Type := mkToken { token_type : TokenType; token_position : Position }.

(** [struct Lexer]: [lx_rest] is the input from [lx_pos] on. *)
Record Lexer : Type := mkLexer {
  lx_rest : rstr;
  lx_pos : N;
  lx_line : N;
  lx_column : N
}.

Definition lexer_new (input : rstr) : Lexer := mkLexer input 0 1 1.

Definition current_position (lx : Lexer) : Position :=
  mkPosition (lx_line lx) (lx_column lx) (lx_pos lx).

Definition peek (lx : Lexer) : option char := fst ∘ fst <$> utf8_next (lx_rest lx).

(** The bytes of the next character. *)
Definition peek_bytes (lx : Lexer) : bytes :=
  match utf8_next (lx_rest lx) with
  | Some (_, n, _) => take (N.to_nat n) (lx_rest lx)
  | None => []
  end.

Definition advance (lx : Lexer) : Lexer :=
  match utf8_next (lx_rest lx) with
  | Some (ch, n, rest) =>
      if ch =? 10 then mkLexer rest (lx_pos lx + n) (lx_line lx + 1) 1
      else mkLexer rest (lx_pos lx + n) (lx_line lx) (lx_column lx + 1)
  | None => lx
  end.

(** [while let Some(ch) = self.peek() { if p(ch) { self.advance() } else { break } }]; each
    turn consumes a character, so the length of the input is enough fuel. *)
Fixpoint advance_while_aux (fuel : nat) (p : char → bool) (lx : Lexer) : Lexer :=
  match fuel with
  | O => lx
  | S fuel =>
      match peek lx with
      | Some ch => if p ch then advance_while_aux fuel p (advance lx) else lx
      | None => lx
      end
  end.
Definition advance_while (p : char → bool) (lx : Lexer) : Lexer :=
  advance_while_aux (length (lx_rest lx)) p lx.

(** [&self.input[start..self.pos]], where [start] is an earlier state of the lexer. *)
Definition slice_from (start lx : Lexer) : rstr :=
  take (N.to_nat (lx_pos lx - lx_pos start)) (lx_rest start).

(** [SyntaxError] with a position. *)
Definition syntax_error {A} (message : rstr) (pos : Position) : result CqlError A :=
  Err (mkCqlError SyntaxError message (Some pos) None).

Definition at_position (what : rstr) (pos : Position) : rstr :=
  what ++ $" at line " ++ show_N (pos_line pos) ++ $", column " ++ show_N (pos_column pos).

(** The character after a backslash. *)
Definition unescape (lx : Lexer) : bytes :=
  match peek lx with
  | Some ch => if ch =? 110 then [Byte.x0a]        (* n *)
               else if ch =? 116 then [Byte.x09]   (* t *)
               else if ch =? 114 then [Byte.x0d]   (* r *)
               else peek_bytes lx
  | None => []
  end.

(** The loop of [read_string]; [value] is what it has pushed. *)
Fixpoint read_string_loop (fuel : nat) (quote : char) (start_pos : Position) (lx : Lexer)
    (value : rstr) : result CqlError (Token * Lexer) :=
  let unterminated :=
    syntax_error ($"Unterminated string starting at line " ++ show_N (pos_line start_pos)
                  ++ $", column " ++ show_N (pos_column start_pos)) start_pos in
  match fuel with
  | O => unterminated
  | S fuel =>
      match peek lx with
      | None => unterminated
      | Some ch =>
          if ch =? quote then Ok (mkToken (TString value) start_pos, advance lx)
          else if ch =? 92 then
            let lx := advance lx in
            match peek lx with
            | Some _ =>
                read_string_loop fuel quote start_pos (advance lx) (value ++ unescape lx)
            | None => syntax_error ($"Unterminated escape sequence") (current_position lx)
            end
          else read_string_loop fuel quote start_pos (advance lx) (value ++ peek_bytes lx)
      end
  end.

Definition read_string (quote : char) (lx : Lexer) : result CqlError (Token * Lexer) :=
  let start_pos := current_position lx in
  let lx := advance lx in
  read_string_loop (S (length (lx_rest lx))) quote start_pos lx [].

Definition peek_is (c : char) (lx : Lexer) : bool := bool_decide (peek lx = Some c).

Definition read_number (lx0 : Lexer) : Token * Lexer :=
  let start_pos := current_position lx0 in
  let lx := if peek_is 45 lx0 then advance lx0 else lx0 in
  let lx := advance_while is_ascii_digit lx in
  let lx := if peek_is 46 lx then advance_while is_ascii_digit (advance lx) else lx in
  let value := default (S754_zero false) (parse_f64 (slice_from lx0 lx)) in
  (mkToken (TNumber value) start_pos, lx).

Section Lexer.
Context `{Unicode}.

Definition skip_whitespace (lx : Lexer) : Lexer := advance_while is_whitespace lx.

Definition keyword (value : rstr) : TokenType :=
  let upper := to_uppercase value in
  if bool_decide (upper = $"AND") then TAnd
  else if bool_decide (upper = $"OR") then TOr
  else if bool_decide (upper = $"NOT") then TNot
  else if bool_decide (upper = $"IN") then TIn
  else TIdent value.

Definition read_identifier (lx0 : Lexer) : Token * Lexer :=
  let start_pos := current_position lx0 in
  let lx := advance_while (λ ch, is_alphanumeric ch || (ch =? 95)) lx0 in
  (mkToken (keyword (slice_from lx0 lx)) start_pos, lx).

(** The start of a number: a digit, or a minus sign before a digit. *)
Definition starts_number (ch : char) (lx : Lexer) : bool :=
  is_ascii_digit ch
  || ((ch =? 45)
      && match lx_rest lx with
         | _ :: b :: _ => is_ascii_digit (Byte.to_N b)
         | _ => false
         end).

Definition next_token (lx : Lexer) : result CqlError (Token * Lexer) :=
  let lx := skip_whitespace lx in
  let start_pos := current_position lx in
  let tok t lx := Ok (mkToken t start_pos, lx) in
  match peek lx with
  | None => tok TEof lx
  | Some ch =>
      if (ch =? 34) || (ch =? 39) then read_string ch lx
      else if starts_number ch lx then Ok (read_number lx)
      else if is_alphabetic ch || (ch =? 95) then Ok (read_identifier lx)
      else if ch =? 40 then tok TLParen (advance lx)
      else if ch =? 41 then tok TRParen (advance lx)
      else if ch =? 44 then tok TComma (advance lx)
      else if ch =? 61 then tok TEq (advance lx)
      else if ch =? 33 then
        let lx := advance lx in
        if peek_is 61 lx then tok TNeq (advance lx)
        else syntax_error (at_position ($"Expected '=' after '!'") start_pos) start_pos
      else if ch =? 94 then
        let lx := advance lx in
        if peek_is 126 lx then
          let lx := advance lx in
          if peek_is 61 lx then tok TStartsCi (advance lx)
          else syntax_error (at_position ($"Expected '=' after '^~'") start_pos) start_pos
        else if peek_is 61 lx then tok TStarts (advance lx)
        else syntax_error (at_position ($"Expected '=' or '~=' after '^'") start_pos) start_pos
      else if ch =? 126 then
        let lx := advance lx in
        if peek_is 61 lx then tok TEqCi (advance lx)
        else syntax_error (at_position ($"Expected '=' after '~'") start_pos) start_pos
      else if ch =? 62 then
        let lx := advance lx in
        if peek_is 61 lx then tok TGte (advance lx) else tok TGt lx
      else if ch =? 60 then
        let lx := advance lx in
        if peek_is 61 lx then tok TLte (advance lx) else tok TLt lx
      else syntax_error (at_position ($"Unexpected character '" ++ peek_bytes lx ++ $"'") start_pos)
             start_pos
  end.

(** The loop of [tokenize]; every token but the last consumes a character, so the length
    of the input is enough fuel ([tokenize_fuel]). *)
Fixpoint tokenize_loop (fuel : nat) (lx : Lexer) : result CqlError (list Token) :=
  match fuel with
  | O => Ok []
  | S fuel =>
      '(token, lx) ← next_token lx;
      match token_type token with
      | TEof => Ok [token]
      | _ => tokens ← tokenize_loop fuel lx; Ok (token :: tokens)
      end
  end.

Definition tokenize (lx : Lexer) : result CqlError (list Token) :=
  tokenize_loop (S (length (lx_rest lx))) lx.

(** ** Every token consumes input *)

Lemma advance_length lx : (length (lx_rest (advance lx)) ≤ length (lx_rest lx))%nat.
Proof.
  unfold advance. destruct (utf8_next (lx_rest lx)) as [[[c n] rest]|] eqn:Hn; [|done].
  apply utf8_next_length in Hn. destruct (c =? 10); cbn; lia.
Qed.

Lemma advance_length_lt lx c : peek lx = Some c →
  (length (lx_rest (advance lx)) < length (lx_rest lx))%nat.
Proof.
  unfold peek, advance. destruct (utf8_next (lx_rest lx)) as [[[c' n] rest]|] eqn:Hn; [|done].
  intros _. apply utf8_next_length in Hn. by destruct (c' =? 10).
Qed.

Lemma advance_while_aux_length fuel p lx :
  (length (lx_rest (advance_while_aux fuel p lx)) ≤ length (lx_rest lx))%nat.
Proof.
  revert lx; induction fuel as [|fuel IH]; intros lx; [done|]. cbn [advance_while_aux].
  destruct (peek lx) as [c|]; [|done]. destruct (p c); [|done].
  specialize (IH (advance lx)). pose proof (advance_length lx). lia.
Qed.

Lemma advance_while_length p lx :
  (length (lx_rest (advance_while p lx)) ≤ length (lx_rest lx))%nat.
Proof. apply advance_while_aux_length. Qed.

Lemma advance_while_lt p lx c : peek lx = Some c → p c = true →
  (length (lx_rest (advance_while p lx)) < length (lx_rest lx))%nat.
Proof.
  intros Hc Hp. unfold advance_while. pose proof (advance_length_lt _ _ Hc) as Hlt.
  destruct (length (lx_rest lx)) as [|n]; [lia|]. cbn [advance_while_aux]. rewrite Hc, Hp.
  pose proof (advance_while_aux_length n p (advance lx)). lia.
Qed.

Lemma read_string_loop_length fuel q sp lx v tok lx' :
  read_string_loop fuel q sp lx v = Ok (tok, lx') →
  (length (lx_rest lx') ≤ length (lx_rest lx))%nat ∧ ∃ s, token_type tok = TString s.
Proof.
  revert lx v; induction fuel as [|fuel IH]; intros lx v Hr; [done|]. cbn [read_string_loop] in Hr.
  destruct (peek lx) as [c|]; [|done]. pose proof (advance_length lx).
  destruct (c =? q); [simplify_eq; split; [lia|by eexists]|]. destruct (c =? 92).
  - destruct (peek (advance lx)); [|done]. apply IH in Hr as [Hr ?].
    pose proof (advance_length (advance lx)). split; [lia|done].
  - apply IH in Hr as [Hr ?]. split; [lia|done].
Qed.

Lemma keyword_not_eof value : keyword value ≠ TEof.
Proof. unfold keyword. by repeat case_bool_decide. Qed.

(** A token other than the end consumes at least one character. *)
Lemma next_token_progress `{!UnicodeLaws} lx tok lx' :
  next_token lx = Ok (tok, lx') →
  (token_type tok = TEof ∧ peek (skip_whitespace lx) = None)
  ∨ (token_type tok ≠ TEof ∧ (length (lx_rest lx') < length (lx_rest lx))%nat).
Proof.
  unfold next_token. pose proof (advance_while_length is_whitespace lx) as Hw.
  fold (skip_whitespace lx) in Hw. destruct (peek (skip_whitespace lx)) as [c|] eqn:Hc.
  - pose proof (advance_length_lt _ _ Hc) as Hlt. intros Hn. right.
    destruct ((c =? 34) || (c =? 39)).
    { apply read_string_loop_length in Hn as [Hl [s Hs]]. rewrite Hs. split; [done|lia]. }
    destruct (starts_number c (skip_whitespace lx)) eqn:Hs.
    { unfold read_number in Hn. injection Hn as <- <-. split; [done|].
      set (lx1 := if peek_is 45 (skip_whitespace lx) then _ else _).
      assert (Hd : (length (lx_rest (advance_while is_ascii_digit lx1)) < length (lx_rest lx))%nat).
      { pose proof (advance_while_length is_ascii_digit lx1). unfold lx1 in *.
        unfold peek_is in *. case_bool_decide as H45; [lia|].
        pose proof (advance_while_lt is_ascii_digit _ _ Hc) as Hl.
        unfold starts_number in Hs. destruct (is_ascii_digit c); [specialize (Hl eq_refl); lia|].
        cbn in Hs. destruct (N.eqb_spec c 45); [by subst|done]. }
      destruct (peek_is 46 (advance_while is_ascii_digit lx1)); [|done].
      pose proof (advance_while_length is_ascii_digit
        (advance (advance_while is_ascii_digit lx1))).
      pose proof (advance_length (advance_while is_ascii_digit lx1)). lia. }
    destruct (is_alphabetic c || (c =? 95)) eqn:Ha.
    { unfold read_identifier in Hn. injection Hn as <- <-. split; [apply keyword_not_eof|].
      pose proof (advance_while_lt (λ ch, is_alphanumeric ch || (ch =? 95)) _ _ Hc) as Hl.
      assert (Hp : is_alphanumeric c || (c =? 95) = true); [|specialize (Hl Hp); lia].
      apply orb_true_iff in Ha as [Ha%alphabetic_alphanumeric | ->]; [by rewrite Ha|apply orb_true_r]. }
    pose proof (advance_length (advance (skip_whitespace lx))).
    pose proof (advance_length (advance (advance (skip_whitespace lx)))).
    repeat (match type of Hn with (if ?b then _ else _) = _ => destruct b end);
      cbn in Hn; simplify_eq; (split; [done|cbn in *; lia]).
  - intros [= <- <-]. by left.
Qed.

Lemma tokenize_loop_fuel `{!UnicodeLaws} f1 f2 lx :
  (length (lx_rest lx) < f1)%nat → (length (lx_rest lx) < f2)%nat →
  tokenize_loop f1 lx = tokenize_loop f2 lx.
Proof.
  revert f2 lx; induction f1 as [|f1 IH]; intros [|f2] lx H1 H2; try lia. cbn [tokenize_loop].
  destruct (next_token lx) as [[tok lx']|e] eqn:Hn; [|done]. cbn [mbind result_bind].
  destruct (next_token_progress _ _ _ Hn) as [[-> _]|[Hne Hlt]]; [done|].
  rewrite (IH f2 lx') by lia. done.
Qed.

(** What [tokenize] returns ends in the one [TEof] token. *)
Lemma tokenize_loop_eof `{!UnicodeLaws} fuel lx tokens :
  (length (lx_rest lx) < fuel)%nat → tokenize_loop fuel lx = Ok tokens →
  ∃ toks eof, tokens = toks ++ [eof] ∧ token_type eof = TEof
              ∧ Forall (λ t, token_type t ≠ TEof) toks.
Proof.
  revert lx tokens; induction fuel as [|fuel IH]; intros lx tokens Hf Ht; [lia|].
  cbn [tokenize_loop] in Ht. apply bind_ok in Ht as ([tok lx'] & Hn & Ht).
  destruct (next_token_progress _ _ _ Hn) as [[He _]|[Hne Hlt]].
  - rewrite He in Ht. simplify_eq. by exists [], tok.
  - destruct (token_type tok) eqn:Hk; try done;
      (apply bind_ok in Ht as (ts & Hts & [= <-]);
       destruct (IH lx' ts ltac:(lia) Hts) as (toks & eof & -> & ? & ?);
       exists (tok :: toks), eof; split; [done|]; split; [done|];
       constructor; [by rewrite Hk|done]).
Qed.
End Lexer.
