(* ===== verification/CqlParser.v ===== *)
(** * CqlParser: from tokens to expressions

    [server/src/cql/parser.rs], [Parser]. The state of the parser is the list of the tokens
    from its position on. The grammar of the file's comment is the inductive
    definition [d_or] and those it uses; the parser accepts exactly its sentences. *)

From S2P Require Import Prelude Bytes External CqlAst CqlLexer.

Open Scope N_scope.

(** [self.current()]: the end-of-input token when there is none. *)
Definition current (tokens : list Token) : Token :=
  match tokens with
  | t :: _ => t
  | [] => mkToken TEof (mkPosition 1 1 0)
  end.

(** [self.advance()]: stays at the end of the input. *)
Definition next (tokens : list Token) : list Token :=
  match tokens with
  | t :: rest => match token_type t with TEof => tokens | _ => rest end
  | [] => []
  end.

(** [mem::discriminant] of two token types. *)
Definition same_kind (a b : TokenType) : bool :=
  match a, b with
  | TAnd, TAnd | TOr, TOr | TNot, TNot | TIn, TIn | TLParen, TLParen | TRParen, TRParen
  | TComma, TComma | TEq, TEq | TNeq, TNeq | TStarts, TStarts | TEqCi, TEqCi
  | TStartsCi, TStartsCi | TGt, TGt | TGte, TGte | TLt, TLt | TLte, TLte
  | TString _, TString _ | TNumber _, TNumber _ | TIdent _, TIdent _ | TEof, TEof => true
  | _, _ => false
  end.

(** [self.match_token(expected)]: the tokens after it, if it is there. *)
Definition match_token (expected : TokenType) (tokens : list Token) : option (list Token) :=
  if same_kind (token_type (current tokens)) expected then Some (next tokens) else None.

Definition syntax_error_at {A} (message : rstr) (tokens : list Token) : result CqlError A :=
  syntax_error message (token_position (current tokens)).

(** The operator of a token. *)
Definition operator_of (t : TokenType) : option Operator :=
  match t with
  | TEq => Some OpEq | TNeq => Some OpNeq | TStarts => Some OpStarts | TEqCi => Some OpEqCi
  | TStartsCi => Some OpStartsCi | TGt => Some OpGt | TGte => Some OpGte | TLt => Some OpLt
  | TLte => Some OpLte | TIn => Some OpIn
  | _ => None
  end.

(** [parts.join(sep)]. *)
Fixpoint join (sep : rstr) (parts : list rstr) : rstr :=
  match parts with
  | [] => []
  | [p] => p
  | p :: ps => p ++ sep ++ join sep ps
  end.

(** The token types of a list of tokens. *)
Abbreviation kinds := (map token_type).

Section Parser.
Context `{Unicode} `{RelativeDates}.

(** The value a single token stands for. *)
Definition token_value (t : TokenType) : option CqlValue :=
  match t with
  | TString s =>
      match relative_captures s with
      | Some _ => Some (CDate s true)
      | None => Some (CString s)
      end
  | TNumber n => Some (CNumber n)
  | TIdent s =>
      if bool_decide (to_lowercase s = $"true") || bool_decide (to_lowercase s = $"false")
      then Some (CString (to_lowercase s)) else None
  | _ => None
  end.

Definition parse_value (tokens : list Token) : result CqlError (CqlValue * list Token) :=
  match token_value (token_type (current tokens)) with
  | Some v => Ok (v, next tokens)
  | None => syntax_error_at ($"Expected value") tokens
  end.

(** [while self.match_token(&Comma) { values.push(self.parse_value()?) }]. *)
Fixpoint list_loop (fuel : nat) (values : list CqlValue) (tokens : list Token)
    : result CqlError (list CqlValue * list Token) :=
  match fuel with
  | O => Ok (values, tokens)
  | S fuel =>
      match match_token TComma tokens with
      | Some tokens =>
          '(v, tokens) ← parse_value tokens;
          list_loop fuel (values ++ [v]) tokens
      | None => Ok (values, tokens)
      end
  end.

Definition parse_list (tokens : list Token) : result CqlError (CqlValue * list Token) :=
  match match_token TLParen tokens with
  | None => syntax_error_at ($"Expected '(' after IN") tokens
  | Some tokens =>
      '(v, tokens) ← parse_value tokens;
      '(values, tokens) ← list_loop (length tokens) [v] tokens;
      match match_token TRParen tokens with
      | None => syntax_error_at ($"Expected ')' after list values") tokens
      | Some tokens => Ok (CList values, tokens)
      end
  end.

Definition unknown_field {A} (field_name : rstr) (pos : Position) : result CqlError A :=
  Err (mkCqlError UnknownField
         ($"Unknown field '" ++ field_name ++ $"'. Valid fields: "
          ++ join ($", ") (map field_as_str field_all))
         (Some pos) (Some field_name)).

Definition parse_comparison (tokens : list Token) : result CqlError (Expression * list Token) :=
  let field_token := current tokens in
  match token_type field_token with
  | TIdent field_name =>
      let tokens := next tokens in
      match field_from_str field_name with
      | None => unknown_field field_name (token_position field_token)
      | Some _ =>
          match operator_of (token_type (current tokens)) with
          | None => syntax_error_at ($"Expected operator") tokens
          | Some operator =>
              let tokens := next tokens in
              '(value, tokens) ← (if bool_decide (operator = OpIn) then parse_list tokens
                                 else parse_value tokens);
              Ok (EComparison field_name operator value, tokens)
          end
      end
  | _ => syntax_error_at ($"Expected field name") tokens
  end.

(** The levels of the grammar above [parse_primary]. Each turn of a loop consumes a token,
    so the number of tokens is enough fuel for the loops. *)
Section levels.
Variable parse_primary : list Token → result CqlError (Expression * list Token).

Definition parse_unary_expr (tokens : list Token) : result CqlError (Expression * list Token) :=
  match match_token TNot tokens with
  | Some tokens => '(inner, tokens) ← parse_primary tokens; Ok (ENot inner, tokens)
  | None => parse_primary tokens
  end.

Fixpoint and_loop (fuel : nat) (lhs : Expression) (tokens : list Token)
    : result CqlError (Expression * list Token) :=
  match fuel with
  | O => Ok (lhs, tokens)
  | S fuel =>
      match match_token TAnd tokens with
      | Some tokens =>
          '(rhs, tokens) ← parse_unary_expr tokens;
          and_loop fuel (EAnd lhs rhs) tokens
      | None => Ok (lhs, tokens)
      end
  end.

Definition parse_and_expr (tokens : list Token) : result CqlError (Expression * list Token) :=
  '(lhs, tokens) ← parse_unary_expr tokens;
  and_loop (length tokens) lhs tokens.

Fixpoint or_loop (fuel : nat) (lhs : Expression) (tokens : list Token)
    : result CqlError (Expression * list Token) :=
  match fuel with
  | O => Ok (lhs, tokens)
  | S fuel =>
      match match_token TOr tokens with
      | Some tokens =>
          '(rhs, tokens) ← parse_and_expr tokens;
          or_loop fuel (EOr lhs rhs) tokens
      | None => Ok (lhs, tokens)
      end
  end.

Definition parse_or_expr (tokens : list Token) : result CqlError (Expression * list Token) :=
  '(lhs, tokens) ← parse_and_expr tokens;
  or_loop (length tokens) lhs tokens.
End levels.

(** [parse_primary]; the fuel bounds the nesting of parentheses, which is less than the
    number of tokens. *)
Fixpoint parse_primary (fuel : nat) (tokens : list Token)
    : result CqlError (Expression * list Token) :=
  match match_token TLParen tokens with
  | Some tokens =>
      match fuel with
      | O => syntax_error_at [] tokens
      | S fuel =>
          '(expr, tokens) ← parse_or_expr (parse_primary fuel) tokens;
          match match_token TRParen tokens with
          | None => syntax_error_at ($"Expected ')' after expression") tokens
          | Some tokens => Ok (expr, tokens)
          end
      end
  | None => parse_comparison tokens
  end.

(** The rest of [Parser::parse], after the tokens are read. *)
Definition parse_tokens (tokens : list Token) : result CqlError Expression :=
  match token_type (current tokens) with
  | TEof => syntax_error_at ($"Empty query") tokens
  | _ =>
      '(ast, tokens) ← parse_or_expr (parse_primary (length tokens)) tokens;
      match token_type (current tokens) with
      | TEof => Ok ast
      | _ => syntax_error_at ($"Unexpected token after expression") tokens
      end
  end.

Definition parse (input : rstr) : result CqlError CqlQuery :=
  tokens ← tokenize (lexer_new input);
  ast ← parse_tokens tokens;
  Ok (mkCqlQuery input ast).

(** ** The grammar *)

Inductive d_value : list TokenType → CqlValue → Prop :=
| d_single t v : token_value t = Some v → d_value [t] v.

Inductive d_values : list TokenType → list CqlValue → Prop :=
| d_one ts v : d_value ts v → d_values ts [v]
| d_more ts ts' vs v : d_values ts vs → d_value ts' v → d_values (ts ++ TComma :: ts') (vs ++ [v]).

Inductive d_comparison : list TokenType → Expression → Prop :=
| d_compare f field op_t op ts v :
    field_from_str f = Some field → operator_of op_t = Some op → op ≠ OpIn → d_value ts v →
    d_comparison (TIdent f :: op_t :: ts) (EComparison f op v)
| d_in f field ts vs :
    field_from_str f = Some field → d_values ts vs →
    d_comparison (TIdent f :: TIn :: TLParen :: ts ++ [TRParen]) (EComparison f OpIn (CList vs)).

Inductive d_or : list TokenType → Expression → Prop :=
| d_or_and ts e : d_and ts e → d_or ts e
| d_or_or ts1 ts2 e1 e2 : d_or ts1 e1 → d_and ts2 e2 → d_or (ts1 ++ TOr :: ts2) (EOr e1 e2)
with d_and : list TokenType → Expression → Prop :=
| d_and_unary ts e : d_unary ts e → d_and ts e
| d_and_and ts1 ts2 e1 e2 :
    d_and ts1 e1 → d_unary ts2 e2 → d_and (ts1 ++ TAnd :: ts2) (EAnd e1 e2)
with d_unary : list TokenType → Expression → Prop :=
| d_unary_not ts e : d_primary ts e → d_unary (TNot :: ts) (ENot e)
| d_unary_primary ts e : d_primary ts e → d_unary ts e
with d_primary : list TokenType → Expression → Prop :=
| d_primary_comparison ts e : d_comparison ts e → d_primary ts e
| d_primary_paren ts e : d_or ts e → d_primary (TLParen :: ts ++ [TRParen]) e.

Scheme d_or_mind := Induction for d_or Sort Prop
  with d_and_mind := Induction for d_and Sort Prop
  with d_unary_mind := Induction for d_unary Sort Prop
  with d_primary_mind := Induction for d_primary Sort Prop.
Combined Scheme grammar_ind from d_or_mind, d_and_mind, d_unary_mind, d_primary_mind.

(** ** Soundness: what is parsed is derived *)

(** The token types that are their own kind. *)
Definition plain (t : TokenType) : Prop := t ≠ TEof ∧ ∀ t', same_kind t' t = true → t' = t.

Lemma plain_tokens : plain TAnd ∧ plain TOr ∧ plain TNot ∧ plain TComma ∧ plain TLParen
  ∧ plain TRParen.
Proof. by split_and!; (split; [done|by intros []]). Qed.

Lemma next_cons t rest : token_type t ≠ TEof → next (t :: rest) = rest.
Proof. cbn. by destruct (token_type t). Qed.

Lemma match_token_Some t tokens rest : plain t →
  match_token t tokens = Some rest → ∃ tok, tokens = tok :: rest ∧ token_type tok = t.
Proof.
  intros [Hne Hk]. unfold match_token. destruct (same_kind _ t) eqn:Hs; [|done].
  apply Hk in Hs. destruct tokens as [|tok rest']; cbn [current] in Hs; [by subst|].
  rewrite next_cons by congruence. intros [= ->]. by exists tok.
Qed.

Lemma match_token_cons t tok rest : plain t → token_type tok = t →
  match_token t (tok :: rest) = Some rest.
Proof.
  intros [Hne Hk] Ht. unfold match_token. cbn [current]. rewrite Ht.
  rewrite next_cons by congruence. by destruct t.
Qed.

Lemma match_token_other t tokens : plain t → token_type (current tokens) ≠ t →
  match_token t tokens = None.
Proof.
  intros [Hne Hk] Ht. unfold match_token. destruct (same_kind _ t) eqn:Hs; [|done].
  by apply Hk in Hs.
Qed.

(** [sound p d]: what [p] accepts is a prefix of its input that [d] derives. *)
Definition sound {A} (p : list Token → result CqlError (A * list Token))
    (d : list TokenType → A → Prop) : Prop :=
  ∀ tokens a rest, p tokens = Ok (a, rest) → ∃ used, tokens = used ++ rest ∧ d (kinds used) a.

Lemma parse_value_sound : sound parse_value d_value.
Proof.
  intros tokens v rest. unfold parse_value.
  destruct tokens as [|t tokens]; cbn [current]; [done|].
  destruct (token_value (token_type t)) as [v'|] eqn:Hv; [|done].
  rewrite next_cons by (intros He; by rewrite He in Hv). intros [= <- <-].
  exists [t]. split; [done|]. by constructor.
Qed.

Lemma list_loop_sound fuel vs tokens vs' rest ts0 :
  d_values ts0 vs → list_loop fuel vs tokens = Ok (vs', rest) →
  ∃ used, tokens = used ++ rest ∧ d_values (ts0 ++ kinds used) vs'.
Proof.
  destruct plain_tokens as (_ & _ & _ & Hc & _).
  revert vs tokens ts0; induction fuel as [|fuel IH]; intros vs tokens ts0 Hd Hl; cbn in Hl.
  { simplify_eq. exists []. by rewrite app_nil_r. }
  destruct (match_token TComma tokens) as [tokens1|] eqn:Hm.
  - apply match_token_Some in Hm as (tok & -> & Ht); [|done].
    apply bind_ok in Hl as ([v tokens2] & Hv & Hl).
    apply parse_value_sound in Hv as (used1 & -> & Hv).
    apply (IH _ _ (ts0 ++ TComma :: kinds used1)) in Hl as (used2 & -> & Hl).
    + exists (tok :: used1 ++ used2). split; [cbn; by rewrite app_assoc|].
      cbn. rewrite map_app, Ht. by rewrite <- app_assoc in Hl.
    + by constructor.
  - simplify_eq. exists []. by rewrite app_nil_r.
Qed.

Lemma parse_comparison_sound : sound parse_comparison d_comparison.
Proof.
  destruct plain_tokens as (_ & _ & _ & _ & Hlp & Hrp).
  intros tokens e rest. unfold parse_comparison. destruct tokens as [|ft tokens]; [done|].
  cbn [current]. destruct (token_type ft) as [| | | | | | | | | | | | | | | | | | f|] eqn:Hf; try done.
  rewrite next_cons by congruence. destruct (field_from_str f) as [field|] eqn:Hfield; [|done].
  destruct tokens as [|ot tokens]; [done|]. cbn [current].
  destruct (operator_of (token_type ot)) as [op|] eqn:Hop; [|done].
  rewrite next_cons by (intros He; by rewrite He in Hop).
  intros ([v tokens1] & Hv & [= <- <-])%bind_ok. case_bool_decide as Hin.
  - subst op. unfold parse_list in Hv.
    destruct (match_token TLParen tokens) as [tokens2|] eqn:Hm; [|done].
    apply match_token_Some in Hm as (lp & -> & Hlpt); [|done].
    apply bind_ok in Hv as ([v1 tokens3] & Hv1 & Hv).
    apply parse_value_sound in Hv1 as (used1 & -> & Hd1).
    apply bind_ok in Hv as ([vs tokens4] & Hl & Hv).
    apply (list_loop_sound _ _ _ _ _ (kinds used1)) in Hl as (used2 & -> & Hd2); [|by constructor].
    destruct (match_token TRParen tokens4) as [tokens5|] eqn:Hm; [|done].
    apply match_token_Some in Hm as (rp & -> & Hrpt); [|done]. simplify_eq.
    exists (ft :: ot :: lp :: (used1 ++ used2) ++ [rp]). split.
    + cbn. by rewrite <- !app_assoc.
    + cbn. rewrite !map_app, Hf, Hlpt. cbn. rewrite Hrpt.
      assert (token_type ot = TIn) as -> by (destruct (token_type ot); by simplify_eq/=).
      by eapply d_in.
  - apply parse_value_sound in Hv as (used & -> & Hd). exists (ft :: ot :: used).
    split; [done|]. cbn. rewrite Hf. by eapply d_compare.
Qed.

(** The levels above a sound [parse_primary]. *)
Section sound.
Variable pp : list Token → result CqlError (Expression * list Token).
Hypothesis Hpp : sound pp d_primary.

Lemma parse_unary_sound : sound (parse_unary_expr pp) d_unary.
Proof using Hpp.
  destruct plain_tokens as (_ & _ & Hn & _).
  intros tokens e rest. unfold parse_unary_expr.
  destruct (match_token TNot tokens) as [tokens1|] eqn:Hm.
  - apply match_token_Some in Hm as (tok & -> & Ht); [|done].
    intros ([inner tokens2] & Hi & [= <- <-])%bind_ok. apply Hpp in Hi as (used & -> & Hd).
    exists (tok :: used). split; [done|]. cbn. rewrite Ht. by constructor.
  - intros (used & -> & Hd)%Hpp. exists used. split; [done|]. by constructor.
Qed.

Lemma and_loop_sound fuel lhs tokens e rest ts0 :
  d_and ts0 lhs → and_loop pp fuel lhs tokens = Ok (e, rest) →
  ∃ used, tokens = used ++ rest ∧ d_and (ts0 ++ kinds used) e.
Proof using Hpp.
  destruct plain_tokens as (Ha & _).
  revert lhs tokens ts0; induction fuel as [|fuel IH]; intros lhs tokens ts0 Hd Hl; cbn in Hl.
  { simplify_eq. exists []. by rewrite app_nil_r. }
  destruct (match_token TAnd tokens) as [tokens1|] eqn:Hm.
  - apply match_token_Some in Hm as (tok & -> & Ht); [|done].
    apply bind_ok in Hl as ([rhs tokens2] & Hr & Hl).
    apply parse_unary_sound in Hr as (used1 & -> & Hr).
    apply (IH _ _ (ts0 ++ TAnd :: kinds used1)) in Hl as (used2 & -> & Hl).
    + exists (tok :: used1 ++ used2). split; [cbn; by rewrite app_assoc|].
      cbn. rewrite map_app, Ht. by rewrite <- app_assoc in Hl.
    + by constructor.
  - simplify_eq. exists []. by rewrite app_nil_r.
Qed.

Lemma parse_and_sound : sound (parse_and_expr pp) d_and.
Proof using Hpp.
  intros tokens e rest ([lhs tokens1] & Hl & Hr)%bind_ok.
  apply parse_unary_sound in Hl as (used1 & -> & Hd).
  apply (and_loop_sound _ _ _ _ _ (kinds used1)) in Hr as (used2 & -> & Hd2); [|by constructor].
  exists (used1 ++ used2). by rewrite <- app_assoc, map_app.
Qed.

Lemma or_loop_sound fuel lhs tokens e rest ts0 :
  d_or ts0 lhs → or_loop pp fuel lhs tokens = Ok (e, rest) →
  ∃ used, tokens = used ++ rest ∧ d_or (ts0 ++ kinds used) e.
Proof using Hpp.
  destruct plain_tokens as (_ & Ho & _).
  revert lhs tokens ts0; induction fuel as [|fuel IH]; intros lhs tokens ts0 Hd Hl; cbn in Hl.
  { simplify_eq. exists []. by rewrite app_nil_r. }
  destruct (match_token TOr tokens) as [tokens1|] eqn:Hm.
  - apply match_token_Some in Hm as (tok & -> & Ht); [|done].
    apply bind_ok in Hl as ([rhs tokens2] & Hr & Hl).
    apply parse_and_sound in Hr as (used1 & -> & Hr).
    apply (IH _ _ (ts0 ++ TOr :: kinds used1)) in Hl as (used2 & -> & Hl).
    + exists (tok :: used1 ++ used2). split; [cbn; by rewrite app_assoc|].
      cbn. rewrite map_app, Ht. by rewrite <- app_assoc in Hl.
    + by constructor.
  - simplify_eq. exists []. by rewrite app_nil_r.
Qed.

Lemma parse_or_sound : sound (parse_or_expr pp) d_or.
Proof using Hpp.
  intros tokens e rest ([lhs tokens1] & Hl & Hr)%bind_ok.
  apply parse_and_sound in Hl as (used1 & -> & Hd).
  apply (or_loop_sound _ _ _ _ _ (kinds used1)) in Hr as (used2 & -> & Hd2); [|by constructor].
  exists (used1 ++ used2). by rewrite <- app_assoc, map_app.
Qed.
End sound.

Lemma parse_primary_sound fuel : sound (parse_primary fuel) d_primary.
Proof.
  destruct plain_tokens as (_ & _ & _ & _ & Hlp & Hrp).
  induction fuel as [|fuel IH]; intros tokens e rest; cbn [parse_primary];
    destruct (match_token TLParen tokens) as [tokens1|] eqn:Hm; try done;
    try (by intros (used & -> & Hd)%parse_comparison_sound; exists used; split; [|constructor]).
  apply match_token_Some in Hm as (lp & -> & Hlpt); [|done].
  intros ([e' tokens2] & He & Hr)%bind_ok. apply (parse_or_sound _ IH) in He as (used & -> & Hd).
  destruct (match_token TRParen tokens2) as [tokens3|] eqn:Hm; [|done]. simplify_eq.
  apply match_token_Some in Hm as (rp & -> & Hrpt); [|done].
  exists (lp :: used ++ [rp]). split; [cbn; by rewrite <- app_assoc|].
  cbn. rewrite map_app, Hlpt. cbn. rewrite Hrpt. by constructor.
Qed.

(** ** Completeness: what is derived is parsed *)

Lemma sound_le {A} (p : list Token → result CqlError (A * list Token)) d tokens a rest :
  sound p d → p tokens = Ok (a, rest) → (length rest ≤ length tokens)%nat.
Proof. intros Hs (used & -> & _)%Hs. rewrite length_app. lia. Qed.

Lemma list_loop_fuel f1 f2 vs tokens :
  (length tokens ≤ f1)%nat → (length tokens ≤ f2)%nat →
  list_loop f1 vs tokens = list_loop f2 vs tokens.
Proof.
  destruct plain_tokens as (_ & _ & _ & Hc & _).
  revert f2 vs tokens; induction f1 as [|f1 IH]; intros [|f2] vs tokens H1 H2;
    try (destruct tokens; [done|cbn in *; lia]). cbn [list_loop].
  destruct (match_token TComma tokens) as [tokens1|] eqn:Hm; [|done].
  apply match_token_Some in Hm as (tok & -> & _); [|done]. cbn in H1, H2.
  destruct (parse_value tokens1) as [[v tokens2]|] eqn:Hv; [|done]. cbn.
  pose proof (sound_le _ _ _ _ _ parse_value_sound Hv). apply IH; lia.
Qed.

Lemma parse_value_complete ts v used rest :
  d_value ts v → kinds used = ts → parse_value (used ++ rest) = Ok (v, rest).
Proof.
  intros [t v' Hv]. destruct used as [|tok [|? ?]]; try done. cbn. intros [= <-].
  unfold parse_value. cbn [current]. rewrite Hv.
  by rewrite next_cons by (intros He; by rewrite He in Hv).
Qed.

Lemma parse_values_complete ts vs used rest :
  d_values ts vs → kinds used = ts →
  ('(v, tokens) ← parse_value (used ++ rest); list_loop (length tokens) [v] tokens)
  = list_loop (length rest) vs rest.
Proof.
  destruct plain_tokens as (_ & _ & _ & Hc & _).
  intros Hd. revert used rest. induction Hd as [ts v Hv|ts ts' vs v Hd IH Hv]; intros used rest Hk.
  - by rewrite (parse_value_complete _ _ _ _ Hv Hk).
  - apply map_eq_app in Hk as (used1 & used' & -> & Hk1 & Hk').
    destruct used' as [|comma used2]; [done|]. cbn in Hk'. injection Hk' as Hcomma Hk2.
    rewrite <- app_assoc, (IH used1 _ Hk1). cbn [app length list_loop].
    rewrite match_token_cons by done.
    rewrite (parse_value_complete _ _ _ _ Hv Hk2). cbn [mbind result_bind].
    apply list_loop_fuel; [rewrite length_app; lia|done].
Qed.

Lemma list_loop_stop f vs tokens : token_type (current tokens) ≠ TComma →
  list_loop f vs tokens = Ok (vs, tokens).
Proof.
  intros Hc. destruct f; cbn; [done|]. destruct plain_tokens as (_ & _ & _ & Hp & _).
  by rewrite match_token_other.
Qed.

Lemma parse_comparison_complete ts e used rest :
  d_comparison ts e → kinds used = ts → parse_comparison (used ++ rest) = Ok (e, rest).
Proof.
  destruct plain_tokens as (_ & _ & _ & _ & Hlp & Hrp).
  intros [f field op_t op ts' v Hf Hop Hne Hv|f field ts' vs Hf Hvs] Hk.
  - destruct used as [|ft [|ot used]]; [done|done|]. cbn in Hk. injection Hk as Hft Hot Hk.
    unfold parse_comparison. cbn [app current]. rewrite Hft, next_cons by congruence.
    rewrite Hf. cbn [current]. rewrite Hot, Hop.
    rewrite next_cons by (intros He; rewrite Hot in He; by rewrite He in Hop).
    rewrite bool_decide_eq_false_2 by done. by rewrite (parse_value_complete _ _ _ _ Hv Hk).
  - destruct used as [|ft [|ot [|lp used]]]; try done. cbn in Hk. injection Hk as Hft Hot Hlpt Hk.
    apply map_eq_app in Hk as (used1 & used' & -> & Hk1 & Hk').
    destruct used' as [|rp [|? ?]]; try done. cbn in Hk'. injection Hk' as Hrpt.
    unfold parse_comparison. cbn [app current]. rewrite Hft, next_cons by congruence.
    rewrite Hf. cbn [current]. rewrite Hot. cbn [operator_of]. rewrite next_cons by congruence.
    rewrite bool_decide_eq_true_2 by done. unfold parse_list. rewrite match_token_cons by done.
    rewrite <- app_assoc. cbn [app].
    pose proof (parse_values_complete _ _ used1 (rp :: rest) Hvs Hk1) as Hl.
    rewrite list_loop_stop in Hl by (cbn; congruence).
    apply bind_ok in Hl as ([v1 tokens1] & -> & Hl). cbn [mbind result_bind].
    rewrite Hl. cbn [mbind result_bind]. by rewrite match_token_cons.
Qed.

Section loops.
Variable pp : list Token → result CqlError (Expression * list Token).
Hypothesis Hpp : sound pp d_primary.

Lemma and_loop_fuel f1 f2 lhs tokens :
  (length tokens ≤ f1)%nat → (length tokens ≤ f2)%nat →
  and_loop pp f1 lhs tokens = and_loop pp f2 lhs tokens.
Proof using Hpp.
  destruct plain_tokens as (Ha & _).
  revert f2 lhs tokens; induction f1 as [|f1 IH]; intros [|f2] lhs tokens H1 H2;
    try (destruct tokens; [done|cbn in *; lia]). cbn [and_loop].
  destruct (match_token TAnd tokens) as [tokens1|] eqn:Hm; [|done].
  apply match_token_Some in Hm as (tok & -> & _); [|done]. cbn in H1, H2.
  destruct (parse_unary_expr pp tokens1) as [[v tokens2]|] eqn:Hv; [|done]. cbn.
  pose proof (sound_le _ _ _ _ _ (parse_unary_sound pp Hpp) Hv). apply IH; lia.
Qed.

Lemma or_loop_fuel f1 f2 lhs tokens :
  (length tokens ≤ f1)%nat → (length tokens ≤ f2)%nat →
  or_loop pp f1 lhs tokens = or_loop pp f2 lhs tokens.
Proof using Hpp.
  destruct plain_tokens as (_ & Ho & _).
  revert f2 lhs tokens; induction f1 as [|f1 IH]; intros [|f2] lhs tokens H1 H2;
    try (destruct tokens; [done|cbn in *; lia]). cbn [or_loop].
  destruct (match_token TOr tokens) as [tokens1|] eqn:Hm; [|done].
  apply match_token_Some in Hm as (tok & -> & _); [|done]. cbn in H1, H2.
  destruct (parse_and_expr pp tokens1) as [[v tokens2]|] eqn:Hv; [|done]. cbn.
  pose proof (sound_le _ _ _ _ _ (parse_and_sound pp Hpp) Hv). apply IH; lia.
Qed.

Lemma and_loop_stop f lhs tokens : token_type (current tokens) ≠ TAnd →
  and_loop pp f lhs tokens = Ok (lhs, tokens).
Proof.
  intros Hc. destruct f; cbn; [done|]. destruct plain_tokens as (Hp & _).
  by rewrite match_token_other.
Qed.

Lemma or_loop_stop f lhs tokens : token_type (current tokens) ≠ TOr →
  or_loop pp f lhs tokens = Ok (lhs, tokens).
Proof.
  intros Hc. destruct f; cbn; [done|]. destruct plain_tokens as (_ & Hp & _).
  by rewrite match_token_other.
Qed.
End loops.

(** A derivation starts with a field name, [NOT] or a parenthesis. *)
Lemma d_primary_head ts e : d_primary ts e →
  ∃ t ts', ts = t :: ts' ∧ (t = TLParen ∨ ∃ f, t = TIdent f).
Proof. intros [? ? []|? ? ?]; eauto 10. Qed.

Lemma grammar_complete :
  (∀ ts e, d_or ts e → ∀ fuel used rest, kinds used = ts → (length ts ≤ fuel)%nat →
     token_type (current rest) ≠ TAnd →
     parse_or_expr (parse_primary fuel) (used ++ rest)
     = or_loop (parse_primary fuel) (length rest) e rest)
  ∧ (∀ ts e, d_and ts e → ∀ fuel used rest, kinds used = ts → (length ts ≤ fuel)%nat →
     parse_and_expr (parse_primary fuel) (used ++ rest)
     = and_loop (parse_primary fuel) (length rest) e rest)
  ∧ (∀ ts e, d_unary ts e → ∀ fuel used rest, kinds used = ts → (length ts ≤ fuel)%nat →
     parse_unary_expr (parse_primary fuel) (used ++ rest) = Ok (e, rest))
  ∧ (∀ ts e, d_primary ts e → ∀ fuel used rest, kinds used = ts → (length ts ≤ fuel)%nat →
     parse_primary fuel (used ++ rest) = Ok (e, rest)).
Proof.
  destruct plain_tokens as (Ha & Ho & Hn & _ & Hlp & Hrp). apply grammar_ind.
  - intros ts e _ IH fuel used rest Hk Hf Hc. unfold parse_or_expr.
    rewrite (IH fuel used rest Hk Hf), and_loop_stop by done. done.
  - intros ts1 ts2 e1 e2 _ IH1 _ IH2 fuel used rest Hk Hf Hc.
    apply map_eq_app in Hk as (used1 & used' & -> & Hk1 & Hk').
    destruct used' as [|tok used2]; [done|]. cbn in Hk'. injection Hk' as Htok Hk2.
    rewrite length_app in Hf. cbn [length] in Hf.
    rewrite <- app_assoc, (IH1 fuel used1) by (done || lia || (cbn; congruence)).
    cbn [app length or_loop]. rewrite match_token_cons by done.
    rewrite (IH2 fuel used2) by (done || lia). rewrite and_loop_stop by done. cbn [mbind result_bind].
    apply or_loop_fuel; [apply parse_primary_sound|rewrite length_app; lia|done].
  - intros ts e _ IH fuel used rest Hk Hf. unfold parse_and_expr. by rewrite (IH fuel used rest).
  - intros ts1 ts2 e1 e2 _ IH1 _ IH2 fuel used rest Hk Hf.
    apply map_eq_app in Hk as (used1 & used' & -> & Hk1 & Hk').
    destruct used' as [|tok used2]; [done|]. cbn in Hk'. injection Hk' as Htok Hk2.
    rewrite length_app in Hf. cbn [length] in Hf.
    rewrite <- app_assoc, (IH1 fuel used1) by (done || lia).
    cbn [app length and_loop]. rewrite match_token_cons by done.
    rewrite (IH2 fuel used2) by (done || lia). cbn [mbind result_bind].
    apply and_loop_fuel; [apply parse_primary_sound|rewrite length_app; lia|done].
  - intros ts e _ IH fuel used rest Hk Hf. destruct used as [|tok used]; [done|].
    cbn in Hk. injection Hk as Htok Hk. cbn [length] in Hf. unfold parse_unary_expr. cbn [app].
    rewrite match_token_cons by done. by rewrite (IH fuel used) by (done || lia).
  - intros ts e Hd IH fuel used rest Hk Hf. unfold parse_unary_expr.
    rewrite match_token_other; [by apply IH|done|].
    destruct (d_primary_head _ _ Hd) as (t & ts' & -> & Ht). destruct used as [|tok used]; [done|].
    cbn in Hk |- *. injection Hk as -> _. by destruct Ht as [-> | [f ->]].
  - intros ts e Hd fuel used rest Hk Hf.
    assert (Hm : match_token TLParen (used ++ rest) = None).
    { apply match_token_other; [done|]. destruct used as [|tok used]; [by destruct Hd|].
      cbn. cbn in Hk. destruct Hd; injection Hk as -> _; done. }
    destruct fuel; cbn [parse_primary]; rewrite Hm; by apply (parse_comparison_complete ts).
  - intros ts e _ IH fuel used rest Hk Hf. destruct used as [|lp used]; [done|].
    cbn in Hk. injection Hk as Hlpt Hk. apply map_eq_app in Hk as (used1 & used' & -> & Hk1 & Hk').
    destruct used' as [|rp [|? ?]]; try done. cbn in Hk'. injection Hk' as Hrpt.
    cbn [length] in Hf. rewrite length_app in Hf. cbn [length] in Hf.
    destruct fuel as [|fuel]; [lia|]. cbn [parse_primary app]. rewrite match_token_cons by done.
    rewrite <- app_assoc. rewrite (IH fuel used1) by (done || lia || (cbn; congruence)).
    cbn [app length]. rewrite or_loop_stop by (cbn; congruence). cbn [mbind result_bind].
    by rewrite match_token_cons.
Qed.

(** A sentence is not empty. *)
Lemma grammar_nonempty :
  (∀ ts e, d_or ts e → ts ≠ []) ∧ (∀ ts e, d_and ts e → ts ≠ [])
  ∧ (∀ ts e, d_unary ts e → ts ≠ []) ∧ (∀ ts e, d_primary ts e → ts ≠ []).
Proof. apply grammar_ind; try done; try (by intros [|]); by intros ts e []. Qed.

(** A sentence has no end-of-input token. *)
Lemma grammar_no_eof :
  (∀ ts e, d_or ts e → TEof ∉ ts) ∧ (∀ ts e, d_and ts e → TEof ∉ ts)
  ∧ (∀ ts e, d_unary ts e → TEof ∉ ts) ∧ (∀ ts e, d_primary ts e → TEof ∉ ts).
Proof.
  assert (Hval : ∀ ts v, d_value ts v → TEof ∉ ts).
  { intros ? ? [t v Hv]. rewrite list_elem_of_singleton. by intros <-. }
  assert (Hvals : ∀ ts vs, d_values ts vs → TEof ∉ ts).
  { induction 1 as [|ts ts' vs v Hd IH Hv]; [by eapply Hval|].
    rewrite elem_of_app, elem_of_cons. apply Hval in Hv. naive_solver. }
  assert (Hcmp : ∀ ts e, d_comparison ts e → TEof ∉ ts).
  { intros ? ? [f field op_t op ts v Hf Hop Hne Hd|f field ts vs Hf Hd].
    - apply Hval in Hd. rewrite !elem_of_cons. naive_solver.
    - apply Hvals in Hd. rewrite !elem_of_cons, elem_of_app, list_elem_of_singleton. naive_solver. }
  apply grammar_ind; intros; rewrite ?elem_of_cons, ?elem_of_app, ?elem_of_cons, ?elem_of_nil;
    eauto; naive_solver.
Qed.

Lemma parse_tokens_derivation ts eof e :
  token_type eof = TEof → TEof ∉ kinds ts →
  parse_tokens (ts ++ [eof]) = Ok e ↔ d_or (kinds ts) e.
Proof.
  intros Heof Hne. destruct grammar_complete as (Hor & _). destruct grammar_no_eof as (Hno & _).
  unfold parse_tokens. split.
  - intros Hp.
    assert (Hp' : ('(ast, tokens) ← parse_or_expr (parse_primary (length (ts ++ [eof]))) (ts ++ [eof]);
      match token_type (current tokens) with
      | TEof => Ok ast
      | _ => syntax_error_at ($"Unexpected token after expression") tokens
      end) = Ok e) by (destruct (token_type (current (ts ++ [eof]))); done). clear Hp.
    apply bind_ok in Hp' as ([ast tokens] & Hp & Hr).
    apply (parse_or_sound _ (parse_primary_sound _)) in Hp as (used & Hu & Hd).
    destruct (token_type (current tokens)) eqn:Ht; try done. simplify_eq.
    assert (used = ts) as ->; [|done].
    destruct tokens as [|t tokens].
    { rewrite app_nil_r in Hu. subst used. rewrite map_app in Hd. cbn in Hd. apply Hno in Hd.
      rewrite elem_of_app, list_elem_of_singleton in Hd. naive_solver. }
    cbn in Ht. destruct tokens as [|t' tokens] using rev_ind.
    { by apply app_inj_tail in Hu as [-> _]. }
    rewrite app_comm_cons, app_assoc in Hu. apply app_inj_tail in Hu as [-> _].
    rewrite map_app, elem_of_app in Hne. destruct Hne. right. cbn. rewrite Ht. by left.
  - intros Hd. assert (Hcur : token_type (current (ts ++ [eof])) ≠ TEof).
    { destruct ts as [|t ts]; cbn in *.
      - by apply (proj1 grammar_nonempty) in Hd.
      - intros Ht. apply Hne. rewrite Ht. by left. }
    assert (Hp : parse_or_expr (parse_primary (length (ts ++ [eof]))) (ts ++ [eof]) = Ok (e, [eof])).
    { rewrite (Hor _ _ Hd) by (done || (rewrite ?length_app, ?length_map; lia)
        || (cbn; by rewrite Heof)).
      apply or_loop_stop. cbn. by rewrite Heof. }
    rewrite Hp. cbn [mbind result_bind current]. rewrite Heof.
    by destruct (token_type (current (ts ++ [eof]))).
Qed.

(** C23. The parser accepts exactly the grammar of the language: a query parses to an
    expression if and only if its tokens derive that expression (precedence, left
    associativity, at most one [NOT] before a primary, [IN] with a non-empty list);
    a derivable token sequence has one expression, and every query whose tokens derive
    nothing, or that has no tokens, is rejected with an error. *)
Theorem parse_iff_grammar `{!UnicodeLaws} input :
  (∀ q, parse input = Ok q ↔
     ∃ ts eof, tokenize (lexer_new input) = Ok (ts ++ [eof]) ∧ token_type eof = TEof
               ∧ cq_raw q = input ∧ d_or (kinds ts) (cq_ast q))
  ∧ (∀ ts e e', d_or (kinds ts) e → d_or (kinds ts) e' → e = e').
Proof.
  split.
  - intros q. split.
    + intros (tokens & Ht & (ast & Hp & [= <-])%bind_ok)%bind_ok.
      destruct (tokenize_loop_eof _ _ _ (Nat.lt_succ_diag_r _) Ht) as (ts & eof & -> & He & Hne).
      exists ts, eof. split_and!; try done. apply (parse_tokens_derivation _ eof); [done| |done].
      rewrite Forall_forall in Hne. by intros (t & Ht' & Hin%Hne)%list_elem_of_fmap.
    + intros (ts & eof & Ht & He & Hraw & Hd). unfold parse. rewrite Ht. cbn [mbind result_bind].
      rewrite (proj2 (parse_tokens_derivation ts eof (cq_ast q) He
        (proj1 grammar_no_eof _ _ Hd)) Hd). cbn. destruct q. cbn in *. by subst.
  - intros ts e e' Hd Hd'. pose proof (proj1 grammar_no_eof _ _ Hd) as Hne.
    pose (eof := mkToken TEof (mkPosition 0 0 0)).
    apply (parse_tokens_derivation ts eof) in Hd; [|done..].
    apply (parse_tokens_derivation ts eof) in Hd'; [|done..]. congruence.
Qed.

End Parser.

Module CqlParserWitness.

#[local] Existing Instances Sample.unicode Sample.unicode_laws Sample.relative_dates.

Definition query : rstr := $"tag = 'x' or not (depth >= 2) AND user IN ('a', 'b')".

Example parsed : cq_ast <$> parse query = Ok
  (EOr (EComparison ($"tag") OpEq (CString ($"x")))
     (EAnd (ENot (EComparison ($"depth") OpGte (CNumber (f64_of_decimal false 2 0))))
        (EComparison ($"user") OpIn (CList [CString ($"a"); CString ($"b")])))).
Proof. by vm_compute. Qed.

(** [NOT] cannot be repeated without parentheses. *)
Example double_not_rejected :
  is_ok (parse ($"NOT NOT tag = 'x'")) = false
  ∧ is_ok (parse ($"NOT (NOT tag = 'x')")) = true.
Proof. by vm_compute. Qed.

Lemma parse_iff_grammar_witness :
  ∃ ts e, d_or (kinds ts) e ∧ length ts = 18%nat.
Proof.
  destruct (parse query) as [q|] eqn:Hq; [|by vm_compute in Hq].
  destruct (proj1 (parse_iff_grammar query) q) as [Hp _].
  destruct (Hp Hq) as (ts & eof & Ht & _ & _ & Hd). exists ts, (cq_ast q). split; [done|].
  vm_compute in Ht. injection Ht as Ht. apply (f_equal length) in Ht.
  rewrite length_app in Ht. cbn in Ht. lia.
Defined.

End CqlParserWitness.
