(* ===== verification/CqlRender.v ===== *)
(** * CqlRender: writing queries

    The text of tokens, and that the lexer reads it back: with the parser's completeness
    this gives a query for every expression of the grammar, with arbitrary strings. *)

From S2P Require Import Prelude Bytes External CqlAst CqlLexer CqlParser.

Open Scope N_scope.

(** ** Text of tokens *)

Definition ident_start (b : Byte.byte) : bool :=
  let n := Byte.to_N b in is_ascii_letter n || (n =? 95).
Definition ident_char (b : Byte.byte) : bool :=
  let n := Byte.to_N b in is_ascii_letter n || is_ascii_digit n || (n =? 95).
Definition digit_char (b : Byte.byte) : bool := is_ascii_digit (Byte.to_N b).

Definition ident_text (s : rstr) : Prop :=
  match s with
  | b :: s' => ident_start b = true ∧ forallb ident_char s' = true
  | [] => False
  end.

(** Digits, a point and digits if there is one, after an optional minus sign. *)
Definition number_text (neg : bool) (int : rstr) (frac : option rstr) : rstr :=
  (if neg then [Byte.x2d] else []) ++ int
  ++ match frac with Some f => Byte.x2e :: f | None => [] end.

(** A string in double quotes; the quote and the backslash are escaped. *)
Definition escape (s : rstr) : rstr :=
  flat_map (λ b, if bool_decide (b = Byte.x22) || bool_decide (b = Byte.x5c)
                 then [Byte.x5c; b] else [b]) s.
Definition quoted (s : rstr) : rstr := Byte.x22 :: escape s ++ [Byte.x22].

Section render.
Context `{UnicodeLaws}.

Inductive token_text : TokenType → rstr → Prop :=
| text_punct t s :
    (t, s) ∈ [(TLParen, $"("); (TRParen, $")"); (TComma, $","); (TEq, $"="); (TNeq, $"!=");
              (TStarts, $"^="); (TEqCi, $"~="); (TStartsCi, $"^~="); (TGt, $">"); (TGte, $">=");
              (TLt, $"<"); (TLte, $"<=")] →
    token_text t s
| text_word s : ident_text s → token_text (keyword s) s
| text_number neg int frac v :
    int ≠ [] → forallb digit_char int = true →
    (∀ f, frac = Some f → forallb digit_char f = true) →
    parse_f64 (number_text neg int frac) = Some v →
    token_text (TNumber v) (number_text neg int frac)
| text_string s : utf8_valid s = true → token_text (TString s) (quoted s).

(** Tokens one after the other, each followed by a space. *)
Definition render (texts : list rstr) : rstr := flat_map (λ s, s ++ [Byte.x20]) texts.

(** ** Reading ASCII text *)

Lemma utf8_next_ascii b r : Byte.to_N b < 128 → utf8_next (b :: r) = Some (Byte.to_N b, 1, r).
Proof. intros Hb. cbn. by rewrite (proj2 (N.ltb_lt _ _) Hb). Qed.

Lemma peek_ascii lx b r : lx_rest lx = b :: r → Byte.to_N b < 128 →
  peek lx = Some (Byte.to_N b).
Proof. intros Hr Hb. unfold peek. by rewrite Hr, utf8_next_ascii. Qed.

Lemma advance_ascii lx b r : lx_rest lx = b :: r → Byte.to_N b < 128 →
  lx_rest (advance lx) = r ∧ lx_pos (advance lx) = lx_pos lx + 1.
Proof.
  intros Hr Hb. unfold advance. rewrite Hr, utf8_next_ascii by done.
  by destruct (Byte.to_N b =? 10).
Qed.

(** [advance_while] stops at the first character that fails the test. *)
Lemma advance_while_aux_ascii p xs y r fuel lx :
  lx_rest lx = xs ++ y :: r → forallb (λ b, (Byte.to_N b <? 128) && p (Byte.to_N b)) xs = true →
  Byte.to_N y < 128 → p (Byte.to_N y) = false → (length xs ≤ fuel)%nat →
  lx_rest (advance_while_aux fuel p lx) = y :: r
  ∧ lx_pos (advance_while_aux fuel p lx) = lx_pos lx + len xs.
Proof.
  revert fuel lx. induction xs as [|x xs IH]; intros fuel lx Hr Hxs Hy Hp Hf.
  - cbn in Hr. rewrite len_nil, N.add_0_r. destruct fuel; [done|]. cbn [advance_while_aux].
    by rewrite (peek_ascii _ _ _ Hr), Hp.
  - cbn in Hxs. apply andb_true_iff in Hxs as [[Hx%N.ltb_lt Hpx]%andb_true_iff Hxs].
    destruct fuel as [|fuel]; cbn [length] in Hf; [lia|]. cbn [advance_while_aux].
    rewrite (peek_ascii _ _ _ Hr), Hpx by done.
    destruct (advance_ascii _ _ _ Hr Hx) as [Hr' Hpos].
    destruct (IH fuel _ Hr') as [IH1 IH2]; [done..|lia|]. split; [done|].
    rewrite IH2, Hpos, len_cons. lia.
Qed.

Lemma advance_while_ascii p xs y r lx :
  lx_rest lx = xs ++ y :: r → forallb (λ b, (Byte.to_N b <? 128) && p (Byte.to_N b)) xs = true →
  Byte.to_N y < 128 → p (Byte.to_N y) = false →
  lx_rest (advance_while p lx) = y :: r ∧ lx_pos (advance_while p lx) = lx_pos lx + len xs.
Proof.
  intros. apply advance_while_aux_ascii; try done.
  match goal with Hr : lx_rest lx = _ |- _ => rewrite Hr end. rewrite length_app. lia.
Qed.

Lemma slice_from_app start lx xs r :
  lx_rest start = xs ++ r → lx_pos lx = lx_pos start + len xs → slice_from start lx = xs.
Proof.
  intros Hr Hp. unfold slice_from. rewrite Hr, Hp.
  replace (N.to_nat (lx_pos start + len xs - lx_pos start)) with (length xs) by (unfold len; lia).
  apply take_app_length.
Qed.

(** Spaces before a token are skipped. *)
Lemma skip_spaces lx xs y r :
  lx_rest lx = xs ++ y :: r → forallb (λ b, bool_decide (b = Byte.x20)) xs = true →
  Byte.to_N y < 128 → is_whitespace (Byte.to_N y) = false →
  lx_rest (skip_whitespace lx) = y :: r.
Proof.
  intros Hr Hxs Hy Hw. unfold skip_whitespace.
  apply (advance_while_ascii is_whitespace xs y r lx Hr); try done.
  rewrite forallb_forall in *. intros b Hb%Hxs. apply bool_decide_eq_true in Hb as ->.
  cbn. by rewrite whitespace_ascii.
Qed.

(** The first byte of a token text is an ASCII character other than a space. *)
Lemma token_text_head t s : token_text t s →
  ∃ b s', s = b :: s' ∧ Byte.to_N b < 128 ∧ is_whitespace (Byte.to_N b) = false.
Proof.
  assert (Hb : ∀ b, 32 < Byte.to_N b → Byte.to_N b < 128 →
    is_whitespace (Byte.to_N b) = false).
  { intros b H1 H2. rewrite whitespace_ascii by done. unfold in_range.
    rewrite (proj2 (N.leb_gt _ 13)) by lia. rewrite andb_false_r. cbn.
    apply N.eqb_neq. lia. }
  intros [t' s' Hin|[|b s'] Hs|neg [|i int] frac v Hne Hi _ _|s' Hs]; try done.
  - rewrite !elem_of_cons, elem_of_nil in Hin.
    destruct_or! Hin; injection Hin as -> ->; eexists _, _; (split; [reflexivity|]);
      (split; [reflexivity|]); apply Hb; reflexivity.
  - destruct Hs as [Hs _]. exists b, s'. split; [done|].
    assert (32 < Byte.to_N b < 128); [|split; [lia|apply Hb; lia]].
    unfold ident_start, is_ascii_letter, in_range in Hs. repeat
      (apply orb_true_iff in Hs as [Hs|Hs]); try apply andb_true_iff in Hs as [?%N.leb_le ?%N.leb_le];
      try apply N.eqb_eq in Hs; lia.
  - destruct neg; cbn.
    + eexists _, _. split; [done|]. split; [done|]. by apply Hb.
    + cbn in Hi. apply andb_true_iff in Hi as [Hi _]. eexists _, _. split; [done|].
      unfold digit_char, is_ascii_digit, in_range in Hi.
      apply andb_true_iff in Hi as [?%N.leb_le ?%N.leb_le]. split; [lia|apply Hb; lia].
  - eexists _, _. split; [done|]. split; [done|]. by apply Hb.
Qed.

(** ** Strings *)

(** Only the one-byte characters are below 128. *)
Lemma utf8_next_multi b bs c n rest : utf8_next (b :: bs) = Some (c, n, rest) →
  (n = 1 ∧ c = Byte.to_N b ∧ c < 128)
  ∨ (128 ≤ c ∧ Forall (λ x, 128 ≤ Byte.to_N x) (take (N.to_nat n) (b :: bs))).
Proof.
  unfold utf8_next, is_cont, in_range. intros Hn.
  repeat case_match; simplify_eq;
  repeat match goal with
  | Hx : (_ && _) = true |- _ => apply andb_true_iff in Hx as [? ?]
  | Hx : (_ <=? _) = true |- _ => apply N.leb_le in Hx
  | Hx : (_ <? _) = true |- _ => apply N.ltb_lt in Hx
  | Hx : (_ <? _) = false |- _ => apply N.ltb_ge in Hx
  | Hx : (_ =? _) = true |- _ => apply N.eqb_eq in Hx
  | Hx : (_ =? _) = false |- _ => apply N.eqb_neq in Hx
  end; try (left; lia); right; (split; [lia|]); repeat constructor; lia.
Qed.

Lemma utf8_next_prefix ch c rest :
  utf8_next (ch ++ rest) = Some (c, len ch, rest) → utf8_next ch = Some (c, len ch, []).
Proof.
  intros Hn. destruct ch as [|b0 [|b1 [|b2 [|b3 [|b4 ch]]]]]; unfold utf8_next, len in *;
    cbn [app length N.of_nat Pos.of_succ_nat Pos.succ] in *;
    repeat match type of Hn with
    | context [if ?c then _ else _] => destruct c
    | context [match ?r with [] => _ | _ :: _ => _ end] => destruct r
    end; simplify_eq; try done.
  all: exfalso; match goal with Hr : @eq (list _) _ _ |- _ =>
    apply (f_equal length) in Hr; cbn in Hr; rewrite ?length_app in Hr; lia end.
Qed.

Lemma utf8_next_take bs c n rest :
  utf8_next bs = Some (c, n, rest) → utf8_next (take (N.to_nat n) bs) = Some (c, n, []).
Proof.
  intros Hn. pose proof (utf8_next_len _ _ _ _ Hn) as [Hl _].
  pose proof (utf8_next_suffix _ _ _ _ Hn) as Hs.
  assert (Hlen : len (take (N.to_nat n) bs) = n) by (rewrite len_take; lia).
  rewrite <- Hlen at 2. apply (utf8_next_prefix _ c rest). rewrite Hlen, Hs, take_drop.
  by rewrite <- Hs.
Qed.

Lemma escape_app s1 s2 : escape (s1 ++ s2) = escape s1 ++ escape s2.
Proof. unfold escape. apply flat_map_app. Qed.

Lemma escape_high s : Forall (λ x, 128 ≤ Byte.to_N x) s → escape s = s.
Proof.
  unfold escape. induction 1 as [|b s Hb Hs IH]; [done|]. cbn.
  rewrite !bool_decide_eq_false_2 by (intros ->; by apply Hb). cbn. by rewrite IH.
Qed.

Lemma escape_cons_plain b s : b ≠ Byte.x22 → b ≠ Byte.x5c → escape (b :: s) = b :: escape s.
Proof. intros H1 H2. cbn. by rewrite !bool_decide_eq_false_2. Qed.

Lemma read_string_escaped n s r fuel sp lx v :
  (length s ≤ n)%nat → utf8_valid s = true → lx_rest lx = escape s ++ Byte.x22 :: r →
  (length (escape s) < fuel)%nat →
  ∃ lx', read_string_loop fuel 34 sp lx v = Ok (mkToken (TString (v ++ s)) sp, lx')
         ∧ lx_rest lx' = r.
Proof.
  revert s fuel lx v. induction n as [|n IH]; intros s fuel lx v Hn Hv Hr Hf.
  { destruct s; [|cbn in Hn; lia]. destruct fuel; [cbn in Hf; lia|]. cbn [read_string_loop].
    rewrite (peek_ascii _ _ _ Hr) by done. cbn. rewrite app_nil_r. eexists. split; [done|].
    by apply (advance_ascii _ _ _ Hr). }
  destruct s as [|b s].
  { destruct fuel; [cbn in Hf; lia|]. cbn [read_string_loop].
    rewrite (peek_ascii _ _ _ Hr) by done. cbn. rewrite app_nil_r. eexists. split; [done|].
    by apply (advance_ascii _ _ _ Hr). }
  destruct (utf8_valid_inv _ Hv ltac:(done)) as (c & k & rest & Hnext & Hvr).
  destruct fuel as [|fuel]; [lia|]. pose proof (utf8_next_suffix _ _ _ _ Hnext) as Hsuf.
  pose proof (utf8_next_length _ _ _ _ Hnext) as Hlen. cbn [length] in Hlen, Hn.
  destruct (utf8_next_multi _ _ _ _ _ Hnext) as [(-> & -> & Hb)|[Hc Hall]].
  - cbn in Hsuf. subst rest. destruct (decide (b = Byte.x22 ∨ b = Byte.x5c)) as [Hesc|Hesc].
    + assert (He : escape (b :: s) = Byte.x5c :: b :: escape s).
      { cbn. by destruct Hesc as [-> | ->]. }
      rewrite He in Hr, Hf. cbn [app length] in Hr, Hf. cbn [read_string_loop].
      rewrite (peek_ascii _ _ _ Hr) by done. cbn [N.eqb Pos.eqb Byte.to_N].
      destruct (advance_ascii _ _ _ Hr ltac:(done)) as [Hr1 _].
      rewrite (peek_ascii _ _ _ Hr1) by done.
      destruct (advance_ascii _ _ _ Hr1 ltac:(done)) as [Hr2 _].
      assert (Hu : unescape (advance lx) = [b]).
      { unfold unescape, peek_bytes. rewrite (peek_ascii _ _ _ Hr1) by done. rewrite Hr1.
        rewrite utf8_next_ascii by done. by destruct Hesc as [-> | ->]. }
      destruct (IH s fuel (advance (advance lx)) (v ++ unescape (advance lx))) as (lx' & -> & ?);
        [lia|done..|lia|]. exists lx'. rewrite Hu, <- app_assoc. done.
    + rewrite escape_cons_plain in Hr, Hf by naive_solver. cbn [app length] in Hr, Hf.
      cbn [read_string_loop]. rewrite (peek_ascii _ _ _ Hr) by done.
      destruct (N.eqb_spec (Byte.to_N b) 34) as [E|_];
        [by destruct Hesc; left; apply to_N_inj|].
      destruct (N.eqb_spec (Byte.to_N b) 92) as [E|_];
        [by destruct Hesc; right; apply to_N_inj|].
      destruct (advance_ascii _ _ _ Hr ltac:(done)) as [Hr1 _].
      assert (Hp : peek_bytes lx = [b]) by (unfold peek_bytes; by rewrite Hr, utf8_next_ascii).
      destruct (IH s fuel (advance lx) (v ++ peek_bytes lx)) as (lx' & -> & ?);
        [lia|done..|lia|]. exists lx'. rewrite Hp, <- app_assoc. done.
  - set (ch := take (N.to_nat k) (b :: s)) in *.
    assert (Hs : b :: s = ch ++ rest) by (unfold ch; rewrite Hsuf; by rewrite take_drop).
    rewrite Hs, escape_app, (escape_high ch Hall) in Hr, Hf. rewrite <- app_assoc in Hr.
    pose proof (utf8_next_app _ (escape rest ++ Byte.x22 :: r) _ _ _ (utf8_next_take _ _ _ _ Hnext))
      as Hnx. fold ch in Hnx. cbn [app] in Hnx. rewrite <- Hr in Hnx.
    cbn [read_string_loop]. unfold peek at 1. rewrite Hnx. cbn [fmap option_fmap option_map].
    cbn [compose fst]. rewrite (proj2 (N.eqb_neq c 34)), (proj2 (N.eqb_neq c 92)) by lia.
    assert (Hlk : length ch = N.to_nat k).
    { pose proof (utf8_next_len _ _ _ _ (utf8_next_take _ _ _ _ Hnext)) as [Hl _].
      fold ch in Hl. unfold len in Hl. cbn in Hl. lia. }
    assert (Hp : peek_bytes lx = ch).
    { unfold peek_bytes. rewrite Hnx, Hr, <- Hlk. apply take_app_length. }
    assert (Hr1 : lx_rest (advance lx) = escape rest ++ Byte.x22 :: r).
    { unfold advance. rewrite Hnx. by destruct (c =? 10). }
    assert (Hf' : (length (escape rest) < fuel)%nat).
    { rewrite length_app in Hf. destruct ch; [|cbn in Hf; lia].
      apply utf8_next_len in Hnext as [_ ?]. cbn in Hlk. lia. }
    destruct (IH rest fuel (advance lx) (v ++ peek_bytes lx)) as (lx' & -> & ?); [lia|done..|].
    exists lx'. rewrite Hp, Hs, <- app_assoc. done.
Qed.

(** ** Every token reads back *)

(** [lexes t s]: in front of a space, after any spaces, the lexer reads the text [s] as
    the token [t] and stops at the space. *)
Definition lexes (t : TokenType) (s : rstr) : Prop :=
  ∀ lx r, lx_rest (skip_whitespace lx) = s ++ Byte.x20 :: r →
    ∃ tok lx', next_token lx = Ok (tok, lx') ∧ token_type tok = t
               ∧ lx_rest lx' = Byte.x20 :: r.

Lemma lexes_string s : utf8_valid s = true → lexes (TString s) (quoted s).
Proof.
  intros Hv lx r Hr. unfold next_token. set (lx1 := skip_whitespace lx) in *.
  unfold quoted in Hr. cbn [app] in Hr.
  rewrite (peek_ascii _ _ _ Hr) by done. cbn [orb N.eqb Pos.eqb Byte.to_N]. unfold read_string.
  destruct (advance_ascii _ _ _ Hr ltac:(done)) as [Hr1 _]. rewrite <- app_assoc in Hr1.
  cbn [app] in Hr1. destruct (read_string_escaped (length s) s (Byte.x20 :: r)
    (S (length (lx_rest (advance lx1)))) (current_position lx1) (advance lx1) [] (le_n _) Hv Hr1)
    as (lx' & -> & Hr'); [rewrite Hr1, length_app; lia|]. by eexists _, lx'.
Qed.

(** Character classes of the bytes of words and numbers. *)
Lemma ident_char_alnum b : ident_char b = true →
  Byte.to_N b < 128 ∧ is_alphanumeric (Byte.to_N b) || (Byte.to_N b =? 95) = true.
Proof.
  intros Hb. assert (Hlt : Byte.to_N b < 128).
  { unfold ident_char, is_ascii_letter, is_ascii_digit, in_range in Hb.
    repeat (apply orb_true_iff in Hb as [Hb|Hb]);
      try apply andb_true_iff in Hb as [?%N.leb_le ?%N.leb_le];
      try apply N.eqb_eq in Hb; lia. }
  split; [done|]. by rewrite alphanumeric_ascii.
Qed.

Lemma ident_start_spec b : ident_start b = true →
  Byte.to_N b < 128 ∧ is_alphabetic (Byte.to_N b) || (Byte.to_N b =? 95) = true
  ∧ ident_char b = true ∧ (Byte.to_N b =? 34) || (Byte.to_N b =? 39) = false
  ∧ is_ascii_digit (Byte.to_N b) = false ∧ (Byte.to_N b =? 45) = false.
Proof.
  intros Hb. unfold ident_start in Hb.
  assert (Hr : 65 ≤ Byte.to_N b < 128).
  { unfold is_ascii_letter, in_range in Hb.
    repeat (apply orb_true_iff in Hb as [Hb|Hb]);
      try apply andb_true_iff in Hb as [?%N.leb_le ?%N.leb_le];
      try apply N.eqb_eq in Hb; lia. }
  rewrite alphabetic_ascii by lia. split_and!; try lia; try done.
  - unfold ident_char. apply orb_true_iff in Hb as [-> | ->]; [done|apply orb_true_r].
  - apply orb_false_iff. split; apply N.eqb_neq; lia.
  - unfold is_ascii_digit, in_range. apply andb_false_iff. right. apply N.leb_gt. lia.
  - apply N.eqb_neq. lia.
Qed.

Lemma starts_number_letter c lx : is_ascii_digit c = false → (c =? 45) = false →
  starts_number c lx = false.
Proof. intros H1 H2. unfold starts_number. by rewrite H1, H2. Qed.

Lemma lexes_word s : ident_text s → lexes (keyword s) s.
Proof.
  intros Hs lx r Hr. destruct s as [|b s]; [done|]. destruct Hs as [Hb Hs].
  destruct (ident_start_spec _ Hb) as (Hlt & Ha & Hic & Hq & Hd & Hm).
  unfold next_token. set (lx1 := skip_whitespace lx) in *.
  rewrite (peek_ascii lx1 b (s ++ Byte.x20 :: r)) by done. rewrite Hq.
  rewrite starts_number_letter by done. rewrite Ha. unfold read_identifier.
  destruct (advance_while_ascii (λ ch, is_alphanumeric ch || (ch =? 95)) (b :: s) Byte.x20 r lx1)
    as [Hr' Hp]; [done| |done| |].
  - apply forallb_forall. intros x [<-|Hx]; [|rewrite forallb_forall in Hs; apply Hs in Hx];
      [destruct (ident_char_alnum _ Hic) as [H1 H2]|destruct (ident_char_alnum _ Hx) as [H1 H2]];
      by rewrite (proj2 (N.ltb_lt _ _) H1), H2.
  - rewrite alphanumeric_ascii by done. done.
  - eexists _, _. split; [done|]. split; [|done]. cbn [token_type]. f_equal.
    by eapply slice_from_app.
Qed.

Lemma lexes_punct t s :
  (t, s) ∈ [(TLParen, $"("); (TRParen, $")"); (TComma, $","); (TEq, $"="); (TNeq, $"!=");
            (TStarts, $"^="); (TEqCi, $"~="); (TStartsCi, $"^~="); (TGt, $">"); (TGte, $">=");
            (TLt, $"<"); (TLte, $"<=")] → lexes t s.
Proof.
  intros Hin lx r Hr. unfold next_token. set (lx1 := skip_whitespace lx) in *.
  rewrite !elem_of_cons, elem_of_nil in Hin.
  destruct_or! Hin; injection Hin as -> ->; cbn [str String.list_byte_of_string] in Hr;
    cbn [app] in Hr; (rewrite (peek_ascii _ _ _ Hr) by done);
    cbn [orb N.eqb Pos.eqb Byte.to_N];
    (rewrite starts_number_letter by done); (rewrite alphabetic_ascii by done); cbn;
    (destruct (advance_ascii _ _ _ Hr ltac:(done)) as [Hr1 _]);
    unfold peek_is; rewrite ?(peek_ascii _ _ _ Hr1) by done; cbn;
    try (by eexists _, _);
    (destruct (advance_ascii _ _ _ Hr1 ltac:(done)) as [Hr2 _]);
    rewrite ?(peek_ascii _ _ _ Hr2) by done; cbn; try (by eexists _, _);
    (destruct (advance_ascii _ _ _ Hr2 ltac:(done)) as [Hr3 _]); by eexists _, _.
Qed.

Lemma digit_char_ascii b : digit_char b = true →
  Byte.to_N b < 128 ∧ is_ascii_digit (Byte.to_N b) = true.
Proof.
  unfold digit_char. intros Hb. split; [|done]. unfold is_ascii_digit, in_range in Hb.
  apply andb_true_iff in Hb as [_ ?%N.leb_le]. lia.
Qed.

Lemma digits_ascii xs : forallb digit_char xs = true →
  forallb (λ b, (Byte.to_N b <? 128) && is_ascii_digit (Byte.to_N b)) xs = true.
Proof.
  rewrite !forallb_forall. intros Hxs b Hb%Hxs. destruct (digit_char_ascii b Hb) as [H1 ->].
  by rewrite (proj2 (N.ltb_lt _ _) H1).
Qed.

(** The digits of a number, from a state in front of them. *)
Lemma read_digits lx int frac r :
  lx_rest lx = int ++ match frac with Some f => Byte.x2e :: f | None => [] end ++ Byte.x20 :: r →
  forallb digit_char int = true → (∀ f, frac = Some f → forallb digit_char f = true) →
  let lx1 := advance_while is_ascii_digit lx in
  let lx2 := if peek_is 46 lx1 then advance_while is_ascii_digit (advance lx1) else lx1 in
  lx_rest lx2 = Byte.x20 :: r
  ∧ lx_pos lx2 = lx_pos lx + len int
                 + len (match frac with Some f => Byte.x2e :: f | None => [] end).
Proof.
  intros Hr Hi Hf lx1 lx2. destruct frac as [f|]; cbn [app] in Hr.
  - destruct (advance_while_ascii is_ascii_digit int Byte.x2e (f ++ Byte.x20 :: r) lx)
      as [Hr1 Hp1]; [done|by apply digits_ascii|done|done|]. fold lx1 in Hr1, Hp1.
    destruct (advance_ascii _ _ _ Hr1 ltac:(done)) as [Hr2 Hp2].
    destruct (advance_while_ascii is_ascii_digit f Byte.x20 r (advance lx1)) as [Hr3 Hp3];
      [done|by apply digits_ascii, Hf|done|done|].
    assert (Hpk : peek_is 46 lx1 = true) by (unfold peek_is; by rewrite (peek_ascii _ _ _ Hr1)).
    unfold lx2. rewrite Hpk. split; [done|]. rewrite Hp3, Hp2, Hp1, len_cons. lia.
  - destruct (advance_while_ascii is_ascii_digit int Byte.x20 r lx)
      as [Hr1 Hp1]; [done|by apply digits_ascii|done|done|]. fold lx1 in Hr1, Hp1.
    assert (Hpk : peek_is 46 lx1 = false) by (unfold peek_is; by rewrite (peek_ascii _ _ _ Hr1)).
    unfold lx2. rewrite Hpk. split; [done|]. rewrite Hp1, len_nil. lia.
Qed.

Lemma lexes_number neg int frac v :
  int ≠ [] → forallb digit_char int = true →
  (∀ f, frac = Some f → forallb digit_char f = true) →
  parse_f64 (number_text neg int frac) = Some v → lexes (TNumber v) (number_text neg int frac).
Proof.
  intros Hne Hi Hf Hv lx r Hr. unfold next_token. set (lx1 := skip_whitespace lx) in *.
  destruct int as [|b int]; [done|]. assert (Hb := Hi). cbn in Hb.
  apply andb_true_iff in Hb as [Hb _]. destruct (digit_char_ascii b Hb) as [Hlt Hd].
  set (sgn := if neg then [Byte.x2d] else []).
  set (lxs := if peek_is 45 lx1 then advance lx1 else lx1).
  set (fr := match frac with Some f => Byte.x2e :: f | None => [] end).
  assert (Hr' : lx_rest lx1 = sgn ++ (b :: int) ++ fr ++ Byte.x20 :: r).
  { rewrite Hr. unfold number_text. by rewrite <- !app_assoc. }
  assert (Hstart : ∃ c, peek lx1 = Some c ∧ (c =? 34) || (c =? 39) = false
    ∧ starts_number c lx1 = true
    ∧ lx_rest lxs = (b :: int) ++ fr ++ Byte.x20 :: r ∧ lx_pos lxs = lx_pos lx1 + len sgn).
  { unfold sgn, lxs in *. destruct neg; cbn [app] in Hr'.
    - exists 45. unfold peek_is. rewrite (peek_ascii _ _ _ Hr') by done.
      destruct (advance_ascii _ _ _ Hr' ltac:(done)) as [Hr1 Hp1].
      split_and!; try done. unfold starts_number. rewrite Hr'. cbn. by rewrite Hd.
    - exists (Byte.to_N b). unfold peek_is. rewrite (peek_ascii _ _ _ Hr') by done.
      assert (48 ≤ Byte.to_N b ≤ 57).
      { unfold is_ascii_digit, in_range in Hd. by apply andb_true_iff in Hd as [?%N.leb_le ?%N.leb_le]. }
      rewrite bool_decide_eq_false_2 by (intros [= ?]; lia). split_and!; try done.
      + apply orb_false_iff. split; apply N.eqb_neq; lia.
      + unfold starts_number. by rewrite Hd.
      + rewrite len_nil. lia. }
  destruct Hstart as (c & -> & -> & -> & Hrs & Hps).
  destruct (read_digits lxs (b :: int) frac r Hrs Hi Hf) as [Hr2 Hp2]. cbn zeta in Hr2, Hp2.
  eexists _, _. split; [done|]. split; [|exact Hr2]. cbn [token_type fst read_number].
  fold lxs. erewrite (slice_from_app lx1 _ (number_text neg (b :: int) frac)).
  - by rewrite Hv.
  - by rewrite Hr.
  - rewrite Hp2, Hps. unfold number_text. fold sgn fr. rewrite !len_app. lia.
Qed.

Lemma lexes_token t s : token_text t s → lexes t s.
Proof.
  intros [? ? ?|? ?|? ? ? ? ? ? ? ?|? ?];
    eauto using lexes_punct, lexes_word, lexes_number, lexes_string.
Qed.

(** ** Every sequence of tokens reads back *)

Lemma tokenize_render ts texts fuel lx sp :
  Forall2 token_text ts texts → lx_rest lx = sp ++ render texts →
  sp = [] ∨ sp = [Byte.x20] → (length (lx_rest lx) < fuel)%nat →
  ∃ toks eof, tokenize_loop fuel lx = Ok (toks ++ [eof]) ∧ kinds toks = ts
              ∧ token_type eof = TEof.
Proof.
  intros Ht. revert fuel lx sp. induction Ht as [|t s ts texts Hts Ht IH];
    intros [|fuel] lx sp Hr Hsp Hf; try lia.
  - cbn in Hr. rewrite app_nil_r in Hr. cbn [tokenize_loop].
    assert (Hp : peek (skip_whitespace lx) = None).
    { unfold skip_whitespace, advance_while. rewrite Hr. destruct Hsp as [-> | ->].
      - cbn. unfold peek. by rewrite Hr.
      - cbn [length advance_while_aux]. rewrite (peek_ascii lx Byte.x20 []) by done.
        rewrite whitespace_ascii by done. cbn. unfold peek.
        by destruct (advance_ascii lx Byte.x20 [] Hr ltac:(done)) as [-> _]. }
    unfold next_token. rewrite Hp. cbn. exists []. by eexists.
  - destruct (token_text_head _ _ Hts) as (b & s' & -> & Hb & Hw). cbn [render flat_map] in Hr.
    fold (render texts) in Hr. rewrite <- app_assoc in Hr. cbn [app] in Hr.
    assert (Hsk : lx_rest (skip_whitespace lx) = (b :: s') ++ Byte.x20 :: render texts).
    { apply (skip_spaces lx sp b _ Hr); [|done|done]. by destruct Hsp as [-> | ->]. }
    destruct (lexes_token _ _ Hts lx _ Hsk) as (tok & lx' & Hn & Htok & Hr').
    assert (Hne : token_type tok ≠ TEof).
    { destruct (next_token_progress _ _ _ Hn) as [[_ Hp]|[? _]]; [|done].
      by rewrite (peek_ascii _ _ _ Hsk) in Hp by done. }
    destruct (next_token_progress _ _ _ Hn) as [[? _]|[_ Hlt]]; [done|].
    destruct (IH fuel lx' [Byte.x20]) as (toks & eof & Hl & Hk & He);
      [done|by right|lia|]. exists (tok :: toks), eof.
    cbn [tokenize_loop]. rewrite Hn. cbn [mbind result_bind]. rewrite Hl.
    split; [by destruct (token_type tok)|]. cbn. by rewrite Hk, Htok.
Qed.

(** Every expression can be written: for a derivation of an expression and texts of its
    tokens (keywords in any case, numbers in decimal, arbitrary UTF-8 strings in
    double quotes with the quote and the backslash escaped), the query that puts the
    texts one after the other, separated by spaces, parses to that expression. *)
Theorem render_parses `{RelativeDates} ts texts e :
  Forall2 token_text ts texts → d_or ts e →
  parse (render texts) = Ok (mkCqlQuery (render texts) e).
Proof.
  intros Ht Hd. unfold parse, tokenize, lexer_new. cbn [lx_rest].
  destruct (tokenize_render ts texts (S (length (render texts))) (mkLexer (render texts) 0 1 1) [])
    as (toks & eof & -> & Hk & He); [done|done|by left|cbn; lia|]. cbn [mbind result_bind].
  subst ts. rewrite (proj2 (parse_tokens_derivation toks eof e He (proj1 grammar_no_eof _ _ Hd)) Hd).
  done.
Qed.

End render.

Module CqlRenderWitness.

#[local] Existing Instances Sample.unicode Sample.unicode_laws Sample.relative_dates.

Definition value : rstr := [Byte.x61; Byte.x22; Byte.x62].
Definition texts : list rstr :=
  [$"tag"; $"="; quoted value; $"AND"; $"depth"; $">="; $"12"].

Example rendered : render texts
  = $"tag = " ++ [Byte.x22; Byte.x61; Byte.x5c; Byte.x22; Byte.x62; Byte.x22]
    ++ $" AND depth >= 12 ".
Proof. by vm_compute. Qed.

Definition kinds_of : list TokenType :=
  [TIdent ($"tag"); TEq; TString value; TAnd; TIdent ($"depth"); TGte;
   TNumber (f64_of_decimal false 12 0)].

Lemma word_text s : ident_text s → ∀ t, keyword s = t → token_text t s.
Proof. intros Hs t <-. by apply text_word. Qed.

Lemma texts_ok : Forall2 token_text kinds_of texts.
Proof.
  unfold kinds_of, texts. constructor; [by apply word_text|].
  constructor; [apply text_punct; set_solver|].
  constructor; [by apply text_string|].
  constructor; [by apply word_text|].
  constructor; [by apply word_text|].
  constructor; [apply text_punct; set_solver|].
  constructor; [|constructor].
  by apply (text_number false ($"12") None).
Qed.

Lemma render_parses_witness :
  parse (render texts)
  = Ok (mkCqlQuery (render texts)
     (EAnd (EComparison ($"tag") OpEq (CString value))
        (EComparison ($"depth") OpGte (CNumber (f64_of_decimal false 12 0))))).
Proof.
  apply (render_parses kinds_of texts); [exact texts_ok|]. apply d_or_and.
  apply (d_and_and [_; _; _] [_; _; _]).
  - apply d_and_unary, d_unary_primary, d_primary_comparison.
    apply (d_compare _ FTag TEq OpEq [_]); [done..|by constructor].
  - apply d_unary_primary, d_primary_comparison.
    apply (d_compare _ FDepth TGte OpGte [_]); [done..|by constructor].
Defined.

End CqlRenderWitness.
