(* ===== verification/CqlIndexes.v ===== *)
(** * CqlIndexes: the secondary indexes of contexts

    [server/src/cql/indexes.rs]. Maps from field values to sets of contexts, and lists of
    values sorted for prefix search. *)

From S2P Require Import Prelude Bytes External Metadata TurnStore.

Open Scope N_scope.

(** ** Buckets

    [map.entry(key).or_default().insert(id)] and [map.get(key).cloned().unwrap_or_default()]. *)

Abbreviation id_set := (gset N).

Definition bucket_insert {K} `{Countable K} (key : K) (id : N) (m : gmap K id_set)
    : gmap K id_set :=
  <[key := {[id]} ∪ default ∅ (m !! key)]> m.

Definition bucket_get {K} `{Countable K} (key : K) (m : gmap K id_set) : id_set :=
  default ∅ (m !! key).

(** Insertion when the field is present. *)
Definition bucket_insert_opt {K} `{Countable K} (key : option K) (id : N) (m : gmap K id_set)
    : gmap K id_set :=
  match key with Some key => bucket_insert key id m | None => m end.

Definition push_opt (key : option rstr) (id : N) (l : list (rstr * N)) : list (rstr * N) :=
  match key with Some key => l ++ [(key, id)] | None => l end.

(** The union of the buckets whose key passes a test ([BTreeMap::range], flattened). *)
Definition bucket_range (p : N → bool) (m : gmap N id_set) : id_set :=
  map_fold (λ key ids acc, if p key then ids ∪ acc else acc) ∅ m.

(** ** The indexes *)

Record SecondaryIndexes : Type := mkSecondaryIndexes {
  ix_tag_exact : gmap rstr id_set;
  ix_tag_sorted : list (rstr * N);
  ix_tag_lower_exact : gmap rstr id_set;
  ix_tag_lower_sorted : list (rstr * N);
  ix_title_exact : gmap rstr id_set;
  ix_title_sorted : list (rstr * N);
  ix_title_lower_exact : gmap rstr id_set;
  ix_title_lower_sorted : list (rstr * N);
  ix_label_exact : gmap rstr id_set;
  ix_user_exact : gmap rstr id_set;
  ix_user_sorted : list (rstr * N);
  ix_user_lower_exact : gmap rstr id_set;
  ix_user_lower_sorted : list (rstr * N);
  ix_service_exact : gmap rstr id_set;
  ix_service_sorted : list (rstr * N);
  ix_service_lower_exact : gmap rstr id_set;
  ix_service_lower_sorted : list (rstr * N);
  ix_host_exact : gmap rstr id_set;
  ix_host_sorted : list (rstr * N);
  ix_trace_id_exact : gmap rstr id_set;
  ix_parent_exact : gmap N id_set;
  ix_root_exact : gmap N id_set;
  ix_created_btree : gmap N id_set;
  ix_depth_btree : gmap N id_set;
  ix_all_context_ids : id_set
}.

Record IndexStats : Type := mkIndexStats {
  is_contexts_indexed : N;
  is_tag_entries : N;
  is_title_entries : N;
  is_user_entries : N;
  is_service_entries : N;
  is_host_entries : N;
  is_created_entries : N
}.

(** [SecondaryIndexes::new]. *)
Definition indexes_new : SecondaryIndexes :=
  mkSecondaryIndexes ∅ [] ∅ [] ∅ [] ∅ [] ∅ ∅ [] ∅ [] ∅ [] ∅ [] ∅ [] ∅ ∅ ∅ ∅ ∅ ∅.

Definition index_stats (ix : SecondaryIndexes) : IndexStats :=
  mkIndexStats (N.of_nat (size (ix_all_context_ids ix))) (N.of_nat (size (ix_tag_exact ix)))
    (N.of_nat (size (ix_title_exact ix))) (N.of_nat (size (ix_user_exact ix)))
    (N.of_nat (size (ix_service_exact ix))) (N.of_nat (size (ix_host_exact ix)))
    (N.of_nat (size (ix_created_btree ix))).

(** [partition_point(|(s, _)| s < prefix)] of a list that the test partitions: the number of
    elements before the first that fails it. *)
Fixpoint partition_point {A} (p : A → bool) (l : list A) : nat :=
  match l with
  | a :: l => if p a then S (partition_point p l) else O
  | [] => O
  end.

(** The loop of [prefix_search] over the elements from the partition point on. *)
Fixpoint collect_prefix (prefix : rstr) (l : list (rstr * N)) (acc : id_set) : id_set :=
  match l with
  | (s, id) :: l => if starts_with s prefix then collect_prefix prefix l ({[id]} ∪ acc) else acc
  | [] => acc
  end.

Definition prefix_search (sorted : list (rstr * N)) (prefix : rstr) : id_set :=
  match sorted with
  | [] => ∅
  | _ =>
      let start := partition_point (λ '(s, _), str_lt s prefix) sorted in
      collect_prefix prefix (drop start sorted) ∅
  end.

Definition pair_le (a b : rstr * N) : bool := str_le a.1 b.1.

Definition sort_indexes (ix : SecondaryIndexes) : SecondaryIndexes :=
  let sort := sort_by pair_le in
  mkSecondaryIndexes
    (ix_tag_exact ix) (sort (ix_tag_sorted ix))
    (ix_tag_lower_exact ix) (sort (ix_tag_lower_sorted ix))
    (ix_title_exact ix) (sort (ix_title_sorted ix))
    (ix_title_lower_exact ix) (sort (ix_title_lower_sorted ix))
    (ix_label_exact ix)
    (ix_user_exact ix) (sort (ix_user_sorted ix))
    (ix_user_lower_exact ix) (sort (ix_user_lower_sorted ix))
    (ix_service_exact ix) (sort (ix_service_sorted ix))
    (ix_service_lower_exact ix) (sort (ix_service_lower_sorted ix))
    (ix_host_exact ix) (sort (ix_host_sorted ix))
    (ix_trace_id_exact ix) (ix_parent_exact ix) (ix_root_exact ix)
    (ix_created_btree ix) (ix_depth_btree ix) (ix_all_context_ids ix).

Section Indexes.
Context `{Unicode} `{HashOrder}.

(** [index_metadata]: each index receives the field it is for, when it is present. *)
Definition index_metadata (context_id : N) (metadata : ContextMetadata) (ix : SecondaryIndexes)
    : SecondaryIndexes :=
  let tag := cm_client_tag metadata in
  let title := cm_title metadata in
  let labels := default [] (cm_labels metadata) in
  let user := cm_provenance metadata ≫= pv_on_behalf_of in
  let service := cm_provenance metadata ≫= pv_service_name in
  let host := cm_provenance metadata ≫= pv_host_name in
  let trace_id := cm_provenance metadata ≫= pv_trace_id in
  let parent := cm_provenance metadata ≫= pv_parent_context_id in
  let root := cm_provenance metadata ≫= pv_root_context_id in
  let exact key := bucket_insert_opt key context_id in
  let push key := push_opt key context_id in
  let lower := fmap to_lowercase in
  mkSecondaryIndexes
    (exact tag (ix_tag_exact ix)) (push tag (ix_tag_sorted ix))
    (exact (lower tag) (ix_tag_lower_exact ix)) (push (lower tag) (ix_tag_lower_sorted ix))
    (exact title (ix_title_exact ix)) (push title (ix_title_sorted ix))
    (exact (lower title) (ix_title_lower_exact ix))
    (push (lower title) (ix_title_lower_sorted ix))
    (foldl (λ m label, bucket_insert label context_id m) (ix_label_exact ix) labels)
    (exact user (ix_user_exact ix)) (push user (ix_user_sorted ix))
    (exact (lower user) (ix_user_lower_exact ix)) (push (lower user) (ix_user_lower_sorted ix))
    (exact service (ix_service_exact ix)) (push service (ix_service_sorted ix))
    (exact (lower service) (ix_service_lower_exact ix))
    (push (lower service) (ix_service_lower_sorted ix))
    (exact host (ix_host_exact ix)) (push host (ix_host_sorted ix))
    (exact trace_id (ix_trace_id_exact ix))
    (bucket_insert_opt parent context_id (ix_parent_exact ix))
    (bucket_insert_opt root context_id (ix_root_exact ix))
    (ix_created_btree ix) (ix_depth_btree ix) (ix_all_context_ids ix).

Definition add_id (context_id : N) (ix : SecondaryIndexes) : SecondaryIndexes :=
  mkSecondaryIndexes
    (ix_tag_exact ix) (ix_tag_sorted ix) (ix_tag_lower_exact ix) (ix_tag_lower_sorted ix)
    (ix_title_exact ix) (ix_title_sorted ix) (ix_title_lower_exact ix)
    (ix_title_lower_sorted ix) (ix_label_exact ix) (ix_user_exact ix) (ix_user_sorted ix)
    (ix_user_lower_exact ix) (ix_user_lower_sorted ix) (ix_service_exact ix)
    (ix_service_sorted ix) (ix_service_lower_exact ix) (ix_service_lower_sorted ix)
    (ix_host_exact ix) (ix_host_sorted ix) (ix_trace_id_exact ix) (ix_parent_exact ix)
    (ix_root_exact ix) (ix_created_btree ix) (ix_depth_btree ix)
    ({[context_id]} ∪ ix_all_context_ids ix).

(** The insertions into [created_btree] and [depth_btree]. *)
Definition add_times (context_id created_at_unix_ms depth : N) (ix : SecondaryIndexes)
    : SecondaryIndexes :=
  mkSecondaryIndexes
    (ix_tag_exact ix) (ix_tag_sorted ix) (ix_tag_lower_exact ix) (ix_tag_lower_sorted ix)
    (ix_title_exact ix) (ix_title_sorted ix) (ix_title_lower_exact ix)
    (ix_title_lower_sorted ix) (ix_label_exact ix) (ix_user_exact ix) (ix_user_sorted ix)
    (ix_user_lower_exact ix) (ix_user_lower_sorted ix) (ix_service_exact ix)
    (ix_service_sorted ix) (ix_service_lower_exact ix) (ix_service_lower_sorted ix)
    (ix_host_exact ix) (ix_host_sorted ix) (ix_trace_id_exact ix) (ix_parent_exact ix)
    (ix_root_exact ix) (bucket_insert created_at_unix_ms context_id (ix_created_btree ix))
    (bucket_insert depth context_id (ix_depth_btree ix)) (ix_all_context_ids ix).

Definition build_from_cache (metadata_cache : gmap N (option ContextMetadata))
    (heads : list ContextHead) (ix : SecondaryIndexes) : SecondaryIndexes :=
  let ix := foldl (λ ix '(context_id, metadata_opt),
              let ix := add_id context_id ix in
              match metadata_opt with
              | Some metadata => index_metadata context_id metadata ix
              | None => ix
              end) ix (hash_iter metadata_cache) in
  let ix := foldl (λ ix head,
              add_times (ch_context_id head) (ch_created_at_unix_ms head) (ch_head_depth head)
                (add_id (ch_context_id head) ix)) ix heads in
  sort_indexes ix.

Definition add_context (context_id : N) (metadata : option ContextMetadata)
    (created_at_unix_ms depth : N) (ix : SecondaryIndexes) : SecondaryIndexes :=
  let ix := add_id context_id ix in
  let ix := match metadata with
            | Some metadata => sort_indexes (index_metadata context_id metadata ix)
            | None => ix
            end in
  add_times context_id created_at_unix_ms depth ix.

(** ** Lookups *)

Definition all_contexts (ix : SecondaryIndexes) : id_set := ix_all_context_ids ix.

Definition lookup_tag_exact ix v := bucket_get v (ix_tag_exact ix).
Definition lookup_tag_exact_ci ix v := bucket_get (to_lowercase v) (ix_tag_lower_exact ix).
Definition lookup_title_exact ix v := bucket_get v (ix_title_exact ix).
Definition lookup_title_exact_ci ix v := bucket_get (to_lowercase v) (ix_title_lower_exact ix).
Definition lookup_label_exact ix v := bucket_get v (ix_label_exact ix).
Definition lookup_user_exact ix v := bucket_get v (ix_user_exact ix).
Definition lookup_user_exact_ci ix v := bucket_get (to_lowercase v) (ix_user_lower_exact ix).
Definition lookup_service_exact ix v := bucket_get v (ix_service_exact ix).
Definition lookup_service_exact_ci ix v :=
  bucket_get (to_lowercase v) (ix_service_lower_exact ix).
Definition lookup_host_exact ix v := bucket_get v (ix_host_exact ix).
Definition lookup_trace_id_exact ix v := bucket_get v (ix_trace_id_exact ix).
Definition lookup_parent_exact ix v := bucket_get v (ix_parent_exact ix).
Definition lookup_root_exact ix v := bucket_get v (ix_root_exact ix).

Definition lookup_tag_prefix ix p := prefix_search (ix_tag_sorted ix) p.
Definition lookup_tag_prefix_ci ix p := prefix_search (ix_tag_lower_sorted ix) (to_lowercase p).
Definition lookup_title_prefix ix p := prefix_search (ix_title_sorted ix) p.
Definition lookup_title_prefix_ci ix p :=
  prefix_search (ix_title_lower_sorted ix) (to_lowercase p).
Definition lookup_user_prefix ix p := prefix_search (ix_user_sorted ix) p.
Definition lookup_user_prefix_ci ix p := prefix_search (ix_user_lower_sorted ix) (to_lowercase p).
Definition lookup_service_prefix ix p := prefix_search (ix_service_sorted ix) p.
Definition lookup_service_prefix_ci ix p :=
  prefix_search (ix_service_lower_sorted ix) (to_lowercase p).
Definition lookup_host_prefix ix p := prefix_search (ix_host_sorted ix) p.

Definition lookup_created_gt ix t := bucket_range (λ k, t <? k) (ix_created_btree ix).
Definition lookup_created_gte ix t := bucket_range (λ k, t <=? k) (ix_created_btree ix).
Definition lookup_created_lt ix t := bucket_range (λ k, k <? t) (ix_created_btree ix).
Definition lookup_created_lte ix t := bucket_range (λ k, k <=? t) (ix_created_btree ix).
Definition lookup_created_eq ix t := bucket_get t (ix_created_btree ix).
Definition lookup_depth_gt ix d := bucket_range (λ k, d <? k) (ix_depth_btree ix).
Definition lookup_depth_gte ix d := bucket_range (λ k, d <=? k) (ix_depth_btree ix).
Definition lookup_depth_lt ix d := bucket_range (λ k, k <? d) (ix_depth_btree ix).
Definition lookup_depth_lte ix d := bucket_range (λ k, k <=? d) (ix_depth_btree ix).
Definition lookup_depth_eq ix d := bucket_get d (ix_depth_btree ix).

End Indexes.
