(* ===== verification/CqlExecutor.v ===== *)
(** * CqlExecutor: evaluation of CQL over the secondary indexes

    [server/src/cql/executor.rs]. The clock is the argument [now]: the readings during one
    execution are taken to be equal. *)

From S2P Require Import Prelude Bytes External Metadata TurnStore CqlAst CqlIndexes.

Open Scope N_scope.

(** An error of the executor: it has no position. *)
Definition exec_error {A} (ty : CqlErrorType) (message : rstr) : result CqlError A :=
  Err (mkCqlError ty message None None).

Definition expect {A} (message : rstr) (o : option A) : result CqlError A :=
  ok_or (mkCqlError InvalidValue message None None) o.

Definition unsupported {A} (op : Operator) (what : rstr) : result CqlError A :=
  exec_error InvalidOperator
    ($"Operator " ++ operator_debug op ++ $" not supported for " ++ what).

Inductive StringField : Type := SfTag | SfTitle | SfUser | SfService | SfHost.

Section Executor.
Context `{Unicode} `{RelativeDates} `{Chrono}.
Variable now : N.
Variable indexes : SecondaryIndexes.
Variable live_contexts : id_set.

(** The five [match field] of [execute_string_field]. *)
Definition field_exact (f : StringField) (s : rstr) : id_set :=
  match f with
  | SfTag => lookup_tag_exact indexes s
  | SfTitle => lookup_title_exact indexes s
  | SfUser => lookup_user_exact indexes s
  | SfService => lookup_service_exact indexes s
  | SfHost => lookup_host_exact indexes s
  end.
Definition field_exact_ci (f : StringField) (s : rstr) : id_set :=
  match f with
  | SfTag => lookup_tag_exact_ci indexes s
  | SfTitle => lookup_title_exact_ci indexes s
  | SfUser => lookup_user_exact_ci indexes s
  | SfService => lookup_service_exact_ci indexes s
  | SfHost => lookup_host_exact indexes s
  end.
Definition field_prefix (f : StringField) (s : rstr) : id_set :=
  match f with
  | SfTag => lookup_tag_prefix indexes s
  | SfTitle => lookup_title_prefix indexes s
  | SfUser => lookup_user_prefix indexes s
  | SfService => lookup_service_prefix indexes s
  | SfHost => lookup_host_prefix indexes s
  end.
Definition field_prefix_ci (f : StringField) (s : rstr) : id_set :=
  match f with
  | SfTag => lookup_tag_prefix_ci indexes s
  | SfTitle => lookup_title_prefix_ci indexes s
  | SfUser => lookup_user_prefix_ci indexes s
  | SfService => lookup_service_prefix_ci indexes s
  | SfHost => lookup_host_prefix indexes s
  end.

(** The [IN] loops: the union of the lookups of the elements that have the type. *)
Definition union_of {A} (as_a : CqlValue → option A) (lookup : A → id_set) (l : list CqlValue)
    : id_set :=
  foldl (λ acc v, match as_a v with Some a => acc ∪ lookup a | None => acc end) ∅ l.

Definition expected_string : rstr := $"Expected string value".
Definition expected_list : rstr := $"Expected list value for IN operator".

Definition execute_string_field (op : Operator) (value : CqlValue) (f : StringField)
    : result CqlError id_set :=
  match op with
  | OpEq => s ← expect expected_string (as_string value); Ok (field_exact f s)
  | OpEqCi => s ← expect expected_string (as_string value); Ok (field_exact_ci f s)
  | OpStarts => s ← expect expected_string (as_string value); Ok (field_prefix f s)
  | OpStartsCi => s ← expect expected_string (as_string value); Ok (field_prefix_ci f s)
  | OpNeq =>
      s ← expect expected_string (as_string value);
      Ok (all_contexts indexes ∖ field_exact f s)
  | OpIn =>
      l ← expect expected_list (as_list value);
      Ok (union_of as_string (field_exact f) l)
  | _ => unsupported op ($"string fields")
  end.

Definition execute_id (op : Operator) (value : CqlValue) : result CqlError id_set :=
  let one id := if bool_decide (id ∈ all_contexts indexes) then {[id]} else ∅ in
  match op with
  | OpEq => id ← expect ($"Expected numeric value for id") (as_u64 value); Ok (one id)
  | OpNeq =>
      id ← expect ($"Expected numeric value for id") (as_u64 value);
      Ok (all_contexts indexes ∖ {[id]})
  | OpIn => l ← expect expected_list (as_list value); Ok (union_of as_u64 one l)
  | _ => unsupported op ($"id field")
  end.

Definition execute_label (op : Operator) (value : CqlValue) : result CqlError id_set :=
  match op with
  | OpEq => s ← expect expected_string (as_string value); Ok (lookup_label_exact indexes s)
  | OpNeq =>
      s ← expect expected_string (as_string value);
      Ok (all_contexts indexes ∖ lookup_label_exact indexes s)
  | OpIn =>
      l ← expect expected_list (as_list value);
      Ok (union_of as_string (lookup_label_exact indexes) l)
  | _ => unsupported op ($"label field")
  end.

Definition execute_trace_id (op : Operator) (value : CqlValue) : result CqlError id_set :=
  match op with
  | OpEq => s ← expect expected_string (as_string value); Ok (lookup_trace_id_exact indexes s)
  | OpNeq =>
      s ← expect expected_string (as_string value);
      Ok (all_contexts indexes ∖ lookup_trace_id_exact indexes s)
  | _ => unsupported op ($"trace_id field")
  end.

Definition execute_parent (op : Operator) (value : CqlValue) : result CqlError id_set :=
  match op with
  | OpEq =>
      id ← expect ($"Expected numeric value for parent") (as_u64 value);
      Ok (lookup_parent_exact indexes id)
  | OpNeq =>
      id ← expect ($"Expected numeric value for parent") (as_u64 value);
      Ok (all_contexts indexes ∖ lookup_parent_exact indexes id)
  | OpIn =>
      l ← expect expected_list (as_list value);
      Ok (union_of as_u64 (lookup_parent_exact indexes) l)
  | _ => unsupported op ($"parent field")
  end.

Definition execute_root (op : Operator) (value : CqlValue) : result CqlError id_set :=
  match op with
  | OpEq =>
      id ← expect ($"Expected numeric value for root") (as_u64 value);
      Ok (lookup_root_exact indexes id)
  | OpNeq =>
      id ← expect ($"Expected numeric value for root") (as_u64 value);
      Ok (all_contexts indexes ∖ lookup_root_exact indexes id)
  | OpIn =>
      l ← expect expected_list (as_list value);
      Ok (union_of as_u64 (lookup_root_exact indexes) l)
  | _ => unsupported op ($"root field")
  end.

(** The arithmetic is on [u64] and wraps around in a release build. *)
Definition parse_relative_date (value : rstr) : result CqlError N :=
  '(digits, unit) ← expect ($"Invalid relative date format: " ++ value)
                      (relative_captures value);
  amount ← expect ($"Invalid number in relative date: " ++ value) (parse_u64 digits);
  millis ← (if bool_decide (unit = $"h") then Ok (wrap64 (amount * 60 * 60 * 1000))
            else if bool_decide (unit = $"d") then Ok (wrap64 (amount * 24 * 60 * 60 * 1000))
            else if bool_decide (unit = $"m") then Ok (wrap64 (amount * 60 * 1000))
            else exec_error InvalidValue ($"Invalid time unit: " ++ unit));
  Ok (wrap64 (now + U64 - millis)).

(** [millis as u64]. *)
Definition i64_as_u64 (z : Z) : N := Z.to_N (z mod 18446744073709551616).

Definition parse_absolute_date (value : rstr) : result CqlError N :=
  match parse_rfc3339_millis value with
  | Some ms => Ok (i64_as_u64 ms)
  | None =>
      match parse_date_millis value with
      | Some ms => Ok (i64_as_u64 ms)
      | None => exec_error InvalidValue ($"Invalid date format: " ++ value)
      end
  end.

Definition parse_date_value (value : CqlValue) : result CqlError N :=
  match value with
  | CDate v relative => if relative then parse_relative_date v else parse_absolute_date v
  | CString v => match parse_relative_date v with Ok ts => Ok ts | Err _ => parse_absolute_date v end
  | CNumber v => Ok (f64_as_u64 v)
  | CList _ => exec_error InvalidValue ($"Expected date value")
  end.

Definition execute_created (op : Operator) (value : CqlValue) : result CqlError id_set :=
  timestamp ← parse_date_value value;
  match op with
  | OpEq => Ok (lookup_created_eq indexes timestamp)
  | OpNeq => Ok (all_contexts indexes ∖ lookup_created_eq indexes timestamp)
  | OpGt => Ok (lookup_created_gt indexes timestamp)
  | OpGte => Ok (lookup_created_gte indexes timestamp)
  | OpLt => Ok (lookup_created_lt indexes timestamp)
  | OpLte => Ok (lookup_created_lte indexes timestamp)
  | _ => unsupported op ($"created field")
  end.

Definition execute_depth (op : Operator) (value : CqlValue) : result CqlError id_set :=
  depth ← expect ($"Expected numeric value for depth") (as_u64 value);
  let depth := wrap32 depth in
  match op with
  | OpEq => Ok (lookup_depth_eq indexes depth)
  | OpNeq => Ok (all_contexts indexes ∖ lookup_depth_eq indexes depth)
  | OpGt => Ok (lookup_depth_gt indexes depth)
  | OpGte => Ok (lookup_depth_gte indexes depth)
  | OpLt => Ok (lookup_depth_lt indexes depth)
  | OpLte => Ok (lookup_depth_lte indexes depth)
  | _ => unsupported op ($"depth field")
  end.

Definition execute_is_live (op : Operator) (value : CqlValue) : result CqlError id_set :=
  (match value with
   | CString v => Ok (bool_decide (v = $"true"))
   | _ => exec_error InvalidValue ($"Expected boolean value for is_live")
   end) ≫= λ is_live : bool,
  match op with
  | OpEq => Ok (if is_live then live_contexts else all_contexts indexes ∖ live_contexts)
  | _ => unsupported op ($"is_live field")
  end.

Definition execute_comparison (field : rstr) (op : Operator) (value : CqlValue)
    : result CqlError id_set :=
  field_name ← ok_or (mkCqlError UnknownField ($"Unknown field: " ++ field) None (Some field))
                 (field_from_str field);
  match field_name with
  | FId => execute_id op value
  | FTag => execute_string_field op value SfTag
  | FTitle => execute_string_field op value SfTitle
  | FLabel => execute_label op value
  | FUser => execute_string_field op value SfUser
  | FService => execute_string_field op value SfService
  | FHost => execute_string_field op value SfHost
  | FTraceId => execute_trace_id op value
  | FParent => execute_parent op value
  | FRoot => execute_root op value
  | FCreated => execute_created op value
  | FDepth => execute_depth op value
  | FIsLive => execute_is_live op value
  end.

Fixpoint execute (expr : Expression) : result CqlError id_set :=
  match expr with
  | EAnd lhs rhs =>
      left_result ← execute lhs;
      right_result ← execute rhs;
      Ok (left_result ∩ right_result)
  | EOr lhs rhs =>
      left_result ← execute lhs;
      right_result ← execute rhs;
      Ok (left_result ∪ right_result)
  | ENot inner =>
      inner_result ← execute inner;
      Ok (all_contexts indexes ∖ inner_result)
  | EComparison field operator value => execute_comparison field operator value
  end.

End Executor.
