(* ===== verification/CqlSemantics.v ===== *)
(** * CqlSemantics: what a query means

    The abstract content of the secondary indexes is a list of facts about contexts; the
    meaning of a query is a predicate on context ids over these facts. The theorems
    show that the index operations maintain the facts and that the executor computes the
    meaning. *)

From S2P Require Import Prelude Bytes External Metadata TurnStore CqlAst CqlIndexes CqlExecutor.

Open Scope N_scope.

(** ** The order of strings *)

Lemma starts_with_le s p : starts_with s p = true → str_le p s = true.
Proof.
  revert s; induction p as [|x p IH]; intros [|y s]; try done. cbn.
  intros [->%bool_decide_eq_true Hs]%andb_true_iff. by rewrite N.eqb_refl, (IH s), orb_true_r.
Qed.

(** The strings with a prefix are an interval from the prefix on. *)
Lemma starts_with_between s t p :
  str_le p s = true → starts_with s p = false → str_le s t = true → starts_with t p = false.
Proof.
  revert s t; induction p as [|x p IH]; intros [|y s] [|z t]; try done.
  rewrite !str_le_cons. cbn [starts_with]. intros Hps Hs Hst.
  apply andb_false_iff. destruct (decide (x = z)) as [<-|Hxz];
    [right|left; by apply bool_decide_eq_false].
  assert (Byte.to_N x = Byte.to_N y) as Hxy by lia.
  apply to_N_inj in Hxy as <-.
  rewrite bool_decide_eq_true_2 in Hs by done. cbn in Hs.
  destruct Hps as [?|[_ Hps]], Hst as [?|[_ Hst]]; [lia..|]. by eapply IH.
Qed.

(** ** Prefix search *)

Lemma collect_prefix_spec p l acc id :
  id ∈ collect_prefix p l acc ↔
  id ∈ acc ∨ ∃ s, (s, id) ∈ (take (partition_point (λ '(s, _), starts_with s p) l) l).
Proof.
  revert acc; induction l as [|[s i] l IH]; intros acc; cbn.
  - split; [by left|]. intros [?|(s & Hs)]; [done|]. by apply elem_of_nil in Hs.
  - destruct (starts_with s p) eqn:Hs; cbn [take].
    + rewrite IH, elem_of_union, elem_of_singleton. setoid_rewrite elem_of_cons. naive_solver.
    + split; [by left|]. intros [?|(s' & Hs')]; [done|]. by apply elem_of_nil in Hs'.
Qed.

Definition by_key (a b : rstr * N) : Prop := str_le a.1 b.1 = true.

Lemma take_prefix_spec p l s id :
  StronglySorted by_key l → Forall (λ x, str_le p x.1 = true) l →
  (s, id) ∈ take (partition_point (λ '(s, _), starts_with s p) l) l ↔
  (s, id) ∈ l ∧ starts_with s p = true.
Proof.
  induction 1 as [|[s' i] l Hl IH Hall]; intros Hp.
  { cbn. split; [by intros ?%elem_of_nil|by intros [?%elem_of_nil _]]. }
  inversion Hp as [|? ? Hps Hp']; subst. cbn. destruct (starts_with s' p) eqn:Hs'; cbn [take].
  - rewrite !elem_of_cons, IH by done. naive_solver.
  - split; [by intros ?%elem_of_nil|]. intros [[[= -> ->]|Hin]%elem_of_cons Hs]; [congruence|].
    rewrite Forall_forall in Hall. apply Hall in Hin. unfold by_key in Hin. cbn in *.
    by rewrite (starts_with_between s' s p) in Hs.
Qed.

Lemma partition_split {A} (p : A → bool) l :
  Forall (λ a, p a = true) (take (partition_point p l) l)
  ∧ match drop (partition_point p l) l with a :: _ => p a = false | [] => True end.
Proof.
  induction l as [|a l [IH1 IH2]]; [done|]. cbn. destruct (p a) eqn:Ha; cbn; [|done].
  split; [by constructor|done].
Qed.

Lemma prefix_search_spec l p id :
  StronglySorted by_key l →
  id ∈ prefix_search l p ↔ ∃ s, (s, id) ∈ l ∧ starts_with s p = true.
Proof.
  intros Hs.
  assert (prefix_search l p
    = collect_prefix p (drop (partition_point (λ '(s, _), str_lt s p) l) l) ∅) as ->
    by by destruct l.
  set (n := partition_point _ _).
  destruct (partition_split (λ '(s, _), str_lt s p) l) as [Hbefore Hafter].
  fold n in Hbefore, Hafter.
  assert (Hsd : StronglySorted by_key (drop n l)).
  { rewrite <- (take_drop n l) in Hs. revert Hs. generalize (take n l).
    induction l0 as [|x xs IH]; [done|]. cbn. inversion 1. auto. }
  assert (Hge : Forall (λ x, str_le p x.1 = true) (drop n l)).
  { destruct (drop n l) as [|[s i] k] eqn:Hd; [done|]. unfold str_lt in Hafter.
    apply negb_false_iff in Hafter. inversion Hsd as [|? ? _ Hall]; subst.
    constructor; [done|]. eapply Forall_impl; [done|]. intros x Hx.
    by eapply str_le_trans. }
  rewrite collect_prefix_spec. setoid_rewrite take_prefix_spec; [|done..]. split.
  - intros [?%elem_of_empty|(s & Hin & Hp)]; [done|]. exists s. split; [|done].
    rewrite <- (take_drop n l). apply elem_of_app. by right.
  - intros (s & Hin & Hp). right. exists s. split; [|done].
    rewrite <- (take_drop n l) in Hin. apply elem_of_app in Hin as [Hin|Hin]; [|done].
    rewrite Forall_forall in Hbefore. apply Hbefore in Hin. cbn in Hin. unfold str_lt in Hin.
    by rewrite (starts_with_le _ _ Hp) in Hin.
Qed.

(** ** Buckets *)

Section buckets.
Context `{Countable K}.

Lemma bucket_get_insert k id (m : gmap K id_set) k' id' :
  id' ∈ bucket_get k' (bucket_insert k id m) ↔ (k' = k ∧ id' = id) ∨ id' ∈ bucket_get k' m.
Proof.
  unfold bucket_get, bucket_insert. destruct (decide (k = k')) as [<-|Hne].
  - rewrite lookup_insert_eq. cbn. rewrite elem_of_union, elem_of_singleton. naive_solver.
  - rewrite lookup_insert_ne by done. naive_solver.
Qed.

Lemma bucket_get_insert_opt k id (m : gmap K id_set) k' id' :
  id' ∈ bucket_get k' (bucket_insert_opt k id m) ↔
  (k = Some k' ∧ id' = id) ∨ id' ∈ bucket_get k' m.
Proof.
  destruct k as [k|]; cbn; [rewrite bucket_get_insert|]; naive_solver.
Qed.

Lemma bucket_get_inserts l id (m : gmap K id_set) k' id' :
  id' ∈ bucket_get k' (foldl (λ m k, bucket_insert k id m) m l) ↔
  (k' ∈ l ∧ id' = id) ∨ id' ∈ bucket_get k' m.
Proof.
  revert m; induction l as [|k l IH]; intros m; cbn.
  - rewrite elem_of_nil. naive_solver.
  - rewrite IH, bucket_get_insert, elem_of_cons. naive_solver.
Qed.

Lemma bucket_get_empty k id : id ∉ bucket_get k (∅ : gmap K id_set).
Proof. unfold bucket_get. rewrite lookup_empty. cbn. set_solver. Qed.
End buckets.

Lemma bucket_range_spec p (m : gmap N id_set) id :
  id ∈ bucket_range p m ↔ ∃ k, p k = true ∧ id ∈ bucket_get k m.
Proof.
  unfold bucket_range.
  apply (map_fold_weak_ind (λ acc m, id ∈ acc ↔ ∃ k, p k = true ∧ id ∈ bucket_get k m)).
  - split; [by intros ?%elem_of_empty|]. by intros (k & _ & ?%bucket_get_empty).
  - intros k ids m' acc Hk IH. unfold bucket_get in *. split.
    + destruct (p k) eqn:Hp; [rewrite elem_of_union; intros [Hin|Hin]|intros Hin].
      * exists k. by rewrite lookup_insert_eq.
      * apply IH in Hin as (k' & ? & Hin). exists k'. rewrite lookup_insert_ne; [done|].
        intros <-. by rewrite Hk in Hin.
      * apply IH in Hin as (k' & ? & Hin). exists k'. rewrite lookup_insert_ne; [done|].
        intros <-. by rewrite Hk in Hin.
    + intros (k' & Hp' & Hin). destruct (decide (k = k')) as [<-|Hne].
      * rewrite lookup_insert_eq in Hin. rewrite Hp'. set_solver.
      * rewrite lookup_insert_ne in Hin by done.
        assert (id ∈ acc) by (apply IH; eauto). destruct (p k); set_solver.
Qed.

(** ** Facts and the index invariant *)

(** What has been said of contexts: which exist, their metadata, and their times and
    depths. *)
Record Facts : Type := mkFacts {
  fc_known : list N;
  fc_metas : list (N * ContextMetadata);
  fc_times : list (N * N * N)
}.

Definition no_facts : Facts := mkFacts [] [] [].

Definition opt_list {A} (o : option A) : list A := match o with Some a => [a] | None => [] end.

(** The values of each field. *)
Definition md_tag (md : ContextMetadata) : list rstr := opt_list (cm_client_tag md).
Definition md_title (md : ContextMetadata) : list rstr := opt_list (cm_title md).
Definition md_labels (md : ContextMetadata) : list rstr := default [] (cm_labels md).
Definition md_user (md : ContextMetadata) : list rstr :=
  opt_list (cm_provenance md ≫= pv_on_behalf_of).
Definition md_service (md : ContextMetadata) : list rstr :=
  opt_list (cm_provenance md ≫= pv_service_name).
Definition md_host (md : ContextMetadata) : list rstr :=
  opt_list (cm_provenance md ≫= pv_host_name).
Definition md_trace (md : ContextMetadata) : list rstr :=
  opt_list (cm_provenance md ≫= pv_trace_id).
Definition md_parent (md : ContextMetadata) : list N :=
  opt_list (cm_provenance md ≫= pv_parent_context_id).
Definition md_root (md : ContextMetadata) : list N :=
  opt_list (cm_provenance md ≫= pv_root_context_id).

(** [has F keys id k]: some metadata of [id] has the value [k] in the field [keys]. *)
Definition has {K} (F : Facts) (keys : ContextMetadata → list K) (id : N) (k : K) : Prop :=
  ∃ md, (id, md) ∈ fc_metas F ∧ k ∈ keys md.

Definition exact_ok `{Countable K} (F : Facts) (keys : ContextMetadata → list K)
    (m : gmap K id_set) : Prop :=
  ∀ k id, id ∈ bucket_get k m ↔ has F keys id k.

Definition listed_ok (F : Facts) (keys : ContextMetadata → list rstr) (l : list (rstr * N))
    : Prop :=
  ∀ k id, (k, id) ∈ l ↔ has F keys id k.

Section semantics.
Context `{Unicode} `{HashOrder}.

Definition lower (keys : ContextMetadata → list rstr) (md : ContextMetadata) : list rstr :=
  map to_lowercase (keys md).

(** The indexes contain the facts, in any order. *)
Record index_holds (ix : SecondaryIndexes) (F : Facts) : Prop := {
  ih_known : ∀ id, id ∈ ix_all_context_ids ix ↔ id ∈ fc_known F;
  ih_tag : exact_ok F md_tag (ix_tag_exact ix);
  ih_tag_l : exact_ok F (lower md_tag) (ix_tag_lower_exact ix);
  ih_title : exact_ok F md_title (ix_title_exact ix);
  ih_title_l : exact_ok F (lower md_title) (ix_title_lower_exact ix);
  ih_label : exact_ok F md_labels (ix_label_exact ix);
  ih_user : exact_ok F md_user (ix_user_exact ix);
  ih_user_l : exact_ok F (lower md_user) (ix_user_lower_exact ix);
  ih_service : exact_ok F md_service (ix_service_exact ix);
  ih_service_l : exact_ok F (lower md_service) (ix_service_lower_exact ix);
  ih_host : exact_ok F md_host (ix_host_exact ix);
  ih_trace : exact_ok F md_trace (ix_trace_id_exact ix);
  ih_parent : exact_ok F md_parent (ix_parent_exact ix);
  ih_root : exact_ok F md_root (ix_root_exact ix);
  ih_tag_s : listed_ok F md_tag (ix_tag_sorted ix);
  ih_tag_ls : listed_ok F (lower md_tag) (ix_tag_lower_sorted ix);
  ih_title_s : listed_ok F md_title (ix_title_sorted ix);
  ih_title_ls : listed_ok F (lower md_title) (ix_title_lower_sorted ix);
  ih_user_s : listed_ok F md_user (ix_user_sorted ix);
  ih_user_ls : listed_ok F (lower md_user) (ix_user_lower_sorted ix);
  ih_service_s : listed_ok F md_service (ix_service_sorted ix);
  ih_service_ls : listed_ok F (lower md_service) (ix_service_lower_sorted ix);
  ih_host_s : listed_ok F md_host (ix_host_sorted ix);
  ih_created : ∀ k id, id ∈ bucket_get k (ix_created_btree ix) ↔
    ∃ d, (id, k, d) ∈ fc_times F;
  ih_depth : ∀ k id, id ∈ bucket_get k (ix_depth_btree ix) ↔
    ∃ t, (id, t, k) ∈ fc_times F
}.

(** The lists for prefix search are sorted. *)
Definition index_sorted (ix : SecondaryIndexes) : Prop :=
  Forall (StronglySorted by_key)
    [ix_tag_sorted ix; ix_tag_lower_sorted ix; ix_title_sorted ix; ix_title_lower_sorted ix;
     ix_user_sorted ix; ix_user_lower_sorted ix; ix_service_sorted ix;
     ix_service_lower_sorted ix; ix_host_sorted ix].

Definition index_rep (ix : SecondaryIndexes) (F : Facts) : Prop :=
  index_holds ix F ∧ index_sorted ix.

Definition learn_id (id : N) (F : Facts) : Facts :=
  mkFacts (id :: fc_known F) (fc_metas F) (fc_times F).
Definition learn_meta (id : N) (md : ContextMetadata) (F : Facts) : Facts :=
  mkFacts (fc_known F) ((id, md) :: fc_metas F) (fc_times F).
Definition learn_times (id created depth : N) (F : Facts) : Facts :=
  mkFacts (fc_known F) (fc_metas F) ((id, created, depth) :: fc_times F).

Lemma has_learn {K} (F : Facts) (keys : ContextMetadata → list K) id md id' k :
  has (learn_meta id md F) keys id' k ↔ (k ∈ keys md ∧ id' = id) ∨ has F keys id' k.
Proof.
  unfold has. cbn. setoid_rewrite elem_of_cons. split.
  - intros (md' & [[= -> ->]|Hin] & Hk); [by left|right; eauto].
  - intros [[Hk ->]|(md' & Hin & Hk)]; eauto.
Qed.

Lemma elem_of_opt_list {A} (o : option A) a : a ∈ opt_list o ↔ o = Some a.
Proof. destruct o; cbn; rewrite ?list_elem_of_singleton, ?elem_of_nil; naive_solver. Qed.

Lemma exact_ok_opt `{Countable K} F (proj : ContextMetadata → option K) m id md :
  exact_ok F (λ md, opt_list (proj md)) m →
  exact_ok (learn_meta id md F) (λ md, opt_list (proj md)) (bucket_insert_opt (proj md) id m).
Proof.
  intros Hm k id'. rewrite bucket_get_insert_opt, has_learn, (Hm k id'), elem_of_opt_list. done.
Qed.

Lemma map_opt_list {A B} (f : A → B) (o : option A) : map f (opt_list o) = opt_list (f <$> o).
Proof. by destruct o. Qed.

Lemma elem_of_lower k (proj : ContextMetadata → option rstr) md :
  k ∈ lower (λ md, opt_list (proj md)) md ↔ to_lowercase <$> proj md = Some k.
Proof. unfold lower. by rewrite map_opt_list, elem_of_opt_list. Qed.

Lemma exact_ok_lower F (proj : ContextMetadata → option rstr) m id md :
  exact_ok F (lower (λ md, opt_list (proj md))) m →
  exact_ok (learn_meta id md F) (lower (λ md, opt_list (proj md)))
    (bucket_insert_opt (to_lowercase <$> proj md) id m).
Proof.
  intros Hm k id'. by rewrite bucket_get_insert_opt, has_learn, (Hm k id'), elem_of_lower.
Qed.

Lemma push_opt_elem k id l k' id' :
  (k', id') ∈ push_opt k id l ↔ (k = Some k' ∧ id' = id) ∨ (k', id') ∈ l.
Proof.
  destruct k as [k|]; cbn; rewrite ?elem_of_app, ?list_elem_of_singleton; naive_solver.
Qed.

Lemma listed_ok_opt F (proj : ContextMetadata → option rstr) l id md :
  listed_ok F (λ md, opt_list (proj md)) l →
  listed_ok (learn_meta id md F) (λ md, opt_list (proj md)) (push_opt (proj md) id l).
Proof.
  intros Hm k id'. rewrite push_opt_elem, has_learn, (Hm k id'), elem_of_opt_list. done.
Qed.

Lemma listed_ok_lower F (proj : ContextMetadata → option rstr) l id md :
  listed_ok F (lower (λ md, opt_list (proj md))) l →
  listed_ok (learn_meta id md F) (lower (λ md, opt_list (proj md)))
    (push_opt (to_lowercase <$> proj md) id l).
Proof.
  intros Hm k id'. by rewrite push_opt_elem, has_learn, (Hm k id'), elem_of_lower.
Qed.

Lemma index_metadata_holds ix F id md :
  index_holds ix F → index_holds (index_metadata id md ix) (learn_meta id md F).
Proof.
  intros [H1 H2 H3 H4 H5 H6 H7 H8 H9 H10 H11 H12 H13 H14 H15 H16 H17 H18 H19 H20 H21 H22 H23
    H24 H25].
  split; try done;
    first [ by apply (exact_ok_opt F cm_client_tag) | by apply (exact_ok_lower F cm_client_tag)
          | by apply (exact_ok_opt F cm_title) | by apply (exact_ok_lower F cm_title)
          | by apply (listed_ok_opt F cm_client_tag) | by apply (listed_ok_lower F cm_client_tag)
          | by apply (listed_ok_opt F cm_title) | by apply (listed_ok_lower F cm_title)
          | idtac ].
  - intros k id'. cbn. rewrite bucket_get_inserts, has_learn. by rewrite (H6 k id').
  - by apply (exact_ok_opt F (λ md, cm_provenance md ≫= pv_on_behalf_of)).
  - by apply (exact_ok_lower F (λ md, cm_provenance md ≫= pv_on_behalf_of)).
  - by apply (exact_ok_opt F (λ md, cm_provenance md ≫= pv_service_name)).
  - by apply (exact_ok_lower F (λ md, cm_provenance md ≫= pv_service_name)).
  - by apply (exact_ok_opt F (λ md, cm_provenance md ≫= pv_host_name)).
  - by apply (exact_ok_opt F (λ md, cm_provenance md ≫= pv_trace_id)).
  - by apply (exact_ok_opt F (λ md, cm_provenance md ≫= pv_parent_context_id)).
  - by apply (exact_ok_opt F (λ md, cm_provenance md ≫= pv_root_context_id)).
  - by apply (listed_ok_opt F (λ md, cm_provenance md ≫= pv_on_behalf_of)).
  - by apply (listed_ok_lower F (λ md, cm_provenance md ≫= pv_on_behalf_of)).
  - by apply (listed_ok_opt F (λ md, cm_provenance md ≫= pv_service_name)).
  - by apply (listed_ok_lower F (λ md, cm_provenance md ≫= pv_service_name)).
  - by apply (listed_ok_opt F (λ md, cm_provenance md ≫= pv_host_name)).
Qed.

Lemma add_id_holds ix F id : index_holds ix F → index_holds (add_id id ix) (learn_id id F).
Proof.
  intros [H1 ? ? ? ? ? ? ? ? ? ? ? ? ? ? ? ? ? ? ? ? ? ? ? ?]. split; try done.
  intros id'. cbn. by rewrite elem_of_union, elem_of_singleton, elem_of_cons, H1.
Qed.

Lemma add_times_holds ix F id created depth :
  index_holds ix F → index_holds (add_times id created depth ix) (learn_times id created depth F).
Proof.
  intros [? ? ? ? ? ? ? ? ? ? ? ? ? ? ? ? ? ? ? ? ? ? ? Hc Hd]. split; try done.
  - intros k id'. cbn. rewrite bucket_get_insert, Hc. setoid_rewrite elem_of_cons. naive_solver.
  - intros k id'. cbn. rewrite bucket_get_insert, Hd. setoid_rewrite elem_of_cons. naive_solver.
Qed.

Lemma pair_le_total a b : pair_le a b = false → pair_le b a = true.
Proof. apply str_le_total. Qed.
Lemma pair_le_trans a b c : pair_le a b = true → pair_le b c = true → pair_le a c = true.
Proof. apply str_le_trans. Qed.

Lemma sort_indexes_rep ix F : index_holds ix F → index_rep (sort_indexes ix) F.
Proof.
  intros [H1 H2 H3 H4 H5 H6 H7 H8 H9 H10 H11 H12 H13 H14 H15 H16 H17 H18 H19 H20 H21 H22 H23
    H24 H25].
  split; cycle 1.
  { unfold index_sorted. rewrite !Forall_cons. split_and!; try apply sort_by_sorted; try done;
      solve [apply pair_le_total | apply pair_le_trans | apply Forall_nil; done]. }
  split; try done; intros k id; cbn; rewrite elem_of_sort_by; done.
Qed.

(** Facts say the same when they have the same elements. *)
Definition same_facts (F G : Facts) : Prop :=
  (∀ id, id ∈ fc_known F ↔ id ∈ fc_known G)
  ∧ (∀ x, x ∈ fc_metas F ↔ x ∈ fc_metas G) ∧ (∀ x, x ∈ fc_times F ↔ x ∈ fc_times G).

Lemma index_holds_same ix F G : same_facts F G → index_holds ix F → index_holds ix G.
Proof.
  intros (Hk & Hm & Ht) [].
  assert (Hhas : ∀ K (keys : ContextMetadata → list K) id k, has F keys id k ↔ has G keys id k).
  { intros K keys id k. unfold has. by setoid_rewrite Hm. }
  split; [by setoid_rewrite <- Hk|..];
    try (by intros k id; rewrite <- Hhas); intros k id; by setoid_rewrite <- Ht.
Qed.

Lemma indexes_new_rep : index_rep indexes_new no_facts.
Proof.
  assert (Hno : ∀ K (keys : ContextMetadata → list K) id k, ¬ has no_facts keys id k).
  { by intros K keys id k (md & ?%elem_of_nil & _). }
  split; [|by repeat constructor].
  split; try (intros k id; cbn; split;
    [by intros ?%bucket_get_empty|intros H'; by apply Hno in H' || by destruct H' as (? & ?%elem_of_nil)]);
    try (intros k id; cbn; split; [by intros ?%elem_of_nil|intros H'; by apply Hno in H']).
  intros id. cbn. by rewrite elem_of_nil, elem_of_empty.
Qed.

(** ** Maintenance *)

(** What the metadata cache and the heads say. *)
Definition learn_cached (F : Facts) (kv : N * option ContextMetadata) : Facts :=
  match kv.2 with
  | Some md => learn_meta kv.1 md (learn_id kv.1 F)
  | None => learn_id kv.1 F
  end.
Definition learn_head (F : Facts) (h : ContextHead) : Facts :=
  learn_times (ch_context_id h) (ch_created_at_unix_ms h) (ch_head_depth h)
    (learn_id (ch_context_id h) F).

Definition cache_facts (cache : gmap N (option ContextMetadata)) (heads : list ContextHead)
    : Facts :=
  mkFacts ((map_to_list cache).*1 ++ map ch_context_id heads)
    (omap (λ '(id, md), pair id <$> md) (map_to_list cache))
    (map (λ h, (ch_context_id h, ch_created_at_unix_ms h, ch_head_depth h)) heads).

Lemma learn_cached_facts l F :
  same_facts (foldl learn_cached F l)
    (mkFacts (l.*1 ++ fc_known F) (omap (λ '(id, md), pair id <$> md) l ++ fc_metas F)
       (fc_times F)).
Proof.
  revert F; induction l as [|[id md] l IH]; intros F; [done|].
  destruct (IH (learn_cached F (id, md))) as (Hk & Hm & Ht). cbn [foldl].
  split_and!; intros x; [rewrite Hk|rewrite Hm|rewrite Ht]; destruct md; cbn;
    rewrite ?elem_of_app, ?elem_of_cons, ?elem_of_app; tauto.
Qed.

Lemma learn_head_facts l F :
  same_facts (foldl learn_head F l)
    (mkFacts (map ch_context_id l ++ fc_known F) (fc_metas F)
       (map (λ h, (ch_context_id h, ch_created_at_unix_ms h, ch_head_depth h)) l ++ fc_times F)).
Proof.
  revert F; induction l as [|h l IH]; intros F; [done|].
  destruct (IH (learn_head F h)) as (Hk & Hm & Ht). cbn [foldl].
  split_and!; intros x; [rewrite Hk|rewrite Hm|rewrite Ht]; cbn;
    rewrite ?elem_of_app, ?elem_of_cons, ?elem_of_app; tauto.
Qed.

Lemma fold_holds {A} (f : SecondaryIndexes → A → SecondaryIndexes) (g : Facts → A → Facts) l ix F :
  (∀ ix F a, index_holds ix F → index_holds (f ix a) (g F a)) →
  index_holds ix F → index_holds (foldl f ix l) (foldl g F l).
Proof. intros Hf. revert ix F; induction l; cbn; auto. Qed.

Lemma build_from_cache_rep `{!HashOrderLaws} cache heads :
  index_rep (build_from_cache cache heads indexes_new) (cache_facts cache heads).
Proof.
  apply sort_indexes_rep.
  eapply index_holds_same; cycle 1.
  - apply (fold_holds _ learn_head); [intros; by apply add_times_holds, add_id_holds|].
    apply (fold_holds _ learn_cached); [|apply indexes_new_rep].
    intros ix F [id [md|]] HF; [by apply index_metadata_holds, add_id_holds|by apply add_id_holds].
  - destruct (learn_head_facts heads (foldl learn_cached no_facts (hash_iter cache)))
      as (Hk & Hm & Ht).
    destruct (learn_cached_facts (hash_iter cache) no_facts) as (Hk' & Hm' & Ht').
    pose proof (hash_iter_perm cache) as Hp.
    split_and!; intros x; [rewrite Hk|rewrite Hm|rewrite Ht]; cbn.
    + rewrite !elem_of_app, Hk'. cbn. rewrite app_nil_r, Hp. tauto.
    + rewrite Hm'. cbn. by rewrite app_nil_r, Hp.
    + rewrite elem_of_app, Ht'. cbn. rewrite elem_of_nil. tauto.
Qed.

Definition learn_context (id : N) (md : option ContextMetadata) (created depth : N) (F : Facts)
    : Facts :=
  learn_times id created depth (learn_cached F (id, md)).

Lemma add_context_rep ix F id md created depth :
  index_rep ix F →
  index_rep (add_context id md created depth ix) (learn_context id md created depth F).
Proof.
  intros [Hh Hs]. destruct md as [md|]; cbn.
  - destruct (sort_indexes_rep _ _ (index_metadata_holds _ _ id md (add_id_holds _ _ id Hh)))
      as [Hh' Hs'].
    split; [by apply add_times_holds|done].
  - split; [by apply add_times_holds, add_id_holds|done].
Qed.

End semantics.

(** ** The meaning of a query *)

Section denotation.
Context `{Unicode} `{RelativeDates} `{Chrono}.

Definition sf_keys (f : StringField) : ContextMetadata → list rstr :=
  match f with
  | SfTag => md_tag | SfTitle => md_title | SfUser => md_user | SfService => md_service
  | SfHost => md_host
  end.

(** The field and the string as a case-insensitive operator compares them: the host
    is compared as it is. *)
Definition sf_keys_ci (f : StringField) : ContextMetadata → list rstr :=
  match f with SfHost => md_host | _ => lower (sf_keys f) end.
Definition sf_fold (f : StringField) (s : rstr) : rstr :=
  match f with SfHost => s | _ => to_lowercase s end.

Variable now : N.
Variable F : Facts.
Variable live : id_set.

Definition has_prefix (keys : ContextMetadata → list rstr) (id : N) (p : rstr) : Prop :=
  ∃ t, has F keys id t ∧ starts_with t p = true.

(** A test on the value of a comparison, and [IN]: the test holds of some element of the list. *)
Definition on {A} (as_a : CqlValue → option A) (v : CqlValue) (P : A → Prop) : Prop :=
  ∃ a, as_a v = Some a ∧ P a.
Definition on_some {A} (as_a : CqlValue → option A) (v : CqlValue) (P : A → Prop) : Prop :=
  ∃ l u, as_list v = Some l ∧ u ∈ l ∧ on as_a u P.

(** A known context of which a test does not hold. *)
Definition excluded (P : Prop) (id : N) : Prop := id ∈ fc_known F ∧ ¬ P.

Definition string_means (f : StringField) (op : Operator) (v : CqlValue) (id : N) : Prop :=
  match op with
  | OpEq => on as_string v (has F (sf_keys f) id)
  | OpEqCi => on as_string v (λ s, has F (sf_keys_ci f) id (sf_fold f s))
  | OpStarts => on as_string v (has_prefix (sf_keys f) id)
  | OpStartsCi => on as_string v (λ s, has_prefix (sf_keys_ci f) id (sf_fold f s))
  | OpNeq => on as_string v (λ s, excluded (has F (sf_keys f) id s) id)
  | OpIn => on_some as_string v (has F (sf_keys f) id)
  | _ => False
  end.

(** Equality with a key, its complement and membership in a list. *)
Definition key_means {A} (as_a : CqlValue → option A) (P : A → Prop) (op : Operator)
    (v : CqlValue) (id : N) : Prop :=
  match op with
  | OpEq => on as_a v P
  | OpNeq => on as_a v (λ a, excluded (P a) id)
  | OpIn => on_some as_a v P
  | _ => False
  end.

(** Comparison of a number of the context with a bound. *)
Definition order_means (P : N → Prop) (op : Operator) (bound id : N) : Prop :=
  match op with
  | OpEq => P bound
  | OpNeq => excluded (P bound) id
  | OpGt => ∃ k, bound < k ∧ P k
  | OpGte => ∃ k, bound ≤ k ∧ P k
  | OpLt => ∃ k, k < bound ∧ P k
  | OpLte => ∃ k, k ≤ bound ∧ P k
  | _ => False
  end.

Definition comparison_means (field : FieldName) (op : Operator) (v : CqlValue) (id : N)
    : Prop :=
  match field with
  | FId => key_means as_u64 (λ i, i = id ∧ id ∈ fc_known F) op v id
  | FTag => string_means SfTag op v id
  | FTitle => string_means SfTitle op v id
  | FLabel => key_means as_string (has F md_labels id) op v id
  | FUser => string_means SfUser op v id
  | FService => string_means SfService op v id
  | FHost => string_means SfHost op v id
  | FTraceId => key_means as_string (has F md_trace id) op v id
  | FParent => key_means as_u64 (has F md_parent id) op v id
  | FRoot => key_means as_u64 (has F md_root id) op v id
  | FCreated => ∃ t, parse_date_value now v = Ok t ∧
      order_means (λ k, ∃ d, (id, k, d) ∈ fc_times F) op t id
  | FDepth => ∃ n, as_u64 v = Some n ∧
      order_means (λ k, ∃ t, (id, t, k) ∈ fc_times F) op (wrap32 n) id
  | FIsLive => op = OpEq ∧ ∃ s, v = CString s ∧
      if decide (s = $"true") then id ∈ live else excluded (id ∈ live) id
  end.

(** [means e id]: the context satisfies the query. *)
Fixpoint means (e : Expression) (id : N) : Prop :=
  match e with
  | EAnd a b => means a id ∧ means b id
  | EOr a b => means a id ∨ means b id
  | ENot a => excluded (means a id) id
  | EComparison field op v =>
      ∃ f, field_from_str field = Some f ∧ comparison_means f op v id
  end.

(** ** The executor computes the meaning *)

Section correct.
Context `{!HashOrder}.
Variable ix : SecondaryIndexes.
Hypothesis Hix : index_rep ix F.

Lemma on_expect {A} (as_a : CqlValue → option A) msg v (k : A → id_set) S P id :
  (s ← expect msg (as_a v); Ok (k s)) = Ok S →
  (∀ a, id ∈ k a ↔ P a) → id ∈ S ↔ on as_a v P.
Proof.
  unfold on, expect. destruct (as_a v) as [a|]; cbn; [intros [= <-] ->|done]. naive_solver.
Qed.

Lemma elem_of_union_of {A} (as_a : CqlValue → option A) lookup l id :
  id ∈ union_of as_a lookup l ↔ ∃ u, u ∈ l ∧ on as_a u (λ a, id ∈ lookup a).
Proof.
  unfold union_of, on.
  assert (Hacc : ∀ acc, id ∈ foldl (λ acc v, match as_a v with
      | Some a => acc ∪ lookup a | None => acc end) acc l ↔
      id ∈ acc ∨ ∃ u, u ∈ l ∧ ∃ a, as_a u = Some a ∧ id ∈ lookup a).
  { induction l as [|u l IH]; intros acc; cbn.
    - setoid_rewrite elem_of_nil. naive_solver.
    - rewrite IH. setoid_rewrite elem_of_cons. destruct (as_a u) as [a|] eqn:Ha.
      + rewrite elem_of_union. naive_solver.
      + naive_solver. }
  rewrite Hacc. set_solver.
Qed.

Lemma on_some_expect {A} (as_a : CqlValue → option A) msg v (k : A → id_set) S P id :
  (l ← expect msg (as_list v); Ok (union_of as_a k l)) = Ok S →
  (∀ a, id ∈ k a ↔ P a) → id ∈ S ↔ on_some as_a v P.
Proof.
  intros HS HP. unfold on_some. rewrite (on_expect as_list msg v _ _
    (λ l, ∃ u, u ∈ l ∧ on as_a u P) id HS).
  - unfold on. naive_solver.
  - intros l. rewrite elem_of_union_of. unfold on. by setoid_rewrite HP.
Qed.

Lemma elem_of_excluded (S : id_set) P id :
  (id ∈ S ↔ P) → id ∈ all_contexts ix ∖ S ↔ excluded P id.
Proof.
  intros HP. unfold excluded, all_contexts.
  by rewrite elem_of_difference, HP, (ih_known _ _ (proj1 Hix)).
Qed.

Lemma key_means_correct {A} (as_a : CqlValue → option A) msg msg' what (k : A → id_set) op v S P id :
  (∀ a, id ∈ k a ↔ P a) →
  match op with
  | OpEq => a ← expect msg (as_a v); Ok (k a)
  | OpNeq => a ← expect msg (as_a v); Ok (all_contexts ix ∖ k a)
  | OpIn => l ← expect msg' (as_list v); Ok (union_of as_a k l)
  | _ => unsupported op what
  end = Ok S →
  id ∈ S ↔ key_means as_a P op v id.
Proof.
  intros HP. destruct op; cbn [key_means]; try done; intros HS.
  - by apply (on_expect _ _ _ _ _ _ _ HS).
  - apply (on_expect _ _ _ _ _ _ _ HS). intros a. by apply elem_of_excluded.
  - by apply (on_some_expect _ _ _ _ _ _ _ HS).
Qed.

Lemma prefix_correct keys l p id :
  listed_ok F keys l → StronglySorted by_key l →
  id ∈ prefix_search l p ↔ has_prefix keys id p.
Proof.
  intros Hl Hs. rewrite prefix_search_spec by done. unfold has_prefix. by setoid_rewrite (Hl _ id).
Qed.

Lemma field_lookups f id s :
  (id ∈ field_exact ix f s ↔ has F (sf_keys f) id s)
  ∧ (id ∈ field_exact_ci ix f s ↔ has F (sf_keys_ci f) id (sf_fold f s))
  ∧ (id ∈ field_prefix ix f s ↔ has_prefix (sf_keys f) id s)
  ∧ (id ∈ field_prefix_ci ix f s ↔ has_prefix (sf_keys_ci f) id (sf_fold f s)).
Proof.
  destruct Hix as [[] Hs]. unfold index_sorted in Hs. rewrite !Forall_cons in Hs.
  destruct Hs as (?&?&?&?&?&?&?&?&?&_).
  destruct f; split_and!; cbn; first [ by apply prefix_correct | done | idtac ];
    match goal with Hok : exact_ok F _ _ |- _ => apply Hok end.
Qed.

Lemma string_means_correct op v f S id :
  execute_string_field ix op v f = Ok S → id ∈ S ↔ string_means f op v id.
Proof.
  pose proof (field_lookups f id) as Hl. unfold execute_string_field.
  destruct op; cbn [string_means]; try done; intros HS;
    try (apply (on_expect _ _ _ _ _ _ _ HS); intros s; apply Hl).
  - apply (on_expect _ _ _ _ _ _ _ HS). intros s. apply elem_of_excluded, Hl.
  - apply (on_some_expect _ _ _ _ _ _ _ HS). intros s. apply Hl.
Qed.

(** A range lookup of a map that has the numbers [P] of each context. *)
Lemma range_correct (m : gmap N id_set) P (p : N → bool) id :
  (∀ k, id ∈ bucket_get k m ↔ P k) →
  id ∈ bucket_range p m ↔ ∃ k, p k = true ∧ P k.
Proof. intros Hm. rewrite bucket_range_spec. by setoid_rewrite Hm. Qed.

Lemma order_means_correct (m : gmap N id_set) P op t what S id :
  (∀ k, id ∈ bucket_get k m ↔ P k) →
  match op with
  | OpEq => Ok (bucket_get t m)
  | OpNeq => Ok (all_contexts ix ∖ bucket_get t m)
  | OpGt => Ok (bucket_range (λ k, t <? k) m)
  | OpGte => Ok (bucket_range (λ k, t <=? k) m)
  | OpLt => Ok (bucket_range (λ k, k <? t) m)
  | OpLte => Ok (bucket_range (λ k, k <=? t) m)
  | _ => unsupported op what
  end = Ok S →
  id ∈ S ↔ order_means P op t id.
Proof.
  intros HP. destruct op; cbn [order_means]; try done; intros [= <-];
    try (rewrite (range_correct m P) by done; by setoid_rewrite N.ltb_lt || setoid_rewrite N.leb_le).
  - done.
  - by apply elem_of_excluded.
Qed.

Lemma is_live_correct op v S id :
  execute_is_live ix live op v = Ok S →
  id ∈ S ↔ comparison_means FIsLive op v id.
Proof.
  unfold execute_is_live. cbn [comparison_means].
  destruct v as [s| | |]; try done. cbn. destruct op; try done. intros [= <-].
  destruct (decide (s = $"true")) as [->|Hs].
  - rewrite bool_decide_eq_true_2 by done. split; [by eauto|]. intros (_ & s & [= <-] & Hs).
    by rewrite decide_True in Hs.
  - rewrite bool_decide_eq_false_2 by done. rewrite elem_of_excluded by done. split.
    + intros Hx. split; [done|]. exists s. by rewrite decide_False.
    + intros (_ & s' & [= <-] & Hx). by rewrite decide_False in Hx.
Qed.

Lemma id_correct op v S id :
  execute_id ix op v = Ok S → id ∈ S ↔ comparison_means FId op v id.
Proof.
  pose proof (ih_known _ _ (proj1 Hix) id) as Hid. unfold execute_id. cbn [comparison_means].
  assert (Hone : ∀ a, id ∈ (if bool_decide (a ∈ all_contexts ix) then {[a]} else ∅ : id_set) ↔
    a = id ∧ id ∈ fc_known F).
  { intros a. unfold all_contexts. case_bool_decide; set_solver. }
  destruct op; cbn [key_means]; try done; intros HS.
  - by apply (on_expect _ _ _ _ _ _ _ HS).
  - apply (on_expect _ _ _ _ _ _ _ HS). intros a. unfold excluded, all_contexts. set_solver.
  - by apply (on_some_expect _ _ _ _ _ _ _ HS).
Qed.

Lemma trace_id_correct op v S id :
  execute_trace_id ix op v = Ok S → id ∈ S ↔ comparison_means FTraceId op v id.
Proof.
  cbn [comparison_means]. unfold execute_trace_id.
  destruct op; cbn [key_means]; try done; intros HS; apply (on_expect _ _ _ _ _ _ _ HS);
    intros a; [|apply elem_of_excluded]; apply (ih_trace _ _ (proj1 Hix)).
Qed.

Lemma comparison_correct field op v S id :
  execute_comparison now ix live field op v = Ok S →
  id ∈ S ↔ ∃ f, field_from_str field = Some f ∧ comparison_means f op v id.
Proof.
  unfold execute_comparison. destruct (field_from_str field) as [f|]; [cbn|done]. intros HS.
  assert (id ∈ S ↔ comparison_means f op v id) as ->; [|naive_solver].
  destruct f; try (by apply string_means_correct); try (by apply is_live_correct);
    try (by apply id_correct); try (by apply trace_id_correct);
    destruct Hix as [[] _]; cbn [comparison_means].
  - eapply key_means_correct; [|exact HS]. intros a. apply ih_label0.
  - eapply key_means_correct; [|exact HS]. intros a. apply ih_parent0.
  - eapply key_means_correct; [|exact HS]. intros a. apply ih_root0.
  - unfold execute_created in HS. destruct (parse_date_value now v) as [t|]; [cbn in HS|done].
    rewrite (order_means_correct _ _ _ _ _ _ _ (λ k, ih_created0 k id) HS). naive_solver.
  - unfold execute_depth, expect in HS. destruct (as_u64 v) as [n|]; [cbn in HS|done].
    rewrite (order_means_correct _ _ _ _ _ _ _ (λ k, ih_depth0 k id) HS). naive_solver.
Qed.

Lemma execute_correct e S id : execute now ix live e = Ok S → id ∈ S ↔ means e id.
Proof.
  revert S; induction e as [a IHa b IHb|a IHa b IHb|a IHa|field op v]; intros S HS;
    cbn [execute means] in *.
  - inv_result HS. rewrite elem_of_intersection, IHa, IHb by done. done.
  - inv_result HS. rewrite elem_of_union, IHa, IHb by done. done.
  - inv_result HS. by apply elem_of_excluded, IHa.
  - by apply comparison_correct.
Qed.
End correct.
End denotation.

(** ** Errors *)

Section errors.
Context `{Unicode} `{RelativeDates} `{Chrono}.

(** The operators of each field and the values they take. *)
Definition is_some {A} (o : option A) : bool := bool_decide (is_Some o).

Definition typed_comparison (now : N) (field : FieldName) (op : Operator) (v : CqlValue) : bool :=
  match field, op with
  | FIsLive, OpEq => match v with CString _ => true | _ => false end
  | FIsLive, _ => false
  | FCreated, (OpEq | OpNeq | OpGt | OpGte | OpLt | OpLte) => is_ok (parse_date_value now v)
  | FDepth, (OpEq | OpNeq | OpGt | OpGte | OpLt | OpLte) => is_some (as_u64 v)
  | (FCreated | FDepth), _ => false
  | (FId | FParent | FRoot), (OpEq | OpNeq) => is_some (as_u64 v)
  | FTraceId, OpIn => false
  | _, OpIn => is_some (as_list v)
  | (FTraceId | FLabel), (OpEq | OpNeq) => is_some (as_string v)
  | (FTag | FTitle | FUser | FService | FHost), (OpEq | OpNeq | OpEqCi | OpStarts | OpStartsCi) =>
      is_some (as_string v)
  | _, _ => false
  end.

Fixpoint well_typed (now : N) (e : Expression) : bool :=
  match e with
  | EAnd a b | EOr a b => well_typed now a && well_typed now b
  | ENot a => well_typed now a
  | EComparison field op v =>
      match field_from_str field with Some f => typed_comparison now f op v | None => false end
  end.

Definition error {E A} (r : result E A) : option E :=
  match r with Ok _ => None | Err e => Some e end.

Lemma error_comparison now ix ix' live live' field op v :
  error (execute_comparison now ix live field op v)
  = error (execute_comparison now ix' live' field op v).
Proof.
  unfold execute_comparison. destruct (field_from_str field) as [f|]; [cbn|done].
  destruct f, op; cbn; unfold execute_created, execute_depth, execute_is_live;
    destruct (parse_date_value now v), v; try done; destruct relative; done.
Qed.

Lemma typed_comparison_ok now ix live field op v :
  is_ok (execute_comparison now ix live field op v)
  = match field_from_str field with Some f => typed_comparison now f op v | None => false end.
Proof.
  unfold execute_comparison. destruct (field_from_str field) as [f|]; [cbn|done].
  destruct f, op; cbn; unfold execute_created, execute_depth, execute_is_live;
    destruct (parse_date_value now v), v; try done; destruct relative; done.
Qed.

Lemma execute_is_ok now ix live e : is_ok (execute now ix live e) = well_typed now e.
Proof.
  induction e as [a IHa b IHb|a IHa b IHb|a IHa|field op v]; cbn; rewrite <- ?IHa, <- ?IHb.
  - by destruct (execute now ix live a), (execute now ix live b).
  - by destruct (execute now ix live a), (execute now ix live b).
  - by destruct (execute now ix live a).
  - apply typed_comparison_ok.
Qed.

Lemma execute_error_same now ix ix' live live' e :
  error (execute now ix' live' e) = error (execute now ix live e).
Proof.
  induction e as [a IHa b IHb|a IHa b IHb|a IHa|field op v]; cbn; [| | |apply error_comparison];
    destruct (execute now ix live a), (execute now ix' live' a); simplify_eq/=; try done;
    destruct (execute now ix live b), (execute now ix' live' b); simplify_eq/=; done.
Qed.
End errors.

(** ** The properties *)

Section properties.
Context `{Unicode} `{RelativeDates} `{Chrono} `{HashOrderLaws}.

Lemma fold_context_rep ix F (news : list (N * option ContextMetadata * N * N)) :
  index_rep ix F →
  index_rep (foldl (λ ix '(id, md, created, depth), add_context id md created depth ix) ix news)
    (foldl (λ F '(id, md, created, depth), learn_context id md created depth F) F news).
Proof.
  revert ix F. induction news as [|[[[id md] created] depth] news IH]; intros ix F Hix; [done|].
  cbn. apply IH. by apply add_context_rep.
Qed.

(** C24. The indexes built from the metadata cache and the heads at start, and then given every
    new context with its metadata, contain exactly the facts: each of the 25 maps
    and lists answers for its field, with and without case, and the lists for prefix search
    are sorted, so that a search by bisection finds the matches. *)
Theorem indexes_maintained cache heads
    (news : list (N * option ContextMetadata * N * N)) :
  index_rep
    (foldl (λ ix '(id, md, created, depth), add_context id md created depth ix)
       (build_from_cache cache heads indexes_new) news)
    (foldl (λ F '(id, md, created, depth), learn_context id md created depth F)
       (cache_facts cache heads) news).
Proof. apply fold_context_rep, build_from_cache_rep. Qed.

(** C26. Query execution is correct: over indexes that contain some facts, the set a
    query returns consists of the contexts that satisfy the query, a predicate over the facts in
    which the connectives are the logical ones, each operator compares the
    values of the field, and negation is relative to the known contexts. *)
Theorem execute_denotes now live ix F e S :
  index_rep ix F → execute now ix live e = Ok S → ∀ id, id ∈ S ↔ means now F live e id.
Proof. intros Hix HS id. by apply (execute_correct now F live ix Hix). Qed.

(** Errors are static: a query executes if and only if each of its fields exists
    and has an operator and a value of a kind the field takes, and the error of one
    that does not is the same whatever the indexes contain. *)
Theorem execute_errors now ix live e :
  is_ok (execute now ix live e) = well_typed now e
  ∧ ∀ ix' live', error (execute now ix' live' e) = error (execute now ix live e).
Proof. split; [apply execute_is_ok|intros; apply execute_error_same]. Qed.
End properties.

Module CqlSemanticsWitness.

#[local] Existing Instances Sample.unicode Sample.relative_dates Sample.chrono Sample.order
  Sample.order_laws.

Definition md (tag : rstr) : ContextMetadata := mkContextMetadata (Some tag) None None None.

(** Two contexts from the files and one new. *)
Definition cache : gmap N (option ContextMetadata) := {[1 := Some (md ($"Bot")); 2 := None]}.
Definition heads : list ContextHead := [mkContextHead 1 5 3 1000 0; mkContextHead 2 0 0 2000 0].
Definition news : list (N * option ContextMetadata * N * N) := [(3, Some (md ($"bot-2")), 3000, 1)].

Definition ix : SecondaryIndexes :=
  foldl (λ ix '(id, md, created, depth), add_context id md created depth ix)
    (build_from_cache cache heads indexes_new) news.
Definition F : Facts :=
  foldl (λ F '(id, md, created, depth), learn_context id md created depth F)
    (cache_facts cache heads) news.

Lemma indexes_maintained_witness : index_rep ix F.
Proof. apply (indexes_maintained cache heads news). Defined.

(** [tag ^~= "BOT" AND NOT depth = 1] finds the first context. *)
Definition query : Expression :=
  EAnd (EComparison ($"tag") OpStartsCi (CString ($"BOT")))
    (ENot (EComparison ($"depth") OpEq (CNumber (f64_of_decimal false 1 0)))).

Lemma execute_denotes_witness :
  execute 0 ix ∅ query = Ok {[1]} ∧ (1 ∈ ({[1]} : id_set) ↔ means 0 F ∅ query 1).
Proof.
  split; [by vm_compute|].
  apply (execute_denotes 0 ∅ ix F query {[1]});
    [apply fold_context_rep, build_from_cache_rep|by vm_compute].
Defined.

End CqlSemanticsWitness.
