(* ===== verification/Store.v ===== *)
(** * Store: blobs, turns, snapshots, metadata and search together

    [server/src/store.rs]. The store composes the components and keeps two things of its own:
    the cache of context metadata and the secondary indexes. The mutex around the cache is
    not modelled: every operation holds the store's lock for its whole duration. *)

From S2P Require Import Prelude Bytes External BlobStore TurnStore FsStore Metadata CqlAst.
From S2P Require Import CqlParser CqlIndexes CqlExecutor.

Open Scope N_scope.

Record TurnWithMeta : Type := mkTurnWithMeta {
  twm_record : TurnRecord;
  twm_meta : TurnMeta;
  twm_payload : option bytes
}.

Record SearchResult : Type := mkSearchResult {
  sr_context_ids : list N;
  sr_total_count : N;
  sr_query : CqlQuery;
  sr_elapsed_ms : N
}.

Record Store : Type := mkStore {
  st_blob_store : BlobStore;
  st_turn_store : TurnStore;
  st_fs_roots : FsRootsIndex;
  st_cache : gmap N (option ContextMetadata);
  st_indexes : SecondaryIndexes
}.

Record StoreStats : Type := mkStoreStats {
  ss_turns_total : N;
  ss_contexts_total : N;
  ss_heads_total : N;
  ss_blobs_total : N;
  ss_turns_log_bytes : N;
  ss_turns_index_bytes : N;
  ss_turns_meta_bytes : N;
  ss_heads_table_bytes : N;
  ss_blobs_pack_bytes : N;
  ss_blobs_index_bytes : N;
  ss_fs_roots_total : N;
  ss_fs_roots_bytes : N;
  ss_fs_content_bytes : N
}.

Definition with_blobs (b : BlobStore) (s : Store) : Store :=
  mkStore b (st_turn_store s) (st_fs_roots s) (st_cache s) (st_indexes s).
Definition with_turns (t : TurnStore) (s : Store) : Store :=
  mkStore (st_blob_store s) t (st_fs_roots s) (st_cache s) (st_indexes s).
Definition with_roots (r : FsRootsIndex) (s : Store) : Store :=
  mkStore (st_blob_store s) (st_turn_store s) r (st_cache s) (st_indexes s).
Definition with_cache (c : gmap N (option ContextMetadata)) (s : Store) : Store :=
  mkStore (st_blob_store s) (st_turn_store s) (st_fs_roots s) c (st_indexes s).
Definition with_indexes (ix : SecondaryIndexes) (s : Store) : Store :=
  mkStore (st_blob_store s) (st_turn_store s) (st_fs_roots s) (st_cache s) ix.

(** [u32::MAX]. *)
Definition u32_max : N := 4294967295.

(** [a > b], the order of [sort_by(|a, b| b.cmp(a))]. *)
Definition id_ge (a b : N) : bool := b <=? a.

(** The elements of a [HashSet<u64>] in iteration order. *)
Definition set_iter `{HashOrder} (s : id_set) : list N := (hash_iter (gset_to_gmap tt s)).*1.

Section Store.
Context `{Crc32} `{Blake3} `{Zstd} `{PreadSchedule} `{HashOrder} `{Msgpack} `{Unicode}
  `{RelativeDates} `{Chrono}.

#[export] Instance blob_store_reader : BlobReader BlobStore := BlobStore.get.

(** ** Metadata *)

Definition load_context_metadata (context_id : N) (s : Store) : option ContextMetadata :=
  first_turn ← result_ok (get_first_turn (st_turn_store s) context_id);
  payload ← result_ok (BlobStore.get (st_blob_store s) (tr_payload_hash first_turn));
  extract_context_metadata payload.

Definition get_context_metadata (context_id : N) (s : Store) : option ContextMetadata * Store :=
  match st_cache s !! context_id with
  | Some cached => (cached, s)
  | None =>
      let metadata := load_context_metadata context_id s in
      (metadata, with_cache (<[context_id := metadata]> (st_cache s)) s)
  end.

Definition maybe_cache_metadata (context_id : N) (payload : bytes) (s : Store)
    : option ContextMetadata * Store :=
  match st_cache s !! context_id with
  | None =>
      let metadata := extract_context_metadata payload in
      (metadata, with_cache (<[context_id := metadata]> (st_cache s)) s)
  | Some _ => (None, s)
  end.

(** ** Opening *)

Definition build_indexes (s : Store) : Store :=
  let heads := TurnStore.list_recent_contexts (st_turn_store s) u32_max in
  let s := foldl (λ s head, (get_context_metadata (ch_context_id head) s).2) s heads in
  with_indexes (build_from_cache (st_cache s) heads (st_indexes s)) s.

(** [Store::open] on the files of the three components. *)
Definition open (pack idx log tidx meta heads roots : bytes) : result StoreError Store :=
  blob_store ← BlobStore.open pack idx;
  turn_store ← TurnStore.open log tidx meta heads;
  fs_roots ← FsStore.open roots;
  Ok (build_indexes (mkStore blob_store turn_store fs_roots ∅ indexes_new)).

(** ** Contexts and turns *)

Definition create_context (base_turn_id now : N) (s : Store)
    : result StoreError ContextHead * Store :=
  let (r, t) := TurnStore.create_context base_turn_id now (st_turn_store s) in
  (r, with_turns t s).

Definition fork_context (base_turn_id now : N) (s : Store)
    : result StoreError ContextHead * Store :=
  let (r, t) := TurnStore.fork_context base_turn_id now (st_turn_store s) in
  (r, with_turns t s).

Definition get_head (s : Store) (context_id : N) : result StoreError ContextHead :=
  TurnStore.get_head (st_turn_store s) context_id.

(** The bytes of a payload before compression. *)
Definition decompress (compression : N) (payload_bytes : bytes) : result StoreError bytes :=
  if compression =? 0 then Ok payload_bytes
  else if compression =? 1 then
    map_err (λ e, InvalidInput ($"zstd decode failed: " ++ e)) (zstd_decode_all payload_bytes)
  else Err (InvalidInput ($"unsupported compression: " ++ show_N compression)).

(** The checks of [append_turn] before the first write. *)
Definition check_payload (compression uncompressed_len : N) (content_hash payload_bytes : bytes)
    : result StoreError bytes :=
  raw_bytes ← decompress compression payload_bytes;
  if negb (wrap32 (len raw_bytes) =? uncompressed_len)
  then Err (InvalidInput ($"uncompressed length mismatch"))
  else if negb (bool_decide (blake3 raw_bytes = content_hash))
  then Err (InvalidInput ($"content hash mismatch"))
  else Ok raw_bytes.

(** The update of the secondary indexes at the end of [append_turn]. *)
Definition index_append (context_id depth : N) (metadata : option ContextMetadata) (s : Store)
    : result StoreError Store :=
  match metadata with
  | Some md =>
      head ← get_head s context_id;
      Ok (with_indexes (add_context context_id (Some md) (ch_created_at_unix_ms head) depth
                          (st_indexes s)) s)
  | None => Ok s
  end.

Definition append_turn (context_id parent_turn_id : N) (declared_type_id : rstr)
    (declared_type_version encoding compression uncompressed_len : N)
    (content_hash payload_bytes : bytes) (now : N) (s : Store)
    : result StoreError (TurnRecord * option ContextMetadata) * Store :=
  match check_payload compression uncompressed_len content_hash payload_bytes with
  | Err e => (Err e, s)
  | Ok raw_bytes =>
      let (put, blobs) := put_if_absent content_hash raw_bytes (st_blob_store s) in
      let s := with_blobs blobs s in
      match put with
      | Err e => (Err e, s)
      | Ok _ =>
          let (appended, turns) :=
            TurnStore.append_turn context_id parent_turn_id content_hash encoding
              declared_type_id declared_type_version compression uncompressed_len now
              (st_turn_store s) in
          let s := with_turns turns s in
          match appended with
          | Err e => (Err e, s)
          | Ok record =>
              let (metadata, s) := maybe_cache_metadata context_id raw_bytes s in
              match index_append context_id (tr_depth record) metadata s with
              | Err e => (Err e, s)
              | Ok s => (Ok (record, metadata), s)
              end
          end
      end
  end.

(** One turn of [get_last] and [get_before] with its metadata and payload. *)
Definition with_meta (s : Store) (include_payload : bool) (record : TurnRecord)
    : result StoreError TurnWithMeta :=
  meta ← get_turn_meta (st_turn_store s) (tr_turn_id record);
  payload ← (if include_payload
             then p ← BlobStore.get (st_blob_store s) (tr_payload_hash record); Ok (Some p)
             else Ok None);
  Ok (mkTurnWithMeta record meta payload).

Definition get_last (s : Store) (context_id limit : N) (include_payload : bool)
    : result StoreError (list TurnWithMeta) :=
  turns ← TurnStore.get_last (st_turn_store s) context_id limit;
  try_map (with_meta s include_payload) turns.

Definition get_before (s : Store) (context_id before_turn_id limit : N) (include_payload : bool)
    : result StoreError (list TurnWithMeta) :=
  turns ← TurnStore.get_before (st_turn_store s) context_id before_turn_id limit;
  try_map (with_meta s include_payload) turns.

Definition get_blob (s : Store) (hash : bytes) : result StoreError bytes :=
  BlobStore.get (st_blob_store s) hash.

Definition list_recent_contexts (limit : N) (s : Store) : list ContextHead :=
  TurnStore.list_recent_contexts (st_turn_store s) limit.

Definition list_contexts_by_label (label : rstr) (limit : N) (s : Store) : list ContextHead :=
  let matching_ids := set_iter (lookup_label_exact (st_indexes s) label) in
  let heads := omap (λ id, result_ok (TurnStore.get_head (st_turn_store s) id)) matching_ids in
  truncate limit (sort_by more_recent heads).

(** ** Children and descendants *)

Definition child_context_ids (parent_context_id : N) (s : Store) : list N :=
  sort_by id_ge (set_iter (lookup_parent_exact (st_indexes s) parent_context_id)).

(** The loop of [descendant_context_ids]: the queue, the visited ids and the output. The
    number of iterations is at most the number of the ids that were ever queued
    ([descendants_loop_spec]). *)
Fixpoint descendants_loop (fuel : nat) (s : Store) (limit : option N) (queue : list N)
    (visited : id_set) (out : list N) : list N :=
  match fuel with
  | O => out
  | S fuel =>
      match queue with
      | [] => out
      | context_id :: queue =>
          if decide (context_id ∈ visited) then descendants_loop fuel s limit queue visited out
          else
            let visited := {[context_id]} ∪ visited in
            let out := out ++ [context_id] in
            if match limit with Some max => max <=? len out | None => false end then out
            else
              let children := filter (λ c, c ∉ visited) (child_context_ids context_id s) in
              descendants_loop fuel s limit (queue ++ children) visited out
      end
  end.

(** Every child is queued at most once for each of its parents: the sizes of the buckets
    of the parent index bound the iterations. *)
Definition parent_edges (s : Store) : nat :=
  sum_list_with (λ kv, size kv.2) (map_to_list (ix_parent_exact (st_indexes s))).

Definition descendant_context_ids (parent_context_id : N) (limit : option N) (s : Store)
    : list N :=
  let queue := child_context_ids parent_context_id s in
  sort_by id_ge
    (descendants_loop (S (length queue + parent_edges s)) s limit queue ∅ []).

(** ** Search *)

Definition search_contexts_parsed (now elapsed : N) (query : CqlQuery) (live_contexts : id_set)
    (limit : option N) (s : Store) : result CqlError SearchResult :=
  matching_ids ← execute now (st_indexes s) live_contexts (cq_ast query);
  let sorted_ids := sort_by id_ge (set_iter matching_ids) in
  let total_count := len sorted_ids in
  let sorted_ids := match limit with Some limit => truncate limit sorted_ids | None => sorted_ids end in
  Ok (mkSearchResult sorted_ids total_count query elapsed).

Definition search_contexts (now elapsed : N) (query : rstr) (live_contexts : id_set)
    (limit : option N) (s : Store) : result CqlError SearchResult :=
  parsed ← CqlParser.parse query;
  matching_ids ← execute now (st_indexes s) live_contexts (cq_ast parsed);
  let sorted_ids := sort_by id_ge (set_iter matching_ids) in
  let total_count := len sorted_ids in
  let sorted_ids := match limit with Some limit => truncate limit sorted_ids | None => sorted_ids end in
  Ok (mkSearchResult sorted_ids total_count parsed elapsed).

Definition index_stats (s : Store) : IndexStats := CqlIndexes.index_stats (st_indexes s).

(** ** Snapshots *)

Definition attach_fs (turn_id : N) (fs_root_hash : bytes) (s : Store)
    : result StoreError unit * Store :=
  match get_turn (st_turn_store s) turn_id with
  | Err e => (Err e, s)
  | Ok _ =>
      if negb (contains (st_blob_store s) fs_root_hash)
      then (Err (NotFound ($"fs root tree blob")), s)
      else (Ok tt, with_roots (attach turn_id fs_root_hash (st_fs_roots s)) s)
  end.

Definition get_fs_root (s : Store) (turn_id : N) : option bytes :=
  get_inherited (st_fs_roots s) turn_id (st_turn_store s).

Definition get_fs_root_direct (s : Store) (turn_id : N) : option bytes :=
  FsStore.get (st_fs_roots s) turn_id.

Definition list_fs_entries (s : Store) (turn_id : N) (path : rstr)
    : result StoreError (list TreeEntry) :=
  fs_root ← ok_or (NotFound ($"no fs snapshot for turn"))
              (get_inherited (st_fs_roots s) turn_id (st_turn_store s));
  resolve_path (st_blob_store s) fs_root path ≫= λ '(tree_hash, is_dir),
  if negb is_dir then Err (InvalidInput ($"path is not a directory: " ++ path))
  else load_tree_entries (st_blob_store s) tree_hash.

Definition get_fs_file (s : Store) (turn_id : N) (path : rstr)
    : result StoreError (bytes * TreeEntry) :=
  fs_root ← ok_or (NotFound ($"no fs snapshot for turn"))
              (get_inherited (st_fs_roots s) turn_id (st_turn_store s));
  get_file_at_path (st_blob_store s) fs_root path.

(** ** Sizes *)

(** [compute_tree_size]: the sum and the visited hashes. A tree that is entered for the first
    time and can be loaded is in the blob store, so one more than the number of blobs
    bounds the depth of the recursion. *)
Fixpoint compute_tree_size (fuel : nat) (s : Store) (tree_hash : bytes) (visited : gset bytes)
    : N * gset bytes :=
  match fuel with
  | O => (0, visited)
  | S fuel =>
      if decide (tree_hash ∈ visited) then (0, visited)
      else
        let visited := {[tree_hash]} ∪ visited in
        let tree_size := default 0 (raw_len (st_blob_store s) tree_hash) in
        match load_tree_entries (st_blob_store s) tree_hash with
        | Err _ => (tree_size, visited)
        | Ok entries =>
            foldl (λ '(total, visited) entry,
              match hash_array entry with
              | Err _ => (total, visited)
              | Ok hash =>
                  if te_kind entry =? 1 then
                    let (sub, visited) := compute_tree_size fuel s hash visited in
                    (wrap64 (total + sub), visited)
                  else if decide (hash ∈ visited) then (total, visited)
                  else (wrap64 (total + default 0 (raw_len (st_blob_store s) hash)),
                        {[hash]} ∪ visited)
              end) (tree_size, visited) entries
        end
  end.

Definition compute_fs_content_bytes (s : Store) : N :=
  let fuel := S (size (bs_index (st_blob_store s))) in
  (foldl (λ '(total_bytes, visited) root_hash,
     let (size, visited) := compute_tree_size fuel s root_hash visited in
     (wrap64 (total_bytes + size), visited)) (0, ∅) (unique_roots (st_fs_roots s))).1.

Definition stats (s : Store) : StoreStats :=
  let blob_stats := BlobStore.stats (st_blob_store s) in
  let turn_stats := TurnStore.stats (st_turn_store s) in
  let fs_stats := FsStore.stats (st_fs_roots s) in
  mkStoreStats (tss_turns_total turn_stats) (tss_contexts_total turn_stats)
    (tss_heads_total turn_stats) (bss_blobs_total blob_stats)
    (tss_turns_log_bytes turn_stats) (tss_turns_index_bytes turn_stats)
    (tss_turns_meta_bytes turn_stats) (tss_heads_table_bytes turn_stats)
    (bss_pack_bytes blob_stats) (bss_idx_bytes blob_stats)
    (frs_entries_total fs_stats) (frs_file_bytes fs_stats) (compute_fs_content_bytes s).

End Store.
