(* ===== verification/StoreInvariant.v ===== *)
(** * StoreInvariant: what the store keeps true

    Payloads are present and have the hash that names them, metadata and snapshots
    refer to existing turns, and the secondary indexes agree with the metadata cache, in every
    state that the operations and restarts reach. *)

From S2P Require Import Prelude Bytes External BlobStore TurnStore TurnHistory.
From S2P Require Import TurnRecovery FsStore Metadata CqlIndexes CqlSemantics Store.

Open Scope N_scope.

Section invariant.
Context `{Crc32Laws} `{Blake3Laws} `{ZstdLaws} `{PreadSchedule} `{HashOrderLaws} `{Msgpack}
  `{Unicode}.

(** The part of the invariant about stored data. [m] is the abstract content of the
    blob store. *)
Record data_ok (s : Store) (m : gmap bytes bytes) : Prop := {
  do_turns : inv (st_turn_store s);
  do_blobs : blob_rep (st_blob_store s) m;
  do_hashes : ∀ h raw, m !! h = Some raw → blake3 raw = h;
  do_payloads : ∀ id r, ts_turns (st_turn_store s) !! id = Some r →
    is_Some (m !! tr_payload_hash r);
  do_metas : ∀ id, is_Some (ts_turns (st_turn_store s) !! id) →
    is_Some (ts_turn_meta (st_turn_store s) !! id);
  do_roots : ∀ id h, fs_roots (st_fs_roots s) !! id = Some h →
    is_Some (ts_turns (st_turn_store s) !! id) ∧ is_Some (m !! h)
}.

(** The files of the turns and of the snapshot roots replay to what is in memory: no restart left a fragment of
    a torn record in them. *)
Record clean (s : Store) : Prop := {
  cl_turns : persisted (st_turn_store s);
  cl_roots : roots_rep (fs_file (st_fs_roots s)) (fs_roots (st_fs_roots s))
}.

(** The indexes hold what the cache holds, except for metadata that was cached by a read. *)
Definition index_ok (s : Store) : Prop :=
  ∃ F, index_rep (st_indexes s) F
    ∧ (∀ id md, (id, md) ∈ fc_metas F → st_cache s !! id = Some (Some md))
    ∧ (∀ id, id ∈ fc_known F → is_Some (ts_heads (st_turn_store s) !! id)).

(** ** Reading turns *)

Lemma with_meta_ok s m id r payload :
  data_ok s m → ts_turns (st_turn_store s) !! id = Some r →
  ∃ t, with_meta s payload r = Ok t ∧ twm_record t = r
    ∧ ts_turn_meta (st_turn_store s) !! id = Some (twm_meta t)
    ∧ twm_payload t = if payload then m !! tr_payload_hash r else None.
Proof.
  intros Hok Hr. destruct (wf_id _ _ (wf_turns_ok _ (inv_wf _ (do_turns _ _ Hok))) _ _ Hr) as [Hid _].
  destruct (do_metas _ _ Hok id ltac:(eauto)) as [tm Htm].
  destruct (do_payloads _ _ Hok _ _ Hr) as [raw Hraw].
  unfold with_meta, get_turn_meta. rewrite Hid, Htm. cbn [ok_or mbind result_bind].
  destruct payload.
  - rewrite (get_rep _ m) by apply Hok. rewrite Hraw. cbn. by eexists.
  - by eexists.
Qed.

Lemma with_metas_ok s m payload l id :
  data_ok s m → history (ts_turns (st_turn_store s)) id l →
  ∀ k, k ⊆ l → ∃ ts, try_map (with_meta s payload) k = Ok ts ∧ map twm_record ts = k
    ∧ Forall (λ t, twm_payload t
                   = if payload then m !! tr_payload_hash (twm_record t) else None) ts.
Proof.
  intros Hok Hl k. induction k as [|r k IH]; intros Hk; [by exists []|].
  pose proof (history_elem (wf_turns_ok _ (inv_wf _ (do_turns _ _ Hok))) _ _ r Hl
    ltac:(apply Hk; by left)) as Hr.
  destruct (with_meta_ok s m _ r payload Hok Hr) as (t & Ht & <- & _ & Hp).
  destruct IH as (ts & Hts & <- & Hall); [set_solver|].
  exists (t :: ts). cbn. rewrite Ht. cbn. rewrite Hts. cbn. split_and!; [done..|].
  by constructor.
Qed.

(** ** Payload checks *)

Lemma check_payload_ok comp ulen hash payload raw :
  check_payload comp ulen hash payload = Ok raw →
  decompress comp payload = Ok raw ∧ blake3 raw = hash ∧ wrap32 (len raw) = ulen.
Proof.
  unfold check_payload. destruct (decompress comp payload) as [raw'|]; cbn; [|done].
  destruct (N.eqb_spec (wrap32 (len raw')) ulen); cbn; [|done].
  case_bool_decide; cbn; [|done]. by intros [= <-].
Qed.

(** ** What [append_turn] does *)

(** The end of a successful append: the metadata is cached and indexed on the first one. *)
Definition note_metadata (c depth now : N) (raw : bytes) (s : Store)
    : option ContextMetadata * Store :=
  let (md, s) := maybe_cache_metadata c raw s in
  (md, match md with
       | Some md => with_indexes (add_context c (Some md) now depth (st_indexes s)) s
       | None => s
       end).

Lemma append_turn_cases s m c p tid ver enc comp ulen hash payload now :
  data_ok s m → ts_next_turn_id (st_turn_store s) < U32 →
  match check_payload comp ulen hash payload with
  | Err e => append_turn c p tid ver enc comp ulen hash payload now s = (Err e, s)
  | Ok raw =>
      let s1 := with_blobs (put_if_absent hash raw (st_blob_store s)).2 s in
      match parent_of c p (st_turn_store s) with
      | None => append_turn c p tid ver enc comp ulen hash payload now s
                = (Err (NotFound (if p =? 0 then $"context" else $"parent turn")), s1)
      | Some pid => ∃ l,
          let record := mkTurnRecord (ts_next_turn_id (st_turn_store s)) pid (len l) enc 0 hash 0
                          now in
          let turns := appended (st_turn_store s) record (mkTurnMeta tid ver enc comp ulen) c in
          let noted := note_metadata c (len l) now raw (with_turns turns s1) in
          append_turn c p tid ver enc comp ulen hash payload now s = (Ok (record, noted.1), noted.2)
          ∧ TurnStore.append_turn c p hash enc tid ver comp ulen now (st_turn_store s)
            = (Ok record, turns)
          ∧ history (ts_turns (st_turn_store s)) pid l
          ∧ context_history turns c (l ++ [record])
          ∧ ts_turns (st_turn_store s) !! ts_next_turn_id (st_turn_store s) = None
      end
  end.
Proof.
  intros Hok Hn. unfold append_turn.
  destruct (check_payload comp ulen hash payload) as [raw|e] eqn:Hc; [|done].
  destruct (put_if_absent hash raw (st_blob_store s)) as [put blobs] eqn:Hput.
  assert (Hp : ∃ e, put = Ok e).
  { unfold put_if_absent in Hput. destruct (bs_index _ !! hash); [simplify_eq; eauto|].
    destruct (choose_codec raw). simplify_eq. eauto. }
  destruct Hp as [e ->]. cbn [snd].
  pose proof (append_history (st_turn_store s) c p hash enc tid ver comp ulen now
    (inv_wf _ (do_turns _ _ Hok)) Hn) as Hspec.
  unfold parent_of in *.
  cbn [with_blobs st_turn_store]. destruct (if p =? 0 then _ else _) as [pid|].
  - destruct Hspec as (l & Hl & Heq & Hc' & Hfresh). exists l. rewrite Heq.
    split; [|done]. unfold note_metadata, maybe_cache_metadata. cbn [with_turns st_cache with_blobs].
    destruct (st_cache s !! c) as [x|]; [done|]. unfold index_append.
    destruct (extract_context_metadata raw) as [md|]; [|done].
    cbn. unfold get_head, TurnStore.get_head. cbn. by rewrite lookup_insert_eq.
  - by rewrite Hspec.
Qed.

(** ** Preservation: the stored data *)

(** The invariant is about the three components only. *)
Lemma data_ok_same s s' m :
  st_blob_store s' = st_blob_store s → st_turn_store s' = st_turn_store s →
  st_fs_roots s' = st_fs_roots s → data_ok s m → data_ok s' m.
Proof. intros Hb Ht Hr []. by split; rewrite ?Hb, ?Ht, ?Hr. Qed.

Lemma note_metadata_same c depth now raw s :
  let s' := (note_metadata c depth now raw s).2 in
  st_blob_store s' = st_blob_store s ∧ st_turn_store s' = st_turn_store s
  ∧ st_fs_roots s' = st_fs_roots s.
Proof.
  unfold note_metadata, maybe_cache_metadata. destruct (st_cache s !! c); [done|].
  by destruct (extract_context_metadata raw).
Qed.

(** The blob that a call adds fits. *)
Definition blob_fits (s : Store) (hash raw : bytes) : Prop :=
  blob_ok hash raw ∧ len (bs_pack (st_blob_store s)) + HEADER_SIZE + len raw + 4 < U64.

Lemma abs_put_mono h raw m h' : is_Some (m !! h') → is_Some (abs_put h raw m !! h').
Proof.
  intros Hm. unfold abs_put. destruct (m !! h); [done|]. apply lookup_insert_is_Some'. by right.
Qed.

Lemma abs_put_self h raw m : is_Some (abs_put h raw m !! h).
Proof.
  unfold abs_put. destruct (m !! h) eqn:Hh; [eauto|]. rewrite lookup_insert_eq. eauto.
Qed.

Lemma data_ok_put s m h raw :
  data_ok s m → blake3 raw = h → blob_fits s h raw →
  data_ok (with_blobs (put_if_absent h raw (st_blob_store s)).2 s) (abs_put h raw m).
Proof.
  intros [Ht Hb Hh Hp Hm Hr] Hraw [Hfit Hsize].
  split; cbn; try done.
  - by apply blob_rep_put.
  - intros h' raw'. unfold abs_put. destruct (m !! h); [apply Hh|].
    intros [[<- <-]|[_ ?]]%lookup_insert_Some; eauto.
  - intros id r Hid. by eapply abs_put_mono, Hp.
  - intros id h' Hid. destruct (Hr _ _ Hid). split; [done|by apply abs_put_mono].
Qed.

Lemma data_ok_appended s m c p hash enc tid ver comp ulen now record turns :
  data_ok s m → is_Some (m !! hash) → ts_next_turn_id (st_turn_store s) < U32 →
  append_fits c hash enc tid ver comp ulen now →
  TurnStore.append_turn c p hash enc tid ver comp ulen now (st_turn_store s) = (Ok record, turns) →
  tr_payload_hash record = hash →
  turns = appended (st_turn_store s) record (mkTurnMeta tid ver enc comp ulen) c →
  data_ok (with_turns turns s) m.
Proof.
  intros [Ht Hb Hh Hp Hm Hr] Hhash Hn Hfit Happ <- Hturns.
  pose proof (inv_append _ c p _ enc tid ver comp ulen now Ht Hn Hfit) as Hinv.
  rewrite Happ in Hinv. split; cbn; try done.
  - intros id r. rewrite Hturns, appended_turns.
    intros [[_ <-]|[_ Hid]]%lookup_insert_Some; eauto.
  - intros id. rewrite Hturns, appended_turns. cbn. rewrite !lookup_insert_is_Some'. naive_solver.
  - intros id h Hid. destruct (Hr _ _ Hid). split; [|done].
    rewrite Hturns, appended_turns, lookup_insert_is_Some'. by right.
Qed.

(** The content a blob store has after [append_turn]. *)
Lemma data_ok_append s m c p tid ver enc comp ulen hash payload now :
  data_ok s m → ts_next_turn_id (st_turn_store s) < U32 →
  append_fits c hash enc tid ver comp ulen now →
  (∀ raw, check_payload comp ulen hash payload = Ok raw → blob_fits s hash raw) →
  ∃ m', data_ok (append_turn c p tid ver enc comp ulen hash payload now s).2 m' ∧ m ⊆ m'.
Proof.
  intros Hok Hn Hfit Hblob.
  pose proof (append_turn_cases s m c p tid ver enc comp ulen hash payload now Hok Hn) as Hcase.
  destruct (check_payload comp ulen hash payload) as [raw|e] eqn:Hc.
  - destruct (check_payload_ok _ _ _ _ _ Hc) as (_ & Hraw & _).
    specialize (Hblob raw eq_refl).
    pose proof (data_ok_put _ _ _ _ Hok Hraw Hblob) as Hok1.
    exists (abs_put hash raw m).
    split; [|unfold abs_put; destruct (m !! hash) eqn:Hm; [done|by apply insert_subseteq]].
    destruct (parent_of c p (st_turn_store s)) as [pid|]; [|by rewrite Hcase].
    destruct Hcase as (l & -> & Happ & _). cbn [snd].
    match goal with |- data_ok (note_metadata _ _ _ _ ?s2).2 _ =>
      destruct (note_metadata_same c (len l) now raw s2) as (? & ? & ?) end.
    eapply data_ok_same; [done..|]. eapply data_ok_appended; try done. apply abs_put_self.
  - exists m. by rewrite Hcase.
Qed.

Lemma data_ok_create s m base now :
  data_ok s m → now < U64 → data_ok (create_context base now s).2 m.
Proof.
  intros [Ht Hb Hh Hp Hm Hr] Hnow. pose proof (inv_create _ base now Ht Hnow) as Hinv.
  unfold create_context.
  assert (Hsame : ts_turns (TurnStore.create_context base now (st_turn_store s)).2
      = ts_turns (st_turn_store s)
    ∧ ts_turn_meta (TurnStore.create_context base now (st_turn_store s)).2
      = ts_turn_meta (st_turn_store s)).
  { unfold TurnStore.create_context. destruct (if base =? 0 then _ else _) as [[? ?]|]; done. }
  destruct (TurnStore.create_context base now (st_turn_store s)) as [r t]. cbn in *.
  destruct Hsame as [Hs1 Hs2]. split; cbn; rewrite ?Hs1, ?Hs2; done.
Qed.

Lemma data_ok_attach s m id h :
  data_ok s m → id < U64 → data_ok (attach_fs id h s).2 m.
Proof.
  intros Hok Hid. unfold attach_fs, get_turn.
  destruct (ts_turns (st_turn_store s) !! id) as [r|] eqn:Hr; cbn [ok_or]; [|done].
  unfold contains. case_bool_decide as Hc; cbn [negb]; [|done]. cbn [snd].
  assert (Hm : is_Some (m !! h)).
  { apply elem_of_dom. rewrite <- (rep_dom _ _ (do_blobs _ _ Hok)). by apply elem_of_dom. }
  destruct Hok as [Ht Hb Hh Hp Hmt Hroots]. split; cbn; try done.
  - intros id' h' [[<- <-]|[_ Hl]]%lookup_insert_Some; eauto.
Qed.

Lemma get_context_metadata_same c s :
  let s' := (get_context_metadata c s).2 in
  st_blob_store s' = st_blob_store s ∧ st_turn_store s' = st_turn_store s
  ∧ st_fs_roots s' = st_fs_roots s ∧ st_indexes s' = st_indexes s.
Proof. unfold get_context_metadata. by destruct (st_cache s !! c). Qed.

(** ** Opening *)

Lemma load_metadata_same c s s' :
  st_blob_store s' = st_blob_store s → st_turn_store s' = st_turn_store s →
  load_context_metadata c s' = load_context_metadata c s.
Proof. intros Hb Ht. unfold load_context_metadata. by rewrite Hb, Ht. Qed.

(** The cache that reading the metadata of some contexts fills. *)
Lemma fill_cache s heads :
  let s' := foldl (λ s head, (get_context_metadata (ch_context_id head) s).2) s heads in
  st_blob_store s' = st_blob_store s ∧ st_turn_store s' = st_turn_store s
  ∧ st_fs_roots s' = st_fs_roots s ∧ st_indexes s' = st_indexes s
  ∧ ∀ id, st_cache s' !! id =
      match st_cache s !! id with
      | Some md => Some md
      | None => if decide (id ∈ map ch_context_id heads) then Some (load_context_metadata id s)
                else None
      end.
Proof.
  revert s. induction heads as [|head heads IH]; intros s; cbn.
  { split_and!; try done. intros id. by destruct (st_cache s !! id). }
  destruct (get_context_metadata_same (ch_context_id head) s) as (Hb & Ht & Hr & Hi).
  specialize (IH (get_context_metadata (ch_context_id head) s).2).
  destruct IH as (-> & -> & -> & -> & IH). rewrite Hb, Ht, Hr, Hi. split_and!; try done.
  intros id. rewrite IH, (load_metadata_same id s) by done.
  unfold get_context_metadata. destruct (st_cache s !! ch_context_id head) as [md|] eqn:Hc; cbn.
  - destruct (st_cache s !! id) eqn:Hid; [done|].
    repeat case_decide; set_solver.
  - destruct (decide (ch_context_id head = id)) as [<-|Hne].
    + rewrite lookup_insert_eq, Hc. rewrite decide_True by set_solver. done.
    + rewrite lookup_insert_ne by done. destruct (st_cache s !! id); [done|].
      repeat case_decide; set_solver.
Qed.

Lemma listed_heads st limit head :
  wf st → head ∈ TurnStore.list_recent_contexts st limit →
  ts_heads st !! ch_context_id head = Some head.
Proof.
  intros Hwf Hin. unfold TurnStore.list_recent_contexts in Hin. rewrite truncate_take in Hin.
  apply elem_of_take in Hin as (i & Hi & _). apply list_elem_of_lookup_2 in Hi.
  rewrite elem_of_sort_by, hash_iter_perm in Hi.
  apply list_elem_of_fmap in Hi as ([c h] & -> & Hin).
  apply elem_of_map_to_list in Hin. cbn in *. by rewrite (wf_head_id _ Hwf _ _ Hin).
Qed.

(** What [build_indexes] establishes: the cache says for every listed context what its first
    turn says, and the indexes contain the cache and the heads. *)
Lemma build_indexes_spec b t r (s := build_indexes (mkStore b t r ∅ indexes_new)) :
  let heads := TurnStore.list_recent_contexts t u32_max in
  st_blob_store s = b ∧ st_turn_store s = t ∧ st_fs_roots s = r
  ∧ (∀ id, st_cache s !! id =
       if decide (id ∈ map ch_context_id heads)
       then Some (load_context_metadata id (mkStore b t r ∅ indexes_new)) else None)
  ∧ index_rep (st_indexes s) (cache_facts (st_cache s) heads).
Proof.
  intros heads. unfold s, build_indexes. cbn [st_turn_store]. fold heads. clearbody heads. clear s.
  destruct (fill_cache (mkStore b t r ∅ indexes_new) heads) as (Hb & Ht & Hr & Hi & Hc).
  cbn in Hc. split_and!; try done.
  cbn [with_indexes st_indexes st_cache]. rewrite Hi. apply build_from_cache_rep.
Qed.

Lemma cached_facts cache heads id md :
  (id, md) ∈ fc_metas (cache_facts cache heads) ↔ cache !! id = Some (Some md).
Proof.
  cbn. rewrite list_elem_of_omap. split.
  - intros ([id' [md'|]] & Hin%elem_of_map_to_list & Heq); simplify_eq/=; done.
  - intros Hc. exists (id, Some md). by rewrite elem_of_map_to_list.
Qed.

Lemma index_ok_built b t r : wf t → index_ok (build_indexes (mkStore b t r ∅ indexes_new)).
Proof.
  intros Hwf. destruct (build_indexes_spec b t r) as (Hb & Ht & Hr & Hc & Hrep).
  eexists. split; [apply Hrep|]. split.
  - intros id md. by rewrite cached_facts.
  - rewrite Ht. intros id. cbn [fc_known cache_facts]. rewrite elem_of_app.
    assert (Hids : id ∈ map ch_context_id (TurnStore.list_recent_contexts t u32_max) →
      is_Some (ts_heads t !! id)).
    { intros (h & -> & Hin)%list_elem_of_fmap.
      rewrite (listed_heads _ _ _ Hwf Hin). eauto. }
    intros [Hk|Hk]; [|by apply Hids].
    apply list_elem_of_fmap in Hk as ([id' md] & -> & Hin%elem_of_map_to_list). cbn in *.
    rewrite Hc in Hin. case_decide; [by apply Hids|done].
Qed.

(** ** Restart *)

(** What crashes leave behind the complete records of the files: bytes in the pack
    without an entry, and torn records. *)
Record torn : Type := mkTorn {
  torn_pack : bytes;
  torn_idx : bytes;
  torn_log : bytes;
  torn_meta : bytes;
  torn_heads : bytes;
  torn_roots : bytes
}.

Record torn_ok (s : Store) (x : torn) : Prop := {
  to_pack : len (bs_pack (st_blob_store s) ++ torn_pack x) < U64;
  to_idx : len (torn_idx x) < ENTRY_SIZE;
  to_log : log_torn (torn_log x);
  to_meta : meta_torn (torn_meta x);
  to_heads : head_torn (torn_heads x);
  to_roots : root_torn (torn_roots x)
}.

(** No fragment stays: the torn records have at least 8 bytes, or there are none. *)
Definition no_fragment (x : torn) : Prop :=
  kept (torn_meta x) = [] ∧ kept (torn_heads x) = [] ∧ kept (torn_roots x) = [].
#[global] Instance no_fragment_dec x : Decision (no_fragment x).
Proof. unfold no_fragment. apply _. Defined.

(** Where the program can stop with complete records: between two operations, or in an append behind the
    metadata of the turn. (Between the record of a turn in the log and its metadata it leaves a turn without
    metadata, which no page shows unless a later request names it as a parent; this is not
    among the states.) *)
Inductive stopped (s : Store) : Store → Prop :=
| stopped_between : stopped s s
| stopped_in_append c p hash enc tid ver comp ulen now record ts :
    contains (st_blob_store s) hash = true →
    append_fits c hash enc tid ver comp ulen now → ts_next_turn_id (st_turn_store s) < U32 →
    TurnStore.append_turn c p hash enc tid ver comp ulen now (st_turn_store s) = (Ok record, ts) →
    stopped s (with_turns (described record (mkTurnMeta tid ver enc comp ulen) (st_turn_store s)) s).

(** [Store::open] on the files of [s] with such ends; [tidx] is any old [turns.idx]. *)
Definition reopen (s : Store) (x : torn) (tidx : bytes) : result StoreError Store :=
  open (bs_pack (st_blob_store s) ++ torn_pack x) (bs_idx (st_blob_store s) ++ torn_idx x)
    (ts_turns_log (st_turn_store s) ++ torn_log x) tidx
    (ts_turns_meta (st_turn_store s) ++ torn_meta x)
    (ts_heads_tbl (st_turn_store s) ++ torn_heads x)
    (fs_file (st_fs_roots s) ++ torn_roots x).

Lemma stopped_ok s m s0 : data_ok s m → clean s → stopped s s0 → data_ok s0 m ∧ clean s0.
Proof.
  intros Hok [Hp Hrep] Hstop.
  destruct Hstop as [|c p hash enc tid ver comp ulen now record ts Hc Hfit Hn Happ]; [by split|].
  pose proof (behind_the_metadata _ _ _ _ _ _ _ _ _ _ _ _ Hfit Hn Happ) as Hint.
  destruct (inv_interrupted _ _ (do_turns _ _ Hok) Hp Hint) as [Hinv Hp'].
  assert (Hhash : tr_payload_hash record = hash).
  { unfold TurnStore.append_turn in Happ. destruct (resolve_parent c p _) as [[? ?]|]; [|done].
    by injection Happ as <- _. }
  assert (Hm : is_Some (m !! hash)).
  { apply elem_of_dom. rewrite <- (rep_dom _ _ (do_blobs _ _ Hok)). apply elem_of_dom.
    unfold contains in Hc. by apply bool_decide_eq_true in Hc. }
  destruct Hok as [Ht Hb Hh Hpl Hmt Hr]. split; [|by split]. split; cbn; try done.
  - intros id r [[_ <-]|[_ Hid]]%lookup_insert_Some; [by rewrite Hhash|by eapply Hpl].
  - intros id. rewrite !lookup_insert_is_Some'. naive_solver.
  - intros id h Hid. destruct (Hr _ _ Hid). split; [|done]. rewrite lookup_insert_is_Some'. by right.
Qed.

Lemma reopen_spec s m x tidx :
  data_ok s m → clean s → torn_ok s x →
  ∃ b t r, reopen s x tidx = Ok (build_indexes (mkStore b t r ∅ indexes_new))
    ∧ blob_rep b m ∧ inv t ∧ ts_turns t = ts_turns (st_turn_store s)
    ∧ ts_turn_meta t = ts_turn_meta (st_turn_store s) ∧ ts_heads t = ts_heads (st_turn_store s)
    ∧ fs_roots r = fs_roots (st_fs_roots s)
    ∧ (no_fragment x → persisted t ∧ r = st_fs_roots s).
Proof.
  intros Hok [Hper Hrep] [Hpack Hidx Hlog Hmeta Hheads Hroots].
  set (b := mkBlobStore (bs_pack (st_blob_store s) ++ torn_pack x) (bs_idx (st_blob_store s))
              (bs_index (st_blob_store s))).
  assert (Hb : blob_rep b m) by (apply blob_rep_pack_garbage; [apply Hok|done]).
  pose proof (open_inv (st_turn_store s) tidx _ _ _ Hper Hlog Hmeta Hheads) as Ht.
  destruct (inv_restart (st_turn_store s) tidx _ _ _ _ (do_turns _ _ Hok) Hper Hlog Hmeta Hheads Ht)
    as [Hinv Hpt].
  exists b. do 2 eexists. split.
  - unfold reopen, open. rewrite (open_torn b m) by done. cbn [mbind result_bind].
    rewrite Ht. cbn [mbind result_bind]. rewrite (open_roots_rep _ _ _ Hrep Hroots).
    cbn [mbind result_bind]. done.
  - split_and!; [done..|]. intros (Hkm & Hkh & Hkr). split; [by apply Hpt|].
    rewrite Hkr, app_nil_r. by destruct (st_fs_roots s).
Qed.

Lemma data_ok_reopen s m x tidx s' :
  data_ok s m → clean s → torn_ok s x → reopen s x tidx = Ok s' →
  data_ok s' m ∧ index_ok s' ∧ (no_fragment x → clean s').
Proof.
  intros Hok Hcl Hx Ho.
  destruct (reopen_spec s m x tidx Hok Hcl Hx) as (b & t & r & Ho' & Hb & Ht & Hs1 & Hs2 & Hs3 & Hs4 & Hcl').
  rewrite Ho in Ho'. injection Ho' as ->.
  destruct (build_indexes_spec b t r) as (Hsb & Hst & Hsr & _).
  split_and!; [|apply index_ok_built; apply Ht|].
  - destruct Hok as [? ? Hh Hp Hm Hr]. split; rewrite ?Hsb, ?Hst, ?Hsr, ?Hs1, ?Hs2, ?Hs4; try done.
  - intros Hnf. destruct (Hcl' Hnf) as [? ->]. split; rewrite ?Hst, ?Hsr; [done|apply Hcl].
Qed.

(** ** Reachable states *)

(** The operations, and restarts after crashes that tear the last record of any file at any byte. A
    restart needs files without a fragment in them, because [load_meta], [load_heads] and the loading of
    the roots can misread what was written behind one. *)
Inductive step : Store → Store → Prop :=
| step_create base now s : now < U64 → step s (create_context base now s).2
| step_append c p tid ver enc comp ulen hash payload now s :
    append_fits c hash enc tid ver comp ulen now → ts_next_turn_id (st_turn_store s) < U32 →
    (∀ raw, check_payload comp ulen hash payload = Ok raw → blob_fits s hash raw) →
    step s (append_turn c p tid ver enc comp ulen hash payload now s).2
| step_put_blob raw s :
    blob_fits s (blake3 raw) raw →
    step s (with_blobs (put_if_absent (blake3 raw) raw (st_blob_store s)).2 s)
| step_attach id h s : id < U64 → step s (attach_fs id h s).2
| step_metadata c s : step s (get_context_metadata c s).2
| step_restart x tidx s s0 s' :
    clean s → stopped s s0 → torn_ok s0 x → reopen s0 x tidx = Ok s' → step s s'.

Inductive reachable : Store → Prop :=
| reachable_empty tidx s : open [] [] [] tidx [] [] [] = Ok s → reachable s
| reachable_step s s' : reachable s → step s s' → reachable s'.

Definition store_inv (s : Store) : Prop := (∃ m, data_ok s m) ∧ index_ok s.

Lemma index_ok_same s s' :
  st_indexes s' = st_indexes s →
  (∀ id md, st_cache s !! id = Some md → st_cache s' !! id = Some md) →
  (∀ id, is_Some (ts_heads (st_turn_store s) !! id) →
         is_Some (ts_heads (st_turn_store s') !! id)) →
  index_ok s → index_ok s'.
Proof.
  intros Hi Hc Hh (F & Hrep & Hm & Hk). exists F. rewrite Hi. split_and!; [done|eauto..].
Qed.

Lemma index_ok_noted c depth now raw s :
  index_ok s → is_Some (ts_heads (st_turn_store s) !! c) →
  index_ok (note_metadata c depth now raw s).2.
Proof.
  intros Hok Hc. unfold note_metadata, maybe_cache_metadata.
  destruct (st_cache s !! c) as [x|] eqn:Hcache; [done|].
  assert (Hsub : ∀ id md v, st_cache s !! id = Some md → <[c := v]> (st_cache s) !! id = Some md).
  { intros id md v Hid. rewrite lookup_insert_ne; [done|]. intros ->. by rewrite Hid in Hcache. }
  destruct (extract_context_metadata raw) as [md|]; cbn.
  - destruct Hok as (F & Hrep & Hm & Hk).
    exists (learn_context c (Some md) now depth F). split; [by apply add_context_rep|].
    split; cbn.
    + intros id md' [[= -> ->]|Hin]%elem_of_cons; [by rewrite lookup_insert_eq|eauto].
    + intros id [->|Hin]%elem_of_cons; eauto.
  - eapply (index_ok_same s); [done| |done|done]. cbn. eauto.
Qed.

Lemma store_inv_step s s' : store_inv s → step s s' → store_inv s'.
Proof.
  intros [[m Hok] Hix] Hstep. destruct Hstep as [base now s Hnow|c p tid ver enc comp ulen hash
    payload now s Hfit Hn Hblob|raw s Hfit|id h s Hid|c s|x tidx s s0 s' Hcl Hstop Hx Ho].
  - split; [exists m; by apply data_ok_create|].
    unfold create_context, TurnStore.create_context.
    destruct (if base =? 0 then _ else _) as [[hd d]|]; cbn; [|done].
    eapply (index_ok_same s); [done..| |done]. cbn. intros id Hid. rewrite lookup_insert_is_Some'. by right.
  - split.
    { destruct (data_ok_append s m c p tid ver enc comp ulen hash payload now Hok Hn Hfit Hblob)
        as (m' & ? & _). by exists m'. }
    pose proof (append_turn_cases s m c p tid ver enc comp ulen hash payload now Hok Hn) as Hcase.
    destruct (check_payload comp ulen hash payload) as [raw|e]; [|by rewrite Hcase].
    destruct (parent_of c p (st_turn_store s)) as [pid|]; [|by rewrite Hcase].
    destruct Hcase as (l & -> & _). cbn [snd]. apply index_ok_noted.
    + eapply (index_ok_same s); [done..| |done]. cbn. intros id Hid. rewrite lookup_insert_is_Some'. by right.
    + cbn. rewrite lookup_insert_eq. eauto.
  - split; [|done]. eexists. by apply data_ok_put.
  - split; [exists m; by apply data_ok_attach|].
    unfold attach_fs. destruct (get_turn _ _); [|done]. by destruct (contains _ _).
  - destruct (get_context_metadata_same c s) as (Hb & Ht & Hr & Hi). split.
    + exists m. by eapply data_ok_same.
    + apply (index_ok_same s); [done| |by rewrite Ht|done].
      unfold get_context_metadata. intros id md Hmd. destruct (st_cache s !! c) eqn:Hc; [done|].
      cbn. rewrite lookup_insert_ne; [done|]. intros ->. by rewrite Hmd in Hc.
  - destruct (stopped_ok s m s0 Hok Hcl Hstop) as [Hok0 Hcl0].
    destruct (data_ok_reopen s0 m x tidx s' Hok0 Hcl0 Hx Ho) as (? & ? & _). by split; [exists m|].
Qed.

Lemma store_inv_reachable s : reachable s → store_inv s.
Proof.
  induction 1 as [tidx s Ho|s s' Hr IH Hstep]; [|by eapply store_inv_step].
  unfold open in Ho. cbn [BlobStore.open load_index] in Ho.
  rewrite open_empty in Ho. cbn in Ho. injection Ho as <-.
  destruct (build_indexes_spec (mkBlobStore [] [] ∅) (reopened [] [] [] ∅ ∅ ∅ ∅)
    (mkFsRootsIndex [] ∅)) as (Hsb & Hst & Hsr & _).
  split; [|apply index_ok_built; apply inv_empty].
  exists ∅. split; rewrite ?Hsb, ?Hst, ?Hsr; cbn; try done; try by intros id [? ?].
  - apply inv_empty.
  - apply blob_rep_empty.
Qed.

(** Files become unclean by a restart that leaves a fragment, and by nothing else. *)
Lemma clean_create s m base now :
  data_ok s m → clean s → now < U64 → clean (create_context base now s).2.
Proof.
  intros Hok [Hper Hrep] Hnow. pose proof (persisted_create _ base now (do_turns _ _ Hok) Hper Hnow) as Hp.
  unfold create_context. destruct (TurnStore.create_context base now (st_turn_store s)) as [r t]. by split.
Qed.
Lemma clean_append s m c p tid ver enc comp ulen hash payload now :
  data_ok s m → clean s → append_fits c hash enc tid ver comp ulen now →
  ts_next_turn_id (st_turn_store s) < U32 →
  clean (append_turn c p tid ver enc comp ulen hash payload now s).2.
Proof.
  intros Hok [Hper Hrep] Hfit Hn.
  pose proof (persisted_append _ c p hash enc tid ver comp ulen now (do_turns _ _ Hok) Hper Hn Hfit) as Hp.
  pose proof (append_turn_cases s m c p tid ver enc comp ulen hash payload now Hok Hn) as Hcase.
  destruct (check_payload comp ulen hash payload) as [raw|e]; [|by rewrite Hcase].
  destruct (parent_of c p (st_turn_store s)) as [pid|]; [|rewrite Hcase; by split].
  destruct Hcase as (l & -> & Happ & _). cbn [snd].
  match goal with |- clean (note_metadata _ _ _ _ ?s2).2 =>
    destruct (note_metadata_same c (len l) now raw s2) as (_ & Hst & Hsr) end.
  rewrite Happ in Hp. split; [by rewrite Hst|by rewrite Hsr].
Qed.
Lemma clean_attach s m id h : data_ok s m → clean s → id < U64 → clean (attach_fs id h s).2.
Proof.
  intros Hok Hcl Hid. unfold attach_fs, get_turn.
  destruct (ts_turns (st_turn_store s) !! id) as [r|] eqn:Hr; cbn [ok_or]; [|done].
  unfold contains. case_bool_decide as Hc; cbn [negb]; [|done]. cbn [snd].
  assert (Hm : is_Some (m !! h)).
  { apply elem_of_dom. rewrite <- (rep_dom _ _ (do_blobs _ _ Hok)). by apply elem_of_dom. }
  split; [apply Hcl|]. cbn. apply roots_rep_attach; [apply Hcl|]. split; [done|]. destruct Hm as [raw Hm].
  by destruct (rep_ok _ _ (do_blobs _ _ Hok) _ _ Hm).
Qed.

Lemma clean_step s s' :
  store_inv s → clean s → step s s' →
  clean s' ∨ ∃ x tidx s0, torn_ok s0 x ∧ reopen s0 x tidx = Ok s' ∧ ¬ no_fragment x.
Proof.
  intros [[m Hok] _] Hcl Hstep.
  destruct Hstep as [base now s Hnow|c p tid ver enc comp ulen hash
    payload now s Hfit Hn Hblob|raw s Hfit|id h s Hid|c s|x tidx s s0 s' _ Hstop Hx Ho].
  - left. by eapply clean_create.
  - left. by eapply clean_append.
  - left. by destruct Hcl.
  - left. by eapply clean_attach.
  - left. destruct (get_context_metadata_same c s) as (_ & Ht & Hr & _).
    destruct Hcl. split; by rewrite ?Ht, ?Hr.
  - destruct (stopped_ok s m s0 Hok Hcl Hstop) as [Hok0 Hcl0].
    destruct (data_ok_reopen s0 m x tidx s' Hok0 Hcl0 Hx Ho) as (_ & _ & Hcl').
    destruct (decide (no_fragment x)); [left; auto|right; eauto 8].
Qed.

End invariant.
