(* ===== verification/StoreSpec.v ===== *)
(** * StoreSpec: what a client of the store can rely on *)

From S2P Require Import Prelude Bytes External BlobStore TurnStore TurnHistory.
From S2P Require Import TurnRecovery FsStore Metadata CqlAst CqlParser CqlIndexes.
From S2P Require Import CqlExecutor CqlSemantics Store StoreInvariant.

Open Scope N_scope.

Section spec.
Context `{Crc32Laws} `{Blake3Laws} `{ZstdLaws} `{PreadSchedule} `{HashOrderLaws} `{Msgpack}
  `{Unicode}.

(** The bytes that are stored under a hash after [raw] was put there. *)
Definition stored_under (s : Store) (hash raw : bytes) : bytes :=
  match get_blob s hash with Ok b => b | Err _ => raw end.

Lemma stored_under_rep s m hash raw :
  data_ok s m → blake3 raw = hash →
  abs_put hash raw m !! hash = Some (stored_under s hash raw)
  ∧ blake3 (stored_under s hash raw) = hash.
Proof.
  intros Hok Hraw. unfold stored_under, get_blob. rewrite (get_rep _ m) by apply Hok.
  unfold abs_put. destruct (m !! hash) as [b|] eqn:Hb; cbn.
  - rewrite Hb. by eauto using do_hashes.
  - by rewrite lookup_insert_eq.
Qed.

(** A page read after a successful append: the page before it and the new turn. *)
Lemma page_after_append s m pid l c tid ver enc comp ulen hash raw now n :
  let record := mkTurnRecord (ts_next_turn_id (st_turn_store s)) pid (len l) enc 0 hash 0 now in
  let meta := mkTurnMeta tid ver enc comp ulen in
  let turns := appended (st_turn_store s) record meta c in
  data_ok s m → blake3 raw = hash → blob_fits s hash raw →
  history (ts_turns (st_turn_store s)) pid l → context_history turns c (l ++ [record]) →
  ts_turns (st_turn_store s) !! ts_next_turn_id (st_turn_store s) = None →
  ∀ s', st_blob_store s' = (put_if_absent hash raw (st_blob_store s)).2 →
        st_turn_store s' = turns →
  ∃ ts, try_map (with_meta s true) (last_n (N.to_nat n) l) = Ok ts
    ∧ get_last s' c (n + 1) true
      = Ok (ts ++ [mkTurnWithMeta record meta (Some (stored_under s hash raw))]).
Proof.
  intros record meta turns Hok Hraw Hfit Hl Hc Hfresh s' Hb Ht.
  destruct (stored_under_rep s m hash raw Hok Hraw) as [Hst _].
  destruct (blob_rep_put (st_blob_store s) m hash raw) as [_ Hrep]; [apply Hok|apply Hfit..|].
  assert (Hget : ∀ h, BlobStore.get (st_blob_store s') h
    = ok_or (NotFound ($"blob")) (abs_put hash raw m !! h)).
  { intros h. rewrite Hb. by apply get_rep. }
  destruct (with_metas_ok s m true l pid Hok Hl (last_n (N.to_nat n) l)) as (ts & Hts & _).
  { intros r. apply subseteq_drop. }
  exists ts. split; [done|]. unfold get_last. rewrite Ht, (get_last_history _ _ _ _ Hc).
  replace (N.to_nat (n + 1)) with (S (N.to_nat n)) by lia. rewrite last_n_snoc.
  cbn [mbind result_bind]. apply try_map_app.
  - rewrite <- Hts. apply try_map_ext. intros r Hr.
    assert (Hin : ts_turns (st_turn_store s) !! tr_turn_id r = Some r).
    { eapply (history_elem (wf_turns_ok _ (inv_wf _ (do_turns _ _ Hok)))); [done|].
      by eapply subseteq_drop. }
    destruct (do_payloads _ _ Hok _ _ Hin) as [p Hp].
    unfold with_meta, get_turn_meta. rewrite Ht. unfold turns, appended. cbn.
    rewrite lookup_insert_ne by (intros Heq; rewrite <- Heq, Hfresh in Hin; done).
    rewrite Hget, (get_rep _ m) by apply Hok. rewrite Hp.
    assert (abs_put hash raw m !! tr_payload_hash r = Some p) as ->; [|done].
    unfold abs_put. destruct (m !! hash) eqn:Hm; [done|].
    rewrite lookup_insert_ne; [done|]. intros ->. by rewrite Hm in Hp.
  - cbn. unfold with_meta, get_turn_meta. rewrite Ht. unfold turns, appended. cbn.
    rewrite lookup_insert_eq. cbn. by rewrite Hget, Hst.
Qed.
(** ** Appending and reading *)

Lemma append_then_read s m c p tid ver enc comp ulen hash payload now raw pid :
  data_ok s m → ts_next_turn_id (st_turn_store s) < U32 →
  check_payload comp ulen hash payload = Ok raw → blob_fits s hash raw →
  parent_of c p (st_turn_store s) = Some pid →
  ∃ record md s',
    append_turn c p tid ver enc comp ulen hash payload now s = (Ok (record, md), s')
    ∧ tr_payload_hash record = hash ∧ blake3 (stored_under s hash raw) = hash
    ∧ (∃ h, ts_heads (st_turn_store s') !! c = Some h)
    ∧ ∀ n, ∃ ts, get_last s' c (n + 1) true
                 = Ok (ts ++ [mkTurnWithMeta record (mkTurnMeta tid ver enc comp ulen)
                                (Some (stored_under s hash raw))])
                 ∧ (length ts ≤ N.to_nat n)%nat
                 ∧ (p = 0 → get_last s c n true = Ok ts).
Proof.
  intros Hok Hn Hcheck Hblob Hp.
  pose proof (append_turn_cases s m c p tid ver enc comp ulen hash payload now Hok Hn) as Hcase.
  rewrite Hcheck, Hp in Hcase. destruct (check_payload_ok _ _ _ _ _ Hcheck) as (_ & Hraw & _).
  destruct Hcase as (l & -> & _ & Hl & Hc & Hfresh). eexists _, _, _. split_and!; [done..| | |].
  { by eapply stored_under_rep. }
  { match goal with |- context [note_metadata c (len l) now raw ?s2] =>
      destruct (note_metadata_same c (len l) now raw s2) as (_ & Hst & _) end.
    rewrite Hst. destruct Hc as (h & Hh & _). by exists h. }
  intros n. match goal with |- context [note_metadata c (len l) now raw ?s2] =>
    destruct (note_metadata_same c (len l) now raw s2) as (Hsb & Hst & _) end.
  destruct (page_after_append s m pid l c tid ver enc comp ulen hash raw now n Hok Hraw Hblob Hl Hc
    Hfresh _ Hsb Hst) as (ts & Hts & Hpage).
  exists ts. split; [apply Hpage|]. split.
  { apply try_map_length in Hts. rewrite Hts. unfold last_n. rewrite length_drop. lia. }
  intros ->. unfold parent_of in Hp. cbn in Hp.
  destruct (ts_heads (st_turn_store s) !! c) as [h|] eqn:Hh; [|done]. cbn in Hp. simplify_eq.
  unfold get_last. rewrite (get_last_history _ _ l); [done|]. by exists h.
Qed.

(** [append_turn] from end to end, on every branch. A payload whose decompressed bytes have
    another length or another hash than announced changes nothing; a missing context
    or parent leaves all contexts, snapshots, metadata and indexes as they were; otherwise
    the turn is the last one of its context, reading it back gives the declared type and
    a payload with the announced hash (the decompressed bytes themselves, unless others were stored
    under this hash before), and the page before it is the one before the call. *)
Theorem append_turn_reads_back s c p tid ver enc comp ulen hash payload now :
  store_inv s → ts_next_turn_id (st_turn_store s) < U32 →
  (∀ raw, check_payload comp ulen hash payload = Ok raw → blob_fits s hash raw) →
  let '(r, s') := append_turn c p tid ver enc comp ulen hash payload now s in
  match check_payload comp ulen hash payload with
  | Err e => r = Err e ∧ s' = s
  | Ok raw =>
      match parent_of c p (st_turn_store s) with
      | None => r = Err (NotFound (if p =? 0 then $"context" else $"parent turn"))
                ∧ st_turn_store s' = st_turn_store s ∧ st_fs_roots s' = st_fs_roots s
                ∧ st_cache s' = st_cache s ∧ st_indexes s' = st_indexes s
      | Some pid => ∃ record md,
          r = Ok (record, md) ∧ tr_payload_hash record = hash
          ∧ blake3 (stored_under s hash raw) = hash
          ∧ ∀ n, ∃ ts, get_last s' c (n + 1) true
                       = Ok (ts ++ [mkTurnWithMeta record (mkTurnMeta tid ver enc comp ulen)
                                      (Some (stored_under s hash raw))])
                       ∧ (p = 0 → get_last s c n true = Ok ts)
      end
  end.
Proof.
  intros [[m Hok] _] Hn Hblob.
  pose proof (append_turn_cases s m c p tid ver enc comp ulen hash payload now Hok Hn) as Hcase.
  destruct (check_payload comp ulen hash payload) as [raw|e] eqn:Hcheck; [|by rewrite Hcase].
  destruct (parent_of c p (st_turn_store s)) as [pid|] eqn:Hp; [|by rewrite Hcase].
  destruct (append_then_read s m c p tid ver enc comp ulen hash payload now raw pid Hok Hn Hcheck
    (Hblob raw eq_refl) Hp) as (record & md & s' & -> & Hrec & Hst & _ & Hpages).
  exists record, md. split_and!; [done..|]. intros n. destruct (Hpages n) as (ts & ? & _ & ?).
  by exists ts.
Qed.

(** C27. No dangling references: in every state reached by the operations of the store and by restarts
    after crashes, every page of every context can be read with its payloads, each turn has its
    declared type, each payload the hash its turn records, and every snapshot root is a stored blob of
    an existing turn. A crash may tear the record being written in any file at any byte, and stop
    an append anywhere but between its record in the log and its metadata, which would leave a turn
    without metadata. A restart may leave a fragment of less than 8 bytes in [turns.meta], [heads.tbl] and
    [roots.idx], as the program does; no restart of files with such a fragment in them is covered. *)
Theorem reachable_reads s :
  reachable s →
  (∀ c n, is_Some (ts_heads (st_turn_store s) !! c) →
     ∃ ts, get_last s c n true = Ok ts
       ∧ TurnStore.get_last (st_turn_store s) c n = Ok (map twm_record ts)
       ∧ Forall (λ t, ∃ p, twm_payload t = Some p ∧ blake3 p = tr_payload_hash (twm_record t)) ts)
  ∧ ∀ id root, get_fs_root_direct s id = Some root →
      is_ok (get_turn (st_turn_store s) id) = true ∧ is_ok (get_blob s root) = true.
Proof.
  intros Hr. destruct (store_inv_reachable s Hr) as [[m Hok] _]. split.
  - intros c n Hc.
    destruct (context_history_exists (st_turn_store s) c) as [l Hl]; [apply Hok|done|].
    destruct Hl as (h & Hh & Hl).
    destruct (with_metas_ok s m true l _ Hok Hl (last_n (N.to_nat n) l)) as (ts & Hts & Hrec & Hall).
    { intros r. apply subseteq_drop. }
    exists ts. unfold get_last. rewrite (get_last_history _ _ l) by by exists h.
    split; [done|]. split; [by rewrite Hrec|].
    rewrite Forall_forall in *. intros t Ht.
    assert (Hin : twm_record t ∈ l).
    { apply (subseteq_drop (length l - N.to_nat n)). unfold last_n in Hrec. rewrite <- Hrec.
      apply list_elem_of_fmap. by exists t. }
    pose proof (history_elem (wf_turns_ok _ (inv_wf _ (do_turns _ _ Hok))) _ _ _ Hl Hin) as Hid.
    destruct (do_payloads _ _ Hok _ _ Hid) as [p Hp]. exists p.
    rewrite (Hall _ Ht), Hp. split; [done|]. by eapply do_hashes.
  - intros id root Hroot. destruct (do_roots _ _ Hok _ _ Hroot) as [[r Hid] [raw Hraw]].
    unfold get_turn, get_blob. rewrite Hid, (get_rep _ m), Hraw by apply Hok. done.
Qed.

Lemma listed_contexts st id :
  wf st → N.of_nat (size (ts_heads st)) ≤ u32_max →
  id ∈ map ch_context_id (TurnStore.list_recent_contexts st u32_max) ↔
  is_Some (ts_heads st !! id).
Proof.
  intros Hwf Hsize. split.
  - intros (h & -> & Hin)%list_elem_of_fmap. rewrite (listed_heads _ _ _ Hwf Hin). eauto.
  - intros [h Hh]. apply list_elem_of_fmap. exists h. split; [by rewrite (wf_head_id _ Hwf _ _ Hh)|].
    unfold TurnStore.list_recent_contexts. rewrite truncate_take, take_ge.
    + rewrite elem_of_sort_by, hash_iter_perm. apply list_elem_of_fmap. exists (id, h).
      by rewrite elem_of_map_to_list.
    + rewrite length_sort_by, length_map, hash_iter_perm, length_map_to_list. lia.
Qed.

(** The search indexes agree with the metadata: in every reachable state without fragments in its files the secondary
    indexes contain exactly some facts, whose metadata is the cached metadata of existing
    contexts. A restart gives every context the metadata of its first turn, in the cache and
    in the indexes, and every context is known to the search. *)
Theorem indexes_follow_metadata s x tidx :
  reachable s → clean s → torn_ok s x → N.of_nat (size (ts_heads (st_turn_store s))) ≤ u32_max →
  (∃ F, index_rep (st_indexes s) F
     ∧ (∀ id md, (id, md) ∈ fc_metas F → st_cache s !! id = Some (Some md))
     ∧ (∀ id, id ∈ fc_known F → is_Some (ts_heads (st_turn_store s) !! id)))
  ∧ ∃ s' F, reopen s x tidx = Ok s' ∧ index_rep (st_indexes s') F
      ∧ ts_heads (st_turn_store s') = ts_heads (st_turn_store s)
      ∧ (∀ id, id ∈ fc_known F ↔ is_Some (ts_heads (st_turn_store s) !! id))
      ∧ (∀ id md, (id, md) ∈ fc_metas F ↔
           is_Some (ts_heads (st_turn_store s) !! id) ∧ load_context_metadata id s = Some md)
      ∧ ∀ id, is_Some (ts_heads (st_turn_store s) !! id) →
           st_cache s' !! id = Some (load_context_metadata id s).
Proof.
  intros Hr Hcl Hx Hsize. destruct (store_inv_reachable s Hr) as [[m Hok] Hix]. split; [done|].
  destruct (reopen_spec s m x tidx Hok Hcl Hx) as (b & t & rt & Ho & Hb & Ht & Hs1 & Hs2 & Hs3 & _ & _).
  destruct (build_indexes_spec b t rt) as (Hsb & Hst & Hsr & Hc & Hrep).
  assert (Hlisted : ∀ id, id ∈ map ch_context_id (TurnStore.list_recent_contexts t u32_max) ↔
    is_Some (ts_heads (st_turn_store s) !! id)).
  { intros id. rewrite <- Hs3. apply listed_contexts; [apply Ht|by rewrite Hs3]. }
  assert (Hload : ∀ id, load_context_metadata id (mkStore b t rt ∅ indexes_new)
    = load_context_metadata id s).
  { intros id. unfold load_context_metadata. cbn [st_turn_store st_blob_store].
    assert (get_first_turn t id = get_first_turn (st_turn_store s) id) as ->.
    { unfold get_first_turn. by rewrite Hs1, Hs3. }
    destruct (get_first_turn (st_turn_store s) id) as [r|]; [|done]. cbn.
    by rewrite (get_rep b m), (get_rep (st_blob_store s) m) by (done || apply Hok). }
  eexists _, _. split; [done|]. split; [done|]. rewrite Hst. split; [done|].
  assert (Hcache : ∀ id, st_cache (build_indexes (mkStore b t rt ∅ indexes_new)) !! id
    = if decide (is_Some (ts_heads (st_turn_store s) !! id))
      then Some (load_context_metadata id s) else None).
  { intros id. rewrite Hc, Hload. by repeat case_decide; naive_solver. }
  split_and!.
  - intros id. cbn [cache_facts fc_known]. rewrite elem_of_app, Hlisted.
    split; [|by right]. intros [Hk|?]; [|done].
    apply list_elem_of_fmap in Hk as ([id' md] & -> & Hin%elem_of_map_to_list). cbn.
    rewrite Hcache in Hin. by case_decide.
  - intros id md. rewrite cached_facts, Hcache. case_decide.
    + split; [by intros [= ->]|by intros [_ ->]].
    + split; [done|by intros [? _]].
  - intros id Hid. by rewrite Hcache, decide_True.
Qed.

(** ** Search *)

Lemma elem_of_set_iter (S : id_set) id : id ∈ set_iter S ↔ id ∈ S.
Proof.
  unfold set_iter. rewrite hash_iter_perm, list_elem_of_fmap. split.
  - intros ([k []] & -> & Hin%elem_of_map_to_list). by apply lookup_gset_to_gmap_Some in Hin as [? _].
  - intros Hid. exists (id, tt). split; [done|]. apply elem_of_map_to_list.
    by apply lookup_gset_to_gmap_Some.
Qed.

Lemma NoDup_set_iter (S : id_set) : NoDup (set_iter S).
Proof. unfold set_iter. rewrite hash_iter_perm. apply NoDup_fst_map_to_list. Qed.

Definition descending : list N → Prop := StronglySorted (λ a b, b < a).

Lemma sort_descending l : NoDup l → descending (sort_by id_ge l).
Proof.
  intros Hnd. rewrite <- (sort_by_perm id_ge) in Hnd.
  assert (Hs : StronglySorted (λ a b, id_ge a b = true) (sort_by id_ge l)).
  { apply sort_by_sorted; unfold id_ge.
    - intros a b ?%N.leb_gt. apply N.leb_le. lia.
    - intros a b c ?%N.leb_le ?%N.leb_le. apply N.leb_le. lia. }
  unfold descending. revert Hnd. induction Hs as [|a k Hk IH Ha]; [constructor|].
  intros [Hin Hnd]%NoDup_cons. constructor; [by apply IH|].
  rewrite Forall_forall in *. intros b Hb. specialize (Ha b Hb). unfold id_ge in Ha.
  apply N.leb_le in Ha. destruct (decide (a = b)) as [->|]; [done|lia].
Qed.

(** Searching: a query that parses and is well typed returns, in descending order, the
    contexts that satisfy it, cut to the limit, with their total number and the parsed query;
    any other query is an error, and the two entry points agree. *)
Theorem search_contexts_spec `{RelativeDates} `{Chrono} now elapsed query live limit s F :
  index_rep (st_indexes s) F →
  match search_contexts now elapsed query live limit s with
  | Ok r => ∃ q all,
      CqlParser.parse query = Ok q ∧ well_typed now (cq_ast q) = true
      ∧ descending all ∧ (∀ id, id ∈ all ↔ means now F live (cq_ast q) id)
      ∧ r = mkSearchResult (match limit with Some n => take (N.to_nat n) all | None => all end)
              (len all) q elapsed
  | Err e => CqlParser.parse query = Err e
             ∨ ∃ q, CqlParser.parse query = Ok q ∧ well_typed now (cq_ast q) = false
  end
  ∧ ∀ q, CqlParser.parse query = Ok q →
      search_contexts now elapsed query live limit s
      = search_contexts_parsed now elapsed q live limit s.
Proof.
  intros Hix. unfold search_contexts, search_contexts_parsed.
  destruct (CqlParser.parse query) as [q|e]; cbn [mbind result_bind];
    [split; [|by intros q' [= <-]]|split; [by left|done]].
  pose proof (execute_is_ok now (st_indexes s) live (cq_ast q)) as Hty.
  destruct (execute now (st_indexes s) live (cq_ast q)) as [S|e] eqn:HS;
    cbn [mbind result_bind is_ok] in *; [|right; by exists q].
  exists q, (sort_by id_ge (set_iter S)). split_and!; [done..| | |].
  - apply sort_descending, NoDup_set_iter.
  - intros id. rewrite elem_of_sort_by, elem_of_set_iter.
    by apply (execute_correct now F live (st_indexes s) Hix).
  - destruct limit; [by rewrite truncate_take|done].
Qed.

End spec.

(** A store with one context, whose only turn names another context as its parent. *)
Module StoreWitness.

#[local] Existing Instances Sample.crc Sample.crc_laws Sample.blake Sample.blake_laws
  Sample.zstd Sample.zstd_laws Sample.pread Sample.order Sample.order_laws Sample.msgpack
  Sample.unicode Sample.relative_dates Sample.chrono.

Definition s0 : Store :=
  match open [] [] [] [] [] [] [] with
  | Ok s => s
  | Err _ => mkStore (mkBlobStore [] [] ∅) (mkTurnStore [] [] [] [] ∅ ∅ ∅ ∅ 1 1)
               (mkFsRootsIndex [] ∅) ∅ indexes_new
  end.
Definition s1 : Store := (create_context 0 100 s0).2.

(** [{30: {1: "cli", 10: {1: 7}}}] *)
Definition payload : bytes :=
  [Byte.x81; Byte.x1e; Byte.x82; Byte.x01; Byte.xa3] ++ $"cli" ++ [Byte.x0a; Byte.x81; Byte.x01; Byte.x07].
Definition typ : rstr := $"cxdb.ConversationItem".
Definition append (s : Store) (now : N) : result StoreError (TurnRecord * option ContextMetadata) * Store :=
  append_turn 1 0 typ 3 1 0 (len payload) (blake3 payload) payload now s.
Definition s2 : Store := (append s1 101).2.

Lemma append_blob_fits s : len (bs_pack (st_blob_store s)) < 1000000 →
  ∀ raw, check_payload 0 (len payload) (blake3 payload) payload = Ok raw →
  blob_fits s (blake3 payload) raw.
Proof.
  intros Hs raw Hc. assert (raw = payload) as ->.
  { vm_compute in Hc. by injection Hc. }
  split; [split; vm_compute; reflexivity|]. unfold HEADER_SIZE. change (len payload) with 12. lia.
Qed.

Lemma reachable_s1 : reachable s1.
Proof.
  apply (reachable_step s0); [apply (reachable_empty [])|exact (step_create 0 100 s0 eq_refl)].
  vm_compute; reflexivity.
Qed.

Lemma reachable_s2 : reachable s2.
Proof.
  apply (reachable_step s1); [apply reachable_s1|].
  refine (step_append 1 0 typ 3 1 0 (len payload) (blake3 payload) payload 101 s1 _ _ _).
  - split_and!; vm_compute; reflexivity.
  - vm_compute; reflexivity.
  - apply append_blob_fits. vm_compute; reflexivity.
Qed.

Lemma clean_s0 : clean s0.
Proof. split; [by split_and!; exists []|by exists []]. Qed.
Lemma reachable_s0 : reachable s0.
Proof. by apply (reachable_empty []). Qed.
Lemma clean_s2 : clean s2.
Proof.
  destruct (store_inv_reachable s1 reachable_s1) as [[m1 Hok1] _].
  destruct (store_inv_reachable s0 reachable_s0) as [[m0 Hok0] _].
  refine (clean_append s1 m1 1 0 typ 3 1 0 (len payload) (blake3 payload) payload 101 Hok1 _ _ _).
  - exact (clean_create s0 m0 0 100 Hok0 clean_s0 eq_refl).
  - split_and!; vm_compute; reflexivity.
  - vm_compute; reflexivity.
Qed.

Example searchable :
  sr_context_ids <$> search_contexts 0 0 ($"tag = 'cli' AND parent = 7") ∅ None s2 = Ok [1].
Proof. by vm_compute. Qed.

(** A crash between the record of turn 2 in the log and its metadata: the store opens with a turn that has
    none, no context shows it, and an append that names it as its parent makes the pages of its context
    unreadable. *)
Definition orphan : TurnRecord := mkTurnRecord 2 1 1 1 0 (blake3 payload) 0 102.
Example turn_without_metadata :
  match open (bs_pack (st_blob_store s2)) (bs_idx (st_blob_store s2))
          (ts_turns_log (st_turn_store s2) ++ encode_turn_record orphan) []
          (ts_turns_meta (st_turn_store s2)) (ts_heads_tbl (st_turn_store s2)) [] with
  | Ok s =>
      let s' := (append_turn 1 2 typ 3 1 0 (len payload) (blake3 payload) payload 103 s).2 in
      length <$> get_last s 1 5 true = Ok 1%nat
      ∧ is_ok (append_turn 1 2 typ 3 1 0 (len payload) (blake3 payload) payload 103 s).1 = true
      ∧ get_last s' 1 5 true = Err (NotFound ($"turn meta"))
  | Err _ => False
  end.
Proof. by vm_compute. Qed.

(** Reading the metadata of the empty context first caches its absence: the metadata of the first
    turn is then neither returned nor indexed, until a restart. *)
Definition s2_late : Store := (append (get_context_metadata 1 s1).2 101).2.

Example metadata_read_too_early :
  (get_context_metadata 1 s2_late).1 = None
  ∧ sr_context_ids <$> search_contexts 0 0 ($"tag = 'cli'") ∅ None s2_late = Ok []
  ∧ match open (bs_pack (st_blob_store s2_late)) (bs_idx (st_blob_store s2_late))
            (ts_turns_log (st_turn_store s2_late)) [] (ts_turns_meta (st_turn_store s2_late))
            (ts_heads_tbl (st_turn_store s2_late)) [] with
    | Ok s => sr_context_ids <$> search_contexts 0 0 ($"tag = 'cli'") ∅ None s = Ok [1]
    | Err _ => False
    end.
Proof. by vm_compute. Qed.

(** A fork indexes the metadata of its own first turn; after a restart it has that of the root. *)
Definition payload2 : bytes := [Byte.x81; Byte.x1e; Byte.x81; Byte.x01; Byte.xa3] ++ $"two".
Definition s3 : Store :=
  (append_turn 2 0 typ 3 1 0 (len payload2) (blake3 payload2) payload2 103
     (fork_context 1 102 s2).2).2.

Example fork_metadata_changes :
  sr_context_ids <$> search_contexts 0 0 ($"tag = 'two'") ∅ None s3 = Ok [2]
  ∧ match open (bs_pack (st_blob_store s3)) (bs_idx (st_blob_store s3))
            (ts_turns_log (st_turn_store s3)) [] (ts_turns_meta (st_turn_store s3))
            (ts_heads_tbl (st_turn_store s3)) [] with
    | Ok s => sr_context_ids <$> search_contexts 0 0 ($"tag = 'two'") ∅ None s = Ok []
              ∧ sr_context_ids <$> search_contexts 0 0 ($"tag = 'cli'") ∅ None s = Ok [2; 1]
    | Err _ => False
    end.
Proof. by vm_compute. Qed.

Lemma append_turn_reads_back_witness :
  ∃ ts r, get_last (append s2 102).2 1 (1 + 1) true = Ok (ts ++ [r])
    ∧ get_last s2 1 1 true = Ok ts ∧ twm_payload r = Some payload.
Proof.
  pose proof (append_turn_reads_back s2 1 0 typ 3 1 0 (len payload) (blake3 payload) payload 102
    (store_inv_reachable s2 reachable_s2) ltac:(vm_compute; reflexivity)
    ltac:(apply append_blob_fits; vm_compute; reflexivity)) as Hback.
  change (append_turn _ _ _ _ _ _ _ _ _ _ _) with (append s2 102) in Hback.
  destruct (append s2 102) as [r s3] eqn:Ha.
  destruct (check_payload _ _ _ _) as [raw|] eqn:Hc; [|by vm_compute in Hc].
  vm_compute in Hc. injection Hc as <-.
  change (parent_of 1 0 (st_turn_store s2)) with (Some 1) in Hback.
  destruct Hback as (record & md & _ & _ & _ & Hpages).
  destruct (Hpages 1) as (ts & Hts & Hprev). eexists ts, _. split; [exact Hts|].
  split; [exact (Hprev eq_refl)|]. vm_compute. reflexivity.
Defined.

Lemma reachable_reads_witness :
  ∃ ts, get_last s2 1 5 true = Ok ts ∧ TurnStore.get_last (st_turn_store s2) 1 5 = Ok (map twm_record ts).
Proof.
  destruct (reachable_reads s2 reachable_s2) as [Hpages _].
  destruct (Hpages 1 5) as (ts & Hts & Hrec & _); [by eexists; vm_compute|].
  exact (ex_intro _ ts (conj Hts Hrec)).
Defined.

Definition no_torn : torn := mkTorn [] [] [] [] [] [].
Lemma no_torn_ok s : len (bs_pack (st_blob_store s)) < U64 → torn_ok s no_torn.
Proof.
  intros Hp. split; cbn; [by rewrite app_nil_r|done|apply log_torn_nil|apply meta_torn_nil
    |apply head_torn_nil|].
  exists (0, replicate 32 Byte.x00), 0%nat. repeat split; vm_compute; lia.
Qed.

Lemma indexes_follow_metadata_witness :
  ∃ s' F, reopen s2 no_torn [] = Ok s' ∧ index_rep (st_indexes s') F.
Proof.
  destruct (indexes_follow_metadata s2 no_torn []) as (_ & s' & F & Ho & Hrep & _).
  - apply reachable_s2.
  - apply clean_s2.
  - apply no_torn_ok. vm_compute. reflexivity.
  - vm_compute. discriminate.
  - exact (ex_intro _ s' (ex_intro _ F (conj Ho Hrep))).
Defined.

Lemma search_contexts_spec_witness : ∃ F r,
  search_contexts 0 0 ($"tag = 'cli'") ∅ (Some 1) s2 = Ok r
  ∧ ∀ id, id ∈ sr_context_ids r → ∃ q, means 0 F ∅ (cq_ast q) id.
Proof.
  destruct (store_inv_reachable s2 reachable_s2) as [_ (F & Hrep & _)].
  destruct (search_contexts_spec 0 0 ($"tag = 'cli'") ∅ (Some 1) s2 F Hrep) as [Hspec _].
  exists F. destruct (search_contexts _ _ _ _ _ _) as [r|e] eqn:Hs; [|by vm_compute in Hs].
  exists r. split; [reflexivity|]. destruct Hspec as (q & all & _ & _ & _ & Hall & ->). cbn.
  intros id Hin%subseteq_take. exists q. by apply Hall.
Defined.

End StoreWitness.
