(* ===== verification/S3Restore.v ===== *)
(** * S3Restore: restoring from the copy in S3

    What [maybe_restore] puts into an empty data directory, and the store that opens there. *)

From S2P Require Import Prelude Bytes External Json JsonCodec FsTree FsTreeSpec Registry ServerConfig S3Sync S3SyncSpec.
From S2P Require Import BlobStore TurnStore TurnHistory TurnRecovery FsStore CqlIndexes Store StoreInvariant StoreSpec.

Open Scope N_scope.

(** ** The world of a server that starts

    Nobody else uses the data directory, and the bucket answers. *)
Definition unchanged `{SyncView W} (w w' : W) : Prop := disk w' = disk w ∧ objects w' = objects w.

Class CalmWorld (W : Type) `{SyncWorld W} `{SyncView W} (bucket : rstr) (calm : W → Prop) : Prop := {
  calm_exists p w : calm w → disk w = ∅ → ∃ w', path_exists p w = (false, w')
    ∧ unchanged w w' ∧ calm w';
  calm_get key w : calm w → ∃ w', get_object bucket key w
      = (match objects w !! key with Some o => Ok (Ok o) | None => Err NoSuchKey end, w')
    ∧ unchanged w w' ∧ calm w';
  calm_write p bs w : calm w → ∃ w', file_write p bs w = (Ok tt, w')
    ∧ disk w' = <[p := bs]> (disk w) ∧ objects w' = objects w ∧ calm w';
  calm_dirs p w : calm w → ∃ w', create_dir_all p w = (Ok tt, w') ∧ unchanged w w' ∧ calm w';
  calm_objects prefix w : calm w → ∃ keys w', list_objects_v2 bucket prefix w
      = (Ok (Some (map Some keys)), w') ∧ unchanged w w' ∧ calm w'
    ∧ Forall (λ k, ∃ rest, k = prefix ++ rest) keys
}.

(** ** What is restored *)

Section restore.
Context `{PrettyLaws} `{HashOrderLaws} (config : S3SyncConfig) (data_dir : rstr).

Abbreviation key := (s3_key config).
Abbreviation path := (path_join data_dir).

Context {W : Type} `{!SyncWorld W} `{!SyncView W} (calm : W → Prop)
  `{!CalmWorld W (sc_bucket config) calm}.
Variable objs : gmap rstr bytes.

(** What a download is for: a tracked file, or whatever the bucket has for the registry. *)
Definition wanted (f : rstr) : Prop := tracked f ∨ ∃ rest, f = $"registry/" ++ rest.

Lemma wanted_relative f : wanted f → relative f.
Proof. intros [?|[rest ->]]; [by apply tracked_relative|by split]. Qed.

(** So far nothing but the objects of the bucket is in the data directory; [got] is what was
    looked for. *)
Definition restoring (got : list rstr) (w : W) : Prop :=
  calm w ∧ objects w = objs
  ∧ (∀ f, relative f → disk w !! path f = None ∨ wanted f ∧ disk w !! path f = objs !! key f)
  ∧ ∀ f, f ∈ got → tracked f → disk w !! path f = objs !! key f.

Lemma restoring_unchanged got w w' : unchanged w w' → calm w' → restoring got w → restoring got w'.
Proof. intros [Hd Ho] Hc (_ & Hw & Hr). unfold restoring. by rewrite Hd, Ho. Qed.

Lemma download_restoring got g w : wanted g → restoring got w →
  restoring (got ++ [g]) (download_file config g (path g) w).2.
Proof.
  intros Hg (Hc & Ho & Hall & Hgot). pose proof (wanted_relative g Hg) as Hrel.
  unfold download_file, mbind, IO_bind, other.
  destruct (calm_get (key g) w Hc) as (w1 & -> & [Hd1 Ho1] & Hc1). rewrite Ho.
  destruct (objs !! key g) as [o|] eqn:Hk; cbn [map_err].
  - unfold io. destruct (calm_write (path g) o w1 Hc1) as (w2 & -> & Hd2 & Ho2 & Hc2).
    assert (Hother : ∀ f, relative f → g ≠ f → disk w2 !! path f = disk w !! path f).
    { intros f Hf Hne. rewrite Hd2, Hd1, lookup_insert_ne; [done|].
      intros Heq. by apply path_join_inj in Heq. }
    assert (Hthis : disk w2 !! path g = objs !! key g) by by rewrite Hd2, lookup_insert_eq.
    cbn. split_and!; [done|congruence| |].
    + intros f Hf. destruct (decide (g = f)) as [->|Hne]; [by right|]. rewrite Hother by done. auto.
    + intros f Hin Hf. destruct (decide (g = f)) as [->|Hne]; [done|].
      apply elem_of_app in Hin as [Hin|Hin%list_elem_of_singleton]; [|congruence].
      rewrite Hother by (done || by apply tracked_relative). auto.
  - cbn. split_and!; [done|congruence| |]; rewrite Hd1; [done|].
    intros f [Hin|Hin%list_elem_of_singleton]%elem_of_app Hf; [by apply Hgot|subst].
    destruct (Hall g Hrel) as [->|[_ ?]]; [done|congruence].
Qed.

Lemma restore_file_spec got file w : wanted file.1 → restoring got w →
  ∃ w', restore_file config data_dir tt file w = (Ok tt, w') ∧ restoring (got ++ [file.1]) w'.
Proof.
  intros Hg Hw. unfold restore_file, mbind, IO_bind.
  assert (∃ w1, match parent (path file.1) with
      | Some dir => io (create_dir_all dir)
      | None => mret tt
      end w = (Ok tt, w1)
      ∧ restoring got w1) as (w1 & -> & Hw1).
  { destruct (parent (path file.1)) as [dir|]; [|by exists w].
    destruct (calm_dirs dir w (proj1 Hw)) as (w1 & Heq & Hu & Hc1). exists w1.
    unfold io. rewrite Heq. split; [done|by eapply restoring_unchanged]. }
  unfold attempt, total.
  pose proof (download_restoring got file.1 w1 Hg Hw1) as Hd.
  destruct (download_file config file.1 (path file.1) w1) as [r w2]. by exists w2.
Qed.

Lemma restore_files_spec files : ∀ got w, Forall (λ file, wanted file.1) files → restoring got w →
  ∃ w', fold_io (restore_file config data_dir) files tt w = (Ok tt, w')
    ∧ restoring (got ++ files.*1) w'.
Proof.
  induction files as [|file files IH]; intros got w Hf Hw; cbn [fold_io fmap list_fmap map].
  { rewrite app_nil_r. by exists w. }
  apply Forall_cons in Hf as [Hg Hf]. destruct (restore_file_spec got file w Hg Hw) as (w1 & Heq & Hw1).
  unfold mbind, IO_bind. rewrite Heq. destruct (IH (got ++ [file.1]) w1 Hf Hw1) as (w' & -> & Hw').
  exists w'. by rewrite <- app_assoc in Hw'.
Qed.

Lemma relative_of_key_registry rest :
  relative_of_key config (key ($"registry/") ++ rest) = $"registry/" ++ rest.
Proof.
  unfold relative_of_key, s3_key. case_bool_decide; [done|]. rewrite <- !app_assoc.
  rewrite (app_assoc _ ($"/")), strip_prefix_app. done.
Qed.

Lemma restore_objects_spec keys : ∀ got w,
  Forall (λ k, ∃ rest, k = key ($"registry/") ++ rest) keys → restoring got w →
  ∃ w', fold_io (restore_object config data_dir) (map Some keys) tt w = (Ok tt, w')
    ∧ restoring got w'.
Proof.
  induction keys as [|k keys IH]; intros got w Hk Hw; cbn [fold_io map]; [by exists w|].
  apply Forall_cons in Hk as [[rest ->] Hk]. unfold mbind at 1, IO_bind at 1, restore_object.
  rewrite relative_of_key_registry. unfold mbind at 1, IO_bind at 1, attempt, total.
  assert (Hrel : wanted ($"registry/" ++ rest)) by (right; by exists rest).
  pose proof (download_restoring got _ w Hrel Hw) as Hd.
  destruct (download_file _ _ _ w) as [r w1]. cbn. apply IH; [done|].
  destruct Hd as (Hc & Ho & Hall & Hgot). split_and!; [done..|]. intros f Hf. apply Hgot.
  apply elem_of_app. by left.
Qed.

Lemma restore_registry_spec got w : restoring got w →
  ∃ w', restore_registry config data_dir w = (Ok tt, w') ∧ restoring got w'.
Proof.
  intros Hw. unfold restore_registry, mbind, IO_bind, io, other.
  destruct (calm_dirs (path ($"registry")) w (proj1 Hw)) as (w1 & -> & Hu & Hc1). cbn [map_err].
  assert (Hw1 : restoring got w1) by by eapply restoring_unchanged.
  destruct (calm_objects (key ($"registry/")) w1 Hc1) as (keys & w2 & -> & Hu2 & Hc2 & Hkeys).
  cbn [map_err default from_option]. apply restore_objects_spec; [done|].
  by eapply restoring_unchanged.
Qed.

Lemma any_exists_empty files : ∀ w, calm w → disk w = ∅ →
  ∃ w', any_exists data_dir files w = (false, w') ∧ unchanged w w' ∧ calm w'.
Proof.
  induction files as [|f files IH]; intros w Hc Hd; cbn [any_exists]; [by exists w|].
  destruct (calm_exists (path f) w Hc Hd) as (w1 & -> & [Hd1 Ho1] & Hc1).
  destruct (IH w1 Hc1) as (w2 & -> & [Hd2 Ho2] & Hc2); [congruence|].
  exists w2. split_and!; [done|split; congruence|done].
Qed.

(** Restoring into an empty directory gives every tracked file that the manifest of the bucket
    lists, as its object has it, and no other. *)
Lemma maybe_restore_spec sizes w :
  calm w → disk w = ∅ → objects w = objs → manifested sizes (objs !! key ($"sync_manifest.json")) →
  ∃ b w', maybe_restore config data_dir w = (Ok b, w')
    ∧ (∀ f, relative f → disk w' !! path f = None ∨ wanted f ∧ disk w' !! path f = objs !! key f)
    ∧ ∀ m f, objs !! key ($"sync_manifest.json") = Some (json_to_pretty (manifest_json m)) →
        manifest_ok m → f ∈ dom (mf_files m) → tracked f → disk w' !! path f = objs !! key f.
Proof.
  intros Hc Hd Ho Hm. unfold maybe_restore, mbind, IO_bind, total.
  destruct (any_exists_empty SYNC_FILES w Hc Hd) as (w1 & -> & [Hd1 Ho1] & Hc1).
  unfold attempt, total, fetch_manifest.
  destruct (calm_get (key ($"sync_manifest.json")) w1 Hc1) as (w2 & -> & [Hd2 Ho2] & Hc2).
  rewrite Ho1, Ho. unfold manifested in Hm.
  destruct (objs !! key ($"sync_manifest.json")) as [bs|] eqn:Hbs.
  2: { exists false, w2. split; [done|]. split; [|done]. intros f _. left. by rewrite Hd2, Hd1, Hd. }
  destruct Hm as (m & -> & Hok & Hdom & Htr). rewrite read_manifest_written by done. cbn [map_err fmap result_fmap].
  assert (Hw2 : restoring [] w2).
  { split_and!; [done|congruence| |by intros f ?%elem_of_nil].
    intros f _. left. by rewrite Hd2, Hd1, Hd. }
  assert (Hin : ∀ f, f ∈ (hash_iter (mf_files m)).*1 ↔ f ∈ dom (mf_files m)).
  { intros f. rewrite hash_iter_perm, elem_of_dom, list_elem_of_fmap. split.
    - intros ([g n] & -> & Hin%elem_of_map_to_list). by exists n.
    - intros [n Hn]. exists (f, n). split; [done|]. by apply elem_of_map_to_list. }
  destruct (restore_files_spec (hash_iter (mf_files m)) [] w2) as (w3 & -> & Hw3); [|done|].
  { apply Forall_forall. intros [f n] Hf. left. apply Htr, Hin, list_elem_of_fmap.
    by exists (f, n). }
  destruct (restore_registry_spec _ w3 Hw3) as (w4 & -> & _ & _ & Hall & Hgot).
  exists true, w4. split; [done|]. split; [done|]. intros m' f [= Heq] Hok' Hf Ht.
  apply Hgot; [|done]. apply Hin.
  pose proof (read_manifest_written m' Hok') as Hr. rewrite <- Heq, read_manifest_written in Hr by done.
  by injection Hr as ->.
Qed.
End restore.

(** ** A copy, and the store that is restored from it *)

(** The content of a file of the data directory, and [Store::open] on the directory. *)
Definition file_at (data_dir : rstr) (d : gmap rstr bytes) (f : rstr) : bytes :=
  default [] (d !! path_join data_dir f).
Definition open_dir `{Crc32} `{Zstd} `{PreadSchedule} `{HashOrder} `{Msgpack} `{Unicode}
    (data_dir : rstr) (d : gmap rstr bytes) : result StoreError Store :=
  let file := file_at data_dir d in
  Store.open (file ($"blobs/blobs.pack")) (file ($"blobs/blobs.idx")) (file ($"turns/turns.log"))
    (file ($"turns/turns.idx")) (file ($"turns/turns.meta")) (file ($"turns/heads.tbl"))
    (file ($"fs/roots.idx")).

(** The files of the stores of [s] are in the data directory. *)
Definition laid (data_dir : rstr) (s : Store) (d : gmap rstr bytes) : Prop :=
  let file := file_at data_dir d in
  file ($"blobs/blobs.pack") = bs_pack (st_blob_store s)
  ∧ file ($"blobs/blobs.idx") = bs_idx (st_blob_store s)
  ∧ file ($"turns/turns.log") = ts_turns_log (st_turn_store s)
  ∧ file ($"turns/turns.meta") = ts_turns_meta (st_turn_store s)
  ∧ file ($"turns/heads.tbl") = ts_heads_tbl (st_turn_store s).

Section store.
Context `{Crc32Laws} `{Blake3Laws} `{ZstdLaws} `{PreadSchedule} `{HashOrderLaws} `{Msgpack}
  `{Unicode}.

(** The same turns, metadata, heads and blobs are read alike. *)
Lemma same_reads s s' m :
  blob_rep (st_blob_store s) m → blob_rep (st_blob_store s') m →
  ts_turns (st_turn_store s') = ts_turns (st_turn_store s) →
  ts_turn_meta (st_turn_store s') = ts_turn_meta (st_turn_store s) →
  ts_heads (st_turn_store s') = ts_heads (st_turn_store s) →
  (∀ c n p, Store.get_last s' c n p = Store.get_last s c n p)
  ∧ (∀ h, Store.get_blob s' h = Store.get_blob s h)
  ∧ ∀ c, Store.get_head s' c = Store.get_head s c.
Proof.
  intros Hb Hb' Ht Hm Hh.
  assert (Hblob : ∀ h, BlobStore.get (st_blob_store s') h = BlobStore.get (st_blob_store s) h).
  { intros h. by rewrite (get_rep (st_blob_store s') m), (get_rep (st_blob_store s) m) by done. }
  split_and!; [|done|].
  - intros c n p. unfold Store.get_last, TurnStore.get_last, TurnStore.get_head. rewrite Hh, Ht.
    destruct (ok_or _ _ ≫= _) as [turns|e]; [|done]. cbn. apply try_map_ext. intros r _.
    unfold with_meta, TurnStore.get_turn_meta. by rewrite Hm, Hblob.
  - intros c. unfold Store.get_head, TurnStore.get_head. by rewrite Hh.
Qed.

(** Opening the files of a store without those of the file trees: everything is there but the
    roots. *)
Lemma open_without_roots s tidx : reachable s → clean s →
  ∃ s', Store.open (bs_pack (st_blob_store s)) (bs_idx (st_blob_store s))
      (ts_turns_log (st_turn_store s)) tidx (ts_turns_meta (st_turn_store s))
      (ts_heads_tbl (st_turn_store s)) [] = Ok s'
    ∧ (∀ c n p, Store.get_last s' c n p = Store.get_last s c n p)
    ∧ (∀ h, Store.get_blob s' h = Store.get_blob s h)
    ∧ (∀ c, Store.get_head s' c = Store.get_head s c)
    ∧ ∀ t, get_fs_root s' t = None.
Proof.
  intros Hr Hcl. destruct (store_inv_reachable s Hr) as [[m Hok] _].
  set (bare := mkStore (st_blob_store s) (st_turn_store s) (mkFsRootsIndex [] ∅) (st_cache s) (st_indexes s)).
  assert (Hbare : data_ok bare m).
  { destruct Hok. by split. }
  assert (Hclean : clean bare) by (split; [apply Hcl|by exists []]).
  set (x := mkTorn [] [] [] [] [] []).
  assert (Hx : torn_ok bare x).
  { split; cbn; rewrite ?app_nil_r; [apply Hok|done|apply log_torn_nil|apply meta_torn_nil
      |apply head_torn_nil|].
    exists (0, replicate 32 Byte.x00), 0%nat. repeat split; vm_compute; lia. }
  destruct (reopen_spec bare m x tidx Hbare Hclean Hx)
    as (b & t & rt & Ho & Hb & _ & Hs1 & Hs2 & Hs3 & _ & Hroots).
  destruct Hroots as [_ ->]; [done|].
  unfold reopen, bare, x in Ho.
  cbn [st_blob_store st_turn_store st_fs_roots fs_file torn_pack torn_idx torn_log torn_meta
    torn_heads torn_roots] in Ho. rewrite !app_nil_r in Ho. rewrite Ho. eexists. split; [done|].
  destruct (build_indexes_spec b t (mkFsRootsIndex [] ∅)) as (Hsb & Hst & Hsr & _).
  destruct (same_reads s (build_indexes (mkStore b t (mkFsRootsIndex [] ∅) ∅ indexes_new)) m)
    as (Hl & Hg & Hh); rewrite ?Hsb, ?Hst; [apply Hok|done..|].
  split_and!; [done..|]. intros id. unfold get_fs_root. rewrite Hsr, Hst. unfold get_inherited.
  cbn [fs_roots]. rewrite lookup_empty. generalize (S (size (ts_turns t))), id. intros fuel.
  induction fuel as [|fuel IH]; intros i; [done|]. cbn [inherited_loop].
  destruct (i =? 0); [done|]. destruct (TurnStore.get_turn t i); [|done]. cbn [fs_roots].
  rewrite lookup_empty. apply IH.
Qed.
End store.

(** ** The properties *)

Section backup.
Context `{PrettyLaws} `{Crc32Laws} `{Blake3Laws} `{ZstdLaws} `{PreadSchedule} `{HashOrderLaws}
  `{Msgpack} `{Unicode} (config : S3SyncConfig) (data_dir : rstr).
Context {W : Type} `{!SyncWorld W} `{!SyncView W}.

Abbreviation path := (path_join data_dir).

(** C11. The copy is sound whatever happens: after any ticks and changes of the background task, with
    uploads that fail or not and files that grow at any moment, every object is the
    beginning of its file, every size that is recorded was uploaded, and the manifest lists what is
    recorded. And it is complete when the bucket takes what it is given: a copy that
    ends without an error has everything that the tracked files held when it began, and lists them. *)
Theorem copy_invariant reliable w events :
  SharedWorld W (state_path data_dir) (sc_bucket config) reliable →
  copy_ok config data_dir w →
  let w1 := (sync_loop config data_dir events w).2 in
  copy_ok config data_dir w1
  ∧ ∀ w2, do_sync config data_dir w1 = (Ok tt, w2) → reliable →
      ∀ f, tracked f → copied config data_dir (disk w1) f w2.
Proof.
  intros Hshared Hw w1. assert (Hw1 : copy_ok config data_dir w1).
  { unfold w1, sync_loop. case (_ =? 0); [done|]. by eapply sync_events_ok. }
  split; [done|]. intros w2 Hs Hr f Hf.
  pose proof (do_sync_spec config data_dir reliable w1 Hw1) as Hspec. rewrite Hs in Hspec.
  destruct Hspec as (_ & _ & Hc). by apply Hc.
Qed.

(** The recorded size of a file, and that it covers the files that a store is opened with. *)
Definition recorded (w : W) (f : rstr) : N :=
  default 0 (sy_file_sizes (state_of (disk w !! state_path data_dir)) !! f).
Definition covered (w : W) : Prop :=
  ∀ f, f ∈ SYNC_FILES → f ≠ $"turns/turns.idx" → len (file_at data_dir (disk w) f) ≤ recorded w f.

(** What a restored file is: the beginning of the file, with what was recorded as copied. *)
Lemma restored_between w w3 f :
  copy_ok config data_dir w → tracked f →
  disk w3 !! path f = None ∨ disk w3 !! path f = objects w !! s3_key config f →
  (∀ m, objects w !! s3_key config ($"sync_manifest.json") = Some (json_to_pretty (manifest_json m)) →
     manifest_ok m → f ∈ dom (mf_files m) → disk w3 !! path f = objects w !! s3_key config f) →
  file_at data_dir (disk w3) f `prefix_of` file_at data_dir (disk w) f
  ∧ recorded w f ≤ len (file_at data_dir (disk w3) f).
Proof.
  intros [[Hh Hback] Hm] Hf Hor Hgot. unfold file_at, recorded. split.
  - destruct Hor as [->| ->]; [apply prefix_nil|].
    destruct (objects w !! s3_key config f) as [o|] eqn:Ho; [|apply prefix_nil].
    destruct (Hh f o Hf Ho) as (c & -> & Hp). done.
  - destruct (sy_file_sizes _ !! f) as [n|] eqn:Hn; [|cbn; lia].
    destruct (Hback f n Hn) as (_ & _ & o & Ho & Hl). unfold manifested in Hm.
    destruct (objects w !! s3_key config ($"sync_manifest.json")) as [bs|] eqn:Hbs.
    2:{ rewrite Hm, lookup_empty in Hn. done. }
    destruct Hm as (m & -> & Hok & Hdom & _).
    rewrite (Hgot m eq_refl Hok), Ho; [done|]. apply Hdom, elem_of_dom. by exists n.
Qed.

(** C12. A copy restores what it recorded: whatever the background task did, with uploads that fail or not
    and files that grow at any moment, when a server then starts on an empty data directory with
    this bucket, and the bucket answers its downloads, each tracked file is restored as a beginning of the file
    with at least the size that is recorded in [sync_state.json]. A copy returns without an error
    also when an upload failed, and then the recorded size stays behind. When the recorded sizes cover the files of a
    store, whose files hold its state without fragments, that store opens again and answers every
    request for turns, blobs and heads as before. The roots of the file trees are not among the files:
    no turn has one afterwards. *)
Theorem backup_restores (calm : W → Prop) reliable w0 events w2 :
  SharedWorld W (state_path data_dir) (sc_bucket config) reliable →
  CalmWorld W (sc_bucket config) calm →
  copy_ok config data_dir w0 →
  let w := (sync_loop config data_dir events w0).2 in
  calm w2 → disk w2 = ∅ → objects w2 = objects w →
  ∃ b w3, maybe_restore config data_dir w2 = (Ok b, w3)
    ∧ (∀ f, tracked f → file_at data_dir (disk w3) f `prefix_of` file_at data_dir (disk w) f
         ∧ recorded w f ≤ len (file_at data_dir (disk w3) f))
    ∧ ∀ s, reachable s → clean s → laid data_dir s (disk w) → covered w →
        ∃ s', open_dir data_dir (disk w3) = Ok s'
          ∧ (∀ c n p, Store.get_last s' c n p = Store.get_last s c n p)
          ∧ (∀ h, Store.get_blob s' h = Store.get_blob s h)
          ∧ (∀ c, Store.get_head s' c = Store.get_head s c)
          ∧ ∀ t, get_fs_root s' t = None.
Proof.
  intros Hshared Hcalm Hok0 w Hc Hd Ho.
  assert (Hok : copy_ok config data_dir w).
  { unfold w, sync_loop. case (_ =? 0); [done|]. by eapply sync_events_ok. }
  destruct (maybe_restore_spec config data_dir calm (objects w)
    (sy_file_sizes (state_of (disk w !! state_path data_dir))) w2 Hc Hd Ho (proj2 Hok))
    as (b & w3 & Hres & Hall & Hgot).
  assert (Hbetween : ∀ f, tracked f →
    file_at data_dir (disk w3) f `prefix_of` file_at data_dir (disk w) f
    ∧ recorded w f ≤ len (file_at data_dir (disk w3) f)).
  { intros f Hf. apply restored_between; [done|done| |].
    - destruct (Hall f (tracked_relative f Hf)) as [?|[_ ?]]; auto.
    - intros m Hm Hmok Hin. by eapply Hgot. }
  exists b, w3. split; [done|]. split; [done|]. intros s Hr Hcl Hlaid Hcov.
  assert (Hsame : ∀ f bs, f ∈ SYNC_FILES → f ≠ $"turns/turns.idx" →
    file_at data_dir (disk w) f = bs → file_at data_dir (disk w3) f = bs).
  { intros f bs Hf Hne <-. destruct (Hbetween f) as [Hp Hl]; [by left|].
    specialize (Hcov f Hf Hne). destruct Hp as [k Hk]. rewrite Hk, len_app in Hcov.
    rewrite Hk. destruct k; [by rewrite app_nil_r|]. rewrite len_cons in Hcov. lia. }
  assert (Hroots : file_at data_dir (disk w3) ($"fs/roots.idx") = []).
  { unfold file_at. destruct (Hall ($"fs/roots.idx")) as [->|[[Ht|[rest Hrest]] _]]; [by split|done| |done].
    destruct Ht as [Hin|(name & _ & Hname)]; [|done]. exfalso. revert Hin.
    apply (bool_decide_eq_false_1 ($"fs/roots.idx" ∈ SYNC_FILES)). by vm_compute. }
  destruct (open_without_roots s (file_at data_dir (disk w3) ($"turns/turns.idx")) Hr Hcl)
    as (s' & Hopen & Hrest). exists s'. split; [|done]. unfold open_dir. rewrite Hroots.
  destruct Hlaid as (L1 & L2 & L3 & L4 & L5).
  rewrite (Hsame ($"blobs/blobs.pack") _ ltac:(set_solver) ltac:(done) L1).
  rewrite (Hsame ($"blobs/blobs.idx") _ ltac:(set_solver) ltac:(done) L2).
  rewrite (Hsame ($"turns/turns.log") _ ltac:(set_solver) ltac:(done) L3).
  rewrite (Hsame ($"turns/turns.meta") _ ltac:(set_solver) ltac:(done) L4).
  by rewrite (Hsame ($"turns/heads.tbl") _ ltac:(set_solver) ltac:(done) L5).
Qed.
End backup.

(** ** A concrete world

    Files and objects are maps. With each upload the next batch of [writes] is appended to the
    files; [down] are keys that cannot be fetched. *)
Module BackupSample.
Import StoreWitness.

#[local] Existing Instances Sample.crc Sample.crc_laws Sample.blake Sample.blake_laws
  Sample.zstd Sample.zstd_laws Sample.pread Sample.order Sample.order_laws Sample.msgpack
  Sample.unicode JsonSample.text JsonSample.text_laws.

Record Sim : Type := mkSim {
  sim_disk : gmap rstr bytes;
  sim_objects : gmap rstr bytes;
  sim_writes : list (list (rstr * bytes));
  sim_down : list rstr
}.

Definition data_dir : rstr := $"/data".
Definition own : rstr := state_path data_dir.

Definition append_to (d : gmap rstr bytes) (kb : rstr * bytes) : gmap rstr bytes :=
  if decide (kb.1 = own) then d else <[kb.1 := default [] (d !! kb.1) ++ kb.2]> d.

(** The names directly below a directory; a name that is not UTF-8 cannot be listed here. *)
Definition name_below (p k : rstr) : option rstr :=
  name ← strip_prefix k (base p);
  if negb (bool_decide (name = [])) && bool_decide (slash ∉ name) then Some name else None.
Definition names_of (d : gmap rstr bytes) (p : rstr) : list rstr :=
  omap (name_below p) (map_to_list d).*1.

Definition with_disk (f : gmap rstr bytes → gmap rstr bytes) (w : Sim) : Sim :=
  mkSim (f (sim_disk w)) (sim_objects w) (sim_writes w) (sim_down w).
Definition put (k body : bytes) (w : Sim) : Sim :=
  mkSim (foldl append_to (sim_disk w) (default [] (head (sim_writes w))))
    (<[k := body]> (sim_objects w)) (tail (sim_writes w)) (sim_down w).

#[export] Instance sim_world : SyncWorld Sim := {|
  path_exists p w :=
    (existsb (λ k, bool_decide (k = p) || starts_with k (base p)) (map_to_list (sim_disk w)).*1, w);
  file_len p w :=
    (match sim_disk w !! p with
     | Some c => if len c <? U64 then Ok (len c) else Err OtherIo
     | None => Err OtherIo
     end, w);
  file_read p w := (ok_or OtherIo (sim_disk w !! p), w);
  file_write p bs w := (Ok tt, with_disk <[p := bs]> w);
  create_dir_all p w := (Ok tt, w);
  list_dir p w :=
    let names := names_of (sim_disk w) p in
    (if forallb utf8_valid names then Ok (map Ok names) else Err OtherIo, w);
  put_object _ k body _ w := (Ok tt, put k body w);
  get_object _ k w :=
    (if bool_decide (k ∈ sim_down w) then Err (ServiceError ($"down"))
     else match sim_objects w !! k with Some o => Ok (Ok o) | None => Err NoSuchKey end, w);
  list_objects_v2 _ prefix w :=
    (Ok (Some (map Some (filter (λ k, starts_with k prefix) (map_to_list (sim_objects w)).*1))), w);
  unix_secs w := (0, w)
|}.
#[export] Instance sim_view : SyncView Sim := {| disk := sim_disk; objects := sim_objects |}.
#[export] Instance pretty : PrettyText := {|
  json_to_pretty := json_text;
  json_error_text _ := $"error"
|}.
#[export] Instance pretty_laws : PrettyLaws.
Proof. split; intros j Hj; [by apply json_parse_text|by apply json_text_utf8]. Qed.

Lemma during_now w : during own w (disk w) w.
Proof. split_and!; auto using disk_grows_refl. Qed.

Lemma starts_with_inv s p : starts_with s p = true → ∃ rest, s = p ++ rest.
Proof.
  revert s. induction p as [|b p IH]; intros s Hs; [by exists s|]. destruct s as [|b' s]; [done|].
  cbn in Hs. apply andb_true_iff in Hs as [->%bool_decide_eq_true Hs].
  destruct (IH s Hs) as [rest ->]. by exists rest.
Qed.

Lemma append_to_grows d kb : grows own d (append_to d kb) ∧ append_to d kb !! own = d !! own.
Proof.
  unfold append_to. case_decide as Ho; [by split; [apply disk_grows_refl|]|]. split.
  - intros p c _ Hp. destruct (decide (kb.1 = p)) as [<-|Hne].
    + rewrite lookup_insert_eq, Hp. eexists. split; [done|]. cbn. by eexists.
    + exists c. by rewrite lookup_insert_ne.
  - by rewrite lookup_insert_ne.
Qed.

Lemma appends_grow l : ∀ d, grows own d (foldl append_to d l) ∧ foldl append_to d l !! own = d !! own.
Proof.
  induction l as [|kb l IH]; intros d; cbn [foldl]; [by split; [apply disk_grows_refl|]|].
  destruct (IH (append_to d kb)) as [Hg Ho], (append_to_grows d kb) as [Hg' Ho'].
  split; [by eapply disk_grows_trans|congruence].
Qed.

Lemma elem_of_keys (d : gmap rstr bytes) k : k ∈ (map_to_list d).*1 ↔ is_Some (d !! k).
Proof.
  rewrite list_elem_of_fmap. split.
  - intros ([k' c] & -> & Hin%elem_of_map_to_list). by exists c.
  - intros [c Hc]. exists (k, c). split; [done|]. by apply elem_of_map_to_list.
Qed.

Lemma names_of_elem d p name : name ∈ names_of d p ↔ name_ok name ∧ is_Some (d !! (base p ++ name)).
Proof.
  unfold names_of. rewrite list_elem_of_omap. split.
  - intros (k & Hk%elem_of_keys & Hn). unfold name_below in Hn.
    destruct (strip_prefix k (base p)) as [n|] eqn:Hs; [|done]. cbn in Hn.
    destruct (_ && _) eqn:Hok; [|done]. injection Hn as ->.
    apply andb_true_iff in Hok as [Hne%negb_true_iff%bool_decide_eq_false Hsl%bool_decide_eq_true].
    unfold strip_prefix in Hs. destruct (starts_with k (base p)) eqn:Hst; [|done].
    apply starts_with_inv in Hst as [rest ->]. rewrite drop_app_length in Hs. by injection Hs as ->.
  - intros [[Hne Hsl] Hk]. exists (base p ++ name). split; [by apply elem_of_keys|].
    unfold name_below. rewrite strip_prefix_app. cbn.
    by rewrite bool_decide_eq_false_2, bool_decide_eq_true_2.
Qed.

#[export] Instance sim_shared bucket : SharedWorld Sim own bucket True.
Proof.
  split.
  - intros p w b w' [= <- <-]. exists (disk w). split; [apply during_now|].
    intros Hb. assert (Hno : ∀ k, is_Some (sim_disk w !! k) → k ≠ p ∧ starts_with k (base p) = false).
    { intros k Hk%elem_of_keys. rewrite <- not_true_iff_false, existsb_exists in Hb.
      split; [intros ->|apply not_true_is_false; intros Hs]; apply Hb; eexists;
        (split; [by apply list_elem_of_In|]); [by rewrite bool_decide_eq_true_2|by rewrite Hs, orb_true_r]. }
    split.
    + apply eq_None_not_Some. intros Hp. by apply Hno in Hp as [].
    + intros name Hn. apply eq_None_not_Some. intros Hp. apply Hno in Hp as [_ Hp].
      rewrite path_join_base in Hp by done. pose proof (strip_prefix_app (base p) name) as Hs.
      unfold strip_prefix in Hs. by rewrite Hp in Hs.
  - intros p w r w' [= <- <-]. exists (disk w). split; [apply during_now|]. cbn.
    destruct (sim_disk w !! p) as [c|]; [|done]. destruct (len c <? U64) eqn:Hl; [|done].
    apply N.ltb_lt in Hl. eauto.
  - intros p w r w' [= <- <-]. exists (disk w). split; [apply during_now|]. cbn.
    by destruct (sim_disk w !! p).
  - intros bs w r w' [= <- <-]. split_and!; [done| |by cbn; rewrite lookup_insert_eq|done].
    intros p c Hp Hc. exists c. cbn. by rewrite lookup_insert_ne.
  - intros p w r w' [= <- <-]. exists (disk w). split; [apply during_now|].
    destruct (forallb utf8_valid _) eqn:Hu; [|done]. eexists. split; [done|].
    rewrite forallb_forall in Hu. split.
    + apply Forall_forall. intros name Hname. split; [by apply names_of_elem in Hname as []|].
      by apply Hu, list_elem_of_In.
    + intros name Hn Hp. apply names_of_elem. by rewrite <- path_join_base.
  - intros k body ty w r w' [= <- <-].
    destruct (appends_grow (default [] (head (sim_writes w))) (sim_disk w)) as [Hg Ho].
    split_and!; [done|done|by left|done].
  - intros w n w' [= <- <-]. split; [done|]. exists (disk w). apply during_now.
Qed.

Definition calm (w : Sim) : Prop := sim_down w = [].

#[export] Instance sim_calm bucket : CalmWorld Sim bucket calm.
Proof.
  split.
  - intros p w Hc Hd. exists w. split_and!; try done. cbn in *. by rewrite Hd, map_to_list_empty.
  - intros k w Hc. exists w. split_and!; try done. cbn. unfold calm in Hc. by rewrite Hc.
  - intros p bs w Hc. by exists (with_disk <[p := bs]> w).
  - intros p w Hc. by exists w.
  - intros prefix w Hc. eexists _, w. split_and!; try done. apply Forall_forall.
    intros k [Hk _]%list_elem_of_filter. apply starts_with_inv. by destruct (starts_with k prefix).
Qed.

Definition config : S3SyncConfig := mkS3SyncConfig ($"backups") ($"cxdb/prod/") ($"us-west-2") 60 true.
Definition sync (w : Sim) : result StoreError unit * Sim := do_sync config data_dir w.

(** The data directory of a store. *)
Definition files_of (s : Store) : list (rstr * bytes) :=
  [($"blobs/blobs.pack", bs_pack (st_blob_store s)); ($"blobs/blobs.idx", bs_idx (st_blob_store s));
   ($"turns/turns.log", ts_turns_log (st_turn_store s));
   ($"turns/turns.meta", ts_turns_meta (st_turn_store s));
   ($"turns/heads.tbl", ts_heads_tbl (st_turn_store s));
   ($"fs/roots.idx", fs_file (st_fs_roots s))].
Definition disk_of (s : Store) : gmap rstr bytes :=
  list_to_map (map (λ '(f, c), (path_join data_dir f, c)) (files_of s)).

(** What is appended to the files between two states of a store. *)
Definition written (s s' : Store) : list (rstr * bytes) :=
  zip_with (λ old new, (path_join data_dir old.1, drop (length old.2) new.2)) (files_of s) (files_of s').

Definition fresh (w : Sim) : Sim := mkSim ∅ (sim_objects w) [] [].
Definition restored (w : Sim) : gmap rstr bytes := sim_disk (maybe_restore config data_dir (fresh w)).2.

(** A store without objects in the bucket. *)
Lemma copy_ok_start d writes : d !! own = None → copy_ok config data_dir (mkSim d ∅ writes []).
Proof.
  intros Hd. unfold copy_ok. cbn [disk sim_view sim_disk objects sim_objects]. fold own.
  rewrite Hd. split; [|done]. split.
  { intros f o _ Ho. change ((∅ : gmap rstr bytes) !! s3_key config f = Some o) in Ho. by rewrite lookup_empty in Ho. }
  apply map_Forall_empty.
Qed.

Definition w0 : Sim := mkSim (disk_of s2) ∅ [] [].

Lemma sync_w0 : sync w0 = (Ok tt, (sync w0).2).
Proof.
  assert (Hok : (sync w0).1 = Ok tt) by (vm_compute; reflexivity).
  destruct (sync w0) as [r w]. cbn in *. by rewrite Hok.
Qed.

Lemma copy_ok_w0 : copy_ok config data_dir w0.
Proof. apply copy_ok_start. vm_compute. reflexivity. Qed.

Lemma copy_invariant_witness :
  copied config data_dir (disk_of s2) ($"turns/turns.log") (sync w0).2.
Proof.
  destruct (copy_invariant config data_dir True w0 [] (sim_shared _) copy_ok_w0) as [_ Hc].
  apply (Hc _ sync_w0 I). left. right. right. left.
Defined.

(** The background task copies once, and the server is restored on another machine. *)
Lemma backup_restores_witness :
  ∃ s', open_dir data_dir (restored (sync_loop config data_dir [Tick] w0).2) = Ok s'
    ∧ Store.get_last s' 1 5 true = Store.get_last s2 1 5 true.
Proof.
  assert (Hlaid : laid data_dir s2 (disk (sync_loop config data_dir [Tick] w0).2)).
  { vm_compute. repeat split. }
  assert (Hcov : covered data_dir (sync_loop config data_dir [Tick] w0).2).
  { assert (Hall : forallb (λ f, bool_decide (f = $"turns/turns.idx")
      || (len (file_at data_dir (disk (sync_loop config data_dir [Tick] w0).2) f)
          <=? recorded data_dir (sync_loop config data_dir [Tick] w0).2 f)) SYNC_FILES = true)
      by (vm_compute; reflexivity).
    rewrite forallb_forall in Hall. intros f Hf Hne. specialize (Hall f (proj1 (list_elem_of_In _ _) Hf)).
    rewrite bool_decide_eq_false_2 in Hall by exact Hne. by apply N.leb_le in Hall. }
  assert (Hrestores : ∀ w1, w1 = (sync_loop config data_dir [Tick] w0).2 → _)
    by (intros w1 Hw1; pose proof (backup_restores config data_dir calm True w0 [Tick] (fresh w1)
          (sim_shared _) (sim_calm _) copy_ok_w0) as Hb; cbv zeta in Hb; rewrite <- Hw1 in Hb;
        exact (Hb eq_refl eq_refl eq_refl)).
  revert Hlaid Hcov. specialize (Hrestores _ eq_refl). revert Hrestores.
  generalize (sync_loop config data_dir [Tick] w0).2. intros w1 (b & w3 & Hres & _ & Hopen) Hlaid Hcov.
  destruct (Hopen s2 reachable_s2 clean_s2 Hlaid Hcov) as (s' & Hs' & Hlast & _).
  exists s'. split; [|exact (Hlast 1 5 true)].
  unfold restored. rewrite Hres. exact Hs'.
Defined.
(** The blobs are uploaded before the turns, the order in which an append writes them: an append
    between the two uploads is restored as a turn without its payload, and a page with it fails. *)
Definition s2_next : Store :=
  (append_turn 1 0 typ 3 1 0 (len payload2) (blake3 payload2) payload2 103 s2).2.
Definition racing : Sim := mkSim (disk_of s2) ∅ [[]; written s2 s2_next] [].

Example racing_append_loses_its_payload :
  is_ok (Store.get_last s2_next 1 5 true) = true
  ∧ match open_dir data_dir (restored (sync racing).2) with
    | Ok s => length <$> Store.get_last s 1 5 false = Ok 2%nat
              ∧ Store.get_last s 1 5 true = Err (NotFound ($"blob"))
    | Err _ => False
    end.
Proof. by vm_compute. Qed.

(** A file that was cut back and has grown again to the recorded length is taken for unchanged. *)
Definition cut_and_regrown : Sim :=
  with_disk <[path_join data_dir ($"turns/turns.log") := replicate 80 Byte.x01]> (sync w0).2.

Example same_length_is_not_uploaded :
  len (ts_turns_log (st_turn_store s2)) = 80
  ∧ (sync cut_and_regrown).1 = Ok tt
  ∧ sim_objects (sync cut_and_regrown).2 !! s3_key config ($"turns/turns.log")
    = Some (ts_turns_log (st_turn_store s2)).
Proof. vm_compute. by split_and!. Qed.

(** A download that fails is only reported; the next copy replaces the object that was not fetched by
    what the new server has written meanwhile. *)
Definition half_restored : result StoreError bool * Sim :=
  maybe_restore config data_dir
    (mkSim ∅ (sim_objects (sync w0).2) [] [s3_key config ($"turns/turns.log")]).
Definition half_synced : result StoreError unit * Sim :=
  sync (with_disk <[path_join data_dir ($"turns/turns.log") := [Byte.x01]]> half_restored.2).

Example failed_download_destroys_the_copy :
  half_restored.1 = Ok true
  ∧ sim_objects (sync w0).2 !! s3_key config ($"turns/turns.log") = Some (ts_turns_log (st_turn_store s2))
  ∧ sim_objects half_synced.2 !! s3_key config ($"turns/turns.log") = Some [Byte.x01].
Proof. vm_compute. by split. Qed.

(** With an interval of zero the task panics: nothing is copied, also not at the shutdown. *)
Example zero_interval_never_copies :
  sync_loop (mkS3SyncConfig ($"b") [] ($"r") 0 true) data_dir [Tick; Changed true] w0 = (Panicked, w0).
Proof. reflexivity. Qed.
End BackupSample.
