(* ===== verification/ServerMain.v ===== *)
(** * ServerMain: starting the server and accepting connections

    [main] of [server/src/main.rs]: the data directory is restored before the stores are opened, and
    each connection has a thread of its own, up to a limit. The handlers of the
    connections are in [Server]. *)

From S2P Require Import Prelude Bytes External JsonCodec FsTree ServerConfig S3Sync BlobStore TurnStore FsStore Store StoreSpec S3SyncSpec S3Restore.

Open Scope N_scope.

(** ** Starting *)

Section startup.
Context `{JsonText} `{PrettyText} `{Crc32} `{Blake3} `{Zstd} `{PreadSchedule} `{HashOrder} `{Msgpack}
  `{Unicode} {W : Type} `{!SyncWorld W}.

Definition of_result {A} (r : result StoreError A) : IO W A := λ w, (r, w).

(** [OpenOptions::create(true)]: a file that is not there is empty. *)
Definition open_or_create (data_dir f : rstr) : IO W bytes :=
  r ← attempt (io (file_read (path_join data_dir f)));
  mret match r with Ok c => c | Err _ => [] end.

(** [Store::open] on the data directory. *)
Definition open_store (data_dir : rstr) : IO W Store :=
  pack ← open_or_create data_dir ($"blobs/blobs.pack");
  idx ← open_or_create data_dir ($"blobs/blobs.idx");
  log ← open_or_create data_dir ($"turns/turns.log");
  tidx ← open_or_create data_dir ($"turns/turns.idx");
  meta ← open_or_create data_dir ($"turns/turns.meta");
  heads ← open_or_create data_dir ($"turns/heads.tbl");
  roots ← open_or_create data_dir ($"fs/roots.idx");
  of_result (Store.open pack idx log tidx meta heads roots).

(** [main] up to the store: a restore that fails is only reported. *)
Definition startup (config : Config) (s3 : option S3SyncConfig) : IO W Store :=
  _ ← io (create_dir_all (cf_data_dir config));
  _ ← match s3 with
      | Some s3 =>
          _ ← attempt (maybe_restore s3 (cf_data_dir config));
          mret tt
      | None => mret tt
      end;
  open_store (cf_data_dir config).
End startup.

(** ** Accepting *)

Definition socket_timeout (secs : N) : option N := if 0 <? secs then Some secs else None.

(** The loop with its threads: the shared counter, and the connections whose threads run. *)
Record Acceptor : Type := mkAcceptor {
  ac_active : N;
  ac_running : N;
  ac_shutdown : bool
}.
Definition acceptor_new : Acceptor := mkAcceptor 0 0 false.

(** [ConnectionCounterGuard]: taken with the counter already increased, it decreases it when it is
    dropped. *)
Definition guard_drop (counter : N) : N := wrap64 (counter + U64 - 1).

(** What happens: [accept] gives a stream, on which each of the three settings succeeds or not, or
    nothing, or an error; the thread of a connection ends; the signal arrives. *)
Inductive AcceptEvent : Type :=
| Incoming (blocking read_timeout write_timeout : bool)
| NothingIncoming
| AcceptError
| ThreadEnds
| Signal.

Inductive Accepted : Type := Rejected | SetupFailed | Spawned.

(** The body of the loop for a stream. *)
Definition accept_stream (max_connections : N) (blocking read_timeout write_timeout : bool)
    (a : Acceptor) : Accepted * Acceptor :=
  if (0 <? max_connections) && (max_connections <=? ac_active a) then (Rejected, a)
  else if negb blocking then (SetupFailed, a)
  else if negb read_timeout then (SetupFailed, a)
  else if negb write_timeout then (SetupFailed, a)
  else (Spawned, mkAcceptor (wrap64 (ac_active a + 1)) (ac_running a + 1) (ac_shutdown a)).

Definition accept_step (max_connections : N) (a : Acceptor) (e : AcceptEvent) : Acceptor :=
  match e with
  | Incoming b r w => if ac_shutdown a then a else (accept_stream max_connections b r w a).2
  | NothingIncoming | AcceptError => a
  | ThreadEnds =>
      if ac_running a =? 0 then a
      else mkAcceptor (guard_drop (ac_active a)) (ac_running a - 1) (ac_shutdown a)
  | Signal => mkAcceptor (ac_active a) (ac_running a) true
  end.

Definition accept_loop (max_connections : N) (events : list AcceptEvent) : Acceptor :=
  foldl (accept_step max_connections) acceptor_new events.

(** The counter is the number of running threads, which never exceeds a limit. *)
Definition acceptor_ok (max_connections : N) (a : Acceptor) : Prop :=
  ac_active a = ac_running a ∧ ac_running a < U64
  ∧ (0 < max_connections → ac_running a ≤ max_connections).

Lemma accept_step_ok max a e :
  max < U64 → ac_running a < U64 - 1 → acceptor_ok max a → acceptor_ok max (accept_step max a e).
Proof.
  intros Hmax Hlt (Heq & Hr & Hle). assert (Hsame : acceptor_ok max a) by (split_and!; auto).
  destruct e as [b r w| | | |]; cbn [accept_step]; [|done|done| |by split_and!].
  - destruct (ac_shutdown a); [done|]. unfold accept_stream.
    destruct (_ && _) eqn:Hfull; [done|]. destruct b, r, w; cbn [negb snd]; [|done..].
    apply andb_false_iff in Hfull. rewrite N.ltb_ge, N.leb_gt in Hfull.
    unfold acceptor_ok. cbn. rewrite wrap64_small by lia. split_and!; lia.
  - case (N.eqb_spec (ac_running a) 0) as [H0|H0]; [done|].
    unfold acceptor_ok, guard_drop. cbn [ac_active ac_running]. rewrite Heq.
    replace (ac_running a + U64 - 1) with (ac_running a - 1 + 1 * U64) by lia.
    unfold wrap64. rewrite N.Div0.mod_add, N.mod_small by lia. split_and!; lia.
Qed.

Lemma accept_loop_bounded max events :
  0 < max → max < U64 - 1 → acceptor_ok max (accept_loop max events).
Proof.
  intros H0 Hmax. unfold accept_loop.
  assert (Hinit : acceptor_ok max acceptor_new) by (split_and!; cbn; lia).
  revert Hinit. generalize acceptor_new. induction events as [|e events IH]; intros a Ha; [done|].
  apply IH. apply accept_step_ok; [lia| |done]. destruct Ha as (_ & _ & Hle). specialize (Hle H0). lia.
Qed.

(** ** After a loss *)

Module MainSample.
Import StoreWitness BackupSample.
#[local] Existing Instances Sample.crc Sample.blake Sample.zstd Sample.pread Sample.order
  Sample.msgpack Sample.unicode JsonSample.text.

Definition server : Config := mkConfig data_dir [] [] 512 300 30.

(** A server that starts with an empty directory answers as the lost one; without a bucket it starts
    empty. *)
Example startup_after_a_loss :
  match startup server (Some config) (fresh (sync w0).2), startup server None (fresh (sync w0).2) with
  | (Ok s, _), (Ok e, _) =>
      Store.get_last s 1 5 true = Store.get_last s2 1 5 true
      ∧ is_ok (Store.get_last e 1 5 true) = false
  | _, _ => False
  end.
Proof. by vm_compute. Qed.
End MainSample.
