(* ===== verification/StoreLineage.v ===== *)
(** * StoreLineage: children and descendants of contexts

    [child_context_ids] and [descendant_context_ids] of [server/src/store.rs]. A context is a
    child of the parents its provenance names, so the relation comes from clients and
    may have cycles; the search must end all the same. *)

From S2P Require Import Prelude Bytes External TurnStore CqlIndexes CqlSemantics Store.
From S2P Require Import StoreInvariant StoreSpec.
From stdpp Require Import relations.

Open Scope N_scope.

(** [c] is a child of [p]. *)
Definition child (s : Store) (p c : N) : Prop :=
  c ∈ lookup_parent_exact (st_indexes s) p.

Section lineage.
Context `{HashOrderLaws}.
Variable s : Store.

Lemma elem_of_child_ids p c : c ∈ child_context_ids p s ↔ child s p c.
Proof. unfold child_context_ids. by rewrite elem_of_sort_by, elem_of_set_iter. Qed.

Lemma NoDup_child_ids p : NoDup (child_context_ids p s).
Proof. unfold child_context_ids. rewrite sort_by_perm. apply NoDup_set_iter. Qed.

Lemma length_child_ids p :
  length (child_context_ids p s) = size (lookup_parent_exact (st_indexes s) p).
Proof.
  unfold child_context_ids. rewrite length_sort_by.
  rewrite <- (size_list_to_set (C:=gset N) (set_iter _)) by apply NoDup_set_iter.
  f_equal. apply set_eq. intros id. by rewrite elem_of_list_to_set, elem_of_set_iter.
Qed.

(** ** The edges that are left to follow *)

Definition edges_left (visited : id_set) (l : list (N * id_set)) : nat :=
  sum_list_with (λ kv, if decide (kv.1 ∈ visited) then 0%nat else size kv.2) l.

Lemma edges_left_le visited l x : (edges_left ({[x]} ∪ visited) l ≤ edges_left visited l)%nat.
Proof.
  unfold edges_left. induction l as [|[k ids] l IH]; [done|]. cbn.
  destruct (decide (k ∈ visited)); [rewrite decide_True by set_solver; lia|].
  case_decide; lia.
Qed.

Lemma edges_left_visit visited l x ids :
  NoDup l.*1 → x ∉ visited → (x, ids) ∈ l →
  (edges_left ({[x]} ∪ visited) l + size ids ≤ edges_left visited l)%nat.
Proof.
  induction l as [|[k ids'] l IH]; [by intros _ _ ?%elem_of_nil|].
  cbn [fmap list_fmap]. intros [Hk Hnd]%NoDup_cons Hx [[= -> ->]|Hin]%elem_of_cons.
  - pose proof (edges_left_le visited l k). unfold edges_left in *. cbn.
    rewrite decide_True by set_solver. rewrite decide_False by done. lia.
  - specialize (IH Hnd Hx Hin). unfold edges_left in *. cbn.
    destruct (decide (k ∈ visited)); [rewrite decide_True by set_solver; lia|].
    case_decide; lia.
Qed.

Lemma edges_left_child visited x :
  x ∉ visited →
  let l := map_to_list (ix_parent_exact (st_indexes s)) in
  (edges_left ({[x]} ∪ visited) l + length (child_context_ids x s) ≤ edges_left visited l)%nat.
Proof.
  intros Hx l. rewrite length_child_ids. unfold lookup_parent_exact, bucket_get.
  destruct (ix_parent_exact (st_indexes s) !! x) as [ids|] eqn:Hids; cbn.
  - apply edges_left_visit; [apply NoDup_fst_map_to_list|done|by apply elem_of_map_to_list].
  - rewrite size_empty. pose proof (edges_left_le visited l x). lia.
Qed.

Lemma edges_left_none l : edges_left ∅ l = sum_list_with (λ kv, size kv.2) l.
Proof.
  unfold edges_left. induction l as [|[k ids] l IH]; [done|]. cbn. rewrite IH. case_decide; set_solver.
Qed.

(** ** The loop *)

(** The invariant of the loop for the descendants of [p]. *)
Record search_inv (p : N) (queue : list N) (visited : id_set) (out : list N) : Prop := {
  li_out : NoDup out ∧ ∀ id, id ∈ out ↔ id ∈ visited;
  li_sound : ∀ id, id ∈ queue ∨ id ∈ visited → tc (child s) p id;
  li_roots : ∀ id, child s p id → id ∈ queue ∨ id ∈ visited;
  li_closed : ∀ v id, v ∈ visited → child s v id → id ∈ queue ∨ id ∈ visited
}.

Lemma search_inv_skip p x queue visited out :
  x ∈ visited → search_inv p (x :: queue) visited out → search_inv p queue visited out.
Proof.
  intros Hx [Hout Hs Hr Hc]. split; [done|..].
  - intros id Hid. apply Hs. rewrite elem_of_cons. tauto.
  - intros id Hid. apply Hr in Hid. rewrite elem_of_cons in Hid. naive_solver.
  - intros v id Hv Hid. specialize (Hc v id Hv Hid). rewrite elem_of_cons in Hc. naive_solver.
Qed.

Lemma search_inv_visit p x queue visited out :
  x ∉ visited → search_inv p (x :: queue) visited out →
  search_inv p (queue ++ filter (λ c, c ∉ {[x]} ∪ visited) (child_context_ids x s))
    ({[x]} ∪ visited) (out ++ [x]).
Proof.
  intros Hx [[Hnd Hout] Hs Hr Hc].
  assert (Hpx : tc (child s) p x) by (apply Hs; left; by left).
  assert (Hqueue : ∀ id, id ∈ x :: queue ∨ id ∈ visited →
    id ∈ queue ++ filter (λ c, c ∉ {[x]} ∪ visited) (child_context_ids x s)
    ∨ id ∈ ({[x]} ∪ visited : id_set)).
  { intros id. rewrite elem_of_app, elem_of_cons, elem_of_union, elem_of_singleton. tauto. }
  split.
  - split.
    + apply NoDup_app. split; [done|]. split; [|apply NoDup_singleton].
      intros id Hid ->%list_elem_of_singleton. by apply Hx, Hout.
    + intros id. rewrite elem_of_app, list_elem_of_singleton, Hout. set_solver.
  - intros id. rewrite elem_of_app, list_elem_of_filter, elem_of_child_ids, elem_of_union,
      elem_of_singleton.
    intros [[Hq|[_ Hch]]|[->|Hv]]; [apply Hs; left; by right| |done|apply Hs; by right].
    by eapply tc_r.
  - intros id Hid. by apply Hqueue, Hr.
  - intros v id [->%elem_of_singleton|Hv]%elem_of_union Hch; [|by eapply Hqueue, Hc].
    destruct (decide (id ∈ ({[x]} ∪ visited : id_set))) as [|Hn]; [by right|left].
    apply elem_of_app. right. apply list_elem_of_filter. by rewrite elem_of_child_ids.
Qed.

Lemma descendants_loop_spec p fuel queue visited out :
  search_inv p queue visited out →
  (length queue + edges_left visited (map_to_list (ix_parent_exact (st_indexes s))) < fuel)%nat →
  let bfs := descendants_loop fuel s None queue visited out in
  NoDup bfs ∧ ∀ id, id ∈ bfs ↔ tc (child s) p id.
Proof.
  revert queue visited out. induction fuel as [|fuel IH]; intros queue visited out Hinv Hf; [lia|].
  cbn [descendants_loop]. destruct queue as [|x queue].
  - destruct Hinv as [[Hnd Hout] Hs Hr Hc]. split; [done|]. intros id. rewrite Hout.
    split; [intros Hid; apply Hs; by right|]. intros Hid.
    assert (Hnil : ∀ i, i ∈ ([] : list N) ∨ i ∈ visited → i ∈ visited)
      by (intros i [?%elem_of_nil|?]; done).
    apply (tc_ind_r (R := child s) (λ y, y ∈ visited) p); [by intros y ?%Hr%Hnil| |done].
    intros y z _ Hyz Hy. by apply Hnil, (Hc y).
  - destruct (decide (x ∈ visited)) as [Hx|Hx].
    + apply IH; [by eapply search_inv_skip|]. cbn [length] in Hf. lia.
    + cbn zeta. apply IH; [by apply search_inv_visit|].
      pose proof (edges_left_child visited x Hx) as He. cbn zeta in He. rewrite length_app.
      pose proof (length_filter (λ c, c ∉ ({[x]} ∪ visited : id_set)) (child_context_ids x s)).
      cbn [length] in Hf. lia.
Qed.

(** ** Limits *)

Lemma descendants_loop_extends fuel queue visited out :
  ∃ more, descendants_loop fuel s None queue visited out = out ++ more.
Proof.
  revert queue visited out. induction fuel as [|fuel IH]; intros queue visited out; cbn.
  { exists []. by rewrite app_nil_r. }
  destruct queue as [|x queue]; [exists []; by rewrite app_nil_r|].
  case_decide; [apply IH|]. edestruct IH as [more ->]. rewrite <- app_assoc. eauto.
Qed.

(** The limited search is the beginning of the full one; a limit of 0 counts as 1. *)
Lemma descendants_loop_limit fuel n queue visited out :
  len out < N.max 1 n →
  descendants_loop fuel s (Some n) queue visited out
  = take (N.to_nat (N.max 1 n)) (descendants_loop fuel s None queue visited out).
Proof.
  revert queue visited out. induction fuel as [|fuel IH]; intros queue visited out Hl; cbn.
  { rewrite take_ge; [done|]. unfold len in *. lia. }
  destruct queue as [|x queue]; [rewrite take_ge; [done|]; unfold len in *; lia|].
  case_decide; [by apply IH|]. rewrite len_app, len_cons, len_nil.
  destruct (N.leb_spec n (len out + (1 + 0))) as [Hn|Hn].
  - edestruct (descendants_loop_extends fuel) as [more ->].
    rewrite take_app_le by (rewrite length_app; cbn; unfold len in *; lia).
    rewrite take_ge; [done|]. rewrite length_app. cbn. unfold len in *. lia.
  - apply IH. rewrite len_app, len_cons, len_nil. lia.
Qed.

(** Lineage: the children of a context are the contexts whose provenance names it, and its
    descendants exactly those that a path of child steps reaches, each once and in
    descending order; the search ends even when the relation has cycles, and a limit
    keeps the first ones found, at least one. *)
Theorem descendants_reachable p :
  descending (child_context_ids p s) ∧ (∀ c, c ∈ child_context_ids p s ↔ child s p c)
  ∧ ∃ bfs, NoDup bfs ∧ (∀ id, id ∈ bfs ↔ tc (child s) p id)
    ∧ ∀ limit,
        descendant_context_ids p limit s
        = sort_by id_ge (match limit with
                         | Some n => take (N.to_nat (N.max 1 n)) bfs
                         | None => bfs
                         end)
        ∧ descending (descendant_context_ids p limit s).
Proof.
  split; [apply sort_descending, NoDup_set_iter|]. split; [apply elem_of_child_ids|].
  set (queue := child_context_ids p s).
  assert (Hinv : search_inv p queue ∅ []).
  { split.
    - split; [by constructor|]. intros id. rewrite elem_of_nil. set_solver.
    - intros id [Hq|?%elem_of_empty]; [|done]. by apply tc_once, elem_of_child_ids.
    - intros id Hid. left. by apply elem_of_child_ids.
    - by intros v id ?%elem_of_empty. }
  destruct (descendants_loop_spec p (S (length queue + parent_edges s)) queue ∅ [] Hinv) as [Hnd Hbfs].
  { rewrite edges_left_none. unfold parent_edges. lia. }
  eexists. split; [apply Hnd|]. split; [apply Hbfs|]. intros limit.
  assert (Heq : descendant_context_ids p limit s = sort_by id_ge (match limit with
    | Some n => take (N.to_nat (N.max 1 n)) (descendants_loop (S (length queue + parent_edges s)) s None queue ∅ [])
    | None => descendants_loop (S (length queue + parent_edges s)) s None queue ∅ [] end)).
  { unfold descendant_context_ids. fold queue. destruct limit as [n|]; [|done].
    by rewrite descendants_loop_limit by (rewrite len_nil; lia). }
  split; [done|]. rewrite Heq. apply sort_descending. destruct limit; [|done].
  eapply sublist_NoDup; [done|apply sublist_take].
Qed.

End lineage.

Module StoreLineageWitness.

#[local] Existing Instances Sample.order Sample.order_laws.

(** 1 and 2 name each other as parents, and 2 is also the parent of 3. *)
Definition parents : gmap N id_set := bucket_insert 1 2 (bucket_insert 2 1 (bucket_insert 2 3 ∅)).
Definition indexes : SecondaryIndexes :=
  mkSecondaryIndexes ∅ [] ∅ [] ∅ [] ∅ [] ∅ ∅ [] ∅ [] ∅ [] ∅ [] ∅ [] ∅ parents ∅ ∅ ∅ ∅.
Definition store : Store :=
  mkStore (BlobStore.mkBlobStore [] [] ∅) (mkTurnStore [] [] [] [] ∅ ∅ ∅ ∅ 1 1)
    (FsStore.mkFsRootsIndex [] ∅) ∅ indexes.

Example cyclic : descendant_context_ids 1 None store = [3; 2; 1]
  ∧ descendant_context_ids 1 (Some 0) store = [2].
Proof. by vm_compute. Qed.

Lemma descendants_reachable_witness : tc (child store) 1 3.
Proof.
  destruct (descendants_reachable store 1) as (_ & _ & bfs & _ & Hbfs & Hl).
  apply Hbfs. destruct (Hl None) as [Heq _].
  rewrite <- (elem_of_sort_by id_ge), <- Heq. by left.
Defined.

End StoreLineageWitness.
