(* ===== verification/Events.v ===== *)
(** * Events: the event bus

    [server/src/events.rs]. Every subscriber has a bounded channel; publishing copies an event into
    each channel with room and forgets the channels whose receiver is gone. The text of
    an event ([StoreEvent::to_sse]) is in [Sse]. *)

From S2P Require Import Prelude.

Open Scope N_scope.

Inductive StoreEvent : Type :=
| ContextCreated (context_id session_id client_tag : rstr) (created_at : N)
| ContextMetadataUpdated (context_id : rstr) (client_tag title : option rstr)
    (labels : option (list rstr)) (has_provenance : bool)
| ContextLinked (child_context_id parent_context_id : rstr) (root_context_id : option rstr)
    (spawn_reason : option rstr)
| TurnAppended (context_id turn_id parent_turn_id : rstr) (depth : N)
    (declared_type_id : option rstr) (declared_type_version : option N)
| ClientConnected (session_id client_tag : rstr)
| ClientDisconnected (session_id client_tag : rstr) (contexts : list rstr)
| ErrorOccurred (timestamp_ms : N) (kind : rstr) (status_code : N) (message : rstr)
    (path : option rstr).

Definition SUBSCRIBER_CHANNEL_BOUND : N := 4096.

(** A [sync_channel]: the events not received yet, and whether the receiver still exists. *)
Record Channel : Type := mkChannel {
  ch_queue : list StoreEvent;
  ch_connected : bool
}.

(** The channels in the order of [subscribers], with a name for the receiver's side. *)
Record EventBus : Type := mkEventBus {
  eb_subscribers : list (N * Channel);
  eb_next : N
}.

Definition bus_new : EventBus := mkEventBus [] 0.

Definition subscribe (bus : EventBus) : N * EventBus :=
  (eb_next bus,
   mkEventBus (eb_subscribers bus ++ [(eb_next bus, mkChannel [] true)]) (eb_next bus + 1)).

(** [tx.try_send(event)] inside [retain]: the channel afterwards, if it is kept. *)
Definition try_send (event : StoreEvent) (ch : Channel) : option Channel :=
  if negb (ch_connected ch) then None
  else if len (ch_queue ch) <? SUBSCRIBER_CHANNEL_BOUND
  then Some (mkChannel (ch_queue ch ++ [event]) true)
  else Some ch.

Definition publish (event : StoreEvent) (bus : EventBus) : EventBus :=
  mkEventBus (omap (λ '(id, ch), pair id <$> try_send event ch) (eb_subscribers bus))
    (eb_next bus).

Definition publish_all (events : list StoreEvent) (bus : EventBus) : EventBus :=
  foldl (λ bus event, publish event bus) bus events.

Definition subscriber_count (bus : EventBus) : N := len (eb_subscribers bus).

(** The first channel with the name. *)
Fixpoint channel_of (id : N) (l : list (N * Channel)) : option Channel :=
  match l with
  | (id', ch) :: l => if id' =? id then Some ch else channel_of id l
  | [] => None
  end.

Definition update_channel (id : N) (f : Channel → Channel) (bus : EventBus) : EventBus :=
  mkEventBus (map (λ '(id', ch), if id' =? id then (id', f ch) else (id', ch))
                (eb_subscribers bus)) (eb_next bus).

(** [EventSubscriber::try_recv]; [recv] and [recv_timeout] return the same event when there is
    one. *)
Definition try_recv (id : N) (bus : EventBus) : option StoreEvent * EventBus :=
  match channel_of id (eb_subscribers bus) with
  | Some ch =>
      match ch_queue ch with
      | event :: _ =>
          (Some event, update_channel id (λ ch, mkChannel (tail (ch_queue ch)) (ch_connected ch)) bus)
      | [] => (None, bus)
      end
  | None => (None, bus)
  end.

(** The receiver is dropped. *)
Definition disconnect (id : N) (bus : EventBus) : EventBus :=
  update_channel id (λ ch, mkChannel (ch_queue ch) false) bus.

(** ** Delivery *)

(** What happens on a bus, in any interleaving of publishers and subscribers. *)
Inductive action : Type :=
| APublish (event : StoreEvent)
| ASubscribe
| ARecv (id : N)
| ADrop (id : N).

Definition perform (a : action) (bus : EventBus) : EventBus :=
  match a with
  | APublish event => publish event bus
  | ASubscribe => (subscribe bus).2
  | ARecv id => (try_recv id bus).2
  | ADrop id => disconnect id bus
  end.

(** The events the subscriber [id] receives. *)
Fixpoint received (id : N) (actions : list action) (bus : EventBus) : list StoreEvent :=
  match actions with
  | [] => []
  | a :: actions =>
      match a with
      | ARecv id' => if id' =? id then option_list (try_recv id bus).1 else []
      | _ => []
      end ++ received id actions (perform a bus)
  end.

Definition run (actions : list action) (bus : EventBus) : EventBus :=
  foldl (λ bus a, perform a bus) bus actions.

Definition published (actions : list action) : list StoreEvent :=
  omap (λ a, match a with APublish event => Some event | _ => None end) actions.

(** The subscriber never has a full channel when an event is published. *)
Fixpoint keeps_up (id : N) (actions : list action) (bus : EventBus) : Prop :=
  match actions with
  | [] => True
  | a :: actions =>
      match a, channel_of id (eb_subscribers bus) with
      | APublish _, Some ch => len (ch_queue ch) < SUBSCRIBER_CHANNEL_BOUND
      | _, _ => True
      end ∧ keeps_up id actions (perform a bus)
  end.

Definition names_fresh (bus : EventBus) : Prop :=
  Forall (λ x, x.1 < eb_next bus) (eb_subscribers bus).

Lemma names_fresh_run actions bus : names_fresh bus → names_fresh (run actions bus).
Proof.
  revert bus. induction actions as [|a actions IH]; intros bus Hbus; [done|]. cbn. apply IH.
  assert (Hupd : ∀ id f, names_fresh (update_channel id f bus)).
  { intros id f. unfold names_fresh, update_channel in *. cbn. rewrite Forall_fmap.
    eapply Forall_impl; [done|]. intros [id' ch] ?. cbn. by destruct (id' =? id). }
  destruct a as [e| |id|id]; cbn; [| | |apply Hupd].
  - unfold names_fresh, publish in *. cbn. rewrite Forall_forall in *. intros [id ch] Hin.
    apply list_elem_of_omap in Hin as ([id' ch'] & Hin & Heq).
    destruct (try_send e ch'); simplify_eq/=. apply (Hbus _ Hin).
  - unfold names_fresh in *. cbn. apply Forall_app. split.
    + eapply Forall_impl; [done|]. cbn. lia.
    + apply Forall_singleton. cbn. lia.
  - unfold try_recv. destruct (channel_of id (eb_subscribers bus)) as [[[|e q] c]|]; cbn; auto.
Qed.

Lemma channel_of_app id l k ch :
  channel_of id l = Some ch → channel_of id (l ++ k) = Some ch.
Proof. induction l as [|[id' ch'] l IH]; [done|]. cbn. by destruct (id' =? id). Qed.

Lemma channel_of_fresh id l k :
  Forall (λ x : N * Channel, x.1 < id) l → channel_of id (l ++ k) = channel_of id k.
Proof.
  induction 1 as [|[id' ch'] l Hid Hl IH]; [done|]. cbn in *.
  by rewrite (proj2 (N.eqb_neq _ _)) by lia.
Qed.

Lemma channel_of_publish id e bus ch ch' :
  channel_of id (eb_subscribers bus) = Some ch → try_send e ch = Some ch' →
  channel_of id (eb_subscribers (publish e bus)) = Some ch'.
Proof.
  unfold publish. cbn. induction (eb_subscribers bus) as [|[id' c] l IH]; [done|]. cbn.
  destruct (N.eqb_spec id' id) as [->|Hne].
  - intros [= ->] ->. cbn. by rewrite N.eqb_refl.
  - intros Hch Hs. destruct (try_send e c); cbn; [|by apply IH].
    rewrite (proj2 (N.eqb_neq _ _)) by done. by apply IH.
Qed.

Lemma channel_of_update id id' f bus :
  channel_of id (eb_subscribers (update_channel id' f bus))
  = (λ ch, if id =? id' then f ch else ch) <$> channel_of id (eb_subscribers bus).
Proof.
  unfold update_channel. cbn. induction (eb_subscribers bus) as [|[i c] l IH]; [done|]. cbn.
  destruct (N.eqb_spec i id') as [->|Hne]; cbn.
  - destruct (N.eqb_spec id' id) as [->|]; cbn; [by rewrite N.eqb_refl|apply IH].
  - destruct (N.eqb_spec i id) as [->|]; cbn; [|apply IH].
    by rewrite (proj2 (N.eqb_neq id id')).
Qed.

(** What one action does to the channel of a connected subscriber and what it receives. *)
Lemma perform_channel id a bus q :
  channel_of id (eb_subscribers bus) = Some (mkChannel q true) → a ≠ ADrop id →
  len q ≤ SUBSCRIBER_CHANNEL_BOUND →
  ∃ q' got, channel_of id (eb_subscribers (perform a bus)) = Some (mkChannel q' true)
    ∧ len q' ≤ SUBSCRIBER_CHANNEL_BOUND
    ∧ (∀ rest, received id (a :: rest) bus = got ++ received id rest (perform a bus))
    ∧ (got ++ q') `sublist_of` (q ++ published [a])
    ∧ (keeps_up id [a] bus → got ++ q' = q ++ published [a]).
Proof.
  intros Hch Ha Hlen. destruct a as [e| |id'|id'].
  - destruct (N.ltb_spec (len q) SUBSCRIBER_CHANNEL_BOUND) as [Hl|Hl].
    + exists (q ++ [e]), []. split_and!; try done.
      * eapply channel_of_publish; [done|]. unfold try_send. cbn. by rewrite (proj2 (N.ltb_lt _ _)).
      * rewrite len_app, len_cons, len_nil. lia.
    + exists q, []. split_and!; try done.
      * eapply channel_of_publish; [done|]. unfold try_send. cbn. by rewrite (proj2 (N.ltb_ge _ _)).
      * cbn. by apply sublist_inserts_r.
      * intros Hk. cbn in Hk. rewrite Hch in Hk. cbn in Hk. lia.
  - exists q, []. split_and!; try done; cbn; [by apply channel_of_app|..]; by rewrite app_nil_r.
  - destruct (N.eqb_spec id' id) as [->|Hne].
    + destruct q as [|e q].
      * exists [], []. split_and!; cbn; unfold try_recv; rewrite ?Hch; try done.
        by rewrite N.eqb_refl.
      * exists q, [e]. split_and!; cbn; unfold try_recv; rewrite ?Hch; cbn [ch_queue fst snd].
        -- rewrite channel_of_update, Hch, N.eqb_refl. done.
        -- rewrite len_cons in Hlen. lia.
        -- by rewrite N.eqb_refl.
        -- by rewrite app_nil_r.
        -- by rewrite app_nil_r.
    + exists q, []. split_and!; try done; cbn [perform app published omap list_omap];
        [|cbn; by rewrite (proj2 (N.eqb_neq _ _))|by rewrite app_nil_r..].
      unfold try_recv. destruct (channel_of id' (eb_subscribers bus)) as [[[|e' q'] c]|]; try done.
      cbn [ch_queue snd]. rewrite channel_of_update, Hch. cbn. by rewrite (proj2 (N.eqb_neq id id')) by done.
  - exists q, []. split_and!; try done; cbn [perform app published omap list_omap];
      [|by rewrite app_nil_r..].
    unfold disconnect. rewrite channel_of_update, Hch. cbn.
    by rewrite (proj2 (N.eqb_neq id id')) by (intros ->; done).
Qed.

Lemma delivery id actions bus q :
  channel_of id (eb_subscribers bus) = Some (mkChannel q true) → ADrop id ∉ actions →
  len q ≤ SUBSCRIBER_CHANNEL_BOUND →
  ∃ q', channel_of id (eb_subscribers (run actions bus)) = Some (mkChannel q' true)
    ∧ len q' ≤ SUBSCRIBER_CHANNEL_BOUND
    ∧ (received id actions bus ++ q') `sublist_of` (q ++ published actions)
    ∧ (keeps_up id actions bus → received id actions bus ++ q' = q ++ published actions).
Proof.
  revert bus q. induction actions as [|a actions IH]; intros bus q Hch Hdrop Hlen.
  { exists q. cbn. by rewrite app_nil_r. }
  apply not_elem_of_cons in Hdrop as [Ha Hdrop].
  destruct (perform_channel id a bus q Hch ltac:(done) Hlen) as (q1 & got & Hch1 & Hlen1 & Hgot & Hsub & Hk).
  destruct (IH _ _ Hch1 Hdrop Hlen1) as (q2 & Hch2 & Hlen2 & Hsub2 & Hk2).
  exists q2. split; [done|]. split; [done|].
  assert (Hpub : published (a :: actions) = published [a] ++ published actions).
  { unfold published. cbn. by destruct a. }
  rewrite Hgot, Hpub. split.
  - rewrite <- app_assoc, (app_assoc q). etrans; [apply sublist_app; [done|apply Hsub2]|].
    rewrite app_assoc. by apply sublist_app.
  - intros [Hka Hkr]. rewrite <- app_assoc, Hk2 by done. rewrite !app_assoc. f_equal.
    apply Hk. by split.
Qed.

(** C35. Delivery of events: after any history of the bus, a new subscriber that is not dropped
    receives events in the order of publication, each at most once and none from before its
    subscription, with at most 4096 waiting; and if its channel is never full when an event is
    published, it misses none. *)
Theorem events_delivered before after :
  let bus := run before bus_new in
  let '(id, bus') := subscribe bus in
  ADrop id ∉ after →
  ∃ waiting, channel_of id (eb_subscribers (run after bus')) = Some (mkChannel waiting true)
    ∧ len waiting ≤ SUBSCRIBER_CHANNEL_BOUND
    ∧ (received id after bus' ++ waiting) `sublist_of` published after
    ∧ (keeps_up id after bus' → received id after bus' ++ waiting = published after).
Proof.
  intros bus. cbn. intros Hdrop. apply (delivery (eb_next bus) after _ []); [|done|done].
  cbn. rewrite channel_of_fresh; [cbn; by rewrite N.eqb_refl|].
  apply (names_fresh_run before bus_new). by constructor.
Qed.

Module EventsWitness.
Definition ev (n : N) : StoreEvent := ClientConnected (show_N n) [].
Definition before : list action := [ASubscribe; APublish (ev 0)].
Definition after : list action := [APublish (ev 1); ARecv 0; APublish (ev 2); ARecv 1; ADrop 0].

Lemma events_delivered_witness :
  ∃ waiting, received 1 after (subscribe (run before bus_new)).2 ++ waiting = [ev 1; ev 2].
Proof.
  pose proof (events_delivered before after) as Hd. cbn in Hd.
  destruct Hd as (waiting & _ & _ & _ & Hall); [|exists waiting; apply Hall].
  - unfold after. rewrite !elem_of_cons, elem_of_nil. naive_solver.
  - cbn. repeat split; vm_compute; done.
Defined.
End EventsWitness.
