(* ===== verification/Sessions.v ===== *)
(** * Sessions: connected clients and their contexts

    [server/src/metrics.rs]: [SessionTracker], and the counters and the error log of [Metrics].
    An operation on [SessionTracker] is one step. In the code [unregister] and [add_context] take the
    locks of the two maps one after the other, so that another thread can see, for a moment, a
    context that is reported as live although its session is gone, or whose session does not list it
    yet. These moments are not represented: what is proved holds between operations. The latencies, the rates and the snapshot are in
    [MetricsView]. *)

From S2P Require Import Prelude External.

Open Scope N_scope.

Record ClientSession : Type := mkClientSession {
  cs_session_id : N;
  cs_client_tag : rstr;
  cs_peer_addr : option rstr;
  cs_connected_at : N;
  cs_last_activity_at : N;
  cs_contexts_created : list N
}.

Record SessionTracker : Type := mkSessionTracker {
  st_sessions : gmap N ClientSession;
  st_context_to_session : gmap N N
}.

Definition tracker_new : SessionTracker := mkSessionTracker ∅ ∅.

Definition register (session_id : N) (client_tag : rstr) (peer_addr : option rstr) (now : N)
    (t : SessionTracker) : SessionTracker :=
  mkSessionTracker
    (<[session_id := mkClientSession session_id client_tag peer_addr now now []]> (st_sessions t))
    (st_context_to_session t).

Definition get_peer_addr (session_id : N) (t : SessionTracker) : option rstr :=
  st_sessions t !! session_id ≫= cs_peer_addr.

Definition record_activity (session_id now : N) (t : SessionTracker) : SessionTracker :=
  mkSessionTracker
    (alter (λ s, mkClientSession (cs_session_id s) (cs_client_tag s) (cs_peer_addr s)
                   (cs_connected_at s) now (cs_contexts_created s)) session_id (st_sessions t))
    (st_context_to_session t).

Definition add_context (session_id context_id : N) (t : SessionTracker) : SessionTracker :=
  mkSessionTracker
    (alter (λ s, if decide (context_id ∈ cs_contexts_created s) then s
                 else mkClientSession (cs_session_id s) (cs_client_tag s) (cs_peer_addr s)
                        (cs_connected_at s) (cs_last_activity_at s)
                        (cs_contexts_created s ++ [context_id])) session_id (st_sessions t))
    (<[context_id := session_id]> (st_context_to_session t)).

Definition unregister (session_id : N) (t : SessionTracker) : list N * SessionTracker :=
  match st_sessions t !! session_id with
  | Some session =>
      (cs_contexts_created session,
       mkSessionTracker (delete session_id (st_sessions t))
         (foldl (λ m ctx_id, delete ctx_id m) (st_context_to_session t)
            (cs_contexts_created session)))
  | None => ([], mkSessionTracker (delete session_id (st_sessions t)) (st_context_to_session t))
  end.

Definition get_session_for_context (context_id : N) (t : SessionTracker) : option ClientSession :=
  session_id ← st_context_to_session t !! context_id;
  st_sessions t !! session_id.

Definition get_active_sessions `{HashOrder} (t : SessionTracker) : list ClientSession :=
  map snd (hash_iter (st_sessions t)).

Definition get_live_context_ids (t : SessionTracker) : gset N := dom (st_context_to_session t).

Definition get_client_tag (session_id : N) (t : SessionTracker) : option rstr :=
  cs_client_tag <$> st_sessions t !! session_id.

Definition is_context_live (context_id : N) (t : SessionTracker) : bool :=
  bool_decide (is_Some (st_context_to_session t !! context_id)).

(** [get_active_tags], as a set: the order of the result is that of a [HashSet]. *)
Definition get_active_tags `{HashOrder} (t : SessionTracker) : gset rstr :=
  foldl (λ tags session, if bool_decide (cs_client_tag session = []) then tags
                         else {[cs_client_tag session]} ∪ tags) ∅ (map snd (hash_iter (st_sessions t))).

(** ** Counters and the error log *)

Definition MAX_ERROR_ENTRIES : N := 256.

Record ErrorEntry : Type := mkErrorEntry {
  ee_timestamp_ms : N;
  ee_kind : rstr;
  ee_status_code : N;
  ee_message : rstr;
  ee_path : option rstr
}.

Record Metrics : Type := mkMetrics {
  mt_sessions_total : N;
  mt_sessions_active : N;
  mt_last_session_activity_ms : N;
  mt_next_session_id : N;
  mt_session_activity : gmap N N;
  mt_append_total : N;
  mt_get_last_total : N;
  mt_get_blob_total : N;
  mt_errors_total : N;
  mt_errors_by_type : gmap rstr N;
  mt_recent_errors : list ErrorEntry;
  mt_registry_ingest_total : N;
  mt_http_total : N;
  mt_http_errors_total : N
}.

Definition metrics_new : Metrics := mkMetrics 0 0 0 1 ∅ 0 0 0 0 ∅ [] 0 0 0.

Definition register_session (now : N) (m : Metrics) : N * Metrics :=
  let session_id := mt_next_session_id m in
  (session_id,
   mkMetrics (wrap64 (mt_sessions_total m + 1)) (wrap64 (mt_sessions_active m + 1)) now
     (wrap64 (session_id + 1)) (<[session_id := now]> (mt_session_activity m))
     (mt_append_total m) (mt_get_last_total m) (mt_get_blob_total m) (mt_errors_total m)
     (mt_errors_by_type m) (mt_recent_errors m)
    (mt_registry_ingest_total m) (mt_http_total m) (mt_http_errors_total m)).

Definition record_session_activity (session_id now : N) (m : Metrics) : Metrics :=
  mkMetrics (mt_sessions_total m) (mt_sessions_active m) now (mt_next_session_id m)
    (alter (λ _, now) session_id (mt_session_activity m))
    (mt_append_total m) (mt_get_last_total m) (mt_get_blob_total m) (mt_errors_total m)
    (mt_errors_by_type m) (mt_recent_errors m)
    (mt_registry_ingest_total m) (mt_http_total m) (mt_http_errors_total m).

(** [Drop for SessionGuard]. *)
Definition unregister_session (session_id : N) (m : Metrics) : Metrics :=
  mkMetrics (mt_sessions_total m) (wrap64 (mt_sessions_active m + U64 - 1))
    (mt_last_session_activity_ms m) (mt_next_session_id m)
    (delete session_id (mt_session_activity m))
    (mt_append_total m) (mt_get_last_total m) (mt_get_blob_total m) (mt_errors_total m)
    (mt_errors_by_type m) (mt_recent_errors m)
    (mt_registry_ingest_total m) (mt_http_total m) (mt_http_errors_total m).

Definition record_append (m : Metrics) : Metrics :=
  mkMetrics (mt_sessions_total m) (mt_sessions_active m) (mt_last_session_activity_ms m)
    (mt_next_session_id m) (mt_session_activity m) (wrap64 (mt_append_total m + 1))
    (mt_get_last_total m) (mt_get_blob_total m) (mt_errors_total m) (mt_errors_by_type m)
    (mt_recent_errors m)
    (mt_registry_ingest_total m) (mt_http_total m) (mt_http_errors_total m).

Definition record_get_last (m : Metrics) : Metrics :=
  mkMetrics (mt_sessions_total m) (mt_sessions_active m) (mt_last_session_activity_ms m)
    (mt_next_session_id m) (mt_session_activity m) (mt_append_total m)
    (wrap64 (mt_get_last_total m + 1)) (mt_get_blob_total m) (mt_errors_total m)
    (mt_errors_by_type m) (mt_recent_errors m)
    (mt_registry_ingest_total m) (mt_http_total m) (mt_http_errors_total m).

Definition record_get_blob (m : Metrics) : Metrics :=
  mkMetrics (mt_sessions_total m) (mt_sessions_active m) (mt_last_session_activity_ms m)
    (mt_next_session_id m) (mt_session_activity m) (mt_append_total m) (mt_get_last_total m)
    (wrap64 (mt_get_blob_total m + 1)) (mt_errors_total m) (mt_errors_by_type m)
    (mt_recent_errors m)
    (mt_registry_ingest_total m) (mt_http_total m) (mt_http_errors_total m).

Definition record_error (kind : rstr) (status_code : N) (message : rstr) (path : option rstr)
    (now : N) (m : Metrics) : Metrics :=
  let entry := mkErrorEntry now kind status_code message path in
  let buf := mt_recent_errors m in
  let buf := if MAX_ERROR_ENTRIES <=? len buf then tail buf else buf in
  mkMetrics (mt_sessions_total m) (mt_sessions_active m) (mt_last_session_activity_ms m)
    (mt_next_session_id m) (mt_session_activity m) (mt_append_total m) (mt_get_last_total m)
    (mt_get_blob_total m) (wrap64 (mt_errors_total m + 1))
    (<[kind := wrap64 (default 0 (mt_errors_by_type m !! kind) + 1)]> (mt_errors_by_type m))
    (buf ++ [entry])
    (mt_registry_ingest_total m) (mt_http_total m) (mt_http_errors_total m).

Definition record_registry_ingest (m : Metrics) : Metrics :=
  mkMetrics (mt_sessions_total m) (mt_sessions_active m) (mt_last_session_activity_ms m)
    (mt_next_session_id m) (mt_session_activity m) (mt_append_total m) (mt_get_last_total m)
    (mt_get_blob_total m) (mt_errors_total m) (mt_errors_by_type m) (mt_recent_errors m)
    (wrap64 (mt_registry_ingest_total m + 1)) (mt_http_total m) (mt_http_errors_total m).

Definition record_http (status_code : N) (m : Metrics) : Metrics :=
  mkMetrics (mt_sessions_total m) (mt_sessions_active m) (mt_last_session_activity_ms m)
    (mt_next_session_id m) (mt_session_activity m) (mt_append_total m) (mt_get_last_total m)
    (mt_get_blob_total m) (mt_errors_total m) (mt_errors_by_type m) (mt_recent_errors m)
    (mt_registry_ingest_total m) (wrap64 (mt_http_total m + 1))
    (if 400 <=? status_code then wrap64 (mt_http_errors_total m + 1)
     else mt_http_errors_total m).

Definition recent_errors (limit : N) (m : Metrics) : list ErrorEntry :=
  truncate limit (rev (mt_recent_errors m)).

(** ** The tracker's two maps *)

(** A context is mapped to a session exactly when the session is connected and created it. *)
Definition tracker_ok (t : SessionTracker) : Prop :=
  (∀ c s, st_context_to_session t !! c = Some s ↔
     ∃ session, st_sessions t !! s = Some session ∧ c ∈ cs_contexts_created session)
  ∧ ∀ s session, st_sessions t !! s = Some session → cs_session_id session = s.

Lemma tracker_new_ok : tracker_ok tracker_new.
Proof. split; [|done]. intros c s. split; [done|]. by intros (? & ? & _). Qed.

Lemma tracker_ok_register t s tag peer now :
  tracker_ok t → st_sessions t !! s = None → tracker_ok (register s tag peer now t).
Proof.
  intros [Ht Hid] Hs. split; cbn.
  - intros c s'. rewrite Ht. destruct (decide (s = s')) as [<-|Hne].
    + rewrite lookup_insert_eq. split; [by intros (? & ? & _); simplify_eq|].
      intros (session & [= <-] & Hc). by apply elem_of_nil in Hc.
    + by rewrite lookup_insert_ne.
  - intros s' session [[<- <-]|[_ ?]]%lookup_insert_Some; [done|eauto].
Qed.

Lemma tracker_ok_activity t s now : tracker_ok t → tracker_ok (record_activity s now t).
Proof.
  intros [Ht Hid]. split; cbn.
  - intros c s'. rewrite Ht. destruct (decide (s = s')) as [<-|Hne].
    + rewrite lookup_alter_eq. destruct (st_sessions t !! s) as [session|]; cbn; [|done].
      split; intros (x & [= <-] & ?); eauto.
    + by rewrite lookup_alter_ne.
  - intros s' session. destruct (decide (s = s')) as [<-|Hne].
    + rewrite lookup_alter_eq. destruct (st_sessions t !! s) eqn:Hs; cbn; [|done].
      intros [= <-]. cbn. eauto.
    + rewrite lookup_alter_ne by done. eauto.
Qed.

Lemma tracker_ok_add t s c :
  tracker_ok t → is_Some (st_sessions t !! s) → st_context_to_session t !! c = None →
  tracker_ok (add_context s c t).
Proof.
  intros [Ht Hid] [session Hs] Hc.
  assert (Hnot : ∀ s' x, st_sessions t !! s' = Some x → c ∉ cs_contexts_created x).
  { intros s' x Hx Hin. assert (st_context_to_session t !! c = Some s') by (apply Ht; eauto).
    congruence. }
  split; cbn.
  - intros c' s'. destruct (decide (s = s')) as [<-|Hne].
    + rewrite lookup_alter_eq, Hs. cbn. rewrite decide_False by eauto.
      destruct (decide (c = c')) as [<-|Hnc].
      * rewrite lookup_insert_eq. split; [|done]. intros _. eexists. split; [done|]. cbn. set_solver.
      * rewrite lookup_insert_ne, Ht, Hs by done. cbn.
        split; intros (x & [= <-] & Hin); eexists; (split; [done|]); cbn in *; set_solver.
    + rewrite lookup_alter_ne by done. destruct (decide (c = c')) as [<-|Hnc].
      * rewrite lookup_insert_eq. split; [by intros [= ->]|].
        intros (x & Hx & Hin). by apply Hnot in Hx.
      * by rewrite lookup_insert_ne, Ht by done.
  - intros s' x. destruct (decide (s = s')) as [<-|Hne].
    + rewrite lookup_alter_eq, Hs. cbn. case_decide; intros [= <-]; cbn; eauto.
    + rewrite lookup_alter_ne by done. eauto.
Qed.

Lemma foldl_delete_lookup {V} (m : gmap N V) l c :
  foldl (λ m k, delete k m) m l !! c = if decide (c ∈ l) then None else m !! c.
Proof.
  revert m. induction l as [|k l IH]; intros m; cbn.
  { rewrite decide_False; [done|]. apply not_elem_of_nil. }
  rewrite IH. destruct (decide (c ∈ l)) as [Hl|Hl].
  - rewrite decide_True; [done|]. by right.
  - destruct (decide (k = c)) as [<-|Hne].
    + rewrite lookup_delete_eq, decide_True; [done|]. by left.
    + rewrite lookup_delete_ne, decide_False by (rewrite ?elem_of_cons; naive_solver). done.
Qed.

Lemma tracker_ok_unregister t s : tracker_ok t → tracker_ok (unregister s t).2.
Proof.
  intros [Ht Hid]. unfold unregister. destruct (st_sessions t !! s) as [session|] eqn:Hs; cbn.
  - split; cbn.
    + intros c s'. rewrite foldl_delete_lookup. destruct (decide (s = s')) as [<-|Hne].
      * rewrite lookup_delete_eq. split; [|by intros (? & ? & _)].
        case_decide as Hc; [done|]. rewrite Ht, Hs. intros (x & [= <-] & Hin). done.
      * rewrite lookup_delete_ne by done. case_decide as Hc; [|apply Ht]. split; [done|].
        intros Hx. apply Ht in Hx. assert (st_context_to_session t !! c = Some s) by (apply Ht; eauto).
        congruence.
    + intros s' x [_ Hx]%lookup_delete_Some. eauto.
  - rewrite delete_id by done. by split.
Qed.
