(* ===== verification/MetricsView.v ===== *)
(** * MetricsView: rates, latencies and the snapshot of the metrics

    The rest of [server/src/metrics.rs]: the samples of latencies and the rates, which [Sessions]
    leaves out of its counters, and [Metrics::snapshot]. The process and the memory of the machine
    are read by the crate [sysinfo] and by [statvfs], which are parameters, as is the
    exponential function; the other operations on floats are those of binary64. *)

From Stdlib Require Import Floats.SpecFloat.
From S2P Require Import Prelude Bytes External CqlAst ServerConfig Registry Store Sessions.

Open Scope N_scope.

(** ** Binary64 *)

Abbreviation fadd := (SFadd f64_prec f64_emax).
Abbreviation fsub := (SFsub f64_prec f64_emax).
Abbreviation fmul := (SFmul f64_prec f64_emax).
Abbreviation fdiv := (SFdiv f64_prec f64_emax).

(** [n as f64], [f64::max], [floor] and [ceil] of what is not negative, and [f64::exp]. *)
Definition f64_of_N (n : N) : f64 := binary_normalize f64_prec f64_emax (Z.of_N n) 0 false.
Definition f64_max (a b : f64) : f64 :=
  match a, b with
  | S754_nan, _ => b
  | _, S754_nan => a
  | _, _ => if SFltb a b then b else a
  end.
Definition f64_floor (x : f64) : N := f64_as_u64 x.
Definition f64_ceil (x : f64) : N :=
  let low := f64_as_u64 x in if SFeqb (f64_of_N low) x then low else low + 1.
Class Libm : Type := f64_exp : f64 → f64.

(** [Duration::as_secs_f64] of nanoseconds. *)
Definition as_secs_f64 (nanos : N) : f64 :=
  fadd (f64_of_N (nanos / 1000000000))
    (fdiv (f64_of_N (nanos mod 1000000000)) (f64_of_N 1000000000)).
Definition duration_to_ms (nanos : N) : f64 := fmul (as_secs_f64 nanos) (f64_literal ($"1000.0")).

(** ** Latencies *)

Definition MAX_LATENCY_SAMPLES : N := 2048.

Record LatencyStore : Type := mkLatencyStore {
  ls_append : list f64;
  ls_get_last : list f64;
  ls_get_blob : list f64;
  ls_http : list f64
}.
Definition latency_store_new : LatencyStore := mkLatencyStore [] [] [] [].

(** [SampleBuffer::push]. *)
Definition push_sample {A} (samples : list A) (value : A) : list A :=
  (if len samples =? MAX_LATENCY_SAMPLES then tail samples else samples) ++ [value].

(** What [record_append] and the others add to the latencies. *)
Definition latency_of_append (nanos : N) (l : LatencyStore) : LatencyStore :=
  mkLatencyStore (push_sample (ls_append l) (duration_to_ms nanos)) (ls_get_last l) (ls_get_blob l)
    (ls_http l).
Definition latency_of_get_last (nanos : N) (l : LatencyStore) : LatencyStore :=
  mkLatencyStore (ls_append l) (push_sample (ls_get_last l) (duration_to_ms nanos)) (ls_get_blob l)
    (ls_http l).
Definition latency_of_get_blob (nanos : N) (l : LatencyStore) : LatencyStore :=
  mkLatencyStore (ls_append l) (ls_get_last l) (push_sample (ls_get_blob l) (duration_to_ms nanos))
    (ls_http l).
Definition latency_of_http (nanos : N) (l : LatencyStore) : LatencyStore :=
  mkLatencyStore (ls_append l) (ls_get_last l) (ls_get_blob l)
    (push_sample (ls_http l) (duration_to_ms nanos)).

Record LatencySummary : Type := mkLatencySummary {
  lm_p50 : option f64;
  lm_p95 : option f64;
  lm_p99 : option f64;
  lm_max : option f64;
  lm_count : N
}.

(** [percentile]; both indexes are below the length. *)
Definition percentile (sorted : list f64) (pct : f64) : option f64 :=
  if bool_decide (sorted = []) then None
  else
    let rank := fmul (fsub (f64_of_N (len sorted)) (f64_of_N 1)) pct in
    let low := f64_floor rank in
    let high := f64_ceil rank in
    if low =? high then sorted !! N.to_nat low
    else
      low_val ← sorted !! N.to_nat low;
      high_val ← sorted !! N.to_nat high;
      let weight := fsub rank (f64_of_N low) in
      Some (fadd low_val (fmul (fsub high_val low_val) weight)).

(** [LatencySummary::from_samples]: samples that cannot be compared count as equal. *)
Definition from_samples (samples : list f64) : LatencySummary :=
  if bool_decide (samples = []) then mkLatencySummary None None None None 0
  else
    let values := sort_by (λ a b, negb (SFltb b a)) samples in
    mkLatencySummary (percentile values (f64_literal ($"0.50")))
      (percentile values (f64_literal ($"0.95"))) (percentile values (f64_literal ($"0.99")))
      (last values) (len values).

(** ** Rates *)

Definition MAX_RATE_HISTORY : N := 30.

Record RateCalc : Type := mkRateCalc {
  rc_last_total : N;
  rc_last_ts : N;
  rc_rate_1m : f64;
  rc_rate_5m : f64;
  rc_history : list f64
}.
Record RateSnapshot : Type := mkRateSnapshot {
  rs_rate_1m : f64;
  rs_rate_5m : f64;
  rs_history : list f64
}.
Definition rate_new (now : N) : RateCalc := mkRateCalc 0 now (S754_zero false) (S754_zero false) [].

Record RateStore : Type := mkRateStore {
  rt_append : RateCalc;
  rt_get_last : RateCalc;
  rt_get_blob : RateCalc;
  rt_registry : RateCalc;
  rt_http : RateCalc;
  rt_http_errors : RateCalc
}.
Definition rate_store_new (now : N) : RateStore :=
  mkRateStore (rate_new now) (rate_new now) (rate_new now) (rate_new now) (rate_new now) (rate_new now).

Section rates.
Context `{Libm}.

(** [alpha], with [1.0 - (-dt / window).exp()]. *)
Definition alpha (dt window_seconds : f64) : f64 :=
  fsub (f64_of_N 1) (f64_exp (fdiv (SFopp dt) window_seconds)).

(** [RateCalc::update] at an instant, in nanoseconds. *)
Definition rate_update (total now : N) (rc : RateCalc) : RateSnapshot * RateCalc :=
  let dt := f64_max (as_secs_f64 (now - rc_last_ts rc)) (f64_literal ($"0.001")) in
  let delta := f64_of_N (total - rc_last_total rc) in
  let instant_rate := fdiv delta dt in
  let alpha_1m := alpha dt (f64_of_N 60) in
  let alpha_5m := alpha dt (f64_of_N 300) in
  let rate_1m := fadd (rc_rate_1m rc) (fmul alpha_1m (fsub instant_rate (rc_rate_1m rc))) in
  let rate_5m := fadd (rc_rate_5m rc) (fmul alpha_5m (fsub instant_rate (rc_rate_5m rc))) in
  let history :=
    (if MAX_RATE_HISTORY <=? len (rc_history rc) then tail (rc_history rc) else rc_history rc)
    ++ [rate_1m] in
  (mkRateSnapshot rate_1m rate_5m history, mkRateCalc total now rate_1m rate_5m history).
End rates.

(** ** The machine *)

(** What [sysinfo] says of the memory and of the process, and [statvfs]: the blocks, those that are
    available and their size. *)
Record Machine : Type := mkMachine {
  mc_total_memory : N;
  mc_available_memory : N;
  mc_free_memory : N;
  mc_total_swap : N;
  mc_free_swap : N;
  mc_process : option (N * N);
  mc_statvfs : option (N * N * N)
}.

Definition saturating_mul (a b : N) : N := N.min (U64 - 1) (a * b).

(** [disk_space_for_path] on Unix. *)
Definition disk_space_for_path (m : Machine) : N * N :=
  match mc_statvfs m with
  | Some (blocks, bavail, frsize) => (saturating_mul blocks frsize, saturating_mul bavail frsize)
  | None => (0, 0)
  end.

Record MemoryMetrics : Type := mkMemoryMetrics {
  mm_sys_total_bytes : N;
  mm_sys_available_bytes : N;
  mm_sys_free_bytes : N;
  mm_sys_cached_bytes : N;
  mm_sys_swap_total_bytes : N;
  mm_sys_swap_free_bytes : N;
  mm_process_rss_bytes : option N;
  mm_process_vmem_bytes : option N;
  mm_process_heap_bytes : option N;
  mm_process_open_fds : option N;
  mm_budget_bytes : N;
  mm_budget_pct : f64;
  mm_hard_cap_bytes : N;
  mm_pressure_ratio : f64;
  mm_pressure_level : rstr;
  mm_spill_threshold_bytes : N;
  mm_spill_critical_bytes : N
}.

Record StorageMetrics : Type := mkStorageMetrics {
  sm_turns_log_bytes : N;
  sm_turns_index_bytes : N;
  sm_turns_meta_bytes : N;
  sm_heads_table_bytes : N;
  sm_blobs_pack_bytes : N;
  sm_blobs_index_bytes : N;
  sm_data_dir_total_bytes : N;
  sm_data_dir_free_bytes : N
}.

Record ObjectMetrics : Type := mkObjectMetrics {
  om_contexts_total : N;
  om_turns_total : N;
  om_blobs_total : N;
  om_registry_types_total : N;
  om_registry_bundles_total : N;
  om_heads_total : N
}.

(** The budget of memory and how much of it is in use. *)
Definition budget_bytes (config : MetricsConfig) (available_bytes : N) : N :=
  N.max 1 (N.min (f64_as_u64 (fmul (f64_of_N available_bytes) (mc_budget_pct config)))
             (mc_hard_cap_bytes config)).

(** [a >= b]. *)
Definition f64_ge (a b : f64) : bool := SFleb b a.
Definition pressure_level (config : MetricsConfig) (pressure_ratio : f64) : rstr :=
  if f64_ge pressure_ratio (mc_critical_ratio config) then $"CRITICAL"
  else if f64_ge pressure_ratio (mc_hot_ratio config) then $"HOT"
  else if f64_ge pressure_ratio (mc_warn_ratio config) then $"WARN"
  else $"OK".

Section snapshot.
Context `{Crc32} `{Blake3} `{Zstd} `{PreadSchedule} `{HashOrder} `{Msgpack} `{Unicode} `{Libm}.

Definition memory_metrics (config : MetricsConfig) (m : Machine) : MemoryMetrics :=
  let total_bytes := saturating_mul (mc_total_memory m) 1024 in
  let available_bytes := saturating_mul (mc_available_memory m) 1024 in
  let free_bytes := saturating_mul (mc_free_memory m) 1024 in
  let cached_bytes := total_bytes - available_bytes - free_bytes in
  let rss_bytes := (λ p, saturating_mul p.1 1024) <$> mc_process m in
  let budget := budget_bytes config available_bytes in
  let pressure_ratio := fdiv (f64_of_N (default 0 rss_bytes)) (f64_of_N budget) in
  {|
    mm_sys_total_bytes := total_bytes;
    mm_sys_available_bytes := available_bytes;
    mm_sys_free_bytes := free_bytes;
    mm_sys_cached_bytes := cached_bytes;
    mm_sys_swap_total_bytes := saturating_mul (mc_total_swap m) 1024;
    mm_sys_swap_free_bytes := saturating_mul (mc_free_swap m) 1024;
    mm_process_rss_bytes := rss_bytes;
    mm_process_vmem_bytes := (λ p, saturating_mul p.2 1024) <$> mc_process m;
    mm_process_heap_bytes := None;
    mm_process_open_fds := None;
    mm_budget_bytes := budget;
    mm_budget_pct := mc_budget_pct config;
    mm_hard_cap_bytes := mc_hard_cap_bytes config;
    mm_pressure_ratio := pressure_ratio;
    mm_pressure_level := pressure_level config pressure_ratio;
    mm_spill_threshold_bytes := f64_as_u64 (fmul (f64_of_N budget) (f64_literal ($"0.85")));
    mm_spill_critical_bytes := f64_as_u64 (fmul (f64_of_N budget) (f64_literal ($"0.95")))
  |}.

Definition collect_stats (config : MetricsConfig) (m : Machine) (store : Store) (registry : Registry)
    : MemoryMetrics * StorageMetrics * ObjectMetrics :=
  let (disk_total, disk_free) := disk_space_for_path m in
  let store_stats := Store.stats store in
  let registry_stats := Registry.stats registry in
  (memory_metrics config m,
   {|
     sm_turns_log_bytes := ss_turns_log_bytes store_stats;
     sm_turns_index_bytes := ss_turns_index_bytes store_stats;
     sm_turns_meta_bytes := ss_turns_meta_bytes store_stats;
     sm_heads_table_bytes := ss_heads_table_bytes store_stats;
     sm_blobs_pack_bytes := ss_blobs_pack_bytes store_stats;
     sm_blobs_index_bytes := ss_blobs_index_bytes store_stats;
     sm_data_dir_total_bytes := disk_total;
     sm_data_dir_free_bytes := disk_free
   |},
   {|
     om_contexts_total := ss_contexts_total store_stats;
     om_turns_total := ss_turns_total store_stats;
     om_blobs_total := ss_blobs_total store_stats;
     om_registry_types_total := rst_types_total registry_stats;
     om_registry_bundles_total := rst_bundles_total registry_stats;
     om_heads_total := ss_heads_total store_stats
   |}).

(** ** The snapshot *)

Record SessionMetrics : Type := mkSessionMetrics {
  sn_total : N;
  sn_active : N;
  sn_idle : N;
  sn_last_activity_unix_ms : N
}.
Record FilesystemMetrics : Type := mkFilesystemMetrics {
  fm_snapshots_total : N;
  fm_index_bytes : N;
  fm_content_bytes : N
}.
Record ErrorMetrics : Type := mkErrorMetrics {
  em_total : N;
  em_by_type : gmap rstr N
}.
(** [PerfMetrics]: the rates, with their history where it is shown, and the latencies. *)
Record PerfMetrics : Type := mkPerfMetrics {
  pm_append : RateSnapshot;
  pm_get_last : RateSnapshot;
  pm_get_blob : RateSnapshot;
  pm_registry_ingest : f64 * f64;
  pm_http_req : RateSnapshot;
  pm_http_errors : f64 * f64;
  pm_append_latency_ms : LatencySummary;
  pm_get_last_latency_ms : LatencySummary;
  pm_get_blob_latency_ms : LatencySummary;
  pm_http_latency_ms : LatencySummary
}.
Record MetricsSnapshot : Type := mkMetricsSnapshot {
  ms_ts : rstr;
  ms_uptime_seconds : f64;
  ms_memory : MemoryMetrics;
  ms_sessions : SessionMetrics;
  ms_objects : ObjectMetrics;
  ms_storage : StorageMetrics;
  ms_filesystem : FilesystemMetrics;
  ms_perf : PerfMetrics;
  ms_errors : ErrorMetrics
}.

(** The sessions without activity since the cutoff. *)
Definition idle_sessions (config : MetricsConfig) (now_ms : N) (m : Metrics) : N :=
  let idle_cutoff := now_ms - saturating_mul (mc_idle_seconds config) 1000 in
  len (filter (λ v, v < idle_cutoff) (map_to_list (mt_session_activity m)).*2).

Definition rate_pair (r : RateSnapshot) : f64 * f64 := (rs_rate_1m r, rs_rate_5m r).

(** [update_append] and the others; [clock i] is the instant of the [i]-th update. *)
Definition update_rates (clock : N → N) (m : Metrics) (rates : RateStore)
    : list RateSnapshot * RateStore :=
  let (append, c1) := rate_update (mt_append_total m) (clock 0) (rt_append rates) in
  let (get_last, c2) := rate_update (mt_get_last_total m) (clock 1) (rt_get_last rates) in
  let (get_blob, c3) := rate_update (mt_get_blob_total m) (clock 2) (rt_get_blob rates) in
  let (registry, c4) := rate_update (mt_registry_ingest_total m) (clock 3) (rt_registry rates) in
  let (http, c5) := rate_update (mt_http_total m) (clock 4) (rt_http rates) in
  let (errors, c6) := rate_update (mt_http_errors_total m) (clock 5) (rt_http_errors rates) in
  ([append; get_last; get_blob; registry; http; errors], mkRateStore c1 c2 c3 c4 c5 c6).

(** [Metrics::snapshot]: [ts] is the text of the time, [uptime] the nanoseconds since the start. *)
Definition snapshot (config : MetricsConfig) (machine : Machine) (ts : rstr) (uptime now_ms : N)
    (clock : N → N) (store : Store) (registry : Registry) (m : Metrics) (latencies : LatencyStore)
    (rates : RateStore) : option MetricsSnapshot * RateStore :=
  let '(memory, storage, objects) := collect_stats config machine store registry in
  let (snapshots, rates) := update_rates clock m rates in
  let store_stats := Store.stats store in
  (match snapshots with
   | [append; get_last; get_blob; registry; http; errors] =>
       Some {|
         ms_ts := ts;
         ms_uptime_seconds := as_secs_f64 uptime;
         ms_memory := memory;
         ms_sessions :=
           mkSessionMetrics (mt_sessions_total m) (mt_sessions_active m)
             (idle_sessions config now_ms m) (mt_last_session_activity_ms m);
         ms_objects := objects;
         ms_storage := storage;
         ms_filesystem :=
           mkFilesystemMetrics (ss_fs_roots_total store_stats) (ss_fs_roots_bytes store_stats)
             (ss_fs_content_bytes store_stats);
         ms_perf := {|
           pm_append := append;
           pm_get_last := get_last;
           pm_get_blob := get_blob;
           pm_registry_ingest := rate_pair registry;
           pm_http_req := http;
           pm_http_errors := rate_pair errors;
           pm_append_latency_ms := from_samples (ls_append latencies);
           pm_get_last_latency_ms := from_samples (ls_get_last latencies);
           pm_get_blob_latency_ms := from_samples (ls_get_blob latencies);
           pm_http_latency_ms := from_samples (ls_http latencies)
         |};
         ms_errors := mkErrorMetrics (mt_errors_total m) (mt_errors_by_type m)
       |}
   | _ => None
   end, rates).
End snapshot.

(** ** Windows *)

(** The samples are the last ones that were pushed. *)
Definition last_n {A} (n : nat) (l : list A) : list A := drop (length l - n) l.

Lemma push_sample_window {A} (pushed : list A) :
  foldl push_sample [] pushed = last_n (N.to_nat MAX_LATENCY_SAMPLES) pushed.
Proof.
  unfold last_n. set (n := N.to_nat MAX_LATENCY_SAMPLES).
  assert (Hpos : (1 ≤ n)%nat) by (unfold n, MAX_LATENCY_SAMPLES; lia).
  induction pushed as [|a l IH] using rev_ind; [done|]. rewrite foldl_app. cbn [foldl]. rewrite IH.
  unfold push_sample, len. rewrite length_drop, !length_app. cbn [length].
  destruct (_ =? _) eqn:Heq; [apply N.eqb_eq in Heq|apply N.eqb_neq in Heq].
  - assert (Hn : (n ≤ length l)%nat) by (unfold n; lia).
    replace (length l + 1 - n)%nat with (S (length l - n)) by lia.
    rewrite drop_app_le by lia. f_equal. replace (S (length l - n)) with (length l - n + 1)%nat by lia.
    rewrite <- drop_drop. by destruct (drop (length l - n) l).
  - assert (Hn : (length l < n)%nat) by (unfold n; lia).
    replace (length l + 1 - n)%nat with 0%nat by lia. by replace (length l - n)%nat with 0%nat by lia.
Qed.

(** Values. *)
Definition ms (l : list N) : list f64 := map (λ n, f64_of_N n) l.

Example summary_of_samples :
  let s := from_samples (ms [30; 10; 20; 50; 40]) in
  lm_p50 s = Some (f64_of_N 30) ∧ lm_max s = Some (f64_of_N 50) ∧ lm_count s = 5
  ∧ lm_p95 s = Some (f64_of_N 48).
Proof. by vm_compute. Qed.

Example durations : duration_to_ms 1500000 = f64_literal ($"1.5") ∧ duration_to_ms 0 = S754_zero false.
Proof. by vm_compute. Qed.

(** With ratios that are not in order, the first level that is reached from above is shown. *)
Example levels :
  let env : Env := λ _, None in let c := metrics_config_from_env in
  map (pressure_level c) [f64_literal ($"0.59"); f64_literal ($"0.6"); f64_literal ($"0.8"); f64_literal ($"2")]
  = [$"OK"; $"WARN"; $"HOT"; $"CRITICAL"].
Proof. by vm_compute. Qed.

(** The crate gives bytes, which are multiplied by 1024 once more: on a machine with 16 GiB
    available and the default share of 70 %, the budget is the hard cap of 24 GiB. *)
Example budget_exceeds_the_memory :
  let env : Env := λ _, None in
  let m := mkMachine (32 * 2 ^ 30) (16 * 2 ^ 30) (8 * 2 ^ 30) 0 0 None None in
  mm_budget_bytes (memory_metrics metrics_config_from_env m) = 24 * 2 ^ 30.
Proof. by vm_compute. Qed.
