(* ===== verification/Server.v ===== *)
(** * Server: connections of the binary protocol

    [server/src/main.rs]: [handle_client], the loop that reads a request, performs it on the shared
    store and writes the response, and [map_error]. A request is handled while the store is
    locked, so requests of different connections interleave as wholes. The clock is an argument. *)

From S2P Require Import Prelude Bytes External Protocol BlobStore TurnStore FsStore.
From S2P Require Import Metadata CqlIndexes Store Events Sessions.

Open Scope N_scope.

(** The text of a [std::io::Error]. *)
Class IoText : Type := io_text : io_kind → rstr.

(** What the connections share. *)
Record Server : Type := mkServer {
  sv_store : Store;
  sv_tracker : SessionTracker;
  sv_bus : EventBus;
  sv_metrics : Metrics
}.

Definition set_store (s : Store) (sv : Server) : Server :=
  mkServer s (sv_tracker sv) (sv_bus sv) (sv_metrics sv).
Definition on_tracker (f : SessionTracker → SessionTracker) (sv : Server) : Server :=
  mkServer (sv_store sv) (f (sv_tracker sv)) (sv_bus sv) (sv_metrics sv).
Definition emit (event : StoreEvent) (sv : Server) : Server :=
  mkServer (sv_store sv) (sv_tracker sv) (publish event (sv_bus sv)) (sv_metrics sv).
Definition on_metrics (f : Metrics → Metrics) (sv : Server) : Server :=
  mkServer (sv_store sv) (sv_tracker sv) (sv_bus sv) (f (sv_metrics sv)).

(** The local variables of a connection. *)
Record Conn : Type := mkConn {
  cn_session_id : N;
  cn_peer_addr : rstr;
  cn_tag_received : bool;
  cn_client_tag : rstr
}.

(** What an arm of the match on the message type gives: a response, an error for the client,
    or, where the arm uses [?], an error that ends the connection. *)
Inductive reply : Type :=
| Reply (resp_type : MsgType) (payload : bytes)
| ReplyErr (e : StoreError)
| Abort (e : StoreError).

Section Server.
Context `{Crc32} `{Blake3} `{Zstd} `{PreadSchedule} `{HashOrder} `{Msgpack} `{Unicode} `{IoText}.

Definition map_error (err : StoreError) : N * rstr :=
  match err with
  | NotFound msg => (404, msg)
  | InvalidInput msg => (422, msg)
  | Corrupt msg => (500, msg)
  | Io k => (500, io_text k)
  end.

(** [if !client_tag_received]: the first request of a connection without HELLO. *)
Definition ensure_registered (now : N) (conn : Conn) (sv : Server) : Conn * Server :=
  if cn_tag_received conn then (conn, sv)
  else (mkConn (cn_session_id conn) (cn_peer_addr conn) true (cn_client_tag conn),
        on_tracker (register (cn_session_id conn) [] (Some (cn_peer_addr conn)) now) sv).

Definition handle_hello (now : N) (payload : bytes) (conn : Conn) (sv : Server)
    : reply * Conn * Server :=
  match parse_hello payload with
  | Err e => (Abort e, conn, sv)
  | Ok hello =>
      let '(conn, sv) :=
        if cn_tag_received conn then (conn, sv)
        else
          let tag := hr_client_tag hello in
          (mkConn (cn_session_id conn) (cn_peer_addr conn) true tag,
           emit (ClientConnected (show_N (cn_session_id conn)) tag)
             (on_tracker (register (cn_session_id conn) tag (Some (cn_peer_addr conn)) now) sv)) in
      (Reply Hello (encode_hello_resp (cn_session_id conn) 1), conn, sv)
  end.

(** The arms of [CtxCreate] and [CtxFork], which differ in the operation and the type. *)
Definition handle_create (parse : bytes → result StoreError N)
    (create : N → N → Store → result StoreError ContextHead * Store) (ty : MsgType)
    (now : N) (payload : bytes) (conn : Conn) (sv : Server) : reply * Conn * Server :=
  let '(conn, sv) := ensure_registered now conn sv in
  match parse payload with
  | Err e => (Abort e, conn, sv)
  | Ok base_turn_id =>
      let (created, store) := create base_turn_id now (sv_store sv) in
      let sv := set_store store sv in
      match created with
      | Err e => (Abort e, conn, sv)
      | Ok head =>
          let sv := on_tracker (Sessions.add_context (cn_session_id conn) (ch_context_id head)) sv in
          let sv := emit (ContextCreated (show_N (ch_context_id head))
                            (show_N (cn_session_id conn)) (cn_client_tag conn) now) sv in
          (Reply ty (encode_ctx_create_resp (ch_context_id head) (ch_head_turn_id head)
                       (ch_head_depth head)), conn, sv)
      end
  end.

Definition handle_get_head (payload : bytes) (sv : Server) : reply * Server :=
  match parse_get_head payload with
  | Err e => (Abort e, sv)
  | Ok context_id =>
      match get_head (sv_store sv) context_id with
      | Ok head =>
          (Reply GetHead (encode_ctx_create_resp (ch_context_id head) (ch_head_turn_id head)
                            (ch_head_depth head)), sv)
      | Err e => (ReplyErr e, sv)
      end
  end.

(** The events of extracted metadata. *)
Definition metadata_events (context_id : N) (metadata : option ContextMetadata)
    : list StoreEvent :=
  match metadata with
  | None => []
  | Some meta =>
      ContextMetadataUpdated (show_N context_id) (cm_client_tag meta) (cm_title meta)
        (cm_labels meta) (bool_decide (is_Some (cm_provenance meta)))
      :: match cm_provenance meta with
         | None => []
         | Some prov =>
             match pv_parent_context_id prov with
             | None => []
             | Some parent => [ContextLinked (show_N context_id) (show_N parent)
                                 (show_N <$> pv_root_context_id prov) (pv_spawn_reason prov)]
             end
         end
  end.

Definition handle_append (flags now : N) (payload : bytes) (sv : Server) : reply * Server :=
  match parse_append_turn payload flags with
  | Err e => (Abort e, sv)
  | Ok req =>
      let (appended, store) :=
        append_turn (atr_context_id req) (atr_parent_turn_id req) (atr_declared_type_id req)
          (atr_declared_type_version req) (atr_encoding req) (atr_compression req)
          (atr_uncompressed_len req) (atr_content_hash req) (atr_payload_bytes req) now
          (sv_store sv) in
      let sv := set_store store sv in
      match appended with
      | Err e => (Abort e, sv)
      | Ok (record, metadata) =>
          let (attached, sv) :=
            match atr_fs_root_hash req with
            | Some fs_root_hash =>
                let (r, store) := attach_fs (tr_turn_id record) fs_root_hash (sv_store sv) in
                (r, set_store store sv)
            | None => (Ok tt, sv)
            end in
          match attached with
          | Err e => (Abort e, sv)
          | Ok _ =>
              let sv := on_metrics record_append sv in
              let sv := emit (TurnAppended (show_N (atr_context_id req))
                          (show_N (tr_turn_id record)) (show_N (tr_parent_turn_id record))
                          (tr_depth record) (Some (atr_declared_type_id req))
                          (Some (atr_declared_type_version req))) sv in
              let sv := foldl (λ sv event, emit event sv) sv
                          (metadata_events (atr_context_id req) metadata) in
              (Reply AppendTurn (encode_append_ack (atr_context_id req) (tr_turn_id record)
                                   (tr_depth record) (tr_payload_hash record)), sv)
          end
      end
  end.

Definition handle_attach (payload : bytes) (sv : Server) : reply * Server :=
  match parse_attach_fs payload with
  | Err e => (Abort e, sv)
  | Ok req =>
      let (attached, store) := attach_fs (afr_turn_id req) (afr_fs_root_hash req) (sv_store sv) in
      let sv := set_store store sv in
      match attached with
      | Err e => (Abort e, sv)
      | Ok _ =>
          (Reply AttachFs (encode_attach_fs_resp (afr_turn_id req) (afr_fs_root_hash req)), sv)
      end
  end.

Definition handle_put_blob (payload : bytes) (sv : Server) : reply * Server :=
  match parse_put_blob payload with
  | Err e => (Abort e, sv)
  | Ok req =>
      if negb (bool_decide (blake3 (pbr_data req) = pbr_hash req))
      then (ReplyErr (InvalidInput ($"blob hash mismatch")), sv)
      else
        let blobs := st_blob_store (sv_store sv) in
        let was_new := negb (contains blobs (pbr_hash req)) in
        let (put, blobs) := put_if_absent (pbr_hash req) (pbr_data req) blobs in
        let sv := set_store (with_blobs blobs (sv_store sv)) sv in
        match put with
        | Err e => (Abort e, sv)
        | Ok _ => (Reply PutBlob (encode_put_blob_resp (pbr_hash req) was_new), sv)
        end
  end.

(** One turn of the response to [GetLast]. *)
Definition encode_turn_item (item : TurnWithMeta) : bytes :=
  let record := twm_record item in
  let meta := twm_meta item in
  write_u64 (tr_turn_id record) ++ write_u64 (tr_parent_turn_id record)
  ++ write_u32 (tr_depth record)
  ++ write_u32 (wrap32 (len (tm_declared_type_id meta))) ++ tm_declared_type_id meta
  ++ write_u32 (tm_declared_type_version meta) ++ write_u32 (tm_encoding meta)
  ++ write_u32 (if bool_decide (is_Some (twm_payload item)) then 0 else tm_compression meta)
  ++ write_u32 (match twm_payload item with
                | Some p => wrap32 (len p)
                | None => tm_uncompressed_len meta
                end)
  ++ tr_payload_hash record
  ++ match twm_payload item with
     | Some payload => write_u32 (wrap32 (len payload)) ++ payload
     | None => []
     end.

Definition encode_turn_items (items : list TurnWithMeta) : bytes :=
  write_u32 (wrap32 (len items)) ++ concat (map encode_turn_item items).

Definition handle_get_last (payload : bytes) (sv : Server) : reply * Server :=
  match parse_get_last payload with
  | Err e => (Abort e, sv)
  | Ok req =>
      match get_last (sv_store sv) (glr_context_id req) (glr_limit req)
              (negb (glr_include_payload req =? 0)) with
      | Err e => (Abort e, sv)
      | Ok items => (Reply GetLast (encode_turn_items items), on_metrics record_get_last sv)
      end
  end.

Definition handle_get_blob (payload : bytes) (sv : Server) : reply * Server :=
  match parse_get_blob payload with
  | Err e => (Abort e, sv)
  | Ok hash =>
      match get_blob (sv_store sv) hash with
      | Ok bs => (Reply GetBlob (write_u32 (wrap32 (len bs)) ++ bs), on_metrics record_get_blob sv)
      | Err e => (ReplyErr e, sv)
      end
  end.

(** The match on the message type. *)
Definition dispatch (header : FrameHeader) (payload : bytes) (now : N) (conn : Conn) (sv : Server)
    : reply * Conn * Server :=
  let ty := fh_msg_type header in
  let shared (f : Server → reply * Server) := let (r, sv) := f sv in (r, conn, sv) in
  if ty =? msg_type_u16 Hello then handle_hello now payload conn sv
  else if ty =? msg_type_u16 CtxCreate then
    handle_create parse_ctx_create create_context CtxCreate now payload conn sv
  else if ty =? msg_type_u16 CtxFork then
    handle_create parse_ctx_fork fork_context CtxFork now payload conn sv
  else if ty =? msg_type_u16 GetHead then shared (handle_get_head payload)
  else if ty =? msg_type_u16 AppendTurn then
    shared (handle_append (fh_flags header) now payload)
  else if ty =? msg_type_u16 AttachFs then shared (handle_attach payload)
  else if ty =? msg_type_u16 PutBlob then shared (handle_put_blob payload)
  else if ty =? msg_type_u16 GetLast then shared (handle_get_last payload)
  else if ty =? msg_type_u16 GetBlob then shared (handle_get_blob payload)
  else (ReplyErr (InvalidInput ($"unknown msg_type")), conn, sv).

Definition binary : rstr := $"binary".

(** One iteration of the loop after the frame was read: the bytes written to the stream,
    or the error that ends the connection. *)
Definition handle_message (header : FrameHeader) (payload : bytes) (now : N) (conn : Conn)
    (sv : Server) : result StoreError bytes * Conn * Server :=
  let sv := on_metrics (record_session_activity (cn_session_id conn) now) sv in
  let sv := on_tracker (record_activity (cn_session_id conn) now) sv in
  match dispatch header payload now conn sv with
  | (Abort e, conn, sv) => (Err e, conn, sv)
  | (Reply ty resp, conn, sv) =>
      (Ok (write_frame (msg_type_u16 ty) 0 (fh_req_id header) resp), conn, sv)
  | (ReplyErr err, conn, sv) =>
      let (code, detail) := map_error err in
      let sv := on_metrics (record_error binary (wrap16 code) detail None now) sv in
      let sv := emit (ErrorOccurred now binary (wrap16 code) detail None) sv in
      (Ok (write_frame (msg_type_u16 Error) 0 (fh_req_id header) (encode_error code detail)),
       conn, sv)
  end.

(** The start of [handle_client]. *)
Definition connect (peer_addr : rstr) (now : N) (sv : Server) : Conn * Server :=
  let (session_id, m) := register_session now (sv_metrics sv) in
  (mkConn session_id peer_addr false [], on_metrics (λ _, m) sv).

(** The end of [handle_client] after the loop; the guard of the session is dropped last. *)
Definition disconnected (conn : Conn) (sv : Server) : Server :=
  let (orphaned, t) := unregister (cn_session_id conn) (sv_tracker sv) in
  let sv := on_tracker (λ _, t) sv in
  let sv := emit (ClientDisconnected (show_N (cn_session_id conn)) (cn_client_tag conn)
                    (map show_N orphaned)) sv in
  on_metrics (unregister_session (cn_session_id conn)) sv.

(** The end of [handle_client] by an error: only the guard is dropped. *)
Definition failed (conn : Conn) (sv : Server) : Server :=
  on_metrics (unregister_session (cn_session_id conn)) sv.

(** The loop on a stream that carries [input] and then ends; the clock reads [clock n] in the
    [n]-th iteration. Each iteration consumes a frame, so the length of the input is enough
    fuel. *)
Fixpoint client_loop (fuel : nat) (clock : nat → N) (n : nat) (input output : bytes) (conn : Conn)
    (sv : Server) : result StoreError unit * bytes * Server :=
  match fuel with
  | O => (Ok tt, output, sv)
  | S fuel =>
      match read_frame input with
      | Ok ((header, payload), input) =>
          match handle_message header payload (clock n) conn sv with
          | (Ok out, conn, sv) => client_loop fuel clock (S n) input (output ++ out) conn sv
          | (Err e, conn, sv) => (Err e, output, failed conn sv)
          end
      | Err (Io UnexpectedEof) | Err (Io WouldBlock) | Err (Io TimedOut) =>
          (Ok tt, output, disconnected conn sv)
      | Err e => (Err e, output, failed conn sv)
      end
  end.

Definition handle_client (clock : nat → N) (input : bytes) (peer_addr : rstr) (sv : Server)
    : result StoreError unit * bytes * Server :=
  let (conn, sv) := connect peer_addr (clock 0%nat) sv in
  client_loop (S (length input)) clock 0 input [] conn sv.

End Server.
