(* ===== verification/Client.v ===== *)
(** * Client: calls of the Rust client

    [clients/rust/src/{client,context,turn,fs}.rs]: the state of a [Client], sending a request
    and reading its response, and the calls of the API. The peer is a parameter: what it
    sends in answer to the bytes that were written, until it waits for more or closes. The
    last part dials: options, addresses, the name TLS verifies, and what a failed dial leaves
    open. The handshake of TLS and deadlines that expire inside a read are not modelled. *)

From S2P Require Import Prelude Bytes External Protocol ClientWire.

Open Scope N_scope.

(** [RequestContext], with the flag read at the time of the call; instants are numbers. *)
Record RequestContext : Type := mkRequestContext {
  rc_deadline : option N;
  rc_cancelled : bool
}.

Definition background : RequestContext := mkRequestContext None false.
Definition with_deadline (deadline : N) : RequestContext := mkRequestContext (Some deadline) false.
Definition with_timeout (timeout now : N) : RequestContext := with_deadline (now + timeout).

(** [Client]; [cl_pending] are the bytes of the stream that were received and not read. *)
Record Client : Type := mkClient {
  cl_req_id : N;
  cl_closed : bool;
  cl_timeout : N;
  cl_session_id : N;
  cl_client_tag : rstr;
  cl_pending : bytes
}.

Definition client_new (timeout : N) (client_tag : rstr) : Client :=
  mkClient 0 false timeout 0 client_tag [].

Definition close (cl : Client) : Client :=
  mkClient (cl_req_id cl) true (cl_timeout cl) (cl_session_id cl) (cl_client_tag cl)
    (cl_pending cl).

Definition compute_deadline (ctx : RequestContext) (now : N) (cl : Client)
    : result ClientError N :=
  let deadline := now + cl_timeout cl in
  let deadline := match rc_deadline ctx with
                  | Some ctx_deadline => if ctx_deadline <? deadline then ctx_deadline else deadline
                  | None => deadline
                  end in
  if deadline <=? now then Err Timeout else Ok deadline.

(** [read_frame] on the stream: the frame and what remains to be read. A header with an
    oversized length consumes four bytes, an input that is too short all of it. *)
Definition read_pending (bs : bytes) : result ClientError (FrameHeader * bytes) * bytes :=
  match client_read_frame bs with
  | Ok (frame, rest) => (Ok frame, rest)
  | Err e => (Err e, if MAX_FRAME_SIZE <? le_decode (take 4 bs) then drop 4 bs else [])
  end.

Section Client.
Context {S : Type} (peer : bytes → S → bytes * S) `{Blake3}.

Definition send_request_with_flags (ctx : RequestContext) (now msg_type flags : N)
    (payload : bytes) (cl : Client) (s : S)
    : result ClientError (FrameHeader * bytes) * Client * S :=
  if cl_closed cl then (Err ClientClosed, cl, s)
  else if rc_cancelled ctx then (Err Cancelled, cl, s)
  else match compute_deadline ctx now cl with
  | Err e => (Err e, cl, s)
  | Ok _ =>
      let req_id := wrap64 (cl_req_id cl + 1) in
      let (received, s) := peer (client_write_frame msg_type flags req_id payload) s in
      let (frame, pending) := read_pending (cl_pending cl ++ received) in
      let cl := mkClient req_id (cl_closed cl) (cl_timeout cl) (cl_session_id cl)
                  (cl_client_tag cl) pending in
      match frame with
      | Err e => (Err e, cl, s)
      | Ok (header, body) =>
          if fh_msg_type header =? MSG_ERROR then (Err (parse_server_error body), cl, s)
          else (Ok (header, body), cl, s)
      end
  end.

(** A call of the API: the request and the parser of the payload of its response. *)
Definition call {A} (parse : bytes → result ClientError A) (ctx : RequestContext)
    (now msg_type flags : N) (payload : bytes) (cl : Client) (s : S)
    : result ClientError A * Client * S :=
  let '(r, cl, s) := send_request_with_flags ctx now msg_type flags payload cl s in
  ('(_, body) ← r; parse body, cl, s).

Definition send_hello (client_tag : rstr) (now : N) (cl : Client) (s : S)
    : result ClientError unit * Client * S :=
  let ctx := with_timeout (cl_timeout cl) now in
  match send_request_with_flags ctx now MSG_HELLO 0 (hello_payload client_tag) cl s with
  | (Err e, cl, s) => (Err e, cl, s)
  | (Ok (header, body), cl, s) =>
      if negb (fh_msg_type header =? MSG_HELLO)
      then (Err (InvalidResponse ($"unexpected response type: " ++ show_N (fh_msg_type header))),
            cl, s)
      else
        (Ok tt,
         if 8 <=? len body
         then mkClient (cl_req_id cl) (cl_closed cl) (cl_timeout cl) (le_decode (take 8 body))
                (cl_client_tag cl) (cl_pending cl)
         else cl, s)
  end.

(** [dial], once the stream is connected. *)
Definition dial (timeout : N) (client_tag : rstr) (now : N) (s : S)
    : result ClientError Client * S :=
  match send_hello client_tag now (client_new timeout client_tag) s with
  | (Err e, _, s) => (Err e, s)
  | (Ok _, cl, s) => (Ok cl, s)
  end.

Definition create_context (ctx : RequestContext) (now base_turn_id : N) :=
  call parse_context_head ctx now MSG_CTX_CREATE 0 (context_payload base_turn_id).
Definition fork_context (ctx : RequestContext) (now base_turn_id : N) :=
  call parse_context_head ctx now MSG_CTX_FORK 0 (context_payload base_turn_id).
Definition get_head (ctx : RequestContext) (now context_id : N) :=
  call parse_context_head ctx now MSG_GET_HEAD 0 (context_payload context_id).
Definition append_turn (ctx : RequestContext) (now : N) (req : AppendRequest) :=
  call parse_append_result ctx now MSG_APPEND_TURN 0 (append_turn_payload req).
Definition append_turn_with_fs (ctx : RequestContext) (now : N) (req : AppendRequest)
    (fs_root_hash : option bytes) :=
  let (flags, payload) := append_turn_with_fs_payload req fs_root_hash in
  call parse_append_result ctx now MSG_APPEND_TURN flags payload.
Definition get_last (ctx : RequestContext) (now context_id : N) (opts : GetLastOptions) :=
  call parse_turn_records ctx now MSG_GET_LAST 0 (get_last_payload context_id opts).
Definition attach_fs (ctx : RequestContext) (now turn_id : N) (fs_root_hash : bytes) :=
  call parse_attach_fs_result ctx now MSG_ATTACH_FS 0 (attach_fs_payload turn_id fs_root_hash).
Definition put_blob (ctx : RequestContext) (now : N) (data : bytes) :=
  call parse_put_blob_result ctx now MSG_PUT_BLOB 0 (put_blob_payload data).
End Client.

(** ** Reading a response *)

Lemma reads_map_err {E E' A} (f : E → E') (r : reader E A) bs a :
  reads r bs a → reads (rmap_err f r) bs a.
Proof. intros Hr rest. unfold rmap_err. by rewrite Hr. Qed.

Lemma client_reads_frame t f id p :
  t < U16 → f < U16 → id < U64 → len p ≤ MAX_FRAME_SIZE →
  reads client_read_frame (write_frame t f id p) (mkFrameHeader (len p) t f id, p).
Proof.
  intros Ht Hf Hid Hp. assert (len p < U32) by (unfold MAX_FRAME_SIZE in Hp; lia).
  unfold client_read_frame, write_frame. rewrite wrap32_small by done.
  eapply reads_bind; [by apply reads_map_err, reads_u32|]. cbn beta.
  rewrite (proj2 (N.ltb_ge _ _)) by done.
  eapply reads_bind; [by apply reads_map_err, reads_u16|]. cbn beta.
  eapply reads_bind; [by apply reads_map_err, reads_u16|]. cbn beta.
  eapply reads_bind; [by apply reads_map_err, reads_u64|]. cbn beta.
  eapply reads_last; [by apply reads_map_err, reads_exact|]. apply reads_ret.
Qed.

Lemma read_pending_frame t f id p :
  t < U16 → f < U16 → id < U64 → len p ≤ MAX_FRAME_SIZE →
  read_pending (write_frame t f id p) = (Ok (mkFrameHeader (len p) t f id, p), []).
Proof.
  intros. unfold read_pending. pose proof (client_reads_frame t f id p) as Hr.
  specialize (Hr ltac:(done) ltac:(done) ltac:(done) ltac:(done) []). rewrite app_nil_r in Hr.
  by rewrite Hr.
Qed.

(** A client that can send: it is not closed, nothing is unread and time is left. *)
Definition ready (ctx : RequestContext) (now : N) (cl : Client) : Prop :=
  cl_closed cl = false ∧ rc_cancelled ctx = false ∧ is_ok (compute_deadline ctx now cl) = true
  ∧ cl_pending cl = [].

Definition next_request (cl : Client) : Client :=
  mkClient (wrap64 (cl_req_id cl + 1)) (cl_closed cl) (cl_timeout cl) (cl_session_id cl)
    (cl_client_tag cl) [].

Lemma ready_next ctx now cl : ready ctx now cl → ready ctx now (next_request cl).
Proof. intros (Hc & Hx & Ht & Hp). by split_and!. Qed.

Lemma call_answered {S A} (peer : bytes → S → bytes * S) (parse : bytes → result ClientError A)
    ctx now ty flags payload body cl s s' :
  ready ctx now cl → ty < U16 → ty ≠ MSG_ERROR → len body ≤ MAX_FRAME_SIZE →
  peer (write_frame ty flags (wrap64 (cl_req_id cl + 1)) payload) s
    = (write_frame ty 0 (wrap64 (cl_req_id cl + 1)) body, s') →
  call peer parse ctx now ty flags payload cl s = (parse body, next_request cl, s').
Proof.
  intros (Hc & Hx & Ht & Hp) Hty Hne Hb Hpeer. unfold call, send_request_with_flags, next_request.
  rewrite Hc, Hx. destruct (compute_deadline ctx now cl) as [dl|]; [|done].
  change client_write_frame with write_frame. rewrite Hpeer, Hp. cbn [app].
  rewrite read_pending_frame by (done || apply wrap64_lt).
  cbn [fh_msg_type]. by rewrite (proj2 (N.eqb_neq _ _)).
Qed.

(** ** Dialling

    From an address to a client: [dial] and [dial_tls] of [client.rs] with the options, the
    resolution of the address, the attempts to connect and the name that TLS verifies.
    Durations are in nanoseconds. *)

Definition DEFAULT_DIAL_TIMEOUT : N := 5 * 1000000000.
Definition DEFAULT_REQUEST_TIMEOUT : N := 30 * 1000000000.

(** The sockets of the standard library in a world [W]. [peer_of] is what a connection answers
    to the bytes that are written to it, and [drop_stream] the drop of a stream, which closes
    its descriptor. *)
Class Sockets (W : Type) : Type := {
  SocketAddr : Type;
  Stream : Type;
  instant_now : W → N;
  to_socket_addrs : rstr → W → result io_kind (list SocketAddr) * W;
  connect_timeout : SocketAddr → N → W → result io_kind Stream * W;
  set_nodelay : Stream → W → W;
  shutdown : Stream → W → W;
  drop_stream : Stream → W → W
}.

(** What [dial_tls] calls of rustls and of the operating system's store of certificates. *)
Class TlsClient (W : Type) : Type := {
  Cert : Type;
  RootStore : Type;
  TlsConfig : Type;
  ServerName : Type;
  TlsConn : Type;
  native_certs : W → list Cert * W;
  root_empty : RootStore;
  root_add : Cert → RootStore → result rstr RootStore;
  config_with_roots : RootStore → TlsConfig;
  server_name_try_from : rstr → option ServerName;
  tls_connection : TlsConfig → ServerName → result rstr TlsConn
}.

(** [str::rsplit_once] with an ASCII character, and the first piece of [str::split]. *)
Fixpoint rsplit_once (c : Byte.byte) (s : rstr) : option (rstr * rstr) :=
  match s with
  | [] => None
  | b :: s =>
      match rsplit_once c s with
      | Some (before, after) => Some (b :: before, after)
      | None => if bool_decide (b = c) then Some ([], s) else None
      end
  end.
Fixpoint split_next (c : Byte.byte) (s : rstr) : rstr :=
  match s with
  | [] => []
  | b :: s => if bool_decide (b = c) then [] else b :: split_next c s
  end.

Definition host_of_addr (addr : rstr) : rstr :=
  if starts_with addr ($"[")
  then trim_start_byte Byte.x5b (split_next Byte.x5d addr)
  else match rsplit_once Byte.x3a addr with Some (host, _) => host | None => addr end.

Section Dial.
Context {W : Type} `{!Sockets W, !TlsClient W, Blake3}.

Record ClientOptions : Type := mkClientOptions {
  dial_timeout : N;
  request_timeout : N;
  client_tag : rstr;
  tls_config : option TlsConfig
}.

Definition client_options_default : ClientOptions :=
  mkClientOptions DEFAULT_DIAL_TIMEOUT DEFAULT_REQUEST_TIMEOUT [] None.

Definition ClientOption : Type := ClientOptions → ClientOptions.
Definition with_dial_timeout (t : N) : ClientOption := λ o,
  mkClientOptions t (request_timeout o) (client_tag o) (tls_config o).
Definition with_request_timeout (t : N) : ClientOption := λ o,
  mkClientOptions (dial_timeout o) t (client_tag o) (tls_config o).
Definition with_client_tag (tag : rstr) : ClientOption := λ o,
  mkClientOptions (dial_timeout o) (request_timeout o) tag (tls_config o).

Definition apply_options (opts : list ClientOption) : ClientOptions :=
  fold_left (λ o opt, opt o) opts client_options_default.

Inductive Connection : Type :=
| Plain (stream : Stream)
| TlsStream (conn : TlsConn) (stream : Stream).

Definition tcp_of (c : Connection) : Stream :=
  match c with Plain stream | TlsStream _ stream => stream end.

(** The loop of [connect_tcp], with the error of the last attempt. *)
Fixpoint connect_any (addrs : list SocketAddr) (timeout : N) (last : option io_kind) (w : W)
    : result ClientError Stream * W :=
  match addrs with
  | [] => (Err (ClientIo (default OtherIo last)), w)
  | addr :: addrs =>
      match connect_timeout addr timeout w with
      | (Ok stream, w) => (Ok stream, set_nodelay stream w)
      | (Err e, w) => connect_any addrs timeout (Some e) w
      end
  end.

Definition connect_tcp (addr : rstr) (timeout : N) (w : W) : result ClientError Stream * W :=
  match to_socket_addrs addr w with
  | (Err e, w) => (Err (ClientIo e), w)
  | (Ok addrs, w) => connect_any addrs timeout None w
  end.

Fixpoint add_roots (certs : list Cert) (roots : RootStore) : result ClientError RootStore :=
  match certs with
  | [] => Ok roots
  | cert :: certs =>
      match root_add cert roots with
      | Ok roots => add_roots certs roots
      | Err e => Err (Tls e)
      end
  end.

Definition default_tls_config (w : W) : result ClientError TlsConfig * W :=
  let (certs, w) := native_certs w in
  (match add_roots certs root_empty with
   | Ok roots => Ok (config_with_roots roots)
   | Err e => Err e
   end, w).

Definition server_name_from_addr (addr : rstr) : result ClientError ServerName :=
  let host := host_of_addr addr in
  match server_name_try_from host with
  | Some name => Ok name
  | None => Err (Tls ($"invalid server name: " ++ host))
  end.

Context (peer_of : Connection → bytes → W → bytes * W).

(** The end of both: the hello of a new client; when it fails the connection is shut down and
    dropped. *)
Definition open_client (options : ClientOptions) (conn : Connection) (w : W)
    : result ClientError (Client * Connection) * W :=
  match dial (peer_of conn) (request_timeout options) (client_tag options) (instant_now w) w with
  | (Err e, w) => (Err e, drop_stream (tcp_of conn) (shutdown (tcp_of conn) w))
  | (Ok cl, w) => (Ok (cl, conn), w)
  end.

Definition dial_addr (addr : rstr) (opts : list ClientOption) (w : W)
    : result ClientError (Client * Connection) * W :=
  let options := apply_options opts in
  match connect_tcp addr (dial_timeout options) w with
  | (Err e, w) => (Err e, w)
  | (Ok stream, w) => open_client options (Plain stream) w
  end.

Definition dial_tls (addr : rstr) (opts : list ClientOption) (w : W)
    : result ClientError (Client * Connection) * W :=
  let options := apply_options opts in
  match connect_tcp addr (dial_timeout options) w with
  | (Err e, w) => (Err e, w)
  | (Ok stream, w) =>
      let (config, w) := match tls_config options with
                         | Some cfg => (Ok cfg, w)
                         | None => default_tls_config w
                         end in
      match config with
      | Err e => (Err e, drop_stream stream w)
      | Ok config =>
          match server_name_from_addr addr with
          | Err e => (Err e, drop_stream stream w)
          | Ok name =>
              match tls_connection config name with
              | Err e => (Err (Tls e), drop_stream stream w)
              | Ok conn => open_client options (TlsStream conn stream) w
              end
          end
      end
  end.

(** *** No connection is lost: a dial that fails leaves as many open as before *)

Context (open_streams : W → nat).

Record counts_streams : Prop := {
  cs_resolve addr w : open_streams (to_socket_addrs addr w).2 = open_streams w;
  cs_connect a t w : open_streams (connect_timeout a t w).2
                     = ((if is_ok (connect_timeout a t w).1 then 1 else 0) + open_streams w)%nat;
  cs_nodelay s w : open_streams (set_nodelay s w) = open_streams w;
  cs_shutdown s w : open_streams (shutdown s w) = open_streams w;
  cs_drop s w : open_streams (drop_stream s w) = pred (open_streams w);
  cs_certs w : open_streams (native_certs w).2 = open_streams w;
  cs_peer c bs w : open_streams (peer_of c bs w).2 = open_streams w
}.

Context (Hcs : counts_streams).

Definition opened {A} (r : result ClientError A) (before after : nat) : Prop :=
  after = ((if is_ok r then 1 else 0) + before)%nat.

Lemma connect_any_opens addrs t last w :
  opened (connect_any addrs t last w).1 (open_streams w) (open_streams (connect_any addrs t last w).2).
Proof.
  revert last w. induction addrs as [|a addrs IH]; intros last w; [done|]. cbn [connect_any].
  pose proof (cs_connect Hcs a t w) as Hc. destruct (connect_timeout a t w) as [[s|e] w1]; cbn in Hc.
  - unfold opened. cbn. by rewrite (cs_nodelay Hcs), Hc.
  - rewrite <- Hc. apply IH.
Qed.

Lemma connect_tcp_opens addr t w :
  opened (connect_tcp addr t w).1 (open_streams w) (open_streams (connect_tcp addr t w).2).
Proof.
  unfold connect_tcp. pose proof (cs_resolve Hcs addr w) as Hr.
  destruct (to_socket_addrs addr w) as [[addrs|e] w1]; cbn in Hr; [|done].
  rewrite <- Hr. apply connect_any_opens.
Qed.

Lemma dial_keeps_streams conn timeout tag now w :
  open_streams (dial (peer_of conn) timeout tag now w).2 = open_streams w.
Proof.
  unfold dial, send_hello, send_request_with_flags. cbn [cl_closed client_new rc_cancelled].
  destruct (compute_deadline _ _ _); [|done].
  pose proof (λ bs, cs_peer Hcs conn bs w) as Hp. cbn [with_timeout with_deadline rc_cancelled].
  destruct (peer_of conn _ w) as [received w1] eqn:Ep.
  specialize (Hp (client_write_frame MSG_HELLO 0 (wrap64 (cl_req_id (client_new timeout tag) + 1))
                    (hello_payload tag))).
  rewrite Ep in Hp. cbn [snd] in Hp.
  destruct (read_pending _) as [[[header body]|e] pending]; [|done].
  by destruct (fh_msg_type header =? MSG_ERROR), (negb (fh_msg_type header =? MSG_HELLO)).
Qed.

(** The streams are counted from before the connection: the one that was opened for this
    client is kept exactly when the dial succeeds. *)
Lemma open_client_opens options conn w before :
  open_streams w = S before →
  opened (open_client options conn w).1 before (open_streams (open_client options conn w).2).
Proof.
  intros Hw. unfold open_client, opened.
  pose proof (dial_keeps_streams conn (request_timeout options) (client_tag options) (instant_now w) w)
    as Hd.
  destruct (dial _ _ _ _ _) as [[cl|e] w1]; cbn in Hd |- *; [by rewrite Hd|].
  by rewrite (cs_drop Hcs), (cs_shutdown Hcs), Hd, Hw.
Qed.

Lemma dial_addr_opens addr opts w :
  opened (dial_addr addr opts w).1 (open_streams w) (open_streams (dial_addr addr opts w).2).
Proof.
  unfold dial_addr.
  pose proof (connect_tcp_opens addr (dial_timeout (apply_options opts)) w) as Hc.
  destruct (connect_tcp _ _ _) as [[s|e] w1]; [|done]. by apply open_client_opens.
Qed.

Lemma dial_tls_opens addr opts w :
  opened (dial_tls addr opts w).1 (open_streams w) (open_streams (dial_tls addr opts w).2).
Proof.
  unfold dial_tls.
  pose proof (connect_tcp_opens addr (dial_timeout (apply_options opts)) w) as Hc.
  destruct (connect_tcp _ _ _) as [[s|e] w1]; [|done]. unfold opened in Hc. cbn in Hc.
  assert (Hd : ∀ w2, open_streams w2 = open_streams w1 →
                     open_streams (drop_stream s w2) = open_streams w)
    by (intros w2 Hw2; by rewrite (cs_drop Hcs), Hw2, Hc).
  assert (Hk : (match tls_config (apply_options opts) with
                | Some cfg => (Ok cfg, w1) | None => default_tls_config w1 end).2 = w1
               ∨ open_streams (match tls_config (apply_options opts) with
                | Some cfg => (Ok cfg, w1) | None => default_tls_config w1 end).2 = open_streams w1).
  { destruct (tls_config _); [by left|right]. unfold default_tls_config.
    pose proof (cs_certs Hcs w1) as Hn. by destruct (native_certs w1). }
  destruct (match tls_config (apply_options opts) with
            | Some cfg => (Ok cfg, w1) | None => default_tls_config w1 end) as [[config|e] w2];
    cbn [snd] in Hk; assert (open_streams w2 = open_streams w1) as Hw2 by (by destruct Hk as [->|]);
    [|by apply Hd].
  destruct (server_name_from_addr addr) as [name|]; [|by apply Hd].
  destruct (tls_connection config name) as [conn|]; [|by apply Hd].
  apply open_client_opens. by rewrite Hw2, Hc.
Qed.
End Dial.

(** *** The host that TLS verifies *)

Lemma rsplit_once_none c s : c ∉ s → rsplit_once c s = None.
Proof.
  induction s as [|b s IH]; [done|]. intros Hn. apply not_elem_of_cons in Hn as [Hb Hs]. cbn.
  by rewrite IH, bool_decide_eq_false_2.
Qed.
Lemma rsplit_once_last c before after :
  c ∉ after → rsplit_once c (before ++ c :: after) = Some (before, after).
Proof.
  intros Ha. induction before as [|b before IH]; cbn.
  - by rewrite rsplit_once_none, bool_decide_eq_true_2.
  - by rewrite IH.
Qed.
Lemma split_next_first c before after : c ∉ before → split_next c (before ++ c :: after) = before.
Proof.
  induction before as [|b before IH]; cbn; [by rewrite bool_decide_eq_true_2|].
  intros Hn. apply not_elem_of_cons in Hn as [Hb Hs]. rewrite bool_decide_eq_false_2 by congruence.
  by rewrite IH.
Qed.

Lemma starts_with_bracket s :
  s ≠ [] → starts_with s ($"[") = bool_decide (head s = Some Byte.x5b).
Proof.
  destruct s as [|b s]; [done|]. intros _.
  change (starts_with (b :: s) ($"[")) with (bool_decide (Byte.x5b = b) && starts_with s []).
  assert (starts_with s [] = true) as -> by by destruct s.
  rewrite andb_true_r. apply bool_decide_ext. cbn. split; congruence.
Qed.

(** A name with its port, and an IPv6 address in brackets with its port. *)
Lemma host_of_name host port :
  starts_with host ($"[") = false → host ≠ [] → Byte.x3a ∉ port →
  host_of_addr (host ++ $":" ++ port) = host.
Proof.
  intros Hs Hne Hp. unfold host_of_addr.
  rewrite starts_with_bracket in Hs by done. rewrite starts_with_bracket by by destruct host.
  destruct host as [|b host]; [done|]. cbn [head app] in Hs |- *. rewrite Hs.
  pose proof (rsplit_once_last Byte.x3a (b :: host) port Hp) as Hr.
  change (b :: host ++ $":" ++ port) with ((b :: host) ++ Byte.x3a :: port).
  by rewrite Hr.
Qed.
Lemma host_of_bracketed ip rest :
  Byte.x5d ∉ ip → starts_with ip ($"[") = false →
  host_of_addr ($"[" ++ ip ++ $"]" ++ rest) = ip.
Proof.
  intros Hn Hs. unfold host_of_addr. rewrite starts_with_app. cbn -[Byte.eqb].
  rewrite (split_next_first Byte.x5d ip rest) by done.
  destruct ip as [|b ip]; [done|]. rewrite starts_with_bracket in Hs by done. cbn in Hs.
  apply bool_decide_eq_false in Hs. rewrite (bool_decide_eq_false_2 (Byte.x5b = Byte.x5d)) by done.
  cbn. rewrite bool_decide_eq_true_2 by done. by rewrite bool_decide_eq_false_2 by congruence.
Qed.

Example host_examples :
  map host_of_addr [$"cxdb.example:9009"; $"[::1]:9009"; $"cxdb.example"; $"::1"; $"["]
  = [$"cxdb.example"; $"::1"; $"cxdb.example"; $":"; []].
Proof. reflexivity. Qed.

(** A world that counts the open streams: of the two addresses of a name the first refuses. *)
Module DialSample.
#[local] Instance sockets : Sockets nat := {|
  SocketAddr := bool; Stream := unit; instant_now _ := 7;
  to_socket_addrs addr w :=
    (if bool_decide (addr = $"db.example:9009") then Ok [false; true] else Err OtherIo, w);
  connect_timeout a _ w := if a then (Ok tt, S w) else (Err ConnectionRefused, w);
  set_nodelay _ w := w; shutdown _ w := w; drop_stream _ w := pred w
|}.
#[local] Instance tls : TlsClient nat := {|
  Cert := unit; RootStore := unit; TlsConfig := unit; ServerName := rstr; TlsConn := unit;
  native_certs w := ([tt], w); root_empty := tt; root_add _ _ := Ok tt;
  config_with_roots _ := tt;
  server_name_try_from host := if bool_decide (host = []) then None else Some host;
  tls_connection _ _ := Ok tt
|}.

(** A server that accepts the hello, and one that answers with an error. *)
Definition accepts (_ : Connection) (bs : bytes) (w : nat) : bytes * nat :=
  (write_frame MSG_HELLO 0 1 (write_u64 42), w).
Definition refuses (_ : Connection) (bs : bytes) (w : nat) : bytes * nat :=
  (write_frame MSG_ERROR 0 1 (write_u32 401 ++ write_u32 0), w).

Lemma counted peer (Hp : ∀ c bs w, (peer c bs w).2 = w) : counts_streams peer (λ w, w).
Proof. split; try done. by intros []. Qed.

Example dial_second_address :
  (let '(r, w) := dial_addr accepts ($"db.example:9009") [with_client_tag ($"t")] 0%nat in
   (match r with Ok (cl, _) => cl_session_id cl | Err _ => 0 end, w)) = (42, 1%nat).
Proof. vm_compute. reflexivity. Qed.
Example dial_rejected :
  dial_tls refuses ($"db.example:9009") [] 3%nat = (Err (Server 401 []), 3%nat).
Proof. vm_compute. reflexivity. Qed.
Example dial_no_port : dial_addr accepts ($"db.example") [] 3%nat = (Err (ClientIo OtherIo), 3%nat).
Proof. vm_compute. reflexivity. Qed.
Example dial_rejected_counted :
  opened (dial_tls refuses ($"db.example:9009") [] 3%nat).1 3
    (dial_tls refuses ($"db.example:9009") [] 3%nat).2.
Proof. apply (dial_tls_opens refuses (λ w, w)). by apply counted. Qed.
End DialSample.
