(* ===== verification/HttpPayload.v ===== *)
(** * HttpPayload: JSON bodies as msgpack payloads

    [server/src/http/mod.rs]: the readers of JSON request bodies, and
    [encode_http_payload], which writes the payload of a turn that was posted as JSON:
    by the fields of its type version if the registry has it, following references to other
    types, and as it stands otherwise. It is the inverse of [Projection]. Decoding of base 64 and
    hex, the text of JSON and the writer of [rmpv] are parameters.

    The recursion through references has fuel, the size of the value; [HttpPayloadSpec] shows that
    this is enough. *)

From Stdlib Require Import Floats.SpecFloat.
From S2P Require Import Prelude Bytes External Json Registry Projection.

Open Scope N_scope.

(** [base64::STANDARD.decode] and [hex::decode]; an error carries its text. *)
Class ByteText : Type := {
  base64_decode : rstr → result rstr bytes;
  hex_decode : rstr → result rstr bytes
}.
Class ByteTextLaws `{Rendering} `{ByteText} : Prop :=
  base64_round : ∀ bs, base64_decode (base64_encode bs) = Ok bs.

(** [rmpv::encode::write_value] into a vector. What was written is read back when integers and
    lengths are in the ranges of the format. *)
Class MsgpackWrite : Type := write_value : Value → bytes.

Fixpoint msgpack_wf (v : Value) : Prop :=
  match v with
  | VNil | VBoolean _ => True
  | VInteger i => (-9223372036854775808 ≤ i < 18446744073709551616)%Z
  | VF32 bits => bits < U32
  | VF64 bits => bits < U64
  | VString s => len s < U32
  | VBinary bs => len bs < U32
  | VArray l => len l < U32 ∧ foldr (λ v P, msgpack_wf v ∧ P) True l
  | VMap l => len l < U32 ∧ foldr (λ '(k, v) P, msgpack_wf k ∧ msgpack_wf v ∧ P) True l
  | VExt ty data => (-128 ≤ ty < 128)%Z ∧ len data < U32
  end.

Class MsgpackWriteLaws `{Msgpack} `{MsgpackWrite} : Prop :=
  read_written : ∀ v, msgpack_wf v → msgpack_read (write_value v) = Ok v.

(** ** Numbers *)

(** [Number::as_u64], [Number::as_i64] and [Number::as_f64]. *)
Definition as_u64 (n : number) : option N :=
  match n with
  | PosInt u => Some u
  | _ => None
  end.
Definition as_i64 (n : number) : option Z :=
  match n with
  | PosInt u => if u <=? 9223372036854775807 then Some (Z.of_N u) else None
  | NegInt i => Some i
  | Float _ => None
  end.
Definition as_f64 (n : number) : option spec_float :=
  match n with
  | PosInt u => Some (binary_normalize 53 1024 (Z.of_N u) 0 false)
  | NegInt i => Some (binary_normalize 53 1024 i 0 false)
  | Float f => Some f
  end.

(** [str::parse::<i64>]. *)
Definition parse_i64 (s : rstr) : option Z :=
  match s with
  | Byte.x2d :: (_ :: _) as ds =>
      n ← parse_digits 9223372036854775809 0 (tail ds); Some (- Z.of_N n)%Z
  | _ => Z.of_N <$> parse_uint 9223372036854775808 s
  end.

(** ** Reading a body *)

Definition number_as_u64 (n : number) : option N :=
  match as_u64 n with
  | Some u => Some u
  | None => i ← as_i64 n; if (0 <=? i)%Z then Some (Z.to_N i) else None
  end.

Definition parse_json_u64 (value : json) (field_name : rstr) : result StoreError N :=
  let invalid := InvalidInput ($"invalid " ++ field_name) in
  match value with
  | JString s => ok_or invalid (parse_u64 s)
  | JNumber n => ok_or invalid (number_as_u64 n)
  | _ => Err invalid
  end.

Definition missing_field (key : rstr) : StoreError :=
  InvalidInput ($"missing required field: " ++ key).

Definition get_required_string (body : json) (key : rstr) : result StoreError rstr :=
  ok_or (missing_field key) (value ← json_get body key; as_str value).

Definition get_required_u32 (body : json) (key : rstr) : result StoreError N :=
  value ← ok_or (missing_field key) (json_get body key);
  parsed ← parse_json_u64 value key;
  if 4294967295 <? parsed then Err (InvalidInput (key ++ $" out of range"))
  else Ok (wrap32 parsed).

Definition get_optional_u64 (body : json) (key : rstr) : result StoreError (option N) :=
  match json_get body key with
  | Some value => Some <$> parse_json_u64 value key
  | None => Ok None
  end.

(** ** Values *)

Definition parse_json_u64_opt (value : json) : option N :=
  match value with
  | JString s => parse_u64 s
  | JNumber n => number_as_u64 n
  | _ => None
  end.

Definition parse_json_i64_opt (value : json) : option Z :=
  match value with
  | JString s => parse_i64 s
  | JNumber n =>
      match as_i64 n with
      | Some i => Some i
      | None => u ← as_u64 n; if u <=? 9223372036854775807 then Some (Z.of_N u) else None
      end
  | _ => None
  end.

Section Payload.
Context `{HashOrder} `{ByteText}.

Definition parse_byte (item : json) : result StoreError Byte.byte :=
  num ← ok_or (InvalidInput ($"invalid byte array value")) (parse_json_u64_opt item);
  if 255 <? num then Err (InvalidInput ($"byte out of range")) else Ok (byte_of_N num).

Definition parse_bytes_value (value : json) : result StoreError bytes :=
  match value with
  | JString s =>
      match base64_decode s with
      | Ok bs => Ok bs
      | Err _ =>
          match hex_decode s with
          | Ok bs => Ok bs
          | Err _ => Ok s
          end
      end
  | JArray arr => try_map parse_byte arr
  | JObject obj =>
      match obj_get ($"base64") obj with
      | Some (JString b64) =>
          map_err (λ e, InvalidInput ($"invalid base64 bytes: " ++ e)) (base64_decode b64)
      | _ =>
          match obj_get ($"hex") obj with
          | Some (JString h) =>
              map_err (λ e, InvalidInput ($"invalid hex bytes: " ++ e)) (hex_decode h)
          | _ => Err (InvalidInput ($"bytes object must contain base64 or hex"))
          end
      end
  | _ => Err (InvalidInput ($"invalid bytes value"))
  end.

(** The key of an entry: an integer if its text is one. *)
Definition key_value (key : rstr) : Value :=
  match parse_u64 key with
  | Some n => VInteger (Z.of_N n)
  | None => VString key
  end.

Fixpoint json_to_msgpack_value (value : json) : result StoreError Value :=
  match value with
  | JNull => Ok VNil
  | JBool v => Ok (VBoolean v)
  | JNumber n =>
      match as_i64 n with
      | Some v => Ok (VInteger v)
      | None =>
          match as_u64 n with
          | Some v => Ok (VInteger (Z.of_N v))
          | None =>
              match as_f64 n with
              | Some v => Ok (VF64 (bits_of_f64 v))
              | None => Err (InvalidInput ($"invalid numeric value"))
              end
          end
      end
  | JString s => Ok (VString s)
  | JArray arr => VArray <$> try_map id (map json_to_msgpack_value arr)
  | JObject obj =>
      VMap <$> try_map (λ '(key, r), v ← r; Ok (key_value key, v))
                 (sort_by (λ a b, str_le a.1 b.1)
                    (map (λ '(key, v), (key, json_to_msgpack_value v)) obj))
  end.

Definition uint_types : list rstr :=
  [$"u64"; $"uint64"; $"u32"; $"uint32"; $"u8"; $"uint8"].
Definition sint_types : list rstr := [$"int64"; $"int32"].

Definition expected (what : rstr) {A} (o : option A) : result StoreError A :=
  ok_or (InvalidInput ($"expected " ++ what)) o.

Definition encode_value_for_type (value : json) (field_type : rstr) : result StoreError Value :=
  if is_one_of field_type [$"string"] then VString <$> expected ($"string") (as_str value)
  else if is_one_of field_type [$"bool"] then VBoolean <$> expected ($"bool") (as_bool value)
  else if is_one_of field_type uint_types then
    (λ n, VInteger (Z.of_N n)) <$> expected ($"integer") (parse_json_u64_opt value)
  else if is_one_of field_type (sint_types ++ time_types) then
    VInteger <$> expected ($"integer") (parse_json_i64_opt value)
  else if is_one_of field_type bytes_types then VBinary <$> parse_bytes_value value
  else json_to_msgpack_value value.

(** ** Fields *)

Variable registry : Registry.

(** The number of an enum's label: the first entry of the map with the label. *)
Definition enum_number (enum_ref label : rstr) (name : rstr) : result StoreError N :=
  match get_enum registry enum_ref with
  | Some enum_map =>
      match find (λ kv : rstr * rstr, bool_decide (kv.2 = label)) (hash_iter enum_map) with
      | Some (num_str, _) =>
          ok_or (InvalidInput ($"invalid enum value for " ++ name)) (parse_u64 num_str)
      | None => Err (InvalidInput ($"unknown enum label for " ++ name))
      end
  | None => Err (InvalidInput ($"unknown enum label for " ++ name))
  end.

(** The bodies of [encode_field_value], [encode_ref_value] and
    [encode_object_with_descriptor], on what they call. *)
Section bodies.
Variable encode_ref : json → rstr → result StoreError Value.

Definition encode_item (items : option ItemsSpec) (item : json) : result StoreError Value :=
  match items with
  | Some (Simple item_type) => encode_value_for_type item item_type
  | Some (Ref type_ref) => encode_ref item type_ref
  | None => json_to_msgpack_value item
  end.

Definition encode_by_type (value : json) (field : FieldSpec) : result StoreError Value :=
  let name := fs_name field in
  let ty := fs_field_type field in
  if is_one_of ty [$"string"] then VString <$> expected ($"string for " ++ name) (as_str value)
  else if is_one_of ty [$"bool"] then
    VBoolean <$> expected ($"bool for " ++ name) (as_bool value)
  else if is_one_of ty uint_types then
    (λ n, VInteger (Z.of_N n)) <$> expected ($"integer for " ++ name) (parse_json_u64_opt value)
  else if is_one_of ty sint_types then
    VInteger <$> expected ($"integer for " ++ name) (parse_json_i64_opt value)
  else if is_one_of ty bytes_types then VBinary <$> parse_bytes_value value
  else if is_one_of ty [$"array"] then
    match value with
    | JArray items => VArray <$> try_map (encode_item (fs_items field)) items
    | _ => Err (InvalidInput ($"expected array for " ++ name))
    end
  else if is_one_of ty [$"ref"] then
    match fs_type_ref field with
    | Some type_ref => encode_ref value type_ref
    | None => json_to_msgpack_value value
    end
  else encode_value_for_type value ty.

Definition encode_field_body (value : json) (field : FieldSpec) : result StoreError Value :=
  match value, fs_enum_ref field with
  | JNull, _ => Ok VNil
  | _, Some enum_ref =>
      match parse_json_u64_opt value with
      | Some num => Ok (VInteger (Z.of_N num))
      | None =>
          match as_str value with
          | Some label =>
              (λ n, VInteger (Z.of_N n)) <$> enum_number enum_ref label (fs_name field)
          | None => encode_by_type value field
          end
      end
  | _, None => encode_by_type value field
  end.

(** The fields of a type in the order of their tags. *)
Definition tagged_fields (desc : TypeVersionSpec) : list (N * FieldSpec) :=
  sort_by (λ a b, a.1 <=? b.1) (hash_iter (tvs_fields desc)).

(** One field of the first loop: an entry, nothing, or an error. *)
Definition encode_known (obj : list (rstr * json)) (tf : N * FieldSpec)
    : result StoreError (option (Value * Value)) :=
  let '(tag, field) := tf in
  match obj_get (fs_name field) obj with
  | Some value => v ← encode_field_body value field; Ok (Some (VInteger (Z.of_N tag), v))
  | None => if fs_optional field then Ok None else Err (missing_field (fs_name field))
  end.

(** One entry of the second loop, over the keys that no field has. *)
Definition encode_other (fields : list (N * FieldSpec)) (kv : rstr * json)
    : result StoreError (option (Value * Value)) :=
  let '(key, value) := kv in
  if existsb (λ '(_, field), bool_decide (fs_name field = key)) fields then Ok None
  else v ← json_to_msgpack_value value; Ok (Some (key_value key, v)).

Definition encode_object_body (obj : list (rstr * json)) (desc : TypeVersionSpec)
    : result StoreError Value :=
  known ← try_map (encode_known obj) (tagged_fields desc);
  others ← try_map (encode_other (tagged_fields desc)) obj;
  Ok (VMap (omap id known ++ omap id others)).

Definition encode_ref_body (value : json) (type_ref : rstr) : result StoreError Value :=
  match value with
  | JObject obj =>
      desc ← ok_or (NotFound ($"type descriptor")) (get_latest_type_version registry type_ref);
      encode_object_body obj desc
  | _ => Err (InvalidInput ($"expected object for ref " ++ type_ref))
  end.
End bodies.

Fixpoint encode_ref_fuel (fuel : nat) (value : json) (type_ref : rstr) : result StoreError Value :=
  match fuel with
  | O => Err (InvalidInput [])
  | S fuel => encode_ref_body (encode_ref_fuel fuel) value type_ref
  end.

Definition encode_ref_value (value : json) (type_ref : rstr) : result StoreError Value :=
  encode_ref_fuel (json_size value) value type_ref.
Definition encode_field_value (value : json) (field : FieldSpec) : result StoreError Value :=
  encode_field_body (encode_ref_fuel (json_size value)) value field.
Definition encode_object_with_descriptor (obj : list (rstr * json)) (desc : TypeVersionSpec)
    : result StoreError Value :=
  encode_object_body (encode_ref_fuel (json_size (JObject obj))) obj desc.

Definition encode_http_payload `{MsgpackWrite} (payload_json : json) (type_id : rstr)
    (type_version : N) : result StoreError bytes :=
  match get_type_version registry type_id type_version, payload_json with
  | Some desc, JObject obj => write_value <$> encode_object_with_descriptor obj desc
  | _, _ => write_value <$> json_to_msgpack_value payload_json
  end.

End Payload.
