(* ===== verification/HttpPayloadSpec.v ===== *)
(** * HttpPayloadSpec: a JSON payload survives the way to msgpack and back

    [HttpPayload] writes a JSON object as msgpack by the fields of a type, and [Projection] renders
    msgpack as JSON by the same fields. For objects that have the types of the fields, in the
    form that the projection itself produces, the composition is the identity; the examples at
    the end show what is lost outside of that form. *)

From Stdlib Require Import Floats.SpecFloat.
From S2P Require Import Prelude Bytes External Json Registry RegistrySpec Projection ProjectionSpec HttpPayload.

Open Scope N_scope.

Lemma foldr_Forall {A} (P : A → Prop) l : foldr (λ a Q, P a ∧ Q) True l ↔ Forall P l.
Proof. induction l as [|a l IH]; cbn; [by split; constructor|]. by rewrite IH, Forall_cons. Qed.

(** ** Errors *)

(** Refusals of a body: invalid input, or a reference to a type that is not registered. *)
Definition refusal (e : StoreError) : Prop :=
  (∃ msg, e = InvalidInput msg) ∨ e = NotFound ($"type descriptor").

Lemma refusal_invalid msg : refusal (InvalidInput msg).
Proof. left. eauto. Qed.

Lemma refusal_ok_or {A} msg (o : option A) e : ok_or (InvalidInput msg) o = Err e → refusal e.
Proof. destruct o; cbn; [done|]. intros [= <-]. apply refusal_invalid. Qed.

(** The errors that a computation can give are refusals. *)
Definition refuses {A} (r : result StoreError A) : Prop := ∀ e, r = Err e → refusal e.

Lemma refuses_bind {A B} (r : result StoreError A) (k : A → result StoreError B) :
  refuses r → (∀ a, refuses (k a)) → refuses (r ≫= k).
Proof. intros Hr Hk e [He|(a & _ & He)]%bind_err; [by apply Hr|by apply (Hk a)]. Qed.
Lemma refuses_fmap {A B} (r : result StoreError A) (f : A → B) : refuses r → refuses (f <$> r).
Proof. intros Hr e He%fmap_err. by apply Hr. Qed.
Lemma refuses_map {A B} (f : A → result StoreError B) l :
  (∀ a, a ∈ l → refuses (f a)) → refuses (try_map f l).
Proof. intros Hf e (a & Ha & He)%try_map_err. by apply (Hf a). Qed.
Lemma refuses_ok_or {A} msg (o : option A) : refuses (ok_or (InvalidInput msg) o).
Proof. intros e. apply refusal_ok_or. Qed.
Lemma refuses_ok {A} (a : A) : refuses (Ok a).
Proof. done. Qed.
Lemma refuses_err {A} msg : refuses (Err (A:=A) (InvalidInput msg)).
Proof. intros e [= <-]. apply refusal_invalid. Qed.
Lemma refuses_map_err {A} (f : rstr → rstr) (r : result rstr A) :
  refuses (map_err (λ e, InvalidInput (f e)) r).
Proof. destruct r; cbn; [done|]. intros e' [= <-]. apply refusal_invalid. Qed.

Create HintDb refuse.
#[export] Hint Resolve refuses_ok refuses_err refuses_ok_or refuses_map_err refuses_fmap
  refuses_bind refuses_map : refuse.

Section spec.
Context `{HashOrderLaws} `{Rendering} `{ByteText} `{!ByteTextLaws} (registry : Registry).

(** The defaults of the gateway, except that times are numbers: a time that was rendered as a
    date is not read back. *)
Definition faithful : RenderOptions := mkRenderOptions Base64 U64Number EnumLabel UnixMs false.

Abbreviation encode_ref_value := (encode_ref_value registry).
Abbreviation encode_field_value := (encode_field_value registry).
Abbreviation render_field_value := (render_field_value faithful registry).
Abbreviation render_type_ref := (render_type_ref faithful registry).

(** ** The recursion through references ends *)

Lemma json_size_elem o k v : (k, v) ∈ o → (json_size v < json_size (JObject o))%nat.
Proof.
  intros Hin. cbn. pose proof (sum_list_with_elem (λ '(_, v), json_size v) _ _ Hin) as Hs.
  cbn in Hs. lia.
Qed.

Lemma encode_field_ext r1 r2 v f :
  (∀ w t, (json_size w ≤ json_size v)%nat → r1 w t = r2 w t) →
  encode_field_body registry r1 v f = encode_field_body registry r2 v f.
Proof.
  intros Hr. assert (Hty : encode_by_type r1 v f = encode_by_type r2 v f).
  { unfold encode_by_type. repeat (case_match; [done|]). case_match.
    - destruct v; try done. f_equal. apply try_map_ext. intros x Hx.
      pose proof (sum_list_with_elem json_size _ _ Hx). unfold encode_item.
      destruct (fs_items f) as [[ty|t]|]; [done|apply Hr; cbn; lia|done].
    - case_match; [|done]. destruct (fs_type_ref f); [by apply Hr|done]. }
  unfold encode_field_body. destruct v; try done; destruct (fs_enum_ref f); try done;
    by rewrite Hty.
Qed.

Lemma encode_object_ext r1 r2 o desc :
  (∀ w t, (json_size w < json_size (JObject o))%nat → r1 w t = r2 w t) →
  encode_object_body registry r1 o desc = encode_object_body registry r2 o desc.
Proof.
  intros Hr. unfold encode_object_body.
  rewrite (try_map_ext (encode_known registry r1 o) (encode_known registry r2 o)); [done|].
  intros [tag f] _. cbn. destruct (obj_get (fs_name f) o) as [v|] eqn:Hv; [|done].
  rewrite (encode_field_ext r1 r2); [done|]. intros w t Hw. apply Hr.
  apply obj_get_elem, json_size_elem in Hv. lia.
Qed.

Lemma encode_ref_fuel_enough f1 f2 v t :
  (json_size v ≤ f1)%nat → (json_size v ≤ f2)%nat →
  encode_ref_fuel registry f1 v t = encode_ref_fuel registry f2 v t.
Proof.
  revert f2 v t. induction f1 as [|f1 IH]; intros f2 v t Hf1 Hf2; [destruct v; cbn in Hf1; lia|].
  destruct f2 as [|f2]; [destruct v; cbn in Hf2; lia|]. cbn. destruct v as [| | | | |o]; try done.
  cbn [encode_ref_body]. destruct (get_latest_type_version registry t); [|done]. cbn.
  apply encode_object_ext. intros w u Hw. apply IH; lia.
Qed.

(** The equations of the source. *)
Lemma encode_field_value_eq v f :
  encode_field_value v f = encode_field_body registry encode_ref_value v f.
Proof. apply encode_field_ext. intros w t Hw. by apply encode_ref_fuel_enough. Qed.

Lemma encode_object_eq o desc :
  encode_object_with_descriptor registry o desc = encode_object_body registry encode_ref_value o desc.
Proof. apply encode_object_ext. intros w t Hw. apply encode_ref_fuel_enough; lia. Qed.

Lemma encode_ref_value_eq v t :
  encode_ref_value v t = encode_ref_body registry encode_ref_value v t.
Proof.
  unfold HttpPayload.encode_ref_value at 1. assert (1 ≤ json_size v)%nat by (destruct v; cbn; lia).
  destruct (json_size v) as [|n] eqn:Hn; [lia|]. cbn. destruct v as [| | | | |o]; try done.
  cbn [encode_ref_body]. destruct (get_latest_type_version registry t); [|done]. cbn.
  apply encode_object_ext. intros w u Hw. apply encode_ref_fuel_enough; lia.
Qed.

(** ** The errors of the encoder *)

Lemma refuses_plain j : refuses (json_to_msgpack_value j).
Proof.
  remember (json_size j) as n eqn:Hn. revert j Hn. induction n as [n IH] using lt_wf_ind.
  intros j ->. destruct j as [|b|num|s|l|o]; cbn [json_to_msgpack_value]; auto with refuse.
  - destruct (as_i64 num), (as_u64 num), (as_f64 num); auto with refuse.
  - apply refuses_fmap, refuses_map. intros r Hr%list_elem_of_fmap. destruct Hr as (x & -> & Hx).
    apply (IH (json_size x)); [|done]. pose proof (sum_list_with_elem json_size _ _ Hx). cbn. lia.
  - apply refuses_fmap, refuses_map. intros [k r]. rewrite elem_of_sort_by.
    intros ([k' x] & [= -> ->] & Hx)%list_elem_of_fmap. apply refuses_bind; [|auto with refuse].
    apply (IH (json_size x)); [by eapply json_size_elem|done].
Qed.

Lemma refuses_bytes j : refuses (parse_bytes_value j).
Proof.
  unfold parse_bytes_value.
  destruct j as [|b|num|s|l|o]; auto with refuse.
  - by destruct (base64_decode s), (hex_decode s).
  - apply refuses_map. intros x _. unfold parse_byte. apply refuses_bind; [auto with refuse|].
    intros n. destruct (255 <? n); auto with refuse.
  - destruct (obj_get ($"base64") o) as [[]|]; destruct (obj_get ($"hex") o) as [[]|];
      auto with refuse.
Qed.

Lemma refuses_for_type j ty : refuses (encode_value_for_type j ty).
Proof.
  unfold encode_value_for_type, expected.
  repeat case_match; auto using refuses_plain, refuses_bytes with refuse.
Qed.

Lemma refuses_object r o desc :
  (∀ j t, (json_size j < json_size (JObject o))%nat → refuses (r j t)) →
  refuses (encode_object_body registry r o desc).
Proof.
  intros Hr. unfold encode_object_body. apply refuses_bind.
  - apply refuses_map. intros [tag f] _. cbn.
    destruct (obj_get (fs_name f) o) as [j|] eqn:Hj; [|destruct (fs_optional f); [done|apply refuses_err]].
    apply refuses_bind; [|auto with refuse].
    apply obj_get_elem, json_size_elem in Hj.
    assert (Hty : refuses (encode_by_type r j f)).
    { unfold encode_by_type, expected. repeat (case_match; [auto using refuses_bytes with refuse|]).
      - destruct j as [| | | |l|]; auto with refuse. apply refuses_fmap, refuses_map. intros x Hx.
        pose proof (sum_list_with_elem json_size _ _ Hx) as Hs. unfold encode_item.
        destruct (fs_items f) as [[ty|t]|]; [apply refuses_for_type| |apply refuses_plain].
        apply Hr. cbn in *. lia.
      - apply refuses_plain.
      - apply refuses_for_type. }
    unfold encode_field_body. destruct j; auto with refuse; (destruct (fs_enum_ref f); [|done]);
      (destruct (parse_json_u64_opt _); [auto with refuse|]); cbn [as_str]; try done.
    apply refuses_fmap. unfold enum_number. repeat case_match; auto with refuse.
  - intros known. apply refuses_bind; [|auto with refuse]. apply refuses_map. intros [k j] _. cbn.
    destruct (existsb _ _); auto using refuses_plain with refuse.
Qed.

Lemma refuses_ref fuel j t : (json_size j ≤ fuel)%nat → refuses (encode_ref_fuel registry fuel j t).
Proof.
  revert j t. induction fuel as [|fuel IH]; intros j t Hj; [destruct j; cbn in Hj; lia|]. cbn.
  destruct j as [| | | | |o]; cbn [encode_ref_body]; auto with refuse.
  apply refuses_bind; [|intros desc; apply refuses_object; intros j u Hsize; apply IH; lia].
  destruct (get_latest_type_version registry t); cbn; [done|]. intros e [= <-]. by right.
Qed.

Lemma refuses_payload `{MsgpackWrite} j tid version :
  refuses (encode_http_payload registry j tid version).
Proof.
  unfold encode_http_payload.
  destruct (get_type_version registry tid version); [|apply refuses_fmap, refuses_plain].
  destruct j as [| | | | |o]; try (apply refuses_fmap, refuses_plain).
  apply refuses_fmap, refuses_object. intros j u Hj. apply refuses_ref. lia.
Qed.

(** ** Values without a type *)

Definition plain_number (n : number) : Prop :=
  match n with
  | PosInt u => u < U64
  | NegInt z => (-9223372036854775808 ≤ z < 0)%Z
  | Float f => number_from_f64 f = Some (Float f) ∧ f64_of_bits (bits_of_f64 f) = f
  end.

(** A key that looks like an integer is the canonical text of it. *)
Definition plain_key (k : rstr) : Prop :=
  utf8_valid k = true ∧ ∀ n, parse_u64 k = Some n → k = show_N n.

Fixpoint plain (j : json) : Prop :=
  match j with
  | JNull | JBool _ => True
  | JNumber n => plain_number n
  | JString s => utf8_valid s = true
  | JArray l => foldr (λ v P, plain v ∧ P) True l
  | JObject o => obj_sorted o ∧ foldr (λ '(k, v) P, (plain_key k ∧ plain v) ∧ P) True o
  end.

Lemma as_i64_or_u64 n : n < U64 → json_to_msgpack_value (JNumber (PosInt n)) = Ok (VInteger (Z.of_N n)).
Proof. intros Hn. cbn. by destruct (n <=? 9223372036854775807). Qed.

Lemma int_as_u64_of_N n : n < U64 → int_as_u64 (Z.of_N n) = Some n.
Proof.
  intros Hn. unfold int_as_u64.
  replace (0 <=? Z.of_N n)%Z with true by (symmetry; apply Z.leb_le; lia).
  replace (Z.of_N n <? 18446744073709551616)%Z with true by (symmetry; apply Z.ltb_lt; lia).
  cbn. by rewrite N2Z.id.
Qed.

Lemma map_key_value k : plain_key k → map_key (key_value k) = k.
Proof.
  intros [Hk Hn]. unfold key_value. destruct (parse_u64 k) as [n|] eqn:Hp; cbn.
  - rewrite int_as_u64_of_N by (by eapply parse_u64_lt). cbn. symmetry. by apply Hn.
  - unfold str_or_empty, utf8_as_str. by rewrite from_utf8_valid.
Qed.

Lemma plain_number_round n : plain_number n →
  ∃ v, json_to_msgpack_value (JNumber n) = Ok v ∧ render_value faithful v = JNumber n.
Proof.
  destruct n as [n|z|f]; intros Hn.
  - exists (VInteger (Z.of_N n)). split; [by apply as_i64_or_u64|]. cbn.
    by rewrite int_as_u64_of_N.
  - exists (VInteger z). split; [done|]. cbn in *. unfold int_as_u64, int_as_i64.
    replace (0 <=? z)%Z with false by (symmetry; apply Z.leb_gt; lia).
    replace (-9223372036854775808 <=? z)%Z with true by (symmetry; apply Z.leb_le; lia).
    replace (z <? 9223372036854775808)%Z with true by (symmetry; apply Z.ltb_lt; lia).
    cbn. unfold number_from_i64. by replace (z <? 0)%Z with true by (symmetry; apply Z.ltb_lt; lia).
  - exists (VF64 (bits_of_f64 f)). split; [done|]. destruct Hn as [Hf Hb]. cbn.
    unfold render_float. by rewrite Hb, Hf.
Qed.

Lemma obj_le_sorted {V} (o : list (rstr * V)) :
  obj_sorted o → StronglySorted (λ a b, str_le a.1 b.1 = true) o.
Proof.
  induction 1 as [|a o Ho IH Ha]; constructor; [done|].
  eapply Forall_impl; [exact Ha|]. intros b. apply str_lt_le.
Qed.

Lemma sorted_map {V W} (f : V → W) (o : list (rstr * V)) :
  obj_sorted o → obj_sorted (map (λ '(k, v), (k, f v)) o).
Proof.
  induction 1 as [|[k v] o Ho IH Ha]; cbn; constructor; [done|].
  rewrite Forall_map. eapply Forall_impl; [exact Ha|]. by intros [k' v'].
Qed.

Lemma map_Forall2 {A B C} (R : A → B → Prop) (f : A → C) (g : B → C) l k :
  Forall2 R l k → (∀ a b, R a b → g b = f a) → map g k = map f l.
Proof. induction 1 as [|a b l k Hab Hl IH]; intros HR; [done|]. cbn. by rewrite (HR a b), IH. Qed.

(** Untyped JSON is rendered as it was. *)
Lemma plain_round j : plain j →
  ∃ v, json_to_msgpack_value j = Ok v ∧ render_value faithful v = j.
Proof.
  remember (json_size j) as n eqn:Hn. revert j Hn.
  induction n as [n IH] using lt_wf_ind. intros j -> Hj. destruct j as [|b|num|s|l|o].
  - by exists VNil.
  - by exists (VBoolean b).
  - by apply plain_number_round.
  - exists (VString s). split; [done|]. cbn. unfold str_or_empty, utf8_as_str.
    by rewrite from_utf8_valid.
  - cbn [plain] in Hj. apply foldr_Forall in Hj. rewrite Forall_forall in Hj.
    destruct (try_map_build (λ j v, render_value faithful v = j) json_to_msgpack_value l)
      as (vs & Hvs & HF).
    { intros x Hx. apply (IH (json_size x)); [|done|by apply Hj].
      pose proof (sum_list_with_elem json_size _ _ Hx). cbn. lia. }
    exists (VArray vs). cbn. rewrite try_map_map.
    change (try_map _ l) with (try_map json_to_msgpack_value l). rewrite Hvs. split; [done|].
    cbn. f_equal. rewrite <- (map_id l). by apply (map_Forall2 _ _ _ _ _ HF).
  - destruct Hj as [Hs Hf]. rewrite (foldr_ext _ (λ kv P, (plain_key kv.1 ∧ plain kv.2) ∧ P) True True o o)
      in Hf by (by try intros [? ?] ?). apply foldr_Forall in Hf. rewrite Forall_forall in Hf.
    cbn [json_to_msgpack_value]. rewrite sort_by_id by (by apply obj_le_sorted, sorted_map).
    rewrite try_map_map.
    destruct (try_map_build (λ (kv : rstr * json) (e : Value * Value),
                (map_key e.1, render_value faithful e.2) = kv)
      (λ a : rstr * json, let '(key, r) := let '(key, v) := a in (key, json_to_msgpack_value v) in
             v ← r; Ok (key_value key, v)) o) as (vs & Hvs & HF).
    { intros [k x] Hx. destruct (Hf _ Hx) as [Hk Hpx]. cbn [fst snd] in *.
      destruct (IH (json_size x)) with (j := x) as (v & Hv & Hr); [by eapply json_size_elem|done|done|].
      exists (key_value k, v). cbn. rewrite Hv. cbn. by rewrite map_key_value, Hr. }
    exists (VMap vs). rewrite Hvs. split; [done|]. cbn. f_equal.
    rewrite <- (obj_of_id o Hs) at 1. f_equal. rewrite <- (map_id o).
    apply (map_Forall2 _ _ _ _ _ HF). by intros a [k v] <-.
Qed.

(** ** Typed values *)

Definition json_i64 (z : Z) : json := JNumber (number_from_i64 z).

Definition known_types : list rstr :=
  [$"string"; $"bool"; $"u64"; $"uint64"; $"i64"; $"u32"; $"uint32"; $"u8"; $"uint8"; $"int64";
   $"int32"; $"unix_ms"; $"time_ms"; $"timestamp_ms"; $"bytes"; $"typed_blob"; $"array"].

(** The values of a type that is not a reference, as the projection renders them. An unsigned
    integer narrower than 64 bits, and an [int64], must be at most 2^63 - 1 and not negative. *)
Definition scalar (ty : rstr) (type_ref : option rstr) (j : json) : Prop :=
  if is_one_of ty known_types then
    if is_one_of ty [$"string"] then ∃ s, j = JString s ∧ utf8_valid s = true
    else if is_one_of ty [$"bool"] then ∃ b, j = JBool b
    else if is_one_of ty [$"u64"; $"uint64"; $"i64"] then ∃ n, j = JNumber (PosInt n) ∧ n < U64
    else if is_one_of ty [$"u32"; $"uint32"; $"u8"; $"uint8"; $"int64"] then
      ∃ n, j = JNumber (PosInt n) ∧ n ≤ 9223372036854775807
    else if is_one_of ty ($"int32" :: time_types) then
      ∃ z, j = json_i64 z ∧ (-9223372036854775808 ≤ z < 9223372036854775808)%Z
    else if is_one_of ty bytes_types then ∃ bs, j = JString (base64_encode bs)
    else ∃ l, j = JArray l ∧ plain j
  else plain j ∧ (type_ref = None ∨ is_one_of ty ref_types = false).

Lemma is_one_of_elem s l : is_one_of s l = true ↔ s ∈ l.
Proof.
  unfold is_one_of. rewrite existsb_exists. split.
  - intros (x & Hx & He%bool_decide_eq_true). subst. by apply list_elem_of_In.
  - intros Hs. exists s. split; [by apply list_elem_of_In|by apply bool_decide_eq_true].
Qed.

Lemma is_one_of_sub s l k :
  forallb (λ t, is_one_of t k) l = true → is_one_of s k = false → is_one_of s l = false.
Proof.
  intros Hlk Hs. apply not_true_iff_false. intros Hl%is_one_of_elem.
  apply not_true_iff_false in Hs. apply Hs. rewrite forallb_forall in Hlk.
  by apply Hlk, list_elem_of_In.
Qed.

Lemma number_as_u64_PosInt n : number_as_u64 (PosInt n) = Some n.
Proof. done. Qed.

Lemma parse_json_i64 z : (-9223372036854775808 ≤ z < 9223372036854775808)%Z →
  parse_json_i64_opt (json_i64 z) = Some z ∧ value_to_i64 (VInteger z) = Some z.
Proof.
  intros Hz. split.
  - unfold json_i64, number_from_i64. destruct (Z.ltb_spec z 0); [done|]. cbn.
    replace (Z.to_N z <=? 9223372036854775807) with true by (symmetry; apply N.leb_le; lia).
    f_equal. lia.
  - cbn. unfold int_as_i64.
    replace (-9223372036854775808 <=? z)%Z with true by (symmetry; apply Z.leb_le; lia).
    by replace (z <? 9223372036854775808)%Z with true by (symmetry; apply Z.ltb_lt; lia).
Qed.

Lemma json_i64_of_N n : json_i64 (Z.of_N n) = JNumber (PosInt n).
Proof.
  unfold json_i64, number_from_i64. destruct (Z.ltb_spec (Z.of_N n) 0); [lia|]. by rewrite N2Z.id.
Qed.

Lemma value_to_u64_of_N n : n < U64 → value_to_u64 (VInteger (Z.of_N n)) = Some n.
Proof. intros Hn. cbn. rewrite u64_or_i64_eq. by apply int_as_u64_of_N. Qed.

(** Encoding and rendering of scalar values, by the name of the type. *)
Definition survives (ty : rstr) (j : json) (v : Value) : Prop :=
  encode_value_for_type j ty = Ok v ∧
  (ty ≠ $"array" → ∀ r f, fs_field_type f = ty → (ty = $"ref" → fs_type_ref f = None) →
     encode_by_type r j f = Ok v) ∧
  (∀ r q f, fs_field_type f = ty → (ty = $"array" → fs_items f = None) →
     render_by_type faithful r q v f = j).

Lemma survives_plain ty j :
  is_one_of ty known_types = false → plain j → ∃ v, survives ty j v.
Proof.
  intros Hty Hj. destruct (plain_round j Hj) as (v & Hv & Hr). exists v.
  assert (Hno : ∀ l, forallb (λ t, is_one_of t known_types) l = true → is_one_of ty l = false).
  { intros l Hl. by eapply is_one_of_sub. }
  assert (He : encode_value_for_type j ty = Ok v).
  { unfold encode_value_for_type. by rewrite !Hno by (by vm_compute). }
  split; [done|split].
  - intros _ r f Hf Href. unfold encode_by_type. rewrite Hf, !Hno by (by vm_compute).
    destruct (is_one_of ty [$"ref"]) eqn:Hr'; [|done]. apply is_one_of_elem, list_elem_of_singleton in Hr'.
    by rewrite Href.
  - intros r q f Hf _. unfold render_by_type. by rewrite Hf, !Hno by (by vm_compute).
Qed.

(** Decides the comparisons of type names. *)
Ltac decide_types :=
  repeat match goal with
  | |- context [is_one_of ?s ?l] =>
      let b := eval vm_compute in (is_one_of s l) in
      replace (is_one_of s l) with b by (vm_compute; reflexivity)
  end; cbv iota.

Lemma survives_known ty tr j :
  is_one_of ty known_types = true → scalar ty tr j → ∃ v, survives ty j v.
Proof.
  intros Hk. unfold scalar. rewrite Hk. apply is_one_of_elem in Hk. unfold known_types in Hk.
  set_unfold in Hk.
  assert (Hstr : ∀ s, utf8_valid s = true → str_or_empty s = s).
  { intros s Hs. unfold str_or_empty, utf8_as_str. by rewrite from_utf8_valid. }
  destruct_or! Hk; subst ty; cbn -[plain]; intros Hj.
  17: { destruct Hj as (l & -> & Hl). destruct (plain_round _ Hl) as (v & Hv & Hr).
    exists v. split; [done|]. split; [done|]. intros r q f Hf Hi. unfold render_by_type.
    rewrite Hf, Hi by done. cbn. cbn in Hv. destruct (try_map id _); [|done].
    cbn in Hv. simplify_eq. exact Hr. }
  all: destruct Hj as (x & -> & Hx) || destruct Hj as (x & ->).
  1: exists (VString x).
  2: exists (VBoolean x).
  3-10: exists (VInteger (Z.of_N x)).
  11-14: exists (VInteger x).
  15-16: exists (VBinary x).
  all: split; [|split; [intros _ r f Hf _; unfold encode_by_type|
                        intros r q f Hf _; unfold render_by_type]; rewrite Hf].
  all: unfold encode_value_for_type, render_int, render_time, render_u64; decide_types.
  all: try (cbn; rewrite ?base64_round, ?Hstr; done).
  all: rewrite <- ?json_i64_of_N; rewrite ?value_to_u64_of_N by lia.
  all: try (rewrite json_i64_of_N; (done || (apply as_i64_or_u64; lia))).
  all: try destruct (parse_json_i64 _ Hx) as [Hp Hv].
  all: try destruct (parse_json_i64 (Z.of_N x) ltac:(lia)) as [Hp Hv].
  all: rewrite ?Hp, ?Hv; done.
Qed.

(** ** Objects of a type *)

(** A type version whose fields have names of their own. *)
Definition desc_ok (desc : TypeVersionSpec) : Prop :=
  (∀ tag f, tvs_fields desc !! tag = Some f → tag < U64) ∧
  (∀ tag tag' f f', tvs_fields desc !! tag = Some f → tvs_fields desc !! tag' = Some f' →
     fs_name f = fs_name f' → tag = tag').

(** The values of a field in the form that the projection gives them. A label of an enum does not
    look like a number and stands for a number whose text is a key of the enum. *)
Inductive typed : FieldSpec → json → Prop :=
| typed_null f : typed f JNull
| typed_enum f e m n label :
    fs_enum_ref f = Some e → get_enum registry e = Some m →
    (∀ k v, m !! k = Some v → ∃ n, n < U64 ∧ k = show_N n) →
    m !! show_N n = Some label → parse_u64 label = None → typed f (JString label)
| typed_scalar f j :
    fs_enum_ref f = None → fs_field_type f ≠ $"array" →
    scalar (fs_field_type f) (fs_type_ref f) j → typed f j
| typed_array f l :
    fs_enum_ref f = None → fs_field_type f = $"array" → Forall (typed_item (fs_items f)) l →
    typed f (JArray l)
| typed_ref_field f t j :
    fs_enum_ref f = None → fs_field_type f = $"ref" → fs_type_ref f = Some t → typed_ref t j →
    typed f j
with typed_item : option ItemsSpec → json → Prop :=
| item_plain j : plain j → typed_item None j
| item_simple ty j : scalar ty None j → typed_item (Some (Simple ty)) j
| item_ref t j : typed_ref t j → typed_item (Some (Ref t)) j
with typed_ref : rstr → json → Prop :=
| typed_ref_intro t desc o :
    get_latest_type_version registry t = Some desc → typed_obj desc o → typed_ref t (JObject o)
with typed_obj : TypeVersionSpec → list (rstr * json) → Prop :=
| typed_obj_intro desc o :
    desc_ok desc → obj_sorted o →
    (∀ k v, (k, v) ∈ o → ∃ tag f, tvs_fields desc !! tag = Some f ∧ fs_name f = k ∧ typed f v) →
    (∀ tag f, tvs_fields desc !! tag = Some f → fs_optional f = false →
       is_Some (obj_get (fs_name f) o)) →
    typed_obj desc o.

(** A value is written to msgpack and rendered to the same value. *)
Definition field_round (f : FieldSpec) (j : json) : Prop :=
  ∃ v, encode_field_value j f = Ok v ∧ render_field_value v f = j.
Definition ref_round (t : rstr) (j : json) : Prop :=
  ∃ v, encode_ref_value j t = Ok v ∧ render_type_ref v t = j.

Lemma scalar_survives ty tr j : scalar ty tr j →
  (∃ v, survives ty j v) ∧ (is_one_of ty ref_types = true → tr = None).
Proof.
  intros Hs. destruct (is_one_of ty known_types) eqn:Hk.
  - split; [by eapply survives_known|]. intros Hr. apply is_one_of_elem in Hk, Hr.
    exfalso. unfold known_types, ref_types in *. set_unfold in Hk. set_unfold in Hr.
    naive_solver.
  - unfold scalar in Hs. rewrite Hk in Hs. destruct Hs as [Hj Htr].
    split; [by apply survives_plain|]. intros Hr. by destruct Htr as [|Htr]; [|rewrite Hr in Htr].
Qed.

Lemma field_body_untyped r q v f :
  fs_enum_ref f = None → (is_one_of (fs_field_type f) ref_types = true → fs_type_ref f = None) →
  field_body faithful registry r q v f = render_by_type faithful r q v f.
Proof.
  intros He Hr. unfold field_body, enum_label. rewrite He. cbn [mbind option_bind].
  destruct (fs_type_ref f) as [t|]; [|done].
  destruct (is_one_of (fs_field_type f) ref_types); [by specialize (Hr eq_refl)|done].
Qed.

Lemma encode_field_untyped r f j :
  fs_enum_ref f = None → j ≠ JNull → encode_field_body registry r j f = encode_by_type r j f.
Proof. intros He Hj. unfold encode_field_body. rewrite He. by destruct j. Qed.

Lemma null_round f : field_round f JNull.
Proof.
  exists VNil. split; [by rewrite encode_field_value_eq|]. rewrite render_field_value_eq.
  assert (Hb : render_by_type faithful render_field_value render_type_ref VNil f = JNull).
  { unfold render_by_type. by repeat case_match. }
  assert (Hr : ∀ t, render_type_ref VNil t = JNull).
  { intros t. rewrite render_type_ref_eq. unfold ref_body.
    by destruct (get_latest_type_version registry t). }
  assert (He : enum_label registry VNil f = None)
    by (unfold enum_label; by destruct (fs_enum_ref f)).
  unfold field_body. rewrite He. destruct (fs_type_ref f) as [t|]; [|exact Hb].
  destruct (is_one_of (fs_field_type f) ref_types); [apply Hr|exact Hb].
Qed.

Lemma scalar_round f j :
  fs_enum_ref f = None → fs_field_type f ≠ $"array" →
  scalar (fs_field_type f) (fs_type_ref f) j → field_round f j.
Proof.
  intros He Ha Hs. assert (j = JNull ∨ j ≠ JNull) as [->|Hj] by (destruct j; (by left) || by right); [apply null_round|].
  destruct (scalar_survives _ _ _ Hs) as [(v & _ & Hf & Hr) Href]. exists v.
  rewrite encode_field_value_eq, render_field_value_eq. split.
  - rewrite encode_field_untyped by done. apply Hf; [done..|]. intros Ht. apply Href.
    by rewrite Ht.
  - rewrite field_body_untyped by done. by apply Hr.
Qed.

Lemma enum_round f e m n label :
  fs_enum_ref f = Some e → get_enum registry e = Some m →
  (∀ k v, m !! k = Some v → ∃ n, n < U64 ∧ k = show_N n) →
  m !! show_N n = Some label → parse_u64 label = None → field_round f (JString label).
Proof.
  intros He Hm Hkeys Hn Hl.
  assert (Hfind : ∃ k, find (λ kv : rstr * rstr, bool_decide (kv.2 = label)) (hash_iter m)
                       = Some (k, label) ∧ m !! k = Some label).
  { destruct (find _ (hash_iter m)) as [[k v]|] eqn:Hfd.
    - apply find_some in Hfd as [Hin Hv%bool_decide_eq_true]. cbn in Hv. subst v.
      exists k. split; [done|]. by apply list_elem_of_In, elem_of_hash_iter in Hin.
    - exfalso. eapply find_none with (x := (show_N n, label)) in Hfd.
      + by apply bool_decide_eq_false in Hfd.
      + by apply list_elem_of_In, elem_of_hash_iter. }
  destruct Hfind as (k & Hfd & Hk). destruct (Hkeys _ _ Hk) as (u & Hu & ->).
  exists (VInteger (Z.of_N u)). rewrite encode_field_value_eq, render_field_value_eq. split.
  - unfold encode_field_body. rewrite He. cbn. rewrite Hl. cbn. unfold enum_number.
    rewrite Hm, Hfd. unfold parse_u64. by rewrite parse_uint_show.
  - unfold field_body, enum_label. rewrite He. cbn [mbind option_bind].
    rewrite value_to_u64_of_N by done. cbn [mbind option_bind]. rewrite Hm.
    cbn [mbind option_bind]. by rewrite Hk.
Qed.

(** *** Objects *)

Lemma insert_tags_is_Some l m k v tag :
  (k, v) ∈ l → key_to_tag k = Some tag → is_Some (foldl insert_tag m l !! tag).
Proof.
  intros Hin Hk. assert (Hkeep : ∀ l m, is_Some (m !! tag) → is_Some (foldl insert_tag m l !! tag)).
  { clear. induction l as [|[k v] l IH]; intros m Hm; [done|]. cbn. apply IH. unfold insert_tag.
    cbn. destruct (key_to_tag k) as [t|]; [|done]. apply lookup_insert_is_Some'. by right. }
  revert m. induction l as [|[k' v'] l IH]; intros m; [by apply elem_of_nil in Hin|].
  apply elem_of_cons in Hin as [[= -> ->]|Hin]; [|by apply IH].
  cbn. apply Hkeep. unfold insert_tag. cbn. rewrite Hk. apply lookup_insert_is_Some'. by left.
Qed.

Lemma elem_of_tagged_fields desc tag f :
  (tag, f) ∈ tagged_fields desc ↔ tvs_fields desc !! tag = Some f.
Proof. unfold tagged_fields. by rewrite elem_of_sort_by, elem_of_hash_iter. Qed.

Lemma Forall2_omap_id {A B} (R : A → option B → Prop) l k b :
  Forall2 R l k → b ∈ omap id k → ∃ a, a ∈ l ∧ R a (Some b).
Proof.
  induction 1 as [|a c l k Hac Hl IH]; intros Hb; [by apply elem_of_nil in Hb|].
  cbn in Hb. destruct c as [c|]; cbn in Hb.
  - apply elem_of_cons in Hb as [->|Hb]; [exists a; split; [by left|done]|].
    destruct (IH Hb) as (x & ? & ?). exists x. split; [by right|done].
  - destruct (IH Hb) as (x & ? & ?). exists x. split; [by right|done].
Qed.

Lemma Forall2_elem_l {A B} (R : A → B → Prop) l k a :
  Forall2 R l k → a ∈ l → ∃ b, b ∈ k ∧ R a b.
Proof.
  intros HF Hin. apply list_elem_of_lookup in Hin as [i Hi].
  destruct (Forall2_lookup_l _ _ _ _ _ HF Hi) as (b & Hb & HR).
  exists b. split; [by eapply list_elem_of_lookup_2|done].
Qed.

(** The entry of a field in the encoding of an object. *)
Definition known_entry (o : list (rstr * json)) (tf : N * FieldSpec) (e : option (Value * Value))
    : Prop :=
  match obj_get (fs_name tf.2) o with
  | Some j => ∃ v, e = Some (VInteger (Z.of_N tf.1), v) ∧ render_field_value v tf.2 = j
  | None => e = None
  end.

Lemma encode_object_entries desc o :
  (∀ f k j, (k, j) ∈ o → typed f j → field_round f j) → typed_obj desc o →
  ∃ known, encode_object_with_descriptor registry o desc = Ok (VMap (omap id known)) ∧
    Forall2 (known_entry o) (tagged_fields desc) known.
Proof.
  intros IH Ho. inversion_clear Ho as [? ? [Htags Hnames] Hs Hf Hreq].
  destruct (try_map_build (known_entry o) (encode_known registry encode_ref_value o)
              (tagged_fields desc)) as (known & Hknown & HF).
  { intros [tag f] Hin%elem_of_tagged_fields. unfold known_entry. cbn.
    destruct (obj_get (fs_name f) o) as [j|] eqn:Hj.
    - pose proof (obj_get_elem _ _ _ Hj) as Hin'.
      destruct (Hf _ _ Hin') as (tag' & f' & Hf' & Hname & Hty).
      assert (tag' = tag) as -> by (by eapply Hnames). assert (f' = f) as -> by congruence.
      destruct (IH f _ j Hin' Hty) as (v & Hv & Hr). rewrite encode_field_value_eq in Hv.
      rewrite Hv. cbn. eauto.
    - destruct (fs_optional f) eqn:Hopt; [by eexists|]. destruct (Hreq _ _ Hin Hopt). congruence. }
  destruct (try_map_build (λ _ e, e = None) (encode_other (tagged_fields desc)) o)
    as (others & Hothers & HF').
  { intros [k j] Hin. exists None. split; [|done]. cbn.
    destruct (Hf _ _ Hin) as (tag & f & Htag & Hname & _).
    replace (existsb _ _) with true; [done|]. symmetry. apply existsb_exists.
    exists (tag, f). split; [|by apply bool_decide_eq_true].
    by apply list_elem_of_In, elem_of_tagged_fields. }
  exists known. split; [|done]. rewrite encode_object_eq. unfold encode_object_body.
  rewrite Hknown. cbn. rewrite Hothers. cbn. f_equal. f_equal.
  replace (omap id others) with ([] : list (Value * Value)); [by rewrite app_nil_r|].
  clear -HF'. induction HF' as [|a b l k Hb Hl IH]; [done|]. by subst b.
Qed.

Lemma object_round desc o :
  (∀ f k j, (k, j) ∈ o → typed f j → field_round f j) → typed_obj desc o →
  ∃ entries, encode_object_with_descriptor registry o desc = Ok (VMap entries) ∧
    obj_of (known_fields render_field_value (tvs_fields desc) (foldl insert_tag ∅ entries)) = o.
Proof.
  intros IH Ho. destruct (encode_object_entries desc o IH Ho) as (known & Henc & HF).
  exists (omap id known). split; [done|]. inversion_clear Ho as [? ? [Htags Hnames] Hs Hf Hreq].
  set (m := foldl insert_tag ∅ (omap id known)).
  assert (Hm : ∀ tag f v, tvs_fields desc !! tag = Some f → m !! tag = Some v →
                 obj_get (fs_name f) o = Some (render_field_value v f)).
  { intros tag f v Htag Hv.
    destruct (normalize_entry (VMap (omap id known)) m tag v eq_refl Hv)
      as (entries & k & [= <-] & Hin & Hk).
    destruct (Forall2_omap_id _ _ _ _ HF Hin) as ([tag' f'] & Hin' & He).
    unfold known_entry in He. cbn in He. destruct (obj_get (fs_name f') o) as [j|] eqn:Hj; [|done].
    destruct He as (w & [= -> ->] & Hr). apply elem_of_tagged_fields in Hin'.
    cbn in Hk. rewrite u64_or_i64_eq, int_as_u64_of_N in Hk by (by eapply Htags).
    simplify_eq. done. }
  apply obj_sorted_ext; [apply obj_of_sorted|done|]. intros k.
  destruct (obj_get k o) as [j|] eqn:Hj.
  - destruct (Hf k j (obj_get_elem _ _ _ Hj)) as (tag & f & Htag & <- & _).
    destruct (Forall2_elem_l _ _ _ (tag, f) HF) as (e & He & Hent); [by apply elem_of_tagged_fields|].
    unfold known_entry in Hent. cbn in Hent. rewrite Hj in Hent. destruct Hent as (v & -> & Hr).
    destruct (insert_tags_is_Some (omap id known) ∅ (VInteger (Z.of_N tag)) v tag) as [w Hw].
    { by apply list_elem_of_omap; exists (Some (VInteger (Z.of_N tag), v)). }
    { cbn. rewrite u64_or_i64_eq. apply int_as_u64_of_N. by eapply Htags. }
    fold m in Hw. rewrite (known_fields_get _ _ _ tag f w Hnames Htag Hw).
    rewrite <- (Hm _ _ _ Htag Hw). done.
  - apply eq_None_not_Some. intros [j' Hj']. apply obj_of_Some, elem_of_known_fields in Hj'
      as (tag & f & v & Htag & Hv & -> & ->). by rewrite (Hm _ _ _ Htag Hv) in Hj.
Qed.

Lemma ref_round_object t j :
  (∀ f j', (json_size j' < json_size j)%nat → typed f j' → field_round f j') →
  typed_ref t j → ref_round t j.
Proof.
  intros IH Ht. destruct Ht as [t desc o Hd Ho].
  destruct (object_round desc o) as (entries & He & Hr); [|done|].
  { intros f k j' Hin. apply IH. by eapply json_size_elem. }
  exists (VMap entries). rewrite encode_ref_value_eq, render_type_ref_eq. split.
  - cbn [encode_ref_body]. rewrite Hd. cbn. rewrite <- encode_object_eq. exact He.
  - unfold ref_body. rewrite Hd. cbn [normalize_tags]. cbn -[known_fields]. by rewrite Hr.
Qed.

(** *** All values *)

Lemma typed_round n :
  ∀ f j, (json_size j ≤ n)%nat → typed f j → field_round f j.
Proof.
  induction n as [|n IH]; intros f j Hn Hj; [destruct j; cbn in Hn; lia|].
  assert (Href : ∀ t j, (json_size j ≤ S n)%nat → typed_ref t j → ref_round t j).
  { intros t j' Hj'. apply ref_round_object. intros g i Hi. apply IH. lia. }
  destruct Hj as [f|f e m k label He Hm Hkeys Hk Hl|f j He Ha Hs|f l He Ha Hl|f t j He Hty Ht Hj].
  - apply null_round.
  - by eapply enum_round.
  - by apply scalar_round.
  - destruct (try_map_build (λ i v, render_item faithful render_field_value render_type_ref
                                      (fs_items f) v = i)
                (encode_item encode_ref_value (fs_items f)) l) as (vs & Hvs & HF).
    { intros i Hi. rewrite Forall_forall in Hl. specialize (Hl i Hi).
      pose proof (sum_list_with_elem json_size _ _ Hi) as Hsize. cbn in Hn.
      unfold encode_item, render_item. destruct Hl as [i Hp|ty i Hs|t i Ht].
      - by apply plain_round.
      - destruct (scalar_survives _ _ _ Hs) as [(v & Hv & _ & Hr) _]. exists v. split; [done|].
        rewrite render_field_value_eq, field_body_untyped by done. by apply Hr.
      - apply Href; [lia|done]. }
    exists (VArray vs). rewrite encode_field_value_eq, render_field_value_eq. split.
    + rewrite encode_field_untyped by done. unfold encode_by_type. rewrite Ha. decide_types.
      by rewrite Hvs.
    + rewrite field_body_untyped; [|done|by rewrite Ha].
      unfold render_by_type. rewrite Ha. decide_types. cbn. f_equal.
      rewrite <- (map_id l). by apply (map_Forall2 _ _ _ _ _ HF).
  - assert (Hnn : j ≠ JNull) by (by destruct Hj).
    destruct (Href t j Hn Hj) as (v & Hv & Hr). exists v.
    rewrite encode_field_value_eq, render_field_value_eq. split.
    + rewrite encode_field_untyped by done. unfold encode_by_type. rewrite Hty. decide_types.
      by rewrite Ht.
    + unfold field_body, enum_label. rewrite He, Ht, Hty. by decide_types.
Qed.

Lemma encode_round `{!Msgpack} `{!MsgpackWrite} `{!MsgpackWriteLaws} type_id version desc o :
  get_type_version registry type_id version = Some desc → typed_obj desc o →
  ∃ value, encode_object_with_descriptor registry o desc = Ok value ∧
    encode_http_payload registry (JObject o) type_id version = Ok (write_value value) ∧
    (msgpack_wf value →
     project_msgpack faithful registry (write_value value) desc
       = Ok (mkProjectionResult (JObject o) None)).
Proof.
  intros Hd Ho. destruct (object_round desc o) as (entries & He & Hr); [|done|].
  { intros f k j Hin. by apply (typed_round (json_size j)). }
  exists (VMap entries). unfold encode_http_payload. rewrite Hd, He. split_and!; [done..|].
  intros Hwf. unfold project_msgpack. rewrite read_written by done. cbn -[known_fields].
  by rewrite Hr.
Qed.

(** A JSON body that was posted is read back: if the payload of a turn is an object of its
    declared type - its keys are names of fields, required fields are there and every value
    has the form in which the projection renders the field's type, through arrays,
    references and enums - then [encode_http_payload] succeeds, and the projection of the bytes
    that it writes is the object itself. The bounds of msgpack hold for the encoded value when
    [msgpack_wf] does. *)
Theorem encode_project `{!Msgpack} `{!MsgpackWrite} `{!MsgpackWriteLaws} type_id version desc o :
  get_type_version registry type_id version = Some desc → typed_obj desc o →
  ∃ value, encode_http_payload registry (JObject o) type_id version = Ok (write_value value) ∧
    (msgpack_wf value →
     project_msgpack faithful registry (write_value value) desc
       = Ok (mkProjectionResult (JObject o) None)).
Proof.
  intros Hd Ho. destruct (encode_round type_id version desc o Hd Ho) as (value & _ & He & Hp).
  eauto.
Qed.

End spec.

(** ** A codec of values

    For the witnesses: a writer and a reader of every value, not the real format. *)
Module ValueCodec.
Abbreviation leaf := (bool + Z + N + bytes)%type.
Abbreviation Leaf_b b := (GenLeaf (inl (inl (inl b)) : leaf)).
Abbreviation Leaf_z z := (GenLeaf (inl (inl (inr z)) : leaf)).
Abbreviation Leaf_n n := (GenLeaf (inl (inr n) : leaf)).
Abbreviation Leaf_s s := (GenLeaf (inr s : leaf)).

Fixpoint to_tree (v : Value) : gen_tree leaf :=
  match v with
  | VNil => GenNode 0 []
  | VBoolean b => GenNode 1 [Leaf_b b]
  | VInteger i => GenNode 2 [Leaf_z i]
  | VF32 n => GenNode 3 [Leaf_n n]
  | VF64 n => GenNode 4 [Leaf_n n]
  | VString s => GenNode 5 [Leaf_s s]
  | VBinary s => GenNode 6 [Leaf_s s]
  | VArray l => GenNode 7 (map to_tree l)
  | VMap l => GenNode 8 (map (λ '(k, v), GenNode 0 [to_tree k; to_tree v]) l)
  | VExt t s => GenNode 9 [Leaf_z t; Leaf_s s]
  end.

Fixpoint of_tree (t : gen_tree leaf) : Value :=
  match t with
  | GenNode 1 [GenLeaf (inl (inl (inl b)))] => VBoolean b
  | GenNode 2 [GenLeaf (inl (inl (inr i)))] => VInteger i
  | GenNode 3 [GenLeaf (inl (inr n))] => VF32 n
  | GenNode 4 [GenLeaf (inl (inr n))] => VF64 n
  | GenNode 5 [GenLeaf (inr s)] => VString s
  | GenNode 6 [GenLeaf (inr s)] => VBinary s
  | GenNode 7 l => VArray (map of_tree l)
  | GenNode 8 l => VMap (map (λ t, match t with GenNode 0 [k; v] => (of_tree k, of_tree v) | _ => (VNil, VNil) end) l)
  | GenNode 9 [GenLeaf (inl (inl (inr t))); GenLeaf (inr s)] => VExt t s
  | _ => VNil
  end.

Lemma of_to_tree : ∀ v, of_tree (to_tree v) = v.
Proof.
  fix IH 1. intros [| | | | | | |l|l|]; try reflexivity; cbn; f_equal.
  - induction l as [|v l IHl]; [reflexivity|]. cbn. f_equal; [apply IH|exact IHl].
  - induction l as [|[k v] l IHl]; [reflexivity|]. cbn. f_equal; [|exact IHl]. f_equal; apply IH.
Qed.

(** The bits of a number, a byte each, the highest dropped. *)
Fixpoint bits (p : positive) : bytes :=
  match p with
  | xH => []
  | xO p => Byte.x00 :: bits p
  | xI p => Byte.x01 :: bits p
  end.
Fixpoint unbits (bs : bytes) : positive :=
  match bs with
  | [] => xH
  | b :: bs => if decide (b = Byte.x00) then xO (unbits bs) else xI (unbits bs)
  end.
Lemma unbits_bits p : unbits (bits p) = p.
Proof. induction p as [p IH|p IH|]; cbn; rewrite ?IH; reflexivity. Qed.
Definition to_bytes (v : Value) : bytes := bits (encode (to_tree v)).
Definition of_bytes (bs : bytes) : result rstr Value :=
  match decode (unbits bs) with Some t => Ok (of_tree t) | None => Err [] end.
Lemma of_to_bytes v : of_bytes (to_bytes v) = Ok v.
Proof. unfold of_bytes, to_bytes. by rewrite unbits_bits, decode_encode, of_to_tree. Qed.
End ValueCodec.

Module HttpPayloadWitness.
#[local] Existing Instance Sample.order.
#[local] Existing Instance Sample.order_laws.
#[local] Instance rendering : Rendering := {|
  base64_encode bs := bs; hex_encode bs := bs; rfc3339_of_millis _ := None |}.
#[local] Instance byte_text : ByteText := {|
  base64_decode s := Ok s; hex_decode s := Ok s |}.
#[local] Instance byte_text_laws : ByteTextLaws := λ bs, eq_refl.
#[local] Instance msgpack : Msgpack := ValueCodec.of_bytes.
#[local] Instance msgpack_write : MsgpackWrite := ValueCodec.to_bytes.
#[local] Instance msgpack_write_laws : MsgpackWriteLaws := λ v _, ValueCodec.of_to_bytes v.

Definition field (name ty : rstr) (enum ref : option rstr) (optional : bool)
    (items : option ItemsSpec) : FieldSpec := mkFieldSpec name ty enum ref optional items.

(** A note has a text, an optional rating, a kind, and parts of a type of their own. *)
Definition note : TypeVersionSpec :=
  mkTypeVersionSpec 1
    (list_to_map [(1, field ($"text") ($"string") None None false None);
                  (2, field ($"rating") ($"int64") None None true None);
                  (3, field ($"kind") ($"u8") (Some ($"Kind")) None false None);
                  (4, field ($"parts") ($"array") None None false (Some (Ref ($"Part"))));
                  (5, field ($"extra") ($"map") None (Some ($"Part")) true None)]) None.
Definition part : TypeVersionSpec :=
  mkTypeVersionSpec 1
    (list_to_map [(1, field ($"at") ($"unix_ms") None None false None);
                  (2, field ($"body") ($"bytes") None None false None)]) None.
Definition kinds : gmap rstr rstr := list_to_map [($"1", $"draft"); ($"2", $"final")].
Definition registry : Registry :=
  mkRegistry ∅ ∅ (list_to_map [($"Note", mkTypeSpec {[1 := note]} ∅);
                               ($"Part", mkTypeSpec {[1 := part]} ∅)])
    {[$"Kind" := kinds]} None.

Definition part1 : list (rstr * json) := [($"at", json_i64 5); ($"body", JString ($"xyz"))].
Definition note1 : list (rstr * json) :=
  [($"kind", JString ($"final")); ($"parts", JArray [JObject part1]); ($"text", JString ($"hi"))].

Definition read_back (o : list (rstr * json)) : result StoreError (option (list (rstr * json))) :=
  payload ← encode_http_payload registry (JObject o) ($"Note") 1;
  r ← project_msgpack faithful registry payload note;
  Ok (match pr_data r with JObject o => Some o | _ => None end).

(** What the form of [typed] excludes: a negative [int64] is accepted and then rendered as null,
    and an object under a field of type [map] with a reference keeps its keys as strings, which
    the projection drops. *)
Example negative_int64_lost :
  read_back (obj_insert ($"rating") (json_i64 (-7)) note1)
  = Ok (Some (obj_insert ($"rating") JNull note1)).
Proof. by vm_compute. Qed.

Example map_reference_lost :
  read_back (obj_insert ($"extra") (JObject part1) note1)
  = Ok (Some (obj_insert ($"extra") (JObject []) note1)).
Proof. by vm_compute. Qed.

(** A missing field, and a value of another type, are refused. *)
Example missing_text :
  read_back (take 2 note1) = Err (InvalidInput ($"missing required field: text")).
Proof. by vm_compute. Qed.
Example text_number :
  read_back (obj_insert ($"text") (json_i64 1) note1) = Err (InvalidInput ($"expected string for text")).
Proof. by vm_compute. Qed.

Lemma fields_ind {V} (P : N → V → Prop) l :
  Forall (λ e, P e.1 e.2) l → ∀ k v, (list_to_map l : gmap N V) !! k = Some v → P k v.
Proof.
  intros Hl k v Hk. apply elem_of_list_to_map_2 in Hk. rewrite Forall_forall in Hl.
  by apply (Hl (k, v)).
Qed.

Lemma desc_ok_b l r :
  forallb (λ e : N * FieldSpec, e.1 <? U64) l = true →
  forallb (λ e : N * FieldSpec, forallb (λ e' : N * FieldSpec,
    negb (bool_decide (fs_name e.2 = fs_name e'.2)) || (e.1 =? e'.1)) l) l = true →
  desc_ok (mkTypeVersionSpec 1 (list_to_map l) r).
Proof.
  rewrite !forallb_forall. intros Hlt Hd. split.
  - intros tag f Hf. apply elem_of_list_to_map_2, list_elem_of_In, Hlt in Hf. by apply N.ltb_lt in Hf.
  - cbn. intros t t' f f' Hf Hf' Hn. apply elem_of_list_to_map_2, list_elem_of_In in Hf, Hf'.
    apply Hd in Hf. rewrite forallb_forall in Hf. apply Hf in Hf'. cbn in Hf'.
    apply orb_true_iff in Hf' as [Hf'|Hf']; [|by apply N.eqb_eq in Hf'].
    by rewrite bool_decide_true in Hf'.
Qed.

Ltac entries := let k := fresh in let v := fresh in let Hin := fresh in
  intros k v Hin; repeat (apply elem_of_cons in Hin as [[= -> ->]|Hin]); [..|by apply elem_of_nil in Hin].

Lemma typed_part1 : typed_obj registry part part1.
Proof.
  constructor.
  - by apply desc_ok_b; vm_compute.
  - by apply obj_sorted_b_sound; vm_compute.
  - entries.
    + exists 1. eexists. split; [by vm_compute|]. split; [done|]. apply typed_scalar; [done|done|].
      exists 5%Z. by split; [|lia].
    + exists 2. eexists. split; [by vm_compute|]. split; [done|]. apply typed_scalar; [done|done|].
      by exists ($"xyz").
  - apply (fields_ind (λ _ f, fs_optional f = false → is_Some (obj_get (fs_name f) part1))).
    repeat constructor; cbn; intros _; by eexists.
Qed.

Lemma typed_note1 : typed_obj registry note note1.
Proof.
  constructor.
  - by apply desc_ok_b; vm_compute.
  - by apply obj_sorted_b_sound; vm_compute.
  - entries.
    + exists 3. eexists. split; [by vm_compute|]. split; [done|].
      eapply (typed_enum _ _ ($"Kind") kinds 2); [done|by vm_compute| |by vm_compute|by vm_compute].
      intros k v Hk. apply elem_of_list_to_map_2 in Hk.
      repeat (apply elem_of_cons in Hk as [[= -> ->]|Hk]); [exists 1|exists 2|by apply elem_of_nil in Hk];
        by split; [lia|vm_compute].
    + exists 4. eexists. split; [by vm_compute|]. split; [done|]. apply typed_array; [done|done|].
      constructor; [|constructor]. apply item_ref. eapply typed_ref_intro; [by vm_compute|].
      exact typed_part1.
    + exists 1. eexists. split; [by vm_compute|]. split; [done|]. apply typed_scalar; [done|done|].
      exists ($"hi"). by split.
  - apply (fields_ind (λ _ f, fs_optional f = false → is_Some (obj_get (fs_name f) note1))).
    repeat constructor; cbn; try done; intros _; by eexists.
Qed.

Lemma encode_project_witness :
  (∃ value, encode_http_payload registry (JObject note1) ($"Note") 1 = Ok (write_value value) ∧
    (msgpack_wf value →
     project_msgpack faithful registry (write_value value) note
       = Ok (mkProjectionResult (JObject note1) None)))
  ∧ read_back note1 = Ok (Some note1).
Proof.
  split; [|by vm_compute]. apply (encode_project registry ($"Note") 1 note note1).
  - by vm_compute.
  - exact typed_note1.
Defined.
End HttpPayloadWitness.
