(* ===== verification/HttpViews.v ===== *)
(** * HttpViews: what the gateway shows as JSON

    The functions of [server/src/http/mod.rs] that render contexts, turns, types, snapshots and
    errors. Reading the metadata of a context may fill the cache of the store, which these
    functions thread. *)

From S2P Require Import Prelude Bytes External TurnStore FsStore Metadata CqlAst CqlIndexes.
From S2P Require Import Store Sessions Json Registry Projection HttpPayload.

Open Scope N_scope.

Definition format_id (id : N) (format : U64Format) : json :=
  match format with
  | U64String => JString (show_N id)
  | U64Number => json_nat id
  end.

(** [format!("{:o}", n)] and [format!("{:x}", n)]. *)
Definition hex_digit (d : N) : Byte.byte :=
  if d <? 10 then digit_byte d else byte_of_N (87 + d).
Fixpoint show_base_aux (base : N) (fuel : nat) (n : N) (acc : rstr) : rstr :=
  match fuel with
  | O => acc
  | S fuel =>
      let acc := hex_digit (n mod base) :: acc in
      if n / base =? 0 then acc else show_base_aux base fuel (n / base) acc
  end.
Definition show_base (base n : N) : rstr := show_base_aux base (S (N.to_nat (N.log2 n))) n [].
Definition show_octal : N → rstr := show_base 8.
Definition show_hex : N → rstr := show_base 16.

(** ** Types *)

Definition renderer_spec_to_json (spec : RendererSpec) : json :=
  let obj := object [($"esm_url", JString (rs_esm_url spec))] in
  let obj := set_opt ($"component") JString (rs_component spec) obj in
  set_opt ($"integrity") JString (rs_integrity spec) obj.

Definition items_to_json (items : ItemsSpec) : json :=
  match items with
  | Simple s => JString s
  | Ref r => object [($"type", JString ($"ref")); ($"ref", JString r)]
  end.

Definition field_to_json (field : FieldSpec) : json :=
  let obj := object [($"name", JString (fs_name field)); ($"type", JString (fs_field_type field))] in
  let obj := set_opt ($"enum") JString (fs_enum_ref field) obj in
  let obj := set_opt ($"ref") JString (fs_type_ref field) obj in
  let obj := set_opt ($"items") items_to_json (fs_items field) obj in
  if fs_optional field then set_key ($"optional") (JBool true) obj else obj.

Section Views.
Context `{Crc32} `{Blake3} `{Zstd} `{PreadSchedule} `{HashOrder} `{Msgpack} `{Unicode}
  `{RelativeDates} `{Chrono} `{Rendering}.

Definition type_version_to_json (spec : TypeVersionSpec) : json :=
  let fields := object (map (λ '(tag, field), (show_N tag, field_to_json field))
                          (hash_iter (tvs_fields spec))) in
  set_opt ($"renderer") renderer_spec_to_json (tvs_renderer spec) (object [($"fields", fields)]).

(** ** Contexts *)

(** [serde_json::to_value] of a [Provenance]. *)
Definition provenance_to_json (p : Provenance) : json :=
  object [
    ($"parent_context_id", json_opt json_nat (pv_parent_context_id p));
    ($"spawn_reason", json_opt JString (pv_spawn_reason p));
    ($"root_context_id", json_opt json_nat (pv_root_context_id p));
    ($"trace_id", json_opt JString (pv_trace_id p));
    ($"span_id", json_opt JString (pv_span_id p));
    ($"correlation_id", json_opt JString (pv_correlation_id p));
    ($"on_behalf_of", json_opt JString (pv_on_behalf_of p));
    ($"on_behalf_of_source", json_opt JString (pv_on_behalf_of_source p));
    ($"on_behalf_of_email", json_opt JString (pv_on_behalf_of_email p));
    ($"writer_method", json_opt JString (pv_writer_method p));
    ($"writer_subject", json_opt JString (pv_writer_subject p));
    ($"writer_issuer", json_opt JString (pv_writer_issuer p));
    ($"service_name", json_opt JString (pv_service_name p));
    ($"service_version", json_opt JString (pv_service_version p));
    ($"service_instance_id", json_opt JString (pv_service_instance_id p));
    ($"process_pid", json_opt (λ z, JNumber (number_from_i64 z)) (pv_process_pid p));
    ($"process_owner", json_opt JString (pv_process_owner p));
    ($"host_name", json_opt JString (pv_host_name p));
    ($"host_arch", json_opt JString (pv_host_arch p));
    ($"client_address", json_opt JString (pv_client_address p));
    ($"client_port", json_opt (λ z, JNumber (number_from_i64 z)) (pv_client_port p));
    ($"env", json_opt (λ m, object (map (λ '(k, v), (k, JString v)) (hash_iter m))) (pv_env p));
    ($"sdk_name", json_opt JString (pv_sdk_name p));
    ($"sdk_version", json_opt JString (pv_sdk_version p));
    ($"captured_at", json_opt (λ z, JNumber (number_from_i64 z)) (pv_captured_at p))].

(** The address of the session where the client gave none. *)
Definition with_server_info (peer_addr : option rstr) (p : Provenance) : Provenance :=
  match pv_client_address p with
  | Some _ => p
  | None =>
      mkProvenance (pv_parent_context_id p) (pv_spawn_reason p) (pv_root_context_id p)
        (pv_trace_id p) (pv_span_id p) (pv_correlation_id p) (pv_on_behalf_of p)
        (pv_on_behalf_of_source p) (pv_on_behalf_of_email p) (pv_writer_method p)
        (pv_writer_subject p) (pv_writer_issuer p) (pv_service_name p) (pv_service_version p)
        (pv_service_instance_id p) (pv_process_pid p) (pv_process_owner p) (pv_host_name p)
        (pv_host_arch p) peer_addr (pv_client_port p) (pv_env p) (pv_sdk_name p)
        (pv_sdk_version p) (pv_captured_at p)
  end.

Definition lineage_to_json (provenance : option Provenance) (children : list N) : json :=
  object [
    ($"parent_context_id", json_opt json_nat (provenance ≫= pv_parent_context_id));
    ($"root_context_id", json_opt json_nat (provenance ≫= pv_root_context_id));
    ($"spawn_reason", json_opt JString (provenance ≫= pv_spawn_reason));
    ($"child_context_count", json_nat (len children));
    ($"child_context_ids", JArray (map json_nat children))].

Definition context_to_json (tracker : SessionTracker) (context_id : N)
    (include_provenance include_lineage : bool) (store : Store)
    : result StoreError json * Store :=
  match get_head store context_id with
  | Err e => (Err e, store)
  | Ok head =>
      let session := get_session_for_context context_id tracker in
      let (stored_metadata, store) := get_context_metadata context_id store in
      let client_tag :=
        tag ← match stored_metadata ≫= cm_client_tag with
              | Some tag => Some tag
              | None => cs_client_tag <$> session
              end;
        if bool_decide (tag = []) then None else Some tag in
      let provenance := stored_metadata ≫= cm_provenance in
      let obj := object [
        ($"context_id", format_id (ch_context_id head) U64Number);
        ($"head_turn_id", format_id (ch_head_turn_id head) U64Number);
        ($"head_depth", json_nat (ch_head_depth head));
        ($"created_at_unix_ms", json_nat (ch_created_at_unix_ms head));
        ($"is_live", JBool (bool_decide (is_Some session)))] in
      let obj := set_opt ($"client_tag") JString client_tag obj in
      let obj := set_opt ($"session_id") (λ s, format_id (cs_session_id s) U64Number) session obj in
      let obj := set_opt ($"last_activity_at") (λ s, json_nat (cs_last_activity_at s)) session obj in
      let obj := set_opt ($"title") JString (stored_metadata ≫= cm_title) obj in
      let obj := set_opt ($"labels") json_strings (stored_metadata ≫= cm_labels) obj in
      let obj :=
        if include_provenance
        then set_opt ($"provenance")
               (λ p, provenance_to_json (with_server_info (session ≫= cs_peer_addr) p))
               provenance obj
        else obj in
      let obj :=
        if include_lineage
        then set_key ($"lineage") (lineage_to_json provenance (child_context_ids context_id store)) obj
        else obj in
      (Ok obj, store)
  end.

(** [iter().filter_map(|id| context_to_json(...).ok())]. *)
Fixpoint contexts_to_json (tracker : SessionTracker) (include_provenance include_lineage : bool)
    (ids : list N) (store : Store) : list json * Store :=
  match ids with
  | [] => ([], store)
  | id :: ids =>
      let (r, store) := context_to_json tracker id include_provenance include_lineage store in
      let (objs, store) := contexts_to_json tracker include_provenance include_lineage ids store in
      (match r with Ok obj => obj :: objs | Err _ => objs end, store)
  end.

Definition session_to_json (s : ClientSession) : json :=
  set_opt ($"peer_addr") JString (cs_peer_addr s)
    (object [
      ($"session_id", format_id (cs_session_id s) U64Number);
      ($"client_tag", JString (cs_client_tag s));
      ($"connected_at", json_nat (cs_connected_at s));
      ($"last_activity_at", json_nat (cs_last_activity_at s));
      ($"context_count", json_nat (len (cs_contexts_created s)))]).

(** One context of a search; the cache is read, not filled. *)
Definition search_hit_to_json (tracker : SessionTracker) (store : Store) (context_id : N)
    : option json :=
  head ← result_ok (TurnStore.get_head (st_turn_store store) context_id);
  let obj := object [
    ($"context_id", format_id context_id U64Number);
    ($"head_turn_id", format_id (ch_head_turn_id head) U64Number);
    ($"head_depth", json_nat (ch_head_depth head));
    ($"created_at_unix_ms", json_nat (ch_created_at_unix_ms head));
    ($"is_live", JBool (bool_decide (is_Some (get_session_for_context context_id tracker))))] in
  let metadata := (st_cache store !! context_id) ≫= id in
  let obj := set_opt ($"client_tag") JString (metadata ≫= cm_client_tag) obj in
  Some (set_opt ($"title") JString (metadata ≫= cm_title) obj).

Definition cql_error_name (ty : CqlErrorType) : rstr :=
  match ty with
  | SyntaxError => $"SyntaxError"
  | UnknownField => $"UnknownField"
  | InvalidOperator => $"InvalidOperator"
  | InvalidValue => $"InvalidValue"
  end.

Definition position_to_json (p : Position) : json :=
  object [($"line", json_nat (pos_line p)); ($"column", json_nat (pos_column p));
          ($"offset", json_nat (pos_offset p))].

Definition cql_error_to_json (e : CqlError) : json :=
  object [
    ($"error", JString (ce_message e));
    ($"error_type", JString (cql_error_name (ce_type e)));
    ($"position", json_opt position_to_json (ce_position e));
    ($"field", json_opt JString (ce_field e))].

(** ** Turns *)

(** The parameters of a query for turns. *)
Record TurnView : Type := mkTurnView {
  tv_view : rstr;
  tv_type_hint_mode : rstr;
  tv_as_type_id : option rstr;
  tv_as_type_version : option N;
  tv_options : RenderOptions
}.

Definition declared_type_json (type_id : rstr) (version : N) : json :=
  object [($"type_id", JString type_id); ($"type_version", json_nat version)].

(** The type that a turn is decoded as. *)
Definition decoded_type (v : TurnView) (registry : Registry) (declared_type_id : rstr)
    (declared_type_version : N) : result StoreError (rstr * N) :=
  if bool_decide (tv_type_hint_mode v = $"explicit") then
    id ← ok_or (InvalidInput ($"as_type_id required")) (tv_as_type_id v);
    ver ← ok_or (InvalidInput ($"as_type_version required")) (tv_as_type_version v);
    Ok (id, ver)
  else if bool_decide (tv_type_hint_mode v = $"latest") then
    latest ← ok_or (NotFound ($"type descriptor")) (get_latest_type_version registry declared_type_id);
    Ok (declared_type_id, tvs_version latest)
  else Ok (declared_type_id, declared_type_version).

Definition raw_bytes_json (render : BytesRender) (raw_payload : bytes) (obj : json) : json :=
  match render with
  | Base64 => set_key ($"bytes_b64") (JString (base64_encode raw_payload)) obj
  | Hex => set_key ($"bytes_hex") (JString (hex_encode raw_payload)) obj
  | LenOnly => set_key ($"bytes_len") (json_nat (len raw_payload)) obj
  end.

Definition wants (v : TurnView) (what : rstr) : bool :=
  bool_decide (tv_view v = what) || bool_decide (tv_view v = $"both").

Definition turn_to_json (v : TurnView) (registry : Registry) (item : TurnWithMeta)
    : result StoreError json :=
  let record := twm_record item in
  let meta := twm_meta item in
  let format := ro_u64_format (tv_options v) in
  decoded_type v registry (tm_declared_type_id meta) (tm_declared_type_version meta)
    ≫= λ '(decoded_id, decoded_version),
  let obj := object [
    ($"turn_id", format_id (tr_turn_id record) format);
    ($"parent_turn_id", format_id (tr_parent_turn_id record) format);
    ($"depth", json_nat (tr_depth record));
    ($"declared_type", declared_type_json (tm_declared_type_id meta) (tm_declared_type_version meta))] in
  obj ←
    (if wants v ($"typed") then
       desc ← ok_or (NotFound ($"type descriptor"))
                (get_type_version registry decoded_id decoded_version);
       payload ← ok_or (InvalidInput ($"payload not loaded")) (twm_payload item);
       projected ← project_msgpack (tv_options v) registry payload desc;
       let obj := set_key ($"decoded_as") (declared_type_json decoded_id decoded_version) obj in
       let obj := set_key ($"data") (pr_data projected) obj in
       Ok (set_opt ($"unknown") id (pr_unknown projected) obj)
     else Ok obj);
  (if wants v ($"raw") then
     raw_payload ← ok_or (InvalidInput ($"payload not loaded")) (twm_payload item);
     let obj := set_key ($"content_hash_b3") (JString (hex_encode (tr_payload_hash record))) obj in
     let obj := set_key ($"encoding") (json_nat (tm_encoding meta)) obj in
     let obj := set_key ($"compression") (json_nat 0) obj in
     let obj := set_key ($"uncompressed_len") (json_nat (wrap32 (len raw_payload))) obj in
     Ok (raw_bytes_json (ro_bytes_render (tv_options v)) raw_payload obj)
   else Ok obj).

(** ** Snapshots and errors *)

Definition kind_str (kind : N) : rstr :=
  match entry_kind_from kind with
  | KFile => $"file"
  | KDirectory => $"dir"
  | KSymlink => $"symlink"
  end.

Definition tree_entry_to_json (e : TreeEntry) : json :=
  object [
    ($"name", JString (te_name e));
    ($"kind", JString (kind_str (te_kind e)));
    ($"mode", JString (show_octal (te_mode e)));
    ($"size", json_nat (te_size e));
    ($"hash", JString (hex_encode (te_hash e)))].

(** The listing of a directory of a snapshot. *)
Definition fs_listing (store : Store) (turn_id : N) (path : rstr) : result StoreError json :=
  fs_root ← ok_or (NotFound ($"no fs snapshot for turn")) (get_fs_root store turn_id);
  entries ← list_fs_entries store turn_id path;
  Ok (object [
    ($"turn_id", format_id turn_id U64Number);
    ($"path", JString path);
    ($"fs_root_hash", JString (hex_encode fs_root));
    ($"entries", JArray (map tree_entry_to_json entries))]).

Definition fs_file_json (turn_id : N) (path : rstr) (content : bytes) (entry : TreeEntry) : json :=
  object [
    ($"turn_id", format_id turn_id U64Number);
    ($"path", JString path);
    ($"name", JString (te_name entry));
    ($"kind", JString (kind_str (te_kind entry)));
    ($"mode", JString (show_octal (te_mode entry)));
    ($"size", json_nat (te_size entry));
    ($"hash", JString (hex_encode (te_hash entry)));
    ($"content_base64", JString (base64_encode content))].

Definition error_entry_to_json (e : ErrorEntry) : json :=
  set_opt ($"path") JString (ee_path e)
    (object [
      ($"timestamp_ms", json_nat (ee_timestamp_ms e));
      ($"kind", JString (ee_kind e));
      ($"status_code", json_nat (ee_status_code e));
      ($"message", JString (ee_message e))]).

(** [guess_content_type]. [rsplit('.').next()] is what follows the last dot, or everything. *)
Definition content_types : list (list rstr * rstr) := [
  ([$"html"; $"htm"], $"text/html"); ([$"css"], $"text/css"); ([$"js"], $"application/javascript");
  ([$"json"], $"application/json"); ([$"xml"], $"application/xml"); ([$"txt"], $"text/plain");
  ([$"md"], $"text/markdown"); ([$"rs"], $"text/x-rust"); ([$"go"], $"text/x-go");
  ([$"py"], $"text/x-python"); ([$"rb"], $"text/x-ruby"); ([$"java"], $"text/x-java");
  ([$"c"; $"h"], $"text/x-c"); ([$"cpp"; $"cc"; $"cxx"; $"hpp"], $"text/x-c++");
  ([$"ts"], $"text/typescript"); ([$"tsx"], $"text/typescript-jsx");
  ([$"jsx"], $"text/javascript-jsx"); ([$"yaml"; $"yml"], $"text/yaml"); ([$"toml"], $"text/toml");
  ([$"sh"; $"bash"], $"text/x-shellscript"); ([$"png"], $"image/png");
  ([$"jpg"; $"jpeg"], $"image/jpeg"); ([$"gif"], $"image/gif"); ([$"svg"], $"image/svg+xml");
  ([$"webp"], $"image/webp"); ([$"pdf"], $"application/pdf"); ([$"zip"], $"application/zip");
  ([$"tar"], $"application/x-tar"); ([$"gz"], $"application/gzip")].

Definition guess_content_type (path : rstr) : rstr :=
  let ext := from_option snd path (after_last_dot path) in
  match find (λ e : list rstr * rstr, is_one_of (to_lowercase ext) e.1) content_types with
  | Some (_, ty) => ty
  | None => $"application/octet-stream"
  end.

End Views.
