(* ===== verification/Sse.v ===== *)
(** * Sse: the event stream

    The server's side is [StoreEvent::to_sse] of [server/src/events.rs] and [handle_sse_stream],
    [write_sse_event], [write_sse_heartbeat] of [server/src/http/mod.rs]: the bytes that the
    thread of a stream writes for the events and timeouts it sees. *)

From S2P Require Import Prelude Bytes External Json JsonCodec TurnStore FsStore Metadata CqlAst.
From S2P Require Import Store Events HttpViews.

Open Scope N_scope.

(** ** Events as JSON *)

Definition event_type (e : StoreEvent) : rstr :=
  match e with
  | ContextCreated _ _ _ _ => $"context_created"
  | ContextMetadataUpdated _ _ _ _ _ => $"context_metadata_updated"
  | ContextLinked _ _ _ _ => $"context_linked"
  | TurnAppended _ _ _ _ _ _ => $"turn_appended"
  | ClientConnected _ _ => $"client_connected"
  | ClientDisconnected _ _ _ => $"client_disconnected"
  | ErrorOccurred _ _ _ _ _ => $"error_occurred"
  end.

Definition event_data (e : StoreEvent) : json :=
  match e with
  | ContextCreated context_id session_id client_tag created_at =>
      object [($"context_id", JString context_id); ($"session_id", JString session_id);
              ($"client_tag", JString client_tag); ($"created_at", json_nat created_at)]
  | ContextMetadataUpdated context_id client_tag title labels has_provenance =>
      let obj := object [($"context_id", JString context_id);
                         ($"has_provenance", JBool has_provenance)] in
      let obj := set_opt ($"client_tag") JString client_tag obj in
      let obj := set_opt ($"title") JString title obj in
      set_opt ($"labels") json_strings labels obj
  | ContextLinked child_context_id parent_context_id root_context_id spawn_reason =>
      let obj := object [($"child_context_id", JString child_context_id);
                         ($"parent_context_id", JString parent_context_id)] in
      let obj := set_opt ($"root_context_id") JString root_context_id obj in
      set_opt ($"spawn_reason") JString spawn_reason obj
  | TurnAppended context_id turn_id parent_turn_id depth declared_type_id declared_type_version =>
      let obj := object [($"context_id", JString context_id); ($"turn_id", JString turn_id);
                         ($"parent_turn_id", JString parent_turn_id); ($"depth", json_nat depth)] in
      let obj := set_opt ($"declared_type_id") JString declared_type_id obj in
      set_opt ($"declared_type_version") json_nat declared_type_version obj
  | ClientConnected session_id client_tag =>
      object [($"session_id", JString session_id); ($"client_tag", JString client_tag)]
  | ClientDisconnected session_id client_tag contexts =>
      object [($"session_id", JString session_id); ($"client_tag", JString client_tag);
              ($"contexts", json_strings contexts)]
  | ErrorOccurred timestamp_ms kind status_code message path =>
      let obj := object [($"timestamp_ms", json_nat timestamp_ms); ($"kind", JString kind);
                         ($"status_code", json_nat status_code); ($"message", JString message)] in
      set_opt ($"path") JString path obj
  end.

Definition to_sse `{JsonText} (e : StoreEvent) : rstr * rstr :=
  (event_type e, json_text (event_data e)).

(** ** What the stream writes *)

Definition lf : bytes := [Byte.x0a].
Definition crlf : bytes := [Byte.x0d; Byte.x0a].

Definition sse_message (event_type data : rstr) : bytes :=
  $"event: " ++ event_type ++ lf ++ $"data: " ++ data ++ lf ++ lf.
Definition sse_heartbeat : bytes := $":heartbeat" ++ lf ++ lf.

(** [format!("{:x}\r\n{}\r\n", message.len(), message)]. *)
Definition chunk (message : bytes) : bytes :=
  show_hex (len message) ++ crlf ++ message ++ crlf.

Definition write_sse_event (event_type data : rstr) : bytes := chunk (sse_message event_type data).
Definition write_sse_heartbeat : bytes := chunk sse_heartbeat.

(** The status line and the headers. *)
Definition sse_head : bytes :=
  $"HTTP/1.1 200 OK" ++ crlf ++ $"Content-Type: text/event-stream" ++ crlf
  ++ $"Cache-Control: no-cache" ++ crlf ++ $"Connection: keep-alive" ++ crlf
  ++ $"Access-Control-Allow-Origin: *" ++ crlf ++ $"Transfer-Encoding: chunked" ++ crlf ++ crlf.

Definition HEARTBEAT_INTERVAL : N := 20000.

(** What ends one [recv_timeout] of the thread: an event, or five seconds without one; [wk_now] is
    the clock then, in milliseconds, and [wk_open] whether the peer still accepts writes. *)
Record Wakeup : Type := mkWakeup {
  wk_event : option StoreEvent;
  wk_now : N;
  wk_open : bool
}.

(** One round of the loop: what it writes, if anything, and the time of the last write. *)
Definition sse_round `{JsonText} (w : Wakeup) (last_heartbeat : N) : option bytes * N :=
  match wk_event w with
  | Some event =>
      let (event_type, data) := to_sse event in
      (Some (write_sse_event event_type data), wk_now w)
  | None =>
      if HEARTBEAT_INTERVAL <=? wk_now w - last_heartbeat
      then (Some write_sse_heartbeat, wk_now w)
      else (None, last_heartbeat)
  end.

(** The loop: the bytes that reach the peer, and whether the stream is still open. *)
Fixpoint sse_loop `{JsonText} (ws : list Wakeup) (last_heartbeat : N) : bytes * bool :=
  match ws with
  | [] => ([], true)
  | w :: ws =>
      match sse_round w last_heartbeat with
      | (Some out, last) =>
          if wk_open w
          then let (rest, open) := sse_loop ws last in (out ++ rest, open)
          else ([], false)
      | (None, last) => sse_loop ws last
      end
  end.

(** The thread: the event [connected], then the loop. *)
Definition sse_thread `{JsonText} (open : bool) (ws : list Wakeup) (start : N) : bytes * bool :=
  if open
  then let (rest, open) := sse_loop ws start in
       (write_sse_event ($"connected") ($"{}") ++ rest, open)
  else ([], false).

(** [handle_sse_stream]: the head is written and the subscriber registered before the thread
    starts; a peer that is gone by then gets no subscriber. *)
Definition handle_sse_stream (open : bool) (bus : EventBus) : option N * EventBus :=
  if open then let (id, bus) := subscribe bus in (Some id, bus) else (None, bus).
