(* ===== verification/Threads.v ===== *)
(** * Threads: the background threads of the client

    What [clients/rust/src/{subscribe,follow}.rs] share. A thread runs in a world [W]: reading the flag
    and the deadline of the [RequestContext], offering a value to a channel for 50 ms, sleeping
    and sending a request each look at the world and may change it. A loop that waits for the
    consumer of a channel is given a number of rounds, and has no result when it is still
    waiting after them. *)

From S2P Require Import Prelude.

Open Scope N_scope.

Inductive CtxStatus : Type := CtxCancelled | CtxTimeout.

(** The result of [send_timeout]. *)
Inductive Offered : Type := OfferSent | OfferTimeout | OfferDisconnected.

(** A part of the thread: an error or a value with the world after it, or none while it waits. *)
Definition thread (E W A : Type) : Type := W → option (result E A * W).

#[export] Instance thread_ret {E W} : MRet (thread E W) := λ A a w, Some (Ok a, w).
#[export] Instance thread_bind {E W} : MBind (thread E W) := λ A B k t w,
  match t w with
  | Some (Ok a, w) => k a w
  | Some (Err e, w) => Some (Err e, w)
  | None => None
  end.

Definition fail {E W A} (e : E) : thread E W A := λ w, Some (Err e, w).

(** A call that answers at once. *)
Definition call_world {E W A} (f : W → result E A * W) : thread E W A := λ w, Some (f w).

Section waiting.
Context {E W : Type}.
Variable status_error : CtxStatus → E.
Variable ctx_status : W → option CtxStatus * W.

(** [if let Some(status) = ctx_status(ctx) { return Err(status.into()) }]. *)
Definition check_ctx : thread E W unit := λ w,
  let (status, w) := ctx_status w in
  Some (match status with Some s => Err (status_error s) | None => Ok tt end, w).

(** The loop of [send_event] and of [send_follow_turn]: offers the value until it is taken. *)
Fixpoint send_loop {A} (closed : E) (offer : A → W → Offered * W) (rounds : nat) (a : A)
    : thread E W unit :=
  match rounds with
  | O => λ _, None
  | S rounds =>
      _ ← check_ctx;
      (λ w, match offer a w with
            | (OfferSent, w) => Some (Ok tt, w)
            | (OfferTimeout, w) => send_loop closed offer rounds a w
            | (OfferDisconnected, w) => fail closed w
            end) : thread E W unit
  end.

Lemma check_ctx_live w w' :
  ctx_status w = (None, w') → check_ctx w = Some (Ok tt, w').
Proof. unfold check_ctx. by intros ->. Qed.
End waiting.

Lemma thread_bind_ok {E W A B} (t : thread E W A) (k : A → thread E W B) w a w' :
  t w = Some (Ok a, w') → (t ≫= k) w = k a w'.
Proof. unfold mbind, thread_bind. by intros ->. Qed.

Lemma thread_bind_err {E W A B} (t : thread E W A) (k : A → thread E W B) w e w' :
  t w = Some (Err e, w') → (t ≫= k) w = Some (Err e, w').
Proof. unfold mbind, thread_bind. by intros ->. Qed.
