(* ===== verification/Subscribe.v ===== *)
(** * Subscribe: the client's reader of event streams

    [clients/rust/src/subscribe.rs]: reading lines, fields and events from the body of a response,
    handing events to the channel, and the loop that connects again after a delay. *)

From S2P Require Import Prelude Bytes External Threads.

Open Scope N_scope.

Record Event : Type := mkEvent {
  ev_type : rstr;
  ev_data : bytes;
  ev_id : rstr
}.

Inductive SubscribeErrorKind : Type := KCancelled | KTimeout | KEof | KOther.

Record SubscribeError : Type := mkSubscribeError {
  se_kind : SubscribeErrorKind;
  se_detail : rstr
}.

#[export] Instance SubscribeErrorKind_eq_dec : EqDecision SubscribeErrorKind.
Proof. solve_decision. Defined.

Definition cancelled : SubscribeError := mkSubscribeError KCancelled ($"context canceled").
Definition timeout : SubscribeError := mkSubscribeError KTimeout ($"context deadline exceeded").
Definition eof : SubscribeError := mkSubscribeError KEof ($"cxdb subscribe: stream closed").
Definition other (detail : rstr) : SubscribeError := mkSubscribeError KOther detail.

Definition is_kind (kind : SubscribeErrorKind) (e : SubscribeError) : bool :=
  bool_decide (se_kind e = kind).

(** [impl From<CtxStatus> for SubscribeError]. *)
Definition status_error (s : CtxStatus) : SubscribeError :=
  match s with CtxCancelled => cancelled | CtxTimeout => timeout end.

(** The [Debug] form of a string. *)
Class DebugText : Type := debug_str : rstr → rstr.

(** ** Lines *)

(** How a response ends: at its end, or by an error of the connection, with its text. *)
Inductive StreamEnd : Type := EndEof | EndError (text : rstr).

(** What the calls of [read_line] return one after the other: every line with its newline, and what
    follows the last newline. *)
Fixpoint split_lines (bs : bytes) : list bytes :=
  match bs with
  | [] => []
  | b :: bs =>
      if bool_decide (b = Byte.x0a) then [b] :: split_lines bs
      else match split_lines bs with
           | [] => [[b]]
           | l :: ls => (b :: l) :: ls
           end
  end.

Definition ends_with_newline (line : bytes) : bool := bool_decide (last line = Some Byte.x0a).

(** [trim_end_matches(['\r', '\n'])]. *)
Fixpoint trim_newlines (line : bytes) : bytes :=
  match line with
  | [] => []
  | b :: rest =>
      match trim_newlines rest with
      | [] => if bool_decide (b = Byte.x0a ∨ b = Byte.x0d) then [] else [b]
      | t => b :: t
      end
  end.

(** [split_once(':')], with the empty string when there is no colon. *)
Fixpoint split_field (line : rstr) : rstr * rstr :=
  match line with
  | [] => ([], [])
  | b :: line =>
      if bool_decide (b = Byte.x3a) then ([], line)
      else let (field, value) := split_field line in (b :: field, value)
  end.

Definition strip_space (value : rstr) : rstr :=
  match value with
  | Byte.x20 :: value => value
  | _ => value
  end.

Definition join_lines (lines : list rstr) : rstr :=
  match lines with
  | [] => []
  | l :: ls => foldl (λ acc l, acc ++ [Byte.x0a] ++ l) l ls
  end.

(** ** Reading a stream *)

(** The variables of [read_event_stream]. *)
Record SseState : Type := mkSseState {
  ss_event_type : rstr;
  ss_data_lines : list rstr;
  ss_last_id : rstr;
  ss_data_size : N
}.

Definition reset_state : SseState := mkSseState [] [] [] 0.

Section reader.
Context {W : Type} `{DebugText}.
(** [ctx_status]: reading the flag and the clock. *)
Variable ctx_status : W → option CtxStatus * W.

(** [send_event]: offers the event until it is taken. *)
Definition send_event (offer : Event → W → Offered * W) (rounds : nat) : Event → thread SubscribeError W unit :=
  send_loop status_error ctx_status (other ($"cxdb subscribe: event channel closed")) offer rounds.

Variable emit : Event → thread SubscribeError W unit.

Definition flush_event (st : SseState) : thread SubscribeError W SseState :=
  let data := join_lines (ss_data_lines st) in
  if bool_decide (data = []) then mret reset_state
  else
    let ty := if bool_decide (ss_event_type st = []) then $"message" else ss_event_type st in
    _ ← emit (mkEvent ty data (ss_last_id st));
    mret reset_state.

Definition too_large (size : N) : SubscribeError :=
  other ($"cxdb subscribe: event exceeds max size (" ++ show_N size ++ $" bytes)").

(** The match on the name of a field. *)
Definition set_field (max_event_bytes : N) (field value : rstr) (st : SseState)
    : result SubscribeError SseState :=
  if bool_decide (field = $"event")
  then Ok (mkSseState value (ss_data_lines st) (ss_last_id st) (ss_data_size st))
  else if bool_decide (field = $"data") then
    let size := ss_data_size st + len value in
    if (0 <? max_event_bytes) && (max_event_bytes <? size) then Err (too_large size)
    else Ok (mkSseState (ss_event_type st) (ss_data_lines st ++ [value]) (ss_last_id st) size)
  else if bool_decide (field = $"id")
  then Ok (mkSseState (ss_event_type st) (ss_data_lines st) value (ss_data_size st))
  else Ok st.

(** One line, as it was read; [None] in the text of a line stands for bytes that are not UTF-8. *)
Definition read_step (max_event_bytes : N) (raw : bytes) (st : SseState) : thread SubscribeError W SseState :=
  let at_eof := negb (ends_with_newline raw) in
  let finish st := if at_eof then fail eof else mret st in
  let line := trim_newlines raw in
  match line with
  | [] => st ← flush_event st; finish st
  | b :: _ =>
      if bool_decide (b = Byte.x3a) then finish st
      else
        let (field, value) := split_field line in
        if bool_decide (field = []) ||
           existsb (λ b, bool_decide (b = Byte.x20 ∨ b = Byte.x09)) field
        then fail (other ($"cxdb subscribe: malformed field " ++ debug_str field))
        else
          match set_field max_event_bytes field (strip_space value) st with
          | Err e => fail e
          | Ok st => if at_eof then st ← flush_event st; fail eof else mret st
          end
  end.

Definition read_error (text : rstr) : SubscribeError :=
  other ($"cxdb subscribe: read error: " ++ text).

(** The loop of [read_event_stream]; [last] is how the response ends after the lines. *)
Fixpoint read_lines (max_event_bytes : N) (lines : list bytes) (last : StreamEnd) (st : SseState)
    : thread SubscribeError W unit :=
  _ ← check_ctx status_error ctx_status;
  match lines with
  | [] => fail (match last with EndEof => eof | EndError text => read_error text end)
  | raw :: lines =>
      match last, ends_with_newline raw with
      | EndError text, false => fail (read_error text)
      | _, _ =>
          if utf8_valid raw
          then st ← read_step max_event_bytes raw st; read_lines max_event_bytes lines last st
          else fail (read_error ($"stream did not contain valid UTF-8"))
      end
  end.

Definition read_event_stream (max_event_bytes : N) (body : bytes) (last : StreamEnd)
    : thread SubscribeError W unit :=
  read_lines max_event_bytes (split_lines body) last reset_state.

End reader.

(** ** Reconnecting *)

(** The options of [SubscribeOptions] that the thread uses; durations are in milliseconds. *)
Record SubscribeOptions : Type := mkSubscribeOptions {
  so_max_event_bytes : N;
  so_retry_delay : N;
  so_max_retry_delay : N
}.

Definition DEFAULT_MAX_EVENT_BYTES : N := 2 * 1024 * 1024.
Definition DEFAULT_RETRY_DELAY : N := 500.
Definition DEFAULT_MAX_RETRY_DELAY : N := 10000.

Definition default_options : SubscribeOptions :=
  mkSubscribeOptions DEFAULT_MAX_EVENT_BYTES DEFAULT_RETRY_DELAY DEFAULT_MAX_RETRY_DELAY.

Definition next_retry_delay (current max : N) : N :=
  if current =? 0 then DEFAULT_RETRY_DELAY
  else let next := current * 2 in
       if (0 <? max) && (max <? next) then max else next.

(** The delay that is slept, from the delay of the loop. *)
Definition effective_delay (options : SubscribeOptions) (delay : N) : N :=
  let delay := if delay =? 0 then DEFAULT_RETRY_DELAY else delay in
  if (0 <? so_max_retry_delay options) && (so_max_retry_delay options <? delay)
  then so_max_retry_delay options else delay.

(** What a request returns: a response, a response that [ureq] makes an error of, or none. The body
    of a bad response is cut at 1024 bytes. *)
Inductive HttpReply : Type :=
| ReplyOk (status : N) (body : bytes) (last : StreamEnd)
| ReplyStatus (code : N) (body : bytes)
| ReplyTransport (text : rstr).

Section subscribe.
Context {W : Type} `{DebugText} `{Unicode}.
Variable ctx_status : W → option CtxStatus * W.
Variable emit : Event → thread SubscribeError W unit.
(** Sending the request, and [thread::sleep]. *)
Variable request : W → HttpReply * W.
Variable sleep : N → W → W.

Definition unexpected_status (code : N) (body : bytes) : SubscribeError :=
  other ($"cxdb subscribe: unexpected status " ++ show_N code ++ $": "
         ++ str_trim (from_utf8_lossy (take 1024 body))).

Definition subscribe_once (options : SubscribeOptions) : thread SubscribeError W unit := λ w,
  let (reply, w) := request w in
  match reply with
  | ReplyStatus code body => fail (unexpected_status code body) w
  | ReplyTransport text => fail (other ($"cxdb subscribe: request failed: " ++ text)) w
  | ReplyOk status body last =>
      if negb (status =? 200) then fail (unexpected_status status body) w
      else read_event_stream ctx_status emit (so_max_event_bytes options) body last w
  end.

(** [sleep_with_cancel]; [steps] bounds the number of its rounds. *)
Fixpoint sleep_rounds (steps : nat) (delay : N) (w : W) : bool * W :=
  if delay =? 0 then (true, w)
  else match steps with
       | O => (true, w)
       | S steps =>
           match ctx_status w with
           | (Some _, w) => (false, w)
           | (None, w) =>
               let sleep_for := if 50 <? delay then 50 else delay in
               sleep_rounds steps (delay - sleep_for) (sleep sleep_for w)
           end
       end.
Definition sleep_with_cancel (delay : N) : W → bool * W :=
  sleep_rounds (S (N.to_nat (delay / 50))) delay.

(** One round of the thread of [subscribe_events]: the error it offers to the error channel, and the
    delay of the next round, if there is one. *)
Definition subscribe_round (options : SubscribeOptions) (delay : N) (w : W)
    : option (option SubscribeError * option N * W) :=
  match ctx_status w with
  | (Some _, w) => Some (None, None, w)
  | (None, w) =>
      match subscribe_once options w with
      | None => None
      | Some (r, w) =>
          let err := match r with Err e => Some e | Ok _ => None end in
          let reported := match err with
                          | Some e => if is_kind KCancelled e then None else Some e
                          | None => None
                          end in
          let ends := match err with
                      | Some e => is_kind KCancelled e || is_kind KTimeout e
                      | None => false
                      end in
          if ends then Some (reported, None, w)
          else match ctx_status w with
               | (Some _, w) => Some (reported, None, w)
               | (None, w) =>
                   let delay := effective_delay options delay in
                   let (slept, w) := sleep_with_cancel delay w in
                   Some (reported,
                         if slept then Some (next_retry_delay delay (so_max_retry_delay options))
                         else None, w)
               end
      end
  end.

(** The loop: the errors that were offered, and the world when the thread ended within the rounds. *)
Fixpoint subscribe_loop (options : SubscribeOptions) (rounds : nat) (delay : N) (w : W)
    : list SubscribeError * option W :=
  match rounds with
  | O => ([], None)
  | S rounds =>
      match subscribe_round options delay w with
      | None => ([], None)
      | Some (reported, None, w) => (option_list reported, Some w)
      | Some (reported, Some delay, w) =>
          let (errors, last) := subscribe_loop options rounds delay w in
          (option_list reported ++ errors, last)
      end
  end.

(** [subscribe_events]: without a url there is no thread, only the error. *)
Definition subscribe_events (url : rstr) (options : SubscribeOptions) (rounds : nat) (w : W)
    : list SubscribeError * option W :=
  if bool_decide (str_trim url = [])
  then ([other ($"cxdb subscribe: url is required")], Some w)
  else subscribe_loop options rounds (so_retry_delay options) w.

End subscribe.

(** The delays of a thread that always fails: doubled every time up to the greatest. *)
Fixpoint nth_delay (options : SubscribeOptions) (n : nat) : N :=
  match n with
  | O => effective_delay options (so_retry_delay options)
  | S n => effective_delay options (next_retry_delay (nth_delay options n) (so_max_retry_delay options))
  end.

Lemma nth_delay_spec options n :
  0 < so_retry_delay options → 0 < so_max_retry_delay options →
  nth_delay options n
  = N.min (so_retry_delay options * 2 ^ N.of_nat n) (so_max_retry_delay options).
Proof.
  intros Hr Hm. destruct options as [e r m]. cbn [so_retry_delay so_max_retry_delay] in *.
  assert (Heff : ∀ d, 0 < d → effective_delay (mkSubscribeOptions e r m) d = N.min d m).
  { intros d Hd. unfold effective_delay. cbn [so_max_retry_delay].
    rewrite (proj2 (N.eqb_neq d 0)), (proj2 (N.ltb_lt 0 m)) by lia. cbn [andb].
    destruct (N.ltb_spec m d); lia. }
  assert (Hnext : ∀ d, 0 < d → next_retry_delay d m = N.min (d * 2) m).
  { intros d Hd. unfold next_retry_delay. rewrite (proj2 (N.eqb_neq d 0)), (proj2 (N.ltb_lt 0 m)) by lia.
    cbn [andb]. destruct (N.ltb_spec m (d * 2)); lia. }
  induction n as [|n IH]; cbn [nth_delay so_retry_delay so_max_retry_delay].
  - rewrite Heff by done. by rewrite N.mul_1_r.
  - rewrite IH, Nat2N.inj_succ, N.pow_succ_r'. rewrite Hnext, Heff; nia.
Qed.
