(* ===== verification/ClientEvents.v ===== *)
(** * ClientEvents: decoding the data of events

    [clients/rust/src/sse_decode.rs] and [clients/rust/src/events.rs]: integers that may be numbers or
    strings, and the five decoders. [serde]'s part is in [JsonCodec]. *)

From Stdlib Require Import Floats.SpecFloat.
From S2P Require Import Prelude Bytes External Json JsonCodec HttpPayload.

Open Scope N_scope.

(** ** Integers *)

(** [SseUint64], [SseUint32] and [SseInt64]: the value, and whether it was present. *)
Record SseInt (A : Type) : Type := mkSse {
  sse_value : A;
  sse_set : bool
}.
Arguments mkSse {A} _ _.
Arguments sse_value {A} _.
Arguments sse_set {A} _.

Abbreviation SseUint64 := (SseInt N).
Abbreviation SseUint32 := (SseInt N).
Abbreviation SseInt64 := (SseInt Z).

Section decode.
Context `{Unicode} `{JsonText}.

Definition parse_u64_str (value : rstr) : option N :=
  let trimmed := str_trim value in
  if bool_decide (trimmed = []) then Some 0 else parse_u64 trimmed.

Definition parse_i64_str (value : rstr) : option Z :=
  let trimmed := str_trim value in
  if bool_decide (trimmed = []) then Some 0%Z else parse_i64 trimmed.

(** The visitors; a float is not one of the types they accept. *)
Definition visit_uint64 (j : json) : option SseUint64 :=
  match j with
  | JNumber (PosInt n) => Some (mkSse n true)
  | JString s => (λ n, mkSse n true) <$> parse_u64_str s
  | JNull => Some (mkSse 0 true)
  | _ => None
  end.

Definition as_uint32 (n : N) : option SseUint32 :=
  if 4294967295 <? n then None else Some (mkSse n true).
Definition visit_uint32 (j : json) : option SseUint32 :=
  match j with
  | JNumber (PosInt n) => as_uint32 n
  | JString s => parse_u64_str s ≫= as_uint32
  | JNull => Some (mkSse 0 true)
  | _ => None
  end.

Definition visit_int64 (j : json) : option SseInt64 :=
  match j with
  | JNumber (PosInt n) =>
      if 9223372036854775807 <? n then None else Some (mkSse (Z.of_N n) true)
  | JNumber (NegInt z) => Some (mkSse z true)
  | JString s => (λ z, mkSse z true) <$> parse_i64_str s
  | JNull => Some (mkSse 0%Z true)
  | _ => None
  end.

(** [SseUint64::default]. *)
Definition unset_uint : SseInt N := mkSse 0 false.
Definition unset_int : SseInt Z := mkSse 0%Z false.

(** ** Events *)

Record ContextCreatedEvent : Type := mkContextCreatedEvent {
  cce_context_id : N;
  cce_session_id : rstr;
  cce_client_tag : rstr;
  cce_created_at : Z
}.

Record ContextMetadataUpdatedEvent : Type := mkContextMetadataUpdatedEvent {
  cme_context_id : N;
  cme_has_provenance : bool;
  cme_client_tag : rstr;
  cme_title : rstr;
  cme_labels : list rstr
}.

Record TurnAppendedEvent : Type := mkTurnAppendedEvent {
  tae_context_id : N;
  tae_turn_id : N;
  tae_parent_turn_id : N;
  tae_depth : N;
  tae_declared_type_id : rstr;
  tae_declared_type_version : N;
  tae_has_declared_type_id : bool;
  tae_has_declared_type_ver : bool
}.

Record ClientConnectedEvent : Type := mkClientConnectedEvent {
  cne_session_id : rstr;
  cne_client_tag : rstr
}.

Record ClientDisconnectedEvent : Type := mkClientDisconnectedEvent {
  cde_session_id : rstr;
  cde_client_tag : rstr;
  cde_contexts : list rstr
}.

(** [serde_json::from_slice] into a struct with the fields. *)
Definition read_struct (names : list rstr) (data : bytes)
    : result DecodeError (list (rstr * option json)) :=
  j ← map_err SyntaxOf (json_parse data); struct_fields names j.

Definition decode_context_created (data : bytes) : result DecodeError ContextCreatedEvent :=
  fields ← read_struct [$"context_id"; $"session_id"; $"client_tag"; $"created_at"] data;
  match fields with
  | [context_id; session_id; client_tag; created_at] =>
      context_id ← de_field unset_uint visit_uint64 context_id;
      session_id ← de_field [] de_string session_id;
      client_tag ← de_field [] de_string client_tag;
      created_at ← de_field unset_int visit_int64 created_at;
      Ok (mkContextCreatedEvent (sse_value context_id) session_id client_tag (sse_value created_at))
  | _ => Err NotStruct
  end.

Definition decode_context_metadata_updated (data : bytes)
    : result DecodeError ContextMetadataUpdatedEvent :=
  fields ← read_struct [$"context_id"; $"has_provenance"; $"client_tag"; $"title"; $"labels"] data;
  match fields with
  | [context_id; has_provenance; client_tag; title; labels] =>
      context_id ← de_field unset_uint visit_uint64 context_id;
      has_provenance ← de_field false de_bool has_provenance;
      client_tag ← de_field [] de_string client_tag;
      title ← de_field [] de_string title;
      labels ← de_field [] (de_vec de_string) labels;
      Ok (mkContextMetadataUpdatedEvent (sse_value context_id) has_provenance client_tag title
            labels)
  | _ => Err NotStruct
  end.

Definition decode_turn_appended (data : bytes) : result DecodeError TurnAppendedEvent :=
  fields ← read_struct [$"context_id"; $"turn_id"; $"parent_turn_id"; $"depth";
                        $"declared_type_id"; $"declared_type_version"] data;
  match fields with
  | [context_id; turn_id; parent_turn_id; depth; type_id; type_version] =>
      context_id ← de_field unset_uint visit_uint64 context_id;
      turn_id ← de_field unset_uint visit_uint64 turn_id;
      parent_turn_id ← de_field unset_uint visit_uint64 parent_turn_id;
      depth ← de_field unset_uint visit_uint32 depth;
      type_id ← de_field None (de_option de_string) type_id;
      type_version ← de_field None (de_option visit_uint32) type_version;
      let declared_type_id := default [] type_id in
      let '(version, has_version) :=
        match type_version with Some ver => (sse_value ver, true) | None => (0, false) end in
      Ok (mkTurnAppendedEvent (sse_value context_id) (sse_value turn_id) (sse_value parent_turn_id)
            (sse_value depth) declared_type_id version (negb (bool_decide (declared_type_id = [])))
            has_version)
  | _ => Err NotStruct
  end.

Definition decode_client_connected (data : bytes) : result DecodeError ClientConnectedEvent :=
  fields ← read_struct [$"session_id"; $"client_tag"] data;
  match fields with
  | [session_id; client_tag] =>
      session_id ← de_field [] de_string session_id;
      client_tag ← de_field [] de_string client_tag;
      Ok (mkClientConnectedEvent session_id client_tag)
  | _ => Err NotStruct
  end.

Definition decode_client_disconnected (data : bytes)
    : result DecodeError ClientDisconnectedEvent :=
  fields ← read_struct [$"session_id"; $"client_tag"; $"contexts"] data;
  match fields with
  | [session_id; client_tag; contexts] =>
      session_id ← de_field [] de_string session_id;
      client_tag ← de_field [] de_string client_tag;
      contexts ← de_field [] (de_vec de_string) contexts;
      Ok (mkClientDisconnectedEvent session_id client_tag contexts)
  | _ => Err NotStruct
  end.

End decode.
