(* ===== verification/SseSpec.v ===== *)
(** * SseSpec: events over the wire

    The chunks that the server's stream writes are taken apart by a reference decoder of the
    chunked transfer coding (RFC 9112, section 7.1), and the client's reader finds in them every
    event of the bus, in order and once, with the text of its data. *)

From S2P Require Import Prelude Bytes External Json JsonCodec HttpViews Events Sse Threads Subscribe.
From S2P Require Import ClientEvents.

Open Scope N_scope.

(** ** Chunks *)

Definition hex_value (b : Byte.byte) : option N :=
  let n := Byte.to_N b in
  if in_range 48 57 n then Some (n - 48)
  else if in_range 97 102 n then Some (n - 87)
  else None.

(** The size of a chunk, and what follows its line. *)
Fixpoint chunk_size (acc : N) (bs : bytes) : option (N * bytes) :=
  match bs with
  | Byte.x0d :: Byte.x0a :: bs => Some (acc, bs)
  | b :: bs => d ← hex_value b; chunk_size (acc * 16 + d) bs
  | [] => None
  end.

(** The payload of a sequence of whole chunks. *)
Fixpoint dechunk (fuel : nat) (bs : bytes) : option bytes :=
  match fuel, bs with
  | _, [] => Some []
  | O, _ => None
  | S fuel, _ =>
      '(n, bs) ← chunk_size 0 bs;
      if len bs <? n + 2 then None
      else
        rest ← dechunk fuel (drop (N.to_nat (n + 2)) bs);
        if bool_decide (take 2 (drop (N.to_nat n) bs) = crlf)
        then Some (take (N.to_nat n) bs ++ rest) else None
  end.

Lemma hex_value_digit d : d < 16 → hex_value (hex_digit d) = Some d.
Proof.
  intros Hd. assert (d = 0 ∨ d = 1 ∨ d = 2 ∨ d = 3 ∨ d = 4 ∨ d = 5 ∨ d = 6 ∨ d = 7 ∨ d = 8 ∨ d = 9
    ∨ d = 10 ∨ d = 11 ∨ d = 12 ∨ d = 13 ∨ d = 14 ∨ d = 15) as Hc by lia.
  by destruct_or! Hc; subst d.
Qed.

Lemma hex_digit_not_cr d : d < 16 → hex_digit d ≠ Byte.x0d.
Proof. intros Hd Hx. pose proof (hex_value_digit d Hd) as H. rewrite Hx in H. done. Qed.

Lemma chunk_size_digit acc d bs :
  d < 16 → chunk_size acc (hex_digit d :: bs) = chunk_size (acc * 16 + d) bs.
Proof.
  intros Hd. pose proof (hex_digit_not_cr d Hd) as Hne. pose proof (hex_value_digit d Hd) as Hv.
  cbn [chunk_size]. destruct (hex_digit d); try done; by rewrite Hv.
Qed.

Lemma chunk_size_show fuel n acc :
  n < 2 ^ N.of_nat fuel → (0 < n ∨ (0 < fuel)%nat) →
  chunk_size 0 (show_base_aux 16 fuel n acc) = chunk_size n acc.
Proof.
  revert n acc. induction fuel as [|fuel IH]; intros n acc Hn Hpos.
  { rewrite N.pow_0_r in Hn. lia. }
  rewrite Nat2N.inj_succ, N.pow_succ_r' in Hn. cbn [show_base_aux].
  pose proof (N.div_mod n 16 ltac:(done)) as Hdiv. pose proof (N.mod_lt n 16 ltac:(done)) as Hmod.
  destruct (N.eqb_spec (n / 16) 0) as [H0|H0].
  - rewrite chunk_size_digit by done. f_equal. lia.
  - rewrite IH; [|apply N.Div0.div_lt_upper_bound; lia|left; lia].
    rewrite chunk_size_digit by done. f_equal. lia.
Qed.

Lemma chunk_size_hex n bs : chunk_size 0 (show_hex n ++ crlf ++ bs) = Some (n, bs).
Proof.
  assert (Happ : ∀ fuel n acc bs,
    show_base_aux 16 fuel n acc ++ bs = show_base_aux 16 fuel n (acc ++ bs)).
  { induction fuel as [|fuel IH]; intros m acc bs'; [done|]. cbn [show_base_aux].
    destruct (m / 16 =? 0); [done|]. by rewrite IH. }
  unfold show_hex, show_base. rewrite Happ, chunk_size_show; [done| |right; lia].
  rewrite Nat2N.inj_succ, N2Nat.id. destruct (N.eq_dec n 0) as [->|]; [done|].
  apply N.log2_spec. lia.
Qed.

Lemma dechunk_chunk fuel m rest body :
  dechunk fuel rest = Some body → dechunk (S fuel) (chunk m ++ rest) = Some (m ++ body).
Proof.
  intros Hrest. unfold chunk. rewrite <- !app_assoc. cbn [dechunk].
  assert (Hne : ∃ b bs, show_hex (len m) ++ crlf ++ m ++ crlf ++ rest = b :: bs).
  { destruct (show_hex (len m) ++ crlf ++ m ++ crlf ++ rest) eqn:H; [|eauto].
    by apply app_eq_nil in H as [_ H]. }
  destruct Hne as (b & bs & Hbs). rewrite Hbs, <- Hbs, chunk_size_hex. cbn [mbind option_bind].
  rewrite (proj2 (N.ltb_ge _ _)) by (rewrite !len_app; change (len crlf) with 2; lia).
  assert (Hlen : N.to_nat (len m) = length m) by (unfold len; lia).
  replace (N.to_nat (len m + 2)) with (length (m ++ crlf)) 
    by (rewrite length_app; change (length crlf) with 2%nat; lia).
  rewrite app_assoc, drop_app_length, Hrest. cbn [mbind option_bind].
  rewrite <- app_assoc, Hlen, drop_app_length, take_app_length. cbn [app take crlf].
  by rewrite bool_decide_true.
Qed.

Lemma dechunk_chunks ms : dechunk (length ms) (concat (map chunk ms)) = Some (concat ms).
Proof.
  induction ms as [|m ms IH]; [done|]. cbn [map concat length]. by apply dechunk_chunk.
Qed.

(** ** Messages *)

(** What a stream writes: an event or a heartbeat. *)
Inductive item : Type :=
| IEvent (event_type data : rstr)
| IHeartbeat.

Definition item_bytes (i : item) : bytes :=
  match i with
  | IEvent event_type data => sse_message event_type data
  | IHeartbeat => sse_heartbeat
  end.

Definition item_event (i : item) : option Event :=
  match i with
  | IEvent event_type data => Some (mkEvent event_type data [])
  | IHeartbeat => None
  end.

(** A text that is one line of UTF-8, not empty. *)
Definition one_line (s : rstr) : Prop :=
  utf8_valid s = true ∧ forallb (λ b, negb (is_newline b)) s = true ∧ s ≠ [].

Definition item_ok (max : N) (i : item) : Prop :=
  match i with
  | IEvent event_type data =>
      one_line event_type ∧ one_line data ∧ (0 < max → len data ≤ max)
  | IHeartbeat => True
  end.

Lemma split_lines_line line rest :
  forallb (λ b, negb (is_newline b)) line = true →
  split_lines (line ++ Byte.x0a :: rest) = (line ++ lf) :: split_lines rest.
Proof.
  induction line as [|b line IH]; [done|]. cbn [forallb app split_lines].
  intros [Hb Hl]%andb_true_iff. rewrite bool_decide_false by (intros ->; done).
  by rewrite IH.
Qed.

Lemma trim_newlines_line line :
  forallb (λ b, negb (is_newline b)) line = true → trim_newlines (line ++ lf) = line.
Proof.
  induction line as [|b line IH]; [done|]. cbn [forallb app trim_newlines].
  intros [Hb Hl]%andb_true_iff. rewrite IH by done. destruct line; [|done].
  unfold is_newline in Hb. by rewrite (proj1 (negb_true_iff _) Hb).
Qed.

Lemma ends_with_newline_line line : ends_with_newline (line ++ lf) = true.
Proof. unfold ends_with_newline, lf. rewrite last_snoc. done. Qed.

Section reading.
Context {W : Type} `{DebugText} (log : W → list Event).
Variable ctx_status : W → option CtxStatus * W.
Variable emit : Event → thread SubscribeError W unit.
(** The request is not cancelled and has time left, and the consumer takes every event. *)
Hypothesis live : ∀ w, ∃ w', ctx_status w = (None, w') ∧ log w' = log w.
Hypothesis taken : ∀ e w, ∃ w', emit e w = Some (Ok tt, w') ∧ log w' = log w ++ [e].

Variable max : N.

(** [t] goes on as [t'] after it has emitted the events. *)
Definition runs {A} (t t' : thread SubscribeError W A) (evs : list Event) : Prop :=
  ∀ w, ∃ w', t w = t' w' ∧ log w' = log w ++ evs.

Lemma runs_trans {A} (t1 t2 t3 : thread SubscribeError W A) evs1 evs2 :
  runs t1 t2 evs1 → runs t2 t3 evs2 → runs t1 t3 (evs1 ++ evs2).
Proof.
  intros H1 H2 w. destruct (H1 w) as (w1 & -> & Hl1). destruct (H2 w1) as (w2 & -> & Hl2).
  exists w2. by rewrite Hl2, Hl1, app_assoc.
Qed.

(** What a step emits. *)
Definition steps (t : thread SubscribeError W SseState) (st : SseState) (evs : list Event) : Prop :=
  ∀ w, ∃ w', t w = Some (Ok st, w') ∧ log w' = log w ++ evs.

Lemma runs_line line lines last st st' evs :
  forallb (λ b, negb (is_newline b)) line = true → utf8_valid line = true →
  steps (read_step emit max (line ++ lf) st) st' evs →
  runs (read_lines ctx_status emit max ((line ++ lf) :: lines) last st)
    (read_lines ctx_status emit max lines last st') evs.
Proof.
  intros Hl Hv Hstep w. destruct (live w) as (w0 & Hw0 & Hlog0).
  destruct (Hstep w0) as (w1 & Hst & Hlog1). exists w1. cbn [read_lines].
  rewrite (thread_bind_ok _ _ w tt w0) by (by apply check_ctx_live).
  rewrite ends_with_newline_line, utf8_valid_app by done.
  split; [|by rewrite Hlog1, Hlog0]. destruct last; by rewrite (thread_bind_ok _ _ w0 st' w1).
Qed.

Lemma steps_ret st : steps (mret st) st [].
Proof. intros w. exists w. by rewrite app_nil_r. Qed.

Lemma read_step_field line b field value st st' :
  forallb (λ b, negb (is_newline b)) line = true → head line = Some b → b ≠ Byte.x3a →
  split_field line = (field, value) →
  field ≠ [] → existsb (λ b, bool_decide (b = Byte.x20 ∨ b = Byte.x09)) field = false →
  set_field max field (strip_space value) st = Ok st' →
  steps (read_step emit max (line ++ lf) st) st' [].
Proof.
  intros Hl Hb Hne Hsplit Hf Hsp Hset. unfold read_step.
  rewrite ends_with_newline_line, trim_newlines_line by done. cbn [negb].
  destruct line as [|b' line]; [done|]. injection Hb as ->.
  rewrite bool_decide_false, Hsplit by done. rewrite Hsp, bool_decide_false by done. cbn [orb].
  rewrite Hset. apply steps_ret.
Qed.

Lemma read_step_comment line st :
  forallb (λ b, negb (is_newline b)) line = true → head line = Some Byte.x3a →
  steps (read_step emit max (line ++ lf) st) st [].
Proof.
  intros Hl Hb. unfold read_step. rewrite ends_with_newline_line, trim_newlines_line by done.
  destruct line as [|b line]; [done|]. injection Hb as ->. apply steps_ret.
Qed.

Lemma read_step_blank ty data :
  ty ≠ [] → data ≠ [] →
  steps (read_step emit max lf (mkSseState ty [data] [] (len data))) reset_state
    [mkEvent ty data []].
Proof.
  intros Hty Hd w. unfold read_step.
  change (ends_with_newline lf) with true. change (trim_newlines lf) with (@nil Byte.byte).
  unfold flush_event. cbn [join_lines foldl ss_data_lines ss_event_type ss_last_id negb].
  rewrite (bool_decide_false (data = [])), (bool_decide_false (ty = [])) by done.
  destruct (taken (mkEvent ty data []) w) as (w' & He & Hlog). exists w'.
  unfold mbind, thread_bind. cbn. rewrite He. done.
Qed.

Lemma read_step_blank_empty : steps (read_step emit max lf reset_state) reset_state [].
Proof. apply steps_ret. Qed.

Lemma split_field_app field value :
  forallb (λ b, negb (bool_decide (b = Byte.x3a))) field = true →
  split_field (field ++ Byte.x3a :: value) = (field, value).
Proof.
  induction field as [|b field IH]; [done|]. cbn [forallb app split_field].
  intros [Hb Hf]%andb_true_iff. rewrite (proj1 (negb_true_iff _) Hb), IH by done. done.
Qed.

(** The lines of a message. *)
Lemma runs_event ty data rest last :
  item_ok max (IEvent ty data) →
  runs (read_lines ctx_status emit max (split_lines (sse_message ty data ++ rest)) last reset_state)
    (read_lines ctx_status emit max (split_lines rest) last reset_state) [mkEvent ty data []].
Proof.
  intros ((Htu & Htl & Htn) & (Hdu & Hdl & Hdn) & Hmax).
  assert (Hlines : split_lines (sse_message ty data ++ rest)
    = (($"event: " ++ ty) ++ lf) :: (($"data: " ++ data) ++ lf) :: ([] ++ lf) :: split_lines rest).
  { unfold sse_message, lf. rewrite <- !app_assoc. cbn [app].
    rewrite (app_assoc ($"event: ")), split_lines_line by (by rewrite forallb_app).
    rewrite (app_assoc ($"data: ")), split_lines_line by (by rewrite forallb_app). done. }
  rewrite Hlines. change [mkEvent ty data []] with ([] ++ [] ++ [mkEvent ty data []]).
  eapply runs_trans; [|eapply runs_trans].
  - apply runs_line; [by rewrite forallb_app|by apply utf8_valid_app|].
    eapply (read_step_field _ Byte.x65 ($"event") (Byte.x20 :: ty)); try done.
  - apply runs_line; [by rewrite forallb_app|by apply utf8_valid_app|].
    eapply (read_step_field _ Byte.x64 ($"data") (Byte.x20 :: data)); try done.
    unfold set_field. cbn. replace (_ && _) with false; [done|]. symmetry.
    destruct (N.ltb_spec 0 max); [|done]. cbn. apply N.ltb_ge. by apply Hmax.
  - apply runs_line; [done|done|]. by apply read_step_blank.
Qed.

Lemma runs_item i rest last :
  item_ok max i →
  runs (read_lines ctx_status emit max (split_lines (item_bytes i ++ rest)) last reset_state)
    (read_lines ctx_status emit max (split_lines rest) last reset_state)
    (option_list (item_event i)).
Proof.
  destruct i as [ty data|]; [apply runs_event|]. intros _.
  change (option_list (item_event IHeartbeat)) with ([] ++ [] : list Event).
  change (split_lines (item_bytes IHeartbeat ++ rest))
    with (($":heartbeat" ++ lf) :: ([] ++ lf) :: split_lines rest).
  eapply runs_trans; (apply runs_line; [done|done|]).
  - by apply read_step_comment.
  - apply read_step_blank_empty.
Qed.

(** A stream of messages is read to its end. *)
Lemma read_items items w :
  Forall (item_ok max) items →
  ∃ w', read_event_stream ctx_status emit max (concat (map item_bytes items)) EndEof w
      = Some (Err eof, w') ∧ log w' = log w ++ omap item_event items.
Proof.
  intros Hok.
  assert (Hend : runs (read_lines ctx_status emit max (split_lines (concat (map item_bytes items)))
      EndEof reset_state) (fail eof) (omap item_event items)).
  { induction Hok as [|i items Hi Hok IH].
    - intros w0. destruct (live w0) as (w1 & Hw1 & Hlog). exists w1. cbn.
      rewrite (thread_bind_ok _ _ w0 tt w1) by (by apply check_ctx_live).
      by rewrite Hlog, app_nil_r.
    - cbn [map concat]. replace (omap item_event (i :: items))
        with (option_list (item_event i) ++ omap item_event items)
        by (cbn; by destruct (item_event i)).
      eapply runs_trans; [by apply runs_item|done]. }
  destruct (Hend w) as (w' & Heq & Hlog). exists w'. split; [exact Heq|done].
Qed.
End reading.

(** ** Events *)

Lemma utf8_valid_ascii s : Forall (λ b, Byte.to_N b < 128) s → utf8_valid s = true.
Proof.
  induction 1 as [|b s Hb Hs IH]; [done|].
  rewrite (utf8_valid_next _ (Byte.to_N b) 1 s); [done|]. cbn. by rewrite (proj2 (N.ltb_lt _ _)).
Qed.

Lemma digit_ascii b : in_range 48 57 (Byte.to_N b) = true → Byte.to_N b < 128.
Proof. unfold in_range. intros [H1%N.leb_le H2%N.leb_le]%andb_true_iff. lia. Qed.

Lemma show_N_utf8 n : utf8_valid (show_N n) = true.
Proof. eapply utf8_valid_ascii, Forall_impl; [apply show_N_digits|apply digit_ascii]. Qed.

Lemma show_N_trim `{UnicodeLaws} n : str_trim (show_N n) = show_N n.
Proof.
  apply str_trim_ascii. eapply Forall_impl; [apply show_N_digits|]. intros b Hb. cbn.
  split; [by apply digit_ascii|]. rewrite whitespace_ascii by (by apply digit_ascii).
  unfold in_range in *. apply andb_true_iff in Hb as [H1%N.leb_le H2%N.leb_le].
  apply orb_false_iff. split; [apply andb_false_iff; right; apply N.leb_gt; lia|apply N.eqb_neq; lia].
Qed.

Lemma show_N_nonempty n : show_N n ≠ [].
Proof.
  destruct (show_N_aux_digit (N.to_nat (N.log2 n)) n []) as (d & rest & _ & Heq).
  unfold show_N. by rewrite Heq.
Qed.

Lemma parse_u64_str_show `{UnicodeLaws} n : n < U64 → parse_u64_str (show_N n) = Some n.
Proof.
  intros Hn. unfold parse_u64_str. rewrite show_N_trim, bool_decide_false by apply show_N_nonempty.
  by apply parse_uint_show.
Qed.

(** An event whose ids are numbers and whose values are in the range of their types. *)
Definition id_text (s : rstr) : Prop := ∃ n, n < U64 ∧ s = show_N n.
Definition text (s : rstr) : Prop := utf8_valid s = true.
Definition opt {A} (P : A → Prop) (o : option A) : Prop := from_option P True o.

Definition event_wf (e : StoreEvent) : Prop :=
  match e with
  | ContextCreated context_id session_id client_tag created_at =>
      id_text context_id ∧ text session_id ∧ text client_tag ∧ created_at < 9223372036854775808
  | ContextMetadataUpdated context_id client_tag title labels _ =>
      id_text context_id ∧ opt text client_tag ∧ opt text title ∧ opt (Forall text) labels
  | ContextLinked child parent root reason =>
      id_text child ∧ id_text parent ∧ opt id_text root ∧ opt text reason
  | TurnAppended context_id turn_id parent_turn_id depth type_id version =>
      id_text context_id ∧ id_text turn_id ∧ id_text parent_turn_id ∧ depth < U32
      ∧ opt text type_id ∧ opt (λ v, v < U32) version
  | ClientConnected session_id client_tag => text session_id ∧ text client_tag
  | ClientDisconnected session_id client_tag contexts =>
      text session_id ∧ text client_tag ∧ Forall text contexts
  | ErrorOccurred timestamp_ms kind status_code message path =>
      timestamp_ms < U64 ∧ text kind ∧ status_code < U16 ∧ text message ∧ opt text path
  end.

Lemma set_opt_plain {A} k (f : A → json) o obj :
  utf8_valid k = true → opt (λ a, json_plain (f a)) o → json_plain obj →
  json_plain (set_opt k f o obj).
Proof.
  intros Hk Ho Hobj. destruct o as [a|]; [|done]. destruct obj; try done. by apply obj_insert_plain.
Qed.

Lemma json_strings_plain l : Forall text l → json_plain (json_strings l).
Proof. intros Hl. apply json_plain_array. unfold json_strings. by apply Forall_fmap. Qed.

Lemma id_text_text s : id_text s → text s.
Proof. intros (n & _ & ->). apply show_N_utf8. Qed.

Lemma event_data_plain e : event_wf e → json_plain (event_data e).
Proof.
  destruct e; cbn [event_wf event_data]; intros H; destruct_and? H;
    repeat (apply set_opt_plain; [done| |]); try (apply object_plain);
    repeat match goal with
    | |- Forall _ _ => constructor
    | |- entry_plain _ => split; cbn [fst snd]; [done|]
    | H : id_text ?s |- json_plain (JString ?s) => by apply id_text_text
    | |- opt _ ?o => destruct o as [?|]; [|done]; unfold opt, from_option in *
    | |- json_plain (json_strings _) => by apply json_strings_plain
    | |- json_plain (json_nat _) => cbn; lia
    | |- json_plain _ => done
    end.
Qed.

(** What a client makes of an event of the stream: the decoder for its type. *)
Inductive decoded : Type :=
| DCreated (ev : ContextCreatedEvent)
| DMetadata (ev : ContextMetadataUpdatedEvent)
| DTurn (ev : TurnAppendedEvent)
| DConnected (ev : ClientConnectedEvent)
| DDisconnected (ev : ClientDisconnectedEvent).

Definition decode_event `{Unicode} `{JsonText} (ev : Event) : option (result DecodeError decoded) :=
  let same s := bool_decide (ev_type ev = s) in
  if same ($"context_created") then Some (DCreated <$> decode_context_created (ev_data ev))
  else if same ($"context_metadata_updated")
  then Some (DMetadata <$> decode_context_metadata_updated (ev_data ev))
  else if same ($"turn_appended") then Some (DTurn <$> decode_turn_appended (ev_data ev))
  else if same ($"client_connected") then Some (DConnected <$> decode_client_connected (ev_data ev))
  else if same ($"client_disconnected")
  then Some (DDisconnected <$> decode_client_disconnected (ev_data ev))
  else None.

(** What was published, as the client's records: ids are numbers and missing texts are empty. *)
Definition published_event (e : StoreEvent) : option decoded :=
  let id s := default 0 (parse_u64 s) in
  match e with
  | ContextCreated context_id session_id client_tag created_at =>
      Some (DCreated (mkContextCreatedEvent (id context_id) session_id client_tag
                        (Z.of_N created_at)))
  | ContextMetadataUpdated context_id client_tag title labels has_provenance =>
      Some (DMetadata (mkContextMetadataUpdatedEvent (id context_id) has_provenance
                         (default [] client_tag) (default [] title) (default [] labels)))
  | TurnAppended context_id turn_id parent_turn_id depth type_id version =>
      Some (DTurn (mkTurnAppendedEvent (id context_id) (id turn_id) (id parent_turn_id) depth
                     (default [] type_id) (default 0 version)
                     (negb (bool_decide (default [] type_id = []))) (bool_decide (is_Some version))))
  | ClientConnected session_id client_tag =>
      Some (DConnected (mkClientConnectedEvent session_id client_tag))
  | ClientDisconnected session_id client_tag contexts =>
      Some (DDisconnected (mkClientDisconnectedEvent session_id client_tag contexts))
  | ContextLinked _ _ _ _ | ErrorOccurred _ _ _ _ _ => None
  end.

(** The event that the client's reader hands on. *)
Definition wire_event `{JsonText} (e : StoreEvent) : Event :=
  mkEvent (event_type e) (json_text (event_data e)) [].

Section decoding.
Context `{UnicodeLaws} `{JsonTextLaws}.

Lemma read_struct_data names e :
  event_wf e → read_struct names (json_text (event_data e)) = struct_fields names (event_data e).
Proof. intros He. unfold read_struct. by rewrite json_parse_text by by apply event_data_plain. Qed.

Lemma visit_id s : id_text s → visit_uint64 (JString s) = Some (mkSse (default 0 (parse_u64 s)) true).
Proof.
  intros (n & Hn & ->). unfold visit_uint64. rewrite parse_u64_str_show by done. cbn [fmap option_fmap option_map].
  unfold parse_u64. by rewrite parse_uint_show.
Qed.

Lemma visit_strings l : de_vec de_string (json_strings l) = Some l.
Proof. cbn. by induction l as [|s l IH]; cbn; [|rewrite IH]. Qed.

Lemma visit_u32 n : n < U32 → visit_uint32 (json_nat n) = Some (mkSse n true).
Proof. intros Hn. cbn. unfold as_uint32. by rewrite (proj2 (N.ltb_ge _ _)) by lia. Qed.

Lemma visit_i64 n :
  n < 9223372036854775808 → visit_int64 (json_nat n) = Some (mkSse (Z.of_N n) true).
Proof. intros Hn. cbn. by rewrite (proj2 (N.ltb_ge _ _)) by lia. Qed.

(** The fields of the data of an event. *)
Ltac eval_fields :=
  match goal with
  | |- context [struct_fields ?names ?j] =>
      let r := eval cbv -[json_strings json_nat] in (struct_fields names j) in
      change (struct_fields names j) with r
  end; cbn [mbind result_bind de_field fst snd].

Lemma decode_wire_event e :
  event_wf e → decode_event (wire_event e) = Ok <$> published_event e.
Proof.
  intros He. pose proof He as Hwf.
  destruct e as [c s t a|c t ti l p|ch pa r re|c t p d ty v|s t|s t cs|tm k sc msg pa];
    cbn [event_wf] in Hwf; destruct_and? Hwf.
  - change (Some (DCreated <$> decode_context_created (json_text (event_data
      (ContextCreated c s t a)))) = Ok <$> published_event (ContextCreated c s t a)).
    unfold decode_context_created. rewrite read_struct_data by done. eval_fields.
    rewrite visit_id, visit_i64 by done. done.
  - change (Some (DMetadata <$> decode_context_metadata_updated (json_text (event_data
      (ContextMetadataUpdated c t ti l p)))) = Ok <$> published_event (ContextMetadataUpdated c t ti l p)).
    unfold decode_context_metadata_updated. rewrite read_struct_data by done.
    destruct t, ti, l; eval_fields; rewrite visit_id by done; cbn [ok_or mbind result_bind];
      rewrite ?visit_strings; done.
  - done.
  - change (Some (DTurn <$> decode_turn_appended (json_text (event_data
      (TurnAppended c t p d ty v)))) = Ok <$> published_event (TurnAppended c t p d ty v)).
    unfold decode_turn_appended. rewrite read_struct_data by done.
    destruct ty as [ty|], v as [v|]; eval_fields; rewrite !visit_id, visit_u32 by done;
      cbn [ok_or mbind result_bind de_option json_nat]; [|done| |done].
    all: fold (json_nat v); rewrite visit_u32 by done; done.
  - change (Some (DConnected <$> decode_client_connected (json_text (event_data
      (ClientConnected s t)))) = Ok <$> published_event (ClientConnected s t)).
    unfold decode_client_connected. rewrite read_struct_data by done. by eval_fields.
  - change (Some (DDisconnected <$> decode_client_disconnected (json_text (event_data
      (ClientDisconnected s t cs)))) = Ok <$> published_event (ClientDisconnected s t cs)).
    unfold decode_client_disconnected. rewrite read_struct_data by done. eval_fields.
    by rewrite visit_strings.
  - done.
Qed.
End decoding.

(** ** The stream *)

Section stream.
Context `{UnicodeLaws} `{JsonTextLaws} `{DebugText} {W : Type} (log : W → list Event).
Variable ctx_status : W → option CtxStatus * W.
Variable emit : Event → thread SubscribeError W unit.
Hypothesis live : ∀ w, ∃ w', ctx_status w = (None, w') ∧ log w' = log w.
Hypothesis taken : ∀ e w, ∃ w', emit e w = Some (Ok tt, w') ∧ log w' = log w ++ [e].

Definition fits (max : N) (e : StoreEvent) : Prop :=
  event_wf e ∧ (0 < max → len (json_text (event_data e)) ≤ max).

Lemma event_item_ok max e : fits max e → item_ok max (IEvent (event_type e) (json_text (event_data e))).
Proof.
  intros [Hwf Hmax]. split; [by destruct e|]. split; [|done].
  split; [by apply json_text_utf8, event_data_plain|].
  split; [by apply json_text_line|by apply json_text_nonempty].
Qed.

(** What the loop writes while the peer accepts it. *)
Lemma sse_loop_items max ws last :
  Forall (λ w, wk_open w = true) ws → Forall (fits max) (omap wk_event ws) →
  ∃ items, sse_loop ws last = (concat (map chunk (map item_bytes items)), true)
    ∧ Forall (item_ok max) items ∧ omap item_event items = map wire_event (omap wk_event ws).
Proof.
  intros Hopen. revert last. induction Hopen as [|[[e|] now open] ws Hw Hopen IH]; intros last Hfits.
  - by exists [].
  - cbn in Hw, Hfits. subst open. apply Forall_cons in Hfits as [He Hfits].
    destruct (IH now Hfits) as (items & Hloop & Hok & Hev).
    exists (IEvent (event_type e) (json_text (event_data e)) :: items). split_and!.
    + cbn -[sse_message chunk]. by rewrite Hloop.
    + constructor; [by apply event_item_ok|done].
    + cbn. by rewrite Hev.
  - cbn in Hw, Hfits. subst open. cbn [sse_loop sse_round wk_event wk_now wk_open omap list_omap].
    destruct (HEARTBEAT_INTERVAL <=? now - last).
    + destruct (IH now Hfits) as (items & Hloop & Hok & Hev). exists (IHeartbeat :: items).
      split_and!; [|by constructor|done]. by rewrite Hloop.
    + by apply IH.
Qed.

Definition connected : Event := mkEvent ($"connected") ($"{}") [].

(** C31. Events over the stream: while the client stays connected and takes what it is given, the bytes
    that the server writes for any sequence of events and timeouts are a valid chunked body, and
    reading the body hands on the event [connected] and then exactly the events of the bus, in
    order and each once, until the end of the stream; each of them decodes to the values that
    were published. *)
Theorem events_over_sse max ws start w :
  (0 < max → 2 ≤ max) → Forall (λ w, wk_open w = true) ws → Forall (fits max) (omap wk_event ws) →
  let (written, open) := sse_thread true ws start in
  open = true ∧ ∃ n body w',
    dechunk n written = Some body
    ∧ read_event_stream ctx_status emit max body EndEof w = Some (Err eof, w')
    ∧ log w' = log w ++ connected :: map wire_event (omap wk_event ws)
    ∧ map decode_event (map wire_event (omap wk_event ws))
      = map (λ e, Ok <$> published_event e) (omap wk_event ws).
Proof.
  intros Hmax Hopen Hfits. unfold sse_thread.
  destruct (sse_loop_items max ws start Hopen Hfits) as (items & -> & Hok & Hev). split; [done|].
  set (all := IEvent ($"connected") ($"{}") :: items).
  assert (Hall : Forall (item_ok max) all).
  { by constructor. }
  destruct (read_items log ctx_status emit live taken max all w Hall) as (w' & Hread & Hlog).
  exists (length (map item_bytes all)), (concat (map item_bytes all)), w'. split_and!.
  - apply (dechunk_chunks (map item_bytes all)).
  - done.
  - rewrite Hlog. cbn [all omap list_omap item_event]. by rewrite <- Hev.
  - rewrite map_map. apply map_ext_in. intros e He%list_elem_of_In. apply decode_wire_event.
    rewrite Forall_forall in Hfits. by apply (Hfits e He).
Qed.
End stream.

Module SseWitness.
#[local] Existing Instances JsonSample.text JsonSample.text_laws Sample.unicode Sample.unicode_laws.
#[local] Instance debug : DebugText := λ s, s.

(** A world that is the list of the events taken. *)
Definition ctx_status (w : list Event) : option CtxStatus * list Event := (None, w).
Definition emit (e : Event) : thread SubscribeError (list Event) unit := λ w, Some (Ok tt, w ++ [e]).

Definition turn : StoreEvent :=
  TurnAppended ($"7") ($"12") ($"11") 3 (Some ($"Note")) (Some 1).
Definition ws : list Wakeup :=
  [mkWakeup None 5000 true; mkWakeup None 20000 true; mkWakeup (Some turn) 21000 true].

Lemma turn_wf : event_wf turn.
Proof.
  split_and!; [exists 7|exists 12|exists 11|..]; vm_compute; done.
Qed.

Lemma events_over_sse_witness :
  ∃ n body w', dechunk n (sse_thread true ws 0).1 = Some body
    ∧ read_event_stream ctx_status emit 0 body EndEof [] = Some (Err eof, w')
    ∧ w' = [connected; wire_event turn]
    ∧ decode_event (wire_event turn)
      = Some (Ok (DTurn (mkTurnAppendedEvent 7 12 11 3 ($"Note") 1 true true))).
Proof.
  pose proof (events_over_sse (λ w, w) ctx_status emit) as Hthm.
  specialize (Hthm ltac:(intros w; by exists w) ltac:(intros e w; by eexists) 0 ws 0 []).
  specialize (Hthm ltac:(intros Hlt; inversion Hlt) ltac:(repeat constructor)).
  destruct (sse_thread true ws 0) as [written open]. destruct Hthm as (_ & n & body & w' & Hd & Hr & Hl & Hdec).
  { constructor; [|constructor]. split; [apply turn_wf|intros Hlt; inversion Hlt]. }
  exists n, body, w'. split; [exact Hd|]. split; [exact Hr|]. split; [exact Hl|].
  exact (f_equal (λ l, default None (head l)) Hdec).
Defined.
End SseWitness.
