(* ===== verification/Follow.v ===== *)
(** * Follow: following the turns of contexts

    [clients/rust/src/follow.rs]. For every [turn_appended] event the thread asks the server for the
    head of the context and for as many of its last turns as it has not seen, and hands on the
    new ones. The server is reached through the interface [TurnClient]. *)

From S2P Require Import Prelude Bytes External JsonCodec ClientWire Threads Subscribe ClientEvents.

Open Scope N_scope.

Inductive FollowError : Type :=
| FollowCancelled
| FollowTimeout
| FollowDecode (msg : rstr)
| FollowClient (err : ClientError)
| FollowOther (msg : rstr).

Definition follow_status (s : CtxStatus) : FollowError :=
  match s with CtxCancelled => FollowCancelled | CtxTimeout => FollowTimeout end.

(** [trait TurnClient], in a world. *)
Class TurnClient (W : Type) : Type := {
  tc_get_head : N → W → result ClientError ClientContextHead * W;
  tc_get_last : N → GetLastOptions → W → result ClientError (list ClientTurnRecord) * W
}.

(** The text of a [serde_json::Error]. *)
Class DecodeText : Type := decode_text : DecodeError → rstr.

Record FollowTurn : Type := mkFollowTurn {
  ft_context_id : N;
  ft_turn : ClientTurnRecord
}.

(** ** The state of a context *)

Record FollowState : Type := mkFollowState {
  fo_has_last : bool;
  fo_last_seen_turn_id : N;
  fo_last_seen_depth : N;
  fo_seen : gset N;
  fo_seen_order : list N;
  fo_max_seen : N
}.

Definition DEFAULT_FOLLOW_BUFFER : N := 128.
Definition DEFAULT_MAX_SEEN_PER_CONTEXT : N := 2048.

Definition follow_state_new (max_seen : N) : FollowState :=
  mkFollowState false 0 0 ∅ []
    (if max_seen =? 0 then DEFAULT_MAX_SEEN_PER_CONTEXT else max_seen).

Definition seen_turn (turn_id : N) (st : FollowState) : bool := bool_decide (turn_id ∈ fo_seen st).

(** The loop that forgets the oldest ids. *)
Fixpoint evict (max_seen : N) (order : list N) (seen : gset N) : list N * gset N :=
  match order with
  | [] => ([], seen)
  | oldest :: rest =>
      if max_seen <? len order then evict max_seen rest (seen ∖ {[oldest]}) else (order, seen)
  end.

Definition record_turn (turn : ClientTurnRecord) (st : FollowState) : FollowState :=
  let id := ctr_turn_id turn in
  let (order, seen) := evict (fo_max_seen st) (fo_seen_order st ++ [id]) ({[id]} ∪ fo_seen st) in
  if negb (fo_has_last st) || (fo_last_seen_depth st <=? ctr_depth turn)
  then mkFollowState true id (ctr_depth turn) seen order (fo_max_seen st)
  else mkFollowState (fo_has_last st) (fo_last_seen_turn_id st) (fo_last_seen_depth st) seen order
         (fo_max_seen st).

(** ** Synchronising *)

Section follow.
Context {W : Type} `{!TurnClient W} `{Unicode} `{JsonText} `{DecodeText}.
Variable ctx_status : W → option CtxStatus * W.
(** [send_follow_turn] on the output channel. *)
Variable send : FollowTurn → thread FollowError W unit.

Definition send_follow_turn (offer : FollowTurn → W → Offered * W) (rounds : nat)
    : FollowTurn → thread FollowError W unit :=
  send_loop follow_status ctx_status (FollowOther ($"follow turns: output channel closed")) offer
    rounds.

(** The loop over the turns that were read; the state keeps what was handed on before an error. *)
Fixpoint deliver (context_id : N) (turns : list ClientTurnRecord) (st : FollowState) (w : W)
    : option (result FollowError unit * FollowState * W) :=
  match turns with
  | [] => Some (Ok tt, st, w)
  | turn :: turns =>
      if seen_turn (ctr_turn_id turn) st then deliver context_id turns st w
      else match send (mkFollowTurn context_id turn) w with
           | None => None
           | Some (Err e, w) => Some (Err e, st, w)
           | Some (Ok _, w) => deliver context_id turns (record_turn turn st) w
           end
  end.

(** How many of the last turns may be new. *)
Definition missing_turns (head_depth : N) (st : FollowState) : N :=
  if fo_has_last st && negb (bool_decide (fo_seen st = ∅))
  then head_depth - fo_last_seen_depth st
  else wrap32 (head_depth + 1).

Definition sync_context (context_id : N) (st : FollowState) (w : W)
    : option (result FollowError unit * FollowState * W) :=
  let (head, w) := tc_get_head context_id w in
  match head with
  | Err e => Some (Err (FollowClient e), st, w)
  | Ok head =>
      let depth := cch_head_depth head in
      if fo_has_last st && (depth <? fo_last_seen_depth st)
      then Some (Err (FollowOther ($"follow turns: head depth regressed (context "
                        ++ show_N context_id ++ $")")), st, w)
      else
        let missing := missing_turns depth st in
        if missing =? 0 then Some (Ok tt, st, w)
        else
          let (turns, w) := tc_get_last context_id (mkGetLastOptions missing true) w in
          match turns with
          | Err e => Some (Err (FollowClient e), st, w)
          | Ok turns => deliver context_id turns st w
          end
  end.

(** ** Events *)

Definition decode_turn_appended_event (data : bytes) : result FollowError TurnAppendedEvent :=
  if bool_decide (data = []) then Err (FollowDecode ($"turn_appended: empty payload"))
  else
    event ← map_err (λ e, FollowDecode ($"turn_appended: decode: " ++ decode_text e))
              (decode_turn_appended data);
    if tae_context_id event =? 0 then Err (FollowDecode ($"turn_appended: missing context_id"))
    else if tae_turn_id event =? 0 then Err (FollowDecode ($"turn_appended: missing turn_id"))
    else Ok event.

(** The states of the contexts. *)
Abbreviation states := (gmap N FollowState).

(** One event: the error offered to the error channel, if any. *)
Definition follow_event (max_seen : N) (ev : Event) (sts : states) (w : W)
    : option (option FollowError * states * W) :=
  if negb (bool_decide (ev_type ev = $"turn_appended")) then Some (None, sts, w)
  else match decode_turn_appended_event (ev_data ev) with
       | Err e => Some (Some e, sts, w)
       | Ok event =>
           let context_id := tae_context_id event in
           let st := default (follow_state_new max_seen) (sts !! context_id) in
           '(r, st, w) ← sync_context context_id st w;
           Some (match r with Err e => Some e | Ok _ => None end, <[context_id := st]> sts, w)
       end.

(** What [recv_timeout] returns. *)
Inductive Received : Type := RecvEvent (ev : Event) | RecvTimeout | RecvDisconnected.

(** The thread of [follow_turns] for a number of rounds: the errors it offered, the states and the
    world; [None] while it waits for the consumer. *)
Fixpoint follow_loop (recv : W → Received * W) (max_seen : N) (rounds : nat) (sts : states) (w : W)
    : option (list FollowError * states * W) :=
  match rounds with
  | O => Some ([], sts, w)
  | S rounds =>
      match ctx_status w with
      | (Some _, w) => Some ([], sts, w)
      | (None, w) =>
          match recv w with
          | (RecvTimeout, w) => follow_loop recv max_seen rounds sts w
          | (RecvDisconnected, w) => Some ([], sts, w)
          | (RecvEvent ev, w) =>
              '(err, sts, w) ← follow_event max_seen ev sts w;
              '(errs, sts, w) ← follow_loop recv max_seen rounds sts w;
              Some (option_list err ++ errs, sts, w)
          end
      end
  end.
End follow.
