(* ===== verification/Http.v ===== *)
(** * Http: the gateway

    [server/src/http/mod.rs]: [handle_request], from the request line to the response. A handler
    is a computation over the shared state that may fail; [handle_request] turns a failure
    into an error response, a log entry and an event. One thread handles the requests one
    after the other, and each handler holds the locks that it takes to its end. URLs, query strings and
    the text of JSON are parsed by libraries, which are parameters; bodies are taken to be read
    completely and responses to be sent. *)

From S2P Require Import Prelude Bytes External TurnStore FsStore Metadata CqlAst CqlIndexes.
From S2P Require Import Store Events Sessions Server Json JsonCodec Registry Projection HttpPayload HttpViews.

Open Scope N_scope.

(** [Url::parse] on the target of a request after [http://localhost]: the segments of the path and
    the query, empty if there is none. *)
Class ParseUrl : Type := parse_url : rstr → option (list rstr * rstr).
(** [form_urlencoded::parse]. *)
Class FormDecode : Type := form_pairs : rstr → list (rstr * rstr).
(** [Metrics::snapshot], which reads latencies and the state of the system. *)
Class MetricsSnapshot : Type := metrics_snapshot : Metrics → Store → Registry → json.

Inductive Method : Type := Get | Put | Post | OtherMethod.

Record Request : Type := mkRequest {
  rq_method : Method;
  rq_url : rstr;
  rq_headers : list (rstr * rstr);
  rq_body : bytes
}.

Record Response : Type := mkResponse {
  rp_status : N;
  rp_headers : list (rstr * rstr);
  rp_body : bytes
}.

(** What the handlers share. *)
Record Gateway : Type := mkGateway {
  gw_server : Server;
  gw_registry : Registry
}.

(** ** Handlers *)

Definition handler (A : Type) : Type := Gateway → result StoreError A * Gateway.
#[export] Instance handler_ret : MRet handler := λ A a g, (Ok a, g).
#[export] Instance handler_bind : MBind handler := λ A B k h g,
  match h g with
  | (Ok a, g) => k a g
  | (Err e, g) => (Err e, g)
  end.

Definition attempt {A} (r : result StoreError A) : handler A := λ g, (r, g).
Definition inspect {A} (f : Gateway → A) : handler A := λ g, (Ok (f g), g).
Definition on_server (f : Server → Server) : handler unit := λ g,
  (Ok tt, mkGateway (f (gw_server g)) (gw_registry g)).
(** An operation on the store, or on the registry, under its lock. *)
Definition on_store {A} (f : Store → result StoreError A * Store) : handler A := λ g,
  let (r, s) := f (sv_store (gw_server g)) in
  (r, mkGateway (set_store s (gw_server g)) (gw_registry g)).
Definition on_registry {A} (f : Registry → result StoreError A * Registry) : handler A := λ g,
  let (r, registry) := f (gw_registry g) in (r, mkGateway (gw_server g) registry).
Definition query_store {A} (f : Store → result StoreError A) : handler A :=
  on_store (λ s, (f s, s)).

(** ** Requests *)

(** [HeaderField::equiv]. *)
Definition eq_ignore_case (a b : rstr) : bool :=
  bool_decide (map ascii_lower a = map ascii_lower b).

Definition find_header (name : rstr) (request : Request) : option rstr :=
  snd <$> find (λ h : rstr * rstr, eq_ignore_case h.1 name) (rq_headers request).

(** [str::trim] of a header, which is ASCII. *)
Definition is_space (b : Byte.byte) : bool := in_range 9 13 (Byte.to_N b) || (Byte.to_N b =? 32).
Fixpoint trim_left (s : rstr) : rstr :=
  match s with
  | b :: s' => if is_space b then trim_left s' else s
  | [] => []
  end.
Definition trim (s : rstr) : rstr := rev (trim_left (rev (trim_left s))).

Fixpoint client_tag_of (names : list rstr) (request : Request) : rstr :=
  match names with
  | [] => $"http"
  | name :: names =>
      match find_header name request with
      | Some header =>
          let value := trim header in
          if bool_decide (value = []) then client_tag_of names request else value
      | None => client_tag_of names request
      end
  end.
Definition extract_http_client_tag : Request → rstr :=
  client_tag_of [$"X-CXDB-Client-Tag"; $"X-Client-Tag"].

(** [u8::is_ascii_whitespace]. *)
Definition is_ascii_whitespace (b : Byte.byte) : bool :=
  bool_decide (b ∈ [Byte.x20; Byte.x09; Byte.x0a; Byte.x0c; Byte.x0d]).

(** ** Routes: the patterns of the match in [handle_request], in their order *)

Inductive Route : Type :=
| RHealth
| RPutBundle
| RGetBundle (bundle_id : rstr)
| RTypeVersion (type_id version : rstr)
| RRenderers
| RContexts
| RCreate
| RFork
| RSearch
| RContext (context_id : rstr)
| RChildren (context_id : rstr)
| RProvenance (context_id : rstr)
| RAppend (context_id : rstr)
| RTurns (context_id : rstr)
| RMetrics
| RErrors
| RFsList (turn_id : rstr)
| RFsFile (turn_id : rstr) (rest : list rstr)
| RUnknown.

Definition same (s : rstr) (t : rstr) : bool := bool_decide (s = t).

Definition route (method : Method) (segments : list rstr) : Route :=
  match segments with
  | v :: rest =>
      if negb (same v ($"v1")) then
        match method, rest with
        | Get, [] => if same v ($"healthz") then RHealth else RUnknown
        | _, _ => RUnknown
        end
      else
        match method, rest with
        | Put, [a; b; _] => if same a ($"registry") && same b ($"bundles") then RPutBundle else RUnknown
        | Get, [a] =>
            if same a ($"contexts") then RContexts
            else if same a ($"metrics") then RMetrics
            else if same a ($"errors") then RErrors
            else RUnknown
        | Post, [a] => if same a ($"contexts") then RCreate else RUnknown
        | Get, [a; b] =>
            if same a ($"registry") && same b ($"renderers") then RRenderers
            else if same a ($"contexts")
            then if same b ($"search") then RSearch else RContext b
            else RUnknown
        | Post, [a; b] =>
            if same a ($"contexts") && same b ($"create") then RCreate
            else if same a ($"contexts") && same b ($"fork") then RFork
            else RUnknown
        | Post, [a; id; op] =>
            if same a ($"contexts") && (same op ($"append") || same op ($"turns")) then RAppend id
            else RUnknown
        | Get, a :: b :: op :: more =>
            match more with
            | [] =>
                if same a ($"registry") && same b ($"bundles") then RGetBundle op
                else if same a ($"contexts") && same op ($"children") then RChildren b
                else if same a ($"contexts") && same op ($"provenance") then RProvenance b
                else if same a ($"contexts") && same op ($"turns") then RTurns b
                else if same a ($"turns") && same op ($"fs") then RFsList b
                else RUnknown
            | _ =>
                match more with
                | [d; e] =>
                    if same a ($"registry") && same b ($"types") && same d ($"versions")
                    then RTypeVersion op e
                    else if same a ($"turns") && same op ($"fs") then RFsFile b more
                    else RUnknown
                | _ => if same a ($"turns") && same op ($"fs") then RFsFile b more else RUnknown
                end
            end
        | _, _ => RUnknown
        end
  | [] => RUnknown
  end.

(** The route of [GET /v1/events], which is tested before all others. *)
Definition is_event_stream (method : Method) (segments : list rstr) : bool :=
  match method, segments with
  | Get, [a; b] => same a ($"v1") && same b ($"events")
  | _, _ => false
  end.

(** ** Parameters of a query *)

Abbreviation params := (gmap rstr rstr).

(** [v.parse().ok().unwrap_or(default)]. *)
Definition param_u32 (p : params) (key : rstr) : option N := p !! key ≫= parse_u32.
Definition param_flag (p : params) (key : rstr) (default : bool) : bool :=
  from_option (λ v, same v ($"1")) default (p !! key).

(** What the body of an append asks for. *)
Record AppendBody : Type := mkAppendBody {
  ab_type_id : rstr;
  ab_type_version : N;
  ab_parent_turn_id : N;
  ab_payload : bytes
}.

Section Http.
Context `{Crc32} `{Blake3} `{Zstd} `{PreadSchedule} `{HashOrder} `{Msgpack} `{Unicode} `{IoText}
  `{RelativeDates} `{Chrono} `{Rendering} `{ByteText} `{MsgpackWrite} `{ReadBundle}
  `{ParseUrl} `{FormDecode} `{JsonText} `{MetricsSnapshot}.

Definition parse_query (query : rstr) : params :=
  foldl (λ m '(k, v), <[k := v]> m) ∅ (form_pairs query).

Definition parse_json_body (request : Request) : result StoreError json :=
  if forallb is_ascii_whitespace (rq_body request) then Ok (JObject [])
  else map_err (λ e, InvalidInput ($"invalid json: " ++ e)) (json_parse (rq_body request)).

Definition parse_base_turn_id (request : Request) (default : N) (required : bool)
    : result StoreError N :=
  body ← parse_json_body request;
  match json_get body ($"base_turn_id") with
  | Some value => parse_json_u64 value ($"base_turn_id")
  | None => if required then Err (missing_field ($"base_turn_id")) else Ok default
  end.

(** ** Responses *)

Definition content_type (ty : rstr) : rstr * rstr := ($"Content-Type", ty).
Definition json_response (status : N) (value : json) : Response :=
  mkResponse status [content_type ($"application/json")] (json_text value).
Definition empty_response (status : N) : Response := mkResponse status [] [].

Definition map_error (err : StoreError) : N * rstr :=
  match err with
  | NotFound msg =>
      if str_contains msg ($"type descriptor") then (424, msg)
      else if str_contains msg ($"parent turn") || str_contains msg ($"base turn") then (409, msg)
      else (404, msg)
  | InvalidInput msg => (422, msg)
  | Corrupt msg => (500, msg)
  | Io k => (500, io_text k)
  end.

Definition parse_id (what : rstr) (s : rstr) : handler N :=
  attempt (ok_or (InvalidInput ($"invalid " ++ what)) (parse_u64 s)).

(** ** The registry *)

Definition put_bundle_handler (request : Request) : handler Response :=
  bundle ← attempt (map_err (λ e, InvalidInput ($"invalid json: " ++ e))
                      (read_bundle (rq_body request)));
  let body_id := rb_bundle_id bundle in
  outcome ← on_registry (put_bundle body_id (rq_body request));
  match outcome with
  | AlreadyExists => mret (empty_response 204)
  | Created =>
      _ ← on_server (on_metrics record_registry_ingest);
      mret (json_response 201 (object [($"bundle_id", JString body_id)]))
  end.

Definition quoted (s : rstr) : rstr := Byte.x22 :: s ++ [Byte.x22].

Definition get_bundle_handler (bundle_id : rstr) (request : Request) : handler Response :=
  registry ← inspect gw_registry;
  bundle ← attempt (ok_or (NotFound ($"bundle")) (get_bundle registry bundle_id));
  let etag := quoted (hex_encode (blake3 bundle)) in
  mret (if bool_decide (find_header ($"If-None-Match") request = Some etag)
        then empty_response 304
        else mkResponse 200 [content_type ($"application/json"); ($"ETag", etag)] bundle).

Definition type_version_handler (type_id version : rstr) : handler Response :=
  version ← attempt (ok_or (InvalidInput ($"invalid version")) (parse_u32 version));
  registry ← inspect gw_registry;
  spec ← attempt (ok_or (NotFound ($"type version")) (get_type_version registry type_id version));
  mret (json_response 200 (type_version_to_json spec)).

Definition renderers_handler : handler Response :=
  registry ← inspect gw_registry;
  let renderers := map (λ '(type_id, spec), (type_id, renderer_spec_to_json spec))
                     (hash_iter (get_all_renderers registry)) in
  mret (json_response 200 (object [($"renderers", object renderers)])).

(** ** Contexts *)

(** The tag filter of the listing of contexts. *)
Definition passes_tag (tag_filter : option rstr) (obj : json) : bool :=
  match tag_filter with
  | None => true
  | Some filter => bool_decide (default [] (json_get obj ($"client_tag") ≫= as_str) = filter)
  end.

Definition list_contexts_handler (p : params) : handler Response :=
  let limit := default 20 (param_u32 p ($"limit")) in
  let label_filter :=
    match p !! $"label" with
    | Some label => Some label
    | None => (λ id, $"task:" ++ id) <$> p !! $"task_id"
    end in
  let include_provenance := param_flag p ($"include_provenance") false in
  let include_lineage := param_flag p ($"include_lineage") false in
  tracker ← inspect (λ g, sv_tracker (gw_server g));
  contexts_json ← on_store (λ s,
    let contexts := match label_filter with
                    | Some label => list_contexts_by_label label limit s
                    | None => list_recent_contexts limit s
                    end in
    let (objs, s) := contexts_to_json tracker include_provenance include_lineage
                       (map ch_context_id contexts) s in
    (Ok (filter (λ obj, passes_tag (p !! $"tag") obj = true) objs), s));
  mret (json_response 200 (object [
    ($"contexts", JArray contexts_json);
    ($"count", json_nat (len contexts_json));
    ($"active_sessions", JArray (map session_to_json (get_active_sessions tracker)));
    ($"active_tags", json_strings (hash_iter (gset_to_gmap tt (get_active_tags tracker))).*1)])).

Definition head_json (head : ContextHead) : json :=
  object [
    ($"context_id", format_id (ch_context_id head) U64Number);
    ($"head_turn_id", format_id (ch_head_turn_id head) U64Number);
    ($"head_depth", json_nat (ch_head_depth head))].

(** The arms of [POST contexts], [contexts/create] and [contexts/fork]. *)
Definition create_handler (create : N → N → Store → result StoreError ContextHead * Store)
    (required : bool) (now : N) (request : Request) : handler Response :=
  base_turn_id ← attempt (parse_base_turn_id request 0 required);
  let client_tag := extract_http_client_tag request in
  head ← on_store (create base_turn_id now);
  _ ← on_server (emit (ContextCreated (show_N (ch_context_id head)) ($"http") client_tag now));
  mret (json_response 201 (head_json head)).

Definition search_handler (p : params) (now elapsed : N) : handler Response :=
  let query := default [] (p !! $"q") in
  let limit := param_u32 p ($"limit") in
  if bool_decide (query = [])
  then mret (json_response 400 (object [($"error", JString ($"Missing required 'q' parameter"))]))
  else
    tracker ← inspect (λ g, sv_tracker (gw_server g));
    store ← inspect (λ g, sv_store (gw_server g));
    match search_contexts now elapsed query (get_live_context_ids tracker) limit store with
    | Ok result =>
        mret (json_response 200 (object [
          ($"contexts", JArray (omap (search_hit_to_json tracker store) (sr_context_ids result)));
          ($"total_count", json_nat (sr_total_count result));
          ($"elapsed_ms", json_nat (sr_elapsed_ms result));
          ($"query", JString (cq_raw (sr_query result)))]))
    | Err cql_error => mret (json_response 400 (cql_error_to_json cql_error))
    end.

Definition context_handler (context_id : rstr) (p : params) : handler Response :=
  context_id ← parse_id ($"context_id") context_id;
  tracker ← inspect (λ g, sv_tracker (gw_server g));
  obj ← on_store (context_to_json tracker context_id (param_flag p ($"include_provenance") true)
                    (param_flag p ($"include_lineage") true));
  mret (json_response 200 obj).

Definition children_handler (context_id : rstr) (p : params) : handler Response :=
  context_id ← parse_id ($"context_id") context_id;
  let recursive := from_option (λ v, same v ($"1") || eq_ignore_case v ($"true")) false
                     (p !! $"recursive") in
  let limit := default 256 (param_u32 p ($"limit")) in
  tracker ← inspect (λ g, sv_tracker (gw_server g));
  _ ← query_store (λ s, get_head s context_id);
  children ← on_store (λ s,
    let child_ids := if recursive then descendant_context_ids context_id (Some limit) s
                     else truncate limit (child_context_ids context_id s) in
    let (objs, s) := contexts_to_json tracker (param_flag p ($"include_provenance") true)
                       (param_flag p ($"include_lineage") true) child_ids s in
    (Ok objs, s));
  mret (json_response 200 (object [
    ($"context_id", format_id context_id U64Number);
    ($"recursive", JBool recursive);
    ($"count", json_nat (len children));
    ($"children", JArray children)])).

Definition provenance_handler (context_id : rstr) : handler Response :=
  context_id ← parse_id ($"context_id") context_id;
  _ ← query_store (λ s, get_head s context_id);
  metadata ← on_store (λ s, let (m, s) := get_context_metadata context_id s in (Ok m, s));
  tracker ← inspect (λ g, sv_tracker (gw_server g));
  let peer_addr := get_session_for_context context_id tracker ≫= cs_peer_addr in
  mret (json_response 200 (object [
    ($"context_id", format_id context_id U64Number);
    ($"provenance", json_opt (λ prov, provenance_to_json (with_server_info peer_addr prov))
                      (metadata ≫= cm_provenance))])).

(** ** Turns *)

(** Reading the body of an append. *)
Definition append_body (request : Request) (registry : Registry) : result StoreError AppendBody :=
  body ← parse_json_body request;
  type_id ← get_required_string body ($"type_id");
  type_version ← get_required_u32 body ($"type_version");
  parent_turn_id ← get_optional_u64 body ($"parent_turn_id");
  payload_json ← ok_or (InvalidInput ($"missing required field: data or payload"))
    (match json_get body ($"data") with
     | Some data => Some data
     | None => json_get body ($"payload")
     end);
  payload_bytes ← encode_http_payload registry payload_json type_id type_version;
  Ok (mkAppendBody type_id type_version (default 0 parent_turn_id) payload_bytes).

Definition append_handler (context_id : rstr) (now : N) (request : Request) : handler Response :=
  context_id ← parse_id ($"context_id") context_id;
  registry ← inspect gw_registry;
  body ← attempt (append_body request registry);
  let payload_bytes := ab_payload body in
  let hash := blake3 payload_bytes in
  appended ← on_store (append_turn context_id (ab_parent_turn_id body) (ab_type_id body)
                         (ab_type_version body) 1 0 (wrap32 (len payload_bytes)) hash
                         payload_bytes now);
  let '(record, metadata) := appended in
  _ ← on_server (emit (TurnAppended (show_N context_id) (show_N (tr_turn_id record))
                         (show_N (tr_parent_turn_id record)) (tr_depth record)
                         (Some (ab_type_id body)) (Some (ab_type_version body))));
  _ ← on_server (λ sv, foldl (λ sv event, emit event sv) sv (metadata_events context_id metadata));
  mret (json_response 201 (object [
    ($"context_id", format_id context_id U64Number);
    ($"turn_id", format_id (tr_turn_id record) U64Number);
    ($"depth", json_nat (tr_depth record));
    ($"content_hash", JString (hex_encode hash))])).

(** The rendering options of a query. *)
Definition turn_view (p : params) : TurnView :=
  let has (key value : rstr) : bool := bool_decide (p !! key = Some value) in
  mkTurnView (default ($"typed") (p !! $"view")) (default ($"inherit") (p !! $"type_hint_mode"))
    (p !! $"as_type_id") (param_u32 p ($"as_type_version"))
    (mkRenderOptions
       (if has ($"bytes_render") ($"hex") then Hex
        else if has ($"bytes_render") ($"len_only") then LenOnly else Base64)
       (if has ($"u64_format") ($"string") then U64String else U64Number)
       (if has ($"enum_render") ($"number") then EnumNumber
        else if has ($"enum_render") ($"both") then EnumBoth else EnumLabel)
       (if has ($"time_render") ($"unix_ms") then UnixMs else Iso)
       (param_flag p ($"include_unknown") false)).

(** The page of turns that a query asks for. *)
Definition turns_page (context_id before_turn_id limit : N) (s : Store)
    : result StoreError (list TurnWithMeta) :=
  if before_turn_id =? 0 then get_last s context_id limit true
  else get_before s context_id before_turn_id limit true.

(** The id from which the next, earlier page continues. *)
Definition next_before (turns : list TurnWithMeta) : option N :=
  (λ t, tr_turn_id (twm_record t)) <$> head turns.

Definition turns_json (context_id : N) (head : ContextHead) (format : U64Format)
    (registry : Registry) (out_turns : list json) (next : option N) : json :=
  object [
    ($"meta", object [
      ($"context_id", format_id context_id format);
      ($"head_turn_id", format_id (ch_head_turn_id head) format);
      ($"head_depth", json_nat (ch_head_depth head));
      ($"registry_bundle_id", json_opt JString (rg_last_bundle_id registry))]);
    ($"turns", JArray out_turns);
    ($"next_before_turn_id", json_opt (λ id, format_id id format) next)].

Definition turns_handler (context_id : rstr) (p : params) : handler Response :=
  context_id ← parse_id ($"context_id") context_id;
  let limit := default 64 (param_u32 p ($"limit")) in
  let before_turn_id := default 0 (p !! $"before_turn_id" ≫= parse_u64) in
  let view := turn_view p in
  head ← query_store (λ s, get_head s context_id);
  turns ← query_store (turns_page context_id before_turn_id limit);
  _ ← on_server (on_metrics record_get_last);
  registry ← inspect gw_registry;
  out_turns ← attempt (try_map (turn_to_json view registry) turns);
  mret (json_response 200
          (turns_json context_id head (ro_u64_format (tv_options view)) registry out_turns
             (next_before turns))).

(** ** Metrics and snapshots *)

Definition metrics_handler : handler Response :=
  snapshot ← inspect (λ g, metrics_snapshot (sv_metrics (gw_server g)) (sv_store (gw_server g))
                             (gw_registry g));
  mret (json_response 200 snapshot).

Definition errors_handler (p : params) : handler Response :=
  let limit := N.min (default 50 (p !! $"limit" ≫= parse_u64)) 256 in
  entries ← inspect (λ g, recent_errors limit (sv_metrics (gw_server g)));
  mret (json_response 200 (object [($"errors", JArray (map error_entry_to_json entries))])).

Definition fs_list_handler (turn_id : rstr) (p : params) : handler Response :=
  turn_id ← parse_id ($"turn_id") turn_id;
  listing ← query_store (λ s, fs_listing s turn_id (default [] (p !! $"path")));
  mret (json_response 200 listing).

(** [rest.join("/")]. *)
Fixpoint join_slash (l : list rstr) : rstr :=
  match l with
  | [] => []
  | [s] => s
  | s :: l => s ++ $"/" ++ join_slash l
  end.

Definition fs_file_handler (turn_id : rstr) (rest : list rstr) (p : params) : handler Response :=
  turn_id ← parse_id ($"turn_id") turn_id;
  let path := join_slash rest in
  if bool_decide (path = []) then attempt (Err (InvalidInput ($"empty file path")))
  else
    file ← query_store (λ s, Ok (get_fs_file s turn_id path));
    match file with
    | Ok (content, entry) =>
        mret (if bool_decide (p !! $"format" = Some ($"json"))
              then json_response 200 (fs_file_json turn_id path content entry)
              else mkResponse 200 [content_type (guess_content_type path);
                                   ($"X-Fs-Hash", hex_encode (te_hash entry));
                                   ($"X-Fs-Mode", show_octal (te_mode entry))] content)
    | Err (InvalidInput msg) =>
        if str_contains msg ($"directory")
        then listing ← query_store (λ s, fs_listing s turn_id path); mret (json_response 200 listing)
        else attempt (Err (InvalidInput msg))
    | Err e => attempt (Err e)
    end.

(** ** The request *)

(** The match on the method and the segments. [now] and [elapsed] are readings of the clock. *)
Definition dispatch (r : Route) (p : params) (now elapsed : N) (request : Request)
    : handler Response :=
  match r with
  | RHealth => mret (mkResponse 200 [content_type ($"text/plain")] ($"ok"))
  | RPutBundle => put_bundle_handler request
  | RGetBundle bundle_id => get_bundle_handler bundle_id request
  | RTypeVersion type_id version => type_version_handler type_id version
  | RRenderers => renderers_handler
  | RContexts => list_contexts_handler p
  | RCreate => create_handler create_context false now request
  | RFork => create_handler fork_context true now request
  | RSearch => search_handler p now elapsed
  | RContext context_id => context_handler context_id p
  | RChildren context_id => children_handler context_id p
  | RProvenance context_id => provenance_handler context_id
  | RAppend context_id => append_handler context_id now request
  | RTurns context_id => turns_handler context_id p
  | RMetrics => metrics_handler
  | RErrors => errors_handler p
  | RFsList turn_id => fs_list_handler turn_id p
  | RFsFile turn_id rest => fs_file_handler turn_id rest p
  | RUnknown => attempt (Err (NotFound ($"route")))
  end.

(** The closure that computes the result. *)
Definition respond (now elapsed : N) (request : Request) : handler Response :=
  url ← attempt (ok_or (InvalidInput ($"invalid url")) (parse_url (rq_url request)));
  let '(segments, query) := url in
  dispatch (route (rq_method request) segments) (parse_query query) now elapsed request.

Definition http : rstr := $"http".

Definition error_json (status : N) (message : rstr) : json :=
  object [($"error", object [($"code", json_nat status); ($"message", JString message)])].

(** [handle_request] for every route but the event stream. *)
Definition handle_request (now elapsed : N) (request : Request) (g : Gateway)
    : Response * Gateway :=
  match respond now elapsed request g with
  | (Ok response, g) =>
      (response, (on_server (on_metrics (record_http (rp_status response))) g).2)
  | (Err err, g) =>
      let (status, message) := map_error err in
      let path := Some (rq_url request) in
      let g := (on_server (λ sv,
        emit (ErrorOccurred now http status message path)
          (on_metrics (record_error http status message path now)
             (on_metrics (record_http status) sv))) g).2 in
      (json_response status (error_json status message), g)
  end.

End Http.

(** Instances for the witnesses: targets are split at [?], [/], [&] and [=], without escapes, and the
    text of JSON is a table of the bodies that the witnesses send. *)
Module HttpSample.

Fixpoint split_at (b : Byte.byte) (s : rstr) : list rstr :=
  match s with
  | [] => [[]]
  | c :: s =>
      match split_at b s with
      | [] => [[c]]
      | w :: ws => if bool_decide (c = b) then [] :: w :: ws else (c :: w) :: ws
      end
  end.

#[local] Instance url : ParseUrl := λ target,
  match split_at Byte.x3f target with
  | path :: query => Some (tail (split_at Byte.x2f path), default [] (head query))
  | [] => None
  end.
#[local] Instance form : FormDecode := λ query,
  omap (λ p, match split_at Byte.x3d p with [k; v] => Some (k, v) | _ => None end)
    (split_at Byte.x26 query).
#[local] Instance snapshot : MetricsSnapshot := λ _ _ _, JNull.
#[local] Instance text : IoText := λ _, $"io error".
#[local] Instance bundles : ReadBundle := λ _, Err ($"expected value").
#[local] Instance listing : ReadDir := map_to_list.

Example parse_url_example :
  parse_url ($"/v1/contexts/7/turns?limit=2&view=raw")
  = Some ([$"v1"; $"contexts"; $"7"; $"turns"], $"limit=2&view=raw").
Proof. reflexivity. Qed.

End HttpSample.
