(* ===== verification/ServerEffects.v ===== *)
(** * ServerEffects: what requests do to the shared state

    The requests that do not concern a session: the store moves only by its own operations, and the
    session tracker stays as it is. Used for the binary server and for the gateway. *)

From S2P Require Import Prelude Bytes External Protocol ClientWire BlobStore TurnStore.
From S2P Require Import TurnHistory TurnRecovery FsStore Metadata CqlIndexes Store.
From S2P Require Import StoreInvariant StoreSpec Events Sessions Server.

Open Scope N_scope.

(** ** What the parsers guarantee *)

Lemma run_cursor_ok {E A} (r : reader E A) bs a :
  run_cursor r bs = Ok a → ∃ rest, r bs = Ok (a, rest).
Proof. unfold run_cursor. destruct (r bs) as [[x rest]|]; [|done]. intros [= <-]. eauto. Qed.

Lemma rlift_ok {E A} (r : result E A) bs a rest :
  rlift r bs = Ok (a, rest) → r = Ok a ∧ rest = bs.
Proof. unfold rlift. destruct r; [|done]. by intros [= <- <-]. Qed.

Lemma parse_append_turn_fits payload flags req :
  parse_append_turn payload flags = Ok req →
  atr_context_id req < U64 ∧ atr_parent_turn_id req < U64
  ∧ utf8_valid (atr_declared_type_id req) = true ∧ len (atr_declared_type_id req) < U32
  ∧ atr_declared_type_version req < U32 ∧ atr_encoding req < U32 ∧ atr_compression req < U32
  ∧ atr_uncompressed_len req < U32 ∧ len (atr_content_hash req) = 32.
Proof.
  unfold parse_append_turn. intros [rest Hr]%run_cursor_ok. reads_inv.
  repeat match goal with
  | Hl : rlift _ _ = Ok _ |- _ => apply rlift_ok in Hl as [Hl ->]
  | Hl : ok_or _ _ = Ok _ |- _ => apply ok_or_ok, from_utf8_Some in Hl as [-> ?]
  end.
  repeat match goal with Hi : (if _ then _ else _) _ = Ok _ |- _ => clear Hi || idtac end.
  cbn in *. by split_and!; try lia.
Qed.

Lemma parse_ctx_create_fits payload id : parse_ctx_create payload = Ok id → id < U64.
Proof. unfold parse_ctx_create. intros [rest [_ ?]%read_u64_inv]%run_cursor_ok. done. Qed.

Lemma parse_attach_fs_fits payload req :
  parse_attach_fs payload = Ok req → afr_turn_id req < U64.
Proof.
  unfold parse_attach_fs. destruct (_ <? _); [done|]. intros [rest Hr]%run_cursor_ok. reads_inv.
  done.
Qed.

Section spec.
Context `{Crc32Laws} `{Blake3Laws} `{ZstdLaws} `{PreadSchedule} `{HashOrderLaws} `{Msgpack}
  `{Unicode} `{IoText}.

(** ** What a request does to the store *)

(** The store moves by its own operations, and contexts are neither lost nor reused. *)
Record store_grows (s s' : Store) : Prop := {
  sg_steps : rtc StoreInvariant.step s s';
  sg_next : ts_next_context_id (st_turn_store s) ≤ ts_next_context_id (st_turn_store s');
  sg_heads : ∀ c, is_Some (ts_heads (st_turn_store s) !! c) →
                  is_Some (ts_heads (st_turn_store s') !! c)
}.

Lemma store_grows_refl s : store_grows s s.
Proof. by split. Qed.

Lemma store_grows_trans s1 s2 s3 : store_grows s1 s2 → store_grows s2 s3 → store_grows s1 s3.
Proof. intros [] []. split; [by etrans|lia|auto]. Qed.

Lemma reachable_grows s s' : StoreInvariant.reachable s → store_grows s s' → StoreInvariant.reachable s'.
Proof.
  intros Hr [Hs _ _]. induction Hs as [|s1 s2 s3 Hs _ IH]; [done|]. apply IH.
  by eapply reachable_step.
Qed.

Lemma grows_create s base now :
  now < U64 → ts_next_context_id (st_turn_store s) + 1 < U64 →
  store_grows s (create_context base now s).2
  ∧ ∀ head, (create_context base now s).1 = Ok head →
      ch_context_id head = ts_next_context_id (st_turn_store s)
      ∧ ts_next_context_id (st_turn_store (create_context base now s).2)
        = ts_next_context_id (st_turn_store s) + 1
      ∧ is_Some (ts_heads (st_turn_store (create_context base now s).2) !! ch_context_id head).
Proof.
  intros Hnow Hn. unfold create_context, TurnStore.create_context.
  pose proof (step_create base now s Hnow) as Hstep.
  unfold create_context, TurnStore.create_context in Hstep.
  destruct (if base =? 0 then _ else _) as [[hid hd]|e]; cbn in *.
  - rewrite wrap64_small by done. split.
    + split; [by apply rtc_once|cbn; rewrite wrap64_small by done; lia|].
      intros c Hc. cbn. rewrite lookup_insert_is_Some'. by right.
    + intros head [= <-]. cbn. split_and!; [done..|]. rewrite lookup_insert_eq. eauto.
  - split; [|done]. split; [by apply rtc_once|done|done].
Qed.

Lemma grows_append s c p tid ver enc comp ulen hash payload now :
  StoreInvariant.reachable s → append_fits c hash enc tid ver comp ulen now →
  ts_next_turn_id (st_turn_store s) < U32 →
  (∀ raw, check_payload comp ulen hash payload = Ok raw → blob_fits s hash raw) →
  store_grows s (append_turn c p tid ver enc comp ulen hash payload now s).2
  ∧ ∀ record md, (append_turn c p tid ver enc comp ulen hash payload now s).1 = Ok (record, md) →
      tr_turn_id record = ts_next_turn_id (st_turn_store s).
Proof.
  intros Hr Hfit Hn Hblob. destruct (store_inv_reachable s Hr) as [[m Hok] _].
  pose proof (step_append c p tid ver enc comp ulen hash payload now s Hfit Hn Hblob) as Hstep.
  pose proof (append_turn_cases s m c p tid ver enc comp ulen hash payload now Hok Hn) as Hcase.
  destruct (check_payload comp ulen hash payload) as [raw|e].
  - destruct (parent_of c p (st_turn_store s)) as [pid|].
    + destruct Hcase as (l & Heq & _ & _ & _ & _). rewrite Heq in Hstep |- *. cbn [fst snd] in *.
      match type of Hstep with StoreInvariant.step _ (note_metadata _ _ _ _ ?s2).2 =>
        destruct (note_metadata_same c (len l) now raw s2) as (_ & Hst & _) end.
      split; [|by intros record md [= <- _]].
      split; [by apply rtc_once|rewrite Hst; cbn; lia|].
      intros c' Hc'. rewrite Hst. cbn. rewrite lookup_insert_is_Some'. by right.
    + rewrite Hcase in Hstep |- *. split; [|done]. split; [by apply rtc_once|done|done].
  - rewrite Hcase. split; [apply store_grows_refl|done].
Qed.

Lemma grows_attach s id h : id < U64 → store_grows s (attach_fs id h s).2.
Proof.
  intros Hid. pose proof (step_attach id h s Hid) as Hstep. revert Hstep. unfold attach_fs.
  destruct (get_turn _ _); [|intros; apply store_grows_refl].
  destruct (contains _ _); cbn; intros; [|apply store_grows_refl].
  split; [by apply rtc_once|done|done].
Qed.

(** ** Requests that do not touch the session *)

(** What stays when a request is handled: the sessions, and the store only grows. *)
Record quiet (sv sv' : Server) : Prop := {
  qt_store : store_grows (sv_store sv) (sv_store sv');
  qt_tracker : sv_tracker sv' = sv_tracker sv;
  qt_sids : mt_next_session_id (sv_metrics sv') = mt_next_session_id (sv_metrics sv)
}.

Lemma quiet_refl sv : quiet sv sv.
Proof. split; [apply store_grows_refl|done..]. Qed.

Lemma quiet_trans sv1 sv2 sv3 : quiet sv1 sv2 → quiet sv2 sv3 → quiet sv1 sv3.
Proof. intros [? ? ?] [? ? ?]. split; [by eapply store_grows_trans|congruence..]. Qed.

Lemma quiet_store sv s : store_grows (sv_store sv) s → quiet sv (set_store s sv).
Proof. by split. Qed.

Lemma quiet_emit e sv : quiet sv (emit e sv).
Proof. split; [apply store_grows_refl|done..]. Qed.

Lemma quiet_emits l sv : quiet sv (foldl (λ sv e, emit e sv) sv l).
Proof.
  revert sv. induction l as [|e l IH]; intros sv; [apply quiet_refl|].
  cbn. eapply quiet_trans; [apply quiet_emit|apply IH].
Qed.

Lemma quiet_metrics f sv :
  mt_next_session_id (f (sv_metrics sv)) = mt_next_session_id (sv_metrics sv) →
  quiet sv (on_metrics f sv).
Proof. split; [apply store_grows_refl|done..]. Qed.

(** The machine has room for the request: fewer than 2^32 turns and 2^64 contexts, and blobs
    and the pack of the sizes their formats allow. *)
Record roomy (sv : Server) (header : FrameHeader) (payload : bytes) (now : N) : Prop := {
  rm_now : now < U64;
  rm_turns : ts_next_turn_id (st_turn_store (sv_store sv)) < U32;
  rm_contexts : ts_next_context_id (st_turn_store (sv_store sv)) + 1 < U64;
  rm_append : ∀ req raw, parse_append_turn payload (fh_flags header) = Ok req →
    check_payload (atr_compression req) (atr_uncompressed_len req) (atr_content_hash req)
      (atr_payload_bytes req) = Ok raw →
    blob_fits (sv_store sv) (atr_content_hash req) raw;
  rm_blob : ∀ req, parse_put_blob payload = Ok req →
    blob_fits (sv_store sv) (pbr_hash req) (pbr_data req)
}.

Lemma handle_append_quiet header payload now sv :
  StoreInvariant.reachable (sv_store sv) → roomy sv header payload now →
  quiet sv (handle_append (fh_flags header) now payload sv).2.
Proof.
  intros Hr [Hnow Hn _ Hblob _]. unfold handle_append.
  destruct (parse_append_turn payload (fh_flags header)) as [req|e] eqn:Hp; [|apply quiet_refl].
  destruct (parse_append_turn_fits _ _ _ Hp) as (Hc & Hpar & Hu & Htl & Hv & He & Hcm & Hul & Hh).
  destruct (grows_append (sv_store sv) (atr_context_id req) (atr_parent_turn_id req)
    (atr_declared_type_id req) (atr_declared_type_version req) (atr_encoding req)
    (atr_compression req) (atr_uncompressed_len req) (atr_content_hash req)
    (atr_payload_bytes req) now) as [Hg Hid]; [done|by split_and!|done|eauto|].
  destruct (append_turn _ _ _ _ _ _ _ _ _ _ _) as [[[record md]|e] s]; cbn in Hg;
    [|by apply quiet_store].
  specialize (Hid record md eq_refl).
  assert (Hatt : quiet sv (match atr_fs_root_hash req with
    | Some h => let (r, store) := attach_fs (tr_turn_id record) h s in (r, set_store store (set_store s sv))
    | None => (Ok tt, set_store s sv) end).2).
  { destruct (atr_fs_root_hash req) as [h|]; [|by apply quiet_store].
    pose proof (grows_attach s (tr_turn_id record) h ltac:(lia)) as Hga.
    destruct (attach_fs (tr_turn_id record) h s) as [r s']. cbn in *.
    split; [by eapply store_grows_trans|done..]. }
  cbn [sv_store set_store].
  destruct (match atr_fs_root_hash req with Some h => _ | None => _ end) as [[[]|e] sv1]; [|done].
  cbn in *. eapply quiet_trans; [|apply quiet_emits].
  eapply quiet_trans; [|apply quiet_emit]. eapply quiet_trans; [exact Hatt|by apply quiet_metrics].
Qed.

Lemma handle_attach_quiet payload sv : quiet sv (handle_attach payload sv).2.
Proof.
  unfold handle_attach. destruct (parse_attach_fs payload) as [req|e] eqn:Hp; [|apply quiet_refl].
  pose proof (grows_attach (sv_store sv) (afr_turn_id req) (afr_fs_root_hash req)
    (parse_attach_fs_fits _ _ Hp)) as Hg.
  destruct (attach_fs _ _ _) as [[[]|e] s]; by apply quiet_store.
Qed.

Lemma handle_put_blob_quiet header payload now sv :
  roomy sv header payload now → quiet sv (handle_put_blob payload sv).2.
Proof.
  intros [_ _ _ _ Hblob]. unfold handle_put_blob.
  destruct (parse_put_blob payload) as [req|e] eqn:Hp; [|apply quiet_refl].
  case_bool_decide as Hh; cbn [negb]; [|apply quiet_refl].
  specialize (Hblob req eq_refl). rewrite <- Hh in Hblob |- *.
  pose proof (step_put_blob (pbr_data req) (sv_store sv) Hblob) as Hstep.
  destruct (put_if_absent _ _ _) as [[e|e] b]; cbn in *; apply quiet_store;
    (split; [by apply rtc_once|done|done]).
Qed.

Lemma quiet_reads payload sv :
  quiet sv (handle_get_head payload sv).2 ∧ quiet sv (handle_get_last payload sv).2
  ∧ quiet sv (handle_get_blob payload sv).2.
Proof.
  split_and!; [unfold handle_get_head|unfold handle_get_last|unfold handle_get_blob];
    repeat case_match; simplify_eq/=; try apply quiet_refl; by apply quiet_metrics.
Qed.

End spec.
