(* ===== verification/HttpSpec.v ===== *)
(** * HttpSpec: what the gateway does to the shared state

    Requests that only read change nothing but the cache of metadata and the counters; the
    others move the store and the registry by their own operations. With [HttpPayloadSpec], a turn
    that was posted is read back. *)

From S2P Require Import Prelude Bytes External BlobStore TurnStore TurnHistory TurnRecovery.
From S2P Require Import FsStore Metadata CqlIndexes Store StoreInvariant StoreSpec Events Sessions.
From S2P Require Import Server ServerEffects Json JsonCodec Registry Projection HttpPayload HttpPayloadSpec.
From S2P Require Import HttpViews Http.

Open Scope N_scope.

Section spec.
Context `{Crc32Laws} `{Blake3Laws} `{ZstdLaws} `{PreadSchedule} `{HashOrderLaws} `{Msgpack}
  `{Unicode} `{IoText} `{RelativeDates} `{Chrono} `{Rendering} `{ByteText} `{MsgpackWrite}
  `{ReadBundle} `{ParseUrl} `{FormDecode} `{JsonText} `{MetricsSnapshot}.

(** ** Effects *)

(** The store after a read: only the cache may have been filled. *)
Record store_reads (s s' : Store) : Prop := {
  sr_grows : store_grows s s';
  sr_blobs : st_blob_store s' = st_blob_store s;
  sr_turns : st_turn_store s' = st_turn_store s;
  sr_roots : st_fs_roots s' = st_fs_roots s;
  sr_indexes : st_indexes s' = st_indexes s
}.

#[export] Instance store_reads_preorder : PreOrder store_reads.
Proof.
  split.
  - intros s. split; [apply store_grows_refl|done..].
  - intros s1 s2 s3 [] []. split; [by eapply store_grows_trans|congruence..].
Qed.

Lemma reads_metadata c s : store_reads s (get_context_metadata c s).2.
Proof.
  unfold get_context_metadata.
  destruct (st_cache s !! c) as [m|] eqn:Hc; [reflexivity|]. cbn. split; [|done..].
  split; [|done|done]. apply rtc_once. pose proof (step_metadata c s) as Hs.
  unfold get_context_metadata in Hs. by rewrite Hc in Hs.
Qed.

Lemma reads_context tracker c ip il s : store_reads s (context_to_json tracker c ip il s).2.
Proof.
  unfold context_to_json. destruct (get_head s c) as [h|e]; [|reflexivity].
  pose proof (reads_metadata c s) as Hm. by destruct (get_context_metadata c s).
Qed.

Lemma reads_contexts tracker ip il ids s : store_reads s (contexts_to_json tracker ip il ids s).2.
Proof.
  revert s. induction ids as [|c ids IH]; intros s; [reflexivity|]. cbn.
  pose proof (reads_context tracker c ip il s) as Hc.
  destruct (context_to_json tracker c ip il s) as [r s1]. specialize (IH s1).
  destruct (contexts_to_json tracker ip il ids s1) as [objs s2]. cbn in *. by etrans.
Qed.

(** The registry moves by accepted and refused puts. *)
Definition registry_put (r r' : Registry) : Prop := ∃ id raw, r' = (put_bundle id raw r).2.

(** What a request may do, and what a reading request may do. *)
Record gw_grows (g g' : Gateway) : Prop := {
  gg_server : quiet (gw_server g) (gw_server g');
  gg_registry : rtc registry_put (gw_registry g) (gw_registry g')
}.
Record gw_reads (g g' : Gateway) : Prop := {
  gr_server : quiet (gw_server g) (gw_server g');
  gr_store : store_reads (sv_store (gw_server g)) (sv_store (gw_server g'));
  gr_registry : gw_registry g' = gw_registry g
}.

#[export] Instance gw_grows_preorder : PreOrder gw_grows.
Proof.
  split.
  - intros g. split; [apply quiet_refl|reflexivity].
  - intros g1 g2 g3 [] []. split; [by eapply quiet_trans|by etrans].
Qed.
#[export] Instance gw_reads_preorder : PreOrder gw_reads.
Proof.
  split.
  - intros g. split; [apply quiet_refl|reflexivity|done].
  - intros g1 g2 g3 [] []. split; [by eapply quiet_trans|by etrans|congruence].
Qed.

Lemma reads_grows g g' : gw_reads g g' → gw_grows g g'.
Proof. intros [Hq _ Hr]. split; [done|]. by rewrite Hr. Qed.

(** The composition of handlers, for any of the two relations. *)
Section compose.
Context (R : Gateway → Gateway → Prop) `{!PreOrder R}.

Definition does {A} (g : Gateway) (h : handler A) : Prop := R g (h g).2.

Lemma does_ret {A} (a : A) g : does g (mret a).
Proof. unfold does. cbn. reflexivity. Qed.

Lemma does_attempt {A} (r : result StoreError A) g : does g (attempt r).
Proof. unfold does. cbn. reflexivity. Qed.

Lemma does_bind {A B} (h : handler A) (k : A → handler B) g :
  does g h → (∀ a, (h g).1 = Ok a → does (h g).2 (k a)) → does g (h ≫= k).
Proof.
  unfold does, mbind, handler_bind. destruct (h g) as [[a|e] g1]; cbn; [|by intros].
  intros Hh Hk. etrans; [exact Hh|]. by apply Hk.
Qed.

(** A step that reads the state and leaves it as it is. *)
Lemma does_attempt_bind {A B} (r : result StoreError A) (k : A → handler B) g :
  (∀ a, r = Ok a → does g (k a)) → does g (attempt r ≫= k).
Proof. intros Hk. apply does_bind; [apply does_attempt|]. intros a Ha. by apply Hk. Qed.

Lemma does_inspect_bind {A B} (f : Gateway → A) (k : A → handler B) g :
  does g (k (f g)) → does g (inspect f ≫= k).
Proof. done. Qed.

Lemma does_query_bind {A B} (f : Store → result StoreError A) (k : A → handler B) g :
  (∀ a, f (sv_store (gw_server g)) = Ok a → does g (k a)) → does g (query_store f ≫= k).
Proof.
  intros Hk. unfold does, query_store, on_store, mbind, handler_bind.
  destruct g as [[s t b m] r]. cbn in *. destruct (f s) as [a|e]; [exact (Hk a eq_refl)|reflexivity].
Qed.

Lemma does_store_bind {A B} (f : Store → result StoreError A * Store) (k : A → handler B) g :
  does g (on_store f) →
  (∀ a g', (f (sv_store (gw_server g))).1 = Ok a → does g' (k a)) → does g (on_store f ≫= k).
Proof.
  intros Hf Hk. apply does_bind; [done|]. intros a Ha. apply Hk. unfold on_store in Ha.
  by destruct (f _).
Qed.

Lemma does_server_bind {B} (f : Server → Server) (k : unit → handler B) g :
  does g (on_server f) → (∀ g', does g' (k tt)) → does g (on_server f ≫= k).
Proof. intros Hf Hk. apply does_bind; [done|]. intros [] _. apply Hk. Qed.
End compose.

(** ** Reading requests *)

Lemma reads_on_store {A} (f : Store → result StoreError A * Store) g :
  store_reads (sv_store (gw_server g)) (f (sv_store (gw_server g))).2 →
  does gw_reads g (on_store f).
Proof.
  intros Hf. unfold does, on_store. destruct (f _) as [r s]. cbn in *.
  split; [apply quiet_store, Hf|done|done].
Qed.

Lemma reads_on_metrics f g :
  mt_next_session_id (f (sv_metrics (gw_server g))) = mt_next_session_id (sv_metrics (gw_server g)) →
  does gw_reads g (on_server (on_metrics f)).
Proof. intros Hf. split; cbn; [by apply quiet_metrics|reflexivity|done]. Qed.

Lemma reads_emits l g : does gw_reads g (on_server (λ sv, foldl (λ sv e, emit e sv) sv l)).
Proof.
  split; cbn; [apply quiet_emits| |done].
  assert (Hs : ∀ l sv, sv_store (foldl (λ sv e, emit e sv) sv l) = sv_store sv).
  { clear. induction l as [|e l IH]; intros sv; [done|]. cbn. by rewrite IH. }
  rewrite Hs. reflexivity.
Qed.

Lemma reads_emit e g : does gw_reads g (on_server (emit e)).
Proof. exact (reads_emits [e] g). Qed.

(** One step through the text of a handler. *)
Ltac handler_step :=
  lazymatch goal with
  | |- does ?R _ (mret _) => apply (does_ret R)
  | |- does ?R _ (attempt _) => apply (does_attempt R)
  | |- does ?R _ (attempt _ ≫= _) => apply (does_attempt_bind R); intros
  | |- does ?R _ (parse_id _ _ ≫= _) => apply (does_attempt_bind R); intros
  | |- does ?R _ (inspect _ ≫= _) => apply (does_inspect_bind R)
  | |- does ?R _ (query_store _ ≫= _) => apply (does_query_bind R); intros
  | |- does ?R _ (on_store _ ≫= _) => apply (does_store_bind R); [|intros]
  | |- does ?R _ (on_server _ ≫= _) => apply (does_server_bind R); [|intros]
  | |- does gw_reads _ (on_server (emit _)) => apply reads_emit
  | |- does gw_reads _ (on_server (on_metrics _)) => by apply reads_on_metrics
  | |- does _ _ (if ?b then _ else _) => destruct b
  | |- does _ _ (match ?x with _ => _ end) => destruct x
  end.

(** The routes that have only [GET]. *)
Definition is_read (r : Route) : bool :=
  match r with
  | RPutBundle | RCreate | RFork | RAppend _ => false
  | _ => true
  end.

Lemma dispatch_reads r p now elapsed request g :
  is_read r = true → does gw_reads g (dispatch r p now elapsed request).
Proof.
  intros Hr. destruct r; try done; cbn [dispatch].
  all: unfold get_bundle_handler, type_version_handler, renderers_handler, list_contexts_handler,
    search_handler, context_handler, children_handler, provenance_handler, turns_handler,
    metrics_handler, errors_handler, fs_list_handler, fs_file_handler.
  all: repeat handler_step.
  all: apply reads_on_store; cbn beta.
  - match goal with |- context [contexts_to_json ?t ?a ?b ?c ?s] =>
      pose proof (reads_contexts t a b c s); by destruct (contexts_to_json t a b c s) end.
  - apply reads_context.
  - match goal with |- context [contexts_to_json ?t ?a ?b ?c ?s] =>
      pose proof (reads_contexts t a b c s); by destruct (contexts_to_json t a b c s) end.
  - match goal with |- context [get_context_metadata ?c ?s] =>
      pose proof (reads_metadata c s); by destruct (get_context_metadata c s) end.
Qed.

(** ** Writing requests *)

(** The machine has room for the request. *)
Record http_roomy (g : Gateway) (now : N) (request : Request) : Prop := {
  hr_now : now < U64;
  hr_turns : ts_next_turn_id (st_turn_store (sv_store (gw_server g))) < U32;
  hr_contexts : ts_next_context_id (st_turn_store (sv_store (gw_server g))) + 1 < U64;
  hr_append : ∀ body, append_body request (gw_registry g) = Ok body →
    utf8_valid (ab_type_id body) = true ∧ len (ab_type_id body) < U32
    ∧ len (ab_payload body) < U32
    ∧ blob_fits (sv_store (gw_server g)) (blake3 (ab_payload body)) (ab_payload body)
}.

Lemma grows_on_store {A} (f : Store → result StoreError A * Store) g :
  store_grows (sv_store (gw_server g)) (f (sv_store (gw_server g))).2 →
  does gw_grows g (on_store f).
Proof.
  intros Hf. unfold does, on_store. destruct (f _) as [r s]. cbn in *.
  by split; [apply quiet_store|].
Qed.

Lemma does_reads_grows {A} g (h : handler A) : does gw_reads g h → does gw_grows g h.
Proof. apply reads_grows. Qed.

Lemma create_grows create required now request g :
  (∀ base s, create base now s = create_context base now s) → http_roomy g now request →
  does gw_grows g (create_handler create required now request).
Proof.
  intros Hcreate [Hnow _ Hroom _]. unfold create_handler. handler_step. handler_step.
  - apply grows_on_store. rewrite Hcreate.
    by destruct (grows_create (sv_store (gw_server g)) a now Hnow Hroom).
  - handler_step; [apply does_reads_grows; handler_step|]. handler_step.
Qed.

Lemma parse_u64_bound s n : parse_u64 s = Some n → n < U64.
Proof. apply ProjectionSpec.parse_u64_lt. Qed.

Lemma append_body_version request registry body :
  append_body request registry = Ok body → ab_type_version body < U32.
Proof.
  unfold append_body. intros Hb.
  apply bind_ok in Hb as (j & _ & Hb). apply bind_ok in Hb as (ty & _ & Hb).
  apply bind_ok in Hb as (v & Hv & Hb). apply bind_ok in Hb as (p & _ & Hb).
  apply bind_ok in Hb as (d & _ & Hb). apply bind_ok in Hb as (b & _ & [= <-]). cbn.
  unfold get_required_u32 in Hv. apply bind_ok in Hv as (w & _ & Hv).
  apply bind_ok in Hv as (n & _ & Hv). destruct (4294967295 <? n); [done|].
  injection Hv as <-. apply wrap32_lt.
Qed.

Lemma check_uncompressed ulen hash payload :
  check_payload 0 ulen hash payload = Ok payload ∨ ∃ e, check_payload 0 ulen hash payload = Err e.
Proof.
  unfold check_payload, decompress. cbn. destruct (negb _); [eauto|].
  destruct (negb _); eauto.
Qed.

Lemma append_grows context_id now request g :
  StoreInvariant.reachable (sv_store (gw_server g)) → http_roomy g now request →
  does gw_grows g (append_handler context_id now request).
Proof.
  intros Hr [Hnow Hn _ Hfit]. unfold append_handler. handler_step. handler_step. handler_step.
  rename a into c, a0 into body. destruct (Hfit body) as (Hu & Htl & Hlen & Hblob); [done|].
  handler_step.
  - apply grows_on_store.
    destruct (grows_append (sv_store (gw_server g)) c (ab_parent_turn_id body) (ab_type_id body)
      (ab_type_version body) 1 0 (wrap32 (len (ab_payload body))) (blake3 (ab_payload body))
      (ab_payload body) now) as [Hg _]; [done| |done| |done].
    + assert (Hc : c < U64).
      { eapply parse_u64_bound, ok_or_ok. match goal with Hp : ok_or _ _ = Ok c |- _ => exact Hp end. }
      split_and!; try (apply blake3_length || done); [by eapply append_body_version|apply wrap32_lt].
    + intros raw Hraw. destruct (check_uncompressed (wrap32 (len (ab_payload body)))
        (blake3 (ab_payload body)) (ab_payload body)) as [Hc|[e He]]; [|congruence].
      rewrite Hraw in Hc. by injection Hc as ->.
  - destruct a as [record md]. handler_step; [apply does_reads_grows; handler_step|].
    handler_step; [apply does_reads_grows, reads_emits|]. handler_step.
Qed.

Lemma put_bundle_grows request g : does gw_grows g (put_bundle_handler request).
Proof.
  unfold put_bundle_handler. handler_step. apply (does_bind gw_grows).
  - unfold does, on_registry. destruct (put_bundle _ _ _) as [r registry] eqn:Hp. cbn.
    split; [apply quiet_refl|]. apply rtc_once. eexists _, _. by rewrite Hp.
  - intros [] _; [|handler_step]. handler_step; [apply does_reads_grows; handler_step|handler_step].
Qed.

Lemma dispatch_grows r p now elapsed request g :
  StoreInvariant.reachable (sv_store (gw_server g)) → http_roomy g now request →
  does gw_grows g (dispatch r p now elapsed request).
Proof.
  intros Hr Hroom. destruct (is_read r) eqn:Hread; [by apply does_reads_grows, dispatch_reads|].
  destruct r; try done; cbn [dispatch].
  - apply put_bundle_grows.
  - by apply create_grows.
  - by apply create_grows.
  - by apply append_grows.
Qed.

(** ** Whole requests *)

Lemma route_read method segments :
  method ≠ Put → method ≠ Post → is_read (route method segments) = true.
Proof.
  intros Hput Hpost. unfold route. destruct method; try done;
    repeat match goal with
    | |- is_read (match ?l with _ => _ end) = true => destruct l
    | |- is_read (if ?b then _ else _) = true => destruct b
    end; done.
Qed.

Lemma finish_reads (r : result StoreError Response * Gateway) now request :
  gw_reads r.2
    (match r with
     | (Ok response, g) =>
         (response, (on_server (on_metrics (record_http (rp_status response))) g).2)
     | (Err err, g) =>
         let (status, message) := map_error err in
         let path := Some (rq_url request) in
         let g := (on_server (λ sv,
           emit (ErrorOccurred now http status message path)
             (on_metrics (record_error http status message path now)
                (on_metrics (record_http status) sv))) g).2 in
         (json_response status (error_json status message), g)
     end).2.
Proof.
  destruct r as [[response|err] g]; cbn; [by apply (reads_on_metrics (record_http _))|].
  destruct (map_error err) as [status message]. cbn. split; cbn; [|reflexivity|done].
  eapply quiet_trans; [|apply quiet_emit].
  eapply quiet_trans; [by apply (quiet_metrics (record_http status))|by apply quiet_metrics].
Qed.

Lemma handle_request_grows now elapsed request g :
  StoreInvariant.reachable (sv_store (gw_server g)) → http_roomy g now request →
  gw_grows g (handle_request now elapsed request g).2.
Proof.
  intros Hr Hroom. unfold handle_request.
  pose proof (finish_reads (respond now elapsed request g) now request) as Hf.
  assert (Hd : does gw_grows g (respond now elapsed request)).
  { unfold respond. handler_step. destruct a as [segments query]. by apply dispatch_grows. }
  etrans; [exact Hd|]. apply reads_grows. exact Hf.
Qed.

(** Requests that are neither PUT nor POST only read, whatever they ask for and whether they
    succeed or fail: the blobs, the turns with their contexts, the snapshots, the secondary
    indexes, the registry and the sessions are afterwards what they were; only the cache of
    metadata, the counters, the error log and the channels of events may change. *)
Theorem http_reads_only now elapsed request g :
  rq_method request ≠ Put → rq_method request ≠ Post →
  let g' := (handle_request now elapsed request g).2 in
  let s := sv_store (gw_server g) in
  let s' := sv_store (gw_server g') in
  st_blob_store s' = st_blob_store s ∧ st_turn_store s' = st_turn_store s
  ∧ st_fs_roots s' = st_fs_roots s ∧ st_indexes s' = st_indexes s
  ∧ gw_registry g' = gw_registry g ∧ sv_tracker (gw_server g') = sv_tracker (gw_server g).
Proof.
  intros Hput Hpost g' s s'. assert (Hr : gw_reads g g').
  { unfold g', handle_request.
    assert (Hd : does gw_reads g (respond now elapsed request)).
    { unfold respond. handler_step. destruct a as [segments query].
      by apply dispatch_reads, route_read. }
    etrans; [exact Hd|]. exact (finish_reads (respond now elapsed request g) now request). }
  destruct Hr as [Hq [] Hreg]. split_and!; try done. apply Hq.
Qed.

(** ** Paging *)

(** A client that asks for pages of [limit] turns, each before the id that the last response
    gave, until the response gives none. *)
Fixpoint crawl (fuel : nat) (context_id before_turn_id limit : N) (s : Store)
    : result StoreError (list TurnWithMeta) :=
  match fuel with
  | O => Ok []
  | S fuel =>
      page ← turns_page context_id before_turn_id limit s;
      match next_before page with
      | Some id => older ← crawl fuel context_id id limit s; Ok (older ++ page)
      | None => Ok page
      end
  end.

Lemma last_n_split {A} n (l : list A) : l = take (length l - n) l ++ last_n n l.
Proof. unfold last_n. by rewrite take_drop. Qed.

(** The crawl below a turn [r] of the history, whose earlier turns are [pre]. *)
Lemma crawl_before s m c limit fuel pre r page ts :
  data_ok s m → 0 < limit → context_history (st_turn_store s) c (pre ++ r :: page) →
  try_map (with_meta s true) pre = Ok ts → (length pre < fuel)%nat →
  crawl fuel c (tr_turn_id r) limit s = Ok ts.
Proof.
  intros Hok Hlimit. revert pre r page ts.
  induction fuel as [|fuel IH]; intros pre r page ts Hc Hts Hlen; [lia|]. cbn.
  pose proof (inv_wf _ (do_turns _ _ Hok)) as Hwf.
  assert (Hid : tr_turn_id r ≠ 0).
  { destruct Hc as (h & _ & Hl). apply history_prefix in Hl as (i & Hi & Hi0 & _).
    by destruct (wf_id _ _ (wf_turns_ok _ Hwf) _ _ Hi) as [<- _]. }
  unfold turns_page. rewrite (proj2 (N.eqb_neq _ _) Hid). unfold get_before.
  rewrite (get_before_history _ _ pre _ page _ Hwf Hc). cbn [mbind result_bind].
  rewrite (last_n_split (N.to_nat limit) pre) in Hts, Hc.
  set (pre' := take (length pre - N.to_nat limit) pre) in *.
  apply try_map_app_inv in Hts as (ts' & tp & Hts' & Htp & ->). rewrite Htp. cbn [mbind result_bind].
  destruct (last_n (N.to_nat limit) pre) as [|r' page'] eqn:Hpage.
  - injection Htp as <-. cbn. rewrite app_nil_r.
    assert (pre' = []) as Hnil.
    { unfold last_n in Hpage. apply (f_equal length) in Hpage. rewrite length_drop in Hpage.
      unfold pre'. destruct pre as [|x pre]; [done|]. exfalso. cbn [length] in Hpage. lia. }
    rewrite Hnil in Hts'. by injection Hts' as <-.
  - cbn in Htp. destruct (with_meta s true r') as [t|e] eqn:Ht; [|done]. cbn in Htp.
    destruct (try_map (with_meta s true) page') as [tp'|e]; [|done]. injection Htp as <-.
    assert (twm_record t = r') as Hrec.
    { unfold with_meta in Ht. apply bind_ok in Ht as (meta & _ & Ht).
      apply bind_ok in Ht as (p & _ & [= <-]). done. }
    cbn. rewrite Hrec.
    rewrite (IH pre' r' (page' ++ r :: page) ts'); [done| |done|].
    + by rewrite <- app_assoc in Hc.
    + unfold pre'. rewrite length_take. destruct pre as [|x pre0]; [done|]. cbn [length] in *. lia.
Qed.

(** C30. Paging over HTTP is complete: a client that starts without [before_turn_id] and follows
    [next_before_turn_id] until it is null has seen, for any positive limit, every turn of the
    context exactly once, in order, each with a payload of the hash that it records; it makes at
    most one request more than the context has turns. *)
Theorem http_paging_complete s c limit :
  store_inv s → is_Some (ts_heads (st_turn_store s) !! c) → 0 < limit →
  ∃ l ts, context_history (st_turn_store s) c l ∧ map twm_record ts = l
    ∧ Forall (λ t, ∃ p, twm_payload t = Some p ∧ blake3 p = tr_payload_hash (twm_record t)) ts
    ∧ ∀ fuel, (length l < fuel)%nat → crawl fuel c 0 limit s = Ok ts.
Proof.
  intros [[m Hok] _] Hc Hlimit. pose proof (inv_wf _ (do_turns _ _ Hok)) as Hwf.
  destruct (context_history_exists _ _ Hwf Hc) as [l Hl]. pose proof Hl as (h & Hh & Hhist).
  destruct (with_metas_ok s m true l _ Hok Hhist l) as (ts & Hts & Hrec & Hall); [done|].
  exists l, ts. split_and!; [done..| |].
  { rewrite Forall_forall in *. intros t Ht.
    assert (Hin : twm_record t ∈ l) by (rewrite <- Hrec; by apply list_elem_of_fmap_2).
    pose proof (history_elem (wf_turns_ok _ Hwf) _ _ _ Hhist Hin) as Hid.
    destruct (do_payloads _ _ Hok _ _ Hid) as [p Hp]. exists p.
    rewrite (Hall _ Ht), Hp. split; [done|]. by eapply do_hashes. }
  intros [|fuel] Hfuel; [lia|]. cbn. unfold turns_page, get_last. cbn [N.eqb].
  rewrite (get_last_history _ _ _ _ Hl). cbn [mbind result_bind].
  rewrite (last_n_split (N.to_nat limit) l) in Hts.
  apply try_map_app_inv in Hts as (ts' & tp & Hts' & Htp & ->). rewrite Htp. cbn [mbind result_bind].
  destruct tp as [|t tp]; cbn.
  - apply try_map_length in Htp. cbn in Htp. unfold last_n in Htp. rewrite length_drop in Htp.
    assert (l = []) as -> by (destruct l; [done|]; cbn [length] in *; lia).
    cbn in Hts'. injection Hts' as <-. done.
  - destruct (last_n (N.to_nat limit) l) as [|r page] eqn:Hpage; [done|].
    assert (twm_record t = r) as ->.
    { rewrite map_app in Hrec. rewrite (last_n_split (N.to_nat limit) l), Hpage in Hrec.
      apply (f_equal (drop (length ts'))) in Hrec. apply try_map_length in Hts'.
      rewrite drop_app_length' in Hrec by by rewrite length_map.
      rewrite drop_app_length' in Hrec by done. by injection Hrec. }
    rewrite (crawl_before s m c limit fuel (take (length l - N.to_nat limit) l) r page ts');
      [done..| |done|].
    + rewrite <- Hpage, <- last_n_split. done.
    + rewrite length_take. destruct l as [|x l]; [by unfold last_n in Hpage|].
      cbn [length] in *. lia.
Qed.

(** ** Posting a turn and reading it *)

Lemma handler_bind_ok {A B} (h : handler A) (k : A → handler B) g a g' :
  h g = (Ok a, g') → (h ≫= k) g = k a g'.
Proof. unfold mbind, handler_bind. by intros ->. Qed.

Lemma query_same {A} (f : Store → result StoreError A) g :
  query_store f g = (f (sv_store (gw_server g)), g).
Proof. by destruct g as [[s t b m] r]. Qed.

Lemma get_set_key k k' v o :
  json_get (set_key k v (JObject o)) k' = if bool_decide (k' = k) then Some v else obj_get k' o.
Proof. apply obj_get_insert. Qed.

Lemma turns_handler_ok ctx c p g head page out :
  parse_u64 ctx = Some c → get_head (sv_store (gw_server g)) c = Ok head →
  turns_page c (default 0 (p !! $"before_turn_id" ≫= parse_u64)) (default 64 (param_u32 p ($"limit")))
    (sv_store (gw_server g)) = Ok page →
  try_map (turn_to_json (turn_view p) (gw_registry g)) page = Ok out →
  (turns_handler ctx p g).1
  = Ok (json_response 200 (turns_json c head (ro_u64_format (tv_options (turn_view p)))
                             (gw_registry g) out (next_before page))).
Proof.
  intros Hctx Hhead Hpage Hout. unfold turns_handler.
  rewrite (handler_bind_ok _ _ g c g) by (unfold parse_id, attempt; by rewrite Hctx).
  rewrite (handler_bind_ok _ _ g head g) by (by rewrite query_same, Hhead).
  rewrite (handler_bind_ok _ _ g page g) by (by rewrite query_same, Hpage).
  rewrite (handler_bind_ok _ _ _ tt (on_server (on_metrics record_get_last) g).2) by done.
  rewrite (handler_bind_ok _ _ _ (gw_registry g) (on_server (on_metrics record_get_last) g).2) by done.
  rewrite (handler_bind_ok _ _ _ out (on_server (on_metrics record_get_last) g).2); [done|].
  unfold attempt. by rewrite Hout.
Qed.

Lemma append_handler_ok ctx c now request g body record md s' :
  parse_u64 ctx = Some c → append_body request (gw_registry g) = Ok body →
  append_turn c (ab_parent_turn_id body) (ab_type_id body) (ab_type_version body) 1 0
    (wrap32 (len (ab_payload body))) (blake3 (ab_payload body)) (ab_payload body) now
    (sv_store (gw_server g)) = (Ok (record, md), s') →
  ∃ created g', append_handler ctx now request g = (Ok (json_response 201 created), g')
    ∧ json_get created ($"turn_id") = Some (json_nat (tr_turn_id record))
    ∧ sv_store (gw_server g') = s' ∧ gw_registry g' = gw_registry g.
Proof.
  intros Hctx Hbody Happ. unfold append_handler.
  rewrite (handler_bind_ok _ _ g c g) by (unfold parse_id, attempt; by rewrite Hctx).
  rewrite (handler_bind_ok _ _ g (gw_registry g) g) by done.
  rewrite (handler_bind_ok _ _ g body g) by (unfold attempt; by rewrite Hbody). cbv zeta.
  rewrite (handler_bind_ok _ _ g (record, md) (mkGateway (set_store s' (gw_server g)) (gw_registry g)))
    by (unfold on_store; by rewrite Happ).
  set (g1 := mkGateway _ _). cbv beta iota.
  rewrite (handler_bind_ok (on_server _) _ g1 tt _ eq_refl).
  rewrite (handler_bind_ok (on_server _) _ _ tt _ eq_refl).
  eexists _, _. split; [done|]. split; [by vm_compute|].
  match goal with |- context [foldl ?f ?sv ?l] => set (events := l); set (sv1 := sv) end.
  cbn. split; [|done]. assert (Hs : ∀ l sv, sv_store (foldl (λ sv e, emit e sv) sv l) = sv_store sv).
  { clear. induction l as [|e l IH]; intros sv; [done|]. cbn. by rewrite IH. }
  by rewrite Hs.
Qed.

Lemma handle_request_ok now elapsed request g segments query response g' :
  parse_url (rq_url request) = Some (segments, query) →
  dispatch (route (rq_method request) segments) (parse_query query) now elapsed request g
    = (Ok response, g') →
  (handle_request now elapsed request g).1 = response
  ∧ sv_store (gw_server (handle_request now elapsed request g).2) = sv_store (gw_server g')
  ∧ gw_registry (handle_request now elapsed request g).2 = gw_registry g'.
Proof.
  intros Hurl Hd. unfold handle_request, respond.
  rewrite (handler_bind_ok _ _ g (segments, query) g) by (unfold attempt; by rewrite Hurl).
  cbv beta iota. by rewrite Hd.
Qed.
(** The stored payload is not mistaken for another one with the same hash. *)
Definition no_collision (s : Store) (payload : bytes) : Prop :=
  ∀ b, get_blob s (blake3 payload) = Ok b → b = payload.

(** The page that the second request asks for. *)
Definition latest_query : params := list_to_map [($"limit", $"1"); ($"time_render", $"unix_ms")].

Lemma latest_turn_json registry record tid version n payload desc o :
  get_type_version registry tid version = Some desc →
  project_msgpack faithful registry payload desc = Ok (mkProjectionResult (JObject o) None) →
  ∃ t, turn_to_json (turn_view latest_query) registry
         (mkTurnWithMeta record (mkTurnMeta tid version 1 0 n) (Some payload)) = Ok t
    ∧ json_get t ($"turn_id") = Some (json_nat (tr_turn_id record))
    ∧ json_get t ($"declared_type") = Some (declared_type_json tid version)
    ∧ json_get t ($"data") = Some (JObject o).
Proof.
  intros Hd Hp.
  change (turn_view latest_query) with (mkTurnView ($"typed") ($"inherit") None None faithful).
  unfold turn_to_json, decoded_type. cbn [tv_type_hint_mode tv_options twm_meta twm_record
    twm_payload tm_declared_type_id tm_declared_type_version].
  rewrite !bool_decide_false by done. cbn [mbind result_bind]. cbv beta iota.
  change (wants _ ($"typed")) with true. change (wants _ ($"raw")) with false. cbv iota.
  rewrite Hd. cbn [ok_or mbind result_bind]. rewrite Hp. cbn [mbind result_bind pr_data pr_unknown].
  eexists. split; [done|]. by vm_compute.
Qed.

Lemma turns_route method id : method = Post ∨ method = Get →
  route method [$"v1"; $"contexts"; id; $"turns"]
  = match method with Post => RAppend id | _ => RTurns id end.
Proof. by intros [->| ->]. Qed.

(** C5. A turn that is posted as JSON is what the next GET shows, for objects in the canonical form of
    [typed_obj]: their keys are fields of the registered type, no required field is missing, and each
    value has the form in which the projection renders a field of its type ([typed]). This leaves
    out negative numbers in a field of type int64, maps with a reference, labels of an enum given as
    numbers and keys the type does not know; the first two are stored and not rendered
    back ([negative_int64_lost] and [map_reference_lost] in [HttpPayloadSpec]). On a consistent
    store that has room, posting such an object of a registered type to an existing context, without
    an explicit parent and with a payload that shares its hash with no other stored blob, is answered
    by 201 with the id of the new turn; a request for the latest turn of the context
    ([latest_query]: [limit=1], [time_render=unix_ms], all else by default) is then answered by 200 with a page of
    exactly that turn: the same id, the declared type, and the posted object under [data]. *)
Theorem http_post_then_get `{!MsgpackWriteLaws} `{!ByteTextLaws} g c post get now elapsed now' elapsed'
    query body tid version desc o query' :
  store_inv (sv_store (gw_server g)) → http_roomy g now post →
  is_Some (ts_heads (st_turn_store (sv_store (gw_server g))) !! c) → c < U64 →
  rq_method post = Post →
  parse_url (rq_url post) = Some ([$"v1"; $"contexts"; show_N c; $"turns"], query) →
  parse_json_body post = Ok body →
  json_get body ($"type_id") = Some (JString tid) →
  json_get body ($"type_version") = Some (json_nat version) → version < U32 →
  json_get body ($"parent_turn_id") = None → json_get body ($"data") = Some (JObject o) →
  get_type_version (gw_registry g) tid version = Some desc → typed_obj (gw_registry g) desc o →
  (∀ value, encode_object_with_descriptor (gw_registry g) o desc = Ok value →
     msgpack_wf value ∧ no_collision (sv_store (gw_server g)) (write_value value)) →
  rq_method get = Get →
  parse_url (rq_url get) = Some ([$"v1"; $"contexts"; show_N c; $"turns"], query') →
  parse_query query' = latest_query →
  let '(created, g1) := handle_request now elapsed post g in
  let '(shown, _) := handle_request now' elapsed' get g1 in
  ∃ id j1 j2 t,
    created = json_response 201 j1 ∧ json_get j1 ($"turn_id") = Some (json_nat id)
    ∧ shown = json_response 200 j2 ∧ json_get j2 ($"turns") = Some (JArray [t])
    ∧ json_get t ($"turn_id") = Some (json_nat id)
    ∧ json_get t ($"declared_type") = Some (declared_type_json tid version)
    ∧ json_get t ($"data") = Some (JObject o).
Proof.
  intros [[m Hok] _] [_ Hn _ Hroom] [h Hh] Hc Hm1 Hurl1 Hbody Htid Hver Hv32 Hpar Hdata Hd Ho Hwf
    Hm2 Hurl2 Hq2.
  destruct (encode_round (gw_registry g) tid version desc o Hd Ho) as (value & Henc & Hpay & Hproj).
  destruct (Hwf value Henc) as [Hval Hcoll]. specialize (Hproj Hval).
  set (ab := mkAppendBody tid version 0 (write_value value)).
  assert (Hab : append_body post (gw_registry g) = Ok ab).
  { unfold append_body. rewrite Hbody. cbn [mbind result_bind].
    unfold get_required_string, get_required_u32, get_optional_u64.
    rewrite Htid, Hver, Hpar. cbn [mbind option_bind result_bind ok_or as_str json_nat parse_json_u64].
    unfold json_nat. cbn [number_as_u64 as_u64 number_from_u64 ok_or mbind result_bind].
    replace (4294967295 <? version) with false by (symmetry; apply N.ltb_ge; lia).
    cbn [mbind result_bind]. rewrite Hdata. cbn [ok_or mbind result_bind].
    rewrite wrap32_small by done. by rewrite Hpay. }
  destruct (Hroom ab Hab) as (_ & _ & Hlen & Hblob). cbn [ab_payload ab] in Hlen, Hblob.
  assert (Hcheck : check_payload 0 (wrap32 (len (ab_payload ab))) (blake3 (ab_payload ab))
                     (ab_payload ab) = Ok (ab_payload ab)).
  { unfold check_payload, decompress. cbn. rewrite wrap32_small by done.
    rewrite N.eqb_refl. cbn. by rewrite bool_decide_true. }
  destruct (append_then_read (sv_store (gw_server g)) m c 0 tid version 1 0
    (wrap32 (len (ab_payload ab))) (blake3 (ab_payload ab)) (ab_payload ab) now (ab_payload ab)
    (ch_head_turn_id h) Hok Hn Hcheck Hblob) as (record & md & s' & Happ & _ & _ & [h' Hh'] & Hpages).
  { unfold parent_of. cbn. by rewrite Hh. }
  assert (Hctx : parse_u64 (show_N c) = Some c) by (by apply parse_uint_show).
  destruct (append_handler_ok (show_N c) c now post g ab record md s' Hctx Hab Happ)
    as (j1 & g' & Hpost & Hid & Hs' & Hreg').
  destruct (handle_request_ok now elapsed post g _ _ (json_response 201 j1) g' Hurl1) as (Hr1 & Hst & Hrg).
  { rewrite turns_route, Hm1 by by left. exact Hpost. }
  destruct (handle_request now elapsed post g) as [created g1]. cbn [fst snd] in *.
  destruct (Hpages 0) as (ts & Hlast & Hts & _).
  assert (ts = []) as -> by (destruct ts; [done|cbn in Hts; lia]).
  assert (Hsame : stored_under (sv_store (gw_server g)) (blake3 (ab_payload ab)) (ab_payload ab)
                  = ab_payload ab).
  { unfold stored_under. destruct (get_blob _ _) as [b|e] eqn:Hb; [by apply Hcoll|done]. }
  rewrite Hsame in Hlast. cbn [app] in Hlast.
  destruct (latest_turn_json (gw_registry g) record tid version (wrap32 (len (ab_payload ab)))
    (ab_payload ab) desc o Hd Hproj) as (t & Ht & Htid' & Hty & Hdat).
  pose proof (turns_handler_ok (show_N c) c latest_query g1 h'
    [mkTurnWithMeta record (mkTurnMeta tid version 1 0 (wrap32 (len (ab_payload ab))))
       (Some (ab_payload ab))] [t] Hctx) as Hturns.
  rewrite Hst, Hs', Hrg, Hreg' in Hturns.
  specialize (Hturns ltac:(unfold get_head, TurnStore.get_head; by rewrite Hh') Hlast
                ltac:(cbn [try_map]; by rewrite Ht)).
  destruct (turns_handler (show_N c) latest_query g1) as [r2 g2] eqn:Hget. cbn in Hturns. subst r2.
  match type of Hget with _ = (Ok ?r, _) =>
    destruct (handle_request_ok now' elapsed' get g1 _ _ r g2 Hurl2) as (Hr2 & _ & _) end.
  { rewrite turns_route, Hm2, Hq2 by by right. exact Hget. }
  destruct (handle_request now' elapsed' get g1) as [shown g3]. cbn in Hr2.
  exists (tr_turn_id record), j1. eexists _, t. by split_and!.
Qed.
(** ** The answers to an append *)









End spec.

(** A note is posted into an empty context, and read. *)
Module HttpWitness.

#[local] Existing Instances Sample.crc Sample.crc_laws Sample.blake Sample.blake_laws
  Sample.zstd Sample.zstd_laws Sample.pread Sample.order Sample.order_laws
  Sample.unicode Sample.relative_dates Sample.chrono HttpSample.url HttpSample.form
  HttpSample.snapshot HttpSample.text HttpSample.bundles HttpPayloadWitness.msgpack
  HttpPayloadWitness.rendering HttpPayloadWitness.byte_text HttpPayloadWitness.byte_text_laws
  HttpPayloadWitness.msgpack_write HttpPayloadWitness.msgpack_write_laws.

Definition body : json :=
  object [($"type_id", JString ($"Note")); ($"type_version", json_nat 1);
          ($"data", JObject HttpPayloadWitness.note1)].
(** The same note with the explicit parent 1. *)
Definition reply_body : json :=
  object [($"type_id", JString ($"Note")); ($"type_version", json_nat 1);
          ($"parent_turn_id", json_nat 1); ($"data", JObject HttpPayloadWitness.note1)].
#[local] Instance json_text : JsonText := {|
  json_parse bs := if decide (bs = $"note") then Ok body
                   else if decide (bs = $"reply") then Ok reply_body else Err ($"json");
  json_text _ := [] |}.

Definition s0 : Store := StoreWitness.s0.
Definition s1 : Store := (create_context 0 100 s0).2.
Definition g1 : Gateway :=
  mkGateway (mkServer s1 tracker_new bus_new metrics_new) HttpPayloadWitness.registry.
Definition post : Request := mkRequest Post ($"/v1/contexts/1/turns") [] ($"note").
Definition latest : Request :=
  mkRequest Get ($"/v1/contexts/1/turns?limit=1&time_render=unix_ms") [] [].

(** A context that does not exist is an error only for a body without an explicit parent. *)
Definition status_and_head (text : rstr) : N * option ContextHead :=
  let g2 := (handle_request 101 0 post g1).2 in
  let '(response, g3) :=
    handle_request 102 0 (mkRequest Post ($"/v1/contexts/9/turns") [] text) g2 in
  (rp_status response, ts_heads (st_turn_store (sv_store (gw_server g3))) !! 9).

Example explicit_parent_creates_context :
  status_and_head ($"note") = (404, None)
  ∧ (status_and_head ($"reply")).1 = 201 ∧ ch_head_turn_id <$> (status_and_head ($"reply")).2 = Some 2.
Proof. vm_compute. split_and!; reflexivity. Qed.

Lemma inv_s1 : store_inv s1.
Proof.
  apply store_inv_reachable, (reachable_step s0).
  - apply (reachable_empty []). vm_compute; reflexivity.
  - exact (step_create 0 100 s0 eq_refl).
Qed.

Definition ab1 : AppendBody :=
  match append_body post (gw_registry g1) with
  | Ok b => b
  | Err _ => mkAppendBody [] 0 0 []
  end.

Lemma roomy_g1 : http_roomy g1 101 post.
Proof.
  split; [vm_compute; reflexivity..|]. intros b Hb.
  assert (b = ab1) as ->.
  { unfold ab1. rewrite Hb. reflexivity. }
  split_and!; [vm_compute; reflexivity..|].
  split; [split; vm_compute; reflexivity|]. vm_compute; reflexivity.
Qed.

Lemma latest_query_parsed : parse_query ($"limit=1&time_render=unix_ms") = latest_query.
Proof.
  unfold parse_query, latest_query.
  replace (form_pairs _) with [($"limit", $"1"); ($"time_render", $"unix_ms")]
    by (vm_compute; reflexivity).
  cbn [foldl list_to_map foldr fst snd]. by apply insert_insert_ne.
Qed.

Lemma http_post_then_get_witness :
  let '(created, g2) := handle_request 101 0 post g1 in
  let '(shown, _) := handle_request 102 0 latest g2 in
  ∃ id j1 j2 t,
    created = json_response 201 j1 ∧ json_get j1 ($"turn_id") = Some (json_nat id)
    ∧ shown = json_response 200 j2 ∧ json_get j2 ($"turns") = Some (JArray [t])
    ∧ json_get t ($"turn_id") = Some (json_nat id)
    ∧ json_get t ($"declared_type") = Some (declared_type_json ($"Note") 1)
    ∧ json_get t ($"data") = Some (JObject HttpPayloadWitness.note1).
Proof.
  pose proof (http_post_then_get g1 1 post latest 101 0 102 0 [] body ($"Note") 1
    HttpPayloadWitness.note HttpPayloadWitness.note1 ($"limit=1&time_render=unix_ms")) as Hthm.
  specialize (Hthm inv_s1). specialize (Hthm roomy_g1). apply Hthm.
  - eexists; vm_compute; reflexivity.
  - vm_compute; reflexivity.
  - reflexivity.
  - vm_compute; reflexivity.
  - vm_compute; reflexivity.
  - vm_compute; reflexivity.
  - vm_compute; reflexivity.
  - vm_compute; reflexivity.
  - vm_compute; reflexivity.
  - vm_compute; reflexivity.
  - vm_compute; reflexivity.
  - exact HttpPayloadWitness.typed_note1.
  - intros value Hv. vm_compute in Hv. injection Hv as <-. split.
    + vm_compute. clear. intuition congruence.
    + intros b Hb. exfalso. vm_compute in Hb. discriminate Hb.
  - reflexivity.
  - vm_compute; reflexivity.
  - exact latest_query_parsed.
Defined.


Lemma http_paging_complete_witness :
  ∃ ts, map twm_record ts = [] ∧ ∀ fuel, (0 < fuel)%nat → crawl fuel 1 0 3 s1 = Ok ts.
Proof.
  destruct (http_paging_complete s1 1 3 inv_s1) as (l & ts & Hl & Hts & _ & Hc);
    [eexists; vm_compute; reflexivity|vm_compute; reflexivity|].
  destruct Hl as (h & Hh & Hl). vm_compute in Hh. injection Hh as <-. cbn in Hl.
  assert (l = []) as -> by (inversion Hl; [reflexivity|exfalso; auto]).
  exists ts. split; [exact Hts|exact Hc].
Defined.

Lemma http_reads_only_witness :
  st_turn_store (sv_store (gw_server (handle_request 102 0 latest g1).2)) = st_turn_store s1.
Proof.
  destruct (http_reads_only 102 0 latest g1) as (_ & Ht & _); [discriminate..|]. exact Ht.
Defined.

End HttpWitness.
