(* ===== verification/ServerSpec.v ===== *)
(** * ServerSpec: the server as a whole

    All interleavings of the requests of any number of connections, and of the gateway, keep the
    invariants of the store, and the session tracker and the registry are consistent with them. *)

From S2P Require Import Prelude Bytes External Protocol ClientWire BlobStore TurnStore.
From S2P Require Import TurnHistory TurnRecovery FsStore Metadata CqlIndexes Store.
From S2P Require Import StoreInvariant StoreSpec Json JsonCodec Registry RegistrySpec Projection.
From S2P Require Import HttpPayload HttpPayloadSpec Http HttpSpec Events Sessions Server ServerEffects.

Open Scope N_scope.

Section spec.
Context `{Crc32Laws} `{Blake3Laws} `{ZstdLaws} `{PreadSchedule} `{HashOrderLaws} `{Msgpack}
  `{Unicode} `{IoText} `{RelativeDates} `{Chrono} `{Rendering} `{ByteText} `{MsgpackWrite}
  `{ReadBundle} `{ReadDir} `{ParseUrl} `{FormDecode} `{JsonText} `{MetricsSnapshot}.

(** ** Connections *)

Record System : Type := mkSystem {
  sys_server : Server;
  sys_open : gmap N Conn;
  sys_registry : Registry
}.

Definition set_bus (bus : EventBus) (sv : Server) : Server :=
  mkServer (sv_store sv) (sv_tracker sv) bus (sv_metrics sv).

(** The threads of the process: connections come and go and send requests in any order,
    subscribers of events come and go, and the gateway handles HTTP requests. *)
Inductive sys_step : System → System → Prop :=
| sys_connect peer now sys :
    now < U64 → mt_next_session_id (sv_metrics (sys_server sys)) + 1 < U64 →
    sys_step sys
      (let (conn, sv) := connect peer now (sys_server sys) in
       mkSystem sv (<[cn_session_id conn := conn]> (sys_open sys)) (sys_registry sys))
| sys_message sid conn header payload now sys :
    sys_open sys !! sid = Some conn → roomy (sys_server sys) header payload now →
    sys_step sys
      (match handle_message header payload now conn (sys_server sys) with
       | (Ok _, conn, sv) => mkSystem sv (<[sid := conn]> (sys_open sys)) (sys_registry sys)
       | (Err _, conn, sv) =>
           mkSystem (failed conn sv) (delete sid (sys_open sys)) (sys_registry sys)
       end)
| sys_disconnect sid conn sys :
    sys_open sys !! sid = Some conn →
    sys_step sys
      (mkSystem (disconnected conn (sys_server sys)) (delete sid (sys_open sys)) (sys_registry sys))
| sys_bus a sys :
    sys_step sys (mkSystem (set_bus (perform a (sv_bus (sys_server sys))) (sys_server sys))
                    (sys_open sys) (sys_registry sys))
| sys_http now elapsed request sys :
    http_roomy (mkGateway (sys_server sys) (sys_registry sys)) now request →
    sys_step sys
      (let g := (handle_request now elapsed request
                   (mkGateway (sys_server sys) (sys_registry sys))).2 in
       mkSystem (gw_server g) (sys_open sys) (gw_registry g)).

(** A server that was started on a store and on a directory of bundles. *)
Inductive sys_reachable : System → Prop :=
| sys_start s dir registry : StoreInvariant.reachable s → Registry.open dir = Ok registry →
    sys_reachable (mkSystem (mkServer s tracker_new bus_new metrics_new) ∅ registry)
| sys_next sys sys' : sys_reachable sys → sys_step sys sys' → sys_reachable sys'.

(** What connects the tracker to the store and to the connections. *)
Record server_inv (sv : Server) : Prop := {
  vi_store : StoreInvariant.reachable (sv_store sv);
  vi_tracker : tracker_ok (sv_tracker sv);
  vi_sessions : ∀ sid, is_Some (st_sessions (sv_tracker sv) !! sid) →
    sid < mt_next_session_id (sv_metrics sv);
  vi_contexts : ∀ c, is_Some (st_context_to_session (sv_tracker sv) !! c) →
    c < ts_next_context_id (st_turn_store (sv_store sv))
    ∧ is_Some (ts_heads (st_turn_store (sv_store sv)) !! c)
}.

Definition conn_ok (sv : Server) (sid : N) (conn : Conn) : Prop :=
  cn_session_id conn = sid ∧ sid < mt_next_session_id (sv_metrics sv)
  ∧ (cn_tag_received conn = true ↔ is_Some (st_sessions (sv_tracker sv) !! sid)).

Record sys_inv (sys : System) : Prop := {
  yi_server : server_inv (sys_server sys);
  yi_conns : ∀ sid conn, sys_open sys !! sid = Some conn → conn_ok (sys_server sys) sid conn;
  yi_registry : registry_reachable (sys_registry sys)
}.

(** A change of the server in the name of one session: the others are not affected. *)
Record session_change (sid : N) (sv sv' : Server) : Prop := {
  sc_inv : server_inv sv';
  sc_sids : mt_next_session_id (sv_metrics sv') = mt_next_session_id (sv_metrics sv);
  sc_others : ∀ sid', sid' ≠ sid →
    is_Some (st_sessions (sv_tracker sv') !! sid') ↔ is_Some (st_sessions (sv_tracker sv) !! sid')
}.

Lemma session_change_refl sid sv : server_inv sv → session_change sid sv sv.
Proof. by split. Qed.

Lemma session_change_trans sid sv1 sv2 sv3 :
  session_change sid sv1 sv2 → session_change sid sv2 sv3 → session_change sid sv1 sv3.
Proof.
  intros [? ? Ha] [? ? Hb]. split; [done|congruence|]. intros sid' Hne. by rewrite Hb, Ha.
Qed.

Lemma quiet_inv sv sv' : server_inv sv → quiet sv sv' → server_inv sv'.
Proof.
  intros [Hs Ht Hsid Hc] [Hg Htr Hm]. split; rewrite ?Htr, ?Hm; try done.
  - by eapply reachable_grows.
  - intros c Hlive. destruct (Hc c Hlive). pose proof (sg_next _ _ Hg).
    split; [lia|by apply (sg_heads _ _ Hg)].
Qed.

Lemma quiet_change sid sv sv' : server_inv sv → quiet sv sv' → session_change sid sv sv'.
Proof.
  intros Hinv Hq. split; [by eapply quiet_inv|apply Hq|]. intros sid' _. by rewrite (qt_tracker _ _ Hq).
Qed.

Lemma register_change sid tag peer now sv :
  server_inv sv → sid < mt_next_session_id (sv_metrics sv) →
  st_sessions (sv_tracker sv) !! sid = None →
  session_change sid sv (on_tracker (register sid tag peer now) sv).
Proof.
  intros [Hs Ht Hsid Hc] Hlt Hnone. split; [|done|].
  - split; cbn; try done; [by apply tracker_ok_register|].
    intros sid' [->|Hx]%lookup_insert_is_Some'; [done|auto].
  - intros sid' Hne. cbn. by rewrite lookup_insert_ne by done.
Qed.

Lemma add_context_change sid c sv :
  server_inv sv → is_Some (st_sessions (sv_tracker sv) !! sid) →
  st_context_to_session (sv_tracker sv) !! c = None →
  c < ts_next_context_id (st_turn_store (sv_store sv)) →
  is_Some (ts_heads (st_turn_store (sv_store sv)) !! c) →
  session_change sid sv (on_tracker (Sessions.add_context sid c) sv).
Proof.
  intros [Hs Ht Hsid Hc] Hreg Hnew Hlt Hhead. split; [|done|].
  - split; cbn; try done; [by apply tracker_ok_add| |].
    + intros sid' Hx. apply Hsid. destruct (decide (sid = sid')) as [<-|Hne]; [done|].
      by rewrite lookup_alter_ne in Hx.
    + intros c' [->|Hx]%lookup_insert_is_Some'; [done|auto].
  - intros sid' Hne. cbn. by rewrite lookup_alter_ne by done.
Qed.

(** What an arm of the match leaves: the connection is still consistent with the tracker. *)
Definition arm_ok (sid : N) (sv : Server) (r : reply * Conn * Server) : Prop :=
  let '(_, conn', sv') := r in session_change sid sv sv' ∧ conn_ok sv' sid conn'.

Lemma conn_ok_same sid conn sv sv' :
  sv_tracker sv' = sv_tracker sv →
  mt_next_session_id (sv_metrics sv') = mt_next_session_id (sv_metrics sv) →
  conn_ok sv sid conn → conn_ok sv' sid conn.
Proof. unfold conn_ok. by intros -> ->. Qed.

Lemma registered_ok sid conn tag sv peer now tag' :
  server_inv sv → conn_ok sv sid conn → cn_tag_received conn = false →
  let sv' := on_tracker (register (cn_session_id conn) tag peer now) sv in
  session_change sid sv sv' ∧ conn_ok sv' sid (mkConn (cn_session_id conn) (cn_peer_addr conn) true tag').
Proof.
  intros Hinv (<- & Hlt & Htag) Hf sv'.
  assert (Hnone : st_sessions (sv_tracker sv) !! cn_session_id conn = None).
  { apply eq_None_not_Some. intros Hx. apply Htag in Hx. congruence. }
  split; [by apply register_change|]. split_and!; [done..|]. cbn. rewrite lookup_insert_eq. by split; eauto.
Qed.

Lemma ensure_registered_ok sid now conn sv :
  server_inv sv → conn_ok sv sid conn →
  let '(conn', sv') := ensure_registered now conn sv in
  session_change sid sv sv' ∧ conn_ok sv' sid conn' ∧ cn_tag_received conn' = true
  ∧ sv_store sv' = sv_store sv.
Proof.
  intros Hinv Hc. unfold ensure_registered. destruct (cn_tag_received conn) eqn:Ht.
  - split; [by apply session_change_refl|done].
  - destruct (registered_ok sid conn [] sv (Some (cn_peer_addr conn)) now (cn_client_tag conn)
      Hinv Hc Ht). done.
Qed.

Lemma handle_hello_ok sid now payload conn sv :
  server_inv sv → conn_ok sv sid conn → arm_ok sid sv (handle_hello now payload conn sv).
Proof.
  intros Hinv Hc. unfold handle_hello, arm_ok.
  destruct (parse_hello payload) as [hello|e]; [|split; [by apply session_change_refl|done]].
  destruct (cn_tag_received conn) eqn:Ht; [split; [by apply session_change_refl|done]|].
  destruct (registered_ok sid conn (hr_client_tag hello) sv (Some (cn_peer_addr conn)) now
    (hr_client_tag hello) Hinv Hc Ht) as [Hch Hco].
  split; [|by eapply conn_ok_same; [| |exact Hco]].
  eapply session_change_trans; [exact Hch|]. apply quiet_change; [apply Hch|apply quiet_emit].
Qed.

Lemma handle_create_ok parse create ty sid header now payload conn sv :
  (∀ base, create base now (sv_store sv) = create_context base now (sv_store sv)) →
  server_inv sv → conn_ok sv sid conn → roomy sv header payload now →
  arm_ok sid sv (handle_create parse create ty now payload conn sv).
Proof.
  intros Hcreate Hinv Hc [Hnow _ Hroom _ _]. unfold handle_create.
  pose proof (ensure_registered_ok sid now conn sv Hinv Hc) as Hreg.
  destruct (ensure_registered now conn sv) as [conn1 sv1].
  destruct Hreg as (Hch1 & Hco1 & Htag & Hst). cbn zeta.
  destruct (parse payload) as [base|e]; [|by split].
  rewrite Hst, Hcreate. destruct (grows_create (sv_store sv) base now Hnow Hroom) as [Hg Hnew].
  destruct (create_context base now (sv_store sv)) as [[head|e] s]; cbn [fst snd] in *.
  - destruct (Hnew head eq_refl) as (Hid & Hnext & Hhead).
    assert (Hq : quiet sv1 (set_store s sv1)) by (apply quiet_store; by rewrite Hst).
    pose proof (quiet_change sid _ _ (sc_inv _ _ _ Hch1) Hq) as Hch2.
    destruct Hco1 as (Hsid & Hlt & Hreg). rewrite Hsid.
    assert (Hch3 : session_change sid (set_store s sv1)
      (on_tracker (Sessions.add_context sid (ch_context_id head)) (set_store s sv1))).
    { apply add_context_change; cbn; [apply Hch2|by apply Hreg| |lia|done].
      apply eq_None_not_Some. intros Hx. destruct (vi_contexts _ (sc_inv _ _ _ Hch1) _ Hx) as [Hl _].
      rewrite Hst in Hl. lia. }
    split.
    + eapply session_change_trans; [exact Hch1|]. eapply session_change_trans; [exact Hch2|].
      eapply session_change_trans; [exact Hch3|]. apply quiet_change; [apply Hch3|apply quiet_emit].
    + split_and!; [done..|]. cbn. rewrite Htag. split; [|done]. intros _.
      apply Hreg in Htag as [x Hx]. rewrite lookup_alter_eq, Hx. by eexists.
  - assert (Hq : quiet sv1 (set_store s sv1)) by (apply quiet_store; by rewrite Hst).
    split; [|by eapply conn_ok_same; [| |exact Hco1]].
    eapply session_change_trans; [exact Hch1|]. apply quiet_change; [apply Hch1|done].
Qed.

Lemma shared_ok sid conn sv (x : reply * Server) :
  server_inv sv → conn_ok sv sid conn → quiet sv x.2 →
  arm_ok sid sv (let (r, sv') := x in (r, conn, sv')).
Proof.
  intros Hinv Hc Hq. destruct x as [r sv']. cbn in Hq. split; [by apply quiet_change|].
  eapply conn_ok_same; [apply Hq|apply Hq|done].
Qed.

Lemma dispatch_ok sid header payload now conn sv :
  server_inv sv → conn_ok sv sid conn → roomy sv header payload now →
  arm_ok sid sv (dispatch header payload now conn sv).
Proof.
  intros Hinv Hc Hroom. unfold dispatch. destruct (quiet_reads payload sv) as (Hq1 & Hq2 & Hq3).
  repeat match goal with |- arm_ok _ _ (if ?b then _ else _) => destruct b end;
    try by apply shared_ok.
  - by eapply handle_hello_ok.
  - by eapply handle_create_ok.
  - by eapply handle_create_ok.
  - apply shared_ok; [done..|]. by apply handle_append_quiet; [apply Hinv|].
  - apply shared_ok; [done..|]. apply handle_attach_quiet.
  - apply shared_ok; [done..|]. by eapply handle_put_blob_quiet.
  - split; [by apply session_change_refl|done].
Qed.

Lemma handle_message_ok sid header payload now conn sv :
  server_inv sv → conn_ok sv sid conn → roomy sv header payload now →
  let '(_, conn', sv') := handle_message header payload now conn sv in
  session_change sid sv sv' ∧ conn_ok sv' sid conn'.
Proof.
  intros Hinv Hc Hroom. unfold handle_message.
  set (sv1 := on_tracker (record_activity (cn_session_id conn) now)
                (on_metrics (record_session_activity (cn_session_id conn) now) sv)).
  assert (Hsame : ∀ i, is_Some (st_sessions (sv_tracker sv1) !! i) ↔ is_Some (st_sessions (sv_tracker sv) !! i)).
  { intros i. cbn. destruct (decide (cn_session_id conn = i)) as [->|Hne].
    - rewrite lookup_alter_eq, fmap_is_Some. done.
    - by rewrite lookup_alter_ne. }
  assert (Hch1 : session_change sid sv sv1).
  { destruct Hinv as [Hs Ht Hsid Hctx]. split; [|done|intros; apply Hsame].
    split; cbn; try done; [by apply tracker_ok_activity|]. intros i Hi. apply Hsid, Hsame, Hi. }
  assert (Hc1 : conn_ok sv1 sid conn) by (destruct Hc as (? & ? & Ht); split; [done|split; [done|by rewrite Hsame]]).
  assert (Hroom1 : roomy sv1 header payload now) by (by destruct Hroom; split).
  pose proof (dispatch_ok sid header payload now conn sv1 (sc_inv _ _ _ Hch1) Hc1 Hroom1) as Harm.
  destruct (dispatch header payload now conn sv1) as [[[ty resp|err|e] conn'] sv'];
    destruct Harm as [Hch Hco].
  - split; [by eapply session_change_trans|done].
  - destruct (map_error err) as [code detail].
    assert (Hq : quiet sv' (emit (ErrorOccurred now binary (wrap16 code) detail None)
      (on_metrics (record_error binary (wrap16 code) detail None now) sv'))).
    { eapply quiet_trans; [|apply quiet_emit].
      by apply (quiet_metrics (record_error binary (wrap16 code) detail None now)). }
    split; [|by eapply conn_ok_same; [| |exact Hco]].
    eapply session_change_trans; [by eapply session_change_trans|].
    apply quiet_change; [apply Hch|done].
  - split; [by eapply session_change_trans|done].
Qed.

(** ** Connections come and go *)

Lemma connect_ok peer now sv :
  server_inv sv → mt_next_session_id (sv_metrics sv) + 1 < U64 →
  let (conn, sv') := connect peer now sv in
  server_inv sv' ∧ conn_ok sv' (mt_next_session_id (sv_metrics sv)) conn
  ∧ sv_tracker sv' = sv_tracker sv
  ∧ mt_next_session_id (sv_metrics sv') = mt_next_session_id (sv_metrics sv) + 1.
Proof.
  intros [Hs Ht Hsid Hc] Hroom. cbn. rewrite (wrap64_small (mt_next_session_id _ + 1)) by done. split; [|split; [|done]].
  - split; cbn; try done. intros i Hi. apply Hsid in Hi. lia.
  - split; [done|]. cbn. split; [lia|]. split; [done|]. intros Hx. apply Hsid in Hx. lia.
Qed.

Lemma disconnected_inv sid conn sv :
  server_inv sv → conn_ok sv sid conn → session_change sid sv (disconnected conn sv).
Proof.
  intros [Hs Ht Hsid Hc] (<- & _). unfold disconnected.
  pose proof (tracker_ok_unregister _ (cn_session_id conn) Ht) as Ht'.
  assert (Hsub : st_sessions (unregister (cn_session_id conn) (sv_tracker sv)).2
      = delete (cn_session_id conn) (st_sessions (sv_tracker sv))
    ∧ ∀ c, is_Some (st_context_to_session (unregister (cn_session_id conn) (sv_tracker sv)).2 !! c) →
        is_Some (st_context_to_session (sv_tracker sv) !! c)).
  { unfold unregister. destruct (st_sessions _ !! _); [|done]. split; [done|]. cbn; intros ctx.
    rewrite foldl_delete_lookup. case_decide; [by intros []|done]. }
  destruct (unregister _ _) as [orphaned t]. cbn in Ht', Hsub. destruct Hsub as [Hses Hsub].
  split; [|done|].
  - split; cbn; try done; [|auto].
    rewrite Hses. intros i Hi. apply Hsid. destruct Hi as [x [_ Hx]%lookup_delete_Some]. eauto.
  - intros i Hne. cbn. by rewrite Hses, lookup_delete_ne.
Qed.

Lemma failed_inv sid conn sv : server_inv sv → session_change sid sv (failed conn sv).
Proof. intros [Hs Ht Hsid Hc]. split; [by split|done|done]. Qed.

(** The connections other than [sid] stay consistent when [sid] changes the server. *)
Lemma others_ok sid sv sv' (conns : gmap N Conn) :
  session_change sid sv sv' → (∀ i conn, conns !! i = Some conn → conn_ok sv i conn) →
  ∀ i conn, i ≠ sid → conns !! i = Some conn → conn_ok sv' i conn.
Proof.
  intros [_ Hm Hoth] Hc i conn Hne Hi. destruct (Hc i conn Hi) as (Hid & Hlt & Htag).
  split; [done|]. split; [by rewrite Hm|]. by rewrite Hoth.
Qed.

Lemma sys_inv_step sys sys' : sys_inv sys → sys_step sys sys' → sys_inv sys'.
Proof.
  intros [Hinv Hconns Hreg] Hstep.
  destruct Hstep as [peer now sys Hnow Hroom|sid conn header payload now sys Hs Hroom
    |sid conn sys Hs|a sys|now elapsed request sys Hroom].
  - pose proof (connect_ok peer now _ Hinv Hroom) as Hco. destruct (connect _ _ _) as [conn sv] eqn:Heq.
    destruct Hco as (Hinv' & Hok & Ht & Hm). split; [done| |done]. cbn. intros i x Hx.
    assert (Hid : cn_session_id conn = mt_next_session_id (sv_metrics (sys_server sys))) by apply Hok.
    rewrite Hid in Hx. apply lookup_insert_Some in Hx as [[<- <-]|[_ Hx]]; [done|].
    destruct (Hconns _ _ Hx) as (? & ? & Htag). split; [done|]. split; [by rewrite Hm; lia|by rewrite Ht].
  - pose proof (handle_message_ok sid header payload now conn _ Hinv (Hconns _ _ Hs) Hroom) as Hmsg.
    destruct (handle_message _ _ _ _ _) as [[[out|e] conn'] sv']; destruct Hmsg as [Hch Hok].
    + split; [apply Hch| |done]. cbn. intros i x [[<- <-]|[Hne Hx]]%lookup_insert_Some; [done|].
      by eapply others_ok.
    + pose proof (session_change_trans _ _ _ _ Hch (failed_inv sid conn' sv' (sc_inv _ _ _ Hch))) as Hf.
      split; [apply Hf| |done]. cbn. intros i x [Hne Hx]%lookup_delete_Some. by eapply others_ok.
  - pose proof (disconnected_inv sid conn _ Hinv (Hconns _ _ Hs)) as Hch.
    split; [apply Hch| |done]. cbn. intros i x [Hne Hx]%lookup_delete_Some. by eapply others_ok.
  - split; [|done|done]. by destruct Hinv.
  - destruct (handle_request_grows now elapsed request (mkGateway (sys_server sys) (sys_registry sys)))
      as [Hq Hr]; [apply Hinv|done|].
    destruct (handle_request _ _ _ _) as [response g]. cbn in Hq, Hr |- *.
    split; cbn; [by eapply quiet_inv| |].
    + intros i x Hx. eapply conn_ok_same; [apply Hq|apply Hq|by apply (Hconns i x)].
    + clear -Hreg Hr. induction Hr as [|r1 r2 r3 (id & raw & ->) _ IH]; [done|].
      apply IH. by apply reachable_put.
Qed.

Lemma sys_inv_reachable sys : sys_reachable sys → sys_inv sys.
Proof.
  induction 1 as [s dir registry Hr Hopen|sys sys' _ IH Hstep]; [|by eapply sys_inv_step].
  split; cbn; [|by intros i conn Hx|by eapply reachable_open]. split; cbn; [done|apply tracker_new_ok|by intros i []|by intros i []].
Qed.

(** C36. Safety of the server under every interleaving: whatever requests the connections send,
    in whatever order they come, go and fail, the store is in a state that its own operations
    reach (so no reference in it dangles), two connections never have the same session, a
    connection is known to the tracker exactly when it said hello or created a context, and a
    context that is reported as live exists in the store and belongs to exactly the session
    that created it. This holds together with any requests to the gateway in between, and the
    registry moves only by puts, so that published types stay. *)
Theorem server_safe sys :
  sys_reachable sys →
  let sv := sys_server sys in
  StoreInvariant.reachable (sv_store sv) ∧ registry_reachable (sys_registry sys)
  ∧ (∀ sid conn, sys_open sys !! sid = Some conn →
       cn_session_id conn = sid
       ∧ (cn_tag_received conn = true ↔ is_Some (get_client_tag sid (sv_tracker sv))))
  ∧ ∀ c, is_context_live c (sv_tracker sv) = true →
       is_ok (get_head (sv_store sv) c) = true
       ∧ ∃ session, get_session_for_context c (sv_tracker sv) = Some session
           ∧ ∀ sid other, st_sessions (sv_tracker sv) !! sid = Some other →
               c ∈ cs_contexts_created other → other = session.
Proof.
  intros Hr. destruct (sys_inv_reachable sys Hr) as [[Hs [Ht Hid] Hsid Hc] Hconns Hreg].
  split; [done|]. split; [done|]. split.
  - intros sid conn Hx. destruct (Hconns _ _ Hx) as (? & _ & Htag). split; [done|].
    unfold get_client_tag. by rewrite fmap_is_Some.
  - intros c Hlive. apply bool_decide_eq_true in Hlive. destruct (Hc c Hlive) as [_ [h Hh]].
    split; [unfold get_head, TurnStore.get_head; by rewrite Hh|].
    destruct Hlive as [sid Hx]. pose proof Hx as Hy. apply Ht in Hy as (session & Hses & Hin).
    exists session. unfold get_session_for_context. rewrite Hx. split; [done|].
    intros sid' other Hoth Hin'. assert (st_context_to_session (sv_tracker (sys_server sys)) !! c = Some sid')
      as Hz by (apply Ht; eauto). congruence.
Qed.
End spec.

(** A connection creates a context on an empty store and then sends a frame that is cut short. *)
Module ServerWitness.

#[local] Existing Instances Sample.crc Sample.crc_laws Sample.blake Sample.blake_laws
  Sample.zstd Sample.zstd_laws Sample.pread Sample.order Sample.order_laws Sample.msgpack
  Sample.unicode Sample.relative_dates Sample.chrono HttpSample.url HttpSample.form
  HttpSample.snapshot HttpSample.text HttpSample.bundles HttpSample.listing
  HttpPayloadWitness.rendering HttpPayloadWitness.byte_text HttpPayloadWitness.msgpack_write.
#[local] Instance json_text : JsonText := {|
  json_parse bs := if decide (bs = $"base 1")
                   then Ok (JObject [($"base_turn_id", JNumber (PosInt 1))]) else Err ($"json");
  json_text _ := [] |}.

Definition s0 : Store := StoreWitness.s0.
Definition sys0 : System :=
  mkSystem (mkServer s0 tracker_new bus_new metrics_new) ∅ (registry_new ∅).
Definition conn1 : Conn := (connect ($"peer") 5 (sys_server sys0)).1.
Definition sys1 : System :=
  mkSystem (connect ($"peer") 5 (sys_server sys0)).2 (<[1 := conn1]> (sys_open sys0))
    (sys_registry sys0).

Definition after (header : FrameHeader) (payload : bytes) (now : N) (conn : Conn) (sys : System)
    : System :=
  match handle_message header payload now conn (sys_server sys) with
  | (Ok _, conn, sv) => mkSystem sv (<[1 := conn]> (sys_open sys)) (sys_registry sys)
  | (Err _, conn, sv) => mkSystem (failed conn sv) (delete 1 (sys_open sys)) (sys_registry sys)
  end.

Definition create : FrameHeader := mkFrameHeader 8 (msg_type_u16 CtxCreate) 0 1.
Definition sys2 : System := after create (context_payload 0) 6 conn1 sys1.
Definition conn2 : Conn := default conn1 (sys_open sys2 !! 1).
Definition short : FrameHeader := mkFrameHeader 2 (msg_type_u16 CtxFork) 0 2.
Definition sys3 : System := after short [Byte.x00; Byte.x00] 7 conn2 sys2.

Lemma reachable_sys2 : sys_reachable sys2.
Proof.
  apply (sys_next sys1).
  - apply (sys_next sys0); [apply (sys_start s0 ∅)|].
    + apply (reachable_empty []). vm_compute; reflexivity.
    + vm_compute; reflexivity.
    + exact (sys_connect ($"peer") 5 sys0 eq_refl eq_refl).
  - refine (sys_message 1 conn1 create (context_payload 0) 6 sys1 _ _); [vm_compute; reflexivity|].
    split; [vm_compute; reflexivity..| |].
    + intros req raw Hp. exfalso. vm_compute in Hp. discriminate Hp.
    + intros req Hp. exfalso. vm_compute in Hp. discriminate Hp.
Qed.

(** The error of [parse_ctx_fork] ends the connection by [?], and the session stays registered:
    its context is reported as live although no connection is open. *)
Example failed_stays_live :
  sys_open sys3 = ∅ ∧ is_context_live 1 (sv_tracker (sys_server sys3)) = true.
Proof. split; [|by vm_compute]. apply map_eq. intros i. by vm_compute. Qed.

(** A connection that ends in order takes its contexts with it. *)
Example disconnected_not_live :
  is_context_live 1 (sv_tracker (disconnected conn2 (sys_server sys2))) = false.
Proof. by vm_compute. Qed.

(** A context that is created over HTTP is not live: the gateway has no session. *)
Definition post : Request := mkRequest Post ($"/v1/contexts") [($"x-client-tag", $" web ")] [].
Definition gateway2 : Gateway := mkGateway (sys_server sys2) (sys_registry sys2).
Definition sys4 : System :=
  let g := (handle_request 8 0 post gateway2).2 in
  mkSystem (gw_server g) (sys_open sys2) (gw_registry g).

Lemma reachable_sys4 : sys_reachable sys4.
Proof.
  apply (sys_next sys2); [exact reachable_sys2|].
  apply (sys_http 8 0 post sys2). split; [vm_compute; reflexivity..|].
  intros body Hb. exfalso. vm_compute in Hb. discriminate Hb.
Qed.

Example http_context_not_live :
  rp_status (handle_request 8 0 post gateway2).1 = 201
  ∧ is_ok (get_head (sv_store (sys_server sys4)) 2) = true
  ∧ is_context_live 2 (sv_tracker (sys_server sys4)) = false.
Proof. by vm_compute. Qed.

Lemma server_safe_witness :
  is_ok (get_head (sv_store (sys_server sys4)) 1) = true
  ∧ ∃ session, get_session_for_context 1 (sv_tracker (sys_server sys4)) = Some session.
Proof.
  destruct (server_safe sys4 reachable_sys4) as (_ & _ & _ & Hlive).
  destruct (Hlive 1) as [Hhead (session & Hs & _)]; [vm_compute; reflexivity|].
  split; [exact Hhead|exists session; exact Hs].
Defined.

End ServerWitness.
