(* ===== verification/Wire.v ===== *)
(** * Wire: client calls answered by the server

    The client of [Client] and the server of [Server] connected to each other: what is
    appended through the client is what the client reads back, with every encoder and
    parser of both sides in between. *)

From S2P Require Import Prelude Bytes External Protocol ClientWire BlobStore TurnStore.
From S2P Require Import TurnHistory TurnRecovery FsStore Metadata CqlIndexes Store.
From S2P Require Import StoreInvariant StoreSpec Http Events Sessions Server Client ServerEffects.

Open Scope N_scope.

(** ** Turns on the wire *)

(** What the client makes of a turn that was sent with its payload. *)
Definition client_turn (t : TurnWithMeta) : ClientTurnRecord :=
  mkClientTurnRecord (tr_turn_id (twm_record t)) (tr_parent_turn_id (twm_record t))
    (tr_depth (twm_record t)) (tm_declared_type_id (twm_meta t))
    (tm_declared_type_version (twm_meta t)) (tm_encoding (twm_meta t)) 0
    (tr_payload_hash (twm_record t)) (default [] (twm_payload t)).

Record item_fits (t : TurnWithMeta) : Prop := {
  if_record : record_fits (twm_record t);
  if_meta : meta_fits (tr_turn_id (twm_record t), twm_meta t);
  if_payload : ∃ p, twm_payload t = Some p ∧ len p < U32
}.

Lemma reads_turn_item t :
  item_fits t → reads parse_turn_record (encode_turn_item t) (client_turn t).
Proof.
  intros [(Hid & Hd & Hp & Hc & Ht & Hh & Hf & Hn) (_ & Hu & Htl & Hv & He & Hcm & Hul)
    (p & Hpay & Hpl)].
  assert (H0 : 0 < U32) by done.
  unfold encode_turn_item, client_turn, parse_turn_record. rewrite Hpay.
  rewrite bool_decide_true by done. cbn [default]. rewrite !wrap32_small by done.
  do 4 reads_step. reads_step.
  eapply reads_bind_nil; [apply reads_rlift; by rewrite from_utf8_valid|]. cbn beta.
  repeat reads_step.
Qed.

Lemma reads_turn_items ts :
  Forall item_fits ts →
  reads (read_n (length ts) parse_turn_record) (concat (map encode_turn_item ts))
    (map client_turn ts).
Proof.
  induction 1 as [|t ts Ht Hts IH]; cbn [length map concat read_n]; [apply reads_ret|].
  eapply reads_bind; [by apply reads_turn_item|]. eapply reads_last; [done|]. apply reads_ret.
Qed.

Lemma turn_items_roundtrip ts :
  Forall item_fits ts → len ts < U32 →
  parse_turn_records (encode_turn_items ts) = Ok (map client_turn ts).
Proof.
  intros Hts Hl. unfold parse_turn_records, encode_turn_items. autorewrite with cxdb.
  rewrite (proj2 (N.ltb_ge _ _)) by lia. rewrite wrap32_small by done.
  apply reads_run. eapply reads_bind; [by apply reads_u32|]. cbn beta.
  unfold len. rewrite Nat2N.id. by apply reads_turn_items.
Qed.

Lemma replay_metas_fits l metas :
  Forall meta_fits l → (∀ id m, metas !! id = Some m → meta_fits (id, m)) →
  ∀ id m, replay_metas l metas !! id = Some m → meta_fits (id, m).
Proof.
  intros Hl. revert metas. induction Hl as [|[i x] l Hx Hl IH]; intros metas Hm; [done|].
  cbn. apply IH. intros id m [[<- <-]|[_ ?]]%lookup_insert_Some; auto.
Qed.

Lemma meta_upto_fits meta metas id m :
  meta_upto meta metas → metas !! id = Some m → meta_fits (id, m).
Proof. intros (l1 & j & l2 & Hl & _ & _ & ->). by apply replay_metas_fits. Qed.

Section wire.
Context `{Crc32Laws} `{Blake3Laws} `{ZstdLaws} `{PreadSchedule} `{HashOrderLaws} `{Msgpack}
  `{Unicode} `{IoText}.

(** Every page that the store reads with payloads has items that fit their encoding. *)
Lemma get_last_fits s m c n ts :
  data_ok s m → Store.get_last s c n true = Ok ts → Forall item_fits ts ∧ len ts ≤ n.
Proof.
  intros Hok. unfold Store.get_last. destruct (TurnStore.get_last _ c n) as [page|] eqn:Hpage; [|done].
  cbn [mbind result_bind]. rewrite try_map_Forall2. intros Hts.
  assert (Hhead : is_Some (ts_heads (st_turn_store s) !! c)).
  { unfold TurnStore.get_last, TurnStore.get_head in Hpage.
    destruct (ts_heads _ !! c); [eauto|done]. }
  destruct (context_history_exists (st_turn_store s) c) as [l Hl]; [apply Hok|done|].
  rewrite (get_last_history _ _ l) in Hpage by done. injection Hpage as <-.
  destruct Hl as (h & _ & Hl). split.
  - apply Forall_forall. intros t Ht. apply list_elem_of_lookup in Ht as [i Hi].
    destruct (Forall2_lookup_r _ _ _ _ _ Hts Hi) as (r & Hr & Hwith).
    assert (Hin : ts_turns (st_turn_store s) !! tr_turn_id r = Some r).
    { eapply (history_elem (wf_turns_ok _ (inv_wf _ (do_turns _ _ Hok)))); [done|].
      eapply subseteq_drop. eapply list_elem_of_lookup_2. exact Hr. }
    destruct (with_meta_ok s m _ r true Hok Hin) as (t' & Ht' & Hrec & Hmeta & Hpay).
    assert (t' = t) as -> by congruence. destruct (do_payloads _ _ Hok _ _ Hin) as [p Hp].
    split.
    + rewrite Hrec. eapply record_fits_wf; [apply Hok|apply Hok|done].
    + rewrite Hrec. eapply meta_upto_fits; [apply (inv_persisted _ (do_turns _ _ Hok))|done].
    + exists p. rewrite Hpay, Hp. split; [done|]. by destruct (rep_ok _ _ (do_blobs _ _ Hok) _ _ Hp).
  - apply Forall2_length in Hts. unfold len. rewrite <- Hts. unfold last_n. rewrite length_drop. lia.
Qed.

(** ** The link *)

(** The connection, while it is open, and the server at its other end. *)
Definition link : Type := option Conn * Server.

(** What the server sends when a frame arrives. *)
Definition server_peer (now : N) (written : bytes) (l : link) : bytes * link :=
  match l with
  | (None, _) => ([], l)
  | (Some conn, sv) =>
      match read_frame written with
      | Err _ => ([], (None, failed conn sv))
      | Ok ((header, payload), _) =>
          match handle_message header payload now conn sv with
          | (Ok out, conn, sv) => (out, (Some conn, sv))
          | (Err _, conn, sv) => ([], (None, failed conn sv))
          end
      end
  end.

(** The state in which a request is dispatched. *)
Definition touched (now : N) (conn : Conn) (sv : Server) : Server :=
  on_tracker (record_activity (cn_session_id conn) now)
    (on_metrics (record_session_activity (cn_session_id conn) now) sv).

Lemma server_peer_reply now ty flags id payload conn sv ty' body conn' sv' :
  ty < U16 → flags < U16 → id < U64 → len payload ≤ MAX_FRAME_SIZE →
  dispatch (mkFrameHeader (len payload) ty flags id) payload now conn (touched now conn sv)
    = (Reply ty' body, conn', sv') →
  server_peer now (write_frame ty flags id payload) (Some conn, sv)
    = (write_frame (msg_type_u16 ty') 0 id body, (Some conn', sv')).
Proof.
  intros Hty Hf Hid Hp Hd. unfold server_peer.
  pose proof (reads_frame ty flags id payload Hty Hf Hid Hp []) as Hr. rewrite app_nil_r in Hr.
  rewrite Hr. unfold handle_message. fold (touched now conn sv). by rewrite Hd.
Qed.

(** A page is read over the wire as the store reads it. *)
Lemma get_last_served s m c n ts ctx tnow now conn cl sv :
  s = sv_store sv → data_ok s m → Store.get_last s c n true = Ok ts →
  ready ctx tnow cl → c < U64 → 0 < n < U32 → len (encode_turn_items ts) ≤ MAX_FRAME_SIZE →
  ∃ sv', Client.get_last (server_peer now) ctx tnow c (mkGetLastOptions n true) cl (Some conn, sv)
      = (Ok (map client_turn ts), next_request cl, (Some conn, sv')) ∧ sv_store sv' = s.
Proof.
  intros -> Hok Hts Hready Hc Hn Hsize. destruct (get_last_fits _ _ _ _ _ Hok Hts) as [Hfit Hlen].
  eexists. split; [|shelve]. unfold Client.get_last. rewrite <- turn_items_roundtrip; [|done|lia].
  apply call_answered; [done..|]. eapply (server_peer_reply now MSG_GET_LAST 0 _ _ conn sv GetLast); [done..|apply wrap64_lt| |].
  { unfold get_last_payload. autorewrite with cxdb. done. }
  unfold dispatch. cbn [fh_msg_type]. unfold handle_get_last.
  assert (Hparse : parse_get_last (get_last_payload c (mkGetLastOptions n true))
      = Ok (mkGetLastRequest c n 1)).
  { unfold parse_get_last, get_last_payload. cbn [glo_limit glo_include_payload].
    rewrite (proj2 (N.eqb_neq n 0)) by lia. apply reads_run. assert (1 < U32) by done.
    reads_step. eapply reads_bind; [apply reads_u32; lia|].
    eapply reads_last; [by apply reads_u32|]. apply reads_ret. }
  rewrite Hparse. cbn [glr_context_id glr_limit glr_include_payload]. cbn. by rewrite Hts.
  Unshelve. done.
Qed.

(** Reading over the wire: the client's [get_last] with payloads returns the turns
    of the page that the store reads, in order and with all their fields and payloads, the
    default limit of ten filled in for zero, as long as the response fits a frame; the
    connection stays open and the store is unchanged. *)
Theorem get_last_over_wire c opts ts ctx tnow now conn cl sv :
  StoreInvariant.reachable (sv_store sv) → ready ctx tnow cl →
  glo_include_payload opts = true → c < U64 → glo_limit opts < U32 →
  Store.get_last (sv_store sv) c (if glo_limit opts =? 0 then 10 else glo_limit opts) true = Ok ts →
  len (encode_turn_items ts) ≤ MAX_FRAME_SIZE →
  ∃ sv', Client.get_last (server_peer now) ctx tnow c opts cl (Some conn, sv)
           = (Ok (map client_turn ts), next_request cl, (Some conn, sv'))
         ∧ sv_store sv' = sv_store sv.
Proof.
  intros Hr Hready Hp Hc Hl Hts Hsize. destruct (store_inv_reachable _ Hr) as [[m Hok] _].
  destruct opts as [limit include]. cbn [glo_include_payload glo_limit] in *. subst include.
  set (n := if limit =? 0 then 10 else limit) in *.
  assert (Hn : 0 < n < U32) by (unfold n; destruct (N.eqb_spec limit 0); lia).
  assert (Hsame : get_last_payload c (mkGetLastOptions limit true)
                  = get_last_payload c (mkGetLastOptions n true)).
  { unfold get_last_payload. cbn [glo_limit]. fold n. by rewrite (proj2 (N.eqb_neq n 0)) by lia. }
  unfold Client.get_last. rewrite Hsame. by eapply get_last_served.
Qed.

(** ** Appending *)

Lemma check_payload_plain hash payload :
  len payload < U32 → blake3 payload = hash →
  check_payload 0 (len payload) hash payload = Ok payload.
Proof.
  intros Hl <-. unfold check_payload, decompress. cbn. rewrite wrap32_small by done.
  by rewrite N.eqb_refl, bool_decide_true.
Qed.

Lemma emits_store l sv : sv_store (foldl (λ sv e, emit e sv) sv l) = sv_store sv.
Proof. revert sv. induction l as [|e l IH]; intros sv; [done|]. cbn. by rewrite IH. Qed.

(** The answer to an append that the store accepts. *)
Lemma append_served req record md s' ctx tnow now conn cl sv :
  append_request_ok req → len (append_turn_payload req) ≤ MAX_FRAME_SIZE → ready ctx tnow cl →
  record_fits record →
  Store.append_turn (ar_context_id req) (ar_parent_turn_id req) (ar_type_id req)
    (ar_type_version req) (effective_encoding (ar_encoding req)) (ar_compression req)
    (len (ar_payload req)) (blake3 (ar_payload req)) (ar_payload req) now (sv_store sv)
    = (Ok (record, md), s') →
  ∃ sv', Client.append_turn (server_peer now) ctx tnow req cl (Some conn, sv)
      = (Ok (mkAppendResult (ar_context_id req) (tr_turn_id record) (tr_depth record)
               (tr_payload_hash record)), next_request cl, (Some conn, sv'))
    ∧ sv_store sv' = s'.
Proof.
  intros Hreq Hsize Hready (Hid & Hd & _ & _ & _ & Hh & _) Happ.
  eexists. split; [|shelve]. unfold Client.append_turn.
  assert (Hack : parse_append_result (encode_append_ack (ar_context_id req) (tr_turn_id record)
    (tr_depth record) (tr_payload_hash record)) = Ok (mkAppendResult (ar_context_id req)
      (tr_turn_id record) (tr_depth record) (tr_payload_hash record))).
  { destruct Hreq as [Hc _]. unfold parse_append_result, encode_append_ack. autorewrite with cxdb.
    rewrite Hh. apply reads_run. solve_reads. }
  rewrite <- Hack. apply call_answered; [done..| |].
  { unfold encode_append_ack. autorewrite with cxdb. rewrite Hh. done. }
  eapply (server_peer_reply now MSG_APPEND_TURN 0 _ _ conn sv AppendTurn);
    [done..|apply wrap64_lt|done|].
  unfold dispatch. cbn [fh_msg_type fh_flags]. unfold handle_append.
  pose proof (parse_append_written req None 0 Hreq ltac:(done) eq_refl) as Hparse.
  cbn in Hparse. rewrite app_nil_r in Hparse. rewrite Hparse. cbn. rewrite Happ. cbn. done.
  Unshelve. by rewrite emits_store.
Qed.

(** The page of one turn after an append that the store accepts. *)
Lemma append_page s m c p tid ver enc comp ulen hash payload raw now pid :
  data_ok s m → ts_next_turn_id (st_turn_store s) < U32 →
  append_fits c hash enc tid ver comp ulen now →
  check_payload comp ulen hash payload = Ok raw → blob_fits s hash raw →
  parent_of c p (st_turn_store s) = Some pid →
  ∃ depth md s' m',
    let record := mkTurnRecord (ts_next_turn_id (st_turn_store s)) pid depth enc 0 hash 0 now in
    Store.append_turn c p tid ver enc comp ulen hash payload now s = (Ok (record, md), s')
    ∧ data_ok s' m'
    ∧ Store.get_last s' c 1 true
      = Ok [mkTurnWithMeta record (mkTurnMeta tid ver enc comp ulen)
              (Some (stored_under s hash raw))].
Proof.
  intros Hok Hn Hfit Hcheck Hblob Hpar.
  destruct (check_payload_ok _ _ _ _ _ Hcheck) as (_ & Hraw & _).
  pose proof (append_turn_cases s m c p tid ver enc comp ulen hash payload now Hok Hn) as Hcase.
  rewrite Hcheck, Hpar in Hcase. destruct Hcase as (l & Heq & _ & Hl & Hctx & Hfresh).
  assert (Hblob' : ∀ raw, check_payload comp ulen hash payload = Ok raw → blob_fits s hash raw)
    by (rewrite Hcheck; by intros ? [= <-]).
  destruct (data_ok_append s m c p tid ver enc comp ulen hash payload now Hok Hn Hfit Hblob')
    as (m' & Hok' & _).
  rewrite Heq in Hok'. cbn [snd] in Hok'. eexists _, _, _, m'. cbn zeta.
  split; [exact Heq|]. split; [exact Hok'|].
  match goal with |- context [note_metadata c (len l) now raw ?s2] =>
    destruct (note_metadata_same c (len l) now raw s2) as (Hsb & Hst & _) end.
  destruct (page_after_append s m pid l c tid ver enc comp ulen hash raw now 0
    Hok Hraw Hblob Hl Hctx Hfresh _ Hsb Hst) as (ts & Hts & Hpage).
  change (N.to_nat 0) with 0%nat in Hts. unfold last_n in Hts.
  rewrite drop_ge in Hts by lia. injection Hts as <-. exact Hpage.
Qed.

(** C37. Writing and reading over the wire, for an append that is well formed, not compressed, carries
    no idempotency key and fits a frame, sent by the client to a context or parent turn that exists:
    it is acknowledged with the next turn id and the BLAKE3 of the payload. When the
    client then asks for the last turn and for its payload, and the turn with its payload fits a
    frame, it gets exactly this turn, with the declared type, the encoding (msgpack for zero), the
    parent and the payload that was sent or, where other bytes with the same hash had been stored
    before, those bytes. What compression, an idempotency key and a request without payloads
    do is in the examples of [WireWitness]. *)
Theorem append_over_wire req pid ctx tnow now conn cl sv :
  StoreInvariant.reachable (sv_store sv) → ts_next_turn_id (st_turn_store (sv_store sv)) < U32 →
  append_request_ok req → ar_compression req = 0 → ar_idempotency_key req = [] →
  ready ctx tnow cl → now < U64 →
  len (append_turn_payload req) ≤ MAX_FRAME_SIZE →
  blob_fits (sv_store sv) (blake3 (ar_payload req)) (ar_payload req) →
  parent_of (ar_context_id req) (ar_parent_turn_id req) (st_turn_store (sv_store sv)) = Some pid →
  let id := ts_next_turn_id (st_turn_store (sv_store sv)) in
  let hash := blake3 (ar_payload req) in
  let stored := stored_under (sv_store sv) hash (ar_payload req) in
  ∃ depth sv',
    Client.append_turn (server_peer now) ctx tnow req cl (Some conn, sv)
      = (Ok (mkAppendResult (ar_context_id req) id depth hash), next_request cl, (Some conn, sv'))
    ∧ blake3 stored = hash
    ∧ (80 + len (ar_type_id req) + len stored ≤ MAX_FRAME_SIZE →
       ∃ sv'',
         Client.get_last (server_peer now) ctx tnow (ar_context_id req) (mkGetLastOptions 1 true)
           (next_request cl) (Some conn, sv')
         = (Ok [mkClientTurnRecord id pid depth (ar_type_id req) (ar_type_version req)
                  (effective_encoding (ar_encoding req)) 0 hash stored],
            next_request (next_request cl), (Some conn, sv''))).
Proof.
  intros Hr Hn Hreq Hcomp _ Hready Hnow Hsize Hblob Hpar id hash stored.
  pose proof Hreq as (Hc & Hp & Hu & Htl & Htv & He & _ & Hpl & _).
  apply effective_encoding_lt in He.
  destruct (store_inv_reachable _ Hr) as [[m Hok] _].
  assert (Hfit : append_fits (ar_context_id req) hash (effective_encoding (ar_encoding req))
    (ar_type_id req) (ar_type_version req) (ar_compression req) (len (ar_payload req)) now).
  { rewrite Hcomp. split_and!; try done. apply blake3_length. }
  assert (Hcheck := check_payload_plain hash (ar_payload req) Hpl eq_refl).
  rewrite <- Hcomp in Hcheck.
  destruct (append_page _ m _ _ _ _ _ _ _ _ _ _ _ _ Hok Hn Hfit Hcheck Hblob Hpar)
    as (depth & md & s' & m' & Heq & Hok' & Hpage).
  destruct (get_last_fits _ _ _ _ _ Hok' Hpage) as [[Hitem _]%Forall_cons_1 _].
  destruct (append_served req _ _ _ ctx tnow now conn cl sv Hreq Hsize Hready
    (if_record _ Hitem) Heq) as (sv' & Happ & Hsv).
  exists depth, sv'. split; [exact Happ|]. split; [by eapply stored_under_rep|].
  intros Hfits. edestruct (get_last_served s' m' (ar_context_id req) 1)
    as (sv'' & Hget & _); [by symmetry|done|exact Hpage|by apply ready_next|done|done| |].
  - unfold encode_turn_items, encode_turn_item. cbn. autorewrite with cxdb. cbn.
    fold hash. unfold hash. rewrite blake3_length. unfold stored, hash in Hfits. lia.
  - exists sv''. exact Hget.
Qed.
End wire.

Module WireWitness.

#[local] Existing Instances Sample.crc Sample.crc_laws Sample.blake Sample.blake_laws
  Sample.zstd Sample.zstd_laws Sample.pread Sample.order Sample.order_laws Sample.msgpack
  Sample.unicode.
#[local] Existing Instance HttpSample.text.

Definition cl : Client := client_new 30000 ($"cli").
Definition conn : Conn := mkConn 1 ($"peer") true ($"cli").
(** Servers on a store with an empty context, and with one turn in it. *)
Definition sv1 : Server := mkServer StoreWitness.s1 tracker_new bus_new metrics_new.
Definition sv2 : Server := mkServer StoreWitness.s2 tracker_new bus_new metrics_new.
Definition page : list TurnWithMeta :=
  match Store.get_last StoreWitness.s2 1 10 true with Ok ts => ts | Err _ => [] end.
Definition request : AppendRequest := append_request_new 1 StoreWitness.typ 3 StoreWitness.payload.

(** Without payloads the server sends no payload length, which the client's parser reads: the
    default options of [get_last] give an error as soon as a turn exists. *)
Example default_options_fail :
  fst (fst (Client.get_last (server_peer 9) background 0 1 get_last_options_default cl
     (Some conn, sv2))) = Err (ClientIo UnexpectedEof).
Proof. by vm_compute. Qed.

(** A request with [compression = 1] announces the hash and the length of the compressed bytes,
    the server compares them with the decompressed ones: it closes the connection. *)
Definition compressed : AppendRequest :=
  mkAppendRequest 1 0 StoreWitness.typ 3 (default [] (zstd_encode_all StoreWitness.payload)) []
    ENCODING_MSGPACK 1.

Example compressed_append_fails :
  fst (fst (Client.append_turn (server_peer 9) background 0 compressed cl (Some conn, sv1)))
  = Err (InvalidResponse ($"frame header truncated"))
  ∧ is_ok (decompress 1 (ar_payload compressed)) = true.
Proof. split; by vm_compute. Qed.

(** The server takes the idempotency key of a request off the wire and does not look at it: sent
    twice with one key, a turn is appended twice. *)
Definition keyed : AppendRequest :=
  mkAppendRequest 1 0 StoreWitness.typ 3 StoreWitness.payload ($"once") ENCODING_MSGPACK 0.

Example idempotency_key_is_ignored :
  let '(first, cl', l) := Client.append_turn (server_peer 9) background 0 keyed cl (Some conn, sv1) in
  let '(second, _, _) := Client.append_turn (server_peer 9) background 0 keyed cl' l in
  first = Ok (mkAppendResult 1 1 0 (blake3 StoreWitness.payload))
  ∧ second = Ok (mkAppendResult 1 2 1 (blake3 StoreWitness.payload)).
Proof. vm_compute. split; reflexivity. Qed.

Lemma get_last_over_wire_witness :
  fst (fst (Client.get_last (server_peer 9) background 0 1 (mkGetLastOptions 0 true) cl
     (Some conn, sv2))) = Ok (map client_turn page)
  ∧ length page = 1%nat.
Proof.
  split; [|vm_compute; reflexivity].
  destruct (get_last_over_wire 1 (mkGetLastOptions 0 true) page background 0 9 conn cl sv2)
    as (sv' & -> & _); [exact StoreWitness.reachable_s2|split_and!; vm_compute; reflexivity|
    vm_compute; reflexivity..|vm_compute; discriminate|reflexivity].
Defined.

Lemma append_over_wire_witness :
  fst (fst (Client.append_turn (server_peer 9) background 0 request cl (Some conn, sv1)))
  = Ok (mkAppendResult 1 1 0 (blake3 StoreWitness.payload)).
Proof.
  destruct (append_over_wire request 0 background 0 9 conn cl sv1) as (depth & sv' & Happ & _ & _).
  - exact StoreWitness.reachable_s1.
  - vm_compute; reflexivity.
  - split_and!; vm_compute; reflexivity.
  - reflexivity.
  - reflexivity.
  - split_and!; vm_compute; reflexivity.
  - vm_compute; reflexivity.
  - vm_compute; discriminate.
  - split; [split; vm_compute; reflexivity|vm_compute; reflexivity].
  - vm_compute; reflexivity.
  - pose proof (f_equal (λ r, fst (fst r)) Happ) as Hr. cbn [fst] in Hr.
    assert (depth = 0) as ->; [|exact Hr].
    vm_compute in Hr. by injection Hr.
Defined.

End WireWitness.
