(* ===== verification/FsTreeUpload.v ===== *)
(** * FsTreeUpload: a captured directory, served by the server

    [upload] over the wire ([Wire]) puts every blob of a snapshot into the blob store of the
    server, and after the root is attached to a turn, the server finds under every path what was
    on the disk of the client: the capture, the client's encoder of trees, the protocol, the
    blob store, the parser of trees and the path functions of the server, composed. *)

From S2P Require Import Prelude Bytes External Protocol ClientWire Encoding BlobStore TurnStore.
From S2P Require Import TurnHistory TurnRecovery FsStore Metadata CqlIndexes Store StoreInvariant.
From S2P Require Import StoreSpec Events Sessions Server Client Wire FsTree FsTreeSpec FsTreeReads.

Open Scope N_scope.

(** ** Trees of the client, read by the server *)

(** An entry as the server has it. *)
Definition server_entry (e : FsTree.TreeEntry) : FsStore.TreeEntry :=
  FsStore.mkTreeEntry (te_name e) (te_kind e) (te_mode e) (te_size e) (te_hash e).

(** The fields of an entry may come in any order. *)
Lemma fields_commute e e0 a b :
  a ∈ entry_fields e → b ∈ entry_fields e →
  tree_field (tree_field e0 a) b = tree_field (tree_field e0 b) a.
Proof.
  unfold entry_fields. rewrite !elem_of_cons, !elem_of_nil.
  intros Ha Hb. destruct Ha as [->|[->|[->|[->|[->|[]]]]]];
    destruct Hb as [->|[->|[->|[->|[->|[]]]]]]; reflexivity.
Qed.

Lemma foldl_fields m k :
  m ≡ₚ k → ∀ e0,
  (∀ a b e0, a ∈ m → b ∈ m → tree_field (tree_field e0 a) b = tree_field (tree_field e0 b) a) →
  foldl tree_field e0 m = foldl tree_field e0 k.
Proof.
  induction 1 as [|a m k Hmk IH|a b m|m k l Hmk IH1 Hkl IH2]; intros e0 Hc; [done| | |].
  - cbn. apply IH. intros; apply Hc; by right.
  - cbn. by rewrite Hc by (by repeat constructor).
  - rewrite IH1 by done. apply IH2. intros x y e1 Hx Hy. apply Hc; by rewrite Hmk.
Qed.

Lemma parse_entry_reads e v :
  entry_fits e → entry_reads e v → parse_tree_entry v = Ok (server_entry e).
Proof.
  intros (_ & Hu & Hk & Hm & Hs & _) (m & -> & Hp). cbn [parse_tree_entry]. f_equal.
  rewrite (foldl_fields m (entry_fields e) Hp).
  2: { intros a b e0. rewrite Hp. apply fields_commute. }
  transitivity (FsStore.mkTreeEntry (default [] (utf8_as_str (te_name e)))
    (default 0 (int_as_u64 (Z.of_N (te_kind e))) mod 256)
    (wrap32 (default 0 (int_as_u64 (Z.of_N (te_mode e)))))
    (default 0 (int_as_u64 (Z.of_N (te_size e)))) (te_hash e)); [reflexivity|].
  unfold utf8_as_str. rewrite from_utf8_valid by done. rewrite !int_as_u64_of by lia.
  cbn [default]. by rewrite N.mod_small, wrap32_small.
Qed.

Lemma parse_entries_read es vs :
  Forall entry_fits es → Forall2 entry_reads es vs →
  try_map parse_tree_entry vs = Ok (map server_entry es).
Proof.
  intros He Hvs. induction Hvs as [|e v es vs Hv Hvs IH]; [done|].
  apply Forall_cons in He as [He Hes]. cbn [try_map map].
  rewrite (parse_entry_reads e v) by done. cbn [mbind result_bind]. by rewrite IH.
Qed.

Section server_trees.
Context `{RmpLaws} `{Blake3Laws} {B : Type} `{BlobReader B}.

(** The server loads the entries of a directory whose blob it has. *)
Lemma load_captured (b : B) mode cs :
  node_fits (NDir mode cs) →
  blob_get b (node_hash (NDir mode cs)) = Ok (node_blob (NDir mode cs)) →
  load_tree_entries b (node_hash (NDir mode cs))
  = Ok (map (λ c, server_entry (child_entry c)) (sort_children cs)).
Proof.
  intros Hfits Hget. unfold load_tree_entries. rewrite Hget. cbn [mbind result_bind].
  destruct (children_entries_fit mode cs Hfits) as [Hl He].
  destruct (entries_read _ Hl He) as (vs & Hread & Hvs). rewrite node_blob_dir.
  unfold parse_tree_entries. rewrite Hread. cbn [map_err mbind result_bind].
  rewrite sort_entries_children in He, Hvs.
  rewrite <- (map_map child_entry server_entry). by apply parse_entries_read.
Qed.
End server_trees.

(** ** Paths on the server *)

(** The blob store [b] has every blob of the tree. *)
Definition has_blobs `{RmpEncode} `{Blake3} {B : Type} `{BlobReader B} (b : B) (n : Node) : Prop :=
  ∀ x, x ∈ blobs n → blob_get b (blake3 x) = Ok x.

Lemma blobs_child `{RmpEncode} `{Blake3} mode cs c : c ∈ cs → blobs c.2 ⊆ blobs (NDir mode cs).
Proof.
  intros Hc x. unfold blobs. rewrite !elem_of_app. intros [Hx|[Hx|Hx]].
  - left. by eapply tree_list_child.
  - right. left. by eapply (content_list_child mode).
  - right. right. cbn [link_list]. apply elem_of_concat_map. by exists c.
Qed.

Lemma node_blob_in `{RmpEncode} `{Blake3} n : node_fits n → node_blob n ∈ blobs n.
Proof.
  unfold blobs. rewrite !elem_of_app. destruct 1 as [mode content|mode target|mode cs ? ? ?].
  - right. left. by left.
  - right. right. by left.
  - left. apply tree_list_self.
Qed.

Section server_paths.
Context `{RmpLaws} `{Blake3Laws} {B : Type} `{BlobReader B} (b : B).

Lemma kind_enum_node name n :
  kind_enum (server_entry (node_entry name n))
  = match node_type n with FtDir => KDirectory | FtSymlink => KSymlink | FtFile => KFile end.
Proof. unfold kind_enum, node_entry, node_kind. by destruct (node_type n). Qed.

Lemma server_hash_len name n : len (FsStore.te_hash (server_entry (node_entry name n))) = 32.
Proof. apply blake3_length. Qed.

Lemma find_entry_child part cs : children_ok cs →
  find_entry (map (λ c, server_entry (child_entry c)) (sort_children cs)) part
  = ok_or (NotFound ($"path component not found: " ++ part))
      ((λ c, server_entry (child_entry c)) <$> child_named part cs).
Proof.
  intros Hok. unfold find_entry. f_equal. rewrite find_map. f_equal.
  by apply (child_named_sorted part cs).
Qed.

(** One step of a walk: the child of that name. *)
Lemma walk_step part rest mode cs e :
  node_fits (NDir mode cs) → has_blobs b (NDir mode cs) →
  tree_walk b (node_hash (NDir mode cs)) (part :: rest) e
  ↔ ∃ m, child_named part cs = Some (part, m)
      ∧ match rest with
        | [] => e = server_entry (node_entry part m)
        | _ :: _ => node_type m = FtDir ∧ tree_walk b (node_hash m) rest e
        end.
Proof.
  intros Hfits Hblobs. rewrite tree_walk_cons. inversion Hfits as [| |? ? _ Hok _]; subst.
  rewrite load_captured by (done || exact (Hblobs _ (node_blob_in _ Hfits))). split.
  - intros (es & en & [= <-] & Hf & _ & Hrest). rewrite find_entry_child in Hf by done.
    destruct (child_named part cs) as [[name m]|] eqn:Hn; [|done]. injection Hf as <-.
    pose proof Hn as [_ Heq]%child_named_in. cbn in Heq. subst name. exists m. split; [done|].
    destruct rest as [|next rest]; [done|]. destruct Hrest as [Hk Hw]. split; [|done].
    unfold child_entry in Hk. rewrite kind_enum_node in Hk. cbn [snd] in Hk. revert Hk. by destruct (node_type m).
  - intros (m & Hn & Hrest). eexists _, (server_entry (node_entry part m)). split; [done|].
    rewrite find_entry_child, Hn by done. split; [done|]. split; [apply server_hash_len|].
    destruct rest as [|next rest]; [done|]. destruct Hrest as [Hdir Hw]. split; [|done].
    by rewrite kind_enum_node, Hdir.
Qed.

Lemma has_blobs_child mode cs part m :
  has_blobs b (NDir mode cs) → child_named part cs = Some (part, m) → has_blobs b m.
Proof.
  intros Hb [Hin _]%child_named_in x Hx. by eapply Hb, (blobs_child mode cs (part, m)).
Qed.

Lemma node_fits_child mode cs part m :
  node_fits (NDir mode cs) → child_named part cs = Some (part, m) → node_fits m.
Proof.
  intros Hf [Hin _]%child_named_in. inversion Hf as [| |? ? _ _ Hch]; subst. by apply (Hch _ Hin).
Qed.

Lemma node_at_cons part rest mode cs m :
  node_at (NDir mode cs) (part :: rest) = Some m
  ↔ ∃ c, child_named part cs = Some (part, c) ∧ node_at c rest = Some m.
Proof.
  cbn [node_at]. split.
  - destruct (child_named part cs) as [[name c]|] eqn:Hn; [|done]. intros Hm.
    pose proof Hn as [_ Heq]%child_named_in. cbn in Heq. subst name. by exists c.
  - by intros (c & -> & Hm).
Qed.

(** The walks of the server through the stored trees are the paths of the tree. *)
Lemma tree_walk_captured rest : ∀ part mode cs e,
  node_fits (NDir mode cs) → has_blobs b (NDir mode cs) →
  tree_walk b (node_hash (NDir mode cs)) (part :: rest) e
  ↔ ∃ m, node_at (NDir mode cs) (part :: rest) = Some m
      ∧ e = server_entry (node_entry (default [] (last (part :: rest))) m).
Proof.
  induction rest as [|next rest IH]; intros part mode cs e Hfits Hblobs;
    rewrite walk_step by done; setoid_rewrite node_at_cons.
  - cbn. naive_solver.
  - split.
    + intros (c & Hn & Hdir & Hw). pose proof (node_fits_child _ _ _ _ Hfits Hn) as Hfc.
      destruct c as [| |mode' cs'|]; try done; [|inversion Hfc].
      apply IH in Hw as (m & Hm & ->); [|done|by eapply has_blobs_child].
      exists m. split; [|done]. by exists (NDir mode' cs').
    + intros (m & (c & Hn & Hm) & ->). exists c. split; [done|].
      pose proof (node_fits_child _ _ _ _ Hfits Hn) as Hfc.
      destruct c as [| |mode' cs'|]; try done. split; [done|].
      apply IH; [done|by eapply has_blobs_child|]. by exists m.
Qed.

(** What the server answers for a path. *)
Definition file_answer (n : Node) (parts : list rstr)
    (r : result StoreError (bytes * FsStore.TreeEntry)) : Prop :=
  match node_at n parts with
  | Some (NFile _ bs as m) | Some (NLink _ bs as m) =>
      r = Ok (bs, server_entry (node_entry (default [] (last parts)) m))
  | _ => ∃ e, r = Err e
  end.

Lemma is_err_or {E A} (r : result E A) : (∀ a, r ≠ Ok a) → ∃ e, r = Err e.
Proof. destruct r as [a|e]; [intros Hn; by destruct (Hn a)|eauto]. Qed.

Lemma node_at_blobs parts : ∀ n m, node_fits n → has_blobs b n → node_at n parts = Some m →
  node_fits m ∧ has_blobs b m.
Proof.
  induction parts as [|part rest IH]; intros n m Hf Hb Hm; [by injection Hm as <-|].
  destruct n as [| |mode cs|]; try done. apply node_at_cons in Hm as (c & Hn & Hm).
  eapply (IH c); [by eapply node_fits_child|by eapply has_blobs_child|done].
Qed.

Lemma file_at_path_captured mode cs path part rest :
  node_fits (NDir mode cs) → has_blobs b (NDir mode cs) → path_parts path = part :: rest →
  file_answer (NDir mode cs) (part :: rest)
    (FsStore.get_file_at_path b (node_hash (NDir mode cs)) path).
Proof.
  intros Hfits Hblobs Hpath. unfold file_answer, FsStore.get_file_at_path. rewrite Hpath.
  assert (Hiff : ∀ c e, file_loop b path (node_hash (NDir mode cs)) part rest = Ok (c, e) ↔
    (∃ m, node_at (NDir mode cs) (part :: rest) = Some m
      ∧ e = server_entry (node_entry (default [] (last (part :: rest))) m))
    ∧ kind_enum e ≠ KDirectory ∧ blob_get b (FsStore.te_hash e) = Ok c).
  { intros c e. by rewrite file_loop_walk, tree_walk_captured. }
  destruct (node_at (NDir mode cs) (part :: rest)) as [m|] eqn:Hm.
  2: { apply is_err_or. intros [c e] ((m & ? & _) & _)%Hiff. done. }
  destruct (node_at_blobs _ _ _ Hfits Hblobs Hm) as [Hfm Hbm].
  assert (Hget : node_type m ≠ FtDir → file_loop b path (node_hash (NDir mode cs)) part rest
    = Ok (node_blob m, server_entry (node_entry (default [] (last (part :: rest))) m))).
  { intros Hd. apply Hiff. split; [by exists m|]. rewrite kind_enum_node. split.
    - by destruct (node_type m).
    - exact (Hbm _ (node_blob_in _ Hfm)). }
  destruct m as [mode' bs|mode' bs|mode' cs'|]; [by apply Hget|by apply Hget| |inversion Hfm].
  apply is_err_or. intros [c e] ((m & [= <-] & ->) & Hk & _)%Hiff. by rewrite kind_enum_node in Hk.
Qed.
End server_paths.

(** ** Uploading over the wire *)

Lemma file_list_len `{Blake3} n : ∀ p, len (file_list p n) = len (content_list n).
Proof.
  apply (Node_nested (λ n, ∀ p, len (file_list p n) = len (content_list n))); clear n.
  { by intros []. }
  intros mode cs IH p. cbn [file_list content_list].
  induction IH as [|c cs Hc IH IHcs]; [done|]. cbn [map concat]. by rewrite !len_app, Hc, IHcs.
Qed.

Section upload.
Context `{Crc32Laws} `{Blake3Laws} `{ZstdLaws} `{PreadSchedule} `{HashOrderLaws} `{RmpLaws}
  `{Unicode} `{IoText} `{Glob} `{ClientFs}
  (ctx : RequestContext) (tnow now : N).

(** A client with a connection to the server. *)
Definition wired : Type := Client * link.

#[local] Instance wired_client : BlobClient wired := {|
  client_put_blob data c :=
    let '(r, cl, l) := Client.put_blob (server_peer now) ctx tnow data c.1 c.2 in (r, (cl, l));
  client_attach_fs id hash c :=
    let '(r, cl, l) := Client.attach_fs (server_peer now) ctx tnow id hash c.1 c.2 in (r, (cl, l))
|}.

(** The blob store has nothing else under the hashes of [B]. *)
Definition clean (B : list bytes) (m : gmap bytes bytes) : Prop :=
  ∀ x c, x ∈ B → m !! blake3 x = Some c → c = x.

(** Room in the pack file for [k] more blobs of the size of a frame. *)
Definition room (k : N) (s : Store) : Prop :=
  len (bs_pack (st_blob_store s)) + k * (2 * MAX_FRAME_SIZE) < U64.

(** The connection is open, the client can send, and the server has a consistent store that differs
    from [s0] in its blobs only, which are [m]. *)
Definition linked (s0 : Store) (m : gmap bytes bytes) (k : N) (c : wired) : Prop :=
  ∃ conn sv, c.2 = (Some conn, sv) ∧ ready ctx tnow c.1 ∧ data_ok (sv_store sv) m
    ∧ st_turn_store (sv_store sv) = st_turn_store s0 ∧ st_fs_roots (sv_store sv) = st_fs_roots s0
    ∧ room k (sv_store sv).

Definition fits_frame (data : bytes) : Prop := len (put_blob_payload data) ≤ MAX_FRAME_SIZE.

Lemma pack_growth h raw st : blob_ok h raw →
  len (bs_pack (put_if_absent h raw st).2) ≤ len (bs_pack st) + HEADER_SIZE + len raw + 4.
Proof.
  intros Hok. pose proof (len_record_of h raw Hok).
  destruct (bs_index st !! h) as [e|] eqn:Hh.
  - unfold put_if_absent. rewrite Hh. cbn. lia.
  - rewrite put_fresh by done. cbn. rewrite len_app. lia.
Qed.

Lemma blob_ok_fits data : fits_frame data → blob_ok (blake3 data) data ∧ len data + 36 ≤ MAX_FRAME_SIZE.
Proof.
  unfold fits_frame, put_blob_payload, blob_ok, MAX_FRAME_SIZE. rewrite !len_app, len_write_u32, blake3_length.
  intros. split; [split; [done|]|]; lia.
Qed.

(** The exchange of frames for one blob. *)
Lemma put_blob_exchange data cl conn sv e blobs' :
  ready ctx tnow cl → fits_frame data →
  put_if_absent (blake3 data) data (st_blob_store (sv_store sv)) = (Ok e, blobs') →
  ∃ was_new sv', Client.put_blob (server_peer now) ctx tnow data cl (Some conn, sv)
      = (Ok (mkPutBlobResult (blake3 data) was_new), next_request cl, (Some conn, sv'))
    ∧ sv_store sv' = with_blobs blobs' (sv_store sv).
Proof.
  intros Hready Hfits Hput. destruct (blob_ok_fits data Hfits) as [[_ Hl] _].
  destruct (small_requests_roundtrip 0 get_last_options_default 0 (replicate 32 Byte.x00) data)
    as (_ & _ & _ & Hparse); [done..|].
  set (was_new := negb (contains (st_blob_store (sv_store sv)) (blake3 data))).
  pose proof (blake3_length data) as Hh.
  destruct (responses_roundtrip 0 0 0 (blake3 data) was_new 0 []) as (_ & _ & _ & Hresp & _); [done..|].
  exists was_new. eexists. split; [|shelve]. unfold Client.put_blob. rewrite <- Hresp.
  apply call_answered; [done..| |].
  { unfold encode_put_blob_resp. rewrite len_app, blake3_length. done. }
  eapply (server_peer_reply now MSG_PUT_BLOB 0 _ _ conn sv PutBlob); [done..|apply wrap64_lt|done|].
  unfold dispatch. cbn [fh_msg_type]. unfold handle_put_blob. rewrite Hparse.
  cbn [pbr_data pbr_hash]. rewrite bool_decide_eq_true_2 by done. cbn [negb].
  change (sv_store (touched now conn sv)) with (sv_store sv). rewrite Hput. cbn. reflexivity.
  Unshelve. reflexivity.
Qed.

(** One blob is stored under its hash. *)
Lemma put_blob_served s0 m k B data c :
  linked s0 m (k + 1) c → fits_frame data → data ∈ B → clean B m → no_collision B →
  ∃ was_new c', upload_blob data c = (Ok was_new, c')
    ∧ ∃ m', linked s0 m' k c' ∧ m ⊆ m' ∧ clean B m' ∧ m' !! blake3 data = Some data.
Proof.
  intros (conn & sv & Hc & Hready & Hok & Hturn & Hroots & Hroom) Hfits Hin Hclean Hnc.
  destruct c as [cl l]. cbn in Hc, Hready. subst l.
  destruct (blob_ok_fits data Hfits) as [Hbok Hlen].
  assert (Hbf : blob_fits (sv_store sv) (blake3 data) data).
  { split; [done|]. unfold room, HEADER_SIZE, MAX_FRAME_SIZE in *. lia. }
  pose proof (data_ok_put _ _ _ _ Hok eq_refl Hbf) as Hok'.
  destruct (blob_rep_put _ _ (blake3 data) data (do_blobs _ _ Hok) Hbok) as [[e He] _];
    [apply Hbf|]. pose proof (pack_growth (blake3 data) data (st_blob_store (sv_store sv)) Hbok) as Hgrow.
  destruct (put_if_absent (blake3 data) data (st_blob_store (sv_store sv))) as [r blobs'] eqn:Hput.
  cbn in He, Hgrow. subst r. cbn [snd] in Hok'.
  destruct (put_blob_exchange data cl conn sv e blobs' Hready Hfits Hput) as (was_new & sv' & Hx & Hs).
  exists was_new, (next_request cl, (Some conn, sv')). split.
  { unfold upload_blob, client_put_blob, wired_client. cbn [fst snd]. by rewrite Hx. }
  exists (abs_put (blake3 data) data m). split; [|split; [|split]].
  - exists conn, sv'. split; [done|]. split; [by apply (ready_next ctx tnow)|]. rewrite Hs.
    split; [done|]. split; [done|]. split; [done|].
    unfold room, HEADER_SIZE, MAX_FRAME_SIZE in *. cbn. lia.
  - unfold abs_put. destruct (m !! blake3 data) eqn:Hm; [done|]. by apply insert_subseteq.
  - intros x y Hx'. unfold abs_put. destruct (m !! blake3 data) eqn:Hm; [by apply Hclean|].
    intros [[Hh <-]|[_ ?]]%lookup_insert_Some; [by apply Hnc|by apply Hclean].
  - unfold abs_put. destruct (m !! blake3 data) as [y|] eqn:Hm; [|by rewrite lookup_insert_eq].
    rewrite Hm. f_equal. by apply Hclean.
Qed.

(** A loop of an upload stores all its blobs. *)
Lemma upload_loop_served s0 B count l : ∀ m k c r,
  linked s0 m (k + len l) c → Forall fits_frame l → l ⊆ B → clean B m → no_collision B →
  ∃ r' c', try_each (upload_counted io_text count) l (r, c) = (Ok tt, (r', c'))
    ∧ (∀ f, (∀ d n x, f (count d n x) = f x) → f r' = f r :> bytes)
    ∧ ∃ m', linked s0 m' k c' ∧ m ⊆ m' ∧ clean B m' ∧ ∀ x, x ∈ l → m' !! blake3 x = Some x.
Proof.
  induction l as [|data l IH]; intros m k c r Hl Hfits Hsub Hclean Hnc.
  { rewrite len_nil, N.add_0_r in Hl. exists r, c. split; [done|]. split; [done|].
    exists m. split; [done|]. split; [done|]. split; [done|]. by intros x ?%elem_of_nil. }
  apply Forall_cons in Hfits as [Hd Hfits]. rewrite len_cons in Hl.
  replace (k + (1 + len l)) with (k + len l + 1) in Hl by lia.
  destruct (put_blob_served s0 m (k + len l) B data c Hl Hd) as (w & c1 & Heq & m1 & Hl1 & Hm1 & Hcl1 & Hx1);
    [apply Hsub; by left|done|done|].
  destruct (IH m1 k c1 (count data w r) Hl1 Hfits) as (r' & c' & Heq' & Hr' & m' & Hl' & Hm' & Hcl' & Hx');
    [intros x ?; apply Hsub; by right|done|done|].
  exists r', c'. cbn [try_each]. unfold upload_counted at 1. cbn [fst snd]. rewrite Heq.
  split; [done|]. split; [intros f Hf; by rewrite Hr', Hf|].
  exists m'. split; [done|]. split; [by trans m1|]. split; [done|].
  intros x [->|Hx]%elem_of_cons; [by eapply lookup_weaken|by apply Hx'].
Qed.

Lemma linked_weaken s0 m k k' c : linked s0 m k c → k' ≤ k → linked s0 m k' c.
Proof.
  intros (conn & sv & ? & ? & ? & ? & ? & Hroom) Hk. exists conn, sv.
  repeat (split; [done|]). unfold room in *. nia.
Qed.

(** The values of a map, in the order of an iteration. *)
Lemma elem_of_values {K V} `{Countable K} (m : gmap K V) v :
  v ∈ map snd (hash_iter m) ↔ ∃ k, m !! k = Some v.
Proof.
  rewrite list_elem_of_fmap. setoid_rewrite hash_iter_perm. split.
  - intros ([k v'] & -> & Hin%elem_of_map_to_list). by exists k.
  - intros (k & Hk). exists (k, v). split; [done|]. by apply elem_of_map_to_list.
Qed.

Lemma size_insert_all {A K} `{Countable K} (key : A → K) l : ∀ m,
  (size (insert_all key l m) ≤ length l + size m)%nat.
Proof.
  induction l as [|a l IH]; intros m; [done|]. cbn [insert_all foldl length].
  specialize (IH (<[key a := a]> m)). unfold insert_all in IH.
  rewrite map_size_insert in IH. destruct (m !! key a); cbn in IH; lia.
Qed.

Lemma len_values {A K} `{Countable K} (key : A → K) l :
  len (map snd (hash_iter (insert_all key l ∅))) ≤ len l.
Proof.
  pose proof (size_insert_all key l ∅) as Hs. rewrite map_size_empty in Hs.
  unfold len. rewrite length_map, hash_iter_perm, length_map_to_list. lia.
Qed.

(** The blobs under their own hashes, as the values of the map. *)
Lemma values_blake3 l : no_collision l →
  map snd (hash_iter (insert_all blake3 l ∅)) ⊆ l
  ∧ l ⊆ map snd (hash_iter (insert_all blake3 l ∅)).
Proof.
  intros Hnc. split; intros x.
  - rewrite elem_of_values. intros (k & [[? _]|?%lookup_empty_Some]%insert_all_lookup); done.
  - intros Hx. apply elem_of_values. exists (blake3 x).
    destruct (insert_all_in blake3 l ∅ x Hx) as [y Hy]. rewrite Hy. f_equal.
    apply insert_all_lookup in Hy as [[Hin Hh]|?%lookup_empty_Some]; [|done]. by apply Hnc.
Qed.

(** Sending files is sending their contents. *)
Lemma upload_files_contents fs : 
  (∀ f, f ∈ fs → ∃ content, fs_read (fr_path f) = Ok content) →
  ∃ contents, Forall2 (λ f content, fs_read (fr_path f) = Ok content) fs contents
    ∧ ∀ s, try_each (upload_file io_text) fs s
           = try_each (upload_counted io_text count_file) contents s.
Proof.
  induction fs as [|f fs IH]; intros Hfs; [by exists []|].
  destruct (Hfs f ltac:(by left)) as [content Hc].
  destruct IH as (contents & Hall & Heq); [intros g ?; apply Hfs; by right|].
  exists (content :: contents). split; [by constructor|]. intros s. cbn [try_each].
  unfold upload_file at 1. rewrite Hc. destruct (upload_counted _ _ _ s) as [[]]; [apply Heq|done].
Qed.

(** The contents that are sent are those of the tree. *)
Lemma file_contents p n contents :
  backed p n → no_collision (content_list n) →
  Forall2 (λ f content, fs_read (fr_path f) = Ok content)
    (map snd (hash_iter (insert_all fr_hash (file_list p n) ∅))) contents →
  contents ⊆ content_list n ∧ content_list n ⊆ contents.
Proof.
  intros Hback Hnc Hall. split; intros x Hx.
  - apply list_elem_of_lookup in Hx as [i Hi].
    destruct (Forall2_lookup_r _ _ _ _ _ Hall Hi) as (f & Hf & Hread).
    apply list_elem_of_lookup_2, elem_of_values in Hf as (k & Hk).
    apply insert_all_lookup in Hk as [[Hin _]|?%lookup_empty_Some]; [|done].
    destruct (Hback f Hin) as (c & Hc & Hread' & _). congruence.
  - destruct (content_file n p x Hx) as (f & Hf & Hh).
    destruct (insert_all_in fr_hash (file_list p n) ∅ f Hf) as [f' Hf'].
    assert (Hin : f' ∈ map snd (hash_iter (insert_all fr_hash (file_list p n) ∅)))
      by (apply elem_of_values; eauto).
    apply list_elem_of_lookup in Hin as [i Hi].
    destruct (Forall2_lookup_l _ _ _ _ _ Hall Hi) as (y & Hy & Hread).
    apply insert_all_lookup in Hf' as [[Hin Hh']|?%lookup_empty_Some]; [|done].
    destruct (Hback f' Hin) as (c & Hc & Hread' & _ & Hhash).
    assert (x = y) as ->; [|by eapply list_elem_of_lookup_2].
    rewrite Hread in Hread'. injection Hread' as <-. apply Hnc; [done|done|congruence].
Qed.

(** What an upload sends are the blobs of the tree, each hash once. *)
Lemma sent_blobs p n sn :
  captured p n sn → backed p n → no_collision (blobs n) →
  let trees := map snd (hash_iter (sn_trees sn)) in
  let links := map snd (hash_iter (sn_symlinks sn)) in
  ∃ contents,
    (∀ s, try_each (upload_file io_text) (map snd (hash_iter (sn_files sn))) s
          = try_each (upload_counted io_text count_file) contents s)
    ∧ (∀ x, x ∈ trees ++ contents ++ links ↔ x ∈ blobs n)
    ∧ len trees + (len contents + len links) ≤ len (blobs n).
Proof.
  intros (_ & Htrees & Hfiles & Hlinks & _) Hback Hnc.
  fold (insert_all blake3 (tree_list n) ∅) in Htrees.
  fold (insert_all fr_hash (file_list p n) ∅) in Hfiles.
  fold (insert_all blake3 (link_list n) ∅) in Hlinks. rewrite Htrees, Hfiles, Hlinks.
  assert (Hsub : ∀ l, l ⊆ blobs n → no_collision l) by (intros l; by apply no_collision_sub).
  destruct (values_blake3 (tree_list n)) as [Ht1 Ht2].
  { apply Hsub. intros x ?. apply elem_of_app. by left. }
  destruct (values_blake3 (link_list n)) as [Hk1 Hk2].
  { apply Hsub. intros x ?. unfold blobs. rewrite !elem_of_app. by (right; right). }
  destruct (upload_files_contents (map snd (hash_iter (insert_all fr_hash (file_list p n) ∅))))
    as (contents & Hall & Hfeq).
  { intros f (k & Hf)%elem_of_values.
    apply insert_all_lookup in Hf as [[Hin _]|?%lookup_empty_Some]; [|done].
    destruct (Hback f Hin) as (x & _ & ? & _). eauto. }
  destruct (file_contents p n contents Hback) as [Hc1 Hc2]; [|done|].
  { apply Hsub. intros x ?. unfold blobs. rewrite !elem_of_app. by (right; left). }
  exists contents. split; [exact Hfeq|]. split.
  - intros x. unfold blobs. rewrite !elem_of_app. split; intros [?|[?|?]]; auto.
  - pose proof (len_values blake3 (tree_list n)). pose proof (len_values blake3 (link_list n)).
    pose proof (len_values fr_hash (file_list p n)). pose proof (file_list_len n p).
    pose proof (Forall2_length _ _ _ Hall). unfold blobs. rewrite !len_app. unfold len in *. lia.
Qed.

Lemma upload_served s0 m n p sn c :
  captured p n sn → backed p n → no_collision (blobs n) → Forall fits_frame (blobs n) →
  clean (blobs n) m → linked s0 m (len (blobs n)) c →
  ∃ r c', upload io_text sn c = (Ok r, c') ∧ ur_root_hash r = node_hash n
    ∧ ∃ m', linked s0 m' 0 c' ∧ ∀ x, x ∈ blobs n → m' !! blake3 x = Some x.
Proof.
  intros Hcap Hback Hnc Hfits Hclean Hl.
  destruct (sent_blobs p n sn Hcap Hback Hnc) as (contents & Hfeq & Hsent & Hlen).
  unfold upload. set (ts := map snd (hash_iter (sn_trees sn))) in *.
  set (ls := map snd (hash_iter (sn_symlinks sn))) in *.
  set (r0 := mkUploadResult (sn_root_hash sn) 0 0 0 0 0).
  assert (Hsub : ∀ l, l ⊆ ts ++ contents ++ ls → Forall fits_frame l ∧ l ⊆ blobs n).
  { intros l Hlb. assert (l ⊆ blobs n) by (intros x ?; by apply Hsent, Hlb). split; [|done].
    apply Forall_forall. rewrite Forall_forall in Hfits. auto. }
  destruct (Hsub ts) as [Hft Hst]; [intros x ?; apply elem_of_app; auto|].
  destruct (Hsub contents) as [Hfc Hsc]; [intros x ?; rewrite !elem_of_app; auto|].
  destruct (Hsub ls) as [Hfl Hsl]; [intros x ?; rewrite !elem_of_app; auto|].
  destruct (upload_loop_served s0 (blobs n) count_tree ts m (len contents + len ls) c r0)
    as (r1 & c1 & -> & Hr1 & m1 & Hl1 & Hm1 & Hcl1 & Hx1); [|done..|].
  { eapply linked_weaken; [exact Hl|]. lia. }
  rewrite Hfeq.
  destruct (upload_loop_served s0 (blobs n) count_file contents m1 (len ls) c1 r1)
    as (r2 & c2 & -> & Hr2 & m2 & Hl2 & Hm2 & Hcl2 & Hx2); [|done..|].
  { eapply linked_weaken; [exact Hl1|]. lia. }
  destruct (upload_loop_served s0 (blobs n) count_file ls m2 0 c2 r2)
    as (r3 & c3 & -> & Hr3 & m3 & Hl3 & Hm3 & Hcl3 & Hx3); [done..|].
  exists r3, c3. split; [done|]. split.
  { rewrite (Hr3 ur_root_hash), (Hr2 ur_root_hash), (Hr1 ur_root_hash); [apply Hcap|..];
      by intros d [] x. }
  exists m3. split; [done|]. intros x. rewrite <- Hsent, !elem_of_app.
  intros [Hx|[Hx|Hx]].
  - eapply lookup_weaken; [by apply Hx1|by trans m2].
  - eapply lookup_weaken; [by apply Hx2|done].
  - by apply Hx3.
Qed.

(** ** Attaching the root *)

Lemma attach_exchange turn hash cl conn sv :
  ready ctx tnow cl → turn < U64 → len hash = 32 →
  is_Some (ts_turns (st_turn_store (sv_store sv)) !! turn) →
  contains (st_blob_store (sv_store sv)) hash = true →
  ∃ sv', Client.attach_fs (server_peer now) ctx tnow turn hash cl (Some conn, sv)
      = (Ok (mkAttachFsResult turn hash), next_request cl, (Some conn, sv'))
    ∧ sv_store sv' = (Store.attach_fs turn hash (sv_store sv)).2
    ∧ fs_roots (st_fs_roots (sv_store sv')) !! turn = Some hash.
Proof.
  intros Hready Hturn Hh [rec Hrec] Hhas.
  destruct (small_requests_roundtrip 0 get_last_options_default turn hash [])
    as (_ & _ & Hparse & _); [done..|].
  destruct (responses_roundtrip 0 turn 0 hash false 0 []) as (_ & _ & Hresp & _); [done..|].
  assert (Hst : Store.attach_fs turn hash (sv_store sv)
    = (Ok tt, with_roots (FsStore.attach turn hash (st_fs_roots (sv_store sv))) (sv_store sv))).
  { unfold Store.attach_fs, TurnStore.get_turn. rewrite Hrec. cbn [ok_or]. by rewrite Hhas. }
  eexists. split; [|shelve]. unfold Client.attach_fs. rewrite <- Hresp.
  apply call_answered; [done..| |].
  { unfold encode_attach_fs_resp. rewrite len_app, len_write_u64, Hh. done. }
  eapply (server_peer_reply now MSG_ATTACH_FS 0 _ _ conn sv AttachFs); [done..|apply wrap64_lt| |].
  { unfold attach_fs_payload. rewrite len_app, len_write_u64, Hh. done. }
  unfold dispatch. cbn [fh_msg_type]. unfold handle_attach. rewrite Hparse.
  cbn [afr_turn_id afr_fs_root_hash].
  change (sv_store (touched now conn sv)) with (sv_store sv).
  rewrite Hst. reflexivity.
  Unshelve. rewrite Hst. split; [reflexivity|]. cbn. by rewrite lookup_insert_eq.
Qed.

(** The store finds the files of a tree whose root is attached to the turn. *)
Lemma get_fs_file_captured s m turn mode cs path part rest :
  data_ok s m → node_fits (NDir mode cs) →
  (∀ x, x ∈ blobs (NDir mode cs) → m !! blake3 x = Some x) →
  fs_roots (st_fs_roots s) !! turn = Some (node_hash (NDir mode cs)) →
  path_parts path = part :: rest →
  file_answer (NDir mode cs) (part :: rest) (get_fs_file s turn path).
Proof.
  intros Hok Hfits Hm Hroot Hpath. unfold get_fs_file, get_inherited. rewrite Hroot.
  cbn [ok_or mbind result_bind]. apply file_at_path_captured; [done| |done].
  intros x Hx. unfold blob_get, BlobStore_reader. by rewrite (get_rep _ _ _ (do_blobs _ _ Hok)), Hm.
Qed.

(** C13. A directory of the client, served by the server. A directory is captured, uploaded and attached
    to a turn that exists, over an open connection. The file system does not change during the
    call (it is the parameter of this section: [upload] reads each file a second time, and a file that
    changed in between leaves a blob missing without an error), links are not followed,
    there are no more files than the limit, every blob fits a frame, the server has room for them, and
    no two blobs, old or new, share a hash. Then the call succeeds with the hash of the tree, and
    the server answers every path with a part ([path_parts]) in the snapshot of the turn with the
    contents of the file, or the target of the link, and the entry that were on the disk, as far as
    the options keep them, and every other path with an error. *)
Theorem upload_and_attach_served fuel root p n n' opts turn time duration (c : wired) conn sv :
  root_holds root p n → o_follow_symlinks (all_options opts) = false → (height n ≤ fuel)%nat →
  files_tried (all_options opts) [] n ≤ o_max_files (all_options opts) →
  kept (all_options opts) [] n = Some n' →
  no_collision (blobs n') → Forall fits_frame (blobs n') →
  c.2 = (Some conn, sv) → ready ctx tnow c.1 → StoreInvariant.reachable (sv_store sv) →
  room (len (blobs n')) (sv_store sv) →
  (∀ x y, x ∈ blobs n' → BlobStore.get (st_blob_store (sv_store sv)) (blake3 x) = Ok y → y = x) →
  turn < U64 → is_Some (ts_turns (st_turn_store (sv_store sv)) !! turn) →
  ∃ r c', upload_and_attach io_text fuel root turn opts time duration c = Some (Ok r, c')
    ∧ ur_root_hash r = node_hash n'
    ∧ ∃ conn' sv', c'.2 = (Some conn', sv')
        ∧ ∀ path part rest, path_parts path = part :: rest →
            file_answer n' (part :: rest) (get_fs_file (sv_store sv') turn path).
Proof.
  intros Hroot Hfollow Hfuel Hmax Hk Hnc Hfits Hlink Hready Hreach Hroom Hclean Hturn Hhas.
  destruct (capture_exact fuel root p n opts time duration Hroot Hfollow Hfuel) as (r & Hr & Hout).
  destruct r as [sn|e]; [|lia]. destruct Hout as (n1 & Hk1 & Hcap & _). simplify_eq.
  destruct Hroot as (mode & cs & size & -> & _ & _ & Hhold).
  pose proof (kept_fits _ _ _ _ _ Hhold Hk) as Hnf. pose proof (kept_backed _ _ _ _ _ Hhold Hk) as Hback.
  rewrite kept_dir in Hk. injection Hk as <-.
  set (n' := NDir (N.land mode 4095) (kept_children (all_options opts) [] cs)) in *.
  destruct (store_inv_reachable _ Hreach) as [[m Hok] _].
  destruct (upload_served (sv_store sv) m n' p sn c Hcap Hback Hnc Hfits)
    as (res & c1 & Hup & Hres & m1 & (conn1 & sv1 & Hc1 & Hready1 & Hok1 & Ht1 & Hr1 & _) & Hall).
  { intros x y Hx Hy. apply (Hclean x y Hx). by rewrite (get_rep _ _ _ (do_blobs _ _ Hok)), Hy. }
  { by exists conn, sv. }
  destruct c1 as [cl1 l1]. cbn in Hc1, Hready1. subst l1.
  pose proof (node_blob_in _ Hnf) as Hblob. apply Hall in Hblob. fold (node_hash n') in Hblob.
  destruct (attach_exchange turn (node_hash n') cl1 conn1 sv1 Hready1 Hturn) as (sv2 & Hat & Hs2 & Hroot2).
  { apply blake3_length. }
  { by rewrite Ht1. }
  { unfold contains. apply bool_decide_eq_true, elem_of_dom.
    rewrite (rep_dom _ _ (do_blobs _ _ Hok1)). apply elem_of_dom. eauto. }
  exists res, (next_request cl1, (Some conn1, sv2)). split.
  { unfold upload_and_attach. rewrite Hr. cbn [mbind option_bind]. rewrite Hup.
    destruct Hcap as [-> _]. unfold client_attach_fs, wired_client. cbn [fst snd]. by rewrite Hat. }
  split; [done|]. exists conn1, sv2. split; [done|]. intros path part rest Hpath.
  apply (get_fs_file_captured _ m1); [|done..]. rewrite Hs2. by apply data_ok_attach.
Qed.
End upload.

(** The directory of [FsTreeReads.ReadsSample], attached to the only turn of a store. *)
Module UploadSample.
Import FsSample ReadsSample.
#[local] Existing Instances Sample.crc Sample.crc_laws Sample.zstd Sample.zstd_laws Sample.pread
  Sample.unicode Sample.relative_dates Sample.chrono.
#[local] Instance text : IoText := λ _, $"io error".

Definition s0 : Store :=
  match Store.open [] [] [] [] [] [] [] with
  | Ok s => s
  | Err _ => mkStore (mkBlobStore [] [] ∅) (mkTurnStore [] [] [] [] ∅ ∅ ∅ ∅ 1 1)
               (mkFsRootsIndex [] ∅) ∅ CqlIndexes.indexes_new
  end.
Definition s1 : Store := (Store.create_context 0 100 s0).2.
Definition payload : bytes := $"turn".
Definition s2 : Store :=
  (Store.append_turn 1 0 ($"t") 1 1 0 (len payload) (blake3 payload) payload 101 s1).2.

Lemma reachable_served : StoreInvariant.reachable s2.
Proof.
  apply (reachable_step s1).
  { apply (reachable_step s0); [apply (reachable_empty [])|exact (step_create 0 100 s0 eq_refl)].
    vm_compute; reflexivity. }
  refine (step_append 1 0 ($"t") 1 1 0 (len payload) (blake3 payload) payload 101 s1 _ _ _).
  - split_and!; vm_compute; reflexivity.
  - vm_compute; reflexivity.
  - intros raw Hc. assert (raw = payload) as -> by (vm_compute in Hc; by injection Hc).
    split; [split; vm_compute; reflexivity|]. vm_compute; reflexivity.
Qed.

Definition conn : Conn := mkConn 1 ($"peer") true ($"cli").
Definition sv : Server := mkServer s2 Sessions.tracker_new bus_new metrics_new.
Definition start : wired := (client_new 30000 ($"cli"), (Some conn, sv)).

Lemma frames_fit : Forall fits_frame (blobs kept_node).
Proof.
  assert (Hb : forallb (λ x, len (put_blob_payload x) <=? MAX_FRAME_SIZE) (blobs kept_node) = true)
    by (vm_compute; reflexivity).
  apply Forall_forall. intros x Hx%list_elem_of_In. rewrite forallb_forall in Hb.
  by apply N.leb_le, Hb.
Qed.

Lemma nothing_stored x y :
  x ∈ blobs kept_node → BlobStore.get (st_blob_store s2) (blake3 x) = Ok y → y = x.
Proof.
  assert (Hb : forallb (λ x, negb (is_ok (BlobStore.get (st_blob_store s2) (blake3 x))))
    (blobs kept_node) = true) by (vm_compute; reflexivity).
  intros Hx%list_elem_of_In Hget. rewrite forallb_forall in Hb. apply Hb in Hx.
  rewrite Hget in Hx. discriminate Hx.
Qed.

Lemma upload_and_attach_served_witness :
  ∃ r c', @upload_and_attach _ _ _ _ _ _ (wired_client background 0 9) io_text 4 ($"/r") 1 opts 0 0
             start = Some (Ok r, c')
    ∧ ∃ conn' sv', c'.2 = (Some conn', sv')
        ∧ (∃ e, get_fs_file (sv_store sv') 1 ($"sub/c") = Ok ($"other", e))
        ∧ (∃ e, get_fs_file (sv_store sv') 1 ($"link") = Ok ($"a.txt", e))
        ∧ ∃ e, get_fs_file (sv_store sv') 1 ($"sub/skip") = Err e.
Proof.
  destruct (upload_and_attach_served background 0 9 4 ($"/r") ($"/r") root_node kept_node opts 1 0 0
    start conn sv) as (r & c' & Hup & _ & conn' & sv' & Hl & Hans);
    [exact root_holds_files|vm_compute; reflexivity|apply Nat.leb_le; vm_compute; reflexivity|
     vm_compute; discriminate|vm_compute; reflexivity|exact no_collision_kept|exact frames_fit|
     reflexivity|split_and!; vm_compute; reflexivity|exact reachable_served|vm_compute; reflexivity|
     exact nothing_stored|vm_compute; reflexivity|by eexists; vm_compute|].
  exists r, c'. split; [exact Hup|]. exists conn', sv'. split; [exact Hl|]. split; [|split].
  - eexists. exact (Hans ($"sub/c") ($"sub") [$"c"] eq_refl).
  - eexists. exact (Hans ($"link") ($"link") [] eq_refl).
  - exact (Hans ($"sub/skip") ($"sub") [$"skip"] eq_refl).
Defined.

End UploadSample.
