(* ===== verification/FollowSpec.v ===== *)
(** * FollowSpec: following loses and repeats nothing

    The thread of [Follow] is verified against the interface [TurnClient]: a world has the histories of
    the contexts and the turns handed on for each. [TurnClientLaws] says what a client promises;
    the last section proves that a client of the store keeps the promise. *)

From S2P Require Import Prelude Bytes External Json JsonCodec BlobStore TurnStore TurnHistory TurnRecovery.
From S2P Require Import FsStore Metadata CqlIndexes Store StoreInvariant StoreSpec ClientWire Threads.
From S2P Require Import Subscribe ClientEvents Follow Wire.

Open Scope N_scope.

(** ** The promise of a client *)

(** The depth of the newest turn, and zero for a context without turns. *)
Definition newest_depth (h : list ClientTurnRecord) : N := len h - 1.

(** The turns of a context from the oldest: consecutive depths from zero, and different ids. *)
Record history_ok (h : list ClientTurnRecord) : Prop := {
  ho_depth : ∀ i t, h !! i = Some t → ctr_depth t = N.of_nat i;
  ho_ids : NoDup (map ctr_turn_id h);
  ho_len : len h < U32
}.

Section laws.
Context {W : Type} `{!TurnClient W}.
Variable good : W → Prop.
Variable history : W → N → list ClientTurnRecord.
Variable out : W → N → list ClientTurnRecord.

(** A step of the world in which other clients may append, and nothing is handed on. *)
Definition grows (w w' : W) : Prop :=
  good w' ∧ (∀ c, history w c `prefix_of` history w' c) ∧ ∀ c, out w' c = out w c.

(** A step that appends nothing. *)
Definition still (w w' : W) : Prop :=
  good w' ∧ (∀ c, history w' c = history w c) ∧ ∀ c, out w' c = out w c.

(** The client reads one state of the history: no turn is appended between the answer to
    [get_head] and the answer to [get_last]. Either may fail. *)
Class TurnClientLaws : Prop := {
  tc_history_ok : ∀ w c, good w → history_ok (history w c);
  tc_head : ∀ w c, good w → still w (tc_get_head c w).2
    ∧ ∀ head, (tc_get_head c w).1 = Ok head → cch_head_depth head = newest_depth (history w c);
  tc_last : ∀ w c n, good w → 0 < n → still w (tc_get_last c (mkGetLastOptions n true) w).2
    ∧ ∀ ts, (tc_get_last c (mkGetLastOptions n true) w).1 = Ok ts →
        ts = last_n (N.to_nat n) (history w c)
}.
End laws.

(** ** The state of a context *)

(** The state after the turns [d] have been handed on. *)
Record follow_inv (st : FollowState) (d : list ClientTurnRecord) : Prop := {
  fi_max : 0 < fo_max_seen st;
  fi_seen : fo_seen st = list_to_set (fo_seen_order st);
  fi_order : NoDup (fo_seen_order st);
  fi_ids : ∀ id, id ∈ fo_seen_order st → id ∈ map ctr_turn_id d;
  fi_nonempty : fo_seen_order st ≠ [] ↔ d ≠ [];
  fi_last : fo_has_last st = true ↔ d ≠ [];
  fi_depth : d ≠ [] → fo_last_seen_depth st = newest_depth d
}.

Lemma follow_state_new_inv max : follow_inv (follow_state_new max) [].
Proof.
  split; cbn; try done; [|constructor].
  destruct (N.eqb_spec max 0); [done|]. lia.
Qed.

Lemma evict_suffix max order :
  NoDup order → 0 < max →
  ∃ kept, evict max order (list_to_set order) = (kept, list_to_set kept) ∧ kept `suffix_of` order
    ∧ (order ≠ [] → kept ≠ []).
Proof.
  induction order as [|o order IH]; intros Hnd Hmax; [by exists []|].
  apply NoDup_cons in Hnd as [Ho Hnd]. cbn [evict].
  destruct (N.ltb_spec max (len (o :: order))) as [Hlt|Hge]; [|by exists (o :: order)].
  replace (list_to_set (o :: order) ∖ {[o]} : gset N) with (list_to_set order : gset N) by set_solver.
  destruct (IH Hnd Hmax) as (kept & Hev & Hsuf & Hne). exists kept. split; [done|].
  split; [by apply suffix_cons_r|]. intros _. apply Hne. intros ->. rewrite len_cons, len_nil in Hlt. lia.
Qed.

Lemma record_turn_inv st d t :
  follow_inv st d → ctr_depth t = len d → ctr_turn_id t ∉ map ctr_turn_id d →
  follow_inv (record_turn t st) (d ++ [t]).
Proof.
  intros [Hmax Hseen Hord Hids Hne Hlast Hdepth] Ht Hid. unfold record_turn.
  assert (Hnd : NoDup (fo_seen_order st ++ [ctr_turn_id t])).
  { apply NoDup_app. split; [done|]. split; [|by apply NoDup_singleton].
    intros x Hx ->%list_elem_of_singleton. by apply Hid, Hids. }
  destruct (evict_suffix (fo_max_seen st) _ Hnd Hmax) as (kept & Hev & Hsuf & Hk).
  replace ({[ctr_turn_id t]} ∪ fo_seen st)
    with (list_to_set (fo_seen_order st ++ [ctr_turn_id t]) : gset N) by (rewrite Hseen; set_solver).
  rewrite Hev. assert (Hge : negb (fo_has_last st) || (fo_last_seen_depth st <=? ctr_depth t) = true).
  { destruct (fo_has_last st) eqn:Hl; [|done]. cbn. apply N.leb_le.
    rewrite Hdepth by (by apply Hlast). unfold newest_depth. lia. }
  rewrite Hge. split; cbn; try done.
  - destruct Hsuf as [k Hk']. rewrite Hk' in Hnd. by apply NoDup_app in Hnd as (_ & _ & ?).
  - intros id Hin. destruct Hsuf as [k Hk']. rewrite map_app. apply elem_of_app.
    assert (Hin' : id ∈ fo_seen_order st ++ [ctr_turn_id t]) by (rewrite Hk'; apply elem_of_app; by right).
    apply elem_of_app in Hin' as [?| ->%list_elem_of_singleton]; [left; auto|right; by left].
  - split; intros _; [by destruct d|]. apply Hk. by destruct (fo_seen_order st).
  - split; intros _; [by destruct d|done].
  - intros _. unfold newest_depth. rewrite len_app, len_cons, len_nil. lia.
Qed.

(** ** Handing on *)

Section spec.
Context {W : Type} `{!TurnClient W} `{Unicode} `{JsonText} `{DecodeText}.
Context (good : W → Prop) (history out : W → N → list ClientTurnRecord).
Context `{!TurnClientLaws good history out}.
Variable ctx_status : W → option CtxStatus * W.
Variable send : FollowTurn → thread FollowError W unit.

(** The turn is on the output channel; others may append meanwhile. *)
Definition handed (c : N) (t : ClientTurnRecord) (w w' : W) : Prop :=
  good w' ∧ (∀ c, history w c `prefix_of` history w' c)
  ∧ out w' c = out w c ++ [t] ∧ ∀ c', c' ≠ c → out w' c' = out w c'.

Hypothesis status_grows : ∀ w, good w → grows good history out w (ctx_status w).2.
Hypothesis send_spec : ∀ c t w r w',
  good w → send (mkFollowTurn c t) w = Some (r, w') →
  match r with
  | Ok _ => handed c t w w'
  | Err _ => grows good history out w w'
  end.

(** What synchronising a context does: it hands on turns of that context only. *)
Definition moved (c : N) (k : list ClientTurnRecord) (w w' : W) : Prop :=
  good w' ∧ (∀ c, history w c `prefix_of` history w' c)
  ∧ out w' c = out w c ++ k ∧ ∀ c', c' ≠ c → out w' c' = out w c'.

Lemma moved_none c w : good w → moved c [] w w.
Proof. intros Hw. split_and!; try done. by rewrite app_nil_r. Qed.

Lemma grows_moved c w w' : grows good history out w w' → moved c [] w w'.
Proof. intros (Hg & Hh & Ho). split_and!; try done. by rewrite Ho, app_nil_r. Qed.

Lemma still_grows w w' : still good history out w w' → grows good history out w w'.
Proof. intros (Hg & Hh & Ho). split_and!; try done. intros c. by rewrite Hh. Qed.

Lemma moved_trans c k1 k2 w w1 w2 : moved c k1 w w1 → moved c k2 w1 w2 → moved c (k1 ++ k2) w w2.
Proof.
  intros (_ & Hh1 & Ho1 & Hn1) (Hg & Hh2 & Ho2 & Hn2). split_and!; [done| | |].
  - intros c'. etrans; [apply Hh1|apply Hh2].
  - by rewrite Ho2, Ho1, app_assoc.
  - intros c' Hc'. by rewrite Hn2, Hn1.
Qed.

Lemma grows_trans w w1 w2 :
  grows good history out w w1 → grows good history out w1 w2 → grows good history out w w2.
Proof.
  intros (_ & Hh1 & Ho1) (Hg & Hh2 & Ho2). split_and!; [done| |].
  - intros c'. etrans; [apply Hh1|apply Hh2].
  - intros c. by rewrite Ho2, Ho1.
Qed.

Lemma deliver_spec c ts st d w r st' w' :
  good w → follow_inv st d → history_ok (d ++ ts) → out w c = d →
  deliver send c ts st w = Some (r, st', w') →
  ∃ k, k `prefix_of` ts ∧ follow_inv st' (d ++ k) ∧ moved c k w w' ∧ (r = Ok tt → k = ts).
Proof.
  revert st d w. induction ts as [|t ts IH]; intros st d w Hw Hst Hok Hout Hdel; cbn in Hdel.
  { simplify_eq. exists []. rewrite app_nil_r. split_and!; try done. by apply moved_none. }
  assert (Hfresh : ctr_turn_id t ∉ map ctr_turn_id d).
  { pose proof (ho_ids _ Hok) as Hnd. rewrite map_app in Hnd. cbn in Hnd.
    apply NoDup_app in Hnd as (_ & Hdis & _). intros Hin. apply (Hdis _ Hin). by left. }
  assert (Hseen : seen_turn (ctr_turn_id t) st = false).
  { unfold seen_turn. apply bool_decide_eq_false. rewrite (fi_seen _ _ Hst), elem_of_list_to_set.
    intros Hin. by apply Hfresh, (fi_ids _ _ Hst). }
  rewrite Hseen in Hdel. destruct (send _ w) as [[[[]|e] w1]|] eqn:Hs; [| |done].
  - apply send_spec in Hs; [|done]. cbn in Hs.
    destruct (IH (record_turn t st) (d ++ [t]) w1) as (k & Hk & Hinv & Hmoved & Hall).
    + apply Hs.
    + apply record_turn_inv; [done| |done]. rewrite (ho_depth _ Hok (length d) t); [done|].
      apply list_lookup_middle. done.
    + by rewrite <- app_assoc.
    + destruct Hs as (_ & _ & -> & _). by rewrite Hout.
    + done.
    + exists (t :: k). split_and!.
      * by apply prefix_cons.
      * by rewrite <- app_assoc in Hinv.
      * by apply (moved_trans c [t] k w w1 w').
      * intros Hr. f_equal. auto.
  - apply send_spec in Hs; [|done]. simplify_eq. exists []. rewrite app_nil_r. split_and!; try done.
    + apply prefix_nil.
    + by apply grows_moved.
Qed.

Lemma last_n_prefix {A} (d ts : list A) : last_n (length ts) (d ++ ts) = ts.
Proof.
  unfold last_n. rewrite length_app. replace (_ + _ - _)%nat with (length d) by lia.
  apply drop_app_length.
Qed.

(** The number of turns that are asked for reaches back to the first new one. *)
Lemma missing_reaches st d ts :
  follow_inv st d → history_ok (d ++ ts) →
  let n := missing_turns (newest_depth (d ++ ts)) st in
  (n = 0 → ts = []) ∧ (0 < n → last_n (N.to_nat n) (d ++ ts) = ts).
Proof.
  intros Hst Hok. unfold missing_turns. pose proof (ho_len _ Hok) as Hlen.
  rewrite len_app in Hlen. destruct (decide (d = [])) as [->|Hd].
  - assert (fo_has_last st = false) as -> by
      (destruct (fo_has_last st) eqn:Hl; [|done]; by apply (fi_last _ _ Hst) in Hl).
    cbn [andb app]. unfold newest_depth. rewrite len_nil in Hlen. rewrite wrap32_small by lia.
    split; [|intros _]; [intros Hz; destruct ts; [done|]; rewrite len_cons in Hz; lia|].
    unfold last_n. replace (_ - _)%nat with 0%nat by (unfold len; lia). done.
  - rewrite (proj2 (fi_last _ _ Hst) Hd), bool_decide_false.
    2:{ rewrite (fi_seen _ _ Hst). pose proof (proj2 (fi_nonempty _ _ Hst) Hd) as Hne.
        destruct (fo_seen_order st) as [|x l]; [done|]. set_solver. }
    cbn [andb negb]. rewrite (fi_depth _ _ Hst Hd). unfold newest_depth. rewrite len_app.
    assert (0 < len d) by (destruct d; [done|]; rewrite len_cons; lia).
    replace (len d + len ts - 1 - (len d - 1)) with (len ts) by lia. split.
    + unfold len. destruct ts; [done|cbn; lia].
    + intros _. replace (N.to_nat (len ts)) with (length ts) by (unfold len; lia).
      apply last_n_prefix.
Qed.

Lemma sync_context_spec c st d w r st' w' :
  good w → follow_inv st d → out w c = d → d `prefix_of` history w c →
  sync_context send c st w = Some (r, st', w') →
  ∃ k, follow_inv st' (d ++ k) ∧ moved c k w w' ∧ d ++ k `prefix_of` history w c
    ∧ (r = Ok tt → d ++ k = history w c).
Proof.
  intros Hw Hst Hout [ts Hts] Hsync. unfold sync_context in Hsync.
  pose proof (tc_history_ok _ _ _ w c Hw) as Hok. rewrite Hts in Hok.
  destruct (tc_head good history out w c Hw) as [Hstill Hhead].
  destruct (tc_get_head c w) as [[head|e] w1]; cbn [fst snd] in *.
  2:{ simplify_eq. exists []. rewrite app_nil_r. split_and!; try done.
      - by apply grows_moved, still_grows.
      - by eexists. }
  rewrite (Hhead _ eq_refl), Hts in Hsync.
  destruct (fo_has_last st && _) eqn:Hreg.
  { apply andb_true_iff in Hreg as [Hl Hlt%N.ltb_lt].
    rewrite (fi_depth _ _ Hst) in Hlt by (by apply (fi_last _ _ Hst)).
    unfold newest_depth in Hlt. rewrite len_app in Hlt. lia. }
  destruct (missing_reaches st d ts Hst Hok) as [Hzero Hreach].
  set (n := missing_turns _ st) in *. destruct (N.eqb_spec n 0) as [Hn|Hn].
  { rewrite Hzero, app_nil_r in Hts by done. simplify_eq. exists []. rewrite app_nil_r.
    split_and!; try done; [by apply grows_moved, still_grows|by rewrite Hts..]. }
  pose proof Hstill as (Hw1 & Hh1 & Ho1).
  destruct (tc_last good history out w1 c n Hw1 ltac:(lia)) as [Hstill2 Hlast].
  destruct (tc_get_last c _ w1) as [[page|e] w2]; cbn [fst snd] in *.
  2:{ simplify_eq. exists []. rewrite app_nil_r. split_and!; try done; [|by eexists].
      apply grows_moved. eapply grows_trans; by apply still_grows. }
  rewrite (Hlast _ eq_refl), Hh1, Hts, Hreach in Hsync by lia.
  destruct Hstill2 as (Hw2 & Hh2 & Ho2).
  destruct (deliver_spec c ts st d w2 r st' w') as (k & Hk & Hinv & Hmoved & Hall); try done.
  { by rewrite Ho2, Ho1. }
  exists k. split; [done|]. split; [|split].
  - apply (moved_trans c [] k w w2 w'); [|done]. apply grows_moved.
    eapply grows_trans; apply still_grows; [done|]. by split.
  - rewrite Hts. by apply prefix_app.
  - intros Hr. by rewrite Hall, Hts.
Qed.

(** ** The thread *)

Variable max_seen : N.
Variable recv : W → Received * W.
Hypothesis recv_grows : ∀ w, good w → grows good history out w (recv w).2.

Definition following (sts : gmap N FollowState) (w : W) : Prop :=
  good w ∧ ∀ c, follow_inv (default (follow_state_new max_seen) (sts !! c)) (out w c)
                ∧ out w c `prefix_of` history w c.

Lemma following_grows sts w w' : following sts w → grows good history out w w' → following sts w'.
Proof.
  intros [_ Hf] (Hg & Hh & Ho). split; [done|]. intros c. rewrite Ho.
  destruct (Hf c) as [Hinv Hpre]. split; [done|]. etrans; [exact Hpre|apply Hh].
Qed.

Lemma follow_event_spec ev sts w err sts' w' :
  following sts w → follow_event send max_seen ev sts w = Some (err, sts', w') →
  following sts' w' ∧ (∀ c, history w c `prefix_of` history w' c)
  ∧ ∀ event, ev_type ev = $"turn_appended" → decode_turn_appended_event (ev_data ev) = Ok event →
      err = None → out w' (tae_context_id event) = history w (tae_context_id event).
Proof.
  intros [Hw Hf] Hev. unfold follow_event in Hev.
  destruct (bool_decide _) eqn:Hty; cbn [negb] in Hev.
  2:{ simplify_eq. split_and!; [by split|done|]. intros event Ht. by apply bool_decide_eq_false in Hty. }
  destruct (decode_turn_appended_event _) as [event|e] eqn:Hdec.
  2:{ simplify_eq. split_and!; [by split|done|]. by intros event _ [= ]. }
  set (c := tae_context_id event) in *. destruct (Hf c) as [Hinv Hpre].
  destruct (sync_context _ _ _ _) as [[[r st] w1]|] eqn:Hsync; [|done]. cbn in Hev. simplify_eq.
  destruct (sync_context_spec c _ _ w r st w' Hw Hinv eq_refl Hpre Hsync)
    as (k & Hinv' & (Hw' & Hh & Ho & Hother) & Hk & Hall).
  split_and!; [split; [done|]|done|].
  - intros c'. destruct (decide (c' = c)) as [->|Hne].
    + rewrite lookup_insert_eq. cbn [default from_option]. rewrite Ho. split; [done|].
      etrans; [exact Hk|apply Hh].
    + rewrite lookup_insert_ne, Hother by done. destruct (Hf c') as [? Hp]. split; [done|].
      etrans; [exact Hp|apply Hh].
  - intros event' _ [= <-] Herr. fold c. rewrite Ho. apply Hall. by destruct r as [[]|].
Qed.

Lemma follow_loop_spec rounds sts w errs sts' w' :
  following sts w → follow_loop ctx_status send recv max_seen rounds sts w = Some (errs, sts', w') →
  following sts' w'.
Proof.
  revert sts w errs. induction rounds as [|rounds IH]; intros sts w errs Hf Hloop; cbn in Hloop.
  { by simplify_eq. }
  assert (Hstatus := following_grows _ _ _ Hf (status_grows w (proj1 Hf))).
  destruct (ctx_status w) as [[s|] w1]; cbn [snd] in Hstatus; [by simplify_eq|].
  assert (Hrecv := following_grows _ _ _ Hstatus (recv_grows w1 (proj1 Hstatus))).
  destruct (recv w1) as [[ev| |] w2]; cbn [snd] in Hrecv; [|by eapply IH|by simplify_eq].
  destruct (follow_event _ _ ev sts w2) as [[[err sts2] w3]|] eqn:Hev; [|done]. cbn in Hloop.
  destruct (follow_loop _ _ _ _ _ sts2 w3) as [[[errs3 sts3] w4]|] eqn:Hrest; [|done].
  cbn in Hloop. simplify_eq. eapply IH; [|exact Hrest].
  by eapply follow_event_spec in Hev as [? _].
Qed.

(** C32. Following loses and repeats nothing, over any client that keeps its promise: from the start of
    the thread, whatever it receives and however calls and sends fail, the turns handed on for
    a context are always a prefix of its history, from its first turn, in order and without
    gaps or repetitions; and when an event of a context has been handled without an error, they
    are the whole history from before the event, however small the window of remembered ids. *)
Theorem follow_gapless rounds w errs sts w' :
  good w → (∀ c, out w c = []) →
  follow_loop ctx_status send recv max_seen rounds ∅ w = Some (errs, sts, w') →
  (∀ c, out w' c `prefix_of` history w' c)
  ∧ ∀ ev event sts2 w2,
      ev_type ev = $"turn_appended" → decode_turn_appended_event (ev_data ev) = Ok event →
      follow_event send max_seen ev sts w' = Some (None, sts2, w2) →
      out w2 (tae_context_id event) = history w' (tae_context_id event).
Proof.
  intros Hw Hout Hloop. assert (Hf : following ∅ w).
  { split; [done|]. intros c. rewrite Hout, lookup_empty. cbn [default from_option].
    split; [apply follow_state_new_inv|apply prefix_nil]. }
  pose proof (follow_loop_spec _ _ _ _ _ _ Hf Hloop) as Hf'.
  split; [intros c; apply Hf'|]. intros ev event sts2 w2 Hty Hdec Hev.
  pose proof (follow_event_spec _ _ _ _ _ _ Hf' Hev) as (_ & _ & Hdone). by apply Hdone.
Qed.
End spec.

(** ** A client that keeps the promise: one that reads the store *)

Section store.
Context `{Crc32Laws} `{Blake3Laws} `{ZstdLaws} `{PreadSchedule} `{HashOrderLaws} `{Msgpack}
  `{Unicode}.

Record StoreWorld : Type := mkStoreWorld {
  sw_store : Store;
  sw_out : list FollowTurn
}.

Definition client_head (h : ContextHead) : ClientContextHead :=
  mkClientContextHead (ch_context_id h) (ch_head_turn_id h) (ch_head_depth h).

#[export] Instance store_client : TurnClient StoreWorld := {|
  tc_get_head c w :=
    (match Store.get_head (sw_store w) c with
     | Ok h => Ok (client_head h)
     | Err _ => Err ContextNotFound
     end, w);
  tc_get_last c opts w :=
    (match Store.get_last (sw_store w) c (glo_limit opts) (glo_include_payload opts) with
     | Ok ts => Ok (map client_turn ts)
     | Err _ => Err ContextNotFound
     end, w)
|}.

Definition store_turns (s : Store) : N := N.of_nat (size (ts_turns (st_turn_store s))).

(** The turns of a context as a client sees them. *)
Definition store_history (w : StoreWorld) (c : N) : list ClientTurnRecord :=
  match Store.get_last (sw_store w) c (store_turns (sw_store w)) true with
  | Ok ts => map client_turn ts
  | Err _ => []
  end.

Definition store_out (w : StoreWorld) (c : N) : list ClientTurnRecord :=
  map ft_turn (filter (λ t, ft_context_id t = c) (sw_out w)).

Definition store_good (w : StoreWorld) : Prop :=
  store_inv (sw_store w) ∧ store_turns (sw_store w) < U32.

(** All pages of a context are ends of one list of turns. *)
Lemma store_pages s m c :
  data_ok s m → is_Some (ts_heads (st_turn_store s) !! c) →
  ∃ l ts, context_history (st_turn_store s) c l
    ∧ Forall2 (λ r t, twm_record t = r) l ts
    ∧ (∀ n, Store.get_last s c n true = Ok (last_n (N.to_nat n) ts))
    ∧ len l ≤ store_turns s.
Proof.
  intros Hok Hc. pose proof (inv_wf _ (do_turns _ _ Hok)) as Hwf.
  destruct (context_history_exists (st_turn_store s) c Hwf Hc) as [l Hl].
  pose proof Hl as (h & Hh & Hhist). pose proof (wf_turns_ok _ Hwf) as Ht.
  destruct (try_map_build (λ r t, twm_record t = r) (with_meta s true) l) as (ts & Hts & Hrel).
  { intros r Hr. destruct (with_meta_ok s m (tr_turn_id r) r true Hok) as (t & ? & ? & _).
    - by eapply (history_elem Ht).
    - eauto. }
  exists l, ts. split_and!; try done.
  - intros n. unfold Store.get_last. rewrite (get_last_history _ _ l) by done. cbn [mbind result_bind].
    by apply try_map_last_n.
  - pose proof (history_size Ht _ _ Hhist) as Hs. unfold len, store_turns. lia.
Qed.

Lemma store_history_all s m c l ts :
  data_ok s m → len l ≤ store_turns s → Forall2 (λ r t, twm_record t = r) l ts →
  (∀ n, Store.get_last s c n true = Ok (last_n (N.to_nat n) ts)) →
  ∀ out, store_history (mkStoreWorld s out) c = map client_turn ts.
Proof.
  intros Hok Hlen Hrel Hpages out. unfold store_history. cbn [sw_store]. rewrite Hpages.
  rewrite last_n_all; [done|]. rewrite <- (Forall2_length _ _ _ Hrel). unfold len in Hlen. lia.
Qed.

(** A context without a head has no turns to read. *)
Lemma no_head s c n :
  ts_heads (st_turn_store s) !! c = None → is_ok (Store.get_last s c n true) = false
    ∧ is_ok (Store.get_head s c) = false.
Proof.
  intros Hc. unfold Store.get_last, Store.get_head, TurnStore.get_last, TurnStore.get_head.
  by rewrite Hc.
Qed.

Lemma store_history_none w c :
  ts_heads (st_turn_store (sw_store w)) !! c = None → store_history w c = [].
Proof.
  intros Hc. unfold store_history. destruct (no_head _ _ (store_turns (sw_store w)) Hc) as [Hl _].
  by destruct (Store.get_last _ _ _ _).
Qed.

Lemma store_turn_ids l ts :
  Forall2 (λ r t, twm_record t = r) l ts →
  map ctr_turn_id (map client_turn ts) = map tr_turn_id l
  ∧ map ctr_depth (map client_turn ts) = map tr_depth l.
Proof.
  induction 1 as [|r t l ts <- Hrel [IH1 IH2]]; [done|]. cbn. by rewrite IH1, IH2.
Qed.

Lemma store_history_ok w c : store_good w → history_ok (store_history w c).
Proof.
  intros [[[m Hok] _] Hroom]. destruct w as [s out]. cbn [sw_store] in *.
  destruct (ts_heads (st_turn_store s) !! c) as [h|] eqn:Hh.
  2:{ rewrite store_history_none by done. by split; [|constructor|]. }
  destruct (store_pages s m c Hok ltac:(eauto)) as (l & ts & Hl & Hrel & Hpages & Hlen).
  rewrite (store_history_all s m c l ts) by done. destruct (store_turn_ids _ _ Hrel) as [Hids Hdepths].
  destruct Hl as (h' & _ & Hl). pose proof (wf_turns_ok _ (inv_wf _ (do_turns _ _ Hok))) as Ht. split.
  - intros i t Hi. apply (f_equal (λ k, k !! i)) in Hdepths.
    rewrite !list_lookup_fmap in Hdepths. rewrite list_lookup_fmap in Hi.
    destruct (ts !! i) as [x|] eqn:Hx; [|done]. cbn in Hi, Hdepths. simplify_eq.
    destruct (l !! i) as [r|] eqn:Hr; [|done]. cbn in Hdepths. injection Hdepths as Hd.
    cbn. rewrite Hd. by apply (history_depth Ht _ _ Hl).
  - rewrite Hids. destruct (history_ids Ht _ _ Hl) as [_ Hs]. clear -Hs.
    induction Hs as [|r l Hs IH Hall]; cbn; constructor; [|done].
    intros (r' & Hr' & Hin)%list_elem_of_fmap. rewrite Forall_forall in Hall.
    specialize (Hall _ Hin). lia.
  - unfold len in *. rewrite length_map, <- (Forall2_length _ _ _ Hrel). lia.
Qed.

#[export] Instance store_client_laws : TurnClientLaws store_good store_history store_out.
Proof.
  split.
  - apply store_history_ok.
  - intros w c Hgood. split; [by split_and!|]. intros head Hhead. cbn in Hhead.
    destruct w as [s out], Hgood as [[[m Hok] Hi] Hroom]. cbn [sw_store] in *.
    unfold Store.get_head, TurnStore.get_head in Hhead.
    destruct (ts_heads (st_turn_store s) !! c) as [h|] eqn:Hh; [|done]. cbn in Hhead. simplify_eq.
    destruct (store_pages s m c Hok ltac:(eauto)) as (l & ts & Hl & Hrel & Hpages & Hlen).
    rewrite (store_history_all s m c l ts) by done. unfold newest_depth, len.
    rewrite length_map, <- (Forall2_length _ _ _ Hrel).
    destruct Hl as (h' & Hh' & Hl). simplify_eq. pose proof (inv_wf _ (do_turns _ _ Hok)) as Hwf.
    cbn. destruct (wf_head_linked _ Hwf _ _ Hh) as [[Hz Hd]|(r & Hr & ->)].
    + rewrite Hz in Hl. inversion Hl; subst; [|done]. cbn. lia.
    + pose proof (history_length (wf_turns_ok _ Hwf) _ _ _ Hr Hl) as Hlen'. unfold len in Hlen'. lia.
  - intros w c n Hgood Hn. split; [by split_and!|]. intros ts Hts. cbn in Hts.
    destruct w as [s out], Hgood as [[[m Hok] Hi] Hroom]. cbn [sw_store] in *.
    destruct (ts_heads (st_turn_store s) !! c) as [h|] eqn:Hh.
    2:{ destruct (no_head _ _ n Hh) as [Hl _]. by destruct (Store.get_last _ _ _ _). }
    destruct (store_pages s m c Hok ltac:(eauto)) as (l & page & Hl & Hrel & Hpages & Hlen).
    rewrite (store_history_all s m c l page) by done. rewrite Hpages in Hts. simplify_eq.
    by rewrite last_n_map.
Qed.
End store.

Module FollowWitness.
#[local] Existing Instances Sample.crc Sample.crc_laws Sample.blake Sample.blake_laws Sample.zstd
  Sample.zstd_laws Sample.pread Sample.order Sample.order_laws Sample.msgpack Sample.unicode
  JsonSample.text.
#[local] Instance decode_error_text : DecodeText := λ _, $"error".

Definition turn_event : Event :=
  mkEvent ($"turn_appended")
    (json_text (JObject [($"context_id", JString ($"1")); ($"turn_id", JString ($"1"))])) [].

(** The event is received once, then the channel is closed. *)
Definition recv (w : StoreWorld) : Received * StoreWorld :=
  (if sw_out w is [] then RecvEvent turn_event else RecvDisconnected, w).
Definition ctx_status (w : StoreWorld) : option CtxStatus * StoreWorld := (None, w).
Definition send (t : FollowTurn) : thread FollowError StoreWorld unit := λ w,
  Some (Ok tt, mkStoreWorld (sw_store w) (sw_out w ++ [t])).

Definition w0 : StoreWorld := mkStoreWorld StoreWitness.s2 [].

Lemma good_w0 : store_good w0.
Proof. split; [apply store_inv_reachable, StoreWitness.reachable_s2|]. by vm_compute. Qed.

Lemma send_handed c t w r w' :
  store_good w → send (mkFollowTurn c t) w = Some (r, w') →
  match r with
  | Ok _ => handed store_good store_history store_out c t w w'
  | Err _ => grows store_good store_history store_out w w'
  end.
Proof.
  unfold send. intros Hg [= <- <-]. split_and!; [done|done| |].
  - unfold store_out. cbn [sw_out]. rewrite filter_app, map_app. f_equal.
    by rewrite filter_cons, decide_True by done.
  - intros c' Hc'. unfold store_out. cbn [sw_out]. rewrite filter_app, map_app.
    rewrite (filter_cons_False _ (mkFollowTurn c t)) by (cbn; congruence). by rewrite app_nil_r.
Qed.

Lemma grows_refl w : store_good w → grows store_good store_history store_out w w.
Proof. intros Hw. split; [done|]. by split. Qed.

Lemma follow_gapless_witness :
  ∃ errs sts w', follow_loop ctx_status send recv 1 3 ∅ w0 = Some (errs, sts, w')
    ∧ (∀ c, store_out w' c `prefix_of` store_history w' c)
    ∧ len (store_out w' 1) = 1.
Proof.
  destruct (follow_loop ctx_status send recv 1 3 ∅ w0) as [[[errs sts] w']|] eqn:Hloop.
  2:{ exfalso. vm_compute in Hloop. discriminate Hloop. }
  exists errs, sts, w'. split; [reflexivity|]. split.
  - refine (proj1 (follow_gapless store_good store_history store_out ctx_status send _ send_handed
      1 recv _ 3 w0 errs sts w' good_w0 _ Hloop)).
    + intros w Hw. apply (grows_refl w Hw).
    + intros w Hw. apply (grows_refl w Hw).
    + reflexivity.
  - assert (Hlen : option_map (λ r, len (store_out r.2 1))
      (follow_loop ctx_status send recv 1 3 ∅ w0) = Some 1) by (vm_compute; reflexivity).
    rewrite Hloop in Hlen. injection Hlen as Hlen. exact Hlen.
Defined.

(** A turn that is appended between the two answers hides an older one: it is never handed on, since
    the depth of the newest turn is what the next synchronisation starts from. *)
Definition t (id depth : N) : ClientTurnRecord := mkClientTurnRecord id (id - 1) depth [] 1 1 0 [] [].
#[local] Instance racing : TurnClient (list ClientTurnRecord * list FollowTurn) := {|
  tc_get_head c w := (Ok (mkClientContextHead c 0 (newest_depth w.1)), w);
  tc_get_last c opts w :=
    let h := w.1 ++ [t (len w.1 + 1) (len w.1)] in
    (Ok (last_n (N.to_nat (glo_limit opts)) h), (h, w.2))
|}.

Example racing_append_hides_a_turn :
  match sync_context (λ t w, Some (Ok tt, (w.1, w.2 ++ [t]))) 1 (follow_state_new 0) ([t 1 0], []) with
  | Some (r, st, w) => Some (r, map (λ t, ctr_turn_id (ft_turn t)) w.2, fo_last_seen_depth st)
  | None => None
  end = Some (Ok tt, [2], 1).
Proof. by vm_compute. Qed.

End FollowWitness.
