(* ===== verification/Reconnect.v ===== *)
(** * Reconnect: the client that reconnects

    [clients/rust/src/reconnect.rs]. Calls are put on a bounded queue that one worker thread serves; a
    call that fails with an error of the connection is repeated once after dialling again, with
    growing delays. The world [S] has the clock, the flags that other threads set, and the
    network; times are in nanoseconds. *)

From S2P Require Import Prelude Bytes External ClientWire Client Server HttpViews.

Open Scope N_scope.

Definition DEFAULT_MAX_RETRIES : N := 5.
Definition DEFAULT_RETRY_DELAY : N := 100000000.
Definition DEFAULT_MAX_RETRY_DELAY : N := 30000000000.
Definition DEFAULT_QUEUE_SIZE : N := 10000.

Record ReconnectConfig : Type := mkReconnectConfig {
  rcf_max_retries : N;
  rcf_retry_delay : N;
  rcf_max_retry_delay : N;
  rcf_queue_size : N
}.

Definition reconnect_config_default : ReconnectConfig :=
  mkReconnectConfig DEFAULT_MAX_RETRIES DEFAULT_RETRY_DELAY DEFAULT_MAX_RETRY_DELAY
    DEFAULT_QUEUE_SIZE.

(** ** Errors of the connection *)

Definition connection_patterns : list rstr :=
  [$"connection reset"; $"connection refused"; $"broken pipe"; $"use of closed network connection";
   $"network is unreachable"; $"no route to host"; $"connection timed out"; $"i/o timeout"].

Section errors.
Context `{Unicode} `{IoText}.

Definition contains_connection_pattern (msg : rstr) : bool :=
  let msg := to_lowercase msg in
  existsb (λ p, str_contains msg p) connection_patterns.

Definition is_connection_error (err : ClientError) : bool :=
  match err with
  | ClientClosed | ClientWire.Server _ _ | Timeout | Cancelled | QueueFull => false
  | ClientIo k =>
      match k with
      | ConnectionReset | ConnectionAborted | BrokenPipe | ConnectionRefused | TimedOut
      | UnexpectedEof | NotConnected => true
      | _ => contains_connection_pattern (io_text k)
      end
  | Tls msg | InvalidResponse msg => contains_connection_pattern msg
  | ContextNotFound => contains_connection_pattern ($"cxdb: context not found")
  | TurnNotFound => contains_connection_pattern ($"cxdb: turn not found")
  end.
End errors.

(** ** The world *)

(** What the worker sees of the world: the clock, the flag of a request's [CancelHandle] by its name,
    the flag [closed], sleeping, [dial_func], closing the connection of a client, and the
    callback [on_reconnect]. *)
Class Env (S : Type) : Type := {
  env_now : S → N;
  env_cancelled : N → S → bool;
  env_closed : S → bool;
  env_sleep : N → S → S;
  env_dial : S → result ClientError Client * S;
  env_hangup : S → S;
  env_on_reconnect : N → S → S
}.

(** A [RequestContext] whose flag is in the world. *)
Record CallContext : Type := mkCallContext {
  cc_deadline : option N;
  cc_flag : N
}.

(** [Inner], without the queue. *)
Record Inner : Type := mkInner {
  in_client : option Client;
  in_max_retries : N;
  in_retry_delay : N;
  in_max_retry_delay : N
}.

Definition set_client (client : option Client) (inner : Inner) : Inner :=
  mkInner client (in_max_retries inner) (in_retry_delay inner) (in_max_retry_delay inner).

Definition inner_new (cfg : ReconnectConfig) (client : Client) : Inner :=
  mkInner (Some client) (rcf_max_retries cfg) (rcf_retry_delay cfg) (rcf_max_retry_delay cfg).

Section reconnect.
Context {S : Type} `{!Env S} `{Unicode} `{IoText}.

(** [ctx.is_cancelled()], then the deadline. *)
Definition check_context (ctx : CallContext) (s : S) : result ClientError unit :=
  if env_cancelled (cc_flag ctx) s then Err Cancelled
  else match cc_deadline ctx with
       | Some deadline => if deadline <=? env_now s then Err Timeout else Ok tt
       | None => Ok tt
       end.

(** The context that a call of [Client] sees. *)
Definition request_context (ctx : CallContext) (s : S) : RequestContext :=
  mkRequestContext (cc_deadline ctx) (env_cancelled (cc_flag ctx) s).

Definition SLEEP_STEP : N := 50000000.

Fixpoint sleep_rounds (rounds : nat) (start duration : N) (ctx : CallContext) (s : S)
    : result ClientError unit * S :=
  let elapsed := env_now s - start in
  match rounds with
  | O => (Ok tt, s)
  | Datatypes.S rounds =>
      if duration <=? elapsed then (Ok tt, s)
      else if env_closed s then (Err ClientClosed, s)
      else match check_context ctx s with
           | Err e => (Err e, s)
           | Ok _ =>
               let remaining := duration - elapsed in
               let sleep_for := if remaining <? SLEEP_STEP then remaining else SLEEP_STEP in
               sleep_rounds rounds start duration ctx (env_sleep sleep_for s)
           end
  end.
Definition sleep_with_cancel (duration : N) (ctx : CallContext) (s : S)
    : result ClientError unit * S :=
  sleep_rounds (N.to_nat (duration / SLEEP_STEP) + 2) (env_now s) duration ctx s.

(** The rounds of the loop of [reconnect] from the attempt on. *)
Fixpoint reconnect_from (rounds : nat) (attempt delay : N) (last_err : option ClientError)
    (ctx : CallContext) (inner : Inner) (s : S) : result ClientError unit * Inner * S :=
  match rounds with
  | O => (Err (default ClientClosed last_err), inner, s)
  | Datatypes.S rounds =>
      let '(slept, s, delay) :=
        if 1 <? attempt
        then (sleep_with_cancel delay ctx s, N.min (delay * 2) (in_max_retry_delay inner))
        else (Ok tt, s, delay) in
      match slept with
      | Err e => (Err e, inner, s)
      | Ok _ =>
          if env_closed s then (Err ClientClosed, inner, s)
          else
            let s := match in_client inner with Some _ => env_hangup s | None => s end in
            let inner := set_client None inner in
            match env_dial s with
            | (Ok client, s) =>
                (Ok tt, set_client (Some client) inner, env_on_reconnect (cl_session_id client) s)
            | (Err err, s) => reconnect_from rounds (attempt + 1) delay (Some err) ctx inner s
            end
      end
  end.

Definition reconnect (ctx : CallContext) (inner : Inner) (s : S)
    : result ClientError unit * Inner * S :=
  reconnect_from (N.to_nat (in_max_retries inner)) 1 (in_retry_delay inner) None ctx inner s.

(** An operation of a request: a call of [Client] with the result that its closure stores. *)
Definition operation (A : Type) : Type := Client → S → result ClientError A * Client * S.

(** [process_request]: what is sent to [result_tx]. *)
Definition process_request {A} (ctx : CallContext) (op : operation A) (inner : Inner) (s : S)
    : result ClientError A * Inner * S :=
  match check_context ctx s with
  | Err e => (Err e, inner, s)
  | Ok _ =>
      match in_client inner with
      | None => (Err ClientClosed, inner, s)
      | Some client =>
          let '(r, client, s) := op client s in
          let inner := set_client (Some client) inner in
          match r with
          | Ok a => (Ok a, inner, s)
          | Err e =>
              if is_connection_error e then
                match reconnect ctx inner s with
                | (Err reconn_err, inner, s) => (Err reconn_err, inner, s)
                | (Ok _, inner, s) =>
                    match in_client inner with
                    | Some client =>
                        let '(r, client, s) := op client s in
                        (r, set_client (Some client) inner, s)
                    | None => (Err e, inner, s)
                    end
                end
              else (Err e, inner, s)
          end
      end
  end.

(** What one [recv] or [recv_timeout] of [wait_for_result] returns. *)
Inductive Waited (A : Type) : Type :=
| WaitResult (r : result ClientError A)
| WaitTimeout
| WaitDisconnected.
Arguments WaitResult {A} _.
Arguments WaitTimeout {A}.
Arguments WaitDisconnected {A}.

(** [wait_for_result]: each round is the world before and after the wait, and its outcome. *)
Fixpoint wait_for_result {A} (rounds : list (S * S * Waited A)) (ctx : CallContext)
    : option (result ClientError A) :=
  match rounds with
  | [] => None
  | (before, after, waited) :: rounds =>
      match check_context ctx before with
      | Err e => Some (Err e)
      | Ok _ =>
          match waited with
          | WaitResult r => Some r
          | WaitTimeout =>
              match check_context ctx after with
              | Err e => Some (Err e)
              | Ok _ => wait_for_result rounds ctx
              end
          | WaitDisconnected => Some (Err ClientClosed)
          end
      end
  end.

(** The checks of [enqueue] before the queue. *)
Definition enqueue_check (ctx : CallContext) (s : S) : result ClientError unit :=
  if env_closed s then Err ClientClosed else check_context ctx s.

(** [enqueue] of one caller while the worker is idle: the request is served, and the caller gets its
    result. *)
Definition enqueue {A} (ctx : CallContext) (op : operation A) (inner : Inner) (s : S)
    : result ClientError A * Inner * S :=
  match enqueue_check ctx s with
  | Err e => (Err e, inner, s)
  | Ok _ => process_request ctx op inner s
  end.

(** ** The calls *)

Context `{Blake3} (peer : bytes → S → bytes * S).

Definition lift_call {A}
    (f : RequestContext → N → Client → S → result ClientError A * Client * S) (ctx : CallContext)
    : Inner → S → result ClientError A * Inner * S :=
  enqueue ctx (λ client s, f (request_context ctx s) (env_now s) client s).

Definition create_context (ctx : CallContext) (base_turn_id : N) :=
  lift_call (λ rc now, Client.create_context peer rc now base_turn_id) ctx.
Definition fork_context (ctx : CallContext) (base_turn_id : N) :=
  lift_call (λ rc now, Client.fork_context peer rc now base_turn_id) ctx.
Definition get_head (ctx : CallContext) (context_id : N) :=
  lift_call (λ rc now, Client.get_head peer rc now context_id) ctx.
Definition append_turn (ctx : CallContext) (req : AppendRequest) :=
  lift_call (λ rc now, Client.append_turn peer rc now req) ctx.
Definition get_last (ctx : CallContext) (context_id : N) (opts : GetLastOptions) :=
  lift_call (λ rc now, Client.get_last peer rc now context_id opts) ctx.
Definition append_turn_with_fs (ctx : CallContext) (req : AppendRequest)
    (fs_root_hash : option bytes) :=
  lift_call (λ rc now, Client.append_turn_with_fs peer rc now req fs_root_hash) ctx.
Definition attach_fs (ctx : CallContext) (turn_id : N) (fs_root_hash : bytes) :=
  lift_call (λ rc now, Client.attach_fs peer rc now turn_id fs_root_hash) ctx.
Definition put_blob (ctx : CallContext) (data : bytes) :=
  lift_call (λ rc now, Client.put_blob peer rc now data) ctx.
End reconnect.

Definition session_id (inner : Inner) : N := from_option cl_session_id 0 (in_client inner).
Definition client_tag (inner : Inner) : rstr := from_option cl_client_tag [] (in_client inner).

(** ** The queue

    Callers, the worker and [close] as a state machine: every action is one operation on the queue,
    a channel of results, the channel [shutdown] or the flag [closed], and actions of different
    threads interleave. The capacity is positive, and no operation panics. *)
Module Queue.

(** [sender_loop]: waiting in [select!], serving a request, draining after the shutdown, or gone. *)
Inductive Worker : Type := Running | Busy (id : N) | Draining | Exited.

(** What a call returns: what [process_request] sent, or [ClientClosed], or [QueueFull], or
    [Cancelled] or [Timeout] by its own flag or deadline. *)
Inductive Answer : Type := Served | Closed | Full | Interrupted.

(** A call of [enqueue], with or without a deadline: past its checks, at the top of the loop of
    [wait_for_result], in [recv_timeout] or [recv], or returned. *)
Inductive Caller : Type :=
| Checked (timed : bool)
| Waiting (timed : bool)
| Receiving (timed : bool)
| Returned (a : Answer).

(** [qu_results] are the channels [result_tx] that hold a result. *)
Record Queue : Type := mkQueue {
  qu_capacity : N;
  qu_closed : bool;
  qu_shutdown : bool;
  qu_worker : Worker;
  qu_waiting : list N;
  qu_callers : gmap N Caller;
  qu_results : gmap N Answer
}.

Definition queue_new (capacity : N) : Queue := mkQueue capacity false false Running [] ∅ ∅.

Definition set_worker (worker : Worker) (q : Queue) : Queue :=
  mkQueue (qu_capacity q) (qu_closed q) (qu_shutdown q) worker (qu_waiting q) (qu_callers q)
    (qu_results q).
Definition set_waiting (waiting : list N) (q : Queue) : Queue :=
  mkQueue (qu_capacity q) (qu_closed q) (qu_shutdown q) (qu_worker q) waiting (qu_callers q)
    (qu_results q).
Definition set_caller (id : N) (caller : Caller) (q : Queue) : Queue :=
  mkQueue (qu_capacity q) (qu_closed q) (qu_shutdown q) (qu_worker q) (qu_waiting q)
    (<[id := caller]> (qu_callers q)) (qu_results q).

(** [let _ = result_tx.send(...)]: nothing, when the caller has left. *)
Definition deliver (id : N) (a : Answer) (q : Queue) : Queue :=
  match qu_callers q !! id with
  | Some (Returned _) => q
  | _ => mkQueue (qu_capacity q) (qu_closed q) (qu_shutdown q) (qu_worker q) (qu_waiting q)
           (qu_callers q) (<[id := a]> (qu_results q))
  end.

(** [gone] is what a check of the caller's flag and deadline finds. *)
Inductive Action : Type :=
| AStart (id : N) (timed gone : bool) | ASend (id : N)
| AWait (id : N) (gone : bool) | ATake (id : N) | AExpire (id : N) (gone : bool)
| ARecv | AServe | AShutdown | ADrain | AExit
| AClose | ASignal.

(** The state after an action, if it is possible. *)
Definition perform (a : Action) (q : Queue) : option Queue :=
  match a with
  | AStart id timed gone =>
      match qu_callers q !! id with
      | None =>
          Some (set_caller id (if qu_closed q then Returned Closed
                               else if gone then Returned Interrupted else Checked timed) q)
      | Some _ => None
      end
  | ASend id =>
      match qu_callers q !! id with
      | Some (Checked timed) =>
          Some (if len (qu_waiting q) <? qu_capacity q
                then set_caller id (Waiting timed) (set_waiting (qu_waiting q ++ [id]) q)
                else set_caller id (Returned Full) q)
      | _ => None
      end
  | AWait id gone =>
      match qu_callers q !! id with
      | Some (Waiting timed) =>
          Some (set_caller id (if gone then Returned Interrupted else Receiving timed) q)
      | _ => None
      end
  | ATake id =>
      match qu_callers q !! id, qu_results q !! id with
      | Some (Receiving _), Some a => Some (set_caller id (Returned a) q)
      | _, _ => None
      end
  | AExpire id gone =>
      match qu_callers q !! id with
      | Some (Receiving true) =>
          Some (set_caller id (if gone then Returned Interrupted else Waiting true) q)
      | _ => None
      end
  | ARecv =>
      match qu_worker q, qu_waiting q with
      | Running, id :: rest => Some (set_worker (Busy id) (set_waiting rest q))
      | _, _ => None
      end
  | AServe =>
      match qu_worker q with
      | Busy id => Some (set_worker Running (deliver id Served q))
      | _ => None
      end
  | AShutdown =>
      match qu_worker q with
      | Running => if qu_shutdown q then Some (set_worker Draining q) else None
      | _ => None
      end
  | ADrain =>
      match qu_worker q, qu_waiting q with
      | Draining, id :: rest => Some (deliver id Closed (set_waiting rest q))
      | _, _ => None
      end
  | AExit =>
      match qu_worker q, qu_waiting q with
      | Draining, [] => Some (set_worker Exited q)
      | _, _ => None
      end
  | AClose =>
      if qu_closed q then None
      else Some (mkQueue (qu_capacity q) true (qu_shutdown q) (qu_worker q) (qu_waiting q)
                   (qu_callers q) (qu_results q))
  | ASignal =>
      if qu_closed q && negb (qu_shutdown q)
      then Some (mkQueue (qu_capacity q) true true (qu_worker q) (qu_waiting q) (qu_callers q)
                   (qu_results q))
      else None
  end.

(** Performing actions one after the other. *)
Fixpoint run (l : list Action) (q : Queue) : option Queue :=
  match l with
  | [] => Some q
  | a :: l => perform a q ≫= run l
  end.

End Queue.
