(* ===== verification/Telemetry.v ===== *)
(** * Telemetry: sending without waiting

    [clients/rust/src/telemetry.rs]: any number of handles put requests into a bounded queue,
    dropping the oldest one when it is full, and a thread of its own sends them. The lock is held
    for one step at a time, so a run is a sequence of steps of handles and of the thread in any
    order. Connections, the server and sleeping are the interface [TelemetryWorld]. *)

From S2P Require Import Prelude Bytes External Server ClientWire Reconnect.

Open Scope N_scope.

Definition DEFAULT_QUEUE_CAPACITY : N := 512.
(** Milliseconds. *)
Definition DEFAULT_RECONNECT_DELAY : N := 5000.

Record TelemetryConfig (ClientOption : Type) : Type := mkTelemetryConfig {
  tc_addr : rstr;
  tc_use_tls : bool;
  tc_client_opts : list ClientOption;
  tc_queue_capacity : N;
  tc_reconnect_delay : N
}.
#[global] Arguments mkTelemetryConfig {_} _ _ _ _ _.
#[global] Arguments tc_addr {_} _.
#[global] Arguments tc_use_tls {_} _.
#[global] Arguments tc_client_opts {_} _.
#[global] Arguments tc_queue_capacity {_} _.
#[global] Arguments tc_reconnect_delay {_} _.

Record TelemetryStats : Type := mkTelemetryStats {
  ts_sent : N;
  ts_dropped_overflow : N;
  ts_dropped_error : N;
  ts_queue_len : N
}.

Record SharedState : Type := mkSharedState {
  sh_queue : list AppendRequest;
  sh_capacity : N;
  sh_stats : TelemetryStats;
  sh_shutdown : bool
}.

(** [dial] and [dial_tls], [Client::append_turn] and [thread::sleep]. *)
Class TelemetryWorld (ClientOption C W : Type) : Type := {
  tw_dial : bool → rstr → list ClientOption → W → result ClientError C * W;
  tw_append : C → AppendRequest → W → result ClientError unit * W;
  tw_sleep : N → W → W
}.

(** ** The builder *)

Section builder.
Context {ClientOption : Type}.
Implicit Types c : TelemetryConfig ClientOption.

Definition telemetry_config_default : TelemetryConfig ClientOption :=
  mkTelemetryConfig [] false [] DEFAULT_QUEUE_CAPACITY DEFAULT_RECONNECT_DELAY.
Definition builder_new (addr : rstr) : TelemetryConfig ClientOption :=
  mkTelemetryConfig addr false [] DEFAULT_QUEUE_CAPACITY DEFAULT_RECONNECT_DELAY.
Definition with_tls c : TelemetryConfig ClientOption :=
  mkTelemetryConfig (tc_addr c) true (tc_client_opts c) (tc_queue_capacity c) (tc_reconnect_delay c).
Definition with_queue_capacity (capacity : N) c : TelemetryConfig ClientOption :=
  mkTelemetryConfig (tc_addr c) (tc_use_tls c) (tc_client_opts c) capacity (tc_reconnect_delay c).
Definition with_reconnect_delay (delay : N) c : TelemetryConfig ClientOption :=
  mkTelemetryConfig (tc_addr c) (tc_use_tls c) (tc_client_opts c) (tc_queue_capacity c) delay.
Definition with_client_option (opt : ClientOption) c : TelemetryConfig ClientOption :=
  mkTelemetryConfig (tc_addr c) (tc_use_tls c) (tc_client_opts c ++ [opt]) (tc_queue_capacity c)
    (tc_reconnect_delay c).
End builder.

(** ** Handles *)

(** [TelemetrySender::start]: the state, after the thread was spawned or could not be. *)
Definition telemetry_start (capacity : N) (spawned : bool) : SharedState :=
  if spawned then mkSharedState [] capacity (mkTelemetryStats 0 0 0 0) false
  else mkSharedState [] capacity (mkTelemetryStats 0 0 1 0) true.

Definition telemetry_send (req : AppendRequest) (st : SharedState) : bool * SharedState :=
  if sh_shutdown st then (false, st)
  else
    let stats := sh_stats st in
    let overflowed := sh_capacity st <=? len (sh_queue st) in
    let queue := (if overflowed then tail (sh_queue st) else sh_queue st) ++ [req] in
    let overflow := if overflowed then wrap64 (ts_dropped_overflow stats + 1)
                    else ts_dropped_overflow stats in
    (negb overflowed,
     mkSharedState queue (sh_capacity st)
       (mkTelemetryStats (ts_sent stats) overflow (ts_dropped_error stats) (len queue))
       (sh_shutdown st)).

Definition telemetry_stats (st : SharedState) : TelemetryStats := sh_stats st.

Definition telemetry_shutdown (st : SharedState) : SharedState :=
  mkSharedState (sh_queue st) (sh_capacity st) (sh_stats st) true.

(** ** The thread *)

(** What became of a request: sent; refused, by an error after which the connection is kept or
    given up; or never tried, without a connection. *)
Inductive RequestOutcome : Type := OutcomeSent | OutcomeError (should_reconnect : bool) | OutcomeNoClient.

(** Where the thread is: in the wait for work, with a request that it took, with the outcome of
    the request, or at its end. It owns the connection. *)
Inductive WorkerPhase (C : Type) : Type :=
| Waiting (client : option C)
| Holding (client : option C) (req : AppendRequest)
| Accounting (client : option C) (req : AppendRequest) (outcome : RequestOutcome)
| Returned.
#[global] Arguments Waiting {_} _.
#[global] Arguments Holding {_} _ _.
#[global] Arguments Accounting {_} _ _ _.
#[global] Arguments Returned {_}.

Section worker.
Context {ClientOption C W : Type} `{!TelemetryWorld ClientOption C W} `{Unicode} `{IoText}.
Variable config : TelemetryConfig ClientOption.

Definition try_connect (w : W) : option C * W :=
  let (r, w) := tw_dial (C:=C) (tc_use_tls config) (tc_addr config) (tc_client_opts config) w in
  (result_ok r, w).

(** Up to the unlocking: the request in front of the queue, or the end. *)
Definition take_request (client : option C) (st : SharedState) : WorkerPhase C * SharedState :=
  match sh_queue st with
  | [] => (if sh_shutdown st then Returned else Waiting client, st)
  | req :: queue =>
      (Holding client req, mkSharedState queue (sh_capacity st) (sh_stats st) (sh_shutdown st))
  end.

(** Connecting if needed, and sending. *)
Definition send_request (client : option C) (req : AppendRequest) (w : W) : WorkerPhase C * W :=
  let (client, w) := match client with Some c => (Some c, w) | None => try_connect w end in
  match client with
  | Some c =>
      let (r, w) := tw_append c req w in
      match r with
      | Ok _ => (Accounting (Some c) req OutcomeSent, w)
      | Err err =>
          let should_reconnect := is_connection_error err in
          (Accounting (if should_reconnect then None else Some c) req
             (OutcomeError should_reconnect), w)
      end
  | None => (Accounting None req OutcomeNoClient, w)
  end.

(** The statistics, and the delay after an error. *)
Definition account (outcome : RequestOutcome) (st : SharedState) (w : W) : SharedState * W :=
  let stats := sh_stats st in
  let queue_len := len (sh_queue st) in
  let sent := mkTelemetryStats (wrap64 (ts_sent stats + 1)) (ts_dropped_overflow stats)
                (ts_dropped_error stats) queue_len in
  let dropped := mkTelemetryStats (ts_sent stats) (ts_dropped_overflow stats)
                   (wrap64 (ts_dropped_error stats + 1)) queue_len in
  let with_stats stats := mkSharedState (sh_queue st) (sh_capacity st) stats (sh_shutdown st) in
  match outcome with
  | OutcomeSent => (with_stats sent, w)
  | OutcomeError false => (with_stats dropped, w)
  | OutcomeError true | OutcomeNoClient =>
      (with_stats dropped, tw_sleep (C:=C) (tc_reconnect_delay config) w)
  end.

Record Telemetry : Type := mkTelemetry {
  te_shared : SharedState;
  te_worker : WorkerPhase C;
  te_world : W
}.

(** One step of [worker_loop]. *)
Definition worker_step (t : Telemetry) : Telemetry :=
  match te_worker t with
  | Waiting client =>
      let (phase, st) := take_request client (te_shared t) in mkTelemetry st phase (te_world t)
  | Holding client req =>
      let (phase, w) := send_request client req (te_world t) in mkTelemetry (te_shared t) phase w
  | Accounting client req outcome =>
      let (st, w) := account outcome (te_shared t) (te_world t) in
      mkTelemetry st (Waiting client) w
  | Returned => t
  end.

(** ** Runs *)

Inductive TelemetryEvent : Type :=
| HandleSends (req : AppendRequest)
| HandleShutsDown
| WorkerMoves.

Definition telemetry_step (t : Telemetry) (e : TelemetryEvent) : Telemetry :=
  match e with
  | HandleSends req =>
      mkTelemetry (telemetry_send req (te_shared t)).2 (te_worker t) (te_world t)
  | HandleShutsDown => mkTelemetry (telemetry_shutdown (te_shared t)) (te_worker t) (te_world t)
  | WorkerMoves => worker_step t
  end.

Definition telemetry_run (t : Telemetry) (events : list TelemetryEvent) : Telemetry :=
  foldl telemetry_step t events.

Definition telemetry_init (w : W) : Telemetry :=
  mkTelemetry (telemetry_start (tc_queue_capacity config) true) (Waiting None) w.

(** What happens to requests in a step. *)
Inductive Fate : Type := Accepted | Evicted | Delivered | Dropped.

Definition fates (t : Telemetry) (e : TelemetryEvent) : list (Fate * AppendRequest) :=
  let st := te_shared t in
  match e with
  | HandleSends req =>
      if sh_shutdown st then []
      else
        match sh_queue st with
        | oldest :: _ => if sh_capacity st <=? len (sh_queue st) then [(Evicted, oldest)] else []
        | [] => []
        end ++ [(Accepted, req)]
  | HandleShutsDown => []
  | WorkerMoves =>
      match te_worker t with
      | Accounting _ req OutcomeSent => [(Delivered, req)]
      | Accounting _ req _ => [(Dropped, req)]
      | _ => []
      end
  end.

Fixpoint history (t : Telemetry) (events : list TelemetryEvent) : list (Fate * AppendRequest) :=
  match events with
  | [] => []
  | e :: events => fates t e ++ history (telemetry_step t e) events
  end.

Definition in_hand (phase : WorkerPhase C) : list AppendRequest :=
  match phase with Holding _ req | Accounting _ req _ => [req] | _ => [] end.
End worker.
#[global] Arguments Telemetry C W : clear implicits.

(** The requests with some fates, in the order of the history. *)
Definition with_fates (p : Fate → bool) (h : list (Fate * AppendRequest)) : list AppendRequest :=
  omap (λ fr, if p fr.1 then Some fr.2 else None) h.
Definition is_accepted (f : Fate) : bool := match f with Accepted => true | _ => false end.
Definition is_evicted (f : Fate) : bool := match f with Evicted => true | _ => false end.
Definition is_delivered (f : Fate) : bool := match f with Delivered => true | _ => false end.
Definition is_dropped (f : Fate) : bool := match f with Dropped => true | _ => false end.
(** Delivered or dropped: the thread was done with it. *)
Definition is_handled (f : Fate) : bool := is_delivered f || is_dropped f.
Definition is_gone (f : Fate) : bool := is_evicted f || is_handled f.

Lemma with_fates_app p h h' : with_fates p (h ++ h') = with_fates p h ++ with_fates p h'.
Proof. apply omap_app. Qed.
Lemma with_fates_cons p f req h :
  with_fates p ((f, req) :: h) = (if p f then [req] else []) ++ with_fates p h.
Proof. cbn. by destruct (p f). Qed.
Lemma with_fates_nil p : with_fates p [] = [].
Proof. done. Qed.
Lemma len_one {A} (a : A) : len [a] = 1.
Proof. done. Qed.

Lemma wrap64_succ n : wrap64 (wrap64 n + 1) = wrap64 (n + 1).
Proof. apply N.Div0.add_mod_idemp_l. Qed.

Section spec.
Context {ClientOption C W : Type} `{!TelemetryWorld ClientOption C W} `{Unicode} `{IoText}.
Variable config : TelemetryConfig ClientOption.
Implicit Types t : Telemetry C W.

(** The promises of the queue after a history. *)
Record accounted (h : list (Fate * AppendRequest)) t : Prop := {
  acc_capacity : sh_capacity (te_shared t) = tc_queue_capacity config;
  acc_bounded : len (sh_queue (te_shared t)) ≤ N.max 1 (tc_queue_capacity config);
  acc_all : with_fates is_accepted h
    ≡ₚ with_fates is_gone h ++ in_hand (te_worker t) ++ sh_queue (te_shared t);
  acc_order : (with_fates is_handled h ++ in_hand (te_worker t) ++ sh_queue (te_shared t))
    `sublist_of` with_fates is_accepted h;
  acc_sent : ts_sent (sh_stats (te_shared t)) = wrap64 (len (with_fates is_delivered h));
  acc_dropped : ts_dropped_error (sh_stats (te_shared t)) = wrap64 (len (with_fates is_dropped h));
  acc_overflow : 0 < tc_queue_capacity config →
    ts_dropped_overflow (sh_stats (te_shared t)) = wrap64 (len (with_fates is_evicted h));
  acc_queue_len : len (sh_queue (te_shared t)) ≤ ts_queue_len (sh_stats (te_shared t))
    ≤ len (sh_queue (te_shared t)) + len (in_hand (te_worker t))
}.

Lemma accounted_init w : accounted [] (telemetry_init (C:=C) config w).
Proof. split; cbn; unfold len; cbn; try done; try lia. Qed.

Ltac history_step :=
  cbn [te_shared te_worker te_world sh_queue sh_capacity sh_stats sh_shutdown ts_sent ts_dropped_error
       ts_dropped_overflow ts_queue_len app tail snd];
  rewrite ?with_fates_app, ?with_fates_cons, ?with_fates_nil, ?app_nil_r;
  cbn [is_accepted is_evicted is_delivered is_dropped is_handled is_gone orb app];
  rewrite ?app_nil_r, ?len_app, ?len_cons, ?len_nil.

Lemma accounted_send h t req : accounted h t →
  accounted (h ++ fates t (HandleSends req)) (telemetry_step config t (HandleSends req)).
Proof.
  intros [Hc Hb Ha Ho Hs Hd Hv Hq]. destruct t as [[queue cap stats down] phase w].
  unfold telemetry_step, telemetry_send, fates.
  cbn [te_shared te_worker te_world sh_queue sh_capacity sh_stats sh_shutdown] in *. subst cap.
  destruct down; cbn [snd]; [rewrite app_nil_r; by split|].
  destruct (N.leb_spec (tc_queue_capacity config) (len queue)) as [Hfull|Hroom].
  - destruct queue as [|oldest queue]; rewrite ?app_nil_r, ?len_nil, ?len_cons in *;
      split; history_step; try done; try lia.
    + by rewrite Ha, <- app_assoc.
    + rewrite app_assoc. by apply sublist_app.
    + rewrite Ha. solve_Permutation.
    + rewrite !app_assoc. apply sublist_app; [|done]. etransitivity; [|exact Ho].
      rewrite <- app_assoc. apply sublist_app; [done|]. apply sublist_app; [done|].
      by apply sublist_cons.
    + intros Hpos. by rewrite Hv, wrap64_succ.
  - assert (Hf : match queue with oldest :: _ => [] | [] => [] end = [] :> list (Fate * AppendRequest))
      by by destruct queue.
    rewrite Hf. split; history_step; try done; try lia.
    + rewrite Ha. by rewrite !app_assoc.
    + rewrite !app_assoc. apply sublist_app; [|done]. by rewrite <- app_assoc.
Qed.
Lemma accounted_worker h t : accounted h t →
  accounted (h ++ fates t WorkerMoves) (telemetry_step config t WorkerMoves).
Proof.
  intros [Hc Hb Ha Ho Hs Hd Hv Hq]. destruct t as [[queue cap stats down] phase w].
  unfold telemetry_step, worker_step, fates.
  cbn [te_shared te_worker te_world sh_queue sh_capacity sh_stats sh_shutdown] in *. subst cap.
  destruct phase as [client|client req|client req outcome|]; cbn [in_hand app] in *.
  - unfold take_request. cbn [sh_queue]. destruct queue as [|req queue].
    + rewrite app_nil_r. by destruct down.
    + rewrite ?len_cons, ?len_nil in *. split; history_step; cbn [in_hand]; history_step; try done; lia.
  - assert (∃ client' outcome w', send_request config client req w = (Accounting client' req outcome, w'))
      as (client' & outcome & w' & ->).
    { unfold send_request. destruct client as [c|];
        [|destruct (try_connect config w) as [[c|] w1]; [|by eauto]];
        destruct (tw_append c req _) as [[?|?] ?]; by eauto. }
    rewrite app_nil_r. by split.
  - assert (∃ st' w', account config outcome (mkSharedState queue (tc_queue_capacity config) stats down) w
      = (st', w') ∧ sh_queue st' = queue ∧ sh_capacity st' = tc_queue_capacity config
      ∧ sh_stats st' = match outcome with
          | OutcomeSent => mkTelemetryStats (wrap64 (ts_sent stats + 1)) (ts_dropped_overflow stats)
                             (ts_dropped_error stats) (len queue)
          | _ => mkTelemetryStats (ts_sent stats) (ts_dropped_overflow stats)
                   (wrap64 (ts_dropped_error stats + 1)) (len queue)
          end) as (st' & w' & -> & Hq' & Hc' & Hs')
      by (destruct outcome as [|[]|]; eauto 10).
    rewrite len_one in Hq. destruct outcome; (split; history_step; rewrite ?Hq', ?Hc', ?Hs'; history_step;
      try done; try lia; try (by rewrite Ha, <- app_assoc); try (by rewrite <- app_assoc);
      try (by rewrite Hs, wrap64_succ); try (by rewrite Hd, wrap64_succ)).
  - rewrite app_nil_r. by split.
Qed.

Lemma accounted_step h t e : accounted h t → accounted (h ++ fates t e) (telemetry_step config t e).
Proof.
  destruct e; [apply accounted_send| |apply accounted_worker].
  intros []. unfold fates. rewrite app_nil_r. by split.
Qed.

Lemma accounted_run h t events : accounted h t →
  accounted (h ++ history config t events) (telemetry_run config t events).
Proof.
  revert h t. induction events as [|e events IH]; intros h t Ht; cbn [history telemetry_run foldl].
  { by rewrite app_nil_r. }
  rewrite app_assoc. by apply IH, accounted_step.
Qed.
(** C22. In every run of any handles and the thread: each accepted request is in exactly one place,
    the thread is done with them in the order in which they were accepted, the queue keeps its
    bound, and the statistics count what happened. *)
Theorem telemetry_accounts w events :
  let t := telemetry_init config w in
  accounted (history config t events) (telemetry_run config t events).
Proof. apply (accounted_run []), accounted_init. Qed.

(** ** After a shutdown *)

Fixpoint moves (events : list TelemetryEvent) : nat :=
  match events with
  | [] => 0
  | WorkerMoves :: events => S (moves events)
  | _ :: events => moves events
  end.

(** How many steps the thread has left. *)
Definition steps_left t : nat :=
  let n := length (sh_queue (te_shared t)) in
  match te_worker t with
  | Waiting _ => 3 * n + 1
  | Accounting _ _ _ => 3 * n + 2
  | Holding _ _ => 3 * n + 3
  | Returned => 0
  end.

(** Requests that go out if the server answers. *)
Definition outgoing t : list AppendRequest :=
  match te_worker t with
  | Holding _ req | Accounting _ req OutcomeSent => [req]
  | _ => []
  end ++ sh_queue (te_shared t).

Definition server_answers : Prop :=
  (∀ w, is_ok (tw_dial (C:=C) (tc_use_tls config) (tc_addr config) (tc_client_opts config) w).1 = true)
  ∧ ∀ (c : C) req (w : W), is_ok (tw_append c req w).1 = true.

Lemma down_stays e t : sh_shutdown (te_shared t) = true →
  sh_shutdown (te_shared (telemetry_step config t e)) = true.
Proof.
  intros Hd. destruct t as [[queue cap stats down] phase w]. cbn in Hd. subst down. destruct e; [done..|].
  cbn. unfold worker_step; cbn. destruct phase as [client|client req|client req outcome|]; cbn.
  - unfold take_request; cbn. by destruct queue.
  - by destruct (send_request config client req w).
  - by destruct outcome as [|[]|].
  - done.
Qed.

(** A step of the thread after a shutdown. *)
Lemma worker_step_down t : sh_shutdown (te_shared t) = true →
  steps_left (worker_step config t) = pred (steps_left t).
Proof.
  intros Hd. destruct t as [[queue cap stats down] phase w]. cbn in Hd. subst down.
  unfold worker_step, steps_left; cbn. destruct phase as [client|client req|client req outcome|]; cbn.
  - unfold take_request; cbn. destruct queue as [|req queue]; cbn; lia.
  - unfold send_request. destruct client as [c|];
      [|destruct (try_connect config w) as [[c|] w1]];
      try destruct (tw_append c req _) as [[?|?] ?]; cbn; lia.
  - destruct outcome as [|[]|]; cbn; lia.
  - done.
Qed.

(** The thread has ended only after a shutdown, with nothing left. *)
Definition ended_empty t : Prop :=
  te_worker t = Returned → sh_shutdown (te_shared t) = true ∧ sh_queue (te_shared t) = [].
Lemma ended_step t e : ended_empty t → ended_empty (telemetry_step config t e).
Proof.
  intros Ht. destruct t as [[queue cap stats down] phase w]. unfold ended_empty in *. cbn in Ht.
  destruct e as [req| |]; cbn.
  - intros Hr. destruct (Ht Hr) as [-> ->]. done.
  - intros Hr. by destruct (Ht Hr) as [_ ->].
  - unfold worker_step; cbn. destruct phase as [client|client req|client req outcome|]; cbn.
    + unfold take_request; cbn. destruct queue; [by destruct down|done].
    + unfold send_request. destruct client as [c|];
        [|destruct (try_connect config w) as [[c|] w1]];
        try destruct (tw_append c req _) as [[?|?] ?]; done.
    + by destruct (account config outcome _ w).
    + exact Ht.
Qed.
Lemma ended_run t events : ended_empty t → ended_empty (telemetry_run config t events).
Proof.
  revert t. induction events as [|e events IH]; intros t Ht; [done|]. by apply IH, ended_step.
Qed.

(** What it delivers if the server answers. *)
Lemma worker_step_delivers t : server_answers →
  with_fates is_delivered (fates t WorkerMoves) ++ outgoing (worker_step config t) = outgoing t.
Proof.
  intros [Hdial Happ]. destruct t as [[queue cap stats down] phase w].
  unfold worker_step, outgoing; cbn. destruct phase as [client|client req|client req outcome|]; cbn.
  - unfold take_request; cbn. destruct queue; [by destruct down|done].
  - assert (∃ client' w', send_request config client req w = (Accounting client' req OutcomeSent, w'))
      as (client' & w' & ->); [|done].
    unfold send_request, try_connect. specialize (Hdial w).
    destruct client as [c|]; [|destruct (tw_dial _ _ _ w) as [[c|e] w1]; cbn in Hdial; [|done]; cbn].
    + specialize (Happ c req w). destruct (tw_append c req w) as [[[]|e] w1]; [|done]. by eauto.
    + specialize (Happ c req w1). destruct (tw_append c req w1) as [[[]|e] w2]; [|done]. by eauto.
  - by destruct outcome as [|[]|].
  - done.
Qed.

Lemma drains t events : sh_shutdown (te_shared t) = true →
  ended_empty t → (steps_left t ≤ moves events)%nat →
  let t' := telemetry_run config t events in
  te_worker t' = Returned ∧ sh_queue (te_shared t') = []
  ∧ (server_answers → with_fates is_delivered (history config t events) = outgoing t).
Proof.
  revert t. induction events as [|e events IH]; intros t Hd Hr Hm; cbn [telemetry_run foldl history].
  { assert (te_worker t = Returned) as Hret.
    { destruct t as [[] [] ?]; cbn in *; try (cbn in Hm; lia). done. }
    split_and!; [done|by apply Hr|]. intros _. unfold outgoing. by rewrite Hret, (proj2 (Hr Hret)). }
  destruct e as [req| |].
  - assert (telemetry_step config t (HandleSends req) = t) as Ht.
    { destruct t as [[queue cap stats down] phase w]. cbn in Hd. by subst down. }
    assert (fates t (HandleSends req) = []) as -> by (cbn; by rewrite Hd). rewrite Ht. by apply IH.
  - assert (telemetry_step config t HandleShutsDown = t) as Ht.
    { destruct t as [[queue cap stats down] phase w]. cbn in Hd. by subst down. }
    rewrite Ht. by apply IH.
  - cbn [moves] in Hm.
    assert (Hstep : (steps_left (worker_step config t) ≤ moves events)%nat)
      by (rewrite worker_step_down by done; lia).
    destruct (IH (worker_step config t)) as (H1 & H2 & H3); [by apply (down_stays WorkerMoves)|by apply (ended_step t WorkerMoves)|done|].
    split_and!; [done..|]. intros Hans. rewrite with_fates_app. cbn [telemetry_step]. rewrite H3 by done.
    by apply worker_step_delivers.
Qed.

(** After a shutdown the thread ends, whatever the server does, after three of its steps for
    each request that is left, and if the server answers it delivers all of them. *)
Theorem telemetry_drains w before events :
  let t := telemetry_run config (telemetry_init (C:=C) config w) (before ++ [HandleShutsDown]) in
  (steps_left t ≤ moves events)%nat →
  let t' := telemetry_run config t events in
  te_worker t' = Returned ∧ sh_queue (te_shared t') = []
  ∧ (server_answers → with_fates is_delivered (history config t events) = outgoing t).
Proof.
  intros t Hm. apply drains; [| |done].
  - unfold t, telemetry_run. by rewrite foldl_snoc.
  - intros Hr. apply (ended_run (telemetry_init config w) (before ++ [HandleShutsDown])); [done|exact Hr].
Qed.
End spec.

(** A server that is not there at first, and a queue of two. *)
Module TelemetrySample.

Definition request (n : N) : AppendRequest := append_request_new n ($"telemetry.Event") 1 [].

(** The world counts the attempts to connect; the second one succeeds, and with TLS all of them. *)
#[local] Instance world : TelemetryWorld unit unit nat := {|
  tw_dial tls _ _ w := (if (w =? 0)%nat && negb tls then Err (ClientIo ConnectionRefused) else Ok tt, S w);
  tw_append _ _ w := (Ok tt, w);
  tw_sleep _ w := w
|}.
#[local] Existing Instances Sample.unicode.
#[local] Instance io_text : IoText := λ _, [].

Definition config : TelemetryConfig unit := with_queue_capacity 2 (builder_new ($"localhost:9009")).
Definition before : list TelemetryEvent :=
  [HandleSends (request 1); HandleSends (request 2); HandleSends (request 3); HandleSends (request 4);
   WorkerMoves; WorkerMoves; HandleSends (request 5); HandleSends (request 6)].
Definition after : list TelemetryEvent := replicate 8 WorkerMoves.

(** Of four requests two are evicted, one is lost on the connection, one is evicted later and
    the rest arrives. *)
Example fates_of_requests :
  let h := history config (telemetry_init (C:=unit) config 0%nat) (before ++ [HandleShutsDown] ++ after) in
  (map ar_context_id (with_fates is_evicted h), map ar_context_id (with_fates is_dropped h),
   map ar_context_id (with_fates is_delivered h))
  = ([1; 2; 4], [3], [5; 6]).
Proof. vm_compute. reflexivity. Qed.

Lemma answers : server_answers (C:=unit) (with_tls config).
Proof. split; [|done]. intros w. cbn. by rewrite andb_false_r. Qed.

Lemma telemetry_drains_witness :
  let t := telemetry_run (with_tls config) (telemetry_init (C:=unit) (with_tls config) 0%nat)
             (before ++ [HandleShutsDown]) in
  te_worker (telemetry_run (with_tls config) t after) = Returned
  ∧ with_fates is_delivered (history (with_tls config) t after) = [request 3; request 5; request 6].
Proof.
  destruct (telemetry_drains (with_tls config) 0%nat before after) as (Hr & _ & Hd);
    [vm_compute; lia|]. split; [exact Hr|]. exact (Hd answers).
Defined.

(** With a capacity of zero a request is kept all the same, and reported as an overflow. *)
Example capacity_zero :
  telemetry_send (request 1) (telemetry_start 0 true)
  = (false, mkSharedState [request 1] 0 (mkTelemetryStats 0 1 0 1) false).
Proof. reflexivity. Qed.

End TelemetrySample.
