(* ===== verification/ReconnectSpec.v ===== *)
(** * ReconnectSpec: what a reconnecting client guarantees

    The effort of one reconnection is bounded and its end accounted for, a client that gave up stays
    closed, and a call whose request is sent before the worker goes has its result in time. *)

From S2P Require Import Prelude Bytes External TurnStore Store StoreSpec ClientWire Client Server Http Wire Reconnect.

Open Scope N_scope.

(** ** The queue *)

Module QueueSpec.
Import Queue.

Definition reachable (q : Queue) : Prop := ∃ capacity l, run l (queue_new capacity) = Some q.

(** A request that the worker has not answered. *)
Definition pending (id : N) (q : Queue) : Prop := id ∈ qu_waiting q ∨ qu_worker q = Busy id.

(** A call that waits for its result. *)
Definition waits (c : Caller) : bool :=
  match c with Waiting _ | Receiving _ => true | Checked _ | Returned _ => false end.
Definition was_sent (c : Caller) : bool := match c with Checked _ => false | _ => true end.
Definition unanswered (id : N) (q : Queue) : Prop :=
  (∃ c, qu_callers q !! id = Some c ∧ waits c = true) ∧ qu_results q !! id = None.

(** Each request is in the queue or with the worker once; it was sent and has no result yet. A call
    that waits has its request there or its result in its channel. *)
Record queue_ok (q : Queue) : Prop := {
  qo_nodup : NoDup (qu_waiting q);
  qo_busy : ∀ id, qu_worker q = Busy id → id ∉ qu_waiting q;
  qo_sent : ∀ id, pending id q →
    (∃ c, qu_callers q !! id = Some c ∧ was_sent c = true)
    ∧ qu_results q !! id = None;
  qo_results : ∀ id, is_Some (qu_results q !! id) → ∃ c, qu_callers q !! id = Some c
    ∧ was_sent c = true;
  qo_callers : ∀ id, unanswered id q → pending id q;
  qo_bound : len (qu_waiting q) ≤ qu_capacity q
}.

Lemma run_app l1 l2 q : run (l1 ++ l2) q = run l1 q ≫= run l2.
Proof. revert q. induction l1 as [|a l1 IH]; intros q; [done|]. cbn. destruct (perform a q); [apply IH|done]. Qed.

(** A call moves on: what it was and what it becomes. *)
Lemma queue_ok_caller q id c :
  queue_ok q → (waits c = true → ∃ c0, qu_callers q !! id = Some c0 ∧ waits c0 = true) →
  (∀ c0, qu_callers q !! id = Some c0 → was_sent c0 = true →
         was_sent c = true) →
  queue_ok (set_caller id c q).
Proof.
  intros [Hnd Hb Hs Hr Hc Hlen] Hw Hsent. split; cbn; try done.
  - intros x Hx. destruct (Hs x Hx) as [(c0 & Hc0 & Hk) Hn]. split; [|done].
    destruct (decide (id = x)) as [->|]; [|by exists c0; rewrite lookup_insert_ne].
    exists c. rewrite lookup_insert_eq. eauto.
  - intros x Hx. destruct (Hr x Hx) as (c0 & Hc0 & Hk).
    destruct (decide (id = x)) as [->|]; [|by exists c0; rewrite lookup_insert_ne].
    exists c. rewrite lookup_insert_eq. eauto.
  - intros x [(c0 & Hc0 & Hk) Hn]. apply Hc. split; [|done]. cbn in Hc0.
    destruct (decide (id = x)) as [->|]; [|exists c0; by rewrite lookup_insert_ne in Hc0].
    rewrite lookup_insert_eq in Hc0. simplify_eq. by apply Hw.
Qed.

(** The worker answers a request that it took. *)
Lemma queue_ok_deliver q id a worker waiting :
  queue_ok q → pending id q → NoDup waiting → id ∉ waiting → worker ≠ Busy id →
  (∀ x, worker = Busy x → x ∉ waiting) → len waiting ≤ qu_capacity q →
  (∀ x, x ≠ id → (x ∈ waiting ∨ worker = Busy x) ↔ pending x q) →
  queue_ok (set_worker worker (deliver id a (set_waiting waiting q))).
Proof.
  intros [Hnd Hb Hs Hr Hc Hlen] Hid Hndw Hni Hnb Hbw Hlenw Hsame.
  destruct (Hs id Hid) as [(c & Hcid & Hk) Hnone].
  assert (Hpend : ∀ x, x ∈ waiting ∨ worker = Busy x → x ≠ id ∧ pending x q).
  { intros x Hx. assert (x ≠ id) by (intros ->; by destruct Hx). split; [done|]. by apply Hsame. }
  unfold deliver. cbn [qu_callers set_waiting]. rewrite Hcid.
  assert (Hret : ∀ r, c = Returned r → queue_ok (set_worker worker (set_waiting waiting q))).
  { intros r ->. split; cbn; try done.
    - intros x Hx. destruct (Hpend x Hx). by apply Hs.
    - intros x Hx. apply Hsame; [|by apply Hc]. intros ->. destruct Hx as [(c0 & Hc0 & Hw) _].
      cbn in Hc0. by simplify_eq. }
  destruct c; [done| | |by eapply Hret].
  all: split; cbn; try done.
  1, 4: intros x Hx; destruct (Hpend x Hx) as [Hne Hp]; destruct (Hs x Hp);
    split; [done|by rewrite lookup_insert_ne].
  1, 3: intros x Hx; destruct (decide (id = x)) as [->|]; [eauto|];
    rewrite lookup_insert_ne in Hx by done; by apply Hr.
  all: intros x [Hx Hn]; cbn in Hn; destruct (decide (id = x)) as [->|Hne];
    [by rewrite lookup_insert_eq in Hn|]; rewrite lookup_insert_ne in Hn by done;
    apply Hsame; [congruence|by apply Hc].
Qed.

Lemma perform_ok a q q' : queue_ok q → perform a q = Some q' → queue_ok q'.
Proof.
  intros Hq H. pose proof Hq as [Hnd Hb Hs Hr Hc Hlen].
  destruct a as [id timed gone|id|id gone|id|id gone| | | | | | |]; cbn in H.
  - destruct (qu_callers q !! id) eqn:Hid; [done|]. simplify_eq.
    apply queue_ok_caller; [done| |congruence]. by destruct (qu_closed q), gone.
  - destruct (qu_callers q !! id) as [[timed| | |]|] eqn:Hid; try done. simplify_eq.
    assert (Hni : ¬ pending id q) by (intros Hx; destruct (Hs id Hx) as [(? & ? & ?) _]; by simplify_eq).
    assert (Hnr : qu_results q !! id = None).
    { apply eq_None_not_Some. intros Hx. destruct (Hr id Hx) as (? & ? & ?). by simplify_eq. }
    destruct (N.ltb_spec (len (qu_waiting q)) (qu_capacity q)).
    2:{ apply queue_ok_caller; [done|done|by intros]. }
    split; cbn; try done.
    + apply NoDup_app. split; [done|]. split; [|by apply NoDup_singleton].
      intros x Hx ->%list_elem_of_singleton. apply Hni. by left.
    + intros x Hx [Hin| ->%list_elem_of_singleton]%elem_of_app; [by eapply Hb|].
      apply Hni. by right.
    + intros x Hx. destruct (decide (id = x)) as [->|Hne]; [rewrite lookup_insert_eq; eauto|].
      rewrite lookup_insert_ne by done. apply Hs. destruct Hx as [[?|Hin]%elem_of_app|?]; [by left| |by right].
      apply list_elem_of_singleton in Hin. congruence.
    + intros x Hx. destruct (decide (id = x)) as [->|Hne]; [rewrite lookup_insert_eq; eauto|].
      rewrite lookup_insert_ne by done. by apply Hr.
    + intros x [(c & Hcx & Hw) Hn]. cbn in Hcx, Hn. unfold pending. cbn.
      destruct (decide (id = x)) as [->|Hne]; [left; apply elem_of_app; right; by left|].
      rewrite lookup_insert_ne in Hcx by done. destruct (Hc x) as [?|?]; [by split; [exists c|]| |by right].
      left. apply elem_of_app. by left.
    + rewrite len_app, len_cons, len_nil. lia.
  - destruct (qu_callers q !! id) as [[|timed| |]|] eqn:Hid; try done. simplify_eq.
    apply queue_ok_caller; [done|eauto|by destruct gone].
  - destruct (qu_callers q !! id) as [[| |timed|]|] eqn:Hid; try done.
    destruct (qu_results q !! id) as [r|]; [|done]. simplify_eq. by apply queue_ok_caller.
  - destruct (qu_callers q !! id) as [[| |[]|]|] eqn:Hid; try done. simplify_eq.
    apply queue_ok_caller; [done|eauto|by destruct gone].
  - destruct (qu_worker q) eqn:Hwk; try done. destruct (qu_waiting q) as [|id rest] eqn:Hq'; [done|].
    simplify_eq. apply NoDup_cons in Hnd as [Hid Hnd]. rewrite len_cons in Hlen.
    assert (Hsame : ∀ x, pending x (set_worker (Busy id) (set_waiting rest q)) ↔ pending x q).
    { intros x. unfold pending. cbn. rewrite Hq', Hwk, elem_of_cons. naive_solver. }
    split; cbn; try done; [by intros x [= <-]|intros x Hx; by apply Hs, Hsame| |lia].
    intros x Hx. by apply Hsame, Hc.
  - destruct (qu_worker q) as [|id| |] eqn:Hwk; try done. simplify_eq.
    pose proof (queue_ok_deliver q id Served Running (qu_waiting q)) as Hd.
    replace (deliver id Served q) with (deliver id Served (set_waiting (qu_waiting q) q))
      by (by destruct q).
    apply Hd; try done; [by right|by apply Hb|]. intros x Hx. unfold pending. rewrite Hwk.
    split; [intros [?|?]; [by left|done]|intros [?|[=]]; [by left|done]].
  - destruct (qu_worker q) eqn:Hwk; try done. destruct (qu_shutdown q); [|done]. simplify_eq.
    assert (Hsame : ∀ x, pending x (set_worker Draining q) ↔ pending x q)
      by (intros x; unfold pending; cbn; rewrite Hwk; naive_solver).
    split; cbn; try done; intros x Hx; [by apply Hs, Hsame|by apply Hsame, Hc].
  - destruct (qu_worker q) eqn:Hwk; try done. destruct (qu_waiting q) as [|id rest] eqn:Hq'; [done|].
    simplify_eq. apply NoDup_cons in Hnd as [Hid Hnd]. rewrite len_cons in Hlen.
    pose proof (queue_ok_deliver q id Closed Draining rest) as Hd.
    replace (deliver id Closed (set_waiting rest q))
      with (set_worker Draining (deliver id Closed (set_waiting rest q))).
    2:{ unfold deliver. cbn. destruct (qu_callers q !! id) as [[]|]; unfold set_worker, set_waiting; cbn;
        by rewrite Hwk. }
    apply Hd; try done; [left; rewrite Hq'; by left|lia|]. intros x Hx. unfold pending.
    rewrite Hq', Hwk, elem_of_cons. naive_solver.
  - destruct (qu_worker q) eqn:Hwk; try done. destruct (qu_waiting q) eqn:Hq'; [|done]. simplify_eq.
    assert (Hsame : ∀ x, pending x (set_worker Exited q) ↔ pending x q)
      by (intros x; unfold pending; cbn; rewrite Hwk; naive_solver).
    split; cbn; rewrite ?Hq'; try done; [intros x Hx; by apply Hs, Hsame|].
    intros x Hx. by apply Hsame, Hc.
  - destruct (qu_closed q); [done|]. simplify_eq. by split.
  - destruct (_ && _); [|done]. simplify_eq. by split.
Qed.

Lemma run_ok l q q' : queue_ok q → run l q = Some q' → queue_ok q'.
Proof.
  revert q. induction l as [|a l IH]; intros q Hq H; cbn in H; [by simplify_eq|].
  destruct (perform a q) as [q1|] eqn:Ha; [|done]. eapply IH; [|exact H]. by eapply perform_ok.
Qed.

Lemma reachable_ok q : reachable q → queue_ok q.
Proof.
  intros (capacity & l & Hl). eapply run_ok; [|exact Hl]. split; cbn; try done; [constructor|..].
  - intros id [Hid|Hid]; [by apply elem_of_nil in Hid|done].
  - intros id [? Hx]. done.
  - intros id [(c & Hx & _) _]. done.
  - apply N.le_0_l.
Qed.

(** ** Answers *)

Lemma deliver_callers id a q : qu_callers (deliver id a q) = qu_callers q.
Proof. unfold deliver. by destruct (qu_callers q !! id) as [[]|]. Qed.
Lemma deliver_waiting id a q : qu_waiting (deliver id a q) = qu_waiting q.
Proof. unfold deliver. by destruct (qu_callers q !! id) as [[]|]. Qed.
Lemma deliver_worker id a q : qu_worker (deliver id a q) = qu_worker q.
Proof. unfold deliver. by destruct (qu_callers q !! id) as [[]|]. Qed.
Lemma deliver_results id a q x :
  x ≠ id → qu_results (deliver id a q) !! x = qu_results q !! x.
Proof. intros Hx. unfold deliver. destruct (qu_callers q !! id) as [[]|]; cbn; by rewrite ?lookup_insert_ne. Qed.

(** One action of one call leaves the others alone. *)
Definition caller_of (a : Action) : option N :=
  match a with
  | AStart id _ _ | ASend id | AWait id _ | ATake id | AExpire id _ => Some id
  | _ => None
  end.

Lemma caller_kept a q q' id :
  perform a q = Some q' → caller_of a ≠ Some id → qu_callers q' !! id = qu_callers q !! id.
Proof.
  assert (Hset : ∀ x c q0, Some x ≠ Some id → qu_callers (set_caller x c q0) !! id = qu_callers q0 !! id)
    by (intros x c q0 Hx; cbn; rewrite lookup_insert_ne; [done|congruence]).
  intros H Hne. destruct a; cbn in H, Hne;
    repeat (case_match; try discriminate H); simplify_eq; rewrite ?Hset by done; try done;
    cbn; by rewrite deliver_callers.
Qed.

(** What a call that waits without a deadline does: it takes its result. *)
Lemma untimed_step a q q' id :
  qu_callers q !! id = Some (Receiving false) → perform a q = Some q' →
  qu_callers q' !! id = Some (Receiving false)
  ∨ ∃ r, qu_results q !! id = Some r ∧ qu_callers q' !! id = Some (Returned r).
Proof.
  intros Hid H. destruct (decide (caller_of a = Some id)) as [Ha|Ha];
    [|left; by rewrite (caller_kept _ _ _ _ H Ha)].
  destruct a; simplify_eq/=; rewrite ?Hid in H; try done.
  destruct (qu_results q !! id) as [r|] eqn:Hr; [|done]. simplify_eq. right. exists r.
  split; [done|]. cbn. by rewrite lookup_insert_eq.
Qed.

(** A call that returned stays so. *)
Lemma returned_step a q q' id x :
  qu_callers q !! id = Some (Returned x) → perform a q = Some q' →
  qu_callers q' !! id = Some (Returned x).
Proof.
  intros Hid H. destruct (decide (caller_of a = Some id)) as [Ha|Ha];
    [|by rewrite (caller_kept _ _ _ _ H Ha)].
  destruct a; simplify_eq/=; by rewrite Hid in H.
Qed.

Definition worker_action (a : Action) : bool :=
  match a with ARecv | AServe | AShutdown | ADrain | AExit => true | _ => false end.
Definition worker_actions (l : list Action) : N := len (filter (λ a, worker_action a = true) l).

Lemma worker_actions_cons a l :
  worker_actions (a :: l) = (if worker_action a then 1 else 0) + worker_actions l.
Proof.
  unfold worker_actions. rewrite filter_cons. destruct (worker_action a) eqn:Ha; case_decide;
    rewrite ?len_cons; try done; lia.
Qed.

(** How many actions of the worker are enough until a request is answered. *)
Definition steps_left (id : N) (q : Queue) (n : N) : Prop :=
  match qu_worker q with
  | Busy x => if decide (x = id) then n = 1
              else ∃ l1 l2, qu_waiting q = l1 ++ id :: l2 ∧ n = 2 * len l1 + 4
  | Running => ∃ l1 l2, qu_waiting q = l1 ++ id :: l2 ∧ n = 2 * len l1 + 3
  | Draining => ∃ l1 l2, qu_waiting q = l1 ++ id :: l2 ∧ n = 2 * len l1 + 2
  | Exited => False
  end.

Lemma steps_left_step a q q' id n :
  queue_ok q → steps_left id q n → perform a q = Some q' →
  ¬ pending id q'
  ∨ ∃ n', steps_left id q' n' ∧ n' + (if worker_action a then 1 else 0) ≤ n.
Proof.
  intros Hq Hn H. pose proof (qo_nodup _ Hq) as Hnd.
  destruct (worker_action a) eqn:Hwa.
  2:{ right. assert (qu_worker q' = qu_worker q ∧ ∃ k, qu_waiting q' = qu_waiting q ++ k) as (Hw & k & Hk).
      { destruct a; cbn in H, Hwa; repeat (case_match; try discriminate H); simplify_eq;
          split; cbn; try done; try (exists []; by rewrite app_nil_r); by eexists. }
      exists n. split; [|lia]. unfold steps_left in *. rewrite Hw, Hk.
      assert (Happ : ∀ m, (∃ l1 l2, qu_waiting q = l1 ++ id :: l2 ∧ n = m l1) →
                          ∃ l1 l2, qu_waiting q ++ k = l1 ++ id :: l2 ∧ n = m l1).
      { intros m (l1 & l2 & -> & ->). exists l1, (l2 ++ k). by rewrite <- app_assoc. }
      destruct (qu_worker q); [by apply (Happ (λ l, 2 * len l + 3))| |by apply (Happ (λ l, 2 * len l + 2))|done].
      destruct (decide _); [done|by apply (Happ (λ l, 2 * len l + 4))]. }
  unfold steps_left in Hn. destruct a; try discriminate Hwa; cbn in H.
  - destruct (qu_worker q) eqn:Hwk; try done. destruct (qu_waiting q) as [|x rest] eqn:Hw; [done|].
    simplify_eq. right. destruct Hn as (l1 & l2 & Hl & ->). unfold steps_left. cbn.
    destruct l1 as [|y l1]; injection Hl as -> ->.
    + exists 1. rewrite decide_True by done. split; [done|cbn; lia].
    + exists (2 * len l1 + 4). rewrite len_cons. split; [|lia]. rewrite decide_False; [eauto|].
      intros ->. apply NoDup_cons in Hnd as [Hni _]. apply Hni, elem_of_app. right. by left.
  - destruct (qu_worker q) as [|x| |] eqn:Hwk; try done. simplify_eq.
    destruct (decide (x = id)) as [->|Hne].
    + left. intros [Hin|Hx]; [|done]. cbn in Hin. rewrite deliver_waiting in Hin.
      by eapply (qo_busy _ Hq).
    + right. destruct Hn as (l1 & l2 & Hl & ->). exists (2 * len l1 + 3). split; [|lia].
      unfold steps_left. cbn. rewrite deliver_waiting. eauto.
  - destruct (qu_worker q) eqn:Hwk; try done. destruct (qu_shutdown q); [|done]. simplify_eq.
    right. destruct Hn as (l1 & l2 & Hl & ->). exists (2 * len l1 + 2). split; [|lia].
    unfold steps_left. cbn. eauto.
  - destruct (qu_worker q) eqn:Hwk; try done. destruct (qu_waiting q) as [|x rest] eqn:Hw; [done|].
    simplify_eq. destruct Hn as (l1 & l2 & Hl & ->). apply NoDup_cons in Hnd as [Hni _].
    destruct l1 as [|y l1]; injection Hl as -> ->.
    + left. unfold pending. rewrite deliver_waiting, deliver_worker. cbn. rewrite Hwk. by intros [?|?].
    + right. exists (2 * len l1 + 2). rewrite len_cons. split; [|lia].
      unfold steps_left. rewrite deliver_worker, deliver_waiting. cbn. rewrite Hwk. eauto.
  - destruct (qu_worker q) eqn:Hwk; try done. destruct Hn as (l1 & l2 & Hl & ->).
    rewrite Hl in H. by destruct l1.
Qed.

Lemma pending_steps id q :
  pending id q → qu_worker q ≠ Exited →
  ∃ n, steps_left id q n ∧ n ≤ 2 * len (qu_waiting q) + 2.
Proof.
  intros Hp Hw. assert (Hin : id ∈ qu_waiting q → ∃ l1 l2, qu_waiting q = l1 ++ id :: l2
    ∧ len l1 + 1 ≤ len (qu_waiting q)).
  { intros (l1 & l2 & Hl)%list_elem_of_split. exists l1, l2. split; [done|].
    rewrite Hl, len_app, len_cons. lia. }
  unfold steps_left. destruct (qu_worker q) as [|x| |] eqn:Hwk; [| | |done].
  - destruct Hp as [Hp|Hp]; [|by rewrite Hwk in Hp]. destruct (Hin Hp) as (l1 & l2 & ? & ?).
    eexists. split; [eauto|lia].
  - destruct (decide (x = id)) as [->|Hne]; [exists 1; split; [done|lia]|].
    destruct Hp as [Hp|Hp]; [|congruence]. destruct (Hin Hp) as (l1 & l2 & ? & ?).
    eexists. split; [eauto|lia].
  - destruct Hp as [Hp|Hp]; [|by rewrite Hwk in Hp]. destruct (Hin Hp) as (l1 & l2 & ? & ?).
    eexists. split; [eauto|lia].
Qed.

Lemma steps_left_pending id q n : steps_left id q n → pending id q ∧ 1 ≤ n.
Proof.
  unfold steps_left, pending. intros Hn.
  assert (Hin : ∀ l1 l2, qu_waiting q = l1 ++ id :: l2 → id ∈ qu_waiting q)
    by (intros l1 l2 ->; apply elem_of_app; right; by left).
  destruct (qu_worker q) as [|x| |]; [..|done].
  2: destruct (decide (x = id)) as [->|]; [split; [by right|lia]|].
  all: destruct Hn as (l1 & l2 & Hl & ->); split; [left; by eapply Hin|lia].
Qed.

(** A request is sent once: when it has left the queue it does not come back. *)
Lemma not_pending_step a q q' id :
  ¬ pending id q → (∃ c, qu_callers q !! id = Some c ∧ was_sent c = true) →
  perform a q = Some q' →
  ¬ pending id q' ∧ ∃ c, qu_callers q' !! id = Some c ∧ was_sent c = true.
Proof.
  intros Hn (c & Hc & Hk) H. split.
  - intros Hp. apply Hn. destruct a as [x timed gone|x|x gone|x|x gone| | | | | | |]; cbn in H;
      repeat (case_match; try discriminate H); simplify_eq; unfold pending in *; cbn in Hp;
      rewrite ?deliver_waiting, ?deliver_worker in Hp; cbn in Hp; try done.
    + destruct Hp as [[?|Hx%list_elem_of_singleton]%elem_of_app|?]; [by left| |by right].
      subst. by simplify_eq.
    + left. match goal with Hx : qu_waiting q = _ |- _ => rewrite Hx end.
      apply elem_of_cons. destruct Hp as [?|[= ->]]; [by right|by left].
    + destruct Hp as [?|?]; [by left|done].
    + destruct Hp as [?|?]; [by left|done].
    + left. match goal with Hx : qu_waiting q = _ |- _ => rewrite Hx end.
      apply elem_of_cons. destruct Hp as [?|?]; [by right|congruence].
    + match goal with Hx : qu_waiting q = _ |- _ => rewrite Hx in Hp end.
      destruct Hp as [?%elem_of_nil|?]; done.
  - destruct (decide (caller_of a = Some id)) as [Ha|Ha];
      [|exists c; by rewrite (caller_kept _ _ _ _ H Ha)].
    destruct a; simplify_eq/=; rewrite Hc in H; repeat (case_match; try discriminate H);
      simplify_eq; cbn; rewrite lookup_insert_eq; eauto.
Qed.

Lemma served_in_time id l : ∀ q q' n,
  queue_ok q → steps_left id q n → run l q = Some q' → n ≤ worker_actions l → ¬ pending id q'.
Proof.
  induction l as [|a l IH]; intros q q' n Hq Hn H Hle; cbn [run] in H.
  { change (worker_actions []) with 0 in Hle. apply steps_left_pending in Hn as [_ ?]. lia. }
  destruct (perform a q) as [q1|] eqn:Ha; [|done]. cbn [mbind option_bind] in H.
  pose proof (perform_ok _ _ _ Hq Ha) as Hq1.
  destruct (qo_sent _ Hq id) as [Hsent _]; [by eapply steps_left_pending|].
  destruct (steps_left_step _ _ _ _ _ Hq Hn Ha) as [Hnp|(n' & Hn' & Hlt)].
  - assert (Hstay : ∀ l q, ¬ pending id q → (∃ c, qu_callers q !! id = Some c
        ∧ was_sent c = true) → run l q = Some q' → ¬ pending id q').
    { clear. induction l as [|a l IH]; intros q Hn Hc H; cbn in H; [by simplify_eq|].
      destruct (perform a q) as [q1|] eqn:Ha; [|done].
      destruct (not_pending_step _ _ _ _ Hn Hc Ha). by eapply IH. }
    eapply Hstay; [exact Hnp| |exact H]. destruct Hsent as (c & Hc & Hk).
    destruct (decide (caller_of a = Some id)) as [Hca|Hca];
      [|exists c; by rewrite (caller_kept _ _ _ _ Ha Hca)].
    destruct a; simplify_eq/=; rewrite Hc in Ha; repeat (case_match; try discriminate Ha);
      simplify_eq; cbn; rewrite lookup_insert_eq; eauto.
  - eapply (IH q1); [done|exact Hn'|exact H|]. rewrite worker_actions_cons in Hle.
    destruct (worker_action a); lia.
Qed.

(** Once the worker is gone no result comes. *)
Lemma exited_step a q q' id :
  qu_worker q = Exited → qu_results q !! id = None → perform a q = Some q' →
  qu_worker q' = Exited ∧ qu_results q' !! id = None.
Proof.
  intros Hwk Hid H. destruct a; cbn in H; rewrite ?Hwk in H;
    repeat (case_match; try discriminate H); by simplify_eq.
Qed.

(** C33. The answers to calls, for every interleaving of callers, the worker and [close].
    The queue keeps its capacity, and what a call returned is final. A call that waits with its request
    unanswered has its result, at the latest, after two actions of the worker for each request in
    the queue and two more, unless it leaves by its own flag or deadline; until then
    the worker has something to do. One that waits without a deadline leaves with its result only,
    whatever happens to its flag. When the worker goes, every call that was sent has a result;
    a call that is sent later never gets one. *)
Theorem queue_answers q id :
  reachable q →
  len (qu_waiting q) ≤ qu_capacity q
  ∧ (∀ x l q', qu_callers q !! id = Some (Returned x) → run l q = Some q' →
       qu_callers q' !! id = Some (Returned x))
  ∧ (unanswered id q → qu_worker q ≠ Exited →
       (∃ a, worker_action a = true ∧ is_Some (perform a q))
       ∧ ∀ l q', run l q = Some q' → 2 * len (qu_waiting q) + 2 ≤ worker_actions l →
           ¬ unanswered id q')
  ∧ (∀ a q', qu_callers q !! id = Some (Receiving false) → perform a q = Some q' →
       qu_callers q' !! id = Some (Receiving false)
       ∨ ∃ r, qu_results q !! id = Some r ∧ qu_callers q' !! id = Some (Returned r))
  ∧ (∀ a q', perform a q = Some q' → qu_worker q ≠ Exited → qu_worker q' = Exited →
       ¬ unanswered id q')
  ∧ (qu_worker q = Exited → qu_results q !! id = None →
       ∀ l q', run l q = Some q' → qu_results q' !! id = None).
Proof.
  intros Hq%reachable_ok. split_and!.
  - apply Hq.
  - intros x l. revert q Hq. induction l as [|a l IH]; intros q Hq q' Hid H; cbn in H; [by simplify_eq|].
    destruct (perform a q) as [q1|] eqn:Ha; [|done]. apply (IH q1); [by eapply perform_ok|..|done].
    by eapply returned_step.
  - intros Hun Hw. pose proof (qo_callers _ Hq id Hun) as Hp. split.
    + destruct (qu_worker q) as [|x| |] eqn:Hwk; [| | |done].
      1: exists ARecv. 2: exists AServe. 3: exists ADrain.
      all: split; [done|]; cbn; rewrite Hwk; try done.
      all: destruct Hp as [Hin|Hx]; [|by rewrite Hwk in Hx].
      all: destruct (qu_waiting q); [by apply elem_of_nil in Hin|done].
    + intros l q' Hl Hle Hun'. destruct (pending_steps id q Hp Hw) as (n & Hn & Hb).
      eapply (served_in_time id l q q' n); [done..|lia|]. apply qo_callers; [|done]. by eapply run_ok.
  - intros a q' Hid H. by eapply untimed_step.
  - intros a q' H Hw Hw' Hun. pose proof (perform_ok _ _ _ Hq H) as Hq'.
    pose proof (qo_callers _ Hq' id Hun) as Hp. clear Hun Hq Hq'.
    destruct a; cbn in H; repeat (case_match; try discriminate H); simplify_eq;
      unfold pending in Hp; cbn in Hw', Hp; rewrite ?deliver_worker in Hw'; cbn in Hw'; try congruence.
    destruct Hp as [Hp|?]; [|done]. match goal with Hx : qu_waiting _ = [] |- _ => rewrite Hx in Hp end. by apply elem_of_nil in Hp.
  - intros Hw Hr l. revert q Hq Hw Hr. induction l as [|a l IH]; intros q Hq Hw Hr q' H; cbn in H;
      [by simplify_eq|]. destruct (perform a q) as [q1|] eqn:Ha; [|done].
    destruct (exited_step _ _ _ _ Hw Hr Ha). eapply (IH q1); [by eapply perform_ok|done..].
Qed.

(** A call that passes its check of [closed] before [close] and sends after the worker has drained
    the queue waits for ever, if it has no deadline. *)
Definition late : list Action :=
  [AStart 1 false false; AClose; ASignal; AShutdown; AExit; ASend 1; AWait 1 false].
Example late_call_hangs :
  option_map (λ q, (qu_callers q !! 1, qu_results q !! 1, qu_worker q)) (run late (queue_new 4))
  = Some (Some (Receiving false), None, Exited).
Proof. by vm_compute. Qed.

(** A call whose deadline has passed leaves; the request is served all the same. *)
Definition expired : list Action :=
  [AStart 1 true false; ASend 1; AWait 1 false; AExpire 1 true; ARecv; AServe].
Example expired_call_is_served :
  option_map (λ q, (qu_callers q !! 1, qu_results q !! 1, qu_worker q)) (run expired (queue_new 4))
  = Some (Some (Returned Interrupted), None, Running).
Proof. by vm_compute. Qed.

Definition two_calls : list Action :=
  [AStart 1 false false; AStart 2 false false; ASend 1; ASend 2; AWait 2 false].

Lemma queue_answers_witness :
  (∃ q, run late (queue_new 4) = Some q
     ∧ ∀ l q', run l q = Some q' → qu_results q' !! 1 = None)
  ∧ ∃ q, run two_calls (queue_new 4) = Some q
     ∧ ∀ l q', run l q = Some q' → 6 ≤ worker_actions l → ¬ unanswered 2 q'.
Proof.
  split.
  - destruct (run late (queue_new 4)) as [q|] eqn:Hq; [|vm_compute in Hq; discriminate Hq].
    exists q. split; [reflexivity|].
    destruct (queue_answers q 1) as (_ & _ & _ & _ & _ & Hgone); [by exists 4, late|].
    vm_compute in Hq. injection Hq as <-. by apply Hgone.
  - destruct (run two_calls (queue_new 4)) as [q|] eqn:Hq; [|vm_compute in Hq; discriminate Hq].
    exists q. split; [reflexivity|].
    destruct (queue_answers q 2) as (_ & _ & Hans & _); [by exists 4, two_calls|].
    vm_compute in Hq. injection Hq as <-. apply Hans; [|done]. split; [|done].
    exists (Receiving false). by split.
Defined.
End QueueSpec.

(** ** The backoff *)

Module Backoff.

(** What is counted of a world, and how the clock moves: sleeping takes at least its time. *)
Class EnvLaws (S : Type) `{!Env S} (dialed slept : S → N) : Prop := {
  env_sleep_now d s : env_now s + d ≤ env_now (env_sleep d s);
  env_dial_now s : env_now s ≤ env_now (env_dial s).2;
  env_hangup_now s : env_now s ≤ env_now (env_hangup s);
  env_callback_now n s : env_now s ≤ env_now (env_on_reconnect n s);
  env_sleep_dialed d s : dialed (env_sleep d s) = dialed s;
  env_dial_dialed s : dialed (env_dial s).2 = dialed s + 1;
  env_hangup_dialed s : dialed (env_hangup s) = dialed s;
  env_callback_dialed n s : dialed (env_on_reconnect n s) = dialed s;
  env_sleep_slept d s : slept (env_sleep d s) = slept s + d;
  env_dial_slept s : slept (env_dial s).2 = slept s;
  env_hangup_slept s : slept (env_hangup s) = slept s;
  env_callback_slept n s : slept (env_on_reconnect n s) = slept s
}.

(** The sum of [n] delays from [delay] on, each twice the one before up to [limit]. *)
Fixpoint total_delay (n : nat) (delay limit : N) : N :=
  match n with
  | O => 0
  | Datatypes.S n => delay + total_delay n (N.min (delay * 2) limit) limit
  end.

Section backoff.
Context {S : Type} `{!Env S} (dialed slept : S → N) `{!EnvLaws S dialed slept}.

(** Why an attempt ends before its last dial: [close], the caller's flag, or its deadline, as the
    world has them at that moment. *)
Definition interrupted (ctx : CallContext) (s : S) (e : ClientError) : Prop :=
  (e = ClientClosed ∧ env_closed s = true)
  ∨ (e = Cancelled ∧ env_cancelled (cc_flag ctx) s = true)
  ∨ (e = Timeout ∧ ∃ deadline, cc_deadline ctx = Some deadline ∧ deadline ≤ env_now s).

Lemma check_context_interrupted ctx s e : check_context ctx s = Err e → interrupted ctx s e.
Proof.
  unfold check_context, interrupted. destruct (env_cancelled _ _); [intros [= <-]; auto|].
  destruct (cc_deadline ctx) as [d|]; [|done]. destruct (N.leb_spec d (env_now s)); [|done].
  intros [= <-]. right. right. eauto.
Qed.

Lemma sleep_rounds_S rounds start duration ctx s :
  sleep_rounds (Datatypes.S rounds) start duration ctx s =
    let elapsed := env_now s - start in
    if duration <=? elapsed then (Ok tt, s)
    else if env_closed s then (Err ClientClosed, s)
    else match check_context ctx s with
         | Err e => (Err e, s)
         | Ok _ =>
             let remaining := duration - elapsed in
             let sleep_for := if remaining <? SLEEP_STEP then remaining else SLEEP_STEP in
             sleep_rounds rounds start duration ctx (env_sleep sleep_for s)
         end.
Proof. done. Qed.

(** Sleeping: never longer than asked, and until the time is over unless interrupted. *)
Lemma sleep_rounds_spec rounds start duration ctx s :
  start ≤ env_now s → duration ≤ N.of_nat rounds * SLEEP_STEP + (env_now s - start) →
  match sleep_rounds (Datatypes.S rounds) start duration ctx s with
  | (r, s') =>
      dialed s' = dialed s ∧ slept s ≤ slept s' ∧ env_now s + (slept s' - slept s) ≤ env_now s'
      ∧ slept s' ≤ slept s + (duration - (env_now s - start))
      ∧ match r with Ok _ => start + duration ≤ env_now s' | Err e => interrupted ctx s' e end
  end.
Proof.
  revert s. induction rounds as [|rounds IH]; intros s Hs Hlt; rewrite sleep_rounds_S; cbv zeta;
    (destruct (N.leb_spec duration (env_now s - start)); [cbv iota; split_and!; lia|]); [lia|].
  destruct (env_closed s) eqn:Hcl; [cbv iota; split_and!; [lia..|by left]|].
  destruct (check_context ctx s) as [[]|e] eqn:Hc;
    [|cbv iota; split_and!; [lia..|by apply check_context_interrupted]].
  set (d := if _ <? SLEEP_STEP then _ else SLEEP_STEP).
  assert (Hd : d ≤ duration - (env_now s - start) ∧ (d = duration - (env_now s - start) ∨ d = SLEEP_STEP))
    by (unfold d; destruct (N.ltb_spec (duration - (env_now s - start)) SLEEP_STEP); lia).
  clearbody d.
  pose proof (env_sleep_now (dialed := dialed) (slept := slept) d s) as Hnow.
  pose proof (env_sleep_slept (dialed := dialed) (slept := slept) d s) as Hsl.
  pose proof (env_sleep_dialed (dialed := dialed) (slept := slept) d s) as Hdi.
  assert (Hle : duration ≤ N.of_nat rounds * SLEEP_STEP + (env_now (env_sleep d s) - start))
    by (unfold SLEEP_STEP in *; lia).
  specialize (IH (env_sleep d s) ltac:(lia) Hle).
  destruct (sleep_rounds _ _ _ _ _) as [r s'].
  destruct IH as (-> & ? & ? & ? & ?). split_and!; try done; lia.
Qed.

Lemma sleep_with_cancel_spec duration ctx s :
  match sleep_with_cancel duration ctx s with
  | (r, s') =>
      dialed s' = dialed s ∧ slept s' ≤ slept s + duration ∧ env_now s ≤ env_now s'
      ∧ match r with Ok _ => env_now s + duration ≤ env_now s' | Err e => interrupted ctx s' e end
  end.
Proof.
  unfold sleep_with_cancel. set (q := duration / SLEEP_STEP).
  assert (Hq : duration < (q + 1) * SLEEP_STEP).
  { unfold q, SLEEP_STEP. pose proof (N.div_mod duration 50000000 ltac:(lia)).
    pose proof (N.mod_lt duration 50000000 ltac:(lia)). lia. }
  replace (N.to_nat q + 2)%nat with (Datatypes.S (N.to_nat (q + 1))) by lia.
  pose proof (sleep_rounds_spec (N.to_nat (q + 1)) (env_now s) duration ctx s) as H.
  destruct (sleep_rounds _ _ _ _ _) as [r s']. destruct H as (-> & ? & ? & ? & ?); [lia|lia|].
  split_and!; try done; lia.
Qed.

(** What is known after an attempt to reconnect from [s] with [n] attempts left, of which the last
    [waits] wait first. *)
Definition outcome (n waits : nat) (delay limit : N) (ctx : CallContext) (s : S)
    (r : result ClientError unit) (inner : Inner) (s' : S) : Prop :=
  dialed s' ≤ dialed s + N.of_nat n
  ∧ slept s' ≤ slept s + total_delay waits delay limit
  ∧ env_now s ≤ env_now s'
  ∧ match r with
    | Ok _ => ∃ client s1, (env_dial s1).1 = Ok client ∧ in_client inner = Some client
        ∧ s' = env_on_reconnect (cl_session_id client) (env_dial s1).2
    | Err e => interrupted ctx s' e ∧ dialed s' < dialed s + N.of_nat n
        ∨ dialed s' = dialed s + N.of_nat n ∧ (0 < n → in_client inner = None)%nat
          ∧ env_now s + total_delay waits delay limit ≤ env_now s'
          ∧ ((0 < n)%nat → ∃ s1, env_dial s1 = (Err e, s'))
    end.

(** One dial, after the waiting. *)
Lemma dial_step inner s :
  let s1 := match in_client inner with Some _ => env_hangup s | None => s end in
  dialed (env_dial s1).2 = dialed s + 1 ∧ slept (env_dial s1).2 = slept s
  ∧ env_now s ≤ env_now (env_dial s1).2.
Proof.
  cbn zeta. assert (Hh : let s1 := match in_client inner with Some _ => env_hangup s | None => s end in
    dialed s1 = dialed s ∧ slept s1 = slept s ∧ env_now s ≤ env_now s1).
  { cbn zeta. destruct (in_client inner); [|lia].
    pose proof (env_hangup_now (dialed := dialed) (slept := slept) s).
    by rewrite (env_hangup_dialed (slept := slept)), (env_hangup_slept (dialed := dialed)). }
  cbn zeta in Hh. destruct Hh as (H1 & H2 & H3). set (s1 := match in_client inner with Some _ => _ | None => _ end) in *.
  pose proof (env_dial_now (dialed := dialed) (slept := slept) s1).
  rewrite (env_dial_dialed (slept := slept)), (env_dial_slept (dialed := dialed)). lia.
Qed.

Lemma reconnect_from_spec n attempt delay last ctx inner s :
  1 ≤ attempt →
  match reconnect_from n attempt delay last ctx inner s with
  | (r, inner', s') =>
      (n = O → inner' = inner ∧ s' = s ∧ r = Err (default ClientClosed last))
      ∧ ((0 < n)%nat → outcome n (if attempt =? 1 then n - 1 else n) delay (in_max_retry_delay inner) ctx s r inner' s')
  end.
Proof.
  revert attempt delay last inner s. induction n as [|n IH]; intros attempt delay last inner s Hat;
    cbn [reconnect_from]; [split; [done|lia]|].
  set (first := if 1 <? attempt then _ else _).
  assert (Hfirst : match first with (slept_r, s1, delay1) =>
    dialed s1 = dialed s ∧ env_now s ≤ env_now s1
    ∧ (if attempt =? 1 then s1 = s ∧ delay1 = delay
       else slept s1 ≤ slept s + delay ∧ delay1 = N.min (delay * 2) (in_max_retry_delay inner))
    ∧ match slept_r with
      | Ok _ => if attempt =? 1 then True else env_now s + delay ≤ env_now s1
      | Err e => attempt ≠ 1 ∧ interrupted ctx s1 e end end).
  { unfold first. destruct (N.ltb_spec 1 attempt), (N.eqb_spec attempt 1); try lia; [|by split_and!].
    pose proof (sleep_with_cancel_spec delay ctx s) as Hs.
    destruct (sleep_with_cancel delay ctx s) as [r s1]. destruct Hs as (? & ? & ? & ?).
    split_and!; try done. by destruct r. }
  destruct first as [[slept_r s1] delay1]. destruct Hfirst as (Hd & Hn & Hs & Hr).
  assert (Hle : slept s1 ≤ slept s + total_delay (if attempt =? 1 then Datatypes.S n - 1 else Datatypes.S n)
                  delay (in_max_retry_delay inner)).
  { destruct (attempt =? 1); [destruct Hs as [-> ->]; lia|cbn; lia]. }
  destruct slept_r as [[]|e];
    [|split; [done|intros _; split_and!; [lia..|left; split; [apply Hr|lia]]]].
  destruct (env_closed s1) eqn:Hcl;
    [split; [done|intros _; split_and!; [lia..|left; split; [by left|lia]]]|].
  pose proof (dial_step inner s1) as Hdial. cbv zeta in Hdial |- *.
  destruct (env_dial _) as [[client|err] s2] eqn:Hdl; cbn [snd] in Hdial; destruct Hdial as (Hd2 & Hs2 & Hn2).
  - split; [done|intros _]. unfold outcome. rewrite (env_callback_dialed (slept := slept)), (env_callback_slept (dialed := dialed)).
    pose proof (env_callback_now (dialed := dialed) (slept := slept) (cl_session_id client) s2).
    split_and!; [lia..|]. eexists client, _. by rewrite Hdl.
  - specialize (IH (attempt + 1) delay1 (Some err) (set_client None inner) s2 ltac:(lia)).
    destruct (reconnect_from _ _ _ _ _ _ _) as [[r inner'] s']. destruct IH as [IH0 IH].
    split; [done|intros _].
    assert (Hlast : (attempt + 1 =? 1) = false) by (apply N.eqb_neq; lia). rewrite Hlast in IH. cbn [in_max_retry_delay set_client] in IH.
    destruct n as [|n].
    + destruct (IH0 eq_refl) as (-> & -> & ->). unfold outcome. split_and!; [lia..|]. right.
      split_and!; [lia|done| |by eexists]. destruct (attempt =? 1); cbn; destruct Hs as [? ?]; lia.
    + destruct (IH ltac:(lia)) as (IH1 & IH2 & IH3 & IH4). unfold outcome.
      assert (Hcase : total_delay (if attempt =? 1 then Datatypes.S n else Datatypes.S (Datatypes.S n)) delay
          (in_max_retry_delay inner)
        = (if attempt =? 1 then 0 else delay) + total_delay (Datatypes.S n) delay1 (in_max_retry_delay inner)
        ∧ slept s1 ≤ slept s + (if attempt =? 1 then 0 else delay)
        ∧ env_now s + (if attempt =? 1 then 0 else delay) ≤ env_now s1).
      { destruct (attempt =? 1); destruct Hs as [Hs1 ->]; [subst s1|]; cbn [total_delay]; lia. }
      destruct Hcase as (Hsum & Hsl & Hnw).
      replace (if attempt =? 1 then (Datatypes.S (Datatypes.S n) - 1)%nat else Datatypes.S (Datatypes.S n))
        with (if attempt =? 1 then Datatypes.S n else Datatypes.S (Datatypes.S n))
        by (destruct (attempt =? 1); lia).
      rewrite Hsum. split_and!; [lia..|]. destruct r as [|e]; [done|].
      destruct IH4 as [[Hi ?]|(? & ? & ? & Hex)]; [left; split; [done|lia]|right].
      split_and!; [lia| |lia|]; intros _; auto with lia.
Qed.

Lemma total_delay_le n delay limit : total_delay n delay limit ≤ N.of_nat n * N.max delay limit.
Proof.
  revert delay. induction n as [|n IH]; intros delay; cbn [total_delay]; [lia|].
  pose proof (IH (N.min (delay * 2) limit)).
  assert (N.max (N.min (delay * 2) limit) limit ≤ N.max delay limit) by lia. nia.
Qed.

(** A client that gave up answers every request with an error, whatever the world is by then. *)
Lemma gave_up `{Unicode} `{IoText} {A} ctx (op : operation (S := S) A) inner s :
  in_client inner = None →
  ∃ e, process_request ctx op inner s = (Err e, inner, s)
    ∧ (e = ClientClosed ∨ interrupted ctx s e).
Proof.
  intros Hc. unfold process_request. rewrite Hc.
  destruct (check_context ctx s) as [|e] eqn:He; [eauto|].
  apply check_context_interrupted in He. eauto.
Qed.

(** C34. Reconnecting is bounded, and its end is accounted for. It dials at most [max_retries] times
    and sleeps no more than the doubling delays add up to. It ends with the client of a dial that
    succeeded, which is then the one in use; or, before its last dial, because the client is
    closed, the caller's flag is set or its deadline has passed at that moment; or with the error of
    the last of [max_retries] dials, after all the delays: then no client is in use, and every
    later request fails without touching the world. Without retries it fails at once. *)
Theorem reconnect_bounds `{Unicode} `{IoText} ctx inner s r inner' s' :
  let retries := in_max_retries inner in
  let total := total_delay (N.to_nat retries - 1) (in_retry_delay inner) (in_max_retry_delay inner) in
  reconnect ctx inner s = (r, inner', s') →
  dialed s' ≤ dialed s + retries
  ∧ slept s' ≤ slept s + total
  ∧ total ≤ (retries - 1) * N.max (in_retry_delay inner) (in_max_retry_delay inner)
  ∧ match r with
    | Ok _ => ∃ client s1, (env_dial s1).1 = Ok client ∧ in_client inner' = Some client
        ∧ s' = env_on_reconnect (cl_session_id client) (env_dial s1).2
    | Err e =>
        (interrupted ctx s' e ∧ dialed s' < dialed s + retries)
        ∨ (retries = 0 ∧ e = ClientClosed ∧ inner' = inner ∧ s' = s)
        ∨ (dialed s' = dialed s + retries ∧ env_now s + total ≤ env_now s'
           ∧ (∃ s1, env_dial s1 = (Err e, s'))
           ∧ in_client inner' = None
           ∧ ∀ B ctx2 (op : operation (S := S) B) s2, ∃ e2,
               process_request ctx2 op inner' s2 = (Err e2, inner', s2)
               ∧ (e2 = ClientClosed ∨ interrupted ctx2 s2 e2))
    end.
Proof.
  intros retries total Hrec. unfold reconnect in Hrec.
  pose proof (reconnect_from_spec (N.to_nat retries) 1 (in_retry_delay inner) None ctx inner s
    ltac:(lia)) as Hspec. fold retries in Hrec. rewrite Hrec in Hspec. destruct Hspec as [Hzero Hspec].
  pose proof (total_delay_le (N.to_nat retries - 1) (in_retry_delay inner)
    (in_max_retry_delay inner)) as Ht. fold total in Ht.
  replace (N.of_nat (N.to_nat retries - 1)) with (retries - 1) in Ht by lia.
  destruct (decide (retries = 0)) as [Hz|Hpos].
  { rewrite Hz in Hzero. destruct (Hzero eq_refl) as (-> & -> & ->).
    split_and!; [lia..|done|]. right. left. by split_and!. }
  destruct (Hspec ltac:(lia)) as (Hd & Hs & Hn & Hr). change (1 =? 1) with true in Hs, Hr. cbv iota in Hs, Hr.
  fold total in Hs, Hr. split_and!; [lia|lia|done|]. destruct r as [|e]; [done|].
  destruct Hr as [[Hi Hlt]|(Hd' & Hnone & Hnow & Hlast)]; [left; split; [done|lia]|do 2 right].
  split_and!; [lia|done|by apply Hlast; lia|by apply Hnone; lia|].
  intros B ctx2 op s2. by apply gave_up, Hnone; lia.
Qed.

End backoff.

(** With the defaults four delays are at most a second and a half. *)
Example default_delays :
  total_delay (N.to_nat DEFAULT_MAX_RETRIES - 1) DEFAULT_RETRY_DELAY DEFAULT_MAX_RETRY_DELAY
  = 1500000000.
Proof. by vm_compute. Qed.

(** A world in which every dial is refused, with its clock, the time slept and the dials. *)
Definition Refusing : Type := N * N * N.
#[local] Instance refusing_env : Env Refusing := {|
  env_now s := s.1.1; env_cancelled _ _ := false; env_closed _ := false;
  env_sleep d s := (s.1.1 + d, s.1.2 + d, s.2);
  env_dial s := (Err (ClientIo ConnectionRefused), (s.1.1, s.1.2, s.2 + 1));
  env_hangup s := s; env_on_reconnect _ s := s |}.
#[local] Instance refusing_laws : EnvLaws Refusing (λ s, s.2) (λ s, s.1.2).
Proof. split; intros; cbn; lia. Qed.

#[local] Existing Instance Sample.unicode.
#[local] Instance text : IoText := λ _, $"io error".

Definition forever : CallContext := mkCallContext None 0.
Definition inner0 : Inner := inner_new reconnect_config_default (client_new 30000 ($"cli")).

Lemma reconnect_bounds_witness :
  ∃ inner', reconnect forever inner0 (0, 0, 0)
      = (Err (ClientIo ConnectionRefused), inner', (1500000000, 1500000000, 5))
    ∧ ∀ B (op : operation (S := Refusing) B) s2, ∃ e2,
        process_request forever op inner' s2 = (Err e2, inner', s2).
Proof.
  exists (set_client None inner0).
  assert (Hr : reconnect forever inner0 (0, 0, 0)
    = (Err (ClientIo ConnectionRefused), set_client None inner0, (1500000000, 1500000000, 5)))
    by (vm_compute; reflexivity).
  split; [exact Hr|].
  pose proof (reconnect_bounds (λ s : Refusing, s.2) (λ s, s.1.2) forever inner0 (0, 0, 0) _ _ _ Hr)
    as Hb.
  destruct Hb as (_ & _ & _ & [[_ Hlt]|[[Hz _]|(_ & _ & _ & _ & Hb)]]);
    [vm_compute in Hlt; discriminate Hlt|discriminate Hz|].
  intros B op s2. destruct (Hb B forever op s2) as (e2 & He2 & _). by exists e2.
Defined.
End Backoff.

(** ** Which failures reconnect *)

Module Failures.
Import WireWitness.
#[local] Existing Instances Sample.crc Sample.blake Sample.zstd Sample.pread Sample.order Sample.msgpack
  Sample.unicode HttpSample.text.

(** The server, whether its responses are cut, and the number of dials. *)
Definition World : Type := link * bool * N.
Definition peer (bs : bytes) (w : World) : bytes * World :=
  let '(received, l) := server_peer 9 bs w.1.1 in
  (if w.1.2 then take 20 received else received, (l, w.1.2, w.2)).

#[local] Instance world_env : Env World := {|
  env_now _ := 0; env_cancelled _ _ := false; env_closed _ := false;
  env_sleep _ w := w;
  env_dial w := (Ok cl, ((Some conn, w.1.1.2), false, w.2 + 1));
  env_hangup w := w; env_on_reconnect _ w := w |}.

Definition patient : CallContext := mkCallContext None 0.
Definition inner : Inner := inner_new reconnect_config_default cl.

(** A connection that ends in a response is an [InvalidResponse], which does not count as an error of
    the connection: the call fails, nothing is dialled, and the dead connection stays. *)
Example cut_response_does_not_reconnect :
  let '(r, _, w) := append_turn peer patient request inner ((Some conn, sv1), true, 0) in
  (r, w.2) = (Err (InvalidResponse ($"frame payload truncated")), 0).
Proof. vm_compute. reflexivity. Qed.

(** A response that the client cannot parse, on a connection that works, does count: the
    client dials again, asks again, and fails again. *)
Example parse_error_reconnects :
  let '(r, _, w) := get_last peer patient 1 get_last_options_default inner ((Some conn, sv2), false, 0) in
  (r, w.2) = (Err (ClientIo UnexpectedEof), 1).
Proof. vm_compute. reflexivity. Qed.
End Failures.
