(* ===== verification/Conversation.v ===== *)
(** * Conversation: the items of a conversation

    [clients/rust/src/types/]: the records of a turn as clients see it, their constructors and
    builders, the provenance of a process, and the JSON in which [cxtx/src/cxdb_http.rs] sends an
    item to the gateway. A builder is the item it holds; [Now()] is an argument. *)

From S2P Require Import Prelude Bytes External Json.

Open Scope N_scope.

(** ** Records *)

Definition TypeIDConversationItem : rstr := $"cxdb.ConversationItem".
Definition TypeVersionConversationItem : N := 3.

Definition ItemTypeUserInput : rstr := $"user_input".
Definition ItemTypeAssistantTurn : rstr := $"assistant_turn".
Definition ItemTypeSystem : rstr := $"system".
Definition ItemTypeHandoff : rstr := $"handoff".
Definition ItemTypeAssistant : rstr := $"assistant".
Definition ItemTypeToolCall : rstr := $"tool_call".
Definition ItemTypeToolResult : rstr := $"tool_result".
Definition ItemStatusPending : rstr := $"pending".
Definition ItemStatusComplete : rstr := $"complete".
Definition ToolCallStatusPending : rstr := $"pending".
Definition ToolCallStatusComplete : rstr := $"complete".
Definition ToolCallStatusError : rstr := $"error".
Definition SystemKindInfo : rstr := $"info".
Definition SystemKindWarning : rstr := $"warning".
Definition SystemKindError : rstr := $"error".
Definition SystemKindRewind : rstr := $"rewind".

Record Provenance : Type := mkProvenance {
  pv_parent_context_id : option N;
  pv_spawn_reason : rstr;
  pv_root_context_id : option N;
  pv_trace_id : rstr;
  pv_span_id : rstr;
  pv_correlation_id : rstr;
  pv_on_behalf_of : rstr;
  pv_on_behalf_of_source : rstr;
  pv_on_behalf_of_email : rstr;
  pv_writer_method : rstr;
  pv_writer_subject : rstr;
  pv_writer_issuer : rstr;
  pv_service_name : rstr;
  pv_service_version : rstr;
  pv_service_instance_id : rstr;
  pv_process_pid : Z;
  pv_process_owner : rstr;
  pv_host_name : rstr;
  pv_host_arch : rstr;
  pv_client_address : rstr;
  pv_client_port : Z;
  pv_env_vars : option (gmap rstr rstr);
  pv_sdk_name : rstr;
  pv_sdk_version : rstr;
  pv_captured_at : Z
}.

Record ContextMetadata : Type := mkContextMetadata {
  cmd_client_tag : rstr;
  cmd_title : rstr;
  cmd_labels : list rstr;
  cmd_custom : gmap rstr rstr;
  cmd_provenance : option Provenance
}.

Record UserInput : Type := mkUserInput { ui_text : rstr; ui_files : list rstr }.

Record ToolCallResult : Type := mkToolCallResult {
  tcr_content : rstr;
  tcr_content_truncated : bool;
  tcr_success : bool;
  tcr_exit_code : option Z
}.
Record ToolCallError : Type := mkToolCallError {
  tce_code : rstr;
  tce_message : rstr;
  tce_exit_code : option Z
}.
Record ToolCallItem : Type := mkToolCallItem {
  tci_id : rstr;
  tci_name : rstr;
  tci_args : rstr;
  tci_status : rstr;
  tci_description : rstr;
  tci_streaming_output : rstr;
  tci_streaming_output_truncated : bool;
  tci_result : option ToolCallResult;
  tci_error : option ToolCallError;
  tci_duration_ms : Z
}.

Record TurnMetrics : Type := mkTurnMetrics {
  mt_input_tokens : Z;
  mt_output_tokens : Z;
  mt_total_tokens : Z;
  mt_cached_tokens : option Z;
  mt_reasoning_tokens : option Z;
  mt_duration_ms : option Z;
  mt_model : rstr
}.

Record AssistantTurn : Type := mkAssistantTurn {
  atn_text : rstr;
  atn_tool_calls : list ToolCallItem;
  atn_reasoning : rstr;
  atn_metrics : option TurnMetrics;
  atn_agent : rstr;
  atn_turn_number : Z;
  atn_max_turns : Z;
  atn_finish_reason : rstr
}.

Record SystemMessage : Type := mkSystemMessage {
  sm_kind : rstr;
  sm_title : rstr;
  sm_content : rstr
}.
Record HandoffInfo : Type := mkHandoffInfo {
  hi_from_agent : rstr;
  hi_to_agent : rstr;
  hi_tool_name : rstr;
  hi_input : rstr;
  hi_reason : rstr
}.
Record Assistant : Type := mkAssistant {
  asst_text : rstr;
  asst_reasoning : rstr;
  asst_model : rstr;
  asst_input_tokens : Z;
  asst_output_tokens : Z;
  asst_stop_reason : rstr
}.
Record ToolCall : Type := mkToolCall {
  tcl_call_id : rstr;
  tcl_name : rstr;
  tcl_args : rstr;
  tcl_description : rstr
}.
Record ToolResult : Type := mkToolResult {
  trs_call_id : rstr;
  trs_content : rstr;
  trs_is_error : bool;
  trs_exit_code : option Z;
  trs_streaming_output : rstr;
  trs_output_truncated : bool;
  trs_duration_ms : Z
}.

Record ConversationItem : Type := mkConversationItem {
  ci_item_type : rstr;
  ci_status : rstr;
  ci_timestamp : Z;
  ci_id : rstr;
  ci_user_input : option UserInput;
  ci_turn : option AssistantTurn;
  ci_system : option SystemMessage;
  ci_handoff : option HandoffInfo;
  ci_assistant : option Assistant;
  ci_tool_call : option ToolCall;
  ci_tool_result : option ToolResult;
  ci_context_metadata : option ContextMetadata
}.

(** ** Constructors and builders *)

(** An item of a type, with no part yet. *)
Definition new_item (item_type status : rstr) (now : Z) : ConversationItem :=
  mkConversationItem item_type status now [] None None None None None None None None.

(** [item.id = id]. *)
Definition with_id (id : rstr) (item : ConversationItem) : ConversationItem :=
  mkConversationItem (ci_item_type item) (ci_status item) (ci_timestamp item) id
    (ci_user_input item) (ci_turn item) (ci_system item) (ci_handoff item) (ci_assistant item)
    (ci_tool_call item) (ci_tool_result item) (ci_context_metadata item).

Definition with_context_metadata (meta : ContextMetadata) (item : ConversationItem)
    : ConversationItem :=
  mkConversationItem (ci_item_type item) (ci_status item) (ci_timestamp item) (ci_id item)
    (ci_user_input item) (ci_turn item) (ci_system item) (ci_handoff item) (ci_assistant item)
    (ci_tool_call item) (ci_tool_result item) (Some meta).

(** [ConversationItem::with_client_tag] makes the metadata if there are none. *)
Definition with_client_tag (tag : rstr) (item : ConversationItem) : ConversationItem :=
  let meta := default (mkContextMetadata [] [] [] ∅ None) (ci_context_metadata item) in
  with_context_metadata
    (mkContextMetadata tag (cmd_title meta) (cmd_labels meta) (cmd_custom meta) (cmd_provenance meta))
    item.

(** [with_status] of the builders of items. *)
Definition with_status (status : rstr) (item : ConversationItem) : ConversationItem :=
  mkConversationItem (ci_item_type item) status (ci_timestamp item) (ci_id item)
    (ci_user_input item) (ci_turn item) (ci_system item) (ci_handoff item) (ci_assistant item)
    (ci_tool_call item) (ci_tool_result item) (ci_context_metadata item).

Definition new_user_input (text : rstr) (files : list rstr) (now : Z) : ConversationItem :=
  mkConversationItem ItemTypeUserInput ItemStatusComplete now []
    (Some (mkUserInput text files)) None None None None None None None.

Definition new_assistant_turn (text : rstr) (now : Z) : ConversationItem :=
  mkConversationItem ItemTypeAssistantTurn ItemStatusComplete now [] None
    (Some (mkAssistantTurn text [] [] None [] 0 0 [])) None None None None None None.
Definition build_assistant_turn : rstr → Z → ConversationItem := new_assistant_turn.

(** [if let Some(turn) = &mut self.item.turn]. *)
Definition map_turn (f : AssistantTurn → AssistantTurn) (item : ConversationItem) : ConversationItem :=
  mkConversationItem (ci_item_type item) (ci_status item) (ci_timestamp item) (ci_id item)
    (ci_user_input item) (f <$> ci_turn item) (ci_system item) (ci_handoff item)
    (ci_assistant item) (ci_tool_call item) (ci_tool_result item) (ci_context_metadata item).

Definition with_finish_reason (reason : rstr) : ConversationItem → ConversationItem :=
  map_turn (λ t, mkAssistantTurn (atn_text t) (atn_tool_calls t) (atn_reasoning t) (atn_metrics t)
                   (atn_agent t) (atn_turn_number t) (atn_max_turns t) reason).
Definition with_full_metrics (metrics : TurnMetrics) : ConversationItem → ConversationItem :=
  map_turn (λ t, mkAssistantTurn (atn_text t) (atn_tool_calls t) (atn_reasoning t) (Some metrics)
                   (atn_agent t) (atn_turn_number t) (atn_max_turns t) (atn_finish_reason t)).
Definition with_tool_call (tool_call : ToolCallItem) : ConversationItem → ConversationItem :=
  map_turn (λ t, mkAssistantTurn (atn_text t) (atn_tool_calls t ++ [tool_call]) (atn_reasoning t)
                   (atn_metrics t) (atn_agent t) (atn_turn_number t) (atn_max_turns t)
                   (atn_finish_reason t)).

Definition with_reasoning (reasoning : rstr) : ConversationItem → ConversationItem :=
  map_turn (λ t, mkAssistantTurn (atn_text t) (atn_tool_calls t) reasoning (atn_metrics t)
                   (atn_agent t) (atn_turn_number t) (atn_max_turns t) (atn_finish_reason t)).
Definition with_agent (agent : rstr) : ConversationItem → ConversationItem :=
  map_turn (λ t, mkAssistantTurn (atn_text t) (atn_tool_calls t) (atn_reasoning t) (atn_metrics t)
                   agent (atn_turn_number t) (atn_max_turns t) (atn_finish_reason t)).
Definition with_turn_number (turn max_turns : Z) : ConversationItem → ConversationItem :=
  map_turn (λ t, mkAssistantTurn (atn_text t) (atn_tool_calls t) (atn_reasoning t) (atn_metrics t)
                   (atn_agent t) turn max_turns (atn_finish_reason t)).

(** The total is the sum of two [i64], which wraps in a release build. *)
Definition with_metrics (input_tokens output_tokens : Z) : ConversationItem → ConversationItem :=
  with_full_metrics
    (mkTurnMetrics input_tokens output_tokens (wrap_i64 (input_tokens + output_tokens))
       None None None []).

Definition new_tool_call_item (id name args : rstr) : ToolCallItem :=
  mkToolCallItem id name args ToolCallStatusPending [] [] false None None 0.
Definition build_tool_call_item : rstr → rstr → rstr → ToolCallItem := new_tool_call_item.
Definition tool_with_status (status : rstr) (item : ToolCallItem) : ToolCallItem :=
  mkToolCallItem (tci_id item) (tci_name item) (tci_args item) status (tci_description item)
    (tci_streaming_output item) (tci_streaming_output_truncated item) (tci_result item)
    (tci_error item) (tci_duration_ms item).

Definition tool_with_description (desc : rstr) (item : ToolCallItem) : ToolCallItem :=
  mkToolCallItem (tci_id item) (tci_name item) (tci_args item) (tci_status item) desc
    (tci_streaming_output item) (tci_streaming_output_truncated item) (tci_result item)
    (tci_error item) (tci_duration_ms item).
Definition tool_with_streaming_output (output : rstr) (truncated : bool) (item : ToolCallItem)
    : ToolCallItem :=
  mkToolCallItem (tci_id item) (tci_name item) (tci_args item) (tci_status item)
    (tci_description item) output truncated (tci_result item) (tci_error item)
    (tci_duration_ms item).
(** A result does not clear an error that was set before, nor the other way round. *)
Definition tool_with_result (content : rstr) (exit_code : option Z) (item : ToolCallItem)
    : ToolCallItem :=
  mkToolCallItem (tci_id item) (tci_name item) (tci_args item) ToolCallStatusComplete
    (tci_description item) (tci_streaming_output item) (tci_streaming_output_truncated item)
    (Some (mkToolCallResult content false true exit_code)) (tci_error item) (tci_duration_ms item).
Definition tool_with_error (message : rstr) (exit_code : option Z) (item : ToolCallItem)
    : ToolCallItem :=
  mkToolCallItem (tci_id item) (tci_name item) (tci_args item) ToolCallStatusError
    (tci_description item) (tci_streaming_output item) (tci_streaming_output_truncated item)
    (tci_result item) (Some (mkToolCallError [] message exit_code)) (tci_duration_ms item).
Definition tool_with_duration (duration_ms : Z) (item : ToolCallItem) : ToolCallItem :=
  mkToolCallItem (tci_id item) (tci_name item) (tci_args item) (tci_status item)
    (tci_description item) (tci_streaming_output item) (tci_streaming_output_truncated item)
    (tci_result item) (tci_error item) duration_ms.

Definition new_handoff (from_agent to_agent : rstr) (now : Z) : ConversationItem :=
  mkConversationItem ItemTypeHandoff ItemStatusComplete now [] None None None
    (Some (mkHandoffInfo from_agent to_agent [] [] [])) None None None None.
Definition build_handoff : rstr → rstr → Z → ConversationItem := new_handoff.

(** [if let Some(handoff) = &mut self.item.handoff]. *)
Definition map_handoff (f : HandoffInfo → HandoffInfo) (item : ConversationItem) : ConversationItem :=
  mkConversationItem (ci_item_type item) (ci_status item) (ci_timestamp item) (ci_id item)
    (ci_user_input item) (ci_turn item) (ci_system item) (f <$> ci_handoff item)
    (ci_assistant item) (ci_tool_call item) (ci_tool_result item) (ci_context_metadata item).
Definition with_tool_name (tool_name : rstr) : ConversationItem → ConversationItem :=
  map_handoff (λ h, mkHandoffInfo (hi_from_agent h) (hi_to_agent h) tool_name (hi_input h)
                      (hi_reason h)).
Definition with_input (input : rstr) : ConversationItem → ConversationItem :=
  map_handoff (λ h, mkHandoffInfo (hi_from_agent h) (hi_to_agent h) (hi_tool_name h) input
                      (hi_reason h)).
Definition with_reason (reason : rstr) : ConversationItem → ConversationItem :=
  map_handoff (λ h, mkHandoffInfo (hi_from_agent h) (hi_to_agent h) (hi_tool_name h) (hi_input h)
                      reason).

Definition new_system_message (kind content : rstr) (now : Z) : ConversationItem :=
  mkConversationItem ItemTypeSystem ItemStatusComplete now [] None None
    (Some (mkSystemMessage kind [] content)) None None None None None.
Definition new_system_info : rstr → Z → ConversationItem := new_system_message SystemKindInfo.
Definition new_system_warning : rstr → Z → ConversationItem := new_system_message SystemKindWarning.
Definition new_system_error : rstr → Z → ConversationItem := new_system_message SystemKindError.
Definition build_system : rstr → rstr → Z → ConversationItem := new_system_message.
Definition with_title (title : rstr) (item : ConversationItem) : ConversationItem :=
  mkConversationItem (ci_item_type item) (ci_status item) (ci_timestamp item) (ci_id item)
    (ci_user_input item) (ci_turn item)
    ((λ s, mkSystemMessage (sm_kind s) title (sm_content s)) <$> ci_system item) (ci_handoff item)
    (ci_assistant item) (ci_tool_call item) (ci_tool_result item) (ci_context_metadata item).

Definition new_assistant (text : rstr) (now : Z) : ConversationItem :=
  mkConversationItem ItemTypeAssistant ItemStatusComplete now [] None None None None
    (Some (mkAssistant text [] [] 0 0 [])) None None None.
Definition build_assistant : rstr → Z → ConversationItem := new_assistant.

(** [if let Some(assistant) = &mut self.item.assistant]. *)
Definition map_assistant (f : Assistant → Assistant) (item : ConversationItem) : ConversationItem :=
  mkConversationItem (ci_item_type item) (ci_status item) (ci_timestamp item) (ci_id item)
    (ci_user_input item) (ci_turn item) (ci_system item) (ci_handoff item)
    (f <$> ci_assistant item) (ci_tool_call item) (ci_tool_result item) (ci_context_metadata item).
Definition assistant_with_reasoning (reasoning : rstr) : ConversationItem → ConversationItem :=
  map_assistant (λ a, mkAssistant (asst_text a) reasoning (asst_model a) (asst_input_tokens a)
                        (asst_output_tokens a) (asst_stop_reason a)).
Definition with_model (model : rstr) : ConversationItem → ConversationItem :=
  map_assistant (λ a, mkAssistant (asst_text a) (asst_reasoning a) model (asst_input_tokens a)
                        (asst_output_tokens a) (asst_stop_reason a)).
Definition with_tokens (input output : Z) : ConversationItem → ConversationItem :=
  map_assistant (λ a, mkAssistant (asst_text a) (asst_reasoning a) (asst_model a) input output
                        (asst_stop_reason a)).
Definition with_stop_reason (reason : rstr) : ConversationItem → ConversationItem :=
  map_assistant (λ a, mkAssistant (asst_text a) (asst_reasoning a) (asst_model a)
                        (asst_input_tokens a) (asst_output_tokens a) reason).

Definition new_tool_call (call_id name args : rstr) (now : Z) : ConversationItem :=
  mkConversationItem ItemTypeToolCall ItemStatusPending now [] None None None None None
    (Some (mkToolCall call_id name args [])) None None.
Definition build_tool_call : rstr → rstr → rstr → Z → ConversationItem := new_tool_call.
Definition call_with_description (desc : rstr) (item : ConversationItem) : ConversationItem :=
  mkConversationItem (ci_item_type item) (ci_status item) (ci_timestamp item) (ci_id item)
    (ci_user_input item) (ci_turn item) (ci_system item) (ci_handoff item) (ci_assistant item)
    ((λ c, mkToolCall (tcl_call_id c) (tcl_name c) (tcl_args c) desc) <$> ci_tool_call item)
    (ci_tool_result item) (ci_context_metadata item).

Definition new_tool_result (call_id content : rstr) (is_error : bool) (now : Z) : ConversationItem :=
  mkConversationItem ItemTypeToolResult ItemStatusComplete now [] None None None None None None
    (Some (mkToolResult call_id content is_error None [] false 0)) None.
Definition build_tool_result (call_id content : rstr) (now : Z) : ConversationItem :=
  new_tool_result call_id content false now.

(** [if let Some(result) = &mut self.item.tool_result]. *)
Definition map_result (f : ToolResult → ToolResult) (item : ConversationItem) : ConversationItem :=
  mkConversationItem (ci_item_type item) (ci_status item) (ci_timestamp item) (ci_id item)
    (ci_user_input item) (ci_turn item) (ci_system item) (ci_handoff item) (ci_assistant item)
    (ci_tool_call item) (f <$> ci_tool_result item) (ci_context_metadata item).
Definition with_error : ConversationItem → ConversationItem :=
  map_result (λ r, mkToolResult (trs_call_id r) (trs_content r) true (trs_exit_code r)
                     (trs_streaming_output r) (trs_output_truncated r) (trs_duration_ms r)).
Definition with_exit_code (code : Z) : ConversationItem → ConversationItem :=
  map_result (λ r, mkToolResult (trs_call_id r) (trs_content r) (trs_is_error r) (Some code)
                     (trs_streaming_output r) (trs_output_truncated r) (trs_duration_ms r)).
Definition result_with_streaming_output (output : rstr) : ConversationItem → ConversationItem :=
  map_result (λ r, mkToolResult (trs_call_id r) (trs_content r) (trs_is_error r) (trs_exit_code r)
                     output (trs_output_truncated r) (trs_duration_ms r)).
Definition with_truncated : ConversationItem → ConversationItem :=
  map_result (λ r, mkToolResult (trs_call_id r) (trs_content r) (trs_is_error r) (trs_exit_code r)
                     (trs_streaming_output r) true (trs_duration_ms r)).
Definition result_with_duration (duration_ms : Z) : ConversationItem → ConversationItem :=
  map_result (λ r, mkToolResult (trs_call_id r) (trs_content r) (trs_is_error r) (trs_exit_code r)
                     (trs_streaming_output r) (trs_output_truncated r) duration_ms).

(** ** Provenance *)

(** What [capture_process_provenance] reads of the process: the new instance id, the process id,
    the owner, the host and its architecture, and the environment. *)
Record Process : Type := mkProcess {
  ps_instance_id : rstr;
  ps_pid : Z;
  ps_username : rstr;
  ps_hostname : rstr;
  ps_arch : rstr;
  ps_env : gmap rstr rstr
}.

Definition provenance_default : Provenance :=
  mkProvenance None [] None [] [] [] [] [] [] [] [] [] [] [] [] 0 [] [] [] [] 0 None [] [] 0.

Definition DefaultEnvAllowlist : list rstr :=
  [$"K8S_NAMESPACE"; $"K8S_POD_NAME"; $"K8S_NODE_NAME"; $"KUBERNETES_SERVICE_HOST"; $"AWS_REGION";
   $"AWS_DEFAULT_REGION"; $"AWS_EXECUTION_ENV"; $"GOOGLE_CLOUD_PROJECT"; $"GCP_PROJECT";
   $"DEPLOYMENT"; $"ENVIRONMENT"; $"ENV"; $"STAGE"; $"REGION"; $"HOSTNAME"; $"USER"; $"HOME";
   $"GOVERSION"; $"GO_VERSION"; $"SERVICE_NAME"; $"SERVICE_VERSION"; $"APP_NAME"; $"APP_VERSION"].

Definition normalize_arch (arch : rstr) : rstr :=
  if bool_decide (arch = $"x86_64") then $"amd64"
  else if bool_decide (arch = $"aarch64") then $"arm64"
  else arch.

(** The variables of the list that are set and not empty. *)
Definition capture_env_vars (env : gmap rstr rstr) (allowlist : list rstr) : gmap rstr rstr :=
  foldl (λ vars key, match env !! key with
                     | Some ((_ :: _) as val) => <[key := val]> vars
                     | _ => vars
                     end) ∅ allowlist.

(** A [ProvenanceOption] changes a provenance; one of them reads the environment when it is
    applied. *)
Definition ProvenanceOption : Type := gmap rstr rstr → Provenance → Provenance.

Definition with_parent_context (parent_id root_id : N) : ProvenanceOption := λ _ p,
  let 'mkProvenance pc sr rc ti si ci ob os oe wm ws wi sn sv ii pid po hn ha ca cp env sdk sdv
    at_ := p in
  mkProvenance (Some parent_id) sr 
    (Some (if root_id =? 0 then parent_id else root_id)) ti si ci ob os oe wm ws wi sn sv ii pid
    po hn ha ca cp env sdk sdv at_.
Definition with_spawn_reason (reason : rstr) : ProvenanceOption := λ _ p,
  let 'mkProvenance pc sr rc ti si ci ob os oe wm ws wi sn sv ii pid po hn ha ca cp env sdk sdv
    at_ := p in
  mkProvenance pc reason rc ti si ci ob os oe wm ws wi sn sv ii pid po hn ha ca cp env sdk sdv
    at_.
Definition with_trace_context (trace_id span_id : rstr) : ProvenanceOption := λ _ p,
  let 'mkProvenance pc sr rc ti si ci ob os oe wm ws wi sn sv ii pid po hn ha ca cp env sdk sdv
    at_ := p in
  mkProvenance pc sr rc trace_id span_id ci ob os oe wm ws wi sn sv ii pid po hn ha ca cp env sdk
    sdv at_.
Definition with_correlation_id (id : rstr) : ProvenanceOption := λ _ p,
  let 'mkProvenance pc sr rc ti si ci ob os oe wm ws wi sn sv ii pid po hn ha ca cp env sdk sdv
    at_ := p in
  mkProvenance pc sr rc ti si id ob os oe wm ws wi sn sv ii pid po hn ha ca cp env sdk sdv at_.
Definition with_on_behalf_of (user_id source email : rstr) : ProvenanceOption := λ _ p,
  let 'mkProvenance pc sr rc ti si ci ob os oe wm ws wi sn sv ii pid po hn ha ca cp env sdk sdv
    at_ := p in
  mkProvenance pc sr rc ti si ci user_id source email wm ws wi sn sv ii pid po hn ha ca cp env
    sdk sdv at_.
Definition with_writer_identity (method subject issuer : rstr) : ProvenanceOption := λ _ p,
  let 'mkProvenance pc sr rc ti si ci ob os oe wm ws wi sn sv ii pid po hn ha ca cp env sdk sdv
    at_ := p in
  mkProvenance pc sr rc ti si ci ob os oe method subject issuer sn sv ii pid po hn ha ca cp env
    sdk sdv at_.
Definition with_env_vars (allowlist : option (list rstr)) : ProvenanceOption := λ process_env p,
  let vars := capture_env_vars process_env (default DefaultEnvAllowlist allowlist) in
  let 'mkProvenance pc sr rc ti si ci ob os oe wm ws wi sn sv ii pid po hn ha ca cp env sdk sdv
    at_ := p in
  mkProvenance pc sr rc ti si ci ob os oe wm ws wi sn sv ii pid po hn ha ca cp 
    (if bool_decide (vars = ∅) then None else Some vars) sdk sdv at_.
Definition with_sdk (name version : rstr) : ProvenanceOption := λ _ p,
  let 'mkProvenance pc sr rc ti si ci ob os oe wm ws wi sn sv ii pid po hn ha ca cp env sdk sdv
    at_ := p in
  mkProvenance pc sr rc ti si ci ob os oe wm ws wi sn sv ii pid po hn ha ca cp env name version
    at_.
(** An empty instance id leaves the one there is. *)
Definition with_service (name version instance_id : rstr) : ProvenanceOption := λ _ p,
  let 'mkProvenance pc sr rc ti si ci ob os oe wm ws wi sn sv ii pid po hn ha ca cp env sdk sdv
    at_ := p in
  mkProvenance pc sr rc ti si ci ob os oe wm ws wi name version 
    (if bool_decide (instance_id = []) then ii else instance_id) pid po hn ha ca cp env sdk sdv
    at_.
Definition captured_at (now : Z) (p : Provenance) : Provenance :=
  let 'mkProvenance pc sr rc ti si ci ob os oe wm ws wi sn sv ii pid po hn ha ca cp env sdk sdv
    at_ := p in
  mkProvenance pc sr rc ti si ci ob os oe wm ws wi sn sv ii pid po hn ha ca cp env sdk sdv now.

Definition apply_options (env : gmap rstr rstr) (opts : list ProvenanceOption) (p : Provenance)
    : Provenance :=
  foldl (λ p opt, opt env p) p opts.

Definition capture_process_provenance (ps : Process) (now : Z) (service_name service_version :
    rstr)
    (opts : list ProvenanceOption) : Provenance :=
  apply_options (ps_env ps) opts
    (mkProvenance None [] None [] [] [] [] [] [] [] [] [] service_name service_version
       (ps_instance_id ps) (ps_pid ps) (ps_username ps) (ps_hostname ps)
       (normalize_arch (ps_arch ps)) [] 0 None [] [] now).

(** The new provenance is a copy of its base: changing it does not change the base. *)
Definition new_provenance (env : gmap rstr rstr) (now : Z) (base : option Provenance)
    (opts : list ProvenanceOption) : Provenance :=
  apply_options env opts (captured_at now (default provenance_default base)).

Definition attach_provenance (meta : ContextMetadata) (provenance : Provenance) : ContextMetadata :=
  mkContextMetadata (cmd_client_tag meta) (cmd_title meta) (cmd_labels meta) (cmd_custom meta)
    (Some provenance).

(** ** The JSON of an item *)

(** One [obj.insert], and inserting only a value that says something. *)
Definition entry (key : rstr) (value : json) : list (rstr * json) := [(key, value)].
Definition opt_entry {A} (key : rstr) (f : A → json) (o : option A) : list (rstr * json) :=
  match o with Some a => entry key (f a) | None => [] end.
Definition str_entry (key value : rstr) : list (rstr * json) :=
  if bool_decide (value = []) then [] else entry key (JString value).
Definition json_i64 (z : Z) : json := JNumber (number_from_i64 z).
Definition i64_entry (key : rstr) (value : Z) : list (rstr * json) :=
  if bool_decide (value = 0%Z) then [] else entry key (json_i64 value).
Definition flag_entry (key : rstr) (value : bool) : list (rstr * json) :=
  if value then entry key (JBool true) else [].
Definition list_entry {A} (key : rstr) (f : A → json) (l : list A) : list (rstr * json) :=
  match l with [] => [] | _ => entry key (JArray (map f l)) end.

(** [json!] of a [HashMap<String, String>]. *)
Definition json_map (m : gmap rstr rstr) : json :=
  object (map (λ '(k, v), (k, JString v)) (map_to_list m)).

Definition user_input_payload (value : UserInput) : json :=
  object (entry ($"text") (JString (ui_text value)) ++ list_entry ($"files") JString (ui_files value)).

Definition tool_call_result_payload (value : ToolCallResult) : json :=
  object (entry ($"content") (JString (tcr_content value))
          ++ flag_entry ($"content_truncated") (tcr_content_truncated value)
          ++ entry ($"success") (JBool (tcr_success value))
          ++ opt_entry ($"exit_code") json_i64 (tcr_exit_code value)).

Definition tool_call_error_payload (value : ToolCallError) : json :=
  object (str_entry ($"code") (tce_code value)
          ++ entry ($"message") (JString (tce_message value))
          ++ opt_entry ($"exit_code") json_i64 (tce_exit_code value)).

Definition tool_call_item_payload (value : ToolCallItem) : json :=
  object (entry ($"id") (JString (tci_id value))
          ++ entry ($"name") (JString (tci_name value))
          ++ entry ($"args") (JString (tci_args value))
          ++ entry ($"status") (JString (tci_status value))
          ++ str_entry ($"description") (tci_description value)
          ++ str_entry ($"streaming_output") (tci_streaming_output value)
          ++ flag_entry ($"streaming_output_truncated") (tci_streaming_output_truncated value)
          ++ opt_entry ($"result") tool_call_result_payload (tci_result value)
          ++ opt_entry ($"error") tool_call_error_payload (tci_error value)
          ++ i64_entry ($"duration_ms") (tci_duration_ms value)).

Definition turn_metrics_payload (value : TurnMetrics) : json :=
  object (entry ($"input_tokens") (json_i64 (mt_input_tokens value))
          ++ entry ($"output_tokens") (json_i64 (mt_output_tokens value))
          ++ entry ($"total_tokens") (json_i64 (mt_total_tokens value))
          ++ opt_entry ($"cached_tokens") json_i64 (mt_cached_tokens value)
          ++ opt_entry ($"reasoning_tokens") json_i64 (mt_reasoning_tokens value)
          ++ opt_entry ($"duration_ms") json_i64 (mt_duration_ms value)
          ++ str_entry ($"model") (mt_model value)).

Definition assistant_turn_payload (value : AssistantTurn) : json :=
  object (entry ($"text") (JString (atn_text value))
          ++ list_entry ($"tool_calls") tool_call_item_payload (atn_tool_calls value)
          ++ str_entry ($"reasoning") (atn_reasoning value)
          ++ opt_entry ($"metrics") turn_metrics_payload (atn_metrics value)
          ++ str_entry ($"agent") (atn_agent value)
          ++ i64_entry ($"turn_number") (atn_turn_number value)
          ++ i64_entry ($"max_turns") (atn_max_turns value)
          ++ str_entry ($"finish_reason") (atn_finish_reason value)).

Definition system_message_payload (value : SystemMessage) : json :=
  object (entry ($"kind") (JString (sm_kind value))
          ++ str_entry ($"title") (sm_title value)
          ++ entry ($"content") (JString (sm_content value))).

Definition handoff_payload (value : HandoffInfo) : json :=
  object (entry ($"from_agent") (JString (hi_from_agent value))
          ++ entry ($"to_agent") (JString (hi_to_agent value))
          ++ str_entry ($"tool_name") (hi_tool_name value)
          ++ str_entry ($"input") (hi_input value)
          ++ str_entry ($"reason") (hi_reason value)).

Definition assistant_payload (value : Assistant) : json :=
  object (entry ($"text") (JString (asst_text value))
          ++ str_entry ($"reasoning") (asst_reasoning value)
          ++ str_entry ($"model") (asst_model value)
          ++ i64_entry ($"input_tokens") (asst_input_tokens value)
          ++ i64_entry ($"output_tokens") (asst_output_tokens value)
          ++ str_entry ($"stop_reason") (asst_stop_reason value)).

Definition tool_call_payload (value : ToolCall) : json :=
  object (entry ($"call_id") (JString (tcl_call_id value))
          ++ entry ($"name") (JString (tcl_name value))
          ++ entry ($"args") (JString (tcl_args value))
          ++ str_entry ($"description") (tcl_description value)).

Definition tool_result_payload (value : ToolResult) : json :=
  object (entry ($"call_id") (JString (trs_call_id value))
          ++ entry ($"content") (JString (trs_content value))
          ++ entry ($"is_error") (JBool (trs_is_error value))
          ++ opt_entry ($"exit_code") json_i64 (trs_exit_code value)
          ++ str_entry ($"streaming_output") (trs_streaming_output value)
          ++ flag_entry ($"output_truncated") (trs_output_truncated value)
          ++ i64_entry ($"duration_ms") (trs_duration_ms value)).

Definition provenance_payload (value : Provenance) : json :=
  object (opt_entry ($"parent_context_id") json_nat (pv_parent_context_id value)
          ++ str_entry ($"spawn_reason") (pv_spawn_reason value)
          ++ opt_entry ($"root_context_id") json_nat (pv_root_context_id value)
          ++ str_entry ($"trace_id") (pv_trace_id value)
          ++ str_entry ($"span_id") (pv_span_id value)
          ++ str_entry ($"correlation_id") (pv_correlation_id value)
          ++ str_entry ($"on_behalf_of") (pv_on_behalf_of value)
          ++ str_entry ($"on_behalf_of_source") (pv_on_behalf_of_source value)
          ++ str_entry ($"on_behalf_of_email") (pv_on_behalf_of_email value)
          ++ str_entry ($"writer_method") (pv_writer_method value)
          ++ str_entry ($"writer_subject") (pv_writer_subject value)
          ++ str_entry ($"writer_issuer") (pv_writer_issuer value)
          ++ str_entry ($"service_name") (pv_service_name value)
          ++ str_entry ($"service_version") (pv_service_version value)
          ++ str_entry ($"service_instance_id") (pv_service_instance_id value)
          ++ i64_entry ($"process_pid") (pv_process_pid value)
          ++ str_entry ($"process_owner") (pv_process_owner value)
          ++ str_entry ($"host_name") (pv_host_name value)
          ++ str_entry ($"host_arch") (pv_host_arch value)
          ++ str_entry ($"client_address") (pv_client_address value)
          ++ i64_entry ($"client_port") (pv_client_port value)
          ++ opt_entry ($"env_vars") json_map (pv_env_vars value)
          ++ str_entry ($"sdk_name") (pv_sdk_name value)
          ++ str_entry ($"sdk_version") (pv_sdk_version value)
          ++ i64_entry ($"captured_at") (pv_captured_at value)).

Definition context_metadata_payload (value : ContextMetadata) : json :=
  object (str_entry ($"client_tag") (cmd_client_tag value)
          ++ str_entry ($"title") (cmd_title value)
          ++ list_entry ($"labels") JString (cmd_labels value)
          ++ (if bool_decide (cmd_custom value = ∅) then []
              else entry ($"custom") (json_map (cmd_custom value)))
          ++ opt_entry ($"provenance") provenance_payload (cmd_provenance value)).

Definition conversation_item_payload (item : ConversationItem) : json :=
  object (entry ($"item_type") (JString (ci_item_type item))
          ++ str_entry ($"status") (ci_status item)
          ++ i64_entry ($"timestamp") (ci_timestamp item)
          ++ str_entry ($"id") (ci_id item)
          ++ opt_entry ($"user_input") user_input_payload (ci_user_input item)
          ++ opt_entry ($"turn") assistant_turn_payload (ci_turn item)
          ++ opt_entry ($"system") system_message_payload (ci_system item)
          ++ opt_entry ($"handoff") handoff_payload (ci_handoff item)
          ++ opt_entry ($"assistant") assistant_payload (ci_assistant item)
          ++ opt_entry ($"tool_call") tool_call_payload (ci_tool_call item)
          ++ opt_entry ($"tool_result") tool_result_payload (ci_tool_result item)
          ++ opt_entry ($"context_metadata") context_metadata_payload (ci_context_metadata item)).

(** ** What the environment leaves in a provenance *)

Lemma capture_env_vars_from (env : gmap rstr rstr) (allowlist : list rstr) (vars : gmap rstr rstr) key val :
  foldl (λ vars key, match env !! key with
                     | Some ((_ :: _) as val) => <[key := val]> vars
                     | _ => vars
                     end) vars allowlist !! key = Some val
  ↔ (key ∈ allowlist ∧ env !! key = Some val ∧ val ≠ [])
    ∨ ((key ∉ allowlist ∨ env !! key = None ∨ env !! key = Some []) ∧ vars !! key = Some val).
Proof.
  revert vars. induction allowlist as [|k allowlist IH]; intros vars; cbn [foldl].
  { rewrite elem_of_nil. naive_solver. }
  rewrite IH, elem_of_cons. destruct (decide (key = k)) as [->|Hk].
  - destruct (env !! k) as [[|b s]|]; rewrite ?lookup_insert_eq; destruct (decide (k ∈ allowlist));
      naive_solver.
  - destruct (env !! k) as [[|b s]|]; rewrite ?lookup_insert_ne by done; naive_solver.
Qed.

(** The variables of the list that are set and not empty, and no others. *)
Lemma capture_env_vars_lookup (env : gmap rstr rstr) (allowlist : list rstr) key val :
  capture_env_vars env allowlist !! key = Some val
  ↔ key ∈ allowlist ∧ env !! key = Some val ∧ val ≠ [].
Proof.
  unfold capture_env_vars. rewrite capture_env_vars_from, lookup_empty. naive_solver.
Qed.

(** The total of [with_metrics] wraps. *)
Example total_tokens_wrap :
  atn_metrics <$> ci_turn (with_metrics 9223372036854775807 1 (new_assistant_turn [] 0))
  = Some (Some (mkTurnMetrics 9223372036854775807 1 (-9223372036854775808) None None None [])).
Proof. reflexivity. Qed.

(** A call that failed and was repeated keeps its error next to the result. *)
Example result_keeps_error :
  let item := tool_with_result ($"ok") None
                (tool_with_error ($"timeout") None (new_tool_call_item ($"1") ($"ls") [])) in
  (tci_status item, tci_error item)
  = (ToolCallStatusComplete, Some (mkToolCallError [] ($"timeout") None)).
Proof. reflexivity. Qed.
