(* ===== verification/ConversationCodec.v ===== *)
(** * ConversationCodec: a conversation item as msgpack

    What [#[derive(Serialize, Deserialize)]] makes of the records of
    [clients/rust/src/types/{conversation,provenance}.rs]: a struct is a map from the names that
    [serde(rename)] gives its fields, without the fields that [skip_serializing_if] skips. A field
    that was skipped is missing when the item is read: [decode_msgpack_into] refuses it, since no
    field has a default. The server takes the metadata of a context from the same bytes. *)

From S2P Require Import Prelude Bytes External Metadata ClientWire Encoding Conversation.

Open Scope N_scope.

(** ** What derive makes of a type

    [ser] and [de] are its [Serialize] and [Deserialize]; [typed] holds of the values that Rust's
    type has, and [full] of those in which no field is skipped. *)
Class Codec (A : Type) : Type := {
  ser : A → SerdeValue;
  de : Value → option A;
  typed : A → Prop;
  full : A → bool
}.

(** The conditions of [skip_serializing_if]. *)
Class Skip (A : Type) : Type := skipped : A → bool.
#[export] Instance skip_string : Skip rstr := λ s, bool_decide (s = []).
#[export] Instance skip_vec {A} : Skip (list A) := λ l, match l with [] => true | _ => false end.
#[export] Instance is_zero_i64 : Skip Z := λ z, (z =? 0)%Z.
#[export] Instance is_false : Skip bool := negb.
#[export] Instance map_is_empty : Skip (gmap rstr rstr) := λ m, bool_decide (m = ∅).

(** The fields of a struct that is written, in a [BTreeMap]. *)
Definition field {A} `{Codec A} (name : rstr) (a : A) : rstr * option SerdeValue :=
  (name, Some (ser a)).
Definition skip_field {A} `{Codec A, Skip A} (name : rstr) (a : A) : rstr * option SerdeValue :=
  (name, if skipped a then None else Some (ser a)).
Definition option_field {A} `{Codec A} (name : rstr) (o : option A) : rstr * option SerdeValue :=
  (name, Some (SOption (ser <$> o))).

Definition present (fields : list (rstr * option SerdeValue)) : list (rstr * SerdeValue) :=
  omap (λ '(name, o), (name,.) <$> o) fields.
Definition text_map (entries : list (rstr * SerdeValue)) : SerdeValue :=
  SMap (map (λ '(name, v), (SString name, v)) (sort_by (λ a b, str_le a.1 b.1) entries)).
Definition struct_map (fields : list (rstr * option SerdeValue)) : SerdeValue :=
  text_map (present fields).

(** A key of a struct that is read: one of its names, the number of a field, or something else,
    which is ignored. Other kinds of keys are an error. *)
Definition field_of (names : list rstr) (k : Value) : option (option rstr) :=
  match k with
  | VString s | VBinary s => Some (if bool_decide (s ∈ names) then Some s else None)
  | VInteger i => n ← int_as_u64 i; Some (names !! N.to_nat n)
  | _ => None
  end.

(** [visit_map] and [visit_seq]: the values of the fields. A field may come once. *)
Fixpoint visit_map (names : list rstr) (entries : list (Value * Value)) (fields : gmap rstr Value)
    : option (gmap rstr Value) :=
  match entries with
  | [] => Some fields
  | (k, v) :: entries =>
      name ← field_of names k;
      match name with
      | None => visit_map names entries fields
      | Some name =>
          match fields !! name with
          | Some _ => None
          | None => visit_map names entries (<[name := v]> fields)
          end
      end
  end.
Definition visit_seq (names : list rstr) (l : list Value) : option (gmap rstr Value) :=
  if (length l =? length names)%nat then Some (list_to_map (zip names l)) else None.
Definition struct_fields (names : list rstr) (v : Value) : option (gmap rstr Value) :=
  match v with
  | VMap entries => visit_map names entries ∅
  | VArray l => visit_seq names l
  | _ => None
  end.

(** A missing field is an error, unless its type is an [Option]. *)
Definition required {A} `{Codec A} (name : rstr) (fields : gmap rstr Value) : option A :=
  fields !! name ≫= de.
Definition de_option {A} `{Codec A} (v : Value) : option (option A) :=
  match v with VNil => Some None | _ => Some <$> de v end.
Definition optional {A} `{Codec A} (name : rstr) (fields : gmap rstr Value) : option (option A) :=
  match fields !! name with Some v => de_option v | None => Some None end.

Definition typed_option {A} `{Codec A} (o : option A) : Prop := ∀ a, o = Some a → typed a.
Definition full_option {A} `{Codec A} (o : option A) : bool :=
  match o with Some a => full a | None => true end.
Definition full_skip {A} `{Codec A, Skip A} (a : A) : bool := negb (skipped a) && full a.

(** ** Primitive types *)

#[export] Instance string_codec : Codec rstr := {|
  ser := SString;
  de v := match v with VString s | VBinary s => from_utf8 s | _ => None end;
  typed s := utf8_valid s = true;
  full _ := true
|}.
#[export] Instance i64_codec : Codec Z := {|
  ser := SI64;
  de v := match v with VInteger i => int_as_i64 i | _ => None end;
  typed z := in_i 64 z;
  full _ := true
|}.
#[export] Instance u64_codec : Codec N := {|
  ser := SU64;
  de v := match v with VInteger i => int_as_u64 i | _ => None end;
  typed n := n < U64;
  full _ := true
|}.
#[export] Instance bool_codec : Codec bool := {|
  ser := SBool;
  de v := match v with VBoolean b => Some b | _ => None end;
  typed _ := True;
  full _ := true
|}.
#[export] Instance vec_codec {A} `{Codec A} : Codec (list A) := {|
  ser l := SSeq (map ser l);
  de v := match v with VArray l => mapM de l | _ => None end;
  typed := Forall typed;
  full := forallb full
|}.

(** A map of strings; a later entry with the same key replaces an earlier one. *)
Definition de_entry (kv : Value * Value) : option (rstr * rstr) :=
  key ← de kv.1; val ← de kv.2; Some (key, val).
Definition de_string_map (v : Value) : option (gmap rstr rstr) :=
  match v with
  | VMap entries =>
      entries ← mapM de_entry entries;
      Some (foldl (λ m '(k, v), <[k := v]> m) ∅ entries)
  | _ => None
  end.
#[export] Instance string_map_codec : Codec (gmap rstr rstr) := {|
  ser m := text_map (map (λ '(k, v), (k, SString v)) (map_to_list m));
  de := de_string_map;
  typed m := ∀ k v, m !! k = Some v → typed k ∧ typed v;
  full _ := true
|}.

Definition ser_user_input (x : UserInput) : SerdeValue :=
  struct_map
    [field ($"1") (ui_text x); skip_field ($"2") (ui_files x)].
Definition user_input_names : list rstr :=
  [$"1"; $"2"].
Definition de_user_input (v : Value) : option UserInput :=
  fields ← struct_fields user_input_names v;
  text ← required ($"1") fields; files ← required ($"2") fields;
  Some (mkUserInput text files).
#[export] Instance user_input_codec : Codec UserInput := {|
  ser := ser_user_input; de := de_user_input;
  typed x := typed (ui_text x) ∧ typed (ui_files x);
  full x := full_skip (ui_files x)
|}.

Definition ser_tool_call_result (x : ToolCallResult) : SerdeValue :=
  struct_map
    [field ($"1") (tcr_content x); skip_field ($"2") (tcr_content_truncated x);
     field ($"3") (tcr_success x); option_field ($"4") (tcr_exit_code x)].
Definition tool_call_result_names : list rstr :=
  [$"1"; $"2"; $"3"; $"4"].
Definition de_tool_call_result (v : Value) : option ToolCallResult :=
  fields ← struct_fields tool_call_result_names v;
  content ← required ($"1") fields; content_truncated ← required ($"2") fields;
  success ← required ($"3") fields; exit_code ← optional ($"4") fields;
  Some (mkToolCallResult content content_truncated success exit_code).
#[export] Instance tool_call_result_codec : Codec ToolCallResult := {|
  ser := ser_tool_call_result; de := de_tool_call_result;
  typed x :=
    typed (tcr_content x) ∧ typed (tcr_content_truncated x) ∧ typed (tcr_success x) ∧
    typed_option (tcr_exit_code x);
  full x := full_skip (tcr_content_truncated x) && full_option (tcr_exit_code x)
|}.

Definition ser_tool_call_error (x : ToolCallError) : SerdeValue :=
  struct_map
    [skip_field ($"1") (tce_code x); field ($"2") (tce_message x);
     option_field ($"3") (tce_exit_code x)].
Definition tool_call_error_names : list rstr :=
  [$"1"; $"2"; $"3"].
Definition de_tool_call_error (v : Value) : option ToolCallError :=
  fields ← struct_fields tool_call_error_names v;
  code ← required ($"1") fields; message ← required ($"2") fields;
  exit_code ← optional ($"3") fields;
  Some (mkToolCallError code message exit_code).
#[export] Instance tool_call_error_codec : Codec ToolCallError := {|
  ser := ser_tool_call_error; de := de_tool_call_error;
  typed x := typed (tce_code x) ∧ typed (tce_message x) ∧ typed_option (tce_exit_code x);
  full x := full_skip (tce_code x) && full_option (tce_exit_code x)
|}.

Definition ser_tool_call_item (x : ToolCallItem) : SerdeValue :=
  struct_map
    [field ($"1") (tci_id x); field ($"2") (tci_name x); field ($"3") (tci_args x);
     field ($"4") (tci_status x); skip_field ($"5") (tci_description x);
     skip_field ($"6") (tci_streaming_output x);
     skip_field ($"7") (tci_streaming_output_truncated x); option_field ($"8") (tci_result x);
     option_field ($"9") (tci_error x); skip_field ($"10") (tci_duration_ms x)].
Definition tool_call_item_names : list rstr :=
  [$"1"; $"2"; $"3"; $"4"; $"5"; $"6"; $"7"; $"8"; $"9"; $"10"].
Definition de_tool_call_item (v : Value) : option ToolCallItem :=
  fields ← struct_fields tool_call_item_names v;
  id ← required ($"1") fields; name ← required ($"2") fields; args ← required ($"3") fields;
  status ← required ($"4") fields; description ← required ($"5") fields;
  streaming_output ← required ($"6") fields; streaming_output_truncated ← required ($"7") fields;
  result ← optional ($"8") fields; error ← optional ($"9") fields;
  duration_ms ← required ($"10") fields;
  Some (mkToolCallItem id name args status description streaming_output
          streaming_output_truncated result error duration_ms).
#[export] Instance tool_call_item_codec : Codec ToolCallItem := {|
  ser := ser_tool_call_item; de := de_tool_call_item;
  typed x :=
    typed (tci_id x) ∧ typed (tci_name x) ∧ typed (tci_args x) ∧ typed (tci_status x) ∧
    typed (tci_description x) ∧ typed (tci_streaming_output x) ∧
    typed (tci_streaming_output_truncated x) ∧ typed_option (tci_result x) ∧
    typed_option (tci_error x) ∧ typed (tci_duration_ms x);
  full x :=
    full_skip (tci_description x) && full_skip (tci_streaming_output x) &&
    full_skip (tci_streaming_output_truncated x) && full_option (tci_result x) &&
    full_option (tci_error x) && full_skip (tci_duration_ms x)
|}.

Definition ser_turn_metrics (x : TurnMetrics) : SerdeValue :=
  struct_map
    [field ($"1") (mt_input_tokens x); field ($"2") (mt_output_tokens x);
     field ($"3") (mt_total_tokens x); option_field ($"4") (mt_cached_tokens x);
     option_field ($"5") (mt_reasoning_tokens x); option_field ($"6") (mt_duration_ms x);
     skip_field ($"7") (mt_model x)].
Definition turn_metrics_names : list rstr :=
  [$"1"; $"2"; $"3"; $"4"; $"5"; $"6"; $"7"].
Definition de_turn_metrics (v : Value) : option TurnMetrics :=
  fields ← struct_fields turn_metrics_names v;
  input_tokens ← required ($"1") fields; output_tokens ← required ($"2") fields;
  total_tokens ← required ($"3") fields; cached_tokens ← optional ($"4") fields;
  reasoning_tokens ← optional ($"5") fields; duration_ms ← optional ($"6") fields;
  model ← required ($"7") fields;
  Some (mkTurnMetrics input_tokens output_tokens total_tokens cached_tokens
          reasoning_tokens duration_ms model).
#[export] Instance turn_metrics_codec : Codec TurnMetrics := {|
  ser := ser_turn_metrics; de := de_turn_metrics;
  typed x :=
    typed (mt_input_tokens x) ∧ typed (mt_output_tokens x) ∧ typed (mt_total_tokens x) ∧
    typed_option (mt_cached_tokens x) ∧ typed_option (mt_reasoning_tokens x) ∧
    typed_option (mt_duration_ms x) ∧ typed (mt_model x);
  full x :=
    full_option (mt_cached_tokens x) && full_option (mt_reasoning_tokens x) &&
    full_option (mt_duration_ms x) && full_skip (mt_model x)
|}.

Definition ser_assistant_turn (x : AssistantTurn) : SerdeValue :=
  struct_map
    [field ($"1") (atn_text x); skip_field ($"2") (atn_tool_calls x);
     skip_field ($"3") (atn_reasoning x); option_field ($"4") (atn_metrics x);
     skip_field ($"5") (atn_agent x); skip_field ($"6") (atn_turn_number x);
     skip_field ($"7") (atn_max_turns x); skip_field ($"8") (atn_finish_reason x)].
Definition assistant_turn_names : list rstr :=
  [$"1"; $"2"; $"3"; $"4"; $"5"; $"6"; $"7"; $"8"].
Definition de_assistant_turn (v : Value) : option AssistantTurn :=
  fields ← struct_fields assistant_turn_names v;
  text ← required ($"1") fields; tool_calls ← required ($"2") fields;
  reasoning ← required ($"3") fields; metrics ← optional ($"4") fields;
  agent ← required ($"5") fields; turn_number ← required ($"6") fields;
  max_turns ← required ($"7") fields; finish_reason ← required ($"8") fields;
  Some (mkAssistantTurn text tool_calls reasoning metrics agent turn_number max_turns
          finish_reason).
#[export] Instance assistant_turn_codec : Codec AssistantTurn := {|
  ser := ser_assistant_turn; de := de_assistant_turn;
  typed x :=
    typed (atn_text x) ∧ typed (atn_tool_calls x) ∧ typed (atn_reasoning x) ∧
    typed_option (atn_metrics x) ∧ typed (atn_agent x) ∧ typed (atn_turn_number x) ∧
    typed (atn_max_turns x) ∧ typed (atn_finish_reason x);
  full x :=
    full_skip (atn_tool_calls x) && full_skip (atn_reasoning x) && full_option (atn_metrics x) &&
    full_skip (atn_agent x) && full_skip (atn_turn_number x) && full_skip (atn_max_turns x) &&
    full_skip (atn_finish_reason x)
|}.

Definition ser_system_message (x : SystemMessage) : SerdeValue :=
  struct_map
    [field ($"1") (sm_kind x); skip_field ($"2") (sm_title x); field ($"3") (sm_content x)].
Definition system_message_names : list rstr :=
  [$"1"; $"2"; $"3"].
Definition de_system_message (v : Value) : option SystemMessage :=
  fields ← struct_fields system_message_names v;
  kind ← required ($"1") fields; title ← required ($"2") fields;
  content ← required ($"3") fields;
  Some (mkSystemMessage kind title content).
#[export] Instance system_message_codec : Codec SystemMessage := {|
  ser := ser_system_message; de := de_system_message;
  typed x := typed (sm_kind x) ∧ typed (sm_title x) ∧ typed (sm_content x);
  full x := full_skip (sm_title x)
|}.

Definition ser_handoff_info (x : HandoffInfo) : SerdeValue :=
  struct_map
    [field ($"1") (hi_from_agent x); field ($"2") (hi_to_agent x);
     skip_field ($"3") (hi_tool_name x); skip_field ($"4") (hi_input x);
     skip_field ($"5") (hi_reason x)].
Definition handoff_info_names : list rstr :=
  [$"1"; $"2"; $"3"; $"4"; $"5"].
Definition de_handoff_info (v : Value) : option HandoffInfo :=
  fields ← struct_fields handoff_info_names v;
  from_agent ← required ($"1") fields; to_agent ← required ($"2") fields;
  tool_name ← required ($"3") fields; input ← required ($"4") fields;
  reason ← required ($"5") fields;
  Some (mkHandoffInfo from_agent to_agent tool_name input reason).
#[export] Instance handoff_info_codec : Codec HandoffInfo := {|
  ser := ser_handoff_info; de := de_handoff_info;
  typed x :=
    typed (hi_from_agent x) ∧ typed (hi_to_agent x) ∧ typed (hi_tool_name x) ∧
    typed (hi_input x) ∧ typed (hi_reason x);
  full x := full_skip (hi_tool_name x) && full_skip (hi_input x) && full_skip (hi_reason x)
|}.

Definition ser_assistant (x : Assistant) : SerdeValue :=
  struct_map
    [field ($"1") (asst_text x); skip_field ($"2") (asst_reasoning x);
     skip_field ($"3") (asst_model x); skip_field ($"4") (asst_input_tokens x);
     skip_field ($"5") (asst_output_tokens x); skip_field ($"6") (asst_stop_reason x)].
Definition assistant_names : list rstr :=
  [$"1"; $"2"; $"3"; $"4"; $"5"; $"6"].
Definition de_assistant (v : Value) : option Assistant :=
  fields ← struct_fields assistant_names v;
  text ← required ($"1") fields; reasoning ← required ($"2") fields;
  model ← required ($"3") fields; input_tokens ← required ($"4") fields;
  output_tokens ← required ($"5") fields; stop_reason ← required ($"6") fields;
  Some (mkAssistant text reasoning model input_tokens output_tokens stop_reason).
#[export] Instance assistant_codec : Codec Assistant := {|
  ser := ser_assistant; de := de_assistant;
  typed x :=
    typed (asst_text x) ∧ typed (asst_reasoning x) ∧ typed (asst_model x) ∧
    typed (asst_input_tokens x) ∧ typed (asst_output_tokens x) ∧ typed (asst_stop_reason x);
  full x :=
    full_skip (asst_reasoning x) && full_skip (asst_model x) &&
    full_skip (asst_input_tokens x) && full_skip (asst_output_tokens x) &&
    full_skip (asst_stop_reason x)
|}.

Definition ser_tool_call (x : ToolCall) : SerdeValue :=
  struct_map
    [field ($"1") (tcl_call_id x); field ($"2") (tcl_name x); field ($"3") (tcl_args x);
     skip_field ($"4") (tcl_description x)].
Definition tool_call_names : list rstr :=
  [$"1"; $"2"; $"3"; $"4"].
Definition de_tool_call (v : Value) : option ToolCall :=
  fields ← struct_fields tool_call_names v;
  call_id ← required ($"1") fields; name ← required ($"2") fields; args ← required ($"3") fields;
  description ← required ($"4") fields;
  Some (mkToolCall call_id name args description).
#[export] Instance tool_call_codec : Codec ToolCall := {|
  ser := ser_tool_call; de := de_tool_call;
  typed x :=
    typed (tcl_call_id x) ∧ typed (tcl_name x) ∧ typed (tcl_args x) ∧ typed (tcl_description x);
  full x := full_skip (tcl_description x)
|}.

Definition ser_tool_result (x : ToolResult) : SerdeValue :=
  struct_map
    [field ($"1") (trs_call_id x); field ($"2") (trs_content x); field ($"3") (trs_is_error x);
     option_field ($"4") (trs_exit_code x); skip_field ($"5") (trs_streaming_output x);
     skip_field ($"6") (trs_output_truncated x); skip_field ($"7") (trs_duration_ms x)].
Definition tool_result_names : list rstr :=
  [$"1"; $"2"; $"3"; $"4"; $"5"; $"6"; $"7"].
Definition de_tool_result (v : Value) : option ToolResult :=
  fields ← struct_fields tool_result_names v;
  call_id ← required ($"1") fields; content ← required ($"2") fields;
  is_error ← required ($"3") fields; exit_code ← optional ($"4") fields;
  streaming_output ← required ($"5") fields; output_truncated ← required ($"6") fields;
  duration_ms ← required ($"7") fields;
  Some (mkToolResult call_id content is_error exit_code streaming_output output_truncated
          duration_ms).
#[export] Instance tool_result_codec : Codec ToolResult := {|
  ser := ser_tool_result; de := de_tool_result;
  typed x :=
    typed (trs_call_id x) ∧ typed (trs_content x) ∧ typed (trs_is_error x) ∧
    typed_option (trs_exit_code x) ∧ typed (trs_streaming_output x) ∧
    typed (trs_output_truncated x) ∧ typed (trs_duration_ms x);
  full x :=
    full_option (trs_exit_code x) && full_skip (trs_streaming_output x) &&
    full_skip (trs_output_truncated x) && full_skip (trs_duration_ms x)
|}.

Definition ser_provenance (x : Provenance) : SerdeValue :=
  struct_map
    [option_field ($"1") (pv_parent_context_id x); skip_field ($"2") (pv_spawn_reason x);
     option_field ($"3") (pv_root_context_id x); skip_field ($"10") (pv_trace_id x);
     skip_field ($"11") (pv_span_id x); skip_field ($"12") (pv_correlation_id x);
     skip_field ($"20") (pv_on_behalf_of x); skip_field ($"21") (pv_on_behalf_of_source x);
     skip_field ($"22") (pv_on_behalf_of_email x); skip_field ($"30") (pv_writer_method x);
     skip_field ($"31") (pv_writer_subject x); skip_field ($"32") (pv_writer_issuer x);
     skip_field ($"40") (pv_service_name x); skip_field ($"41") (pv_service_version x);
     skip_field ($"42") (pv_service_instance_id x); skip_field ($"43") (pv_process_pid x);
     skip_field ($"44") (pv_process_owner x); skip_field ($"45") (pv_host_name x);
     skip_field ($"46") (pv_host_arch x); skip_field ($"50") (pv_client_address x);
     skip_field ($"51") (pv_client_port x); option_field ($"60") (pv_env_vars x);
     skip_field ($"70") (pv_sdk_name x); skip_field ($"71") (pv_sdk_version x);
     skip_field ($"80") (pv_captured_at x)].
Definition provenance_names : list rstr :=
  [$"1"; $"2"; $"3"; $"10"; $"11"; $"12"; $"20"; $"21"; $"22"; $"30"; $"31"; $"32"; $"40"; $"41";
   $"42"; $"43"; $"44"; $"45"; $"46"; $"50"; $"51"; $"60"; $"70"; $"71"; $"80"].
Definition de_provenance (v : Value) : option Provenance :=
  fields ← struct_fields provenance_names v;
  parent_context_id ← optional ($"1") fields; spawn_reason ← required ($"2") fields;
  root_context_id ← optional ($"3") fields; trace_id ← required ($"10") fields;
  span_id ← required ($"11") fields; correlation_id ← required ($"12") fields;
  on_behalf_of ← required ($"20") fields; on_behalf_of_source ← required ($"21") fields;
  on_behalf_of_email ← required ($"22") fields; writer_method ← required ($"30") fields;
  writer_subject ← required ($"31") fields; writer_issuer ← required ($"32") fields;
  service_name ← required ($"40") fields; service_version ← required ($"41") fields;
  service_instance_id ← required ($"42") fields; process_pid ← required ($"43") fields;
  process_owner ← required ($"44") fields; host_name ← required ($"45") fields;
  host_arch ← required ($"46") fields; client_address ← required ($"50") fields;
  client_port ← required ($"51") fields; env_vars ← optional ($"60") fields;
  sdk_name ← required ($"70") fields; sdk_version ← required ($"71") fields;
  captured_at ← required ($"80") fields;
  Some (mkProvenance parent_context_id spawn_reason root_context_id trace_id span_id
          correlation_id on_behalf_of on_behalf_of_source on_behalf_of_email writer_method
          writer_subject writer_issuer service_name service_version service_instance_id
          process_pid process_owner host_name host_arch client_address client_port env_vars
          sdk_name sdk_version captured_at).
#[export] Instance provenance_codec : Codec Provenance := {|
  ser := ser_provenance; de := de_provenance;
  typed x :=
    typed_option (pv_parent_context_id x) ∧ typed (pv_spawn_reason x) ∧
    typed_option (pv_root_context_id x) ∧ typed (pv_trace_id x) ∧ typed (pv_span_id x) ∧
    typed (pv_correlation_id x) ∧ typed (pv_on_behalf_of x) ∧ typed (pv_on_behalf_of_source x) ∧
    typed (pv_on_behalf_of_email x) ∧ typed (pv_writer_method x) ∧ typed (pv_writer_subject x) ∧
    typed (pv_writer_issuer x) ∧ typed (pv_service_name x) ∧ typed (pv_service_version x) ∧
    typed (pv_service_instance_id x) ∧ typed (pv_process_pid x) ∧ typed (pv_process_owner x) ∧
    typed (pv_host_name x) ∧ typed (pv_host_arch x) ∧ typed (pv_client_address x) ∧
    typed (pv_client_port x) ∧ typed_option (pv_env_vars x) ∧ typed (pv_sdk_name x) ∧
    typed (pv_sdk_version x) ∧ typed (pv_captured_at x);
  full x :=
    full_option (pv_parent_context_id x) && full_skip (pv_spawn_reason x) &&
    full_option (pv_root_context_id x) && full_skip (pv_trace_id x) &&
    full_skip (pv_span_id x) && full_skip (pv_correlation_id x) &&
    full_skip (pv_on_behalf_of x) && full_skip (pv_on_behalf_of_source x) &&
    full_skip (pv_on_behalf_of_email x) && full_skip (pv_writer_method x) &&
    full_skip (pv_writer_subject x) && full_skip (pv_writer_issuer x) &&
    full_skip (pv_service_name x) && full_skip (pv_service_version x) &&
    full_skip (pv_service_instance_id x) && full_skip (pv_process_pid x) &&
    full_skip (pv_process_owner x) && full_skip (pv_host_name x) && full_skip (pv_host_arch x) &&
    full_skip (pv_client_address x) && full_skip (pv_client_port x) &&
    full_option (pv_env_vars x) && full_skip (pv_sdk_name x) && full_skip (pv_sdk_version x) &&
    full_skip (pv_captured_at x)
|}.

Definition ser_context_metadata (x : ContextMetadata) : SerdeValue :=
  struct_map
    [skip_field ($"1") (cmd_client_tag x); skip_field ($"2") (cmd_title x);
     skip_field ($"3") (cmd_labels x); skip_field ($"4") (cmd_custom x);
     option_field ($"10") (cmd_provenance x)].
Definition context_metadata_names : list rstr :=
  [$"1"; $"2"; $"3"; $"4"; $"10"].
Definition de_context_metadata (v : Value) : option ContextMetadata :=
  fields ← struct_fields context_metadata_names v;
  client_tag ← required ($"1") fields; title ← required ($"2") fields;
  labels ← required ($"3") fields; custom ← required ($"4") fields;
  provenance ← optional ($"10") fields;
  Some (mkContextMetadata client_tag title labels custom provenance).
#[export] Instance context_metadata_codec : Codec ContextMetadata := {|
  ser := ser_context_metadata; de := de_context_metadata;
  typed x :=
    typed (cmd_client_tag x) ∧ typed (cmd_title x) ∧ typed (cmd_labels x) ∧
    typed (cmd_custom x) ∧ typed_option (cmd_provenance x);
  full x :=
    full_skip (cmd_client_tag x) && full_skip (cmd_title x) && full_skip (cmd_labels x) &&
    full_skip (cmd_custom x) && full_option (cmd_provenance x)
|}.

Definition ser_conversation_item (x : ConversationItem) : SerdeValue :=
  struct_map
    [field ($"1") (ci_item_type x); skip_field ($"2") (ci_status x);
     skip_field ($"3") (ci_timestamp x); skip_field ($"4") (ci_id x);
     option_field ($"10") (ci_user_input x); option_field ($"11") (ci_turn x);
     option_field ($"12") (ci_system x); option_field ($"13") (ci_handoff x);
     option_field ($"20") (ci_assistant x); option_field ($"21") (ci_tool_call x);
     option_field ($"22") (ci_tool_result x); option_field ($"30") (ci_context_metadata x)].
Definition conversation_item_names : list rstr :=
  [$"1"; $"2"; $"3"; $"4"; $"10"; $"11"; $"12"; $"13"; $"20"; $"21"; $"22"; $"30"].
Definition de_conversation_item (v : Value) : option ConversationItem :=
  fields ← struct_fields conversation_item_names v;
  item_type ← required ($"1") fields; status ← required ($"2") fields;
  timestamp ← required ($"3") fields; id ← required ($"4") fields;
  user_input ← optional ($"10") fields; turn ← optional ($"11") fields;
  system ← optional ($"12") fields; handoff ← optional ($"13") fields;
  assistant ← optional ($"20") fields; tool_call ← optional ($"21") fields;
  tool_result ← optional ($"22") fields; context_metadata ← optional ($"30") fields;
  Some (mkConversationItem item_type status timestamp id user_input turn system handoff
          assistant tool_call tool_result context_metadata).
#[export] Instance conversation_item_codec : Codec ConversationItem := {|
  ser := ser_conversation_item; de := de_conversation_item;
  typed x :=
    typed (ci_item_type x) ∧ typed (ci_status x) ∧ typed (ci_timestamp x) ∧ typed (ci_id x) ∧
    typed_option (ci_user_input x) ∧ typed_option (ci_turn x) ∧ typed_option (ci_system x) ∧
    typed_option (ci_handoff x) ∧ typed_option (ci_assistant x) ∧ typed_option (ci_tool_call x) ∧
    typed_option (ci_tool_result x) ∧ typed_option (ci_context_metadata x);
  full x :=
    full_skip (ci_status x) && full_skip (ci_timestamp x) && full_skip (ci_id x) &&
    full_option (ci_user_input x) && full_option (ci_turn x) && full_option (ci_system x) &&
    full_option (ci_handoff x) && full_option (ci_assistant x) && full_option (ci_tool_call x) &&
    full_option (ci_tool_result x) && full_option (ci_context_metadata x)
|}.
(** The value of the field with a name, if it is written. *)
Fixpoint find_field (name : rstr) (fields : list (rstr * option SerdeValue)) : option SerdeValue :=
  match fields with
  | [] => None
  | (k, o) :: fields => if bool_decide (k = name) then o else find_field name fields
  end.

Lemma find_here x fields : find_field x.1 (x :: fields) = x.2.
Proof. destruct x as [k o]. cbn. by rewrite bool_decide_true. Qed.
Lemma find_next x fields name : bool_decide (x.1 = name) = false →
  find_field name (x :: fields) = find_field name fields.
Proof. destruct x as [k o]. cbn. by intros ->. Qed.

Ltac find_it :=
  repeat (rewrite find_next by (vm_compute; reflexivity));
  lazymatch goal with |- find_field _ (?x :: ?fs) = _ => exact (find_here x fs) end.

(** ** Reading what was written *)

Section laws.
Context `{RmpEncode}.

(** What reading makes of a written value: it back, or nothing if a field of it was skipped. *)
Class CodecLaws (A : Type) `{Codec A} : Prop :=
  codec_reads : ∀ a : A, typed a → to_rmpv (ser a) ≠ VNil
    ∧ de (to_rmpv (ser a)) = if full a then Some a else None.

#[export] Instance string_laws : CodecLaws rstr.
Proof. intros s Hs. split; [done|]. cbn. by apply from_utf8_valid. Qed.
#[export] Instance i64_laws : CodecLaws Z.
Proof.
  intros z [Hl Hu]. split; [done|]. cbn. unfold int_as_i64. cbn in *.
  by rewrite (proj2 (Z.leb_le _ _)), (proj2 (Z.ltb_lt _ _)) by lia.
Qed.
#[export] Instance u64_laws : CodecLaws N.
Proof.
  intros n Hn. cbn in Hn. split; [done|]. cbn. unfold int_as_u64.
  rewrite (proj2 (Z.leb_le _ _)), (proj2 (Z.ltb_lt _ _)) by lia. cbn. by rewrite N2Z.id.
Qed.
#[export] Instance bool_laws : CodecLaws bool.
Proof. by intros b _. Qed.

Lemma mapM_written {A} `{CodecLaws A} (l : list A) : Forall typed l →
  mapM de (map to_rmpv (map ser l)) = if forallb full l then Some l else None.
Proof.
  induction 1 as [|a l Ha Hl IH]; [done|]. cbn [map mapM forallb]. rewrite (proj2 (codec_reads a Ha)), IH.
  destruct (full a); [|done]. by destruct (forallb full l).
Qed.
#[export] Instance vec_laws {A} `{CodecLaws A} : CodecLaws (list A).
Proof. intros l Hl. split; [done|]. by apply mapM_written. Qed.

(** The entries of a map come in some order. *)
Lemma text_map_meaning entries : ∃ l,
  to_rmpv (text_map entries) = VMap (map (λ '(k, v), (VString k, to_rmpv v)) l) ∧ l ≡ₚ entries.
Proof.
  unfold text_map. rewrite to_rmpv_map.
  set (f := λ '(name, v), (SString name, v) : SerdeValue * SerdeValue).
  assert (Hp : sorted_entries (map f (sort_by (λ a b, str_le a.1 b.1) entries)) ≡ₚ map f entries)
    by (unfold sorted_entries; by rewrite !sort_by_perm).
  apply Permutation_map_inv in Hp as (l & -> & Hl). exists l. split; [|done].
  f_equal. rewrite map_map. by apply map_ext; intros [].
Qed.

Lemma foldl_insert_list_to_map {A} (l : list (rstr * A)) (m : gmap rstr A) : NoDup l.*1 →
  foldl (λ m '(k, v), <[k := v]> m) m l = list_to_map l ∪ m.
Proof.
  revert m. induction l as [|[k v] l IH]; intros m; cbn; [by rewrite (left_id_L ∅ (∪))|].
  intros [Hk Hd]%NoDup_cons. rewrite IH by done.
  cbn. by rewrite <- insert_union_r, insert_union_l by by apply not_elem_of_list_to_map_1.
Qed.

Lemma mapM_each {A B} (f : B → option A) (g : A → B) l :
  (∀ a, a ∈ l → f (g a) = Some a) → mapM f (map g l) = Some l.
Proof.
  induction l as [|a l IH]; intros Hl; [done|]. cbn [map mapM]. rewrite Hl by by left.
  cbn [mbind option_bind]. rewrite IH; [done|]. intros b Hb. apply Hl. by right.
Qed.

#[export] Instance string_map_laws : CodecLaws (gmap rstr rstr).
Proof.
  intros m Hm.
  destruct (text_map_meaning (map (λ '(k, v), (k, SString v)) (map_to_list m))) as (l & Hl & Hp).
  cbn [ser de full string_map_codec]. rewrite Hl. split; [done|]. cbn [de_string_map].
  apply Permutation_map_inv in Hp as (l' & -> & Hp). rewrite map_map.
  rewrite (mapM_each _ _ l').
  2:{ intros [k v] Hkv. destruct (Hm k v) as [Hk Hv]; [apply elem_of_map_to_list; by rewrite Hp|].
      cbn in Hk, Hv. unfold de_entry. cbn. unfold utf8_as_str.
      by rewrite !from_utf8_valid. }
  cbn [mbind option_bind]. f_equal.
  rewrite foldl_insert_list_to_map, (right_id_L ∅ (∪)) by (rewrite <- Hp; apply NoDup_fst_map_to_list).
  rewrite <- (list_to_map_proper (map_to_list m) l'), list_to_map_to_list;
    [done|apply NoDup_fst_map_to_list|done].
Qed.

(** ** Structs *)

Lemma elem_of_present k v fields : (k, v) ∈ present fields ↔ (k, Some v) ∈ fields.
Proof.
  unfold present. rewrite list_elem_of_omap. split.
  - intros ([k' [w|]] & Hin & Hf); [|done]. cbn in Hf. by simplify_eq.
  - intros Hin. by exists (k, Some v).
Qed.

Lemma present_nodup fields : NoDup fields.*1 → NoDup (present fields).*1.
Proof.
  induction fields as [|[k o] fields IH]; [done|]. cbn. intros [Hk Hd]%NoDup_cons.
  destruct o as [v|]; cbn; [|by apply IH]. apply NoDup_cons. split; [|by apply IH].
  intros ([k' v'] & -> & Hin)%list_elem_of_fmap. apply Hk, list_elem_of_fmap.
  exists (k', Some v'). by rewrite <- elem_of_present.
Qed.

Lemma find_present name fields : NoDup fields.*1 →
  (list_to_map (present fields) : gmap rstr SerdeValue) !! name = find_field name fields.
Proof.
  induction fields as [|[k o] fields IH]; [done|]. cbn [fmap list_fmap find_field].
  intros [Hk Hd]%NoDup_cons. destruct o as [v|].
  - cbn. case_bool_decide as Hn; [subst; by rewrite lookup_insert_eq|].
    rewrite lookup_insert_ne by done. by apply IH.
  - change (present ((k, None) :: fields)) with (present fields). rewrite IH by done.
    case_bool_decide as Hn; [subst|done]. rewrite <- IH by done.
    apply not_elem_of_list_to_map_1. intros ([k' v'] & -> & Hin)%list_elem_of_fmap.
    apply Hk, list_elem_of_fmap. exists (k', Some v'). by rewrite <- elem_of_present.
Qed.

Lemma visit_map_written names (l : list (rstr * Value)) fields :
  NoDup l.*1 → (∀ k v, (k, v) ∈ l → k ∈ names) → (∀ k, k ∈ l.*1 → fields !! k = None) →
  visit_map names (map (λ '(k, v), (VString k, v)) l) fields = Some (list_to_map l ∪ fields).
Proof.
  revert fields. induction l as [|[k v] l IH]; intros fields; cbn [map visit_map fmap list_fmap].
  { intros. cbn. by rewrite (left_id_L ∅ (∪)). }
  intros [Hk Hd]%NoDup_cons Hn Hf. cbn [field_of mbind option_bind].
  rewrite bool_decide_true by (apply (Hn k v); by left). cbn [mbind option_bind].
  rewrite Hf by by left. rewrite IH; [|done| |].
  - f_equal. cbn. by rewrite <- insert_union_r, insert_union_l by by apply not_elem_of_list_to_map_1.
  - intros k' v' Hin. apply (Hn k' v'). by right.
  - intros k' Hin. rewrite lookup_insert_ne by (by intros ->). apply Hf. by right.
Qed.

Definition written (fields : list (rstr * option SerdeValue)) : gmap rstr Value :=
  to_rmpv <$> list_to_map (present fields).

(** Reading a written struct gives the values of its fields. *)
Lemma struct_fields_written fields : NoDup fields.*1 →
  struct_fields fields.*1 (to_rmpv (struct_map fields)) = Some (written fields).
Proof.
  intros Hd. destruct (text_map_meaning (present fields)) as (l & Hl & Hp).
  unfold struct_map, written. rewrite Hl. cbn [struct_fields].
  replace (map (λ '(k, v), (VString k, to_rmpv v)) l)
    with (map (λ '(k, v), (VString k, v)) (prod_map id to_rmpv <$> l))
    by (rewrite <- list_fmap_compose; by apply map_ext; intros []).
  assert (Hfst : (prod_map id to_rmpv <$> l).*1 = l.*1)
    by (rewrite <- list_fmap_compose; by apply list_fmap_ext; intros ? []).
  pose proof (present_nodup _ Hd) as Hpd. rewrite visit_map_written.
  - f_equal. rewrite (right_id_L ∅ (∪)), list_to_map_fmap. f_equal.
    apply list_to_map_proper; [by rewrite Hp|done].
  - rewrite Hfst. by rewrite Hp.
  - intros k v ([k' v'] & ? & Hin)%list_elem_of_fmap. simplify_eq/=. rewrite Hp in Hin.
    apply elem_of_present in Hin. apply list_elem_of_fmap. by exists (k', Some v').
  - intros k _. apply lookup_empty.
Qed.

Lemma lookup_written name fields : NoDup fields.*1 →
  written fields !! name = to_rmpv <$> find_field name fields.
Proof. intros. unfold written. by rewrite lookup_fmap, find_present. Qed.

Section field.
Context {A : Type} `{HA : Codec A, HL : !CodecLaws A} (fields : list (rstr * option SerdeValue)).
Context (Hd : NoDup fields.*1) (m : gmap rstr Value) (Hm : m = written fields).

Lemma required_written name a : find_field name fields = Some (ser a) → typed a →
  required name m = if full a then Some a else None.
Proof using Hd HL Hm. intros Hf Ha. unfold required. rewrite Hm, lookup_written, Hf by done. by apply codec_reads. Qed.

Lemma skip_written `{!Skip A} name a :
  find_field name fields = (if skipped a then None else Some (ser a)) → typed a →
  required name m = if full_skip a then Some a else None.
Proof using Hd HL Hm.
  intros Hf Ha. unfold required, full_skip. rewrite Hm, lookup_written, Hf by done.
  destruct (skipped a); [done|]. by apply codec_reads.
Qed.

Lemma option_written name o : find_field name fields = Some (SOption (ser <$> o)) → typed_option o →
  optional name m = if full_option o then Some o else None.
Proof using Hd HL Hm.
  intros Hf Ho. unfold optional. rewrite Hm, lookup_written, Hf by done. cbn.
  destruct o as [a|]; [|done]. cbn. destruct (codec_reads a (Ho a eq_refl)) as [Hn Hr].
  unfold de_option. rewrite Hr. destruct (to_rmpv (ser a)); try done; by destruct (full a).
Qed.
End field.

(** Rewritten, since comparing two chains of binds takes exponential time. *)
Lemma bind_some {A B} (a : A) (k : A → option B) : Some a ≫= k = k a.
Proof. done. Qed.
Lemma bind_if {A B} (b : bool) (a : A) (k : A → option B) :
  (if b then Some a else None) ≫= k = if b then k a else None.
Proof. by destruct b. Qed.
Lemma if_andb {A} (b c : bool) (x y : A) :
  (if b && c then x else y) = if b then (if c then x else y) else y.
Proof. by destruct b, c. Qed.
Lemma struct_not_nil fields : to_rmpv (struct_map fields) ≠ VNil.
Proof. destruct (text_map_meaning (present fields)) as (l & Hl & _). unfold struct_map. by rewrite Hl. Qed.

(** A struct is read back field by field. *)
Ltac read_field m fs Hd Hm :=
  let H := fresh in
  lazymatch goal with
  | |- context [required ?n m] =>
      lazymatch fs with
      | context [field n ?a] =>
          pose proof (required_written fs Hd m Hm n a ltac:(find_it) ltac:(eassumption)) as H
      | context [skip_field n ?a] =>
          pose proof (skip_written fs Hd m Hm n a ltac:(find_it) ltac:(eassumption)) as H
      end
  | |- context [optional ?n m] =>
      lazymatch fs with
      | context [option_field n ?o] =>
          pose proof (option_written fs Hd m Hm n o ltac:(find_it) ltac:(eassumption)) as H
      end
  end;
  rewrite H; clear H.

Ltac read_fields :=
  lazymatch goal with
  | |- context [struct_fields ?names (to_rmpv (struct_map ?fs))] =>
      let Hn := fresh in let Hd := fresh in let m := fresh "m" in let Hm := fresh in
      assert (Hn : names = fs.*1)
        by (unfold names; cbn [fmap list_fmap field skip_field option_field fst]; reflexivity);
      assert (Hd : NoDup fs.*1)
        by (rewrite <- Hn; apply (bool_decide_eq_true_1 (NoDup names)); vm_compute; reflexivity);
      rewrite Hn, (struct_fields_written fs Hd); clear Hn;
      remember (written fs) as m eqn:Hm; rewrite bind_some;
      repeat read_field m fs Hd Hm
  end;
  rewrite ?bind_if; cbv beta; rewrite ?if_andb; cbn [full string_codec i64_codec bool_codec].

Ltac struct_laws :=
  let x := fresh "x" in let Hx := fresh in
  intros x Hx; split; [apply struct_not_nil|];
  lazymatch goal with
  | |- @de _ ?codec _ = _ =>
      unfold codec in Hx |- *; cbn [de ser typed full] in Hx |- *; destruct_and! Hx
  end;
  lazymatch goal with |- ?de_x (to_rmpv (?ser_x x)) = _ => unfold de_x, ser_x end;
  read_fields; destruct x; reflexivity.

#[export] Instance user_input_laws : CodecLaws UserInput.
Proof. struct_laws. Qed.
#[export] Instance tool_call_result_laws : CodecLaws ToolCallResult.
Proof. struct_laws. Qed.
#[export] Instance tool_call_error_laws : CodecLaws ToolCallError.
Proof. struct_laws. Qed.
#[export] Instance tool_call_item_laws : CodecLaws ToolCallItem.
Proof. struct_laws. Qed.
#[export] Instance turn_metrics_laws : CodecLaws TurnMetrics.
Proof. struct_laws. Qed.
#[export] Instance assistant_turn_laws : CodecLaws AssistantTurn.
Proof. struct_laws. Qed.
#[export] Instance system_message_laws : CodecLaws SystemMessage.
Proof. struct_laws. Qed.
#[export] Instance handoff_info_laws : CodecLaws HandoffInfo.
Proof. struct_laws. Qed.
#[export] Instance assistant_laws : CodecLaws Assistant.
Proof. struct_laws. Qed.
#[export] Instance tool_call_laws : CodecLaws ToolCall.
Proof. struct_laws. Qed.
#[export] Instance tool_result_laws : CodecLaws ToolResult.
Proof. struct_laws. Qed.
#[export] Instance provenance_laws : CodecLaws Provenance.
Proof. struct_laws. Qed.
#[export] Instance context_metadata_laws : CodecLaws ContextMetadata.
Proof. struct_laws. Qed.
#[export] Instance conversation_item_laws : CodecLaws ConversationItem.
Proof. struct_laws. Qed.

(** ** The keys of what is written are strings *)

Fixpoint text_keys (v : SerdeValue) : Prop :=
  match v with
  | SOption (Some v) | SNewtype v => text_keys v
  | SSeq l => foldr (λ v P, text_keys v ∧ P) True l
  | SMap m =>
      foldr (λ kv P, (match kv.1 with SString _ => True | _ => False end) ∧ text_keys kv.2 ∧ P) True m
  | _ => True
  end.

(** Such keys are not changed before reading. *)
Lemma normalize_text v : text_keys v → normalize_map_keys_to_string (to_rmpv v) = to_rmpv v.
Proof.
  revert v. refine (SerdeValue_nested _ _ _ _ _ _); [intros v|done|done|intros l IH|intros m IH].
  - by destruct v as [| | | | | | | | | | | | | |[v|]| | | |].
  - intros Hl. cbn [to_rmpv normalize_map_keys_to_string]. f_equal.
    induction IH as [|v l Hv IH IHl]; [done|]. destruct Hl as [Htv Hl]. cbn. f_equal; auto.
  - intros Hm. rewrite to_rmpv_map. cbn [normalize_map_keys_to_string]. f_equal. rewrite map_map.
    assert (Hs : Forall (λ kv, (match kv.1 with SString _ => True | _ => False end)
      ∧ normalize_map_keys_to_string (to_rmpv kv.2) = to_rmpv kv.2) (sorted_entries m)).
    { unfold sorted_entries. rewrite sort_by_perm.
      induction IH as [|kv m [_ Hv] IH IHm]; [done|]. destruct Hm as (Hk & Htv & Hm).
      constructor; [by split; [|apply Hv]|]. by apply IHm. }
    induction Hs as [|[k v] l [Hk Hv] Hs IHs]; [done|]. cbn. f_equal; [|exact IHs].
    cbn in Hk, Hv. rewrite Hv. by destruct k.
Qed.

Class TextKeys (A : Type) `{Codec A} : Prop := text_keyed : ∀ a : A, text_keys (ser a).
#[export] Instance string_text : TextKeys rstr. Proof. done. Qed.
#[export] Instance i64_text : TextKeys Z. Proof. done. Qed.
#[export] Instance u64_text : TextKeys N. Proof. done. Qed.
#[export] Instance bool_text : TextKeys bool. Proof. done. Qed.
#[export] Instance vec_text {A} `{TextKeys A} : TextKeys (list A).
Proof. intros l. induction l as [|a l IH]; [done|]. split; [apply text_keyed|exact IH]. Qed.

Lemma text_map_keys entries : Forall (λ e, text_keys e.2) entries → text_keys (text_map entries).
Proof.
  intros He. unfold text_map.
  assert (Hs : Forall (λ e, text_keys e.2) (sort_by (λ a b, str_le a.1 b.1) entries))
    by by rewrite sort_by_perm.
  by induction Hs as [|[k v] l Hv Hs IH].
Qed.
#[export] Instance string_map_text : TextKeys (gmap rstr rstr).
Proof. intros m. apply text_map_keys. induction (map_to_list m) as [|[k v] l IH]; by constructor. Qed.

Definition text_field (f : rstr * option SerdeValue) : Prop := ∀ v, f.2 = Some v → text_keys v.
Lemma field_text {A} `{TextKeys A} name (a : A) : text_field (field name a).
Proof. intros v [= <-]. apply text_keyed. Qed.
Lemma skip_field_text {A} `{TextKeys A, !Skip A} name (a : A) : text_field (skip_field name a).
Proof. intros v. cbn. destruct (skipped a); [done|]. intros [= <-]. apply text_keyed. Qed.
Lemma option_field_text {A} `{TextKeys A} name (o : option A) : text_field (option_field name o).
Proof. intros v [= <-]. destruct o; [apply text_keyed|done]. Qed.

Lemma struct_text fields : Forall text_field fields → text_keys (struct_map fields).
Proof.
  intros Hf. apply text_map_keys, Forall_forall. intros [k v] Hin%elem_of_present.
  rewrite Forall_forall in Hf. by apply (Hf _ Hin).
Qed.
Ltac struct_keys :=
  intros ?; apply struct_text;
  repeat first [apply Forall_nil_2 | apply Forall_cons_2];
  first [apply field_text | apply skip_field_text | apply option_field_text].

#[export] Instance user_input_text : TextKeys UserInput. Proof. struct_keys. Qed.
#[export] Instance tool_call_result_text : TextKeys ToolCallResult. Proof. struct_keys. Qed.
#[export] Instance tool_call_error_text : TextKeys ToolCallError. Proof. struct_keys. Qed.
#[export] Instance tool_call_item_text : TextKeys ToolCallItem. Proof. struct_keys. Qed.
#[export] Instance turn_metrics_text : TextKeys TurnMetrics. Proof. struct_keys. Qed.
#[export] Instance assistant_turn_text : TextKeys AssistantTurn. Proof. struct_keys. Qed.
#[export] Instance system_message_text : TextKeys SystemMessage. Proof. struct_keys. Qed.
#[export] Instance handoff_info_text : TextKeys HandoffInfo. Proof. struct_keys. Qed.
#[export] Instance assistant_text : TextKeys Assistant. Proof. struct_keys. Qed.
#[export] Instance tool_call_text : TextKeys ToolCall. Proof. struct_keys. Qed.
#[export] Instance tool_result_text : TextKeys ToolResult. Proof. struct_keys. Qed.
#[export] Instance provenance_text : TextKeys Provenance. Proof. struct_keys. Qed.
#[export] Instance context_metadata_text : TextKeys ContextMetadata. Proof. struct_keys. Qed.
#[export] Instance conversation_item_text : TextKeys ConversationItem. Proof. struct_keys. Qed.
End laws.

(** ** Encoding and decoding *)

(** [encode_msgpack], which does not fail for these types. *)
Definition encode_msgpack {A} `{Codec A, RmpEncode} (value : A) : bytes :=
  write_serde_value (ser value).

(** [rmpv::ext::from_value]; the text of an error belongs to the library. *)
Definition from_value {A} `{Codec A} (message : Value → rstr) (v : Value) : result rstr A :=
  ok_or (message v) (de v).

(** [rmp_serde::from_slice] gives only what derive reads. *)
Definition slice_sound {A} `{Codec A, Msgpack} (from_slice : bytes → option A) : Prop :=
  ∀ bs v a, msgpack_read bs = Ok v → from_slice bs = Some a → de v = Some a.

Lemma decode_encoded {A} `{HC : Codec A, RmpLaws, !CodecLaws A, !TextKeys A} from_slice message (a : A) :
  slice_sound from_slice → typed a → serde_wf (ser a) →
  decode_msgpack_into from_slice (from_value message) (encode_msgpack a)
  = if full a then Ok a else Err (decode_error (message (to_rmpv (ser a)))).
Proof.
  intros Hs Ha Hw. unfold decode_msgpack_into, encode_msgpack.
  pose proof (encode_reads _ Hw) as Hr. destruct (codec_reads a Ha) as [_ Hd].
  destruct (from_slice _) as [b|] eqn:Hf.
  { specialize (Hs _ _ _ Hr Hf). rewrite Hd in Hs. destruct (full a); by simplify_eq. }
  rewrite Hr. cbn [map_err mbind result_bind]. rewrite normalize_text by apply text_keyed.
  unfold from_value. rewrite Hd. by destruct (full a).
Qed.

(** C21. An item that was encoded is decoded to itself if no field of it was skipped, and refused
    otherwise. *)
Theorem item_decodes_when_full `{RmpLaws} from_slice message (item : ConversationItem) :
  slice_sound from_slice → typed item → serde_wf (ser item) →
  decode_msgpack_into from_slice (from_value message) (encode_msgpack item)
  = if full item then Ok item else Err (decode_error (message (to_rmpv (ser item)))).
Proof. apply decode_encoded. Qed.

(** ** What the server takes from an item *)

(** What [extract_context_metadata] makes of the records: what is empty is absent, and [custom] is
    not read. *)
Definition unless_skipped {A} `{Skip A} (a : A) : option A := if skipped a then None else Some a.
Definition server_provenance (p : Provenance) : Metadata.Provenance :=
  Metadata.mkProvenance
    (pv_parent_context_id p) (unless_skipped (pv_spawn_reason p)) (pv_root_context_id p)
    (unless_skipped (pv_trace_id p)) (unless_skipped (pv_span_id p))
    (unless_skipped (pv_correlation_id p))
    (unless_skipped (pv_on_behalf_of p)) (unless_skipped (pv_on_behalf_of_source p))
    (unless_skipped (pv_on_behalf_of_email p))
    (unless_skipped (pv_writer_method p)) (unless_skipped (pv_writer_subject p))
    (unless_skipped (pv_writer_issuer p))
    (unless_skipped (pv_service_name p)) (unless_skipped (pv_service_version p))
    (unless_skipped (pv_service_instance_id p)) (unless_skipped (pv_process_pid p))
    (unless_skipped (pv_process_owner p)) (unless_skipped (pv_host_name p))
    (unless_skipped (pv_host_arch p))
    (unless_skipped (pv_client_address p)) (unless_skipped (pv_client_port p))
    (pv_env_vars p ≫= unless_skipped)
    (unless_skipped (pv_sdk_name p)) (unless_skipped (pv_sdk_version p))
    (unless_skipped (pv_captured_at p)).
Definition server_metadata (m : ContextMetadata) : Metadata.ContextMetadata :=
  Metadata.mkContextMetadata (unless_skipped (cmd_client_tag m)) (unless_skipped (cmd_title m))
    (unless_skipped (cmd_labels m)) (server_provenance <$> cmd_provenance m).

(** A fold in which one element matters. *)
Lemma foldl_untouched {S E B} (step : S → E → S) (π : S → B) l s :
  (∀ s e, e ∈ l → π (step s e) = π s) → π (foldl step s l) = π s.
Proof.
  revert s. induction l as [|e l IH]; intros s Hl; [done|]. cbn. rewrite IH by (intros; apply Hl; by right).
  apply Hl. by left.
Qed.

(** The names of the fields and the tags that they are read as. *)
Definition has_tag (tag : N) (name : rstr) (fields : list (rstr * option SerdeValue)) : Prop :=
  Forall (λ k, key_to_tag (VString k) = Some tag ↔ k = name) fields.*1.

Lemma has_tag_check tag name fields :
  forallb (λ k, bool_decide (key_to_tag (VString k) = Some tag ↔ k = name)) fields.*1 = true →
  has_tag tag name fields.
Proof.
  intros Hf. unfold has_tag. rewrite Forall_forall. intros k Hk. rewrite forallb_forall in Hf.
  by apply (bool_decide_eq_true_1 _), Hf, list_elem_of_In.
Qed.
Ltac check_tag :=
  apply has_tag_check; cbn [fmap list_fmap field skip_field option_field fst]; vm_compute; reflexivity.

(** Names of a struct that are distinct, and the entries of the map that it is written as. *)
Ltac written_entries names fs l Hd Hl Hperm :=
  assert (Hd : NoDup fs.*1) by
    (let Hn := fresh in
     assert (Hn : names = fs.*1) by
       (unfold names; cbn [fmap list_fmap field skip_field option_field fst]; reflexivity);
     rewrite <- Hn; apply (bool_decide_eq_true_1 (NoDup names)); vm_compute; reflexivity);
  destruct (text_map_meaning (present fs)) as (l & Hl & Hperm).

Ltac find_in fs :=
  lazymatch goal with |- context [find_field ?name fs] =>
    let H := fresh in
    eassert (H : find_field name fs = _) by (unfold fs; find_it);
    rewrite H; clear H; cbn [skip_field option_field snd]
  end.

Section server.
Context `{RmpEncode}.

Lemma fold_field {S B} (step : S → Value * Value → S) (π : S → B) (g : Value → B → B) tag name fields l s :
  (∀ s k v, π (step s (k, v)) = if bool_decide (key_to_tag k = Some tag) then g v (π s) else π s) →
  has_tag tag name fields → NoDup fields.*1 → l ≡ₚ present fields →
  π (foldl step s (map (λ '(k, v), (VString k, to_rmpv v)) l))
  = match find_field name fields with Some v => g (to_rmpv v) (π s) | None => π s end.
Proof.
  intros Hstep Htag Hd Hl.
  assert (Hname : ∀ k v, (k, v) ∈ l → bool_decide (key_to_tag (VString k) = Some tag)
    = bool_decide (k = name)).
  { intros k v Hin. rewrite Hl in Hin. apply elem_of_present in Hin. apply bool_decide_ext.
    unfold has_tag in Htag. rewrite Forall_forall in Htag. apply Htag, list_elem_of_fmap.
    by exists (k, Some v). }
  assert (Hld : NoDup l.*1) by (rewrite Hl; by apply present_nodup).
  assert (Hskip : ∀ l' s, (∀ k v, (k, v) ∈ l' → (k, v) ∈ l ∧ k ≠ name) →
    π (foldl step s (map (λ '(k, v), (VString k, to_rmpv v)) l')) = π s).
  { intros l' s' Hl'. apply foldl_untouched. intros s'' e ([k v] & -> & Hin)%list_elem_of_fmap.
    destruct (Hl' k v Hin) as [Hin' Hk]. by rewrite Hstep, (Hname k v Hin'), bool_decide_false. }
  rewrite <- (find_present name fields Hd), <- (list_to_map_proper l (present fields)) by done.
  destruct (list_to_map l !! name) as [v|] eqn:Hf.
  - apply elem_of_list_to_map_2, list_elem_of_split in Hf as (l1 & l2 & ->).
    rewrite map_app, foldl_app. cbn [map foldl]. rewrite fmap_app in Hld. cbn in Hld.
    apply NoDup_app in Hld as (_ & Hl1 & [Hl2 _]%NoDup_cons).
    rewrite Hskip.
    + rewrite Hstep, (Hname name v), bool_decide_true by (done || set_solver). f_equal.
      apply Hskip. intros k w Hin. split; [set_solver|]. intros ->. apply (Hl1 name); [|by left].
      apply list_elem_of_fmap. by exists (name, w).
    + intros k w Hin. split; [set_solver|]. intros ->. apply Hl2, list_elem_of_fmap. by exists (name, w).
  - apply Hskip. intros k w Hin. split; [done|]. intros ->. apply not_elem_of_list_to_map_2 in Hf.
    apply Hf, list_elem_of_fmap. by exists (name, w).
Qed.

Lemma last_field_written {A} tag name (extract : Value → option A) fields l :
  has_tag tag name fields → NoDup fields.*1 → l ≡ₚ present fields →
  last_field tag extract (map (λ '(k, v), (VString k, to_rmpv v)) l)
  = v ← find_field name fields; extract (to_rmpv v).
Proof.
  intros Ht Hd Hl. unfold last_field.
  etransitivity; [by apply (fold_field _ id (λ v _, extract v) tag name fields)|].
  by destruct (find_field _ _).
Qed.

(** What the server reads of each kind of field. *)
Lemma unless_string (name : rstr) (s : rstr) fields :
  find_field name fields = (if skipped s then None else Some (ser s)) → typed s →
  (v ← find_field name fields; extract_string (to_rmpv v)) = unless_skipped s.
Proof.
  intros -> Hs. unfold unless_skipped. destruct (skipped s); [done|]. cbn. by apply from_utf8_valid.
Qed.
Lemma unless_i64 (name : rstr) (z : Z) fields :
  find_field name fields = (if skipped z then None else Some (ser z)) → typed z →
  (v ← find_field name fields; extract_i64 (to_rmpv v)) = unless_skipped z.
Proof.
  intros -> Hs. unfold unless_skipped. destruct (skipped z); [done|]. by apply (codec_reads z Hs).
Qed.
Lemma option_u64 (name : rstr) (o : option N) fields :
  find_field name fields = Some (SOption (ser <$> o)) → typed_option o →
  (v ← find_field name fields; extract_u64 (to_rmpv v)) = o.
Proof.
  intros -> Ho. destruct o as [n|]; [|done]. by apply (codec_reads n (Ho n eq_refl)).
Qed.

Lemma extract_string_map_written (m : gmap rstr rstr) : typed m →
  extract_string_map (to_rmpv (ser m)) = unless_skipped m.
Proof.
  intros Hm. destruct (text_map_meaning (map (λ '(k, v), (k, SString v)) (map_to_list m))) as (l & Hl & Hp).
  cbn [ser string_map_codec]. rewrite Hl. apply Permutation_map_inv in Hp as (l' & -> & Hp).
  cbn [extract_string_map]. rewrite map_map.
  assert (Hread : omap (λ '(k, v), key ← extract_string k; val ← extract_string v; Some (key, val))
    (map (λ x, (λ '(k, v), (VString k, to_rmpv v)) ((λ '(k, v), (k, SString v)) x)) l') = l').
  { assert (Hall : ∀ k v, (k, v) ∈ l' → typed k ∧ typed v).
    { intros k v Hkv. apply Hm, elem_of_map_to_list. by rewrite Hp. }
    clear Hp Hl. induction l' as [|[k v] l' IH]; [done|].
    destruct (Hall k v) as [Hk Hv]; [by left|]. cbn in Hk, Hv |- *. unfold utf8_as_str.
    rewrite !from_utf8_valid by done. cbn. f_equal. apply IH. intros k' v' Hkv. apply Hall. by right. }
  rewrite Hread, foldl_insert_list_to_map, (right_id_L ∅ (∪))
    by (rewrite <- Hp; apply NoDup_fst_map_to_list).
  rewrite <- (list_to_map_proper (map_to_list m) l'), list_to_map_to_list;
    [|apply NoDup_fst_map_to_list|done].
  unfold unless_skipped, skipped, map_is_empty. by case_bool_decide.
Qed.

Lemma option_env (name : rstr) (o : option (gmap rstr rstr)) fields :
  find_field name fields = Some (SOption (ser <$> o)) → typed_option o →
  (v ← find_field name fields; extract_string_map (to_rmpv v)) = o ≫= unless_skipped.
Proof.
  intros -> Ho. destruct o as [m|]; [|done]. by apply extract_string_map_written, (Ho m).
Qed.

Ltac server_field fs Hd Hl :=
  lazymatch goal with
  | |- last_field ?tag ?extract _ = unless_skipped ?a =>
      lazymatch fs with
      | context [skip_field ?name a] =>
          etransitivity;
            [apply (last_field_written tag name extract fs _ ltac:(check_tag) Hd Hl)
            |first [apply unless_string | apply unless_i64]; [find_it|assumption]]
      end
  | |- last_field ?tag ?extract _ = ?o =>
      lazymatch o with
      | pv_env_vars _ ≫= _ =>
          etransitivity;
            [apply (last_field_written tag ($"60") extract fs _ ltac:(check_tag) Hd Hl)
            |apply option_env; [find_it|assumption]]
      | _ =>
          lazymatch fs with
          | context [option_field ?name o] =>
              etransitivity;
                [apply (last_field_written tag name extract fs _ ltac:(check_tag) Hd Hl)
                |apply option_u64; [find_it|assumption]]
          end
      end
  end.

Lemma extract_provenance_written (p : Provenance) : typed p → ∃ m,
  to_rmpv (ser p) = VMap m ∧ extract_provenance m = server_provenance p.
Proof.
  intros Hp. unfold provenance_codec in Hp |- *. cbn [ser typed] in Hp |- *. destruct_and! Hp.
  unfold ser_provenance. lazymatch goal with |- context [struct_map ?fs] =>
    written_entries provenance_names fs l Hd Hl Hperm;
    eexists; split; [exact Hl|]; unfold extract_provenance, server_provenance;
    f_equal; server_field fs Hd Hperm end.
Qed.

Definition empty_metadata : Metadata.ContextMetadata :=
  Metadata.mkContextMetadata None None None None.

(** What an entry changes of the metadata. *)
Ltac metadata_step :=
  unfold metadata_field; destruct (key_to_tag _) as [n|]; [|done];
  repeat case_match; try case_bool_decide; simplify_eq/=; try done;
  repeat match goal with H : (_ =? _) = true |- _ => apply N.eqb_eq in H
                    | H : (_ =? _) = false |- _ => apply N.eqb_neq in H
                    | H : negb _ = _ |- _ => rewrite H end; congruence.
Definition tag_of (v : Value) (acc : option rstr) : option rstr :=
  match v with VString s => utf8_as_str s | _ => acc end.
Definition labels_of (v : Value) (acc : option (list rstr)) : option (list rstr) :=
  match v with
  | VArray arr => if negb (len (label_strings arr) =? 0) then Some (label_strings arr) else acc
  | _ => acc
  end.
Definition provenance_of (v : Value) (acc : option Metadata.Provenance) : option Metadata.Provenance :=
  match v with VMap m => Some (extract_provenance m) | _ => acc end.
Lemma step_client_tag s k v : cm_client_tag (metadata_field s (k, v))
  = if bool_decide (key_to_tag k = Some 1) then tag_of v (cm_client_tag s) else cm_client_tag s.
Proof. metadata_step. Qed.
Lemma step_title s k v : cm_title (metadata_field s (k, v))
  = if bool_decide (key_to_tag k = Some 2) then tag_of v (cm_title s) else cm_title s.
Proof. metadata_step. Qed.
Lemma step_labels s k v : cm_labels (metadata_field s (k, v))
  = if bool_decide (key_to_tag k = Some 3) then labels_of v (cm_labels s) else cm_labels s.
Proof. metadata_step. Qed.
Lemma step_provenance s k v : cm_provenance (metadata_field s (k, v))
  = if bool_decide (key_to_tag k = Some 10) then provenance_of v (cm_provenance s) else cm_provenance s.
Proof. metadata_step. Qed.
Lemma server_metadata_written (m : ContextMetadata) : typed m → ∃ l,
  to_rmpv (ser m) = VMap l ∧ foldl metadata_field empty_metadata l = server_metadata m.
Proof.
  intros Hm. unfold context_metadata_codec in Hm |- *. cbn [ser typed] in Hm |- *.
  destruct Hm as (Htag & Htitle & Hlabels & Hcustom & Hprov).
  unfold ser_context_metadata. lazymatch goal with |- context [struct_map ?fs] =>
    written_entries context_metadata_names fs l Hd Hl Hperm; set (fields := fs) in * end.
  eexists. split; [exact Hl|]. set (md := foldl _ _ _).
  assert (Hmd1 : cm_client_tag md = unless_skipped (cmd_client_tag m)).
  { unfold md. rewrite (fold_field _ _ tag_of 1 ($"1") fields); [|apply step_client_tag|check_tag|done|done].
    find_in fields. unfold unless_skipped. destruct (skipped _); [done|]. by apply from_utf8_valid. }
  assert (Hmd2 : cm_title md = unless_skipped (cmd_title m)).
  { unfold md. rewrite (fold_field _ _ tag_of 2 ($"2") fields); [|apply step_title|check_tag|done|done].
    find_in fields. unfold unless_skipped. destruct (skipped _); [done|]. by apply from_utf8_valid. }
  assert (Hmd3 : cm_labels md = unless_skipped (cmd_labels m)).
  { unfold md. rewrite (fold_field _ _ labels_of 3 ($"3") fields); [|apply step_labels|check_tag|done|done].
    find_in fields. unfold unless_skipped. destruct (cmd_labels m) as [|s ss]; [done|]. cbn [skipped skip_vec].
    cbn [ser vec_codec to_rmpv]. rewrite map_map. cbn [labels_of].
    change (map _ (s :: ss)) with (map VString (s :: ss)). rewrite label_strings_enc by done.
    by rewrite len_cons, (proj2 (N.eqb_neq _ _)) by lia. }
  assert (Hmd4 : cm_provenance md = server_provenance <$> cmd_provenance m).
  { unfold md. rewrite (fold_field _ _ provenance_of 10 ($"10") fields); [|apply step_provenance|check_tag|done|done].
    find_in fields. destruct (cmd_provenance m) as [p|]; [|done].
    destruct (extract_provenance_written p (Hprov p eq_refl)) as (l' & Hl' & Hs).
    cbn [fmap option_fmap option_map to_rmpv]. rewrite Hl'. cbn [provenance_of]. by rewrite Hs. }
  destruct md. cbn in *. unfold server_metadata. by subst.
Qed.

Lemma find_metadata_written name fields l :
  has_tag 30 name fields → NoDup fields.*1 → l ≡ₚ present fields →
  find_context_metadata (map (λ '(k, v), (VString k, to_rmpv v)) l) = to_rmpv <$> find_field name fields.
Proof.
  intros Ht Hd Hl. rewrite <- (find_present name fields Hd).
  rewrite <- (list_to_map_proper l (present fields)) by (done || (rewrite Hl; by apply present_nodup)).
  assert (Hk : ∀ k v, (k, v) ∈ l → key_to_tag (VString k) = Some 30 ↔ k = name).
  { intros k v Hin. rewrite Hl in Hin. apply elem_of_present in Hin. unfold has_tag in Ht.
    rewrite Forall_forall in Ht. apply Ht, list_elem_of_fmap. by exists (k, Some v). }
  clear Hl. unfold find_context_metadata. induction l as [|[k v] l IH]; [done|]. cbn.
  case_bool_decide as H30.
  - apply (Hk k v) in H30 as ->; [|by left]. by rewrite lookup_insert_eq.
  - rewrite lookup_insert_ne; [|intros ->; apply H30, (Hk name v); [by left|done]].
    apply IH. intros k' v' Hin. apply (Hk k' v'). by right.
Qed.
End server.

(** C8. The server takes from the first turn of a context what the client put into it. *)
Theorem client_metadata_reaches_server `{RmpLaws} (item : ConversationItem) :
  typed item → serde_wf (ser item) →
  extract_context_metadata (encode_msgpack item)
  = (m ← ci_context_metadata item;
     if decide (server_metadata m = empty_metadata) then None else Some (server_metadata m)).
Proof.
  intros Hi Hw. unfold extract_context_metadata, encode_msgpack. rewrite (encode_reads _ Hw).
  unfold conversation_item_codec in Hi |- *. cbn [ser typed result_ok mbind option_bind] in Hi |- *.
  destruct_and! Hi.
  unfold ser_conversation_item. lazymatch goal with |- context [struct_map ?fs] =>
    written_entries conversation_item_names fs l Hd Hl Hperm; set (fields := fs) in * end.
  unfold struct_map. rewrite Hl.
  rewrite (find_metadata_written ($"30") fields l ltac:(check_tag) Hd Hperm).
  find_in fields. cbn [fmap option_fmap option_map to_rmpv mbind option_bind].
  destruct (ci_context_metadata item) as [m|]; [|done].
  change (ser <$> Some m) with (Some (ser m)). cbv iota.
  edestruct (server_metadata_written m) as (l' & Hl' & Hmd); [auto|]. rewrite Hl'. rewrite bind_some.
  change (Metadata.mkContextMetadata None None None None) with empty_metadata. rewrite Hmd.
  destruct (decide _) as [He|He]; [by rewrite He|].
  by destruct (server_metadata m) as [[?|] [?|] [?|] [?|]].
Qed.

(** No item that a constructor makes can be read back: its id is empty. *)
Lemma constructed_not_full text files kind call_id name is_error now :
  Forall (λ item, full item = false)
    [new_user_input text files now; new_assistant_turn text now; new_system_message kind text now;
     new_handoff name text now; new_assistant text now; new_tool_call call_id name text now;
     new_tool_result call_id text is_error now].
Proof.
  repeat apply Forall_cons_2; [..|apply Forall_nil_2];
    cbn [full conversation_item_codec ci_status ci_timestamp ci_id new_user_input new_assistant_turn
         new_system_message new_handoff new_assistant new_tool_call new_tool_result];
    by rewrite (andb_comm _ (full_skip [])).
Qed.

(** The item of the client's tests, and the same item without its id. *)
Module ConversationSample.

#[local] Existing Instances RmpSample.encode RmpSample.cursor RmpSample.msgpack RmpSample.laws.

Definition from_slice (bs : bytes) : option ConversationItem := result_ok (msgpack_read bs) ≫= de.
Definition message (v : Value) : rstr := $"missing field".
Definition decode : bytes → result ClientError ConversationItem :=
  decode_msgpack_into from_slice (from_value message).

Lemma from_slice_sound : slice_sound from_slice.
Proof. intros bs v a Hr. unfold from_slice. by rewrite Hr. Qed.

Definition metadata : ContextMetadata :=
  mkContextMetadata ($"fixture-tag") ($"Fixture Title") [$"alpha"; $"beta"]
    {[$"env" := $"test"]} None.
Definition constructed : ConversationItem :=
  with_context_metadata metadata
    (new_user_input ($"Hello from fixtures") [$"file.txt"] 1700000000000).
Definition fixture : ConversationItem := with_id ($"item-1") constructed.

Lemma typed_none {A} `{Codec A} : typed_option None.
Proof. done. Qed.
Lemma typed_some {A} `{Codec A} (a : A) : typed a → typed_option (Some a).
Proof. by intros Ha b [= <-]. Qed.

Lemma fixture_typed : typed fixture.
Proof.
  assert (Hmap : typed (A:=gmap rstr rstr) {[$"env" := $"test"]}).
  { intros k v [<- <-]%lookup_singleton_Some. by split. }
  assert (Htext : Forall typed [$"file.txt"]) by (by apply Forall_singleton).
  assert (Hlabels : Forall typed [$"alpha"; $"beta"]) by (by repeat constructor).
  assert (Htime : typed (ci_timestamp fixture)) by (vm_compute; by split).
  assert (Huser : typed (mkUserInput ($"Hello from fixtures") [$"file.txt"])) by by split.
  assert (Hmeta : typed metadata) by (split_and!; try done; apply typed_none).
  cbn [typed conversation_item_codec].
  split_and!; [by vm_compute|by vm_compute|exact Htime|by vm_compute|..];
    first [apply typed_none|by apply typed_some].
Qed.

Lemma fixture_written : serde_wf (ser fixture).
Proof. vm_compute. repeat split; discriminate. Qed.

Lemma item_decodes_when_full_witness : decode (encode_msgpack fixture) = Ok fixture.
Proof.
  exact (item_decodes_when_full from_slice message fixture from_slice_sound fixture_typed
           fixture_written).
Defined.

(** Without the id nobody can read it. *)
Example constructed_refused : decode (encode_msgpack constructed) = Err (decode_error ($"missing field")).
Proof. vm_compute. reflexivity. Qed.

(** The server reads it nonetheless; of the custom fields it takes none. *)
Lemma client_metadata_reaches_server_witness :
  extract_context_metadata (encode_msgpack fixture)
  = Some (Metadata.mkContextMetadata (Some ($"fixture-tag")) (Some ($"Fixture Title"))
            (Some [$"alpha"; $"beta"]) None).
Proof. exact (client_metadata_reaches_server fixture fixture_typed fixture_written). Defined.

End ConversationSample.
