(* ===== verification/SubscribeTool.v ===== *)
(** * SubscribeTool: the command line tool that prints events and turns

    [clients/rust/src/bin/cxdb-subscribe.rs]: its arguments, the loop over the channels of the
    subscription and of the follower, with the limits that stop it, and what it prints. The
    channels, the flag of the [RequestContext] and sleeping are the interface [ToolWorld]. *)

From S2P Require Import Prelude Bytes External Json JsonCodec Protocol Server ClientWire Encoding FsTree.
From S2P Require Import Threads Subscribe Follow Conversation ConversationCodec.

Open Scope N_scope.

(** ** Arguments *)

Record Config : Type := mkConfig {
  tl_events_url : rstr;
  tl_bin_addr : rstr;
  tl_follow_turns : bool;
  tl_use_tls : bool;
  tl_client_tag : rstr;
  tl_max_events : N;
  tl_max_turns : N;
  tl_max_errors : N
}.

Definition config_default : Config := mkConfig [] [] false false [] 0 0 0.

(** The result of [parse_args], which may also end the process with the usage and code 0. *)
Inductive Parsed : Type := ParsedHelp | ParsedConfig (cfg : Config) | ParsedError (msg : rstr).

Definition missing_value (flag : rstr) : rstr := $"missing value for " ++ flag.
Definition invalid_value (flag : rstr) : rstr := $"invalid " ++ flag ++ $" value".

Fixpoint parse_args (args : list rstr) (cfg : Config) : Parsed :=
  let '(mkConfig url addr follow tls tag events turns errors) := cfg in
  match args with
  | [] => ParsedConfig cfg
  | arg :: args =>
      if bool_decide (arg = $"-h") || bool_decide (arg = $"--help") then ParsedHelp
      else if bool_decide (arg = $"--follow-turns")
      then parse_args args (mkConfig url addr true tls tag events turns errors)
      else if bool_decide (arg = $"--tls")
      then parse_args args (mkConfig url addr follow true tag events turns errors)
      else if bool_decide (arg ∈ [$"--cxdb-events-url"; $"--cxdb-bin-addr"; $"--client-tag";
                                  $"--max-events"; $"--max-turns"; $"--max-errors"])
      then match args with
           | [] => ParsedError (missing_value arg)
           | value :: args =>
               let with_text cfg := parse_args args cfg in
               let with_number set :=
                 match parse_u64 value with
                 | None => ParsedError (invalid_value arg)
                 | Some n => parse_args args (set n)
                 end in
               if bool_decide (arg = $"--cxdb-events-url")
               then with_text (mkConfig value addr follow tls tag events turns errors)
               else if bool_decide (arg = $"--cxdb-bin-addr")
               then with_text (mkConfig url value follow tls tag events turns errors)
               else if bool_decide (arg = $"--client-tag")
               then with_text (mkConfig url addr follow tls value events turns errors)
               else if bool_decide (arg = $"--max-events")
               then with_number (λ n, mkConfig url addr follow tls tag n turns errors)
               else if bool_decide (arg = $"--max-turns")
               then with_number (λ n, mkConfig url addr follow tls tag events n errors)
               else with_number (λ n, mkConfig url addr follow tls tag events turns n)
           end
      else ParsedError ($"unknown argument: " ++ arg)
  end.

(** What [--help] prints, and [main] after an error of the arguments. *)
Definition print_usage : list rstr :=
  [$"Usage: cxdb-subscribe --cxdb-events-url URL [options]"; [];
   $"Options:";
   $"  --cxdb-events-url URL   CXDB SSE events URL (required)";
   $"  --cxdb-bin-addr ADDR    CXDB binary address (required for --follow-turns)";
   $"  --follow-turns          Follow turns via binary protocol";
   $"  --tls                   Use TLS for binary protocol";
   $"  --client-tag TAG        Optional client tag for binary protocol";
   $"  --max-events N          Stop after N SSE events (0 = no limit)";
   $"  --max-turns N           Stop after N decoded turns (0 = no limit)";
   $"  --max-errors N          Stop after N errors (0 = no limit)"].

(** How [main] goes on: it ends with a code and lines on the standard error, or runs. *)
Inductive Start : Type := StartExit (code : N) (lines : list rstr) | StartRun (cfg : Config).

Definition start (args : list rstr) : Start :=
  match parse_args args config_default with
  | ParsedHelp => StartExit 0 print_usage
  | ParsedError msg => StartExit 2 ([msg; []] ++ print_usage)
  | ParsedConfig cfg =>
      if bool_decide (tl_events_url cfg = [])
      then StartExit 2 [$"--cxdb-events-url is required"]
      else if tl_follow_turns cfg && bool_decide (tl_bin_addr cfg = [])
      then StartExit 2 [$"--cxdb-bin-addr is required when --follow-turns is set"]
      else StartRun cfg
  end.

(** The code at the end of a run in which this many errors were printed. *)
Definition exit_code (cfg : Config) (error_count : N) : N :=
  if (0 <? tl_max_errors cfg) && (tl_max_errors cfg <=? error_count) then 1 else 0.

(** ** What is printed *)

(** [serde_json::to_value] of what derive writes for an item, whose maps have strings as keys. *)
Fixpoint to_json (v : SerdeValue) : json :=
  match v with
  | SBool b => JBool b
  | SU8 n | SU16 n | SU32 n | SU64 n => JNumber (number_from_u64 n)
  | SI8 i | SI16 i | SI32 i | SI64 i => JNumber (number_from_i64 i)
  | SF32 bits => from_option JNumber JNull (number_from_f64 (f64_of_f32_bits bits))
  | SF64 bits => from_option JNumber JNull (number_from_f64 (f64_of_bits bits))
  | SChar c => JString (encode_utf8 c)
  | SString s => JString s
  | SUnit | SOption None => JNull
  | SOption (Some v) | SNewtype v => to_json v
  | SSeq l => JArray (map to_json l)
  | SMap m =>
      object (omap (λ kv, match kv.1 with SString k => Some (k, to_json kv.2) | _ => None end) m)
  | SBytes bs => JArray (map (λ b, json_nat (Byte.to_N b)) bs)
  end.

Definition CompressionNone : N := 0.

(** A line on the standard output or on the standard error. *)
Inductive Line : Type := Stdout (text : bytes) | Stderr (text : rstr).

(** What is taken from the channels. *)
Inductive Item : Type :=
| GotEvent (ev : Event)
| GotError (err : SubscribeError)
| GotTurnError (err : FollowError)
| GotTurn (turn : FollowTurn).

Section print.
Context `{JsonText} `{Msgpack} (io_text : io_kind → rstr).
Context (from_slice : bytes → option ConversationItem) (message : Value → rstr).

Definition print_event (ev : Event) : Line :=
  match json_parse (ev_data ev) with
  | Err err => Stderr ($"encode event: " ++ err)
  | Ok data =>
      Stdout (json_text (object [($"kind", JString ($"event")); ($"type", JString (ev_type ev));
                                 ($"data", data)]))
  end.

(** The item in the payload of a turn. *)
Definition decode_item (turn : ClientTurnRecord) : result rstr ConversationItem :=
  if negb (ctr_encoding turn =? ENCODING_MSGPACK) then Err ($"unsupported encoding")
  else if negb (ctr_compression turn =? CompressionNone) then Err ($"unsupported compression")
  else map_err (show_client_error io_text)
         (decode_msgpack_into from_slice (from_value message) (ctr_payload turn)).

Definition print_turn (ft : FollowTurn) : Line :=
  let turn := ft_turn ft in
  Stdout (json_text (object
    ([($"kind", JString ($"turn")); ($"context_id", json_nat (ft_context_id ft));
      ($"turn_id", json_nat (ctr_turn_id turn)); ($"depth", json_nat (ctr_depth turn))]
     ++ (if bool_decide (ctr_type_id turn = []) then []
         else [($"declared_type_id", JString (ctr_type_id turn))])
     ++ (if ctr_type_version turn =? 0 then []
         else [($"declared_type_version", json_nat (ctr_type_version turn))])
     ++ match decode_item turn with
        | Err err => [($"decode_error", JString err)]
        | Ok item => [($"item", to_json (ser item))]
        end))).

(** [Display] of the errors of the follower ([follow.rs]). *)
Definition show_follow_error (err : FollowError) : rstr :=
  match err with
  | FollowCancelled => $"context canceled"
  | FollowTimeout => $"context deadline exceeded"
  | FollowDecode msg | FollowOther msg => msg
  | FollowClient err => show_client_error io_text err
  end.

Definition print_item (item : Item) : Line :=
  match item with
  | GotEvent ev => print_event ev
  | GotError err => Stderr ($"subscribe error: " ++ se_detail err)
  | GotTurnError err => Stderr ($"follow error: " ++ show_follow_error err)
  | GotTurn turn => print_turn turn
  end.
End print.

(** ** The loop *)

Inductive TryReceived (A : Type) : Type := TryValue (a : A) | TryEmpty | TryDisconnected.
#[global] Arguments TryValue {_} _.
#[global] Arguments TryEmpty {_}.
#[global] Arguments TryDisconnected {_}.

Class ToolWorld (W : Type) : Type := {
  tl_is_cancelled : W → bool * W;
  tl_cancel : W → W;
  tl_try_event : W → TryReceived Event * W;
  tl_try_err : W → TryReceived SubscribeError * W;
  tl_try_turn_err : W → TryReceived FollowError * W;
  tl_try_turn : W → TryReceived FollowTurn * W;
  tl_sleep : N → W → W
}.

(** The channels that are still there, the counters, and what was taken and printed so far. *)
Record Consume : Type := mkConsume {
  co_events : bool;
  co_errs : bool;
  co_turn_errs : bool;
  co_turns : bool;
  co_event_count : N;
  co_turn_count : N;
  co_error_count : N;
  co_taken : list Item
}.

(** [consume] with the channels of [ConsumeChannels]; the last two are there with --follow-turns. *)
Definition consume_new (follow : bool) : Consume := mkConsume true true follow follow 0 0 0 [].

Definition take_event (ev : Event) (st : Consume) : Consume :=
  mkConsume (co_events st) (co_errs st) (co_turn_errs st) (co_turns st)
    (wrap64 (co_event_count st + 1)) (co_turn_count st) (co_error_count st)
    (co_taken st ++ [GotEvent ev]).
Definition take_error (item : Item) (st : Consume) : Consume :=
  mkConsume (co_events st) (co_errs st) (co_turn_errs st) (co_turns st)
    (co_event_count st) (co_turn_count st) (wrap64 (co_error_count st + 1)) (co_taken st ++ [item]).
Definition take_turn (turn : FollowTurn) (st : Consume) : Consume :=
  mkConsume (co_events st) (co_errs st) (co_turn_errs st) (co_turns st)
    (co_event_count st) (wrap64 (co_turn_count st + 1)) (co_error_count st)
    (co_taken st ++ [GotTurn turn]).

Definition close_events (st : Consume) : Consume :=
  mkConsume false (co_errs st) (co_turn_errs st) (co_turns st) (co_event_count st)
    (co_turn_count st) (co_error_count st) (co_taken st).
Definition close_errs (st : Consume) : Consume :=
  mkConsume (co_events st) false (co_turn_errs st) (co_turns st) (co_event_count st)
    (co_turn_count st) (co_error_count st) (co_taken st).
Definition close_turn_errs (st : Consume) : Consume :=
  mkConsume (co_events st) (co_errs st) false (co_turns st) (co_event_count st)
    (co_turn_count st) (co_error_count st) (co_taken st).
Definition close_turns (st : Consume) : Consume :=
  mkConsume (co_events st) (co_errs st) (co_turn_errs st) false (co_event_count st)
    (co_turn_count st) (co_error_count st) (co_taken st).

Record ConsumeOptions : Type := mkConsumeOptions {
  op_max_events : N;
  op_max_turns : N;
  op_max_errors : N
}.

(** Whether [stop_if_done] cancels. *)
Definition done_now (op : ConsumeOptions) (st : Consume) : bool :=
  if (0 <? op_max_errors op) && (op_max_errors op <=? co_error_count st) then true
  else
    let stop_on_events := 0 <? op_max_events op in
    let stop_on_turns := 0 <? op_max_turns op in
    if stop_on_events || stop_on_turns
    then (negb stop_on_events || (op_max_events op <=? co_event_count st))
         && (negb stop_on_turns || (op_max_turns op <=? co_turn_count st))
    else false.

Section consume.
Context {W : Type} `{!ToolWorld W}.

(** One [if let Some(rx)] with its [try_recv]. *)
Definition poll {A} (is_open : bool) (try_recv : W → TryReceived A * W) (take : A → Consume → Consume)
    (close : Consume → Consume) (s : Consume * bool * W) : Consume * bool * W :=
  let '(st, progressed, w) := s in
  if is_open then
    match try_recv w with
    | (TryValue a, w) => (take a st, true, w)
    | (TryDisconnected, w) => (close st, true, w)
    | (TryEmpty, w) => (st, progressed, w)
    end
  else s.

Definition stop_if_done (op : ConsumeOptions) (st : Consume) (w : W) : W :=
  if done_now op st then tl_cancel w else w.

(** The body of the loop after its two checks. *)
Definition consume_round (op : ConsumeOptions) (st : Consume) (w : W) : Consume * W :=
  let s := poll (co_events st) tl_try_event take_event close_events (st, false, w) in
  let s := poll (co_errs s.1.1) tl_try_err (λ e, take_error (GotError e)) close_errs s in
  let s := poll (co_turn_errs s.1.1) tl_try_turn_err (λ e, take_error (GotTurnError e))
             close_turn_errs s in
  let '(st, progressed, w) := poll (co_turns s.1.1) tl_try_turn take_turn close_turns s in
  let w := stop_if_done op st w in
  (st, if progressed then w else tl_sleep 50 w).

Definition all_closed (st : Consume) : bool :=
  negb (co_events st) && negb (co_errs st) && negb (co_turn_errs st) && negb (co_turns st).

(** [consume] for a number of rounds: [None] while it goes on. *)
Fixpoint consume (op : ConsumeOptions) (rounds : nat) (st : Consume) (w : W) : option (Consume * W) :=
  match rounds with
  | O => None
  | S rounds =>
      let (cancelled, w) := tl_is_cancelled w in
      if cancelled then Some (st, w)
      else if all_closed st then Some (st, w)
      else let (st, w) := consume_round op st w in consume op rounds st w
  end.
End consume.

(** ** The copying of events *)

(** The thread of [tee_events] in a world: receiving from the subscription and sending to the two
    channels, which blocks while they are full and fails when nobody receives any more. *)
Class TeeWorld (W : Type) : Type := {
  tee_recv : W → option Event * W;
  tee_out : Event → W → bool * W;
  tee_follow : Event → W → bool * W
}.

(** What went to the printer and to the follower, in some number of rounds. *)
Fixpoint tee_events {W} `{!TeeWorld W} (rounds : nat) (w : W) : list Event * list Event * W :=
  match rounds with
  | O => ([], [], w)
  | S rounds =>
      let (ev, w) := tee_recv w in
      match ev with
      | None => ([], [], w)
      | Some ev =>
          let (sent, w) := tee_out ev w in
          if sent then
            let (followed, w) := tee_follow ev w in
            if followed then
              let '(out, follow, w) := tee_events rounds w in (ev :: out, ev :: follow, w)
            else ([ev], [], w)
          else ([], [], w)
      end
  end.

(** ** What the tool promises *)

(** The arguments of a configuration. *)
Definition number_args (flag : rstr) (n : N) : list rstr := if n =? 0 then [] else [flag; show_N n].
Definition text_args (flag text : rstr) : list rstr :=
  if bool_decide (text = []) then [] else [flag; text].
Definition config_args (cfg : Config) : list rstr :=
  text_args ($"--cxdb-events-url") (tl_events_url cfg)
  ++ text_args ($"--cxdb-bin-addr") (tl_bin_addr cfg)
  ++ (if tl_follow_turns cfg then [$"--follow-turns"] else [])
  ++ (if tl_use_tls cfg then [$"--tls"] else [])
  ++ text_args ($"--client-tag") (tl_client_tag cfg)
  ++ number_args ($"--max-events") (tl_max_events cfg)
  ++ number_args ($"--max-turns") (tl_max_turns cfg)
  ++ number_args ($"--max-errors") (tl_max_errors cfg).

Lemma parse_number flag n args cfg set :
  (∀ value args, parse_args (flag :: value :: args) cfg
     = match parse_u64 value with None => ParsedError (invalid_value flag)
       | Some n => parse_args args (set n) end) →
  (n = 0 → set n = cfg) → n < U64 →
  parse_args (number_args flag n ++ args) cfg = parse_args args (set n).
Proof.
  intros Hflag Hzero Hn. unfold number_args. destruct (N.eqb_spec n 0) as [->|Hne].
  - by rewrite Hzero.
  - cbn [app]. rewrite Hflag. unfold parse_u64. by rewrite parse_uint_show.
Qed.
Lemma parse_text flag text args cfg set :
  (∀ value args, parse_args (flag :: value :: args) cfg = parse_args args (set value)) →
  (text = [] → set text = cfg) →
  parse_args (text_args flag text ++ args) cfg = parse_args args (set text).
Proof.
  intros Hflag Hempty. unfold text_args. case_bool_decide as He; [by rewrite Hempty|]. apply Hflag.
Qed.
Lemma parse_flag (b : bool) flag args cfg set :
  (∀ args, parse_args (flag :: args) cfg = parse_args args (set true)) → set false = cfg →
  parse_args ((if b then [flag] else []) ++ args) cfg = parse_args args (set b).
Proof. intros Hflag Hno. destruct b; [apply Hflag|by rewrite Hno]. Qed.

(** Every configuration can be given by arguments. *)
Lemma parse_config_args cfg :
  tl_max_events cfg < U64 → tl_max_turns cfg < U64 → tl_max_errors cfg < U64 →
  parse_args (config_args cfg) config_default = ParsedConfig cfg.
Proof.
  destruct cfg as [url addr follow tls tag events turns errors]. cbn. intros He Ht Hr.
  unfold config_args, config_default. cbn [tl_events_url tl_bin_addr tl_follow_turns tl_use_tls
    tl_client_tag tl_max_events tl_max_turns tl_max_errors].
  rewrite (parse_text _ url _ _ (λ url, mkConfig url [] false false [] 0 0 0)); [|done|by intros ->].
  rewrite (parse_text _ addr _ _ (λ addr, mkConfig url addr false false [] 0 0 0)); [|done|by intros ->].
  rewrite (parse_flag follow _ _ _ (λ follow, mkConfig url addr follow false [] 0 0 0)) by done.
  rewrite (parse_flag tls _ _ _ (λ tls, mkConfig url addr follow tls [] 0 0 0)) by done.
  rewrite (parse_text _ tag _ _ (λ tag, mkConfig url addr follow tls tag 0 0 0)); [|done|by intros ->].
  rewrite (parse_number _ events _ _ (λ n, mkConfig url addr follow tls tag n 0 0)); [|done|by intros ->|done].
  rewrite (parse_number _ turns _ _ (λ n, mkConfig url addr follow tls tag events n 0)); [|done|by intros ->|done].
  rewrite <- (app_nil_r (number_args _ errors)).
  rewrite (parse_number _ errors _ _ (λ n, mkConfig url addr follow tls tag events turns n)); [|done|by intros ->|done].
  done.
Qed.

Definition is_event (i : Item) : bool := match i with GotEvent _ => true | _ => false end.
Definition is_error (i : Item) : bool := match i with GotError _ | GotTurnError _ => true | _ => false end.
Definition is_turn (i : Item) : bool := match i with GotTurn _ => true | _ => false end.
Definition count (p : Item → bool) (l : list Item) : N := len (List.filter p l).
Lemma count_snoc p l i : count p (l ++ [i]) = count p l + (if p i then 1 else 0).
Proof. unfold count. rewrite List.filter_app, len_app. cbn. by destruct (p i). Qed.

(** The counters count what was taken. *)
Definition counted (st : Consume) : Prop :=
  co_event_count st = wrap64 (count is_event (co_taken st))
  ∧ co_turn_count st = wrap64 (count is_turn (co_taken st))
  ∧ co_error_count st = wrap64 (count is_error (co_taken st)).

(** Nothing is forgotten, and this much is new. *)
Definition grew (events errors turns : N) (st st' : Consume) : Prop :=
  counted st' ∧ (∃ new, co_taken st' = co_taken st ++ new)
  ∧ count is_event (co_taken st') ≤ count is_event (co_taken st) + events
  ∧ count is_error (co_taken st') ≤ count is_error (co_taken st) + errors
  ∧ count is_turn (co_taken st') ≤ count is_turn (co_taken st) + turns.

Lemma grew_refl st : counted st → grew 0 0 0 st st.
Proof. intros Hc. split_and!; [done|exists []; by rewrite app_nil_r|lia..]. Qed.
Lemma grew_trans a b c a' b' c' st1 st2 st3 :
  grew a b c st1 st2 → grew a' b' c' st2 st3 → grew (a + a') (b + b') (c + c') st1 st3.
Proof.
  intros (Hc & [l Hl] & ? & ? & ?) (Hc' & [l' Hl'] & ? & ? & ?). split_and!; [done| |lia..].
  exists (l ++ l'). by rewrite Hl', Hl, app_assoc.
Qed.

Section spec.
Context {W : Type} `{!ToolWorld W}.

Lemma poll_grew {A} a b c is_open (recv : W → TryReceived A * W) take close st p w st' p' w' :
  counted st → (∀ x, grew a b c st (take x st)) → counted (close st) →
  co_taken (close st) = co_taken st →
  poll is_open recv take close (st, p, w) = (st', p', w') → grew a b c st st'.
Proof.
  intros Hc Ht Hcl Heq Hp. unfold poll in Hp.
  assert (Hsame : ∀ st', counted st' → co_taken st' = co_taken st → grew a b c st st').
  { intros st2 Hc2 H2. split_and!; [done|exists []; by rewrite app_nil_r|rewrite H2; lia..]. }
  destruct is_open; [|by simplify_eq; apply Hsame]. destruct (recv w) as [[x| |] w1]; simplify_eq; auto.
Qed.

Lemma take_event_grew ev st : counted st → grew 1 0 0 st (take_event ev st).
Proof.
  intros (He & Ht & Hr). split_and!; unfold counted; cbn; rewrite ?count_snoc; cbn; rewrite ?N.add_0_r;
    [split_and!; [|done..]|by eexists|lia..]. rewrite He. apply N.Div0.add_mod_idemp_l.
Qed.
Lemma take_error_grew item st : is_error item = true → is_event item = false → is_turn item = false →
  counted st → grew 0 1 0 st (take_error item st).
Proof.
  intros H1 H2 H3 (He & Ht & Hr).
  split_and!; unfold counted; cbn; rewrite ?count_snoc, ?H1, ?H2, ?H3, ?N.add_0_r;
    [split_and!; [done..|]|by eexists|lia..]. rewrite Hr. apply N.Div0.add_mod_idemp_l.
Qed.
Lemma take_turn_grew turn st : counted st → grew 0 0 1 st (take_turn turn st).
Proof.
  intros (He & Ht & Hr). split_and!; unfold counted; cbn; rewrite ?count_snoc; cbn; rewrite ?N.add_0_r;
    [split_and!; [done| |done]|by eexists|lia..]. rewrite Ht. apply N.Div0.add_mod_idemp_l.
Qed.

(** A round takes at most one event, two errors and one turn. *)
Lemma round_grew op st w st' w' : counted st → consume_round op st w = (st', w') → grew 1 2 1 st st'.
Proof.
  intros Hc. unfold consume_round.
  destruct (poll (co_events st) _ _ _ (st, false, w)) as [[st1 p1] w1] eqn:H1.
  apply (poll_grew 1 0 0) in H1; [|done|by intros; apply take_event_grew|done|done].
  cbn [fst]. destruct (poll (co_errs st1) _ _ _ (st1, p1, w1)) as [[st2 p2] w2] eqn:H2.
  apply (poll_grew 0 1 0) in H2; [|apply H1|by intros; apply take_error_grew, H1|apply H1|done].
  cbn [fst]. destruct (poll (co_turn_errs st2) _ _ _ (st2, p2, w2)) as [[st3 p3] w3] eqn:H3.
  apply (poll_grew 0 1 0) in H3; [|apply H2|by intros; apply take_error_grew, H2|apply H2|done].
  cbn [fst]. destruct (poll (co_turns st3) _ _ _ (st3, p3, w3)) as [[st4 p4] w4] eqn:H4.
  apply (poll_grew 0 0 1) in H4; [|apply H3|by intros; apply take_turn_grew, H3|apply H3|done].
  intros [= <- _]. exact (grew_trans _ _ _ _ _ _ _ _ _
    (grew_trans _ _ _ _ _ _ _ _ _ (grew_trans _ _ _ _ _ _ _ _ _ H1 H2) H3) H4).
Qed.

(** Cancelling is seen at the next check, also after a pause. *)
Class ToolWorldLaws : Prop := {
  cancel_seen w : (tl_is_cancelled (tl_cancel w)).1 = true;
  cancel_seen_later n w : (tl_is_cancelled (tl_sleep n (tl_cancel w))).1 = true
}.

(** Some limit is not reached: how much more may be taken. *)
Definition below (op : ConsumeOptions) (more : N) (st : Consume) : Prop :=
  (0 < op_max_errors op → count is_error (co_taken st) < op_max_errors op + 2 * more)
  ∧ (0 < op_max_events op → op_max_turns op = 0 →
     count is_event (co_taken st) < op_max_events op + more)
  ∧ (0 < op_max_turns op → op_max_events op = 0 →
     count is_turn (co_taken st) < op_max_turns op + more).

Definition options_ok (op : ConsumeOptions) : Prop :=
  op_max_events op < U64 - 1 ∧ op_max_turns op < U64 - 1 ∧ op_max_errors op < U64 - 1.

Lemma not_done_below op st : options_ok op → counted st → below op 1 st → done_now op st = false →
  below op 0 st.
Proof.
  intros (Ho1 & Ho2 & Ho3) (He & Ht & Hr) (B1 & B2 & B3). unfold done_now. rewrite He, Ht, Hr.
  intros Hd. split_and!.
  - intros Hp. specialize (B1 Hp). rewrite (proj2 (N.ltb_lt _ _)) in Hd by done. cbn [andb] in Hd.
    rewrite wrap64_small in Hd by lia.
    destruct (N.leb_spec (op_max_errors op) (count is_error (co_taken st))); [done|lia].
  - intros Hp Hz. specialize (B2 Hp Hz). destruct (_ && (op_max_errors op <=? _)); [done|].
    rewrite Hz, (proj2 (N.ltb_lt 0 (op_max_events op))) in Hd by done. cbn in Hd.
    rewrite wrap64_small, andb_true_r in Hd by lia. apply N.leb_gt in Hd. lia.
  - intros Hp Hz. specialize (B3 Hp Hz). destruct (_ && (op_max_errors op <=? _)); [done|].
    rewrite Hz, (proj2 (N.ltb_lt 0 (op_max_turns op))) in Hd by done. cbn in Hd.
    rewrite wrap64_small in Hd by lia. apply N.leb_gt in Hd. lia.
Qed.

Lemma round_cancels `{!ToolWorldLaws} op st w st' w' : consume_round op st w = (st', w') →
  done_now op st' = true → (tl_is_cancelled w').1 = true.
Proof.
  unfold consume_round. destruct (poll (co_turns _) _ _ _ _) as [[st4 p4] w4].
  intros [= <- <-] Hd. unfold stop_if_done. rewrite Hd. destruct p4; [apply cancel_seen|apply cancel_seen_later].
Qed.

Lemma consume_below `{!ToolWorldLaws} op rounds st w st' w' : options_ok op →
  counted st → below op 0 st ∨ (below op 1 st ∧ (tl_is_cancelled w).1 = true) →
  consume op rounds st w = Some (st', w') →
  counted st' ∧ below op 1 st' ∧ ∃ new, co_taken st' = co_taken st ++ new.
Proof.
  intros Hop. revert st w. induction rounds as [|rounds IH]; intros st w Hc Hb; cbn [consume]; [done|].
  assert (Hb1 : below op 1 st).
  { destruct Hb as [(B1 & B2 & B3)|[Hb _]]; [|done]. split_and!; intros; [specialize (B1 ltac:(done))
      |specialize (B2 ltac:(done) ltac:(done))|specialize (B3 ltac:(done) ltac:(done))]; lia. }
  assert (Hend : ∀ w2, Some (st, w2) = Some (st', w') →
    counted st' ∧ below op 1 st' ∧ ∃ new, co_taken st' = co_taken st ++ new).
  { intros w2 [= <- _]. split_and!; [done|exact Hb1|]. exists []. by rewrite app_nil_r. }
  destruct (tl_is_cancelled w) as [[] w1] eqn:Hcan; [by apply Hend|].
  destruct (all_closed st); [by apply Hend|].
  destruct (consume_round op st w1) as [st2 w2] eqn:Hr.
  destruct Hb as [(B1 & B2 & B3)|[_ Hb]]; [|done].
  pose proof (round_grew op st w1 st2 w2 Hc Hr) as (Hc2 & [new Hnew] & G1 & G2 & G3).
  assert (Hb2 : below op 1 st2).
  { split_and!; intros; [specialize (B1 ltac:(done))|specialize (B2 ltac:(done) ltac:(done))
      |specialize (B3 ltac:(done) ltac:(done))]; lia. }
  intros Hrun. destruct (IH st2 w2 Hc2) as (H1 & H2 & [new' H3]); [|done|].
  - destruct (done_now op st2) eqn:Hd; [right|left; by apply not_done_below].
    split; [done|by eapply round_cancels].
  - split_and!; [done..|]. exists (new ++ new'). by rewrite H3, Hnew, app_assoc.
Qed.

(** The tool does not print much more than its limits allow: at most one error more than the
    limit of errors; with only a limit of events or of turns no more of these; and its counters
    count what it printed. *)
Theorem consume_limits `{!ToolWorldLaws} op rounds follow w st w' : options_ok op →
  consume op rounds (consume_new follow) w = Some (st, w') →
  counted st
  ∧ (0 < op_max_errors op → count is_error (co_taken st) ≤ op_max_errors op + 1)
  ∧ (0 < op_max_events op → op_max_turns op = 0 → count is_event (co_taken st) ≤ op_max_events op)
  ∧ (0 < op_max_turns op → op_max_events op = 0 → count is_turn (co_taken st) ≤ op_max_turns op).
Proof.
  intros Hop Hrun. destruct (consume_below op rounds (consume_new follow) w st w') as (Hc & (B1 & B2 & B3) & _);
    [done|done| |done|].
  - left. split_and!; intros; change (count _ (co_taken (consume_new follow))) with 0; lia.
  - split_and!; [done|intros Hp; specialize (B1 Hp); lia|intros Hp Hz; specialize (B2 Hp Hz); lia|].
    intros Hp Hz. specialize (B3 Hp Hz). lia.
Qed.

(** ** The loop ends *)

(** What is still to come: every value brings it down, and so does waiting when a channel is
    empty. *)
Class Finite (left : W → nat) : Prop := {
  left_check w : (left (tl_is_cancelled w).2 ≤ left w)%nat;
  left_cancel w : (left (tl_cancel w) ≤ left w)%nat;
  left_sleep w : (left (tl_sleep 50 w) ≤ pred (left w))%nat;
  left_event w : match tl_try_event w with
    | (TryValue _, w') => left w' < left w | (TryDisconnected, w') => left w' ≤ left w
    | (TryEmpty, w') => left w' ≤ left w ∧ 0 < left w' end%nat;
  left_err w : match tl_try_err w with
    | (TryValue _, w') => left w' < left w | (TryDisconnected, w') => left w' ≤ left w
    | (TryEmpty, w') => left w' ≤ left w ∧ 0 < left w' end%nat;
  left_turn_err w : match tl_try_turn_err w with
    | (TryValue _, w') => left w' < left w | (TryDisconnected, w') => left w' ≤ left w
    | (TryEmpty, w') => left w' ≤ left w ∧ 0 < left w' end%nat;
  left_turn w : match tl_try_turn w with
    | (TryValue _, w') => left w' < left w | (TryDisconnected, w') => left w' ≤ left w
    | (TryEmpty, w') => left w' ≤ left w ∧ 0 < left w' end%nat
}.

Definition open_channels (st : Consume) : nat :=
  Nat.b2n (co_events st) + Nat.b2n (co_errs st) + Nat.b2n (co_turn_errs st) + Nat.b2n (co_turns st).

(** In a round so far: there was progress and less is left, or nothing has changed; then
    something is left if a channel was polled. *)
Definition advanced (left : W → nat) (st0 : Consume) (w0 : W) (polled : bool) (s : Consume * bool * W) : Prop :=
  let '(st, progressed, w) := s in
  if progressed then (left w + open_channels st < left w0 + open_channels st0)%nat
  else st = st0 ∧ (left w ≤ left w0)%nat ∧ (polled = true → (0 < left w)%nat).

Lemma poll_advances {A} left st0 w0 polled (is_open : Consume → bool) (recv : W → TryReceived A * W)
    take close s :
  (∀ w, match recv w with
    | (TryValue _, w') => left w' < left w | (TryDisconnected, w') => left w' ≤ left w
    | (TryEmpty, w') => left w' ≤ left w ∧ 0 < left w' end%nat) →
  (∀ a st, open_channels (take a st) = open_channels st) →
  (∀ st, is_open st = true → open_channels (close st) < open_channels st)%nat →
  advanced left st0 w0 polled s →
  advanced left st0 w0 (polled || is_open st0) (poll (is_open s.1.1) recv take close s).
Proof.
  intros Hrecv Ht Hcl Hs. destruct s as [[st p] w]. unfold poll. cbn [fst]. cbn in Hs.
  destruct p.
  - destruct (is_open st) eqn:Hop; [|done]. specialize (Hrecv w). specialize (Hcl st Hop).
    destruct (recv w) as [[a| |] w1]; cbn; rewrite ?Ht; lia.
  - destruct Hs as (-> & Hl & Hp). specialize (Hrecv w). specialize (Hcl st0).
    destruct (is_open st0) eqn:Hop; [|by rewrite orb_false_r].
    rewrite orb_true_r. specialize (Hcl eq_refl).
    destruct (recv w) as [[a| |] w1]; cbn; rewrite ?Ht; [lia|split_and!; [done|lia|lia]|lia].
Qed.

Lemma round_advances left `{!Finite left} op st w st' w' : all_closed st = false →
  consume_round op st w = (st', w') → (left w' + open_channels st' < left w + open_channels st)%nat.
Proof.
  intros Hopen.
  assert (Ha : advanced left st w false (st, false, w)) by by split_and!.
  apply (poll_advances left st w _ co_events tl_try_event take_event close_events) in Ha;
    [|apply left_event|done|intros [] He; cbn in He |- *; subst; cbn; lia].
  apply (poll_advances left st w _ co_errs tl_try_err (λ e, take_error (GotError e)) close_errs) in Ha;
    [|apply left_err|done|intros [] He; cbn in He |- *; subst; unfold open_channels; cbn; lia].
  apply (poll_advances left st w _ co_turn_errs tl_try_turn_err (λ e, take_error (GotTurnError e))
    close_turn_errs) in Ha;
    [|apply left_turn_err|done|intros [] He; cbn in He |- *; subst; unfold open_channels; cbn; lia].
  apply (poll_advances left st w _ co_turns tl_try_turn take_turn close_turns) in Ha;
    [|apply left_turn|done|intros [] He; cbn in He |- *; subst; unfold open_channels; cbn; lia].
  unfold consume_round. cbn [fst] in Ha. destruct (poll (co_turns _) _ _ _ _) as [[st4 p4] w4].
  intros [= <- <-]. cbn in Ha.
  assert (Hstop : (left (stop_if_done op st4 w4) ≤ left w4)%nat)
    by (unfold stop_if_done; destruct (done_now op st4); [apply left_cancel|done]).
  destruct p4; [lia|]. destruct Ha as (-> & Hl & Hp). pose proof (left_sleep (stop_if_done op st w4)).
  assert (0 < left w4)%nat; [|lia]. apply Hp. unfold all_closed in Hopen.
  by destruct (co_events st), (co_errs st), (co_turn_errs st), (co_turns st).
Qed.

Lemma consume_returns_from left `{!Finite left} op rounds st w :
  (left w + open_channels st < rounds)%nat → is_Some (consume op rounds st w).
Proof.
  revert st w. induction rounds as [|rounds IH]; intros st w Hr; [lia|]. cbn [consume].
  pose proof (left_check w) as Hc. destruct (tl_is_cancelled w) as [[] w1]; [by eauto|]. cbn in Hc.
  destruct (all_closed st) eqn:Ho; [by eauto|]. destruct (consume_round op st w1) as [st2 w2] eqn:Hround.
  apply IH. pose proof (round_advances left op st w1 st2 w2 Ho Hround). lia.
Qed.

(** When finitely many values are to come before the channels are closed, the loop ends. *)
Theorem consume_returns left `{!Finite left} op follow w :
  ∃ rounds st w', consume op rounds (consume_new follow) w = Some (st, w').
Proof.
  destruct (consume_returns_from left op (S (left w + open_channels (consume_new follow)))
    (consume_new follow) w) as [[st w'] Heq]; [lia|by eauto].
Qed.
End spec.

(** The follower gets the events that are printed, at most one fewer. *)
Lemma tee_prefix {W} `{!TeeWorld W} rounds (w : W) :
  let '(out, follow, _) := tee_events rounds w in out = follow ∨ ∃ ev, out = follow ++ [ev].
Proof.
  revert w. induction rounds as [|rounds IH]; intros w; [by left|]. cbn.
  destruct (tee_recv w) as [[ev|] w1]; [|by left]. destruct (tee_out ev w1) as [[] w2]; [|by left].
  destruct (tee_follow ev w2) as [[] w3]; [|by right; exists ev].
  specialize (IH w3). destruct (tee_events rounds w3) as [[out follow] w4].
  destruct IH as [->|[ev' ->]]; [by left|]. right. by exists ev'.
Qed.

(** Channels that hold their values from the start, and are closed after them. *)
Module ToolSample.

Record Channels : Type := mkChannels {
  ch_events : list Event;
  ch_errs : list SubscribeError;
  ch_turn_errs : list FollowError;
  ch_turns : list FollowTurn;
  ch_cancelled : bool
}.
Definition try_recv {A} (l : list A) : TryReceived A * list A :=
  match l with [] => (TryDisconnected, []) | a :: l => (TryValue a, l) end.

#[local] Instance world : ToolWorld Channels := {|
  tl_is_cancelled w := (ch_cancelled w, w);
  tl_cancel w := mkChannels (ch_events w) (ch_errs w) (ch_turn_errs w) (ch_turns w) true;
  tl_try_event w := let (r, l) := try_recv (ch_events w) in
    (r, mkChannels l (ch_errs w) (ch_turn_errs w) (ch_turns w) (ch_cancelled w));
  tl_try_err w := let (r, l) := try_recv (ch_errs w) in
    (r, mkChannels (ch_events w) l (ch_turn_errs w) (ch_turns w) (ch_cancelled w));
  tl_try_turn_err w := let (r, l) := try_recv (ch_turn_errs w) in
    (r, mkChannels (ch_events w) (ch_errs w) l (ch_turns w) (ch_cancelled w));
  tl_try_turn w := let (r, l) := try_recv (ch_turns w) in
    (r, mkChannels (ch_events w) (ch_errs w) (ch_turn_errs w) l (ch_cancelled w));
  tl_sleep _ w := mkChannels [] [] [] [] (ch_cancelled w)
|}.
#[local] Instance laws : ToolWorldLaws.
Proof. by split. Qed.

Definition left (w : Channels) : nat :=
  length (ch_events w) + length (ch_errs w) + length (ch_turn_errs w) + length (ch_turns w).
#[local] Instance finite : Finite left.
Proof.
  split; intros []; unfold left; cbn; try done; try lia;
    match goal with |- context [try_recv ?l] => destruct l; cbn; lia end.
Qed.

Definition event (n : N) : Event := mkEvent ($"turn_appended") (show_N n) [].
Definition error (n : N) : SubscribeError := mkSubscribeError KOther (show_N n).
Definition turn (payload : bytes) : FollowTurn :=
  mkFollowTurn 1 (mkClientTurnRecord 2 0 0 TypeIDConversationItem 3 ENCODING_MSGPACK 0 [] payload).
Definition channels : Channels :=
  mkChannels [event 1; event 2; event 3] [error 1] [FollowOther ($"decode")] [] false.

Lemma consume_limits_witness : ∃ st w',
  consume (mkConsumeOptions 2 0 0) 10 (consume_new true) channels = Some (st, w')
  ∧ count is_event (co_taken st) ≤ 2.
Proof.
  eexists _, _. split; [vm_compute; reflexivity|].
  eapply (consume_limits (mkConsumeOptions 2 0 0) 10 true channels); [by split_and!|by vm_compute|done|done].
Defined.

Lemma consume_returns_witness : ∃ rounds st w',
  consume (mkConsumeOptions 0 0 0) rounds (consume_new false) channels = Some (st, w').
Proof. exact (consume_returns left (mkConsumeOptions 0 0 0) false channels). Defined.

Definition taken (op : ConsumeOptions) : option (N * N * N) :=
  '(st, _) ← consume op 10 (consume_new true) channels;
  Some (count is_event (co_taken st), count is_turn (co_taken st), count is_error (co_taken st)).

(** One error of the subscription and one of the follower come in the same round. *)
Example one_error_too_many : taken (mkConsumeOptions 0 0 1) = Some (1, 0, 2).
Proof. vm_compute. reflexivity. Qed.

(** With a limit of turns as well, the limit of events does not stop the tool. *)
Example events_past_their_limit : taken (mkConsumeOptions 1 1 0) = Some (3, 0, 2).
Proof. vm_compute. reflexivity. Qed.

Example arguments :
  start [$"--cxdb-events-url"; $"http://localhost:9010/v1/events"; $"--max-events"; $"-1"]
  = StartExit 2 ([$"invalid --max-events value"; []] ++ print_usage).
Proof. vm_compute. reflexivity. Qed.

#[local] Existing Instances RmpSample.encode RmpSample.cursor RmpSample.msgpack.

(** The item of a user, as the client makes it, is printed as an error. *)
Example user_input_not_printed :
  decode_item (λ _, []) ConversationSample.from_slice ConversationSample.message
    (ft_turn (turn (encode_msgpack (new_user_input ($"Hello") [] 1700000000000))))
  = Err ($"cxdb: invalid response: msgpack decode error: missing field").
Proof. vm_compute. reflexivity. Qed.
Example full_item_printed :
  decode_item (λ _, []) ConversationSample.from_slice ConversationSample.message
    (ft_turn (turn (encode_msgpack ConversationSample.fixture)))
  = Ok ConversationSample.fixture.
Proof. vm_compute. reflexivity. Qed.

End ToolSample.
