(* ===== verification/CxtxProvider.v ===== *)
(** * CxtxProvider: providers and routes of the proxy

    [cxtx/src/provider/mod.rs], and the routing and header functions of [cxtx/src/proxy.rs]: the
    arguments and the environment of the child, where a request goes, and which headers pass.
    URLs belong to a library and the environment is a map. *)

From S2P Require Import Prelude Bytes External Json.

Open Scope N_scope.

Inductive ProviderKind : Type := Codex | Claude | Pi.
#[export] Instance provider_kind_eq_dec : EqDecision ProviderKind.
Proof. solve_decision. Defined.
Inductive ProtocolKind : Type := OpenAi | Anthropic.

Definition command_name (p : ProviderKind) : rstr :=
  match p with Codex => $"codex" | Claude => $"claude" | Pi => $"pi" end.
Definition provider_name (p : ProviderKind) : rstr :=
  match p with Codex => $"openai" | Claude => $"anthropic" | Pi => $"pi" end.
Definition client_tag (p : ProviderKind) : rstr :=
  match p with Codex => $"cxtx/codex" | Claude => $"cxtx/claude" | Pi => $"cxtx/pi" end.
Definition labels (p : ProviderKind) : list rstr :=
  [$"cxtx"; match p with Codex => $"codex" | Claude => $"claude" | Pi => $"pi" end; $"interactive"].

(** ** Arguments of the child *)

Section args.
Context `{Unicode}.

(** [str::trim_start]. *)
Definition str_trim_start (s : rstr) : rstr := trim_start_chars (length s) s.

(** The test of one argument and the one after it. *)
Definition config_override (key arg : rstr) (next : option rstr) : bool :=
  let sets value := starts_with (str_trim_start value) (key ++ $"=") in
  match strip_prefix arg ($"--config=") with
  | Some value => sets value
  | None =>
      match strip_prefix arg ($"-c") with
      | Some ((_ :: _) as value) => sets value
      | _ => bool_decide (arg = $"-c" ∨ arg = $"--config")
             && match next with Some value => sets value | None => false end
      end
  end.
Definition feature_override (feature arg : rstr) (next : option rstr) : bool :=
  match strip_prefix arg ($"--enable=") with
  | Some value => bool_decide (value = feature)
  | None =>
      match strip_prefix arg ($"--disable=") with
      | Some value => bool_decide (value = feature)
      | None => bool_decide (arg = $"--enable" ∨ arg = $"--disable")
                && bool_decide (next = Some feature)
      end
  end.

(** [args.iter().enumerate().any(...)] with the next argument. *)
Fixpoint any_with_next (f : rstr → option rstr → bool) (args : list rstr) : bool :=
  match args with
  | [] => false
  | arg :: args => f arg (head args) || any_with_next f args
  end.

Definition has_codex_config_override (args : list rstr) (key : rstr) : bool :=
  any_with_next (config_override key) args.
Definition has_codex_feature_override (args : list rstr) (feature : rstr) : bool :=
  any_with_next (feature_override feature) args
  || has_codex_config_override args ($"features." ++ feature).

Definition child_args_for_proxy (p : ProviderKind) (args : list rstr) : list rstr :=
  match p with
  | Codex =>
      (if has_codex_config_override args ($"prefer_websockets") then []
       else [$"-c"; $"prefer_websockets=false"])
      ++ (if has_codex_feature_override args ($"responses_websockets") then []
          else [$"--disable"; $"responses_websockets"])
      ++ (if has_codex_feature_override args ($"responses_websockets_v2") then []
          else [$"--disable"; $"responses_websockets_v2"])
      ++ args
  | Claude | Pi => args
  end.
Definition child_args (p : ProviderKind) (args : list rstr) : list rstr := child_args_for_proxy p args.

(** ** The environment *)

Definition environment : Type := gmap rstr rstr.

(** [env::var(name).ok().filter(...)] with a value that is not blank. *)
Definition env_value (env : environment) (name : rstr) : option rstr :=
  match env !! name with
  | Some value => if bool_decide (str_trim value = []) then None else Some value
  | None => None
  end.

Definition capture_names : list rstr :=
  [$"HOME"; $"LOGNAME"; $"PWD"; $"SHELL"; $"TERM"; $"USER"; $"OPENAI_BASE_URL"; $"OPENAI_API_BASE";
   $"ANTHROPIC_BASE_URL"; $"ANTHROPIC_API_URL"; $"ANTHROPIC_API_BASE"; $"CLAUDE_BASE_URL";
   $"CLAUDE_API_BASE"; $"CLAUDE_CODE_BASE_URL"].
Definition capture_env_allowlist (env : environment) : environment :=
  foldl (λ out name, match env_value env name with
                     | Some value => <[name := value]> out
                     | None => out
                     end) ∅ capture_names.

Definition upstream_base_env_names (p : ProviderKind) : list rstr :=
  match p with
  | Codex => [$"OPENAI_BASE_URL"; $"OPENAI_API_BASE"]
  | Claude => [$"ANTHROPIC_BASE_URL"; $"ANTHROPIC_API_URL"; $"ANTHROPIC_API_BASE";
               $"CLAUDE_BASE_URL"; $"CLAUDE_API_BASE"; $"CLAUDE_CODE_BASE_URL"]
  | Pi => [$"OPENAI_BASE_URL"; $"OPENAI_API_BASE"; $"ANTHROPIC_BASE_URL"; $"ANTHROPIC_API_URL";
           $"ANTHROPIC_API_BASE"]
  end.
End args.

(** ** URLs *)

(** [url::Url]: parsing, the parts that are read, and changing a part. *)
Class UrlLib : Type := {
  Url : Type;
  url_parse : rstr → option Url;
  url_text : Url → rstr;
  url_scheme : Url → rstr;
  url_origin : Url → rstr;
  url_path : Url → rstr;
  url_set_path : rstr → Url → Url;
  url_set_query : option rstr → Url → Url;
  url_set_scheme : rstr → Url → option Url
}.

(** A request target: [uri.path()] and [uri.query()]. *)
Record Uri : Type := mkUri { uri_path : rstr; uri_query : option rstr }.

Inductive RouteError : Type :=
| NoMount (path mount_path : rstr)
| DualProtocolOnly
| NoPrefix (path : rstr)
| BadUrl
| BadScheme (scheme : rstr).

Definition slash : Byte.byte := Byte.x2f.

Definition normalize_path (path : rstr) : rstr :=
  match trim_end_byte slash path with
  | [] => [slash]
  | (b :: _) as trimmed => if bool_decide (b = slash) then trimmed else slash :: trimmed
  end.

Definition strip_mount_path (path mount_path : rstr) : option rstr :=
  if bool_decide (mount_path = [slash]) then Some path
  else match strip_prefix path mount_path with
       | None => None
       | Some [] => Some [slash]
       | Some ((b :: _) as suffix) => Some (if bool_decide (b = slash) then suffix else slash :: suffix)
       end.

Section urls.
Context `{Unicode} `{UrlLib}.

Definition resolve_upstream_base_for_env (env : environment) (env_names : list rstr) (default : rstr)
    : result RouteError Url :=
  ok_or BadUrl (url_parse (from_option id default (head (omap (env_value env) env_names)))).

Definition resolve_upstream_base (p : ProviderKind) (env : environment) : result RouteError Url :=
  match p with
  | Codex => resolve_upstream_base_for_env env (upstream_base_env_names p) ($"https://api.openai.com/v1")
  | Claude => resolve_upstream_base_for_env env (upstream_base_env_names p) ($"https://api.anthropic.com")
  | Pi => Err DualProtocolOnly
  end.

Definition injected_env (p : ProviderKind) (proxy_base_url : Url) : list (rstr * rstr) :=
  match p with
  | Codex =>
      let value := trim_end_byte slash (url_text proxy_base_url) in
      [($"OPENAI_BASE_URL", value); ($"OPENAI_API_BASE", value);
       ($"CXTX_OPENAI_BASE_URL", value); ($"CXTX_OPENAI_API_BASE", value)]
  | Claude =>
      let root := url_origin proxy_base_url in
      map (λ name, (name, root)) (upstream_base_env_names Claude)
  | Pi =>
      let root := url_origin proxy_base_url in
      let openai_base := root ++ $"/openai/v1" in
      let anthropic_base := root ++ $"/anthropic" in
      [($"OPENAI_BASE_URL", openai_base); ($"OPENAI_API_BASE", openai_base);
       ($"ANTHROPIC_BASE_URL", anthropic_base); ($"ANTHROPIC_API_URL", anthropic_base);
       ($"ANTHROPIC_API_BASE", anthropic_base)]
  end.

Definition proxy_mount_path (p : ProviderKind) (upstream_base : Url) : rstr :=
  match p with
  | Codex => normalize_path (url_path upstream_base)
  | Claude | Pi => [slash]
  end.

Definition final_path (base path : rstr) : rstr :=
  let base_path := trim_end_byte slash base in
  let extra_path := trim_start_byte slash path in
  match base_path, extra_path with
  | [], _ => slash :: extra_path
  | _, [] => base_path
  | _, _ => base_path ++ slash :: extra_path
  end.
Definition join_url (base : Url) (path : rstr) (query : option rstr) : Url :=
  url_set_query query (url_set_path (final_path (url_path base) path) base).

Definition build_upstream_url (p : ProviderKind) (upstream_base : Url) (uri : Uri)
    : result RouteError Url :=
  let path := uri_path uri in
  let mount_path := proxy_mount_path p upstream_base in
  relative_path ← match p with
                  | Codex => ok_or (NoMount path mount_path) (strip_mount_path path mount_path)
                  | Claude => Ok path
                  | Pi => Err DualProtocolOnly
                  end;
  Ok (join_url upstream_base relative_path (uri_query uri)).

(** ** Routes of the proxy *)

Inductive UpstreamConfig : Type :=
| Single (upstream_base : Url)
| DualProtocol (openai_upstream anthropic_upstream : Url).

Definition rebase_url (upstream : Url) (path : rstr) (query : option rstr) : Url :=
  url_set_query query (url_set_path path upstream).

(** [resolve_route]: the protocol and the URL of a request. A provider has the configuration that
    [run] builds for it, [DualProtocol] for Pi and [Single] for the others. *)
Definition resolve_route (p : ProviderKind) (upstream : UpstreamConfig) (uri : Uri)
    : result RouteError (ProtocolKind * Url) :=
  match upstream with
  | Single upstream_base =>
      url ← build_upstream_url p upstream_base uri;
      match p with
      | Codex => Ok (OpenAi, url)
      | Claude => Ok (Anthropic, url)
      | Pi => Err DualProtocolOnly
      end
  | DualProtocol openai_upstream anthropic_upstream =>
      let path := uri_path uri in
      let rest suffix := match suffix with [] => [slash] | _ => suffix end in
      match strip_prefix path ($"/openai") with
      | Some suffix => Ok (OpenAi, rebase_url openai_upstream (rest suffix) (uri_query uri))
      | None =>
          match strip_prefix path ($"/anthropic") with
          | Some suffix => Ok (Anthropic, rebase_url anthropic_upstream (rest suffix) (uri_query uri))
          | None => Err (NoPrefix path)
          end
      end
  end.

Definition compute_proxy_base_url (p : ProviderKind) (upstream : UpstreamConfig) (addr : rstr)
    : result RouteError Url :=
  url ← ok_or BadUrl (url_parse ($"http://" ++ addr));
  Ok match upstream with
     | Single upstream_base => url_set_path (proxy_mount_path p upstream_base) url
     | DualProtocol _ _ => url
     end.

Definition websocket_upstream_url (url : Url) : result RouteError Url :=
  let scheme := url_scheme url in
  if bool_decide (scheme = $"http") then ok_or BadUrl (url_set_scheme ($"ws") url)
  else if bool_decide (scheme = $"https") then ok_or BadUrl (url_set_scheme ($"wss") url)
  else if bool_decide (scheme = $"ws" ∨ scheme = $"wss") then Ok url
  else Err (BadScheme scheme).

End urls.
