(* ===== verification/CxtxTurns.v ===== *)
(** * CxtxTurns: the turns that the proxy records

    [cxtx/src/turns.rs]: what is observed of the traffic as items of a conversation. The clock,
    the process and the texts of dates and of indented JSON are arguments or parameters. *)

From S2P Require Import Prelude Bytes External Json Conversation CxtxProvider.

Open Scope N_scope.

(** [serde_json::to_string_pretty], and the two texts of an instant: [serde] and
    [format("%Y-%m-%dT%H:%M:%SZ")]. Instants are milliseconds. *)
Class TurnText : Type := {
  json_pretty : json → rstr;
  date_json : Z → rstr;
  date_title : Z → rstr
}.

Record ToolCallRecord : Type := mkToolCallRecord {
  tr_call_id : rstr;
  tr_name : rstr;
  tr_args : rstr
}.
Definition tool_call_record (call_id name args : rstr) : ToolCallRecord :=
  mkToolCallRecord call_id name args.

Inductive HistoryItem : Type :=
| HUserInput (text : rstr) (files : list rstr)
| HAssistantTurn (text : rstr) (tool_calls : list ToolCallRecord) (model finish_reason : option rstr)
| HToolResult (call_id content : rstr) (is_error : bool).

#[export] Instance tool_call_record_eq_dec : EqDecision ToolCallRecord.
Proof. solve_decision. Defined.
#[export] Instance history_item_eq_dec : EqDecision HistoryItem.
Proof. solve_decision. Defined.

Record ArtifactRefs : Type := mkArtifactRefs {
  ar_request_path : option rstr;
  ar_response_path : option rstr;
  ar_stream_path : option rstr
}.
Definition no_artifacts : ArtifactRefs := mkArtifactRefs None None None.
Definition with_request_path (path : option rstr) (refs : ArtifactRefs) : ArtifactRefs :=
  mkArtifactRefs path (ar_response_path refs) (ar_stream_path refs).
Definition with_response_path (path : option rstr) (refs : ArtifactRefs) : ArtifactRefs :=
  mkArtifactRefs (ar_request_path refs) path (ar_stream_path refs).
Definition with_stream_path (path : option rstr) (refs : ArtifactRefs) : ArtifactRefs :=
  mkArtifactRefs (ar_request_path refs) (ar_response_path refs) path.

Record TurnEnvelope : Type := mkTurnEnvelope {
  te_ordinal : N;
  te_item : ConversationItem
}.

(** [session.rs]: [CapturedSession], which items mention. *)
Record CapturedSession : Type := mkCapturedSession {
  cs_session_id : rstr;
  cs_provider_kind : rstr;
  cs_child_command : rstr;
  cs_child_args : list rstr;
  cs_started_at : Z
}.

Section turns.
Context `{TurnText} (wrapper_version : rstr).

Definition context_metadata (p : ProviderKind) (session : CapturedSession) (ps : Process) (now : Z)
    (allowlisted_env : environment) (extra_labels : list rstr) : ContextMetadata :=
  let custom : gmap rstr rstr :=
    <[$"wrapper_version" := wrapper_version]>
      (<[$"wrapper_command" := cs_child_command session]>
        (<[$"provider_kind" := provider_name p]>
          {[$"stable_session_id" := cs_session_id session]})) in
  let owner := match ps_env ps !! $"USER" with
               | Some user => user
               | None => default ($"unknown") (ps_env ps !! $"LOGNAME")
               end in
  let provenance :=
    capture_process_provenance ps now ($"cxtx") wrapper_version
      [with_on_behalf_of owner ($"cli") [];
       with_env_vars (Some (map fst (map_to_list allowlisted_env)));
       with_sdk ($"cxtx") wrapper_version] in
  attach_provenance
    (mkContextMetadata (client_tag p)
       (client_tag p ++ $" " ++ cs_child_command session ++ $" " ++ date_title (cs_started_at session))
       (labels p ++ extra_labels) custom None)
    provenance.

Definition turn_id (session_id : rstr) (ordinal : N) (exchange_id : rstr) : rstr :=
  session_id ++ $":" ++ show_N ordinal ++ $":" ++ exchange_id.

Definition pretty_json (value : json) : rstr := json_pretty value.

Definition system_item (session : CapturedSession) (ordinal : N) (exchange_id kind title : rstr)
    (payload : json) (now : Z) : ConversationItem :=
  with_id (turn_id (cs_session_id session) ordinal exchange_id)
    (with_title title (build_system kind (pretty_json payload) now)).

(** [json!] of an optional value, and of [ArtifactRefs]. *)
Definition json_artifacts (refs : ArtifactRefs) : json :=
  object (opt_entry ($"request_path") JString (ar_request_path refs)
          ++ opt_entry ($"response_path") JString (ar_response_path refs)
          ++ opt_entry ($"stream_path") JString (ar_stream_path refs)).

Definition session_start_item (session : CapturedSession) (p : ProviderKind) (ordinal : N)
    (child_pid : option N) (metadata : ContextMetadata) (now : Z) : ConversationItem :=
  let payload := object [
    ($"stable_session_id", JString (cs_session_id session));
    ($"provider_kind", JString (provider_name p));
    ($"child_command", JString (cs_child_command session));
    ($"child_args", json_strings (cs_child_args session));
    ($"child_pid", json_opt json_nat child_pid);
    ($"started_at", JString (date_json (cs_started_at session)))] in
  with_context_metadata metadata
    (system_item session ordinal ($"wrapper-session-start") SystemKindInfo ($"session_start") payload now).

Definition session_end_item (session : CapturedSession) (ordinal : N) (exit_code : Z) (success : bool)
    (now : Z) : ConversationItem :=
  system_item session ordinal ($"wrapper-session-end")
    (if success then SystemKindInfo else SystemKindError) ($"session_end")
    (object [($"stable_session_id", JString (cs_session_id session));
             ($"child_exit_code", json_i64 exit_code);
             ($"success", JBool success)]) now.

Definition ingest_state_item (session : CapturedSession) (ordinal : N) (title kind : rstr)
    (queue_depth : N) (error : option rstr) (now : Z) : ConversationItem :=
  let exchange_id := if bool_decide (title = $"ingest_degraded") then $"wrapper-ingest-degraded"
                     else $"wrapper-ingest-recovered" in
  system_item session ordinal exchange_id kind title
    (object [($"stable_session_id", JString (cs_session_id session));
             ($"queue_depth", json_nat queue_depth);
             ($"error", json_opt JString error)]) now.

Definition rewrite_item (session : CapturedSession) (ordinal : N) (exchange_id : rstr)
    (previous_len new_len : N) (artifact_refs : ArtifactRefs) (now : Z) : ConversationItem :=
  system_item session ordinal exchange_id SystemKindRewind ($"history_rewrite_detected")
    (object [($"stable_session_id", JString (cs_session_id session));
             ($"previous_history_len", json_nat previous_len);
             ($"new_history_len", json_nat new_len);
             ($"artifacts", json_artifacts artifact_refs)]) now.

Definition provider_error_item (session : CapturedSession) (ordinal : N) (exchange_id title message : rstr)
    (provider_request_id : option rstr) (artifact_refs : ArtifactRefs) (now : Z) : ConversationItem :=
  system_item session ordinal exchange_id SystemKindError title
    (object [($"stable_session_id", JString (cs_session_id session));
             ($"message", JString message);
             ($"provider_request_id", json_opt JString provider_request_id);
             ($"artifacts", json_artifacts artifact_refs)]) now.

(** [.filter(|s| !s.is_empty())]. *)
Definition non_empty (o : option rstr) : option rstr :=
  match o with Some [] => None | _ => o end.

Definition pending_tool_call (tool_call : ToolCallRecord) : ToolCallItem :=
  tool_with_status ToolCallStatusPending
    (build_tool_call_item (tr_call_id tool_call) (tr_name tool_call) (tr_args tool_call)).

Definition history_item_to_conversation_item (session : CapturedSession) (ordinal : N)
    (exchange_id : rstr) (item : HistoryItem) (now : Z) : ConversationItem :=
  let id := turn_id (cs_session_id session) ordinal exchange_id in
  match item with
  | HUserInput text files => with_id id (new_user_input text files now)
  | HAssistantTurn text tool_calls model finish_reason =>
      let builder := build_assistant_turn text now in
      let builder := foldl (λ b tool_call, with_tool_call (pending_tool_call tool_call) b)
                       builder tool_calls in
      let builder := match non_empty finish_reason with
                     | Some reason => with_finish_reason reason builder
                     | None => builder
                     end in
      let builder := match non_empty model with
                     | Some model => with_full_metrics (mkTurnMetrics 0 0 0 None None None model) builder
                     | None => builder
                     end in
      with_id id builder
  | HToolResult call_id content is_error =>
      let builder := build_tool_result call_id content now in
      with_id id (if is_error then with_error builder else builder)
  end.

End turns.
