(* ===== verification/CxtxSession.v ===== *)
(** * CxtxSession: the session of the proxy

    [cxtx/src/session.rs]: the ordinals of turns and exchanges, and the history of the
    conversation as the provider saw it last, which the next request is compared with. Each
    operation holds the lock of [MutableState]: it is a function on that state, and the clock does
    not advance in it. *)

From S2P Require Import Prelude Bytes External Json Conversation CxtxProvider CxtxTurns.

Open Scope N_scope.

(** [SessionRuntimeInner] without its mutable parts. *)
Record Session : Type := mkSession {
  ss_session : CapturedSession;
  ss_provider : ProviderKind;
  ss_metadata : ContextMetadata
}.

(** [MutableState], with the process id of the child, 0 while it is not known. *)
Record SessionState : Type := mkSessionState {
  st_next_turn_ordinal : N;
  st_next_exchange_ordinal : N;
  st_observed_history : list HistoryItem;
  st_child_pid : N
}.
Definition session_state_new : SessionState := mkSessionState 0 0 [] 0.

Definition set_history (history : list HistoryItem) (st : SessionState) : SessionState :=
  mkSessionState (st_next_turn_ordinal st) (st_next_exchange_ordinal st) history (st_child_pid st).

(** [format!("exchange-{:04}", n)]. *)
Definition show_padded (width : nat) (n : N) : rstr :=
  replicate (width - length (show_N n)) Byte.x30 ++ show_N n.

Definition next_exchange_id (st : SessionState) : rstr * SessionState :=
  let n := wrap64 (st_next_exchange_ordinal st + 1) in
  ($"exchange-" ++ show_padded 4 n,
   mkSessionState (st_next_turn_ordinal st) n (st_observed_history st) (st_child_pid st)).

Definition next_turn_ordinal (st : SessionState) : N * SessionState :=
  let n := wrap64 (st_next_turn_ordinal st + 1) in
  (n, mkSessionState n (st_next_exchange_ordinal st) (st_observed_history st) (st_child_pid st)).

Definition set_child_pid (pid : option N) (st : SessionState) : SessionState :=
  mkSessionState (st_next_turn_ordinal st) (st_next_exchange_ordinal st) (st_observed_history st)
    (default 0 pid).
Definition child_pid (st : SessionState) : option N :=
  if st_child_pid st =? 0 then None else Some (st_child_pid st).

Fixpoint common_prefix_len (xs ys : list HistoryItem) : nat :=
  match xs, ys with
  | x :: xs, y :: ys => if decide (x = y) then S (common_prefix_len xs ys) else O
  | _, _ => O
  end.

Definition normalize_history_item (item : HistoryItem) : HistoryItem :=
  match item with
  | HAssistantTurn text tool_calls _ _ => HAssistantTurn text tool_calls None None
  | _ => item
  end.

Section session.
Context `{TurnText} (s : Session).

Definition session_runtime_new (wrapper_version : rstr) (p : ProviderKind) (session_id : rstr)
    (child_args : list rstr) (ps : Process) (now : Z) (allowlisted_env : environment)
    (extra_labels : list rstr) : Session :=
  let session := mkCapturedSession session_id (provider_name p) (command_name p) child_args now in
  mkSession session p (context_metadata wrapper_version p session ps now allowlisted_env extra_labels).

(** A turn with the next ordinal. *)
Definition envelope (item : N → ConversationItem) (st : SessionState) : TurnEnvelope * SessionState :=
  let '(ordinal, st) := next_turn_ordinal st in (mkTurnEnvelope ordinal (item ordinal), st).

Definition session_start_turn (now : Z) (st : SessionState) : TurnEnvelope * SessionState :=
  envelope (λ ordinal, session_start_item (ss_session s) (ss_provider s) ordinal (child_pid st)
                         (ss_metadata s) now) st.
Definition session_end_turn (exit_code : Z) (success : bool) (now : Z) (st : SessionState)
    : TurnEnvelope * SessionState :=
  envelope (λ ordinal, session_end_item (ss_session s) ordinal exit_code success now) st.
Definition ingest_degraded_turn (queue_depth : N) (error : rstr) (now : Z) (st : SessionState)
    : TurnEnvelope * SessionState :=
  envelope (λ ordinal, ingest_state_item (ss_session s) ordinal ($"ingest_degraded")
                         SystemKindWarning queue_depth (Some error) now) st.
Definition ingest_recovered_turn (queue_depth : N) (now : Z) (st : SessionState)
    : TurnEnvelope * SessionState :=
  envelope (λ ordinal, ingest_state_item (ss_session s) ordinal ($"ingest_recovered")
                         SystemKindInfo queue_depth None now) st.
Definition provider_error_turn (exchange_id title message : rstr) (provider_request_id : option rstr)
    (artifact_refs : ArtifactRefs) (now : Z) (st : SessionState) : TurnEnvelope * SessionState :=
  envelope (λ ordinal, provider_error_item (ss_session s) ordinal exchange_id title message
                         provider_request_id artifact_refs now) st.

(** The turns of the items of a history, one after the other. *)
Fixpoint history_turns (exchange_id : rstr) (items : list HistoryItem) (now : Z) (st : SessionState)
    : list TurnEnvelope * SessionState :=
  match items with
  | [] => ([], st)
  | item :: items =>
      let '(turn, st) :=
        envelope (λ ordinal, history_item_to_conversation_item (ss_session s) ordinal exchange_id
                               item now) st in
      let '(turns, st) := history_turns exchange_id items now st in
      (turn :: turns, st)
  end.

Definition observe_request_history (exchange_id : rstr) (history : list HistoryItem)
    (artifact_refs : ArtifactRefs) (now : Z) (st : SessionState) : list TurnEnvelope * SessionState :=
  let previous := st_observed_history st in
  let normalized_history := map normalize_history_item history in
  let prefix_len := common_prefix_len previous normalized_history in
  let '(rewrites, st) :=
    if (prefix_len <? length previous)%nat then
      let '(turn, st) :=
        envelope (λ ordinal, rewrite_item (ss_session s) ordinal exchange_id (len previous)
                               (len history) artifact_refs now) st in
      ([turn], st)
    else ([], st) in
  let '(turns, st) := history_turns exchange_id (drop prefix_len history) now st in
  (rewrites ++ turns, set_history normalized_history st).

Definition append_history_item (exchange_id : rstr) (item : HistoryItem) (now : Z) (st : SessionState)
    : TurnEnvelope * SessionState :=
  let '(turn, st) :=
    envelope (λ ordinal, history_item_to_conversation_item (ss_session s) ordinal exchange_id item
                           now) st in
  (turn, set_history (st_observed_history st ++ [normalize_history_item item]) st).

End session.
