(* ===== verification/CxtxSse.v ===== *)
(** * CxtxSse: frames of a provider's event stream

    [parse_sse_buffer] and [parse_block] of [cxtx/src/provider/openai.rs]: the complete frames at the
    beginning of a buffer that grows with the stream, and what stays in the buffer. *)

From S2P Require Import Prelude Bytes External CxtxProvider.

Open Scope N_scope.

Record SseFrame : Type := mkSseFrame {
  sf_event : option rstr;
  sf_data : rstr;
  sf_raw : rstr
}.

Definition nl : Byte.byte := Byte.x0a.
Definition cr : Byte.byte := Byte.x0d.

(** [s.replace("\r\n", "\n")]. *)
Fixpoint replace_crlf (s : rstr) : rstr :=
  match s with
  | x :: (y :: rest) as s' =>
      if bool_decide (x = cr ∧ y = nl) then nl :: replace_crlf rest else x :: replace_crlf s'
  | _ => s
  end.

(** The first item of [split_inclusive("\n\n")] if it ends with the separator, and the rest. *)
Fixpoint take_block (s : rstr) : option (rstr * rstr) :=
  match s with
  | x :: (y :: rest) as s' =>
      if bool_decide (x = nl ∧ y = nl) then Some ([x; y], rest)
      else match take_block s' with
           | Some (block, rest) => Some (x :: block, rest)
           | None => None
           end
  | _ => None
  end.

(** [str::lines]: a line ends with a line feed, and a carriage return before it is not part of it. *)
Definition strip_cr (line : rstr) : rstr :=
  match rev line with
  | b :: r => if bool_decide (b = cr) then rev r else line
  | [] => line
  end.
Fixpoint lines_from (line s : rstr) : list rstr :=
  match s with
  | [] => match line with [] => [] | _ => [line] end
  | b :: s => if bool_decide (b = nl) then strip_cr line :: lines_from [] s
              else lines_from (line ++ [b]) s
  end.
Definition str_lines (s : rstr) : list rstr := lines_from [] s.

Section sse.
Context `{Unicode}.

(** One line of a block. *)
Definition block_line (acc : option rstr * list rstr) (line : rstr) : option rstr * list rstr :=
  let '(event, data_lines) := acc in
  match strip_prefix line ($"event:") with
  | Some value => (Some (str_trim value), data_lines)
  | None =>
      match strip_prefix line ($"data:") with
      | Some value => (event, data_lines ++ [str_trim_start value])
      | None => (event, data_lines)
      end
  end.

Definition parse_block (block : rstr) : option SseFrame :=
  let '(event, data_lines) := foldl block_line (None, []) (str_lines block) in
  match data_lines with
  | [] => None
  | _ => Some (mkSseFrame event (str_join [nl] data_lines) block)
  end.

(** The loop over the blocks: frames, and the unconsumed rest. *)
Fixpoint parse_blocks (fuel : nat) (s : rstr) : list SseFrame * rstr :=
  match fuel with
  | O => ([], s)
  | S fuel =>
      match take_block s with
      | None => ([], s)
      | Some (block, rest) =>
          let '(frames, remaining) := parse_blocks fuel rest in
          (option_list (parse_block (trim_end_byte nl block)) ++ frames, remaining)
      end
  end.

Definition parse_sse_buffer (buffer : rstr) : list SseFrame * rstr :=
  let normalized := replace_crlf buffer in parse_blocks (length normalized) normalized.

End sse.

(** ** Frames do not depend on how a stream is cut

    A provider's event stream arrives in chunks of any size. The frames that the proxy finds are
    those of the whole stream, and what is left over is the same, unless carriage returns are
    doubled. *)

(** ** Line ends *)

Lemma replace_crlf_cons x s : x ≠ cr → replace_crlf (x :: s) = x :: replace_crlf s.
Proof. intros Hx. destruct s as [|y s]; [done|]. cbn. by rewrite bool_decide_false by tauto. Qed.
Lemma replace_crlf_cr y s : y ≠ nl → replace_crlf (cr :: y :: s) = cr :: replace_crlf (y :: s).
Proof. intros Hy. cbn. by rewrite bool_decide_false by tauto. Qed.

(** Induction on two bytes at a time. *)
Lemma bytes_ind2 (P : rstr → Prop) :
  P [] → (∀ x, P [x]) → (∀ x y s, P s → P (y :: s) → P (x :: y :: s)) → ∀ s, P s.
Proof.
  intros H0 H1 H2 s. assert (H : P s ∧ ∀ x, P (x :: s)); [|apply H].
  induction s as [|y s [IH1 IH2]]; [by split|]. split; [apply IH2|]. intros x. by apply H2.
Qed.

(** No carriage return before another one. *)
Fixpoint no_double_cr (s : rstr) : Prop :=
  match s with
  | x :: (y :: _) as s' => ¬ (x = cr ∧ y = cr) ∧ no_double_cr s'
  | _ => True
  end.
Lemma no_double_cr_tail x s : no_double_cr (x :: s) → no_double_cr s.
Proof. destruct s as [|y s]; [done|]. by intros [_ ?]. Qed.

Lemma cr_nl_or (x y : Byte.byte) : {x = cr ∧ y = nl} + {x ≠ cr} + {x = cr ∧ y ≠ nl}.
Proof. destruct (decide (x = cr)); [|auto]. destruct (decide (y = nl)); auto. Defined.

(** Replacing the line ends of a part first changes nothing. *)
Lemma replace_crlf_app a c :
  no_double_cr (a ++ c) → replace_crlf (a ++ c) = replace_crlf (replace_crlf a ++ c).
Proof.
  induction a as [|x|x y a IH1 IH2] using bytes_ind2; [done..|]. intros Hn.
  destruct (cr_nl_or x y) as [[[-> ->]|Hx]|[-> Hy]].
  - cbn [app]. change (replace_crlf (cr :: nl :: a)) with (nl :: replace_crlf a).
    change (replace_crlf (cr :: nl :: a ++ c)) with (nl :: replace_crlf (a ++ c)).
    rewrite IH1 by exact (no_double_cr_tail _ _ (no_double_cr_tail _ _ Hn)). cbn [app]. by rewrite replace_crlf_cons.
  - rewrite (replace_crlf_cons x) by done. cbn [app]. rewrite !(replace_crlf_cons x) by done. f_equal.
    apply IH2. by eapply no_double_cr_tail.
  - assert (Hcr : y ≠ cr) by (intros ->; destruct Hn; tauto).
    cbn [app]. rewrite !replace_crlf_cr by done. cbn [app]. rewrite (replace_crlf_cons y a) by done.
    cbn [app]. rewrite replace_crlf_cr by done. f_equal.
    change (y :: replace_crlf a ++ c) with ((y :: replace_crlf a) ++ c).
    rewrite <- (replace_crlf_cons y a) by done. apply IH2. by eapply no_double_cr_tail.
Qed.

Lemma replace_crlf_idem a : no_double_cr a → replace_crlf (replace_crlf a) = replace_crlf a.
Proof. intros Hn. pose proof (replace_crlf_app a []) as H. rewrite !app_nil_r in H. by rewrite <- H. Qed.

(** Behind a line feed replacing starts again. *)
Lemma replace_crlf_after_nl x y : replace_crlf ((x ++ [nl]) ++ y) = replace_crlf (x ++ [nl]) ++ replace_crlf y.
Proof.
  induction x as [|b|b b' x IH1 IH2] using bytes_ind2.
  - cbn [app]. by rewrite replace_crlf_cons.
  - cbn [app]. destruct (cr_nl_or b nl) as [[[-> _]|Hb]|[-> H]]; [done| |done].
    by rewrite !replace_crlf_cons.
  - cbn [app] in *. destruct (cr_nl_or b b') as [[[-> ->]|Hb]|[-> Hb']].
    + change (nl :: replace_crlf ((x ++ [nl]) ++ y) = (nl :: replace_crlf (x ++ [nl])) ++ replace_crlf y).
      by rewrite IH1.
    + rewrite !(replace_crlf_cons b) by done. by rewrite IH2.
    + rewrite !(replace_crlf_cr b') by done. by rewrite IH2.
Qed.
Lemma replace_crlf_length a : (length (replace_crlf a) ≤ length a)%nat.
Proof.
  induction a as [|x|x y a IH1 IH2] using bytes_ind2; [done..|].
  destruct (cr_nl_or x y) as [[[-> ->]|Hx]|[-> Hy]].
  - change (replace_crlf (cr :: nl :: a)) with (nl :: replace_crlf a). cbn. lia.
  - rewrite replace_crlf_cons by done. cbn in *. lia.
  - rewrite replace_crlf_cr by done. cbn in *. lia.
Qed.

(** A part before a line feed that has been replaced stays as it is. *)
Lemma replace_crlf_prefix x y a :
  no_double_cr a → replace_crlf a = (x ++ [nl]) ++ y → replace_crlf (x ++ [nl]) = x ++ [nl].
Proof.
  intros Hn Heq. pose proof (replace_crlf_idem _ Hn) as Hi. rewrite Heq, replace_crlf_after_nl in Hi.
  pose proof (replace_crlf_length (x ++ [nl])) as H1. pose proof (replace_crlf_length y) as H2.
  pose proof (f_equal length Hi) as Hl. rewrite !(length_app _ y), length_app in Hl || rewrite !length_app in Hl.
  apply app_inj_1 in Hi as [? _]; [done|]. rewrite ?length_app in *. cbn in *. lia.
Qed.

(** ** Blocks *)

Lemma take_block_cons x y s :
  take_block (x :: y :: s) =
  if bool_decide (x = nl ∧ y = nl) then Some ([x; y], s)
  else match take_block (y :: s) with Some (block, rest) => Some (x :: block, rest) | None => None end.
Proof. done. Qed.
Lemma take_block_app s c block rest :
  take_block s = Some (block, rest) → take_block (s ++ c) = Some (block, rest ++ c).
Proof.
  revert block. induction s as [|x s IH]; intros block; [done|]. destruct s as [|y s]; [done|].
  cbn [app]. rewrite !take_block_cons. case_bool_decide; [by intros [= <- <-]|].
  change (y :: s ++ c) with ((y :: s) ++ c).
  destruct (take_block (y :: s)) as [[block' rest']|]; [|done].
  intros [= <- <-]. by rewrite (IH _ eq_refl).
Qed.

(** A block is what stands before the rest, and ends with a line feed. *)
Lemma take_block_split s block rest :
  take_block s = Some (block, rest) → s = block ++ rest ∧ ∃ x, block = x ++ [nl].
Proof.
  revert block. induction s as [|x s IH]; intros block; [done|]. destruct s as [|y s]; [done|].
  rewrite take_block_cons. case_bool_decide as Hb.
  { destruct Hb as [-> ->]. intros [= <- <-]. split; [done|]. by exists [nl]. }
  destruct (take_block (y :: s)) as [[block' rest']|]; [|done].
  intros [= <- <-]. destruct (IH _ eq_refl) as [-> [z ->]]. split; [done|]. by exists (x :: z).
Qed.
Lemma take_block_alone s block rest c :
  take_block s = Some (block, rest) → take_block (block ++ c) = Some (block, c).
Proof.
  revert block. induction s as [|x s IH]; intros block; [done|]. destruct s as [|y s]; [done|].
  rewrite take_block_cons. case_bool_decide as Hb.
  { destruct Hb as [-> ->]. by intros [= <- <-]. }
  destruct (take_block (y :: s)) as [[block' rest']|] eqn:Ht; [|done]. intros [= <- <-].
  specialize (IH _ eq_refl). pose proof Ht as [Heq [z' Hz]]%take_block_split.
  destruct block' as [|z block']; [by destruct z'|]. injection Heq as <- _.
  cbn [app] in *. by rewrite take_block_cons, bool_decide_false, IH.
Qed.
Lemma take_block_length s block rest : take_block s = Some (block, rest) → (length rest < length s)%nat.
Proof.
  intros [-> [x ->]]%take_block_split. rewrite !length_app. cbn. lia.
Qed.

Section spec.
Context `{Unicode}.

(** More fuel than bytes does not matter. *)
Lemma parse_blocks_fuel fuel s : (length s ≤ fuel)%nat → parse_blocks fuel s = parse_blocks (length s) s.
Proof.
  assert (Hgen : ∀ n m s, (length s ≤ n)%nat → (length s ≤ m)%nat → parse_blocks n s = parse_blocks m s).
  { clear. intros n. induction n as [|n IH]; intros m s Hn Hm.
    - destruct s; [|cbn in Hn; lia]. by destruct m.
    - destruct m as [|m]; [destruct s; [done|cbn in Hm; lia]|]. cbn [parse_blocks].
      destruct (take_block s) as [[block rest]|] eqn:Ht; [|done].
      apply take_block_length in Ht. rewrite (IH m); [done|lia..]. }
  intros Hf. by apply Hgen.
Qed.

Definition blocks (s : rstr) : list SseFrame * rstr := parse_blocks (length s) s.
Lemma blocks_eq s :
  blocks s = match take_block s with
             | None => ([], s)
             | Some (block, rest) =>
                 let '(frames, remaining) := blocks rest in
                 (option_list (parse_block (trim_end_byte nl block)) ++ frames, remaining)
             end.
Proof.
  unfold blocks. destruct (length s) as [|n] eqn:Hn.
  - by destruct s.
  - cbn [parse_blocks]. destruct (take_block s) as [[block rest]|] eqn:Ht; [|done].
    apply take_block_length in Ht. rewrite (parse_blocks_fuel n); [done|lia].
Qed.

(** The blocks of a longer text are those of its beginning and those of what is left over. *)
Lemma blocks_app s c frames rest :
  blocks s = (frames, rest) →
  blocks (s ++ c) = (let '(frames', rest') := blocks (rest ++ c) in (frames ++ frames', rest')).
Proof.
  revert frames. induction s as [s IH] using (induction_ltof1 _ (@length Byte.byte)); intros frames.
  rewrite (blocks_eq s). destruct (take_block s) as [[block rest0]|] eqn:Ht.
  - destruct (blocks rest0) as [frames0 remaining] eqn:Hb. intros [= <- <-].
    rewrite (blocks_eq (s ++ c)), (take_block_app _ _ _ _ Ht).
    rewrite (IH rest0 ltac:(by apply take_block_length in Ht) _ Hb).
    destruct (blocks (remaining ++ c)). by rewrite <- app_assoc.
  - intros [= <- <-]. by destruct (blocks (s ++ c)).
Qed.

(** What was consumed is nothing or ends with a line feed, and is consumed whatever follows. *)
Lemma blocks_split s frames rest :
  blocks s = (frames, rest) →
  ∃ x, s = x ++ rest ∧ (x = [] ∨ ∃ x', x = x' ++ [nl])
    ∧ ∀ c, blocks (x ++ c) = (let '(frames', rest') := blocks c in (frames ++ frames', rest')).
Proof.
  revert frames. induction s as [s IH] using (induction_ltof1 _ (@length Byte.byte)); intros frames.
  rewrite (blocks_eq s). destruct (take_block s) as [[block rest0]|] eqn:Ht.
  - destruct (blocks rest0) as [frames0 remaining] eqn:Hb. intros [= <- <-].
    destruct (IH rest0 ltac:(by apply take_block_length in Ht) _ Hb) as (x & Heq & Hx & Hc).
    pose proof Ht as Ht'. apply take_block_split in Ht' as [Hs [z Hz]]. subst rest0.
    exists (block ++ x). split_and!; [by rewrite Hs, <- app_assoc| |].
    + right. destruct Hx as [->|[x' ->]]; [exists z; by rewrite app_nil_r|].
      exists (block ++ x'). by rewrite app_assoc.
    + intros c. rewrite blocks_eq.
      assert (Hblock : take_block ((block ++ x) ++ c) = Some (block, x ++ c)).
      { rewrite <- app_assoc. by eapply take_block_alone. }
      rewrite Hblock, Hc. destruct (blocks c). by rewrite <- app_assoc.
  - intros [= <- <-]. exists []. split_and!; [done|by left|]. intros c. cbn [app]. by destruct (blocks c).
Qed.

(** ** Streams *)

(** The loop of the proxy: every chunk is put behind what is left of the buffer, and the frames in
    it are taken. *)
Fixpoint feed (chunks : list rstr) (buffer : rstr) : list SseFrame * rstr :=
  match chunks with
  | [] => ([], buffer)
  | chunk :: chunks =>
      let '(frames, buffer) := parse_sse_buffer (buffer ++ chunk) in
      let '(frames', buffer) := feed chunks buffer in (frames ++ frames', buffer)
  end.

Lemma no_double_cr_app a b : no_double_cr (a ++ b) → no_double_cr a.
Proof.
  induction a as [|x|x y a _ IH] using bytes_ind2; [done..|]. intros [Hxy Hn]. split; [done|]. by apply IH.
Qed.

(** Parsing what is left over together with the next chunk continues the parse. *)
Lemma parse_sse_buffer_app a c frames rest :
  no_double_cr (a ++ c) → parse_sse_buffer a = (frames, rest) →
  parse_sse_buffer (a ++ c)
  = (let '(frames', rest') := parse_sse_buffer (rest ++ c) in (frames ++ frames', rest')).
Proof.
  intros Hn Ha. pose proof (no_double_cr_app _ _ Hn) as Hna.
  destruct (blocks_split _ _ _ Ha) as (x & Heq & Hx & Hc).
  change (parse_sse_buffer (rest ++ c)) with (blocks (replace_crlf (rest ++ c))). rewrite <- Hc.
  change (parse_sse_buffer (a ++ c)) with (blocks (replace_crlf (a ++ c))). f_equal.
  rewrite replace_crlf_app by done. rewrite Heq, <- app_assoc.
  destruct Hx as [->|[x' ->]]; [done|].
  by rewrite replace_crlf_after_nl, (replace_crlf_prefix _ _ _ Hna Heq).
Qed.

Lemma feed_spec chunks t frames buffer :
  no_double_cr (t ++ concat chunks) → parse_sse_buffer t = (frames, buffer) →
  parse_sse_buffer (t ++ concat chunks)
  = (let '(frames', rest) := feed chunks buffer in (frames ++ frames', rest)).
Proof.
  revert t frames buffer. induction chunks as [|c chunks IH]; intros t frames buffer Hn Ht; cbn [feed concat].
  { by rewrite !app_nil_r. }
  cbn [concat] in Hn. rewrite app_assoc in Hn |- *. pose proof (no_double_cr_app _ _ Hn) as Hnc.
  pose proof (parse_sse_buffer_app _ _ _ _ Hnc Ht) as Hp.
  destruct (parse_sse_buffer (buffer ++ c)) as [f1 b1].
  rewrite (IH _ _ _ Hn Hp). destruct (feed chunks b1). by rewrite app_assoc.
Qed.

(** C19. How a stream is cut into chunks does not matter: without doubled carriage returns, the
    frames that the proxy takes from chunk after chunk, and what it has left over at the end,
    are those of the whole stream parsed at once. *)
Theorem sse_chunking chunks :
  no_double_cr (concat chunks) → feed chunks [] = parse_sse_buffer (concat chunks).
Proof.
  intros Hn. pose proof (feed_spec chunks [] [] [] Hn eq_refl) as Hf. cbn [app] in Hf. rewrite Hf.
  by destruct (feed chunks []).
Qed.

End spec.

Module SseSample.
#[local] Existing Instance Sample.unicode.

(** A stream cut in the middle of a line end, of a field and of a blank line. *)
Definition chunks : list rstr :=
  [$"event: a" ++ [cr]; nl :: $"data: on"; $"e" ++ [nl; nl] ++ $"data: two" ++ [nl]; nl :: $"data: three"].

Example frames_of_chunks :
  (map (λ f, (sf_event f, sf_data f)) (feed chunks []).1, (feed chunks []).2)
  = ([(Some ($"a"), $"one"); (None, $"two")], $"data: three").
Proof. vm_compute. reflexivity. Qed.

Lemma sse_chunking_witness :
  no_double_cr (concat chunks) ∧ feed chunks [] = parse_sse_buffer (concat chunks).
Proof.
  assert (Hn : no_double_cr (concat chunks)) by (vm_compute; intuition congruence).
  split; [exact Hn|exact (sse_chunking chunks Hn)].
Defined.

(** With a doubled carriage return the cut matters: the line end is replaced twice. *)
Example doubled_carriage_return :
  let s := $"data: x" ++ [cr; cr; nl] in
  feed [s; [nl]] [] ≠ parse_sse_buffer (s ++ [nl]).
Proof. vm_compute. congruence. Qed.

End SseSample.
