(* ===== verification/CxtxOpenAi.v ===== *)
(** * CxtxOpenAi: what the proxy makes of the traffic of OpenAI

    [cxtx/src/provider/openai.rs]: the history in a request, the assistant's turn in a response
    body, and the same gathered from the frames of a stream, for both of the provider's APIs. *)

From S2P Require Import Prelude Bytes External Json JsonCodec Conversation CxtxProvider CxtxTurns.
From S2P Require Import CxtxSession CxtxSse.

Open Scope N_scope.

(** [value.get(key).and_then(Value::as_str)], and the same with arrays. *)
Definition get_str (value : json) (key : rstr) : option rstr := json_get value key ≫= as_str.
Definition get_array (value : json) (key : rstr) : option (list json) := json_get value key ≫= as_array.
(** [unwrap_or_default] of a string, and [unwrap_or(&Value::Null)]. *)
Definition or_empty (o : option rstr) : rstr := default [] o.
Definition get_or_null (value : json) (key : rstr) : json := default JNull (json_get value key).
(** [a.or_else(b)]. *)
Definition or_else {A} (a b : option A) : option A := match a with Some _ => a | None => b end.

(** [value.get("type").and_then(Value::as_str) == Some(ty)]. *)
Definition is_type (ty : rstr) (item : json) : Prop := get_str item ($"type") = Some ty.
#[export] Instance is_type_dec ty item : Decision (is_type ty item).
Proof. unfold is_type. solve_decision. Defined.

Record PartialToolCall : Type := mkPartialToolCall {
  pt_call_id : rstr;
  pt_name : rstr;
  pt_args : rstr
}.
Definition partial_default : PartialToolCall := mkPartialToolCall [] [] [].

Record OpenAiExchange : Type := mkOpenAiExchange {
  oe_exchange_id : rstr;
  oe_model : option rstr;
  oe_content : rstr;
  oe_tool_calls : list PartialToolCall;
  oe_finish_reason : option rstr;
  oe_parse_errors : list rstr
}.
Definition openai_new (exchange_id : rstr) (model : option rstr) : OpenAiExchange :=
  mkOpenAiExchange exchange_id model [] [] None [].

Section openai.
Context `{JsonText} `{Unicode}.

Definition jsonish_to_string (value : json) : rstr :=
  match value with JString s => s | _ => json_text value end.

(** The texts of a list that are not empty, one per line. *)
Definition join_texts (texts : list rstr) : rstr :=
  str_join [nl] (filter (λ text, text ≠ []) texts).

Fixpoint content_to_text (value : json) : rstr :=
  match value with
  | JNull => []
  | JString s => s
  | JArray l => join_texts (map content_to_text l)
  | JObject o =>
      match obj_get ($"text") o with
      | Some (JString text) => text
      | _ =>
          (fix content o' :=
             match o' with
             | [] => jsonish_to_string value
             | (key, v) :: o' =>
                 if bool_decide ($"content" = key) then content_to_text v else content o'
             end) o
      end
  | _ => jsonish_to_string value
  end.

(** ** Requests *)

Definition parse_tool_call (tool_call : json) : ToolCallRecord :=
  let function := json_get tool_call ($"function") in
  tool_call_record (or_empty (get_str tool_call ($"id")))
    (or_empty (function ≫= λ f, get_str f ($"name")))
    (or_empty (jsonish_to_string <$> (function ≫= λ f, json_get f ($"arguments")))).
Definition parse_tool_calls (value : option json) : list ToolCallRecord :=
  from_option (map parse_tool_call) [] (value ≫= as_array).

Definition user_item (message : json) : HistoryItem :=
  HUserInput (content_to_text (get_or_null message ($"content"))) [].
Definition tool_item (call_id : option json) (message : json) : HistoryItem :=
  HToolResult (or_empty (call_id ≫= as_str)) (content_to_text (get_or_null message ($"content"))) false.

Definition message_item (model : option rstr) (message : json) : result rstr (list HistoryItem) :=
  role ← ok_or ($"OpenAI request message missing role") (get_str message ($"role"));
  Ok (if bool_decide (role = $"user") then [user_item message]
      else if bool_decide (role = $"assistant") then
        [HAssistantTurn (content_to_text (get_or_null message ($"content")))
           (parse_tool_calls (json_get message ($"tool_calls"))) model None]
      else if bool_decide (role = $"tool") then [tool_item (json_get message ($"tool_call_id")) message]
      else []).
Definition parse_message_history (messages : list json) (model : option rstr)
    : result rstr (list HistoryItem) :=
  (λ ls, @concat HistoryItem ls) <$> try_map (message_item model) messages.

Definition bootstrap_prefixes : list rstr :=
  [$"# AGENTS.md instructions for "; $"<permissions instructions>"; $"<collaboration_mode>";
   $"<skills_instructions>"; $"<environment_context>"].
Definition is_bootstrap_input_item (item : json) : bool :=
  bool_decide (get_str item ($"type") = Some ($"message"))
  && bool_decide (get_str item ($"role") = Some ($"user"))
  && existsb (starts_with (str_trim_start (content_to_text (get_or_null item ($"content")))))
       bootstrap_prefixes.

(** What follows the last item of the developer, if there is one. *)
Fixpoint after_developer (input : list json) : option (list json) :=
  match input with
  | [] => None
  | item :: input =>
      match after_developer input with
      | Some rest => Some rest
      | None => if bool_decide (get_str item ($"role") = Some ($"developer")) then Some input else None
      end
  end.
Fixpoint skip_bootstrap (input : list json) : list json :=
  match input with
  | [] => []
  | item :: input' => if is_bootstrap_input_item item then skip_bootstrap input' else input
  end.

Definition input_item (model : option rstr) (item : json) : result rstr (list HistoryItem) :=
  if match get_str item ($"type") with
     | Some item_type => negb (bool_decide (item_type = $"message"))
     | None => false
     end
  then Ok []
  else
    role ← ok_or ($"OpenAI input item missing role") (get_str item ($"role"));
    Ok (if bool_decide (role = $"user") then [user_item item]
        else if bool_decide (role = $"assistant") then
          [HAssistantTurn (content_to_text (get_or_null item ($"content"))) [] model None]
        else if bool_decide (role = $"tool") then
          [tool_item (or_else (json_get item ($"call_id")) (json_get item ($"tool_call_id"))) item]
        else []).
Definition parse_input_history (input : list json) (model : option rstr)
    : result rstr (list HistoryItem) :=
  (λ ls, @concat HistoryItem ls) <$> try_map (input_item model) (skip_bootstrap (default input (after_developer input))).

Definition parse_request_history (payload : json) : result rstr (list HistoryItem) :=
  let model := get_str payload ($"model") in
  match get_array payload ($"messages") with
  | Some messages => parse_message_history messages model
  | None =>
      match get_array payload ($"input") with
      | Some input => parse_input_history input model
      | None => Err ($"OpenAI request is missing messages or input array")
      end
  end.

(** ** Response bodies *)

(** The fields of a tool call of the Responses API. *)
Definition responses_call_id (item : json) : rstr :=
  or_empty (or_else (json_get item ($"call_id")) (json_get item ($"id")) ≫= as_str).
Definition responses_name (item : json) : rstr := or_empty (get_str item ($"name")).
Definition responses_args (item : json) : rstr :=
  or_empty (jsonish_to_string <$> or_else (json_get item ($"arguments")) (json_get item ($"input"))).

Definition parse_responses_tool_calls (items : list json) : list ToolCallRecord :=
  map (λ item, tool_call_record (responses_call_id item) (responses_name item) (responses_args item))
    (filter (is_type ($"function_call")) items).

Definition parse_assistant_payload (payload : json) (fallback_model : option rstr)
    : option HistoryItem :=
  let choice := get_array payload ($"choices") ≫= head in
  match choice ≫= λ choice, json_get choice ($"message") with
  | Some message =>
      Some (HAssistantTurn (content_to_text (get_or_null message ($"content")))
              (parse_tool_calls (json_get message ($"tool_calls")))
              (or_else (get_str payload ($"model")) fallback_model)
              (choice ≫= λ choice, get_str choice ($"finish_reason")))
  | None =>
      let response := default payload (json_get payload ($"response")) in
      match or_else (get_array response ($"output")) (get_array payload ($"output")) with
      | None => None
      | Some output =>
          let text :=
            join_texts (map (λ item, content_to_text (get_or_null item ($"content")))
              (filter (λ item, is_type ($"message") item ∧ get_str item ($"role") = Some ($"assistant"))
                 output)) in
          let tool_calls := parse_responses_tool_calls output in
          match text, tool_calls with
          | [], [] => None
          | _, _ =>
              Some (HAssistantTurn text tool_calls
                      (or_else (get_str response ($"model")) fallback_model)
                      (get_str response ($"status")))
          end
      end
  end.

(** ** Streams *)

(** [slots[index]] after growing the list to hold it, changed by [f]. *)
Definition update_slot (index : nat) (f : PartialToolCall → PartialToolCall)
    (slots : list PartialToolCall) : list PartialToolCall :=
  alter f index (slots ++ replicate (S index - length slots) partial_default).

Definition absorb_tool_call_delta (slots : list PartialToolCall) (delta : json)
    : list PartialToolCall :=
  let index := default (len slots) (json_get delta ($"index") ≫= json_as_u64) in
  update_slot (N.to_nat index)
    (λ slot,
      let call_id := default (pt_call_id slot) (get_str delta ($"id")) in
      match json_get delta ($"function") with
      | Some function =>
          mkPartialToolCall call_id (default (pt_name slot) (get_str function ($"name")))
            (pt_args slot
             ++ or_empty (jsonish_to_string <$> json_get function ($"arguments")))
      | None => mkPartialToolCall call_id (pt_name slot) (pt_args slot)
      end) slots.

(** The first slot with the id gets what it has not yet; without one a new slot is added. *)
Fixpoint merge_call (call_id name args : rstr) (slots : list PartialToolCall)
    : list PartialToolCall :=
  match slots with
  | [] => [mkPartialToolCall call_id name args]
  | slot :: slots =>
      if bool_decide (pt_call_id slot = call_id) then
        mkPartialToolCall call_id
          (match pt_name slot with [] => name | _ => pt_name slot end)
          (match pt_args slot with [] => args | _ => pt_args slot end) :: slots
      else slot :: merge_call call_id name args slots
  end.

Definition absorb_responses_output_item (item : json) (acc : rstr * list PartialToolCall)
    : rstr * list PartialToolCall :=
  let '(content, tool_calls) := acc in
  if decide (is_type ($"message") item) then
    (match content with
     | [] => content_to_text (get_or_null item ($"content"))
     | _ => content
     end, tool_calls)
  else if decide (is_type ($"function_call") item) then
    match responses_call_id item with
    | [] => (content, tool_calls)
    | call_id => (content, merge_call call_id (responses_name item) (responses_args item) tool_calls)
    end
  else (content, tool_calls).

Definition absorb_responses_output (response : json) (acc : rstr * list PartialToolCall)
    : rstr * list PartialToolCall :=
  foldl (λ acc item, absorb_responses_output_item item acc) acc
    (default [] (get_array response ($"output"))).

Definition absorb_responses_event (event_type : rstr) (payload : json) (ex : OpenAiExchange)
    : OpenAiExchange :=
  if bool_decide (event_type = $"response.created" ∨ event_type = $"response.in_progress"
                  ∨ event_type = $"response.completed")
  then
    match json_get payload ($"response") with
    | Some response =>
        let '(content, tool_calls) :=
          absorb_responses_output response (oe_content ex, oe_tool_calls ex) in
        mkOpenAiExchange (oe_exchange_id ex)
          (or_else (oe_model ex) (get_str response ($"model"))) content tool_calls
          (or_else (get_str response ($"status")) (oe_finish_reason ex)) (oe_parse_errors ex)
    | None => ex
    end
  else if bool_decide (event_type = $"response.output_text.delta") then
    mkOpenAiExchange (oe_exchange_id ex) (oe_model ex)
      (oe_content ex ++ or_empty (get_str payload ($"delta"))) (oe_tool_calls ex)
      (oe_finish_reason ex) (oe_parse_errors ex)
  else if bool_decide (event_type = $"response.output_item.added"
                       ∨ event_type = $"response.output_item.done")
  then
    match json_get payload ($"item") with
    | Some item =>
        let '(content, tool_calls) :=
          absorb_responses_output_item item (oe_content ex, oe_tool_calls ex) in
        mkOpenAiExchange (oe_exchange_id ex) (oe_model ex) content tool_calls
          (oe_finish_reason ex) (oe_parse_errors ex)
    | None => ex
    end
  else ex.

(** A chunk of the Chat Completions API. *)
Definition absorb_chunk (payload : json) (ex : OpenAiExchange) : OpenAiExchange :=
  let model := or_else (oe_model ex) (get_str payload ($"model")) in
  match get_array payload ($"choices") ≫= head with
  | None =>
      mkOpenAiExchange (oe_exchange_id ex) model (oe_content ex) (oe_tool_calls ex)
        (oe_finish_reason ex) (oe_parse_errors ex)
  | Some choice =>
      let delta := json_get choice ($"delta") in
      mkOpenAiExchange (oe_exchange_id ex) model
        (oe_content ex
         ++ or_empty (content_to_text <$> (delta ≫= λ delta, json_get delta ($"content"))))
        (foldl absorb_tool_call_delta (oe_tool_calls ex)
           (default [] (delta ≫= λ delta, get_array delta ($"tool_calls"))))
        (or_else (oe_finish_reason ex) (get_str choice ($"finish_reason")))
        (oe_parse_errors ex)
  end.

Definition absorb_sse_frame (frame : SseFrame) (ex : OpenAiExchange) : OpenAiExchange :=
  if bool_decide (str_trim (sf_data frame) = $"[DONE]") then ex
  else match json_parse (sf_data frame) with
       | Err err =>
           mkOpenAiExchange (oe_exchange_id ex) (oe_model ex) (oe_content ex) (oe_tool_calls ex)
             (oe_finish_reason ex)
             (oe_parse_errors ex ++ [$"failed to parse OpenAI stream frame: " ++ err])
       | Ok payload =>
           match get_str payload ($"type") with
           | Some event_type => absorb_responses_event event_type payload ex
           | None => absorb_chunk payload ex
           end
       end.

(** ** Exchanges *)

Context `{TurnText} (s : Session).

(** [PreparedExchange], whose state is of this provider. *)
Definition prepare_exchange (exchange_id : rstr) (body : bytes) (artifact_refs : ArtifactRefs)
    (now : Z) (st : SessionState) : option rstr * list TurnEnvelope * OpenAiExchange * SessionState :=
  match json_parse body with
  | Err err =>
      let '(turn, st) :=
        provider_error_turn s exchange_id ($"request_parse_error")
          ($"failed to parse OpenAI request body: " ++ err) None artifact_refs now st in
      (None, [turn], openai_new exchange_id None, st)
  | Ok payload =>
      let model := get_str payload ($"model") in
      let '(turns, st) :=
        match parse_request_history payload with
        | Ok history => observe_request_history s exchange_id history artifact_refs now st
        | Err err =>
            let '(turn, st) :=
              provider_error_turn s exchange_id ($"request_history_parse_error") err None
                artifact_refs now st in
            ([turn], st)
        end in
      (model, turns, openai_new exchange_id model, st)
  end.

Definition one_error (exchange_id title message : rstr) (request_id : option rstr)
    (artifact_refs : ArtifactRefs) (now : Z) (st : SessionState) : list TurnEnvelope * SessionState :=
  let '(turn, st) :=
    provider_error_turn s exchange_id title message request_id artifact_refs now st in ([turn], st).
Definition one_item (exchange_id : rstr) (item : HistoryItem) (now : Z) (st : SessionState)
    : list TurnEnvelope * SessionState :=
  let '(turn, st) := append_history_item s exchange_id item now st in ([turn], st).

Definition finalize_json (ex : OpenAiExchange) (status : N) (request_id : option rstr) (body : bytes)
    (artifact_refs : ArtifactRefs) (now : Z) (st : SessionState) : list TurnEnvelope * SessionState :=
  if 400 <=? status then
    one_error (oe_exchange_id ex) ($"provider_error_response")
      ($"OpenAI upstream returned HTTP " ++ show_N status ++ $": " ++ str_trim (from_utf8_lossy body))
      request_id artifact_refs now st
  else match json_parse body with
       | Err err =>
           one_error (oe_exchange_id ex) ($"response_parse_error")
             ($"failed to parse OpenAI response body: " ++ err) request_id artifact_refs now st
       | Ok payload =>
           match parse_assistant_payload payload (oe_model ex) with
           | Some item => one_item (oe_exchange_id ex) item now st
           | None => ([], st)
           end
       end.

Definition stream_item (ex : OpenAiExchange) : HistoryItem :=
  HAssistantTurn (oe_content ex)
    (map (λ tool, tool_call_record (pt_call_id tool) (pt_name tool) (pt_args tool)) (oe_tool_calls ex))
    (oe_model ex) (oe_finish_reason ex).

(** [malformed_remainder.filter(|r| !r.trim().is_empty())]. *)
Definition leftover (malformed_remainder : option rstr) : option rstr :=
  match malformed_remainder with
  | Some remainder => if bool_decide (str_trim remainder = []) then None else Some remainder
  | None => None
  end.

Definition finalize_stream (ex : OpenAiExchange) (status : N) (request_id : option rstr)
    (artifact_refs : ArtifactRefs) (malformed_remainder : option rstr) (now : Z) (st : SessionState)
    : list TurnEnvelope * SessionState :=
  match leftover malformed_remainder with
  | Some remainder =>
      one_error (oe_exchange_id ex) ($"malformed_sse_remainder")
        ($"OpenAI stream ended with leftover buffer: " ++ remainder) request_id artifact_refs now st
  | None =>
      match oe_parse_errors ex with
      | (_ :: _) as errors =>
          one_error (oe_exchange_id ex) ($"stream_parse_error") (str_join ($"; ") errors) request_id
            artifact_refs now st
      | [] =>
          if 400 <=? status then
            one_error (oe_exchange_id ex) ($"provider_error_stream")
              ($"OpenAI upstream returned HTTP " ++ show_N status ++ $" during stream") request_id
              artifact_refs now st
          else match oe_content ex, oe_tool_calls ex with
               | [], [] => ([], st)
               | _, _ => one_item (oe_exchange_id ex) (stream_item ex) now st
               end
      end
  end.

End openai.

(** ** A streamed answer is recorded like a whole one

    The Chat Completions API answers with one message or with a stream of changes to it, in which the
    text and the arguments of several tool calls arrive piece by piece and interleaved. What the proxy
    gathers from the stream is what it reads from the message. *)

(** ** Changes of a message *)

Inductive ChatDelta : Type :=
| DeltaContent (text : rstr)
| DeltaCall (index : N) (id name : rstr)
| DeltaArguments (index : N) (piece : rstr)
| DeltaFinish (reason : rstr).

(** The chunk of a change. *)
Definition chat_chunk (model : rstr) (fields : list (rstr * json)) : json :=
  object [($"model", JString model); ($"choices", JArray [object fields])].
Definition delta_payload (model : rstr) (d : ChatDelta) : json :=
  match d with
  | DeltaContent text => chat_chunk model [($"delta", object [($"content", JString text)])]
  | DeltaCall index id name =>
      chat_chunk model [($"delta", object [($"tool_calls", JArray [
        object [($"index", json_nat index); ($"id", JString id);
                ($"function", object [($"name", JString name); ($"arguments", JString [])])]])])]
  | DeltaArguments index piece =>
      chat_chunk model [($"delta", object [($"tool_calls", JArray [
        object [($"index", json_nat index); ($"function", object [($"arguments", JString piece)])]])])]
  | DeltaFinish reason =>
      chat_chunk model [($"delta", object []); ($"finish_reason", JString reason)]
  end.

(** The message that changes spell. *)
Definition content_of (ds : list ChatDelta) : rstr :=
  concat (omap (λ d, match d with DeltaContent text => Some text | _ => None end) ds).
Definition calls_of (ds : list ChatDelta) : list (rstr * rstr) :=
  omap (λ d, match d with DeltaCall _ id name => Some (id, name) | _ => None end) ds.
Definition arguments_of (i : nat) (ds : list ChatDelta) : rstr :=
  concat (omap (λ d, match d with
                     | DeltaArguments index piece => if (N.to_nat index =? i)%nat then Some piece else None
                     | _ => None
                     end) ds).
Definition finish_of (ds : list ChatDelta) : option rstr :=
  head (omap (λ d, match d with DeltaFinish reason => Some reason | _ => None end) ds).

Definition message_body (model : rstr) (ds : list ChatDelta) : json :=
  object [($"model", JString model);
    ($"choices", JArray [object (($"message", object [
        ($"content", JString (content_of ds));
        ($"tool_calls", JArray (imap (λ i c,
           object [($"id", JString c.1);
                   ($"function", object [($"name", JString c.2); ($"arguments", JString (arguments_of i ds))])])
           (calls_of ds)))])
      :: match finish_of ds with Some reason => [($"finish_reason", JString reason)] | None => [] end)])].

(** Tool calls are opened one after the other, and get arguments after that. *)
Fixpoint well_ordered (opened : nat) (ds : list ChatDelta) : bool :=
  match ds with
  | [] => true
  | DeltaCall index _ _ :: ds => (N.to_nat index =? opened)%nat && well_ordered (S opened) ds
  | DeltaArguments index _ :: ds => (N.to_nat index <? opened)%nat && well_ordered opened ds
  | _ :: ds => well_ordered opened ds
  end.

(** ** Reading *)

Section spec.
Context `{JsonText} `{Unicode}.

(** The slots after the changes. *)
Definition slots_of (ds : list ChatDelta) : list PartialToolCall :=
  imap (λ i c, mkPartialToolCall c.1 c.2 (arguments_of i ds)) (calls_of ds).

Definition opened (ds : list ChatDelta) : nat := length (calls_of ds).

Lemma well_ordered_app n ds1 ds2 :
  well_ordered n (ds1 ++ ds2) = well_ordered n ds1 && well_ordered (n + opened ds1) ds2.
Proof.
  revert n. induction ds1 as [|[] ds1 IH]; intros n; cbn [well_ordered app].
  - by rewrite Nat.add_0_r.
  - apply IH.
  - rewrite IH, andb_assoc. unfold opened. cbn. by rewrite Nat.add_succ_r.
  - rewrite IH, andb_assoc. done.
  - apply IH.
Qed.

Lemma arguments_app i ds d :
  arguments_of i (ds ++ [d])
  = arguments_of i ds ++ match d with
                         | DeltaArguments index piece => if (N.to_nat index =? i)%nat then piece else []
                         | _ => []
                         end.
Proof.
  unfold arguments_of. rewrite omap_app, concat_app. f_equal.
  destruct d as [| |index piece|]; cbn; [done|done| |done]. destruct (_ =? _)%nat; [apply app_nil_r|done].
Qed.

(** No arguments for a call that is not open. *)
Lemma arguments_unopened n i ds :
  well_ordered n ds = true → (n + opened ds ≤ i)%nat → arguments_of i ds = [].
Proof.
  induction ds as [|d ds IH] using rev_ind; [done|]. rewrite well_ordered_app, arguments_app.
  intros [Hw Hd]%andb_true_iff Hi.
  assert (Hle : (opened ds ≤ opened (ds ++ [d]))%nat)
    by (unfold opened, calls_of; rewrite omap_app, length_app; lia).
  rewrite IH by (done || lia). destruct d as [| |index piece|]; [done|done| |done].
  cbn in Hd. rewrite andb_true_r in Hd. apply Nat.ltb_lt in Hd.
  rewrite (proj2 (Nat.eqb_neq _ _)) by lia. done.
Qed.

Lemma slots_length ds : length (slots_of ds) = opened ds.
Proof. apply length_imap. Qed.
Lemma slots_lookup ds i :
  slots_of ds !! i = (λ c, mkPartialToolCall c.1 c.2 (arguments_of i ds)) <$> calls_of ds !! i.
Proof. apply list_lookup_imap. Qed.

(** One more change. *)
Lemma slots_content ds d :
  match d with DeltaContent _ | DeltaFinish _ => True | _ => False end → slots_of (ds ++ [d]) = slots_of ds.
Proof.
  intros Hd. apply list_eq. intros i. rewrite !slots_lookup, arguments_app.
  unfold calls_of. rewrite omap_app. destruct d; try done; cbn; by rewrite !app_nil_r.
Qed.

Lemma update_slot_in index f slots :
  (index < length slots)%nat → update_slot index f slots = alter f index slots.
Proof.
  intros Hi. unfold update_slot. replace (S index - length slots)%nat with 0%nat by lia.
  by rewrite app_nil_r.
Qed.
Lemma update_slot_new f slots :
  update_slot (length slots) f slots = slots ++ [f partial_default].
Proof.
  unfold update_slot. replace (S (length slots) - length slots)%nat with 1%nat by lia. cbn [replicate].
  induction slots as [|slot slots IH]; [done|]. cbn. f_equal. exact IH.
Qed.

Lemma absorb_call ds index id name :
  well_ordered 0 (ds ++ [DeltaCall index id name]) = true →
  absorb_tool_call_delta (slots_of ds)
    (object [($"index", json_nat index); ($"id", JString id);
             ($"function", object [($"name", JString name); ($"arguments", JString [])])])
  = slots_of (ds ++ [DeltaCall index id name]).
Proof.
  rewrite well_ordered_app. intros [Hw Hi]%andb_true_iff. cbn in Hi. rewrite andb_true_r in Hi.
  apply Nat.eqb_eq in Hi. 
  change (absorb_tool_call_delta (slots_of ds) _) with
    (update_slot (N.to_nat index) (λ slot, mkPartialToolCall id name (pt_args slot ++ [])) (slots_of ds)).
  rewrite Hi, <- slots_length, update_slot_new. apply list_eq. intros i.
  rewrite slots_lookup, arguments_app, !app_nil_r. unfold calls_of. rewrite omap_app. fold (calls_of ds).
  cbn [omap list_omap]. destruct (Nat.lt_ge_cases i (opened ds)) as [Hlt|Hge].
  - rewrite (lookup_app_l (slots_of ds)) by (by rewrite slots_length).
    rewrite (lookup_app_l (calls_of ds)) by exact Hlt. by rewrite slots_lookup.
  - rewrite (lookup_app_r (slots_of ds)) by (by rewrite slots_length).
    rewrite (lookup_app_r (calls_of ds)) by exact Hge. rewrite slots_length.
    fold (opened ds). destruct (i - opened ds)%nat; [|done]. cbn.
    by rewrite (arguments_unopened 0 i ds) by done.
Qed.

Lemma absorb_arguments ds index piece :
  well_ordered 0 (ds ++ [DeltaArguments index piece]) = true →
  absorb_tool_call_delta (slots_of ds)
    (object [($"index", json_nat index); ($"function", object [($"arguments", JString piece)])])
  = slots_of (ds ++ [DeltaArguments index piece]).
Proof.
  rewrite well_ordered_app. intros [Hw Hi]%andb_true_iff. cbn in Hi. rewrite andb_true_r in Hi.
  apply Nat.ltb_lt in Hi.
  change (absorb_tool_call_delta (slots_of ds) _) with
    (update_slot (N.to_nat index)
       (λ slot, mkPartialToolCall (pt_call_id slot) (pt_name slot) (pt_args slot ++ piece)) (slots_of ds)).
  rewrite update_slot_in by (by rewrite slots_length). apply list_eq. intros i.
  rewrite slots_lookup, arguments_app. unfold calls_of. rewrite omap_app, app_nil_r. fold (calls_of ds).
  destruct (Nat.eqb_spec (N.to_nat index) i) as [<-|Hne].
  - rewrite list_lookup_alter_eq, slots_lookup. by destruct (calls_of ds !! N.to_nat index).
  - rewrite list_lookup_alter_ne, slots_lookup by done. by rewrite app_nil_r.
Qed.

(** What an exchange holds after the changes. *)
Definition gathered (exchange_id : rstr) (model : option rstr) (ds : list ChatDelta) : OpenAiExchange :=
  mkOpenAiExchange exchange_id model (content_of ds) (slots_of ds) (finish_of ds) [].

Lemma finish_app ds d :
  finish_of (ds ++ [d])
  = or_else (finish_of ds) (match d with DeltaFinish reason => Some reason | _ => None end).
Proof.
  unfold finish_of. rewrite omap_app. destruct (omap _ ds); [|done]. by destruct d.
Qed.
Lemma content_app ds d :
  content_of (ds ++ [d]) = content_of ds ++ match d with DeltaContent text => text | _ => [] end.
Proof.
  unfold content_of. rewrite omap_app, concat_app. f_equal. destruct d; [apply app_nil_r|done..].
Qed.

Lemma or_else_none {A} (a : option A) : or_else a None = a.
Proof. by destruct a. Qed.

Lemma absorb_delta exchange_id model0 model ds d :
  well_ordered 0 (ds ++ [d]) = true →
  absorb_chunk (delta_payload model d) (gathered exchange_id model0 ds)
  = gathered exchange_id (or_else model0 (Some model)) (ds ++ [d]).
Proof.
  intros Hw. unfold gathered at 2. rewrite finish_app, content_app.
  destruct d as [text|index id name|index piece|reason].
  - rewrite slots_content by done.
    change (absorb_chunk _ _) with (mkOpenAiExchange exchange_id (or_else model0 (Some model))
      (content_of ds ++ text) (slots_of ds) (or_else (finish_of ds) None) []). done.
  - change (absorb_chunk _ _) with (mkOpenAiExchange exchange_id (or_else model0 (Some model))
      (content_of ds ++ []) (absorb_tool_call_delta (slots_of ds)
        (object [($"index", json_nat index); ($"id", JString id);
             ($"function", object [($"name", JString name); ($"arguments", JString [])])]))
      (or_else (finish_of ds) None) []). by rewrite absorb_call.
  - change (absorb_chunk _ _) with (mkOpenAiExchange exchange_id (or_else model0 (Some model))
      (content_of ds ++ []) (absorb_tool_call_delta (slots_of ds)
        (object [($"index", json_nat index); ($"function", object [($"arguments", JString piece)])]))
      (or_else (finish_of ds) None) []). by rewrite absorb_arguments.
  - rewrite slots_content by done. done.
Qed.

(** The frame of a change. *)
Definition frame_of (model : rstr) (frame : SseFrame) (d : ChatDelta) : Prop :=
  str_trim (sf_data frame) ≠ $"[DONE]" ∧ json_parse (sf_data frame) = Ok (delta_payload model d).

Lemma absorb_frames exchange_id model0 model frames ds :
  Forall2 (frame_of model) frames ds → well_ordered 0 ds = true →
  ∃ m, foldl (λ ex frame, absorb_sse_frame frame ex) (openai_new exchange_id model0) frames
       = gathered exchange_id m ds.
Proof.
  revert ds. induction frames as [|frame frames IH] using rev_ind; intros ds Hf Hw.
  { apply Forall2_nil_inv_l in Hf as ->. by exists model0. }
  apply Forall2_app_inv_l in Hf as (ds1 & ds2 & Hf1 & Hf2 & ->).
  apply Forall2_cons_inv_l in Hf2 as (d & ds3 & [Hd Hp] & Hnil & ->). apply Forall2_nil_inv_l in Hnil as ->.
  pose proof Hw as Hw1. rewrite well_ordered_app in Hw1. apply andb_true_iff in Hw1 as [Hw1 _].
  destruct (IH _ Hf1 Hw1) as [m Hm]. exists (or_else m (Some model)).
  rewrite foldl_app, Hm. cbn [foldl]. unfold absorb_sse_frame.
  rewrite bool_decide_false by done. rewrite Hp.
  assert (Hty : get_str (delta_payload model d) ($"type") = None) by (by destruct d).
  rewrite Hty. by apply absorb_delta.
Qed.

(** C18. A streamed answer of the Chat Completions API is recorded like a whole one: from the frames of
    a stream, in which text and the arguments of any number of tool calls arrive in pieces and
    interleaved, the proxy gathers the assistant's turn that it reads from the message that they
    spell, but for the name of the model. *)
Theorem stream_equals_message exchange_id requested model frames ds :
  Forall2 (frame_of model) frames ds → well_ordered 0 ds = true →
  let ex := foldl (λ ex frame, absorb_sse_frame frame ex) (openai_new exchange_id requested) frames in
  oe_parse_errors ex = []
  ∧ (normalize_history_item <$> parse_assistant_payload (message_body model ds) requested)
    = Some (normalize_history_item (stream_item ex))
  ∧ oe_finish_reason ex = finish_of ds.
Proof.
  intros Hf Hw. destruct (absorb_frames exchange_id requested _ _ _ Hf Hw) as [m ->]. cbv zeta.
  split_and!; [done| |done]. unfold stream_item, normalize_history_item. cbn [gathered oe_content oe_tool_calls].
  transitivity (Some (HAssistantTurn (content_of ds)
    (map parse_tool_call (imap (λ i c,
           object [($"id", JString c.1);
                   ($"function", object [($"name", JString c.2); ($"arguments", JString (arguments_of i ds))])])
           (calls_of ds))) None None)).
  - unfold message_body. destruct (finish_of ds); done.
  - do 2 f_equal. apply list_eq. intros i.
    assert (Hmap : ∀ A B (f : A → B) l, map f l !! i = f <$> l !! i) by (intros; apply list_lookup_fmap).
    rewrite !Hmap, slots_lookup, list_lookup_imap. by destruct (calls_of ds !! i).
Qed.

End spec.

(** ** An answer with two tool calls *)

Module ChatSample.
#[local] Existing Instance Sample.unicode.

Definition deltas : list ChatDelta := [
  DeltaContent ($"Let me "); DeltaCall 0 ($"c0") ($"ls"); DeltaContent ($"look."); DeltaCall 1 ($"c1") ($"cat");
  DeltaArguments 1 ($"{'f':"); DeltaArguments 0 ($"{}"); DeltaArguments 1 ($"'a'}"); DeltaFinish ($"tool_calls")].

(** The text of a change is its number. *)
#[local] Instance sample_json : JsonText := {
  json_parse bs := match bs with
                   | [b] => from_option (λ d, Ok (delta_payload ($"m") d)) (Err ($"?"))
                              (deltas !! (N.to_nat (Byte.to_N b) - 48)%nat)
                   | _ => Err ($"?")
                   end;
  json_text _ := $"{}"
}.
Definition frames : list SseFrame := imap (λ i _, mkSseFrame None (show_N (N.of_nat i)) []) deltas.

Example gathered_calls :
  let item := stream_item (foldl (λ ex frame, absorb_sse_frame frame ex) (openai_new ($"e") None) frames) in
  item = HAssistantTurn ($"Let me look.")
           [mkToolCallRecord ($"c0") ($"ls") ($"{}"); mkToolCallRecord ($"c1") ($"cat") ($"{'f':'a'}")]
           (Some ($"m")) (Some ($"tool_calls")).
Proof. vm_compute. reflexivity. Qed.

Lemma frames_of_deltas : Forall2 (frame_of ($"m")) frames deltas.
Proof.
  repeat (apply Forall2_cons; split); try apply Forall2_nil; try (split; [vm_compute; discriminate|reflexivity]).
  done.
Qed.

Lemma stream_equals_message_witness :
  let ex := foldl (λ ex frame, absorb_sse_frame frame ex) (openai_new ($"e") None) frames in
  (normalize_history_item <$> parse_assistant_payload (message_body ($"m") deltas) None)
    = Some (normalize_history_item (stream_item ex)).
Proof. exact (proj1 (proj2 (stream_equals_message ($"e") None ($"m") frames deltas frames_of_deltas eq_refl))). Defined.

End ChatSample.
