(* ===== verification/CxtxAnthropic.v ===== *)
(** * CxtxAnthropic: what the proxy makes of the traffic of Anthropic

    [cxtx/src/provider/anthropic.rs]: the history in a request, the assistant's turn in a response
    body, and the same gathered from the blocks of a stream. [content_to_text] and
    [jsonish_to_string] are the functions of [CxtxOpenAi], which the file repeats. *)

From S2P Require Import Prelude Bytes External Json JsonCodec Conversation CxtxProvider CxtxTurns.
From S2P Require Import CxtxSession CxtxSse CxtxOpenAi.

Open Scope N_scope.

Record PartialToolUse : Type := mkPartialToolUse {
  pu_id : rstr;
  pu_name : rstr;
  pu_input_json : rstr
}.
Inductive PartialBlock : Type :=
| PText (text : rstr)
| PToolUse (tool : PartialToolUse).

Record AnthropicExchange : Type := mkAnthropicExchange {
  ae_exchange_id : rstr;
  ae_model : option rstr;
  ae_blocks : gmap N PartialBlock;
  ae_finish_reason : option rstr;
  ae_parse_errors : list rstr
}.
Definition anthropic_new (exchange_id : rstr) (model : option rstr) : AnthropicExchange :=
  mkAnthropicExchange exchange_id model ∅ None [].

Definition set_blocks (blocks : gmap N PartialBlock) (ex : AnthropicExchange) : AnthropicExchange :=
  mkAnthropicExchange (ae_exchange_id ex) (ae_model ex) blocks (ae_finish_reason ex)
    (ae_parse_errors ex).

Section anthropic.
Context `{JsonText} `{Unicode}.

(** ** Requests *)

Definition reminder_texts : list rstr :=
  [$"SessionStart hook additional context";
   $"The following skills are available for use with the Skill tool:";
   $"As you answer the user's questions, you can use the following context:"].
Definition is_bootstrap_user_block (block : json) : bool :=
  bool_decide (get_str block ($"type") = Some ($"text"))
  && (let text := str_trim_start (or_empty (get_str block ($"text"))) in
      starts_with text ($"<system-reminder>") && existsb (str_contains text) reminder_texts).

Fixpoint skip_reminders (blocks : list json) : list json :=
  match blocks with
  | [] => []
  | block :: blocks' => if is_bootstrap_user_block block then skip_reminders blocks' else blocks
  end.

(** The text gathered so far as an item, if there is one. *)
Definition flush_text (text_buffer : rstr) : list HistoryItem :=
  match text_buffer with [] => [] | _ => [HUserInput text_buffer []] end.

Definition user_block (acc : list HistoryItem * rstr) (block : json) : list HistoryItem * rstr :=
  let '(history, text_buffer) := acc in
  if decide (is_type ($"text") block) then
    (history, (match text_buffer with [] => [] | _ => text_buffer ++ [nl] end)
              ++ or_empty (get_str block ($"text")))
  else if decide (is_type ($"tool_result") block) then
    (history ++ flush_text text_buffer
     ++ [HToolResult (or_empty (or_else (json_get block ($"tool_use_id")) (json_get block ($"id")) ≫= as_str))
           (or_empty (content_to_text <$> json_get block ($"content")))
           (default false (json_get block ($"is_error") ≫= as_bool))], [])
  else acc.

Definition parse_user_blocks (content : json) : list HistoryItem :=
  match content with
  | JString value => [HUserInput value []]
  | JArray blocks =>
      let '(history, text_buffer) := foldl user_block ([], []) (skip_reminders blocks) in
      history ++ flush_text text_buffer
  | _ => []
  end.

Definition assistant_block (acc : rstr * list ToolCallRecord) (block : json)
    : rstr * list ToolCallRecord :=
  let '(text, tool_calls) := acc in
  if decide (is_type ($"text") block) then (text ++ or_empty (get_str block ($"text")), tool_calls)
  else if decide (is_type ($"tool_use") block) then
    (text, tool_calls
     ++ [tool_call_record (or_empty (get_str block ($"id"))) (or_empty (get_str block ($"name")))
           (or_empty (jsonish_to_string <$> json_get block ($"input")))])
  else acc.

Definition parse_assistant_content (content : json) (model finish_reason : option rstr)
    : result rstr (option HistoryItem) :=
  match content with
  | JNull => Ok None
  | JString value => Ok (Some (HAssistantTurn value [] model finish_reason))
  | JArray blocks =>
      let '(text, tool_calls) := foldl assistant_block ([], []) blocks in
      Ok (Some (HAssistantTurn text tool_calls model finish_reason))
  | _ => Err ($"unsupported Anthropic content shape")
  end.

Definition anthropic_message_item (model : option rstr) (message : json)
    : result rstr (list HistoryItem) :=
  role ← ok_or ($"Anthropic request message missing role") (get_str message ($"role"));
  let content := get_or_null message ($"content") in
  if bool_decide (role = $"user") then Ok (parse_user_blocks content)
  else if bool_decide (role = $"assistant") then
    option_list <$> parse_assistant_content content model None
  else Ok [].

Definition anthropic_request_history (payload : json) : result rstr (list HistoryItem) :=
  messages ← ok_or ($"Anthropic request is missing messages array") (get_array payload ($"messages"));
  (λ ls, @concat HistoryItem ls)
    <$> try_map (anthropic_message_item (get_str payload ($"model"))) messages.

(** ** Streams *)

Definition block_index (payload : json) : N :=
  default 0 (json_get payload ($"index") ≫= json_as_u64).

(** [entry(index).or_insert_with(...)], changed by [f]. *)
Definition update_block (index : N) (default : PartialBlock) (f : PartialBlock → PartialBlock)
    (blocks : gmap N PartialBlock) : gmap N PartialBlock :=
  <[index := f (from_option id default (blocks !! index))]> blocks.

Definition block_start (payload : json) (blocks : gmap N PartialBlock) : gmap N PartialBlock :=
  let index := block_index payload in
  let block := get_or_null payload ($"content_block") in
  if decide (is_type ($"text") block) then
    <[index := PText (or_empty (get_str block ($"text")))]> blocks
  else if decide (is_type ($"tool_use") block) then
    <[index := PToolUse (mkPartialToolUse (or_empty (get_str block ($"id")))
                           (or_empty (get_str block ($"name")))
                           (or_empty (jsonish_to_string <$> json_get block ($"input"))))]> blocks
  else blocks.

Definition block_delta (payload : json) (blocks : gmap N PartialBlock) : gmap N PartialBlock :=
  let index := block_index payload in
  match json_get payload ($"delta") with
  | None => blocks
  | Some delta =>
      if decide (is_type ($"text_delta") delta) then
        let text := or_empty (get_str delta ($"text")) in
        update_block index (PText [])
          (λ block, match block with PText value => PText (value ++ text) | _ => block end) blocks
      else if decide (is_type ($"input_json_delta") delta) then
        let partial := or_empty (get_str delta ($"partial_json")) in
        update_block index (PToolUse (mkPartialToolUse [] [] []))
          (λ block, match block with
                    | PToolUse tool =>
                        PToolUse (mkPartialToolUse (pu_id tool) (pu_name tool)
                                    (pu_input_json tool ++ partial))
                    | _ => block
                    end) blocks
      else blocks
  end.

Definition anthropic_event (event : rstr) (payload : json) (ex : AnthropicExchange)
    : AnthropicExchange :=
  if bool_decide (event = $"message_start") then
    mkAnthropicExchange (ae_exchange_id ex)
      (or_else (ae_model ex) (json_get payload ($"message") ≫= λ m, get_str m ($"model")))
      (ae_blocks ex) (ae_finish_reason ex) (ae_parse_errors ex)
  else if bool_decide (event = $"content_block_start") then
    set_blocks (block_start payload (ae_blocks ex)) ex
  else if bool_decide (event = $"content_block_delta") then
    set_blocks (block_delta payload (ae_blocks ex)) ex
  else if bool_decide (event = $"message_delta") then
    mkAnthropicExchange (ae_exchange_id ex) (ae_model ex) (ae_blocks ex)
      (or_else (ae_finish_reason ex) (json_get payload ($"delta") ≫= λ d, get_str d ($"stop_reason")))
      (ae_parse_errors ex)
  else ex.

Definition anthropic_absorb_frame (frame : SseFrame) (ex : AnthropicExchange) : AnthropicExchange :=
  match json_parse (sf_data frame) with
  | Err err =>
      mkAnthropicExchange (ae_exchange_id ex) (ae_model ex) (ae_blocks ex) (ae_finish_reason ex)
        (ae_parse_errors ex ++ [$"failed to parse Anthropic stream frame: " ++ err])
  | Ok payload =>
      match sf_event frame with
      | Some event => anthropic_event event payload ex
      | None => ex
      end
  end.

(** ** Exchanges *)

Context `{TurnText} (s : Session).

Definition anthropic_prepare_exchange (exchange_id : rstr) (body : bytes) (artifact_refs : ArtifactRefs)
    (now : Z) (st : SessionState)
    : option rstr * list TurnEnvelope * AnthropicExchange * SessionState :=
  match json_parse body with
  | Err err =>
      let '(turns, st) :=
        one_error s exchange_id ($"request_parse_error")
          ($"failed to parse Anthropic request body: " ++ err) None artifact_refs now st in
      (None, turns, anthropic_new exchange_id None, st)
  | Ok payload =>
      let model := get_str payload ($"model") in
      let '(turns, st) :=
        match anthropic_request_history payload with
        | Ok history => observe_request_history s exchange_id history artifact_refs now st
        | Err err =>
            one_error s exchange_id ($"request_history_parse_error") err None artifact_refs now st
        end in
      (model, turns, anthropic_new exchange_id model, st)
  end.

Definition anthropic_finalize_json (ex : AnthropicExchange) (status : N) (request_id : option rstr)
    (body : bytes) (artifact_refs : ArtifactRefs) (now : Z) (st : SessionState)
    : list TurnEnvelope * SessionState :=
  if 400 <=? status then
    one_error s (ae_exchange_id ex) ($"provider_error_response")
      ($"Anthropic upstream returned HTTP " ++ show_N status ++ $": " ++ str_trim (from_utf8_lossy body))
      request_id artifact_refs now st
  else match json_parse body with
       | Err err =>
           one_error s (ae_exchange_id ex) ($"response_parse_error")
             ($"failed to parse Anthropic response body: " ++ err) request_id artifact_refs now st
       | Ok payload =>
           match parse_assistant_content (get_or_null payload ($"content"))
                   (or_else (get_str payload ($"model")) (ae_model ex))
                   (get_str payload ($"stop_reason")) with
           | Ok (Some item) => one_item s (ae_exchange_id ex) item now st
           | Ok None => ([], st)
           | Err err =>
               one_error s (ae_exchange_id ex) ($"response_extract_error") err request_id
                 artifact_refs now st
           end
       end.

Definition gather_block (acc : rstr * list ToolCallRecord) (block : N * PartialBlock)
    : rstr * list ToolCallRecord :=
  let '(text, tool_calls) := acc in
  match block.2 with
  | PText value => (text ++ value, tool_calls)
  | PToolUse tool =>
      (text, tool_calls ++ [tool_call_record (pu_id tool) (pu_name tool) (pu_input_json tool)])
  end.

Definition anthropic_stream_item (ex : AnthropicExchange) : HistoryItem :=
  let '(text, tool_calls) := foldl gather_block ([], []) (btree_iter (ae_blocks ex)) in
  HAssistantTurn text tool_calls (ae_model ex) (ae_finish_reason ex).

Definition anthropic_finalize_stream (ex : AnthropicExchange) (status : N) (request_id : option rstr)
    (artifact_refs : ArtifactRefs) (malformed_remainder : option rstr) (now : Z) (st : SessionState)
    : list TurnEnvelope * SessionState :=
  match leftover malformed_remainder with
  | Some remainder =>
      one_error s (ae_exchange_id ex) ($"malformed_sse_remainder")
        ($"Anthropic stream ended with leftover buffer: " ++ remainder) request_id artifact_refs now st
  | None =>
      match ae_parse_errors ex with
      | (_ :: _) as errors =>
          one_error s (ae_exchange_id ex) ($"stream_parse_error") (str_join ($"; ") errors) request_id
            artifact_refs now st
      | [] =>
          if 400 <=? status then
            one_error s (ae_exchange_id ex) ($"provider_error_stream")
              ($"Anthropic upstream returned HTTP " ++ show_N status ++ $" during stream") request_id
              artifact_refs now st
          else if bool_decide (ae_blocks ex = ∅) then ([], st)
          else one_item s (ae_exchange_id ex) (anthropic_stream_item ex) now st
      end
  end.

End anthropic.
