(* ===== verification/CxtxLedger.v ===== *)
(** * CxtxLedger: the ledger of a session

    [cxtx/src/ledger.rs]: what the proxy writes about a session below [.scratch/cxtx/sessions/]. An
    operation changes the state under its lock, releases it, and then takes a snapshot that it
    writes. Files belong to the world [W]; the text of the ledger is [serde_json]'s. *)

From S2P Require Import Prelude Bytes External Json JsonCodec Conversation CxtxProvider CxtxTurns.
From S2P Require Import CxtxSession.

Open Scope N_scope.

Record ExchangeArtifactRecord : Type := mkExchangeArtifactRecord {
  er_exchange_id : rstr;
  er_endpoint : option rstr;
  er_model : option rstr;
  er_provider_request_id : option rstr;
  er_status_code : option N;
  er_request_path : option rstr;
  er_response_path : option rstr;
  er_stream_path : option rstr
}.
Definition exchange_default (exchange_id : rstr) : ExchangeArtifactRecord :=
  mkExchangeArtifactRecord exchange_id None None None None None None None.

Record SessionLedger : Type := mkSessionLedger {
  sl_session_id : rstr;
  sl_provider_kind : rstr;
  sl_child_command : rstr;
  sl_child_args : list rstr;
  sl_started_at : Z;
  sl_ended_at : option Z;
  sl_child_pid : option N;
  sl_child_exit_code : option Z;
  sl_cxdb_context_id : option N;
  sl_delivery_state : rstr;
  sl_queue_depth : N;
  sl_appended_sequences : list N;
  sl_provider_request_ids : list rstr;
  sl_last_delivery_error : option rstr;
  sl_artifacts_root : rstr;
  sl_exchanges : list ExchangeArtifactRecord
}.

(** [SessionLedgerWriter]. *)
Record LedgerPaths : Type := mkLedgerPaths {
  lp_root : rstr;
  lp_path : rstr;
  lp_exchanges_dir : rstr
}.

Definition path_join (dir name : rstr) : rstr := dir ++ $"/" ++ name.

Definition ledger_paths (session_id : rstr) : LedgerPaths :=
  let root := path_join (path_join (path_join ($".scratch") ($"cxtx")) ($"sessions")) session_id in
  mkLedgerPaths root (path_join root ($"ledger.json")) (path_join root ($"exchanges")).

Definition ledger_new (s : Session) : SessionLedger :=
  let session := ss_session s in
  mkSessionLedger (cs_session_id session) (provider_name (ss_provider s)) (cs_child_command session)
    (cs_child_args session) (cs_started_at session) None None None None ($"starting") 0 [] [] None
    (lp_exchanges_dir (ledger_paths (cs_session_id session))) [].

(** ** Changes of the state *)

Definition set_child (pid : option N) (exit_code : option Z) (ended_at : option Z) (l : SessionLedger)
    : SessionLedger :=
  mkSessionLedger (sl_session_id l) (sl_provider_kind l) (sl_child_command l) (sl_child_args l)
    (sl_started_at l) ended_at pid exit_code (sl_cxdb_context_id l) (sl_delivery_state l)
    (sl_queue_depth l) (sl_appended_sequences l) (sl_provider_request_ids l)
    (sl_last_delivery_error l) (sl_artifacts_root l) (sl_exchanges l).
Definition set_delivery (context_id : option N) (state : rstr) (queue_depth : N)
    (sequences : list N) (error : option rstr) (l : SessionLedger) : SessionLedger :=
  mkSessionLedger (sl_session_id l) (sl_provider_kind l) (sl_child_command l) (sl_child_args l)
    (sl_started_at l) (sl_ended_at l) (sl_child_pid l) (sl_child_exit_code l) context_id state
    queue_depth sequences (sl_provider_request_ids l) error (sl_artifacts_root l) (sl_exchanges l).
Definition set_exchanges (request_ids : list rstr) (exchanges : list ExchangeArtifactRecord)
    (l : SessionLedger) : SessionLedger :=
  mkSessionLedger (sl_session_id l) (sl_provider_kind l) (sl_child_command l) (sl_child_args l)
    (sl_started_at l) (sl_ended_at l) (sl_child_pid l) (sl_child_exit_code l)
    (sl_cxdb_context_id l) (sl_delivery_state l) (sl_queue_depth l) (sl_appended_sequences l)
    request_ids (sl_last_delivery_error l) (sl_artifacts_root l) exchanges.

Definition child_pid_noted (pid : option N) (l : SessionLedger) : SessionLedger :=
  set_child pid (sl_child_exit_code l) (sl_ended_at l) l.
Definition context_created (context_id : N) (l : SessionLedger) : SessionLedger :=
  set_delivery (Some context_id) (sl_delivery_state l) (sl_queue_depth l)
    (sl_appended_sequences l) (sl_last_delivery_error l) l.
Definition append_sequenced (sequence : N) (l : SessionLedger) : SessionLedger :=
  set_delivery (sl_cxdb_context_id l) (sl_delivery_state l) (sl_queue_depth l)
    (if decide (sequence ∈ sl_appended_sequences l) then sl_appended_sequences l
     else sl_appended_sequences l ++ [sequence])
    (sl_last_delivery_error l) l.
Definition delivery_noted (state : rstr) (queue_depth : N) (error : option rstr) (l : SessionLedger)
    : SessionLedger :=
  set_delivery (sl_cxdb_context_id l) state queue_depth (sl_appended_sequences l) error l.
Definition request_id_noted (request_id : rstr) (l : SessionLedger) : SessionLedger :=
  set_exchanges
    (if decide (request_id ∈ sl_provider_request_ids l) then sl_provider_request_ids l
     else sl_provider_request_ids l ++ [request_id]) (sl_exchanges l) l.
Definition child_exited (exit_code : Z) (now : Z) (l : SessionLedger) : SessionLedger :=
  set_child (sl_child_pid l) (Some exit_code) (Some now) l.
Definition finalized (now : Z) (l : SessionLedger) : SessionLedger :=
  set_child (sl_child_pid l) (sl_child_exit_code l) (Some (default now (sl_ended_at l))) l.

(** The first record with the id, or a new one at the end. *)
Fixpoint update_record (exchange_id : rstr) (update : ExchangeArtifactRecord → ExchangeArtifactRecord)
    (exchanges : list ExchangeArtifactRecord) : list ExchangeArtifactRecord :=
  match exchanges with
  | [] => [update (exchange_default exchange_id)]
  | record :: exchanges =>
      if bool_decide (er_exchange_id record = exchange_id) then update record :: exchanges
      else record :: update_record exchange_id update exchanges
  end.
Definition exchange_updated (exchange_id : rstr)
    (update : ExchangeArtifactRecord → ExchangeArtifactRecord) (l : SessionLedger) : SessionLedger :=
  set_exchanges (sl_provider_request_ids l) (update_record exchange_id update (sl_exchanges l)) l.

(** ** Files *)

(** [tokio::fs] on the files of the world. *)
Class FileSystem (W : Type) : Type := {
  fs_create_dir_all : rstr → W → result io_kind unit * W;
  fs_write : rstr → bytes → W → result io_kind unit * W;
  fs_append : rstr → bytes → W → result io_kind unit * W
}.
Class LedgerText : Type := ledger_text : SessionLedger → bytes.

Section ledger.
Context {W : Type} `{!FileSystem W} `{LedgerText} `{JsonText} `{TurnText} (paths : LedgerPaths).

(** Steps that stop at an error. *)
Definition fs_then {A B} (r : result io_kind A * W) (k : A → W → result io_kind B * W)
    : result io_kind B * W :=
  match r with
  | (Ok a, w) => k a w
  | (Err e, w) => (Err e, w)
  end.

(** What [persist] does with the snapshot it took. *)
Definition persist_snapshot (snapshot : SessionLedger) (w : W) : result io_kind unit * W :=
  fs_then (fs_create_dir_all (lp_root paths) w)
    (λ _ w, fs_write (lp_path paths) (ledger_text snapshot) w).

(** An operation with no other one between its change and its snapshot. *)
Definition note (change : SessionLedger → SessionLedger) (l : SessionLedger) (w : W)
    : result io_kind unit * SessionLedger * W :=
  let l := change l in
  let '(r, w) := persist_snapshot l w in (r, l, w).

Definition note_child_pid (pid : option N) := note (child_pid_noted pid).
Definition note_context_created (context_id : N) := note (context_created context_id).
Definition note_append_sequence (sequence : N) := note (append_sequenced sequence).
Definition note_delivery_state (state : rstr) (queue_depth : N) (error : option rstr) :=
  note (delivery_noted state queue_depth error).
Definition note_request_id (request_id : rstr) := note (request_id_noted request_id).
Definition note_child_exit (exit_code now : Z) := note (child_exited exit_code now).
Definition finalize (now : Z) := note (finalized now).
Definition update_exchange (exchange_id : rstr) (update : ExchangeArtifactRecord → ExchangeArtifactRecord) :=
  note (exchange_updated exchange_id update).

Definition exchange_dir (exchange_id : rstr) (w : W) : result io_kind rstr * W :=
  let path := path_join (lp_exchanges_dir paths) exchange_id in
  fs_then (fs_create_dir_all path w) (λ _ w, (Ok path, w)).

(** [value.starts_with("text/") || value.contains("event-stream")]. *)
Definition is_text (content_type : option rstr) : bool :=
  match content_type with
  | Some value => starts_with value ($"text/") || str_contains value ($"event-stream")
  | None => false
  end.

Definition write_body_artifact (dir stem : rstr) (content_type : option rstr) (body : bytes)
    (parsed_json : option json) (w : W) : result io_kind rstr * W :=
  let '(path, payload) :=
    match parsed_json with
    | Some json => (path_join dir (stem ++ $".json"), json_pretty json)
    | None => if is_text content_type then (path_join dir (stem ++ $".txt"), body)
              else (path_join dir (stem ++ $".bin"), body)
    end in
  fs_then (fs_write path payload w) (λ _ w, (Ok path, w)).

(** Steps on the ledger and the world that stop at an error. *)
Definition ledger_then {A B} (r : result io_kind A * SessionLedger * W)
    (k : A → SessionLedger → W → result io_kind B * SessionLedger * W)
    : result io_kind B * SessionLedger * W :=
  match r with
  | (Ok a, l, w) => k a l w
  | (Err e, l, w) => (Err e, l, w)
  end.
Definition with_ledger {A} (r : result io_kind A * W) (l : SessionLedger)
    : result io_kind A * SessionLedger * W := (r.1, l, r.2).

Definition record_request (exchange_id endpoint : rstr) (model content_type : option rstr) (body : bytes)
    (parsed_json : option json) (l : SessionLedger) (w : W) : result io_kind rstr * SessionLedger * W :=
  ledger_then (with_ledger (exchange_dir exchange_id w) l) (λ dir l w,
  ledger_then (with_ledger (write_body_artifact dir ($"request") content_type body parsed_json w) l)
    (λ path l w,
  ledger_then
    (update_exchange exchange_id
       (λ r, mkExchangeArtifactRecord (er_exchange_id r) (Some endpoint) model
               (er_provider_request_id r) (er_status_code r) (Some path) (er_response_path r)
               (er_stream_path r)) l w)
    (λ _ l w, (Ok path, l, w)))).

Definition record_response (exchange_id : rstr) (status_code : N) (provider_request_id content_type : option rstr)
    (body : bytes) (parsed_json : option json) (l : SessionLedger) (w : W)
    : result io_kind rstr * SessionLedger * W :=
  ledger_then (with_ledger (exchange_dir exchange_id w) l) (λ dir l w,
  ledger_then (with_ledger (write_body_artifact dir ($"response") content_type body parsed_json w) l)
    (λ path l w,
  ledger_then
    (update_exchange exchange_id
       (λ r, mkExchangeArtifactRecord (er_exchange_id r) (er_endpoint r) (er_model r)
               provider_request_id (Some status_code) (er_request_path r) (Some path)
               (er_stream_path r)) l w)
    (λ _ l w,
  match provider_request_id with
  | Some request_id => ledger_then (note_request_id request_id l w) (λ _ l w, (Ok path, l, w))
  | None => (Ok path, l, w)
  end))).

Definition append_stream_frame (exchange_id raw_frame : rstr) (l : SessionLedger) (w : W)
    : result io_kind rstr * SessionLedger * W :=
  ledger_then (with_ledger (exchange_dir exchange_id w) l) (λ dir l w,
  let path := path_join dir ($"stream.ndjson") in
  let payload := json_text (object [($"frame", JString raw_frame)]) in
  ledger_then (with_ledger (fs_append path payload w) l) (λ _ l w,
  ledger_then (with_ledger (fs_append path [Byte.x0a] w) l) (λ _ l w,
  ledger_then
    (update_exchange exchange_id
       (λ r, mkExchangeArtifactRecord (er_exchange_id r) (er_endpoint r) (er_model r)
               (er_provider_request_id r) (er_status_code r) (er_request_path r)
               (er_response_path r) (Some path)) l w)
    (λ _ l w, (Ok path, l, w))))).

Definition ledger_create (s : Session) (w : W) : result io_kind unit * SessionLedger * W :=
  ledger_then (with_ledger (fs_create_dir_all (lp_exchanges_dir paths) w) (ledger_new s))
    (λ _ l w, note id l w).

End ledger.

(** ** What the ledger does besides

    An operation of the ledger only writes files: whatever else is observed of the world stays as it
    is, and the operation fails only if one on files does. *)

(** What writing files leaves alone. *)
Class FsQuiet {W O : Type} `{!FileSystem W} (obs : W → O) : Prop := {
  dir_obs path w : obs (fs_create_dir_all path w).2 = obs w;
  write_obs path bs w : obs (fs_write path bs w).2 = obs w;
  append_obs path bs w : obs (fs_append path bs w).2 = obs w
}.

Section quiet.
Context {W O : Type} `{!FileSystem W} `{JsonText} `{TurnText} `{LedgerText}.
Context (obs : W → O) `{!FsQuiet obs}.

(** An operation on files that fails. *)
Definition fs_failure (err : io_kind) : Prop :=
  ∃ path bs w, (fs_create_dir_all path w).1 = Err err ∨ (fs_write path bs w).1 = Err err
               ∨ (fs_append path bs w).1 = Err err.

(** An operation of the ledger sends nothing, and fails only if an operation on files does. *)
Definition quiet {A} (w : W) (r : result io_kind A * SessionLedger * W) : Prop :=
  obs r.2 = obs w ∧ ∀ err, r.1.1 = Err err → fs_failure err.
Definition quiet_fs {A} (w : W) (r : result io_kind A * W) : Prop :=
  obs r.2 = obs w ∧ ∀ err, r.1 = Err err → fs_failure err.

Lemma quiet_dir path w : quiet_fs w (fs_create_dir_all path w).
Proof. split; [apply dir_obs|]. intros err He. exists path, [], w. auto. Qed.
Lemma quiet_write path bs w : quiet_fs w (fs_write path bs w).
Proof. split; [apply write_obs|]. intros err He. exists path, bs, w. auto. Qed.
Lemma quiet_append path bs w : quiet_fs w (fs_append path bs w).
Proof. split; [apply append_obs|]. intros err He. exists path, bs, w. auto. Qed.
Lemma quiet_fs_then {A B} w (r : result io_kind A * W) (k : A → W → result io_kind B * W) :
  quiet_fs w r → (∀ a w', quiet_fs w' (k a w')) → quiet_fs w (fs_then r k).
Proof.
  intros [Hr He] Hk. destruct r as [[a|err] w']; cbn in *; [|split; [done|intros ? [= <-]; auto]].
  destruct (Hk a w') as [Hk1 Hk2]. split; [congruence|done].
Qed.
Lemma quiet_with {A} w (r : result io_kind A * W) l : quiet_fs w r → quiet w (with_ledger r l).
Proof. done. Qed.
Lemma quiet_then {A B} w (r : result io_kind A * SessionLedger * W)
    (k : A → SessionLedger → W → result io_kind B * SessionLedger * W) :
  quiet w r → (∀ a l w', quiet w' (k a l w')) → quiet w (ledger_then r k).
Proof.
  intros [Hr He] Hk. destruct r as [[[a|err] l'] w']; cbn in *; [|split; [done|intros ? [= <-]; auto]].
  destruct (Hk a l' w') as [Hk1 Hk2]. split; [congruence|done].
Qed.
Lemma quiet_ok {A} w (a : A) l : quiet w (Ok a, l, w).
Proof. by split. Qed.
Lemma quiet_fs_ok {A} w (a : A) : quiet_fs w (Ok a, w).
Proof. by split. Qed.
Lemma quiet_note paths change l w : quiet w (note paths change l w).
Proof.
  unfold note, persist_snapshot.
  pose proof (quiet_fs_then w _ (λ _ w, fs_write (lp_path paths) (ledger_text (change l)) w)
    (quiet_dir (lp_root paths) w) (λ _ w', quiet_write _ _ w')) as Hq.
  by destruct (fs_then _ _).
Qed.
#[local] Hint Resolve quiet_dir quiet_write quiet_append quiet_fs_then quiet_with quiet_then quiet_ok
  quiet_fs_ok quiet_note : quiet.

Lemma quiet_request paths exchange_id endpoint model content_type body parsed l w :
  quiet w (record_request paths exchange_id endpoint model content_type body parsed l w).
Proof.
  unfold record_request, exchange_dir, write_body_artifact, update_exchange.
  destruct parsed; [|destruct (is_text content_type)]; auto 10 with quiet.
Qed.
Lemma quiet_response paths exchange_id status request_id content_type body parsed l w :
  quiet w (record_response paths exchange_id status request_id content_type body parsed l w).
Proof.
  unfold record_response, exchange_dir, write_body_artifact, update_exchange, note_request_id.
  destruct parsed; [|destruct (is_text content_type)]; destruct request_id; auto 12 with quiet.
Qed.
Lemma quiet_frame paths exchange_id raw_frame l w :
  quiet w (append_stream_frame paths exchange_id raw_frame l w).
Proof. unfold append_stream_frame, exchange_dir, update_exchange. auto 12 with quiet. Qed.

End quiet.
