(* ===== verification/CxtxHttp.v ===== *)
(** * CxtxHttp: the client of the gateway

    [cxtx/src/cxdb_http.rs]: creating a context and appending an item over HTTP, after making sure
    that the type of items is registered. Sending a request belongs to the world [W]; the
    bundle of the registry is a file of the program. *)

From S2P Require Import Prelude Bytes External Json JsonCodec Conversation.

Open Scope N_scope.

Inductive CxdbError : Type :=
| Retriable (err : rstr)
| Permanent (err : rstr).

(** [reqwest::Error]: whether it is one of [is_connect], [is_timeout] and [is_request], and its text. *)
Record ReqwestError : Type := mkReqwestError { rw_transient : bool; rw_text : rstr }.

Inductive OutMethod : Type := OGet | OPost | OPut.
Record OutRequest : Type := mkOutRequest {
  or_method : OutMethod;
  or_url : rstr;
  or_client_tag : rstr;
  or_json : option json
}.
(** The status and the body, as far as it could be read. *)
Record OutResponse : Type := mkOutResponse { os_status : N; os_body : result ReqwestError bytes }.

(** Sending, [base_url.join], and the texts of a status and of an error of a struct. *)
Class HttpSend (W : Type) : Type := http_send : OutRequest → W → result ReqwestError OutResponse * W.
Class HttpTexts : Type := {
  url_join : rstr → result rstr rstr;
  status_text : N → rstr;
  struct_error : DecodeError → rstr
}.

Definition classify_reqwest_error (err : ReqwestError) : CxdbError :=
  if rw_transient err then Retriable (rw_text err) else Permanent (rw_text err).

(** [is_success] and [is_server_error]. *)
Definition is_success (status : N) : bool := (200 <=? status) && (status <? 300).
Definition is_server_error (status : N) : bool := (500 <=? status) && (status <? 600).

Inductive FlexibleId : Type := FString (s : rstr) | FNumber (n : N).
Definition de_flexible_id (j : json) : option FlexibleId :=
  match j with
  | JString s => Some (FString s)
  | JNumber (PosInt n) => Some (FNumber n)
  | _ => None
  end.
Definition into_u64 (id : FlexibleId) : result rstr N :=
  match id with
  | FString value => ok_or ($"failed to parse identifier " ++ value) (parse_u64 value)
  | FNumber n => Ok n
  end.

Section client.
Context `{JsonText} `{HttpTexts}.

Definition classify_status (status : N) (body : rstr) : CxdbError :=
  let text := status_text status ++ $": " ++ body in
  if is_server_error status then Retriable text else Permanent text.

(** [response.text()] for a message, decoded as UTF-8, and empty if it cannot be read. *)
Definition body_text (response : OutResponse) : rstr :=
  match os_body response with Ok body => from_utf8_lossy body | Err _ => [] end.

(** [response.json()] into a struct with one identifier. *)
Definition json_id (field : rstr) (response : OutResponse) : result CxdbError FlexibleId :=
  body ← map_err (λ e, Permanent (rw_text e)) (os_body response);
  map_err (λ e, Permanent (struct_error e))
    (j ← map_err SyntaxOf (json_parse body);
     fields ← struct_fields [field] j;
     match fields with
     | (_, Some value) :: _ => ok_or (DataOf field) (de_flexible_id value)
     | _ => Err (DataOf field)
     end).

(** [CxdbHttpClient]: [registry_ready] changes. *)
Record CxdbHttpClient : Type := mkCxdbHttpClient {
  hc_client_tag : rstr;
  hc_registry_ready : bool
}.
Definition cxdb_http_client_new (client_tag : rstr) : CxdbHttpClient := mkCxdbHttpClient client_tag false.

Context {W : Type} `{!HttpSend W}.

(** The request with its URL, and its response. *)
Definition send (method : OutMethod) (path : rstr) (body : option json) (client : CxdbHttpClient)
    (w : W) : result CxdbError OutResponse * W :=
  match url_join path with
  | Err err => (Err (Permanent err), w)
  | Ok url =>
      let '(response, w) := http_send (mkOutRequest method url (hc_client_tag client) body) w in
      (map_err classify_reqwest_error response, w)
  end.

(** A response of success, or the error that it stands for. *)
Definition successful (response : OutResponse) : result CxdbError OutResponse :=
  if is_success (os_status response) then Ok response
  else Err (classify_status (os_status response) (body_text response)).

Definition create_context (client : CxdbHttpClient) (w : W) : result CxdbError N * W :=
  let '(response, w) :=
    send OPost ($"/v1/contexts/create") (Some (object [($"base_turn_id", JString ($"0"))])) client w in
  (response ← response;
   response ← successful response;
   id ← json_id ($"context_id") response;
   map_err Permanent (into_u64 id), w).

(** The bundle of the file [conversation_registry_bundle.json], and its [bundle_id]. *)
Variable bundle : json.

Definition descriptor_path : rstr :=
  $"/v1/registry/types/" ++ TypeIDConversationItem ++ $"/versions/" ++ show_N TypeVersionConversationItem.

Definition ready (client : CxdbHttpClient) : CxdbHttpClient := mkCxdbHttpClient (hc_client_tag client) true.

Definition ensure_conversation_type_registered (client : CxdbHttpClient) (w : W)
    : result CxdbError unit * CxdbHttpClient * W :=
  if hc_registry_ready client then (Ok tt, client, w)
  else
    match send OGet descriptor_path None client w with
    | (Err e, w) => (Err e, client, w)
    | (Ok response, w) =>
        if is_success (os_status response) then (Ok tt, ready client, w)
        else if negb (os_status response =? 404) then
          (Err (classify_status (os_status response) (body_text response)), client, w)
        else
          match json_get bundle ($"bundle_id") ≫= as_str with
          | None => (Err (Permanent ($"bundled registry missing bundle_id")), client, w)
          | Some bundle_id =>
              let '(response, w) :=
                send OPut ($"/v1/registry/bundles/" ++ bundle_id) (Some bundle) client w in
              match response ≫= successful with
              | Err e => (Err e, client, w)
              | Ok _ => (Ok tt, ready client, w)
              end
          end
    end.

Definition append_turn (context_id : N) (item : ConversationItem) (client : CxdbHttpClient) (w : W)
    : result CxdbError FlexibleId * CxdbHttpClient * W :=
  match ensure_conversation_type_registered client w with
  | (Err e, client, w) => (Err e, client, w)
  | (Ok _, client, w) =>
      let '(response, w) :=
        send OPost ($"/v1/contexts/" ++ show_N context_id ++ $"/append")
          (Some (object [($"type_id", JString TypeIDConversationItem);
                         ($"type_version", json_nat TypeVersionConversationItem);
                         ($"data", conversation_item_payload item)])) client w in
      (response ← response;
       response ← successful response;
       json_id ($"turn_id") response, client, w)
  end.

End client.
