(* ===== verification/CxtxDelivery.v ===== *)
(** * CxtxDelivery: the worker that delivers turns

    [cxtx/src/delivery.rs]: a queue of turns that one task appends to a context, keeping a turn at
    the front until the server took it. The worker alternates between the beginning of a round,
    which ends when it waits for the server, and the rest of the round; between the two, and between
    rounds, other tasks send messages and take ordinals. Times are in milliseconds. *)

From S2P Require Import Prelude Bytes External Json JsonCodec Conversation CxtxProvider CxtxTurns.
From S2P Require Import CxtxSession CxtxLedger CxtxHttp.

Open Scope N_scope.

Definition INITIAL_RETRY_DELAY : N := 250.
Definition MAX_RETRY_DELAY : N := 5000.
Definition SHUTDOWN_DRAIN_TIMEOUT : N := 5000.
(** The capacity of the channel to the worker. *)
Definition CHANNEL_CAPACITY : N := 1024.

Inductive QueueItem : Type :=
| CreateContext
| Append (turn : TurnEnvelope).
Inductive WorkerMessage : Type :=
| Enqueue (item : QueueItem)
| Shutdown.

(** The client of the server and the clock. *)
Class CxdbClient (W : Type) : Type := {
  cx_create_context : W → result CxdbError N * W;
  cx_append_turn : N → ConversationItem → W → result CxdbError unit * W;
  cx_now : W → N;
  cx_date : W → Z;
  cx_sleep : N → W → W
}.

Record DeliveryWorker : Type := mkDeliveryWorker {
  dw_queue : list QueueItem;
  dw_context_id : option N;
  dw_degraded : bool;
  dw_retry_delay : N;
  dw_shutdown : bool;
  dw_shutdown_deadline : option N;
  dw_recovery_turn_enqueued : bool
}.
Definition worker_new : DeliveryWorker :=
  mkDeliveryWorker [] None false INITIAL_RETRY_DELAY false None false.

Definition set_queue (queue : list QueueItem) (d : DeliveryWorker) : DeliveryWorker :=
  mkDeliveryWorker queue (dw_context_id d) (dw_degraded d) (dw_retry_delay d) (dw_shutdown d)
    (dw_shutdown_deadline d) (dw_recovery_turn_enqueued d).
Definition set_mode (degraded recovery : bool) (d : DeliveryWorker) : DeliveryWorker :=
  mkDeliveryWorker (dw_queue d) (dw_context_id d) degraded (dw_retry_delay d) (dw_shutdown d)
    (dw_shutdown_deadline d) recovery.
Definition set_retry_delay (delay : N) (d : DeliveryWorker) : DeliveryWorker :=
  mkDeliveryWorker (dw_queue d) (dw_context_id d) (dw_degraded d) delay (dw_shutdown d)
    (dw_shutdown_deadline d) (dw_recovery_turn_enqueued d).
Definition set_context_id (context_id : N) (d : DeliveryWorker) : DeliveryWorker :=
  mkDeliveryWorker (dw_queue d) (Some context_id) (dw_degraded d) (dw_retry_delay d) (dw_shutdown d)
    (dw_shutdown_deadline d) (dw_recovery_turn_enqueued d).
Definition set_shutdown (shutdown : bool) (deadline : option N) (d : DeliveryWorker) : DeliveryWorker :=
  mkDeliveryWorker (dw_queue d) (dw_context_id d) (dw_degraded d) (dw_retry_delay d) shutdown
    deadline (dw_recovery_turn_enqueued d).

(** Where the worker is: at the beginning of a round, waiting for the server with an item, or gone,
    with the acknowledgement of the shutdown or without. *)
Inductive Phase : Type := Idle | Processing (item : QueueItem) | Finished | Stopped.

Record Delivery (W : Type) : Type := mkDelivery {
  dv_phase : Phase;
  dv_worker : DeliveryWorker;
  dv_rx : list WorkerMessage;
  dv_connected : bool;
  dv_state : SessionState;
  dv_ledger : SessionLedger;
  dv_world : W
}.
Arguments mkDelivery {W} _ _ _ _ _ _ _.
Arguments dv_phase {W} _.
Arguments dv_worker {W} _.
Arguments dv_rx {W} _.
Arguments dv_connected {W} _.
Arguments dv_state {W} _.
Arguments dv_ledger {W} _.
Arguments dv_world {W} _.

Definition error_string (err : CxdbError) : rstr :=
  match err with Retriable err | Permanent err => err end.

Definition health (d : DeliveryWorker) : rstr := if dw_degraded d then $"degraded" else $"healthy".

Section delivery.
Context {W : Type} `{!CxdbClient W} `{!FileSystem W} `{LedgerText} `{TurnText}.
Context (paths : LedgerPaths) (s : Session).

(** A note in the ledger, whose failure is ignored. *)
Definition noted (op : SessionLedger → W → result io_kind unit * SessionLedger * W)
    (l : SessionLedger) (w : W) : SessionLedger * W :=
  let '(_, l, w) := op l w in (l, w).

Definition handle_message (message : WorkerMessage) (d : DeliveryWorker) (l : SessionLedger) (w : W)
    : DeliveryWorker * SessionLedger * W :=
  match message with
  | Enqueue item =>
      let d := set_queue (dw_queue d ++ [item]) d in
      let '(l, w) := noted (note_delivery_state paths (health d) (len (dw_queue d)) None) l w in
      (d, l, w)
  | Shutdown => (set_shutdown true (Some (cx_now w + SHUTDOWN_DRAIN_TIMEOUT)) d, l, w)
  end.

Fixpoint handle_messages (messages : list WorkerMessage) (d : DeliveryWorker) (l : SessionLedger)
    (w : W) : DeliveryWorker * SessionLedger * W :=
  match messages with
  | [] => (d, l, w)
  | message :: messages =>
      let '(d, l, w) := handle_message message d l w in handle_messages messages d l w
  end.

Definition process_item (item : QueueItem) (d : DeliveryWorker) (l : SessionLedger) (w : W)
    : result rstr unit * DeliveryWorker * SessionLedger * W :=
  match item with
  | CreateContext =>
      match cx_create_context w with
      | (Ok context_id, w) =>
          let '(l, w) := noted (note_context_created paths context_id) l w in
          (Ok tt, set_context_id context_id d, l, w)
      | (Err err, w) => (Err (error_string err), d, l, w)
      end
  | Append turn =>
      match dw_context_id d with
      | None => (Err ($"context creation has not completed"), d, l, w)
      | Some context_id =>
          match cx_append_turn context_id (te_item turn) w with
          | (Ok _, w) =>
              let '(l, w) := noted (note_append_sequence paths (te_ordinal turn)) l w in
              (Ok tt, d, l, w)
          | (Err err, w) => (Err (error_string err), d, l, w)
          end
      end
  end.

Definition enter_degraded (error : rstr) (d : DeliveryWorker) (st : SessionState) (l : SessionLedger)
    (w : W) : DeliveryWorker * SessionState * SessionLedger * W :=
  let '(l, w) := noted (note_delivery_state paths ($"degraded") (len (dw_queue d)) (Some error)) l w in
  if dw_degraded d then (d, st, l, w)
  else
    let d := set_mode true false d in
    let '(turn, st) := ingest_degraded_turn s (len (dw_queue d)) error (cx_date w) st in
    (set_queue (dw_queue d ++ [Append turn]) d, st, l, w).

(** Whether the worker ends, and the notes it makes before. *)
Definition maybe_finish_shutdown (d : DeliveryWorker) (l : SessionLedger) (w : W)
    : bool * DeliveryWorker * SessionLedger * W :=
  if negb (dw_shutdown d) then (false, d, l, w)
  else
    let expired := match dw_shutdown_deadline d with
                   | Some deadline => deadline <=? cx_now w
                   | None => false
                   end in
    let '(l, w) :=
      if expired
      then noted (note_delivery_state paths (health d) (len (dw_queue d))
                    (Some ($"shutdown drain deadline reached"))) l w
      else (l, w) in
    if bool_decide (dw_queue d = []) || expired
    then (true, set_shutdown false (dw_shutdown_deadline d) d, l, w)
    else (false, d, l, w).

(** The beginning of a round; [None] while the worker waits for a message. *)
Definition begin_round (v : Delivery W) : option (Delivery W) :=
  match maybe_finish_shutdown (dv_worker v) (dv_ledger v) (dv_world v) with
  | (true, d, l, w) => Some (mkDelivery Finished d (dv_rx v) (dv_connected v) (dv_state v) l w)
  | (false, d, l, w) =>
      match dw_queue d with
      | [] =>
          match dv_rx v with
          | message :: rx =>
              let '(d, l, w) := handle_message message d l w in
              Some (mkDelivery Idle d rx (dv_connected v) (dv_state v) l w)
          | [] =>
              if dv_connected v then None
              else Some (mkDelivery Stopped d [] false (dv_state v) l w)
          end
      | _ =>
          let '(d, l, w) := handle_messages (dv_rx v) d l w in
          match head (dw_queue d) with
          | Some item => Some (mkDelivery (Processing item) d [] (dv_connected v) (dv_state v) l w)
          | None => Some (mkDelivery Idle d [] (dv_connected v) (dv_state v) l w)
          end
      end
  end.

(** After an item was taken by the server. *)
Definition delivered (item : QueueItem) (d : DeliveryWorker) (st : SessionState) (l : SessionLedger)
    (w : W) : DeliveryWorker * SessionState * SessionLedger * W :=
  let d := set_retry_delay INITIAL_RETRY_DELAY (set_queue (tail (dw_queue d)) d) in
  match dw_queue d with
  | _ :: _ => (d, st, l, w)
  | [] =>
      if dw_degraded d && negb (dw_recovery_turn_enqueued d) then
        let '(turn, st) := ingest_recovered_turn s 0 (cx_date w) st in
        (set_queue [Append turn] (set_mode (dw_degraded d) true d), st, l, w)
      else if dw_degraded d && dw_recovery_turn_enqueued d
              && match item with Append _ => true | CreateContext => false end
      then
        let d := set_mode false false d in
        let '(l, w) := noted (note_delivery_state paths ($"healthy") 0 None) l w in
        (d, st, l, w)
      else (d, st, l, w)
  end.

(** The rest of a round: the answer of the server, and what follows. *)
Definition finish_round (item : QueueItem) (v : Delivery W) : Delivery W :=
  let '(processed, d, l, w) := process_item item (dv_worker v) (dv_ledger v) (dv_world v) in
  match processed with
  | Ok _ =>
      let '(d, st, l, w) := delivered item d (dv_state v) l w in
      mkDelivery Idle d (dv_rx v) (dv_connected v) st l w
  | Err err =>
      let '(d, st, l, w) := enter_degraded err d (dv_state v) l w in
      let sleep_for :=
        match dw_shutdown_deadline d with
        | Some deadline => N.min (deadline - cx_now w) (dw_retry_delay d)
        | None => dw_retry_delay d
        end in
      let w := cx_sleep sleep_for w in
      mkDelivery Idle (set_retry_delay (N.min (dw_retry_delay d * 2) MAX_RETRY_DELAY) d) (dv_rx v)
        (dv_connected v) st l w
  end.

(** One step of the worker, where it does not wait. *)
Definition worker_step (v : Delivery W) : option (Delivery W) :=
  match dv_phase v with
  | Idle => begin_round v
  | Processing item => Some (finish_round item v)
  | Finished | Stopped => None
  end.

(** ** The handle *)

(** [DeliveryHandle::start], and sending a message: it fails when the worker is gone, and waits
    while the channel is full. *)
Definition delivery_start (st : SessionState) (l : SessionLedger) (w : W) : Delivery W :=
  mkDelivery Idle worker_new [] true st l w.
Definition send_message (message : WorkerMessage) (v : Delivery W) : option (bool * Delivery W) :=
  match dv_phase v with
  | Finished | Stopped => Some (false, v)
  | _ =>
      if len (dv_rx v) <? CHANNEL_CAPACITY then
        Some (true, mkDelivery (dv_phase v) (dv_worker v) (dv_rx v ++ [message]) (dv_connected v)
                      (dv_state v) (dv_ledger v) (dv_world v))
      else None
  end.
Definition enqueue_create_context := send_message (Enqueue CreateContext).
Definition enqueue_turn (turn : TurnEnvelope) := send_message (Enqueue (Append turn)).
Definition request_shutdown := send_message Shutdown.

End delivery.
