(* ===== verification/CxtxDeliverySpec.v ===== *)
(** * CxtxDeliverySpec: what the delivery worker guarantees

    Every turn that was sent is taken by the server in the order of sending, at least once, with the
    notices of an outage in between; what is pending drains when the server answers; and a turn at
    the front that the server never takes holds up everything behind it. *)

From S2P Require Import Prelude Bytes External Json JsonCodec Conversation CxtxProvider CxtxTurns.
From S2P Require Import CxtxSession CxtxLedger CxtxHttp CxtxDelivery.

Open Scope N_scope.

(** ** Items *)

Definition is_notice_title (title : rstr) : bool :=
  bool_decide (title = $"ingest_degraded" ∨ title = $"ingest_recovered").

(** The notices of the worker are the system messages with these two titles. *)
Definition is_notice (item : QueueItem) : bool :=
  match item with
  | CreateContext => false
  | Append turn =>
      match ci_system (te_item turn) with
      | Some system => is_notice_title (sm_title system)
      | None => false
      end
  end.
Definition turns_of (items : list QueueItem) : list ConversationItem :=
  omap (λ item, match item with Append turn => Some (te_item turn) | CreateContext => None end) items.
Definition items_of (messages : list WorkerMessage) : list QueueItem :=
  omap (λ m, match m with Enqueue item => Some item | Shutdown => None end) messages.
Definition sent_items (items : list QueueItem) : list QueueItem := filter (λ i, is_notice i = false) items.

(** The titles of the notices. *)
Definition notices (items : list QueueItem) : list rstr :=
  omap (λ item, match item with
                | Append turn =>
                    system ← ci_system (te_item turn);
                    if is_notice_title (sm_title system) then Some (sm_title system) else None
                | CreateContext => None
                end) items.

(** The second list has one or more copies of each element of the first one, in order. *)
Inductive copies {A} : list A → list A → Prop :=
| copies_nil : copies [] []
| copies_snoc l m x k : copies l m → copies (l ++ [x]) (m ++ replicate (S k) x).

Lemma turns_of_app l1 l2 : turns_of (l1 ++ l2) = turns_of l1 ++ turns_of l2.
Proof. apply omap_app. Qed.
Lemma items_of_app l1 l2 : items_of (l1 ++ l2) = items_of l1 ++ items_of l2.
Proof. apply omap_app. Qed.
Lemma items_of_cons m l : items_of (m :: l) = items_of [m] ++ items_of l.
Proof. by destruct m. Qed.
Lemma notices_app l1 l2 : notices (l1 ++ l2) = notices l1 ++ notices l2.
Proof. apply omap_app. Qed.
Lemma sent_items_app l1 l2 : sent_items (l1 ++ l2) = sent_items l1 ++ sent_items l2.
Proof. apply filter_app. Qed.

(** Pairs of the two notices, and the first of a pair while the outage lasts. *)
Fixpoint outages (n : nat) : list rstr :=
  match n with
  | O => []
  | S n => $"ingest_degraded" :: $"ingest_recovered" :: outages n
  end.
Lemma outages_S n : outages n ++ [$"ingest_degraded"; $"ingest_recovered"] = outages (S n).
Proof. induction n as [|n IH]; [done|]. cbn [outages app]. by rewrite IH. Qed.

(** ** Runs *)

(** What is observed of the world, and how the calls of the worker change it. *)
Class DeliveryLaws (W : Type) `{!CxdbClient W} `{!FileSystem W} (log : W → list ConversationItem)
    : Prop := {
  create_log w : log (cx_create_context w).2 = log w;
  append_log c item w :
    match cx_append_turn c item w with
    | (Ok _, w') => log w' = log w ++ [item]
    | (Err _, w') => log w' = log w ∨ log w' = log w ++ [item]
    end;
  sleep_log d w : log (cx_sleep d w) = log w;
  create_dir_log path w : log (fs_create_dir_all path w).2 = log w;
  write_log path bs w : log (fs_write path bs w).2 = log w
}.

Section spec.
Context {W : Type} `{!CxdbClient W} `{!FileSystem W} `{LedgerText} `{TurnText}.
Context (log : W → list ConversationItem) `{!DeliveryLaws W log} (paths : LedgerPaths) (s : Session).

#[local] Notation worker_step := (worker_step paths s).
#[local] Notation begin_round := (begin_round paths).
#[local] Notation finish_round := (finish_round paths s).
#[local] Notation process_item := (process_item paths).

(** Whether the server takes the item. *)
Definition takes (item : QueueItem) (v : Delivery W) : bool :=
  is_ok (process_item item (dv_worker v) (dv_ledger v) (dv_world v)).1.1.1.

(** Runs of the worker between the steps of other tasks, with the items that were sent so far and
    those that the server took: a task sends a message, uses the session or the ledger, or drops
    its handle, and the world moves on without touching the context. *)
Inductive deliveries : list QueueItem → list QueueItem → Delivery W → Prop :=
| del_start st l w : log w = [] → deliveries [] [] (delivery_start st l w)
| del_begin sent taken v v' :
    deliveries sent taken v → dv_phase v = Idle → begin_round v = Some v' → deliveries sent taken v'
| del_finish sent taken v item :
    deliveries sent taken v → dv_phase v = Processing item →
    deliveries sent (if takes item v then taken ++ [item] else taken) (finish_round item v)
| del_send sent taken v v' item :
    deliveries sent taken v → is_notice item = false →
    send_message (Enqueue item) v = Some (true, v') → deliveries (sent ++ [item]) taken v'
| del_shutdown sent taken v v' :
    deliveries sent taken v → send_message Shutdown v = Some (true, v') → deliveries sent taken v'
| del_other sent taken v connected st l w :
    deliveries sent taken v → log w = log (dv_world v) →
    deliveries sent taken (mkDelivery (dv_phase v) (dv_worker v) (dv_rx v) connected st l w).

(** What holds of the queue and the world. *)
Record delivery_ok (taken : list QueueItem) (d : DeliveryWorker) (w : W) : Prop := {
  do_log : ∃ m rest, copies (turns_of taken) m ∧ log w = m ++ rest
    ∧ (rest = [] ∨ ∃ turn k, head (dw_queue d) = Some (Append turn) ∧ rest = replicate k (te_item turn));
  do_notices : ∃ n, notices (taken ++ dw_queue d)
    = outages n ++ (if dw_degraded d && negb (dw_recovery_turn_enqueued d) then [$"ingest_degraded"] else []);
  do_recovery : dw_degraded d = false → dw_recovery_turn_enqueued d = false;
  do_delay : INITIAL_RETRY_DELAY ≤ dw_retry_delay d ≤ MAX_RETRY_DELAY
}.

Lemma noted_log op l w l' w' :
  (∀ l w, log (op l w).2 = log w) → noted op l w = (l', w') → log w' = log w.
Proof.
  intros Hop. unfold noted. destruct (op l w) as [[r l1] w1] eqn:Ho. intros [= <- <-].
  specialize (Hop l w). by rewrite Ho in Hop.
Qed.
Lemma note_log change l w : log (note paths change l w).2 = log w.
Proof.
  unfold note, persist_snapshot, fs_then.
  pose proof (create_dir_log (log := log) (lp_root paths) w) as Hc.
  destruct (fs_create_dir_all _ w) as [[[]|e] w1]; cbn [snd] in Hc; [|done].
  pose proof (write_log (log := log) (lp_path paths) (ledger_text (change l)) w1) as Hw.
  destruct (fs_write _ _ w1) as [r w2]. cbn [snd] in *. congruence.
Qed.

(** More items behind the others do not change what is at the front. *)
Lemma log_pushed taken d w items :
  (∃ m rest, copies (turns_of taken) m ∧ log w = m ++ rest
    ∧ (rest = [] ∨ ∃ turn k, head (dw_queue d) = Some (Append turn) ∧ rest = replicate k (te_item turn))) →
  ∃ m rest, copies (turns_of taken) m ∧ log w = m ++ rest
    ∧ (rest = [] ∨ ∃ turn k, head (dw_queue d ++ items) = Some (Append turn)
                             ∧ rest = replicate k (te_item turn)).
Proof.
  intros (m & rest & Hm & Hl & Hr). exists m, rest. split_and!; [done|done|].
  destruct Hr as [|(turn & k & Hh & ->)]; [by left|]. right. exists turn, k. split; [|done].
  by destruct (dw_queue d).
Qed.

Lemma is_notice_notices item : is_notice item = false → notices [item] = [].
Proof.
  unfold is_notice, notices. destruct item as [|turn]; [done|]. cbn.
  destruct (ci_system (te_item turn)) as [system|]; [cbn|done]. by intros ->.
Qed.

Lemma handle_message_kept taken message d l w d' l' w' :
  (∀ item, message = Enqueue item → is_notice item = false) →
  delivery_ok taken d w → handle_message paths message d l w = (d', l', w') →
  delivery_ok taken d' w' ∧ log w' = log w
  ∧ dw_queue d' = dw_queue d ++ items_of [message] ∧ dw_context_id d' = dw_context_id d.
Proof.
  intros Hm [Hl Hn Hr Hd]. destruct message as [item|]; cbn [handle_message].
  - destruct (noted _ l w) as [l1 w1] eqn:Hno. apply noted_log in Hno; [|intros; apply note_log].
    intros [= <- <- <-]. split_and!; try done. split; cbn [set_queue dw_queue dw_degraded
      dw_recovery_turn_enqueued dw_retry_delay]; try done.
    + rewrite Hno. by apply log_pushed.
    + destruct Hn as [n Hn]. exists n.
      rewrite app_assoc, notices_app, (is_notice_notices item), app_nil_r by auto. done.
  - intros [= <- <- <-]. cbn. rewrite app_nil_r. split_and!; try done.
Qed.

Lemma handle_messages_ok taken messages d l w d' l' w' :
  (∀ item, item ∈ items_of messages → is_notice item = false) →
  delivery_ok taken d w → handle_messages paths messages d l w = (d', l', w') →
  delivery_ok taken d' w' ∧ log w' = log w
  ∧ dw_queue d' = dw_queue d ++ items_of messages ∧ dw_context_id d' = dw_context_id d.
Proof.
  revert d l w. induction messages as [|message messages IH]; intros d l w Hm Hok; cbn [handle_messages].
  { intros [= <- <- <-]. by rewrite app_nil_r. }
  rewrite items_of_cons. rewrite items_of_cons in Hm.
  destruct (handle_message paths message d l w) as [[d1 l1] w1] eqn:H1.
  assert (Hm1 : ∀ item, message = Enqueue item → is_notice item = false)
    by (intros item ->; apply Hm, elem_of_app; left; by left).
  destruct (handle_message_kept _ _ _ _ _ _ _ _ Hm1 Hok H1) as (Hok1 & Hl1 & Hq1 & Hc1).
  assert (Hm2 : ∀ item, item ∈ items_of messages → is_notice item = false)
    by (intros item Hi; apply Hm, elem_of_app; by right).
  intros H2. destruct (IH _ _ _ Hm2 Hok1 H2) as (Hok2 & Hl2 & Hq2 & Hc2).
  split_and!; [done|congruence| |congruence]. by rewrite Hq2, Hq1, app_assoc.
Qed.

(** The log, given what was taken and what is at the front. *)
Definition log_ok (taken : list QueueItem) (front : option QueueItem) (w : W) : Prop :=
  ∃ m rest, copies (turns_of taken) m ∧ log w = m ++ rest
    ∧ (rest = [] ∨ ∃ turn k, front = Some (Append turn) ∧ rest = replicate k (te_item turn)).

Lemma replicate_snoc {A} k (x : A) : replicate k x ++ [x] = replicate (S k) x.
Proof. rewrite replicate_S_end. done. Qed.

(** One more copy of the turn at the front. *)
Lemma log_ok_copy taken turn w :
  log_ok taken (Some (Append turn)) w →
  ∃ m k, copies (turns_of taken) m ∧ log w ++ [te_item turn] = m ++ replicate (S k) (te_item turn).
Proof.
  intros (m & rest & Hm & Hl & Hr). destruct Hr as [->|(turn' & k & [= <-] & ->)].
  - exists m, O. split; [done|]. by rewrite Hl, app_nil_r.
  - exists m, k. split; [done|]. rewrite Hl, <- app_assoc. by rewrite replicate_snoc.
Qed.

(** Waiting for the server changes the context at most. *)
Lemma process_item_ok taken item d l w :
  log_ok taken (Some item) w →
  match process_item item d l w with
  | (r, d', l', w') =>
      (d' = d ∨ ∃ c, d' = set_context_id c d)
      ∧ match r with
        | Ok _ => log_ok (taken ++ [item]) None w'
        | Err _ => log_ok taken (Some item) w'
        end
  end.
Proof.
  intros Hlog. unfold CxtxDelivery.process_item. destruct item as [|turn].
  - pose proof (create_log (log := log) w) as Hc.
    destruct (cx_create_context w) as [[c|e] w1]; cbn [snd] in Hc.
    + destruct (noted _ l w1) as [l2 w2] eqn:Hn. apply noted_log in Hn; [|intros; apply note_log].
      split; [right; by exists c|]. destruct Hlog as (m & rest & Hm & Hl & [->|(? & ? & [=] & _)]).
      exists m, []. rewrite turns_of_app, app_nil_r, Hn, Hc. split_and!; [done|done|by left].
    + split; [by left|]. destruct Hlog as (m & rest & Hm & Hl & Hr). exists m, rest. by rewrite Hc.
  - destruct (dw_context_id d) as [c|]; [|by split; [left|]].
    pose proof (append_log (log := log) c (te_item turn) w) as Ha.
    destruct (log_ok_copy _ _ _ Hlog) as (m & k & Hm & Hcopy).
    destruct (cx_append_turn c (te_item turn) w) as [[[]|e] w1].
    + destruct (noted _ l w1) as [l2 w2] eqn:Hn. apply noted_log in Hn; [|intros; apply note_log].
      split; [by left|]. exists (m ++ replicate (S k) (te_item turn)), [].
      rewrite Hn, Ha, Hcopy, app_nil_r, turns_of_app. split_and!; [by constructor|done|by left].
    + split; [by left|]. destruct Ha as [Ha|Ha].
      * destruct Hlog as (m' & rest & Hlog). exists m', rest. by rewrite Ha.
      * exists m, (replicate (S k) (te_item turn)). rewrite Ha, Hcopy.
        split_and!; [done|done|right; by eexists _, _].
Qed.

Lemma degraded_notice depth error now st turn st' :
  ingest_degraded_turn s depth error now st = (turn, st') →
  notices [Append turn] = [$"ingest_degraded"] ∧ is_notice (Append turn) = true.
Proof. unfold ingest_degraded_turn, envelope. destruct (next_turn_ordinal st). by intros [= <- <-]. Qed.
Lemma recovered_notice depth now st turn st' :
  ingest_recovered_turn s depth now st = (turn, st') →
  notices [Append turn] = [$"ingest_recovered"] ∧ is_notice (Append turn) = true.
Proof. unfold ingest_recovered_turn, envelope. destruct (next_turn_ordinal st). by intros [= <- <-]. Qed.

Lemma sent_notice item : is_notice item = true → sent_items [item] = [].
Proof. intros Hi. unfold sent_items. cbn. rewrite decide_False; [done|congruence]. Qed.

Lemma enter_degraded_ok taken error d st l w d' st' l' w' :
  dw_queue d ≠ [] → delivery_ok taken d w →
  enter_degraded paths s error d st l w = (d', st', l', w') →
  delivery_ok taken d' w' ∧ log w' = log w ∧ dw_retry_delay d' = dw_retry_delay d
  ∧ (∃ extra, dw_queue d' = dw_queue d ++ extra ∧ sent_items extra = [])
  ∧ dw_context_id d' = dw_context_id d.
Proof.
  intros Hne Hok. unfold enter_degraded. destruct (noted _ l w) as [l1 w1] eqn:Hn.
  apply noted_log in Hn; [|intros; apply note_log].
  assert (Hok1 : delivery_ok taken d w1) by (destruct Hok; split; [rewrite Hn|..]; done).
  destruct (dw_degraded d) eqn:Hd.
  { intros [= <- <- <- <-]. split_and!; try done. exists []. by rewrite app_nil_r. }
  destruct (ingest_degraded_turn _ _ _ _ _) as [turn st1] eqn:Ht.
  apply degraded_notice in Ht as [Ht1 Ht2]. intros [= <- <- <- <-].
  split_and!; try done; [|exists [Append turn]; split; [done|by apply sent_notice]].
  destruct Hok1 as [Hl [n Hno] Hr Hdel]. split; cbn; try done; [by apply log_pushed|].
  exists n. rewrite app_assoc, notices_app, Ht1, Hno, Hd, app_nil_r. done.
Qed.

Lemma delivered_ok taken item d st l w d' st' l' w' :
  head (dw_queue d) = Some item → log_ok (taken ++ [item]) None w →
  (∃ n, notices (taken ++ dw_queue d)
    = outages n ++ (if dw_degraded d && negb (dw_recovery_turn_enqueued d) then [$"ingest_degraded"] else [])) →
  (dw_degraded d = false → dw_recovery_turn_enqueued d = false) →
  delivered paths s item d st l w = (d', st', l', w') →
  delivery_ok (taken ++ [item]) d' w' ∧ log w' = log w
  ∧ (∃ extra, dw_queue d' = tail (dw_queue d) ++ extra ∧ sent_items extra = [])
  ∧ dw_context_id d' = dw_context_id d.
Proof.
  intros Hhead Hlog [n Hn] Hr. destruct (dw_queue d) as [|item' queue] eqn:Hq; [done|].
  injection Hhead as ->. unfold delivered, set_retry_delay, set_queue, set_mode. rewrite Hq.
  cbn [tail dw_queue dw_context_id dw_degraded dw_retry_delay dw_shutdown dw_shutdown_deadline
       dw_recovery_turn_enqueued].
  assert (Hlog' : ∀ queue, ∃ m rest, copies (turns_of (taken ++ [item])) m ∧ log w = m ++ rest
    ∧ (rest = [] ∨ ∃ turn k, head queue = Some (Append turn) ∧ rest = replicate k (te_item turn))).
  { intros queue'. destruct Hlog as (m & rest & ? & ? & [->|(? & ? & [=] & _)]). exists m, [].
    split_and!; [done|done|by left]. }
  assert (Hdelay : INITIAL_RETRY_DELAY ≤ INITIAL_RETRY_DELAY ≤ MAX_RETRY_DELAY) by (vm_compute; by split).
  rewrite (app_assoc taken [item] queue : taken ++ item :: queue = _) in Hn.
  destruct queue as [|next queue].
  2:{ intros [= <- <- <- <-]. split_and!; try done; [|exists []; by rewrite app_nil_r].
      split; cbn; try done; [by apply (Hlog' (next :: queue))|by exists n]. }
  rewrite app_nil_r in Hn. destruct (dw_degraded d) eqn:Hd; cbn [andb negb].
  2:{ intros [= <- <- <- <-]. split_and!; try done; [|by exists []].
      split; cbn; rewrite ?Hd, ?app_nil_r; try done. by exists n. }
  destruct (dw_recovery_turn_enqueued d) eqn:Hrec; cbn [andb negb] in Hn |- *.
  - assert (Hsame : delivery_ok (taken ++ [item]) (set_mode false false (set_retry_delay INITIAL_RETRY_DELAY
      (set_queue [] d))) w).
    { split; cbn; rewrite ?app_nil_r; try done. exists n. by rewrite Hn, !app_nil_r. }
    destruct item as [|turn].
    + intros [= <- <- <- <-]. split_and!; try done; [|by exists []].
      split; cbn; rewrite ?Hd, ?Hrec, ?app_nil_r; try done. by exists n.
    + destruct (noted _ l w) as [l1 w1] eqn:Hno. apply noted_log in Hno; [|intros; apply note_log].
      intros [= <- <- <- <-]. split_and!; try done; [|by exists []].
      destruct Hsame as [? ? ? ?]. split; [rewrite Hno|..]; done.
  - destruct (ingest_recovered_turn s 0 (cx_date w) st) as [turn st1] eqn:Ht.
    apply recovered_notice in Ht as [Ht1 Ht2]. intros [= <- <- <- <-].
    split_and!; try done; [|exists [Append turn]; split; [done|by apply sent_notice]].
    split; cbn; rewrite ?Hd; try done; [by apply (Hlog' [Append turn])|].
    exists (S n). rewrite notices_app, Ht1, Hn, <- app_assoc, app_nil_r. apply outages_S.
Qed.

Lemma maybe_finish_ok taken d l w b d' l' w' :
  delivery_ok taken d w → maybe_finish_shutdown paths d l w = (b, d', l', w') →
  delivery_ok taken d' w' ∧ log w' = log w ∧ dw_queue d' = dw_queue d
  ∧ dw_context_id d' = dw_context_id d ∧ (b = false → d' = d).
Proof.
  intros Hok. unfold maybe_finish_shutdown. destruct (negb _); [by intros [= <- <- <- <-]|].
  set (expired := match dw_shutdown_deadline d with Some _ => _ | None => false end).
  destruct (if expired then _ else _) as [l1 w1] eqn:He.
  assert (Hl : log w1 = log w).
  { destruct expired; [|by injection He as <- <-]. by apply noted_log in He; [|intros; apply note_log]. }
  assert (Hok1 : delivery_ok taken d w1) by (destruct Hok; split; [rewrite Hl|..]; done).
  destruct (_ || _); intros [= <- <- <- <-]; split_and!; try done. destruct Hok1. by split.
Qed.

Record run_ok (sent taken : list QueueItem) (v : Delivery W) : Prop := {
  ro_sent : sent_items (taken ++ dw_queue (dv_worker v) ++ items_of (dv_rx v)) = sent;
  ro_worker : delivery_ok taken (dv_worker v) (dv_world v);
  ro_front : ∀ item, dv_phase v = Processing item → head (dw_queue (dv_worker v)) = Some item;
  ro_rx : ∀ item, item ∈ items_of (dv_rx v) → is_notice item = false
}.

Lemma begin_round_ok sent taken v v' :
  run_ok sent taken v → begin_round v = Some v' → run_ok sent taken v'.
Proof.
  intros [Hs Hw _ Hrx]. unfold CxtxDelivery.begin_round.
  destruct (maybe_finish_shutdown _ _ _ _) as [[[b d] l] w] eqn:Hm.
  destruct (maybe_finish_ok _ _ _ _ _ _ _ _ Hw Hm) as (Hok & Hl & Hq & Hc & _). rewrite <- Hq in Hs.
  destruct b; [intros [= <-]; by split|]. destruct (dw_queue d) as [|front queue] eqn:Hdq.
  - destruct (dv_rx v) as [|message rx] eqn:Hr.
    { destruct (dv_connected v); [done|]. intros [= <-]. split; cbn; rewrite ?Hdq; try done. }
    destruct (handle_message paths message d l w) as [[d1 l1] w1] eqn:Hh. rewrite items_of_cons in Hs, Hrx.
    assert (Hm1 : ∀ item, message = Enqueue item → is_notice item = false)
      by (intros item ->; apply Hrx, elem_of_app; left; by left).
    destruct (handle_message_kept _ _ _ _ _ _ _ _ Hm1 Hok Hh) as (Hok1 & _ & Hq1 & _).
    intros [= <-]. split; cbn; try done.
    + by rewrite Hq1, Hdq.
    + intros item Hi. apply Hrx, elem_of_app. by right.
  - destruct (handle_messages paths (dv_rx v) d l w) as [[d1 l1] w1] eqn:Hh.
    destruct (handle_messages_ok _ _ _ _ _ _ _ _ Hrx Hok Hh) as (Hok1 & _ & Hq1 & _).
    rewrite Hdq in Hq1. rewrite Hq1. cbn [head app]. intros [= <-].
    split; cbn [dv_worker dv_rx dv_phase dv_world]; try done.
    + by rewrite Hq1, app_nil_r.
    + intros item [= <-]. by rewrite Hq1.
    + intros item Hi. by apply elem_of_nil in Hi.
Qed.

Lemma finish_round_ok sent taken v item :
  run_ok sent taken v → dv_phase v = Processing item →
  run_ok sent (if takes item v then taken ++ [item] else taken) (finish_round item v).
Proof.
  intros [Hs Hw Hfront Hrx] Hp. specialize (Hfront _ Hp). unfold takes, CxtxDelivery.finish_round.
  pose proof (process_item_ok taken item (dv_worker v) (dv_ledger v) (dv_world v)) as Hpi.
  destruct (process_item item (dv_worker v) (dv_ledger v) (dv_world v)) as [[[r d] l] w].
  cbn [fst]. destruct Hpi as [Hd Hr]; [rewrite <- Hfront; apply Hw|].
  assert (Hd' : dw_queue d = dw_queue (dv_worker v) ∧ dw_degraded d = dw_degraded (dv_worker v)
    ∧ dw_recovery_turn_enqueued d = dw_recovery_turn_enqueued (dv_worker v)
    ∧ dw_retry_delay d = dw_retry_delay (dv_worker v))
    by (destruct Hd as [->|[c ->]]; done).
  destruct Hd' as (Hq & Hdeg & Hrec & Hdel). destruct Hw as [_ Hn Hnr Hdl].
  rewrite <- Hq in *. rewrite <- Hdeg, <- Hrec in *.
  destruct r as [[]|err]; cbn [is_ok].
  - destruct (delivered paths s item d (dv_state v) l w) as [[[d1 st1] l1] w1] eqn:Hde.
    destruct (delivered_ok _ _ _ _ _ _ _ _ _ _ Hfront Hr Hn Hnr Hde)
      as (Hok & _ & (extra & Hq1 & Hex) & _).
    destruct (dw_queue d) as [|front queue] eqn:Hdq; [done|]. injection Hfront as ->.
    split; cbn [dv_worker dv_rx dv_phase dv_world]; try done. rewrite Hq1. cbn [tail].
    rewrite <- Hs. cbn [app]. change (item :: queue ++ items_of (dv_rx v)) with ([item] ++ queue ++ items_of (dv_rx v)).
    by rewrite !sent_items_app, Hex, app_nil_r, <- !app_assoc.
  - destruct (enter_degraded paths s err d (dv_state v) l w) as [[[d1 st1] l1] w1] eqn:Hde.
    assert (Hok0 : delivery_ok taken d w).
    { split; [by rewrite Hfront|done|done|by rewrite Hdel]. }
    assert (Hne : dw_queue d ≠ []) by (intros Hx; by rewrite Hx in Hfront).
    destruct (enter_degraded_ok _ _ _ _ _ _ _ _ _ _ Hne Hok0 Hde)
      as (Hok & Hl & Hdel1 & (extra & Hq1 & Hex) & _).
    split; cbn [dv_worker dv_rx dv_phase dv_world]; try done.
    + cbn [set_retry_delay dw_queue]. rewrite Hq1, <- Hs.
      by rewrite !sent_items_app, Hex, app_nil_r.
    + destruct Hok as [Hlog Hno Hre Hde1]. split; cbn; try done.
      * by rewrite sleep_log.
      * unfold INITIAL_RETRY_DELAY, MAX_RETRY_DELAY in *. lia.
Qed.

Lemma deliveries_ok sent taken v : deliveries sent taken v → run_ok sent taken v.
Proof.
  induction 1 as [st l w Hlog|sent taken v v' _ IH Hp Hb|sent taken v item _ IH Hp
    |sent taken v v' item _ IH Hni Hsend|sent taken v v' _ IH Hsend|sent taken v conn st l w _ IH Hl].
  - split; cbn; try done; [|intros item Hi; by apply elem_of_nil in Hi].
    split; cbn; try done; [|by exists O]. exists [], []. split_and!; [constructor|done|by left].
  - by eapply begin_round_ok.
  - by apply finish_round_ok.
  - destruct IH as [Hs Hw Hf Hrx]. unfold send_message in Hsend.
    destruct (dv_phase v) eqn:Hp; [|.. |done|done]; (destruct (_ <? _); [|done]); injection Hsend as <-;
      (split; cbn; rewrite ?Hp; try done;
       [rewrite items_of_app, !sent_items_app; rewrite !sent_items_app in Hs; rewrite <- Hs, <- !app_assoc;
        unfold sent_items at 4; cbn; by rewrite decide_True by done
       |intros i; rewrite items_of_app, elem_of_app; intros [Hi| ->%list_elem_of_singleton]; auto]).
  - destruct IH as [Hs Hw Hf Hrx]. unfold send_message in Hsend.
    destruct (dv_phase v) eqn:Hp; [|.. |done|done]; (destruct (_ <? _); [|done]); injection Hsend as <-;
      (split; cbn; rewrite ?Hp, ?items_of_app, ?app_nil_r; done).
  - destruct IH as [Hs Hw Hf Hrx]. split; cbn; try done.
    destruct Hw as [Hlog Hn Hr Hd]. split; try done. by rewrite Hl.
Qed.

(** C2. The delivery of turns, for every interleaving of the worker with the tasks that send to it
    and every outage of the server: what the server took, what is queued and what is in the
    channel are, without the notices, the items that were sent in the order of sending; the
    context has each turn that was taken, once or more often, in that order, with no other turn
    between, and at its end at most further copies of the turn at the front; the
    notices of outages come in pairs; and the delay between attempts keeps its bounds. *)
Theorem delivery_in_order sent taken v :
  deliveries sent taken v →
  sent_items (taken ++ dw_queue (dv_worker v) ++ items_of (dv_rx v)) = sent
  ∧ (∃ m rest, copies (turns_of taken) m ∧ log (dv_world v) = m ++ rest
      ∧ (rest = [] ∨ ∃ turn k, head (dw_queue (dv_worker v)) = Some (Append turn)
                               ∧ rest = replicate k (te_item turn)))
  ∧ (∃ n, notices (taken ++ dw_queue (dv_worker v))
      = outages n ++ (if dw_degraded (dv_worker v) && negb (dw_recovery_turn_enqueued (dv_worker v))
                      then [$"ingest_degraded"] else []))
  ∧ INITIAL_RETRY_DELAY ≤ dw_retry_delay (dv_worker v) ≤ MAX_RETRY_DELAY.
Proof. intros Hd%deliveries_ok. destruct Hd as [Hs [Hlog Hn _ Hdel] _ _]. done. Qed.

(** ** A turn before the context *)

Lemma finish_round_refused v turn :
  dw_context_id (dv_worker v) = None →
  takes (Append turn) v = false
  ∧ dw_context_id (dv_worker (finish_round (Append turn) v)) = None
  ∧ log (dv_world (finish_round (Append turn) v)) = log (dv_world v).
Proof.
  intros Hc. unfold takes, CxtxDelivery.finish_round, CxtxDelivery.process_item. rewrite Hc.
  split; [done|]. unfold enter_degraded. destruct (noted _ _ _) as [l1 w1] eqn:Hn.
  apply noted_log in Hn; [|intros; apply note_log].
  destruct (dw_degraded (dv_worker v)); [cbn; by rewrite sleep_log|].
  destruct (ingest_degraded_turn _ _ _ _ _) as [turn' st']. cbn. by rewrite sleep_log.
Qed.

Lemma begin_round_same sent taken v v' :
  run_ok sent taken v → begin_round v = Some v' →
  dw_context_id (dv_worker v') = dw_context_id (dv_worker v) ∧ log (dv_world v') = log (dv_world v).
Proof.
  intros [_ Hw _ Hrx]. unfold CxtxDelivery.begin_round.
  destruct (maybe_finish_shutdown _ _ _ _) as [[[b d] l] w] eqn:Hm.
  destruct (maybe_finish_ok _ _ _ _ _ _ _ _ Hw Hm) as (Hok & Hl & Hq & Hc & _).
  destruct b; [by intros [= <-]|]. destruct (dw_queue d) as [|front queue] eqn:Hdq.
  - destruct (dv_rx v) as [|message rx] eqn:Hr; [destruct (dv_connected v); [done|by intros [= <-]]|].
    destruct (handle_message paths message d l w) as [[d1 l1] w1] eqn:Hh. rewrite items_of_cons in Hrx.
    assert (Hm1 : ∀ item, message = Enqueue item → is_notice item = false)
      by (intros item ->; apply Hrx, elem_of_app; left; by left).
    destruct (handle_message_kept _ _ _ _ _ _ _ _ Hm1 Hok Hh) as (_ & Hl1 & _ & Hc1).
    intros [= <-]. cbn. split; congruence.
  - destruct (handle_messages paths (dv_rx v) d l w) as [[d1 l1] w1] eqn:Hh.
    destruct (handle_messages_ok _ _ _ _ _ _ _ _ Hrx Hok Hh) as (_ & Hl1 & _ & Hc1).
    destruct (head _); intros [= <-]; cbn; split; congruence.
Qed.

(** If a turn is sent before the request for a context, nothing is ever delivered: the turn stays at
    the front, and the request behind it is never made. *)
Lemma append_first_stuck sent taken v :
  deliveries sent taken v →
  head sent ≠ Some CreateContext →
  taken = [] ∧ dw_context_id (dv_worker v) = None ∧ log (dv_world v) = [].
Proof.
  induction 1 as [st l w Hlog|sent taken v v' Hd IH Hp Hb|sent taken v item Hd IH Hp
    |sent taken v v' item Hd IH Hni Hsend|sent taken v v' Hd IH Hsend|sent taken v conn st l w Hd IH Hl];
    intros Hs.
  - done.
  - destruct (IH Hs) as (-> & Hc & Hl).
    destruct (begin_round_same _ _ _ _ (deliveries_ok _ _ _ Hd) Hb) as [-> ->]. done.
  - destruct (IH Hs) as (-> & Hc & Hl). destruct (deliveries_ok _ _ _ Hd) as [Hsent _ Hf _].
    specialize (Hf _ Hp). destruct item as [|turn].
    + exfalso. apply Hs. rewrite <- Hsent. destruct (dw_queue (dv_worker v)); [done|].
      injection Hf as ->. done.
    + destruct (finish_round_refused v turn Hc) as (-> & ? & ->). done.
  - assert (Hv : dv_worker v' = dv_worker v ∧ dv_world v' = dv_world v).
    { unfold send_message in Hsend. destruct (dv_phase v); try done; (destruct (_ <? _); [|done]);
        by injection Hsend as <-. }
    destruct Hv as [-> ->]. apply IH. intros Hh. apply Hs. by destruct sent.
  - assert (Hv : dv_worker v' = dv_worker v ∧ dv_world v' = dv_world v).
    { unfold send_message in Hsend. destruct (dv_phase v); try done; (destruct (_ <? _); [|done]);
        by injection Hsend as <-. }
    destruct Hv as [-> ->]. by apply IH.
  - destruct (IH Hs) as (? & ? & ?). cbn. split_and!; [done|done|congruence].
Qed.

(** ** Draining *)

(** Steps of the worker alone. *)
Fixpoint run_worker (n : nat) (v : Delivery W) : option (Delivery W) :=
  match n with
  | O => Some v
  | S n => worker_step v ≫= run_worker n
  end.

Lemma run_worker_add n m v : run_worker (n + m) v = run_worker n v ≫= run_worker m.
Proof.
  revert v. induction n as [|n IH]; intros v; [done|]. cbn. destruct (worker_step v); [apply IH|done].
Qed.

(** Worlds in which the server takes what it is sent, now and after every call of the worker. *)
Record answering (up : W → Prop) : Prop := {
  up_create w : up w → is_ok (cx_create_context w).1 = true ∧ up (cx_create_context w).2;
  up_append c item w :
    up w → is_ok (cx_append_turn c item w).1 = true ∧ up (cx_append_turn c item w).2;
  up_create_dir path w : up w → up (fs_create_dir_all path w).2;
  up_write path bs w : up w → up (fs_write path bs w).2
}.
Context (up : W → Prop) (Hup : answering up).

(** A note leaves the context alone and the server up. *)
Lemma noted_up change l w l' w' :
  up w → noted (note paths change) l w = (l', w') → log w' = log w ∧ up w'.
Proof.
  intros Hw Hn. split; [by apply noted_log in Hn; [|intros; apply note_log]|].
  unfold noted, note, persist_snapshot, fs_then in Hn.
  pose proof (up_create_dir _ Hup (lp_root paths) w Hw) as H1.
  destruct (fs_create_dir_all _ w) as [[[]|e] w1]; cbn [snd] in H1; [|by injection Hn as <- <-].
  pose proof (up_write _ Hup (lp_path paths) (ledger_text (change l)) w1 H1) as H2.
  destruct (fs_write _ _ w1) as [r w2]. by injection Hn as <- <-.
Qed.

Lemma handle_messages_same messages d l w :
  Shutdown ∉ messages → up w →
  ∃ l' w', handle_messages paths messages d l w = (set_queue (dw_queue d ++ items_of messages) d, l', w')
    ∧ log w' = log w ∧ up w'.
Proof.
  revert d l w. induction messages as [|message messages IH]; intros d l w Hm Hw; cbn [handle_messages].
  { exists l, w. rewrite app_nil_r. by destruct d. }
  apply not_elem_of_cons in Hm as [Hne Hm]. destruct message as [item|]; [|done].
  cbn [handle_message]. destruct (noted _ l w) as [l1 w1] eqn:Hn.
  apply noted_up in Hn as [Hn Hw1]; [|done].
  destruct (IH (set_queue (dw_queue d ++ [item]) d) l1 w1 Hm Hw1) as (l2 & w2 & -> & Hl & Hw2).
  exists l2, w2. split_and!; [|congruence|done]. f_equal. f_equal. unfold set_queue. cbn. f_equal.
  by rewrite <- app_assoc.
Qed.

(** A worker that waits for nobody but the server. *)
Record pending (items : list QueueItem) (v : Delivery W) : Prop := {
  pe_phase : dv_phase v = Idle;
  pe_items : dw_queue (dv_worker v) ++ items_of (dv_rx v) = items;
  pe_shutdown : dw_shutdown (dv_worker v) = false ∧ Shutdown ∉ dv_rx v;
  pe_connected : dv_connected v = true;
  pe_up : up (dv_world v);
  pe_context : is_Some (dw_context_id (dv_worker v)) ∨ head items = Some CreateContext ∨ items = []
}.
Definition outage_open (v : Delivery W) : bool :=
  dw_degraded (dv_worker v) && negb (dw_recovery_turn_enqueued (dv_worker v)).

(** The outage is recorded as such and the notice of its end is queued. *)
Definition closing (d : DeliveryWorker) : Prop :=
  dw_degraded d = true ∧ dw_recovery_turn_enqueued d = true.

(** The server takes the item at the front, if its context exists. *)
Lemma process_item_takes item d l w :
  up w → is_Some (dw_context_id d) ∨ item = CreateContext →
  ∃ d' l' w', process_item item d l w = (Ok tt, d', l', w')
    ∧ (d' = d ∨ ∃ c, d' = set_context_id c d) ∧ is_Some (dw_context_id d')
    ∧ log w' = log w ++ turns_of [item] ∧ up w'.
Proof.
  intros Hw Hctx. unfold CxtxDelivery.process_item. destruct item as [|turn].
  - pose proof (up_create _ Hup w Hw) as [Hok Hw1]. pose proof (create_log (log := log) w) as Hl.
    destruct (cx_create_context w) as [[c|e] w1]; [|done]. cbn [snd] in Hl, Hw1.
    destruct (noted _ l w1) as [l2 w2] eqn:Hn. apply noted_up in Hn as [Hn Hw2]; [|done].
    exists (set_context_id c d), l2, w2. split_and!; [done|right; by exists c|by eexists| |done].
    cbn. rewrite app_nil_r. congruence.
  - destruct Hctx as [[c Hc]|]; [|done]. rewrite Hc.
    pose proof (up_append _ Hup c (te_item turn) w Hw) as [Hok Hw1].
    pose proof (append_log (log := log) c (te_item turn) w) as Hl.
    destruct (cx_append_turn c (te_item turn) w) as [[[]|e] w1]; [|done].
    destruct (noted _ l w1) as [l2 w2] eqn:Hn. apply noted_up in Hn as [Hn Hw2]; [|done].
    exists d, l2, w2. split_and!; [done|by left|by rewrite Hc| |done]. cbn. congruence.
Qed.

(** What is left after the item at the front was taken: the others, or the notice of the recovery. *)
Lemma delivered_rest item d st l w front queue :
  dw_queue d = front :: queue → up w →
  ∃ d' st' l' w' extra, delivered paths s item d st l w = (d', st', l', w')
    ∧ (log w' = log w ∧ up w') ∧ dw_context_id d' = dw_context_id d ∧ dw_shutdown d' = dw_shutdown d
    ∧ dw_queue d' = queue ++ extra
    ∧ ((extra = [] ∧ st' = st
        ∧ match queue with
          | [] => dw_degraded d && negb (dw_recovery_turn_enqueued d) = false
                  ∧ (closing d → item ≠ CreateContext → dw_degraded d' = false)
                  ∧ (dw_degraded d = false → dw_degraded d' = false)
          | _ => dw_degraded d' = dw_degraded d
                 ∧ dw_recovery_turn_enqueued d' = dw_recovery_turn_enqueued d
          end)
       ∨ (queue = [] ∧ dw_degraded d && negb (dw_recovery_turn_enqueued d) = true ∧ closing d'
          ∧ ∃ date, extra = [Append (ingest_recovered_turn s 0 date st).1])).
Proof.
  intros Hq Hw. unfold delivered, set_retry_delay, set_queue, set_mode, closing. rewrite Hq.
  cbn [tail dw_queue dw_context_id dw_degraded dw_retry_delay dw_shutdown dw_shutdown_deadline
       dw_recovery_turn_enqueued].
  destruct queue as [|next queue].
  2:{ eexists _, _, _, _, []. split; [done|]. cbn. rewrite app_nil_r. split_and!; try done. by left. }
  destruct (dw_degraded d) eqn:Hd, (dw_recovery_turn_enqueued d) eqn:Hr; cbn [andb negb].
  - destruct item as [|turn].
    + eexists _, _, _, _, []; split; [done|]; cbn. split_and!; try done. left. by split_and!.
    + destruct (noted _ l w) as [l1 w1] eqn:Hn. apply noted_up in Hn as [? ?]; [|done].
      eexists _, _, _, _, []; split; [done|]; cbn. split_and!; try done. left. by split_and!.
  - destruct (ingest_recovered_turn s 0 (cx_date w) st) as [turn st1] eqn:Hi.
    eexists _, _, _, _, [Append turn]. split; [done|]. cbn. split_and!; try done. right.
    split_and!; try done. exists (cx_date w). apply (f_equal fst) in Hi. cbn [fst] in Hi. by rewrite <- Hi.
  - eexists _, _, _, _, []; split; [done|]; cbn. split_and!; try done. left. split_and!; try done; by intros [].
  - eexists _, _, _, _, []; split; [done|]; cbn. split_and!; try done. left. split_and!; try done; by intros [].
Qed.

Lemma no_shutdown_finish d l w :
  dw_shutdown d = false → maybe_finish_shutdown paths d l w = (false, d, l, w).
Proof. intros Hs. unfold maybe_finish_shutdown. by rewrite Hs. Qed.

Lemma items_of_nil messages : Shutdown ∉ messages → items_of messages = [] → messages = [].
Proof. destruct messages as [|[item|] l]; [done|done|]. intros Hs. exfalso. apply Hs. left. Qed.

(** What follows the items behind the front: nothing, or the notice of the recovery. *)
Definition drained_case (front : QueueItem) (rest : list QueueItem) (v : Delivery W)
    (extra : list QueueItem) (v' : Delivery W) : Prop :=
  (extra = [] ∧ dv_state v' = dv_state v
      ∧ match rest with
        | [] => outage_open v = false
                ∧ (closing (dv_worker v) → front ≠ CreateContext → dw_degraded (dv_worker v') = false)
                ∧ (dw_degraded (dv_worker v) = false → dw_degraded (dv_worker v') = false)
        | _ => dw_degraded (dv_worker v') = dw_degraded (dv_worker v)
               ∧ dw_recovery_turn_enqueued (dv_worker v') = dw_recovery_turn_enqueued (dv_worker v)
        end)
     ∨ (rest = [] ∧ outage_open v = true ∧ closing (dv_worker v')
        ∧ ∃ date, extra = [Append (ingest_recovered_turn s 0 date (dv_state v)).1]).

(** What is known after the item at the front was taken. *)
Definition drained (v : Delivery W) (front : QueueItem) (rest : list QueueItem) (v' : Delivery W) : Prop :=
  ∃ extra, pending (rest ++ extra) v'
    ∧ log (dv_world v') = log (dv_world v) ++ turns_of [front]
    ∧ drained_case front rest v extra v'.

Lemma round_drains front rest v :
  pending (front :: rest) v → dw_queue (dv_worker v) ≠ [] →
  ∃ v', run_worker 2 v = Some v' ∧ drained v front rest v'.
Proof.
  intros [Hp Hi [Hs Hrx] Hc Hw Hctx] Hne.
  assert (Hbegin : ∃ d l w, worker_step v = Some (mkDelivery (Processing front) d [] true (dv_state v) l w)
    ∧ d = set_queue (front :: rest) (dv_worker v) ∧ log w = log (dv_world v) ∧ up w).
  { unfold CxtxDelivery.worker_step, CxtxDelivery.begin_round. rewrite Hp, no_shutdown_finish by done.
    destruct (handle_messages_same (dv_rx v) (dv_worker v) (dv_ledger v) (dv_world v) Hrx Hw)
      as (l & w & Hh & Hl & Hw1). rewrite Hh, Hi.
    destruct (dw_queue (dv_worker v)) as [|x q] eqn:Hq; [done|]. cbn [set_queue dw_queue head].
    rewrite Hc. eexists _, l, w. done. }
  destruct Hbegin as (d & l & w & Hstep & Hd & Hl & Hw0). cbn [run_worker]. rewrite Hstep. cbn [mbind option_bind].
  unfold CxtxDelivery.worker_step. cbn [dv_phase]. unfold CxtxDelivery.finish_round.
  cbn [dv_worker dv_ledger dv_world dv_state dv_rx dv_connected].
  destruct (process_item_takes front d l w) as (d1 & l1 & w1 & -> & Hd1 & Hctx1 & Hl1 & Hw1); [done| |].
  { rewrite Hd. destruct Hctx as [Hx|[Hx|Hx]]; [by left| |done]. right. by injection Hx. }
  assert (Hd1' : dw_queue d1 = front :: rest ∧ dw_shutdown d1 = false
    ∧ dw_degraded d1 = dw_degraded (dv_worker v)
    ∧ dw_recovery_turn_enqueued d1 = dw_recovery_turn_enqueued (dv_worker v))
    by (subst d; destruct Hd1 as [->|[c ->]]; done).
  destruct Hd1' as (Hq1 & Hs1 & Ho1 & Ho1').
  destruct (delivered_rest front d1 (dv_state v) l1 w1 front rest Hq1 Hw1)
    as (d2 & st2 & l2 & w2 & extra & -> & [Hl2 Hw2] & Hc2 & Hs2 & Hq2 & Hcase).
  eexists. split; [done|]. exists extra. split_and!.
  - split; cbn; try done; [by rewrite Hq2, app_nil_r|split; [congruence|apply not_elem_of_nil]|].
    left. by rewrite Hc2.
  - cbn. rewrite Hl2, Hl1, Hl. done.
  - unfold drained_case, outage_open, closing in *. rewrite Ho1, Ho1' in Hcase. exact Hcase.
Qed.

Lemma next_item front rest v :
  pending (front :: rest) v → ∃ n v', run_worker n v = Some v' ∧ drained v front rest v'.
Proof.
  intros Hpe. destruct (decide (dw_queue (dv_worker v) = [])) as [Hq|Hq];
    [|destruct (round_drains _ _ _ Hpe Hq) as (v' & ? & ?); by exists 2%nat, v'].
  pose proof Hpe as [Hp Hi [Hs Hrx] Hc Hw Hctx]. rewrite Hq in Hi. cbn [app] in Hi.
  destruct (dv_rx v) as [|[item|] rx] eqn:Hr; [done| |by exfalso; apply Hrx; left].
  injection Hi as -> Hrest.
  assert (Hnone : Shutdown ∉ [Enqueue front]) by (intros Hin; by apply list_elem_of_singleton in Hin).
  destruct (handle_messages_same [Enqueue front] (dv_worker v) (dv_ledger v) (dv_world v) Hnone Hw)
    as (l1 & w1 & Hh & Hl & Hw1).
  cbn [handle_messages] in Hh. destruct (handle_message _ _ _ _ _) as [[d1 l1'] w1'] eqn:Hm.
  injection Hh as -> -> ->. rewrite Hq in Hm. cbn [app] in Hm. change (items_of [Enqueue front]) with [front] in Hm.
  set (v1 := mkDelivery Idle (set_queue [front] (dv_worker v)) rx true (dv_state v) l1 w1).
  assert (Hstep : worker_step v = Some v1).
  { unfold CxtxDelivery.worker_step, CxtxDelivery.begin_round.
    by rewrite Hp, no_shutdown_finish, Hq, Hr, Hm, Hc by done. }
  assert (Hpe1 : pending (front :: rest) v1).
  { split; cbn; try done; [by rewrite <- Hrest|]. split; [done|]. intros Hin. apply Hrx. by right. }
  destruct (round_drains _ _ _ Hpe1) as (v' & Hrun & extra & Hpend & Hlog & Hcase); [done|].
  exists 3%nat, v'. split; [change 3%nat with (1 + 2)%nat; rewrite run_worker_add; cbn [run_worker]; by rewrite Hstep|].
  exists extra. split_and!; [done| |done]. rewrite Hlog. cbn. by rewrite Hl.
Qed.

(** What the server is sent besides: the notice of the recovery, with the number that is next in the
    session, when something is pending in an open outage. *)
Definition recovery_notice (items : list QueueItem) (v : Delivery W) (extra : list ConversationItem)
    : Prop :=
  if outage_open v && negb (bool_decide (items = []))
  then ∃ date, extra = [te_item (ingest_recovered_turn s 0 date (dv_state v)).1]
  else extra = [].

(** What holds when the pending items were taken. *)
Definition all_drained (items : list QueueItem) (v : Delivery W) : Prop :=
  ∃ n v' extra, run_worker n v = Some v' ∧ worker_step v' = None
    ∧ dw_queue (dv_worker v') = [] ∧ dv_rx v' = []
    ∧ log (dv_world v') = log (dv_world v) ++ turns_of items ++ extra
    ∧ recovery_notice items v extra
    ∧ (outage_open v = true → items ≠ [] → dw_degraded (dv_worker v') = false)
    ∧ (closing (dv_worker v) → (∃ turn, last items = Some (Append turn)) →
       dw_degraded (dv_worker v') = false)
    ∧ (dw_degraded (dv_worker v) = false → dw_degraded (dv_worker v') = false).

Lemma nothing_pending v : pending [] v → all_drained [] v.
Proof.
  intros [Hp Hi [Hs Hrx] Hc Hw Hctx]. apply app_nil in Hi as [Hq Hr]. apply items_of_nil in Hr; [|done].
  exists O, v, []. unfold recovery_notice. rewrite andb_false_r, app_nil_r.
  split_and!; try done; [|by intros _ [turn Hl]].
  unfold CxtxDelivery.worker_step, CxtxDelivery.begin_round. by rewrite Hp, no_shutdown_finish, Hq, Hr, Hc.
Qed.

Lemma drained_then front rest v extra v1 n :
  run_worker n v = Some v1 → log (dv_world v1) = log (dv_world v) ++ turns_of [front] →
  drained_case front rest v extra v1 → all_drained (rest ++ extra) v1 → all_drained (front :: rest) v.
Proof.
  intros Hrun Hlog Hcase (m & v' & extra' & Hrun' & Hw & Hq & Hr & Hlog' & Hex & Ho & Hc & Hkeep).
  exists (n + m)%nat, v', (turns_of extra ++ extra'). rewrite run_worker_add, Hrun. cbn [mbind option_bind].
  split_and!; [done..| | | | |].
  - rewrite Hlog', Hlog, turns_of_app. change (front :: rest) with ([front] ++ rest).
    by rewrite turns_of_app, <- !app_assoc.
  - unfold drained_case, recovery_notice, outage_open in *.
    destruct Hcase as [(-> & Hst & Hm)|(-> & Hv & [Hd1 Hr1] & date & ->)].
    + rewrite app_nil_r, Hst in *. destruct rest as [|r rest].
      * destruct Hm as [Hm _]. rewrite Hm. rewrite andb_false_r in Hex. cbn. by rewrite Hex.
      * destruct Hm as [Hd Hre]. by rewrite Hd, Hre in Hex.
    + rewrite Hv. rewrite Hd1, Hr1 in Hex. cbn in Hex |- *. rewrite Hex. by exists date.
  - intros Hv _. unfold drained_case, outage_open in *.
    destruct Hcase as [(-> & Hst & Hm)|(-> & _ & Hcl & date & ->)].
    + rewrite app_nil_r in Ho. destruct rest as [|r rest]; [by destruct Hm as [Hm _]; rewrite Hv in Hm|].
      destruct Hm as [Hd Hre]. rewrite Hd, Hre in Ho. by apply Ho.
    + apply Hc; [done|]. eexists. reflexivity.
  - intros [Hd Hre] [turn Hl].
    destruct Hcase as [(-> & Hst & Hm)|(-> & Hv & _)];
      [|unfold outage_open in Hv; by rewrite Hd, Hre in Hv].
    rewrite app_nil_r in *. destruct rest as [|r rest].
    + destruct Hm as (_ & Hm & _). apply Hkeep, Hm; [done|]. by intros ->.
    + destruct Hm as [Hd1 Hre1]. apply Hc; [split; congruence|]. exists turn. by rewrite <- Hl.
  - intros Hd. apply Hkeep.
    destruct Hcase as [(-> & Hst & Hm)|(-> & Hv & _)]; [|unfold outage_open in Hv; by rewrite Hd in Hv].
    destruct rest as [|r rest]; [by apply Hm|]. by destruct Hm as [-> _].
Qed.

(** C28. Pending turns drain: from any state in which the worker is neither shut down nor left by its
    handles, while the server answers, and once the request for a context was sent first, the worker
    takes every pending item, in order and once, after finitely many of its steps, and then waits
    for messages. When something is pending in an outage whose recovery was not announced, it adds after
    the pending items the notice of the recovery and nothing else; otherwise it adds nothing. In the
    first case, and when the notice is the last of the pending items, the outage is over in the end; a
    worker that is not in an outage does not enter one. *)
Theorem delivery_drains items v :
  pending items v →
  ∃ n v' extra, run_worker n v = Some v' ∧ worker_step v' = None
    ∧ dw_queue (dv_worker v') = [] ∧ dv_rx v' = []
    ∧ log (dv_world v') = log (dv_world v) ++ turns_of items ++ extra
    ∧ recovery_notice items v extra
    ∧ (outage_open v = true → items ≠ [] → dw_degraded (dv_worker v') = false)
    ∧ (closing (dv_worker v) → (∃ turn, last items = Some (Append turn)) →
       dw_degraded (dv_worker v') = false)
    ∧ (dw_degraded (dv_worker v) = false → dw_degraded (dv_worker v') = false).
Proof.
  assert (Hgen : ∀ k items v, (length items + (if outage_open v then 1 else 0) ≤ k)%nat →
    pending items v → all_drained items v).
  { clear items v. intros k. induction k as [|k IH]; intros items v Hk Hpe;
      (destruct items as [|front rest]; [by apply nothing_pending|]); [cbn in Hk; lia|].
    destruct (next_item _ _ _ Hpe) as (n & v1 & Hrun & extra & Hpe1 & Hlog & Hcase).
    apply (drained_then _ _ _ extra v1 n); [done..|].
    destruct (decide (rest ++ extra = [])) as [Hnil|Hnil]; [rewrite Hnil in *; by apply nothing_pending|].
    apply IH; [|done]. rewrite length_app. cbn in Hk. unfold drained_case, outage_open in *.
    destruct Hcase as [(-> & _ & Hm)|(-> & Hv & [Hd Hc] & date & ->)].
    - destruct rest as [|r rest]; [done|]. destruct Hm as [-> ->]. cbn in *. lia.
    - rewrite Hv in Hk. rewrite Hd, Hc. cbn in *. lia. }
  intros Hpe. by apply (Hgen _ items v (Nat.le_refl _)).
Qed.

End spec.

(** ** A run through an outage *)

Module DeliverySample.

#[local] Instance sample_turn_text : TurnText := {
  json_pretty _ := $"{}"; date_json _ := $"now"; date_title _ := $"now"
}.
#[local] Instance sample_ledger_text : LedgerText := λ _, $"{}".

(** A server that answers the next appends as the list says and then all of them, with what it has
    in the context; the files are forgotten. *)
Record World : Type := mkWorld { w_now : N; w_answers : list bool; w_context : list ConversationItem }.

#[local] Instance sample_files : FileSystem World := {
  fs_create_dir_all _ w := (Ok tt, w);
  fs_write _ _ w := (Ok tt, w);
  fs_append _ _ w := (Ok tt, w)
}.
#[local] Instance sample_client : CxdbClient World := {
  cx_create_context w := (Ok 7, w);
  cx_append_turn _ item w :=
    match w_answers w with
    | false :: answers => (Err (Retriable ($"down")), mkWorld (w_now w) answers (w_context w))
    | _ :: answers => (Ok tt, mkWorld (w_now w) answers (w_context w ++ [item]))
    | [] => (Ok tt, mkWorld (w_now w) [] (w_context w ++ [item]))
    end;
  cx_now := w_now;
  cx_date w := Z.of_N (w_now w);
  cx_sleep d w := mkWorld (w_now w + d) (w_answers w) (w_context w)
}.
#[local] Instance sample_laws : DeliveryLaws World w_context.
Proof.
  split; try done. intros c item [now [|[|] answers] context]; cbn; auto.
Qed.

Definition session : Session :=
  mkSession (mkCapturedSession ($"s") ($"openai") ($"codex") [] 0) Codex
    (mkContextMetadata ($"codex") ($"codex") [] ∅ None).
Definition paths : LedgerPaths := ledger_paths ($"s").
Definition hello : TurnEnvelope := mkTurnEnvelope 1 (new_user_input ($"hello") [] 0).
Definition again : TurnEnvelope := mkTurnEnvelope 2 (new_user_input ($"again") [] 0).

Definition start (answers : list bool) : Delivery World :=
  delivery_start session_state_new (ledger_new session) (mkWorld 0 answers []).
Definition send (item : QueueItem) (v : Delivery World) : Delivery World :=
  match send_message (Enqueue item) v with Some (_, v) => v | None => v end.
Definition step (v : Delivery World) : Delivery World := default v (worker_step paths session v).
Definition steps (n : nat) (v : Delivery World) : Delivery World := Nat.iter n step v.

(** Both turns are sent before the server answers, and the first append fails. *)
Definition sent_both (answers : list bool) : Delivery World :=
  send (Append again) (send (Append hello) (send CreateContext (start answers))).

Example titles_of_the_outage :
  map (λ item, (ci_item_type item, sm_title <$> ci_system item))
    (w_context (dv_world (steps 13 (sent_both [false]))))
  = [($"user_input", None); ($"user_input", None); ($"system", Some ($"ingest_degraded"));
     ($"system", Some ($"ingest_recovered"))].
Proof. vm_compute. reflexivity. Qed.

Lemma run_both : deliveries w_context paths session [CreateContext; Append hello; Append again]
  [CreateContext] (steps 5 (sent_both [false])).
Proof.
  assert (H0 : deliveries w_context paths session [CreateContext; Append hello; Append again] []
    (sent_both [false])).
  { apply (del_send _ _ _ [CreateContext; Append hello] [] (send (Append hello) (send CreateContext (start [false]))));
      [|reflexivity|reflexivity].
    apply (del_send _ _ _ [CreateContext] [] (send CreateContext (start [false]))); [|reflexivity|reflexivity].
    apply (del_send _ _ _ [] [] (start [false])); [|reflexivity|reflexivity]. by apply del_start. }
  assert (H2 : deliveries w_context paths session [CreateContext; Append hello; Append again] []
    (steps 2 (sent_both [false]))).
  { apply (del_begin _ _ _ _ _ (steps 1 (sent_both [false]))); [|reflexivity|reflexivity].
    by apply (del_begin _ _ _ _ _ (sent_both [false])). }
  assert (H4 : deliveries w_context paths session [CreateContext; Append hello; Append again]
    [CreateContext] (steps 4 (sent_both [false]))).
  { apply (del_begin _ _ _ _ _ (steps 3 (sent_both [false]))); [|reflexivity|reflexivity].
    exact (del_finish _ _ _ _ _ _ CreateContext H2 eq_refl). }
  exact (del_finish _ _ _ _ _ _ (Append hello) H4 eq_refl).
Qed.

Lemma delivery_in_order_witness :
  sent_items ([CreateContext] ++ dw_queue (dv_worker (steps 5 (sent_both [false]))) ++ [])
  = [CreateContext; Append hello; Append again].
Proof. exact (proj1 (delivery_in_order w_context paths session _ _ _ run_both)). Defined.

(** The turns that wait after the failed append. *)
Definition degraded_notice_turn : TurnEnvelope :=
  (ingest_degraded_turn session 2 ($"down") 0 session_state_new).1.
Lemma sample_answering : answering (λ w, w_answers w = []).
Proof.
  split; try done. intros c item [now answers context]; cbn. intros ->. done.
Qed.
Lemma pending_after_outage :
  pending (λ w, w_answers w = []) [Append hello; Append again; Append (degraded_notice_turn)]
    (steps 5 (sent_both [false])).
Proof.
  split; try reflexivity.
  - split; [reflexivity|apply not_elem_of_nil].
  - left. eexists. reflexivity.
Qed.
Lemma delivery_drains_witness :
  ∃ n v date, run_worker paths session n (steps 5 (sent_both [false])) = Some v
    ∧ w_context (dv_world v)
      = [te_item hello; te_item again; te_item degraded_notice_turn;
         te_item (ingest_recovered_turn session 0 date (dv_state (steps 5 (sent_both [false])))).1]
    ∧ dw_degraded (dv_worker v) = false.
Proof.
  destruct (delivery_drains w_context paths session _ sample_answering _ _ pending_after_outage)
    as (n & v & extra & Hrun & _ & _ & _ & Hlog & [date Hextra] & Hover & _ & _).
  exists n, v, date. split_and!; [exact Hrun|rewrite Hlog, Hextra; reflexivity|by apply Hover].
Defined.
End DeliverySample.
