(* ===== verification/CxtxSessionSpec.v ===== *)
(** * CxtxSessionSpec: what a session records

    The turns that a session hands to the delivery say all of the conversation as the provider saw
    it: a reader who follows them, dropping the end of what it has at a rewind, has the history that
    the next request is compared with; turns are numbered without gaps and never share an id; and
    a request is recorded from the place where it departs from what was seen before. *)

From S2P Require Import Prelude Bytes External Json Conversation CxtxProvider CxtxTurns CxtxSession.

Open Scope N_scope.

(** ** Reading a turn *)

Definition call_of (call : ToolCallItem) : ToolCallRecord :=
  mkToolCallRecord (tci_id call) (tci_name call) (tci_args call).

(** The part of the history that a turn stands for, and whether it announces a rewrite. *)
Definition item_of_turn (item : ConversationItem) : option HistoryItem :=
  match ci_user_input item, ci_turn item, ci_tool_result item with
  | Some user, _, _ => Some (HUserInput (ui_text user) (ui_files user))
  | _, Some turn, _ => Some (HAssistantTurn (atn_text turn) (map call_of (atn_tool_calls turn)) None None)
  | _, _, Some res => Some (HToolResult (trs_call_id res) (trs_content res) (trs_is_error res))
  | None, None, None => None
  end.
Definition is_rewind (item : ConversationItem) : bool :=
  match ci_system item with
  | Some message => bool_decide (sm_kind message = SystemKindRewind)
  | None => false
  end.
Definition read_turns (turns : list TurnEnvelope) : list HistoryItem :=
  omap (λ turn, item_of_turn (te_item turn)) turns.

(** The history that a reader may have after the turns, from the one it had: a rewind drops some of
    the end. *)
Inductive replays : list HistoryItem → list TurnEnvelope → list HistoryItem → Prop :=
| replays_nil h : replays h [] h
| replays_item h turn item turns h' :
    item_of_turn (te_item turn) = Some item → replays (h ++ [item]) turns h' → replays h (turn :: turns) h'
| replays_rewind h turn k turns h' :
    is_rewind (te_item turn) = true → (k < length h)%nat → replays (take k h) turns h' →
    replays h (turn :: turns) h'
| replays_other h turn turns h' :
    item_of_turn (te_item turn) = None → is_rewind (te_item turn) = false → replays h turns h' →
    replays h (turn :: turns) h'.

Lemma replays_app h turns h1 turns' h2 :
  replays h turns h1 → replays h1 turns' h2 → replays h (turns ++ turns') h2.
Proof.
  induction 1; intros Hr; cbn [app];
    [done|eapply replays_item|eapply replays_rewind|eapply replays_other]; eauto.
Qed.

Lemma replays_no_rewind h turns h' :
  replays h turns h' → Forall (λ turn, is_rewind (te_item turn) = false) turns → h' = h ++ read_turns turns.
Proof.
  unfold read_turns. induction 1 as [h|h turn item turns h' Hi _ IH|h turn k turns h' Hr _ _ IH|h turn turns h' Hi _ _ IH];
    intros Hf; cbn; [by rewrite app_nil_r|..]; apply Forall_cons in Hf as [Hn Hf]; rewrite ?Hi.
  - rewrite IH by done. by rewrite <- app_assoc.
  - congruence.
  - by apply IH.
Qed.

(** ** Recording *)

(** Tool calls are added at the end of the turn's. *)
Lemma with_tool_calls calls item turn :
  ci_turn item = Some turn →
  let item' := foldl (λ b tool_call, with_tool_call (pending_tool_call tool_call) b) item calls in
  ci_user_input item' = ci_user_input item ∧ ci_system item' = ci_system item
  ∧ ∃ turn', ci_turn item' = Some turn' ∧ atn_text turn' = atn_text turn
      ∧ map call_of (atn_tool_calls turn') = map call_of (atn_tool_calls turn) ++ calls.
Proof.
  revert item turn. induction calls as [|call calls IH]; intros item turn Ht; cbn [foldl].
  { split_and!; [done|done|]. exists turn. by rewrite app_nil_r. }
  destruct (IH (with_tool_call (pending_tool_call call) item)
    (mkAssistantTurn (atn_text turn) (atn_tool_calls turn ++ [pending_tool_call call]) (atn_reasoning turn)
       (atn_metrics turn) (atn_agent turn) (atn_turn_number turn) (atn_max_turns turn)
       (atn_finish_reason turn))) as (Hu & Hs & turn' & Ht' & Htext & Hc); [cbn; by rewrite Ht|].
  split_and!; [done|done|]. exists turn'. split_and!; [done|done|]. rewrite Hc. cbn [atn_tool_calls].
  rewrite map_app, <- app_assoc. cbn. by destruct call.
Qed.

Section spec.
Context `{TurnText} (s : Session).

(** A recorded item can be read again. *)
Lemma item_of_history session ordinal exchange_id item now :
  let turn := history_item_to_conversation_item session ordinal exchange_id item now in
  item_of_turn turn = Some (normalize_history_item item) ∧ is_rewind turn = false
  ∧ ci_id turn = turn_id (cs_session_id session) ordinal exchange_id.
Proof.
  destruct item as [text files|text calls model reason|call_id content [|]]; try done.
  unfold history_item_to_conversation_item. cbv zeta. 
  destruct (with_tool_calls calls (build_assistant_turn text now) _ eq_refl)
    as (Hu & Hs & turn & Ht & Htext & Hc). cbn in Hu, Hs, Htext, Hc.
  unfold item_of_turn, is_rewind.
  destruct (non_empty reason), (non_empty model); cbn; rewrite ?Hu, ?Hs, ?Ht; cbn; by rewrite ?Htext, ?Hc.
Qed.

(** The numbers after [n]. *)
Definition ordinals (n : N) (k : nat) : list N := map (λ i, n + N.of_nat i) (seq 1 k).

Lemma ordinals_app n k1 k2 : ordinals n (k1 + k2) = ordinals n k1 ++ ordinals (n + N.of_nat k1) k2.
Proof.
  unfold ordinals. rewrite seq_app, map_app. f_equal.
  rewrite Nat.add_comm, <- fmap_add_seq. rewrite <- list_fmap_compose. apply list_fmap_ext.
  intros i x _. cbn. lia.
Qed.

(** What a step of the session records. *)
Record recorded (st : SessionState) (turns : list TurnEnvelope) (st' : SessionState) : Prop := {
  rc_replays : replays (st_observed_history st) turns (st_observed_history st');
  rc_ordinals : st_next_turn_ordinal st + len turns < U64 →
    st_next_turn_ordinal st' = st_next_turn_ordinal st + len turns
    ∧ map te_ordinal turns = ordinals (st_next_turn_ordinal st) (length turns);
  rc_ids : Forall (λ turn, ∃ exchange_id,
    ci_id (te_item turn) = turn_id (cs_session_id (ss_session s)) (te_ordinal turn) exchange_id) turns
}.

Lemma recorded_nil st st' :
  st_next_turn_ordinal st' = st_next_turn_ordinal st → st_observed_history st' = st_observed_history st →
  recorded st [] st'.
Proof. intros Hn Hh. split; [rewrite Hh; constructor| |done]. change (len []) with 0. rewrite Hn, N.add_0_r. done. Qed.

Lemma recorded_app st turns st1 turns' st2 :
  recorded st turns st1 → recorded st1 turns' st2 → recorded st (turns ++ turns') st2.
Proof.
  intros [Hr1 Ho1 Hi1] [Hr2 Ho2 Hi2]. split; [by eapply replays_app| |by apply Forall_app].
  unfold len in *. rewrite length_app. intros Hlt. destruct Ho1 as [Hn1 Hm1]; [lia|].
  rewrite Hn1 in Ho2. destruct Ho2 as [Hn2 Hm2]; [lia|]. split; [lia|].
  by rewrite map_app, Hm1, Hm2, ordinals_app.
Qed.

(** A turn with the next ordinal, and the history that goes with it. *)
Lemma recorded_envelope f h st turn st' :
  envelope f st = (turn, st') →
  (∀ ordinal, ∃ exchange_id, ci_id (f ordinal) = turn_id (cs_session_id (ss_session s)) ordinal exchange_id) →
  (∀ ordinal turn, te_item turn = f ordinal → replays (st_observed_history st) [turn] h) →
  recorded st [turn] (set_history h st').
Proof.
  unfold envelope, next_turn_ordinal. intros [= <- <-] Hid Hr. split; cbn.
  - by eapply Hr.
  - intros Hlt. change (len [_]) with 1 in *. unfold ordinals. cbn. by rewrite wrap64_small by lia.
  - constructor; [|done]. apply Hid.
Qed.

Lemma set_history_same st : set_history (st_observed_history st) st = st.
Proof. by destruct st. Qed.
Lemma envelope_history f st turn st' : envelope f st = (turn, st') → st_observed_history st' = st_observed_history st.
Proof. unfold envelope, next_turn_ordinal. by intros [= <- <-]. Qed.

Lemma recorded_notice f st turn st' :
  envelope f st = (turn, st') →
  (∀ ordinal, ∃ exchange_id, ci_id (f ordinal) = turn_id (cs_session_id (ss_session s)) ordinal exchange_id) →
  (∀ ordinal, item_of_turn (f ordinal) = None ∧ is_rewind (f ordinal) = false) →
  recorded st [turn] st'.
Proof.
  intros He Hid Hf. pose proof (envelope_history _ _ _ _ He) as Hh.
  rewrite <- (set_history_same st'), Hh. eapply recorded_envelope; [done..|].
  intros ordinal t Ht. apply replays_other; [rewrite Ht; apply Hf..|constructor].
Qed.

Lemma recorded_item exchange_id item now st turn st' :
  envelope (λ ordinal, history_item_to_conversation_item (ss_session s) ordinal exchange_id item now) st
    = (turn, st') →
  recorded st [turn] (set_history (st_observed_history st ++ [normalize_history_item item]) st')
  ∧ item_of_turn (te_item turn) = Some (normalize_history_item item).
Proof.
  intros He. split.
  - eapply recorded_envelope; [done|..].
    + intros ordinal. exists exchange_id. apply item_of_history.
    + intros ordinal t Ht. eapply replays_item; [rewrite Ht; apply item_of_history|constructor].
  - unfold envelope, next_turn_ordinal in He. injection He as <- <-. apply item_of_history.
Qed.

(** The turns of several items extend the history, whatever it is, by them. *)
Lemma recorded_items h exchange_id items now st turns st' :
  history_turns s exchange_id items now st = (turns, st') →
  recorded (set_history h st) turns (set_history (h ++ map normalize_history_item items) st')
  ∧ map (λ turn, item_of_turn (te_item turn)) turns = map (Some ∘ normalize_history_item) items.
Proof.
  revert h st turns. induction items as [|item items IH]; intros h st turns; cbn [history_turns].
  - intros [= <- <-]. split; [apply recorded_nil; cbn; by rewrite ?app_nil_r|done].
  - destruct (envelope _ st) as [turn st1] eqn:He.
    destruct (history_turns s exchange_id items now st1) as [turns' st2] eqn:Hh. intros [= <- <-].
    assert (He' : envelope (λ ordinal, history_item_to_conversation_item (ss_session s) ordinal exchange_id
      item now) (set_history h st) = (turn, set_history h st1))
      by (unfold envelope, next_turn_ordinal in *; by injection He as <- <-).
    destruct (recorded_item _ _ _ _ _ _ He') as [Hr Hitem].
    destruct (IH (h ++ [normalize_history_item item]) _ _ Hh) as (Hrs & Hmap).
    split; [|cbn; by rewrite Hitem, Hmap].
    change (turn :: turns') with ([turn] ++ turns'). eapply recorded_app; [exact Hr|].
    rewrite <- app_assoc in Hrs. exact Hrs.
Qed.

Lemma common_prefix_spec xs ys :
  let k := common_prefix_len xs ys in
  (k ≤ length xs)%nat ∧ take k xs = take k ys ∧ ((k < length xs)%nat → xs !! k ≠ ys !! k).
Proof.
  revert ys. induction xs as [|x xs IH]; intros [|y ys]; cbn; try (split_and!; [lia|done|done || lia]).
  destruct (decide (x = y)) as [->|Hne]; cbn.
  - destruct (IH ys) as (Hle & Ht & Hn). split_and!; [lia|by rewrite Ht|]. intros Hlt. apply Hn. lia.
  - split_and!; [lia|done|]. congruence.
Qed.

Lemma prefix_common_prefix xs ys :
  (common_prefix_len xs ys <? length xs)%nat = false ↔ xs `prefix_of` ys.
Proof.
  destruct (common_prefix_spec xs ys) as (Hle & Ht & Hn). rewrite Nat.ltb_ge. split.
  - intros Hge. exists (drop (length xs) ys).
    assert (common_prefix_len xs ys = length xs) as Hk by lia. rewrite Hk, firstn_all in Ht.
    rewrite Ht at 1. by rewrite take_drop.
  - intros [zs ->]. apply Nat.nlt_ge. intros Hlt. apply (Hn Hlt). symmetry. by apply lookup_app_l.
Qed.

(** What a request records. *)
Lemma observe_request_recorded exchange_id history refs now st turns st' :
  observe_request_history s exchange_id history refs now st = (turns, st') →
  recorded st turns st' ∧ st_observed_history st' = map normalize_history_item history.
Proof.
  unfold observe_request_history. set (previous := st_observed_history st).
  set (new := map normalize_history_item history). set (k := common_prefix_len previous new).
  destruct (common_prefix_spec previous new) as (Hle & Htake & _). fold k in Hle, Htake.
  destruct (if (k <? length previous)%nat then _ else _) as [rewrites st1] eqn:Hrw.
  destruct (history_turns s exchange_id (drop k history) now st1) as [turns' st2] eqn:Hh.
  intros [= <- <-]. split; [|done].
  assert (Hr1 : recorded st rewrites (set_history (take k previous) st1)).
  { destruct (k <? length previous)%nat eqn:Hk.
    - destruct (envelope _ st) as [turn st3] eqn:He. injection Hrw as <- <-.
      eapply recorded_envelope; [exact He|intros ordinal; by eexists|].
      intros ordinal t Ht. apply Nat.ltb_lt in Hk.
      eapply (replays_rewind _ _ k); [by rewrite Ht|done|constructor].
    - injection Hrw as <- <-. apply Nat.ltb_ge in Hk.
      apply recorded_nil; [done|]. cbn. by rewrite firstn_all2 by lia. }
  eapply recorded_app; [exact Hr1|].
  apply (recorded_items (take k previous)) in Hh as [Hr _].
  replace (set_history new st2) with (set_history (take k previous ++ map normalize_history_item (drop k history)) st2); [exact Hr|].
  unfold set_history. cbn. f_equal. rewrite Htake. unfold new. rewrite <- skipn_map. apply take_drop.
Qed.

(** ** Runs *)

(** What the tasks of the proxy do with a session, each under its lock. *)
Inductive SessionOp : Type :=
| ObserveRequest (exchange_id : rstr) (history : list HistoryItem) (refs : ArtifactRefs) (now : Z)
| AppendItem (exchange_id : rstr) (item : HistoryItem) (now : Z)
| ProviderError (exchange_id title message : rstr) (request_id : option rstr) (refs : ArtifactRefs) (now : Z)
| SessionStart (now : Z)
| SessionEnd (exit_code : Z) (success : bool) (now : Z)
| IngestDegraded (queue_depth : N) (error : rstr) (now : Z)
| IngestRecovered (queue_depth : N) (now : Z)
| NextExchange
| SetChildPid (pid : option N).

Definition one (r : TurnEnvelope * SessionState) : list TurnEnvelope * SessionState := ([r.1], r.2).
Definition session_op (op : SessionOp) (st : SessionState) : list TurnEnvelope * SessionState :=
  match op with
  | ObserveRequest exchange_id history refs now => observe_request_history s exchange_id history refs now st
  | AppendItem exchange_id item now => one (append_history_item s exchange_id item now st)
  | ProviderError exchange_id title message request_id refs now =>
      one (provider_error_turn s exchange_id title message request_id refs now st)
  | SessionStart now => one (session_start_turn s now st)
  | SessionEnd exit_code success now => one (session_end_turn s exit_code success now st)
  | IngestDegraded queue_depth error now => one (ingest_degraded_turn s queue_depth error now st)
  | IngestRecovered queue_depth now => one (ingest_recovered_turn s queue_depth now st)
  | NextExchange => ([], (next_exchange_id st).2)
  | SetChildPid pid => ([], set_child_pid pid st)
  end.
Fixpoint session_run (ops : list SessionOp) (st : SessionState) : list TurnEnvelope * SessionState :=
  match ops with
  | [] => ([], st)
  | op :: ops =>
      let '(turns, st) := session_op op st in
      let '(turns', st) := session_run ops st in (turns ++ turns', st)
  end.

Lemma recorded_one f st :
  (∀ ordinal, ∃ exchange_id, ci_id (f ordinal) = turn_id (cs_session_id (ss_session s)) ordinal exchange_id) →
  (∀ ordinal, item_of_turn (f ordinal) = None ∧ is_rewind (f ordinal) = false) →
  recorded st (one (envelope f st)).1 (one (envelope f st)).2.
Proof. intros Hid Hf. destruct (envelope f st) as [turn st'] eqn:He. by eapply recorded_notice. Qed.

Lemma session_op_recorded op st : recorded st (session_op op st).1 (session_op op st).2.
Proof.
  destruct op as [exchange_id history refs now|exchange_id item now| |now|exit_code [|] now| | | |]; cbn [session_op].
  - destruct (observe_request_history _ _ _ _ _ _) as [turns st'] eqn:Ho. by eapply observe_request_recorded.
  - unfold append_history_item. destruct (envelope _ st) as [turn st'] eqn:He. cbn.
    rewrite (envelope_history _ _ _ _ He). by eapply recorded_item.
  - apply recorded_one; [intros ordinal; by eexists|done].
  - apply recorded_one; [intros ordinal; by eexists|done].
  - apply recorded_one; [intros ordinal; by eexists|done].
  - apply recorded_one; [intros ordinal; by eexists|done].
  - apply recorded_one; [intros ordinal; by eexists|done].
  - apply recorded_one; [intros ordinal; by eexists|done].
  - by apply recorded_nil.
  - by apply recorded_nil.
Qed.

Lemma session_run_recorded ops st : recorded st (session_run ops st).1 (session_run ops st).2.
Proof.
  revert st. induction ops as [|op ops IH]; intros st; cbn [session_run]; [by apply recorded_nil|].
  pose proof (session_op_recorded op st) as Ho. destruct (session_op op st) as [turns st1].
  specialize (IH st1). destruct (session_run ops st1) as [turns' st2]. by eapply recorded_app.
Qed.

Lemma turn_id_inj sid o1 o2 e1 e2 : o1 < U64 → o2 < U64 → turn_id sid o1 e1 = turn_id sid o2 e2 → o1 = o2.
Proof.
  intros H1 H2 Heq. unfold turn_id in Heq. apply (app_inv_head sid), (app_inv_head ($":")) in Heq.
  assert (Hcolon : ∀ n, Byte.x3a ∉ show_N n).
  { intros n Hin. pose proof (show_N_digits n) as Hd. rewrite Forall_forall in Hd.
    specialize (Hd _ Hin). by vm_compute in Hd. }
  apply before_separator in Heq; [|apply Hcolon..]. by apply show_N_inj in Heq.
Qed.

Lemma ordinals_bounds n k i : i ∈ ordinals n k → n < i ≤ n + N.of_nat k.
Proof.
  unfold ordinals. intros (j & -> & Hj)%list_elem_of_fmap. apply elem_of_seq in Hj. lia.
Qed.

(** Ids of turns with different ordinals are different. *)
Lemma recorded_ids_nodup st turns st' :
  recorded st turns st' → st_next_turn_ordinal st + len turns < U64 →
  NoDup (map (λ turn, ci_id (te_item turn)) turns).
Proof.
  intros [_ Ho Hi] Hlt. destruct (Ho Hlt) as [_ Hm]. unfold len in Hlt.
  assert (Hnd : NoDup (map te_ordinal turns)).
  { rewrite Hm. unfold ordinals. apply NoDup_fmap_2_strong; [|apply NoDup_seq]. intros; lia. }
  assert (Hb : ∀ turn, turn ∈ turns → te_ordinal turn < U64).
  { intros turn Hin. apply (list_elem_of_fmap_2 te_ordinal) in Hin. unfold fmap in Hin.
    change (list_fmap _ _ te_ordinal turns) with (map te_ordinal turns) in Hin.
    rewrite Hm in Hin. apply ordinals_bounds in Hin. lia. }
  clear Ho Hm Hlt. induction turns as [|turn turns IH]; cbn in *; [constructor|].
  apply NoDup_cons in Hnd as [Hn Hnd]. apply Forall_cons in Hi as [[e He] Hi].
  constructor; [|apply IH; [done|done|intros; apply Hb; by right]].
  intros (turn' & Hid & Hin)%list_elem_of_fmap. apply Hn.
  rewrite Forall_forall in Hi. destruct (Hi _ Hin) as [e' He']. rewrite He, He' in Hid.
  apply turn_id_inj in Hid; [|apply Hb; left|apply Hb; by right].
  rewrite Hid. by apply (list_elem_of_fmap_2 te_ordinal).
Qed.

(** C3. A session records all of the conversation: for every sequence of its operations, the turns
    are numbered 1, 2, ... without gaps, no two have the same id, and a reader that follows them
    arrives at the history of the conversation as the provider saw it last; with no rewrite among
    them, the turns are that history, item by item. *)
Theorem session_records_history ops :
  let '(turns, st) := session_run ops session_state_new in
  len turns < U64 →
  map te_ordinal turns = ordinals 0 (length turns)
  ∧ NoDup (map (λ turn, ci_id (te_item turn)) turns)
  ∧ replays [] turns (st_observed_history st)
  ∧ (Forall (λ turn, is_rewind (te_item turn) = false) turns → st_observed_history st = read_turns turns).
Proof.
  pose proof (session_run_recorded ops session_state_new) as Hr.
  destruct (session_run ops session_state_new) as [turns st]. cbn [fst snd] in Hr. intros Hlt.
  split_and!; [by apply Hr|by eapply recorded_ids_nodup|apply Hr|].
  intros Hn. by apply (replays_no_rewind _ _ _ (rc_replays _ _ _ Hr)).
Qed.

(** A request is recorded from the place where it departs from what was seen before: one that
    continues the conversation is recorded by its new items and nothing else; any other one by a
    rewind and the items after the longest part that it has in common with what was seen. After it
    the session knows the history of the request. *)
Theorem request_records_departure exchange_id history refs now st :
  let seen := st_observed_history st in
  let new := map normalize_history_item history in
  let '(turns, st') := observe_request_history s exchange_id history refs now st in
  let items := map (λ turn, item_of_turn (te_item turn)) in
  st_observed_history st' = new
  ∧ (seen `prefix_of` new → items turns = map Some (drop (length seen) new))
  ∧ (¬ seen `prefix_of` new → ∃ mark rest k, turns = mark :: rest ∧ is_rewind (te_item mark) = true
       ∧ take k seen = take k new ∧ seen !! k ≠ new !! k ∧ items rest = map Some (drop k new)).
Proof.
  cbv zeta. unfold observe_request_history.
  set (seen := st_observed_history st). set (new := map normalize_history_item history).
  pose proof (prefix_common_prefix seen new) as Hp. destruct (common_prefix_spec seen new) as (Hle & Ht & Hne).
  set (k := common_prefix_len seen new) in *.
  assert (Hitems : ∀ st1 turns st2, history_turns s exchange_id (drop k history) now st1 = (turns, st2) →
    map (λ turn, item_of_turn (te_item turn)) turns = map Some (drop k new)).
  { intros st1 turns st2 Hh. apply (recorded_items []) in Hh as [_ ->].
    unfold new. by rewrite skipn_map, map_map. }
  destruct (k <? length seen)%nat eqn:Hk.
  - destruct (envelope _ st) as [mark st1] eqn:He.
    destruct (history_turns s exchange_id (drop k history) now st1) as [turns st2] eqn:Hh.
    split_and!; [done|intros Hx; by apply Hp in Hx|]. intros _. apply Nat.ltb_lt in Hk. exists mark, turns, k.
    split_and!; [done| |done|by apply Hne|by eapply Hitems].
    unfold envelope, next_turn_ordinal in He. by injection He as <- <-.
  - destruct (history_turns s exchange_id (drop k history) now st) as [turns st2] eqn:Hh.
    split_and!; [done| |intros Hx; by destruct Hx; apply Hp]. intros _. apply Nat.ltb_ge in Hk.
    cbn [app]. rewrite (Hitems _ _ _ Hh). f_equal. f_equal. lia.
Qed.

End spec.

(** ** A conversation with a rewrite *)

Module SessionSample.

#[local] Instance sample_turn_text : TurnText := {
  json_pretty _ := $"{}"; date_json _ := $"now"; date_title _ := $"now"
}.
Definition session : Session :=
  mkSession (mkCapturedSession ($"s") ($"openai") ($"codex") [] 0) Codex
    (mkContextMetadata ($"codex") ($"codex") [] ∅ None).

Definition question : HistoryItem := HUserInput ($"question") [].
Definition answer : HistoryItem :=
  HAssistantTurn ($"answer") [mkToolCallRecord ($"c1") ($"ls") ($"{}")] (Some ($"m")) (Some ($"stop")).
Definition output : HistoryItem := HToolResult ($"c1") ($"a.txt") true.
Definition other : HistoryItem := HUserInput ($"other") [].

(** A question and its answer, a request that continues, and one that takes the tool result back. *)
Definition ops : list SessionOp := [
  SessionStart 0; NextExchange; ObserveRequest ($"e1") [question] no_artifacts 1; AppendItem ($"e1") answer 2;
  ObserveRequest ($"e2") [question; answer; output] no_artifacts 3;
  ObserveRequest ($"e3") [question; answer; other] no_artifacts 4].

Example recorded_conversation :
  map (λ turn, (te_ordinal turn, ci_item_type (te_item turn), is_rewind (te_item turn)))
    (session_run session ops session_state_new).1
  = [(1, $"system", false); (2, $"user_input", false); (3, $"assistant_turn", false);
     (4, $"tool_result", false); (5, $"system", true); (6, $"user_input", false)].
Proof. vm_compute. reflexivity. Qed.

Lemma session_records_history_witness :
  map te_ordinal (session_run session ops session_state_new).1 = [1; 2; 3; 4; 5; 6].
Proof.
  pose proof (session_records_history session ops) as H.
  assert (Hlt : len (session_run session ops session_state_new).1 < U64) by (vm_compute; reflexivity).
  destruct (session_run session ops session_state_new) as [turns st] eqn:Heq.
  destruct (H Hlt) as [Hm _]. cbn [fst]. rewrite Hm.
  apply (f_equal (λ r, length r.1)) in Heq. cbn [fst] in Heq. rewrite <- Heq. vm_compute. reflexivity.
Defined.

End SessionSample.
