(* ===== verification/CxtxProxy.v ===== *)
(** * CxtxProxy: the proxy between a tool and its provider

    [cxtx/src/proxy.rs]: a request is sent on to the provider and its response back to the tool,
    while the turns in both are recorded. A handler is given twice: as a function that threads the
    session, the ledger, the world and the turns handed to the delivery through its calls, which is
    how it runs when nothing else does, and as a program, whose single calls interleave with
    those of other handlers: [SessionRuntime] holds its lock for one call, and every turn is handed
    over on its own. [CxtxProxySpec] shows that the function is the uninterrupted run of the program.
    What becomes of a turn that is handed to the delivery is in CxtxDelivery: the handler ignores it.
    The HTTP client is a parameter: [nw_send] is one call of it with all that it does, and the one that
    the proxy builds follows redirects by itself. *)

From S2P Require Import Prelude Bytes External Json JsonCodec Conversation CxtxProvider CxtxTurns.
From S2P Require Import CxtxSession CxtxSse CxtxOpenAi CxtxAnthropic CxtxLedger.

Open Scope N_scope.

(** ** Headers *)

(** [HeaderMap]: names are in lower case, and every value of a name is an entry. *)
Definition HeaderMap : Type := list (rstr * bytes).

Definition header_get (headers : HeaderMap) (name : rstr) : option bytes :=
  snd <$> find (λ h, bool_decide (h.1 = name)) headers.
(** [HeaderValue::to_str]: visible ASCII. *)
Definition to_str (value : bytes) : option rstr :=
  if forallb (λ b, in_range 32 126 (Byte.to_N b) || (Byte.to_N b =? 9)) value then Some value else None.
(** [header_value] and [header_value_reqwest]. *)
Definition header_value (headers : HeaderMap) (name : rstr) : option rstr :=
  header_get headers name ≫= to_str.

Definition to_ascii_lowercase (s : rstr) : rstr := map ascii_lower s.
Definition eq_ignore_ascii_case (a b : rstr) : bool :=
  bool_decide (to_ascii_lowercase a = to_ascii_lowercase b).

(** [str::split] at one byte. *)
Fixpoint split_byte (sep : Byte.byte) (s : rstr) : list rstr :=
  match s with
  | [] => [[]]
  | b :: s =>
      if bool_decide (b = sep) then [] :: split_byte sep s
      else match split_byte sep s with
           | part :: parts => (b :: part) :: parts
           | [] => [[b]]
           end
  end.
Definition comma : Byte.byte := Byte.x2c.

Definition hop_by_hop_names : list rstr :=
  [$"connection"; $"keep-alive"; $"proxy-authenticate"; $"proxy-authorization"; $"te"; $"trailers";
   $"transfer-encoding"; $"upgrade"].
Definition is_hop_by_hop (name : rstr) : bool := bool_decide (to_ascii_lowercase name ∈ hop_by_hop_names).

Definition forwardable_headers (headers : HeaderMap) : HeaderMap :=
  filter (λ h, is_hop_by_hop h.1 || eq_ignore_ascii_case h.1 ($"host")
               || eq_ignore_ascii_case h.1 ($"accept-encoding") = false) headers.
Definition websocket_forwardable_headers (headers : HeaderMap) : HeaderMap :=
  filter (λ h,
    let lower := to_ascii_lowercase h.1 in
    is_hop_by_hop lower || bool_decide (lower = $"host")
    || bool_decide (lower ∈ [$"sec-websocket-key"; $"sec-websocket-version"; $"sec-websocket-extensions"])
    = false) headers.
Definition copyable_response_headers (headers : HeaderMap) : HeaderMap :=
  filter (λ h, is_hop_by_hop h.1 = false) headers.

(** [provider/mod.rs]: where a provider puts the id of a request. *)
Definition request_id_names (p : ProviderKind) : list rstr :=
  match p with
  | Codex => [$"x-request-id"; $"request-id"]
  | Claude => [$"request-id"; $"anthropic-request-id"; $"x-request-id"]
  | Pi => [$"x-request-id"; $"request-id"; $"anthropic-request-id"]
  end.
Definition request_id_from_headers (p : ProviderKind) (headers : HeaderMap) : option rstr :=
  head (omap (header_value headers) (request_id_names p)).

Definition allowlisted_names (p : ProviderKind) : list rstr :=
  match p with
  | Codex => [$"accept"; $"content-length"; $"content-type"; $"openai-processing-ms"; $"request-id";
              $"user-agent"; $"x-request-id"]
  | Claude => [$"accept"; $"anthropic-version"; $"anthropic-request-id"; $"content-length";
               $"content-type"; $"request-id"; $"user-agent"; $"x-request-id"]
  | Pi => [$"accept"; $"anthropic-version"; $"anthropic-request-id"; $"content-length";
           $"content-type"; $"openai-processing-ms"; $"request-id"; $"user-agent"; $"x-request-id"]
  end.
Definition allowlisted_headers (p : ProviderKind) (headers : HeaderMap) : gmap rstr rstr :=
  foldl (λ out name, match header_value headers name with
                     | Some value => <[name := value]> out
                     | None => out
                     end) ∅ (allowlisted_names p).

(** [find_model_field]: the first field [model] with a string, an object's own before those of its
    values. *)
Fixpoint find_model_field (value : json) : option rstr :=
  match value with
  | JObject o =>
      match obj_get ($"model") o with
      | Some (JString model) => Some model
      | _ => head (omap id (map (λ kv, find_model_field kv.2) o))
      end
  | JArray values => head (omap id (map find_model_field values))
  | _ => None
  end.

(** ** Requests and responses *)

Record PxRequest : Type := mkPxRequest {
  pq_method : rstr;
  pq_uri : Uri;
  pq_headers : HeaderMap;
  pq_body : result rstr bytes
}.
(** What goes to the provider, and what comes back: the chunks of the body as they arrive, an error
    as the last one. *)
Record UpRequest `{UrlLib} : Type := mkUpRequest {
  uq_method : rstr;
  uq_url : Url;
  uq_headers : HeaderMap;
  uq_body : bytes
}.
Record UpResponse : Type := mkUpResponse {
  ur_status : N;
  ur_headers : HeaderMap;
  ur_chunks : list (result rstr bytes)
}.
Record PxResponse : Type := mkPxResponse {
  ps_status : N;
  ps_headers : HeaderMap;
  ps_chunks : list (result rstr bytes)
}.

Arguments mkUpRequest {_} _ _ _ _.

(** The clock and the HTTP client. *)
Class Network (W : Type) `{UrlLib} : Type := {
  nw_date : W → Z;
  nw_send : UpRequest → W → result rstr UpResponse * W
}.

(** The errors of a handler. *)
Inductive ProxyError : Type :=
| NotAttached
| BodyRead (err : rstr)
| RouteFailed (err : RouteError)
| LedgerFailed (err : io_kind)
| UpstreamBodyRead (err : rstr).
(** The texts of errors: [{err:#}] of a handler's, and [{err}] of the ledger's. *)
Class ProxyTexts : Type := {
  proxy_error_text : ProxyError → rstr;
  ledger_error_text : io_kind → rstr
}.

(** [(StatusCode::BAD_GATEWAY, text).into_response()]. *)
Definition bad_gateway (text : rstr) : PxResponse :=
  mkPxResponse 502 [($"content-type", $"text/plain; charset=utf-8")] [Ok text].

(** [response.bytes()]: all of the body, or the first error. *)
Fixpoint body_bytes (chunks : list (result rstr bytes)) : result rstr bytes :=
  match chunks with
  | [] => Ok []
  | Ok chunk :: chunks => rest ← body_bytes chunks; Ok (chunk ++ rest)
  | Err err :: _ => Err err
  end.

(** ** Programs

    What a handler does, call by call: one operation of the session under its lock, one of the ledger
    or of the HTTP client, or handing over one turn. *)

Inductive Program (W A : Type) : Type :=
| Done (a : A)
| CallSession {B : Type} (op : Z → SessionState → B * SessionState) (k : B → Program W A)
| CallWorld {B : Type} (op : SessionLedger → W → B * SessionLedger * W) (k : B → Program W A)
| HandOver (turn : TurnEnvelope) (k : Program W A).
Arguments Done {W A} _.
Arguments CallSession {W A B} _ _.
Arguments CallWorld {W A B} _ _.
Arguments HandOver {W A} _ _.

Fixpoint program_bind {W A B} (p : Program W A) (f : A → Program W B) : Program W B :=
  match p with
  | Done a => f a
  | CallSession op k => CallSession op (λ b, program_bind (k b) f)
  | CallWorld op k => CallWorld op (λ b, program_bind (k b) f)
  | HandOver turn k => HandOver turn (program_bind k f)
  end.

(** ** Exchanges *)

Inductive ExchangeState : Type :=
| OpenAiState (ex : OpenAiExchange)
| AnthropicState (ex : AnthropicExchange).

Record PreparedExchange : Type := mkPreparedExchange {
  pe_exchange_id : rstr;
  pe_model : option rstr;
  pe_request_turns : list TurnEnvelope;
  pe_state : ExchangeState
}.

(** What a handler changes. *)
Record Px (W : Type) : Type := mkPx {
  px_session : SessionState;
  px_ledger : SessionLedger;
  px_world : W;
  px_sent : list TurnEnvelope
}.
Arguments mkPx {W} _ _ _ _.
Arguments px_session {W} _.
Arguments px_ledger {W} _.
Arguments px_world {W} _.
Arguments px_sent {W} _.

(** [ProxyState]: what the handlers share and do not change. *)
Record ProxyState `{UrlLib} : Type := mkProxyState {
  py_provider : ProviderKind;
  py_upstream : UpstreamConfig;
  py_session : Session;
  py_paths : LedgerPaths;
  py_attached : bool
}.

Arguments mkProxyState {_} _ _ _ _ _.

Section proxy.
Context {W : Type} `{!UrlLib} `{!Network W} `{!FileSystem W}.
Context `{JsonText} `{Unicode} `{TurnText} `{LedgerText} `{ProxyTexts}.
Context (state : ProxyState).

#[local] Notation session := (py_session state).
#[local] Notation paths := (py_paths state).

(** [ProtocolKind::prepare_exchange] and [ExchangeState]. *)
Definition protocol_prepare_exchange (protocol : ProtocolKind) (exchange_id : rstr) (body : bytes)
    (refs : ArtifactRefs) (now : Z) (st : SessionState) : PreparedExchange * SessionState :=
  match protocol with
  | OpenAi =>
      let '(model, turns, ex, st) := prepare_exchange session exchange_id body refs now st in
      (mkPreparedExchange exchange_id model turns (OpenAiState ex), st)
  | Anthropic =>
      let '(model, turns, ex, st) := anthropic_prepare_exchange session exchange_id body refs now st in
      (mkPreparedExchange exchange_id model turns (AnthropicState ex), st)
  end.
Definition exchange_finalize_json (ex : ExchangeState) (status : N) (request_id : option rstr)
    (body : bytes) (refs : ArtifactRefs) (now : Z) (st : SessionState) : list TurnEnvelope * SessionState :=
  match ex with
  | OpenAiState ex => finalize_json session ex status request_id body refs now st
  | AnthropicState ex => anthropic_finalize_json session ex status request_id body refs now st
  end.
Definition exchange_absorb_frame (frame : SseFrame) (ex : ExchangeState) : ExchangeState :=
  match ex with
  | OpenAiState ex => OpenAiState (absorb_sse_frame frame ex)
  | AnthropicState ex => AnthropicState (anthropic_absorb_frame frame ex)
  end.
Definition exchange_finalize_stream (ex : ExchangeState) (status : N) (request_id : option rstr)
    (refs : ArtifactRefs) (malformed_remainder : option rstr) (now : Z) (st : SessionState)
    : list TurnEnvelope * SessionState :=
  match ex with
  | OpenAiState ex => finalize_stream session ex status request_id refs malformed_remainder now st
  | AnthropicState ex =>
      anthropic_finalize_stream session ex status request_id refs malformed_remainder now st
  end.

(** ** Steps of a handler *)

(** An operation of the session, and handing over turns. *)
Definition on_session {A} (op : Z → SessionState → A * SessionState) (px : Px W) : A * Px W :=
  let '(a, st) := op (nw_date (px_world px)) (px_session px) in
  (a, mkPx st (px_ledger px) (px_world px) (px_sent px)).
Definition enqueue_turns (turns : list TurnEnvelope) (px : Px W) : Px W :=
  mkPx (px_session px) (px_ledger px) (px_world px) (px_sent px ++ turns).
(** [delivery.enqueue_turn(session.provider_error_turn(...)).await.ok()]. *)
Definition enqueue_error (exchange_id title message : rstr) (request_id : option rstr)
    (refs : ArtifactRefs) (px : Px W) : Px W :=
  let '(turn, px) :=
    on_session (provider_error_turn session exchange_id title message request_id refs) px in
  enqueue_turns [turn] px.
(** An operation of the ledger. *)
Definition on_ledger {A} (op : SessionLedger → W → result io_kind A * SessionLedger * W) (px : Px W)
    : result io_kind A * Px W :=
  let '(r, l, w) := op (px_ledger px) (px_world px) in (r, mkPx (px_session px) l w (px_sent px)).
Definition up_send (request : UpRequest) (px : Px W) : result rstr UpResponse * Px W :=
  let '(r, w) := nw_send request (px_world px) in
  (r, mkPx (px_session px) (px_ledger px) w (px_sent px)).

(** [header_value(...).filter(|t| t.contains("json")).and_then(|_| from_slice(body).ok())]. *)
Definition json_body (content_type : option rstr) (body : bytes) : option json :=
  match content_type with
  | Some t => if str_contains t ($"json") then result_ok (json_parse body) else None
  | None => None
  end.

Definition body_response (response : UpResponse) (request_id : option rstr)
    (prepared : PreparedExchange) (refs : ArtifactRefs) (px : Px W) : result ProxyError PxResponse * Px W :=
  match body_bytes (ur_chunks response) with
  | Err err => (Err (UpstreamBodyRead err), px)
  | Ok body =>
      let content_type := header_value (ur_headers response) ($"content-type") in
      let response_json := json_body content_type body in
      match on_ledger (record_response paths (pe_exchange_id prepared) (ur_status response) request_id
                         content_type body response_json) px with
      | (Err err, px) => (Err (LedgerFailed err), px)
      | (Ok response_artifact, px) =>
          let refs := with_response_path (Some response_artifact) refs in
          let '(turns, px) :=
            on_session (exchange_finalize_json (pe_state prepared) (ur_status response) request_id
                          body refs) px in
          let px := enqueue_turns turns px in
          (Ok (mkPxResponse (ur_status response) (copyable_response_headers (ur_headers response))
                 [Ok body]), px)
      end
  end.

(** ** Streams *)

(** What the task that reads the stream carries along. *)
Record StreamTask : Type := mkStreamTask {
  sk_parse_buffer : rstr;
  sk_raw_stream : rstr;
  sk_exchange : ExchangeState;
  sk_refs : ArtifactRefs
}.

(** [stream_response]: one frame. *)
Definition stream_frame (exchange_id : rstr) (request_id : option rstr) (task : StreamTask * Px W)
    (frame : SseFrame) : StreamTask * Px W :=
  let '(task, px) := task in
  let '(refs, px) :=
    match on_ledger (append_stream_frame paths exchange_id (sf_raw frame)) px with
    | (Ok path, px) => (with_stream_path (Some path) (sk_refs task), px)
    | (Err err, px) =>
        (sk_refs task,
         enqueue_error exchange_id ($"artifact_write_error")
           ($"failed to persist stream frame: " ++ ledger_error_text err) request_id (sk_refs task) px)
    end in
  (mkStreamTask (sk_parse_buffer task) (sk_raw_stream task)
     (exchange_absorb_frame frame (sk_exchange task)) refs, px).

(** The loop over the chunks, and what the tool is sent. *)
Fixpoint stream_chunks (exchange_id : rstr) (request_id : option rstr)
    (chunks : list (result rstr bytes)) (task : StreamTask) (px : Px W)
    : list (result rstr bytes) * StreamTask * Px W :=
  match chunks with
  | [] => ([], task, px)
  | Err err :: _ =>
      let px := enqueue_error exchange_id ($"stream_transport_error")
                  ($"failed to read upstream stream: " ++ err) request_id (sk_refs task) px in
      ([Err err], task, px)
  | Ok chunk :: chunks =>
      let text := from_utf8_lossy chunk in
      let '(frames, parse_buffer) := parse_sse_buffer (sk_parse_buffer task ++ text) in
      let task := mkStreamTask parse_buffer (sk_raw_stream task ++ text) (sk_exchange task) (sk_refs task) in
      let '(task, px) := foldl (stream_frame exchange_id request_id) (task, px) frames in
      let '(sent, task, px) := stream_chunks exchange_id request_id chunks task px in
      (Ok chunk :: sent, task, px)
  end.

(** What follows the stream. *)
Definition stream_end (exchange_id : rstr) (request_id content_type : option rstr) (status : N)
    (task : StreamTask) (px : Px W) : Px W :=
  let '(refs, px) :=
    match on_ledger (record_response paths exchange_id status request_id content_type
                       (sk_raw_stream task) None) px with
    | (Ok path, px) => (with_response_path (Some path) (sk_refs task), px)
    | (Err err, px) =>
        (sk_refs task,
         enqueue_error exchange_id ($"artifact_write_error")
           ($"failed to persist streamed response transcript: " ++ ledger_error_text err) request_id
           (sk_refs task) px)
    end in
  let remainder :=
    if bool_decide (str_trim (sk_parse_buffer task) = []) then None else Some (sk_parse_buffer task) in
  let '(turns, px) :=
    on_session (exchange_finalize_stream (sk_exchange task) status request_id refs remainder) px in
  enqueue_turns turns px.

Definition stream_response (response : UpResponse) (request_id : option rstr)
    (prepared : PreparedExchange) (refs : ArtifactRefs) (px : Px W) : PxResponse * Px W :=
  let exchange_id := pe_exchange_id prepared in
  let content_type := header_value (ur_headers response) ($"content-type") in
  let '(sent, task, px) :=
    stream_chunks exchange_id request_id (ur_chunks response)
      (mkStreamTask [] [] (pe_state prepared) refs) px in
  let px := stream_end exchange_id request_id content_type (ur_status response) task px in
  (mkPxResponse (ur_status response) (copyable_response_headers (ur_headers response)) sent, px).

(** ** Handlers *)

Definition is_event_stream (headers : HeaderMap) : bool :=
  match header_value headers ($"content-type") with
  | Some value => str_contains value ($"text/event-stream")
  | None => false
  end.

(** [handle_proxy_request] of a request that is no upgrade. *)
Definition handle_proxy_request (request : PxRequest) (px : Px W) : result ProxyError PxResponse * Px W :=
  if negb (py_attached state) then (Err NotAttached, px) else
  match pq_body request with
  | Err err => (Err (BodyRead err), px)
  | Ok body =>
  match resolve_route (py_provider state) (py_upstream state) (pq_uri request) with
  | Err err => (Err (RouteFailed err), px)
  | Ok (protocol, upstream_url) =>
  let content_type := header_value (pq_headers request) ($"content-type") in
  let request_json := json_body content_type body in
  let '(exchange_id, px) := on_session (λ _, next_exchange_id) px in
  match on_ledger (record_request paths exchange_id (uri_path (pq_uri request))
                     (request_json ≫= find_model_field) content_type body request_json) px with
  | (Err err, px) => (Err (LedgerFailed err), px)
  | (Ok request_artifact, px) =>
  let refs := with_request_path (Some request_artifact) no_artifacts in
  let '(prepared, px) := on_session (protocol_prepare_exchange protocol exchange_id body refs) px in
  let px := enqueue_turns (pe_request_turns prepared) px in
  match up_send (mkUpRequest (pq_method request) upstream_url (forwardable_headers (pq_headers request))
                   body) px with
  | (Err err, px) =>
      let text := $"upstream request failed: " ++ err in
      (Ok (bad_gateway text), enqueue_error exchange_id ($"upstream_transport_error") text None refs px)
  | (Ok response, px) =>
      let request_id := request_id_from_headers (py_provider state) (ur_headers response) in
      if is_event_stream (ur_headers response) then
        let '(downstream, px) := stream_response response request_id prepared refs px in
        (Ok downstream, px)
      else body_response response request_id prepared refs px
  end end end end.

Definition proxy_handler (request : PxRequest) (px : Px W) : PxResponse * Px W :=
  match handle_proxy_request request px with
  | (Ok response, px) => (response, px)
  | (Err err, px) => (bad_gateway ($"cxtx proxy error: " ++ proxy_error_text err), px)
  end.

(** ** Handlers, call by call *)

Definition call_session {A} (op : Z → SessionState → A * SessionState) : Program W A :=
  CallSession op Done.
Definition call_ledger {A} (op : SessionLedger → W → result io_kind A * SessionLedger * W)
    : Program W (result io_kind A) := CallWorld op Done.
Definition call_send (request : UpRequest) : Program W (result rstr UpResponse) :=
  CallWorld (λ l w, let '(r, w) := nw_send request w in (r, l, w)) Done.
Fixpoint hand_over (turns : list TurnEnvelope) : Program W unit :=
  match turns with
  | [] => Done tt
  | turn :: turns => HandOver turn (hand_over turns)
  end.
#[local] Notation "x ←ₚ p ; q" := (program_bind p (λ x, q)) (at level 20, p at level 100, q at level 200).
#[local] Notation "p ;ₚ q" := (program_bind p (λ _ : unit, q)) (at level 100, q at level 200, right associativity).

Definition call_error (exchange_id title message : rstr) (request_id : option rstr)
    (refs : ArtifactRefs) : Program W unit :=
  turn ←ₚ call_session (provider_error_turn session exchange_id title message request_id refs);
  hand_over [turn].

Definition body_response_program (response : UpResponse) (request_id : option rstr)
    (prepared : PreparedExchange) (refs : ArtifactRefs) : Program W (result ProxyError PxResponse) :=
  match body_bytes (ur_chunks response) with
  | Err err => Done (Err (UpstreamBodyRead err))
  | Ok body =>
      let content_type := header_value (ur_headers response) ($"content-type") in
      response_artifact ←ₚ call_ledger (record_response paths (pe_exchange_id prepared)
        (ur_status response) request_id content_type body (json_body content_type body));
      match response_artifact with
      | Err err => Done (Err (LedgerFailed err))
      | Ok response_artifact =>
          turns ←ₚ call_session (exchange_finalize_json (pe_state prepared) (ur_status response) request_id
            body (with_response_path (Some response_artifact) refs));
          hand_over turns ;ₚ
          Done (Ok (mkPxResponse (ur_status response) (copyable_response_headers (ur_headers response))
                      [Ok body]))
      end
  end.

Definition stream_frame_program (exchange_id : rstr) (request_id : option rstr) (task : StreamTask)
    (frame : SseFrame) : Program W StreamTask :=
  let absorbed := mkStreamTask (sk_parse_buffer task) (sk_raw_stream task)
                    (exchange_absorb_frame frame (sk_exchange task)) in
  path ←ₚ call_ledger (append_stream_frame paths exchange_id (sf_raw frame));
  match path with
  | Ok path => Done (absorbed (with_stream_path (Some path) (sk_refs task)))
  | Err err =>
      call_error exchange_id ($"artifact_write_error")
        ($"failed to persist stream frame: " ++ ledger_error_text err) request_id (sk_refs task) ;ₚ
      Done (absorbed (sk_refs task))
  end.
Fixpoint stream_frames_program (exchange_id : rstr) (request_id : option rstr) (frames : list SseFrame)
    (task : StreamTask) : Program W StreamTask :=
  match frames with
  | [] => Done task
  | frame :: frames =>
      task ←ₚ stream_frame_program exchange_id request_id task frame;
      stream_frames_program exchange_id request_id frames task
  end.

Fixpoint stream_chunks_program (exchange_id : rstr) (request_id : option rstr)
    (chunks : list (result rstr bytes)) (task : StreamTask)
    : Program W (list (result rstr bytes) * StreamTask) :=
  match chunks with
  | [] => Done ([], task)
  | Err err :: _ =>
      call_error exchange_id ($"stream_transport_error")
        ($"failed to read upstream stream: " ++ err) request_id (sk_refs task) ;ₚ
      Done ([Err err], task)
  | Ok chunk :: chunks =>
      let text := from_utf8_lossy chunk in
      let '(frames, parse_buffer) := parse_sse_buffer (sk_parse_buffer task ++ text) in
      task ←ₚ stream_frames_program exchange_id request_id frames
        (mkStreamTask parse_buffer (sk_raw_stream task ++ text) (sk_exchange task) (sk_refs task));
      rest ←ₚ stream_chunks_program exchange_id request_id chunks task;
      Done (Ok chunk :: rest.1, rest.2)
  end.

Definition stream_end_program (exchange_id : rstr) (request_id content_type : option rstr) (status : N)
    (task : StreamTask) : Program W unit :=
  let remainder :=
    if bool_decide (str_trim (sk_parse_buffer task) = []) then None else Some (sk_parse_buffer task) in
  path ←ₚ call_ledger (record_response paths exchange_id status request_id content_type
    (sk_raw_stream task) None);
  refs ←ₚ match path with
          | Ok path => Done (with_response_path (Some path) (sk_refs task))
          | Err err =>
              call_error exchange_id ($"artifact_write_error")
                ($"failed to persist streamed response transcript: " ++ ledger_error_text err) request_id
                (sk_refs task) ;ₚ
              Done (sk_refs task)
          end;
  turns ←ₚ call_session (exchange_finalize_stream (sk_exchange task) status request_id refs remainder);
  hand_over turns.

Definition stream_response_program (response : UpResponse) (request_id : option rstr)
    (prepared : PreparedExchange) (refs : ArtifactRefs) : Program W PxResponse :=
  sent ←ₚ stream_chunks_program (pe_exchange_id prepared) request_id (ur_chunks response)
    (mkStreamTask [] [] (pe_state prepared) refs);
  stream_end_program (pe_exchange_id prepared) request_id
    (header_value (ur_headers response) ($"content-type")) (ur_status response) sent.2 ;ₚ
  Done (mkPxResponse (ur_status response) (copyable_response_headers (ur_headers response)) sent.1).

(** The request with its route. *)
Definition routed_request_program (request : PxRequest) (body : bytes) (protocol : ProtocolKind)
    (upstream_url : Url) : Program W (result ProxyError PxResponse) :=
  let content_type := header_value (pq_headers request) ($"content-type") in
  let request_json := json_body content_type body in
  exchange_id ←ₚ call_session (λ _, next_exchange_id);
  request_artifact ←ₚ call_ledger (record_request paths exchange_id (uri_path (pq_uri request))
    (request_json ≫= find_model_field) content_type body request_json);
  match request_artifact with
  | Err err => Done (Err (LedgerFailed err))
  | Ok request_artifact =>
      let refs := with_request_path (Some request_artifact) no_artifacts in
      prepared ←ₚ call_session (protocol_prepare_exchange protocol exchange_id body refs);
      hand_over (pe_request_turns prepared) ;ₚ
      response ←ₚ call_send (mkUpRequest (pq_method request) upstream_url
        (forwardable_headers (pq_headers request)) body);
      match response with
      | Err err =>
          let text := $"upstream request failed: " ++ err in
          call_error exchange_id ($"upstream_transport_error") text None refs ;ₚ Done (Ok (bad_gateway text))
      | Ok response =>
          let request_id := request_id_from_headers (py_provider state) (ur_headers response) in
          if is_event_stream (ur_headers response) then
            downstream ←ₚ stream_response_program response request_id prepared refs; Done (Ok downstream)
          else body_response_program response request_id prepared refs
      end
  end.
Definition handle_proxy_request_program (request : PxRequest) : Program W (result ProxyError PxResponse) :=
  if negb (py_attached state) then Done (Err NotAttached) else
  match pq_body request with
  | Err err => Done (Err (BodyRead err))
  | Ok body =>
      match resolve_route (py_provider state) (py_upstream state) (pq_uri request) with
      | Err err => Done (Err (RouteFailed err))
      | Ok (protocol, upstream_url) => routed_request_program request body protocol upstream_url
      end
  end.

Definition proxy_handler_program (request : PxRequest) : Program W PxResponse :=
  r ←ₚ handle_proxy_request_program request;
  Done (match r with
        | Ok response => response
        | Err err => bad_gateway ($"cxtx proxy error: " ++ proxy_error_text err)
        end).

(** ** Handlers at the same time *)

(** The shared parts, the handlers by the order of their arrival, the turns handed over with the
    handler that did it, and those that other tasks took from the session: the main task, the delivery
    worker and the relays of WebSockets. *)
Record Pool : Type := mkPool {
  pl_session : SessionState;
  pl_ledger : SessionLedger;
  pl_world : W;
  pl_handlers : list (Program W PxResponse);
  pl_sent : list (nat * TurnEnvelope);
  pl_elsewhere : list TurnEnvelope
}.

Inductive PoolAction : Type :=
| Arrive (request : PxRequest)
| Advance (i : nat)
| Elsewhere (op : SessionState → list TurnEnvelope * SessionState)
| Outside (l : SessionLedger) (w : W).

(** One call of a handler, a request that arrives, an operation of another task, or a change of the
    files and the network by anybody. *)
Definition pool_step (action : PoolAction) (pl : Pool) : option Pool :=
  let '(mkPool st l w handlers sent elsewhere) := pl in
  match action with
  | Arrive request => Some (mkPool st l w (handlers ++ [proxy_handler_program request]) sent elsewhere)
  | Advance i =>
      match handlers !! i with
      | Some (CallSession op k) =>
          let '(b, st) := op (nw_date w) st in
          Some (mkPool st l w (<[i := k b]> handlers) sent elsewhere)
      | Some (CallWorld op k) =>
          let '(b, l, w) := op l w in Some (mkPool st l w (<[i := k b]> handlers) sent elsewhere)
      | Some (HandOver turn k) =>
          Some (mkPool st l w (<[i := k]> handlers) (sent ++ [(i, turn)]) elsewhere)
      | Some (Done _) | None => None
      end
  | Elsewhere op =>
      let '(turns, st) := op st in Some (mkPool st l w handlers sent (elsewhere ++ turns))
  | Outside l w => Some (mkPool st l w handlers sent elsewhere)
  end.
Fixpoint pool_run (actions : list PoolAction) (pl : Pool) : option Pool :=
  match actions with
  | [] => Some pl
  | action :: actions => pool_step action pl ≫= pool_run actions
  end.

End proxy.
Arguments mkPool {W} _ _ _ _ _ _.
Arguments pl_session {W} _.
Arguments pl_ledger {W} _.
Arguments pl_world {W} _.
Arguments pl_handlers {W} _.
Arguments pl_sent {W} _.
Arguments pl_elsewhere {W} _.
