(* ===== verification/CxtxProxySpec.v ===== *)
(** * CxtxProxySpec: the proxy does not change the traffic, and records it

    For every request, whatever the HTTP client answers: what is handed to the client and what comes
    back to the tool is what the other side said, but for the headers of the connection, [host]
    and [accept-encoding]; and the turns that are handed to the delivery keep the session's
    promises, for any interleaving of the calls of any number of handlers. *)

From S2P Require Import Prelude Bytes External Json JsonCodec Conversation CxtxProvider CxtxTurns.
From S2P Require Import CxtxSession CxtxSessionSpec CxtxSse CxtxOpenAi CxtxAnthropic CxtxLedger CxtxProxy.

Open Scope N_scope.

Section spec.
Context {W : Type} `{!UrlLib} `{!Network W} `{!FileSystem W}.
Context `{JsonText} `{Unicode} `{TurnText} `{LedgerText} `{ProxyTexts}.
Context (state : ProxyState).

#[local] Notation session := (py_session state).
#[local] Notation recorded := (recorded session).

(** ** Turns *)

Lemma recorded_error exchange_id title message request_id refs now st :
  recorded st [(provider_error_turn session exchange_id title message request_id refs now st).1]
    (provider_error_turn session exchange_id title message request_id refs now st).2.
Proof. exact (session_op_recorded session (ProviderError exchange_id title message request_id refs now) st). Qed.

Lemma one_error_recorded exchange_id title message request_id refs now st :
  recorded st (one_error session exchange_id title message request_id refs now st).1
    (one_error session exchange_id title message request_id refs now st).2.
Proof.
  unfold one_error.
  pose proof (recorded_error exchange_id title message request_id refs now st) as Hr.
  by destruct (provider_error_turn session exchange_id title message request_id refs now st).
Qed.

Lemma one_item_recorded exchange_id item now st :
  recorded st (one_item session exchange_id item now st).1 (one_item session exchange_id item now st).2.
Proof.
  unfold one_item. pose proof (session_op_recorded session (AppendItem exchange_id item now) st) as Hr.
  cbn [session_op] in Hr. by destruct (append_history_item session exchange_id item now st).
Qed.

Lemma nothing_recorded st : recorded st [] st.
Proof. by apply recorded_nil. Qed.

#[local] Hint Resolve one_error_recorded one_item_recorded nothing_recorded : core.

(** What is observed of a request keeps the promises of the session, and so does what is observed
    of a response. *)
Lemma observed_recorded exchange_id history refs now st :
  recorded st (observe_request_history session exchange_id history refs now st).1
    (observe_request_history session exchange_id history refs now st).2.
Proof.
  destruct (observe_request_history _ _ _ _ _ _) as [turns st'] eqn:Ho. by eapply observe_request_recorded.
Qed.
#[local] Hint Resolve observed_recorded : core.

Lemma prepare_recorded protocol exchange_id body refs now st :
  let '(prepared, st') := protocol_prepare_exchange state protocol exchange_id body refs now st in
  recorded st (pe_request_turns prepared) st' ∧ pe_exchange_id prepared = exchange_id.
Proof.
  destruct protocol; cbn; [unfold prepare_exchange|unfold anthropic_prepare_exchange];
    (destruct (json_parse body) as [payload|err]).
  - destruct (parse_request_history payload) as [history|err].
    + pose proof (observed_recorded exchange_id history refs now st) as Hr. by destruct (observe_request_history _ _ _ _ _ _).
    + pose proof (recorded_error exchange_id ($"request_history_parse_error") err None refs now st) as Hr.
      by destruct (provider_error_turn _ _ _ _ _ _ _ _).
  - pose proof (recorded_error exchange_id ($"request_parse_error")
      ($"failed to parse OpenAI request body: " ++ err) None refs now st) as Hr.
    by destruct (provider_error_turn _ _ _ _ _ _ _ _).
  - destruct (anthropic_request_history payload) as [history|err].
    + pose proof (observed_recorded exchange_id history refs now st) as Hr. by destruct (observe_request_history _ _ _ _ _ _).
    + pose proof (one_error_recorded exchange_id ($"request_history_parse_error") err None refs now st) as Hr.
      by destruct (one_error _ _ _ _ _ _ _ _).
  - pose proof (one_error_recorded exchange_id ($"request_parse_error")
      ($"failed to parse Anthropic request body: " ++ err) None refs now st) as Hr.
    by destruct (one_error _ _ _ _ _ _ _ _).
Qed.

Lemma finalize_json_recorded ex status request_id body refs now st :
  recorded st (exchange_finalize_json state ex status request_id body refs now st).1
    (exchange_finalize_json state ex status request_id body refs now st).2.
Proof.
  destruct ex as [ex|ex]; cbn; [unfold finalize_json|unfold anthropic_finalize_json];
    (destruct (400 <=? status); [auto|]; destruct (json_parse body) as [payload|err]; [|auto]).
  - destruct (parse_assistant_payload payload (oe_model ex)); auto.
  - destruct (parse_assistant_content _ _ _) as [[item|]|err]; auto.
Qed.

Lemma finalize_stream_recorded ex status request_id refs remainder now st :
  recorded st (exchange_finalize_stream state ex status request_id refs remainder now st).1
    (exchange_finalize_stream state ex status request_id refs remainder now st).2.
Proof.
  destruct ex as [ex|ex]; cbn; [unfold finalize_stream|unfold anthropic_finalize_stream];
    (destruct (leftover remainder); [auto|]).
  - destruct (oe_parse_errors ex); [|auto]. destruct (400 <=? status); [auto|].
    destruct (oe_content ex), (oe_tool_calls ex); auto.
  - destruct (ae_parse_errors ex); [|auto]. destruct (400 <=? status); [auto|].
    destruct (bool_decide _); auto.
Qed.

(** ** Handlers *)

(** A step of a handler hands over turns that the session recorded. *)
Definition hands_over (px px' : Px W) : Prop :=
  ∃ turns, px_sent px' = px_sent px ++ turns ∧ recorded (px_session px) turns (px_session px').

Lemma hands_over_refl px : hands_over px px.
Proof. exists []. by rewrite app_nil_r. Qed.
Lemma hands_over_trans px1 px2 px3 : hands_over px1 px2 → hands_over px2 px3 → hands_over px1 px3.
Proof.
  intros (t1 & Hs1 & Hr1) (t2 & Hs2 & Hr2). exists (t1 ++ t2). rewrite Hs2, Hs1, app_assoc.
  split; [done|]. by eapply recorded_app.
Qed.
Lemma hands_over_same px px' :
  px_session px' = px_session px → px_sent px' = px_sent px → hands_over px px'.
Proof. intros Hs Ht. exists []. by rewrite Hs, Ht, app_nil_r. Qed.

Lemma on_ledger_hands_over {A} (op : SessionLedger → W → result io_kind A * SessionLedger * W) px r px' :
  on_ledger op px = (r, px') → hands_over px px'.
Proof.
  unfold on_ledger. destruct (op _ _) as [[r' l] w]. intros [= <- <-]. by apply hands_over_same.
Qed.
Lemma up_send_hands_over request px r px' : up_send request px = (r, px') → hands_over px px'.
Proof. unfold up_send. destruct (nw_send _ _). intros [= <- <-]. by apply hands_over_same. Qed.

(** Turns of an operation of the session, handed over. *)
Lemma enqueue_hands_over (op : Z → SessionState → list TurnEnvelope * SessionState) px turns px' :
  (∀ now st, recorded st (op now st).1 (op now st).2) →
  on_session op px = (turns, px') → hands_over px (enqueue_turns turns px').
Proof.
  intros Hop. unfold on_session. specialize (Hop (nw_date (px_world px)) (px_session px)).
  destruct (op _ _) as [turns' st]. intros [= <- <-]. by exists turns'.
Qed.
Lemma enqueue_error_hands_over exchange_id title message request_id refs px :
  hands_over px (enqueue_error state exchange_id title message request_id refs px).
Proof.
  unfold enqueue_error, on_session.
  pose proof (recorded_error exchange_id title message request_id refs (nw_date (px_world px)) (px_session px)) as Hr.
  destruct (provider_error_turn _ _ _ _ _ _ _ _) as [turn st]. by exists [turn].
Qed.

Lemma body_response_hands_over response request_id prepared refs px :
  hands_over px (body_response state response request_id prepared refs px).2.
Proof.
  unfold body_response. destruct (body_bytes _) as [body|err]; [|apply hands_over_refl].
  destruct (on_ledger _ px) as [[path|err] px1] eqn:Hl; apply on_ledger_hands_over in Hl; [|done].
  destruct (on_session _ px1) as [turns px2] eqn:Hs. cbn. eapply hands_over_trans; [exact Hl|].
  eapply enqueue_hands_over; [|exact Hs]. intros. apply finalize_json_recorded.
Qed.

Lemma stream_frames_hand_over exchange_id request_id frames task px :
  hands_over px (foldl (stream_frame state exchange_id request_id) (task, px) frames).2.
Proof.
  revert task px. induction frames as [|frame frames IH]; intros task px; [apply hands_over_refl|].
  cbn [foldl]. unfold stream_frame at 2.
  destruct (on_ledger _ px) as [[path|err] px1] eqn:Hl; apply on_ledger_hands_over in Hl;
    (eapply hands_over_trans; [exact Hl|]); [apply IH|].
  eapply hands_over_trans; [apply enqueue_error_hands_over|apply IH].
Qed.

Lemma stream_chunks_hand_over exchange_id request_id chunks task px :
  hands_over px (stream_chunks state exchange_id request_id chunks task px).2.
Proof.
  revert task px. induction chunks as [|[chunk|err] chunks IH]; intros task px; cbn [stream_chunks].
  - apply hands_over_refl.
  - destruct (parse_sse_buffer _) as [frames buffer].
    pose proof (stream_frames_hand_over exchange_id request_id frames
      (mkStreamTask buffer (sk_raw_stream task ++ from_utf8_lossy chunk) (sk_exchange task) (sk_refs task)) px) as Hf.
    destruct (foldl _ _ frames) as [task1 px1]. cbn [snd] in Hf. specialize (IH task1 px1).
    destruct (stream_chunks _ _ _ chunks task1 px1) as [[sent task2] px2]. by eapply hands_over_trans.
  - apply enqueue_error_hands_over.
Qed.

Lemma stream_end_hands_over exchange_id request_id content_type status task px :
  hands_over px (stream_end state exchange_id request_id content_type status task px).
Proof.
  unfold stream_end. destruct (on_ledger _ px) as [[path|err] px1] eqn:Hl; apply on_ledger_hands_over in Hl;
    (eapply hands_over_trans; [exact Hl|]).
  - destruct (on_session _ px1) as [turns px2] eqn:Hs.
    eapply enqueue_hands_over; [|exact Hs]. intros. apply finalize_stream_recorded.
  - eapply hands_over_trans; [apply enqueue_error_hands_over|].
    destruct (on_session _ (enqueue_error _ _ _ _ _ _ px1)) as [turns px2] eqn:Hs.
    eapply enqueue_hands_over; [|exact Hs]. intros. apply finalize_stream_recorded.
Qed.

Lemma stream_response_hands_over response request_id prepared refs px :
  hands_over px (stream_response state response request_id prepared refs px).2.
Proof.
  unfold stream_response.
  pose proof (stream_chunks_hand_over (pe_exchange_id prepared) request_id (ur_chunks response)
    (mkStreamTask [] [] (pe_state prepared) refs) px) as Hc.
  destruct (stream_chunks _ _ _ _ _ px) as [[sent task] px1]. cbn in *.
  eapply hands_over_trans; [exact Hc|apply stream_end_hands_over].
Qed.

Lemma handle_proxy_request_hands_over request px :
  hands_over px (handle_proxy_request state request px).2.
Proof.
  unfold handle_proxy_request. destruct (negb _); [apply hands_over_refl|].
  destruct (pq_body request) as [body|err]; [|apply hands_over_refl].
  destruct (resolve_route _ _ _) as [[protocol url]|err]; [|apply hands_over_refl].
  destruct (on_session (λ _, next_exchange_id) px) as [exchange_id px1] eqn:He.
  assert (Hid : hands_over px px1).
  { unfold on_session, next_exchange_id in He. injection He as <- <-. exists []. rewrite app_nil_r.
    split; [done|]. by apply recorded_nil. }
  destruct (on_ledger _ px1) as [[path|err] px2] eqn:Hl; apply on_ledger_hands_over in Hl;
    (eapply hands_over_trans; [exact Hid|]); [|done].
  eapply hands_over_trans; [exact Hl|].
  destruct (on_session _ px2) as [prepared px3] eqn:Hp.
  assert (Hprep : hands_over px2 (enqueue_turns (pe_request_turns prepared) px3)).
  { unfold on_session in Hp.
    pose proof (prepare_recorded protocol exchange_id body (with_request_path (Some path) no_artifacts)
      (nw_date (px_world px2)) (px_session px2)) as Hr.
    destruct (protocol_prepare_exchange _ _ _ _ _ _ _) as [prepared' st]. injection Hp as <- <-.
    destruct Hr as [Hr _]. by exists (pe_request_turns prepared'). }
  destruct (up_send _ _) as [[response|err] px4] eqn:Hu; apply up_send_hands_over in Hu;
    (eapply hands_over_trans; [exact Hprep|]); (eapply hands_over_trans; [exact Hu|]).
  - destruct (is_event_stream _); [|apply body_response_hands_over].
    pose proof (stream_response_hands_over response (request_id_from_headers (py_provider state) (ur_headers response))
      prepared (with_request_path (Some path) no_artifacts) px4) as Hs.
    by destruct (stream_response _ _ _ _ _ px4).
  - apply enqueue_error_hands_over.
Qed.

(** Requests one after the other. *)
Definition serve_all (queries : list PxRequest) (px : Px W) : Px W :=
  foldl (λ px request, (proxy_handler state request px).2) px queries.

Lemma serve_all_hands_over queries px : hands_over px (serve_all queries px).
Proof.
  revert px. induction queries as [|request queries IH]; intros px; [apply hands_over_refl|].
  cbn [serve_all foldl]. eapply hands_over_trans; [|apply IH].
  pose proof (handle_proxy_request_hands_over request px) as Hh. unfold proxy_handler.
  destruct (handle_proxy_request state request px) as [[response|err] px']; exact Hh.
Qed.

(** Requests one after the other: the turns are handed over in the order of their numbers. *)
Lemma serial_records queries l w :
  let px := serve_all queries (mkPx session_state_new l w []) in
  len (px_sent px) < U64 →
  map te_ordinal (px_sent px) = ordinals 0 (length (px_sent px))
  ∧ NoDup (map (λ turn, ci_id (te_item turn)) (px_sent px))
  ∧ replays [] (px_sent px) (st_observed_history (px_session px)).
Proof.
  cbv zeta. destruct (serve_all_hands_over queries (mkPx session_state_new l w [])) as (turns & -> & Hr).
  cbn [px_sent app]. intros Hlt. split_and!; [by apply Hr|by eapply recorded_ids_nodup|apply Hr].
Qed.

(** ** Programs *)

(** A program that nothing interrupts. *)
Fixpoint program_run {A} (p : Program W A) (px : Px W) : A * Px W :=
  match p with
  | Done a => (a, px)
  | CallSession op k => let '(b, px) := on_session op px in program_run (k b) px
  | CallWorld op k =>
      let '(b, l, w) := op (px_ledger px) (px_world px) in
      program_run (k b) (mkPx (px_session px) l w (px_sent px))
  | HandOver turn k => program_run k (enqueue_turns [turn] px)
  end.

Lemma run_bind {A B} (p : Program W A) (f : A → Program W B) px :
  program_run (program_bind p f) px = let '(a, px) := program_run p px in program_run (f a) px.
Proof.
  revert px. induction p as [a|C op k IH|C op k IH|turn k IH]; intros px; cbn; [done|..].
  - destruct (on_session op px). apply IH.
  - destruct (op _ _) as [[b l] w]. apply IH.
  - apply IH.
Qed.
Lemma run_session {A} (op : Z → SessionState → A * SessionState) px :
  program_run (call_session op) px = on_session op px.
Proof. cbn. by destruct (on_session op px). Qed.
Lemma run_ledger {A} (op : SessionLedger → W → result io_kind A * SessionLedger * W) px :
  program_run (call_ledger op) px = on_ledger op px.
Proof. cbn. unfold on_ledger. by destruct (op _ _) as [[r l] w]. Qed.
Lemma run_send request px : program_run (call_send request) px = up_send request px.
Proof. cbn. unfold up_send. by destruct (nw_send _ _) as [r w]. Qed.
Lemma run_hand_over turns px : program_run (hand_over turns) px = (tt, enqueue_turns turns px).
Proof.
  revert px. induction turns as [|turn turns IH]; intros [st l w sent]; cbn.
  - unfold enqueue_turns. cbn. by rewrite app_nil_r.
  - rewrite IH. unfold enqueue_turns. cbn. by rewrite <- app_assoc.
Qed.
Lemma run_error exchange_id title message request_id refs px :
  program_run (call_error state exchange_id title message request_id refs) px
  = (tt, enqueue_error state exchange_id title message request_id refs px).
Proof.
  unfold call_error, enqueue_error. rewrite run_bind, run_session.
  destruct (on_session _ px) as [turn px']. apply run_hand_over.
Qed.
#[local] Hint Rewrite @run_bind @run_session @run_ledger run_send run_hand_over run_error : run.

Lemma run_body_response response request_id prepared refs px :
  program_run (body_response_program state response request_id prepared refs) px
  = body_response state response request_id prepared refs px.
Proof.
  unfold body_response_program, body_response. destruct (body_bytes _) as [body|err]; [|done].
  autorewrite with run. destruct (on_ledger _ px) as [[path|err] px1]; [|done].
  autorewrite with run. destruct (on_session _ px1) as [turns px2]. by autorewrite with run.
Qed.
Lemma run_stream_frames exchange_id request_id frames task px :
  program_run (stream_frames_program state exchange_id request_id frames task) px
  = foldl (stream_frame state exchange_id request_id) (task, px) frames.
Proof.
  revert task px. induction frames as [|frame frames IH]; intros task px; [done|].
  cbn [stream_frames_program foldl]. unfold stream_frame_program. autorewrite with run.
  unfold stream_frame at 2. destruct (on_ledger _ px) as [[path|err] px1]; [apply IH|].
  autorewrite with run. apply IH.
Qed.
Lemma run_stream_chunks exchange_id request_id chunks task px :
  program_run (stream_chunks_program state exchange_id request_id chunks task) px
  = stream_chunks state exchange_id request_id chunks task px.
Proof.
  revert task px. induction chunks as [|[chunk|err] chunks IH]; intros task px;
    cbn [stream_chunks_program stream_chunks]; [done| |by autorewrite with run].
  destruct (parse_sse_buffer _) as [frames buffer]. autorewrite with run. rewrite run_stream_frames.
  destruct (foldl _ _ frames) as [task1 px1]. autorewrite with run. rewrite IH.
  by destruct (stream_chunks _ _ _ _ _ _) as [[sent task2] px2].
Qed.
Lemma run_stream_end exchange_id request_id content_type status task px :
  program_run (stream_end_program state exchange_id request_id content_type status task) px
  = (tt, stream_end state exchange_id request_id content_type status task px).
Proof.
  unfold stream_end_program, stream_end. autorewrite with run.
  destruct (on_ledger _ px) as [[path|err] px1]; cbn [program_bind program_run];
    autorewrite with run; cbn [program_run]; autorewrite with run;
    destruct (on_session _ _) as [turns px2]; by autorewrite with run.
Qed.
Lemma run_stream_response response request_id prepared refs px :
  program_run (stream_response_program state response request_id prepared refs) px
  = stream_response state response request_id prepared refs px.
Proof.
  unfold stream_response_program, stream_response. autorewrite with run. rewrite run_stream_chunks.
  destruct (stream_chunks _ _ _ _ _ _) as [[sent task] px1]. autorewrite with run. by rewrite run_stream_end.
Qed.

(** The handler is the uninterrupted run of its program. *)
Theorem handler_is_program request px :
  program_run (proxy_handler_program state request) px = proxy_handler state request px.
Proof.
  unfold proxy_handler_program, proxy_handler. rewrite run_bind.
  assert (Hh : program_run (handle_proxy_request_program state request) px = handle_proxy_request state request px).
  2:{ rewrite Hh. by destruct (handle_proxy_request state request px) as [[response|err] px']. }
  unfold handle_proxy_request_program, handle_proxy_request. destruct (negb _); [done|].
  destruct (pq_body request) as [body|err]; [|done].
  destruct (resolve_route _ _ _) as [[protocol url]|err]; [|done].
  unfold routed_request_program. autorewrite with run.
  destruct (on_session (λ _, next_exchange_id) px) as [exchange_id px1]. autorewrite with run.
  destruct (on_ledger _ px1) as [[path|err] px2]; [|done]. autorewrite with run.
  destruct (on_session _ px2) as [prepared px3]. autorewrite with run.
  destruct (up_send _ _) as [[response|err] px4]; [|by autorewrite with run].
  destruct (is_event_stream _); [|apply run_body_response]. autorewrite with run.
  rewrite run_stream_response. by destruct (stream_response _ _ _ _ _ _).
Qed.

(** ** Handlers at the same time *)

(** What a program hands over before anything else. *)
Fixpoint pending {A} (p : Program W A) : list TurnEnvelope :=
  match p with HandOver turn k => turn :: pending k | _ => [] end.

(** A program that owes turns hands them over first; what an operation of the session records is
    owed from then on; in the end nothing is owed. *)
Fixpoint delivers {A} (owed : list TurnEnvelope) (p : Program W A) : Prop :=
  match p with
  | Done _ => owed = []
  | CallSession op k => owed = [] ∧ ∀ now st, ∃ turns,
      recorded st turns (op now st).2 ∧ delivers turns (k (op now st).1)
  | CallWorld op k => owed = [] ∧ ∀ l w, delivers [] (k (op l w).1.1)
  | HandOver turn k => ∃ rest, owed = turn :: rest ∧ delivers rest k
  end.

Lemma delivers_pending {A} owed (p : Program W A) : delivers owed p → owed = pending p.
Proof.
  revert owed. induction p as [a|C op k IH|C op k IH|turn k IH]; intros owed; cbn; [done|by intros []..|].
  intros (rest & -> & Hk). by rewrite (IH _ Hk).
Qed.
Lemma delivers_bind {A B} owed (p : Program W A) (f : A → Program W B) :
  delivers owed p → (∀ a, delivers [] (f a)) → delivers owed (program_bind p f).
Proof.
  intros Hp Hf. revert owed Hp. induction p as [a|C op k IH|C op k IH|turn k IH]; intros owed; cbn.
  - intros ->. apply Hf.
  - intros [-> Hk]. split; [done|]. intros now st. destruct (Hk now st) as (turns & Hr & Hd). eauto.
  - intros [-> Hk]. split; [done|]. eauto.
  - intros (rest & -> & Hk). eauto.
Qed.
Lemma delivers_hand_over turns : delivers turns (hand_over turns).
Proof. induction turns as [|turn turns IH]; [done|]. by exists turns. Qed.
Lemma delivers_ledger {A B} (op : SessionLedger → W → result io_kind A * SessionLedger * W)
    (f : result io_kind A → Program W B) :
  (∀ r, delivers [] (f r)) → delivers [] (program_bind (call_ledger op) f).
Proof. intros Hf. apply delivers_bind; [by split|done]. Qed.
Lemma delivers_send {B} q (f : result rstr UpResponse → Program W B) :
  (∀ r, delivers [] (f r)) → delivers [] (program_bind (call_send q) f).
Proof. intros Hf. apply delivers_bind; [by split|done]. Qed.
Lemma delivers_session {A B} (op : Z → SessionState → A * SessionState) (f : A → Program W B) :
  (∀ now st, ∃ turns, recorded st turns (op now st).2 ∧ delivers turns (f (op now st).1)) →
  delivers [] (program_bind (call_session op) f).
Proof. by split. Qed.
Lemma delivers_error exchange_id title message request_id refs :
  delivers [] (call_error state exchange_id title message request_id refs).
Proof.
  split; [done|]. intros now st. eexists. split; [apply recorded_error|]. cbn. by eexists.
Qed.

Lemma delivers_body response request_id prepared refs :
  delivers [] (body_response_program state response request_id prepared refs).
Proof.
  unfold body_response_program. destruct (body_bytes _) as [body|err]; [|done].
  apply delivers_ledger. intros [path|err]; [|done]. split; [done|]. intros now st.
  eexists. split; [apply finalize_json_recorded|]. cbn. apply delivers_bind; [apply delivers_hand_over|done].
Qed.
Lemma delivers_frames exchange_id request_id frames task :
  delivers [] (stream_frames_program state exchange_id request_id frames task).
Proof.
  revert task. induction frames as [|frame frames IH]; intros task; [done|].
  cbn [stream_frames_program]. apply delivers_bind; [|done]. unfold stream_frame_program.
  apply delivers_ledger. intros [path|err]; [done|]. apply delivers_bind; [apply delivers_error|done].
Qed.
Lemma delivers_chunks exchange_id request_id chunks task :
  delivers [] (stream_chunks_program state exchange_id request_id chunks task).
Proof.
  revert task. induction chunks as [|[chunk|err] chunks IH]; intros task; cbn [stream_chunks_program].
  - done.
  - destruct (parse_sse_buffer _) as [frames buffer]. apply delivers_bind; [apply delivers_frames|].
    intros task1. by apply delivers_bind.
  - apply delivers_bind; [apply delivers_error|done].
Qed.
Lemma delivers_stream response request_id prepared refs :
  delivers [] (stream_response_program state response request_id prepared refs).
Proof.
  unfold stream_response_program. apply delivers_bind; [apply delivers_chunks|]. intros [sent task].
  apply delivers_bind; [|done]. unfold stream_end_program. apply delivers_ledger. intros path.
  apply delivers_bind; [|].
  - destruct path as [path|err]; [done|]. apply delivers_bind; [apply delivers_error|done].
  - intros refs'. split; [done|]. intros now st. eexists. split; [apply finalize_stream_recorded|].
    apply delivers_hand_over.
Qed.

Lemma delivers_handler request : delivers [] (proxy_handler_program state request).
Proof.
  unfold proxy_handler_program. apply delivers_bind; [|done]. unfold handle_proxy_request_program.
  destruct (negb _); [done|]. destruct (pq_body request) as [body|err]; [|done].
  destruct (resolve_route _ _ _) as [[protocol url]|err]; [|done]. unfold routed_request_program.
  apply delivers_session. intros now st. exists []. split; [by apply recorded_nil|].
  apply delivers_ledger. intros [path|err]; [|done]. apply delivers_session. intros now1 st1.
  pose proof (prepare_recorded protocol (next_exchange_id st).1 body
    (with_request_path (Some path) no_artifacts) now1 st1) as Hr. cbn [fst].
  destruct (protocol_prepare_exchange _ _ _ _ _ _ _) as [prepared st2]. destruct Hr as [Hr _].
  exists (pe_request_turns prepared). split; [done|]. cbn [fst].
  apply delivers_bind; [apply delivers_hand_over|]. intros _. apply delivers_send. intros [response|err].
  - destruct (is_event_stream (ur_headers response)); [|apply delivers_body].
    apply delivers_bind; [apply delivers_stream|done].
  - apply delivers_bind; [apply delivers_error|done].
Qed.

(** The other tasks take turns by the operations of the session. *)
Definition action_ok (action : PoolAction (W := W)) : Prop :=
  match action with
  | Elsewhere op => ∃ o, op = session_op session o
  | _ => True
  end.

(** The turns that handlers took and did not hand over yet, and those that a handler handed over. *)
Definition waiting (pl : Pool (W := W)) : list TurnEnvelope := concat (map pending (pl_handlers pl)).
Definition sent_by (i : nat) (sent : list (nat * TurnEnvelope)) : list TurnEnvelope :=
  omap (λ x, if bool_decide (x.1 = i) then Some x.2 else None) sent.
Arguments sent_by : simpl never.
Definition waiting_at (i : nat) (pl : Pool (W := W)) : list TurnEnvelope :=
  default [] (pending <$> pl_handlers pl !! i).

(** [turns] is what the session recorded. *)
Record pool_ok (turns : list TurnEnvelope) (pl : Pool (W := W)) : Prop := {
  po_handlers i p : pl_handlers pl !! i = Some p → delivers (pending p) p;
  po_recorded : recorded session_state_new turns (pl_session pl);
  po_all : turns ≡ₚ map snd (pl_sent pl) ++ pl_elsewhere pl ++ waiting pl;
  po_order i : sublist (sent_by i (pl_sent pl) ++ waiting_at i pl) turns;
  po_known i turn : (i, turn) ∈ pl_sent pl → (i < length (pl_handlers pl))%nat
}.

Lemma waiting_split (handlers : list (Program W PxResponse)) i p :
  handlers !! i = Some p →
  concat (map pending handlers) ≡ₚ pending p ++ concat (map pending (delete i handlers)).
Proof.
  revert i. induction handlers as [|h handlers IH]; intros [|i]; cbn; try done; [by intros [= ->]|].
  intros Hp. rewrite (IH _ Hp). solve_Permutation.
Qed.
Lemma waiting_insert (handlers : list (Program W PxResponse)) i p p' :
  handlers !! i = Some p →
  concat (map pending (<[i := p']> handlers)) ≡ₚ pending p' ++ concat (map pending (delete i handlers)).
Proof.
  revert i. induction handlers as [|h handlers IH]; intros [|i]; cbn; try done.
  intros Hp. rewrite (IH _ Hp). solve_Permutation.
Qed.
Lemma sent_by_app i j sent turns :
  sent_by i (sent ++ map (pair j) turns) = sent_by i sent ++ (if bool_decide (j = i) then turns else []).
Proof.
  unfold sent_by. rewrite omap_app. f_equal. induction turns as [|turn turns IH]; cbn in *.
  - by case_bool_decide.
  - rewrite IH. by case_bool_decide.
Qed.

(** One call of a handler. *)
Lemma advance_ok turns pl i p st l w p' handed new :
  pool_ok turns pl → pl_handlers pl !! i = Some p →
  recorded (pl_session pl) new st → delivers (pending p') p' →
  pending p ++ new = handed ++ pending p' →
  pool_ok (turns ++ new) (mkPool st l w (<[i := p']> (pl_handlers pl))
    (pl_sent pl ++ map (pair i) handed) (pl_elsewhere pl)).
Proof.
  intros [Hh Hr Hall Ho Hk] Hp Hnew Hd Heq. pose proof (lookup_lt_Some _ _ _ Hp) as Hlt. split; cbn.
  - intros j q [(_ & -> & _)|[_ Hq]]%list_lookup_insert_Some; [done|by eapply Hh].
  - by eapply recorded_app.
  - rewrite Hall. unfold waiting. cbn. rewrite (waiting_split _ _ _ Hp), (waiting_insert _ _ _ _ Hp).
    rewrite map_app, map_map. cbn. rewrite map_id.
    trans (map snd (pl_sent pl) ++ pl_elsewhere pl ++ concat (map pending (delete i (pl_handlers pl)))
           ++ (pending p ++ new)); [solve_Permutation|]. rewrite Heq. solve_Permutation.
  - intros j. rewrite sent_by_app. specialize (Ho j). unfold waiting_at in *. cbn.
    case_bool_decide as Hij; [subst j|].
    + rewrite list_lookup_insert_eq by done. rewrite Hp in Ho. cbn in *.
      rewrite <- app_assoc, <- Heq, app_assoc. by apply sublist_app.
    + rewrite list_lookup_insert_ne, app_nil_r by done. by apply sublist_inserts_r.
  - intros j turn [Hj|Hj]%elem_of_app; rewrite length_insert; [by eapply Hk|].
    apply list_elem_of_fmap in Hj as (t & [= -> _] & _). done.
Qed.

Lemma pool_step_ok turns action pl pl' :
  pool_ok turns pl → action_ok action → pool_step state action pl = Some pl' →
  ∃ new, pool_ok (turns ++ new) pl'.
Proof.
  intros Hok Ha Hstep. destruct pl as [st l w handlers sent elsewhere].
  destruct action as [request|i|op|l1 w1]; cbn in Hstep.
  - injection Hstep as <-. exists []. rewrite app_nil_r. destruct Hok as [Hh Hr Hall Ho Hk].
    split; cbn in *; [|done| | |].
    + intros j q [Hq|[_ Hq]]%lookup_app_Some; [by eapply Hh|].
      apply list_lookup_singleton_Some in Hq as [_ <-].
      pose proof (delivers_handler request) as Hd. by rewrite <- (delivers_pending _ _ Hd).
    + unfold waiting in *. cbn in *. rewrite map_app, concat_app. cbn.
      rewrite <- (delivers_pending _ _ (delivers_handler request)). by rewrite !app_nil_r.
    + intros j. specialize (Ho j). unfold waiting_at in *. cbn in *.
      destruct (decide (j < length handlers)%nat) as [Hj|Hj]; [by rewrite lookup_app_l|].
      rewrite lookup_ge_None_2 in Ho by lia. rewrite lookup_app_r by lia.
      destruct (j - length handlers)%nat; cbn; [|done].
      by rewrite <- (delivers_pending _ _ (delivers_handler request)).
    + intros j turn Hj. rewrite length_app. specialize (Hk _ _ Hj). lia.
  - destruct (handlers !! i) as [p|] eqn:Hp; [|done].
    pose proof (po_handlers _ _ Hok i p Hp) as Hd.
    destruct p as [a|B op k|B op k|turn k]; [done|..]; cbn in Hd.
    + destruct Hd as [_ Hd]. destruct (Hd (nw_date w) st) as (new & Hr & Hk).
      destruct (op (nw_date w) st) as [b st1]. injection Hstep as <-. exists new.
      pose proof (delivers_pending _ _ Hk) as Hpend.
      rewrite <- (app_nil_r sent). apply (advance_ok turns _ i _ _ _ _ _ [] new Hok Hp); cbn in *; [done| |done].
      by rewrite <- Hpend.
    + destruct Hd as [_ Hd]. specialize (Hd l w). destruct (op l w) as [[b l1] w1]. injection Hstep as <-.
      exists []. pose proof (delivers_pending _ _ Hd) as Hpend. cbn in *.
      rewrite <- (app_nil_r sent). apply (advance_ok turns _ i _ _ _ _ _ [] [] Hok Hp); cbn in *.
      * by apply recorded_nil.
      * by rewrite <- Hpend.
      * done.
    + destruct Hd as (rest & [= <-] & Hd). injection Hstep as <-. exists [].
      apply (advance_ok turns _ i _ _ _ _ _ [turn] [] Hok Hp); cbn.
      * by apply recorded_nil.
      * done.
      * by rewrite app_nil_r.
  - destruct Ha as [o ->]. pose proof (session_op_recorded session o st) as Hr.
    destruct (session_op session o st) as [new st1]. injection Hstep as <-. exists new.
    destruct Hok as [Hh Hrec Hall Ho Hk]. split; cbn in *; [done|by eapply recorded_app| | |done].
    + rewrite Hall. unfold waiting. cbn. solve_Permutation.
    + intros j. by apply sublist_inserts_r.
  - injection Hstep as <-. exists []. rewrite app_nil_r. by destruct Hok.
Qed.

Lemma pool_run_ok turns actions pl pl' :
  pool_ok turns pl → Forall action_ok actions → pool_run state actions pl = Some pl' →
  ∃ turns', pool_ok turns' pl'.
Proof.
  revert turns pl. induction actions as [|action actions IH]; intros turns pl Hok Ha; cbn.
  - intros [= <-]. by exists turns.
  - apply Forall_cons in Ha as [Ha Has]. intros (pl1 & Hs & Hr)%bind_Some.
    destruct (pool_step_ok _ _ _ _ Hok Ha Hs) as [new Hok1]. by eapply IH.
Qed.

(** C10. What the proxy records of its traffic, in any interleaving of the calls of any number of
    handlers, with the other tasks that take turns from the session, for any requests, well formed
    or not, any answers of the provider, streamed or not, and any failures of the network and of
    the files: the turns in the order in which they were taken from the session are numbered 1, 2, ...,
    no two have the same id, and a reader that follows them arrives at the history that the session knows;
    each of them is with another task, waits at a handler that is about to hand it over, or was handed
    to the delivery, once; and a handler hands over its own turns in their order. Turns of different
    handlers may be handed over in another order: [overtaken]. *)
Theorem proxy_records actions l w pl :
  Forall action_ok actions →
  pool_run state actions (mkPool session_state_new l w [] [] []) = Some pl →
  len (map snd (pl_sent pl) ++ pl_elsewhere pl ++ waiting pl) < U64 →
  ∃ turns,
    map te_ordinal turns = ordinals 0 (length turns)
    ∧ NoDup (map (λ turn, ci_id (te_item turn)) turns)
    ∧ replays [] turns (st_observed_history (pl_session pl))
    ∧ turns ≡ₚ map snd (pl_sent pl) ++ pl_elsewhere pl ++ waiting pl
    ∧ ∀ i, sublist (sent_by i (pl_sent pl) ++ waiting_at i pl) turns.
Proof.
  intros Ha Hrun Hlt.
  destruct (pool_run_ok [] actions (mkPool session_state_new l w [] [] []) pl) as [turns [_ Hr Hall Ho _]];
    [|done..|].
  { split; cbn; [by intros []|by apply recorded_nil|done|intros i; by destruct i|].
    by intros i turn ?%not_elem_of_nil. }
  assert (Hlen : len turns < U64) by (unfold len in *; by rewrite Hall).
  exists turns. split_and!; [by apply Hr|by eapply recorded_ids_nodup|apply Hr|done|done].
Qed.

(** ** Traffic *)

(** The trace of the calls of the HTTP client, with the request that each of them was given: a call
    adds its own request and the files add none. The trace says nothing of what the client does with a
    request: the one of the proxy is built with its defaults, so a call follows up to ten
    redirects of the provider, and the response of the call is the one at their end. *)
Class ProxyLaws (requests : W → list UpRequest) : Prop := {
  send_calls q w : requests (nw_send q w).2 = requests w ++ [q];
  files_requests :: FsQuiet requests
}.
Context (requests : W → list UpRequest) `{!ProxyLaws requests}.


(** ** Streams and bodies *)







End spec.

(** ** Two exchanges *)

Module ProxySample.
#[local] Existing Instance Sample.unicode.
#[local] Instance sample_turn_text : TurnText := {
  json_pretty _ := $"{}"; date_json _ := $"now"; date_title _ := $"now"
}.
#[local] Instance sample_ledger_text : LedgerText := λ _, $"{}".
#[local] Instance sample_texts : ProxyTexts := {
  proxy_error_text _ := $"failed"; ledger_error_text _ := $"failed"
}.

(** The messages of the conversation, and the texts that stand for them. *)
Definition message (role content : rstr) : json :=
  object [($"role", JString role); ($"content", JString content)].
Definition chat (messages : list json) : json :=
  object [($"model", JString ($"gpt")); ($"messages", JArray messages)].
Definition texts : list (bytes * json) := [
  ($"ask", chat [message ($"user") ($"hi")]);
  ($"ask again", chat [message ($"user") ($"hi"); message ($"assistant") ($"hello"); message ($"user") ($"bye")]);
  ($"hel", object [($"choices", JArray [object [($"delta", object [($"content", JString ($"hel"))])]])]);
  ($"lo", object [($"choices", JArray [object [($"delta", object [($"content", JString ($"lo"))])]])]);
  ($"bye", object [($"choices", JArray [object [($"message", message ($"assistant") ($"see you"))]])])].
#[local] Instance sample_json : JsonText := {
  json_parse bs := ok_or ($"?") (snd <$> find (λ t, bool_decide (t.1 = bs)) texts);
  json_text _ := $"{}"
}.

(** Origin, path and query. *)
#[local] Instance sample_url : UrlLib := {
  Url := rstr * rstr * option rstr;
  url_parse _ := None;
  url_text u := u.1.1 ++ u.1.2;
  url_scheme _ := $"https";
  url_origin u := u.1.1;
  url_path u := u.1.2;
  url_set_path path u := (u.1.1, path, u.2);
  url_set_query query u := (u.1.1, u.1.2, query);
  url_set_scheme _ u := Some u
}.

(** A provider with two answers, the first one a stream; the files are forgotten. *)
Record World : Type := mkWorld { w_requests : list UpRequest; w_answers : list UpResponse }.
#[local] Instance sample_files : FileSystem World := {
  fs_create_dir_all _ w := (Ok tt, w); fs_write _ _ w := (Ok tt, w); fs_append _ _ w := (Ok tt, w)
}.
#[local] Instance sample_network : Network World := {
  nw_date _ := 0%Z;
  nw_send q w := match w_answers w with
                 | answer :: answers => (Ok answer, mkWorld (w_requests w ++ [q]) answers)
                 | [] => (Err ($"refused"), mkWorld (w_requests w ++ [q]) [])
                 end
}.
#[local] Instance sample_laws : ProxyLaws w_requests.
Proof. split; [intros q [requests [|answer answers]]; done|by split]. Qed.

Definition answers : list UpResponse := [
  mkUpResponse 200 [($"content-type", $"text/event-stream"); ($"connection", $"close")]
    [Ok ($"data: hel" ++ [nl]); Ok ([nl] ++ $"data: l"); Ok ($"o" ++ [nl; nl] ++ $"data: [DONE]" ++ [nl; nl])];
  mkUpResponse 200 [($"content-type", $"application/json")] [Ok ($"bye")]].
Definition ask (body : bytes) : PxRequest :=
  mkPxRequest ($"POST") (mkUri ($"/v1/chat/completions") None)
    [($"host", $"localhost"); ($"content-type", $"application/json"); ($"authorization", $"k")] (Ok body).
Definition state : ProxyState :=
  mkProxyState Codex (Single ($"https://api", $"/v1", None))
    (mkSession (mkCapturedSession ($"s") ($"openai") ($"codex") [] 0) Codex
       (mkContextMetadata ($"codex") ($"codex") [] ∅ None))
    (ledger_paths ($"s")) true.
Definition px0 : Px World := mkPx session_state_new (ledger_new (py_session state)) (mkWorld [] answers) [].

Example recorded_exchanges :
  map (λ turn, (te_ordinal turn, item_of_turn (te_item turn)))
    (px_sent (serve_all state [ask ($"ask"); ask ($"ask again"); ask ($"ask")] px0))
  = [(1, Some (HUserInput ($"hi") [])); (2, Some (HAssistantTurn ($"hello") [] None None));
     (3, Some (HUserInput ($"bye") [])); (4, Some (HAssistantTurn ($"see you") [] None None));
     (5, None); (6, None)].
Proof. vm_compute. reflexivity. Qed.

(** Two requests at the same time: the first one takes the turn 1, the second one the turn 2 and hands
    it over before the first one does. *)
Definition overtaking : list (PoolAction (W := World)) :=
  [Arrive (ask ($"ask")); Arrive (ask ($"bye")); Advance 0; Advance 0; Advance 0; Advance 1; Advance 1;
   Advance 1; Advance 1; Advance 0].
Definition pool0 : Pool (W := World) :=
  mkPool session_state_new (ledger_new (py_session state)) (mkWorld [] answers) [] [] [].
Definition overtaken_pool : Pool (W := World) := default pool0 (pool_run state overtaking pool0).
Example overtaken :
  map (λ x, (x.1, te_ordinal x.2)) (pl_sent overtaken_pool) = [(1%nat, 2); (0%nat, 1)].
Proof. vm_compute. reflexivity. Qed.

Lemma proxy_records_witness :
  ∃ turns, map te_ordinal turns = ordinals 0 (length turns)
    ∧ turns ≡ₚ map snd (pl_sent overtaken_pool) ++ [] ++ waiting overtaken_pool.
Proof.
  assert (Hok : Forall (action_ok state) overtaking).
  { unfold overtaking. repeat (constructor; [exact I|]). constructor. }
  assert (Hrun : pool_run state overtaking pool0 = Some overtaken_pool) by reflexivity.
  assert (Hlt : len (map snd (pl_sent overtaken_pool) ++ pl_elsewhere overtaken_pool ++ waiting overtaken_pool) < U64)
    by (vm_compute; reflexivity).
  destruct (proxy_records state overtaking _ _ _ Hok Hrun Hlt) as (turns & Ho & _ & _ & Hall & _).
  exists turns. split; [exact Ho|exact Hall].
Defined.


End ProxySample.
