(* ===== verification/CxtxWebsocket.v ===== *)
(** * CxtxWebsocket: relayed WebSockets

    [cxtx/src/proxy.rs]: an upgrade is made with the provider first; then messages are relayed in
    both directions in the order in which they arrive, noted in the ledger, and watched for the
    requests and answers of Codex. The two sockets are what they yield next; sending succeeds or
    fails as the world decides. *)

From S2P Require Import Prelude Bytes External Json JsonCodec Conversation CxtxProvider CxtxTurns.
From S2P Require Import CxtxSession CxtxSessionSpec CxtxSse CxtxOpenAi CxtxAnthropic CxtxLedger CxtxProxy CxtxProxySpec.

Open Scope N_scope.

(** ** Upgrades *)

Section upgrade.
Context `{Unicode}.

Definition header_contains_token (headers : HeaderMap) (name token : rstr) : bool :=
  match header_value headers name with
  | Some value => existsb (λ part, eq_ignore_ascii_case (str_trim part) token) (split_byte comma value)
  | None => false
  end.

Definition is_websocket_upgrade_request (request : PxRequest) : bool :=
  bool_decide (pq_method request = $"GET")
  && header_contains_token (pq_headers request) ($"connection") ($"upgrade")
  && match header_value (pq_headers request) ($"upgrade") with
     | Some value => eq_ignore_ascii_case value ($"websocket")
     | None => false
     end.

Definition websocket_selected_protocol (headers : HeaderMap) : option rstr :=
  value ← header_value headers ($"sec-websocket-protocol");
  part ← head (split_byte comma value);
  non_empty (Some (str_trim part)).

End upgrade.

(** [HeaderMap::insert]: the value replaces all the values of the name. *)
Definition header_insert (headers : HeaderMap) (h : rstr * bytes) : HeaderMap :=
  filter (λ h', h'.1 ≠ h.1) headers ++ [h].

(** ** Messages *)

(** The code and the reason of a close. *)
Definition CloseFrame : Type := (N * rstr)%type.
Inductive DownstreamWsMessage : Type :=
| DText (text : rstr) | DBinary (bs : bytes) | DPing (bs : bytes) | DPong (bs : bytes)
| DClose (frame : option CloseFrame).
Inductive UpstreamWsMessage : Type :=
| UText (text : rstr) | UBinary (bs : bytes) | UPing (bs : bytes) | UPong (bs : bytes)
| UClose (frame : option CloseFrame) | UFrame.

Definition ws_note (direction kind : rstr) (bs : bytes) : rstr :=
  direction ++ $":" ++ kind ++ $":" ++ show_N (len bs) ++ $" bytes".
Definition summarize_downstream_websocket_frame (direction : rstr) (message : DownstreamWsMessage)
    : option rstr :=
  match message with
  | DText text => Some (direction ++ $":text:" ++ text)
  | DBinary bs => Some (ws_note direction ($"binary") bs)
  | DPing bs => Some (ws_note direction ($"ping") bs)
  | DPong bs => Some (ws_note direction ($"pong") bs)
  | DClose _ => Some (direction ++ $":close")
  end.
Definition summarize_upstream_websocket_frame (direction : rstr) (message : UpstreamWsMessage)
    : option rstr :=
  match message with
  | UText text => Some (direction ++ $":text:" ++ text)
  | UBinary bs => Some (ws_note direction ($"binary") bs)
  | UPing bs => Some (ws_note direction ($"ping") bs)
  | UPong bs => Some (ws_note direction ($"pong") bs)
  | UClose _ => Some (direction ++ $":close")
  | UFrame => None
  end.

Definition map_downstream_message (message : DownstreamWsMessage) : option UpstreamWsMessage :=
  match message with
  | DText text => Some (UText text)
  | DBinary bs => Some (UBinary bs)
  | DPing bs => Some (UPing bs)
  | DPong bs => Some (UPong bs)
  | DClose _ => Some (UClose None)
  end.
Definition map_upstream_message (message : UpstreamWsMessage) : option DownstreamWsMessage :=
  match message with
  | UText text => Some (DText text)
  | UBinary bs => Some (DBinary bs)
  | UPing bs => Some (DPing bs)
  | UPong bs => Some (DPong bs)
  | UClose _ => Some (DClose None)
  | UFrame => None
  end.

(** ** Capture *)

Record WebsocketCapture : Type := mkWebsocketCapture {
  wc_provider : ProviderKind;
  wc_exchange_id : rstr;
  wc_request_id : option rstr;
  wc_artifact_refs : ArtifactRefs;
  wc_current_state : option ExchangeState
}.
Definition websocket_capture_new (p : ProviderKind) (exchange_id : rstr) (request_id : option rstr)
    (refs : ArtifactRefs) : WebsocketCapture := mkWebsocketCapture p exchange_id request_id refs None.
Definition set_current_state (ex : option ExchangeState) (c : WebsocketCapture) : WebsocketCapture :=
  mkWebsocketCapture (wc_provider c) (wc_exchange_id c) (wc_request_id c) (wc_artifact_refs c) ex.

Section capture.
Context `{!UrlLib} `{JsonText} `{Unicode} `{TurnText}.
Context (state : ProxyState).

Definition finalize_pending (c : WebsocketCapture) (now : Z) (st : SessionState)
    : list TurnEnvelope * WebsocketCapture * SessionState :=
  match wc_current_state c with
  | None => ([], c, st)
  | Some ex =>
      let '(turns, st) :=
        exchange_finalize_stream state ex 200 (wc_request_id c) (wc_artifact_refs c) None now st in
      (turns, set_current_state None c, st)
  end.

Definition observe_downstream_text (text : rstr) (c : WebsocketCapture) (now : Z) (st : SessionState)
    : list TurnEnvelope * WebsocketCapture * SessionState :=
  if negb (bool_decide (wc_provider c = Codex)) then ([], c, st)
  else match json_parse text with
       | Err _ => ([], c, st)
       | Ok payload =>
           if bool_decide (get_str payload ($"type") = Some ($"response.create")) then
             let '(turns, c, st) := finalize_pending c now st in
             let '(prepared, st) :=
               protocol_prepare_exchange state OpenAi (wc_exchange_id c) text (wc_artifact_refs c) now st in
             (turns ++ pe_request_turns prepared, set_current_state (Some (pe_state prepared)) c, st)
           else ([], c, st)
       end.

Definition observe_upstream_text (text : rstr) (c : WebsocketCapture) (now : Z) (st : SessionState)
    : list TurnEnvelope * WebsocketCapture * SessionState :=
  match wc_current_state c with
  | None => ([], c, st)
  | Some ex =>
      match json_parse text with
      | Err _ => ([], c, st)
      | Ok payload =>
          let event_type := get_str payload ($"type") in
          let c := set_current_state
                     (Some (exchange_absorb_frame (mkSseFrame event_type text text) ex)) c in
          if bool_decide (event_type = Some ($"response.completed")) then finalize_pending c now st
          else ([], c, st)
      end
  end.

Definition observe_downstream_message (message : DownstreamWsMessage) (c : WebsocketCapture) (now : Z)
    (st : SessionState) : list TurnEnvelope * WebsocketCapture * SessionState :=
  match message with DText text => observe_downstream_text text c now st | _ => ([], c, st) end.
Definition observe_upstream_message (message : UpstreamWsMessage) (c : WebsocketCapture) (now : Z)
    (st : SessionState) : list TurnEnvelope * WebsocketCapture * SessionState :=
  match message with UText text => observe_upstream_text text c now st | _ => ([], c, st) end.

End capture.

(** ** Relay *)

(** A read that fails: whether it only says that the connection is gone, and its text. *)
Record WsError : Type := mkWsError { we_benign : bool; we_text : rstr }.

(** What one of the two sockets yields next; [None] is its end. *)
Inductive WsEvent : Type :=
| FromDownstream (message : option (result WsError DownstreamWsMessage))
| FromUpstream (message : option (result WsError UpstreamWsMessage)).

(** Connecting and sending, and what the libraries make of an upgrade: whether it is well formed, and
    the headers of the request to the provider. *)
Class WsNetwork (W : Type) `{UrlLib} : Type := {
  ws_upgrade : PxRequest → result rstr unit;
  ws_client_request : Url → result rstr HeaderMap;
  ws_connect : Url → HeaderMap → W → result rstr (N * HeaderMap) * W;
  ws_send_upstream : UpstreamWsMessage → W → result rstr unit * W;
  ws_send_downstream : DownstreamWsMessage → W → result rstr unit * W;
  ws_close_upstream : W → W;
  ws_close_downstream : W → W
}.

Inductive WsFailure : Type :=
| BadUpgrade (err : rstr)
| WsRoute (err : RouteError)
| BadUpstreamRequest (err : rstr)
| WsLedger (err : io_kind)
| ReadFailed (message : rstr)
| ForwardFailed (err : rstr).

Class WsTexts : Type := ws_failure_text : WsFailure → rstr.

Record WsUpgraded : Type := mkWsUpgraded {
  wu_exchange_id : rstr;
  wu_request_id : option rstr;
  wu_refs : ArtifactRefs;
  wu_protocol : option rstr
}.

(** How a step of the relay ends. *)
Inductive RelayStep (W : Type) : Type :=
| RelayOn (c : WebsocketCapture) (px : Px W)
| RelayBreak (c : WebsocketCapture) (px : Px W)
| RelayFailed (err : WsFailure) (px : Px W).
Arguments RelayOn {W} _ _.
Arguments RelayBreak {W} _ _.
Arguments RelayFailed {W} _ _.

Section relay.
Context {W : Type} `{!UrlLib} `{!Network W} `{!WsNetwork W} `{!FileSystem W}.
Context `{JsonText} `{Unicode} `{TurnText} `{LedgerText} `{ProxyTexts} `{WsTexts}.
Context (state : ProxyState).

#[local] Notation session := (py_session state).
#[local] Notation paths := (py_paths state).

Definition on_world (f : W → W) (px : Px W) : Px W :=
  mkPx (px_session px) (px_ledger px) (f (px_world px)) (px_sent px).
Definition on_network {A} (f : W → A * W) (px : Px W) : A * Px W :=
  let '(a, w) := f (px_world px) in (a, mkPx (px_session px) (px_ledger px) w (px_sent px)).

(** [handle_websocket_proxy_request]: a response, or the upgrade after which the relay runs. *)
Definition handle_websocket_proxy_request (request : PxRequest) (px : Px W)
    : result WsFailure (PxResponse + WsUpgraded) * Px W :=
  match ws_upgrade request with
  | Err err => (Err (BadUpgrade err), px)
  | Ok _ =>
  match resolve_route (py_provider state) (py_upstream state) (pq_uri request) with
  | Err err => (Err (WsRoute err), px)
  | Ok (_, route_url) =>
  match websocket_upstream_url route_url with
  | Err err => (Err (WsRoute err), px)
  | Ok upstream_url =>
  let '(exchange_id, px) := on_session (λ _, next_exchange_id) px in
  match on_ledger (record_request paths exchange_id (uri_path (pq_uri request)) None None [] None) px with
  | (Err err, px) => (Err (WsLedger err), px)
  | (Ok request_artifact, px) =>
  let refs := with_request_path (Some request_artifact) no_artifacts in
  match ws_client_request upstream_url with
  | Err err => (Err (BadUpstreamRequest err), px)
  | Ok default_headers =>
  let headers := foldl header_insert default_headers (websocket_forwardable_headers (pq_headers request)) in
  match on_network (ws_connect upstream_url headers) px with
  | (Err err, px) =>
      let text := $"upstream websocket connect failed: " ++ err in
      let px := if py_attached state
                then enqueue_error state exchange_id ($"upstream_websocket_connect_error") text None refs px
                else px in
      (Ok (inl (bad_gateway text)), px)
  | (Ok (status, headers), px) =>
      let request_id := request_id_from_headers (py_provider state) headers in
      match on_ledger (record_response paths exchange_id status request_id None [] None) px with
      | (Err err, px) => (Err (WsLedger err), px)
      | (Ok response_artifact, px) =>
          (Ok (inr (mkWsUpgraded exchange_id request_id (with_response_path (Some response_artifact) refs)
                      (websocket_selected_protocol headers))), px)
      end
  end end end end end end.

(** [record_websocket_frame]: a failure is ignored. *)
Definition record_websocket_frame (exchange_id : rstr) (frame : option rstr) (px : Px W) : Px W :=
  match frame with
  | Some frame => (on_ledger (append_stream_frame paths exchange_id frame) px).2
  | None => px
  end.

(** [capture.observe_...] and [enqueue_turns], if the delivery is there. *)
Definition observed (observe : WebsocketCapture → Z → SessionState
                               → list TurnEnvelope * WebsocketCapture * SessionState)
    (c : WebsocketCapture) (px : Px W) : WebsocketCapture * Px W :=
  if py_attached state then
    let '((turns, c), px) := on_session (observe c) px in (c, enqueue_turns turns px)
  else (c, px).

(** [websocket_relay_error]. *)
Definition websocket_relay_error (u : WsUpgraded) (title message : rstr) (px : Px W) : RelayStep W :=
  let px := if py_attached state
            then enqueue_error state (wu_exchange_id u) title message (wu_request_id u) (wu_refs u) px
            else px in
  RelayFailed (ReadFailed message) px.

(** One round of the loop of [relay_websocket]. *)
Definition relay_step (u : WsUpgraded) (event : WsEvent) (c : WebsocketCapture) (px : Px W) : RelayStep W :=
  match event with
  | FromDownstream None => RelayBreak c (on_world ws_close_upstream px)
  | FromDownstream (Some (Err err)) =>
      if we_benign err then RelayBreak c (on_world ws_close_upstream px)
      else websocket_relay_error u ($"downstream_websocket_error")
             ($"failed to read downstream websocket message: " ++ we_text err) px
  | FromDownstream (Some (Ok message)) =>
      let px := record_websocket_frame (wu_exchange_id u)
                  (summarize_downstream_websocket_frame ($"downstream") message) px in
      let '(c, px) := observed (observe_downstream_message state message) c px in
      let '(forwarded, px) :=
        match map_downstream_message message with
        | Some message => on_network (ws_send_upstream message) px
        | None => (Ok tt, px)
        end in
      match forwarded with
      | Err err => RelayFailed (ForwardFailed err) px
      | Ok _ => match message with DClose _ => RelayBreak c px | _ => RelayOn c px end
      end
  | FromUpstream None => RelayBreak c (on_world ws_close_downstream px)
  | FromUpstream (Some (Err err)) =>
      if we_benign err then RelayBreak c (on_world ws_close_downstream px)
      else websocket_relay_error u ($"upstream_websocket_error")
             ($"failed to read upstream websocket message: " ++ we_text err) px
  | FromUpstream (Some (Ok message)) =>
      let px := record_websocket_frame (wu_exchange_id u)
                  (summarize_upstream_websocket_frame ($"upstream") message) px in
      let '(c, px) := observed (observe_upstream_message state message) c px in
      let '(forwarded, px) :=
        match map_upstream_message message with
        | Some message => on_network (ws_send_downstream message) px
        | None => (Ok tt, px)
        end in
      match forwarded with
      | Err err => RelayFailed (ForwardFailed err) px
      | Ok _ => match message with UClose _ => RelayBreak c px | _ => RelayOn c px end
      end
  end.

(** The loop while the sockets yield the events, and what follows it; [RelayOn] when it waits. *)
Fixpoint relay_loop (u : WsUpgraded) (events : list WsEvent) (c : WebsocketCapture) (px : Px W)
    : RelayStep W :=
  match events with
  | [] => RelayOn c px
  | event :: events =>
      match relay_step u event c px with
      | RelayOn c px => relay_loop u events c px
      | RelayBreak c px =>
          let '(c, px) := observed (finalize_pending state) c px in RelayBreak c px
      | RelayFailed err px => RelayFailed err px
      end
  end.

Definition relay_websocket (u : WsUpgraded) (events : list WsEvent) (px : Px W) : RelayStep W :=
  relay_loop u events
    (websocket_capture_new (ss_provider session) (wu_exchange_id u) (wu_request_id u) (wu_refs u)) px.

(** [proxy_handler] of any request. *)
Definition serve (request : PxRequest) (px : Px W) : (PxResponse + WsUpgraded) * Px W :=
  if is_websocket_upgrade_request request then
    match handle_websocket_proxy_request request px with
    | (Ok answer, px) => (answer, px)
    | (Err err, px) => (inl (bad_gateway ($"cxtx proxy error: " ++ ws_failure_text err)), px)
    end
  else let '(response, px) := proxy_handler state request px in (inl response, px).

End relay.

(** ** What a relay passes on and records

    Whatever the order in which the two sockets yield their messages, each side gets the other side's
    messages in order up to the end of the relay, and the turns that are handed over keep the
    session's promises. *)

(** The end of a relay, and what happens up to it. *)
Definition ends (event : WsEvent) : bool :=
  match event with
  | FromDownstream (Some (Ok (DClose _))) | FromUpstream (Some (Ok (UClose _))) => true
  | FromDownstream (Some (Ok _)) | FromUpstream (Some (Ok _)) => false
  | _ => true
  end.
Fixpoint up_to_end (events : list WsEvent) : list WsEvent :=
  match events with
  | [] => []
  | event :: events => event :: if ends event then [] else up_to_end events
  end.

(** The messages for the provider and for the tool. *)
Definition for_upstream (events : list WsEvent) : list UpstreamWsMessage :=
  omap (λ e, match e with FromDownstream (Some (Ok m)) => map_downstream_message m | _ => None end) events.
Definition for_downstream (events : list WsEvent) : list DownstreamWsMessage :=
  omap (λ e, match e with FromUpstream (Some (Ok m)) => map_upstream_message m | _ => None end) events.

(** What the two sides got. *)
Class RelayLaws (W : Type) `{!UrlLib} `{!WsNetwork W} `{!FileSystem W} (up : W → list UpstreamWsMessage)
    (down : W → list DownstreamWsMessage) : Prop := {
  send_up m w :
    match ws_send_upstream m w with
    | (Ok _, w') => up w' = up w ++ [m] ∧ down w' = down w
    | (Err _, w') => up w' = up w ∧ down w' = down w
    end;
  send_down m w :
    match ws_send_downstream m w with
    | (Ok _, w') => down w' = down w ++ [m] ∧ up w' = up w
    | (Err _, w') => down w' = down w ∧ up w' = up w
    end;
  close_up w : up (ws_close_upstream w) = up w ∧ down (ws_close_upstream w) = down w;
  close_down w : up (ws_close_downstream w) = up w ∧ down (ws_close_downstream w) = down w;
  relay_files :: FsQuiet (λ w, (up w, down w))
}.

Section spec.
Context {W : Type} `{!UrlLib} `{!Network W} `{!WsNetwork W} `{!FileSystem W}.
Context `{JsonText} `{Unicode} `{TurnText} `{LedgerText}.
Context (up : W → list UpstreamWsMessage) (down : W → list DownstreamWsMessage) `{!RelayLaws W up down}.
Context (state : ProxyState).

#[local] Notation recorded := (recorded (py_session state)).

(** ** Turns of the capture *)

Lemma finalize_pending_recorded c now st :
  let '(turns, _, st') := finalize_pending state c now st in recorded st turns st'.
Proof.
  unfold finalize_pending. destruct (wc_current_state c) as [ex|]; [|by apply recorded_nil].
  pose proof (finalize_stream_recorded state ex 200 (wc_request_id c) (wc_artifact_refs c) None now st) as Hr.
  by destruct (exchange_finalize_stream _ _ _ _ _ _ _ _).
Qed.

Lemma observe_downstream_recorded message c now st :
  let '(turns, _, st') := observe_downstream_message state message c now st in recorded st turns st'.
Proof.
  destruct message as [text| | | |]; try by apply recorded_nil. cbn. unfold observe_downstream_text.
  destruct (negb _); [by apply recorded_nil|]. destruct (json_parse text); [|by apply recorded_nil].
  destruct (bool_decide _); [|by apply recorded_nil].
  pose proof (finalize_pending_recorded c now st) as Hf.
  destruct (finalize_pending state c now st) as [[turns c1] st1].
  pose proof (prepare_recorded state OpenAi (wc_exchange_id c1) text (wc_artifact_refs c1) now st1) as Hp.
  destruct (protocol_prepare_exchange _ _ _ _ _ _ _) as [prepared st2]. destruct Hp as [Hp _].
  by eapply recorded_app.
Qed.

Lemma observe_upstream_recorded message c now st :
  let '(turns, _, st') := observe_upstream_message state message c now st in recorded st turns st'.
Proof.
  destruct message as [text| | | | |]; try by apply recorded_nil. cbn. unfold observe_upstream_text.
  destruct (wc_current_state c); [|by apply recorded_nil].
  destruct (json_parse text); [|by apply recorded_nil].
  destruct (bool_decide _); [apply finalize_pending_recorded|by apply recorded_nil].
Qed.

Lemma observed_spec observe c px :
  (∀ c now st, let '(turns, _, st') := observe c now st in recorded st turns st') →
  hands_over state px (observed state observe c px).2
  ∧ px_world (observed state observe c px).2 = px_world px.
Proof.
  intros Ho. unfold observed. destruct (py_attached state); [|by split; [apply hands_over_refl|]].
  unfold on_session. specialize (Ho c (nw_date (px_world px)) (px_session px)).
  destruct (observe c _ _) as [[turns c1] st1]. split; [|done]. by exists turns.
Qed.

(** ** Rounds *)

(** The messages of [l1] and [l2] were passed on, and turns were handed over. *)
Definition passed (l1 : list UpstreamWsMessage) (l2 : list DownstreamWsMessage) (px px' : Px W) : Prop :=
  up (px_world px') = up (px_world px) ++ l1 ∧ down (px_world px') = down (px_world px) ++ l2
  ∧ hands_over state px px'.

Lemma passed_trans l1 l2 k1 k2 px1 px2 px3 :
  passed l1 l2 px1 px2 → passed k1 k2 px2 px3 → passed (l1 ++ k1) (l2 ++ k2) px1 px3.
Proof.
  intros (Hu1 & Hd1 & Hh1) (Hu2 & Hd2 & Hh2). split_and!.
  - by rewrite Hu2, Hu1, app_assoc.
  - by rewrite Hd2, Hd1, app_assoc.
  - by eapply hands_over_trans.
Qed.
Lemma passed_nothing px px' :
  up (px_world px') = up (px_world px) → down (px_world px') = down (px_world px) → hands_over state px px' →
  passed [] [] px px'.
Proof. intros Hu Hd Hh. unfold passed. by rewrite !app_nil_r. Qed.

(** A note of a frame leaves the two sides alone. *)
Lemma record_frame_passed exchange_id frame px :
  passed [] [] px (record_websocket_frame state exchange_id frame px).
Proof.
  destruct frame as [frame|]; [|apply passed_nothing; [done..|apply hands_over_refl]].
  unfold record_websocket_frame. destruct (on_ledger _ px) as [r px'] eqn:Hl. cbn [snd].
  pose proof (quiet_frame (λ w, (up w, down w)) (py_paths state) exchange_id frame (px_ledger px) (px_world px))
    as [Hq _].
  pose proof (on_ledger_hands_over state _ _ _ _ Hl) as Hh. unfold on_ledger in Hl.
  destruct (append_stream_frame _ _ _ _ _) as [[r' l] w]. injection Hl as <- <-.
  injection Hq as Hu Hd. by apply passed_nothing.
Qed.

(** Sending one message, or nothing. *)
Lemma forward_up_passed (m : option UpstreamWsMessage) px r px' :
  match m with Some m => on_network (ws_send_upstream m) px | None => (Ok tt, px) end = (r, px') →
  passed (match r with Ok _ => option_list m | Err _ => [] end) [] px px'.
Proof.
  destruct m as [m|]; [|intros [= <- <-]; apply passed_nothing; [done..|apply hands_over_refl]].
  unfold on_network. pose proof (send_up m (px_world px)) as Hs.
  destruct (ws_send_upstream m (px_world px)) as [[[]|err] w]; intros [= <- <-]; destruct Hs as [Hu Hd];
    (split_and!; [cbn; rewrite Hu, ?app_nil_r; done|cbn; by rewrite Hd, app_nil_r|by apply hands_over_same]).
Qed.
Lemma forward_down_passed (m : option DownstreamWsMessage) px r px' :
  match m with Some m => on_network (ws_send_downstream m) px | None => (Ok tt, px) end = (r, px') →
  passed [] (match r with Ok _ => option_list m | Err _ => [] end) px px'.
Proof.
  destruct m as [m|]; [|intros [= <- <-]; apply passed_nothing; [done..|apply hands_over_refl]].
  unfold on_network. pose proof (send_down m (px_world px)) as Hs.
  destruct (ws_send_downstream m (px_world px)) as [[[]|err] w]; intros [= <- <-]; destruct Hs as [Hd Hu];
    (split_and!; [cbn; by rewrite Hu, app_nil_r|cbn; rewrite Hd, ?app_nil_r; done|by apply hands_over_same]).
Qed.

(** What a round passes on. *)
Definition round_passed (event : WsEvent) (px : Px W) (r : RelayStep W) : Prop :=
  match r with
  | RelayOn _ px' => ends event = false ∧ passed (for_upstream [event]) (for_downstream [event]) px px'
  | RelayBreak _ px' => ends event = true ∧ passed (for_upstream [event]) (for_downstream [event]) px px'
  | RelayFailed _ px' => passed [] [] px px'
  end.

Lemma relay_error_passed u title message px event :
  round_passed event px (websocket_relay_error state u title message px).
Proof.
  unfold websocket_relay_error. cbn. destruct (py_attached state);
    (apply passed_nothing; [by rewrite ?enqueue_error_world|by rewrite ?enqueue_error_world|]).
  - apply enqueue_error_hands_over.
  - apply hands_over_refl.
Qed.

Lemma relay_round u event c px : round_passed event px (relay_step state u event c px).
Proof.
  destruct event as [[[message|err]|]|[[message|err]|]]; cbn [relay_step].
  - pose proof (record_frame_passed (wu_exchange_id u)
      (summarize_downstream_websocket_frame ($"downstream") message) px) as Hrec.
    set (px1 := record_websocket_frame _ _ _ _) in *.
    destruct (observed_spec (observe_downstream_message state message) c px1) as [Hobs Hw];
      [intros; apply observe_downstream_recorded|].
    destruct (observed state _ c px1) as [c2 px2]. cbn [snd] in Hobs, Hw.
    destruct (match map_downstream_message message with Some _ => _ | None => _ end) as [r px3] eqn:Hf.
    apply forward_up_passed in Hf.
    assert (Hp : passed (match r with Ok _ => option_list (map_downstream_message message) | Err _ => [] end) [] px px3).
    { eapply (passed_trans [] []); [exact Hrec|]. eapply (passed_trans [] []); [|exact Hf].
      apply passed_nothing; [by rewrite Hw..|done]. }
    destruct r as [[]|err]; [|exact Hp]. by destruct message.
  - destruct (we_benign err); [|apply relay_error_passed]. split; [done|]. cbn.
    destruct (close_up (px_world px)) as [Hu Hd]. by apply passed_nothing; [..|apply hands_over_same].
  - split; [done|]. destruct (close_up (px_world px)) as [Hu Hd].
    by apply passed_nothing; [..|apply hands_over_same].
  - pose proof (record_frame_passed (wu_exchange_id u)
      (summarize_upstream_websocket_frame ($"upstream") message) px) as Hrec.
    set (px1 := record_websocket_frame _ _ _ _) in *.
    destruct (observed_spec (observe_upstream_message state message) c px1) as [Hobs Hw];
      [intros; apply observe_upstream_recorded|].
    destruct (observed state _ c px1) as [c2 px2]. cbn [snd] in Hobs, Hw.
    destruct (match map_upstream_message message with Some _ => _ | None => _ end) as [r px3] eqn:Hf.
    apply forward_down_passed in Hf.
    assert (Hp : passed [] (match r with Ok _ => option_list (map_upstream_message message) | Err _ => [] end) px px3).
    { eapply (passed_trans [] []); [exact Hrec|]. eapply (passed_trans [] []); [|exact Hf].
      apply passed_nothing; [by rewrite Hw..|done]. }
    destruct r as [[]|err]; [|exact Hp]. by destruct message.
  - destruct (we_benign err); [|apply relay_error_passed]. split; [done|]. cbn.
    destruct (close_down (px_world px)) as [Hu Hd]. by apply passed_nothing; [..|apply hands_over_same].
  - split; [done|]. destruct (close_down (px_world px)) as [Hu Hd].
    by apply passed_nothing; [..|apply hands_over_same].
Qed.

Lemma for_upstream_cons event events : for_upstream (event :: events) = for_upstream [event] ++ for_upstream events.
Proof. apply (omap_app _ [event]). Qed.
Lemma for_downstream_cons event events :
  for_downstream (event :: events) = for_downstream [event] ++ for_downstream events.
Proof. apply (omap_app _ [event]). Qed.

(** C20. A relay passes on the messages of both sides: however the two sockets take turns, the provider
    and the tool get each other's messages in the order in which they came, all of them while the
    relay runs or when it ends by a close, an end or a lost connection, and those of a beginning of
    it when it fails. Of a close only the fact is passed on, without its code and reason. And the turns
    that are handed over keep the promises of the session. *)
Theorem relay_transparent u events px :
  let run := up_to_end events in
  match relay_websocket state u events px with
  | RelayOn _ px' => run = events ∧ passed (for_upstream run) (for_downstream run) px px'
  | RelayBreak _ px' => existsb ends events = true ∧ passed (for_upstream run) (for_downstream run) px px'
  | RelayFailed _ px' =>
      ∃ before after, run = before ++ after ∧ passed (for_upstream before) (for_downstream before) px px'
  end.
Proof.
  cbv zeta. unfold relay_websocket. generalize (websocket_capture_new (ss_provider (py_session state))
    (wu_exchange_id u) (wu_request_id u) (wu_refs u)) as c. intros c.
  revert c px. induction events as [|event events IH]; intros c px.
  { split; [done|]. apply passed_nothing; [done..|apply hands_over_refl]. }
  cbn [relay_loop up_to_end existsb]. pose proof (relay_round u event c px) as Hr.
  destruct (relay_step state u event c px) as [c1 px1|c1 px1|err px1]; cbn [round_passed] in Hr.
  - destruct Hr as [He Hp]. rewrite He. cbn [orb]. specialize (IH c1 px1).
    destruct (relay_loop state u events c1 px1) as [c2 px2|c2 px2|err px2].
    + destruct IH as [Heq IH]. split; [by rewrite Heq|]. rewrite for_upstream_cons, for_downstream_cons.
      by eapply passed_trans.
    + destruct IH as [Heq IH]. split; [done|]. rewrite for_upstream_cons, for_downstream_cons.
      by eapply passed_trans.
    + destruct IH as (before & after & Heq & IH). exists (event :: before), after.
      split; [by rewrite Heq|]. rewrite for_upstream_cons, for_downstream_cons. by eapply passed_trans.
  - destruct Hr as [He Hp]. rewrite He. cbn [orb].
    destruct (observed_spec (finalize_pending state) c1 px1) as [Hobs Hw];
      [exact finalize_pending_recorded|].
    destruct (observed state _ c1 px1) as [c2 px2]. cbn [snd] in Hobs, Hw. split; [done|].
    rewrite <- (app_nil_r (for_upstream _)), <- (app_nil_r (for_downstream _)).
    eapply passed_trans; [exact Hp|]. apply passed_nothing; [by rewrite Hw..|done].
  - exists [], (event :: if ends event then [] else up_to_end events). by split.
Qed.

End spec.

(** ** A relayed exchange *)

Module RelaySample.
#[local] Existing Instance Sample.unicode.
#[local] Existing Instance ProxySample.sample_url.
#[local] Existing Instance ProxySample.sample_turn_text.
#[local] Existing Instance ProxySample.sample_ledger_text.

(** What the two sides got; the provider takes one message at most. *)
Record World : Type := mkWorld { w_up : list UpstreamWsMessage; w_down : list DownstreamWsMessage }.
#[local] Instance sample_files : FileSystem World := {
  fs_create_dir_all _ w := (Ok tt, w); fs_write _ _ w := (Ok tt, w); fs_append _ _ w := (Ok tt, w)
}.
#[local] Instance sample_network : Network World := { nw_date _ := 0%Z; nw_send _ w := (Err ($"refused"), w) }.
#[local] Instance sample_sockets : WsNetwork World := {
  ws_upgrade _ := Ok tt;
  ws_client_request _ := Ok [];
  ws_connect _ _ w := (Ok (101, []), w);
  ws_send_upstream m w := match w_up w with
                          | [] => (Ok tt, mkWorld [m] (w_down w))
                          | _ => (Err ($"gone"), w)
                          end;
  ws_send_downstream m w := (Ok tt, mkWorld (w_up w) (w_down w ++ [m]));
  ws_close_upstream w := w;
  ws_close_downstream w := w
}.
#[local] Instance sample_laws : RelayLaws World w_up w_down.
Proof. split; try done. by intros m [[|] ?]. Qed.

(** The texts of the messages and their JSON. *)
Definition create : json :=
  object [($"type", JString ($"response.create"));
          ($"input", JArray [ProxySample.message ($"user") ($"hi")])].
Definition delta : json :=
  object [($"type", JString ($"response.output_text.delta")); ($"delta", JString ($"hello"))].
Definition completed : json := object [($"type", JString ($"response.completed")); ($"response", object [])].
#[local] Instance sample_json : JsonText := {
  json_parse bs := if bool_decide (bs = $"create") then Ok create
                   else if bool_decide (bs = $"delta") then Ok delta
                   else if bool_decide (bs = $"completed") then Ok completed else Err ($"?");
  json_text _ := $"{}"
}.

Definition upgraded : WsUpgraded := mkWsUpgraded ($"exchange-0001") None no_artifacts None.
Definition px0 : Px World :=
  mkPx session_state_new (ledger_new (py_session ProxySample.state)) (mkWorld [] []) [].
Definition events : list WsEvent := [
  FromDownstream (Some (Ok (DText ($"create")))); FromUpstream (Some (Ok (UText ($"delta"))));
  FromUpstream (Some (Ok (UText ($"completed")))); FromUpstream None; FromDownstream None].

Example relayed_exchange :
  match relay_websocket ProxySample.state upgraded events px0 with
  | RelayBreak _ px => (px_world px, map (λ turn, item_of_turn (te_item turn)) (px_sent px))
      = (mkWorld [UText ($"create")] [DText ($"delta"); DText ($"completed")],
         [Some (HUserInput ($"hi") []); Some (HAssistantTurn ($"hello") [] None None)])
  | _ => False
  end.
Proof. vm_compute. reflexivity. Qed.

Lemma relay_transparent_witness :
  match relay_websocket ProxySample.state upgraded events px0 with
  | RelayBreak _ px' => w_up (px_world px') = for_upstream (up_to_end events)
  | _ => False
  end.
Proof.
  pose proof (relay_transparent w_up w_down ProxySample.state upgraded events px0) as Hr.
  assert (Hb : match relay_websocket ProxySample.state upgraded events px0 with
               | RelayBreak _ _ => true | _ => false end = true) by (vm_compute; reflexivity).
  destruct (relay_websocket ProxySample.state upgraded events px0); [discriminate Hb| |discriminate Hb].
  exact (proj1 (proj2 Hr)).
Defined.

(** A relay that fails to pass a message on ends without the answer it was gathering. *)
Example failed_relay_loses_the_answer :
  match relay_websocket ProxySample.state upgraded
          [FromDownstream (Some (Ok (DText ($"create")))); FromUpstream (Some (Ok (UText ($"delta"))));
           FromDownstream (Some (Ok (DPing [])))] px0 with
  | RelayFailed _ px => map (λ turn, item_of_turn (te_item turn)) (px_sent px) = [Some (HUserInput ($"hi") [])]
  | _ => False
  end.
Proof. vm_compute. reflexivity. Qed.

End RelaySample.
