(* ===== verification/CxtxRun.v ===== *)
(** * CxtxRun: a run of the proxy around a tool

    [cxtx/src/lib.rs] and [cxtx/src/cli.rs]: the command line, what is prepared before the tool is
    launched, the environment that the tool gets, and the main task, whose steps take turns with
    those of the proxy and of the delivery worker. The HTTP client of CxtxHttp is the client that the
    worker uses. *)

From S2P Require Import Prelude Bytes External Json JsonCodec Conversation CxtxProvider CxtxTurns.
From S2P Require Import CxtxSession CxtxLedger CxtxHttp CxtxDelivery.

Open Scope N_scope.

(** ** The command line *)

Definition DEFAULT_LOCAL_CXDB_URL : rstr := $"http://127.0.0.1:9010".

Inductive Command : Type :=
| ClaudeCommand (args : list rstr)
| CodexCommand (args : list rstr)
| PiCommand (args : list rstr).
Definition command_provider (c : Command) : ProviderKind :=
  match c with ClaudeCommand _ => Claude | CodexCommand _ => Codex | PiCommand _ => Pi end.
Definition command_args (c : Command) : list rstr :=
  match c with ClaudeCommand args | CodexCommand args | PiCommand args => args end.

Record Cli : Type := mkCli {
  cl_url : rstr;
  cl_local : bool;
  cl_labels : list rstr;
  cl_command : Command
}.
Definition effective_url (cli : Cli) : rstr := if cl_local cli then DEFAULT_LOCAL_CXDB_URL else cl_url cli.
Definition cli_for_tests (p : ProviderKind) (args : list rstr) (url : rstr) : Cli :=
  mkCli url false []
    match p with Claude => ClaudeCommand args | Codex => CodexCommand args | Pi => PiCommand args end.

(** ** Preparation *)

Inductive RunError : Type :=
| InvalidCxdbUrl
| UpstreamUnresolved (err : RouteError)
| BindFailed (err : rstr)
| LedgerUnwritten (err : io_kind)
| LaunchFailed (err : rstr)
| WaitFailed (err : rstr)
| WorkerGone
| AckDropped.

(** The tool's process: its program, its arguments, and its environment. *)
Record ChildCommand : Type := mkChildCommand {
  cc_program : rstr;
  cc_args : list rstr;
  cc_env : environment
}.

Section prepare.
Context `{Unicode} `{UrlLib}.

Definition upstream_config (p : ProviderKind) (env : environment) : result RouteError UpstreamConfig :=
  match p with
  | Pi =>
      openai_upstream ← resolve_upstream_base_for_env env [$"OPENAI_BASE_URL"; $"OPENAI_API_BASE"]
                          ($"https://api.openai.com/v1");
      anthropic_upstream ← resolve_upstream_base_for_env env
                             [$"ANTHROPIC_BASE_URL"; $"ANTHROPIC_API_URL"; $"ANTHROPIC_API_BASE"]
                             ($"https://api.anthropic.com");
      Ok (DualProtocol openai_upstream anthropic_upstream)
  | _ => upstream_base ← resolve_upstream_base p env; Ok (Single upstream_base)
  end.

(** [command.env_remove] of the names, and [command.envs] after it. *)
Definition child_environment (p : ProviderKind) (proxy_base_url : Url) (env : environment) : environment :=
  foldl (λ env entry, <[entry.1 := entry.2]> env)
    (foldl (λ env name, delete name env) env (upstream_base_env_names p)) (injected_env p proxy_base_url).

(** What [run] has when it launches the tool. *)
Record Prepared : Type := mkPrepared {
  pr_cxdb_url : Url;
  pr_upstream : UpstreamConfig;
  pr_proxy_base_url : Url;
  pr_session : Session;
  pr_child : ChildCommand
}.

Context {W : Type} `{!FileSystem W} `{TurnText} `{LedgerText}.

(** [run] up to the launch: the listener has an address, the session its id. *)
Definition prepare (cli : Cli) (env : environment) (addr : result rstr rstr) (session_id version : rstr)
    (ps : Process) (now : Z) (w : W) : result RunError (Prepared * SessionLedger) * W :=
  let p := command_provider (cl_command cli) in
  match (cxdb_url ← ok_or InvalidCxdbUrl (url_parse (effective_url cli));
         upstream ← map_err UpstreamUnresolved (upstream_config p env);
         addr ← map_err BindFailed addr;
         proxy_base_url ← map_err UpstreamUnresolved (compute_proxy_base_url p upstream addr);
         Ok (cxdb_url, upstream, proxy_base_url))
  with
  | Err err => (Err err, w)
  | Ok (cxdb_url, upstream, proxy_base_url) =>
      let args := child_args_for_proxy p (command_args (cl_command cli)) in
      let session := session_runtime_new version p session_id args ps now (capture_env_allowlist env)
                       (cl_labels cli) in
      match ledger_create (ledger_paths session_id) session w with
      | (Err err, _, w) => (Err (LedgerUnwritten err), w)
      | (Ok _, ledger, w) =>
          (Ok (mkPrepared cxdb_url upstream proxy_base_url session
                 (mkChildCommand (command_name p) args (child_environment p proxy_base_url env)), ledger), w)
      end
  end.

End prepare.

(** ** The worker's client *)

(** The world of the worker with the state of its client. *)
Record ClientWorld (W : Type) : Type := mkClientWorld { kw_client : CxdbHttpClient; kw_world : W }.
Arguments mkClientWorld {W} _ _.
Arguments kw_client {W} _.
Arguments kw_world {W} _.

Class WorkerClock (W : Type) : Type := {
  wk_now : W → N;
  wk_date : W → Z;
  wk_sleep : N → W → W
}.

Section worker_client.
Context {W : Type} `{JsonText} `{HttpTexts} `{!HttpSend W} `{!WorkerClock W} `{!FileSystem W} (bundle : json).

Definition http_cxdb_client : CxdbClient (ClientWorld W) := {|
  cx_create_context w :=
    let '(r, world) := create_context (kw_client w) (kw_world w) in (r, mkClientWorld (kw_client w) world);
  cx_append_turn context_id item w :=
    let '(r, client, world) := append_turn bundle context_id item (kw_client w) (kw_world w) in
    (_ ← r; Ok tt, mkClientWorld client world);
  cx_now w := wk_now (kw_world w);
  cx_date w := wk_date (kw_world w);
  cx_sleep d w := mkClientWorld (kw_client w) (wk_sleep d (kw_world w))
|}.
Definition client_files : FileSystem (ClientWorld W) := {|
  fs_create_dir_all path w :=
    let '(r, world) := fs_create_dir_all path (kw_world w) in (r, mkClientWorld (kw_client w) world);
  fs_write path bs w :=
    let '(r, world) := fs_write path bs (kw_world w) in (r, mkClientWorld (kw_client w) world);
  fs_append path bs w :=
    let '(r, world) := fs_append path bs (kw_world w) in (r, mkClientWorld (kw_client w) world)
|}.

End worker_client.

(** ** The main task *)

(** Launching the tool and waiting for it; [None] while it runs. *)
Class ChildProcess (W : Type) : Type := {
  ch_spawn : ChildCommand → W → result rstr (option N) * W;
  ch_wait : W → option (result rstr (option Z * bool))
}.

(** Where the main task is: the step that comes next. *)
Inductive MainPhase : Type :=
| Launch
| NotePid (pid : option N)
| SendCreate
| SendStart
| AwaitChild
| SendEnd (exit_code : Z) (success : bool)
| NoteExit (exit_code : Z)
| SendShutdown (outcome : result RunError Z)
| AwaitAck (outcome : result RunError Z)
| Finalize (outcome : result RunError Z)
| Returned (outcome : result RunError Z)
| SendTurn (turn : TurnEnvelope) (next : MainPhase).

Section main.
Context {W : Type} `{!ChildProcess W} `{!CxdbClient W} `{!FileSystem W} `{TurnText} `{LedgerText}.
Context (paths : LedgerPaths) (s : Session) (child : ChildCommand).

(** The worker with the session, the ledger or the world changed. *)
Definition with_state (st : SessionState) (v : Delivery W) : Delivery W :=
  mkDelivery (dv_phase v) (dv_worker v) (dv_rx v) (dv_connected v) st (dv_ledger v) (dv_world v).
Definition with_files {A} (op : SessionLedger → W → result io_kind A * SessionLedger * W) (v : Delivery W)
    : result io_kind A * Delivery W :=
  let '(r, l, w) := op (dv_ledger v) (dv_world v) in
  (r, mkDelivery (dv_phase v) (dv_worker v) (dv_rx v) (dv_connected v) (dv_state v) l w).
Definition with_world (w : W) (v : Delivery W) : Delivery W :=
  mkDelivery (dv_phase v) (dv_worker v) (dv_rx v) (dv_connected v) (dv_state v) (dv_ledger v) w.

(** [delivery.enqueue_...(...).await?]. *)
Definition sending (message : WorkerMessage) (next : MainPhase) (v : Delivery W)
    : option (MainPhase * Delivery W) :=
  match send_message message v with
  | None => None
  | Some (true, v) => Some (next, v)
  | Some (false, v) => Some (Returned (Err WorkerGone), v)
  end.
(** [ledger.note_...(...).await?]. *)
Definition noting (op : SessionLedger → W → result io_kind unit * SessionLedger * W) (next : MainPhase)
    (v : Delivery W) : option (MainPhase * Delivery W) :=
  match with_files op v with
  | (Ok _, v) => Some (next, v)
  | (Err err, v) => Some (Returned (Err (LedgerUnwritten err)), v)
  end.

(** One step of the main task; [None] while it waits. A failed launch still shuts the others down. *)
Definition main_step (phase : MainPhase) (v : Delivery W) : option (MainPhase * Delivery W) :=
  match phase with
  | Launch =>
      let '(r, w) := ch_spawn child (dv_world v) in
      let v := with_world w v in
      match r with
      | Ok pid => Some (NotePid pid, v)
      | Err err =>
          let '(_, v) := with_files (note_delivery_state paths ($"child_launch_failed") 0 (Some err)) v in
          Some (SendShutdown (Err (LaunchFailed err)), v)
      end
  | NotePid pid => noting (note_child_pid paths pid) SendCreate (with_state (set_child_pid pid (dv_state v)) v)
  | SendCreate => sending (Enqueue CreateContext) SendStart v
  | SendStart =>
      let '(turn, st) := session_start_turn s (cx_date (dv_world v)) (dv_state v) in
      Some (SendTurn turn AwaitChild, with_state st v)
  | AwaitChild =>
      match ch_wait (dv_world v) with
      | None => None
      | Some (Err err) => Some (Returned (Err (WaitFailed err)), v)
      | Some (Ok (code, success)) => Some (SendEnd (default 1%Z code) success, v)
      end
  | SendEnd exit_code success =>
      let '(turn, st) := session_end_turn s exit_code success (cx_date (dv_world v)) (dv_state v) in
      Some (SendTurn turn (NoteExit exit_code), with_state st v)
  | SendTurn turn next => sending (Enqueue (Append turn)) next v
  | NoteExit exit_code =>
      noting (note_child_exit paths exit_code (cx_date (dv_world v))) (SendShutdown (Ok exit_code)) v
  | SendShutdown outcome =>
      match send_message Shutdown v with
      | None => None
      | Some (true, v) => Some (AwaitAck outcome, v)
      | Some (false, v) =>
          Some (match outcome with Ok _ => Returned (Err WorkerGone) | Err _ => Finalize outcome end, v)
      end
  | AwaitAck outcome =>
      match dv_phase v with
      | Finished => Some (Finalize outcome, v)
      | Stopped => Some (match outcome with Ok _ => Returned (Err AckDropped) | Err _ => Finalize outcome end, v)
      | _ => None
      end
  | Finalize outcome =>
      let '(r, v) := with_files (finalize paths (cx_date (dv_world v))) v in
      Some (Returned match outcome, r with
                     | Ok _, Err err => Err (LedgerUnwritten err)
                     | _, _ => outcome
                     end, v)
  | Returned _ => None
  end.

End main.
