(* ===== verification/CxtxRunSpec.v ===== *)
(** * CxtxRunSpec: the tool around which the proxy runs

    The tool is given the proxy's address and nothing of the provider's, a request to the proxy's
    address goes to the same place below the provider's, and the main task hands over the request for
    a context, the start and the end of the session, in this order, around the life of the tool. *)

From S2P Require Import Prelude Bytes External Json JsonCodec Conversation CxtxProvider CxtxTurns.
From S2P Require Import CxtxSession CxtxLedger CxtxHttp CxtxDelivery CxtxDeliverySpec CxtxProxy.
From S2P Require Import CxtxProxySpec CxtxRun.

Open Scope N_scope.

(** ** The environment *)

Lemma foldl_delete (names : list rstr) (env : gmap rstr rstr) name :
  foldl (λ (env : gmap rstr rstr) name, delete name env) env names !! name
  = if decide (name ∈ names) then None else env !! name.
Proof.
  revert env. induction names as [|n names IH]; intros env; cbn [foldl].
  { rewrite decide_False; [done|apply not_elem_of_nil]. }
  rewrite IH. destruct (decide (name = n)) as [->|Hne].
  - rewrite (decide_True (P := n ∈ n :: names)) by left. destruct (decide (n ∈ names)); [done|].
    apply lookup_delete_eq.
  - transitivity (if decide (name ∈ names) then None else env !! name).
    { destruct (decide (name ∈ names)); [done|]. by apply lookup_delete_ne. }
    apply decide_ext. rewrite elem_of_cons. naive_solver.
Qed.

Lemma foldl_insert_other (entries : list (rstr * rstr)) (env : gmap rstr rstr) name :
  name ∉ map fst entries →
  foldl (λ (env : gmap rstr rstr) entry, <[entry.1 := entry.2]> env) env entries !! name = env !! name.
Proof.
  revert env. induction entries as [|e entries IH]; intros env; [done|]. cbn [foldl map].
  intros [Hne Hin]%not_elem_of_cons. rewrite IH by done. by rewrite lookup_insert_ne.
Qed.

Lemma foldl_insert_in (entries : list (rstr * rstr)) (env : gmap rstr rstr) name :
  name ∈ map fst entries →
  ∃ value, (name, value) ∈ entries
    ∧ foldl (λ (env : gmap rstr rstr) entry, <[entry.1 := entry.2]> env) env entries !! name = Some value.
Proof.
  revert env. induction entries as [|[n v] entries IH]; intros env; [intros Hin; by apply elem_of_nil in Hin|].
  cbn [foldl map fst snd]. intros Hin. destruct (decide (name ∈ map fst entries)) as [Hin'|Hnot].
  - destruct (IH (<[n := v]> env) Hin') as (value & Hv & Hl). exists value. split; [by right|done].
  - apply elem_of_cons in Hin as [->|?]; [|done]. exists v. split; [left|].
    rewrite foldl_insert_other by done. apply lookup_insert_eq.
Qed.

Section spec.
Context `{Unicode} `{UrlLib}.

Lemma injected_names p proxy name :
  name ∈ upstream_base_env_names p → name ∈ map fst (injected_env p proxy).
Proof. destruct p; cbn; rewrite ?elem_of_cons; naive_solver. Qed.

(** The tool cannot reach the provider past the proxy by its environment: every variable that
    names the provider's base URL has one of the proxy's addresses, whatever it was before, and
    a variable that is neither such a name nor one of the proxy's own is as it was. *)
Theorem child_environment_spec p proxy_base_url env name :
  let child := child_environment p proxy_base_url env in
  (name ∈ upstream_base_env_names p →
     ∃ value, (name, value) ∈ injected_env p proxy_base_url ∧ child !! name = Some value)
  ∧ (name ∉ upstream_base_env_names p → name ∉ map fst (injected_env p proxy_base_url) →
     child !! name = env !! name).
Proof.
  cbv zeta. unfold child_environment. split.
  - intros Hin. by apply foldl_insert_in, injected_names.
  - intros Hn1 Hn2. rewrite foldl_insert_other, foldl_delete by done. by rewrite decide_False.
Qed.

(** ** Routes *)

Lemma trim_start_not_first b s : head (trim_start_byte b s) ≠ Some b.
Proof.
  induction s as [|x s IH]; [done|]. cbn. case_bool_decide; [done|]. cbn. congruence.
Qed.

(** The path of a request that the tool makes below the proxy's URL. *)
Definition below (mount suffix : rstr) : rstr := if decide (mount = [slash]) then suffix else mount ++ suffix.

Lemma trim_start_split b s : ∃ l, s = l ++ trim_start_byte b s.
Proof.
  induction s as [|x s [l IH]]; [by exists []|]. cbn. case_bool_decide.
  - exists (x :: l). cbn. by rewrite <- IH.
  - by exists [].
Qed.
(** A base path without the slashes at its end is a beginning of it and does not end with one. *)
Lemma trim_end_split b s : ∃ l, s = trim_end_byte b s ++ l.
Proof.
  destruct (trim_start_split b (rev s)) as [l Hl]. exists (rev l). unfold trim_end_byte.
  by rewrite <- rev_app_distr, <- Hl, rev_involutive.
Qed.
Lemma trim_end_not_single b s : trim_end_byte b s ≠ [b].
Proof.
  unfold trim_end_byte. intros Heq. apply (f_equal (@rev _)) in Heq. rewrite rev_involutive in Heq.
  apply (trim_start_not_first b (rev s)). by rewrite Heq.
Qed.

Lemma mount_path base_path :
  head base_path = Some slash →
  normalize_path base_path = match trim_end_byte slash base_path with [] => [slash] | t => t end.
Proof.
  intros Hh. unfold normalize_path. destruct (trim_end_split slash base_path) as [l Hl].
  destruct (trim_end_byte slash base_path) as [|b t]; [done|].
  rewrite Hl in Hh. injection Hh as ->. by rewrite bool_decide_true.
Qed.

(** The proxy stands for the provider: for Codex, a request for a path below the proxy's URL goes
    to the same path below the provider's base URL, with the same query, whether or not the base
    ends with slashes; for Claude the path itself is put below the base URL. *)
Theorem routes_below_base base b rest query :
  head (url_path base) = Some slash → b ≠ slash →
  let suffix := slash :: b :: rest in
  let url := url_set_query query (url_set_path (trim_end_byte slash (url_path base) ++ suffix) base) in
  resolve_route Codex (Single base) (mkUri (below (proxy_mount_path Codex base) suffix) query)
    = Ok (OpenAi, url)
  ∧ resolve_route Claude (Single base) (mkUri suffix query) = Ok (Anthropic, url).
Proof.
  intros Hh Hb suffix url.
  assert (Hjoin : join_url base suffix query = url).
  { unfold join_url, url, final_path. do 2 f_equal. subst suffix. cbn [trim_start_byte].
    rewrite bool_decide_true, bool_decide_false by done. by destruct (trim_end_byte slash (url_path base)). }
  split; cbn [resolve_route]; unfold build_upstream_url; cbn [uri_path uri_query mbind result_bind].
  2:{ by rewrite Hjoin. }
  unfold proxy_mount_path. rewrite mount_path by done. unfold below.
  pose proof (trim_end_not_single slash (url_path base)) as Hns.
  destruct (trim_end_byte slash (url_path base)) as [|x t].
  - rewrite decide_True by done. unfold strip_mount_path. rewrite bool_decide_true by done. cbn. by rewrite Hjoin.
  - rewrite decide_False by done. unfold strip_mount_path. rewrite bool_decide_false by done.
    rewrite strip_prefix_app. subst suffix. cbn [ok_or]. rewrite bool_decide_true by done. cbn. by rewrite Hjoin.
Qed.

End spec.

(** ** The main task *)

Section main.
Context {W : Type} `{!ChildProcess W} `{!CxdbClient W} `{!FileSystem W} `{TurnText} `{LedgerText}.
Context (paths : LedgerPaths) (s : Session) (child : ChildCommand).

#[local] Notation main_step := (main_step paths s child).

(** Runs of the main task, between whose steps the proxy and the worker do anything, with the
    messages it sent. *)
Inductive main_run : list WorkerMessage → MainPhase → Prop :=
| run_start : main_run [] Launch
| run_step sent phase v phase' v' :
    main_run sent phase → main_step phase v = Some (phase', v') →
    main_run (sent ++ drop (length (dv_rx v)) (dv_rx v')) phase'.

Definition start_message (m : WorkerMessage) : Prop :=
  ∃ ordinal pid now, m = Enqueue (Append (mkTurnEnvelope ordinal
    (session_start_item (ss_session s) (ss_provider s) ordinal pid (ss_metadata s) now))).
Definition end_message (exit_code : Z) (m : WorkerMessage) : Prop :=
  ∃ ordinal success now, m = Enqueue (Append (mkTurnEnvelope ordinal
    (session_end_item (ss_session s) ordinal exit_code success now))).

(** The messages sent before a phase, if nothing failed. *)
Definition sent_before (phase : MainPhase) (sent : list WorkerMessage) : Prop :=
  let started l := ∃ m, start_message m ∧ sent = Enqueue CreateContext :: m :: l in
  match phase with
  | Launch | NotePid _ | SendCreate => sent = []
  | SendStart => sent = [Enqueue CreateContext]
  | SendTurn turn AwaitChild => sent = [Enqueue CreateContext] ∧ start_message (Enqueue (Append turn))
  | AwaitChild | SendEnd _ _ => started []
  | SendTurn turn (NoteExit code) => started [] ∧ end_message code (Enqueue (Append turn))
  | NoteExit code | SendShutdown (Ok code) => ∃ m, end_message code m ∧ started [m]
  | AwaitAck (Ok code) | Finalize (Ok code) | Returned (Ok code) =>
      ∃ m, end_message code m ∧ started [m; Shutdown]
  | SendTurn _ _ => False
  | SendShutdown (Err _) | AwaitAck (Err _) | Finalize (Err _) | Returned (Err _) => True
  end.

Lemma sent_sending message next (v : Delivery W) phase' v' :
  sending message next v = Some (phase', v') →
  (phase' = next ∧ drop (length (dv_rx v)) (dv_rx v') = [message]) ∨ phase' = Returned (Err WorkerGone).
Proof.
  unfold sending, send_message. destruct (dv_phase v).
  1, 2: destruct (_ <? _); [|done]; intros [= <- <-]; left; split; [done|]; cbn; by rewrite drop_app_length.
  1, 2: intros [= <- <-]; by right.
Qed.
Lemma sent_noting op next (v : Delivery W) phase' v' :
  noting op next v = Some (phase', v') →
  drop (length (dv_rx v)) (dv_rx v') = []
  ∧ (phase' = next ∨ ∃ err, phase' = Returned (Err (LedgerUnwritten err))).
Proof.
  unfold noting, with_files. destruct (op _ _) as [[[[]|err] l] w]; intros [= <- <-]; cbn;
    rewrite drop_all; eauto.
Qed.

Lemma sent_step sent phase v phase' v' :
  sent_before phase sent → main_step phase v = Some (phase', v') →
  sent_before phase' (sent ++ drop (length (dv_rx v)) (dv_rx v')).
Proof.
  intros Hs. destruct phase as [|pid| | | |code success|code|outcome|outcome|outcome|outcome|turn next];
    cbn [CxtxRun.main_step].
  - destruct (ch_spawn child (dv_world v)) as [[pid|err] w]; [|destruct (with_files _ _)]; intros [= <- <-];
      cbn; [by rewrite drop_all, app_nil_r|done].
  - intros [Hd [->|[err ->]]]%sent_noting; cbn in Hd |- *; [by rewrite Hd, app_nil_r|done].
  - intros [[-> ->]| ->]%sent_sending; cbn; [by rewrite Hs|done].
  - destruct (session_start_turn _ _ _) as [turn st] eqn:He. intros [= <- <-]. cbn.
    rewrite drop_all, app_nil_r. split; [done|]. unfold session_start_turn, envelope in He.
    destruct (next_turn_ordinal _) as [ordinal st']. injection He as <- <-. by eexists _, _, _.
  - destruct (ch_wait _) as [[[code success]|err]|]; [| |done]; intros [= <- <-];
      [by rewrite drop_all, app_nil_r|done].
  - destruct (session_end_turn _ _ _ _ _) as [turn st] eqn:He. intros [= <- <-]. cbn.
    rewrite drop_all, app_nil_r. split; [done|]. unfold session_end_turn, envelope in He.
    destruct (next_turn_ordinal _) as [ordinal st']. injection He as <- <-. by eexists _, _, _.
  - intros [Hd [->|[err ->]]]%sent_noting; [by rewrite Hd, app_nil_r|done].
  - unfold send_message. destruct (dv_phase v), outcome as [code|err]; try (destruct (_ <? _); [|done]);
      intros [= <- <-]; try done; cbn; rewrite drop_app_length;
      destruct Hs as (m & He & m' & Hst & ->); (exists m; split; [done|]; by exists m').
  - destruct (dv_phase v), outcome as [code|err]; try done; intros [= <- <-]; try done.
    cbn. by rewrite drop_all, app_nil_r.
  - destruct (with_files _ _) as [r v1] eqn:Hf. unfold with_files in Hf. destruct (finalize _ _ _ _) as [[r1 l1] w1].
    injection Hf as <- <-. intros [= <- <-]. destruct outcome as [code|err]; [|done]. destruct r1; [|done].
    cbn. by rewrite drop_all, app_nil_r.
  - done.
  - intros Hst. apply sent_sending in Hst as [[-> ->]| ->]; [|done].
    destruct next; try done; cbn in Hs |- *.
    + destruct Hs as [-> Hm]. by eexists.
    + destruct Hs as [(m & Hm & ->) He]. eexists. split; [exact He|]. by exists m.
Qed.

(** A run that returns the exit code of the tool handed over, in this order and nothing else, the
    request for a context, the start of the session, its end with this exit code, and the shutdown,
    whatever the proxy and the worker did in between. *)
Theorem main_hands_over sent code :
  main_run sent (Returned (Ok code)) →
  ∃ m_start m_end, start_message m_start ∧ end_message code m_end
    ∧ sent = [Enqueue CreateContext; m_start; m_end; Shutdown].
Proof.
  intros Hr. assert (Hb : ∀ phase, main_run sent phase → sent_before phase sent).
  { clear Hr. revert sent. intros sent phase. induction 1 as [|sent phase v phase' v' _ IH Hst]; [done|].
    by eapply sent_step. }
  apply Hb in Hr. destruct Hr as (m_end & He & m_start & Hs & ->). by exists m_start, m_end.
Qed.

End main.

(** ** A run *)

Module RunSample.
#[local] Existing Instance Sample.unicode.
#[local] Existing Instance ProxySample.sample_url.
#[local] Existing Instance DeliverySample.sample_turn_text.
#[local] Existing Instance DeliverySample.sample_ledger_text.
#[local] Existing Instance DeliverySample.sample_files.
#[local] Existing Instance DeliverySample.sample_client.

Lemma routes_below_base_witness :
  resolve_route Codex (Single ($"https://api", $"/v1/", None))
    (mkUri ($"/v1/chat/completions") (Some ($"stream=1")))
  = Ok (OpenAi, ($"https://api", $"/v1/chat/completions", Some ($"stream=1"))).
Proof.
  exact (proj1 (routes_below_base ($"https://api", $"/v1/", None) Byte.x63 ($"hat/completions")
    (Some ($"stream=1")) eq_refl ltac:(discriminate))).
Defined.

(** A prefix of the path is enough for a mount to match. *)
Example mount_without_boundary :
  resolve_route Codex (Single ($"https://api", $"/v1", None)) (mkUri ($"/v1beta/models") None)
  = Ok (OpenAi, ($"https://api", $"/v1/beta/models", None)).
Proof. vm_compute. reflexivity. Qed.

(** For Pi the path of the provider's base URL is not used. *)
Example base_path_dropped :
  resolve_route Pi (DualProtocol ($"https://gateway", $"/openai-eu/v1", None) ($"https://api", $"/", None))
    (mkUri ($"/openai/v1/chat/completions") None)
  = Ok (OpenAi, ($"https://gateway", $"/v1/chat/completions", None)).
Proof. vm_compute. reflexivity. Qed.

(** A tool that ends with 3. *)
#[local] Instance sample_process : ChildProcess DeliverySample.World := {
  ch_spawn _ w := (Ok (Some 7), w);
  ch_wait _ := Some (Ok (Some 3%Z, false))
}.
Definition child : ChildCommand := mkChildCommand ($"codex") [] ∅.
Definition step := main_step DeliverySample.paths DeliverySample.session child.
Definition v0 : Delivery DeliverySample.World := DeliverySample.start [].
Definition ended : Delivery DeliverySample.World :=
  mkDelivery Finished (dv_worker v0) [] true (dv_state v0) (dv_ledger v0) (dv_world v0).

(** The phases of a run in which the worker does nothing until it ends. *)
Fixpoint run (n : nat) (phase : MainPhase) (v : Delivery DeliverySample.World)
    : option (MainPhase * Delivery DeliverySample.World) :=
  match n with
  | O => Some (phase, v)
  | S n => r ← step phase v; run n r.1 r.2
  end.

Lemma run_steps n sent phase v phase' v' :
  main_run DeliverySample.paths DeliverySample.session child sent phase →
  run n phase v = Some (phase', v') →
  ∃ sent', main_run DeliverySample.paths DeliverySample.session child (sent ++ sent') phase'.
Proof.
  revert sent phase v. induction n as [|n IH]; intros sent phase v Hr; cbn [run].
  - intros [= <- <-]. exists []. by rewrite app_nil_r.
  - destruct (step phase v) as [[phase1 v1]|] eqn:Hst; [|done]. intros Hrun.
    destruct (IH _ _ _ (run_step _ _ _ _ _ _ _ _ Hr Hst) Hrun) as [sent' Hs].
    rewrite <- app_assoc in Hs. by eexists.
Qed.

Lemma main_hands_over_witness :
  ∃ sent m_start m_end, end_message DeliverySample.session 3 m_end
    ∧ sent = [Enqueue CreateContext; m_start; m_end; Shutdown].
Proof.
  assert (H1 : run 10 Launch v0 = Some (AwaitAck (Ok 3%Z), default v0 (snd <$> run 10 Launch v0)))
    by (vm_compute; reflexivity).
  assert (H2 : run 2 (AwaitAck (Ok 3%Z)) ended = Some (Returned (Ok 3%Z), default v0 (snd <$> run 2 (AwaitAck (Ok 3%Z)) ended)))
    by (vm_compute; reflexivity).
  destruct (run_steps _ _ _ _ _ _ (run_start _ _ _) H1) as [sent Hrun].
  destruct (run_steps _ _ _ _ _ _ Hrun H2) as [sent' Hrun'].
  destruct (main_hands_over DeliverySample.paths DeliverySample.session child _ _ Hrun')
    as (m_start & m_end & _ & He & Hs).
  by exists (([] ++ sent) ++ sent'), m_start, m_end.
Defined.

End RunSample.
